(* ===== verification/_CoqProject ===== *)
-Q . S2P
Prelude.v
GoFloat.v
GoString.v
FloatExact.v
FloatOrder.v
FloatBound.v
GoSort.v
SlidingWindow.v
Breaker.v
Breakers.v
BreakersSpec.v
Queue.v
QueueSpec.v
Budget.v
Admission.v
Protocol.v
ProtocolSpec.v
Registry.v
RegistrySpec.v
Cost.v
RateLimit.v
RateKeys.v
RateSpec.v
RateScript.v
RateRefine.v
RedisClient.v
Limiter.v
LimiterSpec.v
Scheduler.v
SchedulerSpec.v
History.v
Tracker.v
TrackerSpec.v
Capacity.v
Snapshot.v
Api.v
Router.v
RouterSpec.v
RouterAnswers.v
SimParams.v
SimEngine.v
SimEngineSpec.v
SimEngineRun.v
SimEngineTrace.v
Tokens.v
TokensSpec.v
Sha256.v
AuthKey.v
Lru.v
Auth.v
AuthSpec.v
Events.v
Usage.v
UsageSpec.v
Attempt.v
AttemptSpec.v
AttemptMain.v
AttemptPhase.v
