(* ===== verification/Prelude.v ===== *)
(** * ServerFlow: a verification development

    ServerFlow is an inference gateway in Go: requests for a model arrive at a gateway, pass a
    rate limiter, and are routed to one of the workers that a registry (the control plane)
    lists for the model.  This library models the parts that decide: what is admitted, where it
    goes, and what happens when workers or Redis fail.  Paths below are under src/.

    ** The parts and how they meet

    A worker registers and sends heartbeats (pkg/protocol, internal/registry).  The gateway
    keeps an aged copy of the registry's view (internal/gateway/snapshot.go).  A request is
    authenticated (internal/auth), priced (internal/cost), checked against its tenant's quotas in Redis
    (internal/ratelimit, internal/redis), counted against the global cap
    (internal/resilience/admission.go) and routed (internal/gateway/router.go): the router takes
    the view, leaves out workers whose circuit breaker is open (internal/resilience), overlays
    what it has in flight itself (internal/scheduler/signals), lets the strategy choose
    (internal/scheduler), takes the breaker's ticket and the slot, or queues the request
    (internal/resilience/queue.go).  The request is sent to the worker and, while nothing has
    reached the client, may be tried on another one (internal/gateway/attempt.go, retry.go), within
    a deadline and a budget (internal/resilience/budget.go); the last response is relayed
    (handlers.go).  A release hands the slot to the head waiter or frees it.  Every finished
    request becomes an event, and a usage row (internal/usage).

    ** The files

    Foundations.  [Prelude]: Go's 64-bit integers, times, map iteration, record update, counting.
    [GoFloat]: float64 as SpecFloat, rounding and comparison as IEEE 754 has them, conversions
    with amd64's out-of-range answer.  [FloatExact], [FloatOrder], [FloatBound]: when operations
    are exact, the order, bounds.  [GoString]: byte strings, UTF-8, decimal, sorting by a string
    key.  [GoSort]: sort.Search, sort.Float64s.

    internal/resilience.  [SlidingWindow] (doc.go): the ring of buckets refines counts per
    bucket.  [Breaker], [Breakers], [BreakersSpec] (breaker.go, breakers.go): one worker's state
    machine and the set of them with the ejection cap.  [Queue], [QueueSpec] (queue.go): the FIFO
    per model, hand-off, wake-ups.  [Budget] (budget.go).  [Admission] (admission.go), at the
    grain of its atomic operations.

    pkg/protocol and internal/registry.  [Protocol], [ProtocolSpec] (worker.go):
    states, validation of ids, models, hosts and addresses.  [Registry], [RegistrySpec]
    (registry.go): registration, heartbeats, health, sweeps, the views.

    internal/cost.  [Cost]: the token estimate and the weighted work.

    internal/ratelimit and internal/redis.  [RateLimit]: the reference model of the quotas.
    [RateKeys]: the Redis keys.  [RateSpec]: what the model guarantees.  [RateScript]: the Lua
    scripts on an abstract Redis ([RedisServer]), on doubles.  [RateRefine]: they refine the
    model.  [RedisClient]: the client's back-off gate.  [Limiter], [LimiterSpec]: the gateway's
    limiter with its lease table, renewals and failure modes, and the reference it is compared with.

    internal/scheduler and internal/scheduler/signals.  [Scheduler], [SchedulerSpec]
    (scheduler.go, workaware.go): the filter and the six strategies.  [History] (the record of
    starts and finishes in tracker.go), [Tracker], [TrackerSpec] (tracker.go): the ledger and the
    overlay, against the log of a worker's starts and finishes since its record began.  [Capacity] (capacity.go): what the estimate of throughput guarantees.

    internal/gateway and internal/api.  [Snapshot] (snapshot.go): the cached view.  [Api]
    (errors.go): the errors.  [Router], [RouterSpec], [RouterAnswers] (router.go, parts of resilience.go and
    resilience_queue.go): the composition, its counts, and how a routing ends.  [Tokens], [TokensSpec] (tokens.go): the counts read
    off a response as it passes.  [Attempt], [AttemptSpec], [AttemptMain], [AttemptPhase] (attempt.go, retry.go,
    resilience_attempt.go, parts of resilience_queue.go and handlers.go): a request from its first
    routing to its answer, its retries, its verdicts and its cleanup.

    internal/auth.  [Sha256]: the standard library's hash.  [AuthKey] (key.go): the key format.
    [Lru] (lru.go): the bounded map.  [Auth], [AuthSpec] (authenticator.go, types.go): the caches
    in front of the key store, shared and bounded lookups, outages; requests and lookups are
    goroutines that interleave at the lock's boundaries.

    pkg/protocol and internal/usage.  [Events] (events.go): lifecycle events, their validation
    and decoding.  [Usage], [UsageSpec] (consumer.go, internal/postgres/usage.go,
    migrations/0003_usage_records.sql): the consumer that turns terminal events into usage rows,
    with the tables it writes and the topic it reads.

    internal/sim/engine.  [SimParams], [SimEngine] (params.go, engine.go, rate.go): the model of
    an inference engine that capacity planning runs.  [SimEngineSpec]: its invariant,
    [SimEngineRun]: the measure its iterations decrease, [SimEngineTrace]: its event streams and
    the theorems.

    ** How the code is modelled

    A struct is a record with the source's fields; a map is a gmap, a list updated in place a
    list.  Pointers that are shared (a waiter, a lease, a routed handle, a snapshot) are
    addresses into a heap that the state carries.  A method that holds its mutex throughout is
    one step, with the clock's reading and the random number as arguments; a method that drops
    the lock, or uses atomics, is split at those points, and the theorems quantify over the
    interleavings of the pieces: the step relations of [Admission], [Limiter], [RedisClient],
    [QueueSpec] and [Auth].  The router composes components with locks of their own, so a router operation
    is a computation in a state monad in which an arbitrary function, standing for the other
    goroutines, acts on the components before every call into them; what the router's own mutex
    protects it changes alone.  A goroutine's operations outside that mutex (reading the view
    before reserving, allocating the handle after) touch nothing the mutex protects, so an
    operation may be taken as one step.

    A request of the gateway is a computation that may panic, over the state of the router and of
    the request ([Attempt]).  Before every call others run router operations, timers fire and the
    client may leave, as the environment says; it also says what workers answer, which writes fail
    after how many bytes, and which calls panic.  Deferred functions run as Go runs them, after a panic too.  A trace
    records what the request does to the outside, and the theorems read it.

    Code that is not in the repository is an argument: the Redis server ([RedisServer], with the
    documented behaviour of the commands the scripts use), net/url ([UrlParser]), math.Exp2
    ([GoMath], in [0, 1] for exponents that are not positive), the order of map iteration
    ([GoMapOrder], any permutation), the out-of-range float conversion ([GoPlatform]), and the
    simulator's random streams, math.Log1p and math.Exp ([GoRand], any functions), and
    json.Unmarshal of an event ([EventJson], any functions).  Each has an
    instance, used by the witnesses.  crypto/rand's bytes are arguments of [GenerateKey].

    ** What the theorems show

    Composition.  [no_overcommit], [slot_accounting]: for every interleaving the router never
    holds more requests on a worker than the registry's concurrency for it, and its counts are
    its unreleased handles.  [route_answers]: a routing ends, with an offered worker of its view
    or the right refusal, and does not panic.  [sync_agrees]: the breakers are told the eligibility the router sees.
    [limiter_implements_model], [script_refines_model]: the limiter over the scripts over Redis
    decides as the reference model, the limiter as a reference of its own that has only the
    configuration and that model.  Both start on an empty Redis and bound how far its clock may
    step back (half a burst window and half the life of a lease): beyond, scripts and model differ
    ([clock_step_diverges]).

    Safety.  Quotas and leases ([quota_bound], [allow_all_or_nothing], [retry_exact],
    [lease_table]); the ejection cap and the breakers' liveness ([ejection_cap],
    [enforceCap_keeps_oldest], [never_wedged], [closed_trip_rules]); the queue neither loses nor
    duplicates a slot nor a wake-up ([slots_conserved], [no_lost_wakeup], [handoff_fifo]); the
    global cap, the retry budget, the probe gate ([admission_cap], [reserve_exact],
    [one_probe_per_backoff]); the registry ([registry_invariant], [drain_one_way],
    [superseded_refused], [sweep_invisible], [eligible_exact]); addresses
    ([validateHost_exact], [forbidden_through_embeddings]).

    Scheduling.  [select_safe], [select_best], [no_starvation]; the load it reads
    ([ledger_exact], [overlay_exact], [history_refines], [peers_clamped], [capacity_sound]);
    prices ([estimate_exact]).

    Simulation.  [stream_protocol]: the events of a request are those of one well-formed stream.
    [engine_drains], [engine_terminates]: the engine ends its work and every call returns.
    [engine_invariants], [engine_typed]: its self-check never fails and nothing overflows.

    Authentication.  [authenticate_justified]: every answer in every interleaving rests on what
    the store said, recently enough and not superseded.  [lookups_bounded], [request_finishes]:
    the store is not overrun and no caller is left waiting.  [lru_refines]: the cache is a
    least-recently-used map.

    Accounting.  [usage_exactly_once]: through crashes, lost answers and replays nothing below a
    committed offset is lost and nothing is recorded twice.  [batch_completes]: a bad record or an
    outage does not block a partition.  [rows_satisfy_schema]: what validation lets through, the
    table's constraints accept.

    Codecs.  [key_roundtrip]: the keys that parse are the keys that can be issued.
    [scanner_piecewise], [usage_roundtrip]: what is known of the tokens does not depend on how a
    body is cut, but for the count of keys that overlap ([overlap_cut]), and a reported usage is
    read exactly.

    Requests.  [attempts_closed]: every attempt is judged, released and ended exactly once, panics
    included.  [retry_rules]: where, how often and why a request is tried again, and that its
    client is answered once.  [budget_balanced]: what retries cost.  [deadline_decides]: the
    race of the first byte and its deadline has one outcome, decided by which came first.
    [relay_intact]: the bytes of a response reach the client as they are, up to a write that fails.

    Errors.  [failure_modes]: what each failure of Redis does under each mode.
    [duplicate_spins]: with a worker id listed twice, reserve's loop makes no progress while the
    worker's breaker is open.

    ** Bounds and fuel

    Recursions that are not structural take fuel, always at least the length of what they
    consume: runes and bytes of a string, hops of an address embedding (two), waiters of a queue
    (one round each), breakers of a model, candidates of a reservation (each refused round makes
    one ineligible, by [route_answers] enough when ids are distinct), keys of a body, sequences of
    a batch.  [advanceLoop] alone may run out, and then gives no engine: [engine_terminates] names
    the fuel that is enough, from the tokens left.  The rounds in which
    transitions are delivered are an input, because only interference prolongs them.  The loop
    of a request takes a round per attempt the policy allows and one more, which [retry_rules] shows
    to be enough; how often a queued request looks at its place is an input, and a request
    that still waits after that has not returned ([Hang]).  Counters
    wrap at 64 bits where the source's do; theorems that need room state it (fewer than 2^63
    handles, 2^62 events).

    ** Not modelled

    The warning [flush] logs about dropped transitions, and a panic of its log handler.
    HTTP handlers and middleware before the first routing, static mode, the transport to a worker
    (its answer is an input, as is the error code a peeked body holds), headers other than the
    status and the number of attempts, tickers and timers (which fires, and when, is an input), JSON and YAML codecs,
    configuration, PostgreSQL but for the usage tables, Kafka's groups and the publisher (their
    meaning is the server's), tracing, metrics and logs (they decide nothing), the worker agent and its mock, the
    benchmarks and the file format of the simulator's parameters (outside the serving path). *)

From Stdlib Require Export ZArith Lia.
From stdpp Require Export base list gmap strings fin_maps sorting.

#[global] Set Warnings "-clear-no-such-hyp".

(** ** Go's integers.

    Go's [int] and [int64] are 64-bit two's complement.  The model keeps them as [Z]; where a
    computation of the source could leave the width, the wrap-around is written out with
    [wrap64] (and the [+!], [-!], [*!] notations), and a theorem shows the range in which it is
    the identity. *)

Local Open Scope Z_scope.

#[global] Arguments Z.ltb : simpl never.
#[global] Arguments Z.leb : simpl never.
#[global] Arguments Z.eqb : simpl never.
#[global] Arguments Z.add : simpl never.
#[global] Arguments Z.sub : simpl never.
#[global] Arguments Z.mul : simpl never.
#[global] Arguments Z.max : simpl never.
#[global] Arguments Z.min : simpl never.
#[global] Arguments Z.quot : simpl never.
#[global] Arguments Z.rem : simpl never.
#[global] Arguments Nat.ltb : simpl never.
#[global] Arguments Nat.leb : simpl never.
#[global] Arguments Nat.eqb : simpl never.

Declare Scope go_scope.
Delimit Scope go_scope with go.

Definition int64_min : Z := - 2 ^ 63.
Definition int64_max : Z := 2 ^ 63 - 1.

Definition in64 (z : Z) : Prop := int64_min ≤ z ≤ int64_max.

(** Two's-complement wrap-around to 64 bits. *)
Definition wrap64 (z : Z) : Z := (z - int64_min) mod 2 ^ 64 + int64_min.

Notation "a +! b" := (wrap64 (a + b)) (at level 50, left associativity) : go_scope.
Notation "a -! b" := (wrap64 (a - b)) (at level 50, left associativity) : go_scope.
Notation "a *! b" := (wrap64 (a * b)) (at level 40, left associativity) : go_scope.

Lemma wrap64_id z : in64 z → wrap64 z = z.
Proof.
  unfold in64, wrap64, int64_min, int64_max. intros ?.
  rewrite Z.mod_small; lia.
Qed.

Lemma wrap64_range z : in64 (wrap64 z).
Proof.
  unfold in64, wrap64, int64_min, int64_max.
  pose proof (Z.mod_pos_bound (z - - 2 ^ 63) (2 ^ 64) eq_refl). lia.
Qed.

(** Unsigned 64-bit integers. *)
Definition wrapU64 (z : Z) : Z := z mod 2 ^ 64.

Lemma wrapU64_id z : 0 ≤ z < 2 ^ 64 → wrapU64 z = z.
Proof. apply Z.mod_small. Qed.

(** ** Go's clock.

    A [time.Time] taken from the clock carries a wall reading and a monotonic reading.
    [Sub], [Before], [After] and [Equal] use the monotonic one, [UnixNano] the wall one, and
    [Add] moves both.  Durations are nanoseconds. *)

Record Time := mkTime { wall : Z; mono : Z }.

#[global] Instance Time_eq_dec : EqDecision Time.
Proof. solve_decision. Defined.

(** The zero [time.Time], the value of a field that was never set. *)
Definition zeroTime : Time := mkTime (-62135596800000000000) 0.

Definition Microsecond : Z := 1000.
Definition Millisecond : Z := 1000000.
Definition Second : Z := 1000000000.

Definition UnixNano (t : Time) : Z := wall t.
(** [time.Time.Sub] saturates at the limits of a [Duration]. *)
Definition Sub (a b : Time) : Z := Z.max int64_min (Z.min (mono a - mono b) int64_max).
Definition Add (t : Time) (d : Z) : Time := mkTime (wall t + d) (mono t + d).
Definition Before (a b : Time) : bool := mono a <? mono b.
Definition After (a b : Time) : bool := mono b <? mono a.
Definition Equal (a b : Time) : bool := mono a =? mono b.

(** [Clock_le a b]: reading [b] was taken after reading [a] on a clock that did not step back. *)
Definition clock_le (a b : Time) : Prop := wall a ≤ wall b ∧ mono a ≤ mono b.

Lemma clock_le_refl a : clock_le a a.
Proof. unfold clock_le; lia. Qed.

Lemma clock_le_trans a b c : clock_le a b → clock_le b c → clock_le a c.
Proof. unfold clock_le; lia. Qed.

(** ** Automation. *)

Create HintDb sflow.
Create Rewrite HintDb sflow.
#[export] Hint Resolve clock_le_refl clock_le_trans wrap64_id wrap64_range : sflow.

(** [bdestr]: case analysis on the boolean comparisons of the goal, with the propositions
    they decide in the context. *)
Ltac bdestr1 b :=
  lazymatch b with
  | Z.ltb ?x ?y => destruct (Z.ltb_spec x y)
  | Z.leb ?x ?y => destruct (Z.leb_spec x y)
  | Z.eqb ?x ?y => destruct (Z.eqb_spec x y)
  | Nat.ltb ?x ?y => destruct (Nat.ltb_spec x y)
  | Nat.leb ?x ?y => destruct (Nat.leb_spec x y)
  | Nat.eqb ?x ?y => destruct (Nat.eqb_spec x y)
  | String.eqb ?x ?y => destruct (String.eqb_spec x y)
  | bool_decide ?P => destruct (bool_decide_reflect P)
  | negb ?x => bdestr1 x
  | andb ?x _ => bdestr1 x
  | orb ?x _ => bdestr1 x
  | _ => let E := fresh "E" in destruct b eqn:E
  end.

Ltac bdestr :=
  repeat (match goal with
          | |- context [if ?b then _ else _] => bdestr1 b
          | H : context [if ?b then _ else _] |- _ => bdestr1 b
          end; simpl in *; try congruence).

(** Turn boolean hypotheses into propositions. *)
Ltac bprop :=
  repeat match goal with
  | H : andb _ _ = true |- _ => apply andb_true_iff in H; destruct H
  | H : orb _ _ = false |- _ => apply orb_false_iff in H; destruct H
  | H : negb _ = true |- _ => apply negb_true_iff in H
  | H : negb _ = false |- _ => apply negb_false_iff in H
  | H : Z.ltb _ _ = true |- _ => apply Z.ltb_lt in H
  | H : Z.ltb _ _ = false |- _ => apply Z.ltb_ge in H
  | H : Z.leb _ _ = true |- _ => apply Z.leb_le in H
  | H : Z.leb _ _ = false |- _ => apply Z.leb_gt in H
  | H : Z.eqb _ _ = true |- _ => apply Z.eqb_eq in H
  | H : Z.eqb _ _ = false |- _ => apply Z.eqb_neq in H
  | H : String.eqb _ _ = true |- _ => apply String.eqb_eq in H
  | H : String.eqb _ _ = false |- _ => apply String.eqb_neq in H
  | H : bool_decide _ = true |- _ => apply bool_decide_eq_true in H
  | H : bool_decide _ = false |- _ => apply bool_decide_eq_false in H
  end.

(** ** Record update.

    [r <| f := v |>] is [r] with field [f] set to [v], as the assignment [r.f = v].  A record
    type opts in with an instance of [Settable], its eta-expansion; the setter of a projection
    is that expansion with the projection replaced. *)

Class Settable (R : Type) := mkSettable { eta_of : R → R }.

Definition Setter {R T : Type} (getter : R → T) : Type := (T → T) → R → R.
Existing Class Setter.

Ltac solve_setter :=
  lazymatch goal with
  | |- @Setter ?R ?T ?getter =>
      let inst := constr:(@eta_of R _) in
      let e := eval hnf in inst in
      lazymatch (eval pattern getter in e) with
      | ?body _ => exact (λ (f : T → T) (r : R), body (λ r', f (getter r')) r)
      end
  end.

#[global] Hint Extern 1 (Setter _) => solve_setter : typeclass_instances.

Definition rset {R T : Type} (getter : R → T) {S : Setter getter} (f : T → T) (r : R) : R := S f r.

Declare Scope record_scope.
Open Scope record_scope.
Notation "x <| f := v |>" := (rset f (λ _, v) x)
  (at level 1, f at level 9, v at level 199, left associativity, format "x  <|  f  :=  v  |>") : record_scope.

(** ** Go's maps.

    A map is a [gmap].  The order in which [range] visits it is unspecified: an instance of
    [GoMapOrder] is one such order, and every theorem holds for all of them. *)

Class GoMapOrder := {
  go_range : ∀ {A : Type}, list A → list A;
  go_range_perm : ∀ (A : Type) (l : list A), go_range l ≡ₚ l;
}.

Definition range_map `{GoMapOrder} `{Countable K} {V} (m : gmap K V) : list (K * V) :=
  go_range (map_to_list m).

Lemma range_map_perm `{GoMapOrder} `{Countable K} {V} (m : gmap K V) :
  range_map m ≡ₚ map_to_list m.
Proof. apply go_range_perm. Qed.

Lemma elem_of_range_map `{GoMapOrder} `{Countable K} {V} (m : gmap K V) k v :
  (k, v) ∈ range_map m ↔ m !! k = Some v.
Proof. rewrite range_map_perm. apply elem_of_map_to_list. Qed.

(** An order to compute with. *)
Definition order_id : GoMapOrder := {| go_range := λ _ l, l; go_range_perm := λ _ l, Permutation_refl l |}.

(** ** Sums and counts over lists. *)

Definition sumZ (l : list Z) : Z := foldr Z.add 0 l.

Lemma sumZ_app l k : sumZ (l ++ k) = sumZ l + sumZ k.
Proof. induction l as [|x l IH]; simpl; lia. Qed.

Lemma sumZ_perm l k : l ≡ₚ k → sumZ l = sumZ k.
Proof. induction 1; simpl; lia. Qed.

Lemma sumZ_nonneg l : Forall (λ x, 0 ≤ x) l → 0 ≤ sumZ l.
Proof. induction 1; simpl; lia. Qed.

Lemma sumZ_zero l x : Forall (λ x, 0 ≤ x) l → sumZ l = 0 → x ∈ l → x = 0.
Proof.
  induction 1 as [|y l Hy Hl IH]; simpl; intros Hs Hx; [set_solver|].
  pose proof (sumZ_nonneg l Hl). apply elem_of_cons in Hx as [->|Hx]; [lia|]. apply IH; [lia|done].
Qed.

Lemma sumZ_fmap_add {A} (f g : A → Z) l :
  sumZ ((λ x, f x + g x) <$> l) = sumZ (f <$> l) + sumZ (g <$> l).
Proof. induction l as [|x l IH]; csimpl; [done|]. rewrite IH. lia. Qed.

Lemma sumZ_fmap_0 {A} (f : A → Z) l : (∀ x, x ∈ l → f x = 0) → sumZ (f <$> l) = 0.
Proof.
  induction l as [|x l IH]; intros H; csimpl; [done|].
  rewrite (H x), IH; [done|set_solver|set_solver].
Qed.

(** A sum with one non-zero term. *)
Lemma sumZ_fmap_single {A} (f : A → Z) l x :
  NoDup l → x ∈ l → (∀ y, y ∈ l → y ≠ x → f y = 0) → sumZ (f <$> l) = f x.
Proof.
  intros Hnd Hx Hf. apply list_elem_of_split in Hx as (l1 & l2 & ->).
  apply NoDup_app in Hnd as (_ & H12 & [Hx2 _]%NoDup_cons).
  rewrite fmap_app, sumZ_app. simpl.
  rewrite !sumZ_fmap_0; [lia|..]; intros y Hy; apply Hf; set_solver.
Qed.

(** The number of elements that satisfy a test. *)
Definition countb {A} (p : A → bool) (l : list A) : Z := sumZ ((λ x, Z.b2z (p x)) <$> l).

Lemma countb_nil {A} (p : A → bool) : countb p [] = 0.
Proof. done. Qed.

Lemma countb_cons {A} (p : A → bool) x l : countb p (x :: l) = Z.b2z (p x) + countb p l.
Proof. done. Qed.

Lemma countb_app {A} (p : A → bool) l k : countb p (l ++ k) = countb p l + countb p k.
Proof. unfold countb. by rewrite fmap_app, sumZ_app. Qed.

Lemma countb_nonneg {A} (p : A → bool) l : 0 ≤ countb p l.
Proof. induction l as [|x l IH]; [done|]. rewrite countb_cons. destruct (p x); simpl; lia. Qed.

Lemma countb_perm {A} (p : A → bool) l k : l ≡ₚ k → countb p l = countb p k.
Proof. intros H. apply sumZ_perm. by apply fmap_Permutation. Qed.

Lemma countb_ext {A} (p q : A → bool) l :
  (∀ x, x ∈ l → p x = q x) → countb p l = countb q l.
Proof.
  induction l as [|x l IH]; intros H; [done|].
  rewrite !countb_cons, (H x), IH; [done|set_solver|set_solver].
Qed.

Lemma countb_length {A} (p : A → bool) l : countb p l ≤ Z.of_nat (length l).
Proof.
  induction l as [|x l IH]; [done|]. rewrite countb_cons. simpl. destruct (p x); simpl; lia.
Qed.

(** Turning the test off at one element. *)
Lemma countb_off {A} (p q : A → bool) l x :
  NoDup l → x ∈ l → p x = true → q x = false → (∀ y, y ∈ l → y ≠ x → q y = p y) →
  countb p l = 1 + countb q l.
Proof.
  intros Hnd Hx Hp Hq Hy. apply list_elem_of_split in Hx as (l1 & l2 & ->).
  apply NoDup_app in Hnd as (_ & H12 & [Hx2 _]%NoDup_cons).
  rewrite !countb_app, !countb_cons, Hp, Hq. simpl.
  rewrite (countb_ext q p l1), (countb_ext q p l2); [lia|..]; intros y Hyl; apply Hy; set_solver.
Qed.

Lemma filter_ne_id {A} `{EqDecision A} (l : list A) x : x ∉ l → filter (λ y, y ≠ x) l = l.
Proof.
  induction l as [|y l IH]; intros Hx; [done|]. rewrite filter_cons, decide_True by set_solver.
  f_equal. apply IH. set_solver.
Qed.

(** Removing one element. *)
Lemma countb_remove {A} `{EqDecision A} (p : A → bool) l x :
  NoDup l → x ∈ l → countb p l = Z.b2z (p x) + countb p (filter (λ y, y ≠ x) l).
Proof.
  intros Hnd Hx. apply list_elem_of_split in Hx as (l1 & l2 & ->).
  apply NoDup_app in Hnd as (_ & H12 & [Hx2 _]%NoDup_cons).
  rewrite filter_app, filter_cons, decide_False by naive_solver.
  rewrite !filter_ne_id by set_solver. rewrite !countb_app, countb_cons. lia.
Qed.

#[export] Hint Resolve countb_nonneg sumZ_nonneg : sflow.
#[export] Hint Rewrite @countb_nil @countb_cons @countb_app : sflow.

(** ** Counts over finite maps. *)

Section mcount.
Context {K V : Type} `{Countable K}.
Implicit Types (m : gmap K V) (p : V → bool).

Definition mcount p m : Z := countb p ((map_to_list m).*2).

Lemma mcount_empty p : mcount p ∅ = 0.
Proof. unfold mcount. by rewrite map_to_list_empty. Qed.

Lemma mcount_insert_None p m k v :
  m !! k = None → mcount p (<[k:=v]> m) = Z.b2z (p v) + mcount p m.
Proof.
  intros Hk. unfold mcount.
  rewrite (countb_perm _ _ (v :: (map_to_list m).*2)); [done|].
  by rewrite (map_to_list_insert m k v Hk).
Qed.

Lemma mcount_delete p m k v :
  m !! k = Some v → mcount p (delete k m) = mcount p m - Z.b2z (p v).
Proof.
  intros Hk. rewrite <-(insert_delete_id m k v Hk) at 2.
  rewrite mcount_insert_None by apply lookup_delete_eq. lia.
Qed.

Lemma mcount_insert_Some p m k v w :
  m !! k = Some v → mcount p (<[k:=w]> m) = mcount p m - Z.b2z (p v) + Z.b2z (p w).
Proof.
  intros Hk. rewrite <-(insert_delete_eq m k w).
  rewrite mcount_insert_None by apply lookup_delete_eq.
  rewrite (mcount_delete p m k v Hk). lia.
Qed.

Lemma mcount_nonneg p m : 0 ≤ mcount p m.
Proof. apply countb_nonneg. Qed.

Lemma mcount_size p m : mcount p m ≤ Z.of_nat (size m).
Proof.
  unfold mcount. etrans; [apply countb_length|].
  by rewrite length_fmap, length_map_to_list.
Qed.

Lemma mcount_ext p q m :
  (∀ k v, m !! k = Some v → p v = q v) → mcount p m = mcount q m.
Proof.
  intros Hpq. apply countb_ext. intros v Hv.
  apply list_elem_of_fmap in Hv as [[k v'] [-> Hin]].
  by apply elem_of_map_to_list, Hpq in Hin.
Qed.

Lemma mcount_0 p m : mcount p m = 0 ↔ (∀ k v, m !! k = Some v → p v = false).
Proof.
  split.
  - intros Hc k v Hk. pose proof (mcount_delete p m k v Hk) as Hd.
    pose proof (mcount_nonneg p (delete k m)). destruct (p v); [simpl in *; lia|done].
  - intros Hf. rewrite (mcount_ext p (λ _, false) m Hf).
    unfold mcount. induction ((map_to_list m).*2) as [|x l IH]; [done|]. by rewrite countb_cons.
Qed.

Lemma mcount_pos p m k v : m !! k = Some v → p v = true → 0 < mcount p m.
Proof.
  intros Hk Hp. pose proof (mcount_nonneg p m).
  destruct (decide (mcount p m = 0)) as [E|]; [|lia].
  rewrite mcount_0 in E. by rewrite (E k v Hk) in Hp.
Qed.
End mcount.

#[export] Hint Resolve mcount_nonneg : sflow.

(** ** Go's string order: bytewise lexicographic. *)

Lemma string_ltb_leb a b : String.ltb a b = negb (String.leb b a).
Proof.
  unfold String.ltb, String.leb. rewrite (String.compare_antisym b a). by destruct (String.compare a b).
Qed.

Lemma string_leb_trans a b c : String.leb a b = true → String.leb b c = true → String.leb a c = true.
Proof. rewrite <-!Is_true_true. apply (transitivity (R := String.le)). Qed.

Lemma string_ltb_irrefl a : String.ltb a a = false.
Proof.
  rewrite string_ltb_leb. apply negb_false_iff, Is_true_true. apply (reflexivity (R := String.le)).
Qed.

Lemma string_ltb_trans a b c : String.ltb a b = true → String.ltb b c = true → String.ltb a c = true.
Proof.
  rewrite !string_ltb_leb, !negb_true_iff. intros Hab Hbc. destruct (String.leb c a) eqn:Hca; [|done].
  destruct (String.leb_total a b) as [Hle|Hle]; [|congruence].
  by rewrite (string_leb_trans c a b) in Hbc.
Qed.

Lemma string_ltb_total a b : a ≠ b → String.ltb a b = true ∨ String.ltb b a = true.
Proof.
  rewrite !string_ltb_leb, !negb_true_iff. intros Hne.
  destruct (String.leb b a) eqn:Hba; [|by left]. destruct (String.leb a b) eqn:Hab; [|by right].
  destruct Hne. by apply String.leb_antisym.
Qed.

Lemma string_ltb_asym a b : String.ltb a b = true → String.ltb b a = false.
Proof.
  intros Hab. destruct (String.ltb b a) eqn:Hba; [|done].
  pose proof (string_ltb_trans a b a Hab Hba) as E. by rewrite string_ltb_irrefl in E.
Qed.

(** ** Sorted lists of addresses. *)

Lemma sorted_lt_NoDup (l : list nat) : StronglySorted lt l → NoDup l.
Proof.
  induction 1 as [|x l _ IH Hx]; constructor; [|done]. intros Hin.
  rewrite Forall_forall in Hx. specialize (Hx x Hin). lia.
Qed.

Lemma sorted_lt_snoc (l : list nat) x : StronglySorted lt l → Forall (λ y, y < x)%nat l → StronglySorted lt (l ++ [x]).
Proof.
  induction 1 as [|y l _ IH Hy]; intros Hf; simpl; [repeat constructor|].
  apply Forall_cons in Hf as [Hyx Hf]. constructor; [auto|]. apply Forall_app. split; [done|by repeat constructor].
Qed.

Lemma sorted_lt_filter (l : list nat) (P : nat → Prop) `{∀ x, Decision (P x)} :
  StronglySorted lt l → StronglySorted lt (filter P l).
Proof.
  induction 1 as [|y l _ IH Hy]; [constructor|]. rewrite filter_cons. case_decide; [|done].
  constructor; [done|]. rewrite Forall_forall in *. intros z [_ Hz]%list_elem_of_filter. auto.
Qed.
