(* ===== verification/GoFloat.v ===== *)
(** * Go's float64

    A [float64] is an IEEE-754 binary64 number: [SpecFloat]'s [spec_float] with 53 bits of
    precision and [emax = 1024], rounding to nearest even.  Every operation below is the IEEE
    one, so the model computes bit for bit what the amd64 build of the source computes (the Go
    specification lets other architectures fuse [x*y + z]; the model does not fuse).

    What the language leaves open is a parameter: the conversion of a float to an integer
    type that cannot hold it has an implementation-dependent result, given by an instance of
    [GoPlatform]. *)

From Stdlib Require Import SpecFloat.
From S2P Require Import Prelude.

Local Open Scope Z_scope.

Definition float64 : Type := spec_float.

#[global] Instance float64_eq_dec : EqDecision float64.
Proof. unfold float64, EqDecision, Decision. decide equality; apply _ || apply Z.eq_dec || apply Pos.eq_dec || apply Bool.bool_dec. Defined.

Definition prec : Z := 53.
Definition emax : Z := 1024.

(** Conversion of an integer: the nearest double. *)
Definition f64 (z : Z) : float64 := binary_normalize prec emax z 0 false.

Definition fadd (x y : float64) : float64 := SFadd prec emax x y.
Definition fsub (x y : float64) : float64 := SFsub prec emax x y.
Definition fmul (x y : float64) : float64 := SFmul prec emax x y.
Definition fdiv (x y : float64) : float64 := SFdiv prec emax x y.
Definition fopp (x : float64) : float64 := SFopp x.
Definition fabs (x : float64) : float64 := SFabs x.

Definition flt (x y : float64) : bool := SFltb x y.
Definition fle (x y : float64) : bool := SFleb x y.
Definition feq (x y : float64) : bool := SFeqb x y.

Definition f0 : float64 := S754_zero false.
Definition f1 : float64 := f64 1.
Definition fInf : float64 := S754_infinity false.

Definition isNaN (x : float64) : bool := match x with S754_nan => true | _ => false end.
Definition isInf (x : float64) : bool := match x with S754_infinity _ => true | _ => false end.

(** The decimal literal [m * 10^-k], for [m] and [10^k] below 2^53: both are exact and the
    division rounds once, so this is the nearest double of the literal. *)
Definition flit (m : Z) (k : Z) : float64 := fdiv (f64 m) (f64 (10 ^ k)).

(** [math.Min] and [math.Max]. *)
Definition signbit (x : float64) : bool :=
  match x with
  | S754_zero s => s
  | S754_infinity s => s
  | S754_nan => false
  | S754_finite s _ _ => s
  end.

Definition fmin (x y : float64) : float64 :=
  match x, y with
  | S754_infinity true, _ => S754_infinity true
  | _, S754_infinity true => S754_infinity true
  | S754_nan, _ => S754_nan
  | _, S754_nan => S754_nan
  | S754_zero true, S754_zero _ => x
  | S754_zero false, S754_zero _ => y
  | _, _ => if flt x y then x else y
  end.

Definition fmax (x y : float64) : float64 :=
  match x, y with
  | S754_infinity false, _ => S754_infinity false
  | _, S754_infinity false => S754_infinity false
  | S754_nan, _ => S754_nan
  | _, S754_nan => S754_nan
  | S754_zero true, S754_zero _ => y
  | S754_zero false, S754_zero _ => x
  | _, _ => if flt y x then x else y
  end.

(** The signed integer mantissa of a finite float. *)
Definition smant (s : bool) (m : positive) : Z := if s then Z.neg m else Z.pos m.

(** [math.Floor] and [math.Ceil]: the identity on zeros, infinities, NaN and the integers; a
    result of zero keeps the sign the library gives it (-0 for [Ceil] of (-1,0)). *)
Definition ffloor (x : float64) : float64 :=
  match x with
  | S754_finite s m (Zneg p) =>
      let q := smant s m / 2 ^ Z.pos p in
      if q =? 0 then S754_zero false else binary_normalize prec emax q 0 false
  | _ => x
  end.

Definition fceil (x : float64) : float64 :=
  match x with
  | S754_finite s m (Zneg p) =>
      let q := - (- smant s m / 2 ^ Z.pos p) in
      if q =? 0 then S754_zero s else binary_normalize prec emax q 0 false
  | _ => x
  end.

(** [math.Round]: to the nearest integer, a half away from zero, the sign kept. *)
Definition fround (x : float64) : float64 :=
  match x with
  | S754_finite s m (Zneg p) =>
      let q := (2 * Z.pos m + 2 ^ Z.pos p) / 2 ^ (Z.pos p + 1) in
      if q =? 0 then S754_zero s else binary_normalize prec emax (if s then - q else q) 0 false
  | _ => x
  end.

(** [math.Sqrt]. *)
Definition fsqrt (x : float64) : float64 := SFsqrt prec emax x.

(** Truncation towards zero of a finite float; [None] for an infinity or NaN. *)
Definition ftrunc (x : float64) : option Z :=
  match x with
  | S754_zero _ => Some 0
  | S754_finite s m e =>
      Some (match e with
            | Zneg p => Z.quot (smant s m) (2 ^ Z.pos p)
            | _ => smant s m * 2 ^ e
            end)
  | _ => None
  end.

(** The implementation-dependent part of the language. *)
Class GoPlatform := { float_to_int_oob : float64 → Z }.

(** [int(x)] and [int64(x)]: truncation, or the platform's value when the result does not fit. *)
Definition float_to_int `{GoPlatform} (x : float64) : Z :=
  match ftrunc x with
  | Some z => if (int64_min <=? z) && (z <=? int64_max) then z else float_to_int_oob x
  | None => float_to_int_oob x
  end.

(** amd64 answers the "integer indefinite" value. *)
Definition amd64 : GoPlatform := {| float_to_int_oob := λ _, int64_min |}.

(** [time.Duration.Seconds]. *)
Definition Seconds (d : Z) : float64 :=
  fadd (f64 (Z.quot d Second)) (fdiv (f64 (Z.rem d Second)) (f64 Second)).

(** [float64(d)] of a duration is [f64 d]. *)

(** Concrete checks of the operations against values computed by Go. *)
Example f64_third : fmul (flit 1 1) (f64 3) = S754_finite false 5404319552844596 (-54).
Proof. vm_compute. reflexivity. Qed.

Example floor_half_of_3 : ffloor (fadd (fmul (flit 5 1) (f64 3)) (flit 1 9)) = f64 1.
Proof. vm_compute. reflexivity. Qed.

Example round_half_away : (fround (flit 25 1), fround (fopp (flit 25 1)), fround (flit 4 1)) = (f64 3, f64 (-3), f0).
Proof. vm_compute. reflexivity. Qed.

Example ceil_seconds : fceil (Seconds 1500000000) = f64 2.
Proof. vm_compute. reflexivity. Qed.
