(* ===== verification/GoString.v ===== *)
(** * Go's strings, bytes and UTF-8

    A Go string is a byte string, modelled by [string]; a byte is its value in [0, 255].  This
    file holds the parts of the packages strings, strconv, unicode/utf8 and sort that the
    program uses, and the byte classes its validators test. *)

From Stdlib Require Import Ascii String.
From S2P Require Import Prelude.

Local Open Scope string_scope.
Local Open Scope list_scope.
Local Open Scope Z_scope.

Definition byte_of (c : ascii) : Z := Z.of_nat (nat_of_ascii c).

Definition bytes (s : string) : list Z := byte_of <$> String.list_ascii_of_string s.

Definition of_bytes (l : list Z) : string :=
  String.string_of_list_ascii ((λ b, ascii_of_nat (Z.to_nat b)) <$> l).

Definition slen (s : string) : Z := Z.of_nat (String.length s).

Lemma byte_of_range c : 0 ≤ byte_of c < 256.
Proof. unfold byte_of. pose proof (nat_ascii_bounded c). lia. Qed.

Lemma of_bytes_bytes s : of_bytes (bytes s) = s.
Proof.
  unfold of_bytes, bytes. rewrite <-list_fmap_compose.
  transitivity (String.string_of_list_ascii (String.list_ascii_of_string s)).
  - f_equal. rewrite <-(list_fmap_id (String.list_ascii_of_string s)) at 2. apply list_fmap_ext. intros i c _.
    simpl. unfold byte_of. rewrite Nat2Z.id. apply ascii_nat_embedding.
  - apply String.string_of_list_ascii_of_string.
Qed.

Lemma bytes_inj s t : bytes s = bytes t → s = t.
Proof. intros Heq. by rewrite <-(of_bytes_bytes s), <-(of_bytes_bytes t), Heq. Qed.

Lemma bytes_range s : Forall (λ b, 0 ≤ b < 256) (bytes s).
Proof. unfold bytes. apply Forall_fmap, Forall_true. intros c. apply byte_of_range. Qed.

Definition byte (c : Z) : Prop := 0 ≤ c < 256.

Lemma bytes_app a b : bytes (a ++ b)%string = bytes a ++ bytes b.
Proof. unfold bytes. rewrite <-fmap_app. f_equal. induction a as [|c a IH]; simpl; [done|]. by rewrite IH. Qed.

Lemma bytes_of_bytes l : Forall byte l → bytes (of_bytes l) = l.
Proof.
  intros Hl. unfold bytes, of_bytes. rewrite String.list_ascii_of_string_of_list_ascii, <-list_fmap_compose.
  rewrite <-(list_fmap_id l) at 2. apply Forall_fmap_ext_1. eapply Forall_impl; [exact Hl|]. intros c Hc. simpl.
  unfold byte_of, byte in *. rewrite nat_ascii_embedding by lia. lia.
Qed.

Lemma bytes_are_bytes s : Forall byte (bytes s).
Proof. apply bytes_range. Qed.

Lemma bytes_length s : Z.of_nat (length (bytes s)) = slen s.
Proof. unfold bytes, slen. rewrite length_fmap. f_equal. induction s; simpl; [done|]. by f_equal. Qed.

(** ** Byte classes. *)

Definition is_digit (c : Z) : bool := (48 <=? c) && (c <=? 57).
Definition is_lower (c : Z) : bool := (97 <=? c) && (c <=? 122).
Definition is_upper (c : Z) : bool := (65 <=? c) && (c <=? 90).
Definition is_alnum (c : Z) : bool := is_lower c || is_upper c || is_digit c.

(** [strings.ToLower] on ASCII. *)
Definition lower (c : Z) : Z := if is_upper c then c + 32 else c.

(** ** Splitting. *)

(** [strings.Split] at a byte: always at least one piece. *)
Fixpoint split_bytes (sep : Z) (l : list Z) : list (list Z) :=
  match l with
  | [] => [[]]
  | c :: l =>
      match split_bytes sep l with
      | [] => [[c]]
      | p :: ps => if c =? sep then [] :: p :: ps else (c :: p) :: ps
      end
  end.

Fixpoint join_bytes (sep : Z) (ps : list (list Z)) : list Z :=
  match ps with
  | [] => []
  | [p] => p
  | p :: ps => p ++ sep :: join_bytes sep ps
  end.

Lemma split_bytes_nonempty sep l : split_bytes sep l ≠ [].
Proof. destruct l as [|c l]; simpl; [done|]. destruct (split_bytes sep l); [done|]. by destruct (c =? sep). Qed.

Lemma join_split sep l : join_bytes sep (split_bytes sep l) = l.
Proof.
  induction l as [|c l IH]; [done|]. simpl. pose proof (split_bytes_nonempty sep l) as Hne.
  destruct (split_bytes sep l) as [|p ps]; [done|]. destruct (Z.eqb_spec c sep) as [->|].
  - simpl. simpl in IH. by rewrite IH.
  - destruct ps; simpl in *; by rewrite <-IH.
Qed.

Lemma split_bytes_clean sep l : Forall (λ p, sep ∉ p) (split_bytes sep l).
Proof.
  induction l as [|c l IH]; simpl; [repeat constructor; set_solver|].
  pose proof (split_bytes_nonempty sep l) as Hne. destruct (split_bytes sep l) as [|p ps]; [done|].
  apply Forall_cons in IH as [Hp Hps]. destruct (Z.eqb_spec c sep) as [->|].
  - repeat constructor; [set_solver|done|done].
  - constructor; [set_solver|done].
Qed.

Definition split (sep : Z) (s : string) : list string := of_bytes <$> split_bytes sep (bytes s).

(** ** UTF-8 (unicode/utf8).

    [decode_rune l] is the first rune of [l] and what follows, or [None] where
    [utf8.DecodeRune] reports [RuneError] with width 1: an invalid lead byte, a missing or bad
    continuation byte, an overlong form, a surrogate, or a value above U+10FFFF. *)

Definition cont (c : Z) : bool := (128 <=? c) && (c <=? 191).

Definition decode_rune (l : list Z) : option (Z * list Z) :=
  match l with
  | [] => None
  | c0 :: l0 =>
      if c0 <? 128 then Some (c0, l0)
      else if (194 <=? c0) && (c0 <=? 223) then
        match l0 with
        | c1 :: l1 => if cont c1 then Some ((c0 - 192) * 64 + (c1 - 128), l1) else None
        | _ => None
        end
      else if (224 <=? c0) && (c0 <=? 239) then
        match l0 with
        | c1 :: c2 :: l2 =>
            let lo := if c0 =? 224 then 160 else 128 in
            let hi := if c0 =? 237 then 159 else 191 in
            if (lo <=? c1) && (c1 <=? hi) && cont c2
            then Some ((c0 - 224) * 4096 + (c1 - 128) * 64 + (c2 - 128), l2) else None
        | _ => None
        end
      else if (240 <=? c0) && (c0 <=? 244) then
        match l0 with
        | c1 :: c2 :: c3 :: l3 =>
            let lo := if c0 =? 240 then 144 else 128 in
            let hi := if c0 =? 244 then 143 else 191 in
            if (lo <=? c1) && (c1 <=? hi) && cont c2 && cont c3
            then Some ((c0 - 240) * 262144 + (c1 - 128) * 4096 + (c2 - 128) * 64 + (c3 - 128), l3) else None
        | _ => None
        end
      else None
  end.

#[global] Arguments decode_rune : simpl never.

(** The runes of a valid string; [None] if it is not valid.  Each rune takes at least a byte,
    so the length is enough fuel. *)
Fixpoint decode_go (fuel : nat) (l : list Z) : option (list Z) :=
  match l, fuel with
  | [], _ => Some []
  | _, O => None
  | _, S fuel =>
      match decode_rune l with
      | Some (r, l') => match decode_go fuel l' with Some rs => Some (r :: rs) | None => None end
      | None => None
      end
  end.

Definition runes (s : string) : option (list Z) := decode_go (length (bytes s)) (bytes s).

Definition ValidString (s : string) : bool := match runes s with Some _ => true | None => false end.

Lemma decode_rune_shrinks l r l' : decode_rune l = Some (r, l') → (length l' < length l)%nat.
Proof.
  unfold decode_rune. destruct l as [|c0 l0]; [done|]. intros Hd.
  repeat (case_match; simplify_eq/=; try lia).
Qed.

(** More fuel does not change the result. *)
Lemma decode_go_fuel fuel l : (length l ≤ fuel)%nat → decode_go fuel l = decode_go (length l) l.
Proof.
  revert l. induction fuel as [fuel IH] using lt_wf_ind. intros l Hl.
  destruct l as [|c l]; [by destruct fuel|]. destruct fuel as [|fuel]; simpl in Hl; [lia|]. simpl.
  destruct (decode_rune (c :: l)) as [[r l']|] eqn:Hd; [|done]. apply decode_rune_shrinks in Hd. simpl in Hd.
  rewrite (IH fuel) by lia. by rewrite (IH (length l)) by lia.
Qed.

(** ** Numbers (strconv). *)

(** [strconv.Atoi] of an unsigned decimal; [None] for anything else ([Atoi] also takes a sign). *)
Fixpoint atoi_go (acc : Z) (l : list Z) : option Z :=
  match l with
  | [] => Some acc
  | c :: l => if is_digit c then atoi_go (acc * 10 + (c - 48)) l else None
  end.

(** [strconv.Itoa] of a non-negative integer: the digits before [acc].  Ten divides the rest
    away in at most as many rounds as there are digits. *)
Fixpoint itoa_go (fuel : nat) (n : Z) (acc : list Z) : list Z :=
  match fuel with
  | O => acc
  | S fuel => if n <? 10 then (48 + n) :: acc else itoa_go fuel (n / 10) ((48 + n mod 10) :: acc)
  end.

Definition itoa (n : Z) : list Z := itoa_go (S (Z.to_nat (Z.log2 n))) n [].

Lemma atoi_itoa_go fuel n acc : 0 ≤ n < 2 ^ Z.of_nat fuel → atoi_go 0 (itoa_go fuel n acc) = atoi_go n acc.
Proof.
  revert n acc. induction fuel as [|fuel IH]; intros n acc Hn; [replace n with 0 by (simpl in Hn; lia); done|].
  rewrite Nat2Z.inj_succ, Z.pow_succ_r in Hn by lia. simpl. destruct (Z.ltb_spec n 10).
  - simpl. unfold is_digit. replace (0 * 10 + (48 + n - 48)) with n by lia.
    destruct (Z.leb_spec 48 (48 + n)), (Z.leb_spec (48 + n) 57); [done|lia..].
  - rewrite IH by (Z.to_euclidean_division_equations; lia). simpl. unfold is_digit.
    assert (0 ≤ n mod 10 < 10) by (apply Z.mod_pos_bound; lia).
    destruct (Z.leb_spec 48 (48 + n mod 10)), (Z.leb_spec (48 + n mod 10) 57); try lia. simpl. f_equal.
    Z.to_euclidean_division_equations; lia.
Qed.

Lemma atoi_itoa n : 0 ≤ n → atoi_go 0 (itoa n) = Some n.
Proof.
  intros Hn. unfold itoa. rewrite atoi_itoa_go; [done|]. split; [done|]. rewrite Nat2Z.inj_succ, Z2Nat.id by apply Z.log2_nonneg.
  destruct (decide (n = 0)) as [->|]; [done|]. apply Z.log2_spec. lia.
Qed.

(** ASCII strings decode to themselves. *)
Lemma decode_ascii l : Forall (λ c, 0 ≤ c < 128) l → decode_go (length l) l = Some l.
Proof.
  induction 1 as [|c l Hc _ IH]; [done|]. simpl. unfold decode_rune.
  destruct (Z.ltb_spec c 128); [|lia]. by rewrite IH.
Qed.

(** ** Sorting by a string key (sort.Slice).

    [sort.Slice] is not stable; where the keys are distinct its result is the one sorted
    permutation ([sort_by_unique]), so the algorithm does not matter. *)

Definition by_key {A} (key : A → string) (x y : A) : Prop := String.leb (key x) (key y) = true.

#[global] Instance by_key_dec {A} (key : A → string) : RelDecision (by_key key).
Proof. intros x y. unfold by_key. apply _. Defined.

#[global] Instance by_key_trans {A} (key : A → string) : Transitive (by_key key).
Proof. intros x y z. apply string_leb_trans. Qed.

#[global] Instance by_key_total {A} (key : A → string) : Total (by_key key).
Proof. intros x y. apply String.leb_total. Qed.

Definition sort_by {A} (key : A → string) (l : list A) : list A := merge_sort (by_key key) l.

Lemma sort_by_perm {A} (key : A → string) l : sort_by key l ≡ₚ l.
Proof. apply merge_sort_Permutation. Qed.

Lemma elem_of_sort_by {A} (key : A → string) l x : x ∈ sort_by key l ↔ x ∈ l.
Proof. by rewrite sort_by_perm. Qed.

(** Distinct keys come out in strictly increasing order. *)
Definition key_lt {A} (key : A → string) (x y : A) : Prop := String.ltb (key x) (key y) = true.

Lemma sort_by_strict {A} (key : A → string) l : NoDup (key <$> l) → StronglySorted (key_lt key) (sort_by key l).
Proof.
  intros Hnd. rewrite <-(sort_by_perm key l) in Hnd.
  pose proof (StronglySorted_merge_sort (by_key key) l) as Hs. unfold sort_by in *.
  induction Hs as [|x l' Hs IH Hx]; [constructor|]. rewrite fmap_cons in Hnd. apply NoDup_cons in Hnd as [Hni Hnd].
  constructor; [by apply IH|]. rewrite Forall_forall in *. intros y Hy. specialize (Hx y Hy).
  unfold key_lt. rewrite string_ltb_leb. apply negb_true_iff. destruct (String.leb (key y) (key x)) eqn:Hle; [|done].
  destruct Hni. rewrite (String.leb_antisym _ _ Hx Hle). by apply list_elem_of_fmap_2.
Qed.

Lemma fmap_NoDup_inj {A B} (f : A → B) l x y : NoDup (f <$> l) → x ∈ l → y ∈ l → f x = f y → x = y.
Proof.
  induction l as [|z l IH]; intros Hnd Hx Hy Hf; [set_solver|]. rewrite fmap_cons in Hnd. apply NoDup_cons in Hnd as [Hni Hnd].
  apply elem_of_cons in Hx as [->|Hx]; apply elem_of_cons in Hy as [->|Hy]; [done| | |by apply IH].
  - destruct Hni. rewrite Hf. by apply list_elem_of_fmap_2.
  - destruct Hni. rewrite <-Hf. by apply list_elem_of_fmap_2.
Qed.

Lemma sort_by_unique {A} (key : A → string) l k : NoDup (key <$> l) → l ≡ₚ k → sort_by key l = sort_by key k.
Proof.
  intros Hnd Hp. apply (StronglySorted_unique_strong (by_key key)); [|apply StronglySorted_merge_sort; apply _..|by rewrite !sort_by_perm].
  intros x y Hx Hy Hxy Hyx. apply elem_of_sort_by in Hx, Hy. rewrite <-Hp in Hy.
  apply (fmap_NoDup_inj key l); [done..|]. by apply String.leb_antisym.
Qed.

Lemma filter_fmap_NoDup {A B} (f : A → B) (P : A → Prop) `{∀ x, Decision (P x)} l : NoDup (f <$> l) → NoDup (f <$> filter P l).
Proof.
  induction l as [|x l IH]; intros Hnd; [done|]. rewrite fmap_cons in Hnd. apply NoDup_cons in Hnd as [Hni Hnd].
  rewrite filter_cons. case_decide; [|by apply IH]. rewrite fmap_cons. apply NoDup_cons. split; [|by apply IH].
  intros (y & Hf & [_ Hy]%list_elem_of_filter)%list_elem_of_fmap. apply Hni. rewrite Hf. by apply list_elem_of_fmap_2.
Qed.
