(* ===== verification/FloatExact.v ===== *)
(** * Doubles that hold integers

    The arithmetic of binary64 is exact on integers below 2^53: sums, differences, products and
    exact quotients of such integers are the doubles of the integer results, comparisons agree,
    and the floor of a rounded quotient is the integer quotient.  The Lua scripts compute with
    such doubles. *)

From Stdlib Require Import SpecFloat.
From S2P Require Import Prelude GoFloat.

Local Open Scope Z_scope.

(** ** Shifting. *)

Lemma digits2_pos_log2 p : Z.pos (digits2_pos p) = Z.log2 (Z.pos p) + 1.
Proof.
  induction p as [p IH|p IH|]; simpl digits2_pos; [| |done].
  - rewrite Pos2Z.inj_succ, IH, (Pos2Z.inj_xI p). rewrite Z.log2_succ_double by lia. lia.
  - rewrite Pos2Z.inj_succ, IH, (Pos2Z.inj_xO p). rewrite Z.log2_double by lia. lia.
Qed.

Lemma Zdigits2_log2 m : 0 < m → Zdigits2 m = Z.log2 m + 1.
Proof. destruct m; [done| |done]. intros _. apply digits2_pos_log2. Qed.

Lemma iter_pos_nat {A} (f : A → A) n x : SpecFloat.iter_pos f n x = Nat.iter (Pos.to_nat n) f x.
Proof.
  revert x. induction n as [n IH|n IH|]; intros x; cbn [SpecFloat.iter_pos]; [| |done].
  - rewrite !IH, Pos2Nat.inj_xI, <-Nat.iter_add, <-Nat.iter_succ_r. f_equal. lia.
  - rewrite !IH, Pos2Nat.inj_xO, <-Nat.iter_add. f_equal. lia.
Qed.

Lemma shr_1_double m : 0 < m → shr_1 {| shr_m := 2 * m; shr_r := false; shr_s := false |} = {| shr_m := m; shr_r := false; shr_s := false |}.
Proof. by destruct m. Qed.

Lemma shr_exact m e n :
  0 < m → 0 ≤ n →
  SpecFloat.shr {| shr_m := m * 2 ^ n; shr_r := false; shr_s := false |} e n = ({| shr_m := m; shr_r := false; shr_s := false |}, e + n).
Proof.
  intros Hm Hn. destruct n as [|p|p]; [by rewrite Z.mul_1_r, Z.add_0_r| |lia]. unfold SpecFloat.shr. f_equal.
  rewrite iter_pos_nat. rewrite <-(positive_nat_Z p). generalize (Pos.to_nat p). intros k.
  induction k as [|k IH]; [simpl; by rewrite Z.mul_1_r|]. rewrite Nat.iter_succ_r, Nat2Z.inj_succ, Z.pow_succ_r by lia.
  replace (m * (2 * 2 ^ Z.of_nat k)) with (2 * (m * 2 ^ Z.of_nat k)) by lia. rewrite shr_1_double by lia. apply IH.
Qed.

Lemma shl_align_fst m e e' : e' ≤ e → Z.pos (fst (shl_align m e e')) = Z.pos m * 2 ^ (e - e').
Proof.
  intros He. unfold shl_align. destruct (e' - e) as [|d|d] eqn:Hd; [replace (e - e') with 0 by lia; simpl; lia|lia|].
  simpl. replace (e - e') with (Z.pos d) by lia. rewrite <-(positive_nat_Z d). rewrite Pos2Nat.inj_iter.
  generalize (Pos.to_nat d). intros k. induction k as [|k IH]; [simpl; lia|].
  simpl nat_rect. rewrite Pos2Z.inj_xO, IH, Nat2Z.inj_succ, Z.pow_succ_r by lia. lia.
Qed.

(** ** The double of an integer. *)

(** The normal form of a positive integer below 2^53: 53 significant bits. *)
Definition nf (s : bool) (z : Z) : float64 :=
  S754_finite s (Z.to_pos (z * 2 ^ (52 - Z.log2 z))) (Z.log2 z - 52).

Definition small (z : Z) : Prop := 0 < z < 2 ^ 53.

Lemma small_log2 z : small z → 0 ≤ Z.log2 z ≤ 52.
Proof.
  intros [Hp Hz]. split; [apply Z.log2_nonneg|]. apply Z.lt_succ_r. by apply Z.log2_lt_pow2.
Qed.

Lemma nf_mantissa z : small z → 2 ^ 52 ≤ z * 2 ^ (52 - Z.log2 z) < 2 ^ 53.
Proof.
  intros Hz. pose proof (small_log2 z Hz) as Hl. destruct (Z.log2_spec z) as [H1 H2]; [by destruct Hz|].
  assert (Hp : 0 < 2 ^ (52 - Z.log2 z)) by (apply Z.pow_pos_nonneg; lia).
  split.
  - replace (2 ^ 52) with (2 ^ Z.log2 z * 2 ^ (52 - Z.log2 z)) by (rewrite <-Z.pow_add_r by lia; f_equal; lia). nia.
  - replace (2 ^ 53) with (2 ^ Z.succ (Z.log2 z) * 2 ^ (52 - Z.log2 z)) by (rewrite <-Z.pow_add_r by lia; f_equal; lia). nia.
Qed.

Lemma log2_mul_pow2' a n : 0 < a → 0 ≤ n → Z.log2 (a * 2 ^ n) = Z.log2 a + n.
Proof. intros. rewrite Z.log2_mul_pow2 by lia. lia. Qed.

(** Rounding an exactly represented small integer. *)
Lemma round_aux_exact s m e z :
  small z → e ≤ Z.log2 z - 52 → m = z * 2 ^ (- e) → -200 ≤ e →
  binary_round_aux prec emax s m e loc_Exact = nf s z.
Proof.
  intros Hz He -> Hemin. pose proof (small_log2 z Hz) as Hl. pose proof (nf_mantissa z Hz) as Hm.
  set (M := z * 2 ^ (52 - Z.log2 z)) in *. set (n := Z.log2 z - 52 - e).
  assert (Hmn : z * 2 ^ (- e) = M * 2 ^ n).
  { unfold M, n. rewrite <-Z.mul_assoc, <-Z.pow_add_r by lia. do 2 f_equal. lia. }
  unfold binary_round_aux, shr_fexp. rewrite Hmn. rewrite Zdigits2_log2 by (apply Z.mul_pos_pos; [lia|apply Z.pow_pos_nonneg; lia]).
  rewrite log2_mul_pow2' by lia. assert (Z.log2 M = 52) as -> by (apply Z.log2_unique; lia).
  replace (fexp prec emax (52 + n + 1 + e) - e) with n by (unfold fexp, emin, prec, emax, n; lia).
  cbn [shr_record_of_loc]. rewrite shr_exact by lia. cbn [shr_m loc_of_shr_record round_nearest_even].
  rewrite Zdigits2_log2 by lia. assert (Z.log2 M = 52) as -> by (apply Z.log2_unique; lia).
  replace (fexp prec emax (52 + 1 + (e + n)) - (e + n)) with 0 by (unfold fexp, emin, prec, emax, n; lia).
  cbn [SpecFloat.shr shr_record_of_loc shr_m]. unfold nf. fold M. destruct M as [|p|p] eqn:HM; [lia| |lia].
  replace (e + n) with (Z.log2 z - 52) by lia. destruct (Z.leb_spec (Z.log2 z - 52) (emax - prec)); [done|].
  unfold emax, prec in *. lia.
Qed.

Lemma round_exact s m e z :
  small z → e ≤ 0 → Z.pos m = z * 2 ^ (- e) → -200 ≤ e → binary_round prec emax s m e = nf s z.
Proof.
  intros Hz He Hm Hemin. unfold binary_round. rewrite digits2_pos_log2, Hm, log2_mul_pow2' by (unfold small in *; lia).
  pose proof (small_log2 z Hz) as Hl.
  replace (fexp prec emax (Z.log2 z + - e + 1 + e)) with (Z.log2 z - 52) by (unfold fexp, emin, prec, emax; lia).
  destruct (Z.le_gt_cases (Z.log2 z - 52) e) as [Hle|Hgt].
  - pose proof (shl_align_fst m e (Z.log2 z - 52) Hle) as Hf.
    assert (Hs : snd (shl_align m e (Z.log2 z - 52)) = Z.log2 z - 52).
    { unfold shl_align. destruct (Z.log2 z - 52 - e) eqn:?; simpl; lia. }
    destruct (shl_align m e (Z.log2 z - 52)) as [mz ez]. simpl in Hf, Hs. subst ez.
    apply round_aux_exact; [done|lia| |lia]. rewrite Hf, Hm, <-Z.mul_assoc, <-Z.pow_add_r by lia. do 2 f_equal. lia.
  - unfold shl_align. destruct (Z.log2 z - 52 - e) as [|d|d] eqn:Hd; [lia| |lia].
    by apply round_aux_exact; [done|lia..].
Qed.

Lemma f64_pos z : small z → f64 z = nf false z.
Proof.
  intros Hz. unfold f64, binary_normalize. destruct z as [|p|p]; [by destruct Hz| |by destruct Hz].
  apply round_exact; [done|done| |lia]. simpl. lia.
Qed.

Lemma f64_neg z : small z → f64 (- z) = nf true z.
Proof.
  intros Hz. unfold f64, binary_normalize. destruct z as [|p|p]; [by destruct Hz| |by destruct Hz].
  apply round_exact; [done|done| |lia]. simpl. lia.
Qed.

(** ** Arithmetic. *)

Definition exact (z : Z) : Prop := - 2 ^ 53 < z < 2 ^ 53.

Lemma f64_0 : f64 0 = S754_zero false.
Proof. done. Qed.

Lemma normalize_exact z e : exact z → -200 ≤ e ≤ 0 → binary_normalize prec emax (z * 2 ^ (- e)) e false = f64 z.
Proof.
  intros Hz He. assert (Hp : 0 < 2 ^ (- e)) by (apply Z.pow_pos_nonneg; lia).
  destruct (Z.lt_trichotomy z 0) as [Hn|[->|Hn]]; [|by rewrite Z.mul_0_l|].
  - assert (small (- z)) as Hs by (unfold exact, small in *; lia).
    replace (f64 z) with (nf true (- z)) by (rewrite <-f64_neg by done; f_equal; lia).
    unfold binary_normalize. destruct (z * 2 ^ (- e)) as [|p|p] eqn:Hm; [nia|nia|].
    apply round_exact; [done|lia| |lia]. lia.
  - assert (small z) as Hs by (unfold exact, small in *; lia). rewrite f64_pos by done.
    unfold binary_normalize. destruct (z * 2 ^ (- e)) as [|p|p] eqn:Hm; [nia| |nia].
    apply round_exact; [done|lia| |lia]. lia.
Qed.

(** The shape of the double of a non-zero integer. *)
Lemma f64_shape z :
  exact z → z ≠ 0 →
  ∃ s m e, f64 z = S754_finite s m e ∧ s = (z <? 0) ∧ -52 ≤ e ≤ 0 ∧ Z.pos m = Z.abs z * 2 ^ (- e) ∧
    e = Z.log2 (Z.abs z) - 52 ∧ 2 ^ 52 ≤ Z.pos m < 2 ^ 53.
Proof.
  intros Hz Hne. assert (small (Z.abs z)) as Hs by (unfold exact, small in *; lia).
  pose proof (small_log2 _ Hs) as Hl. pose proof (nf_mantissa _ Hs) as Hm.
  exists (z <? 0), (Z.to_pos (Z.abs z * 2 ^ (52 - Z.log2 (Z.abs z)))), (Z.log2 (Z.abs z) - 52). split_and!; try lia; try done.
  - destruct (Z.ltb_spec z 0).
    + rewrite <-(Z.opp_involutive z) at 1. replace (- z) with (Z.abs z) by lia. by rewrite f64_neg.
    + replace z with (Z.abs z) at 1 by lia. by rewrite f64_pos.
  - rewrite Z2Pos.id by lia. do 2 f_equal. lia.
Qed.

Lemma signed_abs z (m : positive) k : Z.pos m = Z.abs z * k → cond_Zopp (z <? 0) (Z.pos m) = z * k.
Proof. intros ->. unfold cond_Zopp. destruct (Z.ltb_spec z 0); nia. Qed.

Lemma aligned z m e ez :
  Z.pos m = Z.abs z * 2 ^ (- e) → e ≤ 0 → ez ≤ e →
  cond_Zopp (z <? 0) (Z.pos (fst (shl_align m e ez))) = z * 2 ^ (- ez).
Proof.
  intros Hm He Hez. apply signed_abs. rewrite shl_align_fst, Hm, <-Z.mul_assoc, <-Z.pow_add_r by lia. do 2 f_equal. lia.
Qed.

(** Sums and differences. *)
Lemma fadd_exact a b : exact a → exact b → exact (a + b) → fadd (f64 a) (f64 b) = f64 (a + b).
Proof.
  intros Ha Hb Hab. destruct (decide (a = 0)) as [->|Hna].
  { rewrite f64_0, Z.add_0_l. destruct (decide (b = 0)) as [->|Hnb]; [done|].
    by destruct (f64_shape b Hb Hnb) as (s & m & e & -> & _). }
  destruct (decide (b = 0)) as [->|Hnb].
  { rewrite f64_0, Z.add_0_r. by destruct (f64_shape a Ha Hna) as (s & m & e & -> & _). }
  destruct (f64_shape a Ha Hna) as (s & m & e & -> & -> & He & Hm & _).
  destruct (f64_shape b Hb Hnb) as (s' & m' & e' & -> & -> & He' & Hm' & _).
  unfold fadd, SFadd. rewrite !aligned by (done || lia). rewrite <-Z.mul_add_distr_r. apply normalize_exact; [done|lia].
Qed.

Lemma fsub_exact a b : exact a → exact b → exact (a - b) → fsub (f64 a) (f64 b) = f64 (a - b).
Proof.
  intros Ha Hb Hab. destruct (decide (b = 0)) as [->|Hnb].
  { rewrite f64_0, Z.sub_0_r. destruct (decide (a = 0)) as [->|Hna]; [done|].
    by destruct (f64_shape a Ha Hna) as (s & m & e & -> & _). }
  destruct (f64_shape b Hb Hnb) as (s' & m' & e' & Hfb & Hs' & He' & Hm' & Hlog & _).
  destruct (decide (a = 0)) as [->|Hna].
  { rewrite f64_0, Hfb. simpl. replace (0 - b) with (- b) by lia.
    destruct (f64_shape (- b)) as (s & m & e & -> & -> & He & Hm & Hlog2 & _); [unfold exact in *; lia|lia|].
    rewrite Z.abs_opp in Hm, Hlog2. f_equal; [subst s'; destruct (Z.ltb_spec b 0), (Z.ltb_spec (- b) 0); try lia; done| |lia].
    apply Pos2Z.inj. rewrite Hm, Hm'. subst e e'. done. }
  destruct (f64_shape a Ha Hna) as (s & m & e & -> & -> & He & Hm & _). rewrite Hfb. subst s'.
  unfold fsub, SFsub. rewrite !aligned by (done || lia). rewrite <-Z.mul_sub_distr_r. apply normalize_exact; [done|lia].
Qed.

(** Products of non-negative integers. *)
Lemma fmul_exact a b : 0 ≤ a < 2 ^ 53 → 0 ≤ b < 2 ^ 53 → a * b < 2 ^ 53 → fmul (f64 a) (f64 b) = f64 (a * b).
Proof.
  intros Ha Hb Hab. destruct (decide (a = 0)) as [->|Hna].
  { rewrite f64_0, Z.mul_0_l. destruct (decide (b = 0)) as [->|Hnb]; [done|].
    destruct (f64_shape b) as (s & m & e & -> & -> & _); [unfold exact; lia|done|]. simpl.
    destruct (Z.ltb_spec b 0); [lia|done]. }
  destruct (decide (b = 0)) as [->|Hnb].
  { rewrite f64_0, Z.mul_0_r. destruct (f64_shape a) as (s & m & e & -> & -> & _); [unfold exact; lia|done|]. simpl.
    destruct (Z.ltb_spec a 0); [lia|done]. }
  destruct (f64_shape a) as (s & m & e & -> & -> & He & Hm & Hlog & Hr); [unfold exact; lia|done|].
  destruct (f64_shape b) as (s' & m' & e' & -> & -> & He' & Hm' & Hlog' & Hr'); [unfold exact; lia|done|].
  assert (Hs : small (a * b)) by (unfold small; nia). rewrite (f64_pos (a * b)) by done.
  unfold fmul, SFmul. destruct (Z.ltb_spec a 0), (Z.ltb_spec b 0); try lia. cbn [xorb].
  assert (Hprod : Z.pos (m * m') = a * b * 2 ^ (- (e + e'))).
  { rewrite Pos2Z.inj_mul, Hm, Hm', !Z.abs_eq by lia. rewrite Z.opp_add_distr, Z.pow_add_r by lia. lia. }
  apply round_aux_exact; [done| |done|lia].
  rewrite Z.abs_eq in Hlog, Hlog' by lia. pose proof (Z.log2_mul_below a b ltac:(lia) ltac:(lia)). lia.
Qed.

(** ** Comparison. *)

Lemma nf_compare a b (m m' : positive) :
  small a → small b → Z.pos m = a * 2 ^ (52 - Z.log2 a) → Z.pos m' = b * 2 ^ (52 - Z.log2 b) →
  match Z.compare (Z.log2 a - 52) (Z.log2 b - 52) with Lt => Lt | Gt => Gt | Eq => Pos.compare_cont Eq m m' end = Z.compare a b.
Proof.
  intros Ha Hb Hm Hm'. change (Pos.compare_cont Eq m m') with (Z.pos m ?= Z.pos m'). rewrite Hm, Hm'.
  destruct (Z.compare_spec (Z.log2 a - 52) (Z.log2 b - 52)) as [Heq|Hlt|Hgt].
  - replace (Z.log2 a) with (Z.log2 b) by lia. pose proof (small_log2 b Hb).
    assert (0 < 2 ^ (52 - Z.log2 b)) by (apply Z.pow_pos_nonneg; lia).
    destruct (Z.compare_spec a b) as [->|?|?]; [apply Z.compare_refl|apply Z.compare_lt_iff; nia|apply Z.compare_gt_iff; nia].
  - symmetry. apply Z.compare_lt_iff. apply Z.log2_lt_cancel. lia.
  - symmetry. apply Z.compare_gt_iff. apply Z.log2_lt_cancel. lia.
Qed.

Lemma fcompare_exact a b : exact a → exact b → SFcompare (f64 a) (f64 b) = Some (Z.compare a b).
Proof.
  intros Ha Hb. destruct (decide (a = 0)) as [->|Hna].
  { rewrite f64_0. destruct (decide (b = 0)) as [->|Hnb]; [done|].
    destruct (f64_shape b Hb Hnb) as (s & m & e & -> & -> & _). simpl. destruct (Z.ltb_spec b 0), b; try lia; done. }
  destruct (f64_shape a Ha Hna) as (s & m & e & -> & -> & He & Hm & Hlog & _).
  destruct (decide (b = 0)) as [->|Hnb]; [simpl; destruct (Z.ltb_spec a 0), a; try lia; done|].
  destruct (f64_shape b Hb Hnb) as (s' & m' & e' & -> & -> & He' & Hm' & Hlog' & _).
  assert (Hc := nf_compare (Z.abs a) (Z.abs b) m m' ltac:(unfold small, exact in *; lia) ltac:(unfold small, exact in *; lia)
    ltac:(rewrite Hm; do 2 f_equal; lia) ltac:(rewrite Hm'; do 2 f_equal; lia)).
  rewrite <-Hlog, <-Hlog' in Hc. simpl. f_equal. destruct (Z.ltb_spec a 0), (Z.ltb_spec b 0).
  - transitivity (CompOpp (Z.compare (Z.abs a) (Z.abs b))).
    + rewrite <-Hc. by destruct (Z.compare e e').
    + rewrite <-Z.compare_antisym. replace (Z.abs a) with (- a) by lia. replace (Z.abs b) with (- b) by lia. apply Z.compare_opp.
  - symmetry. apply Z.compare_lt_iff. lia.
  - symmetry. apply Z.compare_gt_iff. lia.
  - rewrite Hc. f_equal; lia.
Qed.

Lemma flt_exact a b : exact a → exact b → flt (f64 a) (f64 b) = (a <? b).
Proof. intros Ha Hb. unfold flt, SFltb, Z.ltb. rewrite fcompare_exact by done. by destruct (a ?= b). Qed.

Lemma fle_exact a b : exact a → exact b → fle (f64 a) (f64 b) = (a <=? b).
Proof. intros Ha Hb. unfold fle, SFleb, Z.leb. rewrite fcompare_exact by done. by destruct (a ?= b). Qed.

(** ** Division. *)

(** The quotient and the remainder SFdiv computes for two small integers. *)
Lemma div_core a b m e m' e' :
  Z.pos m = a * 2 ^ (- e) → Z.pos m' = b * 2 ^ (- e') → 2 ^ 52 ≤ Z.pos m < 2 ^ 53 → 2 ^ 52 ≤ Z.pos m' < 2 ^ 53 →
  -52 ≤ e ≤ 0 → -52 ≤ e' ≤ 0 →
  SFdiv_core_binary prec emax (Z.pos m) e (Z.pos m') e'
  = (Z.pos m * 2 ^ 53 / Z.pos m', e - e' - 53, new_location (Z.pos m') ((Z.pos m * 2 ^ 53) mod Z.pos m')).
Proof.
  intros Hm Hm' Hr Hr' He He'. unfold SFdiv_core_binary. rewrite !Zdigits2_log2 by lia.
  assert (Z.log2 (Z.pos m) = 52) as -> by (apply Z.log2_unique; lia).
  assert (Z.log2 (Z.pos m') = 52) as -> by (apply Z.log2_unique; lia).
  replace (Z.min (fexp prec emax (52 + 1 + e - (52 + 1 + e'))) (e - e')) with (e - e' - 53) by (unfold fexp, emin, prec, emax; lia).
  replace (e - e' - (e - e' - 53)) with 53 by lia. rewrite Z.shiftl_mul_pow2 by lia.
  unfold Z.div, Z.modulo. by destruct (Z.div_eucl (Z.pos m * 2 ^ 53) (Z.pos m')) as [q r].
Qed.

Lemma fdiv_exact a b : 0 ≤ a < 2 ^ 53 → 0 < b < 2 ^ 53 → (b | a) → fdiv (f64 a) (f64 b) = f64 (a / b).
Proof.
  intros Ha Hb [q ->]. rewrite Z.div_mul by lia. destruct (decide (q = 0)) as [->|Hq].
  { destruct (f64_shape b) as (s & m & e & -> & -> & _); [unfold exact; lia|lia|]. simpl. destruct (Z.ltb_spec b 0); [lia|done]. }
  assert (Hsq : small q) by (unfold small; nia). rewrite (f64_pos q) by done.
  destruct (f64_shape (q * b)) as (s & m & e & -> & -> & He & Hm & Hlog & Hr); [unfold exact; lia|nia|].
  destruct (f64_shape b) as (s' & m' & e' & -> & -> & He' & Hm' & Hlog' & Hr'); [unfold exact; lia|lia|].
  rewrite Z.abs_eq in Hm, Hm', Hlog, Hlog' by lia.
  unfold fdiv, SFdiv. rewrite (div_core (q * b) b) by done.
  assert (Hnum : Z.pos m * 2 ^ 53 = q * 2 ^ (53 - e + e') * Z.pos m').
  { rewrite Hm, Hm'. replace (53 - e + e') with (53 + - e + e') by lia.
    transitivity (q * b * 2 ^ (53 - e)); [rewrite <-Z.mul_assoc, <-Z.pow_add_r by lia; do 2 f_equal; lia|].
    transitivity (q * b * (2 ^ (53 + - e + e') * 2 ^ (- e'))); [rewrite <-Z.pow_add_r by lia; do 2 f_equal; lia|lia]. }
  rewrite Hnum, Z.div_mul, Z.mod_mul by lia.
  destruct (Z.ltb_spec (q * b) 0), (Z.ltb_spec b 0); try lia. cbn [xorb].
  assert (new_location (Z.pos m') 0 = loc_Exact) as -> by (unfold new_location; by destruct (Z.even _)).
  apply round_aux_exact; [done| |f_equal; f_equal; lia|lia].
  pose proof (Z.log2_mul_above q b ltac:(lia) ltac:(lia)). lia.
Qed.

(** Rounding a quotient [q0] with remainder [r0]: 53 bits of it, rounded up only when the
    discarded part is at least half a unit. *)
Definition finite_of (s : bool) (M E : Z) : float64 :=
  if M =? 2 ^ 53 then S754_finite s (2 ^ 52)%positive (E + 1) else S754_finite s (Z.to_pos M) E.

(** The last step of the rounding. *)
Lemma renormalize s M E :
  2 ^ 52 ≤ M ≤ 2 ^ 53 → -200 ≤ E ≤ 0 →
  (let '(mrs, e) := shr_fexp prec emax M E loc_Exact in
   match shr_m mrs with
   | Z0 => S754_zero s
   | Zpos m => if e <=? emax - prec then S754_finite s m e else S754_infinity s
   | _ => S754_nan
   end) = finite_of s M E.
Proof.
  intros HM HE. unfold shr_fexp, finite_of. rewrite Zdigits2_log2 by lia. destruct (Z.eqb_spec M (2 ^ 53)) as [->|Hne].
  - replace (fexp prec emax (Z.log2 (2 ^ 53) + 1 + E) - E) with 1
      by (rewrite Z.log2_pow2 by lia; unfold fexp, emin, prec, emax; lia).
    cbn [shr_record_of_loc]. replace (2 ^ 53) with (2 ^ 52 * 2 ^ 1) by lia. rewrite shr_exact by lia.
    change (2 ^ 52) with (Z.pos (2 ^ 52)). cbn [shr_m]. destruct (Z.leb_spec (E + 1) (emax - prec)); [done|unfold emax, prec in *; lia].
  - assert (Z.log2 M = 52) as -> by (apply Z.log2_unique; lia).
    replace (fexp prec emax (52 + 1 + E) - E) with 0 by (unfold fexp, emin, prec, emax; lia).
    cbn [SpecFloat.shr shr_record_of_loc shr_m]. destruct M as [|p|p]; [lia| |lia].
    destruct (Z.leb_spec E (emax - prec)); [done|unfold emax, prec in *; lia].
Qed.

Lemma nearest_up m l : round_nearest_even m l = m ∨ (round_nearest_even m l = m + 1 ∧ (l = loc_Inexact Eq ∨ l = loc_Inexact Gt)).
Proof. destruct l as [|[]]; simpl; eauto. destruct (Z.even m); eauto. Qed.

Lemma location_half m' r0 :
  0 < m' → 0 ≤ r0 < m' → new_location m' r0 = loc_Inexact Eq ∨ new_location m' r0 = loc_Inexact Gt → m' ≤ 2 * r0.
Proof.
  intros Hm Hr. unfold new_location, new_location_even, new_location_odd.
  destruct (Z.even m'); (destruct (Z.eqb_spec r0 0); [naive_solver|]).
  - destruct (Z.compare_spec (2 * r0) m'); intros [?|?]; simplify_eq; lia.
  - destruct (Z.compare_spec (2 * r0 + 1) m'); intros [?|?]; simplify_eq; lia.
Qed.

Lemma loc_of_record m l : loc_of_shr_record (shr_record_of_loc m l) = l ∧ shr_m (shr_record_of_loc m l) = m.
Proof. by destruct l as [|[]]. Qed.

(** One discarded bit: half a unit is lost only if it is set. *)
Lemma shr_1_loc m l :
  0 < m → shr_m (shr_1 (shr_record_of_loc m l)) = m / 2 ∧
  (loc_of_shr_record (shr_1 (shr_record_of_loc m l)) = loc_Inexact Eq ∨
   loc_of_shr_record (shr_1 (shr_record_of_loc m l)) = loc_Inexact Gt → m mod 2 = 1).
Proof.
  intros Hm. destruct m as [|[p|p|]|]; try lia.
  - rewrite Pos2Z.inj_xI. split; [|intros _; Z.to_euclidean_division_equations; lia].
    destruct l as [|[]]; simpl; Z.to_euclidean_division_equations; lia.
  - rewrite Pos2Z.inj_xO. split; [destruct l as [|[]]; simpl; Z.to_euclidean_division_equations; lia|].
    destruct l as [|[]]; simpl; naive_solver.
  - split; [by destruct l as [|[]]|done].
Qed.

Lemma round_quot s q0 r0 m' E0 :
  2 ^ 52 ≤ q0 < 2 ^ 54 → 0 < m' → 0 ≤ r0 < m' → -150 ≤ E0 ≤ -1 →
  ∃ d up, (d = 0 ∨ d = 1) ∧ 2 ^ 52 ≤ q0 / 2 ^ d < 2 ^ 53 ∧
    (up = 0 ∨ up = 1 ∧ (2 * (q0 / 2 ^ d) + 1) * 2 ^ d * m' ≤ 2 * (q0 * m' + r0)) ∧
    binary_round_aux prec emax s q0 E0 (new_location m' r0) = finite_of s (q0 / 2 ^ d + up) (E0 + d).
Proof.
  intros Hq Hm Hr HE. unfold binary_round_aux. unfold shr_fexp at 1. rewrite Zdigits2_log2 by lia.
  destruct (Z.lt_ge_cases q0 (2 ^ 53)) as [Hlt|Hge].
  - assert (Z.log2 q0 = 52) as -> by (apply Z.log2_unique; lia).
    replace (fexp prec emax (52 + 1 + E0) - E0) with 0 by (unfold fexp, emin, prec, emax; lia).
    cbn [SpecFloat.shr]. destruct (loc_of_record q0 (new_location m' r0)) as [-> ->].
    exists 0. rewrite Z.pow_0_r, Z.div_1_r, Z.add_0_r.
    destruct (nearest_up q0 (new_location m' r0)) as [->|[-> Hl]]; [exists 0|exists 1].
    + rewrite renormalize by lia. rewrite Z.add_0_r. eauto with lia.
    + rewrite renormalize by lia. apply location_half in Hl; [|done..]. split_and!; [by left|lia|lia|right; split; [done|nia]|done].
  - assert (Z.log2 q0 = 53) as -> by (apply Z.log2_unique; lia).
    replace (fexp prec emax (53 + 1 + E0) - E0) with 1 by (unfold fexp, emin, prec, emax; lia).
    cbn [SpecFloat.shr SpecFloat.iter_pos]. destruct (shr_1_loc q0 (new_location m' r0)) as [-> Hodd]; [lia|].
    set (l := loc_of_shr_record _) in *. exists 1. rewrite Z.pow_1_r.
    assert (2 ^ 52 ≤ q0 / 2 < 2 ^ 53) by (Z.to_euclidean_division_equations; lia).
    destruct (nearest_up (q0 / 2) l) as [->|[-> Hl]]; [exists 0|exists 1].
    + rewrite renormalize by lia. rewrite Z.add_0_r. eauto with lia.
    + rewrite renormalize by lia. split_and!; [by right|lia|lia|right; split; [done|]|done].
      specialize (Hodd Hl). assert (2 * (q0 / 2) + 1 = q0) as -> by (Z.to_euclidean_division_equations; lia). nia.
Qed.

Lemma ffloor_f64 z : 0 ≤ z < 2 ^ 53 → ffloor (f64 z) = f64 z.
Proof.
  intros Hz. destruct (decide (z = 0)) as [->|Hne]; [done|].
  destruct (f64_shape z) as (s & m & e & Hf & -> & He & Hm & _); [unfold exact; lia|done|]. rewrite Hf.
  destruct e as [|e|e]; [done|done|]. unfold ffloor, smant. destruct (Z.ltb_spec z 0); [lia|].
  rewrite Hm, Z.abs_eq by lia. simpl (- Z.neg e). rewrite Z.div_mul by (apply Z.pow_nonzero; lia).
  destruct (Z.eqb_spec z 0); [done|]. rewrite <-Hf. done.
Qed.

(** The floor of a double with a negative exponent. *)
Lemma ffloor_finite m e : e < 0 → ffloor (S754_finite false m e) = f64 (Z.pos m / 2 ^ (- e)).
Proof.
  intros He. destruct e as [|e|e]; [done|done|]. unfold ffloor, smant. cbv zeta. change (- Z.neg e) with (Z.pos e).
  by destruct (Z.eqb_spec (Z.pos m / 2 ^ Z.pos e) 0) as [->|].
Qed.

Lemma ffloor_finite_of M E : 2 ^ 52 ≤ M ≤ 2 ^ 53 → E < 0 → ffloor (finite_of false M E) = f64 (M / 2 ^ (- E)).
Proof.
  intros HM HE. unfold finite_of. destruct (Z.eqb_spec M (2 ^ 53)) as [->|Hne].
  - destruct (decide (E = -1)) as [->|].
    + done.
    + rewrite ffloor_finite by lia. f_equal. change (Z.pos (2 ^ 52)) with (2 ^ 52).
      replace (- E) with (1 + - (E + 1)) by lia. rewrite Z.pow_add_r, <-Z.div_div by (lia || apply Z.pow_nonzero; lia). done.
  - rewrite ffloor_finite, Z2Pos.id by lia. done.
Qed.

(** Rounding up never reaches the next integer. *)
Lemma no_carry a b K M0 up :
  0 < a < 2 ^ 53 → 0 < b → 0 ≤ K → M0 = a * 2 ^ K / b → 2 ^ 52 ≤ M0 →
  (up = 0 ∨ up = 1 ∧ (2 * M0 + 1) * b ≤ 2 * (a * 2 ^ K)) → (M0 + up) / 2 ^ K = a / b.
Proof.
  intros Ha Hb HK HM0 Hbig Hup. assert (Hp : 0 < 2 ^ K) by (apply Z.pow_pos_nonneg; lia).
  assert (Hfloor : M0 / 2 ^ K = a / b).
  { rewrite HM0, Z.div_div by lia. rewrite Z.mul_comm, Z.mul_comm. by rewrite Z.div_mul_cancel_r by lia. }
  destruct Hup as [->|[-> Hhalf]]; [by rewrite Z.add_0_r|]. set (Q := a / b) in *.
  assert (HQ : b * Q ≤ a < b * Q + b) by (unfold Q; Z.to_euclidean_division_equations; lia).
  assert (HM : 2 ^ K * Q ≤ M0 < 2 ^ K * Q + 2 ^ K) by (rewrite <-Hfloor; Z.to_euclidean_division_equations; nia).
  assert (HMb : b * M0 ≤ a * 2 ^ K) by (rewrite HM0; Z.to_euclidean_division_equations; nia).
  symmetry. apply (Z.div_unique _ _ _ (M0 + 1 - 2 ^ K * Q)); [|lia]. left. split; [lia|].
  destruct (Z.lt_ge_cases (M0 + 1 - 2 ^ K * Q) (2 ^ K)) as [?|Hge]; [done|exfalso].
  assert (M0 + 1 = 2 ^ K * (Q + 1)) as Heq by lia.
  assert (Hb2 : 2 * 2 ^ K ≤ b) by nia.
  assert (2 ^ 52 * (2 * 2 ^ K) ≤ a * 2 ^ K) by nia. nia.
Qed.

(** The floor of the rounded quotient is the quotient. *)
Lemma ffloor_fdiv a b : 0 ≤ a < 2 ^ 53 → 0 < b < 2 ^ 53 → ffloor (fdiv (f64 a) (f64 b)) = f64 (a / b).
Proof.
  intros Ha Hb. destruct (decide (a = 0)) as [->|Hna].
  { rewrite fdiv_exact by (lia || by exists 0). rewrite Z.div_0_l by lia. done. }
  destruct (f64_shape a) as (s & m & e & -> & -> & He & Hm & Hlog & Hr); [unfold exact; lia|done|].
  destruct (f64_shape b) as (s' & m' & e' & -> & -> & He' & Hm' & Hlog' & Hr'); [unfold exact; lia|lia|].
  rewrite Z.abs_eq in Hm, Hm' by lia. unfold fdiv, SFdiv. rewrite (div_core a b) by done.
  destruct (Z.ltb_spec a 0), (Z.ltb_spec b 0); try lia. cbn [xorb].
  set (N := Z.pos m * 2 ^ 53). set (q0 := N / Z.pos m'). set (r0 := N mod Z.pos m').
  assert (HN : N = q0 * Z.pos m' + r0) by (unfold q0, r0; rewrite Z.mul_comm; apply Z.div_mod; lia).
  assert (Hr0 : 0 ≤ r0 < Z.pos m') by (apply Z.mod_pos_bound; lia).
  assert (Hq0 : 2 ^ 52 ≤ q0 < 2 ^ 54) by (unfold N in HN; nia).
  destruct (round_quot false q0 r0 (Z.pos m') (e - e' - 53)) as (d & up & Hd & Hqd & Hup & ->); [done|lia|done|lia|].
  set (K := - (e - e' - 53 + d)). assert (Hscale : N * b = Z.pos m' * (a * 2 ^ K * 2 ^ d)).
  { assert (Hpow : 2 ^ (- e) * 2 ^ 53 = 2 ^ (- e') * (2 ^ K * 2 ^ d)) by (unfold K; rewrite <-!Z.pow_add_r by lia; f_equal; lia).
    unfold N. rewrite Hm, Hm'. transitivity (a * b * (2 ^ (- e) * 2 ^ 53)); [lia|]. rewrite Hpow. lia. }
  assert (Hpd : 0 < 2 ^ d) by (apply Z.pow_pos_nonneg; lia).
  assert (HM0 : q0 / 2 ^ d = a * 2 ^ K / b).
  { unfold q0. rewrite Z.div_div by lia. rewrite <-(Z.div_mul_cancel_r N (Z.pos m' * 2 ^ d) b) by lia.
    rewrite Hscale. replace (Z.pos m' * (a * 2 ^ K * 2 ^ d)) with (a * 2 ^ K * (Z.pos m' * 2 ^ d)) by lia.
    rewrite (Z.mul_comm (Z.pos m' * 2 ^ d) b). by rewrite Z.div_mul_cancel_r by lia. }
  assert (Hfloor : (q0 / 2 ^ d + up) / 2 ^ K = a / b).
  { apply (no_carry a b); [lia|lia|lia|done|lia|]. destruct Hup as [->|[-> Hup]]; [by left|]. right. split; [done|].
    rewrite <-HN in Hup. nia. }
  destruct (decide (e - e' - 53 + d = 0)) as [Hz|].
  - assert (K = 0) as HK by lia. rewrite Hz. rewrite HK, Z.pow_0_r, Z.div_1_r in Hfloor.
    assert (a / b ≤ a) by (apply Z.div_le_upper_bound; [lia|]; clear - Ha Hb; nia). unfold finite_of. destruct (Z.eqb_spec (q0 / 2 ^ d + up) (2 ^ 53)); [lia|].
    rewrite Hfloor. rewrite f64_pos by (unfold small; lia). unfold nf, ffloor.
    assert (Z.log2 (a / b) = 52) as -> by (apply Z.log2_unique; lia). simpl. by rewrite Z.mul_1_r.
  - rewrite ffloor_finite_of by lia. fold K. by rewrite Hfloor.
Qed.

(** ** Truncation, ceiling and comparison with zero. *)

Lemma ftrunc_f64 z : 0 ≤ z < 2 ^ 53 → ftrunc (f64 z) = Some z.
Proof.
  intros Hz. destruct (decide (z = 0)) as [->|Hne]; [done|].
  destruct (f64_shape z) as (s & m & e & -> & -> & He & Hm & _); [unfold exact; lia|done|]. destruct (Z.ltb_spec z 0); [lia|].
  rewrite Z.abs_eq in Hm by lia. unfold ftrunc, smant. f_equal. destruct e as [|e|e]; [simpl in Hm; lia|lia|].
  simpl (- Z.neg e) in Hm. rewrite Hm. apply Z.quot_mul. apply Z.pow_nonzero; lia.
Qed.

Lemma fceil_f64 z : 0 ≤ z < 2 ^ 53 → fceil (f64 z) = f64 z.
Proof.
  intros Hz. destruct (decide (z = 0)) as [->|Hne]; [done|].
  destruct (f64_shape z) as (s & m & e & Hf & -> & He & Hm & _); [unfold exact; lia|done|]. rewrite Hf.
  destruct e as [|e|e]; [done|done|]. unfold fceil, smant. destruct (Z.ltb_spec z 0); [lia|].
  rewrite Hm, Z.abs_eq by lia. simpl (- Z.neg e). rewrite <-Z.mul_opp_l, Z.div_mul, Z.opp_involutive by (apply Z.pow_nonzero; lia).
  destruct (Z.eqb_spec z 0); [done|]. rewrite <-Hf. done.
Qed.

Lemma flt_0 z : exact z → flt f0 (f64 z) = (0 <? z).
Proof. intros Hz. change f0 with (f64 0). apply flt_exact; [unfold exact in *; lia|done]. Qed.

Lemma f64_finite z : exact z → isNaN (f64 z) = false ∧ isInf (f64 z) = false.
Proof.
  intros Hz. destruct (decide (z = 0)) as [->|Hne]; [done|]. by destruct (f64_shape z) as (s & m & e & -> & _).
Qed.

Lemma fmin_exact a b : 0 ≤ a < 2 ^ 53 → 0 < b < 2 ^ 53 → fmin (f64 a) (f64 b) = f64 (Z.min a b).
Proof.
  intros Ha Hb. assert (fmin (f64 a) (f64 b) = if flt (f64 a) (f64 b) then f64 a else f64 b) as ->.
  { destruct (f64_shape b) as (sb & mb & eb & -> & _); [unfold exact; lia|lia|]. destruct (decide (a = 0)) as [->|Hne]; [done|].
    by destruct (f64_shape a) as (sa & ma & ea & -> & _); [unfold exact; lia|lia|]. }
  rewrite flt_exact by (unfold exact; lia). destruct (Z.ltb_spec a b); f_equal; lia.
Qed.
