(* ===== verification/FloatOrder.v ===== *)
(** * The order of the floats, and rounding

    The comparisons of doubles are a total order on everything but NaN; every operation that
    rounds returns a double in canonical form; and adding something that is not negative never
    makes a double smaller, whatever the rounding. *)

From Stdlib Require Import SpecFloat.
From S2P Require Import Prelude GoFloat FloatExact.

Local Open Scope Z_scope.

(** ** Canonical form. *)

Definition canonical (m e : Z) : Prop := -1074 ≤ e ∧ 0 < m < 2 ^ 53 ∧ (2 ^ 52 ≤ m ∨ e = -1074).

Definition valid (x : float64) : Prop := match x with S754_finite _ m e => canonical (Z.pos m) e | _ => True end.

Lemma fexp_max n : fexp prec emax n = Z.max (n - 53) (-1074).
Proof. unfold fexp, emin, prec, emax. lia. Qed.

Lemma shr_1_m r : 0 ≤ shr_m r → shr_m (shr_1 r) = shr_m r / 2.
Proof.
  intros Hr. unfold shr_1. destruct r as [m r s]. simpl in *. destruct m as [|[p|p|]|]; [done| | |done|lia].
  - rewrite Pos2Z.inj_xI. simpl. Z.to_euclidean_division_equations; lia.
  - rewrite Pos2Z.inj_xO. simpl. Z.to_euclidean_division_equations; lia.
Qed.

Lemma shr_m_div r e n : 0 ≤ shr_m r → 0 ≤ n → shr_m (SpecFloat.shr r e n).1 = shr_m r / 2 ^ n ∧ (SpecFloat.shr r e n).2 = e + n.
Proof.
  intros Hr Hn. destruct n as [|p|p]; [rewrite Z.div_1_r, Z.add_0_r; done| |lia]. unfold SpecFloat.shr. simpl. split; [|done].
  rewrite iter_pos_nat, <-(positive_nat_Z p). generalize (Pos.to_nat p) as k. intros k.
  assert (Hk : shr_m (Nat.iter k shr_1 r) = shr_m r / 2 ^ Z.of_nat k).
  { induction k as [|k IH]; [simpl; by rewrite Z.div_1_r|]. rewrite Nat.iter_succ, shr_1_m; rewrite IH.
    - rewrite Z.div_div by lia. rewrite Nat2Z.inj_succ, Z.pow_succ_r by lia. f_equal. lia.
    - apply Z.div_pos; lia. }
  exact Hk.
Qed.

(** The last step of a rounding, from the rounded mantissa. *)
Definition finish (s : bool) (R e : Z) : float64 :=
  if R =? 0 then S754_zero s
  else if R =? 2 ^ 53 then if e + 1 <=? 971 then S754_finite s (2 ^ 52)%positive (e + 1) else S754_infinity s
  else if e <=? 971 then S754_finite s (Z.to_pos R) e else S754_infinity s.

Lemma round_finish s R e :
  0 ≤ R ≤ 2 ^ 53 → -1074 ≤ e →
  (let '(mrs, e') := shr_fexp prec emax R e loc_Exact in
   match shr_m mrs with
   | Z0 => S754_zero s
   | Zpos m => if e' <=? emax - prec then S754_finite s m e' else S754_infinity s
   | _ => S754_nan
   end) = finish s R e.
Proof.
  intros HR He. unfold shr_fexp, finish. rewrite fexp_max. change (emax - prec) with 971. destruct (Z.eqb_spec R 0) as [->|Hn0].
  { simpl Zdigits2. replace (Z.max (0 + e - 53) (-1074) - e) with (- (e - Z.max (0 + e - 53) (-1074))) by lia.
    destruct (e - Z.max (0 + e - 53) (-1074)) eqn:Hd; [done|done|lia]. }
  rewrite Zdigits2_log2 by lia. destruct (Z.eqb_spec R (2 ^ 53)) as [->|Hne].
  - change (Z.log2 (2 ^ 53)) with 53. replace (Z.max (53 + 1 + e - 53) (-1074) - e) with 1 by lia. done.
  - assert (Z.log2 R < 53) by (apply Z.log2_lt_pow2; lia).
    replace (Z.max (Z.log2 R + 1 + e - 53) (-1074) - e) with (- (e - Z.max (Z.log2 R + 1 + e - 53) (-1074))) by lia.
    destruct R as [|R|R]; [lia| |lia]. destruct (e - Z.max (Z.log2 (Z.pos R) + 1 + e - 53) (-1074)) eqn:Hd; [done|done|lia].
Qed.

(** Rounding: a unit of the truncated mantissa at most is added. *)
Lemma round_aux_shape s M E l :
  0 ≤ M → E ≤ Z.max (Zdigits2 M + E - 53) (-1074) →
  let e := Z.max (Zdigits2 M + E - 53) (-1074) in let q := M / 2 ^ (e - E) in
  0 ≤ q < 2 ^ 53 ∧ (2 ^ 52 ≤ q ∨ e = -1074) ∧ ∃ R, (R = q ∨ R = q + 1) ∧ binary_round_aux prec emax s M E l = finish s R e.
Proof.
  intros HM HE e q. set (n := e - E). assert (0 ≤ n) as Hn by (unfold n, e; lia).
  assert (0 < 2 ^ n) as Hp by (apply Z.pow_pos_nonneg; lia).
  assert (Hq : 0 ≤ q < 2 ^ 53 ∧ (2 ^ 52 ≤ q ∨ e = -1074)).
  { unfold q. fold n. destruct (decide (M = 0)) as [->|Hne]; [rewrite Z.div_0_l by lia; simpl Zdigits2 in *; unfold e; simpl; lia|].
    assert (0 < M) as HM' by lia. destruct (Z.log2_spec M HM') as [Hlo Hhi]. rewrite Zdigits2_log2 in * by done. split; [split; [apply Z.div_pos; lia|]|].
    - apply Z.div_lt_upper_bound; [done|]. eapply Z.lt_le_trans; [exact Hhi|].
      rewrite <-Z.pow_add_r by lia. apply Z.pow_le_mono_r; [lia|]. unfold n, e. rewrite Zdigits2_log2 by done. lia.
    - destruct (decide (e = -1074)) as [->|Hne']; [by right|left]. apply Z.div_le_lower_bound; [done|]. etrans; [|exact Hlo].
      rewrite <-Z.pow_add_r by lia. apply Z.pow_le_mono_r; [lia|]. unfold n, e in *. rewrite Zdigits2_log2 in * by done. lia. }
  split; [apply Hq|]. split; [apply Hq|]. unfold binary_round_aux. unfold shr_fexp at 1. rewrite fexp_max. fold e n.
  destruct (shr_m_div (shr_record_of_loc M l) E n) as [H1 H2]; [by rewrite (proj2 (loc_of_record M l)); lia|done|].
  rewrite (proj2 (loc_of_record M l)) in H1. destruct (SpecFloat.shr (shr_record_of_loc M l) E n) as [mrs e']. simpl in H1, H2.
  assert (e' = e) as -> by (unfold n in *; lia). fold n q in H1. rewrite H1. exists (round_nearest_even q (loc_of_shr_record mrs)).
  split; [destruct (nearest_up q (loc_of_shr_record mrs)) as [->|[-> _]]; eauto|].
  apply round_finish; [destruct (nearest_up q (loc_of_shr_record mrs)) as [->|[-> _]]; lia|unfold e; lia].
Qed.

Lemma finish_valid s R e : 0 ≤ R ≤ 2 ^ 53 → -1074 ≤ e → 2 ^ 52 ≤ R ∨ e = -1074 → valid (finish s R e).
Proof.
  intros HR He Hn. unfold finish. destruct (Z.eqb_spec R 0); [done|]. destruct (Z.eqb_spec R (2 ^ 53)); [|].
  - destruct (e + 1 <=? 971); [|done]. simpl. unfold canonical. lia.
  - destruct (e <=? 971); [|done]. simpl. unfold canonical. rewrite Z2Pos.id by lia. lia.
Qed.

Lemma round_aux_valid s M E l : 0 ≤ M → E ≤ Z.max (Zdigits2 M + E - 53) (-1074) → valid (binary_round_aux prec emax s M E l).
Proof.
  intros HM HE. destruct (round_aux_shape s M E l HM HE) as (Hq & Hn & R & HR & ->). apply finish_valid; [|lia|]; destruct HR; subst R; lia.
Qed.

(** ** Operations return canonical doubles. *)

(** [binary_round] brings the mantissa to full length first. *)
Lemma binary_round_shape s p e :
  ∃ M E, binary_round prec emax s p e = binary_round_aux prec emax s M E loc_Exact ∧ E ≤ e ∧ M = Z.pos p * 2 ^ (e - E) ∧
    0 < M ∧ E ≤ Z.max (Zdigits2 M + E - 53) (-1074).
Proof.
  unfold binary_round. rewrite digits2_pos_log2, fexp_max. set (t := Z.max (Z.log2 (Z.pos p) + 1 + e - 53) (-1074)).
  destruct (shl_align p e t) as [m' e'] eqn:Hs. exists (Z.pos m'), e'.
  assert (e' = Z.min e t ∧ Z.pos m' = Z.pos p * 2 ^ (e - e')) as [He Hm].
  { unfold shl_align in Hs. destruct (t - e) as [|d|d] eqn:Hd.
    - injection Hs as <- <-. replace (e - e) with 0 by lia. rewrite Z.pow_0_r. lia.
    - injection Hs as <- <-. replace (e - e) with 0 by lia. rewrite Z.pow_0_r. lia.
    - pose proof (shl_align_fst p e t) as Hf. unfold shl_align in Hf. rewrite Hd in Hf. simpl in Hf. injection Hs as <- <-.
      split; [lia|]. apply Hf. lia. }
  split_and!; [done|lia|done|lia|]. rewrite Zdigits2_log2, Hm, log2_mul_pow2' by lia. unfold t in He. lia.
Qed.

Lemma normalize_valid z e sz : valid (binary_normalize prec emax z e sz).
Proof.
  unfold binary_normalize. destruct z as [|p|p]; [done|..].
  - destruct (binary_round_shape false p e) as (M & E & -> & _ & _ & HM & Hn). apply round_aux_valid; [lia|done].
  - destruct (binary_round_shape true p e) as (M & E & -> & _ & _ & HM & Hn). apply round_aux_valid; [lia|done].
Qed.

Lemma f64_valid z : valid (f64 z).
Proof. apply normalize_valid. Qed.

Lemma fadd_valid x y : valid x → valid y → valid (fadd x y).
Proof.
  intros Hx Hy. unfold fadd, SFadd. destruct x as [sx|sx| |sx mx ex], y as [sy|sy| |sy my ey]; try done; try (by destruct sx, sy). apply normalize_valid.
Qed.

(** The operand of the rounding in SFdiv. *)
Lemma div_core_shape mx ex my ey :
  let '(q, E, l) := SFdiv_core_binary prec emax (Z.pos mx) ex (Z.pos my) ey in 0 ≤ q ∧ E ≤ Z.max (Zdigits2 q + E - 53) (-1074).
Proof.
  unfold SFdiv_core_binary. rewrite !Zdigits2_log2, fexp_max by lia.
  set (d := Z.log2 (Z.pos mx) + 1 + ex - (Z.log2 (Z.pos my) + 1 + ey)).
  set (E := Z.min (Z.max (d - 53) (-1074)) (ex - ey)).
  assert (Hs : 0 ≤ ex - ey - E) by (unfold E; lia).
  assert (Hm : match ex - ey - E with 0 => Z.pos mx | Z.pos _ => Z.shiftl (Z.pos mx) (ex - ey - E) | Z.neg _ => 0 end = Z.pos mx * 2 ^ (ex - ey - E)).
  { destruct (ex - ey - E) as [|p|p] eqn:Hd; [lia| |lia]. by rewrite Z.shiftl_mul_pow2 by lia. }
  rewrite Hm. pose proof (Z.div_eucl_eq (Z.pos mx * 2 ^ (ex - ey - E)) (Z.pos my) ltac:(lia)) as Hq.
  pose proof (Z.mod_pos_bound (Z.pos mx * 2 ^ (ex - ey - E)) (Z.pos my) ltac:(lia)) as Hr.
  assert (Hdiv : (Z.div_eucl (Z.pos mx * 2 ^ (ex - ey - E)) (Z.pos my)).1 = Z.pos mx * 2 ^ (ex - ey - E) / Z.pos my) by done.
  destruct (Z.div_eucl _ _) as [q r]. simpl in Hdiv. subst q. clear Hq.
  split; [apply Z.div_pos; lia|]. set (q := Z.pos mx * 2 ^ (ex - ey - E) / Z.pos my).
  destruct (Z.le_gt_cases E (-1074)) as [|HE]; [lia|]. assert (Hd : E ≤ d - 53) by (unfold E in *; lia).
  destruct (Z.log2_spec (Z.pos mx)) as [Hx _]; [lia|]. destruct (Z.log2_spec (Z.pos my)) as [_ Hy]; [lia|].
  assert (2 ^ 52 ≤ q) as Hq.
  { apply Z.div_le_lower_bound; [lia|]. etrans; [|apply Z.mul_le_mono_nonneg_r; [apply Z.pow_nonneg; lia|exact Hx]].
    rewrite <-Z.pow_add_r by (lia || apply Z.log2_nonneg). etrans; [apply Z.mul_le_mono_nonneg_r; [lia|apply Z.lt_le_incl, Hy]|].
    rewrite <-Z.pow_add_r by (lia || pose proof (Z.log2_nonneg (Z.pos my)); lia). apply Z.pow_le_mono_r; [lia|]. unfold d in Hd. lia. }
  rewrite Zdigits2_log2 by lia. assert (52 ≤ Z.log2 q) by (apply Z.log2_le_pow2; lia). lia.
Qed.

Lemma fdiv_valid x y : valid (fdiv x y).
Proof.
  unfold fdiv, SFdiv. destruct x as [sx|sx| |sx mx ex], y as [sy|sy| |sy my ey]; try done.
  pose proof (div_core_shape mx ex my ey) as Hd. destruct (SFdiv_core_binary _ _ _ _ _ _) as [[q E] l]. destruct Hd. by apply round_aux_valid.
Qed.

(** ** The order. *)

(** A position on the line, for everything but NaN: a class, and within the finite doubles of
    one sign the exponent and the mantissa. *)
Definition fkey (x : float64) : Z * Z * Z :=
  match x with
  | S754_infinity true => (0, 0, 0)
  | S754_finite true m e => (1, - e, Z.neg m)
  | S754_zero _ => (2, 0, 0)
  | S754_finite false m e => (3, e, Z.pos m)
  | S754_infinity false => (4, 0, 0)
  | S754_nan => (5, 0, 0)
  end.

Definition key_le (k k' : Z * Z * Z) : Prop :=
  k.1.1 < k'.1.1 ∨ k.1.1 = k'.1.1 ∧ (k.1.2 < k'.1.2 ∨ k.1.2 = k'.1.2 ∧ k.2 ≤ k'.2).
Definition key_lt3 (k k' : Z * Z * Z) : Prop :=
  k.1.1 < k'.1.1 ∨ k.1.1 = k'.1.1 ∧ (k.1.2 < k'.1.2 ∨ k.1.2 = k'.1.2 ∧ k.2 < k'.2).

Lemma finite_order (s : bool) (m m' : positive) (e e' : Z) :
  (fle (S754_finite s m e) (S754_finite s m' e') = true ↔ key_le (fkey (S754_finite s m e)) (fkey (S754_finite s m' e'))) ∧
  (flt (S754_finite s m e) (S754_finite s m' e') = true ↔ key_lt3 (fkey (S754_finite s m e)) (fkey (S754_finite s m' e'))).
Proof.
  unfold fle, flt, SFleb, SFltb, SFcompare, key_le, key_lt3, fkey. destruct s; cbn [fst snd];
    destruct (Z.compare_spec e e') as [->|Hlt|Hgt]; try change (Pos.compare_cont Eq m m') with (Z.pos m ?= Z.pos m');
    try (destruct (Z.compare_spec (Z.pos m) (Z.pos m')) as [Heq|Hm|Hm]; [injection Heq as ->|..]; simpl); split; split; intros; try done; lia.
Qed.

Lemma fle_key x y : isNaN x = false → isNaN y = false → fle x y = true ↔ key_le (fkey x) (fkey y).
Proof.
  intros Hx Hy. destruct x as [sx|[]| |sx mx ex], y as [sy|[]| |sy my ey]; try done;
    try (split; [intros _; unfold key_le; simpl; try destruct sx; try destruct sy; simpl; lia|done]);
    try (split; [done|unfold key_le; simpl; try destruct sx; try destruct sy; simpl; lia]);
    try (unfold key_le; simpl; try destruct sx; try destruct sy; simpl; split; intros; (done || lia)).
  destruct (Bool.bool_dec sx sy) as [->|Hne]; [apply finite_order|].
  unfold key_le, fle, SFleb, SFcompare. destruct sx, sy; try done; simpl; split; intros; (done || lia).
Qed.

Lemma flt_key x y : isNaN x = false → isNaN y = false → flt x y = true ↔ key_lt3 (fkey x) (fkey y).
Proof.
  intros Hx Hy. destruct x as [sx|[]| |sx mx ex], y as [sy|[]| |sy my ey]; try done;
    try (split; [intros _; unfold key_lt3; simpl; try destruct sx; try destruct sy; simpl; lia|done]);
    try (split; [done|unfold key_lt3; simpl; try destruct sx; try destruct sy; simpl; lia]);
    try (unfold key_lt3; simpl; try destruct sx; try destruct sy; simpl; split; intros; (done || lia)).
  destruct (Bool.bool_dec sx sy) as [->|Hne]; [apply finite_order|].
  unfold key_lt3, flt, SFltb, SFcompare. destruct sx, sy; try done; simpl; split; intros; (done || lia).
Qed.

Lemma fle_nan x y : fle x y = true → isNaN x = false ∧ isNaN y = false.
Proof. by destruct x, y. Qed.

Lemma fle_refl x : isNaN x = false → fle x x = true.
Proof. intros Hx. apply fle_key; [done..|]. unfold key_le. lia. Qed.

Lemma fle_trans x y z : fle x y = true → fle y z = true → fle x z = true.
Proof.
  intros H1 H2. destruct (fle_nan _ _ H1), (fle_nan _ _ H2). apply fle_key in H1, H2; [|done..]. apply fle_key; [done..|].
  unfold key_le in *. lia.
Qed.

Lemma flt_false x y : isNaN x = false → isNaN y = false → flt x y = false → fle y x = true.
Proof.
  intros Hx Hy Hf. apply fle_key; [done..|]. destruct (decide (key_lt3 (fkey x) (fkey y))) as [Hl|Hl].
  - apply flt_key in Hl; [congruence|done..].
  - unfold key_le, key_lt3 in *. lia.
Qed.

Lemma flt_true x y : flt x y = true → fle x y = true.
Proof. unfold flt, fle, SFltb, SFleb. by destruct (SFcompare x y) as [[]|]. Qed.

(** ** The smaller of two. *)

Lemma fmin_spec x y :
  isNaN x = false → isNaN y = false →
  (fmin x y = x ∨ fmin x y = y) ∧ fle (fmin x y) x = true ∧ fle (fmin x y) y = true.
Proof.
  intros Hx Hy.
  assert (fmin x y = (if flt x y then x else y) ∨ (fmin x y = x ∧ fle x y = true) ∨ (fmin x y = y ∧ fle y x = true)) as Hc.
  { destruct x as [[]|[]| |sx mx ex], y as [[]|[]| |sy my ey]; try done; eauto. }
  destruct Hc as [->|[[-> Hle]|[-> Hle]]].
  - destruct (flt x y) eqn:Hlt; split_and!; eauto using fle_refl, flt_true, flt_false.
  - split_and!; eauto using fle_refl.
  - split_and!; eauto using fle_refl.
Qed.

(** ** Adding something that is not negative. *)

(** The rounding of at least [m 2^e] is at least [m 2^e]. *)
Lemma round_ge m e M E :
  canonical (Z.pos m) e → 0 < M → E ≤ Z.max (Zdigits2 M + E - 53) (-1074) → E ≤ e → Z.pos m * 2 ^ (e - E) ≤ M →
  fle (S754_finite false m e) (binary_round_aux prec emax false M E loc_Exact) = true.
Proof.
  intros (He & Hm & Hn) HM HE Hle Hge. destruct (round_aux_shape false M E loc_Exact) as (Hq & _ & R & HR & ->); [lia|done|].
  set (e1 := Z.max (Zdigits2 M + E - 53) (-1074)) in *.
  assert (Hlog : Z.log2 (Z.pos m) + (e - E) ≤ Z.log2 M) by (rewrite <-log2_mul_pow2' by lia; by apply Z.log2_le_mono).
  assert (He1 : e ≤ e1).
  { unfold e1. rewrite Zdigits2_log2 by done. destruct Hn as [Hn| ->]; [|lia].
    assert (52 ≤ Z.log2 (Z.pos m)) by (apply Z.log2_le_pow2; lia). lia. }
  assert (Hqm : e1 = e → Z.pos m ≤ R).
  { intros Heq. assert (Z.pos m ≤ M / 2 ^ (e1 - E)) by (rewrite Heq; apply Z.div_le_lower_bound; [apply Z.pow_pos_nonneg; lia|lia]).
    destruct HR; lia. }
  assert (Hpos : 0 < R).
  { destruct (decide (e1 = e)); [specialize (Hqm ltac:(done)); lia|]. 
    assert (2 ^ 52 ≤ M / 2 ^ (e1 - E)); [|destruct HR; lia].
    apply Z.div_le_lower_bound; [apply Z.pow_pos_nonneg; lia|]. destruct (Z.log2_spec M HM) as [Hlo _]. etrans; [|exact Hlo].
    rewrite <-Z.pow_add_r by lia. apply Z.pow_le_mono_r; [lia|]. unfold e1 in *. rewrite Zdigits2_log2 in * by done. lia. }
  unfold finish. destruct (Z.eqb_spec R 0); [lia|]. destruct (Z.eqb_spec R (2 ^ 53)).
  - destruct (e1 + 1 <=? 971); [|done]. apply fle_key; [done..|]. unfold key_le. simpl. lia.
  - destruct (e1 <=? 971); [|done]. apply fle_key; [done..|]. unfold key_le. cbn [fkey fst snd]. rewrite Z2Pos.id by lia.
    destruct (decide (e1 = e)); [specialize (Hqm ltac:(done)); lia|lia].
Qed.

Lemma fadd_ge x y : valid x → fle f0 x = true → isInf x = false → fle f0 y = true → fle x (fadd x y) = true.
Proof.
  intros Hv Hx Hinf Hy. destruct x as [sx|sx| |[] m e]; try done.
  { destruct y as [sy|[]| |[] m' e']; try done; by destruct sx, sy. }
  destruct y as [sy|[]| |[] m' e']; try done; [by apply fle_refl|]. unfold fadd, SFadd. set (ez := Z.min e e').
  pose proof (shl_align_fst m e ez ltac:(lia)) as H1. pose proof (shl_align_fst m' e' ez ltac:(lia)) as H2.
  destruct (shl_align m e ez) as [ax ?], (shl_align m' e' ez) as [ay ?]. simpl in H1, H2. simpl cond_Zopp.
  unfold binary_normalize. change (Z.pos ax + Z.pos ay) with (Z.pos (ax + ay)). cbv iota beta.
  destruct (binary_round_shape false (ax + ay) ez) as (M & E & -> & HE & HM & Hpos & Hfe). apply round_ge; [done|done|done|lia|].
  rewrite HM, Pos2Z.inj_add, H1. assert (0 ≤ Z.pos ay * 2 ^ (ez - E)) by (apply Z.mul_nonneg_nonneg; [lia|apply Z.pow_nonneg; lia]).
  rewrite Z.mul_add_distr_r, <-Z.mul_assoc, <-Z.pow_add_r by lia. replace (e - ez + (ez - E)) with (e - E) by lia. lia.
Qed.

(** A product of doubles that are not negative is not negative. *)
Lemma finish_nonneg R e : 0 ≤ R → fle f0 (finish false R e) = true.
Proof. intros HR. unfold finish. repeat case_match; try done. Qed.

Lemma fmul_nonneg m e y :
  2 ^ 52 ≤ Z.pos m < 2 ^ 53 → fle f0 y = true → fle f0 (fmul (S754_finite false m e) y) = true.
Proof.
  intros Hm Hy. destruct y as [sy|[]| |[] my ey]; try done. unfold fmul, SFmul. simpl xorb.
  assert (Hd : 53 ≤ Zdigits2 (Z.pos (m * my))).
  { rewrite Zdigits2_log2 by lia. rewrite Pos2Z.inj_mul. assert (52 ≤ Z.log2 (Z.pos m * Z.pos my)); [|lia]. apply Z.log2_le_pow2; nia. }
  destruct (round_aux_shape false (Z.pos (m * my)) (e + ey) loc_Exact) as (Hq & _ & R & HR & ->); [lia|lia|].
  apply finish_nonneg. destruct HR; lia.
Qed.

(** ** Signs. *)

(** Not NaN, and without a sign. *)
Definition positive_sign (x : float64) : Prop :=
  match x with S754_zero s | S754_infinity s | S754_finite s _ _ => s = false | S754_nan => False end.

Lemma positive_nonneg x : positive_sign x → fle f0 x = true.
Proof. by destruct x as [[]|[]| |[] m e]. Qed.

Lemma finish_positive R e : positive_sign (finish false R e).
Proof. unfold finish. by repeat case_match. Qed.

Lemma positive_rate x : flt f0 x = true → positive_sign x.
Proof. by destruct x as [[]|[]| |[] m e]. Qed.

Lemma round_aux_positive M E l : 0 ≤ M → E ≤ Z.max (Zdigits2 M + E - 53) (-1074) → positive_sign (binary_round_aux prec emax false M E l).
Proof. intros HM HE. destruct (round_aux_shape false M E l HM HE) as (_ & _ & R & _ & ->). apply finish_positive. Qed.

Lemma fadd_positive x y : positive_sign x → positive_sign y → positive_sign (fadd x y).
Proof.
  intros Hx Hy. destruct x as [[]|[]| |[] m e], y as [[]|[]| |[] m' e']; try done. unfold fadd, SFadd.
  destruct (shl_align m e _) as [ax ?], (shl_align m' e' _) as [ay ?]. simpl cond_Zopp. unfold binary_normalize.
  change (Z.pos ax + Z.pos ay) with (Z.pos (ax + ay)). cbv iota beta.
  destruct (binary_round_shape false (ax + ay) (Z.min e e')) as (M & E & -> & _ & _ & HM & Hn). apply round_aux_positive; [lia|done].
Qed.

Lemma fdiv_positive x y : fle f0 x = true → positive_sign y → isNaN (fdiv x y) = true ∨ fle f0 (fdiv x y) = true.
Proof.
  intros Hx Hy. destruct x as [[]|[]| |[] m e], y as [[]|[]| |[] m' e']; try done; try (by left); try (by right). right.
  unfold fdiv, SFdiv. pose proof (div_core_shape m e m' e') as Hd. destruct (SFdiv_core_binary _ _ _ _ _ _) as [[q E] l]. destruct Hd.
  simpl xorb. apply positive_nonneg. by apply round_aux_positive.
Qed.

(** Halving a positive double does not give NaN. *)
Lemma half_positive x : positive_sign x → positive_sign (fdiv x (f64 2)).
Proof.
  intros Hx. change (f64 2) with (S754_finite false 4503599627370496 (-51)). destruct x as [[]|[]| |[] m e]; try done.
  unfold fdiv, SFdiv. pose proof (div_core_shape m e 4503599627370496 (-51)) as Hd.
  destruct (SFdiv_core_binary _ _ _ _ _ _) as [[q E] l]. destruct Hd. simpl xorb. by apply round_aux_positive.
Qed.
