(* ===== verification/FloatBound.v ===== *)
(** * Magnitudes of float64 results

    Sums and products of doubles of bounded magnitude are finite, of a magnitude one or two
    binary orders larger: what rules out overflow, and with it NaN, in a chain of operations. *)

From Stdlib Require Import SpecFloat.
From S2P Require Import Prelude GoFloat FloatExact FloatOrder.

Local Open Scope Z_scope.

(** A finite double below [2^n] in absolute value. *)
Definition mag (n : Z) (x : float64) : Prop :=
  match x with
  | S754_zero _ => True
  | S754_finite _ m e => Z.log2 (Z.pos m) + e < n
  | _ => False
  end.

Lemma mag_mono n n' x : n ≤ n' → mag n x → mag n' x.
Proof. destruct x; try done. simpl. lia. Qed.

Lemma mag_finite n x : mag n x → isNaN x = false ∧ isInf x = false.
Proof. by destruct x. Qed.

Lemma round_mag s M E l n :
  0 < M → E ≤ Z.max (Zdigits2 M + E - 53) (-1074) → Z.log2 M + E < n → -1000 ≤ n ≤ 1000 → mag (n + 1) (binary_round_aux prec emax s M E l).
Proof.
  intros HM HE Hn Hr. destruct (round_aux_shape s M E l ltac:(lia) HE) as (Hq & _ & R & HR & ->). rewrite Zdigits2_log2 in * by done.
  set (e := Z.max _ _) in *. assert (0 ≤ R ≤ 2 ^ 53) as HR' by (destruct HR; lia). unfold finish.
  destruct (Z.eqb_spec R 0); [done|]. destruct (Z.eqb_spec R (2 ^ 53)).
  - destruct (Z.leb_spec (e + 1) 971); [|unfold e in *; lia]. cbn [mag]. change (Z.log2 (Z.pos (2 ^ 52))) with 52. unfold e in *. lia.
  - assert (Z.log2 R < 53) by (apply Z.log2_lt_pow2; lia). destruct (Z.leb_spec e 971); [|unfold e in *; lia]. cbn [mag]. rewrite Z2Pos.id by lia. unfold e in *. lia.
Qed.

Lemma normalize_mag z e sz n : Z.log2 (Z.abs z) + e < n → -1000 ≤ n ≤ 1000 → mag (n + 1) (binary_normalize prec emax z e sz).
Proof.
  intros Hz Hn.
  assert (Hgen : ∀ s p, Z.log2 (Z.pos p) + e < n → mag (n + 1) (binary_round prec emax s p e)).
  { intros s p Hp. destruct (binary_round_shape s p e) as (M & E & -> & HE & HM & Hpos & Hsh). apply (round_mag s M E loc_Exact n); [done|done| |done].
    rewrite HM, log2_mul_pow2' by lia. lia. }
  destruct z as [|p|p]; [done|by apply (Hgen false)|by apply (Hgen true)].
Qed.

Lemma align_bound m e ez n : Z.log2 (Z.pos m) + e < n → ez ≤ e → Z.pos m * 2 ^ (e - ez) < 2 ^ (n - ez).
Proof.
  intros Hm He. apply Z.log2_lt_cancel. rewrite log2_mul_pow2' by lia. rewrite Z.log2_pow2; [lia|]. pose proof (Z.log2_nonneg (Z.pos m)). lia.
Qed.

(** Signed sums. *)
Lemma sum_mag sx sy mx my ex ey n :
  Z.log2 (Z.pos mx) + ex < n → Z.log2 (Z.pos my) + ey < n → -900 ≤ n ≤ 900 → let ez := Z.min ex ey in
  mag (n + 2) (binary_normalize prec emax (cond_Zopp sx (Z.pos (fst (shl_align mx ex ez))) + cond_Zopp sy (Z.pos (fst (shl_align my ey ez)))) ez false).
Proof.
  intros Hx Hy Hn ez. pose proof (shl_align_fst mx ex ez ltac:(lia)) as H1. pose proof (shl_align_fst my ey ez ltac:(lia)) as H2. rewrite H1, H2.
  pose proof (align_bound mx ex ez n Hx ltac:(lia)) as B1. pose proof (align_bound my ey ez n Hy ltac:(lia)) as B2.
  assert (0 < Z.pos mx * 2 ^ (ex - ez)) by (rewrite <-H1; lia). assert (0 < Z.pos my * 2 ^ (ey - ez)) by (rewrite <-H2; lia).
  set (a := Z.pos mx * _) in *. set (b := Z.pos my * _) in *. clearbody a b.
  replace (n + 2) with (n + 1 + 1) by lia. apply normalize_mag; [|lia]. set (z := cond_Zopp sx a + cond_Zopp sy b).
  assert (Z.abs z < 2 ^ (n + 1 - ez)) as Hz.
  { replace (n + 1 - ez) with (Z.succ (n - ez)) by lia. rewrite Z.pow_succ_r; [unfold z; destruct sx, sy; cbn [cond_Zopp]; lia|].
    pose proof (Z.log2_nonneg (Z.pos mx)). lia. }
  destruct (Z.eq_dec (Z.abs z) 0) as [Hz0|Hz0]; [rewrite Hz0; cbn; pose proof (Z.log2_nonneg (Z.pos mx)); pose proof (Z.log2_nonneg (Z.pos my)); lia|].
  apply Z.log2_lt_pow2 in Hz; lia.
Qed.

Lemma fadd_mag n x y : mag n x → mag n y → -900 ≤ n ≤ 900 → mag (n + 2) (fadd x y).
Proof.
  intros Hx Hy Hn. destruct x as [sx|sx| |sx mx ex], y as [sy|sy| |sy my ey]; try done.
  - by destruct sx, sy.
  - by apply (mag_mono n); [lia|].
  - by apply (mag_mono n); [lia|].
  - apply (sum_mag sx sy mx my ex ey n); done.
Qed.

Lemma fsub_mag n x y : mag n x → mag n y → -900 ≤ n ≤ 900 → mag (n + 2) (fsub x y).
Proof.
  intros Hx Hy Hn. destruct x as [sx|sx| |sx mx ex], y as [sy|sy| |sy my ey]; try done.
  - by destruct sx, sy.
  - unfold fsub, SFsub. cbn in *. lia.
  - by apply (mag_mono n); [lia|].
  - pose proof (sum_mag sx (negb sy) mx my ex ey n Hx Hy Hn) as Hs. cbn zeta in Hs. unfold fsub, SFsub.
    replace (cond_Zopp sx (Z.pos (fst (shl_align mx ex (Z.min ex ey)))) - cond_Zopp sy (Z.pos (fst (shl_align my ey (Z.min ex ey)))))
      with (cond_Zopp sx (Z.pos (fst (shl_align mx ex (Z.min ex ey)))) + cond_Zopp (negb sy) (Z.pos (fst (shl_align my ey (Z.min ex ey))))) by (destruct sy; cbn; lia).
    exact Hs.
Qed.

Lemma fsub_valid x y : valid x → valid y → valid (fsub x y).
Proof.
  intros Hx Hy. unfold fsub, SFsub. destruct x as [sx|sx| |sx mx ex], y as [sy|sy| |sy my ey]; try done; try (by destruct sx, sy). apply normalize_valid.
Qed.

(** The product of two canonical mantissas is long enough, or at the bottom. *)
Lemma mul_shape mx ex my ey :
  canonical (Z.pos mx) ex → canonical (Z.pos my) ey → ex + ey ≤ Z.max (Zdigits2 (Z.pos (mx * my)) + (ex + ey) - 53) (-1074).
Proof.
  intros (He & Hm & Hn) (He' & Hm' & Hn'). rewrite Zdigits2_log2 by lia. rewrite Pos2Z.inj_mul.
  assert (Z.log2 (Z.pos mx) + Z.log2 (Z.pos my) ≤ Z.log2 (Z.pos mx * Z.pos my)) by (apply Z.log2_mul_below; lia).
  pose proof (Z.log2_nonneg (Z.pos mx)). pose proof (Z.log2_nonneg (Z.pos my)).
  destruct Hn as [Hn|Hn]; [assert (52 ≤ Z.log2 (Z.pos mx)) by (apply Z.log2_le_pow2; lia); lia|].
  destruct Hn' as [Hn'|Hn']; [assert (52 ≤ Z.log2 (Z.pos my)) by (apply Z.log2_le_pow2; lia); lia|lia].
Qed.

Lemma fmul_valid x y : valid x → valid y → valid (fmul x y).
Proof.
  intros Hx Hy. destruct x as [sx|sx| |sx mx ex], y as [sy|sy| |sy my ey]; try done. unfold fmul, SFmul. apply round_aux_valid; [lia|by apply mul_shape].
Qed.

Lemma fmul_mag a b x y : valid x → valid y → mag a x → mag b y → -900 ≤ a + b ≤ 900 → mag (a + b + 1) (fmul x y).
Proof.
  intros Hx Hy Ha Hb Hn. destruct x as [sx|sx| |sx mx ex], y as [sy|sy| |sy my ey]; try done. unfold fmul, SFmul.
  apply round_mag; [lia|by apply mul_shape| |lia]. rewrite Pos2Z.inj_mul.
  pose proof (Z.log2_mul_above (Z.pos mx) (Z.pos my) ltac:(lia) ltac:(lia)). unfold mag in Ha, Hb. lia.
Qed.

(** Halving. *)
Lemma div_core_le mx ex my ey :
  let '(q, E, l) := SFdiv_core_binary prec emax (Z.pos mx) ex (Z.pos my) ey in E ≤ ex - ey ∧ q * Z.pos my ≤ Z.pos mx * 2 ^ (ex - ey - E).
Proof.
  unfold SFdiv_core_binary. rewrite !Zdigits2_log2, fexp_max by lia. set (E := Z.min _ (ex - ey)). assert (Hs : 0 ≤ ex - ey - E) by (unfold E; lia).
  assert (Hm : match ex - ey - E with 0 => Z.pos mx | Z.pos _ => Z.shiftl (Z.pos mx) (ex - ey - E) | Z.neg _ => 0 end = Z.pos mx * 2 ^ (ex - ey - E)).
  { destruct (ex - ey - E) as [|p|p] eqn:Hd; [lia| |lia]. by rewrite Z.shiftl_mul_pow2 by lia. }
  rewrite Hm. assert (Hdiv : (Z.div_eucl (Z.pos mx * 2 ^ (ex - ey - E)) (Z.pos my)).1 = Z.pos mx * 2 ^ (ex - ey - E) / Z.pos my) by done.
  destruct (Z.div_eucl _ _) as [q r]. simpl in Hdiv. subst q. split; [lia|]. rewrite Z.mul_comm. apply Z.mul_div_le. lia.
Qed.

Lemma half_mag n x : mag n x → -900 ≤ n ≤ 900 → mag (n + 1) (fdiv x (f64 2)).
Proof.
  intros Hx Hn. change (f64 2) with (S754_finite false 4503599627370496 (-51)). destruct x as [s|s| |s m e]; try done. unfold fdiv, SFdiv.
  pose proof (div_core_shape m e 4503599627370496 (-51)) as Hd. pose proof (div_core_le m e 4503599627370496 (-51)) as Hl.
  destruct (SFdiv_core_binary _ _ _ _ _ _) as [[q E] l]. destruct Hd as [Hq HE]. destruct Hl as [HEe Hle]. cbn [mag] in Hx.
  destruct (Z.eq_dec q 0) as [->|Hq0].
  - cbn [Zdigits2] in HE. destruct (round_aux_shape (xorb s false) 0 E l ltac:(lia) HE) as (_ & _ & R & HR & ->). cbn [Zdigits2] in *.
    replace (Z.max (0 + E - 53) (-1074)) with (-1074) in * by lia. rewrite Z.div_0_l in HR by (apply Z.pow_nonzero; lia).
    destruct HR as [-> | ->]; [done|]. apply (mag_mono (-1000)); [lia|]. by destruct s.
  - apply round_mag; [lia|done| |lia]. change 4503599627370496 with (2 ^ 52) in Hle. apply Z.log2_le_mono in Hle. rewrite !log2_mul_pow2' in Hle by lia. lia.
Qed.

(** ** Comparisons and signs. *)

Lemma mag_unit x : valid x → fle f0 x = true → fle x (f64 1) = true → mag 1 x.
Proof.
  intros Hv H0 H1. destruct x as [s|[]| |[] m e]; try done. change (f64 1) with (S754_finite false 4503599627370496 (-52)) in H1.
  apply fle_key in H1; [|done..]. unfold key_le in H1. cbn [fkey fst snd] in H1. destruct Hv as (He & Hm & _). cbn [mag].
  assert (Z.log2 (Z.pos m) < 53) by (apply Z.log2_lt_pow2; lia).
  assert (Z.pos m ≤ 4503599627370496 → Z.log2 (Z.pos m) ≤ 52) by (intros Hl; apply (Z.log2_le_mono _ 4503599627370496); lia). lia.
Qed.

Lemma fmax_spec x y :
  isNaN x = false → isNaN y = false →
  (fmax x y = x ∨ fmax x y = y) ∧ fle x (fmax x y) = true ∧ fle y (fmax x y) = true.
Proof.
  intros Hx Hy.
  assert (fmax x y = (if flt y x then x else y) ∨ (fmax x y = x ∧ fle y x = true) ∨ (fmax x y = y ∧ fle x y = true)) as Hc.
  { destruct x as [[]|[]| |sx mx ex], y as [[]|[]| |sy my ey]; try done; eauto. }
  destruct Hc as [->|[[-> Hle]|[-> Hle]]].
  - destruct (flt y x) eqn:Hlt; split_and!; eauto using fle_refl, flt_true, flt_false.
  - split_and!; eauto using fle_refl.
  - split_and!; eauto using fle_refl.
Qed.

(** Dividing by a positive finite double keeps the sign. *)
Lemma div_positive x m e : positive_sign x → positive_sign (fdiv x (S754_finite false m e)).
Proof.
  intros Hx. destruct x as [[]|[]| |[] mx ex]; try done. unfold fdiv, SFdiv. pose proof (div_core_shape mx ex m e) as Hd.
  destruct (SFdiv_core_binary _ _ _ _ _ _) as [[q E] l]. destruct Hd. simpl xorb. by apply round_aux_positive.
Qed.

Lemma div_negated x m e : positive_sign x → fle (fdiv (fopp x) (S754_finite false m e)) f0 = true.
Proof.
  intros Hx. destruct x as [[]|[]| |[] mx ex]; try done. unfold fdiv, fopp, SFopp, SFdiv. pose proof (div_core_shape mx ex m e) as Hd.
  destruct (SFdiv_core_binary _ _ _ _ _ _) as [[q E] l]. destruct Hd as [Hq HE]. simpl xorb.
  destruct (round_aux_shape true q E l Hq HE) as (_ & _ & R & _ & ->). unfold finish. by repeat case_match.
Qed.

Lemma fmul_positive x y : valid x → valid y → positive_sign x → positive_sign y → isNaN (fmul x y) = false → positive_sign (fmul x y).
Proof.
  intros Hx Hy Sx Sy. destruct x as [[]|[]| |[] mx ex], y as [[]|[]| |[] my ey]; try done. intros _. unfold fmul, SFmul. simpl xorb.
  apply round_aux_positive; [lia|by apply mul_shape].
Qed.

Lemma f64_positive z : 0 ≤ z → positive_sign (f64 z).
Proof.
  intros Hz. destruct z as [|p|]; [done| |lia]. unfold f64, binary_normalize.
  destruct (binary_round_shape false p 0) as (M & E & -> & _ & _ & HM & Hn). apply round_aux_positive; [lia|done].
Qed.
