(* ===== verification/GoSort.v ===== *)
(** * Go's package sort

    [sort.Search] is the library's binary search, with the interval's length as fuel;
    [sort.Float64s] is a sort by the order in which NaN comes first. *)

From Stdlib Require Import SpecFloat.
From S2P Require Import Prelude GoFloat.

(** ** Binary search. *)

Fixpoint search_go (f : nat → bool) (fuel i j : nat) : nat :=
  match fuel with
  | O => i
  | S fuel =>
      if (i <? j)%nat then
        let h := ((i + j) / 2)%nat in
        if f h then search_go f fuel i h else search_go f fuel (S h) j
      else i
  end.

Definition sort_Search (n : nat) (f : nat → bool) : nat := search_go f n 0 n.

Lemma search_go_spec f fuel i j n :
  (j - i ≤ fuel)%nat → (i ≤ j ≤ n)%nat → (∀ a b, (a ≤ b < n)%nat → f a = true → f b = true) →
  (∀ k, (k < i)%nat → f k = false) → (∀ k, (j ≤ k < n)%nat → f k = true) →
  let r := search_go f fuel i j in (r ≤ n)%nat ∧ (∀ k, (k < r)%nat → f k = false) ∧ (∀ k, (r ≤ k < n)%nat → f k = true).
Proof.
  revert i j. induction fuel as [|fuel IH]; intros i j Hf Hij Hmono Hlo Hhi; cbv zeta.
  - assert (i = j) as -> by lia. simpl. split_and!; [lia|done|done].
  - cbn [search_go]. destruct (Nat.ltb_spec i j) as [Hlt|Hge]; [|assert (i = j) as -> by lia; split_and!; [lia|done|done]].
    assert (i ≤ (i + j) / 2 < j)%nat as Hh by (split; [apply Nat.div_le_lower_bound|apply Nat.Div0.div_lt_upper_bound]; lia).
    set (h := ((i + j) / 2)%nat) in *. destruct (f h) eqn:Hfh.
    + apply IH; [lia|lia|done|done|]. intros k Hk. apply (Hmono h); [lia|done].
    + apply IH; [lia|lia|done| |done]. intros k Hk. destruct (f k) eqn:Hfk; [|done].
      rewrite (Hmono k h) in Hfh; [done|lia|done].
Qed.

(** On a monotone predicate it finds the first index that satisfies it. *)
Lemma sort_Search_spec n f :
  (∀ a b, (a ≤ b < n)%nat → f a = true → f b = true) →
  (sort_Search n f ≤ n)%nat ∧ (∀ k, (k < sort_Search n f)%nat → f k = false) ∧ (∀ k, (sort_Search n f ≤ k < n)%nat → f k = true).
Proof. intros Hmono. apply search_go_spec; (lia || done). Qed.

(** On any predicate it stays within the interval. *)
Lemma search_go_le f fuel i j : (i ≤ j)%nat → (search_go f fuel i j ≤ j)%nat.
Proof.
  revert i j. induction fuel as [|fuel IH]; intros i j Hij; [done|]. cbn [search_go].
  destruct (Nat.ltb_spec i j) as [Hlt|]; [|done].
  assert (i ≤ (i + j) / 2 < j)%nat as Hh by (split; [apply Nat.div_le_lower_bound|apply Nat.Div0.div_lt_upper_bound]; lia).
  destruct (f _); [etrans; [apply IH|]|apply IH]; lia.
Qed.

Lemma sort_Search_le n f : (sort_Search n f ≤ n)%nat.
Proof. apply search_go_le. lia. Qed.

(** ** Floats. *)

(** [x < y || (x is NaN && y is not)], the order of [sort.Float64Slice]; its reflexive form. *)
Definition float_le (x y : float64) : Prop := isNaN x = true ∨ (isNaN y = false ∧ fle x y = true).

#[global] Instance float_le_dec : RelDecision float_le.
Proof. intros x y. unfold float_le. apply _. Defined.

Definition sort_Float64s (l : list float64) : list float64 := merge_sort float_le l.

Lemma sort_Float64s_perm l : sort_Float64s l ≡ₚ l.
Proof. apply merge_sort_Permutation. Qed.
