(* ===== verification/SlidingWindow.v ===== *)
(** * The sliding window of internal/resilience/doc.go

    [slidingWindow] counts events in whole-second buckets over the last [n] seconds in a ring
    that is allocated once.  It carries two counters per bucket: the breaker's outcome window
    uses them for (all outcomes, faults), the retry budget for (first attempts, retries).

    The specification is a function from bucket numbers to counters ([counts]): [repr] says that
    the ring stores it for the buckets of the current window, and the lemmas show that [new],
    [add], [sum] and [reset] implement it while the clock does not step back. *)

From S2P Require Import Prelude.

Local Open Scope Z_scope.

Definition bucketWidth : Z := Second.

Record slidingWindow := mkWindow {
  sw_n : Z;
  sw_stamp : list Z;
  sw_vals : list (Z * Z);
}.

Definition newSlidingWindow (window : Z) : slidingWindow :=
  let n := Z.quot (window + bucketWidth - 1) bucketWidth in
  let n := if n <? 1 then 1 else n in
  mkWindow n (replicate (Z.to_nat n) 0) (replicate (Z.to_nat n) (0, 0)).

Definition bucketOf (t : Time) : Z := Z.quot (UnixNano t) bucketWidth.

Definition slidingWindow_slot (w : slidingWindow) (idx : Z) : nat :=
  Z.to_nat (Z.rem (Z.rem idx (sw_n w) + sw_n w) (sw_n w)).

(** The two counters of a bucket; [which] is false for counter 0 and true for counter 1. *)
Definition bump (which : bool) (delta : Z) (v : Z * Z) : Z * Z :=
  if which
  then (v.1, let x := v.2 + delta in if x <? 0 then 0 else x)
  else (let x := v.1 + delta in if x <? 0 then 0 else x, v.2).

Definition slidingWindow_add (w : slidingWindow) (t now : Time) (which : bool) (delta : Z)
  : slidingWindow :=
  let idx := bucketOf t in
  let cur := bucketOf now in
  if (idx <=? cur - sw_n w) || (cur <? idx) then w else
  let s := slidingWindow_slot w idx in
  let w :=
    if default 0 (sw_stamp w !! s) =? idx then w
    else mkWindow (sw_n w) (<[s := idx]> (sw_stamp w)) (<[s := (0, 0)]> (sw_vals w)) in
  mkWindow (sw_n w) (sw_stamp w)
    (<[s := bump which delta (default (0, 0) (sw_vals w !! s))]> (sw_vals w)).

(** Both counters of one ring slot, if its stamp lies in the window that ends at [cur]. *)
Definition slotval (n cur : Z) (stamp : Z) (v : Z * Z) : Z * Z :=
  if (cur - n <? stamp) && (stamp <=? cur) then v else (0, 0).

Definition addpair (a b : Z * Z) : Z * Z := (a.1 + b.1, a.2 + b.2).

Definition slidingWindow_sum (w : slidingWindow) (now : Time) : Z * Z :=
  let cur := bucketOf now in
  foldr (λ sv acc, addpair (slotval (sw_n w) cur sv.1 sv.2) acc) (0, 0) (zip (sw_stamp w) (sw_vals w)).

Definition slidingWindow_reset (w : slidingWindow) : slidingWindow :=
  mkWindow (sw_n w) ((λ _, 0) <$> sw_stamp w) ((λ _, (0, 0)) <$> sw_vals w).

(** ** Specification: counters per bucket. *)

Definition counts : Type := Z → Z * Z.

Definition counts_empty : counts := λ _, (0, 0).

(** One event: counter [which] of bucket [idx] changes by [delta], never below zero. *)
Definition counts_add (c : counts) (idx : Z) (which : bool) (delta : Z) : counts :=
  λ i, if i =? idx then bump which delta (c i) else c i.

(** The buckets of the window that ends at [cur]. *)
Definition window_buckets (n cur : Z) : list Z :=
  (λ k, cur - n + 1 + Z.of_nat k) <$> seq 0 (Z.to_nat n).

Definition pairsum (l : list (Z * Z)) : Z * Z := (sumZ l.*1, sumZ l.*2).

Definition counts_sum (c : counts) (n cur : Z) : Z * Z := pairsum (c <$> window_buckets n cur).

(** ** The ring implements the counters. *)

(** What the ring holds for bucket [i]. *)
Definition ring (w : slidingWindow) (i : Z) : Z * Z :=
  let s := slidingWindow_slot w i in
  if default 0 (sw_stamp w !! s) =? i then default (0, 0) (sw_vals w !! s) else (0, 0).

Record window_wf (w : slidingWindow) : Prop := {
  wf_n : 1 ≤ sw_n w;
  wf_stamp : Z.of_nat (length (sw_stamp w)) = sw_n w;
  wf_vals : Z.of_nat (length (sw_vals w)) = sw_n w;
  wf_pos : Forall (λ v, 0 ≤ v.1 ∧ 0 ≤ v.2) (sw_vals w);
}.

Record repr (w : slidingWindow) (c : counts) (hi : Z) : Prop := {
  repr_wf : window_wf w;
  repr_ring : ∀ i, hi - sw_n w < i ≤ hi → ring w i = c i;
  repr_future : ∀ i, hi < i → c i = (0, 0);
  repr_slots : ∀ s i v, sw_stamp w !! s = Some i → sw_vals w !! s = Some v →
    v = (0, 0) ∨ (slidingWindow_slot w i = s ∧ i ≤ hi);
}.

Lemma slot_mod w i : 1 ≤ sw_n w → slidingWindow_slot w i = Z.to_nat (i mod sw_n w).
Proof.
  intros Hn. unfold slidingWindow_slot. f_equal.
  pose proof (Z.rem_bound_abs i (sw_n w)) as Hb.
  pose proof (Z.quot_rem' i (sw_n w)) as Hq.
  rewrite Z.rem_mod_nonneg by lia.
  replace (Z.rem i (sw_n w) + sw_n w) with (i + (1 - Z.quot i (sw_n w)) * sw_n w) by lia.
  apply Z_mod_plus_full.
Qed.

Lemma slot_lt w i : window_wf w → (slidingWindow_slot w i < length (sw_stamp w))%nat.
Proof.
  intros [Hn Hs Hv _]. rewrite slot_mod by done.
  pose proof (Z.mod_pos_bound i (sw_n w)). lia.
Qed.

Lemma slot_lt_vals w i : window_wf w → (slidingWindow_slot w i < length (sw_vals w))%nat.
Proof. intros Hw. pose proof (slot_lt w i Hw). destruct Hw. lia. Qed.

Lemma slot_inj w i j :
  1 ≤ sw_n w → slidingWindow_slot w i = slidingWindow_slot w j → Z.abs (i - j) < sw_n w → i = j.
Proof.
  intros Hn. rewrite !slot_mod by done. intros E Hd.
  pose proof (Z.mod_pos_bound i (sw_n w)). pose proof (Z.mod_pos_bound j (sw_n w)).
  assert (i mod sw_n w = j mod sw_n w) as E' by lia.
  pose proof (Z.div_mod i (sw_n w)). pose proof (Z.div_mod j (sw_n w)).
  assert (i - j = sw_n w * (i / sw_n w - j / sw_n w)) by lia.
  assert (i / sw_n w - j / sw_n w = 0) by nia. lia.
Qed.

Lemma bump_nonneg which delta v : 0 ≤ v.1 ∧ 0 ≤ v.2 → 0 ≤ (bump which delta v).1 ∧ 0 ≤ (bump which delta v).2.
Proof. unfold bump. intros ?. destruct which; simpl; bdestr; lia. Qed.

Lemma newSlidingWindow_wf window : window_wf (newSlidingWindow window).
Proof.
  unfold newSlidingWindow. set (n := Z.quot _ _). set (n' := if n <? 1 then 1 else n).
  assert (1 ≤ n') by (unfold n'; bdestr; lia).
  split; simpl; rewrite ?length_replicate; [lia|lia|lia|].
  apply Forall_replicate. simpl. lia.
Qed.

Lemma newSlidingWindow_repr window hi : repr (newSlidingWindow window) counts_empty hi.
Proof.
  split; [apply newSlidingWindow_wf| | done|].
  - intros i _. unfold ring, counts_empty.
    destruct (default 0 _ =? i); [|done].
    destruct (sw_vals _ !! _) eqn:E; [|done].
    apply lookup_replicate in E as [-> _]. done.
  - intros s i v _ Hv. left. unfold newSlidingWindow in Hv; simpl in Hv.
    apply lookup_replicate in Hv as [-> _]. done.
Qed.

(** Time passing: buckets that enter the window are empty. *)
Lemma repr_advance w c hi hi' : repr w c hi → hi ≤ hi' → repr w c hi'.
Proof.
  intros [Hw Hr Hf Hs] Hle. split; [done| | |].
  - intros i Hi. destruct (decide (i ≤ hi)); [apply Hr; lia|].
    rewrite Hf by lia. unfold ring.
    destruct (lookup_lt_is_Some_2 _ _ (slot_lt w i Hw)) as [j Hj].
    destruct (lookup_lt_is_Some_2 _ _ (slot_lt_vals w i Hw)) as [v Hv].
    rewrite Hj, Hv; simpl. bdestr. subst j.
    destruct (Hs _ _ _ Hj Hv) as [->|[_ ?]]; [done|lia].
  - intros i ?. apply Hf. lia.
  - intros s i v H1 H2. destruct (Hs s i v H1 H2) as [|[]]; [by left|right; split; [done|lia]].
Qed.

Lemma ring_set w i j v :
  window_wf w → Z.abs (i - j) < sw_n w →
  ring (mkWindow (sw_n w) (<[slidingWindow_slot w j := j]> (sw_stamp w))
                 (<[slidingWindow_slot w j := v]> (sw_vals w))) i
  = if i =? j then v else ring w i.
Proof.
  intros Hw Hd. unfold ring. simpl.
  change (slidingWindow_slot (mkWindow _ _ _) i) with (slidingWindow_slot w i).
  destruct (Z.eqb_spec i j) as [->|Hne].
  - rewrite !list_lookup_insert_eq by (apply slot_lt || apply slot_lt_vals; done).
    simpl. by rewrite Z.eqb_refl.
  - assert (slidingWindow_slot w j ≠ slidingWindow_slot w i).
    { intros E. apply Hne. symmetry. eapply slot_inj; [apply Hw|exact E|lia]. }
    by rewrite !list_lookup_insert_ne by done.
Qed.

(** [add] in terms of the slot it writes. *)
Lemma add_in_window w t now which delta :
  window_wf w → bucketOf now - sw_n w < bucketOf t ≤ bucketOf now →
  slidingWindow_add w t now which delta =
  mkWindow (sw_n w) (<[slidingWindow_slot w (bucketOf t) := bucketOf t]> (sw_stamp w))
    (<[slidingWindow_slot w (bucketOf t) := bump which delta (ring w (bucketOf t))]> (sw_vals w)).
Proof.
  intros Hw Hi. unfold slidingWindow_add, ring.
  set (i := bucketOf t) in *. set (s := slidingWindow_slot w i).
  destruct (lookup_lt_is_Some_2 _ _ (slot_lt w i Hw)) as [j Hj]. fold s in Hj.
  pose proof (slot_lt_vals w i Hw) as Hlt. fold s in Hlt.
  rewrite Hj; simpl.
  replace (i <=? bucketOf now - sw_n w) with false by (symmetry; apply Z.leb_gt; lia).
  replace (bucketOf now <? i) with false by (symmetry; apply Z.ltb_ge; lia).
  simpl. destruct (Z.eqb_spec j i) as [->|Hne]; simpl.
  - f_equal. symmetry. by apply list_insert_id.
  - rewrite list_lookup_insert_eq by done. simpl. by rewrite list_insert_insert_eq.
Qed.

Lemma add_outside w t now which delta :
  ¬ (bucketOf now - sw_n w < bucketOf t ≤ bucketOf now) →
  slidingWindow_add w t now which delta = w.
Proof.
  intros Hn. unfold slidingWindow_add. destruct (_ || _) eqn:E; [done|]. bprop. lia.
Qed.

Lemma ring_nonneg w i : window_wf w → 0 ≤ (ring w i).1 ∧ 0 ≤ (ring w i).2.
Proof.
  intros Hw. unfold ring. destruct (_ =? _); simpl; [|lia].
  destruct (sw_vals w !! _) as [v|] eqn:Hv; simpl; [|lia].
  destruct Hw as [_ _ _ Hp]. by apply (Forall_lookup_1 _ _ _ _ Hp Hv).
Qed.

Lemma add_wf w t now which delta : window_wf w → window_wf (slidingWindow_add w t now which delta).
Proof.
  intros Hw.
  destruct (decide (bucketOf now - sw_n w < bucketOf t ≤ bucketOf now)) as [Hi|Hi].
  - rewrite add_in_window by done. destruct Hw as [H1 H2 H3 H4].
    split; simpl; rewrite ?length_insert; try done.
    apply Forall_insert; [done|]. apply bump_nonneg, ring_nonneg. by split.
  - by rewrite add_outside.
Qed.

(** An event inside the window is counted in its bucket. *)
Lemma add_repr w c t now which delta :
  repr w c (bucketOf now) → bucketOf now - sw_n w < bucketOf t ≤ bucketOf now →
  repr (slidingWindow_add w t now which delta) (counts_add c (bucketOf t) which delta) (bucketOf now).
Proof.
  intros [Hw Hr Hf Hs] Hi. pose proof (add_wf w t now which delta Hw) as Hw'.
  rewrite add_in_window in * by done. split; [done| | |].
  - intros i Hin. simpl in Hin. rewrite ring_set by (done || lia).
    unfold counts_add. destruct (Z.eqb_spec i (bucketOf t)) as [->|]; [|by apply Hr].
    by rewrite Hr by lia.
  - intros i Hgt. unfold counts_add. destruct (Z.eqb_spec i (bucketOf t)); [lia|by apply Hf].
  - intros s i v H1 H2. simpl in *.
    change (slidingWindow_slot (mkWindow _ _ _) i) with (slidingWindow_slot w i).
    destruct (decide (s = slidingWindow_slot w (bucketOf t))) as [->|Hne].
    + rewrite list_lookup_insert_eq in H1 by (by apply slot_lt). simplify_eq. right. split; [done|lia].
    + rewrite list_lookup_insert_ne in H1 by done. rewrite list_lookup_insert_ne in H2 by done. by apply Hs.
Qed.

Lemma reset_repr w hi : window_wf w → repr (slidingWindow_reset w) counts_empty hi.
Proof.
  intros [H1 H2 H3 H4].
  assert (∀ s v, sw_vals (slidingWindow_reset w) !! s = Some v → v = (0, 0)) as Hz.
  { intros s v. simpl. rewrite list_lookup_fmap. by destruct (sw_vals w !! s); intros; simplify_eq/=. }
  split; [split| | |]; simpl; rewrite ?length_fmap; try done.
  - apply Forall_fmap, Forall_true. simpl. lia.
  - intros i _. unfold ring. destruct (_ =? _); [|done].
    destruct (sw_vals _ !! _) eqn:E; [|done]. simpl. by apply Hz in E as ->.
  - intros s i v _ Hv. left. by apply (Hz s).
Qed.

(** ** [sum] is the sum of the counters over the window. *)

Lemma window_buckets_elem n cur i : i ∈ window_buckets n cur ↔ cur - n < i ≤ cur.
Proof.
  unfold window_buckets. rewrite list_elem_of_fmap. split.
  - intros [k [-> Hk]]. apply elem_of_seq in Hk. lia.
  - intros Hi. exists (Z.to_nat (i - (cur - n + 1))). rewrite elem_of_seq. lia.
Qed.

Lemma window_slots_perm w cur :
  1 ≤ sw_n w →
  slidingWindow_slot w <$> window_buckets (sw_n w) cur ≡ₚ seq 0 (Z.to_nat (sw_n w)).
Proof.
  intros Hn. symmetry. apply submseteq_length_Permutation; [|unfold window_buckets; by rewrite !length_fmap, length_seq].
  apply NoDup_submseteq; [apply NoDup_seq|].
  intros s Hs. apply elem_of_seq in Hs. apply list_elem_of_fmap.
  (* the bucket of the window congruent to s *)
  set (lo := cur - sw_n w + 1).
  exists (lo + (Z.of_nat s - lo) mod sw_n w). split.
  - rewrite slot_mod by done. rewrite Zplus_mod_idemp_r.
    replace (lo + (Z.of_nat s - lo)) with (Z.of_nat s) by lia.
    rewrite Z.mod_small by lia. lia.
  - apply window_buckets_elem. pose proof (Z.mod_pos_bound (Z.of_nat s - lo) (sw_n w)). lia.
Qed.

Lemma pairsum_perm l k : l ≡ₚ k → pairsum l = pairsum k.
Proof. intros H. unfold pairsum. f_equal; apply sumZ_perm; by rewrite H. Qed.

(** The counters that slot [s] contributes to a sum at bucket [cur]. *)
Definition slot_contrib (w : slidingWindow) (cur : Z) (s : nat) : Z * Z :=
  slotval (sw_n w) cur (default 0 (sw_stamp w !! s)) (default (0, 0) (sw_vals w !! s)).

Lemma sum_slots w now :
  window_wf w →
  slidingWindow_sum w now
  = pairsum (slot_contrib w (bucketOf now) <$> seq 0 (Z.to_nat (sw_n w))).
Proof.
  intros [Hn Hs Hv _]. unfold slidingWindow_sum.
  assert (∀ l : list (Z * (Z * Z)),
    foldr (λ sv acc, addpair (slotval (sw_n w) (bucketOf now) sv.1 sv.2) acc) (0, 0) l = pairsum ((λ sv, slotval (sw_n w) (bucketOf now) sv.1 sv.2) <$> l)) as ->.
  { induction l as [|sv l IH]; [done|]. simpl. by rewrite IH. }
  f_equal. apply list_eq. intros k. rewrite !list_lookup_fmap, lookup_zip_with.
  destruct (decide (k < Z.to_nat (sw_n w))%nat) as [Hk|Hk].
  - destruct (lookup_lt_is_Some_2 (sw_stamp w) k) as [j Hj]; [lia|].
    destruct (lookup_lt_is_Some_2 (sw_vals w) k) as [v Hv']; [lia|].
    rewrite lookup_seq_lt by done. unfold slot_contrib. simpl. by rewrite Hj, Hv'.
  - rewrite lookup_seq_ge by lia.
    by rewrite (lookup_ge_None_2 (sw_stamp w)) by lia.
Qed.

Lemma contrib_ring w c cur i :
  repr w c cur → cur - sw_n w < i ≤ cur →
  slot_contrib w cur (slidingWindow_slot w i) = ring w i.
Proof.
  intros [Hw _ _ Hs] Hi. unfold slot_contrib, slotval, ring.
  destruct (lookup_lt_is_Some_2 _ _ (slot_lt w i Hw)) as [j Hj].
  destruct (lookup_lt_is_Some_2 _ _ (slot_lt_vals w i Hw)) as [v Hv].
  rewrite Hj, Hv; simpl. destruct (Hs _ _ _ Hj Hv) as [->|[Hsl _]].
  { by destruct (_ && _), (_ =? _). }
  destruct (_ && _) eqn:E; bprop.
  - assert (j = i) as -> by (eapply slot_inj; [apply Hw|exact Hsl|lia]). by rewrite Z.eqb_refl.
  - destruct (Z.eqb_spec j i) as [->|]; [|done].
    apply andb_false_iff in E as [?|?]; bprop; lia.
Qed.

Lemma sum_repr w c now :
  repr w c (bucketOf now) → slidingWindow_sum w now = counts_sum c (sw_n w) (bucketOf now).
Proof.
  intros Hr. rewrite sum_slots by apply Hr. unfold counts_sum.
  rewrite <-(pairsum_perm (slot_contrib w (bucketOf now) <$> (slidingWindow_slot w <$> window_buckets (sw_n w) (bucketOf now)))).
  2: { apply fmap_Permutation, window_slots_perm, Hr. }
  f_equal. rewrite <-list_fmap_compose. apply list_fmap_ext. intros k i Hk. simpl.
  apply list_elem_of_lookup_2, window_buckets_elem in Hk.
  rewrite (contrib_ring w c) by done. by apply Hr.
Qed.

Lemma sum_nonneg w now : window_wf w → 0 ≤ (slidingWindow_sum w now).1 ∧ 0 ≤ (slidingWindow_sum w now).2.
Proof.
  intros Hw. rewrite sum_slots by done. unfold pairsum; simpl.
  assert (∀ s, 0 ≤ (slot_contrib w (bucketOf now) s).1 ∧ 0 ≤ (slot_contrib w (bucketOf now) s).2).
  { intros s. unfold slot_contrib, slotval. destruct (_ && _); simpl; [|lia].
    destruct (sw_vals w !! s) as [v|] eqn:Hv; simpl; [|lia].
    destruct Hw as [_ _ _ Hp]. by apply (Forall_lookup_1 _ _ _ _ Hp Hv). }
  split; apply sumZ_nonneg; rewrite !Forall_fmap; apply Forall_true; simpl; firstorder.
Qed.

(** A counted event moves the sum by exactly its (clamped) amount. *)
Lemma counts_sum_add c n cur idx which delta :
  cur - n < idx ≤ cur →
  counts_sum (counts_add c idx which delta) n cur
  = (((counts_sum c n cur).1 + ((bump which delta (c idx)).1 - (c idx).1)),
     ((counts_sum c n cur).2 + ((bump which delta (c idx)).2 - (c idx).2))).
Proof.
  intros Hi. apply window_buckets_elem in Hi. unfold counts_sum.
  assert (NoDup (window_buckets n cur)) as Hnd.
  { unfold window_buckets. apply NoDup_fmap_2; [intros ???; lia|apply NoDup_seq]. }
  assert (counts_add c idx which delta idx = bump which delta (c idx)) as Heq.
  { unfold counts_add. by rewrite Z.eqb_refl. }
  assert (∀ j, j ≠ idx → counts_add c idx which delta j = c j) as Hne.
  { intros j Hj. unfold counts_add. by destruct (Z.eqb_spec j idx). }
  revert Heq Hne. generalize (counts_add c idx which delta) as c'. intros c' Heq Hne.
  induction (window_buckets n cur) as [|i l IH]; [by apply not_elem_of_nil in Hi|].
  apply NoDup_cons in Hnd as [Hni Hnd].
  destruct (decide (i = idx)) as [->|Hi'].
  - assert (c' <$> l = c <$> l) as E.
    { apply list_fmap_ext. intros k j Hj. apply Hne. intros ->.
      by apply list_elem_of_lookup_2 in Hj. }
    unfold pairsum. rewrite !fmap_cons, E, Heq. simpl. f_equal; lia.
  - apply elem_of_cons in Hi as [?|Hi]; [done|]. specialize (IH Hi Hnd).
    unfold pairsum in *. rewrite !fmap_cons, (Hne i) by done. simpl in *. simplify_eq.
    f_equal; lia.
Qed.

(** The ring knows nothing of the buckets that left the window. *)
Lemma repr_ext_window w c c' hi :
  repr w c hi → (∀ i, hi - sw_n w < i → c' i = c i) → repr w c' hi.
Proof.
  intros [Hw Hr Hf Hs] Hc. pose proof (wf_n _ Hw). split; [done| | |done].
  - intros i Hi. rewrite Hc by lia. by apply Hr.
  - intros i Hi. rewrite Hc by lia. by apply Hf.
Qed.

Lemma repr_ext w c c' hi : repr w c hi → (∀ i, c i = c' i) → repr w c' hi.
Proof. intros Hr Hc. by eapply repr_ext_window. Qed.

Lemma single_bucket n cur (b : bool) x :
  sumZ ((λ i, Z.b2z (b && (x =? i))) <$> window_buckets n cur)
  = Z.b2z (b && (cur - n <? x) && (x <=? cur)).
Proof.
  destruct b; simpl; [|by rewrite sumZ_fmap_0].
  destruct (decide (cur - n < x ≤ cur)) as [Hx|Hx].
  - rewrite (sumZ_fmap_single _ _ x).
    + rewrite Z.eqb_refl. destruct (Z.ltb_spec (cur - n) x); [|lia].
      destruct (Z.leb_spec x cur); [done|lia].
    + unfold window_buckets. apply NoDup_fmap_2; [intros ???; lia|apply NoDup_seq].
    + by apply window_buckets_elem.
    + intros y _ Hy. destruct (Z.eqb_spec x y); [congruence|done].
  - rewrite sumZ_fmap_0.
    + destruct (Z.ltb_spec (cur - n) x); destruct (Z.leb_spec x cur); done || lia.
    + intros y Hy%window_buckets_elem. destruct (Z.eqb_spec x y); [lia|done].
Qed.

(** A window whose sum is zero holds nothing. *)
Lemma sum_zero_repr w c now i :
  repr w c (bucketOf now) → slidingWindow_sum w now = (0, 0) → bucketOf now - sw_n w < i → c i = (0, 0).
Proof.
  intros Hr Hs Hi. destruct (decide (i ≤ bucketOf now)) as [Hle|]; [|apply (repr_future _ _ _ Hr); lia].
  rewrite (sum_repr _ _ _ Hr) in Hs. unfold counts_sum, pairsum in Hs. rewrite <-!list_fmap_compose in Hs.
  assert (∀ j, j ∈ window_buckets (sw_n w) (bucketOf now) → 0 ≤ (c j).1 ∧ 0 ≤ (c j).2) as Hpos.
  { intros j Hj%window_buckets_elem. rewrite <-(repr_ring _ _ _ Hr) by done. apply ring_nonneg, Hr. }
  assert (i ∈ window_buckets (sw_n w) (bucketOf now)) as Hin by by apply window_buckets_elem.
  injection Hs as Hs1 Hs2. destruct (c i) as [x y] eqn:Hc. f_equal.
  - eapply sumZ_zero; [|exact Hs1|].
    + apply Forall_fmap, Forall_forall. intros j Hj. by apply Hpos.
    + apply list_elem_of_fmap. exists i. split; [|done]. simpl. by rewrite Hc.
  - eapply sumZ_zero; [|exact Hs2|].
    + apply Forall_fmap, Forall_forall. intros j Hj. by apply Hpos.
    + apply list_elem_of_fmap. exists i. split; [|done]. simpl. by rewrite Hc.
Qed.

(** Events counted per bucket and summed over the window are the events of the window. *)
Lemma sum_window_countb {A} (P : A → bool) (idx : A → Z) l n cur :
  sumZ ((λ i, countb (λ e, P e && (idx e =? i)) l) <$> window_buckets n cur)
  = countb (λ e, P e && (cur - n <? idx e) && (idx e <=? cur)) l.
Proof.
  induction l as [|e l IH].
  - by apply sumZ_fmap_0.
  - rewrite countb_cons, <-IH, <-(single_bucket n cur (P e)), <-sumZ_fmap_add. done.
Qed.

(** ** A window over a whole run. *)

(** One [add] call of a run: when the event happened, when it is counted, and what. *)
Record wevent := mkEvent { ev_t : Time; ev_now : Time; ev_which : bool; ev_delta : Z }.

Definition win_step (w : slidingWindow) (e : wevent) : slidingWindow :=
  slidingWindow_add w (ev_t e) (ev_now e) (ev_which e) (ev_delta e).

Definition counts_step (n : Z) (c : counts) (e : wevent) : counts :=
  if (bucketOf (ev_now e) - n <? bucketOf (ev_t e)) && (bucketOf (ev_t e) <=? bucketOf (ev_now e))
  then counts_add c (bucketOf (ev_t e)) (ev_which e) (ev_delta e) else c.

(** The buckets at which the run's calls are made do not decrease. *)
Fixpoint clock_ordered (hi : Z) (evs : list wevent) (last : Time) : Prop :=
  match evs with
  | [] => hi ≤ bucketOf last
  | e :: evs => hi ≤ bucketOf (ev_now e) ∧ clock_ordered (bucketOf (ev_now e)) evs last
  end.

Lemma win_step_n w e : sw_n (win_step w e) = sw_n w.
Proof. unfold win_step, slidingWindow_add. destruct (_ || _); [done|]. by destruct (_ =? _). Qed.

Lemma win_step_repr w c hi e :
  repr w c hi → hi ≤ bucketOf (ev_now e) →
  repr (win_step w e) (counts_step (sw_n w) c e) (bucketOf (ev_now e)).
Proof.
  intros Hr Hle. apply (repr_advance _ _ _ (bucketOf (ev_now e))) in Hr; [|done].
  unfold win_step, counts_step. destruct (_ && _) eqn:E.
  - bprop. apply add_repr; [done|lia].
  - rewrite add_outside; [done|]. apply andb_false_iff in E as [?|?]; bprop; lia.
Qed.

Lemma win_run_repr evs : ∀ w c hi now,
  repr w c hi → clock_ordered hi evs now →
  slidingWindow_sum (foldl win_step w evs) now
  = counts_sum (foldl (counts_step (sw_n w)) c evs) (sw_n w) (bucketOf now).
Proof.
  induction evs as [|e evs IH]; intros w c hi now Hr Ho; simpl in *.
  - apply sum_repr. by apply (repr_advance _ _ hi).
  - destruct Ho as [H1 H2]. rewrite (IH (win_step w e) (counts_step (sw_n w) c e) (bucketOf (ev_now e)) now).
    + by rewrite win_step_n.
    + by apply win_step_repr with hi.
    + done.
Qed.

(** Over any run of [add] calls on a fresh window whose clock does not step back, [sum]
    returns exactly the counters accumulated in the last [n] buckets: the ring never loses a
    live bucket, never counts an expired one and never mixes two seconds that share a slot. *)
Theorem slidingWindow_refines_counts window evs now :
  clock_ordered 0 evs now →
  slidingWindow_sum (foldl win_step (newSlidingWindow window) evs) now
  = counts_sum (foldl (counts_step (sw_n (newSlidingWindow window))) counts_empty evs)
      (sw_n (newSlidingWindow window)) (bucketOf now).
Proof. intros Ho. apply (win_run_repr _ _ _ 0); [apply newSlidingWindow_repr|done]. Qed.

(** Three seconds of window, an event per second for five seconds: three are left. *)
Lemma slidingWindow_refines_counts_witness :
  let t k := mkTime (k * Second) (k * Second) in
  let evs := (λ k, mkEvent (t k) (t k) false 1) <$> [10; 11; 12; 13; 14] in
  slidingWindow_sum (foldl win_step (newSlidingWindow (3 * Second)) evs) (t 14) = (3, 0).
Proof.
  intros t evs. rewrite (slidingWindow_refines_counts (3 * Second) evs (t 14)).
  - vm_compute. reflexivity.
  - vm_compute. repeat split; discriminate.
Defined.
