(* ===== verification/Breaker.v ===== *)
(** * One worker's circuit breaker (internal/resilience/breaker.go, doc.go)

    The closed, open and half-open states, the two trip rules (a streak of consecutive faults
    inside the window, a failure ratio over the window), the doubling cool-down with jitter and
    the probe tickets of the half-open state.  [Breakers.v] builds the set of breakers on it. *)

From S2P Require Import Prelude GoFloat SlidingWindow.

Local Open Scope Z_scope.

(** [Key]: a worker registration. *)
Record Key := mkKey { key_ID : string; key_Registered : Z }.

#[global] Instance Key_eq_dec : EqDecision Key.
Proof. solve_decision. Defined.

Definition KeyOf (id : string) (registeredAt : Time) : Key := mkKey id (UnixNano registeredAt).

Inductive State := Closed | HalfOpen | Open.

#[global] Instance State_eq_dec : EqDecision State.
Proof. solve_decision. Defined.

Definition State_String (s : State) : string :=
  match s with
  | Closed => "closed"
  | HalfOpen => "half_open"
  | Open => "open"
  end.

Inductive Verdict := Neutral | OK | Fault | RatioFault.

#[global] Instance Verdict_eq_dec : EqDecision Verdict.
Proof. solve_decision. Defined.

Definition ReasonConsecutive : string := "consecutive_failures".
Definition ReasonRatio : string := "failure_ratio".
Definition ReasonCoolDown : string := "cool_down_elapsed".
Definition ReasonProbeFailed : string := "probe_failed".
Definition ReasonProbesPassed : string := "probes_passed".
Definition ReasonSuppressed : string := "suppressed".
Definition ReasonCapRelaxed : string := "ejection_cap".

Record BreakerParams := mkParams {
  ConsecutiveFailures : Z;
  FailureRatio : float64;
  MinVolume : Z;
  Window : Z;
  CoolDown : Z;
  MaxCoolDown : Z;
  ProbeConcurrency : Z;
  ProbeSuccesses : Z;
  MaxOpenFraction : float64;
  HeaderTimeout : Z;
}.

Definition ticketBackstop (p : BreakerParams) : Z :=
  (Z.max (2 *! CoolDown p) (HeaderTimeout p +! 5 * Second))%go.

(** The constant 0.2. *)
Definition jitterSpan : float64 := flit 2 1.

(** A state transition, or a trip the ejection cap suppressed. *)
Record Change := mkChange {
  ch_Key : Key;
  ch_From : State;
  ch_To : State;
  ch_Reason : string;
  ch_Failures : Z;
  ch_CoolDown : Z;
  ch_Suppressed : bool;
}.

Record breaker := mkBreaker {
  b_key : Key;
  b_model : string;
  b_eligible : bool;
  b_state : State;
  b_win : slidingWindow;
  b_streak : list Time;
  b_streakPos : nat;
  b_streakLen : nat;
  b_suppressed : bool;
  b_level : nat;
  b_everOpened : bool;
  b_closedAt : Time;
  b_ejectedAt : Time;
  b_openUntil : Time;
  b_coolDown : Z;
  b_epoch : Z;
  b_nextID : Z;
  b_tickets : gmap Z Time;
  b_successes : Z;
}.

#[global] Instance breaker_settable : Settable breaker := {| eta_of := λ b,
  mkBreaker (b_key b) (b_model b) (b_eligible b) (b_state b) (b_win b) (b_streak b)
    (b_streakPos b) (b_streakLen b) (b_suppressed b) (b_level b) (b_everOpened b)
    (b_closedAt b) (b_ejectedAt b) (b_openUntil b) (b_coolDown b) (b_epoch b) (b_nextID b)
    (b_tickets b) (b_successes b) |}.

Definition newBreaker (k : Key) (p : BreakerParams) : breaker := {|
  b_key := k; b_model := ""; b_eligible := false; b_state := Closed;
  b_win := newSlidingWindow (Window p);
  b_streak := replicate (Z.to_nat (ConsecutiveFailures p)) zeroTime;
  b_streakPos := 0; b_streakLen := 0; b_suppressed := false;
  b_level := 0; b_everOpened := false; b_closedAt := zeroTime; b_ejectedAt := zeroTime;
  b_openUntil := zeroTime; b_coolDown := 0;
  b_epoch := 0; b_nextID := 0; b_tickets := ∅; b_successes := 0;
|}.
(** ** Lazy transitions. *)

(** [advance]: open to half-open once the cool-down has elapsed, and the release of lost probe
    tickets.  The second component is the change, if the state moved. *)
Definition breaker_advance (b : breaker) (now : Time) (p : BreakerParams) : breaker * option Change :=
  let '(b, ch) :=
    if bool_decide (b_state b = Open) && negb (Before now (b_openUntil b)) then
      (b <| b_state := HalfOpen |> <| b_successes := 0 |> <| b_tickets := ∅ |>,
       Some (mkChange (b_key b) Open HalfOpen ReasonCoolDown 0 (b_coolDown b) false))
    else (b, None) in
  let b :=
    if bool_decide (b_state b = HalfOpen) && negb (bool_decide (b_tickets b = ∅)) then
      b <| b_tickets := filter (λ kv : Z * Time, ¬ (ticketBackstop p < Sub now kv.2)) (b_tickets b) |>
    else b in
  (b, ch).

Definition breaker_probeFree (b : breaker) (p : BreakerParams) : bool :=
  bool_decide (b_state b = HalfOpen) && (Z.of_nat (size (b_tickets b)) <? ProbeConcurrency p).

(** ** The closed state: counting an outcome. *)

(** The outcome's effect on the window and the streak; the [default] case of the switch leaves
    the breaker alone. *)
Definition count_outcome (b : breaker) (now : Time) (v : Verdict) : breaker :=
  match v with
  | OK =>
      b <| b_win := slidingWindow_add (b_win b) now now false 1 |>
        <| b_streakLen := 0%nat |> <| b_streakPos := 0%nat |>
  | Fault =>
      let win := slidingWindow_add (b_win b) now now false 1 in
      let win := slidingWindow_add win now now true 1 in
      b <| b_win := win |>
        <| b_streak := <[b_streakPos b := now]> (b_streak b) |>
        <| b_streakPos := ((b_streakPos b + 1) mod length (b_streak b))%nat |>
        <| b_streakLen := if (b_streakLen b <? length (b_streak b))%nat
                          then S (b_streakLen b) else b_streakLen b |>
  | RatioFault =>
      let win := slidingWindow_add (b_win b) now now false 1 in
      let win := slidingWindow_add win now now true 1 in
      b <| b_win := win |>
  | Neutral => b
  end.

(** The consecutive-failures rule: a full streak whose oldest fault is inside the window. *)
Definition streak_trips (b : breaker) (now : Time) (v : Verdict) (p : BreakerParams) : bool :=
  negb (bool_decide (v = OK)) && (b_streakLen b =? length (b_streak b))%nat &&
  (Sub now (default zeroTime (b_streak b !! b_streakPos b)) <=? Window p).

(** The failure-ratio rule. *)
Definition ratio_trips (b : breaker) (now : Time) (p : BreakerParams) : bool :=
  flt f0 (FailureRatio p) &&
  (let '(total, faults) := slidingWindow_sum (b_win b) now in
   (MinVolume p <=? total) && (0 <? total) &&
   fle (fmul (FailureRatio p) (f64 total)) (f64 faults)).

(** [recordClosed]: the breaker after the outcome, the reason to trip ("" for none) and the
    number of faults the rule counted. *)
Definition breaker_recordClosed (b : breaker) (now : Time) (v : Verdict) (p : BreakerParams)
  : breaker * string * Z :=
  let b := count_outcome b now v in
  if bool_decide (v = Neutral) then (b, "", 0)
  else if streak_trips b now v p then (b, ReasonConsecutive, Z.of_nat (b_streakLen b))
  else if ratio_trips b now p then (b, ReasonRatio, (slidingWindow_sum (b_win b) now).2)
  else (b, "", 0).

(** ** Cool-downs. *)

(** The loop of [baseCoolDown], [i] doublings left. *)
Fixpoint baseCoolDown_loop (p : BreakerParams) (i : nat) (d : Z) : Z :=
  match i with
  | O => Z.min d (MaxCoolDown p)
  | S i =>
      if Z.quot (MaxCoolDown p) 2 + Z.rem (MaxCoolDown p) 2 <=? d then MaxCoolDown p
      else baseCoolDown_loop p i (d * 2)
  end.

Definition baseCoolDown (p : BreakerParams) (level : nat) : Z :=
  baseCoolDown_loop p level (CoolDown p).

(** The loop of [maxLevel].  [maxLevel_exact] shows that its fuel suffices for every
    normalised parameter set: a positive cool-down reaches any int64 cap in 63 doublings. *)
Fixpoint maxLevel_loop (p : BreakerParams) (fuel : nat) (l : nat) : nat :=
  match fuel with
  | O => l
  | S fuel => if baseCoolDown p l <? MaxCoolDown p then maxLevel_loop p fuel (S l) else l
  end.

Definition maxLevel (p : BreakerParams) : nat := maxLevel_loop p 64 0.

Section open_close.
Context `{GoPlatform}.

(** The jittered duration of an open period; [rnd] is the float in [0,1) the source drew. *)
Definition jittered (p : BreakerParams) (level : nat) (rnd : float64) : Z :=
  let d := float_to_int (fmul (f64 (baseCoolDown p level))
                           (fadd f1 (fmul jitterSpan (fsub (fmul (f64 2) rnd) f1)))) in
  Z.min (Z.max d 1) (MaxCoolDown p).

Definition breaker_open (b : breaker) (now : Time) (fromProbe : bool) (p : BreakerParams)
    (rnd : float64) : breaker :=
  let level :=
    if fromProbe then
      if (b_level b <? maxLevel p)%nat then S (b_level b) else b_level b
    else if negb (b_everOpened b) || (MaxCoolDown p <=? Sub now (b_closedAt b)) then 0%nat
    else b_level b in
  let d := jittered p level rnd in
  b <| b_level := level |>
    <| b_everOpened := true |>
    <| b_ejectedAt := if fromProbe then b_ejectedAt b else now |>
    <| b_state := Open |>
    <| b_coolDown := d |>
    <| b_openUntil := Add now d |>
    <| b_epoch := b_epoch b + 1 |>
    <| b_tickets := ∅ |>
    <| b_successes := 0 |>
    <| b_suppressed := false |>.
End open_close.

Definition breaker_close (b : breaker) (now : Time) : breaker :=
  b <| b_state := Closed |>
    <| b_closedAt := now |>
    <| b_tickets := ∅ |>
    <| b_successes := 0 |>
    <| b_win := slidingWindow_reset (b_win b) |>
    <| b_streakLen := 0%nat |> <| b_streakPos := 0%nat |>
    <| b_suppressed := false |>.

(** ** Cool-down arithmetic. *)

Lemma half_up m d : 0 ≤ m → Z.quot m 2 + Z.rem m 2 ≤ d ↔ m ≤ 2 * d.
Proof.
  intros Hm. rewrite Z.quot_div_nonneg, Z.rem_mod_nonneg by lia.
  pose proof (Z.div_mod m 2). pose proof (Z.mod_pos_bound m 2). lia.
Qed.

Lemma baseCoolDown_loop_spec p i d :
  0 < d ≤ MaxCoolDown p → baseCoolDown_loop p i d = Z.min (d * 2 ^ Z.of_nat i) (MaxCoolDown p).
Proof.
  revert d. induction i as [|i IH]; intros d Hd; cbn [baseCoolDown_loop].
  - change (2 ^ Z.of_nat 0) with 1. f_equal. lia.
  - rewrite Nat2Z.inj_succ, Z.pow_succ_r by lia.
    assert (1 ≤ 2 ^ Z.of_nat i) by (apply (Z.pow_le_mono_r 2 0); lia).
    destruct (Z.leb_spec (Z.quot (MaxCoolDown p) 2 + Z.rem (MaxCoolDown p) 2) d) as [Hle|Hgt].
    + apply half_up in Hle; [|lia]. rewrite Z.min_r; nia.
    + assert (¬ (MaxCoolDown p ≤ 2 * d)) by (intros ?%half_up; lia).
      rewrite IH by lia. f_equal. lia.
Qed.

Lemma baseCoolDown_spec p level :
  0 < CoolDown p ≤ MaxCoolDown p →
  baseCoolDown p level = Z.min (CoolDown p * 2 ^ Z.of_nat level) (MaxCoolDown p).
Proof. apply baseCoolDown_loop_spec. Qed.

Lemma baseCoolDown_bounds p level :
  0 < CoolDown p ≤ MaxCoolDown p → CoolDown p ≤ baseCoolDown p level ≤ MaxCoolDown p.
Proof.
  intros Hc. rewrite baseCoolDown_spec by done.
  assert (1 ≤ 2 ^ Z.of_nat level) by (apply (Z.pow_le_mono_r 2 0); lia). nia.
Qed.

Lemma baseCoolDown_mono p l l' :
  0 < CoolDown p ≤ MaxCoolDown p → (l ≤ l')%nat → baseCoolDown p l ≤ baseCoolDown p l'.
Proof.
  intros Hc Hl. rewrite !baseCoolDown_spec by done.
  assert (2 ^ Z.of_nat l ≤ 2 ^ Z.of_nat l') by (apply Z.pow_le_mono_r; lia). nia.
Qed.

Lemma maxLevel_loop_least p fuel l :
  (∀ k, (k < l)%nat → baseCoolDown p k < MaxCoolDown p) →
  (∀ k, (k < maxLevel_loop p fuel l)%nat → baseCoolDown p k < MaxCoolDown p).
Proof.
  revert l. induction fuel as [|fuel IH]; intros l Hl; simpl; [done|].
  destruct (Z.ltb_spec (baseCoolDown p l) (MaxCoolDown p)); [|done].
  apply IH. intros k Hk. destruct (decide (k = l)) as [->|]; [done|apply Hl; lia].
Qed.

Lemma maxLevel_loop_stops p fuel l :
  MaxCoolDown p ≤ baseCoolDown p (l + fuel) → MaxCoolDown p ≤ baseCoolDown p (maxLevel_loop p fuel l).
Proof.
  revert l. induction fuel as [|fuel IH]; intros l Hl; simpl.
  - by rewrite Nat.add_0_r in Hl.
  - destruct (Z.ltb_spec (baseCoolDown p l) (MaxCoolDown p)); [|lia].
    apply IH. by rewrite Nat.add_succ_comm.
Qed.

(** The doubling ladder.  For every positive cool-down and every int64 cap at least as
    large, [baseCoolDown] is [min(CoolDown * 2^level, MaxCoolDown)] although the loop never
    computes a product above the cap, and the search of [maxLevel] stops at the first level
    that reaches the cap (its loop terminates: 64 doublings cover the width). *)
Theorem coolDown_ladder p :
  0 < CoolDown p ≤ MaxCoolDown p → MaxCoolDown p ≤ int64_max →
  (∀ level, baseCoolDown p level = Z.min (CoolDown p * 2 ^ Z.of_nat level) (MaxCoolDown p)) ∧
  baseCoolDown p (maxLevel p) = MaxCoolDown p ∧
  (∀ level, (level < maxLevel p)%nat → baseCoolDown p level < MaxCoolDown p) ∧
  (maxLevel p ≤ 63)%nat.
Proof.
  intros Hc Hm. unfold int64_max in Hm.
  assert (MaxCoolDown p ≤ baseCoolDown p 63) as H63.
  { rewrite baseCoolDown_spec by done. change (2 ^ Z.of_nat 63) with (2 ^ 63). nia. }
  assert (MaxCoolDown p ≤ baseCoolDown p (maxLevel p)) as Hs.
  { apply maxLevel_loop_stops. etrans; [exact H63|]. apply baseCoolDown_mono; [done|lia]. }
  pose proof (baseCoolDown_bounds p (maxLevel p) Hc).
  assert (∀ level, (level < maxLevel p)%nat → baseCoolDown p level < MaxCoolDown p) as Hl.
  { apply maxLevel_loop_least. intros ? ?. lia. }
  repeat split; [intros; by apply baseCoolDown_spec|lia|done|].
  destruct (decide (maxLevel p ≤ 63)%nat) as [|Hgt]; [done|].
  assert (baseCoolDown p 63 < MaxCoolDown p) by (apply Hl; lia). lia.
Qed.

(** The shipped defaults (internal/config/resilience.go): 10 s doubling to 2 min. *)
Definition default_params : BreakerParams :=
  mkParams 5 (flit 5 1) 10 (10 * Second) (10 * Second) (120 * Second) 1 1 (flit 5 1) (60 * Second).

Lemma coolDown_ladder_witness :
  baseCoolDown default_params (maxLevel default_params) = 120 * Second ∧
  maxLevel default_params = 4%nat.
Proof.
  split; [|vm_compute; reflexivity].
  apply (coolDown_ladder default_params); vm_compute; split || idtac; discriminate || reflexivity.
Defined.

(** ** The streak ring.

    [streak], [streakPos] and [streakLen] store the times of the last [N] consecutive faults.
    The specification is the list of all faults since the last OK, newest first. *)

Definition streak_index (pos n k : nat) : nat :=
  (if k <? pos then pos - 1 - k else pos + n - 1 - k)%nat.

Record streak_repr (b : breaker) (faults : list Time) : Prop := {
  sr_pos : (b_streakPos b < length (b_streak b))%nat;
  sr_len : b_streakLen b = (length (b_streak b) `min` length faults)%nat;
  sr_get : ∀ k, (k < length (b_streak b))%nat → (k < length faults)%nat →
    b_streak b !! streak_index (b_streakPos b) (length (b_streak b)) k = faults !! k;
}.

(** What an outcome does to the faults since the last OK. *)
Definition faults_step (faults : list Time) (now : Time) (v : Verdict) : list Time :=
  match v with
  | OK => []
  | Fault => now :: faults
  | RatioFault | Neutral => faults
  end.

Lemma succ_mod pos n : (pos < n)%nat → ((pos + 1) mod n = if S pos =? n then 0 else S pos)%nat.
Proof.
  intros Hp. destruct (Nat.eqb_spec (S pos) n) as [<-|Hne].
  - rewrite Nat.add_1_r. apply Nat.Div0.mod_same.
  - rewrite Nat.add_1_r. apply Nat.mod_small. lia.
Qed.

Lemma count_outcome_streak b faults now v :
  streak_repr b faults → streak_repr (count_outcome b now v) (faults_step faults now v).
Proof.
  intros [Hp Hl Hg]. destruct v; simpl; [by split| |..|by split].
  - split; simpl; [lia|lia|]. intros k _ Hk. lia.
  - split; simpl; rewrite ?length_insert.
    + apply Nat.mod_upper_bound. lia.
    + rewrite Hl. destruct (Nat.ltb_spec (length (b_streak b) `min` length faults) (length (b_streak b))); lia.
    + intros k Hk Hf. rewrite succ_mod by done.
      assert (∀ i, (S i < length (b_streak b))%nat →
                   streak_index (if (S (b_streakPos b) =? length (b_streak b))%nat then 0%nat
                                 else S (b_streakPos b)) (length (b_streak b)) (S i)
                   = streak_index (b_streakPos b) (length (b_streak b)) i) as Hs.
      { intros i Hi. unfold streak_index. destruct (Nat.eqb_spec (S (b_streakPos b)) (length (b_streak b)));
          destruct (Nat.ltb_spec i (b_streakPos b)); destruct (Nat.ltb_spec (S i) (S (b_streakPos b)));
          destruct (Nat.ltb_spec (S i) 0); lia. }
      destruct k as [|k].
      * simpl. rewrite <-(list_lookup_insert_eq (b_streak b) (b_streakPos b) now Hp). f_equal.
        unfold streak_index. destruct (Nat.eqb_spec (S (b_streakPos b)) (length (b_streak b)));
          [|destruct (Nat.ltb_spec 0 (S (b_streakPos b)))]; simpl; lia.
      * simpl. rewrite Hs, <-(Hg k) by lia. apply list_lookup_insert_ne.
        unfold streak_index. destruct (Nat.ltb_spec k (b_streakPos b)); lia.
Qed.

(** The rule in terms of the faults since the last OK: at least [N] of them, and the [N]-th
    newest no older than the window. *)
Definition streak_spec (n : nat) (faults : list Time) (now : Time) (v : Verdict) (p : BreakerParams) : bool :=
  negb (bool_decide (v = OK)) && (n <=? length faults)%nat &&
  (Sub now (default zeroTime (faults !! (n - 1)%nat)) <=? Window p).

Lemma streak_trips_spec b faults now v p :
  streak_repr b faults → streak_trips b now v p = streak_spec (length (b_streak b)) faults now v p.
Proof.
  intros [Hp Hl Hg]. unfold streak_trips, streak_spec. rewrite Hl.
  destruct (Nat.leb_spec (length (b_streak b)) (length faults)) as [Hle|Hgt].
  - rewrite Nat.min_l by done. rewrite Nat.eqb_refl. do 4 f_equal.
    rewrite <-(Hg (length (b_streak b) - 1)%nat) by lia. f_equal.
    unfold streak_index. bdestr; lia.
  - rewrite Nat.min_r by lia. replace (length faults =? length (b_streak b))%nat with false;
      [by rewrite !andb_false_r|]. symmetry. apply Nat.eqb_neq. lia.
Qed.

(** ** The trip rules over a whole history of outcomes. *)

(** A history: the outcomes of a closed breaker since it was created or closed, oldest first. *)
Definition history : Type := list (Time * Verdict).

Definition counted (v : Verdict) : bool := match v with Neutral => false | _ => true end.
Definition faulty (v : Verdict) : bool := match v with Fault | RatioFault => true | _ => false end.

Definition run_outcomes (b : breaker) (h : history) : breaker :=
  foldl (λ b e, count_outcome b e.1 e.2) b h.

Definition faults_since_ok (h : history) : list Time :=
  foldl (λ fs e, faults_step fs e.1 e.2) [] h.

(** The outcomes (with a property) in the [n] seconds that end at [cur]. *)
Definition outcomes_in (n cur : Z) (P : Verdict → bool) (h : history) : Z :=
  countb (λ e, P e.2 && (cur - n <? bucketOf e.1) && (bucketOf e.1 <=? cur)) h.

(** The history's clock does not step back: bucket numbers do not decrease. *)
Fixpoint hist_ordered (hi : Z) (h : history) : Prop :=
  match h with
  | [] => True
  | e :: h => hi ≤ bucketOf e.1 ∧ hist_ordered (bucketOf e.1) h
  end.

Definition hist_hi (hi : Z) (h : history) : Z := foldl (λ _ e, bucketOf e.1) hi h.

(** Counters per bucket of a history. *)
Definition hcounts (h : history) : counts := λ i,
  (countb (λ e, counted e.2 && (bucketOf e.1 =? i)) h,
   countb (λ e, faulty e.2 && (bucketOf e.1 =? i)) h).

Definition hist_event (e : Time * Verdict) (v : Z * Z) : Z * Z :=
  match e.2 with
  | Neutral => v
  | OK => bump false 1 v
  | Fault | RatioFault => bump true 1 (bump false 1 v)
  end.

Lemma hcounts_snoc h t v i :
  hcounts (h ++ [(t, v)]) i = if bucketOf t =? i then hist_event (t, v) (hcounts h i) else hcounts h i.
Proof.
  unfold hcounts, hist_event. rewrite !countb_app, !countb_cons, !countb_nil. simpl.
  pose proof (countb_nonneg (λ e : Time * Verdict, counted e.2 && (bucketOf e.1 =? i)) h).
  pose proof (countb_nonneg (λ e : Time * Verdict, faulty e.2 && (bucketOf e.1 =? i)) h).
  destruct (bucketOf t =? i); destruct v; simpl; f_equal; bdestr; lia.
Qed.

Definition hist_window (b : breaker) (h : history) (hi : Z) : Prop := repr (b_win b) (hcounts h) hi.

Lemma count_outcome_window b h hi t v :
  hist_window b h hi → hi ≤ bucketOf t →
  hist_window (count_outcome b t v) (h ++ [(t, v)]) (bucketOf t).
Proof.
  unfold hist_window. intros Hr Hle. apply (repr_advance _ _ _ (bucketOf t)) in Hr; [|done].
  assert (∀ w c which, repr w c (bucketOf t) →
    repr (slidingWindow_add w t t which 1) (counts_add c (bucketOf t) which 1) (bucketOf t)) as Hadd.
  { intros w c which Hw. apply add_repr; [done|]. pose proof (wf_n _ (repr_wf _ _ _ Hw)). lia. }
  destruct v; simpl.
  - eapply repr_ext; [exact Hr|]. intros i. rewrite hcounts_snoc. by destruct (_ =? _).
  - eapply repr_ext; [by apply Hadd|]. intros i. rewrite hcounts_snoc. unfold counts_add.
    rewrite Z.eqb_sym. by destruct (_ =? _).
  - eapply repr_ext; [by apply Hadd, Hadd|]. intros i. rewrite hcounts_snoc. unfold counts_add.
    rewrite Z.eqb_sym. by destruct (_ =? _).
  - eapply repr_ext; [by apply Hadd, Hadd|]. intros i. rewrite hcounts_snoc. unfold counts_add.
    rewrite Z.eqb_sym. by destruct (_ =? _).
Qed.

Lemma run_outcomes_snoc b h e : run_outcomes b (h ++ [e]) = count_outcome (run_outcomes b h) e.1 e.2.
Proof. unfold run_outcomes. by rewrite foldl_app. Qed.

Lemma hist_ordered_snoc hi h e :
  hist_ordered hi (h ++ [e]) ↔ hist_ordered hi h ∧ hist_hi hi h ≤ bucketOf e.1.
Proof.
  revert hi. induction h as [|x h IH]; intros hi; simpl; [tauto|]. rewrite IH. unfold hist_hi. simpl. tauto.
Qed.

Lemma run_outcomes_window b hi h :
  hist_window b [] hi → hist_ordered hi h → hist_window (run_outcomes b h) h (hist_hi hi h).
Proof.
  intros Hw. induction h as [|[t v] h IH] using rev_ind; [done|].
  intros [Ho Hl]%hist_ordered_snoc. rewrite run_outcomes_snoc. simpl.
  unfold hist_hi. rewrite foldl_app. simpl. by eapply count_outcome_window; [apply IH|].
Qed.

Lemma run_outcomes_streak b h :
  streak_repr b [] → streak_repr (run_outcomes b h) (faults_since_ok h).
Proof.
  intros Hs. induction h as [|e h IH] using rev_ind; [done|].
  rewrite run_outcomes_snoc. unfold faults_since_ok. rewrite foldl_app. by apply count_outcome_streak.
Qed.

Lemma counts_sum_hcounts h n cur :
  counts_sum (hcounts h) n cur = (outcomes_in n cur counted h, outcomes_in n cur faulty h).
Proof.
  unfold counts_sum, pairsum, outcomes_in. rewrite <-!list_fmap_compose.
  f_equal; apply (sum_window_countb (λ e : Time * Verdict, _ e.2) (λ e, bucketOf e.1)).
Qed.

(** The verdict of the two rules on a history whose last outcome is [(now, v)]. *)
Definition trip_spec (p : BreakerParams) (h : history) (now : Time) (v : Verdict) : string * Z :=
  let h := h ++ [(now, v)] in
  let n := sw_n (newSlidingWindow (Window p)) in
  let total := outcomes_in n (bucketOf now) counted h in
  let faults := outcomes_in n (bucketOf now) faulty h in
  let N := Z.to_nat (ConsecutiveFailures p) in
  if streak_spec N (faults_since_ok h) now v p then (ReasonConsecutive, ConsecutiveFailures p)
  else if flt f0 (FailureRatio p) && ((MinVolume p <=? total) && (0 <? total) &&
            fle (fmul (FailureRatio p) (f64 total)) (f64 faults))
  then (ReasonRatio, faults)
  else ("", 0).

(** A breaker that was just created or closed: no streak, an empty window. *)
Record fresh_closed (p : BreakerParams) (b : breaker) (hi : Z) : Prop := {
  fc_state : b_state b = Closed;
  fc_streak : streak_repr b [];
  fc_N : Z.of_nat (length (b_streak b)) = ConsecutiveFailures p;
  fc_win : hist_window b [] hi;
  fc_n : sw_n (b_win b) = sw_n (newSlidingWindow (Window p));
}.

Lemma count_outcome_keeps b t v :
  length (b_streak (count_outcome b t v)) = length (b_streak b) ∧
  sw_n (b_win (count_outcome b t v)) = sw_n (b_win b) ∧
  b_state (count_outcome b t v) = b_state b.
Proof.
  assert (∀ w which d, sw_n (slidingWindow_add w t t which d) = sw_n w) as Hn.
  { intros. apply (win_step_n w (mkEvent t t which d)). }
  destruct v; simpl; rewrite ?length_insert, ?Hn; done.
Qed.

Lemma run_outcomes_keeps b h :
  length (b_streak (run_outcomes b h)) = length (b_streak b) ∧
  sw_n (b_win (run_outcomes b h)) = sw_n (b_win b) ∧
  b_state (run_outcomes b h) = b_state b.
Proof.
  induction h as [|e h (IH1 & IH2 & IH3)] using rev_ind; [done|]. rewrite run_outcomes_snoc.
  pose proof (count_outcome_keeps (run_outcomes b h) e.1 e.2) as (H1 & H2 & H3). by rewrite H1, H2, H3.
Qed.

Lemma newBreaker_fresh p k hi : 1 ≤ ConsecutiveFailures p → fresh_closed p (newBreaker k p) hi.
Proof.
  intros HN. split; try done; simpl.
  - split; simpl; rewrite ?length_replicate; [lia|lia|]. intros i _ Hi. simpl in Hi. lia.
  - rewrite length_replicate. lia.
  - unfold hist_window. eapply repr_ext; [apply newSlidingWindow_repr|done].
Qed.

Lemma breaker_close_fresh p b now hi' :
  1 ≤ ConsecutiveFailures p → window_wf (b_win b) →
  Z.of_nat (length (b_streak b)) = ConsecutiveFailures p →
  sw_n (b_win b) = sw_n (newSlidingWindow (Window p)) →
  fresh_closed p (breaker_close b now) hi'.
Proof.
  intros HN Hwf Hlen Hn. split; try done; simpl.
  - split; simpl; [lia|lia|]. intros i _ Hi. simpl in Hi. lia.
  - unfold hist_window. eapply repr_ext; [by apply reset_repr|done].
Qed.

(** C38: the trip rules.  Whatever history of outcomes a closed breaker has counted since it was
    created or last closed, in clock order, [recordClosed] answers what the two documented rules
    say of that history: [consecutive_failures] when at least N faults were seen since the last
    OK and the N-th newest of them is inside the window; otherwise [failure_ratio] when the rule
    is on, the window holds at least MinVolume outcomes and the share of faults among them
    reaches the ratio; otherwise nothing. *)
Theorem closed_trip_rules p b hi h now v :
  fresh_closed p b hi → hist_ordered hi (h ++ [(now, v)]) → v ≠ Neutral →
  breaker_recordClosed (run_outcomes b h) now v p
  = (run_outcomes b (h ++ [(now, v)]), (trip_spec p h now v).1, (trip_spec p h now v).2).
Proof.
  intros [Hst Hs HN Hw Hn] Ho Hv. set (b' := run_outcomes b (h ++ [(now, v)])).
  pose proof (run_outcomes_keeps b (h ++ [(now, v)])) as (Hlen & Hwn & _).
  pose proof (run_outcomes_streak b _ Hs : streak_repr b' (faults_since_ok (h ++ [(now, v)]))) as Hs'.
  pose proof (run_outcomes_window b hi _ Hw Ho : hist_window b' _ _) as Hw'.
  unfold breaker_recordClosed, trip_spec. rewrite bool_decide_false by done.
  change (count_outcome (run_outcomes b h) now v) with (count_outcome (run_outcomes b h) (now, v).1 (now, v).2).
  rewrite <-(run_outcomes_snoc b h (now, v)). fold b'.
  rewrite (streak_trips_spec _ _ _ _ _ Hs'). fold b' in Hlen, Hwn. rewrite Hlen.
  replace (Z.to_nat (ConsecutiveFailures p)) with (length (b_streak b)) by lia.
  destruct (streak_spec _ _ _ _ _) eqn:Hss; simpl.
  - apply andb_prop in Hss as [[_ Hle%Nat.leb_le]%andb_prop _]. rewrite (sr_len _ _ Hs'), Hlen. f_equal. lia.
  - assert (slidingWindow_sum (b_win b') now =
      (outcomes_in (sw_n (newSlidingWindow (Window p))) (bucketOf now) counted (h ++ [(now, v)]),
       outcomes_in (sw_n (newSlidingWindow (Window p))) (bucketOf now) faulty (h ++ [(now, v)]))) as Hsum.
    { unfold hist_hi in Hw'. rewrite foldl_app in Hw'. rewrite (sum_repr _ _ now Hw').
      by rewrite counts_sum_hcounts, Hwn, Hn. }
    unfold ratio_trips. rewrite Hsum. by destruct (_ && _).
Qed.

Definition at_s (s : Z) : Time := {| wall := 1000000 * Second + s * Second; mono := s * Second |}.

Lemma closed_trip_rules_witness :
  let p := default_params in let b := newBreaker (mkKey "w1" 7) p in
  let h := [(at_s 1, OK); (at_s 2, Fault); (at_s 3, RatioFault); (at_s 4, Fault); (at_s 5, Fault); (at_s 5, Fault)] in
  (breaker_recordClosed (run_outcomes b h) (at_s 6) Fault p).1.2 = ReasonConsecutive ∧
  (breaker_recordClosed (run_outcomes b h) (at_s 6) OK p).1.2 = "".
Proof.
  split.
  - rewrite (closed_trip_rules default_params _ 0 _ (at_s 6) Fault); [vm_compute; reflexivity| |vm_compute; intuition discriminate|done].
    by apply newBreaker_fresh.
  - rewrite (closed_trip_rules default_params _ 0 _ (at_s 6) OK); [vm_compute; reflexivity| |vm_compute; intuition discriminate|done].
    by apply newBreaker_fresh.
Defined.
