(* ===== verification/Breakers.v ===== *)
(** * The set of circuit breakers of a gateway (internal/resilience/breakers.go)

    One breaker per worker registration, behind one mutex: every exported method locks, reads
    the clock, works and unlocks, so a method is one atomic step of the model, with the clock
    reading [now] and the random draw [rnd] as inputs.  [unlock] hands the pending changes to
    the caller's hook; a step returns them.

    The main results: the ejection cap holds in every reachable state, no breaker stays
    inadmissible for longer than its longest cool-down and the ticket backstop, and a ticket
    acts at most once. *)

From stdpp Require Import relations.
From S2P Require Import Prelude GoFloat SlidingWindow Breaker.

Local Open Scope string_scope.
Local Open Scope list_scope.
Local Open Scope Z_scope.

Record Member := mkMember { m_Key : Key; m_Model : string; m_Eligible : bool }.

Record Ticket := mkTicket {
  t_key : Key;
  t_id : Z;
  t_epoch : Z;
  t_probe : bool;
  t_valid : bool;
}.

(** The zero [Ticket]. *)
Definition zeroTicket : Ticket := mkTicket (mkKey "" 0) 0 0 false false.

Record Info := mkInfo {
  i_Key : Key;
  i_State : State;
  i_Eligible : bool;
  i_OpenUntil : Time;
  i_Level : nat;
  i_Probes : Z;
}.

Record Breakers := mkBreakers {
  bs_p : BreakerParams;
  bs_byID : gmap string breaker;
  bs_eligible : Z;
  bs_eligibleBy : gmap string Z;
  bs_suppressed : Z;
  bs_pending : list Change;
}.

#[global] Instance Breakers_settable : Settable Breakers := {| eta_of := λ bs,
  mkBreakers (bs_p bs) (bs_byID bs) (bs_eligible bs) (bs_eligibleBy bs) (bs_suppressed bs) (bs_pending bs) |}.

Definition BreakerParams_normalize (p : BreakerParams) : BreakerParams :=
  let coolDown := if CoolDown p <=? 0 then Millisecond else CoolDown p in
  {| ConsecutiveFailures := if ConsecutiveFailures p <? 1 then 1 else ConsecutiveFailures p;
     FailureRatio := FailureRatio p;
     MinVolume := if MinVolume p <? 1 then 1 else MinVolume p;
     Window := if Window p <? bucketWidth then bucketWidth else Window p;
     CoolDown := coolDown;
     MaxCoolDown := if MaxCoolDown p <? coolDown then coolDown else MaxCoolDown p;
     ProbeConcurrency := if ProbeConcurrency p <? 1 then 1 else ProbeConcurrency p;
     ProbeSuccesses := if ProbeSuccesses p <? 1 then 1 else ProbeSuccesses p;
     MaxOpenFraction := MaxOpenFraction p;
     HeaderTimeout := HeaderTimeout p |}.

Definition NewBreakers (p : BreakerParams) : Breakers :=
  mkBreakers (BreakerParams_normalize p) ∅ 0 ∅ 0 [].

Definition Breakers_lookup (bs : Breakers) (k : Key) : option breaker :=
  match bs_byID bs !! key_ID k with
  | Some b => if bool_decide (b_key b = k) then Some b else None
  | None => None
  end.

Definition Breakers_emit (bs : Breakers) (c : Change) : Breakers :=
  bs <| bs_pending := bs_pending bs ++ [c] |>.

(** [unlock]: the changes are taken and delivered. *)
Definition Breakers_unlock (bs : Breakers) : Breakers * list Change :=
  (bs <| bs_pending := [] |>, bs_pending bs).

(** A write through the pointer [b] of the map. *)
Definition Breakers_store (bs : Breakers) (b : breaker) : Breakers :=
  bs <| bs_byID := <[key_ID (b_key b) := b]> (bs_byID bs) |>.

Definition notClosed (b : breaker) : bool :=
  match b_state b with Closed => false | _ => true end.

(** ** The operations. *)

Section operations.
Context `{GoPlatform} `{GoMapOrder}.

Definition MaxOpen (fraction : float64) (eligible : Z) : Z :=
  if fle fraction f0 || (eligible <=? 0) then 0
  else if fle f1 fraction then eligible
  else float_to_int (ffloor (fadd (fmul fraction (f64 eligible)) (flit 1 9))).

(** The test of the scans of [enforceCap] and [roomToOpen]. *)
Definition ejected_in (model : string) (b : breaker) : bool :=
  String.eqb (b_model b) model && b_eligible b && notClosed b.

(** [b] is relaxed before [v]: ejected later, ties to the larger worker ID. *)
Definition relaxed_first (b v : breaker) : bool :=
  After (b_ejectedAt b) (b_ejectedAt v) ||
  (Equal (b_ejectedAt b) (b_ejectedAt v) && String.ltb (key_ID (b_key v)) (key_ID (b_key b))).

Definition cap_scan_step (model : string) (acc : option breaker * Z) (kb : string * breaker)
  : option breaker * Z :=
  let '(victim, open) := acc in
  let b := kb.2 in
  if negb (ejected_in model b) then (victim, open)
  else (match victim with
        | None => Some b
        | Some v => if relaxed_first b v then Some b else Some v
        end, open + 1).

Definition cap_scan (model : string) (byID : gmap string breaker) : option breaker * Z :=
  foldl (cap_scan_step model) (None, 0) (range_map byID).

(** The inner loop of [enforceCap] for one model.  Each round closes a breaker, so one round
    more than there are breakers is enough ([enforceCap_cap]). *)
Fixpoint enforceCap_model (fuel : nat) (now : Time) (model : string) (limit : Z) (bs : Breakers)
  : Breakers :=
  match fuel with
  | O => bs
  | S fuel =>
      match cap_scan model (bs_byID bs) with
      | (Some victim, open) =>
          if open <=? limit then bs
          else
            let bs := Breakers_store bs (breaker_close victim now) in
            let bs := Breakers_emit bs
              (mkChange (b_key victim) (b_state victim) Closed ReasonCapRelaxed 0 0 false) in
            enforceCap_model fuel now model limit bs
      | (None, _) => bs
      end
  end.

Definition Breakers_enforceCap (bs : Breakers) (now : Time) : Breakers :=
  foldl (λ bs '(model, eligible),
           enforceCap_model (S (size (bs_byID bs))) now model
             (MaxOpen (MaxOpenFraction (bs_p bs)) eligible) bs)
        bs (range_map (bs_eligibleBy bs)).

Definition recount_step (acc : Z * gmap string Z) (kb : string * breaker) : Z * gmap string Z :=
  let '(n, by_model) := acc in
  let b := kb.2 in
  if b_eligible b then (n + 1, <[b_model b := default 0 (by_model !! b_model b) + 1]> by_model)
  else (n, by_model).

Definition Breakers_recountEligible (bs : Breakers) : Breakers :=
  let '(n, by_model) := foldl recount_step (0, ∅) (range_map (bs_byID bs)) in
  bs <| bs_eligible := n |> <| bs_eligibleBy := by_model |>.

Definition sync_member (bs : Breakers) (m : Member) : Breakers :=
  let b := match Breakers_lookup bs (m_Key m) with
           | Some b => b
           | None => newBreaker (m_Key m) (bs_p bs)
           end in
  Breakers_store bs (b <| b_eligible := m_Eligible m |> <| b_model := m_Model m |>).

Definition Breakers_Sync (bs : Breakers) (now : Time) (members : list Member)
  : Breakers * list Change :=
  let keep : gset string := list_to_set ((λ m, key_ID (m_Key m)) <$> members) in
  let bs := foldl sync_member bs members in
  let bs := bs <| bs_byID := filter (λ kb : string * breaker, kb.1 ∈ keep) (bs_byID bs) |> in
  Breakers_unlock (Breakers_enforceCap (Breakers_recountEligible bs) now).

Definition Breakers_Prune (bs : Breakers) (now : Time) (keep : list Key) : Breakers * list Change :=
  let bs := bs <| bs_byID := filter (λ kb : string * breaker, b_key kb.2 ∈ keep) (bs_byID bs) |> in
  Breakers_unlock (Breakers_enforceCap (Breakers_recountEligible bs) now).

(** [advanceLocked]: the set and the breaker after the lazy transitions. *)
Definition Breakers_advanceLocked (bs : Breakers) (b : breaker) (now : Time) : Breakers * breaker :=
  let '(b, ch) := breaker_advance b now (bs_p bs) in
  let bs := Breakers_store bs b in
  (match ch with Some c => Breakers_emit bs c | None => bs end, b).

Definition Breakers_Admissible (bs : Breakers) (now : Time) (k : Key) : Breakers * list Change * bool :=
  match Breakers_lookup bs k with
  | None => (Breakers_unlock bs, true)
  | Some b =>
      let '(bs, b) := Breakers_advanceLocked bs b now in
      (Breakers_unlock bs, bool_decide (b_state b = Closed) || breaker_probeFree b (bs_p bs))
  end.

Definition Breakers_Acquire (bs : Breakers) (now : Time) (k : Key)
  : Breakers * list Change * (Ticket * bool) :=
  match Breakers_lookup bs k with
  | None => (Breakers_unlock bs, (mkTicket k 0 0 false true, true))
  | Some b =>
      let '(bs, b) := Breakers_advanceLocked bs b now in
      match b_state b with
      | Closed => (Breakers_unlock bs, (mkTicket k 0 (b_epoch b) false true, true))
      | HalfOpen =>
          if negb (breaker_probeFree b (bs_p bs)) then (Breakers_unlock bs, (zeroTicket, false))
          else
            let id := b_nextID b + 1 in
            let b := b <| b_nextID := id |> <| b_tickets := <[id := now]> (b_tickets b) |> in
            (Breakers_unlock (Breakers_store bs b), (mkTicket k id (b_epoch b) true true, true))
      | Open => (Breakers_unlock bs, (zeroTicket, false))
      end
  end.

Definition Breakers_Release (bs : Breakers) (t : Ticket) : Breakers * list Change :=
  if negb (t_probe t) then (bs, [])
  else
    match Breakers_lookup bs (t_key t) with
    | Some b =>
        if bool_decide (b_state b = HalfOpen) && (b_epoch b =? t_epoch t) then
          Breakers_unlock (Breakers_store bs (b <| b_tickets := delete (t_id t) (b_tickets b) |>))
        else Breakers_unlock bs
    | None => Breakers_unlock bs
    end.

Definition Breakers_roomToOpen (bs : Breakers) (b : breaker) : bool :=
  if negb (b_eligible b) then true
  else
    let open := foldl (λ open kb, if ejected_in (b_model b) kb.2 then open + 1 else open) 0
                      (range_map (bs_byID bs)) in
    open <? MaxOpen (MaxOpenFraction (bs_p bs)) (default 0 (bs_eligibleBy bs !! b_model b)).

Definition Breakers_countClosed (bs : Breakers) (b : breaker) (now : Time) (v : Verdict) (rnd : float64)
  : Breakers :=
  if negb (bool_decide (b_state b = Closed)) || bool_decide (v = Neutral) then bs
  else
    let '(b, reason, failures) := breaker_recordClosed b now v (bs_p bs) in
    let bs := Breakers_store bs b in
    if String.eqb reason "" then Breakers_store bs (b <| b_suppressed := false |>)
    else if negb (Breakers_roomToOpen bs b) then
      if negb (b_suppressed b) then
        let bs := Breakers_store bs (b <| b_suppressed := true |>) in
        let bs := bs <| bs_suppressed := bs_suppressed bs + 1 |> in
        Breakers_emit bs (mkChange (b_key b) Closed Closed ReasonSuppressed failures 0 true)
      else bs
    else
      let b := breaker_open b now false (bs_p bs) rnd in
      Breakers_emit (Breakers_store bs b)
        (mkChange (b_key b) Closed Open reason failures (b_coolDown b) false).

(** A probe failed: reopen with the cool-down level raised. *)
Definition Breakers_reopen (bs : Breakers) (b : breaker) (now : Time) (rnd : float64) : Breakers :=
  let b := breaker_open b now true (bs_p bs) rnd in
  Breakers_emit (Breakers_store bs b)
    (mkChange (b_key b) HalfOpen Open ReasonProbeFailed 0 (b_coolDown b) false).

Definition Breakers_recordLocked (bs : Breakers) (now : Time) (t : Ticket) (v : Verdict) (rnd : float64)
  : Breakers :=
  match Breakers_lookup bs (t_key t) with
  | None => bs
  | Some b =>
      let '(bs, b) := Breakers_advanceLocked bs b now in
      if t_probe t then
        if negb (bool_decide (b_state b = HalfOpen)) || negb (b_epoch b =? t_epoch t) then bs
        else if bool_decide (b_tickets b !! t_id t = None) then bs
        else
          let b := b <| b_tickets := delete (t_id t) (b_tickets b) |> in
          let bs := Breakers_store bs b in
          match v with
          | OK =>
              let b := b <| b_successes := b_successes b + 1 |> in
              let bs := Breakers_store bs b in
              if ProbeSuccesses (bs_p bs) <=? b_successes b then
                Breakers_emit (Breakers_store bs (breaker_close b now))
                  (mkChange (b_key b) HalfOpen Closed ReasonProbesPassed 0 0 false)
              else bs
          | Fault | RatioFault => Breakers_reopen bs b now rnd
          | Neutral => bs
          end
      else if negb (b_epoch b =? t_epoch t) then bs
      else Breakers_countClosed bs b now v rnd
  end.

Definition Breakers_Record (bs : Breakers) (now : Time) (t : Ticket) (v : Verdict) (rnd : float64)
  : Breakers * list Change :=
  if negb (t_valid t) then (bs, [])
  else Breakers_unlock (Breakers_recordLocked bs now t v rnd).

Definition Breakers_RecordLate (bs : Breakers) (now : Time) (t : Ticket) (v : Verdict) (rnd : float64)
  : Breakers * list Change :=
  if negb (t_valid t) || (negb (bool_decide (v = Fault)) && negb (bool_decide (v = RatioFault)))
  then (bs, [])
  else
    match Breakers_lookup bs (t_key t) with
    | None => Breakers_unlock bs
    | Some b =>
        let '(bs, b) := Breakers_advanceLocked bs b now in
        if t_probe t && negb (b_epoch b =? t_epoch t) then Breakers_unlock bs
        else if t_probe t && bool_decide (b_state b = HalfOpen) then
          Breakers_unlock (Breakers_reopen bs b now rnd)
        else if negb (b_epoch b =? t_epoch t) then Breakers_unlock bs
        else Breakers_unlock (Breakers_countClosed bs b now v rnd)
    end.

Definition Breakers_RecordAbort (bs : Breakers) (now : Time) (t : Ticket) (okAt : Time) (rnd : float64)
  : Breakers * list Change :=
  if negb (t_valid t) then (bs, [])
  else if t_probe t then Breakers_RecordLate bs now t Fault rnd
  else
    match Breakers_lookup bs (t_key t) with
    | None => Breakers_unlock bs
    | Some b =>
        let '(bs, b) := Breakers_advanceLocked bs b now in
        if negb (b_epoch b =? t_epoch t) || negb (bool_decide (b_state b = Closed)) then
          Breakers_unlock bs
        else
          let b := b <| b_win := slidingWindow_add (b_win b) okAt now false (-1) |> in
          Breakers_unlock (Breakers_countClosed (Breakers_store bs b) b now Fault rnd)
    end.

Definition snapshot_step (now : Time) (acc : Breakers * list Info) (kb : string * breaker)
  : Breakers * list Info :=
  let '(bs, out) := acc in
  let '(bs, b) := Breakers_advanceLocked bs kb.2 now in
  (bs, if notClosed b then
         out ++ [mkInfo (b_key b) (b_state b) (b_eligible b) (b_openUntil b) (b_level b)
                   (Z.of_nat (size (b_tickets b)))]
       else out).

Definition Breakers_Snapshot (bs : Breakers) (now : Time) : Breakers * list Change * list Info :=
  let '(bs, out) := foldl (snapshot_step now) (bs, []) (range_map (bs_byID bs)) in
  (Breakers_unlock bs, out).

Definition Breakers_State (bs : Breakers) (now : Time) (k : Key) : Breakers * list Change * State :=
  match Breakers_lookup bs k with
  | None => (Breakers_unlock bs, Closed)
  | Some b =>
      let '(bs, b) := Breakers_advanceLocked bs b now in
      (Breakers_unlock bs, b_state b)
  end.

Definition counts_loop_step (now : Time) (acc : Breakers * (Z * Z)) (kb : string * breaker)
  : Breakers * (Z * Z) :=
  let '(bs, (open, halfOpen)) := acc in
  let '(bs, b) := Breakers_advanceLocked bs kb.2 now in
  (bs, if negb (b_eligible b) then (open, halfOpen)
       else match b_state b with
            | Open => (open + 1, halfOpen)
            | HalfOpen => (open, halfOpen + 1)
            | Closed => (open, halfOpen)
            end).

Definition Breakers_Counts (bs : Breakers) (now : Time) : Breakers * list Change * (Z * Z * Z) :=
  let '(bs, (open, halfOpen)) := foldl (counts_loop_step now) (bs, (0, 0)) (range_map (bs_byID bs)) in
  (Breakers_unlock bs, (bs_eligible bs, open, halfOpen)).

Definition Breakers_Suppressed (bs : Breakers) : Breakers * list Change * Z :=
  (Breakers_unlock bs, bs_suppressed bs).

(** The loop of [RetryAfter]; it stops at the first half-open breaker. *)
Fixpoint retryAfter_loop (now : Time) (bs : Breakers) (earliest : Z) (l : list (string * breaker))
  : Breakers * Z :=
  match l with
  | [] => (bs, earliest)
  | kb :: l =>
      let '(bs, b) := Breakers_advanceLocked bs kb.2 now in
      if negb (b_eligible b) then retryAfter_loop now bs earliest l
      else
        let earliest :=
          match b_state b with
          | HalfOpen => 0
          | Open =>
              let d := Sub (b_openUntil b) now in
              if (earliest <? 0) || (d <? earliest) then d else earliest
          | Closed => earliest
          end in
        if earliest =? 0 then (bs, earliest) else retryAfter_loop now bs earliest l
  end.

Definition Breakers_RetryAfter (bs : Breakers) (now : Time) : Breakers * list Change * Z :=
  let '(bs, earliest) := retryAfter_loop now bs (-1) (range_map (bs_byID bs)) in
  let secs := float_to_int (fceil (Seconds earliest)) in
  (Breakers_unlock bs, Z.min (Z.max secs 1) 30).
End operations.

(** ** Parameters that [normalize] guarantees. *)

Record params_ok (p : BreakerParams) : Prop := {
  po_failures : 1 ≤ ConsecutiveFailures p;
  po_coolDown : 1 ≤ CoolDown p ≤ MaxCoolDown p;
  po_probes : 1 ≤ ProbeConcurrency p;
  po_successes : 1 ≤ ProbeSuccesses p;
}.

Lemma normalize_ok p : params_ok (BreakerParams_normalize p).
Proof. split; simpl; unfold Millisecond; bdestr; lia. Qed.

(** ** One breaker.

    [breaker_wf p last b]: the fields of a breaker fit together, where [last] bounds the clock
    at its last trip and its last probe ticket. *)

Record breaker_wf (p : BreakerParams) (last : Z) (b : breaker) : Prop := {
  bw_streak : Z.of_nat (length (b_streak b)) = ConsecutiveFailures p;
  bw_pos : (b_streakPos b < length (b_streak b))%nat;
  bw_len : (b_streakLen b ≤ length (b_streak b))%nat;
  bw_win : window_wf (b_win b);
  bw_idle : b_state b ≠ HalfOpen → b_tickets b = ∅;
  bw_probes : Z.of_nat (size (b_tickets b)) ≤ ProbeConcurrency p;
  bw_ids : ∀ i t, b_tickets b !! i = Some t → i ≤ b_nextID b ∧ mono t ≤ last;
  bw_level : (b_level b ≤ maxLevel p)%nat;
  bw_successes : 0 ≤ b_successes b < ProbeSuccesses p;
  bw_open : b_state b = Open →
    1 ≤ b_coolDown b ≤ MaxCoolDown p ∧ mono (b_openUntil b) ≤ last + b_coolDown b;
}.

Lemma breaker_wf_mono p last last' b : last ≤ last' → breaker_wf p last b → breaker_wf p last' b.
Proof.
  intros Hl []. split; try done.
  - intros i t Ht. edestruct bw_ids0; [done|]. split; lia.
  - intros Ho. destruct (bw_open0 Ho). split; lia.
Qed.

(** The steps a breaker takes inside the methods of [Breakers].  The flag marks the two that
    move [last]: a trip and a probe ticket. *)
Inductive bstep `{GoPlatform} (p : BreakerParams) (now : Time) : bool → breaker → breaker → Prop :=
| bstep_advance b : bstep p now false b (breaker_advance b now p).1
| bstep_close b : bstep p now false b (breaker_close b now)
| bstep_return b i : bstep p now false b (b <| b_tickets := delete i (b_tickets b) |>)
| bstep_success b :
    b_successes b + 1 < ProbeSuccesses p →
    bstep p now false b (b <| b_successes := b_successes b + 1 |>)
| bstep_count b v : bstep p now false b (count_outcome b now v)
| bstep_uncount b okAt :
    bstep p now false b (b <| b_win := slidingWindow_add (b_win b) okAt now false (-1) |>)
| bstep_suppress b s : bstep p now false b (b <| b_suppressed := s |>)
| bstep_probe b :
    breaker_probeFree b p = true →
    bstep p now true b
      (b <| b_nextID := b_nextID b + 1 |> <| b_tickets := <[b_nextID b + 1 := now]> (b_tickets b) |>)
| bstep_open b fromProbe rnd : bstep p now true b (breaker_open b now fromProbe p rnd).

Lemma newBreaker_wf p last k : params_ok p → breaker_wf p last (newBreaker k p).
Proof.
  intros []. split; simpl; rewrite ?length_replicate; try done; try lia.
  - apply newSlidingWindow_wf.
  - rewrite map_size_empty. lia.
Qed.

Lemma close_wf p last now b : params_ok p → breaker_wf p last b → breaker_wf p last (breaker_close b now).
Proof.
  intros Hp Hw. pose proof Hw as []. destruct Hp. split; simpl; try done; try lia.
  - eapply (reset_repr _ 0) in bw_win0. apply bw_win0.
  - rewrite map_size_empty. lia.
Qed.

Lemma count_outcome_wf p last now v b : breaker_wf p last b → breaker_wf p last (count_outcome b now v).
Proof.
  intros []. destruct v; simpl; [by split|..]; split; simpl; rewrite ?length_insert; try done; try lia;
    eauto using add_wf.
  - apply Nat.mod_upper_bound. lia.
  - destruct (Nat.ltb_spec (b_streakLen b) (length (b_streak b))); lia.
Qed.

Lemma filter_tickets_size (m : gmap Z Time) (P : Z * Time → Prop) `{∀ x, Decision (P x)} :
  (size (filter P m) ≤ size m)%nat.
Proof. apply map_subseteq_size, map_filter_subseteq. Qed.

Lemma advance_wf p last now b : params_ok p → breaker_wf p last b → breaker_wf p last (breaker_advance b now p).1.
Proof.
  intros [] []. unfold breaker_advance.
  set (b1 := if bool_decide (b_state b = Open) && negb (Before now (b_openUntil b)) then _ else (b, None)).
  assert (breaker_wf p last b1.1) as [].
  { subst b1. destruct (bool_decide_reflect (b_state b = Open)); simpl; [|by split].
    destruct (Before now (b_openUntil b)); simpl; [by split|].
    split; simpl; try done; try lia. rewrite map_size_empty; lia. }
  destruct b1 as [b1 ch]; simpl in *.
  destruct (bool_decide_reflect (b_state b1 = HalfOpen)); simpl; [|by split].
  destruct (negb _); [|by split]. split; simpl; try done.
  - etrans; [apply inj_le, filter_tickets_size|done].
  - intros i t [Ht _]%map_lookup_filter_Some. eauto.
Qed.

Lemma jittered_bounds `{GoPlatform} p level rnd :
  params_ok p → 1 ≤ jittered p level rnd ≤ MaxCoolDown p.
Proof. intros []. unfold jittered. lia. Qed.

Lemma open_wf `{GoPlatform} p last now fromProbe rnd b :
  params_ok p → mono now ≤ last → breaker_wf p last b → breaker_wf p last (breaker_open b now fromProbe p rnd).
Proof.
  intros Hp Hl []. pose proof Hp as []. split; simpl; try done; try lia.
  - rewrite map_size_empty. lia.
  - destruct fromProbe; simpl; bdestr; lia.
  - intros _. set (lv := if fromProbe then _ else _). pose proof (jittered_bounds p lv rnd Hp). lia.
Qed.

Lemma probe_wf p last now b :
  mono now ≤ last → breaker_probeFree b p = true → breaker_wf p last b →
  breaker_wf p last (b <| b_nextID := b_nextID b + 1 |>
                       <| b_tickets := <[b_nextID b + 1 := now]> (b_tickets b) |>).
Proof.
  intros Hl Hf []. unfold breaker_probeFree in Hf. bprop.
  split; simpl; try done.
  - rewrite map_size_insert. destruct (b_tickets b !! _); simpl; lia.
  - intros i t. rewrite lookup_insert. case_decide; [intros [= <-]; lia|].
    intros Ht%bw_ids0. lia.
Qed.

(** Every step keeps a breaker well-formed. *)
Lemma bstep_wf `{GoPlatform} p now touch b b' last :
  params_ok p → (touch = true → mono now ≤ last) →
  bstep p now touch b b' → breaker_wf p last b → breaker_wf p last b'.
Proof.
  intros Hp Hl Hs Hw. destruct Hs; eauto using advance_wf, close_wf, count_outcome_wf, open_wf, probe_wf.
  - destruct Hw. split; simpl; try done.
    + intros Hh. by rewrite bw_idle0, delete_empty.
    + etrans; [apply inj_le, map_subseteq_size, delete_subseteq|done].
    + intros j t [_ Ht]%lookup_delete_Some. eauto.
  - destruct Hw. split; simpl; try done. lia.
  - destruct Hw. split; simpl; try done. by apply add_wf.
  - destruct Hw. by split.
Qed.

Lemma advance_meta p now b :
  let b' := (breaker_advance b now p).1 in
  b_key b' = b_key b ∧ b_model b' = b_model b ∧ b_eligible b' = b_eligible b ∧
  b_epoch b' = b_epoch b ∧ notClosed b' = notClosed b.
Proof.
  unfold breaker_advance, notClosed.
  destruct (bool_decide_reflect (b_state b = Open)) as [Ho|]; simpl.
  - destruct (Before now (b_openUntil b)); simpl; bdestr; by rewrite ?Ho.
  - bdestr; done.
Qed.

Lemma advance_closed p now b : b_state b = Closed → breaker_advance b now p = (b, None).
Proof. intros Hs. unfold breaker_advance. rewrite bool_decide_false by congruence. simpl. rewrite bool_decide_false by congruence. done. Qed.

Lemma count_outcome_meta now v b :
  let b' := count_outcome b now v in
  b_key b' = b_key b ∧ b_model b' = b_model b ∧ b_eligible b' = b_eligible b ∧
  b_epoch b' = b_epoch b ∧ b_state b' = b_state b.
Proof. by destruct v. Qed.

(** A step keeps what [Sync] decides: the registration, the model and the eligibility. *)
Lemma bstep_meta `{GoPlatform} p now touch b b' :
  bstep p now touch b b' →
  b_key b' = b_key b ∧ b_model b' = b_model b ∧ b_eligible b' = b_eligible b.
Proof.
  intros Hs. destruct Hs; simpl; try done.
  - by destruct (advance_meta p now b) as (? & ? & ? & _).
  - by destruct (count_outcome_meta now v b) as (? & ? & ? & _).
Qed.

(** ** The steps of the set. *)

Section invariants.
Context `{GoPlatform} `{GoMapOrder}.

(** The number of breakers of a model that the cap limits, and of its eligible workers. *)
Definition ejected_count (model : string) (bs : Breakers) : Z := mcount (ejected_in model) (bs_byID bs).

Definition eligible_in (model : string) (b : breaker) : bool :=
  String.eqb (b_model b) model && b_eligible b.

Definition eligible_count (model : string) (bs : Breakers) : Z := mcount (eligible_in model) (bs_byID bs).

(** The cap: with a negative [MaxOpen] (a NaN fraction) nothing may be ejected. *)
Definition cap (bs : Breakers) (eligible : Z) : Z :=
  Z.max 0 (MaxOpen (MaxOpenFraction (bs_p bs)) eligible).

Definition cap_ok (bs : Breakers) : Prop :=
  ∀ model, ejected_count model bs ≤ cap bs (eligible_count model bs).

Record base_ok (bs : Breakers) : Prop := {
  ok_keys : ∀ id b, bs_byID bs !! id = Some b → key_ID (b_key b) = id;
  ok_eligible : bs_eligible bs = mcount b_eligible (bs_byID bs);
  ok_eligibleBy : ∀ model, default 0 (bs_eligibleBy bs !! model) = eligible_count model bs;
}.

(** [cur bs b]: [b] is the current value behind its pointer. *)
Definition cur (bs : Breakers) (b : breaker) : Prop := bs_byID bs !! key_ID (b_key b) = Some b.

Lemma lookup_cur bs k b : Breakers_lookup bs k = Some b → cur bs b ∧ b_key b = k.
Proof.
  unfold Breakers_lookup, cur. destruct (bs_byID bs !! key_ID k) eqn:E; [|done].
  destruct (bool_decide_reflect (b_key b0 = k)) as [Hk|]; [|done]. intros [= ->]. by rewrite Hk.
Qed.

Lemma store_cur bs b : cur (Breakers_store bs b) b.
Proof. unfold cur; simpl. apply lookup_insert_eq. Qed.

(** A step of a method: write back a breaker that took a step, emit a change, count a
    suppressed trip.  [T] is the worker the method may trip or send a probe to.  A breaker
    leaves Closed only if the cap has room. *)
Inductive micro (now : Time) (T : option string) : Breakers → Breakers → Prop :=
| micro_store bs b b' touch :
    cur bs b → bstep (bs_p bs) now touch b b' →
    (touch = true → T = Some (key_ID (b_key b))) →
    (notClosed b' = true → notClosed b = true ∨ Breakers_roomToOpen bs b = true) →
    micro now T bs (Breakers_store bs b')
| micro_emit bs c : micro now T bs (Breakers_emit bs c)
| micro_suppressed bs n : micro now T bs (bs <| bs_suppressed := n |>)
| micro_unlock bs : micro now T bs (Breakers_unlock bs).1.

Lemma mcount_store bs b b' f :
  cur bs b → b_key b' = b_key b →
  mcount f (bs_byID (Breakers_store bs b')) = mcount f (bs_byID bs) - Z.b2z (f b) + Z.b2z (f b').
Proof. intros Hc Hk. simpl. rewrite Hk. by apply mcount_insert_Some. Qed.

Lemma micro_p now T bs bs' : micro now T bs bs' → bs_p bs' = bs_p bs.
Proof. by destruct 1. Qed.

Lemma micro_eligible now T bs bs' model : micro now T bs bs' → eligible_count model bs' = eligible_count model bs.
Proof.
  destruct 1 as [bs b b' touch Hc Hs _ _| | | ]; try done. apply bstep_meta in Hs as (Hk & Hm & He).
  unfold eligible_count. rewrite (mcount_store _ b) by done. unfold eligible_in. rewrite Hm, He. lia.
Qed.

Lemma micro_base_ok now T bs bs' : micro now T bs bs' → base_ok bs → base_ok bs'.
Proof.
  intros Hm Hok. assert (∀ model, eligible_count model bs' = eligible_count model bs) as He by (intros; by eapply micro_eligible).
  destruct Hm as [bs b b' touch Hc Hs HT Hn| | | ]; try (by destruct Hok).
  pose proof (bstep_meta _ _ _ _ _ Hs) as (Hk & Hmo & Hel). destruct Hok as [Hkeys Hcnt Hby]. split.
  - intros id x. simpl. rewrite lookup_insert. case_decide; [intros [= <-]; congruence|eauto].
  - rewrite (mcount_store _ b) by done. simpl. rewrite Hcnt, Hel. lia.
  - intros model. rewrite He. apply Hby.
Qed.

Lemma ejected_fold model l n :
  foldl (λ open (kb : string * breaker), if ejected_in model kb.2 then open + 1 else open) n l
  = n + countb (ejected_in model) l.*2.
Proof.
  revert n. induction l as [|kb l IH]; intros n; csimpl; [rewrite countb_nil; lia|].
  rewrite IH, countb_cons. destruct (ejected_in model kb.2); simpl; lia.
Qed.

Lemma roomToOpen_spec bs b :
  base_ok bs → Breakers_roomToOpen bs b = true →
  b_eligible b = false ∨ ejected_count (b_model b) bs < cap bs (eligible_count (b_model b) bs).
Proof.
  intros [_ _ Hby]. unfold Breakers_roomToOpen. destruct (b_eligible b); simpl; [|by left].
  rewrite ejected_fold, Hby. intros Hlt%Z.ltb_lt. right.
  rewrite (countb_perm _ _ ((map_to_list (bs_byID bs)).*2)) in Hlt
    by (apply fmap_Permutation, range_map_perm).
  unfold ejected_count, mcount, cap. lia.
Qed.

Lemma micro_cap_ok now T bs bs' : micro now T bs bs' → base_ok bs → cap_ok bs → cap_ok bs'.
Proof.
  intros Hm Hok Hcap model. rewrite (micro_eligible _ _ _ _ _ Hm).
  unfold cap. rewrite (micro_p _ _ _ _ Hm). specialize (Hcap model). fold (cap bs (eligible_count model bs)).
  destruct Hm as [bs b b' touch Hc Hs _ Hn| | | ]; try exact Hcap.
  apply bstep_meta in Hs as (Hk & Hmo & Hel). unfold ejected_count in *.
  rewrite (mcount_store _ b) by done. unfold ejected_in at 2 3. rewrite Hmo, Hel.
  destruct (String.eqb_spec (b_model b) model) as [<-|]; simpl; [|lia].
  destruct (b_eligible b) eqn:Ee; simpl; [|lia].
  destruct (notClosed b') eqn:En; simpl; [|destruct (notClosed b); simpl; lia].
  destruct (Hn eq_refl) as [->|Hr]; simpl; [lia|].
  apply roomToOpen_spec in Hr as [|Hr]; [congruence| |done]. unfold ejected_count in Hr.
  destruct (notClosed b); simpl; lia.
Qed.

(** All breakers are well-formed, each with its own bound on the clock. *)
Definition all_wf (L : string → Z) (bs : Breakers) : Prop :=
  ∀ id b, bs_byID bs !! id = Some b → breaker_wf (bs_p bs) (L id) b.

Lemma micro_all_wf now T L bs bs' :
  params_ok (bs_p bs) → (∀ id, T = Some id → mono now ≤ L id) →
  micro now T bs bs' → all_wf L bs → all_wf L bs'.
Proof.
  intros Hp HL Hm Hw. destruct Hm as [bs b b' touch Hc Hs HT _| | | ]; try done.
  pose proof (bstep_meta _ _ _ _ _ Hs) as (Hk & _). intros id x. simpl. rewrite Hk, lookup_insert.
  case_decide as Hid; [intros [= <-]; subst id|by apply Hw].
  eapply bstep_wf; [done| |done|by apply Hw]. intros ->. auto.
Qed.

Definition micros (now : Time) (T : option string) : Breakers → Breakers → Prop := rtc (micro now T).

Lemma micros_keep now T bs bs' :
  micros now T bs bs' →
  bs_p bs' = bs_p bs ∧ (base_ok bs → base_ok bs') ∧ (base_ok bs → cap_ok bs → cap_ok bs') ∧
  (∀ L, params_ok (bs_p bs) → (∀ id, T = Some id → mono now ≤ L id) → all_wf L bs → all_wf L bs').
Proof.
  induction 1 as [bs|bs bs1 bs2 Hm _ (Hp & Hb & Hc & Hw)]; [done|].
  pose proof (micro_p _ _ _ _ Hm) as Hp1. split; [congruence|].
  pose proof (micro_base_ok _ _ _ _ Hm). pose proof (micro_cap_ok _ _ _ _ Hm).
  split_and!; [tauto..|]. intros L HpL HL Hall. apply Hw; [by rewrite Hp1|done|].
  eapply micro_all_wf; done.
Qed.

(** *** Every method but [Sync] and [Prune] is a sequence of such steps. *)

Lemma micros_1 now T bs bs' : micro now T bs bs' → micros now T bs bs'.
Proof. apply rtc_once. Qed.

Lemma micros_trans now T a b c : micros now T a b → micros now T b c → micros now T a c.
Proof. apply transitivity. Qed.

Lemma micros_quiet now bs bs' T : micros now None bs bs' → micros now T bs bs'.
Proof.
  intros Hm. eapply rtc_subrel; [|exact Hm]. intros x y Hxy. destruct Hxy as [? ? ? touch ? ? Ht ?| | | ]; [|constructor..].
  eapply micro_store; try done. intros E. by specialize (Ht E).
Qed.

Lemma micros_unlock now T bs bs' : micros now T bs bs' → micros now T bs (Breakers_unlock bs').1.
Proof. intros Hm. eapply micros_trans; [exact Hm|]. apply micros_1, micro_unlock. Qed.

Lemma micros_emit now T bs bs' c : micros now T bs bs' → micros now T bs (Breakers_emit bs' c).
Proof. intros Hm. eapply micros_trans; [exact Hm|]. apply micros_1, micro_emit. Qed.

(** A step that does not leave Closed. *)
Lemma micros_store now T bs b b' :
  cur bs b → bstep (bs_p bs) now false b b' → (notClosed b' = true → notClosed b = true) →
  micros now T bs (Breakers_store bs b').
Proof. intros. apply micros_1. eapply micro_store; eauto. done. Qed.

Lemma store_store bs b b' : b_key b' = b_key b → Breakers_store (Breakers_store bs b) b' = Breakers_store bs b'.
Proof.
  intros Hk. unfold Breakers_store; simpl. rewrite Hk. unfold rset; simpl.
  by rewrite insert_insert_eq.
Qed.

Lemma advanceLocked_micros now T bs b :
  cur bs b →
  let r := Breakers_advanceLocked bs b now in
  micros now T bs r.1 ∧ cur r.1 r.2 ∧ r.2 = (breaker_advance b now (bs_p bs)).1 ∧ bs_p r.1 = bs_p bs ∧
  bs_byID r.1 = <[key_ID (b_key b) := r.2]> (bs_byID bs).
Proof.
  intros Hc. pose proof (advance_meta (bs_p bs) now b) as (Hk & _ & _ & _ & Hn).
  assert (micros now T bs (Breakers_store bs (breaker_advance b now (bs_p bs)).1)) as Hm.
  { apply (micros_store _ _ _ b); [done|constructor|congruence]. }
  unfold Breakers_advanceLocked. destruct (breaker_advance b now (bs_p bs)) as [b' [c|]]; simpl in *.
  - split_and!; [by apply micros_emit|apply store_cur|done|done|by rewrite Hk].
  - split_and!; [done|apply store_cur|done|done|by rewrite Hk].
Qed.

Lemma Admissible_micros now bs k : micros now None bs (Breakers_Admissible bs now k).1.1.
Proof.
  unfold Breakers_Admissible. destruct (Breakers_lookup bs k) as [b|] eqn:Hl.
  - apply lookup_cur in Hl as [Hc _]. pose proof (advanceLocked_micros now None bs b Hc) as (Hm & _).
    destruct (Breakers_advanceLocked bs b now). by apply micros_unlock.
  - apply micros_1, micro_unlock.
Qed.

Lemma State_micros now bs k : micros now None bs (Breakers_State bs now k).1.1.
Proof.
  unfold Breakers_State. destruct (Breakers_lookup bs k) as [b|] eqn:Hl.
  - apply lookup_cur in Hl as [Hc _]. pose proof (advanceLocked_micros now None bs b Hc) as (Hm & _).
    destruct (Breakers_advanceLocked bs b now). by apply micros_unlock.
  - apply micros_1, micro_unlock.
Qed.

Lemma Acquire_micros now bs k : micros now (Some (key_ID k)) bs (Breakers_Acquire bs now k).1.1.
Proof.
  unfold Breakers_Acquire. destruct (Breakers_lookup bs k) as [b|] eqn:Hl; [|apply micros_1, micro_unlock].
  apply lookup_cur in Hl as [Hc Hk].
  pose proof (advanceLocked_micros now (Some (key_ID k)) bs b Hc) as (Hm & Hc' & Hb' & Hp & _).
  pose proof (advance_meta (bs_p bs) now b) as (Hk' & _).
  destruct (Breakers_advanceLocked bs b now) as [bs' b']; simpl in *. subst b'.
  destruct (b_state _) eqn:Hst; [by apply micros_unlock| |by apply micros_unlock].
  destruct (breaker_probeFree _ _) eqn:Hf; simpl; [|by apply micros_unlock].
  apply (micros_unlock _ _ _ _). eapply micros_trans; [exact Hm|]. apply micros_1.
  eapply (micro_store _ _ _ _ _ true); [exact Hc'|by constructor|congruence|].
  intros _. left. unfold notClosed. by rewrite Hst.
Qed.

Lemma Release_micros now bs t : micros now None bs (Breakers_Release bs t).1.
Proof.
  unfold Breakers_Release. destruct (t_probe t); simpl; [|apply rtc_refl].
  destruct (Breakers_lookup bs (t_key t)) as [b|] eqn:Hl; [|apply micros_1, micro_unlock].
  apply lookup_cur in Hl as [Hc _]. destruct (_ && _); [|apply micros_1, micro_unlock].
  apply micros_unlock. by eapply micros_store; [exact Hc|constructor|].
Qed.

Lemma recordClosed_fst b now v p : (breaker_recordClosed b now v p).1.1 = count_outcome b now v.
Proof. unfold breaker_recordClosed. bdestr; done. Qed.

Lemma countClosed_micros now T bs b v rnd :
  cur bs b → T = Some (key_ID (b_key b)) → micros now T bs (Breakers_countClosed bs b now v rnd).
Proof.
  intros Hc ->. unfold Breakers_countClosed.
  destruct (_ || _) eqn:Hcl; [apply rtc_refl|]. apply orb_false_iff in Hcl as [Hcl Hv].
  apply negb_false_iff, bool_decide_eq_true in Hcl.
  pose proof (recordClosed_fst b now v (bs_p bs)) as Hr.
  destruct (breaker_recordClosed b now v (bs_p bs)) as [[b1 reason] failures]; simpl in Hr; subst b1.
  pose proof (count_outcome_meta now v b) as (Hk & _ & _ & _ & Hs).
  set (b1 := count_outcome b now v) in *.
  assert (micros now (Some (key_ID (b_key b))) bs (Breakers_store bs b1)) as Hm.
  { apply (micros_store _ _ _ b); [done|apply bstep_count|]. unfold notClosed. by rewrite Hs. }
  pose proof (store_cur bs b1) as Hc1. fold b1 in Hk, Hs.
  destruct (String.eqb reason ""); [|destruct (Breakers_roomToOpen _ b1) eqn:Hroom; simpl].
  - eapply micros_trans; [exact Hm|]. by eapply micros_store; [exact Hc1|apply bstep_suppress|].
  - apply micros_emit. eapply micros_trans; [exact Hm|]. apply micros_1.
    apply (micro_store _ _ _ b1 _ true); [done|constructor|congruence|by right].
  - destruct (b_suppressed b1); simpl; [done|]. apply micros_emit.
    eapply micros_trans; [exact Hm|]. eapply micros_trans; [|apply micros_1, micro_suppressed].
    by eapply micros_store; [exact Hc1|apply bstep_suppress|].
Qed.

Lemma reopen_micros now T bs b rnd :
  cur bs b → b_state b = HalfOpen → T = Some (key_ID (b_key b)) →
  micros now T bs (Breakers_reopen bs b now rnd).
Proof.
  intros Hc Hs ->. apply micros_emit, micros_1.
  apply (micro_store _ _ _ b _ true); [done|constructor|done|].
  intros _. left. unfold notClosed. by rewrite Hs.
Qed.

Lemma probe_passed_micros now T bs b :
  cur bs b → b_state b = HalfOpen →
  let b1 := b <| b_successes := b_successes b + 1 |> in
  let bs1 := Breakers_store bs b1 in
  micros now T bs
    (if ProbeSuccesses (bs_p bs1) <=? b_successes b1 then
       Breakers_emit (Breakers_store bs1 (breaker_close b1 now))
         (mkChange (b_key b1) HalfOpen Closed ReasonProbesPassed 0 0 false)
     else bs1).
Proof.
  intros Hc Hs. cbv zeta. destruct (Z.leb_spec (ProbeSuccesses (bs_p bs)) (b_successes b + 1)) as [Hle|Hgt]; simpl.
  - rewrite (proj2 (Z.leb_le _ _)) by exact Hle. apply micros_emit. rewrite store_store by done.
    apply (micros_store _ _ _ b); [done|apply (bstep_close _ _ b)|done].
  - rewrite (proj2 (Z.leb_gt _ _)) by exact Hgt.
    apply (micros_store _ _ _ b); [done|by apply bstep_success|done].
Qed.

(** What the verdict of a live probe does, its ticket already returned. *)
Lemma probe_verdict_micros now T bs b v rnd :
  cur bs b → b_state b = HalfOpen → T = Some (key_ID (b_key b)) →
  micros now T bs
    match v with
    | OK =>
        let b := b <| b_successes := b_successes b + 1 |> in
        let bs := Breakers_store bs b in
        if ProbeSuccesses (bs_p bs) <=? b_successes b then
          Breakers_emit (Breakers_store bs (breaker_close b now))
            (mkChange (b_key b) HalfOpen Closed ReasonProbesPassed 0 0 false)
        else bs
    | Fault | RatioFault => Breakers_reopen bs b now rnd
    | Neutral => bs
    end.
Proof.
  intros Hc Hs HT. destruct v; [apply rtc_refl| |by apply reopen_micros..].
  by apply (probe_passed_micros now _ bs b).
Qed.

Lemma recordLocked_micros now bs t v rnd :
  micros now (Some (key_ID (t_key t))) bs (Breakers_recordLocked bs now t v rnd).
Proof.
  unfold Breakers_recordLocked. destruct (Breakers_lookup bs (t_key t)) as [b|] eqn:Hl; [|apply rtc_refl].
  apply lookup_cur in Hl as [Hc Hk].
  pose proof (advanceLocked_micros now (Some (key_ID (t_key t))) bs b Hc) as (Hm & Hc' & Hb' & Hp & _).
  pose proof (advance_meta (bs_p bs) now b) as (Hk' & _). rewrite <-Hb' in Hk'. clear Hb'.
  destruct (Breakers_advanceLocked bs b now) as [bs' b']; simpl in *.
  assert (Some (key_ID (t_key t)) = Some (key_ID (b_key b'))) as HT by congruence.
  destruct (t_probe t).
  - destruct (bool_decide_reflect (b_state b' = HalfOpen)) as [Hs|]; simpl; [|done].
    destruct (_ =? _); simpl; [|done]. destruct (bool_decide _); [done|].
    eapply micros_trans; [exact Hm|].
    set (b2 := b' <| b_tickets := _ |>). eapply micros_trans.
    + by apply (micros_store _ _ _ b' b2); [|apply bstep_return|].
    + apply (probe_verdict_micros now _ (Breakers_store bs' b2) b2); [apply store_cur|done|done].
  - destruct (_ =? _); simpl; [|done]. eapply micros_trans; [exact Hm|]. by apply countClosed_micros.
Qed.

Lemma Record_micros now bs t v rnd :
  micros now (Some (key_ID (t_key t))) bs (Breakers_Record bs now t v rnd).1.
Proof.
  unfold Breakers_Record. destruct (t_valid t); simpl; [|apply rtc_refl].
  apply (micros_unlock _ _ _ _), recordLocked_micros.
Qed.

Lemma RecordLate_micros now bs t v rnd :
  micros now (Some (key_ID (t_key t))) bs (Breakers_RecordLate bs now t v rnd).1.
Proof.
  unfold Breakers_RecordLate. destruct (_ || _); [apply rtc_refl|].
  destruct (Breakers_lookup bs (t_key t)) as [b|] eqn:Hl; [|apply micros_1, micro_unlock].
  apply lookup_cur in Hl as [Hc Hk].
  pose proof (advanceLocked_micros now (Some (key_ID (t_key t))) bs b Hc) as (Hm & Hc' & Hb' & Hp & _).
  pose proof (advance_meta (bs_p bs) now b) as (Hk' & _). rewrite <-Hb' in Hk'. clear Hb'.
  destruct (Breakers_advanceLocked bs b now) as [bs' b']; simpl in *.
  assert (Some (key_ID (t_key t)) = Some (key_ID (b_key b'))) as HT by congruence.
  destruct (t_probe t && negb _); [by apply micros_unlock|].
  destruct (t_probe t && bool_decide _) eqn:Hpr.
  - apply andb_prop in Hpr as [_ Hs%bool_decide_eq_true]. apply micros_unlock.
    eapply micros_trans; [exact Hm|]. by apply reopen_micros.
  - destruct (negb _); apply micros_unlock; [done|].
    eapply micros_trans; [exact Hm|]. by apply countClosed_micros.
Qed.

Lemma RecordAbort_micros now bs t okAt rnd :
  micros now (Some (key_ID (t_key t))) bs (Breakers_RecordAbort bs now t okAt rnd).1.
Proof.
  unfold Breakers_RecordAbort. destruct (t_valid t); simpl; [|apply rtc_refl].
  destruct (t_probe t); [apply RecordLate_micros|].
  destruct (Breakers_lookup bs (t_key t)) as [b|] eqn:Hl; [|apply micros_1, micro_unlock].
  apply lookup_cur in Hl as [Hc Hk].
  pose proof (advanceLocked_micros now (Some (key_ID (t_key t))) bs b Hc) as (Hm & Hc' & Hb' & Hp & _).
  pose proof (advance_meta (bs_p bs) now b) as (Hk' & _). rewrite <-Hb' in Hk'. clear Hb'.
  destruct (Breakers_advanceLocked bs b now) as [bs' b']; simpl in *.
  destruct (_ || _); apply micros_unlock; [done|].
  set (b2 := b' <| b_win := _ |>). pose proof (store_cur bs' b2) as Hc2.
  eapply micros_trans; [exact Hm|]. eapply micros_trans.
  - by apply (micros_store _ _ _ b' b2); [|apply bstep_uncount|].
  - apply countClosed_micros; [done|]. by simpl; congruence.
Qed.

(** *** The loops over all breakers. *)

(** The part of the map a [range] has yet to visit. *)
Definition unvisited (bs : Breakers) (l : list (string * breaker)) : Prop :=
  NoDup l.*1 ∧ ∀ id b, (id, b) ∈ l → bs_byID bs !! id = Some b ∧ key_ID (b_key b) = id.

Lemma range_unvisited bs : base_ok bs → unvisited bs (range_map (bs_byID bs)).
Proof.
  intros [Hk _ _]. split.
  - rewrite (fmap_Permutation _ _ _ (range_map_perm (bs_byID bs))). apply NoDup_fst_map_to_list.
  - intros id b Hin%elem_of_range_map. eauto.
Qed.

Lemma unvisited_next now T bs id b l :
  unvisited bs ((id, b) :: l) →
  let bs' := (Breakers_advanceLocked bs b now).1 in
  micros now T bs bs' ∧ unvisited bs' l.
Proof.
  intros [Hnd Hl]. cbv zeta. apply NoDup_cons in Hnd as [Hni Hnd].
  pose proof (Hl id b) as Hib. destruct Hib as [Hb Hk]; [constructor|].
  destruct (advanceLocked_micros now T bs b) as (Hm & _ & _ & _ & Hby); [unfold cur; congruence|].
  split; [done|]. split; [done|]. intros id' b' Hin. pose proof (Hl id' b') as Hib. destruct Hib as [Hb' Hk']; [by constructor|].
  rewrite Hby, lookup_insert_ne; [done|]. intros Heq. apply Hni.
  apply (list_elem_of_fmap_2 fst) in Hin. simpl in *. by rewrite <-Hk, Heq.
Qed.

Lemma advance_loop {A} (f : Breakers * A → string * breaker → Breakers * A) now T l :
  (∀ acc kb, (f acc kb).1 = (Breakers_advanceLocked acc.1 kb.2 now).1) →
  ∀ acc, unvisited acc.1 l → micros now T acc.1 (foldl f acc l).1.
Proof.
  intros Hf. induction l as [|[id b] l IH]; intros acc Hu; simpl; [apply rtc_refl|].
  apply (unvisited_next now T) in Hu as [Hm Hu]. eapply micros_trans; [exact Hm|].
  pose proof (Hf acc (id, b)) as E. simpl in E. rewrite <-E in Hu |- *. by apply IH.
Qed.

Lemma Snapshot_micros now bs : base_ok bs → micros now None bs (Breakers_Snapshot bs now).1.1.
Proof.
  intros Hok. unfold Breakers_Snapshot.
  pose proof (advance_loop (snapshot_step now) now None (range_map (bs_byID bs))) as Hl.
  specialize (Hl ltac:(intros [bs' out] kb; simpl; by destruct (Breakers_advanceLocked bs' kb.2 now))
                (bs, []) (range_unvisited bs Hok)).
  destruct (foldl (snapshot_step now) _ _). by apply micros_unlock.
Qed.

Lemma Counts_micros now bs : base_ok bs → micros now None bs (Breakers_Counts bs now).1.1.
Proof.
  intros Hok. unfold Breakers_Counts.
  pose proof (advance_loop (counts_loop_step now) now None (range_map (bs_byID bs))) as Hl.
  specialize (Hl ltac:(intros [bs' [? ?]] kb; simpl; by destruct (Breakers_advanceLocked bs' kb.2 now))
                (bs, (0, 0)) (range_unvisited bs Hok)).
  destruct (foldl (counts_loop_step now) _ _) as [? [? ?]]. by apply micros_unlock.
Qed.

Lemma retryAfter_loop_micros now T l : ∀ bs e,
  unvisited bs l → micros now T bs (retryAfter_loop now bs e l).1.
Proof.
  induction l as [|[id b] l IH]; intros bs e Hu; simpl; [apply rtc_refl|].
  apply (unvisited_next now T) in Hu as [Hm Hu].
  destruct (Breakers_advanceLocked bs b now) as [bs' b']; simpl in *.
  destruct (negb _); [by eapply micros_trans, IH|].
  destruct (_ =? 0); [done|]. by eapply micros_trans, IH.
Qed.

Lemma RetryAfter_micros now bs : base_ok bs → micros now None bs (Breakers_RetryAfter bs now).1.1.
Proof.
  intros Hok. unfold Breakers_RetryAfter.
  pose proof (retryAfter_loop_micros now None _ bs (-1) (range_unvisited bs Hok)) as Hm.
  destruct (retryAfter_loop _ _ _ _). by apply micros_unlock.
Qed.

(** *** The victim of a round of [enforceCap]. *)

Lemma relaxed_first_trans a b c :
  relaxed_first a b = true → relaxed_first b c = true → relaxed_first a c = true.
Proof.
  unfold relaxed_first, After, Equal. rewrite !orb_true_iff, !andb_true_iff, !Z.ltb_lt, !Z.eqb_eq.
  intros [?|[? Hs1]] [?|[? Hs2]]; [left; lia..|right]. split; [lia|]. by eapply string_ltb_trans.
Qed.

Lemma relaxed_first_total a b :
  key_ID (b_key a) ≠ key_ID (b_key b) → relaxed_first a b = false → relaxed_first b a = true.
Proof.
  unfold relaxed_first, After, Equal. intros Hne.
  rewrite orb_false_iff, orb_true_iff, andb_false_iff, andb_true_iff, Z.ltb_ge, Z.ltb_lt, Z.eqb_eq, Z.eqb_neq.
  intros [Hle [Hn|Hs]]; [left; lia|].
  destruct (decide (mono (b_ejectedAt a) = mono (b_ejectedAt b))); [right|left; lia].
  split; [done|]. destruct (string_ltb_total _ _ Hne); [done|congruence].
Qed.

Definition latest_ejected (model : string) (v : breaker) (l : list breaker) : Prop :=
  v ∈ l ∧ ejected_in model v = true ∧
  ∀ b, b ∈ l → ejected_in model b = true → b = v ∨ relaxed_first v b = true.

Lemma cap_scan_list model l :
  (∀ b b' : breaker, b ∈ l.*2 → b' ∈ l.*2 → key_ID (b_key b) = key_ID (b_key b') → b = b') →
  let '(victim, open) := foldl (cap_scan_step model) (None, 0) l in
  open = countb (ejected_in model) l.*2 ∧
  match victim with
  | None => ∀ b, b ∈ l.*2 → ejected_in model b = false
  | Some v => latest_ejected model v l.*2
  end.
Proof.
  induction l as [|[id b] l IH] using rev_ind; intros Hinj; [split; [done|set_solver]|].
  rewrite foldl_app, fmap_app in *. simpl in *.
  specialize (IH ltac:(intros; apply Hinj; set_solver)).
  destruct (foldl (cap_scan_step model) (None, 0) l) as [victim open]. destruct IH as [-> Hv].
  unfold cap_scan_step; simpl. rewrite countb_app, countb_cons, countb_nil.
  destruct (ejected_in model b) eqn:He; simpl; (split; [lia|]).
  - destruct victim as [v|].
    + destruct Hv as (Hvl & Hve & Hmax). destruct (relaxed_first b v) eqn:Hr.
      * split_and!; [set_solver|done|]. intros x [Hx| ->%list_elem_of_singleton]%elem_of_app Hxe; [|by left].
        destruct (Hmax x Hx Hxe) as [->|]; right; [done|]. by eapply relaxed_first_trans.
      * split_and!; [set_solver|done|]. intros x [Hx| ->%list_elem_of_singleton]%elem_of_app Hxe; [by apply Hmax|].
        destruct (decide (key_ID (b_key b) = key_ID (b_key v))) as [Hk|Hk].
        -- left. apply Hinj; set_solver.
        -- right. by apply relaxed_first_total.
    + split_and!; [set_solver|done|]. intros x Hx Hxe. left.
      apply elem_of_app in Hx as [Hx| ->%list_elem_of_singleton]; [|done]. by rewrite Hv in Hxe.
  - destruct victim as [v|].
    + destruct Hv as (Hvl & Hve & Hmax). split_and!; [set_solver|done|].
      intros x [Hx| ->%list_elem_of_singleton]%elem_of_app Hxe; [by apply Hmax|congruence].
    + set_solver.
Qed.

Lemma cap_scan_spec model bs :
  base_ok bs →
  (cap_scan model (bs_byID bs)).2 = ejected_count model bs ∧
  match (cap_scan model (bs_byID bs)).1 with
  | None => ejected_count model bs = 0
  | Some v => cur bs v ∧ ejected_in model v = true ∧
      ∀ b, cur bs b → ejected_in model b = true → b = v ∨ relaxed_first v b = true
  end.
Proof.
  intros [Hkeys _ _].
  assert (∀ b, b ∈ (range_map (bs_byID bs)).*2 ↔ cur bs b) as Hin.
  { intros b. rewrite list_elem_of_fmap. unfold cur. split.
    - intros [[id b'] [-> Hb]]. apply elem_of_range_map in Hb. simpl. by rewrite (Hkeys _ _ Hb).
    - intros Hb. exists (key_ID (b_key b), b). split; [done|]. by apply elem_of_range_map. }
  pose proof (cap_scan_list model (range_map (bs_byID bs))) as Hs.
  unfold cap_scan. destruct (foldl _ _ _) as [victim open]; simpl. destruct Hs as [-> Hs].
  { intros b b' Hb Hb' Hk. apply Hin in Hb, Hb'. unfold cur in *. congruence. }
  split; [by apply countb_perm, fmap_Permutation, range_map_perm|].
  destruct victim as [v|].
  - destruct Hs as (Hv & He & Hmax). split_and!; [by apply Hin|done|]. intros b Hb. by apply Hmax, Hin.
  - apply mcount_0. intros id b Hb. apply Hs, Hin. unfold cur. by rewrite (Hkeys _ _ Hb).
Qed.

(** *** What [enforceCap] does.

    [relaxed now limits bs bs']: for the models of [limits] the ejected breakers are brought
    down to the limit, by closing some of them, and those closed were ejected later than those
    kept; nothing else moves. *)

Record relaxed (now : Time) (limits : gmap string Z) (bs bs' : Breakers) : Prop := {
  rl_id : ∀ id, bs_byID bs' !! id = bs_byID bs !! id ∨
    ∃ b, bs_byID bs !! id = Some b ∧ ejected_in (b_model b) b = true ∧
         bs_byID bs' !! id = Some (breaker_close b now);
  rl_count : ∀ model, ejected_count model bs' =
    match limits !! model with
    | Some limit => Z.min (ejected_count model bs) (Z.max 0 limit)
    | None => ejected_count model bs
    end;
  rl_order : ∀ b c, cur bs b → ejected_in (b_model b) b = true →
    bs_byID bs' !! key_ID (b_key b) = Some (breaker_close b now) →
    cur bs' c → ejected_in (b_model b) c = true → relaxed_first b c = true;
}.

Lemma close_not_ejected model b now : ejected_in model (breaker_close b now) = false.
Proof.
  unfold ejected_in. assert (notClosed (breaker_close b now) = false) as -> by done. apply andb_false_r.
Qed.

Lemma ejected_in_model model b : ejected_in model b = true → b_model b = model.
Proof. unfold ejected_in. intros [[Hm%String.eqb_eq _]%andb_prop _]%andb_prop. done. Qed.

Lemma ejected_ne_close b now model : ejected_in model b = true → breaker_close b now ≠ b.
Proof. intros He Heq. by rewrite <-Heq, close_not_ejected in He. Qed.

Lemma relaxed_refl now bs : relaxed now ∅ bs bs.
Proof.
  split; [by left|by intros; rewrite lookup_empty|].
  intros b c Hb He Hcl. unfold cur in Hb. rewrite Hb in Hcl. injection Hcl as Heq.
  by apply eq_sym, (ejected_ne_close _ _ _ He) in Heq.
Qed.

Lemma relaxed_cur now f bs bs' c model :
  relaxed now f bs bs' → cur bs' c → ejected_in model c = true → cur bs c.
Proof.
  intros [Hid _ _] Hc He. unfold cur in *.
  destruct (Hid (key_ID (b_key c))) as [Heq|(b & _ & _ & Hcl)]; [congruence|].
  rewrite Hcl in Hc. injection Hc as <-. by rewrite close_not_ejected in He.
Qed.

Lemma relaxed_trans now f g bs bs1 bs2 :
  f ##ₘ g → relaxed now f bs bs1 → relaxed now g bs1 bs2 → relaxed now (f ∪ g) bs bs2.
Proof.
  intros Hd H1 H2. pose proof H1 as [Hid1 Hc1 Ho1]. pose proof H2 as [Hid2 Hc2 Ho2]. split.
  - intros id. destruct (Hid2 id) as [Heq2|(b & Hb & He & Hcl)].
    + rewrite Heq2. apply Hid1.
    + right. destruct (Hid1 id) as [Heq1|(b' & Hb' & He' & Hcl')].
      * exists b. by rewrite <-Heq1.
      * rewrite Hcl' in Hb. injection Hb as <-. by rewrite close_not_ejected in He.
  - intros model. rewrite Hc2, Hc1, lookup_union.
    destruct (f !! model) as [x|] eqn:Hf; destruct (g !! model) as [y|] eqn:Hg; simpl; try done.
    by destruct (map_disjoint_spec f g) as [Hx _]; destruct (Hx Hd model x y).
  - intros b c Hb He Hcl Hc Hec. destruct (Hid1 (key_ID (b_key b))) as [Heq|(b' & Hb' & _ & Hcl')].
    + apply Ho2; try done. unfold cur in *. by rewrite Heq.
    + apply Ho1; try done; [|by eapply relaxed_cur].
      rewrite Hcl'. unfold cur in Hb. congruence.
Qed.

Lemma relaxed_step now model limit bs bs' v :
  base_ok bs → cur bs v → ejected_in model v = true → limit < ejected_count model bs →
  (∀ b, cur bs b → ejected_in model b = true → b = v ∨ relaxed_first v b = true) →
  let bs1 := Breakers_emit (Breakers_store bs (breaker_close v now))
    (mkChange (b_key v) (b_state v) Closed ReasonCapRelaxed 0 0 false) in
  relaxed now {[model := limit]} bs1 bs' → relaxed now {[model := limit]} bs bs'.
Proof.
  intros Hok Hv He Hlim Hmax bs1 H1. pose proof H1 as [Hid Hcnt Hord].
  assert (∀ id, id ≠ key_ID (b_key v) → bs_byID bs1 !! id = bs_byID bs !! id) as Hne.
  { intros id Hid'. by apply lookup_insert_ne. }
  assert (bs_byID bs1 !! key_ID (b_key v) = Some (breaker_close v now)) as Hv1 by apply lookup_insert_eq.
  assert (bs_byID bs' !! key_ID (b_key v) = Some (breaker_close v now)) as Hv'.
  { destruct (Hid (key_ID (b_key v))) as [Heq|(b & Hb & Hbe & _)]; [congruence|].
    rewrite Hv1 in Hb. injection Hb as <-. by rewrite close_not_ejected in Hbe. }
  assert (∀ m, ejected_count m bs1 = ejected_count m bs - Z.b2z (ejected_in m v)) as Hc1.
  { intros m. change (ejected_count m bs1) with (ejected_count m (Breakers_store bs (breaker_close v now))).
    unfold ejected_count. rewrite (mcount_store _ v), close_not_ejected by done. simpl; lia. }
  assert (∀ c, cur bs' c → ∀ m, ejected_in m c = true → cur bs c ∧ c ≠ v) as Hcur.
  { intros c Hc m Hce. pose proof (relaxed_cur _ _ _ _ _ _ H1 Hc Hce) as Hcc. unfold cur in *.
    destruct (decide (key_ID (b_key c) = key_ID (b_key v))) as [Hk|Hk].
    - rewrite Hk, Hv1 in Hcc. injection Hcc as <-. by rewrite close_not_ejected in Hce.
    - split; [by rewrite Hne in Hcc|congruence]. }
  split.
  - intros id. destruct (decide (id = key_ID (b_key v))) as [->|Hk].
    + right. exists v. split_and!; [done| |done]. by rewrite (ejected_in_model _ _ He).
    + rewrite <-Hne by done. apply Hid.
  - intros m. rewrite Hcnt, Hc1. destruct (decide (m = model)) as [->|Hm].
    + rewrite !lookup_singleton_eq, He. simpl. pose proof (mcount_pos _ _ _ _ Hv He).
      unfold ejected_count in *. lia.
    + rewrite lookup_singleton_ne by done. destruct (ejected_in m v) eqn:Hmv; simpl; [|lia].
      apply ejected_in_model in Hmv, He. congruence.
  - intros b c Hb Hbe Hcl Hc Hce. destruct (Hcur c Hc _ Hce) as [Hcb Hcv].
    destruct (decide (key_ID (b_key b) = key_ID (b_key v))) as [Hk|Hk].
    + assert (b = v) as -> by (unfold cur in *; congruence).
      rewrite (ejected_in_model _ _ He) in Hce. by destruct (Hmax c Hcb Hce).
    + apply Hord; try done. unfold cur. by rewrite Hne.
Qed.

Lemma relaxed_stop now model limit bs :
  ejected_count model bs ≤ Z.max 0 limit → relaxed now {[model := limit]} bs bs.
Proof.
  intros Hle. destruct (relaxed_refl now bs) as [Hid _ Ho]. split; [done| |done]. intros m.
  destruct (decide (m = model)) as [->|Hm].
  - rewrite lookup_singleton_eq. lia.
  - by rewrite lookup_singleton_ne.
Qed.

(** One round more than there are ejected breakers is enough fuel. *)
Lemma enforceCap_model_spec now model limit fuel : ∀ bs,
  base_ok bs → ejected_count model bs < Z.of_nat fuel →
  let bs' := enforceCap_model fuel now model limit bs in
  relaxed now {[model := limit]} bs bs' ∧ micros now None bs bs'.
Proof.
  induction fuel as [|fuel IH]; intros bs Hok Hfuel.
  { pose proof (mcount_nonneg (ejected_in model) (bs_byID bs)). unfold ejected_count in *. lia. }
  simpl. pose proof (cap_scan_spec model bs Hok) as [Ho Hs].
  destruct (cap_scan model (bs_byID bs)) as [victim open]; simpl in *. subst open.
  destruct victim as [v|]; [|split; [apply relaxed_stop; lia|apply rtc_refl]].
  destruct Hs as (Hv & He & Hmax).
  destruct (Z.leb_spec (ejected_count model bs) limit).
  { split; [apply relaxed_stop; lia|apply rtc_refl]. }
  set (bs1 := Breakers_emit _ _).
  assert (micros now None bs bs1) as Hm.
  { apply micros_emit. eapply micros_store; [exact Hv|constructor|done]. }
  destruct (IH bs1) as [Hr Hms].
  { by apply (micros_keep _ _ _ _ Hm). }
  { change (ejected_count model bs1) with (ejected_count model (Breakers_store bs (breaker_close v now))).
    unfold ejected_count in *. rewrite (mcount_store _ v), close_not_ejected, He by done. simpl. lia. }
  split; [by eapply relaxed_step|by eapply micros_trans].
Qed.

Lemma enforceCap_fold now fr l : ∀ bs,
  base_ok bs → MaxOpenFraction (bs_p bs) = fr → NoDup l.*1 →
  let bs' := foldl (λ bs '(model, eligible),
               enforceCap_model (S (size (bs_byID bs))) now model
                 (MaxOpen (MaxOpenFraction (bs_p bs)) eligible) bs) bs l in
  relaxed now (list_to_map (prod_map id (MaxOpen fr) <$> l)) bs bs' ∧ micros now None bs bs'.
Proof.
  induction l as [|[model eligible] l IH]; intros bs Hok Hfr Hnd; simpl.
  { split; [apply relaxed_refl|apply rtc_refl]. }
  apply NoDup_cons in Hnd as [Hni Hnd].
  destruct (enforceCap_model_spec now model (MaxOpen fr eligible) (S (size (bs_byID bs))) bs) as [Hr Hm]; [done|..].
  { pose proof (mcount_size (ejected_in model) (bs_byID bs)). unfold ejected_count. lia. }
  rewrite Hfr. pose proof (micros_keep _ _ _ _ Hm) as (Hp & Hb & _).
  destruct (IH (enforceCap_model (S (size (bs_byID bs))) now model (MaxOpen fr eligible) bs)) as [Hr' Hm'];
    [auto|by rewrite Hp|done|].
  split; [|by eapply micros_trans]. rewrite insert_union_singleton_l.
  eapply relaxed_trans; [|done|done]. apply map_disjoint_singleton_l_2, not_elem_of_list_to_map_1.
  rewrite <-list_fmap_compose. intros [[m e] [-> Hin]]%list_elem_of_fmap. apply Hni.
  by apply (list_elem_of_fmap_2 fst) in Hin.
Qed.

Lemma limits_lookup (fr : float64) (by_model : gmap string Z) model :
  (list_to_map (prod_map id (MaxOpen fr) <$> range_map by_model) : gmap string Z) !! model
  = MaxOpen fr <$> by_model !! model.
Proof.
  rewrite list_to_map_fmap, lookup_fmap. f_equal. f_equal.
  rewrite (list_to_map_proper _ (map_to_list by_model)); [apply list_to_map_to_list| |apply range_map_perm].
  rewrite (fmap_Permutation _ _ _ (range_map_perm by_model)). apply NoDup_fst_map_to_list.
Qed.

Lemma enforceCap_relaxed now bs :
  base_ok bs →
  let bs' := Breakers_enforceCap bs now in
  relaxed now (list_to_map (prod_map id (MaxOpen (MaxOpenFraction (bs_p bs))) <$> range_map (bs_eligibleBy bs)))
    bs bs' ∧ micros now None bs bs'.
Proof.
  intros Hok. apply enforceCap_fold; [done|done|].
  rewrite (fmap_Permutation _ _ _ (range_map_perm (bs_eligibleBy bs))). apply NoDup_fst_map_to_list.
Qed.

Lemma ejected_eligible model bs : ejected_count model bs ≤ eligible_count model bs.
Proof.
  unfold ejected_count, eligible_count, mcount.
  induction ((map_to_list (bs_byID bs)).*2) as [|b l IH]; [done|]. rewrite !countb_cons.
  assert (Z.b2z (ejected_in model b) ≤ Z.b2z (eligible_in model b)).
  { unfold ejected_in, eligible_in. destruct (_ && b_eligible b); destruct (notClosed b); simpl; lia. }
  lia.
Qed.

Lemma enforceCap_counts now bs model :
  base_ok bs →
  ejected_count model (Breakers_enforceCap bs now)
  = Z.min (ejected_count model bs) (cap bs (eligible_count model bs)).
Proof.
  intros Hok. pose proof (enforceCap_relaxed now bs Hok) as [[_ Hc _] _].
  rewrite Hc, limits_lookup. destruct Hok as [_ _ Hby]. specialize (Hby model). unfold cap.
  destruct (bs_eligibleBy bs !! model) as [e|]; simpl in *; [by rewrite <-Hby|].
  pose proof (ejected_eligible model bs).
  pose proof (mcount_nonneg (ejected_in model) (bs_byID bs)). unfold ejected_count in *. lia.
Qed.

Lemma enforceCap_cap now bs : base_ok bs → cap_ok (Breakers_enforceCap bs now).
Proof.
  intros Hok model. rewrite enforceCap_counts by done.
  pose proof (enforceCap_relaxed now bs Hok) as [_ Hm].
  pose proof (micros_keep _ _ _ _ Hm) as (Hp & Hb & _).
  assert (eligible_count model (Breakers_enforceCap bs now) = eligible_count model bs) as ->.
  { clear -Hm. induction Hm as [|? ? ? Hs ? IH]; [done|]. rewrite IH. by eapply micro_eligible. }
  unfold cap. rewrite Hp. lia.
Qed.

(** *** [Sync] and [Prune]. *)

Definition keys_ok (byID : gmap string breaker) : Prop :=
  ∀ id b, byID !! id = Some b → key_ID (b_key b) = id.

Lemma recount_fold l :
  let r := foldl recount_step (0, ∅) l in
  r.1 = countb b_eligible l.*2 ∧ ∀ model, default 0 (r.2 !! model) = countb (eligible_in model) l.*2.
Proof.
  induction l as [|[id b] l [IH1 IH2]] using rev_ind; simpl; [split; [done|]; intros; by rewrite lookup_empty|].
  rewrite foldl_app, fmap_app. simpl. destruct (foldl recount_step (0, ∅) l) as [n by_model]; simpl in *.
  rewrite !countb_app, countb_cons, countb_nil.
  split.
  - destruct (b_eligible b); simpl; lia.
  - intros model. rewrite countb_app, countb_cons, countb_nil, <-IH2. unfold eligible_in.
    destruct (b_eligible b); simpl; [|rewrite andb_false_r; simpl; lia]. rewrite andb_true_r.
    destruct (String.eqb_spec (b_model b) model) as [->|Hne]; simpl.
    + rewrite lookup_insert_eq. simpl. lia.
    + rewrite lookup_insert_ne by done. lia.
Qed.

Lemma recountEligible_ok bs :
  keys_ok (bs_byID bs) →
  let bs' := Breakers_recountEligible bs in
  base_ok bs' ∧ bs_byID bs' = bs_byID bs ∧ bs_p bs' = bs_p bs.
Proof.
  intros Hk. unfold Breakers_recountEligible.
  pose proof (recount_fold (range_map (bs_byID bs))) as [Hn Hm].
  destruct (foldl recount_step _ _) as [n by_model]; simpl in *. split; [|done].
  split; simpl; [done|..].
  - rewrite Hn. by apply countb_perm, fmap_Permutation, range_map_perm.
  - intros model. rewrite Hm. by apply countb_perm, fmap_Permutation, range_map_perm.
Qed.

Lemma relax_ok L now bs :
  params_ok (bs_p bs) → keys_ok (bs_byID bs) → all_wf L bs →
  let bs' := (Breakers_unlock (Breakers_enforceCap (Breakers_recountEligible bs) now)).1 in
  bs_p bs' = bs_p bs ∧ base_ok bs' ∧ cap_ok bs' ∧ all_wf L bs'.
Proof.
  intros Hp Hk Hw. cbv zeta. pose proof (recountEligible_ok bs Hk) as (Hb & HbyID & Hpp).
  set (bs1 := Breakers_recountEligible bs) in *.
  pose proof (enforceCap_relaxed now bs1 Hb) as [_ Hm]. pose proof (enforceCap_cap now bs1 Hb) as Hc.
  pose proof (micros_keep _ _ _ _ Hm) as (Hp2 & Hb2 & _ & Hw2).
  pose proof (micros_keep _ _ _ _ (micros_1 now None _ _ (micro_unlock now None (Breakers_enforceCap bs1 now))))
    as (Hp3 & Hb3 & Hc3 & Hw3).
  assert (all_wf L bs1). { intros id b. rewrite HbyID, Hpp. apply Hw. }
  split_and!; [congruence|auto|auto|]. apply Hw3; [congruence|done|]. apply Hw2; [congruence|done|done].
Qed.

Lemma sync_member_ok L bs m :
  params_ok (bs_p bs) → keys_ok (bs_byID bs) → all_wf L bs →
  let bs' := sync_member bs m in
  bs_p bs' = bs_p bs ∧ keys_ok (bs_byID bs') ∧ all_wf L bs'.
Proof.
  intros Hp Hk Hw. cbv zeta. unfold sync_member. split; [done|].
  set (b := match Breakers_lookup bs (m_Key m) with Some b => b | None => _ end).
  assert (breaker_wf (bs_p bs) (L (key_ID (b_key b))) b) as Hwb.
  { subst b. destruct (Breakers_lookup bs (m_Key m)) as [b|] eqn:Hl; [|by apply newBreaker_wf].
    apply lookup_cur in Hl as [Hc _]. by apply Hw. }
  split; intros id b'; simpl; rewrite lookup_insert; (case_decide as Hid; [intros [= <-]|by eauto]); [done|].
  subst id. by destruct Hwb.
Qed.

Lemma sync_members_ok L members : ∀ bs,
  params_ok (bs_p bs) → keys_ok (bs_byID bs) → all_wf L bs →
  let bs' := foldl sync_member bs members in
  bs_p bs' = bs_p bs ∧ keys_ok (bs_byID bs') ∧ all_wf L bs'.
Proof.
  induction members as [|m members IH]; intros bs Hp Hk Hw; [done|].
  destruct (sync_member_ok L bs m Hp Hk Hw) as (Hp1 & Hk1 & Hw1). simpl.
  rewrite <-Hp1. apply IH; [congruence|done|done].
Qed.

Lemma Sync_ok L now bs members :
  params_ok (bs_p bs) → keys_ok (bs_byID bs) → all_wf L bs →
  let bs' := (Breakers_Sync bs now members).1 in
  bs_p bs' = bs_p bs ∧ base_ok bs' ∧ cap_ok bs' ∧ all_wf L bs'.
Proof.
  intros Hp Hk Hw. destruct (sync_members_ok L members bs Hp Hk Hw) as (Hp1 & Hk1 & Hw1).
  unfold Breakers_Sync. set (bs1 := foldl sync_member bs members) in *.
  set (bs2 := bs1 <| bs_byID := _ |>). rewrite <-Hp1. apply (relax_ok L now bs2); simpl; [congruence|..].
  - intros id b [Hb _]%map_lookup_filter_Some. eauto.
  - intros id b [Hb _]%map_lookup_filter_Some. by apply Hw1.
Qed.

Lemma Prune_ok L now bs keep :
  params_ok (bs_p bs) → keys_ok (bs_byID bs) → all_wf L bs →
  let bs' := (Breakers_Prune bs now keep).1 in
  bs_p bs' = bs_p bs ∧ base_ok bs' ∧ cap_ok bs' ∧ all_wf L bs'.
Proof.
  intros Hp Hk Hw. unfold Breakers_Prune. set (bs2 := bs <| bs_byID := _ |>).
  apply (relax_ok L now bs2); simpl; [done|..].
  - intros id b [Hb _]%map_lookup_filter_Some. eauto.
  - intros id b [Hb _]%map_lookup_filter_Some. by apply Hw.
Qed.
End invariants.

(** ** Runs.

    The exported methods as operations, with the arguments their callers choose, and the runs
    of a set under a clock that does not step back. *)

Inductive op :=
| OSync (members : list Member)
| OPrune (keep : list Key)
| OAdmissible (k : Key)
| OAcquire (k : Key)
| ORelease (t : Ticket)
| ORecord (t : Ticket) (v : Verdict)
| ORecordLate (t : Ticket) (v : Verdict)
| ORecordAbort (t : Ticket) (okAt : Time)
| OSnapshot
| OState (k : Key)
| OCounts
| OSuppressed
| ORetryAfter.

(** The worker an operation may trip or send a probe to. *)
Definition op_touches (o : op) : option string :=
  match o with
  | OAcquire k => Some (key_ID k)
  | ORecord t _ | ORecordLate t _ | ORecordAbort t _ => Some (key_ID (t_key t))
  | _ => None
  end.

Section runs.
Context `{GoPlatform} `{GoMapOrder}.

Definition run_op (bs : Breakers) (now : Time) (rnd : float64) (o : op) : Breakers :=
  match o with
  | OSync members => (Breakers_Sync bs now members).1
  | OPrune keep => (Breakers_Prune bs now keep).1
  | OAdmissible k => (Breakers_Admissible bs now k).1.1
  | OAcquire k => (Breakers_Acquire bs now k).1.1
  | ORelease t => (Breakers_Release bs t).1
  | ORecord t v => (Breakers_Record bs now t v rnd).1
  | ORecordLate t v => (Breakers_RecordLate bs now t v rnd).1
  | ORecordAbort t okAt => (Breakers_RecordAbort bs now t okAt rnd).1
  | OSnapshot => (Breakers_Snapshot bs now).1.1
  | OState k => (Breakers_State bs now k).1.1
  | OCounts => (Breakers_Counts bs now).1.1
  | OSuppressed => (Breakers_Suppressed bs).1.1
  | ORetryAfter => (Breakers_RetryAfter bs now).1.1
  end.

(** [steps P (bs, t) (bs', t')]: a run whose operations all satisfy [P]. *)
Inductive steps (P : op → Prop) : Breakers * Time → Breakers * Time → Prop :=
| steps_nil bs t : steps P (bs, t) (bs, t)
| steps_cons x bs t now rnd o :
    steps P x (bs, t) → clock_le t now → P o →
    steps P x (run_op bs now rnd o, now).

(** The states of a set created by [NewBreakers] at [t0]. *)
Definition reachable (p : BreakerParams) (bs : Breakers) (t : Time) : Prop :=
  ∃ t0, steps (λ _, True) (NewBreakers p, t0) (bs, t).

Record bs_ok (L : string → Z) (bs : Breakers) : Prop := {
  bo_p : params_ok (bs_p bs);
  bo_base : base_ok bs;
  bo_cap : cap_ok bs;
  bo_wf : all_wf L bs;
}.

Lemma micros_bs_ok L now T bs bs' :
  (∀ id, T = Some id → mono now ≤ L id) → micros now T bs bs' → bs_ok L bs → bs_ok L bs'.
Proof.
  intros HL Hm [Hp Hb Hc Hw]. apply micros_keep in Hm as (Hp' & Hb' & Hc' & Hw').
  split; [by rewrite Hp'|auto..].
Qed.

Lemma run_op_ok L bs now rnd o :
  (∀ id, op_touches o = Some id → mono now ≤ L id) → bs_ok L bs → bs_ok L (run_op bs now rnd o).
Proof.
  intros HL Hok. pose proof Hok as [Hp Hb Hc Hw]. pose proof (ok_keys _ Hb) as Hk.
  destruct o; cbn [run_op op_touches] in *.
  - destruct (Sync_ok L now bs members Hp Hk Hw) as (Hp' & ? & ? & ?). split; [by rewrite Hp'|done..].
  - destruct (Prune_ok L now bs keep Hp Hk Hw) as (Hp' & ? & ? & ?). split; [by rewrite Hp'|done..].
  - eapply micros_bs_ok; [done|apply Admissible_micros|done].
  - eapply micros_bs_ok; [done|apply Acquire_micros|done].
  - eapply (micros_bs_ok L now); [done|apply Release_micros|done].
  - eapply micros_bs_ok; [done|apply Record_micros|done].
  - eapply micros_bs_ok; [done|apply RecordLate_micros|done].
  - eapply micros_bs_ok; [done|apply RecordAbort_micros|done].
  - eapply micros_bs_ok; [done|by apply Snapshot_micros|done].
  - eapply micros_bs_ok; [done|apply State_micros|done].
  - eapply micros_bs_ok; [done|by apply Counts_micros|done].
  - eapply (micros_bs_ok L now None); [done|apply micros_1, micro_unlock|done].
  - eapply micros_bs_ok; [done|by apply RetryAfter_micros|done].
Qed.

Lemma NewBreakers_ok L p : bs_ok L (NewBreakers p).
Proof.
  split; [apply normalize_ok| |intros model|done].
  - split; [done|by simpl; rewrite mcount_empty|]. intros model. unfold eligible_count. simpl.
    by rewrite lookup_empty, mcount_empty.
  - unfold ejected_count, cap. simpl. rewrite mcount_empty. lia.
Qed.

Lemma bs_ok_mono L L' bs : (∀ id, L id ≤ L' id) → bs_ok L bs → bs_ok L' bs.
Proof.
  intros HL [Hp Hb Hc Hw]. split; [done..|]. intros id b Hib. eapply breaker_wf_mono; [apply HL|by apply Hw].
Qed.

Lemma steps_ok P x y : steps P x y → bs_ok (λ _, mono x.2) x.1 → bs_ok (λ _, mono y.2) y.1.
Proof.
  induction 1 as [bs t|x bs t now rnd o Hs IH Hc HPo]; [done|]. intros Hx. apply run_op_ok; simpl; [lia|].
  eapply bs_ok_mono; [|by apply IH]. intros id. destruct Hc. simpl. lia.
Qed.

Lemma reachable_ok p bs t : reachable p bs t → bs_ok (λ _, mono t) bs.
Proof. intros [t0 Hs]. apply (steps_ok _ _ _ Hs), NewBreakers_ok. Qed.

Lemma steps_p P x y : steps P x y → bs_ok (λ _, mono x.2) x.1 → bs_p y.1 = bs_p x.1.
Proof.
  induction 1 as [bs t|x bs t now rnd o Hs IH Hc HPo]; [done|]. intros Hx. rewrite <-IH by done. simpl.
  pose proof (steps_ok _ _ _ Hs Hx) as [Hp Hb Hcap Hw]. simpl in *. pose proof (ok_keys _ Hb) as Hk.
  destruct o; cbn [run_op].
  - by eapply Sync_ok.
  - by eapply Prune_ok.
  - eapply micros_keep, Admissible_micros.
  - eapply micros_keep, Acquire_micros.
  - eapply (micros_keep now), Release_micros.
  - eapply micros_keep, Record_micros.
  - eapply micros_keep, RecordLate_micros.
  - eapply micros_keep, RecordAbort_micros.
  - by eapply micros_keep, Snapshot_micros.
  - eapply micros_keep, State_micros.
  - by eapply micros_keep, Counts_micros.
  - done.
  - by eapply micros_keep, RetryAfter_micros.
Qed.
End runs.
