(* ===== verification/BreakersSpec.v ===== *)
(** * What the circuit breakers promise

    The theorems about internal/resilience/breakers.go, over every run of the exported methods
    with arbitrary arguments, clock readings that do not go back, and any random draws. *)

From stdpp Require Import relations.
From S2P Require Import Prelude GoFloat SlidingWindow Breaker Breakers.

Local Open Scope string_scope.
Local Open Scope list_scope.
Local Open Scope Z_scope.

Section properties.
Context `{GoPlatform} `{GoMapOrder}.

(** C11: the ejection cap.  In every state a set of breakers can reach, and for every model, the
    number of breakers that are open or half-open among the registry-eligible workers of the
    model is at most floor(max_open_fraction * eligible workers of the model). *)
Theorem ejection_cap p bs t model :
  reachable p bs t →
  ejected_count model bs ≤ Z.max 0 (MaxOpen (MaxOpenFraction p) (eligible_count model bs)).
Proof.
  intros Hr. pose proof (reachable_ok _ _ _ Hr) as [_ _ Hc _]. destruct Hr as [t0 Hs].
  pose proof (steps_p _ _ _ Hs (NewBreakers_ok _ _)) as Hp. simpl in Hp.
  specialize (Hc model). unfold cap in Hc. by rewrite Hp in Hc.
Qed.

(** A breaker at its current value, in a reachable state. *)
Lemma reachable_cur p bs t k b :
  reachable p bs t → Breakers_lookup bs k = Some b → breaker_wf (bs_p bs) (mono t) b.
Proof.
  intros Hr Hl. pose proof (reachable_ok _ _ _ Hr) as [_ _ _ Hw].
  apply lookup_cur in Hl as [Hc _]. by apply (Hw _ _ Hc).
Qed.

(** The sole worker of a model is never ejected.  When the configured fraction leaves a
    single worker no room ([MaxOpen fraction 1 = 0], as 0.5 does), the breaker of a worker that
    is the only eligible one of its model is closed in every reachable state, and [Admissible]
    says so, whatever its failures. *)
Theorem sole_worker_never_ejected p bs t k b now :
  reachable p bs t → MaxOpen (MaxOpenFraction p) 1 ≤ 0 →
  Breakers_lookup bs k = Some b → b_eligible b = true → eligible_count (b_model b) bs = 1 →
  b_state b = Closed ∧ (Breakers_Admissible bs now k).2 = true.
Proof.
  intros Hr Hf Hl He H1.
  pose proof (reachable_ok _ _ _ Hr) as [_ _ Hc _]. destruct Hr as [t0 Hs].
  pose proof (steps_p _ _ _ Hs (NewBreakers_ok _ _)) as Hp. simpl in Hp.
  specialize (Hc (b_model b)). unfold cap in Hc. rewrite Hp, H1 in Hc. simpl in Hc.
  pose proof (lookup_cur _ _ _ Hl) as [Hcur Hk].
  assert (notClosed b = false) as Hn.
  { destruct (notClosed b) eqn:Hn; [|done].
    assert (ejected_in (b_model b) b = true) as Hej by (unfold ejected_in; by rewrite String.eqb_refl, He, Hn).
    pose proof (mcount_pos _ _ _ _ Hcur Hej). unfold ejected_count in Hc. lia. }
  assert (b_state b = Closed) as Hst by (unfold notClosed in Hn; by destruct (b_state b)).
  split; [done|]. unfold Breakers_Admissible. rewrite Hl.
  pose proof (advanceLocked_micros now None bs b Hcur) as (_ & _ & Hb' & _).
  destruct (Breakers_advanceLocked bs b now) as [bs' b']; simpl in *. subst b'.
  rewrite advance_closed by done. simpl. by rewrite bool_decide_true.
Qed.

(** *** Never wedged. *)

Lemma advance_free p last now b :
  params_ok p → breaker_wf p last b →
  last + MaxCoolDown p ≤ mono now → ticketBackstop p < mono now - last → ticketBackstop p < int64_max →
  let b' := (breaker_advance b now p).1 in b_state b' = Closed ∨ breaker_probeFree b' p = true.
Proof.
  intros Hp Hw Hmax Hback Hb64. pose proof Hw as [_ _ _ _ Hidle _ Hids _ _ Hopen]. destruct Hp.
  assert (∀ b0, b_state b0 = HalfOpen → b_tickets b0 = ∅ → breaker_probeFree b0 p = true) as Hempty.
  { intros b0 Hs Ht. unfold breaker_probeFree. rewrite Hs, Ht, map_size_empty. simpl. apply Z.ltb_lt. lia. }
  destruct (b_state b) eqn:Hst; [rewrite advance_closed by done; by left|..]; unfold breaker_advance; right.
  - rewrite bool_decide_false by congruence. simpl. rewrite bool_decide_true by done. simpl.
    destruct (bool_decide_reflect (b_tickets b = ∅)) as [Ht|_]; simpl; [by apply Hempty|].
    apply Hempty; [done|]. simpl. apply map_empty. intros i. apply eq_None_not_Some. intros [at_ Hat].
    apply map_lookup_filter_Some in Hat as [Hat Hn]. apply Hn. simpl. destruct (Hids _ _ Hat).
    unfold Sub. unfold int64_max, int64_min in *. lia.
  - destruct (Hopen eq_refl) as [Hcd Hou].
    assert (Before now (b_openUntil b) = false) as -> by (apply Z.ltb_ge; lia).
    rewrite bool_decide_true by done. simpl. by apply Hempty.
Qed.

(** The bound on a worker's last trip and probe, while no operation touches it. *)
Lemma steps_quiet id x y L0 :
  steps (λ o, op_touches o ≠ Some id) x y → mono x.2 ≤ L0 →
  bs_ok (λ i, if decide (i = id) then L0 else mono x.2) x.1 →
  bs_ok (λ i, if decide (i = id) then L0 else mono y.2) y.1.
Proof.
  induction 1 as [bs t|x bs t now rnd o Hs IH Hc HP]; [done|]. intros HL Hx. apply run_op_ok.
  - intros i Hi. case_decide; [congruence|]. simpl. lia.
  - eapply bs_ok_mono; [|by apply IH]. intros i. destruct Hc. simpl. case_decide; lia.
Qed.

(** C18: a breaker is never wedged.  Take any reachable state and any run from it whose operations
    neither acquire nor record for the worker with ID [key_ID k] (all other workers may be as busy as they
    like).  Once the longest cool-down and the ticket backstop have passed since that state, the
    worker is admissible: an open breaker has become half-open, and lost probe tickets have been
    given back. *)
Theorem never_wedged p bs0 t0 bs t now k :
  reachable p bs0 t0 →
  steps (λ o, op_touches o ≠ Some (key_ID k)) (bs0, t0) (bs, t) →
  mono t0 + MaxCoolDown (bs_p bs) ≤ mono now →
  ticketBackstop (bs_p bs) < mono now - mono t0 → ticketBackstop (bs_p bs) < int64_max →
  (Breakers_Admissible bs now k).2 = true.
Proof.
  intros Hr Hs Hmax Hback H64. pose proof (reachable_ok _ _ _ Hr) as Hok0.
  assert (bs_ok (λ i, if decide (i = key_ID k) then mono t0 else mono t) bs) as [Hp Hb _ Hw].
  { apply (steps_quiet _ _ _ (mono t0) Hs); [done|]. eapply bs_ok_mono; [|exact Hok0].
    intros i. simpl. case_decide; lia. }
  unfold Breakers_Admissible. destruct (Breakers_lookup bs k) as [b|] eqn:Hl; [|done].
  apply lookup_cur in Hl as [Hcur Hk].
  pose proof (advanceLocked_micros now None bs b Hcur) as (_ & _ & Hb' & Hpp & _).
  destruct (Breakers_advanceLocked bs b now) as [bs' b']; simpl in *.
  specialize (Hw _ _ Hcur). rewrite Hk in Hw. rewrite decide_True in Hw by done.
  destruct (advance_free _ _ now _ Hp Hw Hmax Hback H64) as [Hcl|Hf]; rewrite <-Hb' in *.
  - by rewrite Hcl.
  - rewrite Hpp, Hf. apply orb_true_r.
Qed.

(** Which breakers the cap relaxes.  [enforceCap] leaves exactly min(ejected, cap) breakers
    of each model ejected; it closes breakers and changes nothing else; and a breaker it closes
    was ejected later than every breaker of the model it leaves ejected (ties: the larger worker
    ID goes first), so that the longest-standing evidence is kept. *)
Theorem enforceCap_keeps_oldest bs now :
  base_ok bs →
  let bs' := Breakers_enforceCap bs now in
  (∀ model, ejected_count model bs' = Z.min (ejected_count model bs) (cap bs (eligible_count model bs))) ∧
  (∀ id, bs_byID bs' !! id = bs_byID bs !! id ∨
     ∃ b, bs_byID bs !! id = Some b ∧ ejected_in (b_model b) b = true ∧
          bs_byID bs' !! id = Some (breaker_close b now)) ∧
  (∀ b c, cur bs b → ejected_in (b_model b) b = true →
     bs_byID bs' !! key_ID (b_key b) = Some (breaker_close b now) →
     cur bs' c → ejected_in (b_model b) c = true → relaxed_first b c = true).
Proof.
  intros Hok. pose proof (enforceCap_relaxed now bs Hok) as [[Hid _ Hord] _].
  split; [intros model; by apply enforceCap_counts|done].
Qed.

(** Probes.  In every reachable state a breaker has at most ProbeConcurrency probe tickets
    out, and has some only while it is half-open; its successes are below ProbeSuccesses; its
    cool-down level is at most the first level whose cool-down is the cap; and the streak ring
    is indexed inside its bounds. *)
Theorem probes_bounded p bs t k b :
  reachable p bs t → Breakers_lookup bs k = Some b →
  Z.of_nat (size (b_tickets b)) ≤ ProbeConcurrency (bs_p bs) ∧
  (b_tickets b ≠ ∅ → b_state b = HalfOpen) ∧
  0 ≤ b_successes b < ProbeSuccesses (bs_p bs) ∧
  (b_level b ≤ maxLevel (bs_p bs))%nat ∧
  (b_streakPos b < length (b_streak b))%nat ∧ (b_streakLen b ≤ length (b_streak b))%nat.
Proof.
  intros Hr Hl. destruct (reachable_cur _ _ _ _ _ Hr Hl). split_and!; try done; try lia.
  intros Ht. destruct (decide (b_state b = HalfOpen)); [done|]. destruct Ht. auto.
Qed.

(** *** A ticket acts at most once. *)

(** [t] was issued by [b] or is older than its current open period. *)
Definition issued (t : Ticket) (b : breaker) : Prop := t_epoch t ≤ b_epoch b ∧ t_id t ≤ b_nextID b.

(** ... and is not outstanding any more. *)
Definition spent (t : Ticket) (b : breaker) : Prop :=
  issued t b ∧ (b_epoch b = t_epoch t → b_tickets b !! t_id t = None).

Lemma advance_tickets p now b i :
  b_tickets b !! i = None → b_tickets (breaker_advance b now p).1 !! i = None.
Proof.
  intros Hi. unfold breaker_advance.
  destruct (_ && negb (Before now (b_openUntil b))); simpl; [done|].
  destruct (_ && _); simpl; [|done]. apply map_lookup_filter_None. by left.
Qed.

Lemma advance_nextID p now b : b_nextID (breaker_advance b now p).1 = b_nextID b.
Proof.
  unfold breaker_advance. destruct (_ && negb (Before now (b_openUntil b))); simpl; [done|]. by destruct (_ && _).
Qed.

Lemma bstep_issued p now touch t b b' : bstep p now touch b b' → issued t b → issued t b'.
Proof.
  intros Hs [He Hn]. destruct Hs; unfold issued; simpl; try lia.
  - rewrite advance_nextID. by destruct (advance_meta p now b) as (_ & _ & _ & -> & _).
  - by destruct v.
Qed.

Lemma bstep_spent p now touch t b b' : bstep p now touch b b' → spent t b → spent t b'.
Proof.
  intros Hs [Hi Ht]. split; [by eapply bstep_issued|]. destruct Hi as [He Hn].
  destruct Hs; simpl in *; try done; intros Heq.
  - destruct (advance_meta p now b) as (_ & _ & _ & Hep & _). rewrite Hep in Heq. auto using advance_tickets.
  - apply lookup_delete_None. auto.
  - destruct v; auto.
  - rewrite lookup_insert_ne by lia. auto.
Qed.

(** Some breaker of the registration [k] satisfies [Q]. *)
Definition of_key (k : Key) (Q : breaker → Prop) (bs : Breakers) : Prop :=
  ∃ b, cur bs b ∧ b_key b = k ∧ Q b.

(** [Q] survives the steps of a breaker and the fields [Sync] writes. *)
Definition stable (Q : breaker → Prop) : Prop :=
  (∀ p now touch b b', bstep p now touch b b' → Q b → Q b') ∧
  (∀ b e m, Q b → Q (b <| b_eligible := e |> <| b_model := m |>)).

Lemma issued_stable t : stable (issued t).
Proof. split; [eauto using bstep_issued|done]. Qed.

Lemma spent_stable t : stable (spent t).
Proof. split; [eauto using bstep_spent|done]. Qed.

Lemma micros_of_key now T k Q bs bs' : stable Q → micros now T bs bs' → of_key k Q bs → of_key k Q bs'.
Proof.
  intros [HQ _]. induction 1 as [|bs bs1 bs2 Hm _ IH]; [done|]. intros (b & Hc & Hk & Hb). apply IH. clear IH.
  destruct Hm as [bs b0 b' touch Hc0 Hs _ _| | | ]; [|by exists b..].
  pose proof (bstep_meta _ _ _ _ _ Hs) as (Hk0 & _). unfold cur in *.
  destruct (decide (key_ID (b_key b0) = key_ID (b_key b))) as [Heq|Hne].
  - assert (b0 = b) as -> by congruence. exists b'. split_and!; [apply store_cur|congruence|by eapply HQ].
  - exists b. split_and!; [|done|done]. unfold cur. simpl. rewrite lookup_insert_ne; [done|congruence].
Qed.

(** An operation that does not drop the registration [k]: a [Sync] lists it, and lists no other
    registration of the same worker ID; a [Prune] keeps it. *)
Definition keeps (k : Key) (o : op) : Prop :=
  match o with
  | OSync members =>
      (∃ m, m ∈ members ∧ m_Key m = k) ∧ (∀ m, m ∈ members → key_ID (m_Key m) = key_ID k → m_Key m = k)
  | OPrune keep => k ∈ keep
  | _ => True
  end.

Lemma sync_members_of_key k Q members : stable Q → ∀ bs,
  (∀ m, m ∈ members → key_ID (m_Key m) = key_ID k → m_Key m = k) →
  of_key k Q bs → of_key k Q (foldl sync_member bs members).
Proof.
  intros [_ HQ]. induction members as [|m members IH]; intros bs Hm Hb; [done|]. simpl.
  apply IH; [intros; apply Hm; [by constructor|done]|]. destruct Hb as (b & Hc & Hk & Hb).
  destruct (decide (key_ID (m_Key m) = key_ID k)) as [Heq|Hne].
  - apply Hm in Heq; [|by constructor]. unfold sync_member.
    assert (Breakers_lookup bs (m_Key m) = Some b) as ->.
    { unfold Breakers_lookup. unfold cur in Hc. rewrite Heq, <-Hk, Hc. by rewrite bool_decide_true. }
    eexists. split_and!; [apply store_cur|done|by apply HQ].
  - exists b. split_and!; [|done|done]. unfold cur, sync_member in *. simpl. rewrite lookup_insert_ne; [done|].
    simpl. destruct (Breakers_lookup bs (m_Key m)) as [b0|] eqn:Hl; simpl; [|congruence].
    apply lookup_cur in Hl as [_ Hk0]. congruence.
Qed.

Lemma relax_of_key k Q now bs :
  stable Q → keys_ok (bs_byID bs) → of_key k Q bs →
  of_key k Q (Breakers_unlock (Breakers_enforceCap (Breakers_recountEligible bs) now)).1.
Proof.
  intros HQ Hk (b & Hc & Hkb & Hb). pose proof (recountEligible_ok bs Hk) as (Hok & HbyID & _).
  pose proof (enforceCap_relaxed now _ Hok) as [_ Hm].
  eapply (micros_of_key now None); [done|by apply micros_unlock, Hm|].
  exists b. unfold cur. rewrite HbyID. done.
Qed.

Lemma run_op_of_key k Q L bs now rnd o :
  stable Q → keeps k o → bs_ok L bs → of_key k Q bs → of_key k Q (run_op bs now rnd o).
Proof.
  intros HQ Ho [Hp Hb Hcap Hw] Hk. pose proof (ok_keys _ Hb) as Hkeys. destruct o; cbn [run_op keeps] in *.
  - destruct Ho as [(m & Hm & Hmk) Huniq]. apply (sync_members_of_key _ _ members HQ bs Huniq) in Hk as (b & Hc & Hkb & HQb).
    destruct (sync_members_ok L members bs Hp Hkeys Hw) as (_ & Hk1 & _).
    unfold Breakers_Sync. apply relax_of_key; [done|intros id x [Hx _]%map_lookup_filter_Some; eauto|].
    exists b. split_and!; [|done|done]. apply map_lookup_filter_Some. split; [done|]. simpl.
    apply elem_of_list_to_set, list_elem_of_fmap. exists m. split; [congruence|done].
  - unfold Breakers_Prune. apply relax_of_key; [done|intros id x [Hx _]%map_lookup_filter_Some; eauto|].
    destruct Hk as (b & Hc & Hkb & HQb). exists b. split_and!; [|done|done].
    apply map_lookup_filter_Some. split; [done|]. simpl. by rewrite Hkb.
  - by eapply micros_of_key; [|apply Admissible_micros|].
  - by eapply micros_of_key; [|apply Acquire_micros|].
  - by eapply (micros_of_key now); [|apply Release_micros|].
  - by eapply micros_of_key; [|apply Record_micros|].
  - by eapply micros_of_key; [|apply RecordLate_micros|].
  - by eapply micros_of_key; [|apply RecordAbort_micros|].
  - by eapply micros_of_key; [|apply Snapshot_micros|].
  - by eapply micros_of_key; [|apply State_micros|].
  - by eapply micros_of_key; [|apply Counts_micros|].
  - by eapply (micros_of_key now None); [|apply micros_1, micro_unlock|].
  - by eapply micros_of_key; [|apply RetryAfter_micros|].
Qed.

Lemma steps_of_key k Q x y :
  stable Q → steps (keeps k) x y → bs_ok (λ _, mono x.2) x.1 → of_key k Q x.1 → of_key k Q y.1.
Proof.
  intros HQ. induction 1 as [|x bs t now rnd o Hs IH Hc Ho]; [done|]. intros Hx Hk.
  eapply run_op_of_key; [done|done|by apply (steps_ok _ _ _ Hs)|by apply IH].
Qed.

Lemma of_key_lookup k Q bs : of_key k Q bs ↔ ∃ b, Breakers_lookup bs k = Some b ∧ Q b.
Proof.
  split.
  - intros (b & Hc & Hk & HQ). exists b. split; [|done]. unfold Breakers_lookup, cur in *.
    rewrite <-Hk, Hc. by rewrite bool_decide_true.
  - intros (b & Hl & HQ). apply lookup_cur in Hl as [Hc Hk]. by exists b.
Qed.

Lemma Acquire_issued bs now k bs' chs t :
  Breakers_Acquire bs now k = (bs', chs, (t, true)) → t_probe t = true →
  t_key t = k ∧ t_valid t = true ∧ of_key k (issued t) bs'.
Proof.
  unfold Breakers_Acquire. destruct (Breakers_lookup bs k) as [b|] eqn:Hl; [|by intros [= <- <- <-]].
  apply lookup_cur in Hl as [Hc Hk].
  pose proof (advanceLocked_micros now None bs b Hc) as (_ & Hc' & Hb' & _).
  pose proof (advance_meta (bs_p bs) now b) as (Hk' & _).
  destruct (Breakers_advanceLocked bs b now) as [bs1 b1]; simpl in *. subst b1.
  destruct (b_state _); [by intros [= <- <- <-]| |by intros [= <- <- <-]].
  destruct (negb _); [by intros [= <- <- <-]|]. intros [= <- <- <-] _. split_and!; [done|done|].
  eexists. split_and!; [apply store_cur|simpl; congruence|]. unfold issued. simpl. lia.
Qed.

Lemma Release_spent L bs t :
  bs_ok L bs → t_probe t = true → of_key (t_key t) (issued t) bs →
  of_key (t_key t) (spent t) (Breakers_Release bs t).1.
Proof.
  intros [_ _ _ Hw] Hp Hk. apply of_key_lookup in Hk as (b & Hl & Hi). unfold Breakers_Release.
  rewrite Hp, Hl. simpl. apply lookup_cur in Hl as [Hc Hk]. pose proof (Hw _ _ Hc) as Hwf.
  destruct (bool_decide_reflect (b_state b = HalfOpen)) as [Hs|Hs]; simpl.
  - destruct (Z.eqb_spec (b_epoch b) (t_epoch t)); simpl.
    + eexists. split_and!; [apply store_cur|done|]. split; [done|]. intros _. simpl. apply lookup_delete_eq.
    + exists b. split_and!; [done|done|]. by split.
  - exists b. split_and!; [done|done|]. split; [done|]. intros _. by rewrite (bw_idle _ _ _ Hwf Hs), lookup_empty.
Qed.

Lemma Record_spent L bs now t v rnd :
  bs_ok L bs → t_probe t = true → t_valid t = true → of_key (t_key t) (issued t) bs →
  of_key (t_key t) (spent t) (Breakers_Record bs now t v rnd).1.
Proof.
  intros Hok Hp Hv Hk. apply of_key_lookup in Hk as (b & Hl & Hi).
  unfold Breakers_Record, Breakers_recordLocked. rewrite Hp, Hv, Hl. simpl. apply lookup_cur in Hl as [Hc Hk].
  pose proof (advanceLocked_micros now None bs b Hc) as (Hm & Hc' & Hb' & Hpp & _).
  pose proof (micros_bs_ok L now None _ _ ltac:(done) Hm Hok) as [_ _ _ Hw].
  pose proof (advance_meta (bs_p bs) now b) as (Hk' & _).
  assert (issued t (Breakers_advanceLocked bs b now).2) as Hi'.
  { rewrite Hb'. eapply bstep_issued; [apply (bstep_advance _ now)|done]. }
  rewrite <-Hb' in Hk'. clear Hb'. destruct (Breakers_advanceLocked bs b now) as [bs1 b1]; simpl in *.
  assert (spent t b1 → of_key (t_key t) (spent t) bs1) as Hb1 by (exists b1; split_and!; [done|congruence|done]).
  destruct (bool_decide_reflect (b_state b1 = HalfOpen)) as [Hs|Hs]; simpl.
  2: { apply Hb1. split; [done|]. intros _. by rewrite (bw_idle _ _ _ (Hw _ _ Hc') Hs), lookup_empty. }
  destruct (Z.eqb_spec (b_epoch b1) (t_epoch t)) as [He|He]; simpl; [|by apply Hb1].
  destruct (bool_decide_reflect (b_tickets b1 !! t_id t = None)); [by apply Hb1|].
  set (b2 := b1 <| b_tickets := _ |>).
  eapply (micros_of_key now (Some (key_ID (b_key b2))) _ _ (Breakers_store bs1 b2)); [apply spent_stable| |].
  - eapply micros_trans; [|apply micros_1, micro_unlock]. apply (probe_verdict_micros now _ (Breakers_store bs1 b2) b2 v rnd); [apply store_cur|done|done].
  - exists b2. split_and!; [apply store_cur|simpl; congruence|]. split; [done|]. intros _. apply lookup_delete_eq.
Qed.

Lemma spent_Record bs now t v rnd :
  t_probe t = true → t_valid t = true → of_key (t_key t) (spent t) bs →
  (Breakers_Record bs now t v rnd).1 = (Breakers_Admissible bs now (t_key t)).1.1.
Proof.
  intros Hp Hv Hk. apply of_key_lookup in Hk as (b & Hl & Hs).
  unfold Breakers_Record, Breakers_recordLocked, Breakers_Admissible. rewrite Hp, Hv, Hl. simpl.
  apply lookup_cur in Hl as [Hc Hk].
  pose proof (advanceLocked_micros now None bs b Hc) as (_ & _ & Hb' & _).
  assert (spent t (Breakers_advanceLocked bs b now).2) as [_ Hs'].
  { rewrite Hb'. eapply bstep_spent; [apply (bstep_advance _ now)|done]. }
  destruct (Breakers_advanceLocked bs b now) as [bs1 b1]; simpl in *.
  destruct (negb (bool_decide (b_state b1 = HalfOpen))); simpl; [done|].
  destruct (Z.eqb_spec (b_epoch b1) (t_epoch t)) as [He|]; simpl; [|done].
  by rewrite bool_decide_true by auto.
Qed.

(** A probe ticket acts at most once.  A ticket is acquired, and later handed back with a
    verdict or released, while the registration stays known; whatever runs in between and
    after, handing it to [Record] again has no effect beyond the lazy transitions that any query
    applies, and releasing it again does nothing. *)
Theorem ticket_acts_once p bs0 t0 now0 k bs1 chs t bs2 t2 now v rnd bs3 bs4 t4 now' v' rnd' :
  reachable p bs0 t0 → clock_le t0 now0 →
  Breakers_Acquire bs0 now0 k = (bs1, chs, (t, true)) → t_probe t = true →
  steps (keeps k) (bs1, now0) (bs2, t2) → clock_le t2 now →
  bs3 = (Breakers_Record bs2 now t v rnd).1 ∨ bs3 = (Breakers_Release bs2 t).1 →
  steps (keeps k) (bs3, now) (bs4, t4) →
  (Breakers_Record bs4 now' t v' rnd').1 = (Breakers_Admissible bs4 now' k).1.1 ∧
  bs_byID (Breakers_Release bs4 t).1 = bs_byID bs4.
Proof.
  intros Hr Hc0 Ha Hp Hs2 Hc2 H3 Hs4.
  destruct (Acquire_issued _ _ _ _ _ _ Ha Hp) as (Hk & Hv & Hi). rewrite <-Hk in *.
  assert (bs_ok (λ _, mono now0) bs1) as Hok1.
  { pose proof (run_op_ok (λ _, mono now0) bs0 now0 f0 (OAcquire (t_key t))) as Ho. cbn [run_op] in Ho. rewrite Ha in Ho.
    apply Ho; [simpl; lia|]. eapply bs_ok_mono; [|by eapply reachable_ok]. intros id; destruct Hc0; lia. }
  pose proof (steps_ok _ _ _ Hs2 Hok1) as Hok2. simpl in Hok2.
  pose proof (steps_of_key _ _ _ _ (issued_stable t) Hs2 Hok1 Hi) as Hi2. simpl in Hi2.
  assert (bs_ok (λ _, mono now) bs2) as Hok2' by (eapply bs_ok_mono; [|done]; intros id; destruct Hc2; simpl; lia).
  assert (bs_ok (λ _, mono now) bs3 ∧ of_key (t_key t) (spent t) bs3) as [Hok3 Hsp].
  { destruct H3 as [-> | ->]; split.
    - by apply (run_op_ok _ bs2 now rnd (ORecord t v)); [simpl; lia|].
    - by eapply Record_spent.
    - by apply (run_op_ok _ bs2 now rnd (ORelease t)).
    - by eapply Release_spent. }
  pose proof (steps_of_key _ _ _ _ (spent_stable t) Hs4 Hok3 Hsp) as Hsp4. simpl in Hsp4.
  split; [by apply spent_Record|]. apply of_key_lookup in Hsp4 as (b & Hl & [_ Ht]).
  unfold Breakers_Release. rewrite Hp, Hl. simpl. apply lookup_cur in Hl as [Hc _].
  destruct (_ && _) eqn:He; [|done]. apply andb_prop in He as [_ He%Z.eqb_eq]. simpl.
  rewrite delete_id by auto. unfold cur in Hc. apply insert_id. rewrite Hc. by destruct b.
Qed.

(** What a live probe's verdict does.  [b] is half-open, the ticket is of its open period
    and still outstanding.  OK counts a success, and the one that reaches ProbeSuccesses closes
    the breaker with a fresh window and streak; Fault and RatioFault reopen it for a new period
    with the next cool-down level (up to the cap), which makes every ticket of the old period
    stale; Neutral only gives the ticket back.  In each case the returned change is the transition. *)
Theorem probe_verdict bs now t v rnd b :
  Breakers_lookup bs (t_key t) = Some b → t_probe t = true → t_valid t = true →
  bs_pending bs = [] →
  b_state b = HalfOpen → b_epoch b = t_epoch t →
  b_tickets (breaker_advance b now (bs_p bs)).1 !! t_id t ≠ None →
  let r := Breakers_Record bs now t v rnd in
  ∃ b', Breakers_lookup r.1 (t_key t) = Some b' ∧
  match v with
  | OK =>
      if ProbeSuccesses (bs_p bs) <=? b_successes b + 1 then
        b_state b' = Closed ∧ b_streakLen b' = 0%nat ∧ b_win b' = slidingWindow_reset (b_win b) ∧
        r.2 = [mkChange (t_key t) HalfOpen Closed ReasonProbesPassed 0 0 false]
      else b_state b' = HalfOpen ∧ b_successes b' = b_successes b + 1 ∧ b_tickets b' !! t_id t = None ∧ r.2 = []
  | Fault | RatioFault =>
      b_state b' = Open ∧ b_epoch b' = b_epoch b + 1 ∧ b_tickets b' = ∅ ∧
      b_level b' = (if b_level b <? maxLevel (bs_p bs) then S (b_level b) else b_level b)%nat ∧
      b_coolDown b' = jittered (bs_p bs) (b_level b') rnd ∧ b_openUntil b' = Add now (b_coolDown b') ∧
      r.2 = [mkChange (t_key t) HalfOpen Open ReasonProbeFailed 0 (b_coolDown b') false]
  | Neutral => b_state b' = HalfOpen ∧ b_successes b' = b_successes b ∧ b_tickets b' !! t_id t = None ∧ r.2 = []
  end.
Proof.
  intros Hl Hp Hv Hpend Hs He Hlive. cbv zeta. unfold Breakers_Record, Breakers_recordLocked. rewrite Hp, Hv, Hl. simpl.
  apply lookup_cur in Hl as [Hc Hk].
  assert (∃ tk, breaker_advance b now (bs_p bs) = (b <| b_tickets := tk |>, None)) as [tk Hadv].
  { unfold breaker_advance. rewrite bool_decide_false by congruence. simpl.
    destruct (_ && _); [eexists; reflexivity|exists (b_tickets b); by destruct b]. }
  unfold Breakers_advanceLocked. rewrite Hadv in *. simpl in *. rewrite bool_decide_true by done. simpl.
  rewrite (proj2 (Z.eqb_eq _ _) He). simpl. rewrite bool_decide_false by done.
  assert (∀ bs' b', bs_byID bs' !! key_ID (t_key t) = Some b' → b_key b' = t_key t →
                    Breakers_lookup bs' (t_key t) = Some b') as Hlook.
  { intros bs' b' Hx Hkx. unfold Breakers_lookup. rewrite Hx. by rewrite bool_decide_true. }
  destruct v; unfold Breakers_reopen.
  - eexists. split; [apply Hlook; [simpl; rewrite <-Hk; apply lookup_insert_eq|done]|]. simpl.
    by rewrite lookup_delete_eq.
  - simpl. destruct (_ <=? _); (eexists; split; [apply Hlook; [simpl; rewrite <-Hk; apply lookup_insert_eq|done]|]); simpl.
    + by rewrite Hpend, Hk.
    + by rewrite lookup_delete_eq, Hpend.
  - eexists. split; [apply Hlook; [simpl; rewrite <-Hk; apply lookup_insert_eq|done]|]. simpl.
    by rewrite Hpend, Hk.
  - eexists. split; [apply Hlook; [simpl; rewrite <-Hk; apply lookup_insert_eq|done]|]. simpl.
    by rewrite Hpend, Hk.
Qed.
End properties.

(** ** Concrete runs. *)

Definition clock_leb (a b : Time) : bool := (wall a <=? wall b) && (mono a <=? mono b).

Lemma clock_leb_le a b : clock_leb a b = true → clock_le a b.
Proof. unfold clock_leb, clock_le. intros. bprop. done. Qed.

Section run_ops.
Context `{GoPlatform} `{GoMapOrder}.

(** A run given as a list of clock readings, draws and operations; [None] when the clock steps back. *)
Fixpoint run_ops (x : Breakers * Time) (l : list (Time * float64 * op)) : option (Breakers * Time) :=
  match l with
  | [] => Some x
  | (now, rnd, o) :: l => if clock_leb x.2 now then run_ops (run_op x.1 now rnd o, now) l else None
  end.

Lemma steps_app P x y z : steps P x y → steps P y z → steps P x z.
Proof. intros Hxy Hyz. induction Hyz; [done|]. econstructor; eauto. Qed.

Lemma run_ops_steps P l : ∀ x y, run_ops x l = Some y → Forall (λ e, P e.2) l → steps P x y.
Proof.
  induction l as [|[[now rnd] o] l IH]; intros [bs t] y Hr Hf; simpl in Hr.
  - injection Hr as <-. constructor.
  - destruct (clock_leb t now) eqn:Hc; [|done]. apply Forall_cons in Hf as [Ho Hf].
    eapply steps_app; [|by apply IH]. econstructor; [constructor|by apply clock_leb_le|done].
Qed.

Lemma run_ops_reachable p l bs t t0 : run_ops (NewBreakers p, t0) l = Some (bs, t) → reachable p bs t.
Proof. intros Hr. exists t0. eapply run_ops_steps; [done|]. by apply Forall_forall. Qed.
End run_ops.

(** Two workers of one model; five faults open the first, and the second's trip is held back. *)
Definition ex_k1 : Key := mkKey "w1" 11.
Definition ex_k2 : Key := mkKey "w2" 12.
Definition ex_t (k : Key) (epoch : Z) : Ticket := mkTicket k 0 epoch false true.
Definition ex_sync : op := OSync [mkMember ex_k1 "m" true; mkMember ex_k2 "m" true].
Definition ex_half : float64 := flit 5 1.
Definition ex_faults (k : Key) (from : Z) : list (Time * float64 * op) :=
  (λ i, (at_s (from + Z.of_nat i), ex_half, ORecord (ex_t k 0) Fault)) <$> seq 0 5.
Definition ex_state (l : list (Time * float64 * op)) : Breakers * Time :=
  default (NewBreakers default_params, at_s 0) (@run_ops amd64 order_id (NewBreakers default_params, at_s 0) l).

Definition ex_run1 : list (Time * float64 * op) := (at_s 0, ex_half, ex_sync) :: ex_faults ex_k1 1.
Definition ex_run2 : list (Time * float64 * op) := ex_run1 ++ ex_faults ex_k2 6.

Lemma ejection_cap_witness :
  ejected_count "m" (ex_state ex_run2).1 = 1 ∧ eligible_count "m" (ex_state ex_run2).1 = 2 ∧
  ejected_count "m" (ex_state ex_run2).1
  ≤ Z.max 0 (@MaxOpen amd64 (MaxOpenFraction default_params) (eligible_count "m" (ex_state ex_run2).1)).
Proof.
  split; [vm_compute; reflexivity|]. split; [vm_compute; reflexivity|].
  apply (@ejection_cap amd64 order_id default_params _ (ex_state ex_run2).2 "m").
  apply (@run_ops_reachable amd64 order_id default_params ex_run2 _ _ (at_s 0)). vm_compute. reflexivity.
Defined.

Definition ex_solo : list (Time * float64 * op) :=
  (at_s 0, ex_half, OSync [mkMember ex_k1 "m" true; mkMember ex_k2 "n" true]) :: ex_faults ex_k1 1.

Lemma sole_worker_never_ejected_witness :
  (@Breakers_Admissible (ex_state ex_solo).1 (at_s 6) ex_k1).2 = true.
Proof.
  eapply (@sole_worker_never_ejected amd64 order_id default_params _ (ex_state ex_solo).2 ex_k1); cycle 1.
  - vm_compute. discriminate.
  - vm_compute. reflexivity.
  - vm_compute. reflexivity.
  - vm_compute. reflexivity.
  - apply (@run_ops_reachable amd64 order_id default_params ex_solo _ _ (at_s 0)). vm_compute. reflexivity.
Defined.

(** The first worker is open; ten minutes later, with traffic only on the second, it is
    admissible again. *)
Definition ex_quiet : list (Time * float64 * op) :=
  [(at_s 20, ex_half, ORecord (ex_t ex_k2 0) OK); (at_s 600, ex_half, OAcquire ex_k2)].

Lemma never_wedged_witness :
  (@Breakers_Admissible (ex_state ex_run1).1 (at_s 6) ex_k1).2 = false ∧
  (@Breakers_Admissible (ex_state (ex_run1 ++ ex_quiet)).1 (at_s 601) ex_k1).2 = true.
Proof.
  split; [vm_compute; reflexivity|].
  apply (@never_wedged amd64 order_id default_params (ex_state ex_run1).1 (ex_state ex_run1).2 _
           (ex_state (ex_run1 ++ ex_quiet)).2).
  - apply (@run_ops_reachable amd64 order_id default_params ex_run1 _ _ (at_s 0)). vm_compute. reflexivity.
  - apply (@run_ops_steps amd64 order_id _ ex_quiet); [vm_compute; reflexivity|].
    repeat constructor; vm_compute; discriminate.
  - vm_compute. discriminate.
  - vm_compute. reflexivity.
  - vm_compute. reflexivity.
Defined.

Definition ex_shrunk : Breakers :=
  @Breakers_recountEligible order_id (sync_member (ex_state ex_run1).1 (mkMember ex_k2 "m" false)).

Lemma ex_shrunk_ok : base_ok ex_shrunk.
Proof.
  assert (@bs_ok amd64 (λ _, mono (at_s 5)) (ex_state ex_run1).1) as [Hp Hb _ Hw].
  { apply (@reachable_ok amd64 order_id default_params).
    apply (@run_ops_reachable amd64 order_id default_params ex_run1 _ _ (at_s 0)). vm_compute. reflexivity. }
  apply recountEligible_ok.
  by destruct (sync_member_ok (λ _, mono (at_s 5)) _ (mkMember ex_k2 "m" false) Hp (ok_keys _ Hb) Hw) as (_ & Hk & _).
Qed.

Lemma enforceCap_keeps_oldest_witness :
  ejected_count "m" ex_shrunk = 1 ∧
  ejected_count "m" (@Breakers_enforceCap amd64 order_id ex_shrunk (at_s 7)) = 0.
Proof.
  split; [vm_compute; reflexivity|].
  rewrite (proj1 (@enforceCap_keeps_oldest amd64 order_id ex_shrunk (at_s 7) ex_shrunk_ok) "m").
  vm_compute. reflexivity.
Defined.

(** Half-open after 15 s, one probe out. *)
Definition ex_probe : list (Time * float64 * op) := ex_run1 ++ [(at_s 20, ex_half, OAcquire ex_k1)].
Definition ex_ticket : Ticket := mkTicket ex_k1 1 1 true true.

Lemma probes_bounded_witness :
  Z.of_nat (size (default ∅ (b_tickets <$> Breakers_lookup (ex_state ex_probe).1 ex_k1))) = 1 ∧ 1 ≤ 1.
Proof.
  split; [vm_compute; reflexivity|].
  apply (@probes_bounded amd64 order_id default_params (ex_state ex_probe).1 (ex_state ex_probe).2 ex_k1
           (default (newBreaker ex_k1 default_params) (Breakers_lookup (ex_state ex_probe).1 ex_k1))).
  - apply (@run_ops_reachable amd64 order_id default_params ex_probe _ _ (at_s 0)). vm_compute. reflexivity.
  - vm_compute. reflexivity.
Defined.

Definition ex_before : Breakers * Time := ex_state ex_run1.
Definition ex_acquired : Breakers := (Breakers_Acquire ex_before.1 (at_s 20) ex_k1).1.1.
Definition ex_recorded : Breakers := (@Breakers_Record amd64 order_id ex_acquired (at_s 21) ex_ticket Fault ex_half).1.

Lemma ticket_acts_once_witness :
  (@Breakers_Record amd64 order_id ex_recorded (at_s 22) ex_ticket Fault ex_half).1
  = (Breakers_Admissible ex_recorded (at_s 22) ex_k1).1.1.
Proof.
  apply (@ticket_acts_once amd64 order_id default_params ex_before.1 ex_before.2 (at_s 20) ex_k1 ex_acquired
           (Breakers_Acquire ex_before.1 (at_s 20) ex_k1).1.2 ex_ticket ex_acquired (at_s 20) (at_s 21) Fault ex_half
           ex_recorded ex_recorded (at_s 21)).
  - apply (@run_ops_reachable amd64 order_id default_params ex_run1 _ _ (at_s 0)). vm_compute. reflexivity.
  - vm_compute. intuition discriminate.
  - vm_compute. reflexivity.
  - reflexivity.
  - constructor.
  - vm_compute. intuition discriminate.
  - by left.
  - constructor.
Defined.

Lemma probe_verdict_witness :
  ∃ b', Breakers_lookup (@Breakers_Record amd64 order_id ex_acquired (at_s 21) ex_ticket OK ex_half).1 ex_k1 = Some b' ∧
        b_state b' = Closed.
Proof.
  destruct (@probe_verdict amd64 order_id ex_acquired (at_s 21) ex_ticket OK ex_half
    (default (newBreaker ex_k1 default_params) (Breakers_lookup ex_acquired ex_k1)))
    as (b' & Hl & Hs); try (vm_compute; reflexivity); [vm_compute; discriminate|].
  exists b'. split; [exact Hl|]. vm_compute in Hs. apply Hs.
Defined.
