(* ===== verification/Queue.v ===== *)
(** * The per-model admission queue (internal/resilience/queue.go)

    Requests that find every worker full wait in one FIFO per model; a freed slot is handed to
    the head waiter.  Every method runs under the queue's mutex and is one atomic step; the only
    thing outside it is a waiter's receive on its own channel, a step of its own.

    A waiter is a pointer: the state carries the heap of waiters ([q_heap], addressed by
    allocation number), and a model's list holds addresses.  A channel has a buffer of one; it
    is never full when [send] writes because [send] drains it first and only the mutex's holder
    sends, so [send] is an assignment. *)

From S2P Require Import Prelude GoFloat.

Local Open Scope string_scope.
Local Open Scope list_scope.
Local Open Scope Z_scope.

Definition ReasonGlobalLimit : string := "global_limit".
Definition ReasonQueueFull : string := "queue_full".
Definition ReasonQueueTimeout : string := "queue_timeout".
Definition ReasonDraining : string := "draining".

Inductive QueueErr := ErrNoQueue | ErrQueueFull | ErrTenantShare | ErrDraining.

#[global] Instance QueueErr_eq_dec : EqDecision QueueErr.
Proof. solve_decision. Defined.

(** [ShedReason] of the package's own errors; every other error (and nil) maps to "". *)
Definition ShedReason (err : option QueueErr) : string :=
  match err with
  | Some ErrQueueFull | Some ErrTenantShare | Some ErrNoQueue => ReasonQueueFull
  | Some ErrDraining => ReasonDraining
  | None => ""
  end.

Record QueueParams := mkQueueParams {
  MaxModelDepth : Z;
  MaxWait : Z;
  MaxTenantShare : float64;
  q_MaxModels : Z;
}.

Definition tenantCap `{GoPlatform} (p : QueueParams) : Z :=
  if fle (MaxTenantShare p) f0 || fle f1 (MaxTenantShare p) then 0
  else Z.max 1 (float_to_int (ffloor (fadd (fmul (MaxTenantShare p) (f64 (MaxModelDepth p))) (flit 1 9)))).

(** A grant carries its value only for a hand-off. *)
Inductive Grant (V : Type) := Handoff (v : V) | Reroute | Flushed.
Arguments Handoff {V}.
Arguments Reroute {V}.
Arguments Flushed {V}.

Record Waiter (V : Type) := mkWaiter {
  w_model : string;
  w_tenant : string;
  w_enqueued : Time;
  w_ch : option (Grant V);
  w_elem : bool;
  w_woken : bool;
  w_left : bool;
}.
Arguments mkWaiter {V}.
Arguments w_model {V}.
Arguments w_tenant {V}.
Arguments w_enqueued {V}.
Arguments w_ch {V}.
Arguments w_elem {V}.
Arguments w_woken {V}.
Arguments w_left {V}.

#[global] Instance Waiter_settable V : Settable (Waiter V) := {| eta_of := λ w,
  mkWaiter (w_model w) (w_tenant w) (w_enqueued w) (w_ch w) (w_elem w) (w_woken w) (w_left w) |}.

Record modelQueue := mkModelQueue {
  mq_waiters : list nat;
  mq_tenants : gmap string Z;
  mq_credit : Z;
}.

#[global] Instance modelQueue_settable : Settable modelQueue := {| eta_of := λ mq,
  mkModelQueue (mq_waiters mq) (mq_tenants mq) (mq_credit mq) |}.

Record Queue (V : Type) := mkQueue {
  q_p : QueueParams;
  q_models : gmap string modelQueue;
  q_closed : bool;
  q_ewma : float64;
  q_ewmaSet : bool;
  q_heap : gmap nat (Waiter V);
  q_next : nat;
}.
Arguments mkQueue {V}.
Arguments q_p {V}.
Arguments q_models {V}.
Arguments q_closed {V}.
Arguments q_ewma {V}.
Arguments q_ewmaSet {V}.
Arguments q_heap {V}.
Arguments q_next {V}.

#[global] Instance Queue_settable V : Settable (Queue V) := {| eta_of := λ q,
  mkQueue (q_p q) (q_models q) (q_closed q) (q_ewma q) (q_ewmaSet q) (q_heap q) (q_next q) |}.

Section queue.
Context {V : Type} `{GoPlatform}.
Implicit Types (q : Queue V) (w : Waiter V) (mq : modelQueue) (i : nat).

Definition NewQueue (p : QueueParams) : Queue V := mkQueue p ∅ false f0 false ∅ 0.

(** Field assignments through a waiter pointer. *)
Definition upd_waiter (q : Queue V) (i : nat) (f : Waiter V → Waiter V) : Queue V :=
  q <| q_heap := alter f i (q_heap q) |>.

Definition Waiter_send (q : Queue V) (i : nat) (g : Grant V) : Queue V :=
  upd_waiter q i (λ w, w <| w_ch := Some g |>).

Definition set_woken (q : Queue V) (i : nat) (b : bool) : Queue V :=
  upd_waiter q i (λ w, w <| w_woken := b |>).

Definition set_model (q : Queue V) (model : string) (mq : modelQueue) : Queue V :=
  q <| q_models := <[model := mq]> (q_models q) |>.

Definition woken (q : Queue V) (i : nat) : bool :=
  match q_heap q !! i with Some w => w_woken w | None => false end.

Definition Queue_Busy (q : Queue V) (model : string) : bool :=
  match q_models q !! model with Some mq => (0 <? length (mq_waiters mq))%nat | None => false end.

Definition Queue_Depth (q : Queue V) (model : string) : Z :=
  match q_models q !! model with Some mq => Z.of_nat (length (mq_waiters mq)) | None => 0 end.

Definition Queue_Depths (q : Queue V) : gmap string Z :=
  (λ mq, Z.of_nat (length (mq_waiters mq))) <$> q_models q.

Definition Queue_refuseLocked (q : Queue V) (model tenant : string) : option QueueErr :=
  if q_closed q then Some ErrDraining
  else if MaxModelDepth (q_p q) <=? 0 then Some ErrNoQueue
  else match q_models q !! model with
       | None =>
           if (0 <? q_MaxModels (q_p q)) && (q_MaxModels (q_p q) <=? Z.of_nat (size (q_models q)))
           then Some ErrNoQueue else None
       | Some mq =>
           if MaxModelDepth (q_p q) <=? Z.of_nat (length (mq_waiters mq)) then Some ErrQueueFull
           else
             let c := tenantCap (q_p q) in
             if (0 <? c) && negb (String.eqb tenant "") && (c <=? default 0 (mq_tenants mq !! tenant))
             then Some ErrTenantShare else None
       end.

Definition Queue_Refusal (q : Queue V) (model tenant : string) : option QueueErr :=
  Queue_refuseLocked q model tenant.

Definition Queue_Full (q : Queue V) (model tenant : string) : bool :=
  match Queue_refuseLocked q model tenant with Some _ => true | None => false end.

(** [Enqueue]: the new waiter's address, or the error. *)
Definition Queue_Enqueue (q : Queue V) (now : Time) (model tenant : string) : Queue V * (nat + QueueErr) :=
  match Queue_refuseLocked q model tenant with
  | Some err => (q, inr err)
  | None =>
      let mq := default (mkModelQueue [] ∅ 0) (q_models q !! model) in
      let i := q_next q in
      let tenants :=
        if String.eqb tenant "" then mq_tenants mq
        else <[tenant := default 0 (mq_tenants mq !! tenant) + 1]> (mq_tenants mq) in
      let mq := mkModelQueue (mq_waiters mq ++ [i]) tenants (mq_credit mq) in
      let q := q <| q_heap := <[i := mkWaiter model tenant now None true false false]> (q_heap q) |>
                 <| q_next := S i |> in
      (set_model q model mq, inl i)
  end.

(** The first waiter of the list that is not routing. *)
Definition first_idle (q : Queue V) (l : list nat) : option nat :=
  head (filter (λ i, woken q i = false) l).

(** [settle] with [self]; each round wakes a waiter, so one round per waiter is enough fuel. *)
Fixpoint settle_loop (fuel : nat) (q : Queue V) (model : string) (self : option nat) (selfRoutes : bool)
  : Queue V * bool :=
  match fuel with
  | O => (q, selfRoutes)
  | S fuel =>
      match q_models q !! model with
      | None => (q, selfRoutes)
      | Some mq =>
          if negb (0 <? mq_credit mq) then (q, selfRoutes)
          else
            match first_idle q (mq_waiters mq) with
            | None => (q, selfRoutes)
            | Some next =>
                let q := set_model q model (mq <| mq_credit := mq_credit mq - 1 |>) in
                let q := set_woken q next true in
                if bool_decide (self = Some next) then settle_loop fuel q model self true
                else settle_loop fuel (Waiter_send q next Reroute) model self selfRoutes
            end
      end
  end.

Definition settle (q : Queue V) (model : string) (self : option nat) : Queue V * bool :=
  match q_models q !! model with
  | Some mq => settle_loop (S (length (mq_waiters mq))) q model self false
  | None => (q, false)
  end.

Definition Queue_leaveLocked (q : Queue V) (i : nat) (settleAfter giveBack : bool) : Queue V :=
  match q_heap q !! i with
  | None => q
  | Some w =>
      let wasRouting := w_woken w in
      let q := upd_waiter q i (λ w, w <| w_left := true |> <| w_woken := false |>) in
      match q_models q !! w_model w with
      | None => q
      | Some mq =>
          if negb (w_elem w) then q
          else
            let waiters := filter (λ j, j ≠ i) (mq_waiters mq) in
            let q := upd_waiter q i (λ w, w <| w_elem := false |>) in
            let tenants :=
              if String.eqb (w_tenant w) "" then mq_tenants mq
              else
                let n := default 0 (mq_tenants mq !! w_tenant w) - 1 in
                if n <=? 0 then delete (w_tenant w) (mq_tenants mq)
                else <[w_tenant w := n]> (mq_tenants mq) in
            match waiters with
            | [] => q <| q_models := delete (w_model w) (q_models q) |>
            | _ =>
                let credit := if settleAfter && giveBack && wasRouting then mq_credit mq + 1 else mq_credit mq in
                let q := set_model q (w_model w) (mkModelQueue waiters tenants credit) in
                if settleAfter then (settle q (w_model w) None).1 else q
            end
      end
  end.

Definition Queue_Handoff (q : Queue V) (model : string) (value : V) : Queue V * bool :=
  match q_models q !! model with
  | None => (q, false)
  | Some mq =>
      match mq_waiters mq with
      | [] => (q, false)
      | h :: _ =>
          if woken q h then
            let q := set_model q model (mq <| mq_credit := mq_credit mq + 1 |>) in
            ((settle q model None).1, false)
          else (Waiter_send (Queue_leaveLocked q h false false) h (Handoff value), true)
      end
  end.

(** The loop of [Wake]. *)
Fixpoint wake_loop (q : Queue V) (n : Z) (count : Z) (l : list nat) : Queue V * Z :=
  match l with
  | [] => (q, count)
  | i :: l =>
      if negb (count <? n) then (q, count)
      else if woken q i then wake_loop q n count l
      else wake_loop (Waiter_send (set_woken q i true) i Reroute) n (count + 1) l
  end.

Definition Queue_Wake (q : Queue V) (model : string) (n : Z) : Queue V * Z :=
  match q_models q !! model with
  | None => (q, 0)
  | Some mq => if n <=? 0 then (q, 0) else wake_loop q n 0 (mq_waiters mq)
  end.

Definition Queue_Models `{GoMapOrder} (q : Queue V) : list string := (range_map (q_models q)).*1.

Definition Queue_Park (q : Queue V) (i : nat) : Queue V * bool :=
  match q_heap q !! i with
  | None => (q, false)
  | Some w =>
      if w_left w then (q, false)
      else
        let q := set_woken q i false in
        match q_models q !! w_model w with
        | None => (q, false)
        | Some _ => settle q (w_model w) (Some i)
        end
  end.

(** A non-blocking receive on the waiter's channel. *)
Definition take_grant (q : Queue V) (i : nat) : Queue V * option (Grant V) :=
  match q_heap q !! i with
  | Some w => (upd_waiter q i (λ w, w <| w_ch := None |>), w_ch w)
  | None => (q, None)
  end.

Definition Queue_leave (q : Queue V) (i : nat) (giveBack : bool) : Queue V * option (Grant V) :=
  match q_heap q !! i with
  | None => (q, None)
  | Some w =>
      if negb (w_left w) then
        let q := Queue_leaveLocked q i true giveBack in
        let '(q, g) := take_grant q i in
        (q, match g with Some Reroute => None | _ => g end)
      else
        let '(q, g) := take_grant q i in
        (q, match g with Some (Handoff _) => g | _ => None end)
  end.

(** [Done] drops what [leave] returns. *)
Definition Queue_Done (q : Queue V) (i : nat) : Queue V := (Queue_leave q i false).1.

Definition Queue_Leave (q : Queue V) (i : nat) : Queue V * option (Grant V) := Queue_leave q i true.

(** [Wait]: which case of the select fires is the scheduler's choice among the ready ones; a
    receive is ready when the channel holds a grant. *)
Inductive Outcome := Granted | TimedOut | ClientGone.
Inductive WaitCase := CaseReceive | CaseDone | CaseTimeout.

(** [None] when the chosen case is not ready. *)
Definition Queue_Wait (q : Queue V) (i : nat) (c : WaitCase) : option (Queue V * option (Grant V) * Outcome) :=
  match c with
  | CaseReceive =>
      match take_grant q i with
      | (q, Some g) => Some (q, Some g, Granted)
      | (_, None) => None
      end
  | CaseDone =>
      match Queue_Leave q i with
      | (q, Some g) => Some (q, Some g, Granted)
      | (q, None) => Some (q, None, ClientGone)
      end
  | CaseTimeout =>
      match Queue_Leave q i with
      | (q, Some g) => Some (q, Some g, Granted)
      | (q, None) => Some (q, None, TimedOut)
      end
  end.

(** The inner loop of [Flush]: it empties the front of the list; one round per waiter. *)
Fixpoint flush_loop (fuel : nat) (q : Queue V) (model : string) (n : Z) : Queue V * Z :=
  match fuel with
  | O => (q, n)
  | S fuel =>
      match q_models q !! model with
      | Some mq =>
          match mq_waiters mq with
          | [] => (q, n)
          | i :: _ => flush_loop fuel (Waiter_send (Queue_leaveLocked q i false false) i Flushed) model (n + 1)
          end
      | None => (q, n)
      end
  end.

Definition Queue_Flush `{GoMapOrder} (q : Queue V) (model : string) : Queue V * Z :=
  foldl (λ '(q, n) '(m, mq),
           if negb (String.eqb model "") && negb (String.eqb m model) then (q, n)
           else flush_loop (length (mq_waiters mq)) q m n)
        (q, 0) (range_map (q_models q)).

Definition Queue_Close (q : Queue V) : Queue V := q <| q_closed := true |>.

Definition Queue_ObserveWait (q : Queue V) (d : Z) : Queue V :=
  let s := Seconds d in
  if negb (q_ewmaSet q) then q <| q_ewma := s |> <| q_ewmaSet := true |>
  else q <| q_ewma := fadd (fmul (flit 2 1) s) (fmul (flit 8 1) (q_ewma q)) |>.

Definition Queue_RetryAfter (q : Queue V) : Z :=
  if negb (q_ewmaSet q) then 1
  else Z.min (Z.max (float_to_int (fceil (fsub (q_ewma q) (flit 1 9)))) 1) 10.

Definition Queue_RetryAfterSeconds (q : Queue V) (reason : string) : Z :=
  if String.eqb reason ReasonQueueFull || String.eqb reason ReasonQueueTimeout then Queue_RetryAfter q else 1.
End queue.
