(* ===== verification/QueueSpec.v ===== *)
(** * What the admission queue promises

    Runs of the queue interleave its methods with the receives of the waiters' goroutines.  The
    ghost set [R] holds the waiters that have been told to route (they received a [Reroute], or
    [Park] told them to route again) and have not reported back; [Park] and [Done] are for them.

    The main results: the structure of the queue (depth, tenant shares, FIFO order), the waiter
    state machine (no wake-up is lost), and the conservation of handed-off slots. *)

From stdpp Require Import relations sorting.
From S2P Require Import Prelude GoFloat Queue.

Local Open Scope string_scope.
Local Open Scope list_scope.
Local Open Scope Z_scope.

Section spec.
Context {V : Type} `{GoPlatform} `{GoMapOrder}.
Implicit Types (q : Queue V) (w : Waiter V) (mq : modelQueue) (i : nat) (R : gset nat).

(** ** The structure. *)

Definition tenant_is q (t : string) i : bool :=
  match q_heap q !! i with Some w => String.eqb (w_tenant w) t | None => false end.

Record structure q : Prop := {
  s_next : ∀ i w, q_heap q !! i = Some w → (i < q_next q)%nat;
  s_in : ∀ m mq i, q_models q !! m = Some mq → i ∈ mq_waiters mq →
    ∃ w, q_heap q !! i = Some w ∧ w_model w = m ∧ w_left w = false;
  s_queued : ∀ i w, q_heap q !! i = Some w → w_left w = false →
    ∃ mq, q_models q !! w_model w = Some mq ∧ i ∈ mq_waiters mq;
  s_elem : ∀ i w, q_heap q !! i = Some w → w_elem w = negb (w_left w);
  s_sorted : ∀ m mq, q_models q !! m = Some mq → StronglySorted lt (mq_waiters mq);
  s_nonempty : ∀ m mq, q_models q !! m = Some mq → mq_waiters mq ≠ [];
  s_depth : ∀ m mq, q_models q !! m = Some mq → Z.of_nat (length (mq_waiters mq)) ≤ MaxModelDepth (q_p q);
  s_models : 0 < q_MaxModels (q_p q) → Z.of_nat (size (q_models q)) ≤ q_MaxModels (q_p q);
  s_tenants : ∀ m mq t, q_models q !! m = Some mq → t ≠ "" →
    default 0 (mq_tenants mq !! t) = countb (tenant_is q t) (mq_waiters mq);
  s_share : ∀ m mq t, q_models q !! m = Some mq → t ≠ "" → 0 < tenantCap (q_p q) →
    countb (tenant_is q t) (mq_waiters mq) ≤ tenantCap (q_p q);
}.

(** The fields the structure depends on. *)
Definition skel w : string * string * bool * bool := (w_model w, w_tenant w, w_elem w, w_left w).
Definition shape mq : list nat * gmap string Z := (mq_waiters mq, mq_tenants mq).

Record same q q' : Prop := {
  same_p : q_p q' = q_p q;
  same_next : q_next q' = q_next q;
  same_heap : skel <$> q_heap q' = skel <$> q_heap q;
  same_models : shape <$> q_models q' = shape <$> q_models q;
}.

Lemma same_refl q : same q q.
Proof. done. Qed.

Lemma same_trans q1 q2 q3 : same q1 q2 → same q2 q3 → same q1 q3.
Proof. intros [] []. split; congruence. Qed.

Lemma fmap_eq_lookup {K A B} `{Countable K} (f : A → B) (m1 m2 : gmap K A) k x :
  f <$> m1 = f <$> m2 → m1 !! k = Some x → ∃ y, m2 !! k = Some y ∧ f y = f x.
Proof.
  intros Heq Hk. assert ((f <$> m1) !! k = (f <$> m2) !! k) as Hl by by rewrite Heq.
  rewrite !lookup_fmap, Hk in Hl. destruct (m2 !! k) as [y|]; [|done]. exists y. by injection Hl as ->.
Qed.

Lemma same_waiter q q' i w : same q q' → q_heap q' !! i = Some w →
  ∃ w0, q_heap q !! i = Some w0 ∧ w_model w0 = w_model w ∧ w_tenant w0 = w_tenant w ∧
        w_elem w0 = w_elem w ∧ w_left w0 = w_left w.
Proof.
  intros [_ _ Hh _] Hw. destruct (fmap_eq_lookup _ _ _ _ _ Hh Hw) as (w0 & Hw0 & Heq).
  injection Heq as ????. eauto 10.
Qed.

Lemma same_model q q' m mq : same q q' → q_models q' !! m = Some mq →
  ∃ mq0, q_models q !! m = Some mq0 ∧ mq_waiters mq0 = mq_waiters mq ∧ mq_tenants mq0 = mq_tenants mq.
Proof.
  intros [_ _ _ Hm] Hq. destruct (fmap_eq_lookup _ _ _ _ _ Hm Hq) as (mq0 & Hq0 & Heq).
  injection Heq as ??. eauto.
Qed.

Lemma same_sym q q' : same q q' → same q' q.
Proof. intros []. by split. Qed.

Lemma same_tenant_is q q' t i : same q q' → tenant_is q' t i = tenant_is q t i.
Proof.
  intros Hs. unfold tenant_is. destruct (q_heap q' !! i) as [w|] eqn:Hw.
  - destruct (same_waiter _ _ _ _ Hs Hw) as (w0 & -> & _ & -> & _). done.
  - destruct (q_heap q !! i) as [w|] eqn:Hw0; [|done].
    destruct (same_waiter _ _ _ _ (same_sym _ _ Hs) Hw0) as (w1 & Hw1 & _). congruence.
Qed.

Lemma same_structure q q' : same q q' → structure q → structure q'.
Proof.
  intros Hs []. pose proof Hs as [Hp Hn _ Hms]. split.
  - intros i w Hw. rewrite Hn. destruct (same_waiter _ _ _ _ Hs Hw) as (w0 & Hw0 & _). eauto.
  - intros m mq i Hm Hi. destruct (same_model _ _ _ _ Hs Hm) as (mq0 & Hm0 & Hl & _). rewrite <-Hl in Hi.
    destruct (s_in0 _ _ _ Hm0 Hi) as (w & Hw & Hwm & Hwl).
    destruct (same_waiter _ _ _ _ (same_sym _ _ Hs) Hw) as (w' & Hw' & ? & _ & _ & ?). exists w'. naive_solver congruence.
  - intros i w Hw Hl. destruct (same_waiter _ _ _ _ Hs Hw) as (w0 & Hw0 & Hwm & _ & _ & Hwl).
    destruct (s_queued0 _ _ Hw0) as (mq & Hm & Hi); [congruence|].
    destruct (same_model _ _ _ _ (same_sym _ _ Hs) Hm) as (mq' & Hm' & Hl' & _). exists mq'. split; congruence.
  - intros i w Hw. destruct (same_waiter _ _ _ _ Hs Hw) as (w0 & Hw0 & _ & _ & He & Hl).
    rewrite <-He, <-Hl. eauto.
  - intros m mq Hm. destruct (same_model _ _ _ _ Hs Hm) as (mq0 & Hm0 & <- & _). eauto.
  - intros m mq Hm. destruct (same_model _ _ _ _ Hs Hm) as (mq0 & Hm0 & <- & _). eauto.
  - intros m mq Hm. destruct (same_model _ _ _ _ Hs Hm) as (mq0 & Hm0 & <- & _). rewrite Hp. eauto.
  - rewrite Hp. assert (size (q_models q') = size (q_models q)) as ->; [|done].
    rewrite <-(map_size_fmap shape (q_models q')), Hms. apply map_size_fmap.
  - intros m mq t Hm Ht. destruct (same_model _ _ _ _ Hs Hm) as (mq0 & Hm0 & <- & <-).
    rewrite (s_tenants0 m) by done. apply countb_ext. intros. symmetry. by apply same_tenant_is.
  - intros m mq t Hm Ht Hc. destruct (same_model _ _ _ _ Hs Hm) as (mq0 & Hm0 & <- & _). rewrite Hp in *.
    rewrite (countb_ext _ (tenant_is q t)); [eauto|]. intros. by apply same_tenant_is.
Qed.

(** Writes that leave the structure alone. *)
Lemma upd_same q i f : (∀ w, skel (f w) = skel w) → same q (upd_waiter q i f).
Proof.
  intros Hf. split; try done. simpl. apply map_eq. intros j. rewrite !lookup_fmap, lookup_alter.
  case_decide; [|done]. subst. destruct (q_heap q !! j); simpl; [|done]. by rewrite Hf.
Qed.

Lemma set_credit_same q m mq c :
  q_models q !! m = Some mq → same q (set_model q m (mq <| mq_credit := c |>)).
Proof.
  intros Hm. split; try done. simpl. apply map_eq. intros k. rewrite !lookup_fmap, lookup_insert.
  case_decide; [|done]. subst. by rewrite Hm.
Qed.

Lemma set_woken_same q i b : same q (set_woken q i b).
Proof. by apply upd_same. Qed.

Lemma send_same q i g : same q (Waiter_send q i g).
Proof. by apply upd_same. Qed.

Lemma take_grant_same q i : same q (take_grant q i).1.
Proof. unfold take_grant. destruct (q_heap q !! i); [by apply upd_same|done]. Qed.

(** ** The waiter state machine.

    A queued waiter is idle, told to route (the [Reroute] is in its channel), or routing; a
    waiter that left may still find a hand-off or a flush in its channel. *)

Inductive phase (R : gset nat) (i : nat) (w : Waiter V) : Prop :=
| ph_idle : w_left w = false → w_woken w = false → w_ch w = None → i ∉ R → phase R i w
| ph_told : w_left w = false → w_woken w = true → w_ch w = Some Reroute → i ∉ R → phase R i w
| ph_routing : w_left w = false → w_woken w = true → w_ch w = None → i ∈ R → phase R i w
| ph_left : w_left w = true → w_woken w = false → (i ∈ R → ∀ v, w_ch w ≠ Some (Handoff v)) → phase R i w.

Definition phases R q : Prop := ∀ i w, q_heap q !! i = Some w → phase R i w.

(** A missed slot is owed only while the front of the queue is routing or told to. *)
Definition credit_ok q mq : Prop :=
  0 ≤ mq_credit mq ∧
  (0 < mq_credit mq → ∃ l1 l2, mq_waiters mq = l1 ++ l2 ∧ l1 ≠ [] ∧
     Forall (λ i, woken q i = true) l1 ∧ Forall (λ i, woken q i = false) l2).

Definition credits (except : option string) q : Prop :=
  ∀ m mq, q_models q !! m = Some mq → Some m ≠ except → credit_ok q mq.

(** ** The slots in the channels. *)

Definition held w : list V := match w_ch w with Some (Handoff v) => [v] | _ => [] end.

Definition pending q : list V := (map_to_list (q_heap q)).*2 ≫= held.

Lemma pending_upd q i w : q_heap q !! i = Some w →
  ∃ rest, pending q ≡ₚ held w ++ rest ∧ ∀ f, pending (upd_waiter q i f) ≡ₚ held (f w) ++ rest.
Proof.
  intros Hw. exists ((map_to_list (delete i (q_heap q))).*2 ≫= held). unfold pending. split.
  - rewrite <-(insert_delete_id (q_heap q) i w Hw) at 1.
    by rewrite (map_to_list_insert _ _ _ (lookup_delete_eq _ _)).
  - intros f. simpl. assert (alter f i (q_heap q) = <[i := f w]> (delete i (q_heap q))) as ->.
    { apply map_eq. intros j. rewrite lookup_alter, lookup_insert, lookup_delete. repeat case_decide; try done.
      subst. by rewrite Hw. }
    by rewrite (map_to_list_insert _ _ _ (lookup_delete_eq _ _)).
Qed.

Lemma pending_same_held q i f : (∀ w, q_heap q !! i = Some w → held (f w) = held w) → pending (upd_waiter q i f) ≡ₚ pending q.
Proof.
  intros Hf. destruct (q_heap q !! i) as [w|] eqn:Hw.
  - destruct (pending_upd q i w Hw) as (rest & Hp & Hu). by rewrite Hu, Hp, Hf.
  - unfold pending. simpl. by rewrite alter_id by (intros; congruence).
Qed.

(** ** Telling waiters to route. *)

Lemma phase_R R R' i w : (i ∈ R' ↔ i ∈ R) → phase R i w → phase R' i w.
Proof.
  intros HR []; [apply ph_idle|apply ph_told|apply ph_routing|apply ph_left]; try done; tauto.
Qed.

Lemma phases_upd R R' q i f :
  phases R q → (∀ w, q_heap q !! i = Some w → phase R' i (f w)) → (∀ j, j ≠ i → j ∈ R' ↔ j ∈ R) →
  phases R' (upd_waiter q i f).
Proof.
  intros Hph Hi HR j w. simpl. rewrite lookup_alter. case_decide as Hji.
  - subst j. destruct (q_heap q !! i) as [w0|] eqn:Hw; [|done]. simpl. intros [= <-]. eauto.
  - intros Hw. eapply phase_R; [by apply HR|by apply Hph].
Qed.

Lemma woken_upd q i f j :
  woken (upd_waiter q i f) j
  = match q_heap q !! j with Some w => if decide (i = j) then w_woken (f w) else w_woken w | None => false end.
Proof.
  unfold woken. simpl. rewrite lookup_alter. case_decide as Hij; subst; destruct (q_heap q !! j); simpl; try done.
Qed.

Lemma woken_upd_ne q i f j : i ≠ j → woken (upd_waiter q i f) j = woken q j.
Proof. intros Hne. rewrite woken_upd. unfold woken. destruct (q_heap q !! j); [|done]. by rewrite decide_False. Qed.

Definition tell q i : Queue V := Waiter_send (set_woken q i true) i Reroute.

Lemma idle_phase R q i w :
  phases R q → q_heap q !! i = Some w → w_left w = false → w_woken w = false → w_ch w = None ∧ i ∉ R.
Proof. intros Hph Hw Hl Hwk. destruct (Hph _ _ Hw); try congruence; done. Qed.

Lemma tell_spec R q i w :
  phases R q → q_heap q !! i = Some w → w_left w = false → w_woken w = false →
  same q (tell q i) ∧ phases R (tell q i) ∧ pending (tell q i) ≡ₚ pending q ∧
  q_models (tell q i) = q_models q ∧ woken (tell q i) i = true ∧ (∀ j, j ≠ i → q_heap (tell q i) !! j = q_heap q !! j).
Proof.
  intros Hph Hw Hl Hwk. destruct (idle_phase _ _ _ _ Hph Hw Hl Hwk) as [Hch HR].
  assert (tell q i = upd_waiter q i (λ w, w <| w_woken := true |> <| w_ch := Some Reroute |>)) as Htell.
  { unfold tell, Waiter_send, set_woken, upd_waiter. unfold rset; simpl. by rewrite alter_alter_eq. }
  rewrite Htell. split_and!.
  - by apply upd_same.
  - eapply phases_upd; [done| |done]. intros w0 Hw0. simplify_eq. by apply ph_told.
  - apply pending_same_held. intros w0 Hw0. simplify_eq. unfold held. simpl. by rewrite Hch.
  - done.
  - rewrite woken_upd, Hw. by rewrite decide_True.
  - intros j Hj. simpl. by rewrite lookup_alter_ne.
Qed.

(** A waiter that learns from [Park]'s result, not from its channel. *)
Lemma self_spec R q i w :
  phases R q → q_heap q !! i = Some w → w_left w = false → w_woken w = false →
  let q' := set_woken q i true in
  same q q' ∧ phases ({[i]} ∪ R) q' ∧ pending q' ≡ₚ pending q ∧
  q_models q' = q_models q ∧ woken q' i = true ∧ (∀ j, j ≠ i → q_heap q' !! j = q_heap q !! j).
Proof.
  intros Hph Hw Hl Hwk. destruct (idle_phase _ _ _ _ Hph Hw Hl Hwk) as [Hch HR]. cbv zeta. split_and!.
  - apply set_woken_same.
  - eapply phases_upd; [done| |set_solver]. intros w0 Hw0. simplify_eq. apply ph_routing; try done. set_solver.
  - apply pending_same_held. done.
  - done.
  - unfold set_woken. rewrite woken_upd, Hw. by rewrite decide_True.
  - intros j Hj. simpl. by rewrite lookup_alter_ne.
Qed.

Lemma woken_heap q q' j : q_heap q' !! j = q_heap q !! j → woken q' j = woken q j.
Proof. unfold woken. by intros ->. Qed.

Lemma first_idle_spec q l :
  match first_idle q l with
  | Some i => i ∈ l ∧ woken q i = false
  | None => Forall (λ i, woken q i = true) l
  end.
Proof.
  unfold first_idle. destruct (filter _ l) as [|i l'] eqn:Hf; simpl.
  - apply Forall_forall. intros i Hi. destruct (woken q i) eqn:Hw; [done|].
    assert (i ∈ filter (λ i, woken q i = false) l) as Hin by by apply list_elem_of_filter. rewrite Hf in Hin. set_solver.
  - assert (i ∈ filter (λ i, woken q i = false) l) as Hin by (rewrite Hf; constructor).
    by apply list_elem_of_filter in Hin as [].
Qed.

Definition idle_count q (l : list nat) : Z := countb (λ i, negb (woken q i)) l.

Lemma idle_count_wake q q' l i :
  NoDup l → i ∈ l → woken q i = false → woken q' i = true → (∀ j, j ≠ i → woken q' j = woken q j) →
  idle_count q l = 1 + idle_count q' l.
Proof.
  intros Hnd Hi Hw Hw' Hj. apply (countb_off _ _ _ i); [done|done|by rewrite Hw|by rewrite Hw'|].
  intros j _ Hji. by rewrite Hj.
Qed.

(** A change confined to the wake-ups and the credit of one model. *)
Record confined (m : string) q q' : Prop := {
  cf_same : same q q';
  cf_pending : pending q' ≡ₚ pending q;
  cf_models : ∀ m', m' ≠ m → q_models q' !! m' = q_models q !! m';
  cf_heap : ∀ j, (∀ mq, q_models q !! m = Some mq → j ∉ mq_waiters mq) → q_heap q' !! j = q_heap q !! j;
}.

Lemma confined_refl m q : confined m q q.
Proof. by split. Qed.

Lemma confined_trans m q1 q2 q3 : confined m q1 q2 → confined m q2 q3 → confined m q1 q3.
Proof.
  intros [Hs1 Hp1 Hm1 Hw1] [Hs2 Hp2 Hm2 Hw2]. split.
  - by eapply same_trans.
  - by rewrite Hp2.
  - intros m' Hm'. rewrite Hm2 by done. by apply Hm1.
  - intros j Hj. rewrite Hw2, Hw1; [done|done|]. intros mq Hmq.
    destruct (same_model _ _ _ _ Hs1 Hmq) as (mq0 & Hmq0 & <- & _). eauto.
Qed.

Lemma disjoint_models q m m' mq mq' i :
  structure q → q_models q !! m = Some mq → q_models q !! m' = Some mq' → m ≠ m' →
  i ∈ mq_waiters mq → i ∉ mq_waiters mq'.
Proof.
  intros [_ Hin _ _ _ _ _ _ _ _] Hm Hm' Hne Hi Hi'.
  destruct (Hin _ _ _ Hm Hi) as (w & Hw & Hwm & _). destruct (Hin _ _ _ Hm' Hi') as (w' & Hw' & Hwm' & _).
  congruence.
Qed.

Lemma credit_ok_ext q q' mq :
  (∀ i, i ∈ mq_waiters mq → woken q' i = woken q i) → credit_ok q mq → credit_ok q' mq.
Proof.
  intros Hw [Hc Hp]. split; [done|]. intros Hpos. destruct (Hp Hpos) as (l1 & l2 & Hl & Hne & H1 & H2).
  exists l1, l2. rewrite Hl in Hw. split_and!; [done|done|..].
  - apply Forall_forall. intros i Hi. rewrite Hw by set_solver. by eapply Forall_forall in H1.
  - apply Forall_forall. intros i Hi. rewrite Hw by set_solver. by eapply Forall_forall in H2.
Qed.

Lemma confined_credits m q q' : structure q → confined m q q' → credits (Some m) q → credits (Some m) q'.
Proof.
  intros Hst [Hs _ Hm Hw] Hc m' mq' Hq Hne. assert (m' ≠ m) as Hne' by congruence. rewrite Hm in Hq by done.
  apply (credit_ok_ext q); [|by eapply Hc]. intros i Hi. apply woken_heap, Hw. intros mq Hmq.
  by eapply (disjoint_models q m' m).
Qed.

Definition Rof (self : option nat) (selfRoutes : bool) R : gset nat :=
  match self with Some i => if selfRoutes then {[i]} ∪ R else R | None => R end.

(** One round of [settle]. *)
Lemma settle_round R q m mq next (to_self : bool) :
  structure q → phases R q → q_models q !! m = Some mq → first_idle q (mq_waiters mq) = Some next →
  let q1 := set_model q m (mq <| mq_credit := mq_credit mq - 1 |>) in
  let q2 := if to_self then set_woken q1 next true else Waiter_send (set_woken q1 next true) next Reroute in
  confined m q q2 ∧ phases (if to_self then {[next]} ∪ R else R) q2 ∧
  q_models q2 !! m = Some (mq <| mq_credit := mq_credit mq - 1 |>) ∧
  idle_count q (mq_waiters mq) = 1 + idle_count q2 (mq_waiters mq).
Proof.
  intros Hst Hph Hm Hf. pose proof (first_idle_spec q (mq_waiters mq)) as Hfi. rewrite Hf in Hfi.
  destruct Hfi as [Hin Hwk]. destruct (s_in _ Hst _ _ _ Hm Hin) as (w & Hw & _ & Hl).
  assert (w_woken w = false) as Hww by (unfold woken in Hwk; by rewrite Hw in Hwk).
  cbv zeta. set (q1 := set_model q m _).
  assert (same q q1) as Hs1 by by apply set_credit_same.
  assert (phases R q1) as Hph1 by done.
  assert (NoDup (mq_waiters mq)) as Hnd.
  { apply sorted_lt_NoDup. by eapply s_sorted. }
  set (q2 := if to_self then _ else _).
  assert (same q1 q2 ∧ phases (if to_self then {[next]} ∪ R else R) q2 ∧ pending q2 ≡ₚ pending q1 ∧
          q_models q2 = q_models q1 ∧ woken q2 next = true ∧ (∀ j, j ≠ next → q_heap q2 !! j = q_heap q1 !! j))
    as (Hs2 & Hph2 & Hp2 & Hm2 & Hw2 & Hj2).
  { subst q2. destruct to_self; [by eapply self_spec|by eapply tell_spec]. }
  split_and!; [|done|rewrite Hm2; apply lookup_insert_eq|].
  2: { eapply idle_count_wake; try done. intros j Hj. by apply (woken_heap q1), Hj2. }
  split; [by eapply same_trans|done| |].
  - intros m' Hm'. rewrite Hm2. by apply lookup_insert_ne.
  - intros j Hj. apply (Hj2 j). intros ->. by eapply Hj.
Qed.

(** [settle] ends with no credit, or with every waiter of the model told to route. *)
Lemma settle_loop_spec fuel : ∀ R q m mq self sr q' sr',
  structure q → phases (Rof self sr R) q → credits (Some m) q → q_models q !! m = Some mq →
  0 ≤ mq_credit mq → idle_count q (mq_waiters mq) < Z.of_nat fuel →
  settle_loop fuel q m self sr = (q', sr') →
  confined m q q' ∧ phases (Rof self sr' R) q' ∧ credits None q' ∧
  ∃ mq', q_models q' !! m = Some mq' ∧ (mq_credit mq' = 0 ∨ Forall (λ i, woken q' i = true) (mq_waiters mq')).
Proof.
  induction fuel as [|fuel IH]; intros R q m mq self sr q' sr' Hst Hph Hcr Hm Hc Hfuel Hs; simpl in Hs.
  { pose proof (countb_nonneg (λ i, negb (woken q i)) (mq_waiters mq)). unfold idle_count in Hfuel. lia. }
  assert (∀ mq', q_models q !! m = Some mq' → credit_ok q mq' → credits None q) as Hall.
  { intros mq' Hm' Hok m1 mq1 Hq1 _. destruct (decide (m1 = m)) as [->|Hne]; [congruence|].
    eapply Hcr; [done|congruence]. }
  rewrite Hm in Hs. destruct (Z.ltb_spec 0 (mq_credit mq)) as [Hpos|Hzero]; simpl in Hs.
  2: { injection Hs as <- <-. split_and!; [apply confined_refl|done| |exists mq; split; [done|left; lia]].
       eapply Hall; [done|]. split; [done|lia]. }
  pose proof (first_idle_spec q (mq_waiters mq)) as Hfi.
  destruct (first_idle q (mq_waiters mq)) as [next|] eqn:Hf.
  2: { injection Hs as <- <-. split_and!; [apply confined_refl|done| |exists mq; by split; [|right]].
       eapply Hall; [done|]. split; [done|]. intros _. exists (mq_waiters mq), [].
       rewrite app_nil_r. split_and!; [done|by eapply s_nonempty|done|constructor]. }
  set (q1 := set_model q m (mq <| mq_credit := mq_credit mq - 1 |>)) in *.
  destruct (bool_decide_reflect (self = Some next)) as [->|Hns].
  - destruct (settle_round _ q m mq next true Hst Hph Hm Hf) as (Hcf & Hph2 & Hm2 & Hic). fold q1 in Hcf, Hph2, Hm2, Hic.
    eapply (IH R) in Hs as (Hcf' & Hrest); [|by eapply same_structure; [apply Hcf|]| |by eapply confined_credits|done|simpl; lia|simpl; lia].
    + split; [by eapply confined_trans|done].
    + intros j w Hw. eapply phase_R; [|by apply Hph2]. simpl. destruct sr; set_solver.
  - destruct (settle_round _ q m mq next false Hst Hph Hm Hf) as (Hcf & Hph2 & Hm2 & Hic). fold q1 in Hcf, Hph2, Hm2, Hic.
    eapply (IH R) in Hs as (Hcf' & Hrest); [|by eapply same_structure; [apply Hcf|]|done|by eapply confined_credits|done|simpl; lia|simpl; lia].
    split; [by eapply confined_trans|done].
Qed.

Lemma settle_spec R q m mq self q' sr' :
  structure q → phases R q → credits (Some m) q → q_models q !! m = Some mq → 0 ≤ mq_credit mq →
  settle q m self = (q', sr') →
  confined m q q' ∧ phases (Rof self sr' R) q' ∧ credits None q' ∧
  ∃ mq', q_models q' !! m = Some mq' ∧ (mq_credit mq' = 0 ∨ Forall (λ i, woken q' i = true) (mq_waiters mq')).
Proof.
  intros Hst Hph Hcr Hm Hc Hs. unfold settle in Hs. rewrite Hm in Hs.
  eapply (settle_loop_spec _ R q m mq self false); try done.
  - by destruct self.
  - pose proof (countb_length (λ i, negb (woken q i)) (mq_waiters mq)). unfold idle_count. lia.
Qed.

(** ** Leaving the queue. *)

Definition gone w : Waiter V := w <| w_left := true |> <| w_woken := false |> <| w_elem := false |>.

Definition drop_tenant (t : string) (tenants : gmap string Z) : gmap string Z :=
  if String.eqb t "" then tenants
  else let n := default 0 (tenants !! t) - 1 in if n <=? 0 then delete t tenants else <[t := n]> tenants.

(** The queue without a waiter, before any credit is settled. *)
Definition without q i w mq : Queue V :=
  let q1 := q <| q_heap := alter gone i (q_heap q) |> in
  match filter (λ j, j ≠ i) (mq_waiters mq) with
  | [] => q1 <| q_models := delete (w_model w) (q_models q) |>
  | l => set_model q1 (w_model w) (mkModelQueue l (drop_tenant (w_tenant w) (mq_tenants mq)) (mq_credit mq))
  end.

Lemma leaveLocked_eq q i w mq settleAfter giveBack :
  q_heap q !! i = Some w → q_models q !! w_model w = Some mq → w_elem w = true →
  Queue_leaveLocked q i settleAfter giveBack =
    let q0 := without q i w mq in
    match q_models q0 !! w_model w with
    | Some mq0 =>
        if settleAfter then
          (settle (set_model q0 (w_model w)
             (mq0 <| mq_credit := if giveBack && w_woken w then mq_credit mq0 + 1 else mq_credit mq0 |>))
             (w_model w) None).1
        else q0
    | None => q0
    end.
Proof.
  intros Hw Hm He. unfold Queue_leaveLocked, without. rewrite Hw. simpl. rewrite Hm, He. simpl.
  unfold upd_waiter. simpl. unfold rset; simpl. rewrite alter_alter_eq.
  destruct (filter _ (mq_waiters mq)) as [|j l]; simpl.
  - by rewrite lookup_delete_eq.
  - rewrite lookup_insert_eq. destruct settleAfter; simpl; [|done].
    unfold set_model, rset; simpl. by rewrite insert_insert_eq.
Qed.

Lemma without_model q i w mq m mq' :
  q_models (without q i w mq) !! m = Some mq' →
  (m = w_model w ∧ mq_waiters mq' = filter (λ j, j ≠ i) (mq_waiters mq) ∧ mq_waiters mq' ≠ [] ∧
   mq_tenants mq' = drop_tenant (w_tenant w) (mq_tenants mq) ∧ mq_credit mq' = mq_credit mq) ∨
  (m ≠ w_model w ∧ q_models q !! m = Some mq').
Proof.
  unfold without. destruct (filter _ (mq_waiters mq)) as [|j l]; simpl.
  - rewrite lookup_delete. case_decide; [done|]. by right.
  - rewrite lookup_insert. case_decide; [|by right]. intros [= <-]. by left.
Qed.

Lemma without_heap q i w mq : q_heap (without q i w mq) = alter gone i (q_heap q).
Proof. unfold without. by destruct (filter _ (mq_waiters mq)). Qed.

Lemma without_size q i w mq :
  q_models q !! w_model w = Some mq → (size (q_models (without q i w mq)) ≤ size (q_models q))%nat.
Proof.
  intros Hm. unfold without. destruct (filter _ (mq_waiters mq)); simpl.
  - apply map_subseteq_size, delete_subseteq.
  - rewrite map_size_insert, Hm. done.
Qed.

Lemma without_tenant_is q i w mq t j : tenant_is (without q i w mq) t j = tenant_is q t j.
Proof.
  unfold tenant_is. rewrite without_heap, lookup_alter. case_decide; [|done]. subst.
  by destruct (q_heap q !! j).
Qed.

Lemma drop_tenant_lookup t0 tenants t c :
  t ≠ "" → default 0 (tenants !! t) = Z.b2z (String.eqb t0 t) + c → 0 ≤ c →
  default 0 (drop_tenant t0 tenants !! t) = c.
Proof.
  intros Ht Hd Hc. unfold drop_tenant. destruct (String.eqb_spec t0 t) as [->|Hne]; simpl in Hd.
  - rewrite (proj2 (String.eqb_neq t "")) by done. destruct (Z.leb_spec (default 0 (tenants !! t) - 1) 0).
    + rewrite lookup_delete_eq. simpl. lia.
    + rewrite lookup_insert_eq. simpl. lia.
  - destruct (String.eqb t0 ""); [lia|]. destruct (_ <=? 0).
    + rewrite lookup_delete_ne by done. lia.
    + rewrite lookup_insert_ne by done. lia.
Qed.

Lemma without_structure q i w mq :
  structure q → q_heap q !! i = Some w → w_left w = false → q_models q !! w_model w = Some mq →
  i ∈ mq_waiters mq → structure (without q i w mq).
Proof.
  intros Hst Hw Hl Hm Hi. pose proof Hst as [].
  assert (NoDup (mq_waiters mq)) as Hnd by (apply sorted_lt_NoDup; eauto).
  assert (q_p (without q i w mq) = q_p q ∧ q_next (without q i w mq) = q_next q) as [Hp Hn]
    by (unfold without; by destruct (filter _ (mq_waiters mq))).
  assert (∀ t, countb (tenant_is q t) (mq_waiters mq) =
               Z.b2z (String.eqb (w_tenant w) t) + countb (tenant_is q t) (filter (λ j, j ≠ i) (mq_waiters mq))) as Hcount.
  { intros t. rewrite (countb_remove _ _ i) by done. f_equal. unfold tenant_is. by rewrite Hw. }
  split.
  - intros j w'. rewrite without_heap, Hn, lookup_alter. case_decide; [|eauto]. subst. rewrite Hw. simpl. intros _. eauto.
  - intros m mq' j Hm' Hj. rewrite without_heap. apply without_model in Hm' as [(-> & Hwt & _)|[Hne Hm']].
    + rewrite Hwt in Hj. apply list_elem_of_filter in Hj as [Hji Hj].
      rewrite lookup_alter_ne by congruence. eauto.
    + assert (j ≠ i) by (intros ->; by eapply (disjoint_models q (w_model w) m)).
      rewrite lookup_alter_ne by congruence. eauto.
  - intros j w'. rewrite without_heap, lookup_alter. case_decide as Hij; [subst; rewrite Hw; simpl; intros [= <-]; done|].
    intros Hw' Hl'. destruct (s_queued0 _ _ Hw' Hl') as (mq' & Hm' & Hj).
    unfold without. destruct (filter (λ j, j ≠ i) (mq_waiters mq)) as [|j0 l] eqn:Hf; simpl.
    + destruct (decide (w_model w' = w_model w)) as [Heq|Hne].
      * exfalso. rewrite Heq, Hm in Hm'. injection Hm' as <-.
        assert (j ∈ filter (λ j, j ≠ i) (mq_waiters mq)) as Hjf by (apply list_elem_of_filter; by split; [congruence|]).
        rewrite Hf in Hjf. set_solver.
      * exists mq'. by rewrite lookup_delete_ne.
    + destruct (decide (w_model w' = w_model w)) as [Heq|Hne].
      * rewrite Heq in *. rewrite lookup_insert_eq. eexists. split; [done|]. simpl. rewrite <-Hf.
        apply list_elem_of_filter. split; congruence.
      * exists mq'. by rewrite lookup_insert_ne.
  - intros j w'. rewrite without_heap, lookup_alter. case_decide; [|eauto]. subst. rewrite Hw. simpl. by intros [= <-].
  - intros m mq' Hm'. apply without_model in Hm' as [(-> & -> & _)|[Hne Hm']]; [|eauto]. apply sorted_lt_filter. eauto.
  - intros m mq' Hm'. apply without_model in Hm' as [(-> & _ & ? & _)|[Hne Hm']]; eauto.
  - intros m mq' Hm'. rewrite Hp. apply without_model in Hm' as [(-> & -> & _)|[Hne Hm']]; [|eauto].
    etrans; [|by eapply s_depth0]. apply inj_le, length_filter.
  - rewrite Hp. intros Hpos. pose proof (without_size q i w mq Hm). specialize (s_models0 Hpos). lia.
  - intros m mq' t Hm' Ht. rewrite (countb_ext _ (tenant_is q t)) by (intros; apply without_tenant_is).
    apply without_model in Hm' as [(-> & -> & _ & -> & _)|[Hne Hm']]; [|eauto].
    apply drop_tenant_lookup; [done| |apply countb_nonneg]. rewrite (s_tenants0 _ _ _ Hm Ht). apply Hcount.
  - intros m mq' t Hm' Ht Hpos. rewrite Hp in *. rewrite (countb_ext _ (tenant_is q t)) by (intros; apply without_tenant_is).
    apply without_model in Hm' as [(-> & -> & _)|[Hne Hm']]; [|eauto].
    specialize (s_share0 _ _ _ Hm Ht Hpos). rewrite Hcount in s_share0. destruct (String.eqb _ t); simpl in *; lia.
Qed.

(** ** The invariant and the operations. *)

Record qinv R q : Prop := {
  qi_structure : structure q;
  qi_phases : phases R q;
  qi_credits : credits None q;
  qi_R : ∀ i, i ∈ R → (i < q_next q)%nat;
}.

Lemma queued_ch R q i w : phases R q → q_heap q !! i = Some w → w_left w = false → held w = [].
Proof. intros Hph Hw Hl. unfold held. destruct (Hph _ _ Hw) as [? ? -> ?|? ? -> ?|? ? -> ?|?]; congruence. Qed.

Lemma without_phases R q i w mq :
  phases R q → q_heap q !! i = Some w → w_left w = false → phases R (without q i w mq).
Proof.
  intros Hph Hw Hl j w'. rewrite without_heap, lookup_alter. case_decide; [|apply Hph]. subst.
  rewrite Hw. simpl. intros [= <-]. apply ph_left; [done..|]. intros _ v Hv.
  pose proof (queued_ch _ _ _ _ Hph Hw Hl) as Hh. unfold held in Hh. simpl in Hv. by rewrite Hv in Hh.
Qed.

Lemma without_pending q i w mq : pending (without q i w mq) ≡ₚ pending q.
Proof.
  unfold pending. rewrite without_heap. apply (pending_same_held q i gone). done.
Qed.

Lemma without_woken q i w mq j : j ≠ i → woken (without q i w mq) j = woken q j.
Proof. intros Hj. unfold woken. rewrite without_heap, lookup_alter_ne by done. done. Qed.

Lemma without_credits q i w mq :
  structure q → q_heap q !! i = Some w → w_left w = false → q_models q !! w_model w = Some mq → i ∈ mq_waiters mq →
  credits (Some (w_model w)) q → credits (Some (w_model w)) (without q i w mq).
Proof.
  intros Hst Hw Hl Hm Hi Hc m mq' Hm' Hne. apply without_model in Hm' as [(-> & _)|[Hne' Hm']]; [done|].
  eapply (credit_ok_ext q); [|by eapply Hc]. intros j Hj. apply without_woken. intros ->.
  by eapply (disjoint_models q m (w_model w)).
Qed.

Lemma credits_weaken m q : credits None q → credits (Some m) q.
Proof. intros Hc m' mq Hm _. by eapply Hc. Qed.

Lemma queued_of q i w : structure q → q_heap q !! i = Some w → w_left w = false →
  w_elem w = true ∧ ∃ mq, q_models q !! w_model w = Some mq ∧ i ∈ mq_waiters mq.
Proof. intros Hst Hw Hl. split; [by rewrite (s_elem _ Hst _ _ Hw), Hl|by eapply s_queued]. Qed.

(** A waiter leaves, and what it leaves behind is settled. *)
Lemma leave_settled R q i w giveBack :
  qinv R q → q_heap q !! i = Some w → w_left w = false →
  let q' := Queue_leaveLocked q i true giveBack in
  qinv R q' ∧ pending q' ≡ₚ pending q ∧ q_heap q' !! i = Some (gone w) ∧ q_next q' = q_next q.
Proof.
  intros [Hst Hph Hcr HR] Hw Hl. destruct (queued_of _ _ _ Hst Hw Hl) as (He & mq & Hm & Hi). cbv zeta.
  rewrite (leaveLocked_eq q i w mq) by done. cbv zeta. set (q0 := without q i w mq).
  pose proof (without_structure q i w mq Hst Hw Hl Hm Hi) as Hst0. fold q0 in Hst0.
  pose proof (without_phases R q i w mq Hph Hw Hl) as Hph0. fold q0 in Hph0.
  pose proof (without_credits q i w mq Hst Hw Hl Hm Hi (credits_weaken _ _ Hcr)) as Hcr0. fold q0 in Hcr0.
  assert (q_heap q0 !! i = Some (gone w)) as Hi0 by (unfold q0; by rewrite without_heap, lookup_alter_eq, Hw).
  assert (q_next q0 = q_next q) as Hn0 by (unfold q0, without; by destruct (filter _ (mq_waiters mq))).
  destruct (q_models q0 !! w_model w) as [mq0|] eqn:Hm0.
  - assert (0 ≤ mq_credit mq0) as Hc0.
    { destruct (without_model _ _ _ _ _ _ Hm0) as [(_ & _ & _ & _ & ->)|[? _]]; [|done]. by eapply Hcr. }
    set (q1 := set_model q0 _ _). set (mq1 := mq0 <| mq_credit := _ |>) in q1.
    assert (same q0 q1) as Hs1 by by apply set_credit_same.
    destruct (settle q1 (w_model w) None) as [q' sr] eqn:Hs. simpl.
    destruct (settle_spec R q1 (w_model w) mq1 None q' sr) as (Hcf & Hph' & Hcr' & _); try done.
    + by eapply same_structure.
    + intros m' mq' Hm' Hne. simpl in Hm'. rewrite lookup_insert_ne in Hm' by congruence. by eapply Hcr0.
    + apply lookup_insert_eq.
    + simpl. destruct (_ && _); lia.
    + split_and!.
      * split; [eapply same_structure; [apply Hcf|by eapply same_structure]|done|done|].
        intros j Hj. rewrite (same_next _ _ (cf_same _ _ _ Hcf)), (same_next _ _ Hs1), Hn0. auto.
      * rewrite (cf_pending _ _ _ Hcf). change (pending q1) with (pending q0). apply without_pending.
      * rewrite (cf_heap _ _ _ Hcf); [done|]. intros mqx. simpl. rewrite lookup_insert_eq. intros [= <-]. simpl.
        destruct (without_model _ _ _ _ _ _ Hm0) as [(_ & -> & _)|[? _]]; [|done]. rewrite list_elem_of_filter. naive_solver.
      * by rewrite (same_next _ _ (cf_same _ _ _ Hcf)), (same_next _ _ Hs1).
  - split_and!; [|apply without_pending|done|done]. split; [done|done| |by rewrite Hn0].
    intros m mq' Hm' _. eapply Hcr0; [done|congruence].
Qed.

Lemma take_grant_inv R R' q i w :
  qinv R q → q_heap q !! i = Some w →
  phase R' i (w <| w_ch := None |>) → (∀ j, j ≠ i → j ∈ R' ↔ j ∈ R) →
  qinv R' (take_grant q i).1.
Proof.
  intros [Hst Hph Hcr HR] Hw Hi HR'. pose proof (take_grant_same q i) as Hs. unfold take_grant in *. rewrite Hw in *.
  simpl in *. split.
  - by eapply same_structure.
  - eapply phases_upd; [done| |done]. intros. by simplify_eq.
  - intros m mq Hm Hne. eapply (credit_ok_ext q); [|by eapply Hcr]. intros j _. rewrite woken_upd. unfold woken.
    destruct (q_heap q !! j); [|done]. by case_decide.
  - intros j Hj. simpl. destruct (decide (j = i)) as [->|Hji]; [by eapply s_next|]. apply HR. by apply HR'.
Qed.

Lemma take_grant_pending q i w :
  q_heap q !! i = Some w → pending q ≡ₚ held w ++ pending (take_grant q i).1.
Proof.
  intros Hw. unfold take_grant. rewrite Hw. simpl. destruct (pending_upd q i w Hw) as (rest & Hp & Hu).
  by rewrite Hp, Hu.
Qed.

Definition value_of (g : option (Grant V)) : list V := match g with Some (Handoff v) => [v] | _ => [] end.

Lemma leave_inv R q i w giveBack :
  qinv R q → q_heap q !! i = Some w →
  let r := Queue_leave q i giveBack in
  qinv (R ∖ {[i]}) r.1 ∧ pending q ≡ₚ held w ++ pending r.1 ∧ value_of r.2 = held w ∧ q_next r.1 = q_next q.
Proof.
  intros Hq Hw. cbv zeta. unfold Queue_leave. rewrite Hw. destruct (w_left w) eqn:Hl; simpl.
  - pose proof (take_grant_pending q i w Hw) as Hp. pose proof (take_grant_inv R (R ∖ {[i]}) q i w Hq Hw) as Hi.
    unfold take_grant in *. rewrite Hw in *. simpl in *. split_and!; [|done| |done].
    + apply Hi; [|set_solver]. destruct (qi_phases _ _ Hq _ _ Hw); try congruence. by apply ph_left.
    + unfold value_of, held. by destruct (w_ch w) as [[]|].
  - destruct (leave_settled R q i w giveBack Hq Hw Hl) as (Hq1 & Hp1 & Hw1 & Hn1).
    set (q1 := Queue_leaveLocked q i true giveBack) in *.
    pose proof (take_grant_pending q1 i _ Hw1) as Hp. pose proof (take_grant_inv R (R ∖ {[i]}) q1 i _ Hq1 Hw1) as Hi.
    unfold take_grant in *. rewrite Hw1 in *. simpl in *.
    pose proof (queued_ch _ _ _ _ (qi_phases _ _ Hq) Hw Hl) as Hh.
    assert (held (gone w) = held w) as Hg by done. rewrite Hg in Hp. split_and!.
    + apply Hi; [|set_solver]. by apply ph_left.
    + by rewrite <-Hp.
    + rewrite Hh. unfold value_of, held in *. by destruct (w_ch w) as [[]|].
    + done.
Qed.

(** *** Enqueue. *)

Lemma refuse_None q model tenant :
  Queue_refuseLocked q model tenant = None →
  q_closed q = false ∧
  match q_models q !! model with
  | Some mq => Z.of_nat (length (mq_waiters mq)) < MaxModelDepth (q_p q) ∧
      (0 < tenantCap (q_p q) → tenant ≠ "" → default 0 (mq_tenants mq !! tenant) < tenantCap (q_p q))
  | None => 0 < MaxModelDepth (q_p q) ∧
      (0 < q_MaxModels (q_p q) → Z.of_nat (size (q_models q)) < q_MaxModels (q_p q))
  end.
Proof.
  unfold Queue_refuseLocked. destruct (q_closed q); [done|]. destruct (Z.leb_spec (MaxModelDepth (q_p q)) 0); [done|].
  destruct (q_models q !! model) as [mq|]; intros Hr; (split; [done|]).
  - destruct (Z.leb_spec (MaxModelDepth (q_p q)) (Z.of_nat (length (mq_waiters mq)))); [done|]. split; [lia|].
    intros Hc Ht. rewrite (proj2 (Z.ltb_lt _ _) Hc), (proj2 (String.eqb_neq _ _) Ht) in Hr. simpl in Hr.
    destruct (Z.leb_spec (tenantCap (q_p q)) (default 0 (mq_tenants mq !! tenant))); [done|lia].
  - split; [lia|]. intros Hc. rewrite (proj2 (Z.ltb_lt _ _) Hc) in Hr. simpl in Hr.
    destruct (Z.leb_spec (q_MaxModels (q_p q)) (Z.of_nat (size (q_models q)))); [done|lia].
Qed.

Section enqueue.
Context (q : Queue V) (now : Time) (model tenant : string) (Hst : structure q).
Let mq := default (mkModelQueue [] ∅ 0) (q_models q !! model).
Let new : Waiter V := mkWaiter model tenant now None true false false.
Let heap := <[q_next q := new]> (q_heap q).

Lemma enq_old j : (j < q_next q)%nat → heap !! j = q_heap q !! j.
Proof using Type. intros Hj. apply lookup_insert_ne. lia. Qed.

Lemma enq_lt m mq0 j : q_models q !! m = Some mq0 → j ∈ mq_waiters mq0 → (j < q_next q)%nat.
Proof using Hst. intros Hm Hj. destruct (s_in _ Hst _ _ _ Hm Hj) as (w & Hw & _). by eapply s_next. Qed.

Lemma enq_lt_mq j : j ∈ mq_waiters mq → (j < q_next q)%nat.
Proof using Hst. unfold mq. destruct (q_models q !! model) eqn:Hm; [by eapply enq_lt|set_solver]. Qed.

Definition enq_tenant (t : string) (j : nat) : bool :=
  match heap !! j with Some w => String.eqb (w_tenant w) t | None => false end.

Lemma enq_tenant_old t j : (j < q_next q)%nat → enq_tenant t j = tenant_is q t j.
Proof using Type. intros Hj. unfold enq_tenant, tenant_is. by rewrite enq_old. Qed.

Lemma enq_count t :
  countb (enq_tenant t) (mq_waiters mq ++ [q_next q]) = countb (tenant_is q t) (mq_waiters mq) + Z.b2z (String.eqb tenant t).
Proof using Hst.
  rewrite countb_app, countb_cons, countb_nil.
  rewrite (countb_ext _ (tenant_is q t)) by (intros j Hj; by apply enq_tenant_old, enq_lt_mq).
  unfold enq_tenant, heap. rewrite lookup_insert_eq. simpl. lia.
Qed.

Lemma enq_base t : t ≠ "" → default 0 (mq_tenants mq !! t) = countb (tenant_is q t) (mq_waiters mq).
Proof using Hst. intros Ht. unfold mq. destruct (q_models q !! model) eqn:Hm; [by eapply s_tenants|done]. Qed.
End enqueue.

Lemma enqueue_structure q now model tenant q' i :
  structure q → Queue_Enqueue q now model tenant = (q', inl i) → structure q' ∧ i = q_next q ∧ q_next q' = S i.
Proof.
  intros Hst. unfold Queue_Enqueue. destruct (Queue_refuseLocked q model tenant) eqn:Hr; [done|].
  intros [= <- <-]. apply refuse_None in Hr as [_ Hr]. split; [|done]. pose proof Hst as [].
  pose proof (enq_lt q Hst) as Hlt. pose proof (enq_lt_mq q model Hst) as Hltm.
  pose proof (enq_old q now model tenant) as Hold. pose proof (enq_count q now model tenant Hst) as Hcnt.
  pose proof (enq_base q model Hst) as Hbase. pose proof (enq_tenant_old q now model tenant) as Hten.
  set (mq := default (mkModelQueue [] ∅ 0) (q_models q !! model)) in *.
  split; simpl.
  - intros j w. rewrite lookup_insert. case_decide; [lia|]. intros Hw%s_next0. lia.
  - intros m mq0 j. rewrite lookup_insert. case_decide as Hm; [|intros Hm0 Hj; rewrite Hold by eauto; eauto].
    intros [= <-] Hj. subst m. simpl in Hj. apply elem_of_app in Hj as [Hj| ->%list_elem_of_singleton].
    + rewrite Hold by auto. subst mq. destruct (q_models q !! model) eqn:Hm; [by eauto|set_solver].
    + rewrite lookup_insert_eq. by eexists.
  - intros j w. rewrite !lookup_insert. case_decide as Hj.
    + intros [= <-] _. simpl. rewrite decide_True by done. eexists. split; [done|]. simpl. subst. set_solver.
    + intros Hw Hl. destruct (s_queued0 _ _ Hw Hl) as (mq0 & Hm0 & Hj0). case_decide as Hm; [|eauto].
      eexists. split; [done|]. simpl. subst mq. rewrite <-Hm in Hm0. rewrite Hm0. simpl. set_solver.
  - intros j w. rewrite lookup_insert. case_decide; [by intros [= <-]|eauto].
  - intros m mq0. rewrite lookup_insert. case_decide; [|eauto]. intros [= <-]. simpl.
    apply sorted_lt_snoc; [|by apply Forall_forall]. subst mq. destruct (q_models q !! model) eqn:Hm; [eauto|constructor].
  - intros m mq0. rewrite lookup_insert. case_decide; [|eauto]. intros [= <-]. simpl. by destruct (mq_waiters mq).
  - intros m mq0. rewrite lookup_insert. case_decide; [|eauto]. intros [= <-]. simpl. rewrite length_app. simpl.
    subst mq. destruct (q_models q !! model); simpl in *; lia.
  - intros Hpos. rewrite map_size_insert. specialize (s_models0 Hpos). destruct (q_models q !! model); simpl in *; [lia|].
    destruct Hr as [_ Hr]. specialize (Hr Hpos). lia.
  - intros m mq0 t. rewrite lookup_insert. case_decide.
    + intros [= <-] Ht. simpl. rewrite (countb_ext _ (enq_tenant q now model tenant t)) by done. rewrite Hcnt, <-Hbase by done.
      destruct (String.eqb_spec tenant ""); destruct (String.eqb_spec tenant t); simplify_eq/=; try done; try lia.
      * rewrite lookup_insert_eq. done.
      * rewrite lookup_insert_ne by done. lia.
    + intros Hm Ht. rewrite (s_tenants0 _ _ _ Hm Ht). apply countb_ext. intros j Hj. symmetry. eapply Hten. eauto.
  - intros m mq0 t. rewrite lookup_insert. case_decide.
    + intros [= <-] Ht Hpos. simpl. rewrite (countb_ext _ (enq_tenant q now model tenant t)) by done. rewrite Hcnt, <-Hbase by done.
      subst mq. destruct (q_models q !! model) as [mq|] eqn:Hm; simpl in *.
      * destruct (String.eqb_spec tenant t) as [->|Htt]; simpl; [destruct Hr as [_ Hr]; specialize (Hr Hpos Ht); lia|].
        rewrite (s_tenants0 _ _ _ Hm Ht). specialize (s_share0 _ _ _ Hm Ht Hpos). lia.
      * rewrite lookup_empty. simpl. destruct (String.eqb tenant t); simpl; lia.
    + intros Hm Ht Hpos. rewrite (countb_ext _ (tenant_is q t)); [eauto|]. intros j Hj. eapply Hten. eauto.
Qed.

Lemma enqueue_inv R q now model tenant :
  qinv R q →
  let r := Queue_Enqueue q now model tenant in qinv R r.1 ∧ pending r.1 ≡ₚ pending q.
Proof.
  intros Hq. cbv zeta. destruct (Queue_Enqueue q now model tenant) as [q' [i|err]] eqn:He; simpl.
  2: { unfold Queue_Enqueue in He. destruct (Queue_refuseLocked q model tenant); [|done]. by injection He as <- <-. }
  pose proof Hq as [Hst Hph Hcr HR]. destruct (enqueue_structure _ _ _ _ _ _ Hst He) as (Hst' & -> & Hn).
  unfold Queue_Enqueue in He. destruct (Queue_refuseLocked q model tenant) eqn:Hr; [done|]. injection He as <-.
  assert (q_heap q !! q_next q = None) as Hfresh.
  { apply eq_None_not_Some. intros [w Hw]. apply (s_next _ Hst) in Hw. lia. }
  split; [split|]; simpl; [done|..].
  - intros j w. simpl. rewrite lookup_insert. case_decide; [|apply Hph]. subst. intros [= <-]. apply ph_idle; try done.
    intros Hin%HR. lia.
  - assert (∀ j, (j < q_next q)%nat → woken (set_model (q <| q_heap := <[q_next q := mkWaiter model tenant now None true false false]> (q_heap q) |> <| q_next := S (q_next q) |>) model
      (mkModelQueue [] ∅ 0)) j = woken q j) as Hwk.
    { intros j Hj. unfold woken. simpl. rewrite lookup_insert_ne by lia. done. }
    intros m mq0. simpl. rewrite lookup_insert. case_decide as Hm.
    + intros [= <-] _. subst m. destruct (q_models q !! model) as [mq|] eqn:Hmq; simpl; [|split; simpl; [done|lia]].
      destruct (Hcr _ _ Hmq) as [Hc0 Hc1]; [done|]. split; [done|]. simpl. intros Hpos.
      destruct (Hc1 Hpos) as (l1 & l2 & Hl & Hne & H1 & H2). exists l1, (l2 ++ [q_next q]).
      rewrite Hl, app_assoc. split_and!; [done|done|..].
      * apply Forall_forall. intros j Hj. etrans; [apply Hwk|by eapply Forall_forall in H1].
        eapply enq_lt; [done|done|]. rewrite Hl. set_solver.
      * apply Forall_app. split.
        -- apply Forall_forall. intros j Hj. etrans; [apply Hwk|by eapply Forall_forall in H2].
           eapply enq_lt; [done|done|]. rewrite Hl. set_solver.
        -- repeat constructor. unfold woken. simpl. by rewrite lookup_insert_eq.
    + intros Hm0 _. eapply (credit_ok_ext q); [|by eapply Hcr]. intros j Hj. apply Hwk. by eapply enq_lt.
  - intros j Hj%HR. lia.
  - unfold pending. simpl. by rewrite (map_to_list_insert _ _ _ Hfresh).
Qed.

(** *** Handoff. *)

Lemma head_idle_no_credit q mq h l :
  credit_ok q mq → mq_waiters mq = h :: l → woken q h = false → mq_credit mq = 0.
Proof.
  intros [Hc Hp] Hl Hw. destruct (decide (0 < mq_credit mq)) as [Hpos|]; [|lia].
  destruct (Hp Hpos) as ([|x l1] & l2 & Hl' & Hne & H1 & _); [done|]. rewrite Hl in Hl'. injection Hl' as <- _.
  apply Forall_cons in H1 as [H1 _]. congruence.
Qed.

(** The effect of removing a queued waiter and leaving it a last grant. *)
Lemma remove_send_inv R q i w mq g :
  structure q → phases R q → q_heap q !! i = Some w → w_left w = false → q_models q !! w_model w = Some mq →
  i ∈ mq_waiters mq → (i ∈ R → ∀ v, g ≠ Handoff v) →
  let q' := Waiter_send (Queue_leaveLocked q i false false) i g in
  structure q' ∧ phases R q' ∧ pending q' ≡ₚ value_of (Some g) ++ pending q ∧ q_next q' = q_next q ∧
  q_models q' = q_models (without q i w mq) ∧ (∀ j, j ≠ i → woken q' j = woken q j) ∧ q_p q' = q_p q.
Proof.
  intros Hst Hph Hw Hl Hm Hi Hg. destruct (queued_of _ _ _ Hst Hw Hl) as (He & _). cbv zeta.
  rewrite (leaveLocked_eq q i w mq) by done. cbv zeta. set (q0 := without q i w mq).
  assert (match q_models q0 !! w_model w with Some _ => q0 | None => q0 end = q0) as -> by by destruct (q_models q0 !! w_model w).
  assert (q_heap q0 !! i = Some (gone w)) as Hi0 by (unfold q0; by rewrite without_heap, lookup_alter_eq, Hw).
  split_and!.
  - eapply same_structure; [apply send_same|by apply without_structure].
  - eapply phases_upd; [by apply without_phases| |done]. intros w0 Hw0. fold q0 in Hw0. simplify_eq.
    apply ph_left; try done. simpl. intros HiR v [= ->]. by eapply Hg.
  - unfold Waiter_send. destruct (pending_upd q0 i _ Hi0) as (rest & Hp & Hu). rewrite Hu. simpl.
    rewrite <-(without_pending q i w mq). fold q0. rewrite Hp. change (held (gone w)) with (held w).
    rewrite (queued_ch _ _ _ _ Hph Hw Hl). done.
  - unfold q0, without. by destruct (filter _ (mq_waiters mq)).
  - done.
  - intros j Hj. unfold Waiter_send. rewrite woken_upd_ne by done. by apply without_woken.
  - unfold q0, without. by destruct (filter _ (mq_waiters mq)).
Qed.

Lemma handoff_inv R q model v :
  qinv R q →
  let r := Queue_Handoff q model v in
  qinv R r.1 ∧ pending r.1 ≡ₚ (if r.2 then [v] else []) ++ pending q.
Proof.
  intros Hq. pose proof Hq as [Hst Hph Hcr HR]. cbv zeta. unfold Queue_Handoff.
  destruct (q_models q !! model) as [mq|] eqn:Hm; [|done]. destruct (mq_waiters mq) as [|h l] eqn:Hl; [done|].
  destruct (s_in _ Hst _ _ h Hm) as (w & Hw & Hwm & Hwl); [rewrite Hl; constructor|].
  destruct (woken q h) eqn:Hwk; simpl.
  - set (q1 := set_model q model _). set (mq1 := mq <| mq_credit := _ |>) in q1.
    assert (same q q1) as Hs1 by by apply set_credit_same.
    destruct (settle q1 model None) as [q' sr] eqn:Hs. simpl.
    destruct (settle_spec R q1 model mq1 None q' sr) as (Hcf & Hph' & Hcr' & _); try done.
    + by eapply same_structure.
    + intros m' mq' Hm' Hne. simpl in Hm'. rewrite lookup_insert_ne in Hm' by congruence. by eapply Hcr.
    + apply lookup_insert_eq.
    + simpl. destruct (Hcr _ _ Hm); [done|]. lia.
    + split; [|by rewrite (cf_pending _ _ _ Hcf)]. split; [|done|done|].
      * eapply same_structure; [apply Hcf|by eapply same_structure].
      * intros j Hj. rewrite (same_next _ _ (cf_same _ _ _ Hcf)), (same_next _ _ Hs1). auto.
  - assert (h ∉ R) as HhR.
    { unfold woken in Hwk. rewrite Hw in Hwk. by destruct (idle_phase _ _ _ _ Hph Hw Hwl Hwk). }
    subst model. destruct (remove_send_inv R q h w mq (Handoff v)) as (Hst' & Hph' & Hp' & Hn' & Hm' & Hwk' & _);
      try done; [rewrite Hl; constructor|]. split; [|done].
    split; [done|done| |by rewrite Hn'].
    intros m mq' Hmq' _. rewrite Hm' in Hmq'. apply without_model in Hmq' as [(-> & _ & _ & _ & Hc)|[Hne Hmq']].
    + rewrite (head_idle_no_credit q mq h l) in Hc by (done || by eapply Hcr). split; lia.
    + eapply (credit_ok_ext q); [|by eapply Hcr]. intros j Hj. apply Hwk'. intros ->.
      eapply (disjoint_models q m (w_model w)); [done..|]. rewrite Hl. constructor.
Qed.

(** *** Wake. *)

Definition prefixed q (l : list nat) : Prop :=
  ∃ l1 l2, l = l1 ++ l2 ∧ Forall (λ i, woken q i = true) l1 ∧ Forall (λ i, woken q i = false) l2.

Lemma prefixed_cons_woken q i l : woken q i = true → prefixed q (i :: l) ↔ prefixed q l.
Proof.
  intros Hi. split.
  - intros ([|x l1] & l2 & Hl & H1 & H2); simpl in Hl.
    + subst l2. apply Forall_cons in H2 as [H2 _]. congruence.
    + injection Hl as <- ->. apply Forall_cons in H1 as [_ H1]. by exists l1, l2.
  - intros (l1 & l2 & -> & H1 & H2). exists (i :: l1), l2. split_and!; [done|by constructor|done].
Qed.

Lemma prefixed_ext q q' l : (∀ i, i ∈ l → woken q' i = woken q i) → prefixed q l → prefixed q' l.
Proof.
  intros Hw (l1 & l2 & -> & H1 & H2). exists l1, l2. split_and!; [done|..]; apply Forall_forall; intros i Hi;
    rewrite Hw by set_solver; [by eapply Forall_forall in H1|by eapply Forall_forall in H2].
Qed.

Lemma wake_loop_spec R n l : ∀ q count,
  phases R q → NoDup l → (∀ i, i ∈ l → ∃ w, q_heap q !! i = Some w ∧ w_left w = false) →
  let q' := (wake_loop q n count l).1 in
  same q q' ∧ phases R q' ∧ pending q' ≡ₚ pending q ∧ q_models q' = q_models q ∧
  (∀ j, j ∉ l → woken q' j = woken q j) ∧ (∀ j, woken q j = true → woken q' j = true) ∧
  (prefixed q l → prefixed q' l).
Proof.
  induction l as [|i l IH]; intros q count Hph Hnd Hin; simpl; [split_and!; done|].
  apply NoDup_cons in Hnd as [Hil Hnd]. destruct (count <? n); simpl; [|split_and!; done].
  destruct (woken q i) eqn:Hwk.
  - destruct (IH q count Hph Hnd) as (Hs & Hp & Hpe & Hm & Hw & Hmono & Hpre); [intros; apply Hin; by constructor|].
    split_and!; try done.
    + intros j Hj. apply Hw. set_solver.
    + rewrite !prefixed_cons_woken; [done|by apply Hmono|done].
  - destruct (Hin i) as (w & Hiw & Hl); [constructor|].
    assert (w_woken w = false) as Hww by (unfold woken in Hwk; by rewrite Hiw in Hwk).
    destruct (tell_spec R q i w Hph Hiw Hl Hww) as (Hs1 & Hp1 & Hpe1 & Hm1 & Hw1 & Hh1).
    change (Waiter_send (set_woken q i true) i Reroute) with (tell q i).
    destruct (IH (tell q i) (count + 1) Hp1 Hnd) as (Hs & Hp & Hpe & Hm & Hw & Hmono & Hpre).
    { intros j Hj. rewrite Hh1 by (intros ->; done). apply Hin. by constructor. }
    split_and!; [by eapply same_trans|done|by rewrite Hpe|congruence|..].
    + intros j Hj. rewrite Hw by set_solver. apply woken_heap, Hh1. set_solver.
    + intros j Hj. apply Hmono. destruct (decide (j = i)) as [->|]; [done|]. by rewrite (woken_heap _ _ _ (Hh1 _ n0)).
    + intros ([|x l1] & l2 & Hl12 & H1 & H2); simpl in Hl12.
      * subst l2. apply Forall_cons in H2 as [_ H2]. apply prefixed_cons_woken; [by apply Hmono|]. apply Hpre.
        exists [], l. split_and!; [done|constructor|]. apply Forall_forall. intros j Hj.
        rewrite (woken_heap q); [by eapply Forall_forall in H2|]. apply Hh1. intros ->. done.
      * injection Hl12 as <- _. apply Forall_cons in H1 as [H1 _]. congruence.
Qed.

Lemma credit_prefixed q mq :
  mq_waiters mq ≠ [] →
  credit_ok q mq ↔ 0 ≤ mq_credit mq ∧ (0 < mq_credit mq → prefixed q (mq_waiters mq) ∧ ∃ i, i ∈ mq_waiters mq ∧ woken q i = true).
Proof.
  intros Hne. split; intros [Hc Hp]; (split; [done|]); intros Hpos; pose proof (Hp Hpos) as Hx.
  - destruct Hx as (l1 & l2 & Hl & Hl1 & H1 & H2). split; [by exists l1, l2|]. destruct l1 as [|i l1]; [done|].
    exists i. rewrite Hl. split; [set_solver|]. by apply Forall_cons in H1 as [H1 _].
  - destruct Hx as [(l1 & l2 & Hl & H1 & H2) (i & Hi & Hw)]. exists l1, l2. split_and!; try done. intros ->. simpl in Hl.
    subst l2. eapply Forall_forall in H2; [|exact Hi]. congruence.
Qed.

Lemma wake_inv R q model n :
  qinv R q → let r := Queue_Wake q model n in qinv R r.1 ∧ pending r.1 ≡ₚ pending q.
Proof.
  intros Hq. pose proof Hq as [Hst Hph Hcr HR]. cbv zeta. unfold Queue_Wake.
  destruct (q_models q !! model) as [mq|] eqn:Hm; [|done]. destruct (n <=? 0); [done|].
  assert (NoDup (mq_waiters mq)) as Hnd by (apply sorted_lt_NoDup; by eapply s_sorted).
  destruct (wake_loop_spec R n (mq_waiters mq) q 0 Hph Hnd) as (Hs & Hp & Hpe & Hmo & Hw & Hmono & Hpre).
  { intros i Hi. destruct (s_in _ Hst _ _ _ Hm Hi) as (w & ? & _ & ?). by exists w. }
  split; [|done]. split; [by eapply same_structure|done| |].
  - intros m mq' Hm' _. rewrite Hmo in Hm'. destruct (decide (m = model)) as [->|Hne].
    + rewrite Hm in Hm'. injection Hm' as <-. pose proof (s_nonempty _ Hst _ _ Hm) as Hnn.
      pose proof (Hcr _ _ Hm ltac:(done)) as Hok. rewrite credit_prefixed in Hok |- * by done.
      destruct Hok as [Hc Hok]. split; [done|]. intros Hpos. destruct (Hok Hpos) as (Hpf & i & Hi & Hwi).
      split; [by apply Hpre|]. exists i. split; [done|]. by apply Hmono.
    + eapply (credit_ok_ext q); [|by eapply Hcr]. intros j Hj. apply Hw. by eapply (disjoint_models q m model).
  - intros i Hi. rewrite (same_next _ _ Hs). auto.
Qed.

(** *** Park. *)

Lemma park_inv R q i :
  qinv R q → i ∈ R →
  let r := Queue_Park q i in qinv (if r.2 then R else R ∖ {[i]}) r.1 ∧ pending r.1 ≡ₚ pending q.
Proof.
  intros Hq Hi. pose proof Hq as [Hst Hph Hcr HR]. cbv zeta. unfold Queue_Park.
  assert (∀ j, j ≠ i → j ∈ R ∖ {[i]} ↔ j ∈ R) as HRi by set_solver.
  destruct (q_heap q !! i) as [w|] eqn:Hw; simpl.
  2: { split; [|done]. split; [done| |done|set_solver]. intros j wj Hj. eapply phase_R; [|by apply Hph]. set_solver. }
  destruct (w_left w) eqn:Hl; simpl.
  { split; [|done]. split; [done| |done|set_solver]. intros j wj Hj. destruct (decide (j = i)) as [->|Hji].
    - simplify_eq. destruct (Hph _ _ Hw); try congruence. apply ph_left; try done. set_solver.
    - eapply phase_R; [by apply HRi|by apply Hph]. }
  destruct (queued_of _ _ _ Hst Hw Hl) as (_ & mq & Hm & Him). rewrite Hm.
  set (q1 := set_woken q i false).
  assert (phases (R ∖ {[i]}) q1) as Hph1.
  { eapply phases_upd; [done| |done]. intros w0 Hw0. simplify_eq. destruct (Hph _ _ Hw); try congruence; try done.
    apply ph_idle; try done. set_solver. }
  assert (same q q1) as Hs1 by apply set_woken_same.
  destruct (settle q1 (w_model w) (Some i)) as [q' sr] eqn:Hs. simpl.
  destruct (settle_spec (R ∖ {[i]}) q1 (w_model w) mq (Some i) q' sr) as (Hcf & Hph' & Hcr' & _); try done.
  - by eapply same_structure.
  - intros m' mq' Hm' Hne. eapply (credit_ok_ext q); [|by eapply Hcr]. intros j Hj. apply woken_upd_ne. intros <-.
    assert (m' ≠ w_model w) by congruence. by eapply (disjoint_models q m' (w_model w)).
  - by eapply Hcr.
  - split; [|rewrite (cf_pending _ _ _ Hcf); by apply pending_same_held].
    assert (q_next q' = q_next q) as Hn by (by rewrite (same_next _ _ (cf_same _ _ _ Hcf)), (same_next _ _ Hs1)).
    split; [eapply same_structure; [apply Hcf|by eapply same_structure]| |done|rewrite Hn; destruct sr; set_solver].
    destruct sr; [|done]. intros j wj Hj. eapply phase_R; [|by apply Hph']. simpl.
    destruct (decide (j = i)); set_solver.
Qed.

(** *** Flush. *)

Lemma flush_loop_inv R m fuel : ∀ q n,
  structure q → phases R q → credits (Some m) q → (∀ i, i ∈ R → (i < q_next q)%nat) →
  (∀ mq, q_models q !! m = Some mq → length (mq_waiters mq) ≤ fuel)%nat →
  let q' := (flush_loop fuel q m n).1 in
  qinv R q' ∧ pending q' ≡ₚ pending q ∧ q_models q' !! m = None ∧ (∀ m', m' ≠ m → q_models q' !! m' = q_models q !! m').
Proof.
  induction fuel as [|fuel IH]; intros q n Hst Hph Hcr HR Hf; simpl.
  - assert (q_models q !! m = None) as Hnone.
    { apply eq_None_not_Some. intros [mq Hm]. pose proof (s_nonempty _ Hst _ _ Hm). specialize (Hf _ Hm).
      by destruct (mq_waiters mq); [|simpl in Hf; lia]. }
    split_and!; try done. split; try done. intros m' mq' Hm' _. eapply Hcr; [done|intros [= ->]; congruence].
  - destruct (q_models q !! m) as [mq|] eqn:Hm.
    2: { split_and!; try done. split; try done. intros m' mq' Hm' _; simpl in *. eapply Hcr; [done|intros [= ->]; congruence]. }
    destruct (mq_waiters mq) as [|i l] eqn:Hl; [by destruct (s_nonempty _ Hst _ _ Hm)|].
    destruct (s_in _ Hst _ _ i Hm) as (w & Hw & <- & Hwl); [rewrite Hl; constructor|].
    assert (i ∈ mq_waiters mq) as Him by (rewrite Hl; constructor).
    destruct (remove_send_inv R q i w mq Flushed) as (Hst' & Hph' & Hp' & Hn' & Hm' & Hwk' & _); try done.
    set (q1 := Waiter_send _ _ _) in *.
    assert (∀ m', m' ≠ w_model w → q_models q1 !! m' = q_models q !! m') as Hother.
    { intros m' Hne. rewrite Hm'. unfold without. destruct (filter _ (mq_waiters mq)); simpl; [by rewrite lookup_delete_ne|by rewrite lookup_insert_ne]. }
    destruct (IH q1 (n + 1) Hst' Hph') as (Hq' & Hpq & Hnone & Hoth).
    + intros m' mq' Hmq' Hne. rewrite Hother in Hmq' by congruence. eapply (credit_ok_ext q); [|by eapply Hcr].
      intros j Hj. apply Hwk'. intros ->. assert (m' ≠ w_model w) by congruence. by eapply (disjoint_models q m' (w_model w)).
    + by rewrite Hn'.
    + intros mq' Hmq'. rewrite Hm' in Hmq'. apply without_model in Hmq' as [(_ & -> & _)|[? _]]; [|done].
      specialize (Hf _ eq_refl). rewrite Hl in *. rewrite filter_cons, decide_False by naive_solver.
      etrans; [apply length_filter|]. simpl in Hf. lia.
    + split_and!; [done|by rewrite Hpq|done|]. intros m' Hne. rewrite Hoth by done. by apply Hother.
Qed.

Lemma flush_fold R model l : ∀ q n,
  NoDup l.*1 → (∀ m mq, (m, mq) ∈ l → q_models q !! m = Some mq) → qinv R q →
  let r := foldl (λ '(q, n) '(m, mq),
             if negb (String.eqb model "") && negb (String.eqb m model) then (q, n)
             else flush_loop (length (mq_waiters mq)) q m n) (q, n) l in
  qinv R r.1 ∧ pending r.1 ≡ₚ pending q.
Proof.
  induction l as [|[m mq] l IH]; intros q n Hnd Hin Hq; simpl; [by split|].
  apply NoDup_cons in Hnd as [Hm Hnd]. destruct (_ && _).
  - apply IH; [done| |done]. intros m' mq' Hin'. apply Hin. by constructor.
  - destruct (flush_loop_inv R m (length (mq_waiters mq)) q n) as (Hq' & Hp' & _ & Hoth); try apply Hq.
    + by apply credits_weaken, Hq.
    + intros mq0 Hmq0. rewrite (Hin m mq) in Hmq0 by constructor. by injection Hmq0 as <-.
    + destruct (flush_loop _ _ _ _) as [q2 n2]. simpl in *. rewrite <-Hp'. apply IH; [done| |done].
      intros m' mq' Hin'. rewrite Hoth; [apply Hin; by constructor|]. intros ->. apply Hm.
      by apply (list_elem_of_fmap_2 fst) in Hin'.
Qed.

Lemma flush_inv R q model : qinv R q → let r := Queue_Flush q model in qinv R r.1 ∧ pending r.1 ≡ₚ pending q.
Proof.
  intros Hq. apply flush_fold; [|intros m mq; apply elem_of_range_map|done].
  rewrite (fmap_Permutation _ _ _ (range_map_perm (q_models q))). apply NoDup_fst_map_to_list.
Qed.

(** ** Runs. *)

Inductive qop :=
| QEnqueue (model tenant : string)
| QHandoff (model : string) (v : V)
| QWake (model : string) (n : Z)
| QPark (i : nat)
| QDone (i : nat)
| QLeave (i : nat)
| QReceive (i : nat)
| QFlush (model : string)
| QClose
| QObserveWait (d : Z).

(** The protocol of the waiter's goroutine: it reports back ([Park], [Done]) only when it was
    told to route. *)
Definition legal R (o : qop) : bool :=
  match o with QPark i | QDone i => bool_decide (i ∈ R) | _ => true end.

(** A step: the queue, the routing waiters, the slot handed over and the slot delivered. *)
Definition qrun q R (now : Time) (o : qop) : Queue V * gset nat * list V * list V :=
  match o with
  | QEnqueue model tenant => ((Queue_Enqueue q now model tenant).1, R, [], [])
  | QHandoff model v => let r := Queue_Handoff q model v in (r.1, R, if r.2 then [v] else [], [])
  | QWake model n => ((Queue_Wake q model n).1, R, [], [])
  | QPark i => let r := Queue_Park q i in (r.1, if r.2 then R else R ∖ {[i]}, [], [])
  | QDone i => (Queue_Done q i, R ∖ {[i]}, [], [])
  | QLeave i => let r := Queue_Leave q i in (r.1, R ∖ {[i]}, [], value_of r.2)
  | QReceive i =>
      let r := take_grant q i in
      (r.1, match r.2 with Some Reroute => {[i]} ∪ R | _ => R end, [], value_of r.2)
  | QFlush model => ((Queue_Flush q model).1, R, [], [])
  | QClose => (Queue_Close q, R, [], [])
  | QObserveWait d => (Queue_ObserveWait q d, R, [], [])
  end.

Inductive qreach (p : QueueParams) : Queue V → gset nat → list V → list V → Prop :=
| qreach_new : qreach p (NewQueue p) ∅ [] []
| qreach_step q R handed delivered now o q' R' h d :
    qreach p q R handed delivered → legal R o = true → qrun q R now o = (q', R', h, d) →
    qreach p q' R' (h ++ handed) (d ++ delivered).

Lemma new_inv p : qinv ∅ (NewQueue p).
Proof.
  split; try done. split; try done. intros Hpos. simpl in *. rewrite map_size_empty. lia.
Qed.

Lemma receive_inv R q i :
  qinv R q →
  let r := take_grant q i in
  qinv (match r.2 with Some Reroute => {[i]} ∪ R | _ => R end) r.1 ∧ pending q ≡ₚ value_of r.2 ++ pending r.1.
Proof.
  intros Hq. cbv zeta. destruct (q_heap q !! i) as [w|] eqn:Hw.
  2: { unfold take_grant. by rewrite Hw. }
  pose proof (take_grant_pending q i w Hw) as Hp. assert ((take_grant q i).2 = w_ch w) as Hg by (unfold take_grant; by rewrite Hw).
  rewrite Hg. split; [|done].
  assert (∀ R', phase R' i (w <| w_ch := None |>) → (∀ j, j ≠ i → j ∈ R' ↔ j ∈ R) → qinv R' (take_grant q i).1) as Hinv
    by (intros; by eapply take_grant_inv).
  destruct (qi_phases _ _ Hq _ _ Hw) as [Hl Hwk Hch HiR|Hl Hwk Hch HiR|Hl Hwk Hch HiR|Hl Hwk HR]; try rewrite Hch.
  - apply Hinv; [by apply ph_idle|done].
  - apply Hinv; [apply ph_routing; try done; set_solver|set_solver].
  - apply Hinv; [by apply ph_routing|done].
  - destruct (w_ch w) as [[]|]; (apply Hinv; [by apply ph_left|set_solver]).
Qed.

Lemma qrun_inv q R now o q' R' h d :
  qinv R q → legal R o = true → qrun q R now o = (q', R', h, d) →
  qinv R' q' ∧ h ++ pending q ≡ₚ d ++ pending q'.
Proof.
  intros Hq Hl Hr. destruct o; simpl in Hl, Hr; injection Hr as <- <- <- <-; simpl.
  - destruct (enqueue_inv R q now model tenant Hq) as [? Hp]. by rewrite Hp.
  - destruct (handoff_inv R q model v Hq) as [? Hp]. by rewrite Hp.
  - destruct (wake_inv R q model n Hq) as [? Hp]. by rewrite Hp.
  - destruct (park_inv R q i Hq) as [? Hp]; [by apply bool_decide_eq_true in Hl|]. by rewrite Hp.
  - apply bool_decide_eq_true in Hl. unfold Queue_Done. destruct (q_heap q !! i) as [w|] eqn:Hw.
    + destruct (leave_inv R q i w false Hq Hw) as (Hq' & Hp & _). split; [done|].
      assert (held w = []) as Hh; [|by rewrite Hp, Hh]. unfold held.
      destruct (qi_phases _ _ Hq _ _ Hw) as [? ? -> ?|? ? -> ?|? ? -> ?|? ? Hx]; try done.
      specialize (Hx Hl). destruct (w_ch w) as [[v| |]|]; try done. by destruct (Hx v).
    + unfold Queue_leave. rewrite Hw. simpl. split; [|done]. destruct Hq as [Hst Hph Hcr HR].
      split; try done; [|set_solver]. intros j w Hj. eapply phase_R; [|by apply Hph].
      assert (j ≠ i) by congruence. set_solver.
  - unfold Queue_Leave. destruct (q_heap q !! i) as [w|] eqn:Hw.
    + destruct (leave_inv R q i w true Hq Hw) as (Hq' & Hp & Hv & _). split; [done|]. by rewrite Hp, Hv.
    + unfold Queue_leave. rewrite Hw. simpl. split; [|done]. destruct Hq as [Hst Hph Hcr HR].
      split; try done; [|set_solver]. intros j w Hj. eapply phase_R; [|by apply Hph].
      assert (j ≠ i) by congruence. set_solver.
  - by apply receive_inv.
  - destruct (flush_inv R q model Hq) as [? Hp]. by rewrite Hp.
  - split; [|done]. destruct Hq as [Hst Hph Hcr HR]. split; try done. by destruct Hst.
  - unfold Queue_ObserveWait. destruct (negb _); (split; [|done]); destruct Hq as [Hst Hph Hcr HR];
      (split; try done; by destruct Hst).
Qed.

Lemma qreach_inv p q R handed delivered :
  qreach p q R handed delivered → qinv R q ∧ handed ≡ₚ delivered ++ pending q.
Proof.
  induction 1 as [|q R handed delivered now o q' R' h d Hr [Hq Hp] Hl Hrun]; [split; [apply new_inv|done]|].
  destruct (qrun_inv _ _ _ _ _ _ _ _ Hq Hl Hrun) as [Hq' Hp']. split; [done|].
  rewrite Hp, (Permutation_app_comm d delivered), <-app_assoc, <-Hp'.
  rewrite !app_assoc. f_equiv. apply Permutation_app_comm.
Qed.

(** C17: no slot is lost or duplicated.  Over any run of the queue's methods and the waiters'
    receives, in any interleaving, the slots whose hand-off was accepted are exactly, with
    multiplicity, the slots delivered to a waiter (received from its channel, or returned by a
    [Leave] that raced with the hand-off) plus the ones still waiting in a channel. *)
Theorem slots_conserved p q R handed delivered :
  qreach p q R handed delivered → handed ≡ₚ delivered ++ pending q.
Proof. intros Hr. by apply qreach_inv in Hr as [_ Hp]. Qed.

(** C37: no wake-up is lost.  In every reachable state a queued waiter counts as routing exactly
    when the [Reroute] is in its channel or it is out routing; an idle one has an empty channel.
    A slot that was released while the head was routing is owed ([credit > 0]) only while a
    non-empty front part of the queue is routing or told to, everyone behind it being idle. *)
Theorem no_lost_wakeup p q R handed delivered :
  qreach p q R handed delivered →
  (∀ i w, q_heap q !! i = Some w → w_left w = false →
     (w_woken w = true ↔ (w_ch w = Some Reroute ∨ i ∈ R)) ∧
     (w_woken w = false → w_ch w = None)) ∧
  (∀ m mq, q_models q !! m = Some mq → 0 < mq_credit mq →
     ∃ l1 l2, mq_waiters mq = l1 ++ l2 ∧ l1 ≠ [] ∧
       Forall (λ i, woken q i = true) l1 ∧ Forall (λ i, woken q i = false) l2).
Proof.
  intros Hr. apply qreach_inv in Hr as [[Hst Hph Hcr _] _]. split.
  - intros i w Hw Hl. destruct (Hph _ _ Hw) as [? Hk Hc Hi|? Hk Hc Hi|? Hk Hc Hi|]; rewrite ?Hk, ?Hc; [..|congruence];
      naive_solver.
  - intros m mq Hm. by apply (Hcr _ _ Hm).
Qed.

(** The limits of the queue.  In every reachable state each model that has a queue has
    between one and MaxModelDepth waiters, kept in the order they were enqueued; there are at
    most MaxModels such models; the per-tenant counters are exact, and no tenant exceeds its
    share. *)
Theorem queue_limits p q R handed delivered m mq :
  qreach p q R handed delivered → q_models q !! m = Some mq →
  1 ≤ Z.of_nat (length (mq_waiters mq)) ≤ MaxModelDepth (q_p q) ∧
  StronglySorted lt (mq_waiters mq) ∧
  (0 < q_MaxModels (q_p q) → Z.of_nat (size (q_models q)) ≤ q_MaxModels (q_p q)) ∧
  (∀ t, t ≠ "" → default 0 (mq_tenants mq !! t) = countb (tenant_is q t) (mq_waiters mq) ∧
     (0 < tenantCap (q_p q) → default 0 (mq_tenants mq !! t) ≤ tenantCap (q_p q))).
Proof.
  intros Hr Hm. apply qreach_inv in Hr as [[[] _ _ _] _]. split_and!.
  - pose proof (s_nonempty0 _ _ Hm). destruct (mq_waiters mq); simpl; [done|lia].
  - eauto.
  - eauto.
  - done.
  - intros t Ht. rewrite (s_tenants0 _ _ _ Hm Ht). split; [done|eauto].
Qed.

(** A hand-off goes to the head.  In every reachable state [Handoff] accepts a slot exactly
    when the model has a waiter and the first one is idle; it then takes that waiter, the
    earliest enqueued of the queue, out of the queue and puts the slot in its channel, and the
    waiters behind it keep their places. *)
Theorem handoff_fifo p q R handed delivered m v :
  qreach p q R handed delivered →
  match q_models q !! m with
  | Some mq =>
      ∃ h rest, mq_waiters mq = h :: rest ∧ Forall (lt h) rest ∧
      let '(q', ok) := Queue_Handoff q m v in
      ok = negb (woken q h) ∧
      (ok = true →
         (∃ w, q_heap q' !! h = Some w ∧ w_left w = true ∧ w_ch w = Some (Handoff v)) ∧
         mq_waiters <$> q_models q' !! m = match rest with [] => None | _ => Some rest end)
  | None => Queue_Handoff q m v = (q, false)
  end.
Proof.
  intros Hr. apply qreach_inv in Hr as [[Hst Hph Hcr _] _]. unfold Queue_Handoff.
  destruct (q_models q !! m) as [mq|] eqn:Hm; [|done].
  destruct (mq_waiters mq) as [|h l] eqn:Hl; [by destruct (s_nonempty _ Hst _ _ Hm)|]. exists h, l.
  pose proof (s_sorted _ Hst _ _ Hm) as Hso. rewrite Hl in Hso. apply StronglySorted_inv in Hso as [_ Hlt].
  split_and!; [done|done|]. destruct (woken q h) eqn:Hwk; simpl.
  { by split. }
  split; [done|]. intros _.
  destruct (s_in _ Hst _ _ h Hm) as (w & Hw & <- & Hwl); [rewrite Hl; constructor|].
  assert (h ∈ mq_waiters mq) as Him by (rewrite Hl; constructor).
  destruct (queued_of _ _ _ Hst Hw Hwl) as (He & _).
  rewrite (leaveLocked_eq q h w mq) by done. cbv zeta.
  assert (∀ q0 : Queue V, match q_models q0 !! w_model w with Some _ => q0 | None => q0 end = q0) as -> by (intros q0; by destruct (q_models q0 !! w_model w)).
  split.
  - exists (gone w <| w_ch := Some (Handoff v) |>). split_and!; [|done|done]. simpl.
    rewrite lookup_alter_eq, without_heap, lookup_alter_eq, Hw. done.
  - simpl. unfold without. assert (filter (λ j, j ≠ h) (mq_waiters mq) = l) as ->.
    { rewrite Hl, filter_cons, decide_False by naive_solver. apply filter_ne_id. intros Hin.
      eapply Forall_forall in Hlt; [|exact Hin]. lia. }
    destruct l; simpl; [by rewrite lookup_delete_eq|by rewrite lookup_insert_eq].
Qed.

(** Leaving is idempotent.  After [Leave] or [Done] a waiter is out of the queue with an empty
    channel, and a further [Leave] changes nothing but that and returns nothing. *)
Theorem leave_idempotent p q R handed delivered i giveBack :
  qreach p q R handed delivered → is_Some (q_heap q !! i) →
  let q1 := (Queue_leave q i giveBack).1 in
  (∀ m mq, q_models q1 !! m = Some mq → i ∉ mq_waiters mq) ∧ Queue_Leave q1 i = (q1, None).
Proof.
  intros Hr [w Hw]. apply qreach_inv in Hr as [Hq _]. cbv zeta.
  destruct (leave_inv R q i w giveBack Hq Hw) as (Hq1 & _).
  assert (∃ w1, q_heap (Queue_leave q i giveBack).1 !! i = Some w1 ∧ w_left w1 = true ∧ w_ch w1 = None) as (w1 & Hw1 & Hl1 & Hc1).
  { unfold Queue_leave. rewrite Hw. destruct (w_left w) eqn:Hl; simpl.
    - unfold take_grant. rewrite Hw. simpl. rewrite lookup_alter_eq, Hw. simpl. by eexists.
    - destruct (leave_settled R q i w giveBack Hq Hw Hl) as (_ & _ & Hg & _). unfold take_grant. rewrite Hg. simpl.
      rewrite lookup_alter_eq, Hg. simpl. by eexists. }
  set (q1 := (Queue_leave q i giveBack).1) in *. split.
  - intros m mq Hm Hi. destruct (s_in _ (qi_structure _ _ Hq1) _ _ _ Hm Hi) as (w2 & Hw2 & _ & Hl2). congruence.
  - unfold Queue_Leave, Queue_leave. rewrite Hw1, Hl1. simpl. unfold take_grant. rewrite Hw1, Hc1. simpl. f_equal.
    unfold upd_waiter. rewrite alter_id; [by destruct q1|]. intros x Hx. assert (x = w1) as -> by congruence. destruct w1. simpl in *. by rewrite Hc1.
Qed.
End spec.

(** ** Concrete runs. *)

Section run.
Context {V : Type} `{GoPlatform} `{GoMapOrder}.

Fixpoint qrun_ops (x : Queue V * gset nat * list V * list V) (l : list (Time * @qop V))
  : option (Queue V * gset nat * list V * list V) :=
  match l with
  | [] => Some x
  | (now, o) :: l =>
      let '(q, R, handed, delivered) := x in
      if legal R o then
        let '(q', R', h, d) := qrun q R now o in
        qrun_ops (q', R', h ++ handed, d ++ delivered) l
      else None
  end.

Lemma qrun_ops_reach p l : ∀ q R handed delivered y,
  qreach p q R handed delivered → qrun_ops (q, R, handed, delivered) l = Some y →
  qreach p y.1.1.1 y.1.1.2 y.1.2 y.2.
Proof.
  induction l as [|[now o] l IH]; intros q R handed delivered y Hr Hl; simpl in Hl; [by injection Hl as <-|].
  destruct (legal R o) eqn:Ho; [|done]. destruct (qrun q R now o) as [[[q' R'] h] d] eqn:Hq.
  eapply IH; [|exact Hl]. by econstructor.
Qed.
End run.

(** Three requests of one model; the first is told to route on a refresh, a slot is released
    meanwhile (the second is told), the second finds nothing and parks, a slot is handed to it
    while it waits, and it times out just then: [Leave] returns the slot. *)
Definition ex_qp : QueueParams := mkQueueParams 4 (30 * Second) (flit 5 1) 8.
Definition ex_now : Time := mkTime 0 0.
Definition ex_qops : list (Time * @qop nat) :=
  (λ o, (ex_now, o)) <$>
  [QEnqueue "m" "a"; QEnqueue "m" "b"; QEnqueue "m" "a"; QWake "m" 1; QHandoff "m" 7%nat;
   QReceive 0; QReceive 1; QPark 1; QDone 0; QHandoff "m" 8%nat].

Definition ex_q : Queue nat * gset nat * list nat * list nat :=
  default (NewQueue ex_qp, ∅, [], [])
    (@qrun_ops nat amd64 order_id (NewQueue ex_qp, ∅, [], []) ex_qops).

Lemma ex_q_reach : @qreach nat amd64 order_id ex_qp ex_q.1.1.1 ex_q.1.1.2 ex_q.1.2 ex_q.2.
Proof. eapply (@qrun_ops_reach nat amd64 order_id ex_qp ex_qops); [constructor|vm_compute; reflexivity]. Qed.

Lemma slots_conserved_witness : ex_q.1.2 = [8%nat] ∧ ex_q.1.2 ≡ₚ ex_q.2 ++ pending ex_q.1.1.1.
Proof.
  split; [vm_compute; reflexivity|].
  exact (@slots_conserved nat amd64 order_id ex_qp _ _ _ _ ex_q_reach).
Defined.

Lemma no_lost_wakeup_witness :
  match q_heap ex_q.1.1.1 !! 2%nat with
  | Some w => w_woken w = false ∧ w_ch w = None
  | None => False
  end.
Proof.
  destruct (q_heap ex_q.1.1.1 !! 2%nat) as [w|] eqn:Hw; [|vm_compute in Hw; discriminate].
  assert (w_left w = false ∧ w_woken w = false) as [Hl Hk] by (vm_compute in Hw; injection Hw as <-; done).
  split; [exact Hk|].
  exact (proj2 (proj1 (@no_lost_wakeup nat amd64 order_id ex_qp _ _ _ _ ex_q_reach) 2%nat w Hw Hl) Hk).
Defined.

Lemma queue_limits_witness :
  match q_models ex_q.1.1.1 !! "m" with
  | Some mq => 1 ≤ Z.of_nat (length (mq_waiters mq)) ≤ 4
  | None => False
  end.
Proof.
  destruct (q_models ex_q.1.1.1 !! "m") as [mq|] eqn:Hm; [|vm_compute in Hm; discriminate].
  exact (proj1 (@queue_limits nat amd64 order_id ex_qp _ _ _ _ "m" mq ex_q_reach Hm)).
Defined.

Lemma handoff_fifo_witness :
  ∃ mq h rest, q_models ex_q.1.1.1 !! "m" = Some mq ∧ mq_waiters mq = h :: rest ∧ Forall (lt h) rest.
Proof.
  assert (∃ mq, q_models ex_q.1.1.1 !! "m" = Some mq) as [mq Hm] by (vm_compute; eexists; reflexivity).
  generalize (@handoff_fifo nat amd64 order_id ex_qp _ _ _ _ "m" 9%nat ex_q_reach). rewrite Hm.
  intros (h & rest & Hl & Hlt & _). exists mq, h, rest. split; [reflexivity|]. split; [exact Hl|exact Hlt].
Defined.

Lemma leave_idempotent_witness :
  (Queue_Leave ex_q.1.1.1 1).2 = Some (Handoff 8%nat) ∧
  (Queue_Leave (Queue_leave ex_q.1.1.1 1 true).1 1).2 = None.
Proof.
  split; [vm_compute; reflexivity|].
  refine (f_equal snd (proj2 (@leave_idempotent nat amd64 order_id ex_qp _ _ _ _ 1%nat true ex_q_reach _))).
  vm_compute. eexists. reflexivity.
Defined.
