(* ===== verification/Budget.v ===== *)
(** * The retry budget (internal/resilience/budget.go)

    Retries are limited per model to max(Min, floor(Ratio * first attempts)) over a sliding
    window.  Each method runs under the budget's mutex and is one atomic step.

    The specification is a ledger: the first attempts noted, and the retries reserved and not
    refunded, each with its second.  The theorems show that the sliding windows always hold
    exactly the ledger's entries of the last [n] seconds, so that [Reserve] grants a retry if
    and only if the ledger says there is one left. *)

From S2P Require Import Prelude GoFloat SlidingWindow.

Local Open Scope string_scope.
Local Open Scope list_scope.
Local Open Scope Z_scope.

Definition OtherModel : string := "other".

Record BudgetParams := mkBudgetParams {
  bp_Ratio : float64;
  bp_Min : Z;
  bp_Window : Z;
  bp_MaxModels : Z;
}.

Record Budget := mkBudget {
  bu_p : BudgetParams;
  bu_models : gmap string slidingWindow;
}.

#[global] Instance Budget_settable : Settable Budget := {| eta_of := λ b, mkBudget (bu_p b) (bu_models b) |}.

Record Reservation := mkReservation {
  r_model : string;
  r_at : Time;
  r_refunded : bool;
}.

#[global] Instance Reservation_settable : Settable Reservation := {| eta_of := λ r,
  mkReservation (r_model r) (r_at r) (r_refunded r) |}.

Definition NewBudget (p : BudgetParams) : Budget :=
  mkBudget (mkBudgetParams (bp_Ratio p) (bp_Min p)
              (if bp_Window p <? bucketWidth then bucketWidth else bp_Window p) (bp_MaxModels p)) ∅.

(** The key [window] resolves a model to: itself, or the shared key beyond the cap. *)
Definition budget_key (b : Budget) (model : string) : string :=
  match bu_models b !! model with
  | Some _ => model
  | None =>
      if (0 <? bp_MaxModels (bu_p b)) && (bp_MaxModels (bu_p b) <=? Z.of_nat (size (bu_models b)))
         && negb (String.eqb model OtherModel)
      then OtherModel else model
  end.

(** [window]: the window of the key, created if it is missing. *)
Definition Budget_window (b : Budget) (model : string) : Budget * slidingWindow * string :=
  let key := budget_key b model in
  match bu_models b !! key with
  | Some w => (b, w, key)
  | None =>
      let w := newSlidingWindow (bp_Window (bu_p b)) in
      (b <| bu_models := <[key := w]> (bu_models b) |>, w, key)
  end.

(** A write through the window pointer. *)
Definition Budget_store (b : Budget) (key : string) (w : slidingWindow) : Budget :=
  b <| bu_models := <[key := w]> (bu_models b) |>.

Definition Budget_NoteFirst (b : Budget) (now : Time) (model : string) : Budget :=
  let '(b, w, key) := Budget_window b model in
  Budget_store b key (slidingWindow_add w now now false 1).

Section budget.
Context `{GoPlatform} `{GoMapOrder}.

Definition Budget_limit (b : Budget) (firsts : Z) : Z :=
  Z.max (bp_Min (bu_p b)) (float_to_int (ffloor (fadd (fmul (bp_Ratio (bu_p b)) (f64 firsts)) (flit 1 9)))).

(** [Reserve]: [None] when the budget denies it. *)
Definition Budget_Reserve (b : Budget) (now : Time) (model : string) : Budget * option Reservation :=
  let '(b, w, key) := Budget_window b model in
  let '(firsts, retries) := slidingWindow_sum w now in
  if Budget_limit b firsts <=? retries then (b, None)
  else (Budget_store b key (slidingWindow_add w now now true 1), Some (mkReservation key now false)).

(** [Refund] through the reservation pointer: the budget and the reservation after the call. *)
Definition Budget_Refund (b : Budget) (now : Time) (r : option Reservation) : Budget * option Reservation :=
  match r with
  | None => (b, None)
  | Some r =>
      if r_refunded r then (b, Some r)
      else
        let r := r <| r_refunded := true |> in
        match bu_models b !! r_model r with
        | Some w => (Budget_store b (r_model r) (slidingWindow_add w (r_at r) now true (-1)), Some r)
        | None => (b, Some r)
        end
  end.

Definition Budget_Usage (b : Budget) (now : Time) (model : string) : Z * Z :=
  let key :=
    match bu_models b !! model with
    | None =>
        if (0 <? bp_MaxModels (bu_p b)) && (bp_MaxModels (bu_p b) <=? Z.of_nat (size (bu_models b)))
        then OtherModel else model
    | Some _ => model
    end in
  match bu_models b !! key with
  | Some w => slidingWindow_sum w now
  | None => (0, 0)
  end.

(** [Prune]'s test for one model. *)
Definition prune_keeps (now : Time) (keep : string → bool) (m : string) (w : slidingWindow) : bool :=
  keep m ||
  (String.eqb m OtherModel &&
   (let '(f, r) := slidingWindow_sum w now in negb (f =? 0) || negb (r =? 0))).

Definition Budget_Prune (b : Budget) (now : Time) (keep : string → bool) : Budget :=
  b <| bu_models := filter (λ mw : string * slidingWindow, prune_keeps now keep mw.1 mw.2 = true) (bu_models b) |>.
End budget.

(** ** The ledger. *)

(** First attempts: key and second.  Reservations: by number, as handed out. *)
Record ledger := mkLedger {
  l_firsts : list (string * Z);
  l_res : gmap nat Reservation;
  l_next : nat;
}.

Definition first_in (key : string) (i : Z) (e : string * Z) : bool := String.eqb e.1 key && (e.2 =? i).

Definition live_in (key : string) (i : Z) (r : Reservation) : bool :=
  String.eqb (r_model r) key && negb (r_refunded r) && (bucketOf (r_at r) =? i).

(** The ledger's counters of a key, per second. *)
Definition ledger_counts (l : ledger) (key : string) : counts :=
  λ i, (countb (first_in key i) (l_firsts l), mcount (live_in key i) (l_res l)).

Inductive bop :=
| BNoteFirst (model : string)
| BReserve (model : string)
| BRefund (k : nat)
| BPrune (keep : string → bool).

Section runs.
Context `{GoPlatform} `{GoMapOrder}.

Definition brun (b : Budget) (l : ledger) (now : Time) (o : bop) : Budget * ledger :=
  match o with
  | BNoteFirst model =>
      (Budget_NoteFirst b now model,
       mkLedger ((budget_key b model, bucketOf now) :: l_firsts l) (l_res l) (l_next l))
  | BReserve model =>
      match Budget_Reserve b now model with
      | (b, Some r) => (b, mkLedger (l_firsts l) (<[l_next l := r]> (l_res l)) (S (l_next l)))
      | (b, None) => (b, l)
      end
  | BRefund k =>
      match Budget_Refund b now (l_res l !! k) with
      | (b, Some r) => (b, mkLedger (l_firsts l) (<[k := r]> (l_res l)) (l_next l))
      | (b, None) => (b, l)
      end
  | BPrune keep => (Budget_Prune b now keep, l)
  end.

(** A model leaves the registry while it has no attempts in the window. *)
Definition quiet_prune (b : Budget) (now : Time) (o : bop) : Prop :=
  match o with
  | BPrune keep => ∀ m w, bu_models b !! m = Some w → keep m = false → slidingWindow_sum w now = (0, 0)
  | _ => True
  end.

(** The runs of a budget under a clock whose seconds do not go back. *)
Inductive breach (p : BudgetParams) : Budget → ledger → Z → Prop :=
| breach_new hi : breach p (NewBudget p) (mkLedger [] ∅ 0) hi
| breach_step b l hi now o :
    breach p b l hi → hi ≤ bucketOf now → quiet_prune b now o →
    breach p (brun b l now o).1 (brun b l now o).2 (bucketOf now).

(** ** The windows hold the ledger. *)

Definition win_n (b : Budget) : Z := sw_n (newSlidingWindow (bp_Window (bu_p b))).

Record budget_ok (b : Budget) (l : ledger) (hi : Z) : Prop := {
  bk_repr : ∀ key w, bu_models b !! key = Some w → repr w (ledger_counts l key) hi ∧ sw_n w = win_n b;
  (** A key without a window has nothing in the window. *)
  bk_none : ∀ key i, bu_models b !! key = None → hi - win_n b < i → ledger_counts l key i = (0, 0);
  bk_fresh : ∀ k, (l_next l ≤ k)%nat → l_res l !! k = None;
  (** Nothing is dated after the last step. *)
  bk_past : ∀ k r, l_res l !! k = Some r → bucketOf (r_at r) ≤ hi;
}.

Lemma budget_ok_advance b l hi hi' : hi ≤ hi' → budget_ok b l hi → budget_ok b l hi'.
Proof.
  intros Hle [Hr Hn Hf Hp]. split; [| |done|].
  - intros key w Hw. destruct (Hr _ _ Hw) as [Hrw Hs]. split; [|done]. by eapply repr_advance.
  - intros key i Hk Hi. apply Hn; [done|lia].
  - intros k r Hk. specialize (Hp _ _ Hk). lia.
Qed.

Lemma fresh_window_repr (c : counts) window hi :
  (∀ i, hi - sw_n (newSlidingWindow window) < i → c i = (0, 0)) → repr (newSlidingWindow window) c hi.
Proof.
  intros Hc. destruct (newSlidingWindow_repr window hi) as [Hw Hr _ Hs]. split; [done| |intros; apply Hc|done].
  - intros i Hi. rewrite Hr, Hc by (done || lia). done.
  - destruct Hw. lia.
Qed.

Lemma window_ok b l hi model b' w key :
  budget_ok b l hi → Budget_window b model = (b', w, key) →
  budget_ok b' l hi ∧ key = budget_key b model ∧ bu_p b' = bu_p b ∧ bu_models b' !! key = Some w.
Proof.
  intros Hok. unfold Budget_window. destruct (bu_models b !! budget_key b model) as [w0|] eqn:Hk; intros [= <- <- <-].
  { done. }
  split_and!; [|done|done|apply lookup_insert_eq]. destruct Hok as [Hr Hn Hf Hp]. split; [| |done|done].
  - intros key w. simpl. rewrite lookup_insert. case_decide as Heq; [|apply Hr]. intros [= <-]. subst key. split; [|done].
    apply fresh_window_repr. intros i Hi. by apply Hn.
  - intros key i. simpl. rewrite lookup_insert. case_decide; [done|]. apply Hn.
Qed.

Lemma store_ok b l l' hi key w w' :
  budget_ok b l hi → bu_models b !! key = Some w → repr w' (ledger_counts l' key) hi → sw_n w' = sw_n w →
  (∀ key' i, key' ≠ key → ledger_counts l' key' i = ledger_counts l key' i) →
  (∀ k, (l_next l' ≤ k)%nat → l_res l' !! k = None) →
  (∀ k r, l_res l' !! k = Some r → bucketOf (r_at r) ≤ hi) →
  budget_ok (Budget_store b key w') l' hi.
Proof.
  intros [Hr Hn _ _] Hw Hrep Hsn Hoth Hf Hp. split; [| |done|done].
  - intros key' w0. simpl. rewrite lookup_insert. case_decide as Hk.
    + intros [= <-]. subst. split; [done|]. rewrite Hsn. by apply (Hr _ _ Hw).
    + intros Hw0. destruct (Hr _ _ Hw0) as [Hr0 Hs0]. split; [|done]. eapply repr_ext; [done|]. intros i. symmetry. by apply Hoth.
  - intros key' i. simpl. rewrite lookup_insert. case_decide as Hk; [done|]. intros Hw0 Hi. rewrite Hoth by congruence. by apply Hn.
Qed.

Lemma add_n w t now which delta : sw_n (slidingWindow_add w t now which delta) = sw_n w.
Proof. apply (win_step_n w (mkEvent t now which delta)). Qed.

Lemma first_in_pair key key' i j : first_in key i (key', j) = String.eqb key' key && (j =? i).
Proof. done. Qed.

Lemma live_in_new key key' i now : live_in key i (mkReservation key' now false) = String.eqb key' key && (bucketOf now =? i).
Proof. unfold live_in. simpl. by rewrite andb_true_r. Qed.

Lemma noteFirst_ok b l now model :
  budget_ok b l (bucketOf now) →
  budget_ok (brun b l now (BNoteFirst model)).1 (brun b l now (BNoteFirst model)).2 (bucketOf now).
Proof.
  intros Hok. simpl. unfold Budget_NoteFirst. destruct (Budget_window b model) as [[b' w] key] eqn:Hw.
  destruct (window_ok _ _ _ _ _ _ _ Hok Hw) as (Hok' & -> & _ & Hk). destruct (bk_repr _ _ _ Hok' _ _ Hk) as [Hr _].
  eapply store_ok; [done|done| |apply add_n| |apply Hok'|apply Hok'].
  - eapply repr_ext; [apply add_repr; [done|]|].
    + pose proof (wf_n _ (repr_wf _ _ _ Hr)). lia.
    + intros i. unfold counts_add, ledger_counts. simpl. rewrite countb_cons, first_in_pair, String.eqb_refl. simpl. destruct (Z.eqb_spec i (bucketOf now)) as [->|Hne].
      * rewrite Z.eqb_refl. simpl. pose proof (countb_nonneg (first_in (budget_key b model) (bucketOf now)) (l_firsts l)).
        unfold bump. simpl. f_equal. destruct (Z.ltb_spec (countb (first_in (budget_key b model) (bucketOf now)) (l_firsts l) + 1) 0); lia.
      * destruct (Z.eqb_spec (bucketOf now) i); [congruence|]. simpl. f_equal; lia.
  - intros key' i Hne. unfold ledger_counts. simpl. rewrite countb_cons, first_in_pair, (proj2 (String.eqb_neq _ _)) by done. simpl. f_equal; lia.
Qed.

Lemma mcount_live_insert l key i r k :
  l_res l !! k = None →
  mcount (live_in key i) (<[k := r]> (l_res l)) = Z.b2z (live_in key i r) + mcount (live_in key i) (l_res l).
Proof. apply mcount_insert_None. Qed.

Lemma reserve_ok b l now model :
  budget_ok b l (bucketOf now) →
  budget_ok (brun b l now (BReserve model)).1 (brun b l now (BReserve model)).2 (bucketOf now).
Proof.
  intros Hok. simpl. unfold Budget_Reserve. destruct (Budget_window b model) as [[b' w] key] eqn:Hw.
  destruct (window_ok _ _ _ _ _ _ _ Hok Hw) as (Hok' & -> & _ & Hk). destruct (bk_repr _ _ _ Hok' _ _ Hk) as [Hr _].
  destruct (slidingWindow_sum w now) as [f r]. destruct (_ <=? _); simpl; [done|].
  assert (l_res l !! l_next l = None) as Hfresh by (by apply (bk_fresh _ _ _ Hok)).
  eapply store_ok; [done|done| |apply add_n| | |].
  - eapply repr_ext; [apply add_repr; [done|]|].
    + pose proof (wf_n _ (repr_wf _ _ _ Hr)). lia.
    + intros i. unfold counts_add, ledger_counts. simpl. rewrite mcount_live_insert by done. rewrite live_in_new, String.eqb_refl. simpl. destruct (Z.eqb_spec i (bucketOf now)) as [->|Hne].
      * rewrite Z.eqb_refl. simpl. pose proof (mcount_nonneg (live_in (budget_key b model) (bucketOf now)) (l_res l)).
        unfold bump. simpl. f_equal. destruct (Z.ltb_spec (mcount (live_in (budget_key b model) (bucketOf now)) (l_res l) + 1) 0); lia.
      * destruct (Z.eqb_spec (bucketOf now) i); [congruence|]. simpl. f_equal; lia.
  - intros key' i Hne. unfold ledger_counts. simpl. rewrite mcount_live_insert by done. rewrite live_in_new, (proj2 (String.eqb_neq _ _)) by done. simpl. f_equal; lia.
  - intros k Hk'. simpl in *. rewrite lookup_insert_ne by lia. apply (bk_fresh _ _ _ Hok). lia.
  - intros k r'. simpl. rewrite lookup_insert. case_decide; [intros [= <-]; simpl; lia|]. apply (bk_past _ _ _ Hok).
Qed.

(** What a refund takes out of the ledger. *)
Lemma refund_counts l k r key i :
  l_res l !! k = Some r → r_refunded r = false →
  mcount (live_in key i) (<[k := r <| r_refunded := true |>]> (l_res l))
  = mcount (live_in key i) (l_res l) - Z.b2z (String.eqb (r_model r) key && (bucketOf (r_at r) =? i)).
Proof.
  intros Hk Hr. rewrite (mcount_insert_Some _ _ _ _ _ Hk). unfold live_in at 2 3. simpl. rewrite Hr. simpl.
  rewrite andb_false_r, andb_true_r. simpl. lia.
Qed.

Lemma refund_ok b l now k :
  budget_ok b l (bucketOf now) →
  budget_ok (brun b l now (BRefund k)).1 (brun b l now (BRefund k)).2 (bucketOf now).
Proof.
  intros Hok. simpl. destruct (l_res l !! k) as [r|] eqn:Hk; [|done]. simpl.
  destruct (r_refunded r) eqn:Hrf; simpl.
  { rewrite insert_id by done. destruct l. done. }
  pose proof (bk_past _ _ _ Hok _ _ Hk) as Hpast.
  assert (∀ k', (l_next l ≤ k')%nat → <[k:=r <| r_refunded := true |>]> (l_res l) !! k' = None) as Hfresh.
  { intros k' Hk'. rewrite lookup_insert. case_decide; [subst; by rewrite (bk_fresh _ _ _ Hok) in Hk|by apply (bk_fresh _ _ _ Hok)]. }
  assert (∀ k' r', <[k:=r <| r_refunded := true |>]> (l_res l) !! k' = Some r' → bucketOf (r_at r') ≤ bucketOf now) as Hpast'.
  { intros k' r'. rewrite lookup_insert. case_decide; [intros [= <-]; done|apply (bk_past _ _ _ Hok)]. }
  destruct (bu_models b !! r_model r) as [w|] eqn:Hw; simpl.
  - destruct (bk_repr _ _ _ Hok _ _ Hw) as [Hr Hn].
    eapply store_ok; [done|done| |apply add_n| |done|done].
    + destruct (decide (bucketOf now - sw_n w < bucketOf (r_at r))) as [Hin|Hout].
      * eapply repr_ext; [apply add_repr; [done|lia]|]. intros i. unfold counts_add, ledger_counts. simpl.
        rewrite (refund_counts l k r) by done. rewrite String.eqb_refl. simpl.
        destruct (Z.eqb_spec i (bucketOf (r_at r))) as [->|Hne].
        -- rewrite Z.eqb_refl. simpl. unfold bump. simpl. f_equal.
           assert (0 < mcount (live_in (r_model r) (bucketOf (r_at r))) (l_res l)).
           { eapply mcount_pos; [done|]. unfold live_in. by rewrite String.eqb_refl, Hrf, Z.eqb_refl. }
           destruct (Z.ltb_spec (mcount (live_in (r_model r) (bucketOf (r_at r))) (l_res l) + -1) 0); lia.
        -- destruct (Z.eqb_spec (bucketOf (r_at r)) i); [congruence|]. simpl. f_equal; lia.
      * rewrite add_outside by lia. eapply repr_ext_window; [done|]. intros i Hi. unfold ledger_counts. simpl.
        rewrite (refund_counts l k r) by done. destruct (Z.eqb_spec (bucketOf (r_at r)) i); [lia|].
        rewrite andb_false_r. simpl. f_equal; lia.
    + intros key' i Hne. unfold ledger_counts. simpl. rewrite (refund_counts l k r) by done.
      rewrite (proj2 (String.eqb_neq _ _)) by done. simpl. f_equal; lia.
  - assert (∀ key i, bucketOf now - win_n b < i → ledger_counts (mkLedger (l_firsts l) (<[k := r <| r_refunded := true |>]> (l_res l)) (l_next l)) key i = ledger_counts l key i) as Heq.
    { intros key i Hi. unfold ledger_counts. simpl. rewrite (refund_counts l k r) by done.
      destruct (String.eqb_spec (r_model r) key) as [<-|]; simpl; [|f_equal; lia].
      destruct (Z.eqb_spec (bucketOf (r_at r)) i) as [<-|]; simpl; [|f_equal; lia]. exfalso.
      pose proof (bk_none _ _ _ Hok _ _ Hw Hi) as Hz. injection Hz as _ Hz.
      assert (0 < mcount (live_in (r_model r) (bucketOf (r_at r))) (l_res l)); [|lia].
      eapply mcount_pos; [done|]. unfold live_in. by rewrite String.eqb_refl, Hrf, Z.eqb_refl. }
    destruct Hok as [Hr Hn _ _]. split; [| |done|done].
    + intros key w Hkw. destruct (Hr _ _ Hkw) as [Hrw Hsn]. split; [|done]. eapply repr_ext_window; [done|].
      intros i Hi. apply Heq. lia.
    + intros key i Hkn Hi. rewrite Heq by done. by apply Hn.
Qed.

Lemma prune_ok b l now keep :
  budget_ok b l (bucketOf now) → quiet_prune b now (BPrune keep) →
  budget_ok (Budget_Prune b now keep) l (bucketOf now).
Proof.
  intros [Hr Hn Hf Hp] Hq. split; [| |done|done].
  - intros key w [Hw _]%map_lookup_filter_Some. by apply Hr.
  - intros key i Hnone Hi. change (win_n (Budget_Prune b now keep)) with (win_n b) in Hi.
    apply map_lookup_filter_None in Hnone as [Hnone|Hdrop]; [by apply Hn|].
    destruct (bu_models b !! key) as [w|] eqn:Hw; [|by apply Hn].
    specialize (Hdrop w eq_refl). simpl in Hdrop. unfold prune_keeps in Hdrop.
    destruct (keep key) eqn:Hk; [done|]. destruct (Hr _ _ Hw) as [Hrw Hsn].
    eapply sum_zero_repr; [done|by apply (Hq _ _ Hw)|lia].
Qed.

Lemma breach_ok p b l hi : breach p b l hi → budget_ok b l hi.
Proof.
  induction 1 as [hi|b l hi now o Hb IH Hle Hq].
  - by split.
  - apply (budget_ok_advance _ _ _ _ Hle) in IH.
    destruct o; [by apply noteFirst_ok|by apply reserve_ok|by apply refund_ok|by apply prune_ok].
Qed.

(** ** What the ledger says. *)

(** First attempts and live retries of a key in the window that ends at [cur]. *)
Definition firsts_in (l : ledger) (key : string) (n cur : Z) : Z :=
  countb (λ e : string * Z, String.eqb e.1 key && (cur - n <? e.2) && (e.2 <=? cur)) (l_firsts l).

Definition retries_in (l : ledger) (key : string) (n cur : Z) : Z :=
  mcount (λ r, String.eqb (r_model r) key && negb (r_refunded r) &&
               (cur - n <? bucketOf (r_at r)) && (bucketOf (r_at r) <=? cur)) (l_res l).

Lemma counts_sum_ledger l key n cur :
  counts_sum (ledger_counts l key) n cur = (firsts_in l key n cur, retries_in l key n cur).
Proof.
  unfold counts_sum, pairsum, firsts_in, retries_in, mcount. rewrite <-!list_fmap_compose. f_equal.
  - apply (sum_window_countb (λ e : string * Z, String.eqb e.1 key) (λ e, e.2)).
  - apply (sum_window_countb (λ r, String.eqb (r_model r) key && negb (r_refunded r)) (λ r, bucketOf (r_at r))).
Qed.

(** The budget is exact.  Over any run of the budget's methods under a clock whose seconds do
    not go back, [Reserve] grants a retry for a model if and only if fewer live retries (reserved
    and not refunded) than max(Min, floor(Ratio * firsts)) fall in the window, counted from the
    whole history; a grant then adds exactly one live retry, so the limit is never overshot,
    and a denial leaves the history as it was. *)
Theorem reserve_exact p b l hi now model :
  breach p b l hi → hi ≤ bucketOf now →
  let key := budget_key b model in
  let n := win_n b in
  let limit := Budget_limit b (firsts_in l key n (bucketOf now)) in
  let used := retries_in l key n (bucketOf now) in
  let '(b', l') := brun b l now (BReserve model) in
  (is_Some (Budget_Reserve b now model).2 ↔ used < limit) ∧
  retries_in l' key n (bucketOf now) = (if used <? limit then used + 1 else used) ∧
  (used < limit → retries_in l' key n (bucketOf now) ≤ limit).
Proof.
  intros Hb Hle. cbv zeta. apply breach_ok in Hb as Hok. apply (budget_ok_advance _ _ _ _ Hle) in Hok.
  unfold brun, Budget_Reserve. destruct (Budget_window b model) as [[b' w] key] eqn:Hw.
  destruct (window_ok _ _ _ _ _ _ _ Hok Hw) as (Hok' & -> & Hp & Hk). destruct (bk_repr _ _ _ Hok' _ _ Hk) as [Hr Hn].
  rewrite (sum_repr _ _ _ Hr), counts_sum_ledger. replace (sw_n w) with (win_n b) by (rewrite Hn; unfold win_n; by rewrite Hp).
  replace (Budget_limit b') with (Budget_limit b) by (unfold Budget_limit; by rewrite Hp).
  set (used := retries_in l _ _ _). set (limit := Budget_limit b _).
  destruct (Z.leb_spec limit used) as [Hge|Hlt]; simpl.
  - destruct (Z.ltb_spec used limit); [lia|]. split_and!; [split; [by intros []|lia]|done|lia].
  - destruct (Z.ltb_spec used limit); [|lia].
    assert (retries_in (mkLedger (l_firsts l) (<[l_next l := mkReservation (budget_key b model) now false]> (l_res l)) (S (l_next l)))
              (budget_key b model) (win_n b) (bucketOf now) = used + 1) as ->.
    { unfold retries_in. simpl. rewrite mcount_insert_None by (by apply (bk_fresh _ _ _ Hok)). simpl.
      rewrite String.eqb_refl. simpl. pose proof (wf_n _ (newSlidingWindow_wf (bp_Window (bu_p b)))).
      rewrite (proj2 (Z.ltb_lt _ _)) by (unfold win_n; lia). rewrite (proj2 (Z.leb_le _ _)) by lia. simpl.
      unfold used, retries_in. lia. }
    split_and!; [|done|lia]. split; [done|]. intros _. by eexists.
Qed.

(** A refund returns exactly the reserved retry, once.  Refunding a live reservation of the
    history takes one live retry of its model out of the window while its second is still
    there; refunding it again changes neither the windows nor the history. *)
Theorem refund_once p b l hi now k r now' :
  breach p b l hi → hi ≤ bucketOf now → l_res l !! k = Some r → r_refunded r = false →
  let '(b1, l1) := brun b l now (BRefund k) in
  retries_in l1 (r_model r) (win_n b) (bucketOf now)
    = retries_in l (r_model r) (win_n b) (bucketOf now) - Z.b2z (bucketOf now - win_n b <? bucketOf (r_at r)) ∧
  brun b1 l1 now' (BRefund k) = (b1, l1).
Proof.
  intros Hb Hle Hk Hr. apply breach_ok in Hb as Hok. pose proof (bk_past _ _ _ Hok _ _ Hk) as Hpast.
  simpl. rewrite Hk. simpl. rewrite Hr.
  assert (∀ b1 : Budget, let l1 := mkLedger (l_firsts l) (<[k := r <| r_refunded := true |>]> (l_res l)) (l_next l) in
    retries_in l1 (r_model r) (win_n b) (bucketOf now)
    = retries_in l (r_model r) (win_n b) (bucketOf now) - Z.b2z (bucketOf now - win_n b <? bucketOf (r_at r)) ∧
    brun b1 l1 now' (BRefund k) = (b1, l1)) as Hgen.
  { intros b1. cbv zeta. split.
    - unfold retries_in. simpl. rewrite (mcount_insert_Some _ _ _ _ _ Hk). simpl.
      rewrite String.eqb_refl, Hr. simpl. rewrite (proj2 (Z.leb_le _ _)) by lia. rewrite andb_true_r. lia.
    - simpl. rewrite lookup_insert_eq. simpl. by rewrite insert_insert_eq. }
  destruct (bu_models b !! r_model r); simpl; apply Hgen.
Qed.

(** The tracked models and the shared one. *)
Definition size_ok (b : Budget) : Prop :=
  Z.of_nat (size (bu_models b)) ≤ bp_MaxModels (bu_p b) + 1 ∧
  (bp_MaxModels (bu_p b) < Z.of_nat (size (bu_models b)) → is_Some (bu_models b !! OtherModel)).

Lemma window_size b model b' w key :
  0 < bp_MaxModels (bu_p b) → size_ok b → Budget_window b model = (b', w, key) →
  size_ok b' ∧ bu_p b' = bu_p b ∧ bu_models b' !! key = Some w.
Proof.
  intros Hpos [Hs Ho]. unfold Budget_window.
  destruct (bu_models b !! budget_key b model) as [w0|] eqn:Hk; intros [= <- <- <-]; [done|].
  split; [|split; [done|apply lookup_insert_eq]]. unfold size_ok. simpl. rewrite map_size_insert, Hk. unfold budget_key in *.
  destruct (bu_models b !! model) eqn:Hm; [congruence|]. rewrite (proj2 (Z.ltb_lt _ _)) in * by done. simpl in *.
  destruct (Z.leb_spec (bp_MaxModels (bu_p b)) (Z.of_nat (size (bu_models b)))) as [Hge|Hlt]; simpl in *; [|split; lia].
  assert ((if negb (String.eqb model OtherModel) then OtherModel else model) = OtherModel) as Heq
    by (destruct (String.eqb_spec model OtherModel); done).
  rewrite Heq in *. assert (¬ bp_MaxModels (bu_p b) < Z.of_nat (size (bu_models b))) by (intros [? ?]%Ho; congruence).
  split; [lia|]. intros _. rewrite lookup_insert_eq. by eexists.
Qed.

Lemma store_size b key w w' : size_ok b → bu_models b !! key = Some w → size_ok (Budget_store b key w').
Proof.
  intros [Hs Ho] Hk. unfold size_ok. simpl. rewrite map_size_insert, Hk. split; [done|]. intros Hlt%Ho.
  rewrite lookup_insert. case_decide; [by eexists|done].
Qed.

Lemma prune_size b now keep : size_ok b → size_ok (Budget_Prune b now keep).
Proof.
  intros [Hs Ho]. unfold size_ok. simpl. set (f := filter _ (bu_models b)).
  assert (f ⊆ bu_models b) as Hsub by apply map_filter_subseteq.
  pose proof (map_subseteq_size _ _ Hsub). split; [lia|]. intros Hlt. destruct Ho as [w Hw]; [lia|].
  destruct (f !! OtherModel) as [w'|] eqn:Hf; [by eexists|]. exfalso.
  assert (f ⊆ delete OtherModel (bu_models b)) as Hd%map_subseteq_size.
  { apply map_subseteq_spec. intros k x Hx. rewrite lookup_delete_ne by congruence. by eapply lookup_weaken. }
  rewrite (map_size_delete_Some OtherModel (bu_models b) (mk_is_Some _ _ Hw)) in Hd. pose proof (map_size_ne_0_lookup_2 (bu_models b) OtherModel (mk_is_Some _ _ Hw)). lia.
Qed.

(** The budget tracks a bounded number of models: at most MaxModels of them and the shared
    window, whatever names the requests carry. *)
Theorem budget_bounded p b l hi :
  breach p b l hi → 0 < bp_MaxModels p → Z.of_nat (size (bu_models b)) ≤ bp_MaxModels p + 1.
Proof.
  intros Hb Hpos. assert (size_ok b ∧ bp_MaxModels (bu_p b) = bp_MaxModels p) as [[Hs _] <-]; [|done].
  induction Hb as [hi|b l hi now o Hb [IH Hp] Hle Hq]; [split; [|done]; split; simpl; rewrite map_size_empty; lia|].
  rewrite <-Hp in Hpos. destruct o as [model|model|k|keep]; simpl.
  - unfold Budget_NoteFirst. destruct (Budget_window b model) as [[b' w] key] eqn:Hw.
    destruct (window_size _ _ _ _ _ Hpos IH Hw) as (Hs' & Hp' & Hk). split; [by eapply store_size|]. simpl. by rewrite Hp'.
  - unfold Budget_Reserve. destruct (Budget_window b model) as [[b' w] key] eqn:Hw.
    destruct (window_size _ _ _ _ _ Hpos IH Hw) as (Hs' & Hp' & Hk). destruct (slidingWindow_sum w now) as [f r].
    destruct (_ <=? _); simpl; rewrite Hp'; (split; [|done]); [done|by eapply store_size].
  - destruct (l_res l !! k) as [r|]; simpl; [|done]. destruct (r_refunded r); simpl; [done|].
    destruct (bu_models b !! r_model r) eqn:Hk; simpl; [|done]. split; [by eapply store_size|done].
  - split; [by apply prune_size|done].
Qed.
End runs.

(** ** Concrete runs. *)

Definition ex_bp : BudgetParams := mkBudgetParams (flit 2 1) 1 (10 * Second) 2.
Definition ex_at (s : Z) : Time := mkTime (s * Second) (s * Second).

Definition ex_brun (l : list (Z * bop)) : Budget * ledger :=
  foldl (λ x e, @brun amd64 x.1 x.2 (ex_at e.1) e.2) (NewBudget ex_bp, mkLedger [] ∅ 0) l.

Definition ex_bops : list (Z * bop) := [(100, BNoteFirst "m"); (101, BReserve "m")].

Lemma ex_breach : @breach amd64 ex_bp (ex_brun ex_bops).1 (ex_brun ex_bops).2 101.
Proof.
  change 101 with (bucketOf (ex_at 101)).
  eapply (breach_step ex_bp _ _ 100 (ex_at 101) (BReserve "m")); [|vm_compute; discriminate|done].
  change 100 with (bucketOf (ex_at 100)).
  eapply (breach_step ex_bp _ _ 0 (ex_at 100) (BNoteFirst "m")); [constructor|vm_compute; discriminate|done].
Qed.

(** One retry of one is used: the next is denied. *)
Lemma reserve_exact_witness :
  ¬ is_Some (@Budget_Reserve amd64 (ex_brun ex_bops).1 (ex_at 102) "m").2.
Proof.
  pose proof (@reserve_exact amd64 ex_bp _ _ 101 (ex_at 102) "m" ex_breach ltac:(vm_compute; discriminate)) as Hr.
  cbv zeta in Hr. destruct (brun _ _ _ _) as [b' l']. destruct Hr as [Hr _]. rewrite Hr. vm_compute. discriminate.
Defined.

Lemma refund_once_witness :
  retries_in (ex_brun (ex_bops ++ [(102, BRefund 0)])).2 "m" 10 102 = 0.
Proof.
  pose proof (@refund_once amd64 ex_bp _ _ 101 (ex_at 102) 0%nat (mkReservation "m" (ex_at 101) false) (ex_at 103)
    ex_breach ltac:(vm_compute; discriminate) ltac:(vm_compute; reflexivity) eq_refl) as Hr.
  destruct (brun _ _ _ _) as [b1 l1] eqn:Hb. destruct Hr as [Hr _].
  assert (l1 = (ex_brun (ex_bops ++ [(102, BRefund 0)])).2) as <- by (vm_compute in Hb; injection Hb as _ <-; vm_compute; reflexivity).
  etransitivity; [exact Hr|]. vm_compute. reflexivity.
Defined.

Lemma budget_bounded_witness : Z.of_nat (size (bu_models (ex_brun ex_bops).1)) ≤ 3.
Proof. exact (@budget_bounded amd64 ex_bp _ _ 101 ex_breach eq_refl). Defined.

(** A window that is dropped while a retry is out forgets it: the refund that comes after the
    model is back takes another request's retry, which is then not counted. *)
Example refund_after_prune :
  let r := ex_brun [(100, BReserve "m"); (100, BPrune (λ _, false)); (100, BReserve "m"); (100, BRefund 0)] in
  Budget_Usage r.1 (ex_at 100) "m" = (0, 0) ∧ retries_in r.2 "m" 10 100 = 1.
Proof. split; vm_compute; reflexivity. Qed.
