(* ===== verification/Admission.v ===== *)
(** * The global admission counter (internal/resilience/admission.go)

    A lock-free counter: [Acquire] is a compare-and-swap loop, [Release] a compare-and-swap on
    the slot's flag followed by an atomic decrement.  Atomic operations interleave freely, so
    the model is a step relation over the shared words and the program counters of the
    goroutines inside [Acquire] and [Release]; each step is one atomic operation. *)

From stdpp Require Import relations.
From S2P Require Import Prelude.

Local Open Scope Z_scope.

(** Where a goroutine is: about to load, about to swap the value it loaded, or (inside [Release]
    of a slot) about to decrement. *)
Inductive apc :=
| AtLoad
| AtCAS (cur : Z)
| AtDecrement.

Record Admission := mkAdmission {
  a_max : Z;
  a_active : Z;
  (** The [released] flag of each slot handed out. *)
  a_slots : gmap nat bool;
  a_next : nat;
  a_threads : gmap nat apc;
}.

#[global] Instance Admission_settable : Settable Admission := {| eta_of := λ a,
  mkAdmission (a_max a) (a_active a) (a_slots a) (a_next a) (a_threads a) |}.

Definition NewAdmission (max : Z) : Admission := mkAdmission max 0 ∅ 0 ∅.

(** The slot a successful [Acquire] returns. *)
Definition new_slot (a : Admission) : Admission :=
  a <| a_slots := <[a_next a := false]> (a_slots a) |> <| a_next := S (a_next a) |>.

Definition set_thread (a : Admission) (t : nat) (pc : option apc) : Admission :=
  a <| a_threads := partial_alter (λ _, pc) t (a_threads a) |>.

(** Entering [Acquire]: with no cap, one atomic add; otherwise the loop. *)
Definition Acquire_enter (a : Admission) (t : nat) : Admission :=
  if 0 <? a_max a then set_thread a t (Some AtLoad)
  else new_slot (a <| a_active := a_active a + 1 |>).

(** One atomic step of the loop of [Acquire]: the load with the test that follows it, or the
    compare-and-swap.  The goroutine leaves the loop when the cap is reached or the swap succeeds. *)
Definition Acquire_step (a : Admission) (t : nat) (pc : apc) : Admission :=
  match pc with
  | AtLoad =>
      let cur := a_active a in
      if a_max a <=? cur then set_thread a t None else set_thread a t (Some (AtCAS cur))
  | AtCAS cur =>
      if a_active a =? cur then new_slot (set_thread (a <| a_active := cur + 1 |>) t None)
      else set_thread a t (Some AtLoad)
  | AtDecrement => a
  end.

(** The flag of a slot: true when it was released (or the pointer is nil). *)
Definition Slot_Release_cas (a : Admission) (t : nat) (slot : nat) : Admission :=
  match a_slots a !! slot with
  | Some false => set_thread (a <| a_slots := <[slot := true]> (a_slots a) |>) t (Some AtDecrement)
  | _ => a
  end.

Definition Slot_Release_add (a : Admission) (t : nat) : Admission :=
  set_thread (a <| a_active := a_active a - 1 |>) t None.

Definition Admission_Active (a : Admission) : Z := a_active a.
Definition Admission_Limit (a : Admission) : Z := a_max a.

Inductive astep : Admission → Admission → Prop :=
| astep_enter a t : a_threads a !! t = None → astep a (Acquire_enter a t)
| astep_loop a t pc : a_threads a !! t = Some pc → pc ≠ AtDecrement → astep a (Acquire_step a t pc)
| astep_release a t slot : a_threads a !! t = None → astep a (Slot_Release_cas a t slot)
| astep_decrement a t : a_threads a !! t = Some AtDecrement → astep a (Slot_Release_add a t).

(** ** The counter is the number of requests inside. *)

Definition held_slot (released : bool) : bool := negb released.
Definition releasing (pc : apc) : bool := match pc with AtDecrement => true | _ => false end.

Record admission_ok (a : Admission) : Prop := {
  ao_active : a_active a = mcount held_slot (a_slots a) + mcount releasing (a_threads a);
  ao_max : 0 < a_max a → a_active a ≤ a_max a;
  ao_fresh : ∀ s, (a_next a ≤ s)%nat → a_slots a !! s = None;
  ao_cas : ∀ t cur, a_threads a !! t = Some (AtCAS cur) → cur < a_max a;
}.

Lemma set_thread_count a t old new :
  a_threads a !! t = old →
  mcount releasing (a_threads (set_thread a t new))
  = mcount releasing (a_threads a) - match old with Some pc => Z.b2z (releasing pc) | None => 0 end
    + match new with Some pc => Z.b2z (releasing pc) | None => 0 end.
Proof.
  intros Ht. unfold set_thread; simpl. destruct new as [pc|].
  - change (partial_alter (λ _, Some pc) t (a_threads a)) with (<[t := pc]> (a_threads a)).
    destruct old; [rewrite (mcount_insert_Some _ _ _ _ _ Ht)|rewrite (mcount_insert_None _ _ _ _ Ht)]; lia.
  - change (partial_alter (λ _, None) t (a_threads a)) with (delete t (a_threads a)).
    destruct old; [rewrite (mcount_delete _ _ _ _ Ht); lia|rewrite delete_id by done; lia].
Qed.

Lemma set_thread_cas a t new t' cur :
  a_threads (set_thread a t new) !! t' = Some (AtCAS cur) →
  new = Some (AtCAS cur) ∨ a_threads a !! t' = Some (AtCAS cur).
Proof.
  unfold set_thread; simpl. rewrite lookup_partial_alter. case_decide; [by left|by right].
Qed.

Lemma new_slot_ok a :
  (∀ s, (a_next a ≤ s)%nat → a_slots a !! s = None) →
  mcount held_slot (a_slots (new_slot a)) = 1 + mcount held_slot (a_slots a) ∧
  (∀ s, (a_next (new_slot a) ≤ s)%nat → a_slots (new_slot a) !! s = None).
Proof.
  intros Hf. unfold new_slot; simpl. split.
  - by rewrite mcount_insert_None by (by apply Hf).
  - intros s Hs. rewrite lookup_insert_ne by lia. apply Hf. lia.
Qed.

Lemma enter_ok a t : a_threads a !! t = None → admission_ok a → admission_ok (Acquire_enter a t).
Proof.
  intros Ht [Ha Hm Hf Hc]. unfold Acquire_enter. destruct (Z.ltb_spec 0 (a_max a)).
  - split; [|done|done|].
    + rewrite (set_thread_count _ _ _ _ Ht). simpl. lia.
    + intros t' cur [?|?]%set_thread_cas; [done|eauto].
  - set (a1 := a <| a_active := a_active a + 1 |>). destruct (new_slot_ok a1 Hf) as [Hn Hf']. split; [|simpl; lia|done|done].
    rewrite Hn. simpl. lia.
Qed.

Lemma loop_ok a t pc :
  a_threads a !! t = Some pc → pc ≠ AtDecrement → admission_ok a → admission_ok (Acquire_step a t pc).
Proof.
  intros Ht Hpc [Ha Hm Hf Hc]. destruct pc as [|cur|]; [| |done]; simpl.
  - destruct (Z.leb_spec (a_max a) (a_active a)); (split; [rewrite (set_thread_count _ _ _ _ Ht); simpl; lia|done|done|]);
      intros t' cur [[= <-]|?]%set_thread_cas; eauto.
  - destruct (Z.eqb_spec (a_active a) cur) as [<-|].
    + pose proof (Hc _ _ Ht). set (a0 := a <| a_active := a_active a + 1 |>). set (a1 := set_thread a0 t None).
      destruct (new_slot_ok a1 Hf) as [Hn Hf']. split; [|simpl; lia|done|].
      * rewrite Hn. assert (mcount releasing (a_threads (new_slot a1)) = mcount releasing (a_threads a)) as ->
          by (etransitivity; [exact (set_thread_count a0 t _ None Ht)|simpl; lia]).
        simpl. lia.
      * intros t' cur' [?|?]%(set_thread_cas a0); [done|eauto].
    + split; [rewrite (set_thread_count _ _ _ _ Ht); simpl; lia|done|done|].
      intros t' cur' [?|?]%set_thread_cas; [done|eauto].
Qed.

Lemma release_ok a t slot : a_threads a !! t = None → admission_ok a → admission_ok (Slot_Release_cas a t slot).
Proof.
  intros Ht Hok. pose proof Hok as [Ha Hm Hf Hc]. unfold Slot_Release_cas.
  destruct (a_slots a !! slot) as [[|]|] eqn:Hs; [done| |done].
  set (a1 := a <| a_slots := _ |>). split; [|done| |].
  - rewrite (set_thread_count a1 t None (Some AtDecrement) Ht). simpl.
    rewrite (mcount_insert_Some _ _ _ _ _ Hs). simpl. lia.
  - intros s Hs'. simpl in *. rewrite lookup_insert_ne; [by apply Hf|]. intros ->. by rewrite Hf in Hs.
  - intros t' cur [?|?]%(set_thread_cas a1); [done|eauto].
Qed.

Lemma decrement_ok a t : a_threads a !! t = Some AtDecrement → admission_ok a → admission_ok (Slot_Release_add a t).
Proof.
  intros Ht [Ha Hm Hf Hc]. unfold Slot_Release_add. set (a1 := a <| a_active := _ |>). split; [| |done|].
  - rewrite (set_thread_count a1 t (Some AtDecrement) None Ht). simpl. lia.
  - simpl. intros Hp. specialize (Hm Hp). lia.
  - intros t' cur [?|?]%(set_thread_cas a1); [done|eauto].
Qed.

Lemma steps_admission_ok max a : rtc astep (NewAdmission max) a → admission_ok a ∧ a_max a = max.
Proof.
  intros Hs. cut (∀ a0, rtc astep a0 a → admission_ok a0 → admission_ok a ∧ a_max a = a_max a0).
  { intros Hx. apply (Hx _ Hs). split; try done. simpl. lia. }
  clear Hs. induction 1 as [|x y z Hxy _ IH]; intros Hok; [done|].
  destruct IH as [Hz Hmz].
  - destruct Hxy; [by apply enter_ok|by apply loop_ok|by apply release_ok|by apply decrement_ok].
  - split; [done|]. rewrite Hmz. destruct Hxy; simpl; try done.
    + unfold Acquire_enter. by destruct (_ <? _).
    + destruct pc; simpl; [by destruct (_ <=? _)|by destruct (_ =? _)|done].
    + unfold Slot_Release_cas. by destruct (a_slots _ !! slot) as [[]|].
Qed.

(** C39: the global cap.  Under any interleaving of the atomic operations of any number of
    goroutines, the counter equals the slots handed out and not released plus the releases
    that have set their flag and not yet decremented; with a positive cap it never exceeds the
    cap, so at most [max] requests hold a slot; and it never goes negative, however often a slot
    is released. *)
Theorem admission_cap max a :
  rtc astep (NewAdmission max) a →
  Admission_Active a = mcount held_slot (a_slots a) + mcount releasing (a_threads a) ∧
  0 ≤ Admission_Active a ∧
  (0 < max → Admission_Active a ≤ max ∧ mcount held_slot (a_slots a) ≤ max).
Proof.
  intros Hs. apply steps_admission_ok in Hs as [[Ha Hm _ _] <-]. unfold Admission_Active.
  pose proof (mcount_nonneg held_slot (a_slots a)). pose proof (mcount_nonneg releasing (a_threads a)).
  split_and!; [done|lia|]. intros Hp. specialize (Hm Hp). lia.
Qed.

(** Two goroutines load 0 under a cap of one; one swap succeeds, the other retries and is refused. *)
Definition ex_race : Admission :=
  let a := Acquire_enter (Acquire_enter (NewAdmission 1) 0) 1 in
  let a := Acquire_step (Acquire_step a 0 AtLoad) 1 AtLoad in
  Acquire_step (Acquire_step a 0 (AtCAS 0)) 1 (AtCAS 0).

Lemma admission_cap_witness :
  a_threads ex_race !! 1%nat = Some AtLoad ∧ Admission_Active ex_race = 1 ∧ mcount held_slot (a_slots ex_race) ≤ 1.
Proof.
  split; [vm_compute; reflexivity|]. split; [vm_compute; reflexivity|].
  apply (admission_cap 1 ex_race); [|vm_compute; reflexivity].
  eapply rtc_l; [apply (astep_enter _ 0); vm_compute; reflexivity|].
  eapply rtc_l; [apply (astep_enter _ 1); vm_compute; reflexivity|].
  eapply rtc_l; [apply (astep_loop _ 0 AtLoad); [vm_compute; reflexivity|discriminate]|].
  eapply rtc_l; [apply (astep_loop _ 1 AtLoad); [vm_compute; reflexivity|discriminate]|].
  eapply rtc_l; [apply (astep_loop _ 0 (AtCAS 0)); [vm_compute; reflexivity|discriminate]|].
  eapply rtc_l; [apply (astep_loop _ 1 (AtCAS 0)); [vm_compute; reflexivity|discriminate]|].
  apply rtc_refl.
Defined.
