(* ===== verification/Protocol.v ===== *)
(** * The worker protocol (pkg/protocol/worker.go)

    Worker lifecycle states and their legal steps, and the validation of what a worker states
    about itself: identifiers, model names, metrics, and the address the gateway will send
    traffic to.  The address rules are a security boundary (a worker must not be able to point
    the gateway at a cloud metadata endpoint), so the parts of net/netip they rest on are
    modelled too.  [url.Parse] is a parameter. *)

From Stdlib Require Import Ascii String.
From S2P Require Import Prelude GoFloat GoString.

Local Open Scope string_scope.
Local Open Scope list_scope.
Local Open Scope Z_scope.

(** ** Lifecycle states. *)

Definition WorkerState : Type := string.
Definition StateRegistering : WorkerState := "REGISTERING".
Definition StateLoadingModel : WorkerState := "LOADING_MODEL".
Definition StateWarming : WorkerState := "WARMING".
Definition StateReady : WorkerState := "READY".
Definition StateDraining : WorkerState := "DRAINING".
Definition StateTerminated : WorkerState := "TERMINATED".
Definition StateFailed : WorkerState := "FAILED".
Definition StateUnhealthy : WorkerState := "UNHEALTHY".
Definition StateLost : WorkerState := "LOST".

Definition Reportable (s : WorkerState) : bool :=
  String.eqb s StateRegistering || String.eqb s StateLoadingModel || String.eqb s StateWarming ||
  String.eqb s StateReady || String.eqb s StateDraining || String.eqb s StateFailed.

Definition CanTransition (from next : WorkerState) : bool :=
  if negb (Reportable next) then false
  else if String.eqb from StateRegistering then true
  else if String.eqb from StateLoadingModel then negb (String.eqb next StateRegistering)
  else if String.eqb from StateWarming then
    String.eqb next StateWarming || String.eqb next StateReady || String.eqb next StateDraining || String.eqb next StateFailed
  else if String.eqb from StateReady then
    String.eqb next StateReady || String.eqb next StateDraining || String.eqb next StateFailed
  else if String.eqb from StateDraining then String.eqb next StateDraining || String.eqb next StateFailed
  else if String.eqb from StateFailed then negb (String.eqb next StateRegistering)
  else false.

Definition Health : Type := string.
Definition HealthHealthy : Health := "healthy".
Definition HealthSuspect : Health := "suspect".
Definition HealthUnhealthy : Health := "unhealthy".
Definition HealthLost : Health := "lost".

Definition MaxWorkerIDLen : Z := 64.
Definition MaxModelLen : Z := 128.
Definition MaxAddressLen : Z := 2048.
Definition MaxConcurrencyCap : Z := 100000.
Definition MaxQueueSizeCap : Z := 1000000.
Definition MaxReasonLen : Z := 256.
Definition MaxRegistrationLen : Z := 128.
Definition maxCounter : Z := 2 ^ 40.

(** What a validator complains about, one constructor per message. *)
Inductive verr :=
| EWorkerID | EModelLen | EModelText | EAddress | EAddressParts | EHost | EHostRoutable | EPort
| EPathChars | EPathDots | EMaxConcurrency | EQueueSize | ECounter | ETokensPerSecond | EGPUUtil
| EGPUMemory | ERegistrationID | EState | EReason.

(** ** Text. *)

(** The pattern ^[A-Za-z0-9][A-Za-z0-9._-]{0,63}$. *)
Definition id_rest (c : Z) : bool := is_alnum c || (c =? 46) || (c =? 95) || (c =? 45).

Definition ValidWorkerID (id : string) : bool :=
  match bytes id with
  | [] => false
  | c :: l => is_alnum c && forallb id_rest l && (Z.of_nat (length l) <=? 63)
  end.

Definition in_ranges (t : list (Z * Z)) (r : Z) : bool := existsb (λ p, (p.1 <=? r) && (r <=? p.2)) t.

(** unicode.IsControl: the C0 and C1 controls and DEL. *)
Definition IsControl (r : Z) : bool := (r <=? 31) || ((127 <=? r) && (r <=? 159)).

(** The tables unicode.White_Space and unicode.Cf (Unicode 15.0). *)
Definition White_Space : list (Z * Z) :=
  [(9, 13); (32, 32); (133, 133); (160, 160); (5760, 5760); (8192, 8202); (8232, 8233); (8239, 8239); (8287, 8287);
   (12288, 12288)].
Definition Cf : list (Z * Z) :=
  [(173, 173); (1536, 1541); (1564, 1564); (1757, 1757); (1807, 1807); (2192, 2193); (2274, 2274); (6158, 6158);
   (8203, 8207); (8234, 8238); (8288, 8292); (8294, 8303); (65279, 65279); (65529, 65531); (69821, 69821);
   (69837, 69837); (78896, 78911); (113824, 113827); (119155, 119162); (917505, 917505); (917536, 917631)].

Definition cleanText (s : string) (allowSpace : bool) : bool :=
  match runes s with
  | None => false
  | Some rs => forallb (λ r, negb (IsControl r || in_ranges Cf r || (negb allowSpace && in_ranges White_Space r))) rs
  end.

Definition validModel (m : string) : option verr :=
  if String.eqb m "" || (MaxModelLen <? slen m) then Some EModelLen
  else if negb (cleanText m false) then Some EModelText
  else None.

(** ** Addresses (net/netip). *)

(** An IPv4 address by its bytes, or an IPv6 address by its sixteen bytes and zone. *)
Inductive Addr :=
| V4 (a b c d : Z)
| V6 (b : list Z) (zone : string).

#[global] Instance Addr_eq_dec : EqDecision Addr.
Proof. solve_decision. Defined.

Definition byte_at (b : list Z) (i : nat) : Z := default 0 (b !! i).

Definition allZero (b : list Z) : bool := forallb (λ x, x =? 0) b.

Definition tail4 (b : list Z) : Addr := V4 (byte_at b 12) (byte_at b 13) (byte_at b 14) (byte_at b 15).

(** [Unmap]: an IPv4-mapped address (::ffff:a.b.c.d) becomes the IPv4 one. *)
Definition Is4In6 (b : list Z) : bool :=
  allZero (take 10 b) && (byte_at b 10 =? 255) && (byte_at b 11 =? 255).

Definition Unmap (a : Addr) : Addr :=
  match a with
  | V4 _ _ _ _ => a
  | V6 b _ => if Is4In6 b then tail4 b else a
  end.

Definition WithoutZone (a : Addr) : Addr := match a with V4 _ _ _ _ => a | V6 b _ => V6 b "" end.

Definition IsUnspecified (a : Addr) : bool :=
  match a with
  | V4 x y z w => (x =? 0) && (y =? 0) && (z =? 0) && (w =? 0)
  | V6 b zone => allZero b && String.eqb zone ""
  end.

Definition IsLoopback (a : Addr) : bool :=
  match a with
  | V4 x _ _ _ => x =? 127
  | V6 b _ => allZero (take 15 b) && (byte_at b 15 =? 1)
  end.

Definition IsLinkLocalUnicast (a : Addr) : bool :=
  match a with
  | V4 x y _ _ => (x =? 169) && (y =? 254)
  | V6 b _ => (byte_at b 0 =? 254) && (Z.land (byte_at b 1) 192 =? 128)
  end.

Definition IsLinkLocalMulticast (a : Addr) : bool :=
  match a with
  | V4 x y z _ => (x =? 224) && (y =? 0) && (z =? 0)
  | V6 b _ => (byte_at b 0 =? 255) && (Z.land (byte_at b 1) 15 =? 2)
  end.

Definition IsInterfaceLocalMulticast (a : Addr) : bool :=
  match a with
  | V4 _ _ _ _ => false
  | V6 b _ => (byte_at b 0 =? 255) && (Z.land (byte_at b 1) 15 =? 1)
  end.

Definition IsMulticast (a : Addr) : bool :=
  match a with
  | V4 x _ _ _ => Z.land x 240 =? 224
  | V6 b _ => byte_at b 0 =? 255
  end.

Definition metadataAddrs : list Addr :=
  [V4 168 63 129 16; V4 100 100 100 200; V6 [253; 0; 14; 194; 0; 0; 0; 0; 0; 0; 0; 0; 0; 0; 2; 84] ""].

(** The recursion of [ForbiddenAddr] goes from an IPv6 address to the IPv4 one it embeds, and
    stops there: two rounds are enough ([ForbiddenAddr_fuel]). *)
Fixpoint ForbiddenAddr_go (fuel : nat) (a : Addr) : bool :=
  match fuel with
  | O => false
  | S fuel =>
      let a := WithoutZone (Unmap a) in
      if IsUnspecified a || IsLinkLocalUnicast a || IsLinkLocalMulticast a || IsInterfaceLocalMulticast a ||
         IsMulticast a || bool_decide (a = V4 255 255 255 255) ||
         match a with V4 x _ _ _ => x =? 0 | _ => false end ||
         bool_decide (a ∈ metadataAddrs)
      then true
      else
        match a with
        | V4 _ _ _ _ => false
        | V6 b _ =>
            let nat64 := (byte_at b 0 =? 0) && (byte_at b 1 =? 100) && (byte_at b 2 =? 255) && (byte_at b 3 =? 155) in
            if nat64 && allZero (take 8 (drop 4 b)) then ForbiddenAddr_go fuel (tail4 b)
            else if nat64 && (byte_at b 4 =? 0) && (byte_at b 5 =? 1) then true
            else if (byte_at b 0 =? 32) && (byte_at b 1 =? 2) then
              ForbiddenAddr_go fuel (V4 (byte_at b 2) (byte_at b 3) (byte_at b 4) (byte_at b 5))
            else if allZero (take 12 b) && negb (IsLoopback a) then ForbiddenAddr_go fuel (tail4 b)
            else if allZero (take 8 b) && (byte_at b 8 =? 255) && (byte_at b 9 =? 255) && allZero (take 2 (drop 10 b))
            then ForbiddenAddr_go fuel (tail4 b)
            else false
        end
  end.

Definition ForbiddenAddr (a : Addr) : bool := ForbiddenAddr_go 2 a.

Definition checkRoutable (a : Addr) : option verr := if ForbiddenAddr a then Some EHostRoutable else None.

(** *** netip.ParseAddr. *)

(** The loop of parseIPv4Fields: [first] is true at the first byte, [dot] after a dot; [fields]
    are the finished ones. *)
Fixpoint parseIPv4_go (l : list Z) (first dot : bool) (val digLen : Z) (fields : list Z) : option (list Z) :=
  match l with
  | [] => if Z.of_nat (length fields) <? 3 then None else Some (fields ++ [val])
  | c :: l =>
      if is_digit c then
        if (digLen =? 1) && (val =? 0) then None
        else
          let val := val * 10 + (c - 48) in
          if 255 <? val then None else parseIPv4_go l false false val (digLen + 1) fields
      else if c =? 46 then
        if first || bool_decide (l = []) || dot then None
        else if Z.of_nat (length fields) =? 3 then None
        else parseIPv4_go l false true 0 0 (fields ++ [val])
      else None
  end.

Definition parseIPv4 (l : list Z) : option Addr :=
  match parseIPv4_go l true false 0 0 [] with
  | Some [a; b; c; d] => Some (V4 a b c d)
  | _ => None
  end.

Definition hex_val (c : Z) : option Z :=
  if is_digit c then Some (c - 48)
  else if (97 <=? c) && (c <=? 102) then Some (c - 87)
  else if (65 <=? c) && (c <=? 70) then Some (c - 55)
  else None.

(** A hexadecimal group: its value, how many digits, and what follows; [None] beyond four digits. *)
Fixpoint hex_group (l : list Z) (acc off : Z) : option (Z * Z * list Z) :=
  match l with
  | [] => Some (acc, off, [])
  | c :: l' =>
      match hex_val c with
      | None => Some (acc, off, l)
      | Some d => if 3 <? off then None else hex_group l' (acc * 16 + d) (off + 1)
      end
  end.

(** The loop of parseIPv6: [ip] the bytes so far, [ell] where "::" was.  Every round consumes a byte. *)
Fixpoint parseIPv6_go (fuel : nat) (s : list Z) (ip : list Z) (ell : option nat) : option (list Z * list Z * option nat) :=
  match fuel with
  | O => None
  | S fuel =>
      if (16 <=? Z.of_nat (length ip)) then Some (s, ip, ell)
      else
        match hex_group s 0 0 with
        | None => None
        | Some (acc, off, rest) =>
            if off =? 0 then None
            else
              match rest with
              | 46 :: _ =>
                  if match ell with None => negb (Z.of_nat (length ip) =? 12) | Some _ => false end then None
                  else if 16 <? Z.of_nat (length ip) + 4 then None
                  else match parseIPv4_go s true false 0 0 [] with
                       | Some [a; b; c; d] => Some ([], ip ++ [a; b; c; d], ell)
                       | _ => None
                       end
              | [] => Some ([], ip ++ [Z.shiftr acc 8; Z.land acc 255], ell)
              | c :: rest =>
                  let ip := ip ++ [Z.shiftr acc 8; Z.land acc 255] in
                  if negb (c =? 58) then None
                  else
                    match rest with
                    | [] => None
                    | 58 :: rest' =>
                        match ell with
                        | Some _ => None
                        | None =>
                            match rest' with
                            | [] => Some ([], ip, Some (length ip))
                            | _ => parseIPv6_go fuel rest' ip (Some (length ip))
                            end
                        end
                    | _ => parseIPv6_go fuel rest ip ell
                    end
              end
        end
  end.

(** The final checks of parseIPv6: the whole string was used, and "::" stands for at least one group. *)
Definition expand_ellipsis (ip : list Z) (ell : option nat) : option (list Z) :=
  if (length ip <? 16)%nat then
    match ell with
    | None => None
    | Some e => Some (take e ip ++ replicate (16 - length ip) 0 ++ drop e ip)
    end
  else match ell with None => Some ip | Some _ => None end.

Definition parseIPv6 (host : list Z) : option Addr :=
  match (match split_bytes 37 host with
         | [s] => Some (s, "")
         | s :: zs => let z := join_bytes 37 zs in if bool_decide (z = []) then None else Some (s, of_bytes z)
         | [] => None
         end) with
  | None => None
  | Some (s, zone) =>
      let '(s, ell) := match s with 58 :: 58 :: s' => (s', Some 0%nat) | _ => (s, None) end in
      if match s, ell with [], Some _ => true | _, _ => false end then Some (V6 (replicate 16 0) zone)
      else
        match parseIPv6_go (S (length s)) s [] ell with
        | Some ([], ip, ell) =>
            match expand_ellipsis ip ell with Some b => Some (V6 b zone) | None => None end
        | _ => None
        end
  end.

(** The first of '.', ':' and '%' decides the family. *)
Fixpoint first_mark (l : list Z) : option Z :=
  match l with
  | [] => None
  | c :: l => if (c =? 46) || (c =? 58) || (c =? 37) then Some c else first_mark l
  end.

Definition ParseAddr (host : list Z) : option Addr :=
  match first_mark host with
  | Some 46 => parseIPv4 host
  | Some 58 => parseIPv6 host
  | _ => None
  end.

Definition Is6 (a : Addr) : bool := match a with V6 _ _ => true | _ => false end.
Definition Zone (a : Addr) : string := match a with V6 _ z => z | _ => "" end.

(** *** Hosts. *)

Definition host_byte (c : Z) : bool := is_alnum c || (c =? 45).

Definition good_label (l : list Z) : bool :=
  negb (bool_decide (l = [])) && (Z.of_nat (length l) <=? 63) &&
  negb (byte_at l 0 =? 45) && negb (byte_at l (length l - 1) =? 45) && forallb host_byte l.

(** The last label begins with 0x or is all digits (strings.Trim of the digits leaves nothing). *)
Definition numeric_label (l : list Z) : bool :=
  let l := lower <$> l in
  match l with
  | 48 :: 120 :: _ => true
  | _ => forallb is_digit l
  end.

Definition validateHost (host : string) : option verr :=
  let h := bytes host in
  if String.eqb host "" || (253 <? slen host) then Some EHost
  else if existsb (λ c, (c =? 58) || (c =? 37)) h then
    match ParseAddr h with
    | None => Some EHost
    | Some a => if negb (String.eqb (Zone a) "") || negb (Is6 a) then Some EHost else checkRoutable (Unmap a)
    end
  else
    let labels := split_bytes 46 h in
    if negb (forallb good_label labels) then Some EHost
    else if numeric_label (default [] (last labels)) then
      match ParseAddr h with
      | Some (V4 a b c d) => checkRoutable (V4 a b c d)
      | _ => Some EHost
      end
    else None.

(** ** Worker addresses.

    [url.Parse] is the library's; [URL] holds what the source reads of its result, with
    [Hostname] and [Port] as the accessors of that name return them. *)

Record URL := mkURL {
  Scheme : string; Host : string; has_User : bool; RawQuery : string; ForceQuery : bool; Fragment : string;
  Hostname : string; Port : string; Path : string
}.

Class UrlParser := { url_Parse : string → option URL }.

(** [strconv.Atoi]. *)
Definition Atoi (s : string) : option Z :=
  let digits l := if bool_decide (l = []) then None else atoi_go 0 l in
  match (match bytes s with
         | 45 :: l => Z.opp <$> digits l
         | 43 :: l => digits l
         | l => digits l
         end) with
  | Some n => if (int64_min <=? n) && (n <=? int64_max) then Some n else None
  | None => None
  end.

Definition ValidateAddress `{UrlParser} (addr : string) : option verr :=
  if String.eqb addr "" || (MaxAddressLen <? slen addr) then Some EAddress
  else
    match url_Parse addr with
    | None => Some EAddress
    | Some u =>
        if (negb (String.eqb (Scheme u) "http") && negb (String.eqb (Scheme u) "https")) || String.eqb (Host u) ""
        then Some EAddress
        else if has_User u || negb (String.eqb (RawQuery u) "") || ForceQuery u || negb (String.eqb (Fragment u) "")
        then Some EAddressParts
        else
          match validateHost (Hostname u) with
          | Some e => Some e
          | None =>
              if negb (String.eqb (Port u) "") &&
                 match Atoi (Port u) with Some n => (n <? 1) || (65535 <? n) | None => true end
              then Some EPort
              else if existsb (λ c, (c <=? 32) || (c =? 127)) (bytes (Path u)) then Some EPathChars
              else if existsb (String.eqb "..") (split 47 (Path u)) then Some EPathDots
              else None
          end
    end.

(** ** What a worker states and reports. *)

Record WorkerInfo := mkWorkerInfo {
  WorkerID : string; Model : string; Address : string; MaxConcurrency : Z; QueueSize : Z
}.

Definition WorkerInfo_Validate `{UrlParser} (w : WorkerInfo) : option verr :=
  if negb (ValidWorkerID (WorkerID w)) then Some EWorkerID
  else
    match validModel (Model w) with
    | Some e => Some e
    | None =>
        match ValidateAddress (Address w) with
        | Some e => Some e
        | None =>
            if (MaxConcurrency w <? 1) || (MaxConcurrencyCap <? MaxConcurrency w) then Some EMaxConcurrency
            else if (QueueSize w <? 0) || (MaxQueueSizeCap <? QueueSize w) then Some EQueueSize
            else None
        end
    end.

Record Metrics := mkMetrics {
  ActiveRequests : Z; QueueDepth : Z; QueuedInputTokens : Z; RecentTokensPerSecond : float64;
  GPUUtilization : option float64; GPUMemoryUsedMB : option Z
}.

Definition zeroMetrics : Metrics := mkMetrics 0 0 0 f0 None None.

Definition finite (f : float64) : bool := negb (isNaN f) && negb (isInf f).

Definition counter_bad (v : Z) : bool := (v <? 0) || (maxCounter <? v).

(** The three counters are checked in map order, which only decides which of them the message names. *)
Definition Metrics_Validate (m : Metrics) : option verr :=
  if existsb counter_bad [ActiveRequests m; QueueDepth m; QueuedInputTokens m] then Some ECounter
  else if negb (finite (RecentTokensPerSecond m)) || flt (RecentTokensPerSecond m) f0 ||
          flt (f64 1000000000) (RecentTokensPerSecond m) then Some ETokensPerSecond
  else if match GPUUtilization m with Some u => negb (finite u) || flt u f0 || flt (f64 100) u | None => false end
       then Some EGPUUtil
  else if match GPUMemoryUsedMB m with Some v => counter_bad v | None => false end then Some EGPUMemory
  else None.

Record Heartbeat := mkHeartbeat { hb_RegistrationID : string; hb_State : WorkerState; hb_Metrics : Metrics; hb_Reason : string }.

Definition Heartbeat_Validate (h : Heartbeat) : option verr :=
  if String.eqb (hb_RegistrationID h) "" || (MaxRegistrationLen <? slen (hb_RegistrationID h)) then Some ERegistrationID
  else if negb (Reportable (hb_State h)) then Some EState
  else if (MaxReasonLen <? slen (hb_Reason h)) || negb (cleanText (hb_Reason h) true) then Some EReason
  else Metrics_Validate (hb_Metrics h).

(** ** The gateway's view of a worker. *)

Definition ObservedColdStart : Z := 1.
Definition ObservedStale : Z := 2.
Definition ObservedMissingGPU : Z := 4.
Definition ObservedInvalid : Z := 8.
Definition ObservedLedger : Z := 16.
Definition ObservedUntracked : Z := 32.
Definition ObservedPriorCapacity : Z := 64.
Definition ObservedDegraded : Z := 128.

Record ObservedLoad := mkObserved {
  InflightRequests : Z; WorkAheadTokens : float64; CapacityTPS : float64; TTFTSeconds : float64;
  EffectiveActive : Z; Flags : Z
}.

Definition nothing_observed : ObservedLoad := mkObserved 0 f0 f0 f0 0 0.

#[global] Instance ObservedLoad_settable : Settable ObservedLoad :=
  {| eta_of := λ o, mkObserved (InflightRequests o) (WorkAheadTokens o) (CapacityTPS o) (TTFTSeconds o)
                               (EffectiveActive o) (Flags o) |}.

Record WorkerSnapshot := mkSnapshot {
  s_WorkerID : string; s_Model : string; s_Address : string; s_MaxConcurrency : Z; s_QueueSize : Z;
  s_State : WorkerState; s_Health : Health; s_Eligible : bool; s_Metrics : Metrics; s_Reason : string;
  s_RegisteredAt : Time; s_LastHeartbeat : Time; s_HeartbeatAgeSeconds : float64; s_Observed : ObservedLoad
}.

#[global] Instance WorkerSnapshot_settable : Settable WorkerSnapshot :=
  {| eta_of := λ s, mkSnapshot (s_WorkerID s) (s_Model s) (s_Address s) (s_MaxConcurrency s) (s_QueueSize s) (s_State s)
       (s_Health s) (s_Eligible s) (s_Metrics s) (s_Reason s) (s_RegisteredAt s) (s_LastHeartbeat s)
       (s_HeartbeatAgeSeconds s) (s_Observed s) |}.

Record ModelInfo := mkModelInfo { mi_Model : string; mi_Workers : Z; mi_Eligible : Z }.
