(* ===== verification/Registry.v ===== *)
(** * The worker registry (internal/registry/registry.go)

    Who the workers are, what they report, and what their silence says about them.  Every method
    is one step under the registry's lock, with the clock reading and the fresh registration id
    as inputs.  The log calls a method makes after it released the lock are part of its result;
    the counters of the Prometheus collector are updated in the same step. *)

From Stdlib Require Import String.
From S2P Require Import Prelude GoFloat GoString Protocol.

Local Open Scope string_scope.
Local Open Scope list_scope.
Local Open Scope Z_scope.

Inductive RegErr :=
| ErrInvalid (e : verr) | ErrUnknownWorker | ErrStaleRegistration | ErrIllegalTransition (from to : WorkerState) | ErrFull.

Record Config := mkConfig {
  Suspect : Z; Unhealthy : Z; Lost : Z; Retention : Z; MaxWorkers : Z; HeartbeatInterval : Z; SuspectEligible : bool
}.

Inductive CfgErr := EDurations | EThresholds | EMaxWorkers.

Definition Config_Validate (c : Config) : option CfgErr :=
  if (Suspect c <=? 0) || (Unhealthy c <=? 0) || (Lost c <=? 0) || (Retention c <=? 0) || (HeartbeatInterval c <=? 0)
  then Some EDurations
  else if (Unhealthy c <=? Suspect c) || (Lost c <=? Unhealthy c) then Some EThresholds
  else if MaxWorkers c <? 1 then Some EMaxWorkers
  else None.

Definition healthAt (c : Config) (age : Z) : Health :=
  if Lost c <? age then HealthLost
  else if Unhealthy c <? age then HealthUnhealthy
  else if Suspect c <=? age then HealthSuspect
  else HealthHealthy.

Record entry := mkEntry {
  e_info : WorkerInfo; e_regID : string; e_state : WorkerState; e_metrics : Metrics; e_reason : string;
  e_registeredAt : Time; e_lastBeat : Time; e_observed : WorkerState; e_drained : bool
}.

#[global] Instance entry_settable : Settable entry :=
  {| eta_of := λ e, mkEntry (e_info e) (e_regID e) (e_state e) (e_metrics e) (e_reason e) (e_registeredAt e)
                            (e_lastBeat e) (e_observed e) (e_drained e) |}.

Record Registry := mkRegistry {
  r_cfg : Config; r_workers : gmap string entry; r_registrations : Z; r_heartbeats : list Z
}.

#[global] Instance Registry_settable : Settable Registry :=
  {| eta_of := λ r, mkRegistry (r_cfg r) (r_workers r) (r_registrations r) (r_heartbeats r) |}.

(** What the registry logs. *)
Record transition := mkTransition {
  t_id : string; t_model : string; t_from : WorkerState; t_to : WorkerState; t_age : Z; t_reason : string
}.

Inductive LogEvent :=
| LogRegistered (id model : string) (maxConcurrency : Z)
| LogReRegistered (id model : string) (previous : WorkerState)
| LogTransition (t : transition)
| LogEvicted (id model : string)
| LogDeregistered (id model : string) (last : WorkerState).

Definition heartbeatOK : nat := 0.
Definition heartbeatInvalid : nat := 1.
Definition heartbeatUnknownWorker : nat := 2.
Definition heartbeatStaleRegistration : nat := 3.
Definition heartbeatIllegalTransition : nat := 4.
Definition numHeartbeatResults : nat := 5.

Definition heartbeatResult (err : option RegErr) : nat :=
  match err with
  | None => heartbeatOK
  | Some ErrUnknownWorker => heartbeatUnknownWorker
  | Some ErrStaleRegistration => heartbeatStaleRegistration
  | Some (ErrIllegalTransition _ _) => heartbeatIllegalTransition
  | Some _ => heartbeatInvalid
  end.

Definition NewWithClock (cfg : Config) : Registry + CfgErr :=
  match Config_Validate cfg with
  | Some e => inr e
  | None => inl (mkRegistry cfg ∅ 0 (replicate numHeartbeatResults 0))
  end.

Definition age (e : entry) (now : Time) : Z := let a := Sub now (e_lastBeat e) in if 0 <? a then a else 0.

Definition effective (r : Registry) (e : entry) (now : Time) : WorkerState :=
  let h := healthAt (r_cfg r) (age e now) in
  if String.eqb h HealthLost then StateLost
  else if String.eqb h HealthUnhealthy then StateUnhealthy
  else e_state e.

Definition snapshot (r : Registry) (e : entry) (now : Time) : WorkerSnapshot :=
  let a := age e now in
  let health := healthAt (r_cfg r) a in
  let state := effective r e now in
  let eligible := String.eqb state StateReady &&
    (String.eqb health HealthHealthy || (String.eqb health HealthSuspect && SuspectEligible (r_cfg r))) in
  mkSnapshot (WorkerID (e_info e)) (Model (e_info e)) (Address (e_info e)) (MaxConcurrency (e_info e)) (QueueSize (e_info e))
             state health eligible (e_metrics e) (e_reason e) (e_registeredAt e) (e_lastBeat e) (Seconds a) nothing_observed.

(** The entry after the observation, and the transition if there was one. *)
Definition observeLocked (r : Registry) (id : string) (e : entry) (now : Time) : entry * option transition :=
  let cur := effective r e now in
  if String.eqb cur (e_observed e) then (e, None)
  else (e <| e_observed := cur |>,
        Some (mkTransition id (Model (e_info e)) (e_observed e) cur (age e now) (e_reason e))).

Section registry.
Context `{UrlParser} `{GoMapOrder}.

Definition long_lost (r : Registry) (now : Time) (e : entry) : bool :=
  wrap64 (Lost (r_cfg r) + Retention (r_cfg r)) <? age e now.

Definition evictLocked (r : Registry) (now : Time) : Registry * list LogEvent :=
  let gone := filter (λ ie : string * entry, long_lost r now ie.2 = true) (range_map (r_workers r)) in
  (r <| r_workers := filter (λ ie : string * entry, long_lost r now ie.2 = false) (r_workers r) |>,
   (λ ie : string * entry, LogEvicted ie.1 (Model (e_info ie.2))) <$> gone).

(** [register]; [regID] is what newRegistrationID returns. *)
Definition register (r : Registry) (now : Time) (regID : string) (info : WorkerInfo)
  : Registry * list LogEvent * (string + RegErr) :=
  let old := r_workers r !! WorkerID info in
  let add (r : Registry) (logs : list LogEvent) :=
    let e := mkEntry info regID StateRegistering zeroMetrics "" now now StateRegistering false in
    (r <| r_workers := <[WorkerID info := e]> (r_workers r) |>,
     logs ++ [match old with
              | Some old => LogReRegistered (WorkerID info) (Model info) (effective r old now)
              | None => LogRegistered (WorkerID info) (Model info) (MaxConcurrency info)
              end],
     inl regID) in
  if bool_decide (old = None) && (MaxWorkers (r_cfg r) <=? Z.of_nat (size (r_workers r))) then
    let '(r, logs) := evictLocked r now in
    if MaxWorkers (r_cfg r) <=? Z.of_nat (size (r_workers r)) then (r, logs, inr ErrFull)
    else add r logs
  else add r [].

Definition Register (r : Registry) (now : Time) (regID : string) (info : WorkerInfo)
  : Registry * list LogEvent * (string + RegErr) :=
  match WorkerInfo_Validate info with
  | Some e => (r, [], inr (ErrInvalid e))
  | None =>
      let '(r, logs, res) := register r now regID info in
      match res with
      | inl id => (r <| r_registrations := r_registrations r + 1 |>, logs, inl id)
      | inr e => (r, logs, inr e)
      end
  end.

Definition heartbeat (r : Registry) (now : Time) (id registrationID : string) (hb : Heartbeat)
  : Registry * list LogEvent * option RegErr :=
  match r_workers r !! id with
  | None => (r, [], Some ErrUnknownWorker)
  | Some e =>
      if negb (String.eqb (e_regID e) registrationID) then (r, [], Some ErrStaleRegistration)
      else if negb (CanTransition (e_state e) (hb_State hb)) ||
              (e_drained e && negb (String.eqb (hb_State hb) StateDraining) && negb (String.eqb (hb_State hb) StateFailed))
      then (r, [], Some (ErrIllegalTransition (e_state e) (hb_State hb)))
      else
        let e := e <| e_state := hb_State hb |> <| e_metrics := hb_Metrics hb |> <| e_reason := hb_Reason hb |>
                   <| e_lastBeat := now |> in
        let e := if String.eqb (hb_State hb) StateDraining then e <| e_drained := true |> else e in
        let '(e, tr) := observeLocked r id e now in
        (r <| r_workers := <[id := e]> (r_workers r) |>, LogTransition <$> option_list tr, None)
  end.

Definition count_heartbeat (r : Registry) (result : nat) : Registry :=
  r <| r_heartbeats := alter Z.succ result (r_heartbeats r) |>.

Definition Registry_Heartbeat (r : Registry) (now : Time) (id registrationID : string) (hb : Heartbeat)
  : Registry * list LogEvent * option RegErr :=
  match Heartbeat_Validate hb with
  | Some e => (count_heartbeat r heartbeatInvalid, [], Some (ErrInvalid e))
  | None =>
      let '(r, logs, err) := heartbeat r now id registrationID hb in
      (count_heartbeat r (heartbeatResult err), logs, err)
  end.

Definition Deregister (r : Registry) (id registrationID : string) : Registry * list LogEvent * option RegErr :=
  match r_workers r !! id with
  | None => (r, [], Some ErrUnknownWorker)
  | Some e =>
      if negb (String.eqb (e_regID e) registrationID) then (r, [], Some ErrStaleRegistration)
      else (r <| r_workers := delete id (r_workers r) |>, [LogDeregistered id (Model (e_info e)) (e_state e)], None)
  end.

Definition Sweep (r : Registry) (now : Time) : Registry * list LogEvent * Z :=
  let logs := omap (λ ie : string * entry, LogTransition <$> (observeLocked r ie.1 ie.2 now).2) (range_map (r_workers r)) in
  let r := r <| r_workers := map_imap (λ id e, Some (observeLocked r id e now).1) (r_workers r) |> in
  let '(r, evictLogs) := evictLocked r now in
  (r, logs ++ evictLogs, Z.of_nat (length evictLogs)).

(** ** Reads. *)

Record ListFilter := mkListFilter { f_Model : string; f_State : WorkerState; f_EligibleOnly : bool }.

Definition list_keeps (f : ListFilter) (s : WorkerSnapshot) : bool :=
  negb ((negb (String.eqb (f_Model f) "") && negb (String.eqb (s_Model s) (f_Model f))) ||
        (negb (String.eqb (f_State f) "") && negb (String.eqb (s_State s) (f_State f))) ||
        (f_EligibleOnly f && negb (s_Eligible s))).

Definition Registry_List (r : Registry) (now : Time) (f : ListFilter) : list WorkerSnapshot :=
  sort_by s_WorkerID
    (filter (λ s, list_keeps f s = true) ((λ ie : string * entry, snapshot r ie.2 now) <$> range_map (r_workers r))).

Definition Get (r : Registry) (now : Time) (id : string) : option WorkerSnapshot :=
  (λ e, snapshot r e now) <$> r_workers r !! id.

Definition Eligible (r : Registry) (now : Time) (model : string) : list WorkerSnapshot :=
  Registry_List r now (mkListFilter model "" true).

(** The loop body of [Models]. *)
Definition models_step (r : Registry) (now : Time) (counts : gmap string ModelInfo) (ie : string * entry) : gmap string ModelInfo :=
  let e := ie.2 in
  let m := default (mkModelInfo (Model (e_info e)) 0 0) (counts !! Model (e_info e)) in
  let eligible := if s_Eligible (snapshot r e now) then mi_Eligible m + 1 else mi_Eligible m in
  <[Model (e_info e) := mkModelInfo (mi_Model m) (mi_Workers m + 1) eligible]> counts.

Definition Models (r : Registry) (now : Time) : list ModelInfo :=
  let counts := foldl (models_step r now) ∅ (range_map (r_workers r)) in
  sort_by mi_Model ((range_map counts).*2).

Definition Len (r : Registry) : Z := Z.of_nat (size (r_workers r)).
End registry.
