(* ===== verification/RegistrySpec.v ===== *)
(** * What the worker registry guarantees

    The invariants of every reachable registry, the one-way drain, the rejection of stale
    incarnations, the exactness of the listings, and the invisibility of [Sweep]. *)

From Stdlib Require Import String.
From S2P Require Import Prelude GoFloat GoString Protocol Registry.

Local Open Scope string_scope.
Local Open Scope list_scope.
Local Open Scope Z_scope.

(** ** Runs. *)

Inductive rop :=
| ORegister (regID : string) (info : WorkerInfo)
| OHeartbeat (id registrationID : string) (hb : Heartbeat)
| ODeregister (id registrationID : string)
| OSweep.

Section spec.
Context `{UrlParser} `{GoMapOrder}.

Definition rrun (r : Registry) (now : Time) (o : rop) : Registry :=
  match o with
  | ORegister regID info => (Register r now regID info).1.1
  | OHeartbeat id registrationID hb => (Registry_Heartbeat r now id registrationID hb).1.1
  | ODeregister id registrationID => (Deregister r id registrationID).1.1
  | OSweep => (Sweep r now).1.1
  end.

(** Runs of operations, each with its clock reading, between two states. *)
Inductive rsteps : Registry → list (Time * rop) → Registry → Prop :=
| rsteps_nil r : rsteps r [] r
| rsteps_cons r now o l r' : rsteps (rrun r now o) l r' → rsteps r ((now, o) :: l) r'.

Definition reachable_registry (cfg : Config) (r : Registry) : Prop :=
  ∃ r0 l, NewWithClock cfg = inl r0 ∧ rsteps r0 l r.

(** ** What one operation does to one worker. *)

(** The entry a worker has after the operation, given the one it had. *)
Inductive entry_step (r : Registry) (now : Time) (id : string) : rop → option entry → option entry → Prop :=
| es_same o oe : entry_step r now id o oe oe
| es_register regID info oe :
    WorkerInfo_Validate info = None → WorkerID info = id →
    entry_step r now id (ORegister regID info) oe
      (Some (mkEntry info regID StateRegistering zeroMetrics "" now now StateRegistering false))
| es_heartbeat hb e observed :
    Heartbeat_Validate hb = None → CanTransition (e_state e) (hb_State hb) = true →
    (e_drained e = true → hb_State hb = StateDraining ∨ hb_State hb = StateFailed) →
    entry_step r now id (OHeartbeat id (e_regID e) hb) (Some e)
      (Some (mkEntry (e_info e) (e_regID e) (hb_State hb) (hb_Metrics hb) (hb_Reason hb) (e_registeredAt e) now observed
                     (e_drained e || String.eqb (hb_State hb) StateDraining)))
| es_observe e observed : entry_step r now id OSweep (Some e) (Some (e <| e_observed := observed |>))
| es_deregister e : entry_step r now id (ODeregister id (e_regID e)) (Some e) None
| es_evict o e : long_lost r now e = true → entry_step r now id o (Some e) None.

Lemma lookup_evict r now id :
  r_workers (evictLocked r now).1 !! id =
  match r_workers r !! id with Some e => if long_lost r now e then None else Some e | None => None end.
Proof.
  unfold evictLocked. simpl. destruct (r_workers r !! id) as [e|] eqn:He.
  - destruct (long_lost r now e) eqn:Hl.
    + apply map_lookup_filter_None. right. intros e' He'. simplify_eq. simpl. congruence.
    + by apply map_lookup_filter_Some.
  - apply map_lookup_filter_None. by left.
Qed.

Lemma observe_entry r id e now : ∃ observed, (observeLocked r id e now).1 = e <| e_observed := observed |>.
Proof. unfold observeLocked. destruct (String.eqb _ _); simpl; [exists (e_observed e); by destruct e|by eexists]. Qed.

Lemma age_observed e now observed : age (e <| e_observed := observed |>) now = age e now.
Proof. done. Qed.

Lemma register_step r now regID info id :
  entry_step r now id (ORegister regID info) (r_workers r !! id) (r_workers (rrun r now (ORegister regID info)) !! id).
Proof.
  simpl. unfold Register. destruct (WorkerInfo_Validate info) eqn:Hv; [apply es_same|].
  unfold register. destruct (bool_decide _ && _).
  - destruct (evictLocked r now) as [r1 logs] eqn:He. pose proof (lookup_evict r now id) as Hl. rewrite He in Hl. simpl in Hl.
    destruct (_ <=? _); simpl.
    + rewrite Hl. destruct (r_workers r !! id) as [e|]; [|apply es_same].
      destruct (long_lost r now e) eqn:Hlong; [by apply es_evict|apply es_same].
    + destruct (decide (WorkerID info = id)) as [<-|Hne]; [rewrite lookup_insert_eq; by apply es_register|].
      rewrite lookup_insert_ne, Hl by done. destruct (r_workers r !! id) as [e|]; [|apply es_same].
      destruct (long_lost r now e) eqn:Hlong; [by apply es_evict|apply es_same].
  - simpl. destruct (decide (WorkerID info = id)) as [<-|Hne]; [rewrite lookup_insert_eq; by apply es_register|].
    rewrite lookup_insert_ne by done. apply es_same.
Qed.

Lemma register_added r now g info r1 logs g' :
  Register r now g info = (r1, logs, inl g') →
  r_workers r1 !! WorkerID info = Some (mkEntry info g StateRegistering zeroMetrics "" now now StateRegistering false).
Proof.
  unfold Register, register. destruct (WorkerInfo_Validate info); [done|]. intros Hr.
  destruct (bool_decide _ && _); [destruct (evictLocked r now) as [r' logs']; destruct (_ <=? _)|];
    simplify_eq/=; by rewrite lookup_insert_eq.
Qed.

(** The entry an accepted heartbeat leaves. *)
Definition beaten (e : entry) (now : Time) (hb : Heartbeat) (observed : WorkerState) : entry :=
  mkEntry (e_info e) (e_regID e) (hb_State hb) (hb_Metrics hb) (hb_Reason hb) (e_registeredAt e) now observed
          (e_drained e || String.eqb (hb_State hb) StateDraining).

Lemma heartbeat_cases r now id g hb :
  let '(r1, _, err) := Registry_Heartbeat r now id g hb in
  (∃ e observed, r_workers r !! id = Some e ∧ e_regID e = g ∧ Heartbeat_Validate hb = None ∧
     CanTransition (e_state e) (hb_State hb) = true ∧
     (e_drained e = true → hb_State hb = StateDraining ∨ hb_State hb = StateFailed) ∧
     r_workers r1 = <[id := beaten e now hb observed]> (r_workers r) ∧ err = None) ∨
  (r_workers r1 = r_workers r ∧ err ≠ None).
Proof.
  unfold Registry_Heartbeat. destruct (Heartbeat_Validate hb) eqn:Hv; [by right|].
  unfold heartbeat. destruct (r_workers r !! id) as [e|] eqn:He; [|by right].
  destruct (String.eqb_spec (e_regID e) g) as [<-|]; [|by right]. simpl.
  destruct (CanTransition _ _) eqn:Hc; [|by right]. simpl. destruct (_ && _ && _) eqn:Hd; [by right|].
  set (e1 := if String.eqb (hb_State hb) StateDraining then _ else _).
  destruct (observe_entry r id e1 now) as [obs Hobs]. destruct (observeLocked r id e1 now) as [e2 tr]. simpl in *.
  left. exists e, obs. split_and!; try done.
  - intros Hdr. rewrite Hdr in Hd. simpl in Hd. destruct (String.eqb_spec (hb_State hb) StateDraining); [by left|]. right.
    by destruct (String.eqb_spec (hb_State hb) StateFailed).
  - f_equal. subst e2 e1. unfold beaten. destruct e as [? ? ? ? ? ? ? ? []]; by destruct (String.eqb (hb_State hb) StateDraining).
Qed.

Lemma heartbeat_step r now id' g hb id :
  entry_step r now id (OHeartbeat id' g hb) (r_workers r !! id) (r_workers (rrun r now (OHeartbeat id' g hb)) !! id).
Proof.
  cbn [rrun]. pose proof (heartbeat_cases r now id' g hb) as Hc. destruct (Registry_Heartbeat r now id' g hb) as [[r1 logs] err].
  simpl. destruct Hc as [(e & obs & He & <- & Hv & Ht & Hd & -> & _)|[-> _]]; [|apply es_same].
  destruct (decide (id' = id)) as [->|Hne]; [|rewrite lookup_insert_ne by done; apply es_same].
  rewrite lookup_insert_eq, He. by apply es_heartbeat.
Qed.

Lemma deregister_step r now id' registrationID id :
  entry_step r now id (ODeregister id' registrationID) (r_workers r !! id)
    (r_workers (rrun r now (ODeregister id' registrationID)) !! id).
Proof.
  simpl. unfold Deregister. destruct (r_workers r !! id') as [e|] eqn:He; [|apply es_same].
  destruct (String.eqb_spec (e_regID e) registrationID) as [<-|]; [|apply es_same]. simpl.
  destruct (decide (id' = id)) as [->|Hne]; [rewrite lookup_delete_eq, He; apply es_deregister|].
  rewrite lookup_delete_ne by done. apply es_same.
Qed.

Lemma lookup_sweep r now id :
  r_workers (Sweep r now).1.1 !! id =
  match r_workers r !! id with
  | Some e => if long_lost r now e then None else Some (observeLocked r id e now).1
  | None => None
  end.
Proof.
  unfold Sweep. set (r1 := r <| r_workers := _ |>).
  pose proof (lookup_evict r1 now id) as Hl. destruct (evictLocked r1 now) as [r2 logs]. simpl in Hl |- *. rewrite Hl.
  replace (r_workers r1 !! id) with ((λ e, (observeLocked r id e now).1) <$> r_workers r !! id)
    by (simpl; rewrite map_lookup_imap; by destruct (r_workers r !! id)).
  destruct (r_workers r !! id) as [e|]; [|done]. simpl.
  replace (long_lost r1 now (observeLocked r id e now).1) with (long_lost r now e); [done|].
  destruct (observe_entry r id e now) as [obs ->]. done.
Qed.

Lemma rrun_entry r now o id : entry_step r now id o (r_workers r !! id) (r_workers (rrun r now o) !! id).
Proof.
  destruct o; [apply register_step|apply heartbeat_step|apply deregister_step|]. cbn [rrun]. rewrite lookup_sweep.
  destruct (r_workers r !! id) as [e|]; [|apply es_same]. destruct (long_lost r now e) eqn:Hl; [by apply es_evict|].
  destruct (observe_entry r id e now) as [obs ->]. apply es_observe.
Qed.

Lemma rrun_cfg r now o : r_cfg (rrun r now o) = r_cfg r.
Proof.
  destruct o; simpl.
  - unfold Register, register, evictLocked. by repeat case_match; simplify_eq/=.
  - unfold Registry_Heartbeat, heartbeat. by repeat case_match; simplify_eq/=.
  - unfold Deregister. by repeat case_match.
  - done.
Qed.

(** An invariant of one worker's entry that the run's operations keep holds at its end. *)
Lemma rsteps_entries (P : string → entry → Prop) r l r' :
  (∀ r now o id oe e', (now, o) ∈ l → entry_step r now id o oe (Some e') → (∀ e, oe = Some e → P id e) → P id e') →
  rsteps r l r' → map_Forall P (r_workers r) → map_Forall P (r_workers r').
Proof.
  intros Hstep Hr. induction Hr as [|r now o l r' Hr IH]; [done|]. intros HP.
  apply IH; [intros; eapply Hstep; [by apply elem_of_cons; right|done..]|]. intros id e' He'.
  pose proof (rrun_entry r now o id) as Hs. rewrite He' in Hs.
  eapply Hstep; [by apply elem_of_cons; left|exact Hs|]. intros e He. by apply HP.
Qed.

Lemma rsteps_cfg r l r' : rsteps r l r' → r_cfg r' = r_cfg r.
Proof. induction 1 as [|r now o l r' _ IH]; [done|]. by rewrite IH, rrun_cfg. Qed.

(** ** The invariant. *)

Record entry_ok (id : string) (e : entry) : Prop := {
  ok_id : WorkerID (e_info e) = id;
  ok_info : WorkerInfo_Validate (e_info e) = None;
  ok_state : Reportable (e_state e) = true;
  ok_metrics : Metrics_Validate (e_metrics e) = None;
  ok_drained : e_drained e = true → e_state e = StateDraining ∨ e_state e = StateFailed;
  ok_draining : e_state e = StateDraining → e_drained e = true
}.

Lemma Heartbeat_Validate_None hb :
  Heartbeat_Validate hb = None → Reportable (hb_State hb) = true ∧ Metrics_Validate (hb_Metrics hb) = None.
Proof. unfold Heartbeat_Validate. intros Hv. repeat (case_match; try done). split; [|done]. by apply negb_false_iff. Qed.

Lemma entry_ok_step r now o id oe e' :
  entry_step r now id o oe (Some e') → (∀ e, oe = Some e → entry_ok id e) → entry_ok id e'.
Proof.
  intros Hs He. inversion Hs; subst; simplify_eq.
  - by apply He.
  - by constructor; try done.
  - destruct (He _ eq_refl). destruct (Heartbeat_Validate_None hb) as [Hr Hm]; [done|].
    constructor; simpl; try done.
    + intros Hor. apply orb_true_iff in Hor as [Hd|Hd%String.eqb_eq]; [by auto|by left].
    + intros ->. by rewrite orb_true_r.
  - destruct (He _ eq_refl). by constructor.
Qed.

Lemma size_evict r now : (size (r_workers (evictLocked r now).1) ≤ size (r_workers r))%nat.
Proof. simpl. apply map_size_filter. Qed.

Lemma size_rrun r now o :
  Z.of_nat (size (r_workers r)) ≤ MaxWorkers (r_cfg r) →
  Z.of_nat (size (r_workers (rrun r now o))) ≤ MaxWorkers (r_cfg r).
Proof.
  intros Hs. destruct o as [regID info|id registrationID hb|id registrationID|].
  - cbn [rrun]. unfold Register. destruct (WorkerInfo_Validate info); [done|]. unfold register.
    destruct (r_workers r !! WorkerID info) as [e|] eqn:He.
    + simpl. rewrite map_size_insert_Some by done. done.
    + rewrite bool_decide_true by done. cbn [andb]. destruct (Z.leb_spec (MaxWorkers (r_cfg r)) (Z.of_nat (size (r_workers r)))).
      * pose proof (size_evict r now) as Hle. pose proof (lookup_evict r now (WorkerID info)) as Hl. rewrite He in Hl.
        destruct (evictLocked r now) as [r1 logs] eqn:Hev. simpl in Hle, Hl.
        assert (r_cfg r1 = r_cfg r) as -> by (unfold evictLocked in Hev; by simplify_eq).
        destruct (Z.leb_spec (MaxWorkers (r_cfg r)) (Z.of_nat (size (r_workers r1)))); simpl; [lia|].
        rewrite map_size_insert_None by done. lia.
      * simpl. rewrite map_size_insert_None by done. lia.
  - simpl. unfold Registry_Heartbeat. destruct (Heartbeat_Validate hb); [done|]. unfold heartbeat.
    destruct (r_workers r !! id) as [e|] eqn:He; [|done]. destruct (negb _); [done|]. destruct (_ || _); [done|].
    destruct (observeLocked _ _ _ _). simpl. by rewrite map_size_insert_Some by done.
  - simpl. unfold Deregister. destruct (r_workers r !! id) as [e|] eqn:He; [|done]. destruct (negb _); [done|]. simpl.
    rewrite map_size_delete_Some by done. lia.
  - cbn [rrun]. unfold Sweep. set (r1 := r <| r_workers := _ |>). pose proof (size_evict r1 now) as Hle.
    destruct (evictLocked r1 now) as [r2 logs]. simpl in *.
    assert (size (r_workers r1) ≤ size (r_workers r))%nat; [|simpl in *; lia]. simpl.
    rewrite <-!(size_dom (D := gset string)). apply subseteq_size, dom_imap_subseteq.
Qed.

Record registry_ok (cfg : Config) (r : Registry) : Prop := {
  ok_cfg : r_cfg r = cfg;
  ok_valid : Config_Validate cfg = None;
  ok_size : Len r ≤ MaxWorkers cfg;
  ok_entries : map_Forall entry_ok (r_workers r)
}.

Lemma rsteps_ok cfg r l r' : rsteps r l r' → registry_ok cfg r → registry_ok cfg r'.
Proof.
  intros Hr [Hc Hv Hs He]. split; [by rewrite (rsteps_cfg _ _ _ Hr)|done| |].
  - clear He Hv. induction Hr as [|r now o l r' Hr IH]; [done|]. apply IH; [by rewrite rrun_cfg|].
    subst cfg. unfold Len in *. by apply size_rrun.
  - eapply rsteps_entries; [|exact Hr|exact He]. intros ? ? ? ? ? ? _ Hstep. by eapply entry_ok_step.
Qed.

Lemma reachable_registry_ok cfg r : reachable_registry cfg r → registry_ok cfg r.
Proof.
  intros (r0 & l & Hn & Hr). eapply rsteps_ok; [exact Hr|]. unfold NewWithClock in Hn.
  destruct (Config_Validate cfg) eqn:Hv; simplify_eq. split; simpl; [done|done| |apply map_Forall_empty].
  unfold Len. simpl. rewrite map_size_empty. unfold Config_Validate in Hv. repeat (case_match; try done). lia.
Qed.

(** The registry never holds more than MaxWorkers workers, and every entry is under its
    worker's id, with a validated registration, a state a worker may report, validated metrics,
    and a drain mark that agrees with its state. *)
Theorem registry_invariant cfg r :
  reachable_registry cfg r → Len r ≤ MaxWorkers cfg ∧ map_Forall entry_ok (r_workers r).
Proof. intros [_ _ Hs He]%reachable_registry_ok. done. Qed.

Lemma not_ready_ineligible r e t : e_state e ≠ StateReady → s_Eligible (snapshot r e t) = false.
Proof.
  intros Hne. simpl. unfold effective. destruct (String.eqb _ HealthLost); [done|]. destruct (String.eqb _ HealthUnhealthy); [done|].
  by destruct (String.eqb_spec (e_state e) StateReady).
Qed.

(** C35: A drain is one-way.  Once a heartbeat of the incarnation [g] has reported DRAINING, the
    worker is never eligible again in that incarnation, through FAILED or anything else, whatever
    operations follow, as long as no other registration draws the same random id. *)
Theorem drain_one_way r now id g hb r1 logs l r2 :
  Registry_Heartbeat r now id g hb = (r1, logs, None) → hb_State hb = StateDraining →
  rsteps r1 l r2 → (∀ t info, (t, ORegister g info) ∉ l) →
  ∀ e t, r_workers r2 !! id = Some e → e_regID e = g → s_Eligible (snapshot r2 e t) = false.
Proof.
  intros Hhb Hst Hsteps Hfresh e t He Hg.
  set (P := λ id' e, id' = id → e_regID e = g → e_drained e = true ∧ (e_state e = StateDraining ∨ e_state e = StateFailed)).
  assert (HP : map_Forall P (r_workers r2)).
  { eapply rsteps_entries; [|exact Hsteps|].
    - intros r' now' o id' oe e' Hin Hs Hoe -> Hreg. unfold P in Hoe. inversion Hs; subst; simplify_eq; simpl in *.
      + by apply Hoe.
      + exfalso. rewrite Hreg in Hin. by eapply Hfresh.
      + destruct (Hoe e0 eq_refl eq_refl Hreg) as [Hd _]. rewrite Hd. split; [done|]. auto.
      + by apply (Hoe e0 eq_refl).
    - intros id' e' He' -> Hreg. pose proof (heartbeat_cases r now id g hb) as Hc. rewrite Hhb in Hc.
      destruct Hc as [(e0 & obs & _ & _ & _ & _ & _ & Heq & _)|[_ ?]]; [|done]. rewrite Heq, lookup_insert_eq in He'.
      simplify_eq. simpl. rewrite Hst. split; [by rewrite orb_true_r|by left]. }
  destruct (HP id e He eq_refl Hg) as [_ Hs]. by apply not_ready_ineligible; destruct Hs as [->| ->].
Qed.

(** A superseded incarnation is refused for good.  After a registration of a worker drew the
    id [g'], every heartbeat and every deregistration that presents another id [g] is refused and
    leaves the workers as they are, whatever happened in between, unless a later registration
    drew [g]. *)
Theorem superseded_refused r now info g' r1 logs l r2 g t hb :
  Register r now g' info = (r1, logs, inl g') → g ≠ g' →
  rsteps r1 l r2 → (∀ t info, (t, ORegister g info) ∉ l) →
  let '(r3, _, err) := Registry_Heartbeat r2 t (WorkerID info) g hb in
  (err ≠ None ∧ r_workers r3 = r_workers r2) ∧
  ∃ err', Deregister r2 (WorkerID info) g = (r2, [], Some err').
Proof.
  intros Hreg Hne Hsteps Hfresh. set (P := λ id e, id = WorkerID info → e_regID e ≠ g).
  assert (HP : map_Forall P (r_workers r2)).
  { eapply rsteps_entries; [|exact Hsteps|].
    - intros r' now' o id' oe e' Hin Hs Hoe ->. unfold P in Hoe. inversion Hs; subst; simplify_eq; simpl in *; eauto.
      intros ->. by eapply Hfresh.
    - intros id e He ->. rewrite (register_added _ _ _ _ _ _ _ Hreg) in He. by simplify_eq/=. }
  pose proof (heartbeat_cases r2 t (WorkerID info) g hb) as Hc.
  destruct (Registry_Heartbeat r2 t (WorkerID info) g hb) as [[r3 logs3] err].
  split.
  - destruct Hc as [(e & obs & He & Hg & _)|[Hw Herr]]; [|done]. by destruct (HP _ _ He eq_refl).
  - unfold Deregister. destruct (r_workers r2 !! WorkerID info) as [e|] eqn:He; [|by eexists].
    destruct (String.eqb_spec (e_regID e) g) as [Heq|]; [by destruct (HP _ _ He eq_refl)|by eexists].
Qed.

(** ** Health. *)

Lemma valid_config c :
  Config_Validate c = None →
  0 < Suspect c < Unhealthy c ∧ Unhealthy c < Lost c ∧ 0 < Retention c ∧ 0 < HeartbeatInterval c ∧ 1 ≤ MaxWorkers c.
Proof. unfold Config_Validate. intros Hv. repeat (case_match; try done). lia. Qed.

(** A worker is routable exactly when it reports READY and was heard from recently. *)
Definition routable (c : Config) (e : entry) (now : Time) : Prop :=
  e_state e = StateReady ∧ (age e now < Suspect c ∨ (SuspectEligible c = true ∧ age e now ≤ Unhealthy c)).

Lemma eligible_routable cfg r e now :
  registry_ok cfg r → s_Eligible (snapshot r e now) = true ↔ routable cfg e now.
Proof.
  intros [<- Hv _ _]. apply valid_config in Hv. unfold routable. simpl. unfold effective, healthAt.
  destruct (Z.ltb_spec (Lost (r_cfg r)) (age e now)); [simpl; split; [done|lia]|].
  destruct (Z.ltb_spec (Unhealthy (r_cfg r)) (age e now)); [simpl; split; [done|lia]|].
  rewrite andb_true_iff. destruct (Z.leb_spec (Suspect (r_cfg r)) (age e now)); simpl.
  - rewrite String.eqb_eq. destruct (SuspectEligible (r_cfg r)); naive_solver lia.
  - rewrite String.eqb_eq. naive_solver lia.
Qed.

Lemma range_map_keys {V} (m : gmap string V) : NoDup (range_map m).*1.
Proof. rewrite range_map_perm. apply NoDup_fst_map_to_list. Qed.

Lemma snapshot_keys cfg r now :
  registry_ok cfg r →
  (s_WorkerID <$> ((λ ie : string * entry, snapshot r ie.2 now) <$> range_map (r_workers r))) = (range_map (r_workers r)).*1.
Proof.
  intros [_ _ _ He]. rewrite <-list_fmap_compose. apply list_fmap_ext. intros i [id e] Hin%list_elem_of_lookup_2. simpl.
  apply elem_of_range_map in Hin. by apply ok_id, He.
Qed.

Lemma list_NoDup cfg r now f :
  registry_ok cfg r →
  NoDup (s_WorkerID <$> filter (λ s, list_keeps f s = true) ((λ ie : string * entry, snapshot r ie.2 now) <$> range_map (r_workers r))).
Proof. intros Hok. apply filter_fmap_NoDup. erewrite snapshot_keys by done. apply range_map_keys. Qed.

Lemma elem_of_List r now f s :
  s ∈ Registry_List r now f ↔ ∃ id e, r_workers r !! id = Some e ∧ s = snapshot r e now ∧ list_keeps f s = true.
Proof.
  unfold Registry_List. rewrite elem_of_sort_by, list_elem_of_filter, list_elem_of_fmap. split.
  - intros [Hk ([id e] & -> & Hin%elem_of_range_map)]. by exists id, e.
  - intros (id & e & He & -> & Hk). split; [done|]. exists (id, e). by rewrite elem_of_range_map.
Qed.

(** [Eligible] is exact.  For a model it returns, in strictly increasing order of worker id,
    the snapshots of exactly the workers of that model that report READY and whose last
    heartbeat is younger than the suspect threshold, or at most the unhealthy one where suspect
    workers are configured as eligible; so never a draining, failed, unhealthy or lost one. *)
Theorem eligible_exact cfg r now model :
  reachable_registry cfg r → model ≠ "" →
  StronglySorted (key_lt s_WorkerID) (Eligible r now model) ∧
  ∀ s, s ∈ Eligible r now model ↔
    ∃ e, r_workers r !! s_WorkerID s = Some e ∧ s = snapshot r e now ∧ Model (e_info e) = model ∧ routable cfg e now.
Proof.
  intros Hok%reachable_registry_ok Hm. split; [by eapply sort_by_strict, list_NoDup|]. intros s. unfold Eligible.
  rewrite elem_of_List. unfold list_keeps. simpl. destruct (String.eqb_spec model ""); [done|]. simpl. split.
  - intros (id & e & He & -> & Hk). exists e. apply negb_true_iff, orb_false_iff in Hk as [[Hk1 _]%orb_false_iff Hk2].
    apply negb_false_iff, String.eqb_eq in Hk1. apply negb_false_iff in Hk2. split_and!; try done.
    + simpl. by rewrite (ok_id _ _ (ok_entries _ _ Hok _ _ He)).
    + by apply (eligible_routable cfg r).
  - intros (e & He & Hs & <- & Hr). exists (s_WorkerID s), e. split_and!; [done|done|]. rewrite Hs.
    apply (eligible_routable cfg r) in Hr; [|done]. rewrite Hr. simpl. by rewrite String.eqb_refl.
Qed.

(** ** Sweeping. *)

Lemma age_mono e now now' : mono now ≤ mono now' → age e now ≤ age e now'.
Proof. intros Hle. unfold age, Sub. repeat case_match; lia. Qed.

Lemma snapshot_sweep r now id e t : snapshot (Sweep r now).1.1 (observeLocked r id e now).1 t = snapshot r e t.
Proof. destruct (observe_entry r id e now) as [obs ->]. done. Qed.

Lemma long_lost_age cfg r now e t :
  registry_ok cfg r → in64 (Lost cfg + Retention cfg) → long_lost r now e = true → mono now ≤ mono t → Lost cfg < age e t.
Proof.
  intros [<- Hv _ _] Hin Hl Hle. apply valid_config in Hv. apply (age_mono e) in Hle. unfold long_lost in Hl.
  rewrite wrap64_id in Hl by done. lia.
Qed.

Lemma elem_of_swept_Eligible cfg r now model t s :
  registry_ok cfg r → in64 (Lost cfg + Retention cfg) → mono now ≤ mono t →
  s ∈ Eligible (Sweep r now).1.1 t model ↔ s ∈ Eligible r t model.
Proof.
  intros Hok Hin Hle. unfold Eligible. rewrite !elem_of_List. split.
  - intros (id & e & He & -> & Hk). rewrite lookup_sweep in He. destruct (r_workers r !! id) as [e0|] eqn:He0; [|done].
    destruct (long_lost r now e0); simplify_eq. rewrite snapshot_sweep in *. by exists id, e0.
  - intros (id & e & He & -> & Hk). destruct (long_lost r now e) eqn:Hl.
    + exfalso. eapply long_lost_age in Hl; [|done..].
      assert (routable cfg e t) as [_ Hr]; [|pose proof (valid_config _ (ok_valid _ _ Hok)); lia].
      apply (eligible_routable cfg r); [done|]. unfold list_keeps in Hk. simpl in Hk |- *.
      apply negb_true_iff, orb_false_iff in Hk as [_ Hk]. by apply negb_false_iff in Hk.
    + exists id, (observeLocked r id e now).1. rewrite lookup_sweep, He, Hl, snapshot_sweep. done.
Qed.

(** Routing never depends on [Sweep].  A sweep at [now] changes the answer of [Get] at any
    later time for no worker except the evicted ones, which were and stay LOST, and does not
    change what [Eligible] returns for any model. *)
Theorem sweep_invisible cfg r now t model id :
  reachable_registry cfg r → in64 (Lost cfg + Retention cfg) → mono now ≤ mono t →
  let r1 := (Sweep r now).1.1 in
  Eligible r1 t model = Eligible r t model ∧
  (Get r1 t id = Get r t id ∨ (Get r1 t id = None ∧ ∃ s, Get r t id = Some s ∧ s_State s = StateLost)).
Proof.
  intros Hok%reachable_registry_ok Hin Hle. cbv zeta.
  assert (Hok1 : registry_ok cfg (Sweep r now).1.1).
  { eapply (rsteps_ok cfg r [(now, OSweep)]); [|done]. apply rsteps_cons, rsteps_nil. }
  split.
  - apply sort_by_unique; [by eapply list_NoDup|].
    apply NoDup_Permutation; [by eapply NoDup_fmap_1, list_NoDup..|]. intros s.
    pose proof (elem_of_swept_Eligible cfg r now model t s Hok Hin Hle) as Hs.
    unfold Eligible, Registry_List in Hs. by rewrite !elem_of_sort_by in Hs.
  - unfold Get. rewrite lookup_sweep. destruct (r_workers r !! id) as [e|]; [|by left].
    destruct (long_lost r now e) eqn:Hl; [|left; exact (f_equal Some (snapshot_sweep r now id e t))].
    right. split; [done|]. eexists. split; [done|]. eapply long_lost_age in Hl; [|done..].
    simpl. unfold effective, healthAt. rewrite (ok_cfg _ _ Hok). by destruct (Z.ltb_spec (Lost cfg) (age e t)); [|lia].
Qed.

(** An accepted heartbeat is proof of life.  Whatever health a worker had sunk to, right
    after a heartbeat with its current id and a legal state change it is healthy in the state it
    reports, eligible exactly when that is READY, and no other worker is changed; a refused
    heartbeat changes no worker. *)
Theorem heartbeat_proof_of_life cfg r now id g hb :
  reachable_registry cfg r →
  let '(r1, _, err) := Registry_Heartbeat r now id g hb in
  (∀ id', id' ≠ id ∨ err ≠ None → r_workers r1 !! id' = r_workers r !! id') ∧
  (err = None → ∃ s, Get r1 now id = Some s ∧ s_Health s = HealthHealthy ∧ s_State s = hb_State hb ∧
     s_Metrics s = hb_Metrics hb ∧ (s_Eligible s = true ↔ hb_State hb = StateReady)).
Proof.
  intros Hok%reachable_registry_ok. pose proof (heartbeat_cases r now id g hb) as Hc.
  pose proof (rrun_cfg r now (OHeartbeat id g hb)) as Hcfg. cbn [rrun] in Hcfg.
  destruct (Registry_Heartbeat r now id g hb) as [[r1 logs] err]. simpl in Hcfg.
  destruct Hc as [(e & obs & He & _ & _ & _ & _ & Heq & ->)|[Heq Herr]]; [|split; [by rewrite Heq|done]].
  split; [intros id' [Hne|]; [|done]; rewrite Heq; by rewrite lookup_insert_ne|]. intros _.
  unfold Get. rewrite Heq, lookup_insert_eq. simpl. eexists. split; [done|].
  assert (Hage : age (beaten e now hb obs) now = 0).
  { unfold age, Sub, beaten. simpl. rewrite Z.sub_diag. done. }
  assert (Hh : healthAt (r_cfg r1) 0 = HealthHealthy).
  { rewrite Hcfg, (ok_cfg _ _ Hok). pose proof (valid_config _ (ok_valid _ _ Hok)). unfold healthAt.
    by destruct (Z.ltb_spec (Lost cfg) 0), (Z.ltb_spec (Unhealthy cfg) 0), (Z.leb_spec (Suspect cfg) 0); try lia. }
  unfold snapshot, effective. rewrite Hage, Hh. simpl. split_and!; try done.
  rewrite andb_true_r. apply String.eqb_eq.
Qed.

(** ** The model inventory. *)

Definition serves (m : string) (ie : string * entry) : bool := String.eqb (Model (e_info ie.2)) m.
Definition serves_eligible (r : Registry) (now : Time) (m : string) (ie : string * entry) : bool :=
  serves m ie && s_Eligible (snapshot r ie.2 now).

(** The counts after the workers [l]. *)
Definition model_count (r : Registry) (now : Time) (l : list (string * entry)) (m : string) : option ModelInfo :=
  if 0 <? countb (serves m) l
  then Some (mkModelInfo m (countb (serves m) l) (countb (serves_eligible r now m) l)) else None.

Lemma serves_eligible_le r now m l : countb (serves_eligible r now m) l ≤ countb (serves m) l.
Proof.
  induction l as [|ie l IH]; [done|]. rewrite !countb_cons. unfold serves_eligible at 1.
  destruct (serves m ie), (s_Eligible (snapshot r ie.2 now)); simpl; lia.
Qed.

Lemma models_step_count r now l counts ie :
  (∀ m, counts !! m = model_count r now l m) → ∀ m, models_step r now counts ie !! m = model_count r now (l ++ [ie]) m.
Proof.
  intros Hc m. unfold models_step, model_count. rewrite !countb_app, !countb_cons, !countb_nil, !Z.add_0_r.
  destruct (decide (Model (e_info ie.2) = m)) as [<-|Hne].
  - rewrite lookup_insert_eq, Hc. unfold model_count.
    change (serves_eligible r now ?m ie) with (serves m ie && s_Eligible (snapshot r ie.2 now)).
    generalize (s_Eligible (snapshot r ie.2 now)). intros el. set (m := Model (e_info ie.2)). assert (serves m ie = true) as -> by apply String.eqb_refl.
    pose proof (countb_nonneg (serves m) l) as Hn. pose proof (serves_eligible_le r now m l) as Hle.
    pose proof (countb_nonneg (serves_eligible r now m) l) as Hn'. simpl.
    destruct (Z.ltb_spec 0 (countb (serves m) l + 1)); [|lia].
    destruct (Z.ltb_spec 0 (countb (serves m) l)); simpl.
    + f_equal. f_equal. destruct el; simpl; [done|by rewrite Z.add_0_r].
    + f_equal. f_equal; [lia|]. destruct el; simpl; lia.
  - rewrite lookup_insert_ne, Hc by done.
    assert (serves m ie = false) as Hs by by apply String.eqb_neq.
    unfold model_count, serves_eligible at 3. rewrite Hs. simpl. by rewrite !Z.add_0_r.
Qed.

Lemma models_fold r now l0 l counts :
  (∀ m, counts !! m = model_count r now l0 m) →
  ∀ m, foldl (models_step r now) counts l !! m = model_count r now (l0 ++ l) m.
Proof.
  revert l0 counts. induction l as [|ie l IH]; intros l0 counts Hc m; simpl; [by rewrite app_nil_r|].
  rewrite (IH (l0 ++ [ie])) by (by apply models_step_count). by rewrite <-(assoc_L (++)).
Qed.

Lemma length_filter_countb {A} (p : A → bool) (l : list A) : Z.of_nat (length (filter (λ x, p x = true) l)) = countb p l.
Proof.
  induction l as [|x l IH]; [done|]. rewrite countb_cons, filter_cons. destruct (p x); simpl; rewrite <-IH; lia.
Qed.

Lemma length_List r now f :
  Z.of_nat (length (Registry_List r now f)) = countb (λ ie, list_keeps f (snapshot r ie.2 now)) (range_map (r_workers r)).
Proof.
  unfold Registry_List. rewrite (Permutation_length (sort_by_perm _ _)), length_filter_countb.
  unfold countb. by rewrite <-list_fmap_compose.
Qed.

(** [Models] is the inventory of the fleet: in strictly increasing order of name, one record
    for each model some worker serves, whose counts are the numbers of workers [List] returns
    for the model and of workers [Eligible] returns for it at the same time. *)
Theorem models_consistent cfg r now :
  reachable_registry cfg r →
  StronglySorted (key_lt mi_Model) (Models r now) ∧
  ∀ m w n, m ≠ "" →
    mkModelInfo m w n ∈ Models r now ↔
    0 < w ∧ w = Z.of_nat (length (Registry_List r now (mkListFilter m "" false))) ∧
    n = Z.of_nat (length (Eligible r now m)).
Proof.
  intros Hok%reachable_registry_ok.
  set (counts := foldl (models_step r now) ∅ (range_map (r_workers r))).
  assert (Hc : ∀ m, counts !! m = model_count r now (range_map (r_workers r)) m).
  { apply (models_fold r now [] _ ∅). intros m. by rewrite lookup_empty. }
  assert (Hkey : ∀ m mi, counts !! m = Some mi → mi_Model mi = m).
  { intros m mi. rewrite Hc. unfold model_count. case_match; naive_solver. }
  split.
  - apply sort_by_strict. rewrite <-list_fmap_compose. fold counts.
    erewrite list_fmap_ext; [apply (range_map_keys counts)|]. intros i [m mi] Hin%list_elem_of_lookup_2%elem_of_range_map.
    simpl. by apply Hkey.
  - intros m w n Hm. unfold Models. fold counts. rewrite elem_of_sort_by, list_elem_of_fmap.
    assert (Hw : Z.of_nat (length (Registry_List r now (mkListFilter m "" false))) = countb (serves m) (range_map (r_workers r))).
    { rewrite length_List. apply countb_ext. intros ie _. unfold list_keeps, serves. simpl.
      destruct (String.eqb_spec m ""); [done|]. simpl. by destruct (String.eqb _ m). }
    assert (He : Z.of_nat (length (Eligible r now m)) = countb (serves_eligible r now m) (range_map (r_workers r))).
    { unfold Eligible. rewrite length_List. apply countb_ext. intros ie _. unfold list_keeps, serves_eligible, serves. simpl.
      destruct (String.eqb_spec m ""); [done|]. simpl. by destruct (String.eqb _ m), (_ && _). }
    rewrite Hw, He. split.
    + intros ([m' mi] & Hmi & Hin%elem_of_range_map). simpl in Hmi. subst mi. pose proof (Hkey _ _ Hin) as Hk. simpl in Hk. subst m'.
      rewrite Hc in Hin. unfold model_count in Hin. destruct (Z.ltb_spec 0 (countb (serves m) (range_map (r_workers r)))); naive_solver.
    + intros (Hpos & -> & ->). exists (m, mkModelInfo m (countb (serves m) (range_map (r_workers r))) (countb (serves_eligible r now m) (range_map (r_workers r)))).
      split; [done|]. apply elem_of_range_map. rewrite Hc. unfold model_count. by destruct (Z.ltb_spec 0 (countb (serves m) (range_map (r_workers r)))); [|lia].
Qed.
End spec.

(** ** Instances. *)

Definition ex_parser : UrlParser :=
  {| url_Parse := λ _, Some (mkURL "http" "10.0.0.1:8000" false "" false "" "10.0.0.1" "8000" "") |}.

Definition ex_cfg : Config := mkConfig (3 * Second) (6 * Second) (10 * Second) (60 * Second) 2 Second false.
Definition ex_t (s : Z) : Time := mkTime (s * Second) (s * Second).
Definition ex_info (id : string) : WorkerInfo := mkWorkerInfo id "llama" "http://10.0.0.1:8000" 4 8.
Definition ex_hb (g : string) (s : WorkerState) : Heartbeat := mkHeartbeat g s zeroMetrics "".

Definition ex_r0 : Registry := mkRegistry ex_cfg ∅ 0 (replicate 5 0).
Definition ex_ops : list (Time * rop) :=
  [(ex_t 0, ORegister "g1" (ex_info "w1")); (ex_t 0, ORegister "g2" (ex_info "w2"));
   (ex_t 1, OHeartbeat "w1" "g1" (ex_hb "g1" StateReady))].
Definition ex_run (r : Registry) (l : list (Time * rop)) : Registry :=
  foldl (λ r o, @rrun ex_parser order_id r o.1 o.2) r l.
Definition ex_r : Registry := ex_run ex_r0 ex_ops.

Lemma ex_run_steps r l : @rsteps ex_parser order_id r l (ex_run r l).
Proof. revert r. induction l as [|[now o] l IH]; intros r; [apply rsteps_nil|]. apply rsteps_cons. apply IH. Qed.

Lemma ex_reachable : @reachable_registry ex_parser order_id ex_cfg ex_r.
Proof. exists ex_r0, ex_ops. split; [by vm_compute|apply ex_run_steps]. Qed.

Lemma triple_eq {A B C} (x : A * B * C) c : x.2 = c → x = (x.1.1, x.1.2, c).
Proof. by destruct x as [[a b] c'] => /= ->. Qed.

Lemma registry_invariant_witness : Len ex_r = 2 ∧ Len ex_r ≤ 2.
Proof. split; [by vm_compute|]. exact (proj1 (@registry_invariant ex_parser order_id ex_cfg ex_r ex_reachable)). Defined.

Definition ex_drained : Registry := (@Registry_Heartbeat ex_r (ex_t 2) "w1" "g1" (ex_hb "g1" StateDraining)).1.1.
Definition ex_after : list (Time * rop) := [(ex_t 3, OHeartbeat "w1" "g1" (ex_hb "g1" StateFailed)); (ex_t 3, OSweep)].

Lemma ex_no_register t g info : (t, ORegister g info) ∉ ex_after.
Proof. by intros [[=]|[[=]|?%elem_of_nil]%elem_of_cons]%elem_of_cons. Qed.

Lemma drain_one_way_witness :
  ∃ e, r_workers (ex_run ex_drained ex_after) !! "w1" = Some e ∧ e_state e = StateFailed ∧
    s_Eligible (snapshot (ex_run ex_drained ex_after) e (ex_t 4)) = false.
Proof.
  destruct (r_workers (ex_run ex_drained ex_after) !! "w1") as [e|] eqn:He; [|by vm_compute in He].
  exists e. split_and!; [done|by vm_compute in He; simplify_eq|].
  refine (@drain_one_way ex_parser order_id ex_r (ex_t 2) "w1" "g1" (ex_hb "g1" StateDraining) ex_drained _ ex_after _
    (triple_eq _ None _) eq_refl (ex_run_steps _ _) _ e (ex_t 4) He _).
  - by vm_compute.
  - intros t info. apply ex_no_register.
  - by vm_compute in He; simplify_eq.
Defined.

Definition ex_new : Registry := (@Register ex_parser order_id ex_r (ex_t 2) "g3" (ex_info "w1")).1.1.

Lemma superseded_refused_witness :
  (Registry_Heartbeat (ex_run ex_new ex_after) (ex_t 5) "w1" "g1" (ex_hb "g1" StateReady)).2 = Some ErrStaleRegistration ∧
  r_workers (Registry_Heartbeat (ex_run ex_new ex_after) (ex_t 5) "w1" "g1" (ex_hb "g1" StateReady)).1.1
  = r_workers (ex_run ex_new ex_after).
Proof.
  split; [by vm_compute|].
  assert (Hreg : (@Register ex_parser order_id ex_r (ex_t 2) "g3" (ex_info "w1")).2 = inl "g3") by by vm_compute.
  pose proof (@superseded_refused ex_parser order_id ex_r (ex_t 2) (ex_info "w1") "g3" ex_new _ ex_after (ex_run ex_new ex_after)
    "g1" (ex_t 5) (ex_hb "g1" StateReady) (triple_eq _ _ Hreg) ltac:(done) (ex_run_steps _ _)
    (λ t info, ex_no_register t "g1" info)) as Hs.
  cbn [WorkerID ex_info] in Hs.
  destruct (Registry_Heartbeat (ex_run ex_new ex_after) (ex_t 5) "w1" "g1" (ex_hb "g1" StateReady)) as [[r3 logs] err]. apply Hs.
Defined.

Lemma eligible_exact_witness : s_WorkerID <$> @Eligible order_id ex_r (ex_t 2) "llama" = ["w1"] ∧
  StronglySorted (key_lt s_WorkerID) (@Eligible order_id ex_r (ex_t 2) "llama").
Proof. split; [by vm_compute|]. exact (proj1 (@eligible_exact ex_parser order_id ex_cfg ex_r (ex_t 2) "llama" ex_reachable ltac:(done))). Defined.

Lemma sweep_invisible_witness :
  @Eligible order_id (@Sweep order_id ex_r (ex_t 100)).1.1 (ex_t 100) "llama" = @Eligible order_id ex_r (ex_t 100) "llama" ∧
  Len (@Sweep order_id ex_r (ex_t 100)).1.1 = 0.
Proof.
  split; [|by vm_compute].
  exact (proj1 (@sweep_invisible ex_parser order_id ex_cfg ex_r (ex_t 100) (ex_t 100) "llama" "w1" ex_reachable ltac:(done) ltac:(done))).
Defined.

Lemma heartbeat_proof_of_life_witness :
  ∃ s, Get (Registry_Heartbeat ex_r (ex_t 50) "w1" "g1" (ex_hb "g1" StateReady)).1.1 (ex_t 50) "w1" = Some s ∧ s_Health s = HealthHealthy.
Proof.
  pose proof (@heartbeat_proof_of_life ex_parser order_id ex_cfg ex_r (ex_t 50) "w1" "g1" (ex_hb "g1" StateReady) ex_reachable) as Hs.
  rewrite (triple_eq (Registry_Heartbeat ex_r (ex_t 50) "w1" "g1" (ex_hb "g1" StateReady)) None) in Hs by by vm_compute.
  destruct Hs as [_ Hs]. destruct (Hs eq_refl) as (s & Hg & Hh & _). exists s. exact (conj Hg Hh).
Defined.

Lemma models_consistent_witness : @Models order_id ex_r (ex_t 2) = [mkModelInfo "llama" 2 1] ∧
  (mkModelInfo "llama" 2 1 ∈ @Models order_id ex_r (ex_t 2)).
Proof.
  split; [by vm_compute|].
  apply (proj2 (@models_consistent ex_parser order_id ex_cfg ex_r (ex_t 2) ex_reachable) "llama" 2 1 ltac:(done)). by vm_compute.
Defined.
