(* ===== verification/Cost.v ===== *)
(** * The cost estimator (internal/cost/estimate.go)

    What a request will cost in tokens: three ASCII bytes or one other character per token, some
    framing, and the output budget, saturating at [MaxCost]; and the work the scheduler accounts
    for it, in floating point.  The loop over the text has fuel for one round per byte, which
    [text_scan_total] shows is enough. *)

From Stdlib Require Import Ascii String SpecFloat.
From S2P Require Import Prelude GoFloat FloatExact FloatOrder GoString.

Local Open Scope string_scope.
Local Open Scope list_scope.
Local Open Scope Z_scope.

(** ** The estimate. *)

Record Message := mkMessage { Role : string; Content : string }.

Definition charsPerToken : Z := 3.
Definition perMessageOverhead : Z := 4.
Definition replyPriming : Z := 3.
Definition MaxCost : Z := 2 ^ 32.

(** The loop of textTokens: the ASCII bytes and the other characters of the rest of the text. *)
Fixpoint text_scan (fuel : nat) (l : list Z) (ascii wide : Z) : option (Z * Z) :=
  match l, fuel with
  | [], _ => Some (ascii, wide)
  | _, O => None
  | c :: l0, S fuel =>
      if c <? 128 then text_scan fuel l0 (wrapU64 (ascii + 1)) wide
      else
        let rest := match decode_rune l with Some (_, l') => l' | None => l0 end in
        text_scan fuel rest ascii (wrapU64 (wide + 1))
  end.

Definition textTokens (s : string) : Z :=
  match text_scan (length (bytes s)) (bytes s) 0 0 with
  | Some (ascii, wide) => wrapU64 (wrapU64 (ascii + charsPerToken - 1) / charsPerToken + wide)
  | None => 0
  end.

(** The closure [add] of Estimate. *)
Definition add_capped (in_ n : Z) : Z :=
  let in_ := wrapU64 (in_ + n) in if MaxCost <? in_ then MaxCost else in_.

(** One round of the loop over the messages: the input so far and the bytes counted. *)
Definition add_message (ic : Z * Z) (m : Message) : Z * Z :=
  let '(in_, counted) := ic in
  (add_capped (add_capped (add_capped in_ perMessageOverhead) (textTokens (Role m))) (textTokens (Content m)),
   wrapU64 (counted + wrapU64 (slen (Role m) + slen (Content m)))).

Definition Estimate (msgs : list Message) (prompt : string) (bodyBytes maxTokens limit : Z) : Z * Z :=
  let '(in_, counted) := foldl add_message (0, 0) msgs in
  let in_ := add_capped in_ (textTokens prompt) in
  let counted := wrapU64 (counted + slen prompt) in
  let in_ :=
    if (0 <? bodyBytes) && (counted <? wrapU64 bodyBytes)
    then add_capped in_ (wrapU64 (wrapU64 bodyBytes - counted + charsPerToken - 1) / charsPerToken)
    else in_ in
  let in_ := add_capped in_ replyPriming in
  let out := if maxTokens <=? 0 then limit else maxTokens in
  let o := if 0 <? out then wrapU64 out else 0 in
  let room := wrapU64 (MaxCost - in_) in
  let o := if room <? o then room else o in
  let in_ := if wrapU64 (in_ + o) <? 1 then 1 else in_ in
  (in_, o).

Definition EstimateRequestCost (msgs : list Message) (prompt : string) (bodyBytes maxTokens limit : Z) : Z :=
  let '(in_, out) := Estimate msgs prompt bodyBytes maxTokens limit in (in_ +! out)%go.

Definition EstimateCost (msgs : list Message) (prompt : string) (maxTokens limit : Z) : Z :=
  EstimateRequestCost msgs prompt 0 maxTokens limit.

(** ** The work. *)

Record Weights := mkWeights { InputWeight : float64; OutputFraction : float64 }.

Definition DefaultWeights : Weights := mkWeights (f64 1) (f64 1).

Definition maxWeight : float64 := f64 10000.

Definition sane (v def : float64) : float64 := if isNaN v || isInf v || flt v f0 then def else fmin v maxWeight.

Definition Work `{GoPlatform} (estInput estOutput : Z) (w : Weights) : Z :=
  let in_ := f64 (Z.max estInput 0) in
  let out := f64 (Z.max estOutput 0) in
  let iw := sane (InputWeight w) (f64 1) in
  let of_ := sane (OutputFraction w) (f64 1) in
  let total := (float_to_int (fceil (fmul iw in_)) +! float_to_int (fceil (fmul of_ out)))%go in
  if (total <? 1) && ((0 <? estInput) || (0 <? estOutput)) then 1 else total.

(** ** What the text loop counts. *)

(** The characters of a text: ASCII bytes, and the others by [DecodeRuneInString]. *)
Fixpoint tally (fuel : nat) (l : list Z) : Z * Z :=
  match l, fuel with
  | [], _ => (0, 0)
  | _, O => (0, 0)
  | c :: l0, S fuel =>
      if c <? 128 then let '(a, w) := tally fuel l0 in (a + 1, w)
      else let '(a, w) := tally fuel (match decode_rune l with Some (_, l') => l' | None => l0 end) in (a, w + 1)
  end.

Lemma rest_shrinks c l0 : (length (match decode_rune (c :: l0) with Some (_, l') => l' | None => l0 end) ≤ length l0)%nat.
Proof. destruct (decode_rune (c :: l0)) as [[r l']|] eqn:Hd; [|done]. apply decode_rune_shrinks in Hd. simpl in Hd. lia. Qed.

Lemma tally_bounds fuel l : let '(a, w) := tally fuel l in 0 ≤ a ∧ 0 ≤ w ∧ a + w ≤ Z.of_nat (length l).
Proof.
  revert l. induction fuel as [|fuel IH]; intros l; [destruct l; simpl; lia|]. destruct l as [|c l0]; [simpl; lia|]. simpl.
  destruct (c <? 128).
  - specialize (IH l0). destruct (tally fuel l0). lia.
  - pose proof (rest_shrinks c l0) as Hs. specialize (IH (match decode_rune (c :: l0) with Some (_, l') => l' | None => l0 end)).
    destruct (tally fuel _). lia.
Qed.

(** The loop ends within a round per byte, and does not overflow. *)
Lemma text_scan_total fuel l ascii wide :
  (length l ≤ fuel)%nat → 0 ≤ ascii → 0 ≤ wide → ascii + wide + Z.of_nat (length l) < 2 ^ 64 →
  text_scan fuel l ascii wide = Some (ascii + (tally fuel l).1, wide + (tally fuel l).2).
Proof.
  revert l ascii wide. induction fuel as [|fuel IH]; intros l ascii wide Hl Ha Hw Hb.
  - destruct l; [|simpl in Hl; lia]. simpl. do 2 f_equal; lia.
  - destruct l as [|c l0]; [simpl; do 2 f_equal; lia|]. simpl in Hl, Hb. simpl. destruct (c <? 128).
    + rewrite wrapU64_id by lia. rewrite IH by lia. destruct (tally fuel l0) as [a w]. simpl. do 2 f_equal; lia.
    + pose proof (rest_shrinks c l0) as Hs. rewrite wrapU64_id by lia. rewrite IH by lia.
      destruct (tally fuel _) as [a w]. simpl. do 2 f_equal; lia.
Qed.

Definition text_cost (s : string) : Z := let '(a, w) := tally (length (bytes s)) (bytes s) in (a + 2) / 3 + w.

Lemma textTokens_exact s : slen s < 2 ^ 63 → textTokens s = text_cost s ∧ 0 ≤ text_cost s ≤ slen s.
Proof.
  intros Hs. rewrite <-bytes_length in *. unfold textTokens, text_cost. rewrite text_scan_total by lia.
  pose proof (tally_bounds (length (bytes s)) (bytes s)) as Ht. destruct (tally _ _) as [a w]. simpl. unfold charsPerToken.
  assert (0 ≤ (a + 2) / 3 ≤ a) by (Z.to_euclidean_division_equations; lia).
  rewrite (wrapU64_id (0 + a + 3 - 1)) by lia. replace (0 + a + 3 - 1) with (a + 2) by lia. rewrite wrapU64_id by lia. lia.
Qed.

(** More fuel changes nothing. *)
Lemma tally_fuel fuel fuel' l : (length l ≤ fuel)%nat → (length l ≤ fuel')%nat → tally fuel l = tally fuel' l.
Proof.
  revert fuel' l. induction fuel as [|fuel IH]; intros fuel' l H1 H2; [destruct l; [by destruct fuel'|simpl in H1; lia]|].
  destruct l as [|c l0]; [by destruct fuel'|]. destruct fuel' as [|fuel']; simpl in H1, H2; [lia|]. simpl.
  pose proof (rest_shrinks c l0). destruct (c <? 128); [by rewrite (IH fuel') by lia|]. by rewrite (IH fuel') by lia.
Qed.

(** ** The estimate without saturation. *)

Definition message_tokens (m : Message) : Z := perMessageOverhead + text_cost (Role m) + text_cost (Content m).
Definition message_bytes (m : Message) : Z := slen (Role m) + slen (Content m).

Definition text_bytes (msgs : list Message) (prompt : string) : Z := sumZ (message_bytes <$> msgs) + slen prompt.

(** The bytes of the body that are not text, at three per token. *)
Definition rest_tokens (body counted : Z) : Z := if (0 <? body) && (counted <? body) then (body - counted + 2) / 3 else 0.

Definition input_tokens (msgs : list Message) (prompt : string) (body : Z) : Z :=
  sumZ (message_tokens <$> msgs) + text_cost prompt + rest_tokens body (text_bytes msgs prompt) + replyPriming.

Definition output_tokens (maxTokens limit : Z) : Z := Z.max 0 (if maxTokens <=? 0 then limit else maxTokens).

(** What memory and the int type allow. *)
Definition sizes_ok (msgs : list Message) (prompt : string) : Prop :=
  Z.of_nat (length msgs) < 2 ^ 60 ∧ text_bytes msgs prompt < 2 ^ 62.

Lemma slen_nonneg s : 0 ≤ slen s.
Proof. unfold slen. lia. Qed.

Lemma add_capped_exact in_ n : 0 ≤ in_ ≤ MaxCost → 0 ≤ n < 2 ^ 63 → add_capped in_ n = Z.min MaxCost (in_ + n).
Proof. unfold add_capped, MaxCost. intros Hi Hn. rewrite wrapU64_id by lia. case_match; lia. Qed.

(** Saturating at each addition is saturating once. *)
Lemma add_capped_min x n : 0 ≤ x → 0 ≤ n < 2 ^ 63 → add_capped (Z.min MaxCost x) n = Z.min MaxCost (x + n).
Proof. intros Hx Hn. rewrite add_capped_exact by (done || unfold MaxCost; lia). lia. Qed.

Lemma bytes_sum_nonneg msgs : 0 ≤ sumZ (message_bytes <$> msgs).
Proof.
  apply sumZ_nonneg, Forall_fmap, Forall_true. intros m. simpl. unfold message_bytes.
  pose proof (slen_nonneg (Role m)). pose proof (slen_nonneg (Content m)). lia.
Qed.

Lemma message_cost m : message_bytes m < 2 ^ 62 →
  textTokens (Role m) = text_cost (Role m) ∧ textTokens (Content m) = text_cost (Content m) ∧
  0 ≤ text_cost (Role m) < 2 ^ 62 ∧ 0 ≤ text_cost (Content m) < 2 ^ 62.
Proof.
  unfold message_bytes. intros Hm. pose proof (slen_nonneg (Role m)). pose proof (slen_nonneg (Content m)).
  destruct (textTokens_exact (Role m)); [lia|]. destruct (textTokens_exact (Content m)); [lia|]. split_and!; (done || lia).
Qed.

Lemma fold_messages msgs x b :
  0 ≤ x → 0 ≤ b → b + sumZ (message_bytes <$> msgs) < 2 ^ 62 →
  foldl add_message (Z.min MaxCost x, b) msgs
  = (Z.min MaxCost (x + sumZ (message_tokens <$> msgs)), b + sumZ (message_bytes <$> msgs)) ∧ 0 ≤ sumZ (message_tokens <$> msgs).
Proof.
  revert x b. induction msgs as [|m msgs IH]; intros x b Hx Hb Hs; csimpl.
  - change (sumZ []) with 0. rewrite !Z.add_0_r. done.
  - csimpl in Hs. simpl sumZ in *. pose proof (bytes_sum_nonneg msgs).
    pose proof (slen_nonneg (Role m)). pose proof (slen_nonneg (Content m)).
    destruct (message_cost m) as (E1 & E2 & T1 & T2); [unfold message_bytes in *; lia|].
    rewrite E1, E2, !add_capped_min by (unfold perMessageOverhead; lia).
    fold (message_bytes m). rewrite (wrapU64_id (message_bytes m)), wrapU64_id by (unfold message_bytes in *; lia).
    destruct (IH (x + perMessageOverhead + text_cost (Role m) + text_cost (Content m)) (b + message_bytes m)) as [-> Hn];
      [unfold perMessageOverhead; lia|unfold message_bytes; lia|lia|].
    assert (message_tokens m = perMessageOverhead + text_cost (Role m) + text_cost (Content m)) as -> by done.
    unfold perMessageOverhead in *. split; [f_equal; [f_equal|]; lia|lia].
Qed.

Lemma Estimate_min msgs prompt body maxTokens limit :
  sizes_ok msgs prompt → in64 body → in64 maxTokens → in64 limit →
  let I := input_tokens msgs prompt body in let O := output_tokens maxTokens limit in
  Estimate msgs prompt body maxTokens limit = (Z.min MaxCost I, Z.min MaxCost (I + O) - Z.min MaxCost I) ∧
  EstimateRequestCost msgs prompt body maxTokens limit = Z.min MaxCost (I + O) ∧ 1 ≤ Z.min MaxCost (I + O) ≤ MaxCost.
Proof.
  intros [Hlen Hsz] Hbody Hmax Hlim. cbv zeta. unfold EstimateRequestCost, Estimate. unfold text_bytes, in64, int64_min, int64_max in *.
  pose proof (bytes_sum_nonneg msgs) as Hbn. pose proof (slen_nonneg prompt) as Hpn.
  destruct (fold_messages msgs 0 0) as [Hfold Htn]; [lia..|]. change (Z.min MaxCost 0) with 0 in Hfold. rewrite Hfold, !Z.add_0_l.
  destruct (textTokens_exact prompt) as [-> Hpt]; [lia|]. rewrite add_capped_min by lia. rewrite (wrapU64_id (_ + slen prompt)) by lia.
  fold (text_bytes msgs prompt) in *. set (T := text_bytes msgs prompt) in *.
  set (X := sumZ (message_tokens <$> msgs) + text_cost prompt) in *.
  assert (0 ≤ T) as HT by (unfold T, text_bytes; lia).
  assert (0 ≤ rest_tokens body T < 2 ^ 63) as Hrest
    by (unfold rest_tokens; case_match; [bprop; Z.to_euclidean_division_equations; lia|lia]).
  assert (Hin : add_capped (if (0 <? body) && (T <? wrapU64 body) then add_capped (Z.min MaxCost X) (wrapU64 (wrapU64 body - T + charsPerToken - 1) / charsPerToken) else Z.min MaxCost X) replyPriming
    = Z.min MaxCost (input_tokens msgs prompt body)).
  { unfold input_tokens. fold T X. unfold charsPerToken, replyPriming in *. unfold rest_tokens in *.
    destruct (Z.ltb_spec 0 body); simpl in *.
    - rewrite !(wrapU64_id body) by lia. destruct (Z.ltb_spec T body).
      + rewrite wrapU64_id by lia. replace (body - T + 3 - 1) with (body - T + 2) by lia. rewrite !add_capped_min by lia. done.
      + rewrite add_capped_min by lia. f_equal. lia.
    - rewrite add_capped_min by lia. f_equal. lia. }
  rewrite Hin. clear Hin Hfold. set (I := input_tokens msgs prompt body).
  assert (3 ≤ I) by (unfold I, input_tokens, replyPriming; fold T X; lia).
  unfold output_tokens. set (o := if maxTokens <=? 0 then limit else maxTokens).
  assert (- 2 ^ 63 ≤ o ≤ 2 ^ 63 - 1) as Ho by (unfold o; case_match; lia). clearbody o I. clear - H Ho. unfold MaxCost in *.
  rewrite (wrapU64_id (2 ^ 32 - _)) by lia. set (o' := if 0 <? o then wrapU64 o else 0).
  assert (o' = Z.max 0 o) as -> by (unfold o'; destruct (Z.ltb_spec 0 o); rewrite ?wrapU64_id by lia; lia).
  set (o2 := if _ <? Z.max 0 o then _ else _).
  assert (o2 = Z.min (2 ^ 32) (I + Z.max 0 o) - Z.min (2 ^ 32) I) as -> by (unfold o2; case_match; lia).
  rewrite wrapU64_id by lia. destruct (Z.ltb_spec (Z.min (2 ^ 32) I + (Z.min (2 ^ 32) (I + Z.max 0 o) - Z.min (2 ^ 32) I)) 1); [lia|].
  split; [done|]. split; [|lia]. rewrite wrap64_id by (unfold in64, int64_min, int64_max; lia). lia.
Qed.

(** The estimate is exact up to its cap.  For any request that fits in memory the input and
    output parts add up to the smaller of [MaxCost] and the exact cost (framing, text at three
    ASCII bytes or one other character per token, the rest of the body at three bytes per token,
    the output budget); the input part alone is capped the same way; nothing overflows and the
    total is at least 1. *)
Theorem estimate_exact msgs prompt body maxTokens limit :
  sizes_ok msgs prompt → in64 body → in64 maxTokens → in64 limit →
  let I := input_tokens msgs prompt body in let O := output_tokens maxTokens limit in
  Estimate msgs prompt body maxTokens limit = (Z.min MaxCost I, Z.min MaxCost (I + O) - Z.min MaxCost I) ∧
  EstimateRequestCost msgs prompt body maxTokens limit = Z.min MaxCost (I + O) ∧ 1 ≤ Z.min MaxCost (I + O) ≤ MaxCost.
Proof. apply Estimate_min. Qed.

(** ** More text never costs less. *)

Lemma decode_rune_app l r l' t : decode_rune l = Some (r, l') → decode_rune (l ++ t) = Some (r, l' ++ t).
Proof.
  unfold decode_rune. destruct l as [|c0 l0]; [done|]. simpl. intros Hd.
  repeat (case_match; simplify_eq/=; try done).
Qed.

Lemma tally_app fuel l t :
  (length l ≤ fuel)%nat → is_Some (decode_go fuel l) →
  tally (fuel + length t) (l ++ t) = ((tally fuel l).1 + (tally (length t) t).1, (tally fuel l).2 + (tally (length t) t).2).
Proof.
  revert l. induction fuel as [|fuel IH]; intros l Hl Hv.
  - destruct l; [|simpl in Hl; lia]. simpl. by destruct (tally (length t) t).
  - destruct l as [|c l0].
    + change ([] ++ t) with t. rewrite (tally_fuel _ (length t)) by lia. simpl. by destruct (tally (length t) t).
    + cbn [decode_go] in Hv. destruct (decode_rune (c :: l0)) as [[r l']|] eqn:Hd; [|by destruct Hv].
      pose proof (decode_rune_shrinks _ _ _ Hd) as Hs. simpl in Hs, Hl.
      assert (is_Some (decode_go fuel l')) as Hv' by (destruct (decode_go fuel l'); [by eexists|by destruct Hv]).
      cbn [app Nat.add tally]. rewrite Hd. change (c :: l0 ++ t) with ((c :: l0) ++ t). rewrite (decode_rune_app _ _ _ t Hd).
      destruct (c <? 128) eqn:Hc.
      * assert (l' = l0) as -> by (unfold decode_rune in Hd; rewrite Hc in Hd; congruence).
        rewrite IH by (done || lia). destruct (tally fuel l0), (tally (length t) t). simpl. f_equal; lia.
      * rewrite IH by (done || lia). destruct (tally fuel l'), (tally (length t) t). simpl. f_equal; lia.
Qed.

(** [s'] is the valid text [s] with something after it. *)
Definition extends (s s' : string) : Prop := ValidString s = true ∧ ∃ t, s' = s +:+ t.

Lemma text_cost_mono s s' : extends s s' → text_cost s ≤ text_cost s'.
Proof.
  intros (Hv & t & ->). unfold text_cost. change (s +:+ t) with (s ++ t)%string. rewrite bytes_app, length_app, tally_app.
  - pose proof (tally_bounds (length (bytes t)) (bytes t)) as Ht. destruct (tally (length (bytes t)) (bytes t)) as [a' w'].
    destruct (tally (length (bytes s)) (bytes s)) as [a w]. simpl. Z.to_euclidean_division_equations; lia.
  - done.
  - unfold ValidString, runes in Hv. destruct (decode_go _ _); [by eexists|done].
Qed.

Definition message_extends (m m' : Message) : Prop := extends (Role m) (Role m') ∧ extends (Content m) (Content m').

(** The conversation goes on: each message may grow, and messages may follow. *)
Definition conversation_extends (msgs msgs' : list Message) : Prop :=
  ∃ msgs1 msgs2, msgs' = msgs1 ++ msgs2 ∧ Forall2 message_extends msgs msgs1.

Lemma text_cost_nonneg s : 0 ≤ text_cost s.
Proof.
  unfold text_cost. pose proof (tally_bounds (length (bytes s)) (bytes s)) as Ht. destruct (tally _ _) as [a w].
  assert (0 ≤ (a + 2) / 3) by (apply Z.div_pos; lia). lia.
Qed.

Lemma messages_mono msgs msgs' : conversation_extends msgs msgs' → sumZ (message_tokens <$> msgs) ≤ sumZ (message_tokens <$> msgs').
Proof.
  intros (msgs1 & msgs2 & -> & Hf). rewrite fmap_app, sumZ_app.
  assert (0 ≤ sumZ (message_tokens <$> msgs2)) as Hn.
  { apply sumZ_nonneg, Forall_fmap, Forall_true. intros m. simpl. unfold message_tokens, perMessageOverhead.
    pose proof (text_cost_nonneg (Role m)). pose proof (text_cost_nonneg (Content m)). lia. }
  assert (sumZ (message_tokens <$> msgs) ≤ sumZ (message_tokens <$> msgs1)); [|lia]. clear Hn.
  induction Hf as [|m m' msgs msgs1 [Hr Hc] _ IH]; [done|]. csimpl. apply text_cost_mono in Hr, Hc. unfold message_tokens at 1 3. lia.
Qed.

(** The estimate is monotone.  A conversation that goes on, with a longer prompt and an output
    limit that is set and not lower, never has a lower estimate. *)
Theorem estimate_monotone msgs msgs' prompt prompt' maxTokens maxTokens' limit :
  sizes_ok msgs prompt → sizes_ok msgs' prompt' → in64 maxTokens → in64 maxTokens' → in64 limit →
  conversation_extends msgs msgs' → extends prompt prompt' → maxTokens = maxTokens' ∨ 0 < maxTokens ≤ maxTokens' →
  EstimateCost msgs prompt maxTokens limit ≤ EstimateCost msgs' prompt' maxTokens' limit.
Proof.
  intros Hs Hs' Hm Hm' Hl Hc Hp Hmax. unfold EstimateCost.
  assert (in64 0) as H0 by (unfold in64, int64_min, int64_max; lia).
  destruct (Estimate_min msgs prompt 0 maxTokens limit Hs H0 Hm Hl) as (_ & -> & _).
  destruct (Estimate_min msgs' prompt' 0 maxTokens' limit Hs' H0 Hm' Hl) as (_ & -> & _).
  apply messages_mono in Hc. apply text_cost_mono in Hp.
  assert (output_tokens maxTokens limit ≤ output_tokens maxTokens' limit).
  { unfold output_tokens. destruct Hmax as [->|Hmax]; [done|]. destruct (Z.leb_spec maxTokens 0), (Z.leb_spec maxTokens' 0); lia. }
  unfold input_tokens. change (rest_tokens 0 ?x) with 0. unfold MaxCost in *. lia.
Qed.

(** ** The work of a request. *)

Lemma float_to_int_f64 `{GoPlatform} z : 0 ≤ z < 2 ^ 53 → float_to_int (f64 z) = z.
Proof.
  intros Hz. unfold float_to_int. rewrite ftrunc_f64 by done. unfold int64_min, int64_max.
  by destruct (Z.leb_spec (- 2 ^ 63) z), (Z.leb_spec z (2 ^ 63 - 1)); [|lia..].
Qed.

Definition weight_of (a : Z) : Z := if a <? 0 then 1 else Z.min a 10000.

Lemma sane_exact a : exact a → sane (f64 a) (f64 1) = f64 (weight_of a).
Proof.
  intros Ha. unfold sane, weight_of. destruct (f64_finite a Ha) as [-> ->]. change f0 with (f64 0).
  rewrite flt_exact by (unfold exact in *; lia). simpl. destruct (Z.ltb_spec a 0); [done|]. apply fmin_exact; unfold exact in *; lia.
Qed.

(** The work of a request is exact for integer weights.  For estimates up to [MaxCost] and
    weights that are integers it is the weighted sum, with negative weights counted as 1 and
    weights above 10,000 as 10,000, and at least 1 for a request with any estimate; with the
    default weights it is the estimate itself. *)
Theorem work_exact `{GoPlatform} i o a b :
  0 ≤ i ≤ MaxCost → 0 ≤ o ≤ MaxCost → exact a → exact b →
  Work i o (mkWeights (f64 a) (f64 b)) = Z.max (if (0 <? i) || (0 <? o) then 1 else 0) (weight_of a * i + weight_of b * o) ∧
  Work i o DefaultWeights = i + o.
Proof.
  intros Hi Ho Ha Hb.
  assert (Hgen : ∀ a b, exact a → exact b →
    Work i o (mkWeights (f64 a) (f64 b)) = Z.max (if (0 <? i) || (0 <? o) then 1 else 0) (weight_of a * i + weight_of b * o)).
  { clear a b Ha Hb. intros a b Ha Hb. unfold Work. cbn [InputWeight OutputFraction]. rewrite !sane_exact by done. rewrite !Z.max_l by lia.
    assert (0 ≤ weight_of a ≤ 10000) as Hwa by (unfold weight_of; case_match; lia).
    assert (0 ≤ weight_of b ≤ 10000) as Hwb by (unfold weight_of; case_match; lia). unfold MaxCost in *.
    assert (0 ≤ weight_of a * i ≤ 10000 * 2 ^ 32) by nia. assert (0 ≤ weight_of b * o ≤ 10000 * 2 ^ 32) by nia.
    rewrite !fmul_exact, !fceil_f64, !float_to_int_f64 by lia.
    rewrite wrap64_id by (unfold in64, int64_min, int64_max; lia).
    destruct (Z.ltb_spec (weight_of a * i + weight_of b * o) 1), (0 <? i), (0 <? o); simpl; lia. }
  split; [by apply Hgen|]. unfold DefaultWeights. rewrite Hgen by (unfold exact; lia). unfold weight_of. simpl.
  destruct (Z.ltb_spec 0 i), (Z.ltb_spec 0 o); simpl; lia.
Qed.

(** ** The work of a request with any weights. *)

Lemma fceil_small m e : -1074 ≤ e ≤ -1 → Z.pos m < 2 ^ 53 → ∃ z, 0 ≤ z < 2 ^ 53 ∧ fceil (S754_finite false m e) = f64 z.
Proof.
  intros He Hm. destruct e as [|e|e]; [lia|lia|]. unfold fceil, smant. set (q := - (- Z.pos m / 2 ^ Z.pos e)).
  assert (0 < 2 ^ Z.pos e) by (apply Z.pow_pos_nonneg; lia).
  assert (0 ≤ q < 2 ^ 53) as Hq.
  { unfold q. assert (2 ^ 1 ≤ 2 ^ Z.pos e) by (apply Z.pow_le_mono_r; lia). Z.to_euclidean_division_equations; nia. }
  exists q. split; [done|]. by destruct (Z.eqb_spec q 0) as [->|].
Qed.

Lemma mul_small m e z :
  canonical (Z.pos m) e → e ≤ -39 → 0 < z ≤ MaxCost → ∃ w, 0 ≤ w < 2 ^ 53 ∧ fceil (fmul (S754_finite false m e) (f64 z)) = f64 w.
Proof.
  intros (He & Hm & _) He' Hz. unfold MaxCost in *.
  destruct (f64_shape z) as (s & m' & e' & -> & -> & Hee & _ & Hlog & Hm'); [unfold exact; lia|lia|].
  destruct (Z.ltb_spec z 0); [lia|]. rewrite Z.abs_eq in Hlog by lia.
  assert (Z.log2 z ≤ 32) by (change 32 with (Z.log2 (2 ^ 32)); apply Z.log2_le_mono; lia).
  unfold fmul, SFmul. simpl xorb. rewrite Pos2Z.inj_mul.
  assert (Hd : 53 ≤ Zdigits2 (Z.pos m * Z.pos m') ≤ 106).
  { rewrite Zdigits2_log2 by lia. assert (52 ≤ Z.log2 (Z.pos m * Z.pos m')) by (apply Z.log2_le_pow2; nia).
    assert (Z.log2 (Z.pos m * Z.pos m') < 106) by (apply Z.log2_lt_pow2; nia). lia. }
  destruct (round_aux_shape false (Z.pos m * Z.pos m') (e + e') loc_Exact) as (Hq & _ & R & HR & ->); [lia|lia|].
  set (e1 := Z.max (Zdigits2 (Z.pos m * Z.pos m') + (e + e') - 53) (-1074)) in *. assert (-1074 ≤ e1 ≤ -6) by (unfold e1; lia).
  unfold finish. destruct (Z.eqb_spec R 0); [by exists 0|]. destruct (Z.eqb_spec R (2 ^ 53)).
  - destruct (Z.leb_spec (e1 + 1) 971); [|lia]. apply fceil_small; lia.
  - destruct (Z.leb_spec e1 971); [|lia]. apply fceil_small; [lia|]. rewrite Z2Pos.id by (destruct HR; lia). destruct HR; lia.
Qed.

(** A weight that was made sane is zero or below 10,001. *)
Lemma sane_range w : valid w → (∃ s, sane w (f64 1) = S754_zero s) ∨ ∃ m e, sane w (f64 1) = S754_finite false m e ∧ canonical (Z.pos m) e ∧ e ≤ -39.
Proof.
  intros Hv. unfold sane. destruct (isNaN w || isInf w || flt w f0) eqn:Hs.
  { right. exists 4503599627370496%positive, (-52). split; [done|]. unfold canonical. lia. }
  apply orb_false_iff in Hs as [[Hn Hi]%orb_false_iff Hf]. change maxWeight with (S754_finite false 5497558138880000 (-39)).
  assert (canonical (Z.pos 5497558138880000) (-39)) as Hmax by (unfold canonical; lia).
  destruct w as [s|s| |[] m e]; try done; [left; destruct s; by eexists|right]. simpl.
  destruct (flt (S754_finite false m e) (S754_finite false 5497558138880000 (-39))) eqn:Hlt; [|by do 2 eexists].
  exists m, e. split_and!; [done|done|]. apply flt_key in Hlt; [|done..]. unfold key_lt3 in Hlt. simpl in Hlt. lia.
Qed.

Lemma float_to_int_zero `{GoPlatform} s : float_to_int (S754_zero s) = 0.
Proof. done. Qed.

Lemma work_part `{GoPlatform} w z :
  valid w → 0 ≤ z ≤ MaxCost → 0 ≤ float_to_int (fceil (fmul (sane w (f64 1)) (f64 z))) < 2 ^ 53.
Proof.
  intros Hv Hz. destruct (decide (z = 0)) as [->|Hnz].
  { destruct (sane_range w Hv) as [[s ->]|(m & e & -> & _)]; simpl; rewrite float_to_int_zero; lia. }
  destruct (sane_range w Hv) as [[s ->]|(m & e & -> & Hc & He)].
  - unfold MaxCost in Hz. destruct (f64_shape z) as (s' & m' & e' & -> & _); [unfold exact; lia|done|].
    simpl. rewrite float_to_int_zero. lia.
  - destruct (mul_small m e z Hc He) as (q & Hq & ->); [lia|]. by rewrite float_to_int_f64.
Qed.

(** With any weights the work of an estimate within bounds is not negative and does not overflow. *)
Lemma Work_range `{GoPlatform} i o w :
  i ≤ MaxCost → o ≤ MaxCost → valid (InputWeight w) → valid (OutputFraction w) →
  0 ≤ Work i o w < 2 ^ 54 ∧ (0 < i ∨ 0 < o → 1 ≤ Work i o w).
Proof.
  intros Hi Ho Hv1 Hv2. unfold Work.
  pose proof (work_part (InputWeight w) (Z.max i 0) Hv1 ltac:(unfold MaxCost in *; lia)) as H1.
  pose proof (work_part (OutputFraction w) (Z.max o 0) Hv2 ltac:(unfold MaxCost in *; lia)) as H2.
  set (a := float_to_int _) in H1. set (b := float_to_int _) in H2. fold a b. clearbody a b. rewrite wrap64_id by (unfold in64, int64_min, int64_max; lia).
  destruct (Z.ltb_spec (a + b) 1), (Z.ltb_spec 0 i), (Z.ltb_spec 0 o); simpl; lia.
Qed.

(** ** Instances. *)

Definition ex_msgs : list Message := [mkMessage "user" "Hello"].
Definition ex_msgs' : list Message := [mkMessage "user" "Hello, world"; mkMessage "assistant" "Hi"].

Lemma small_in64 z : bool_decide (- 2 ^ 63 ≤ z ≤ 2 ^ 63 - 1) = true → in64 z.
Proof. by intros ?%bool_decide_eq_true. Qed.

Lemma estimate_exact_witness :
  EstimateRequestCost ex_msgs "" 60 100 4096 = 128 ∧ EstimateRequestCost ex_msgs "" 60 100 4096 = Z.min MaxCost (28 + 100).
Proof.
  assert (sizes_ok ex_msgs "") as Hs by (split; vm_compute; reflexivity).
  destruct (estimate_exact ex_msgs "" 60 100 4096 Hs) as (_ & He & _); [apply small_in64; vm_compute; reflexivity..|].
  split; [vm_compute; reflexivity|]. rewrite He. vm_compute. reflexivity.
Defined.

Lemma estimate_monotone_witness : EstimateCost ex_msgs "" 100 4096 ≤ EstimateCost ex_msgs' "" 100 4096.
Proof.
  apply (estimate_monotone ex_msgs ex_msgs' "" "" 100 100 4096);
    [split; vm_compute; reflexivity|split; vm_compute; reflexivity|apply small_in64; vm_compute; reflexivity..| | |by left].
  - exists [mkMessage "user" "Hello, world"], [mkMessage "assistant" "Hi"]. split; [done|]. constructor; [|constructor].
    split; (split; [vm_compute; reflexivity|]); [by exists ""|by exists ", world"].
  - split; [vm_compute; reflexivity|by exists ""].
Defined.

Lemma work_exact_witness : @Work amd64 100 50 (mkWeights (f64 2) (f64 (-3))) = 250 ∧ @Work amd64 100 50 DefaultWeights = 150.
Proof.
  destruct (@work_exact amd64 100 50 2 (-3)) as [-> ->]; [unfold MaxCost; lia..|unfold exact; lia|unfold exact; lia|].
  split; vm_compute; reflexivity.
Defined.
