(* ===== verification/RateLimit.v ===== *)
(** * The rate limiter's algorithm (internal/ratelimit/model.go, keys.go, limiter.go)

    Per-tenant request, token and concurrency quotas and a per-model request cap: token buckets
    in integer arithmetic (scaled units of 1/60,000 token) and expiring leases.  [Model] is the
    source's clock-free reference implementation; the Lua script that runs in production is in
    RateScript.v.  Integers are Go's int64. *)

From Stdlib Require Import Ascii String.
From S2P Require Import Prelude GoString.

Local Open Scope string_scope.
Local Open Scope list_scope.
Local Open Scope Z_scope.

(** ** Redis keys (keys.go). *)

Definition hex_digit (n : Z) : Z := if n <? 10 then 48 + n else 55 + n.

(** The bytes escapeKeyPart percent-encodes. *)
Definition must_escape (c : Z) : bool := (c <? 33) || (126 <? c) || (c =? 123) || (c =? 125) || (c =? 37).

Definition escape_byte (c : Z) : list Z :=
  if must_escape c then [37; hex_digit (c / 16); hex_digit (c mod 16)] else [c].

Definition escapeKeyPart (s : string) : string := of_bytes (mjoin (escape_byte <$> bytes s)).

Definition maxKeyPart : Z := 256.
Definition validKeyPart (s : string) : bool := slen s <=? maxKeyPart.

Definition keyModelUnused : string := "rl:model:{}".
Definition keyRequests (tenant : string) : string := ("rl:{" ++ escapeKeyPart tenant ++ "}:req")%string.
Definition keyTokens (tenant : string) : string := ("rl:{" ++ escapeKeyPart tenant ++ "}:tok")%string.
Definition keyConcurrency (tenant : string) : string := ("rl:{" ++ escapeKeyPart tenant ++ "}:conc")%string.
Definition keyModel (model : string) : string := ("rl:model:{" ++ escapeKeyPart model ++ "}")%string.

(** ** Quotas and answers (limiter.go). *)

Definition Limit : Type := string.
Definition LimitRequests : Limit := "requests".
Definition LimitTokens : Limit := "tokens".
Definition LimitConcurrency : Limit := "concurrency".
Definition LimitModel : Limit := "model".
Definition LimitUnavailable : Limit := "unavailable".

Record Limits := mkLimits { RequestsPerMinute : Z; TokensPerMinute : Z; MaxConcurrent : Z }.

Definition Limits_None (l : Limits) : bool :=
  (RequestsPerMinute l <=? 0) && (TokensPerMinute l <=? 0) && (MaxConcurrent l <=? 0).

Definition MaxQuota : Z := 1000000000.
Definition MaxBurstSeconds : Z := 3600.

(** ** The reference model (model.go). *)

Definition scale : Z := 60000.
Definition concurrencyRetryMs : Z := 1000.

Record Params := mkParams { BurstSeconds : Z; LeaseTTLMs : Z }.

Record Outcome := mkOutcome { o_Allowed : bool; o_Limit : Limit; o_RetryMs : Z }.

Record ModelRequest := mkModelRequest {
  rq_TenantID : string; rq_Model : string; rq_Cost : Z; rq_Limits : Limits; rq_ModelRequestsPerMinute : Z; rq_LeaseID : string
}.

Record bucket := mkBucket { bk_level : Z; bk_at : Z; bk_set : bool }.

Record RateModel := mkRateModel {
  m_p : Params; m_buckets : gmap string bucket; m_leases : gmap string (gmap string Z)
}.

#[global] Instance RateModel_settable : Settable RateModel :=
  {| eta_of := λ m, mkRateModel (m_p m) (m_buckets m) (m_leases m) |}.

Definition NewModel (p : Params) : RateModel := mkRateModel p ∅ ∅.

Definition capacity (m : RateModel) (quota : Z) : Z := (quota *! BurstSeconds (m_p m) *! 1000)%go.

(** Level after refilling, and capacity. *)
Definition peek (m : RateModel) (key : string) (now quota : Z) : Z * Z :=
  let cap := capacity m quota in
  match m_buckets m !! key with
  | None => (cap, cap)
  | Some b =>
      if negb (bk_set b) then (cap, cap)
      else
        let elapsed := (now -! bk_at b)%go in
        let elapsed := if elapsed <? 0 then 0 else elapsed in
        let window := (BurstSeconds (m_p m) *! 1000)%go in
        let elapsed := if window <? elapsed then window else elapsed in
        let level := (bk_level b +! elapsed *! quota)%go in
        (if cap <? level then cap else level, cap)
  end.

Definition need (cost cap : Z) : Z := Z.min (cost *! scale)%go cap.

Definition ceilDiv (a b : Z) : Z := Z.quot (a +! b -! 1)%go b.

(** One bucket check of [Allow]. *)
Record check := mkCheck { c_limit : Limit; c_key : string; c_quota : Z; c_level : Z; c_need : Z }.

Definition add_check (m : RateModel) (now : Z) (l : Limit) (key : string) (quota cost : Z) (checks : list check) : list check :=
  if quota <=? 0 then checks
  else
    let '(level, cap) := peek m key now quota in
    checks ++ [mkCheck l key quota level (need cost cap)].

Definition short (c : check) : bool := c_level c <? c_need c.
Definition shortage_wait (c : check) : Z := ceilDiv (c_need c -! c_level c)%go (c_quota c).

(** [consider]: the longest wait wins, the first of equal ones. *)
Definition consider (worst : Outcome) (l : Limit) (wait : Z) : Outcome :=
  if o_RetryMs worst <? wait then mkOutcome false l wait else worst.

Definition Outcome0 : Outcome := mkOutcome false "" 0.

Definition model_checks (m : RateModel) (now : Z) (r : ModelRequest) : list check :=
  let checks := add_check m now LimitRequests (keyRequests (rq_TenantID r)) (RequestsPerMinute (rq_Limits r)) 1 [] in
  let checks := add_check m now LimitTokens (keyTokens (rq_TenantID r)) (TokensPerMinute (rq_Limits r)) (rq_Cost r) checks in
  add_check m now LimitModel (keyModel (rq_Model r)) (rq_ModelRequestsPerMinute r) 1 checks.

(** The first loop of [Allow]: the shortages except the model's. *)
Definition consider_tenant (worst : Outcome) (c : check) : Outcome :=
  if short c then if String.eqb (c_limit c) LimitModel then worst else consider worst (c_limit c) (shortage_wait c) else worst.

(** The later loop: the model's. *)
Definition consider_model (worst : Outcome) (c : check) : Outcome :=
  if String.eqb (c_limit c) LimitModel && short c then consider worst (c_limit c) (shortage_wait c) else worst.

Definition charge (now : Z) (bs : gmap string bucket) (c : check) : gmap string bucket :=
  let at_ := match bs !! c_key c with Some b => if bk_set b && (now <? bk_at b) then bk_at b else now | None => now end in
  <[c_key c := mkBucket (c_level c -! c_need c)%go at_ true]> bs.

(** Expired leases are dropped from the tenant's set. *)
Definition drop_expired (now : Z) (held : gmap string Z) : gmap string Z := filter (λ ie : string * Z, now < ie.2) held.

Definition Model_Allow (m : RateModel) (nowMs : Z) (r : ModelRequest) : RateModel * Outcome :=
  let checks := model_checks m nowMs r in
  let worst := foldl consider_tenant Outcome0 checks in
  let concKey := keyConcurrency (rq_TenantID r) in
  let limited := 0 <? MaxConcurrent (rq_Limits r) in
  let m := if limited then m <| m_leases := alter (drop_expired nowMs) concKey (m_leases m) |> else m in
  let held := default ∅ (m_leases m !! concKey) in
  let worst :=
    if limited && (MaxConcurrent (rq_Limits r) <=? Z.of_nat (size held)) then consider worst LimitConcurrency concurrencyRetryMs
    else worst in
  let worst := foldl consider_model worst checks in
  if negb (String.eqb (o_Limit worst) "") then (m, worst)
  else
    let m := m <| m_buckets := foldl (charge nowMs) (m_buckets m) checks |> in
    let m :=
      if limited then m <| m_leases := <[concKey := <[rq_LeaseID r := (nowMs +! LeaseTTLMs (m_p m))%go]> held]> (m_leases m) |>
      else m in
    (m, mkOutcome true "" 0).

Definition Model_Release (m : RateModel) (tenantID leaseID : string) : RateModel * bool :=
  let k := keyConcurrency tenantID in
  let ok := bool_decide (is_Some (default ∅ (m_leases m !! k) !! leaseID)) in
  (m <| m_leases := alter (delete leaseID) k (m_leases m) |>, ok).

Definition Model_Renew (m : RateModel) (nowMs : Z) (tenantID leaseID : string) : RateModel * bool :=
  let k := keyConcurrency tenantID in
  match default ∅ (m_leases m !! k) !! leaseID with
  | None => (m, false)
  | Some exp =>
      if exp <=? nowMs then (m, false)
      else (m <| m_leases := alter (insert leaseID (nowMs +! LeaseTTLMs (m_p m))%go) k (m_leases m) |>, true)
  end.

Definition Model_Held (m : RateModel) (nowMs : Z) (tenantID : string) : Z :=
  Z.of_nat (size (drop_expired nowMs (default ∅ (m_leases m !! keyConcurrency tenantID)))).
