(* ===== verification/RateKeys.v ===== *)
(** * The keys of the rate limiter never collide

    Escaping a tenant or model name can be undone, leaves no brace behind, and so gives every
    name and every use of it a key of its own. *)

From Stdlib Require Import Ascii String.
From S2P Require Import Prelude GoString RateLimit.

Local Open Scope string_scope.
Local Open Scope list_scope.
Local Open Scope Z_scope.

(** ** Undoing the escape. *)

Definition unhex (c : Z) : Z := if c <? 58 then c - 48 else c - 55.

Fixpoint unescape (l : list Z) : list Z :=
  match l with
  | 37 :: h :: l' :: rest => unhex h * 16 + unhex l' :: unescape rest
  | c :: rest => c :: unescape rest
  | [] => []
  end.

Lemma unhex_digit n : 0 ≤ n < 16 → unhex (hex_digit n) = n.
Proof. intros Hn. unfold unhex, hex_digit. repeat case_match; lia. Qed.

Lemma unescape_byte c rest : byte c → unescape (escape_byte c ++ rest) = c :: unescape rest.
Proof.
  intros Hc. unfold escape_byte. destruct (must_escape c) eqn:He.
  - simpl. unfold byte in Hc. rewrite !unhex_digit by (Z.to_euclidean_division_equations; lia). f_equal.
    Z.to_euclidean_division_equations; lia.
  - simpl. unfold must_escape in He.
    destruct c as [|c|]; [done| |done]. destruct (decide (Z.pos c = 37)) as [Heq|Hne]; [rewrite Heq in He; done|].
    repeat (match goal with |- context [match ?x with _ => _ end] => destruct x end; try done; try lia).
Qed.

Lemma unescape_escape l : Forall byte l → unescape (mjoin (escape_byte <$> l)) = l.
Proof. induction 1 as [|c l Hc _ IH]; [done|]. csimpl. by rewrite unescape_byte, IH. Qed.

(** The escaped bytes are bytes, and none of them is a brace. *)
Lemma escape_clean l : Forall byte l → Forall (λ c, byte c ∧ c ≠ 123 ∧ c ≠ 125) (mjoin (escape_byte <$> l)).
Proof.
  induction 1 as [|c l Hc _ IH]; [constructor|]. csimpl. apply Forall_app. split; [|done].
  unfold escape_byte, byte in *. destruct (must_escape c) eqn:He.
  - assert (0 ≤ c / 16 < 16 ∧ 0 ≤ c mod 16 < 16) by (Z.to_euclidean_division_equations; lia).
    unfold hex_digit. repeat constructor; repeat case_match; lia.
  - unfold must_escape in He. repeat constructor; lia.
Qed.

Lemma bytes_escape s : bytes (escapeKeyPart s) = mjoin (escape_byte <$> bytes s).
Proof.
  unfold escapeKeyPart. apply bytes_of_bytes. eapply Forall_impl; [apply escape_clean, bytes_are_bytes|]. by intros c [? _].
Qed.

(** Escaping a key part loses nothing: decoding the escaped bytes gives back the name, so two
    names never share an escaped form. *)
Theorem escapeKeyPart_roundtrip s : of_bytes (unescape (bytes (escapeKeyPart s))) = s.
Proof. rewrite bytes_escape, unescape_escape by apply bytes_are_bytes. apply of_bytes_bytes. Qed.

Lemma escape_inj s t : mjoin (escape_byte <$> bytes s) = mjoin (escape_byte <$> bytes t) → s = t.
Proof.
  intros Heq. apply bytes_inj. rewrite <-(unescape_escape (bytes s)), Heq by apply bytes_are_bytes.
  apply unescape_escape, bytes_are_bytes.
Qed.

(** ** Keys. *)

Inductive rate_key := KRequests (t : string) | KTokens (t : string) | KConcurrency (t : string) | KModel (m : string).

#[global] Instance rate_key_eq_dec : EqDecision rate_key.
Proof. solve_decision. Defined.

Definition key_string (k : rate_key) : string :=
  match k with
  | KRequests t => keyRequests t
  | KTokens t => keyTokens t
  | KConcurrency t => keyConcurrency t
  | KModel m => keyModel m
  end.

(** A brace ends the escaped part, so what precedes it is determined. *)
Lemma brace_split l l' k k' :
  Forall (λ c, byte c ∧ c ≠ 123 ∧ c ≠ 125) l → Forall (λ c, byte c ∧ c ≠ 123 ∧ c ≠ 125) l' →
  l ++ 125 :: k = l' ++ 125 :: k' → l = l' ∧ k = k'.
Proof.
  revert l'. induction l as [|c l IH]; intros [|c' l'] Hl Hl' Heq; simplify_eq/=; [done| | |].
  - apply Forall_cons in Hl' as [[_ [_ ?]] _]. done.
  - apply Forall_cons in Hl as [[_ [_ ?]] _]. done.
  - apply Forall_cons in Hl as [_ Hl]. apply Forall_cons in Hl' as [_ Hl']. destruct (IH _ Hl Hl') as [-> ->]; done.
Qed.

Lemma key_bytes k :
  bytes (key_string k) =
  match k with
  | KRequests t => bytes "rl:{" ++ mjoin (escape_byte <$> bytes t) ++ 125 :: bytes ":req"
  | KTokens t => bytes "rl:{" ++ mjoin (escape_byte <$> bytes t) ++ 125 :: bytes ":tok"
  | KConcurrency t => bytes "rl:{" ++ mjoin (escape_byte <$> bytes t) ++ 125 :: bytes ":conc"
  | KModel m => bytes "rl:model:{" ++ mjoin (escape_byte <$> bytes m) ++ 125 :: []
  end.
Proof. destruct k; unfold key_string, keyRequests, keyTokens, keyConcurrency, keyModel; by rewrite !bytes_app, bytes_escape. Qed.

Lemma key_string_inj k k' : key_string k = key_string k' → k = k'.
Proof.
  intros Heq%(f_equal bytes). rewrite !key_bytes in Heq.
  destruct k as [t|t|t|t], k' as [t'|t'|t'|t']; try done; cbn [bytes fmap list_fmap String.list_ascii_of_string app] in Heq;
    simplify_eq; apply brace_split in Heq as [Heq Hk]; try apply escape_clean, bytes_are_bytes; try done;
    apply escape_inj in Heq; by subst.
Qed.

(** Distinct uses have distinct keys: the request, token and concurrency keys of all tenants
    and the keys of all models are pairwise different, and the placeholder sent for a model
    without a cap is the key of no use but the empty model name. *)
Theorem keys_never_collide k k' :
  (key_string k = key_string k' ↔ k = k') ∧ (key_string k = keyModelUnused ↔ k = KModel "").
Proof.
  split; [split; [apply key_string_inj|by intros ->]|].
  change keyModelUnused with (key_string (KModel "")). split; [apply key_string_inj|by intros ->].
Qed.
