(* ===== verification/RateSpec.v ===== *)
(** * What the rate limiter's algorithm guarantees

    Within the configured bounds no int64 operation overflows; a check charges every quota or
    none; over any run and any clock, steps back included, the tokens admitted through a bucket
    stay within its burst plus the refill of the elapsed time; the reported wait is exact; and a
    tenant never holds more leases than its limit. *)

From Stdlib Require Import Ascii String.
From S2P Require Import Prelude GoString Cost RateLimit RateKeys.

Local Open Scope string_scope.
Local Open Scope list_scope.
Local Open Scope Z_scope.

(** ** Bounds. *)

Definition max_time : Z := 2 ^ 51.

Definition params_bounded (p : Params) : Prop := 1 ≤ BurstSeconds p ≤ MaxBurstSeconds ∧ 0 < LeaseTTLMs p ≤ max_time.
Definition time_bounded (t : Z) : Prop := 0 ≤ t ≤ max_time.

Record request_bounded (r : ModelRequest) : Prop := {
  rb_requests : RequestsPerMinute (rq_Limits r) ≤ MaxQuota;
  rb_tokens : TokensPerMinute (rq_Limits r) ≤ MaxQuota;
  rb_model : rq_ModelRequestsPerMinute r ≤ MaxQuota;
  rb_cost : 0 ≤ rq_Cost r ≤ MaxCost
}.

(** The refill window in milliseconds, and a bucket's size. *)
Definition window (p : Params) : Z := BurstSeconds p * 1000.
Definition cap (p : Params) (quota : Z) : Z := quota * window p.

Record bucket_ok (p : Params) (b : bucket) : Prop := {
  bo_set : bk_set b = true;
  bo_level : 0 ≤ bk_level b ≤ cap p MaxQuota;
  bo_at : time_bounded (bk_at b)
}.

Definition model_ok (m : RateModel) : Prop := params_bounded (m_p m) ∧ map_Forall (λ _, bucket_ok (m_p m)) (m_buckets m).

Lemma window_bounds p : params_bounded p → 1000 ≤ window p ≤ 3600000.
Proof. unfold params_bounded, window, MaxBurstSeconds. lia. Qed.

Lemma cap_bounds p quota : params_bounded p → 0 < quota ≤ MaxQuota → 1000 * quota ≤ cap p quota ≤ 3600000 * quota.
Proof. intros Hp Hq. apply window_bounds in Hp. unfold cap, MaxQuota in *. nia. Qed.

(** ** The arithmetic without overflow. *)

Definition refill (p : Params) (b : bucket) (now quota : Z) : Z :=
  Z.min (cap p quota) (bk_level b + Z.min (window p) (Z.max 0 (now - bk_at b)) * quota).

Definition level_at (m : RateModel) (key : string) (now quota : Z) : Z :=
  match m_buckets m !! key with Some b => refill (m_p m) b now quota | None => cap (m_p m) quota end.

Definition need_of (p : Params) (cost quota : Z) : Z := Z.min (cost * scale) (cap p quota).

Lemma wrap64_small z : - 2 ^ 60 ≤ z ≤ 2 ^ 60 → wrap64 z = z.
Proof. intros Hz. apply wrap64_id. unfold in64, int64_min, int64_max. lia. Qed.

(** Removes the wrap-around of in-range operations, innermost first. *)
Ltac unwrap64 :=
  repeat match goal with
  | |- context [wrap64 ?z] => lazymatch z with context [wrap64 _] => fail | _ => rewrite (wrap64_small z) by nia end
  end.

Lemma refill_bounds p b now quota :
  params_bounded p → bucket_ok p b → 0 < quota ≤ MaxQuota → 0 ≤ refill p b now quota ≤ cap p quota.
Proof.
  intros Hp [_ Hl _] Hq. pose proof (cap_bounds p quota Hp Hq). apply window_bounds in Hp. unfold refill.
  assert (0 ≤ Z.min (window p) (Z.max 0 (now - bk_at b)) * quota) by (apply Z.mul_nonneg_nonneg; lia). lia.
Qed.

Lemma level_bounds m key now quota :
  model_ok m → 0 < quota ≤ MaxQuota → 0 ≤ level_at m key now quota ≤ cap (m_p m) quota.
Proof.
  intros [Hp Hb] Hq. unfold level_at. destruct (m_buckets m !! key) as [b|] eqn:Hk; [|pose proof (cap_bounds _ _ Hp Hq); lia].
  apply refill_bounds; [done|by eapply Hb|done].
Qed.

Lemma capacity_exact m quota : params_bounded (m_p m) → 0 < quota ≤ MaxQuota → capacity m quota = cap (m_p m) quota.
Proof.
  intros Hp Hq. unfold capacity, cap, window, params_bounded, MaxQuota, MaxBurstSeconds in *. unwrap64. lia.
Qed.

Lemma peek_exact m key now quota :
  model_ok m → 0 < quota ≤ MaxQuota → time_bounded now →
  peek m key now quota = (level_at m key now quota, cap (m_p m) quota).
Proof.
  intros [Hp Hb] Hq Ht. unfold peek, level_at. rewrite capacity_exact by done.
  destruct (m_buckets m !! key) as [b|] eqn:Hk; [|done]. destruct (Hb _ _ Hk) as [Hset Hl Hat]. rewrite Hset. simpl.
  pose proof (cap_bounds _ _ Hp Hq) as Hc. pose proof (window_bounds _ Hp) as Hw. unfold time_bounded, max_time in *.
  assert (cap (m_p m) MaxQuota ≤ 3600000 * MaxQuota) by (unfold cap, MaxQuota; nia). unfold MaxQuota in *.
  f_equal. unfold refill. fold (cap (m_p m) quota). change (BurstSeconds (m_p m) * 1000) with (window (m_p m)).
  rewrite (wrap64_small (now - _)), (wrap64_small (window _)) by lia.
  set (e := if window (m_p m) <? _ then _ else _).
  assert (e = Z.min (window (m_p m)) (Z.max 0 (now - bk_at b))) as -> by (unfold e; repeat case_match; lia).
  assert (0 ≤ Z.min (window (m_p m)) (Z.max 0 (now - bk_at b)) * quota ≤ 3600000 * 1000000000) by nia.
  unwrap64. case_match; lia.
Qed.

Lemma need_exact p cost quota :
  params_bounded p → 0 ≤ cost ≤ MaxCost → need cost (cap p quota) = need_of p cost quota.
Proof. intros Hp Hc. unfold need, need_of, scale, MaxCost in *. by unwrap64. Qed.

Lemma need_bounds p cost quota :
  params_bounded p → 0 < quota ≤ MaxQuota → 0 ≤ cost → 0 ≤ need_of p cost quota ≤ cap p quota.
Proof. intros Hp Hq Hc. pose proof (cap_bounds _ _ Hp Hq). unfold need_of, scale. lia. Qed.

(** The wait for a shortage: the least number of milliseconds whose refill covers it. *)
Lemma ceilDiv_exact a b : 0 ≤ a ≤ 2 ^ 53 → 0 < b ≤ MaxQuota → ceilDiv a b = (a + b - 1) / b.
Proof. intros Ha Hb. unfold ceilDiv, MaxQuota in *. unwrap64. apply Z.quot_div_nonneg; lia. Qed.

Lemma ceil_covers a b w : 0 < b → (a + b - 1) / b ≤ w ↔ a ≤ w * b.
Proof. intros Hb. split; intros Hw; [|apply Z.lt_succ_r, Z.div_lt_upper_bound; nia]. Z.to_euclidean_division_equations; nia. Qed.

(** ** What a request uses. *)

Record use := mkUse { u_limit : Limit; u_key : rate_key; u_quota : Z; u_cost : Z }.

Definition all_uses (r : ModelRequest) : list use :=
  [mkUse LimitRequests (KRequests (rq_TenantID r)) (RequestsPerMinute (rq_Limits r)) 1;
   mkUse LimitTokens (KTokens (rq_TenantID r)) (TokensPerMinute (rq_Limits r)) (rq_Cost r);
   mkUse LimitModel (KModel (rq_Model r)) (rq_ModelRequestsPerMinute r) 1].

(** The buckets a request is checked against. *)
Definition uses (r : ModelRequest) : list use := filter (λ u, 0 < u_quota u) (all_uses r).

Definition check_of (m : RateModel) (now : Z) (u : use) : check :=
  mkCheck (u_limit u) (key_string (u_key u)) (u_quota u) (level_at m (key_string (u_key u)) now (u_quota u))
          (need_of (m_p m) (u_cost u) (u_quota u)).

Definition use_ok (u : use) : Prop := 0 < u_quota u ≤ MaxQuota ∧ 0 ≤ u_cost u ≤ MaxCost ∧ u_limit u ≠ "".

Lemma uses_ok r : request_bounded r → Forall use_ok (uses r).
Proof.
  intros [H1 H2 H3 H4]. apply Forall_forall. intros u [Hq Hu]%list_elem_of_filter.
  unfold use_ok, MaxCost in *.
  repeat (apply elem_of_cons in Hu as [->|Hu]; [simpl in *; split_and!; (lia || done)|]). by apply elem_of_nil in Hu.
Qed.

Lemma uses_NoDup r : NoDup (u_key <$> uses r).
Proof.
  apply filter_fmap_NoDup. unfold all_uses. simpl. repeat (apply NoDup_cons; split; [set_solver|]). apply NoDup_nil_2.
Qed.

Lemma add_check_exact m now l k quota cost us :
  model_ok m → time_bounded now → quota ≤ MaxQuota → 0 ≤ cost ≤ MaxCost →
  add_check m now l (key_string k) quota cost (check_of m now <$> us)
  = check_of m now <$> us ++ filter (λ u, 0 < u_quota u) [mkUse l k quota cost].
Proof.
  intros Hm Ht Hq Hc. unfold add_check. rewrite filter_cons, filter_nil. simpl. destruct (Z.leb_spec quota 0).
  - rewrite decide_False by lia. by rewrite app_nil_r.
  - rewrite decide_True by lia. rewrite peek_exact, need_exact by (done || apply Hm). by rewrite fmap_app.
Qed.

Lemma model_checks_exact m now r :
  model_ok m → time_bounded now → request_bounded r → model_checks m now r = check_of m now <$> uses r.
Proof.
  intros Hm Ht [H1 H2 H3 H4]. unfold model_checks.
  change [] with (check_of m now <$> []). change (keyRequests (rq_TenantID r)) with (key_string (KRequests (rq_TenantID r))).
  rewrite add_check_exact by (unfold MaxCost; done || lia).
  change (keyTokens (rq_TenantID r)) with (key_string (KTokens (rq_TenantID r))). rewrite add_check_exact by done.
  change (keyModel (rq_Model r)) with (key_string (KModel (rq_Model r))). rewrite add_check_exact by (unfold MaxCost; done || lia).
  f_equal. unfold uses, all_uses. rewrite !filter_cons, !filter_nil. simpl. by repeat case_decide.
Qed.

(** ** Who refuses, and for how long. *)

Definition lacks (m : RateModel) (now : Z) (u : use) : bool :=
  level_at m (key_string (u_key u)) now (u_quota u) <? need_of (m_p m) (u_cost u) (u_quota u).

Definition wait_of (m : RateModel) (now : Z) (u : use) : Z :=
  (need_of (m_p m) (u_cost u) (u_quota u) - level_at m (key_string (u_key u)) now (u_quota u) + u_quota u - 1) / u_quota u.

(** The refusals in the order [Allow] considers them. *)
Definition bucket_refusals (m : RateModel) (now : Z) (p : use → bool) (us : list use) : list (Limit * Z) :=
  (λ u, (u_limit u, wait_of m now u)) <$> filter (λ u, p u && lacks m now u = true) us.

Definition is_model_use (u : use) : bool := String.eqb (u_limit u) LimitModel.

Definition held_leases (m : RateModel) (now : Z) (tenant : string) : gmap string Z :=
  drop_expired now (default ∅ (m_leases m !! keyConcurrency tenant)).

Definition conc_full (m : RateModel) (now : Z) (r : ModelRequest) : bool :=
  (0 <? MaxConcurrent (rq_Limits r)) && (MaxConcurrent (rq_Limits r) <=? Z.of_nat (size (held_leases m now (rq_TenantID r)))).

Definition refusals (m : RateModel) (now : Z) (r : ModelRequest) : list (Limit * Z) :=
  bucket_refusals m now (λ u, negb (is_model_use u)) (uses r) ++
  (if conc_full m now r then [(LimitConcurrency, concurrencyRetryMs)] else []) ++
  bucket_refusals m now is_model_use (uses r).

Definition consider_all (o : Outcome) (l : list (Limit * Z)) : Outcome := foldl (λ o lw, consider o lw.1 lw.2) o l.

Lemma consider_all_app o l k : consider_all o (l ++ k) = consider_all (consider_all o l) k.
Proof. apply foldl_app. Qed.

Lemma shortage_exact m now u :
  model_ok m → use_ok u → lacks m now u = true → shortage_wait (check_of m now u) = wait_of m now u ∧ 0 < wait_of m now u.
Proof.
  intros Hm (Hq & Hc & _) Hl. unfold shortage_wait, wait_of. simpl. unfold lacks in Hl.
  pose proof (level_bounds m (key_string (u_key u)) now (u_quota u) Hm Hq) as Hlev.
  pose proof (need_bounds (m_p m) (u_cost u) (u_quota u) (proj1 Hm) Hq (proj1 Hc)) as Hn.
  pose proof (cap_bounds _ _ (proj1 Hm) Hq) as Hcap. unfold MaxQuota in *.
  rewrite wrap64_small by lia. rewrite ceilDiv_exact by (unfold MaxQuota; lia). split; [done|]. apply Z.div_str_pos. lia.
Qed.

Lemma consider_tenant_fold m now us o :
  model_ok m → Forall use_ok us →
  foldl consider_tenant o (check_of m now <$> us) = consider_all o (bucket_refusals m now (λ u, negb (is_model_use u)) us).
Proof.
  intros Hm Hus. revert o. induction Hus as [|u us Hu _ IH]; intros o; [done|]. csimpl. rewrite IH.
  unfold bucket_refusals. rewrite filter_cons. unfold consider_tenant, short. simpl. fold (lacks m now u). fold (is_model_use u).
  destruct (lacks m now u) eqn:Hl; [|by destruct (is_model_use u)]. destruct (is_model_use u); simpl; [done|].
  by rewrite (proj1 (shortage_exact m now u Hm Hu Hl)).
Qed.

Lemma consider_model_fold m now us o :
  model_ok m → Forall use_ok us →
  foldl consider_model o (check_of m now <$> us) = consider_all o (bucket_refusals m now is_model_use us).
Proof.
  intros Hm Hus. revert o. induction Hus as [|u us Hu _ IH]; intros o; [done|]. csimpl. rewrite IH.
  unfold bucket_refusals. rewrite filter_cons. unfold consider_model, short. simpl. fold (lacks m now u). fold (is_model_use u).
  destruct (lacks m now u) eqn:Hl; [|by destruct (is_model_use u)]. destruct (is_model_use u); simpl; [|done].
  by rewrite (proj1 (shortage_exact m now u Hm Hu Hl)).
Qed.

(** ** The whole of [Allow]. *)

(** The state after an admission. *)
Definition admission (m : RateModel) (now : Z) (r : ModelRequest) : RateModel :=
  mkRateModel (m_p m) (foldl (charge now) (m_buckets m) (check_of m now <$> uses r))
    (if 0 <? MaxConcurrent (rq_Limits r)
     then <[keyConcurrency (rq_TenantID r) := <[rq_LeaseID r := now + LeaseTTLMs (m_p m)]> (held_leases m now (rq_TenantID r))]> (m_leases m)
     else m_leases m).

(** The state after a refusal: only expired leases are gone. *)
Definition refuse (m : RateModel) (now : Z) (r : ModelRequest) : RateModel :=
  mkRateModel (m_p m) (m_buckets m)
    (if 0 <? MaxConcurrent (rq_Limits r) then alter (drop_expired now) (keyConcurrency (rq_TenantID r)) (m_leases m) else m_leases m).

Lemma Allow_exact m now r :
  model_ok m → time_bounded now → request_bounded r →
  Model_Allow m now r =
  let worst := consider_all Outcome0 (refusals m now r) in
  if String.eqb (o_Limit worst) "" then (admission m now r, mkOutcome true "" 0) else (refuse m now r, worst).
Proof.
  intros Hm Ht Hr. unfold Model_Allow. rewrite model_checks_exact by done. pose proof (uses_ok r Hr) as Hu.
  rewrite consider_tenant_fold by done. unfold refusals. rewrite !consider_all_app.
  set (w1 := consider_all Outcome0 _). unfold conc_full.
  assert (Hheld : default ∅ (alter (drop_expired now) (keyConcurrency (rq_TenantID r)) (m_leases m) !! keyConcurrency (rq_TenantID r))
    = held_leases m now (rq_TenantID r)).
  { rewrite lookup_alter_eq. unfold held_leases. destruct (m_leases m !! _); [done|]. simpl. unfold drop_expired. by rewrite map_filter_empty. }
  assert (Hw : wrap64 (now + LeaseTTLMs (m_p m)) = now + LeaseTTLMs (m_p m)).
  { destruct Hm as [[_ Hl] _]. unfold time_bounded, max_time in *. apply wrap64_small. lia. }
  destruct (0 <? MaxConcurrent (rq_Limits r)) eqn:Hlim; cbn [andb].
  - simpl m_leases. rewrite Hheld. set (w2 := if _ <=? _ then consider _ _ _ else w1).
    rewrite consider_model_fold by done.
    replace (consider_all w1 (if _ <=? _ then _ else _)) with w2 by (unfold w2; by destruct (_ <=? _)).
    cbv zeta. destruct (String.eqb _ ""); simpl; [|unfold refuse; by rewrite Hlim].
    unfold admission. rewrite Hlim, Hw, insert_alter_eq. by destruct m.
  - rewrite consider_model_fold by done. cbv zeta. destruct (String.eqb _ ""); simpl; [unfold admission|unfold refuse]; rewrite Hlim; by destruct m.
Qed.

(** ** The longest wait. *)

Definition longest (l : list (Limit * Z)) : Z := foldr (λ lw, Z.max lw.2) 0 l.

Definition refusal_ok (lw : Limit * Z) : Prop := lw.1 ≠ "" ∧ 0 < lw.2.

Lemma consider_all_spec o l :
  Forall refusal_ok l → 0 ≤ o_RetryMs o → (o_RetryMs o = 0 ↔ o_Limit o = "") → o_Allowed o = false →
  let o' := consider_all o l in
  o_RetryMs o' = Z.max (o_RetryMs o) (longest l) ∧ (o_RetryMs o' = 0 ↔ o_Limit o' = "") ∧ o_Allowed o' = false.
Proof.
  intros Hl. revert o. induction Hl as [|[x w] l [Hx Hw] _ IH]; intros o Ho Hz Ha; cbv zeta.
  - simpl. split_and!; [lia|done|done].
  - change (consider_all o ((x, w) :: l)) with (consider_all (if o_RetryMs o <? w then mkOutcome false x w else o) l).
    simpl in *. destruct (Z.ltb_spec (o_RetryMs o) w).
    + destruct (IH (mkOutcome false x w)) as (-> & IH2 & IH3); simpl; [lia|split; [lia|done]|done|].
      split_and!; [lia|done|done].
    + destruct (IH o) as (-> & IH2 & IH3); [done..|]. split_and!; [lia|done|done].
Qed.

Lemma longest_0 l : Forall refusal_ok l → longest l = 0 ↔ l = [].
Proof.
  intros Hl. split; [|by intros ->]. destruct Hl as [|lw l [_ Hw] _]; [done|]. simpl. lia.
Qed.

Lemma bucket_refusals_ok m now p us : model_ok m → Forall use_ok us → Forall refusal_ok (bucket_refusals m now p us).
Proof.
  intros Hm Hus. apply Forall_fmap, Forall_forall. intros u [[_ Hl]%andb_true_iff Hu]%list_elem_of_filter.
  rewrite Forall_forall in Hus. specialize (Hus _ Hu). split; [apply Hus|]. by apply shortage_exact.
Qed.

Lemma refusals_ok m now r : model_ok m → request_bounded r → Forall refusal_ok (refusals m now r).
Proof.
  intros Hm Hr. pose proof (uses_ok r Hr) as Hu. unfold refusals. rewrite !Forall_app.
  split_and!; [by apply bucket_refusals_ok| |by apply bucket_refusals_ok].
  destruct (conc_full m now r); repeat constructor; done.
Qed.

(** The answer of [Allow] in one equation. *)
Lemma Allow_answer m now r :
  model_ok m → time_bounded now → request_bounded r →
  let '(m', o) := Model_Allow m now r in
  o_RetryMs o = longest (refusals m now r) ∧
  (if o_Allowed o then refusals m now r = [] ∧ m' = admission m now r ∧ o_Limit o = ""
   else refusals m now r ≠ [] ∧ m' = refuse m now r ∧ o_Limit o ≠ "").
Proof.
  intros Hm Ht Hr. rewrite Allow_exact by done. cbv zeta. pose proof (refusals_ok m now r Hm Hr) as Hl.
  destruct (consider_all_spec Outcome0 _ Hl) as (Hmax & Hz & Ha); [done..|].
  assert (0 ≤ longest (refusals m now r)) as Hnn by (clear; induction (refusals m now r); simpl; lia).
  rewrite Z.max_r in Hmax by (simpl; lia). destruct (String.eqb_spec (o_Limit (consider_all Outcome0 (refusals m now r))) "") as [He|He].
  - apply Hz in He. rewrite Hmax in He. simpl. rewrite He. split; [done|]. by apply longest_0 in He.
  - rewrite Ha. split_and!; [done| |done|done]. intros Hnil. apply He, Hz. by rewrite Hmax, Hnil.
Qed.

(** ** Charging. *)

Definition stamp (m : RateModel) (key : string) (now : Z) : Z :=
  match m_buckets m !! key with Some b => Z.max now (bk_at b) | None => now end.

Definition charged (m : RateModel) (now : Z) (u : use) : bucket :=
  mkBucket (level_at m (key_string (u_key u)) now (u_quota u) - need_of (m_p m) (u_cost u) (u_quota u)) (stamp m (key_string (u_key u)) now) true.

Lemma charge_exact m now bs u :
  model_ok m → use_ok u → lacks m now u = false → bs !! key_string (u_key u) = m_buckets m !! key_string (u_key u) →
  charge now bs (check_of m now u) = <[key_string (u_key u) := charged m now u]> bs.
Proof.
  intros Hm (Hq & Hc & _) Hl Hbs. unfold charge, charged, stamp. cbn [c_key c_level c_need check_of]. rewrite Hbs. unfold lacks in Hl.
  pose proof (level_bounds m (key_string (u_key u)) now (u_quota u) Hm Hq) as Hlev.
  pose proof (need_bounds (m_p m) (u_cost u) (u_quota u) (proj1 Hm) Hq (proj1 Hc)) as Hn.
  pose proof (cap_bounds _ _ (proj1 Hm) Hq) as Hcap. unfold MaxQuota in *. rewrite wrap64_small by lia. do 2 f_equal.
  destruct (m_buckets m !! key_string (u_key u)) as [b|] eqn:Hb; [|done]. destruct (proj2 Hm _ _ Hb) as [-> _ _]. simpl.
  case_match; lia.
Qed.

(** The buckets after the charges of [us], given that none lacks. *)
Lemma charge_fold m now us bs k :
  model_ok m → Forall use_ok us → Forall (λ u, lacks m now u = false) us → NoDup (u_key <$> us) →
  (∀ u, u ∈ us → bs !! key_string (u_key u) = m_buckets m !! key_string (u_key u)) →
  foldl (charge now) bs (check_of m now <$> us) !! key_string k =
  match list_find (λ u, u_key u = k) us with Some (_, u) => Some (charged m now u) | None => bs !! key_string k end.
Proof.
  intros Hm Hus Hl. revert bs. induction us as [|u us IH]; intros bs Hnd Hbs; [done|]. csimpl.
  apply Forall_cons in Hus as [Hu Hus]. apply Forall_cons in Hl as [Hlu Hl]. csimpl in Hnd. apply NoDup_cons in Hnd as [Hni Hnd].
  rewrite charge_exact by (done || apply Hbs; set_solver). rewrite IH; [|done|done|done|].
  - destruct (decide (u_key u = k)) as [<-|Hne].
    + rewrite lookup_insert_eq. destruct (list_find _ us) as [[i v]|] eqn:Hf; [|done].
      apply list_find_Some in Hf as (Hv & Hk & _). destruct Hni. rewrite <-Hk. apply list_elem_of_fmap_2. by eapply list_elem_of_lookup_2.
    + rewrite lookup_insert_ne by (intros Heq; apply Hne; by apply key_string_inj).
      by destruct (list_find _ us) as [[i v]|].
  - intros v Hv. rewrite lookup_insert_ne; [apply Hbs; set_solver|]. intros Heq%key_string_inj. apply Hni. rewrite Heq.
    by apply list_elem_of_fmap_2.
Qed.

Lemma filter_nil_Forall (p : use → bool) us : filter (λ u, p u = true) us = [] ↔ Forall (λ u, p u = false) us.
Proof.
  induction us as [|u us IH]; [done|]. rewrite filter_cons, Forall_cons, <-IH. destruct (p u); naive_solver.
Qed.

Lemma fmap_nil' {A B} (f : A → B) l : f <$> l = [] ↔ l = [].
Proof. by destruct l. Qed.

Lemma refusals_nil m now r :
  refusals m now r = [] ↔ Forall (λ u, lacks m now u = false) (uses r) ∧ conc_full m now r = false.
Proof.
  unfold refusals, bucket_refusals. rewrite !app_nil, !fmap_nil', !filter_nil_Forall.
  split.
  - intros (H1 & H2 & H3). split; [|by destruct (conc_full m now r)]. rewrite !Forall_forall in *. intros u Hu.
    specialize (H1 u Hu). specialize (H3 u Hu). simpl in *. by destruct (is_model_use u), (lacks m now u).
  - intros [H1 ->]. rewrite !Forall_forall in *. split_and!; [|done|]; intros u Hu; rewrite (H1 u Hu); apply andb_false_r.
Qed.

Definition use_of (r : ModelRequest) (k : rate_key) : option use := snd <$> list_find (λ u, u_key u = k) (uses r).

Lemma use_of_Some r k u : use_of r k = Some u → u ∈ uses r ∧ u_key u = k.
Proof.
  unfold use_of. destruct (list_find _ _) as [[i v]|] eqn:Hf; [|done]. intros [= ->].
  apply list_find_Some in Hf as (Hv & Hk & _). split; [by eapply list_elem_of_lookup_2|done].
Qed.

Lemma admit_bucket m now r k :
  model_ok m → request_bounded r → refusals m now r = [] →
  m_buckets (admission m now r) !! key_string k = match use_of r k with Some u => Some (charged m now u) | None => m_buckets m !! key_string k end.
Proof.
  intros Hm Hr [Hl _]%refusals_nil. unfold admission. simpl.
  rewrite charge_fold; [|done|by apply uses_ok|done|apply uses_NoDup|done].
  unfold use_of. by destruct (list_find _ _) as [[i v]|].
Qed.

Lemma charged_ok m now u :
  model_ok m → time_bounded now → use_ok u → lacks m now u = false → bucket_ok (m_p m) (charged m now u).
Proof.
  intros Hm Ht (Hq & Hc & _) Hl. unfold lacks in Hl.
  pose proof (level_bounds m (key_string (u_key u)) now (u_quota u) Hm Hq) as Hlev.
  pose proof (need_bounds (m_p m) (u_cost u) (u_quota u) (proj1 Hm) Hq (proj1 Hc)) as Hn.
  split; [done| |].
  - simpl. pose proof (window_bounds _ (proj1 Hm)). unfold cap in *. nia.
  - unfold charged, stamp. simpl. destruct (m_buckets m !! _) as [b|] eqn:Hb; [|done].
    destruct (proj2 Hm _ _ Hb) as [_ _ Hat]. unfold time_bounded in *. lia.
Qed.

Lemma fold_keys m now us bs key :
  foldl (charge now) bs (check_of m now <$> us) !! key = bs !! key ∨ ∃ u, u ∈ us ∧ key = key_string (u_key u).
Proof.
  revert bs. induction us as [|u us IH]; intros bs; [by left|]. csimpl.
  destruct (IH (charge now bs (check_of m now u))) as [->|(v & Hv & ->)]; [|right; exists v; set_solver].
  destruct (decide (key_string (u_key u) = key)) as [<-|Hne]; [right; exists u; set_solver|left].
  unfold charge. simpl. by rewrite lookup_insert_ne.
Qed.

Lemma admit_ok m now r :
  model_ok m → time_bounded now → request_bounded r → refusals m now r = [] → model_ok (admission m now r).
Proof.
  intros Hm Ht Hr Hn. split; [apply Hm|]. intros key b Hb.
  destruct (fold_keys m now (uses r) (m_buckets m) key) as [Hold|(u & Hu & ->)].
  - simpl in Hb. rewrite Hold in Hb. by apply (proj2 Hm _ _ Hb).
  - rewrite (admit_bucket m now r) in Hb by done. apply refusals_nil in Hn as [Hl _]. rewrite Forall_forall in Hl.
    pose proof (uses_ok r Hr) as Huk. rewrite Forall_forall in Huk.
    destruct (use_of r (u_key u)) as [v|] eqn:Hv; [|by apply (proj2 Hm _ _ Hb)].
    apply use_of_Some in Hv as [Hv _]. simplify_eq. apply (charged_ok m); auto.
Qed.

Lemma Allow_ok m now r : model_ok m → time_bounded now → request_bounded r → model_ok (Model_Allow m now r).1.
Proof.
  intros Hm Ht Hr. pose proof (Allow_answer m now r Hm Ht Hr) as Ha. destruct (Model_Allow m now r) as [m' o]. simpl.
  destruct Ha as [_ Ha]. destruct (o_Allowed o); destruct Ha as (? & -> & _); [by apply admit_ok|done].
Qed.

Lemma held_refuse m now r tenant : held_leases (refuse m now r) now tenant = held_leases m now tenant.
Proof.
  unfold held_leases, refuse. simpl. destruct (0 <? _); [|done].
  destruct (decide (keyConcurrency (rq_TenantID r) = keyConcurrency tenant)) as [->|Hne]; [|by rewrite lookup_alter_ne].
  rewrite lookup_alter_eq. destruct (m_leases m !! keyConcurrency tenant) as [held|]; [|done]. simpl. unfold drop_expired.
  rewrite map_filter_filter. apply map_filter_ext. naive_solver.
Qed.

(** [Allow] charges every quota or none.  Within the bounds it admits a request exactly when
    every bucket of a positive quota, refilled to now, holds what the request needs and the
    tenant holds fewer live leases than its limit.  An admission takes exactly the need out of
    each of those buckets, leaves every other bucket as it was, and adds one lease; a refusal
    leaves all buckets and all live leases as they were.  Nothing overflows: every bucket stays
    within bounds. *)
Theorem allow_all_or_nothing m now r :
  model_ok m → time_bounded now → request_bounded r →
  let '(m', o) := Model_Allow m now r in
  model_ok m' ∧
  (o_Allowed o = true ↔ Forall (λ u, lacks m now u = false) (uses r) ∧ conc_full m now r = false) ∧
  if o_Allowed o then
    (∀ k, m_buckets m' !! key_string k =
       match use_of r k with Some u => Some (charged m now u) | None => m_buckets m !! key_string k end) ∧
    (0 < MaxConcurrent (rq_Limits r) →
       m_leases m' !! keyConcurrency (rq_TenantID r) =
       Some (<[rq_LeaseID r := now + LeaseTTLMs (m_p m)]> (held_leases m now (rq_TenantID r))))
  else m_buckets m' = m_buckets m ∧ ∀ tenant, held_leases m' now tenant = held_leases m now tenant.
Proof.
  intros Hm Ht Hr. pose proof (Allow_answer m now r Hm Ht Hr) as Ha. pose proof (Allow_ok m now r Hm Ht Hr) as Hok.
  destruct (Model_Allow m now r) as [m' o]. simpl in Hok. split; [done|]. destruct Ha as [_ Ha].
  rewrite <-refusals_nil. destruct (o_Allowed o).
  - destruct Ha as (Hn & -> & _). split; [done|]. split; [intros k; by apply admit_bucket|]. intros Hpos. unfold admission. simpl.
    destruct (Z.ltb_spec 0 (MaxConcurrent (rq_Limits r))); [|lia]. by rewrite lookup_insert_eq.
  - destruct Ha as (Hn & -> & _). split; [done|]. split; [done|]. intros tenant. apply held_refuse.
Qed.

(** ** Waiting. *)

(** A shortage ends exactly when the reported wait has passed. *)
Lemma lacks_later m now t u :
  model_ok m → use_ok u → now ≤ t → (∀ b, m_buckets m !! key_string (u_key u) = Some b → bk_at b ≤ now) →
  lacks m t u = lacks m now u && (t <? now + wait_of m now u).
Proof.
  intros Hm (Hq & Hc & _) Ht Hat. unfold lacks, wait_of.
  pose proof (need_bounds (m_p m) (u_cost u) (u_quota u) (proj1 Hm) Hq (proj1 Hc)) as Hn.
  set (N := need_of _ _ _) in *. unfold level_at. destruct (m_buckets m !! key_string (u_key u)) as [b|] eqn:Hb.
  - specialize (Hat b eq_refl). set (Q := u_quota u) in *. unfold refill. rewrite !Z.max_r by lia.
    set (C := cap (m_p m) Q) in *. set (L := bk_level b). assert (HC : C = Q * window (m_p m)) by done.
    destruct (proj2 Hm _ _ Hb) as [_ Hlev _]. fold L in Hlev. set (W := window (m_p m)) in *.
    pose proof (window_bounds _ (proj1 Hm)) as HW. fold W in HW.
    destruct (Z.ltb_spec (Z.min C (L + Z.min W (now - bk_at b) * Q)) N) as [Hshort|Hfull]; simpl.
    + assert (now - bk_at b < W) as HltW by nia. rewrite (Z.min_r W (now - bk_at b)) in * by lia.
      assert (L + (now - bk_at b) * Q < N) as Hs by lia. rewrite (Z.min_r C (L + (now - bk_at b) * Q)) by lia.
      destruct (Z.ltb_spec t (now + (N - (L + (now - bk_at b) * Q) + Q - 1) / Q)) as [Hlt|Hge].
      * apply Z.ltb_lt. assert (¬ (N - (L + (now - bk_at b) * Q) ≤ (t - now) * Q)) by (rewrite <-ceil_covers by lia; lia). nia.
      * apply Z.ltb_ge. assert (N - (L + (now - bk_at b) * Q) ≤ (t - now) * Q) by (rewrite <-ceil_covers by lia; lia). nia.
    + apply Z.ltb_ge. nia.
  - destruct (Z.ltb_spec (cap (m_p m) (u_quota u)) N); [lia|done].
Qed.

Lemma longest_le l w : 0 ≤ w → longest l ≤ w ↔ Forall (λ lw, lw.2 ≤ w) l.
Proof. intros Hw. induction l as [|lw l IH]; simpl; [by split|]. rewrite Forall_cons, <-IH. lia. Qed.

Lemma no_conc_refusals m now r w :
  MaxConcurrent (rq_Limits r) ≤ 0 → 0 ≤ w →
  longest (refusals m now r) ≤ w ↔ Forall (λ u, lacks m now u = true → wait_of m now u ≤ w) (uses r).
Proof.
  intros Hc Hw. rewrite longest_le by done. unfold refusals, conc_full. destruct (Z.ltb_spec 0 (MaxConcurrent (rq_Limits r))); [lia|].
  simpl. unfold bucket_refusals. rewrite Forall_app, !Forall_fmap, !Forall_forall. generalize (uses r). intros us.
  setoid_rewrite list_elem_of_filter. split.
  - intros [H1 H2] u Hu Hl. destruct (is_model_use u) eqn:Hmod; [apply (H2 u)|apply (H1 u)]; (split; [simpl; by rewrite Hmod, Hl|done]).
  - intros Ha. split; intros u [[_ Hl]%andb_true_iff Hu]; by apply Ha.
Qed.

(** The wait reported by a refusal is exact.  When no clock step back is pending on the
    request's buckets and its concurrency is not limited, the same request made again at a
    later time is admitted exactly from [RetryMs] milliseconds after the refusal. *)
Theorem retry_exact m now r t :
  model_ok m → time_bounded now → time_bounded t → request_bounded r → MaxConcurrent (rq_Limits r) ≤ 0 → now ≤ t →
  (∀ u b, u ∈ uses r → m_buckets m !! key_string (u_key u) = Some b → bk_at b ≤ now) →
  let '(m', o) := Model_Allow m now r in
  o_Allowed o = false → o_Allowed (Model_Allow m' t r).2 = true ↔ now + o_RetryMs o ≤ t.
Proof.
  intros Hm Htn Htt Hr Hc Hle Hat. pose proof (Allow_answer m now r Hm Htn Hr) as Ha.
  destruct (Model_Allow m now r) as [m' o]. destruct Ha as [Hw Ha]. intros Hno. rewrite Hno in Ha. destruct Ha as (_ & -> & _).
  assert (refuse m now r = m) as ->.
  { unfold refuse. destruct (Z.ltb_spec 0 (MaxConcurrent (rq_Limits r))); [lia|by destruct m]. }
  pose proof (Allow_answer m t r Hm Htt Hr) as Ha. destruct (Model_Allow m t r) as [m2 o2]. destruct Ha as [_ Ha]. simpl.
  assert (o_Allowed o2 = true ↔ Forall (λ u, lacks m t u = false) (uses r)) as ->.
  { assert (conc_full m t r = false) as Hcf by (unfold conc_full; by destruct (Z.ltb_spec 0 (MaxConcurrent (rq_Limits r))); [lia|]).
    pose proof (refusals_nil m t r) as Hrn. rewrite Hcf in Hrn. destruct (o_Allowed o2); naive_solver. }
  transitivity (longest (refusals m now r) ≤ t - now); [|rewrite Hw; lia]. rewrite no_conc_refusals by lia.
  rewrite !Forall_forall. apply forall_proper. intros u. split; intros Hu Hin; specialize (Hu Hin);
    pose proof (uses_ok r Hr) as Huk; rewrite Forall_forall in Huk; specialize (Huk u Hin);
    rewrite (lacks_later m now t u Hm Huk Hle (λ b, Hat u b Hin)) in *.
  - intros Hl. rewrite Hl in Hu. simpl in Hu. lia.
  - destruct (lacks m now u); [|done]. specialize (Hu eq_refl). simpl. lia.
Qed.

(** ** Runs. *)

Inductive mop := MAllow (r : ModelRequest) | MRelease (tenant lease : string) | MRenew (tenant lease : string).

Definition mrun (m : RateModel) (now : Z) (o : mop) : RateModel :=
  match o with
  | MAllow r => (Model_Allow m now r).1
  | MRelease tenant lease => (Model_Release m tenant lease).1
  | MRenew tenant lease => (Model_Renew m now tenant lease).1
  end.

Definition mruns (m : RateModel) (l : list (Z * mop)) : RateModel := foldl (λ m to, mrun m to.1 to.2) m l.

Definition op_bounded (o : mop) : Prop := match o with MAllow r => request_bounded r | _ => True end.
Definition run_bounded (l : list (Z * mop)) : Prop := Forall (λ to, time_bounded to.1 ∧ op_bounded to.2) l.

Lemma mrun_other m now o : (∀ r, o ≠ MAllow r) → m_buckets (mrun m now o) = m_buckets m ∧ m_p (mrun m now o) = m_p m.
Proof.
  intros Ho. destruct o as [r|tenant lease|tenant lease]; [by destruct (Ho r)|done|]. simpl. unfold Model_Renew.
  destruct (default ∅ _ !! lease); [|done]. by destruct (_ <=? _).
Qed.

Lemma Allow_p m now r : model_ok m → time_bounded now → request_bounded r → m_p (Model_Allow m now r).1 = m_p m.
Proof.
  intros Hm Ht Hr. pose proof (Allow_answer m now r Hm Ht Hr) as Ha. destruct (Model_Allow m now r) as [m' o].
  destruct Ha as [_ Ha]. destruct (o_Allowed o); by destruct Ha as (_ & -> & _).
Qed.

Lemma mrun_ok m now o : model_ok m → time_bounded now → op_bounded o → model_ok (mrun m now o) ∧ m_p (mrun m now o) = m_p m.
Proof.
  intros Hm Ht Ho. destruct o as [r|tenant lease|tenant lease];
    [split; [by apply Allow_ok|by apply Allow_p]|destruct (mrun_other m now (MRelease tenant lease)) as [Hb Hp]; [done|]
    |destruct (mrun_other m now (MRenew tenant lease)) as [Hb Hp]; [done|]];
    (split; [|done]; unfold model_ok; by rewrite Hp, Hb).
Qed.

(** What a run takes out of the bucket of [k], in scaled units. *)
Definition spent1 (k : rate_key) (m : RateModel) (now : Z) (o : mop) : Z :=
  match o with
  | MAllow r =>
      if o_Allowed (Model_Allow m now r).2 then
        match use_of r k with Some u => need_of (m_p m) (u_cost u) (u_quota u) | None => 0 end
      else 0
  | _ => 0
  end.

Fixpoint spent (k : rate_key) (m : RateModel) (l : list (Z * mop)) : Z :=
  match l with
  | [] => 0
  | (now, o) :: l => spent1 k m now o + spent k (mrun m now o) l
  end.

(** What the bucket can still give out between [lo] and [hi]. *)
Definition prospect (m : RateModel) (k : rate_key) (Q lo hi : Z) : Z :=
  match m_buckets m !! key_string k with
  | None => cap (m_p m) Q + Q * (hi - lo)
  | Some b => Z.min (cap (m_p m) Q) (bk_level b + Z.max 0 (lo - bk_at b) * Q) + Q * (hi - Z.min hi (Z.max lo (bk_at b)))
  end.

Lemma prospect_arith C Q W N L a lo hi now :
  0 < Q → 0 ≤ W → lo ≤ now ≤ hi → 0 ≤ N ≤ Z.min C (L + Z.min W (Z.max 0 (now - a)) * Q) →
  N + (Z.min C (Z.min C (L + Z.min W (Z.max 0 (now - a)) * Q) - N + Z.max 0 (lo - Z.max now a) * Q) +
       Q * (hi - Z.min hi (Z.max lo (Z.max now a))))
  ≤ Z.min C (L + Z.max 0 (lo - a) * Q) + Q * (hi - Z.min hi (Z.max lo a)).
Proof.
  intros HQ HW Hnow HN. rewrite (Z.max_l 0 (lo - Z.max now a)) by lia. destruct (Z.le_gt_cases a now) as [Ha|Ha].
  - rewrite (Z.max_l now a), (Z.max_r lo now), (Z.min_r hi now), (Z.max_r 0 (now - a)) in * by lia.
    assert (Z.min W (now - a) * Q ≤ (now - a) * Q) by nia. rewrite (Z.min_r hi) by lia.
    destruct (Z.le_gt_cases lo a); [rewrite (Z.max_l 0 (lo - a)), (Z.max_r lo a) by lia|rewrite (Z.max_r 0 (lo - a)), (Z.max_l lo a) by lia]; nia.
  - rewrite (Z.max_r now a), (Z.max_l 0 (now - a)), (Z.max_l 0 (lo - a)) in * by lia.
    rewrite (Z.min_r W 0) in * by lia. lia.
Qed.

Lemma prospect_step m k Q lo hi now o :
  model_ok m → 0 < Q ≤ MaxQuota → lo ≤ now ≤ hi → time_bounded now → op_bounded o →
  (∀ r u, o = MAllow r → use_of r k = Some u → u_quota u = Q) →
  spent1 k m now o + prospect (mrun m now o) k Q lo hi ≤ prospect m k Q lo hi.
Proof.
  intros Hm HQ Hnow Ht Ho Hk. destruct o as [r|tenant lease|tenant lease];
    [|destruct (mrun_other m now (MRelease tenant lease)) as [Hb Hp]; [done|]; unfold prospect; by rewrite Hb, Hp
     |destruct (mrun_other m now (MRenew tenant lease)) as [Hb Hp]; [done|]; unfold prospect; by rewrite Hb, Hp].
  simpl in *. pose proof (Allow_answer m now r Hm Ht Ho) as Ha. destruct (Model_Allow m now r) as [m' o]. destruct Ha as [_ Ha].
  simpl. destruct (o_Allowed o); [|by destruct Ha as (_ & -> & _)]. destruct Ha as (Hn & -> & _).
  unfold prospect. rewrite admit_bucket by done. simpl m_p.
  destruct (use_of r k) as [u|] eqn:Hu; [|lia]. pose proof (Hk r u eq_refl Hu) as HuQ.
  apply use_of_Some in Hu as [Hin <-]. apply refusals_nil in Hn as [Hl _]. rewrite Forall_forall in Hl. specialize (Hl u Hin).
  pose proof (uses_ok r Ho) as Huk. rewrite Forall_forall in Huk. destruct (Huk u Hin) as (_ & Hcost & _).
  pose proof (need_bounds (m_p m) (u_cost u) Q (proj1 Hm) HQ (proj1 Hcost)) as Hnb.
  unfold lacks in Hl. rewrite HuQ in *. unfold charged, stamp, level_at in *. rewrite HuQ. simpl.
  pose proof (window_bounds _ (proj1 Hm)) as HW. destruct (m_buckets m !! key_string (u_key u)) as [b|] eqn:Hb.
  - simpl. apply prospect_arith; [lia|lia|done|]. unfold refill in Hl. lia.
  - simpl. rewrite (Z.max_l 0) by lia. rewrite Z.min_r, Z.max_r, Z.min_r by lia. nia.
Qed.

Lemma prospect_le m k Q lo hi : model_ok m → 0 < Q ≤ MaxQuota → lo ≤ hi → 0 ≤ prospect m k Q lo hi ≤ cap (m_p m) Q + Q * (hi - lo).
Proof.
  intros Hm HQ Hle. pose proof (cap_bounds _ _ (proj1 Hm) HQ). unfold prospect.
  destruct (m_buckets m !! key_string k) as [b|] eqn:Hb; [|nia]. destruct (proj2 Hm _ _ Hb) as [_ Hl _]. nia.
Qed.

(** C15: A bucket's quota holds over any run and any clock.  Starting from any state within bounds,
    whatever checks, releases and renewals follow, with clock readings in any order between [lo]
    and [hi], what is taken out of the bucket of a tenant or model with quota [Q] per minute is
    at most its burst plus the refill of [hi - lo] milliseconds: a clock that steps back and
    forth mints no tokens. *)
Theorem quota_bound m l k Q lo hi :
  model_ok m → run_bounded l → 0 < Q ≤ MaxQuota → lo ≤ hi → Forall (λ to, lo ≤ to.1 ≤ hi) l →
  (∀ t r u, (t, MAllow r) ∈ l → use_of r k = Some u → u_quota u = Q) →
  spent k m l ≤ cap (m_p m) Q + Q * (hi - lo).
Proof.
  intros Hm Hl HQ Hlo Hts Hk. transitivity (prospect m k Q lo hi); [|by apply prospect_le].
  revert m Hm. induction l as [|[now o] l IH]; intros m Hm; [by apply prospect_le|]. simpl.
  apply Forall_cons in Hl as [[Ht Ho] Hl]. apply Forall_cons in Hts as [Hnow Hts]. simpl in *.
  pose proof (prospect_step m k Q lo hi now o Hm HQ Hnow Ht Ho) as Hstep.
  assert (IH' := IH Hl Hts ltac:(intros t r u Hin; apply (Hk t); by apply elem_of_cons; right)
    (mrun m now o) (proj1 (mrun_ok m now o Hm Ht Ho))).
  assert (spent1 k m now o + prospect (mrun m now o) k Q lo hi ≤ prospect m k Q lo hi); [|lia].
  apply Hstep. intros r u -> Hu. apply (Hk now r u); [by apply elem_of_cons; left|done].
Qed.

(** ** Leases. *)

Definition tenant_leases (m : RateModel) (tenant : string) : gmap string Z := default ∅ (m_leases m !! keyConcurrency tenant).

Lemma keyConcurrency_inj t t' : keyConcurrency t = keyConcurrency t' → t = t'.
Proof. intros Heq. by assert (KConcurrency t = KConcurrency t') as [= ->] by (by apply key_string_inj). Qed.

Lemma size_drop_expired now held : (size (drop_expired now held) ≤ size held)%nat.
Proof. apply map_size_filter. Qed.

Lemma leases_step m now o tenant MC :
  model_ok m → time_bounded now → op_bounded o →
  (∀ r, o = MAllow r → rq_TenantID r = tenant → MaxConcurrent (rq_Limits r) ≤ MC) →
  Z.of_nat (size (tenant_leases m tenant)) ≤ MC → Z.of_nat (size (tenant_leases (mrun m now o) tenant)) ≤ MC.
Proof.
  intros Hm Ht Ho HMC Hs. destruct o as [r|t lease|t lease]; simpl in *.
  - pose proof (Allow_answer m now r Hm Ht Ho) as Ha. destruct (Model_Allow m now r) as [m' o]. destruct Ha as [_ Ha]. simpl.
    destruct (decide (rq_TenantID r = tenant)) as [<-|Hne].
    + specialize (HMC r eq_refl eq_refl). pose proof (size_drop_expired now (tenant_leases m (rq_TenantID r))) as Hd.
      destruct (o_Allowed o); destruct Ha as (Hn & -> & _); unfold tenant_leases; simpl;
        destruct (Z.ltb_spec 0 (MaxConcurrent (rq_Limits r))); try done.
      * rewrite lookup_insert_eq. simpl. apply refusals_nil in Hn as [_ Hf]. unfold conc_full in Hf.
        destruct (Z.ltb_spec 0 (MaxConcurrent (rq_Limits r))); [|lia]. simpl in Hf. unfold held_leases in *. fold (tenant_leases m (rq_TenantID r)) in *.
        destruct (drop_expired now (tenant_leases m (rq_TenantID r)) !! rq_LeaseID r) eqn:Hl.
        -- rewrite map_size_insert_Some by done. lia.
        -- rewrite map_size_insert_None by done. lia.
      * rewrite lookup_alter_eq. unfold tenant_leases in *. destruct (m_leases m !! _); simpl in *; [lia|by rewrite map_size_empty in *].
    + assert (keyConcurrency (rq_TenantID r) ≠ keyConcurrency tenant) by (intros ?%keyConcurrency_inj; done).
      destruct (o_Allowed o); destruct Ha as (_ & -> & _); unfold tenant_leases in *; simpl; destruct (0 <? _);
        rewrite ?lookup_insert_ne, ?lookup_alter_ne by done; done.
  - unfold tenant_leases in *. simpl. destruct (decide (keyConcurrency t = keyConcurrency tenant)) as [->|Hne]; [|by rewrite lookup_alter_ne].
    rewrite lookup_alter_eq. destruct (m_leases m !! _) as [held|]; simpl in *; [|done].
    pose proof (map_subseteq_size (delete lease held) held (delete_subseteq _ _)). lia.
  - unfold Model_Renew. destruct (default ∅ _ !! lease) as [exp|] eqn:Hl; [|done]. destruct (_ <=? _); [done|].
    unfold tenant_leases in *. simpl. destruct (decide (keyConcurrency t = keyConcurrency tenant)) as [Heq|Hne]; [|by rewrite lookup_alter_ne].
    rewrite Heq in *. rewrite lookup_alter_eq. destruct (m_leases m !! _) as [held|]; simpl in *; [|done].
    by rewrite map_size_insert_Some.
Qed.

(** A tenant never holds more than its concurrency limit.  Over any run with any clock in
    which the tenant's requests carry limits of at most [MC], the leases stored for it, live or not yet
    dropped, are at most [MC]; so are the live ones [Held] counts. *)
Theorem concurrency_bound p l tenant MC now :
  params_bounded p → run_bounded l → 0 < MC →
  (∀ t r, (t, MAllow r) ∈ l → rq_TenantID r = tenant → MaxConcurrent (rq_Limits r) ≤ MC) →
  Model_Held (mruns (NewModel p) l) now tenant ≤ MC.
Proof.
  intros Hp Hl Hpos HMC.
  assert (Hinv : ∀ m, model_ok m → Z.of_nat (size (tenant_leases m tenant)) ≤ MC → Z.of_nat (size (tenant_leases (mruns m l) tenant)) ≤ MC).
  { induction l as [|[t o] l IH]; intros m Hm Hs; [done|]. apply Forall_cons in Hl as [[Ht Ho] Hl]. simpl in *.
    apply (IH Hl); [intros t' r Hin; apply (HMC t'); by apply elem_of_cons; right|by apply mrun_ok|].
    eapply leases_step; try done. intros r ->. apply (HMC t). by apply elem_of_cons; left. }
  unfold Model_Held. pose proof (size_drop_expired now (tenant_leases (mruns (NewModel p) l) tenant)) as Hd.
  assert (Z.of_nat (size (tenant_leases (mruns (NewModel p) l) tenant)) ≤ MC); [|unfold tenant_leases in *; lia].
  apply Hinv; [split; [done|apply map_Forall_empty]|]. unfold tenant_leases. simpl. rewrite lookup_empty. simpl. rewrite map_size_empty. lia.
Qed.

(** ** Instances. *)

Definition ex_params : Params := mkParams 60 60000.
Definition ex_rq (cost : Z) : ModelRequest := mkModelRequest "acme" "llama" cost (mkLimits 2 1000 0) 0 "".
Definition ex_lease (id : string) : ModelRequest := mkModelRequest "acme" "llama" 1 (mkLimits 0 0 2) 0 id.
Definition ex_run : list (Z * mop) := [(1000, MAllow (ex_rq 600)); (500, MAllow (ex_rq 600)); (2000, MAllow (ex_rq 300))].

Lemma ex_params_bounded : params_bounded ex_params.
Proof. unfold params_bounded, MaxBurstSeconds, max_time. simpl. lia. Qed.

Lemma ex_new_ok : model_ok (NewModel ex_params).
Proof. split; [apply ex_params_bounded|apply map_Forall_empty]. Qed.

Lemma ex_rq_bounded cost : 0 ≤ cost ≤ MaxCost → request_bounded (ex_rq cost).
Proof. intros Hc. unfold MaxQuota. split; simpl; try done; unfold MaxQuota; lia. Qed.

Lemma time_small t : bool_decide (0 ≤ t ≤ 2 ^ 51) = true → time_bounded t.
Proof. by intros ?%bool_decide_eq_true. Qed.

Lemma allow_all_or_nothing_witness :
  o_Allowed (Model_Allow (NewModel ex_params) 1000 (ex_rq 600)).2 = true ∧
  model_ok (Model_Allow (NewModel ex_params) 1000 (ex_rq 600)).1.
Proof.
  split; [by vm_compute|].
  pose proof (allow_all_or_nothing (NewModel ex_params) 1000 (ex_rq 600) ex_new_ok ltac:(by apply time_small)
    ltac:(apply ex_rq_bounded; unfold MaxCost; lia)) as H.
  destruct (Model_Allow (NewModel ex_params) 1000 (ex_rq 600)) as [m' o]. exact (proj1 H).
Defined.

Definition ex_m1 : RateModel := (Model_Allow (NewModel ex_params) 1000 (ex_rq 600)).1.

Lemma ex_m1_ok : model_ok ex_m1.
Proof. apply Allow_ok; [apply ex_new_ok|by apply time_small|apply ex_rq_bounded; unfold MaxCost; lia]. Qed.

Lemma retry_exact_witness :
  (Model_Allow ex_m1 1000 (ex_rq 600)).2 = mkOutcome false LimitTokens 12000 ∧
  o_Allowed (Model_Allow (Model_Allow ex_m1 1000 (ex_rq 600)).1 13000 (ex_rq 600)).2 = true.
Proof.
  assert (Ho : (Model_Allow ex_m1 1000 (ex_rq 600)).2 = mkOutcome false LimitTokens 12000) by by vm_compute.
  split; [done|].
  assert (Hall : map_Forall (λ _ b, bk_at b ≤ 1000) (m_buckets ex_m1)) by (apply map_Forall_to_list; vm_compute; repeat (constructor; [done|]); constructor).
  assert (Hat : ∀ u b, u ∈ uses (ex_rq 600) → m_buckets ex_m1 !! key_string (u_key u) = Some b → bk_at b ≤ 1000).
  { intros u b _ Hb. by apply (Hall _ _ Hb). }
  pose proof (retry_exact ex_m1 1000 (ex_rq 600) 13000 ex_m1_ok ltac:(by apply time_small) ltac:(by apply time_small)
    ltac:(apply ex_rq_bounded; unfold MaxCost; lia) ltac:(done) ltac:(done) Hat) as H.
  destruct (Model_Allow ex_m1 1000 (ex_rq 600)) as [m' o]. simpl in Ho. subst o. by apply H.
Defined.

Lemma ex_run_bounded : run_bounded ex_run.
Proof.
  repeat (constructor; [split; [by apply time_small|apply ex_rq_bounded; unfold MaxCost; lia]|]). constructor.
Qed.

Lemma quota_bound_witness :
  spent (KTokens "acme") (NewModel ex_params) ex_run = 900 * 60000 ∧
  spent (KTokens "acme") (NewModel ex_params) ex_run ≤ cap ex_params 1000 + 1000 * (2000 - 500).
Proof.
  split; [by vm_compute|].
  apply (quota_bound (NewModel ex_params) ex_run (KTokens "acme") 1000 500 2000 ex_new_ok ex_run_bounded).
  - unfold MaxQuota. lia.
  - lia.
  - repeat (constructor; [simpl; lia|]). constructor.
  - intros t r u Hin Hu. repeat (apply elem_of_cons in Hin as [[= -> ->]|Hin]; [vm_compute in Hu; by simplify_eq|]). by apply elem_of_nil in Hin.
Defined.

Definition ex_leases : list (Z * mop) :=
  [(1, MAllow (ex_lease "a")); (2, MAllow (ex_lease "b")); (3, MAllow (ex_lease "c")); (4, MRenew "acme" "a")].

Lemma concurrency_bound_witness : Model_Held (mruns (NewModel ex_params) ex_leases) 5 "acme" ≤ 2.
Proof.
  apply (concurrency_bound ex_params ex_leases "acme" 2 5 ex_params_bounded).
  - assert (∀ id, request_bounded (ex_lease id)) as Hb by (intros id; split; simpl; unfold MaxQuota, MaxCost; lia).
    repeat (constructor; [split; [by apply time_small|first [apply Hb|done]]|]). constructor.
  - done.
  - intros t r Hin _. repeat ((apply elem_of_cons in Hin as [[= -> ->]|Hin]; [done|]) || apply elem_of_cons in Hin as [[=]|Hin]). by apply elem_of_nil in Hin.
Defined.
