(* ===== verification/RateScript.v ===== *)
(** * The rate limiter's Lua scripts (internal/ratelimit/script.go)

    The production algorithm: scripts Redis runs atomically.  Lua numbers are doubles, so every
    operation of the script is the IEEE one of GoFloat.v.  Redis is a parameter, [RedisServer]:
    its commands act on a store whose visible content is given by [view], and its laws are the
    documented behaviour of the commands the scripts use, expiry included: a key whose time has
    passed is not shown, and the server deletes it at some time of its own choosing ([expire]),
    after which a clock that steps back does not bring it back.  RateRefine.v ends with a concrete
    server that satisfies them. *)

From Stdlib Require Import Ascii String SpecFloat.
From S2P Require Import Prelude GoFloat GoString RateLimit.

Local Open Scope string_scope.
Local Open Scope list_scope.
Local Open Scope Z_scope.

(** ** Redis. *)

(** What a key can hold: a hash of fields, or a sorted set of members by score. *)
Inductive rvalue := RHash (h : gmap string string) | RZset (z : gmap string float64).

(** A value with the millisecond at which it expires, if any. *)
Record rentry := mkREntry { re_value : rvalue; re_deadline : option Z }.

Definition live_at (t : Z) (e : option rentry) : option rvalue :=
  match e with
  | Some e => match re_deadline e with Some d => if d <=? t then None else Some (re_value e) | None => Some (re_value e) end
  | None => None
  end.

Definition hash_of (v : option rvalue) : option (gmap string string) :=
  match v with None => Some ∅ | Some (RHash h) => Some h | Some (RZset _) => None end.
Definition zset_of (v : option rvalue) : option (gmap string float64) :=
  match v with None => Some ∅ | Some (RZset z) => Some z | Some (RHash _) => None end.

(** The deadline a write keeps: that of the live value. *)
Definition kept_deadline (t : Z) (e : option rentry) : option Z :=
  match e with Some e => match re_deadline e with Some d => if d <=? t then None else Some d | None => None end | None => None end.

(** A server and the documented effect of each command, executed at the server's clock [t] (in
    milliseconds), on keys of the right type. *)
Class RedisServer := {
  store : Type;
  view : store → string → option rentry;
  (** '%.0f' of a number, and tonumber of a text. *)
  fmt0 : float64 → string;
  tonumber : string → option float64;
  HMGET : store → Z → string → string → option string;
  HSET : store → Z → string → list (string * string) → store;
  PEXPIRE : store → Z → string → float64 → store;
  ZREMRANGEBYSCORE : store → Z → string → float64 → store;
  ZCARD : store → Z → string → Z;
  ZADD : store → Z → string → string → string → store;
  ZADD_XX : store → Z → string → string → string → store;
  (** The number a member's score text reads back as. *)
  ZSCORE : store → Z → string → string → option float64;
  ZREM : store → Z → string → string → store * Z;
  (** What the server does on its own at a reading of its clock: it deletes keys that have expired,
      all of them or some. *)
  expire : store → Z → store;
  tonumber_fmt0 z : 0 ≤ z < 2 ^ 53 → tonumber (fmt0 (f64 z)) = Some (f64 z);
  HMGET_law s t k f h : hash_of (live_at t (view s k)) = Some h → HMGET s t k f = h !! f;
  HSET_law s t k fs h k' : hash_of (live_at t (view s k)) = Some h →
    view (HSET s t k fs) k' = if decide (k' = k) then Some (mkREntry (RHash (list_to_map fs ∪ h)) (kept_deadline t (view s k))) else view s k';
  PEXPIRE_law s t k ms v k' : 0 < ms < 2 ^ 53 → live_at t (view s k) = Some v →
    view (PEXPIRE s t k (f64 ms)) k' = if decide (k' = k) then Some (mkREntry v (Some (t + ms))) else view s k';
  ZREMRANGEBYSCORE_law s t k max z k' : zset_of (live_at t (view s k)) = Some z →
    view (ZREMRANGEBYSCORE s t k max) k' =
    if decide (k' = k) then
      let z' := filter (λ ms : string * float64, fle ms.2 max = false) z in
      if decide (z' = ∅) then None else Some (mkREntry (RZset z') (kept_deadline t (view s k)))
    else view s k';
  ZCARD_law s t k z : zset_of (live_at t (view s k)) = Some z → ZCARD s t k = Z.of_nat (size z);
  ZADD_law s t k score x member z k' : zset_of (live_at t (view s k)) = Some z → tonumber score = Some x →
    view (ZADD s t k score member) k' =
    if decide (k' = k) then Some (mkREntry (RZset (<[member := x]> z)) (kept_deadline t (view s k))) else view s k';
  ZADD_XX_law s t k score x member z k' : zset_of (live_at t (view s k)) = Some z → tonumber score = Some x → is_Some (z !! member) →
    view (ZADD_XX s t k score member) k' =
    if decide (k' = k) then Some (mkREntry (RZset (<[member := x]> z)) (kept_deadline t (view s k))) else view s k';
  ZSCORE_law s t k member z : zset_of (live_at t (view s k)) = Some z → ZSCORE s t k member = z !! member;
  ZREM_law s t k member z : zset_of (live_at t (view s k)) = Some z →
    (ZREM s t k member).2 = (if decide (is_Some (z !! member)) then 1 else 0) ∧
    ∀ k', view (ZREM s t k member).1 k' =
      if decide (k' = k) then
        if decide (delete member z = ∅) then None else Some (mkREntry (RZset (delete member z)) (kept_deadline t (view s k)))
      else view s k';
  expire_law s t k : view (expire s t) k = view s k ∨ live_at t (view s k) = None ∧ view (expire s t) k = None
}.

(** ** The acquire script. *)

Section script.
Context `{RedisServer}.

(** The reply of TIME: seconds and microseconds; the server's clock in milliseconds. *)
Definition clock_ms (time : Z * Z) : Z := time.1 * 1000 + time.2 / 1000.

(** [now]: the override of a test clock, or the server's time. *)
Definition script_now (override : float64) (time : Z * Z) : float64 :=
  if flt f0 override then override
  else fadd (fmul (f64 time.1) (f64 1000)) (ffloor (fdiv (f64 time.2) (f64 1000))).

Definition SCALE : float64 := f64 60000.

(** Lua 5.1's remainder: a - floor(a/b)*b. *)
Definition lua_mod (a b : float64) : float64 := fsub a (fmul (ffloor (fdiv a b)) b).

Definition ceil_div (a b : float64) : float64 :=
  let x := fsub (fadd a b) (f64 1) in fdiv (fsub x (lua_mod x b)) b.

(** [check(key, quota, tokens)]: level, need, wait and the time to store. *)
Definition script_check (s : store) (t : Z) (now window : float64) (key : string) (quota tokens : float64)
  : float64 * float64 * float64 * float64 :=
  let cap := fmul quota window in
  let l := HMGET s t key "l" ≫= tonumber in
  let ts := HMGET s t key "t" ≫= tonumber in
  let '(level, stamp) :=
    match l, ts with
    | Some l, Some ts =>
        let stamp := if flt now ts then ts else now in
        let elapsed := fsub now ts in
        let elapsed := if flt elapsed f0 then f0 else elapsed in
        let elapsed := if flt window elapsed then window else elapsed in
        let level := fadd l (fmul elapsed quota) in
        (if flt cap level then cap else level, stamp)
    | _, _ => (cap, now)
    end in
  let need := fmul tokens SCALE in
  let need := if flt cap need then cap else need in
  let wait := if flt level need then ceil_div (fsub need level) quota else f0 in
  (level, need, wait, stamp).

(** [consider(code, wait)] on the best code and wait so far. *)
Definition script_consider (best : float64 * float64) (code wait : float64) : float64 * float64 :=
  if flt best.2 wait then (code, wait) else best.

(** [store(key, level, need, at)]. *)
Definition script_store (s : store) (t : Z) (window : float64) (key : string) (level need at_ : float64) : store :=
  let s := HSET s t key [("l", fmt0 (fsub level need)); ("t", fmt0 at_)] in
  PEXPIRE s t key (fmul window (f64 2)).

Record AcquireArgs := mkAcquireArgs {
  aa_override : Z; aa_rq : Z; aa_tq : Z; aa_mc : Z; aa_mq : Z; aa_cost : Z; aa_burst : Z; aa_lease_id : string; aa_lease_ttl : Z
}.

(** A Lua number in an integer reply: the fraction is dropped. *)
Definition int_reply (x : float64) : Z := default 0 (ftrunc x).

(** The script: KEYS 1-4 and ARGV, at the server time [time]. *)
Definition acquireScript (s : store) (time : Z * Z) (k1 k2 k3 k4 : string) (a : AcquireArgs) : store * (Z * Z * Z) :=
  let t := clock_ms time in
  let now := script_now (f64 (aa_override a)) time in
  let rq := f64 (aa_rq a) in let tq := f64 (aa_tq a) in let mc := f64 (aa_mc a) in let mq := f64 (aa_mq a) in
  let window := fmul (f64 (aa_burst a)) (f64 1000) in
  let lease_ttl := f64 (aa_lease_ttl a) in
  let best := (f0, f0) in
  let req := script_check s t now window k1 rq (f64 1) in
  let best := if flt f0 rq then let w := req.1.2 in if flt f0 w then script_consider best (f64 1) w else best else best in
  let tok := script_check s t now window k2 tq (f64 (aa_cost a)) in
  let best := if flt f0 tq then let w := tok.1.2 in if flt f0 w then script_consider best (f64 2) w else best else best in
  let s := if flt f0 mc then ZREMRANGEBYSCORE s t k3 now else s in
  let best := if flt f0 mc && fle mc (f64 (ZCARD s t k3)) then script_consider best (f64 3) (f64 1000) else best in
  let md := script_check s t now window k4 mq (f64 1) in
  let best := if flt f0 mq then let w := md.1.2 in if flt f0 w then script_consider best (f64 4) w else best else best in
  if flt f0 best.1 then (s, (0, int_reply best.1, int_reply best.2))
  else
    let s := if flt f0 rq then script_store s t window k1 req.1.1.1 req.1.1.2 req.2 else s in
    let s := if flt f0 tq then script_store s t window k2 tok.1.1.1 tok.1.1.2 tok.2 else s in
    let s := if flt f0 mq then script_store s t window k4 md.1.1.1 md.1.1.2 md.2 else s in
    let s :=
      if flt f0 mc then
        let s := ZADD s t k3 (fmt0 (fadd now lease_ttl)) (aa_lease_id a) in
        PEXPIRE s t k3 (fmul lease_ttl (f64 2))
      else s in
    (s, (1, 0, 0)).

(** What the gateway reads in a refusal's code (redis.go). *)
Definition limitFromCode (code : Z) : Limit :=
  if code =? 1 then LimitRequests else if code =? 2 then LimitTokens else if code =? 3 then LimitConcurrency
  else if code =? 4 then LimitModel else LimitUnavailable.

(** ** The renew and release scripts. *)

(** The loop of renewScript over the lease ids. *)
Definition renew_one (t : Z) (now ttl : float64) (key : string) (sn : store * float64) (id : string) : store * float64 :=
  let '(s, renewed) := sn in
  match ZSCORE s t key id with
  | Some score =>
      if flt now score then (ZADD_XX s t key (fmt0 (fadd now ttl)) id, fadd renewed (f64 1)) else (s, renewed)
  | None => (s, renewed)
  end.

Definition renewScript (s : store) (time : Z * Z) (key : string) (override ttl : Z) (ids : list string) : store * Z :=
  let t := clock_ms time in
  let now := script_now (f64 override) time in
  let '(s, renewed) := foldl (renew_one t now (f64 ttl) key) (s, f0) ids in
  let s := if flt f0 renewed then PEXPIRE s t key (fmul (f64 ttl) (f64 2)) else s in
  (s, int_reply renewed).

Definition releaseScript (s : store) (time : Z * Z) (key id : string) : store * Z := ZREM s (clock_ms time) key id.
End script.
