(* ===== verification/RateRefine.v ===== *)
(** * The Lua scripts implement the reference model

    Within the configured bounds every number the scripts compute is an integer below 2^53, so
    the doubles are exact; and over any run at the server's clock the scripts answer what the
    model answers, although Redis expires keys the model keeps.  The clock may step back, by up to
    half a burst window and half the life of a lease: beyond that the answers may differ, and the
    file ends with such a run. *)

From Stdlib Require Import Ascii String SpecFloat.
From S2P Require Import Prelude GoFloat FloatExact GoString Cost RateLimit RateKeys RateSpec RateScript.

Local Open Scope string_scope.
Local Open Scope list_scope.
Local Open Scope Z_scope.

(** ** Exact arithmetic. *)

Ltac exactness := unfold exact in *; lia.

Lemma div_mul_le a b : 0 ≤ a → 0 < b → 0 ≤ a / b ∧ 0 ≤ a / b * b ≤ a ∧ a / b ≤ a.
Proof.
  intros Ha Hb. pose proof (Z.mul_div_le a b Hb). assert (0 ≤ a / b) by (apply Z.div_pos; lia). nia.
Qed.

Lemma lua_mod_exact a b : 0 ≤ a < 2 ^ 53 → 0 < b < 2 ^ 53 → lua_mod (f64 a) (f64 b) = f64 (a mod b).
Proof.
  intros Ha Hb. unfold lua_mod. rewrite ffloor_fdiv by done.
  destruct (div_mul_le a b) as (? & ? & ?); [lia..|].
  rewrite fmul_exact by lia. rewrite fsub_exact by exactness. f_equal. Z.to_euclidean_division_equations; lia.
Qed.

Lemma ceil_div_exact a b : 0 ≤ a → 0 < b → a + b < 2 ^ 53 → ceil_div (f64 a) (f64 b) = f64 ((a + b - 1) / b).
Proof.
  intros Ha Hb Hab. unfold ceil_div. rewrite fadd_exact, fsub_exact by exactness. rewrite lua_mod_exact by lia.
  set (x := a + b - 1). assert (0 ≤ x mod b < b) by (apply Z.mod_pos_bound; lia).
  assert (x mod b ≤ x) by (apply Z.mod_le; lia). rewrite fsub_exact by exactness.
  assert (x - x mod b = x / b * b) as -> by (Z.to_euclidean_division_equations; lia).
  destruct (div_mul_le x b) as (? & ? & ?); [lia..|].
  rewrite fdiv_exact; [by rewrite Z.div_mul by lia|lia|lia|by exists (x / b)].
Qed.

Definition clock_ok (time : Z * Z) : Prop := 0 ≤ time.1 ∧ 0 ≤ time.2 < 1000000 ∧ clock_ms time ≤ max_time.

Lemma clock_bounded time : clock_ok time → time_bounded (clock_ms time).
Proof.
  intros (H1 & H2 & H3). split; [|done]. unfold clock_ms. assert (0 ≤ time.2 / 1000) by (apply Z.div_pos; lia). lia.
Qed.

Lemma script_now_exact time : clock_ok time → script_now (f64 0) time = f64 (clock_ms time).
Proof.
  intros Hc. pose proof (clock_bounded _ Hc) as [_ Hmax]. destruct Hc as (H1 & H2 & _). unfold script_now, clock_ms, max_time in *.
  change (flt f0 (f64 0)) with false. assert (0 ≤ time.2 / 1000 < 1000) by (Z.to_euclidean_division_equations; lia).
  rewrite ffloor_fdiv, fmul_exact, fadd_exact by exactness. done.
Qed.

(** ** One bucket. *)

Section refine.
Context `{RedisServer} (drift : Z).

(** The server's clock reads [t], and [M] at the most so far. *)
Definition near (M t : Z) : Prop := M - drift ≤ t ≤ M.

(** The steps back the configuration tolerates. *)
Definition drift_ok (p : Params) : Prop := 0 ≤ drift ∧ 2 * drift ≤ window p ∧ 2 * drift ≤ LeaseTTLMs p.

(** A bucket of the model and its key, shown or not: the same level and time, with a deadline
    after which the bucket is full whatever the clock does; or no key, where the model has
    nothing or a bucket that is full for good. *)
Definition bucket_rel (p : Params) (M : Z) (e : option rentry) (b : option bucket) : Prop :=
  match e with
  | Some (mkREntry (RHash h) (Some d)) =>
      ∃ level at_, b = Some (mkBucket level at_ true) ∧ h !! "l" = Some (fmt0 (f64 level)) ∧ h !! "t" = Some (fmt0 (f64 at_)) ∧
        at_ + window p + drift ≤ d ∧ at_ ≤ M
  | Some _ => False
  | None => match b with Some b => bk_at b + window p + drift ≤ M | None => True end
  end.

Lemma bucket_rel_later p M M' e b : M ≤ M' → bucket_rel p M e b → bucket_rel p M' e b.
Proof.
  intros Hle. destruct e as [[[h|z] [d|]]|]; cbn; try done; [|destruct b; [lia|done]].
  intros (level & at_ & -> & Hl & Ht & Hd & Hat). exists level, at_. split_and!; (done || lia).
Qed.

Lemma bucket_rel_gone p M t e b : t ≤ M → live_at t e = None → bucket_rel p M e b → bucket_rel p M None b.
Proof.
  intros Ht Hl. destruct e as [[[h|z] [d|]]|]; cbn in *; try done. destruct (Z.leb_spec d t); [|done].
  intros (level & at_ & -> & _ & _ & Hd & _). cbn. lia.
Qed.

(** What the scripts see of a bucket at time [t]. *)
Lemma bucket_seen p M t e b : near M t → bucket_rel p M e b →
  match live_at t e with
  | Some (RHash h) => ∃ level at_, b = Some (mkBucket level at_ true) ∧ h !! "l" = Some (fmt0 (f64 level)) ∧ h !! "t" = Some (fmt0 (f64 at_))
  | Some (RZset _) => False
  | None => match b with Some b => bk_at b + window p ≤ t | None => True end
  end.
Proof.
  intros Hn. destruct e as [[[h|z] [d|]]|]; cbn; try done; [|destruct b; unfold near in Hn; [lia|done]].
  intros (level & at_ & -> & Hl & Ht & Hd & Hat). destruct (Z.leb_spec d t); [unfold near in Hn; cbn; lia|by exists level, at_].
Qed.

Lemma bucket_rel_hash p M t e b : near M t → bucket_rel p M e b → is_Some (hash_of (live_at t e)).
Proof. intros Hn Hr. pose proof (bucket_seen _ _ _ _ _ Hn Hr) as Hs. destruct (live_at t e) as [[h|z]|]; [by eexists|done|by eexists]. Qed.

(** The check function computes the model's numbers. *)
Lemma script_check_exact s M t m u :
  model_ok m → time_bounded t → near M t → use_ok u → bucket_rel (m_p m) M (view s (key_string (u_key u))) (m_buckets m !! key_string (u_key u)) →
  script_check s t (f64 t) (f64 (window (m_p m))) (key_string (u_key u)) (f64 (u_quota u)) (f64 (u_cost u)) =
  (f64 (level_at m (key_string (u_key u)) t (u_quota u)), f64 (need_of (m_p m) (u_cost u) (u_quota u)),
   f64 (if lacks m t u then wait_of m t u else 0), f64 (stamp m (key_string (u_key u)) t)).
Proof.
  intros Hm Ht Hnear (Hq & Hc & _) Hrel. set (key := key_string (u_key u)) in *. set (Q := u_quota u) in *.
  pose proof (cap_bounds _ _ (proj1 Hm) Hq) as Hcap. pose proof (window_bounds _ (proj1 Hm)) as HW.
  pose proof (level_bounds m key t Q Hm Hq) as Hlev. pose proof (need_bounds (m_p m) (u_cost u) Q (proj1 Hm) Hq (proj1 Hc)) as Hn.
  unfold time_bounded, max_time, MaxQuota, MaxCost in *. unfold script_check.
  rewrite fmul_exact by (fold (cap (m_p m) Q); lia). fold (cap (m_p m) Q).
  assert (Hls : ∀ X : float64 * float64, X = (f64 (level_at m key t Q), f64 (stamp m key t)) →
    (let '(level, stamp0) := X in
     let need := fmul (f64 (u_cost u)) SCALE in
     let need := if flt (f64 (cap (m_p m) Q)) need then f64 (cap (m_p m) Q) else need in
     let wait := if flt level need then ceil_div (fsub need level) (f64 Q) else f0 in
     (level, need, wait, stamp0)) =
    (f64 (level_at m key t Q), f64 (need_of (m_p m) (u_cost u) Q), f64 (if lacks m t u then wait_of m t u else 0), f64 (stamp m key t))).
  { intros X ->. cbv zeta. unfold SCALE. rewrite fmul_exact by (unfold scale; lia). rewrite flt_exact by exactness.
    assert ((if cap (m_p m) Q <? u_cost u * 60000 then f64 (cap (m_p m) Q) else f64 (u_cost u * 60000)) = f64 (need_of (m_p m) (u_cost u) Q)) as ->
      by (unfold need_of, scale; case_match; f_equal; lia).
    rewrite flt_exact by exactness. unfold lacks, wait_of. fold key Q.
    destruct (Z.ltb_spec (level_at m key t Q) (need_of (m_p m) (u_cost u) Q)); [|done].
    by rewrite fsub_exact, ceil_div_exact by exactness. }
  apply Hls. clear Hls. destruct (bucket_rel_hash _ _ _ _ _ Hnear Hrel) as [h Hh]. rewrite !(HMGET_law _ _ _ _ _ Hh).
  apply (bucket_seen _ _ _ _ _ Hnear) in Hrel. unfold level_at, stamp in *. destruct (live_at t (view s key)) as [[h'|z]|] eqn:Hlive; simpl in Hh; simplify_eq.
  - destruct Hrel as (level & at_ & Hb & -> & ->). simpl. rewrite Hb in *.
    destruct (proj2 Hm _ _ Hb) as [_ Hlb Hab]. simpl in Hlb, Hab. unfold time_bounded, max_time in Hab.
    assert (cap (m_p m) MaxQuota ≤ 3600000 * 1000000000) by (unfold cap, MaxQuota; nia).
    rewrite !tonumber_fmt0 by lia. rewrite flt_exact, fsub_exact by exactness. change f0 with (f64 0). rewrite flt_exact by exactness.
    assert ((if t - at_ <? 0 then f64 0 else f64 (t - at_)) = f64 (Z.max 0 (t - at_))) as -> by (case_match; f_equal; lia).
    rewrite flt_exact by exactness.
    assert ((if window (m_p m) <? Z.max 0 (t - at_) then f64 (window (m_p m)) else f64 (Z.max 0 (t - at_))) = f64 (Z.min (window (m_p m)) (Z.max 0 (t - at_)))) as ->
      by (case_match; f_equal; lia).
    assert (0 ≤ Z.min (window (m_p m)) (Z.max 0 (t - at_)) * Q ≤ cap (m_p m) Q) by (unfold cap; nia).
    rewrite fmul_exact, fadd_exact, flt_exact by exactness. unfold refill. simpl.
    f_equal; case_match; f_equal; lia.
  - rewrite !lookup_empty. simpl. destruct (m_buckets m !! key) as [b|] eqn:Hb; [|done].
    destruct (proj2 Hm _ _ Hb) as [_ Hlb _]. f_equal; f_equal; [|lia]. unfold refill, cap in *. nia.
Qed.

(** Storing a bucket. *)
Lemma script_store_view s t p key h level need at_ k' :
  params_bounded p → hash_of (live_at t (view s key)) = Some h → exact level → exact need → exact (level - need) →
  view (script_store s t (f64 (window p)) key (f64 level) (f64 need) (f64 at_)) k' =
  if decide (k' = key) then
    Some (mkREntry (RHash (list_to_map [("l", fmt0 (f64 (level - need))); ("t", fmt0 (f64 at_))] ∪ h)) (Some (t + window p * 2)))
  else view s k'.
Proof.
  intros Hp Hh Hl Hn Hln. pose proof (window_bounds p Hp) as HW. unfold script_store. rewrite fsub_exact, fmul_exact by (done || lia).
  set (fs := [("l", _); ("t", _)]). pose proof (HSET_law s t key fs h) as Hset.
  set (h' := list_to_map fs ∪ h) in *.
  assert (Hlive : live_at t (view (HSET s t key fs) key) = Some (RHash h')).
  { rewrite Hset, decide_True by done. simpl. destruct (view s key) as [[v [d|]]|]; simpl; [|done..].
    destruct (Z.leb_spec d t); [done|]. simpl. destruct (Z.leb_spec d t); [lia|done]. }
  rewrite (PEXPIRE_law _ t key (window p * 2) _ k' ltac:(lia) Hlive). case_decide; [done|]. rewrite Hset by done. by rewrite decide_False.
Qed.

Lemma stored_rel p M level at_ d h :
  at_ ≤ M → at_ + window p + drift ≤ d →
  bucket_rel p M (Some (mkREntry (RHash (list_to_map [("l", fmt0 (f64 level)); ("t", fmt0 (f64 at_))] ∪ h)) (Some d)))
    (Some (mkBucket level at_ true)).
Proof.
  intros Hat Hd. exists level, at_. split_and!; try done; apply lookup_union_Some_l; simpl.
  - by rewrite lookup_insert_eq.
  - rewrite lookup_insert_ne by done. by rewrite lookup_insert_eq.
Qed.

(** ** Leases. *)

(** The leases a key holds, shown or not: exact scores within a lease's life, and a deadline by
    which they have all expired whatever the clock does. *)
Definition zkey (M ttl : Z) (e : option rentry) (zi : gmap string Z) : Prop :=
  match e with
  | Some (mkREntry (RZset z) (Some d)) => z = f64 <$> zi ∧ map_Forall (λ _ x, 0 ≤ x ≤ M + ttl ∧ x + drift ≤ d) zi
  | Some _ => False
  | None => zi = ∅
  end.

(** The model may hold more, but only leases that have expired whatever the clock does. *)
Definition lease_rel (p : Params) (M : Z) (e : option rentry) (held : gmap string Z) : Prop :=
  ∃ zi, zkey M (LeaseTTLMs p) e zi ∧ drop_expired (M - drift) held = drop_expired (M - drift) zi.

(** The leases the scripts see at time [t]. *)
Definition zset_rel (M ttl t : Z) (e : option rentry) (zi : gmap string Z) : Prop :=
  zset_of (live_at t e) = Some (f64 <$> zi) ∧ map_Forall (λ _ x, 0 ≤ x ≤ M + ttl) zi ∧
  (zi ≠ ∅ → ∃ d, kept_deadline t e = Some d ∧ t < d ∧ map_Forall (λ _ x, x + drift ≤ d) zi).

Lemma drop_expired_twice t t' (held : gmap string Z) : t ≤ t' → drop_expired t' (drop_expired t held) = drop_expired t' held.
Proof. intros Hle. unfold drop_expired. rewrite map_filter_filter. apply map_filter_ext. naive_solver lia. Qed.

Lemma drop_expired_before t t' (held : gmap string Z) : t ≤ t' → drop_expired t (drop_expired t' held) = drop_expired t' held.
Proof. intros Hle. unfold drop_expired. rewrite map_filter_filter. apply map_filter_ext. naive_solver lia. Qed.

Lemma drop_expired_all t (held : gmap string Z) : map_Forall (λ _ x, x ≤ t) held → drop_expired t held = ∅.
Proof. intros Hf. apply map_empty. intros k. apply map_lookup_filter_None_2. right. intros x Hk. specialize (Hf k x Hk). simpl in *. lia. Qed.

Lemma drop_expired_eq t t' (h1 h2 : gmap string Z) : t ≤ t' → drop_expired t h1 = drop_expired t h2 → drop_expired t' h1 = drop_expired t' h2.
Proof. intros Hle Heq. by rewrite <-(drop_expired_twice t t' h1), Heq, drop_expired_twice. Qed.

Lemma zkey_later M M' ttl e zi : M ≤ M' → zkey M ttl e zi → zkey M' ttl e zi.
Proof.
  intros Hle. destruct e as [[[h|z] [d|]]|]; cbn; try done. intros [-> Hx]. split; [done|]. eapply map_Forall_impl; [exact Hx|]. simpl. lia.
Qed.

Lemma lease_rel_later p M M' e held : M ≤ M' → lease_rel p M e held → lease_rel p M' e held.
Proof. intros Hle (zi & Hz & Heq). exists zi. split; [by eapply zkey_later|]. eapply drop_expired_eq; [|exact Heq]. lia. Qed.

(** A key that has expired held nothing that still counts. *)
Lemma zkey_past M ttl t e zi : near M t → zkey M ttl e zi → live_at t e = None → drop_expired (M - drift) zi = ∅.
Proof.
  intros Hn. destruct e as [[[h|z] [d|]]|]; cbn; try done; [|by intros ->]. intros [_ Hx] Hl. destruct (Z.leb_spec d t); [|done].
  apply drop_expired_all. intros k x Hk. specialize (Hx k x Hk). unfold near in Hn. simpl in *. lia.
Qed.

Lemma lease_rel_gone p M t e held : near M t → live_at t e = None → lease_rel p M e held → lease_rel p M None held.
Proof. intros Hn Hl (zi & Hz & Heq). exists ∅. split; [done|]. by rewrite Heq, (zkey_past _ _ _ _ _ Hn Hz Hl). Qed.

Lemma zkey_seen M ttl t e zi : zkey M ttl e zi → is_Some (live_at t e) → zset_rel M ttl t e zi.
Proof.
  destruct e as [[[h|z] [d|]]|]; cbn; try (done || (intros _ [? ?]; done)). intros [-> Hx] [v Hv]. unfold zset_rel. cbn.
  destruct (Z.leb_spec d t); [done|]. split_and!; [done|eapply map_Forall_impl; [exact Hx|]; simpl; lia|].
  intros _. exists d. split_and!; [done|done|]. eapply map_Forall_impl; [exact Hx|]. simpl. lia.
Qed.

Lemma lease_seen p M t e held : near M t → lease_rel p M e held →
  ∃ zi, zset_rel M (LeaseTTLMs p) t e zi ∧ drop_expired (M - drift) held = drop_expired (M - drift) zi.
Proof.
  intros Hn (zi & Hz & Heq). destruct (live_at t e) as [v|] eqn:Hl; [exists zi; split; [apply zkey_seen; [done|by rewrite Hl]|done]|].
  exists ∅. split; [|by rewrite Heq, (zkey_past _ _ _ _ _ Hn Hz Hl)]. split_and!; [by rewrite Hl, fmap_empty|apply map_Forall_empty|done].
Qed.

Lemma filter_f64 t (zi : gmap string Z) :
  exact t → map_Forall (λ _ x, exact x) zi →
  filter (λ ms : string * float64, fle ms.2 (f64 t) = false) (f64 <$> zi) = f64 <$> drop_expired t zi.
Proof.
  intros Ht Hx. apply map_eq. intros k. unfold drop_expired. rewrite lookup_fmap.
  destruct (zi !! k) as [x|] eqn:Hk.
  - specialize (Hx k x Hk). simpl in Hx. destruct (Z.le_gt_cases x t).
    + rewrite (map_lookup_filter_None_2 _ zi) by (right; intros y Hy; simplify_eq; simpl; lia). simpl.
      apply map_lookup_filter_None_2. right. intros y Hy. rewrite lookup_fmap, Hk in Hy. simplify_eq/=. rewrite fle_exact by done. lia.
    + rewrite (map_lookup_filter_Some_2 _ zi k x) by (done || simpl; lia). simpl.
      apply map_lookup_filter_Some_2; [by rewrite lookup_fmap, Hk|]. simpl. rewrite fle_exact by done. lia.
  - rewrite !map_lookup_filter_None_2; [done|by left|left; by rewrite lookup_fmap, Hk].
Qed.

Lemma zset_rel_exact M ttl t e zi : time_bounded M → 0 < ttl ≤ max_time → zset_rel M ttl t e zi → map_Forall (λ _ x, exact x) zi.
Proof.
  intros Ht Httl (_ & Hx & _) k x Hk. specialize (Hx k x Hk). unfold time_bounded, max_time, exact in *. simpl in *. lia.
Qed.

Lemma drop_Forall (P : string → Z → Prop) t m : map_Forall P m → map_Forall P (drop_expired t m).
Proof. intros Hm k x [Hk _]%map_lookup_filter_Some. by apply Hm. Qed.

(** Dropping the expired leases. *)
Lemma prune_rel s M t ttl k zi :
  time_bounded M → time_bounded t → 0 < ttl ≤ max_time → zset_rel M ttl t (view s k) zi →
  zkey M ttl (view (ZREMRANGEBYSCORE s t k (f64 t)) k) (drop_expired t zi) ∧
  zset_rel M ttl t (view (ZREMRANGEBYSCORE s t k (f64 t)) k) (drop_expired t zi) ∧
  ∀ k', k' ≠ k → view (ZREMRANGEBYSCORE s t k (f64 t)) k' = view s k'.
Proof.
  intros HM Ht Httl Hrel. pose proof (zset_rel_exact _ _ _ _ _ HM Httl Hrel) as Hex.
  destruct Hrel as (Hz & Hx & Hk). pose proof (λ k', ZREMRANGEBYSCORE_law s t k (f64 t) _ k' Hz) as Hlaw.
  rewrite Hlaw, decide_True by done. cbv zeta. rewrite filter_f64 by (done || unfold exact, time_bounded, max_time in *; lia).
  split; [|split; [|intros k' Hne; rewrite Hlaw; by rewrite decide_False]]; case_decide as Hemp.
  - by apply fmap_empty_inv in Hemp.
  - destruct Hk as (d & -> & Hlt & Hmax); [intros ->; apply Hemp; unfold drop_expired; by rewrite map_filter_empty, fmap_empty|].
    split; [done|]. apply drop_Forall. intros i x Hi. specialize (Hx i x Hi). specialize (Hmax i x Hi). simpl in *. lia.
  - apply fmap_empty_inv in Hemp. rewrite Hemp. split_and!; [by rewrite fmap_empty|apply map_Forall_empty|done].
  - destruct Hk as (d & -> & Hlt & Hmax); [intros ->; apply Hemp; unfold drop_expired; by rewrite map_filter_empty, fmap_empty|].
    unfold zset_rel. cbn. destruct (Z.leb_spec d t); [lia|]. split_and!; [done|by apply drop_Forall|]. intros _. exists d. split_and!; [done|done|by apply drop_Forall].
Qed.

(** Scores and the deadline a write at [t] gives their key. *)
Lemma prolonged M ttl t (zi : gmap string Z) :
  near M t → 2 * drift ≤ ttl → map_Forall (λ _ x, 0 ≤ x ≤ M + ttl) zi → map_Forall (λ _ x, 0 ≤ x ≤ M + ttl ∧ x + drift ≤ t + ttl * 2) zi.
Proof. intros Hn Hd Hx. eapply map_Forall_impl; [exact Hx|]. unfold near in Hn. simpl. lia. Qed.

(** Adding a lease and prolonging the key. *)
Lemma add_rel s M t ttl k zi id :
  near M t → time_bounded t → 0 < ttl ≤ max_time → 2 * drift ≤ ttl → zset_rel M ttl t (view s k) zi →
  let s' := PEXPIRE (ZADD s t k (fmt0 (f64 (t + ttl))) id) t k (f64 (ttl * 2)) in
  zkey M ttl (view s' k) (<[id := t + ttl]> zi) ∧ ∀ k', k' ≠ k → view s' k' = view s k'.
Proof.
  intros Hn Ht Httl Hd (Hz & Hx & _) s'. unfold time_bounded, max_time in *.
  assert (Hnum : tonumber (fmt0 (f64 (t + ttl))) = Some (f64 (t + ttl))) by (apply tonumber_fmt0; lia).
  pose proof (λ k', ZADD_law s t k _ _ id _ k' Hz Hnum) as Hlaw. set (s1 := ZADD s t k (fmt0 (f64 (t + ttl))) id) in *.
  assert (Hlive : live_at t (view s1 k) = Some (RZset (<[id := f64 (t + ttl)]> (f64 <$> zi)))).
  { rewrite Hlaw, decide_True by done. simpl. unfold kept_deadline. destruct (view s k) as [[v [d|]]|]; [|done..].
    simpl. destruct (Z.leb_spec d t); [done|]. destruct (Z.leb_spec d t); [lia|done]. }
  pose proof (λ k', PEXPIRE_law s1 t k (ttl * 2) _ k' ltac:(lia) Hlive) as Hexp. fold s' in Hexp.
  split; [|intros k' Hne; rewrite Hexp, Hlaw; by rewrite !decide_False].
  rewrite Hexp, decide_True by done. split; [by rewrite fmap_insert|]. apply prolonged; [done|done|].
  apply map_Forall_insert_2; [unfold near in Hn; lia|done].
Qed.

(** ** The acquire script. *)

Definition is_bucket (k : rate_key) : bool := match k with KConcurrency _ => false | _ => true end.

(** Redis holds what the model holds, as far as it can still matter. *)
Record sim (M : Z) (s : store) (m : RateModel) : Prop := {
  sim_ok : model_ok m;
  sim_bucket k : is_bucket k = true → bucket_rel (m_p m) M (view s (key_string k)) (m_buckets m !! key_string k);
  sim_lease tenant : lease_rel (m_p m) M (view s (keyConcurrency tenant)) (tenant_leases m tenant)
}.

Definition leases_small (m : RateModel) : Prop := ∀ tenant, Z.of_nat (size (tenant_leases m tenant)) ≤ MaxQuota.

Lemma sim_later M M' s m : M ≤ M' → sim M s m → sim M' s m.
Proof.
  intros Hle [Hok Hb Hl]. split; [done|intros k Hk; eapply bucket_rel_later; eauto|].
  intros tenant. eapply lease_rel_later; [done|apply Hl].
Qed.

(** The server deletes what has expired. *)
Lemma sim_expire M t s m : near M t → sim M s m → sim M (expire s t) m.
Proof.
  intros Hn [Hok Hb Hl]. split; [done| |].
  - intros k Hk. destruct (expire_law s t (key_string k)) as [->|[Hgone ->]]; [by apply Hb|]. eapply bucket_rel_gone; [apply Hn|done|by apply Hb].
  - intros tenant. destruct (expire_law s t (keyConcurrency tenant)) as [->|[Hgone ->]]; [apply Hl|]. eapply lease_rel_gone; [done|done|apply Hl].
Qed.

(** The call the limiter makes for a request. *)
Definition script_allow (s : store) (time : Z * Z) (p : Params) (r : ModelRequest) : store * (Z * Z * Z) :=
  acquireScript s time (keyRequests (rq_TenantID r)) (keyTokens (rq_TenantID r)) (keyConcurrency (rq_TenantID r))
    (if 0 <? rq_ModelRequestsPerMinute r then keyModel (rq_Model r) else keyModelUnused)
    (mkAcquireArgs 0 (RequestsPerMinute (rq_Limits r)) (TokensPerMinute (rq_Limits r)) (MaxConcurrent (rq_Limits r))
       (rq_ModelRequestsPerMinute r) (rq_Cost r) (BurstSeconds p) (rq_LeaseID r) (LeaseTTLMs p)).

(** Quotas as the limiter clamps them. *)
Definition request_clamped (r : ModelRequest) : Prop :=
  request_bounded r ∧ 0 ≤ RequestsPerMinute (rq_Limits r) ∧ 0 ≤ TokensPerMinute (rq_Limits r) ∧
  0 ≤ MaxConcurrent (rq_Limits r) ≤ MaxQuota ∧ 0 ≤ rq_ModelRequestsPerMinute r.

Definition code_of (l : Limit) : Z :=
  if String.eqb l LimitRequests then 1 else if String.eqb l LimitTokens then 2 else if String.eqb l LimitConcurrency then 3
  else if String.eqb l LimitModel then 4 else 0.

Definition best_rel (best : float64 * float64) (o : Outcome) : Prop :=
  best = (f64 (code_of (o_Limit o)), f64 (o_RetryMs o)) ∧ 0 ≤ o_RetryMs o < 2 ^ 53.

Lemma consider_rel best o l c wait :
  best_rel best o → 0 ≤ wait < 2 ^ 53 → code_of l = c → best_rel (script_consider best (f64 c) (f64 wait)) (consider o l wait).
Proof.
  intros [-> Hr] Hw <-. unfold script_consider, consider. simpl. rewrite flt_exact by exactness.
  by destruct (o_RetryMs o <? wait).
Qed.

(** The part a bucket plays in the answer. *)
Definition use_refusal (m : RateModel) (now : Z) (u : use) : list (Limit * Z) :=
  if (0 <? u_quota u) && lacks m now u then [(u_limit u, wait_of m now u)] else [].

Lemma wait_bound m now u : model_ok m → use_ok u → lacks m now u = true → 0 < wait_of m now u < 2 ^ 53.
Proof.
  intros Hm Hu Hl. split; [by apply shortage_exact|]. destruct Hu as (Hq & Hc & _). unfold lacks in Hl.
  pose proof (level_bounds m (key_string (u_key u)) now (u_quota u) Hm Hq) as Hlev.
  pose proof (need_bounds (m_p m) (u_cost u) (u_quota u) (proj1 Hm) Hq (proj1 Hc)) as Hn.
  pose proof (cap_bounds _ _ (proj1 Hm) Hq) as Hcap. unfold MaxQuota in *. unfold wait_of.
  eapply Z.le_lt_trans; [apply div_mul_le; lia|]. lia.
Qed.

Lemma use_consider best o m now u (wait : float64) :
  model_ok m → best_rel best o → (0 < u_quota u → use_ok u ∧ wait = f64 (if lacks m now u then wait_of m now u else 0)) → exact (u_quota u) →
  best_rel (if flt f0 (f64 (u_quota u)) then if flt f0 wait then script_consider best (f64 (code_of (u_limit u))) wait else best else best)
    (consider_all o (use_refusal m now u)).
Proof.
  intros Hm Hb Hu Hq. rewrite flt_0 by done. unfold use_refusal. destruct (Z.ltb_spec 0 (u_quota u)); [|done].
  destruct Hu as [Hu ->]; [done|]. simpl. destruct (lacks m now u) eqn:Hl; [|done].
  pose proof (wait_bound m now u Hm Hu Hl). rewrite flt_0 by exactness. destruct (Z.ltb_spec 0 (wait_of m now u)); [|lia].
  simpl. by apply consider_rel; [done|lia|].
Qed.

Definition req_use (r : ModelRequest) : use := mkUse LimitRequests (KRequests (rq_TenantID r)) (RequestsPerMinute (rq_Limits r)) 1.
Definition tok_use (r : ModelRequest) : use := mkUse LimitTokens (KTokens (rq_TenantID r)) (TokensPerMinute (rq_Limits r)) (rq_Cost r).
Definition mod_use (r : ModelRequest) : use := mkUse LimitModel (KModel (rq_Model r)) (rq_ModelRequestsPerMinute r) 1.

Lemma refusals_unfold m now r :
  refusals m now r =
  use_refusal m now (req_use r) ++ use_refusal m now (tok_use r) ++
  (if conc_full m now r then [(LimitConcurrency, concurrencyRetryMs)] else []) ++ use_refusal m now (mod_use r).
Proof.
  unfold refusals, uses, all_uses, bucket_refusals, use_refusal, req_use, tok_use, mod_use.
  rewrite !filter_cons, !filter_nil. simpl.
  destruct (Z.ltb_spec 0 (RequestsPerMinute (rq_Limits r))); [rewrite decide_True by done|rewrite decide_False by lia];
  (destruct (Z.ltb_spec 0 (TokensPerMinute (rq_Limits r))); [rewrite decide_True by done|rewrite decide_False by lia]);
  (destruct (Z.ltb_spec 0 (rq_ModelRequestsPerMinute r)); [rewrite decide_True by done|rewrite decide_False by lia]);
  rewrite ?filter_cons, ?filter_nil; simpl; repeat (destruct (lacks m now _); simpl); done.
Qed.

(** Limits that have a code. *)
Definition named (l : Limit) : Prop := l = "" ∨ limitFromCode (code_of l) = l ∧ 0 < code_of l < 5.

Lemma consider_all_named o l : named (o_Limit o) → Forall (λ lw, named lw.1) l → named (o_Limit (consider_all o l)).
Proof.
  intros Ho Hl. revert o Ho. induction Hl as [|[x w] l Hx _ IH]; intros o Ho; [done|]. apply IH. unfold consider. simpl.
  by destruct (_ <? _).
Qed.

Lemma refusals_named m now r : Forall (λ lw, named lw.1) (refusals m now r).
Proof.
  rewrite refusals_unfold. unfold use_refusal. rewrite !Forall_app. split_and!.
  - destruct (_ && _); [|done]. apply Forall_singleton. by right.
  - destruct (_ && _); [|done]. apply Forall_singleton. by right.
  - destruct (conc_full m now r); [|done]. apply Forall_singleton. by right.
  - destruct (_ && _); [|done]. apply Forall_singleton. by right.
Qed.

(** Storing the charge of one use. *)
Lemma store_use s M t m u (c : float64 * float64 * float64 * float64) :
  model_ok m → near M t → drift_ok (m_p m) → exact (u_quota u) →
  (0 < u_quota u → use_ok u ∧ lacks m t u = false ∧
     c = (f64 (level_at m (key_string (u_key u)) t (u_quota u)), f64 (need_of (m_p m) (u_cost u) (u_quota u)),
          f64 (if lacks m t u then wait_of m t u else 0), f64 (stamp m (key_string (u_key u)) t))) →
  bucket_rel (m_p m) M (view s (key_string (u_key u))) (m_buckets m !! key_string (u_key u)) →
  let s' := if flt f0 (f64 (u_quota u)) then script_store s t (f64 (window (m_p m))) (key_string (u_key u)) c.1.1.1 c.1.1.2 c.2 else s in
  (∀ k', k' ≠ key_string (u_key u) → view s' k' = view s k') ∧
  bucket_rel (m_p m) M (view s' (key_string (u_key u))) (if 0 <? u_quota u then Some (charged m t u) else m_buckets m !! key_string (u_key u)).
Proof.
  intros Hm Hnear Hdrift Hex Hu Hrel s'. subst s'. rewrite flt_0 by done. destruct (Z.ltb_spec 0 (u_quota u)) as [Hpos|]; [|done].
  destruct (Hu Hpos) as (Huk & Hl & ->). simpl. destruct Huk as (Hq & Hc & _). unfold lacks in Hl.
  pose proof (level_bounds m (key_string (u_key u)) t (u_quota u) Hm Hq) as Hlev.
  pose proof (need_bounds (m_p m) (u_cost u) (u_quota u) (proj1 Hm) Hq (proj1 Hc)) as Hn.
  pose proof (cap_bounds _ _ (proj1 Hm) Hq) as Hcap. unfold MaxQuota in *. pose proof (window_bounds _ (proj1 Hm)) as HW.
  destruct (bucket_rel_hash _ _ _ _ _ Hnear Hrel) as [h Hh].
  pose proof (λ k', script_store_view s t (m_p m) _ h (level_at m (key_string (u_key u)) t (u_quota u))
    (need_of (m_p m) (u_cost u) (u_quota u)) (stamp m (key_string (u_key u)) t) k' (proj1 Hm) Hh
    ltac:(exactness) ltac:(exactness) ltac:(exactness)) as Hv.
  split; [intros k' Hne; rewrite Hv; by rewrite decide_False|]. rewrite Hv, decide_True by done.
  assert (stamp m (key_string (u_key u)) t ≤ M) as Hst.
  { unfold stamp. unfold near in Hnear. destruct (m_buckets m !! key_string (u_key u)) as [b|]; [|lia].
    destruct (view s (key_string (u_key u))) as [[[h'|z] [d|]]|]; cbn in Hrel; try done; [|lia].
    destruct Hrel as (level & at_ & [= ->] & _ & _ & _ & Hat). simpl. lia. }
  destruct Hdrift as (? & ? & _). unfold charged. apply stored_rel; [done|]. unfold near in Hnear. lia.
Qed.

Lemma use_of_cases r k :
  use_of r k =
  match k with
  | KRequests t => if decide (t = rq_TenantID r) then if 0 <? RequestsPerMinute (rq_Limits r) then Some (req_use r) else None else None
  | KTokens t => if decide (t = rq_TenantID r) then if 0 <? TokensPerMinute (rq_Limits r) then Some (tok_use r) else None else None
  | KConcurrency _ => None
  | KModel m => if decide (m = rq_Model r) then if 0 <? rq_ModelRequestsPerMinute r then Some (mod_use r) else None else None
  end.
Proof.
  unfold use_of, uses, all_uses, req_use, tok_use, mod_use. rewrite !filter_cons, !filter_nil. simpl.
  destruct (Z.ltb_spec 0 (RequestsPerMinute (rq_Limits r))); [rewrite decide_True by done|rewrite decide_False by lia];
  (destruct (Z.ltb_spec 0 (TokensPerMinute (rq_Limits r))); [rewrite decide_True by done|rewrite decide_False by lia]);
  (destruct (Z.ltb_spec 0 (rq_ModelRequestsPerMinute r)); [rewrite decide_True by done|rewrite decide_False by lia]);
  destruct k as [t|t|t|t]; simpl; repeat case_decide; simplify_eq/=; done.
Qed.

Lemma use_ok_pos r : request_bounded r →
  (0 < RequestsPerMinute (rq_Limits r) → use_ok (req_use r)) ∧ (0 < TokensPerMinute (rq_Limits r) → use_ok (tok_use r)) ∧
  (0 < rq_ModelRequestsPerMinute r → use_ok (mod_use r)).
Proof. intros [H1 H2 H3 H4]. unfold use_ok, MaxCost in *. simpl. split_and!; intros; split_and!; (lia || done). Qed.

(** The store after the leases of the tenant are pruned. *)
Definition pruned (s : store) (t : Z) (r : ModelRequest) : store :=
  if 0 <? MaxConcurrent (rq_Limits r) then ZREMRANGEBYSCORE s t (keyConcurrency (rq_TenantID r)) (f64 t) else s.

Lemma pruned_sim s M t m r :
  time_bounded M → time_bounded t → near M t → sim M s m → sim M (pruned s t r) (refuse m t r) ∧
  (0 < MaxConcurrent (rq_Limits r) →
     zset_rel M (LeaseTTLMs (m_p m)) t (view (pruned s t r) (keyConcurrency (rq_TenantID r))) (held_leases m t (rq_TenantID r))).
Proof.
  intros HM Ht Hn [Hok Hb Hl]. unfold pruned, refuse. destruct (Z.ltb_spec 0 (MaxConcurrent (rq_Limits r))) as [Hpos|]; [|split; [|lia]; by destruct m].
  destruct (lease_seen _ _ _ _ _ Hn (Hl (rq_TenantID r))) as (zi & Hz & Heq).
  destruct (prune_rel s M t _ _ zi HM Ht (proj2 (proj1 Hok)) Hz) as (Hk & Hz' & Hoth).
  apply (drop_expired_eq _ t) in Heq; [|apply Hn]. change (drop_expired t (tenant_leases m (rq_TenantID r))) with (held_leases m t (rq_TenantID r)) in Heq.
  rewrite <-Heq in Hz', Hk. split; [|done]. split.
  - exact Hok.
  - intros k Hkb. simpl. rewrite Hoth; [by apply Hb|]. change (keyConcurrency (rq_TenantID r)) with (key_string (KConcurrency (rq_TenantID r))).
    intros ->%key_string_inj. done.
  - intros tenant. unfold tenant_leases. simpl. destruct (decide (tenant = rq_TenantID r)) as [->|Hne].
    + rewrite lookup_alter_eq. exists (held_leases m t (rq_TenantID r)). split; [done|].
      unfold held_leases, tenant_leases. by destruct (m_leases m !! _).
    + assert (keyConcurrency tenant ≠ keyConcurrency (rq_TenantID r)) by (intros ?%keyConcurrency_inj; done).
      rewrite lookup_alter_ne, Hoth by done. apply Hl.
Qed.

(** The best code and wait of the script. *)
Definition script_best (s : store) (t : Z) (p : Params) (r : ModelRequest) (req tok md : float64 * float64 * float64 * float64) : float64 * float64 :=
  let rq := f64 (RequestsPerMinute (rq_Limits r)) in let tq := f64 (TokensPerMinute (rq_Limits r)) in
  let mc := f64 (MaxConcurrent (rq_Limits r)) in let mq := f64 (rq_ModelRequestsPerMinute r) in
  let best := (f0, f0) in
  let best := if flt f0 rq then if flt f0 req.1.2 then script_consider best (f64 1) req.1.2 else best else best in
  let best := if flt f0 tq then if flt f0 tok.1.2 then script_consider best (f64 2) tok.1.2 else best else best in
  let best := if flt f0 mc && fle mc (f64 (ZCARD (pruned s t r) t (keyConcurrency (rq_TenantID r)))) then script_consider best (f64 3) (f64 1000) else best in
  if flt f0 mq then if flt f0 md.1.2 then script_consider best (f64 4) md.1.2 else best else best.

Definition checked (m : RateModel) (t : Z) (u : use) (c : float64 * float64 * float64 * float64) : Prop :=
  0 < u_quota u → use_ok u ∧
    c = (f64 (level_at m (key_string (u_key u)) t (u_quota u)), f64 (need_of (m_p m) (u_cost u) (u_quota u)),
         f64 (if lacks m t u then wait_of m t u else 0), f64 (stamp m (key_string (u_key u)) t)).

Lemma checked_wait m t u c : checked m t u c → 0 < u_quota u → use_ok u ∧ c.1.2 = f64 (if lacks m t u then wait_of m t u else 0).
Proof. intros Hc Hpos. destruct (Hc Hpos) as [? ->]. done. Qed.

Lemma best_full (c : bool) b o :
  best_rel b o → best_rel (if c then script_consider b (f64 3) (f64 1000) else b) (consider_all o (if c then [(LimitConcurrency, concurrencyRetryMs)] else [])).
Proof. destruct c; [|done]. intros Hb. apply (consider_rel b o LimitConcurrency 3 concurrencyRetryMs); [done| |done]. unfold concurrencyRetryMs. lia. Qed.

Lemma script_best_rel s M t m r req tok md :
  time_bounded M → time_bounded t → near M t → sim M s m → request_clamped r →
  leases_small m →
  checked m t (req_use r) req → checked m t (tok_use r) tok → checked m t (mod_use r) md →
  best_rel (script_best s t (m_p m) r req tok md) (consider_all Outcome0 (refusals m t r)).
Proof.
  intros HM Ht Hnear Hs (Hrb & H1 & H2 & H3 & H4) Hsize Hreq Htok Hmod. rewrite refusals_unfold, !consider_all_app. unfold script_best. cbv zeta.
  pose proof Hrb as [B1 B2 B3 _]. unfold MaxQuota in *.
  apply (use_consider _ _ m t (mod_use r)); [apply Hs| |by apply checked_wait|simpl; exactness].
  assert (Hcf : (flt f0 (f64 (MaxConcurrent (rq_Limits r))) &&
      fle (f64 (MaxConcurrent (rq_Limits r))) (f64 (ZCARD (pruned s t r) t (keyConcurrency (rq_TenantID r))))) = conc_full m t r).
  { unfold conc_full. rewrite flt_0 by exactness. destruct (Z.ltb_spec 0 (MaxConcurrent (rq_Limits r))) as [Hpos|]; [|done]. simpl.
    destruct (pruned_sim s M t m r HM Ht Hnear Hs) as [_ Hz].
    rewrite (ZCARD_law _ _ _ _ (proj1 (Hz Hpos))), map_size_fmap.
    pose proof (size_drop_expired t (tenant_leases m (rq_TenantID r))) as Hd. specialize (Hsize (rq_TenantID r)). unfold MaxQuota in Hsize.
    change (drop_expired t (tenant_leases m (rq_TenantID r))) with (held_leases m t (rq_TenantID r)) in Hd. apply fle_exact; exactness. }
  rewrite Hcf. clear Hcf.
  apply best_full.
  apply (use_consider _ _ m t (tok_use r)); [apply Hs| |by apply checked_wait|simpl; exactness].
  apply (use_consider _ _ m t (req_use r)); [apply Hs|split; [done|simpl; lia]|by apply checked_wait|simpl; exactness].
Qed.

(** ** Charging. *)

Definition put (t : Z) (m : RateModel) (s : store) (uc : use * (float64 * float64 * float64 * float64)) : store :=
  let '(u, c) := uc in
  if flt f0 (f64 (u_quota u)) then script_store s t (f64 (window (m_p m))) (key_string (u_key u)) c.1.1.1 c.1.1.2 c.2 else s.

(** What the keys hold after the charge of [u]. *)
Definition put_spec (t : Z) (m : RateModel) (u : use) (B : rate_key → option bucket) (k : rate_key) : option bucket :=
  if decide (k = u_key u) then if 0 <? u_quota u then Some (charged m t u) else B k else B k.

Lemma put_rel M t m s u c B :
  model_ok m → near M t → drift_ok (m_p m) → exact (u_quota u) → checked m t u c → (0 < u_quota u → lacks m t u = false) →
  is_bucket (u_key u) = true → B (u_key u) = m_buckets m !! key_string (u_key u) →
  (∀ k, is_bucket k = true → bucket_rel (m_p m) M (view s (key_string k)) (B k)) →
  (∀ k, is_bucket k = true → bucket_rel (m_p m) M (view (put t m s (u, c)) (key_string k)) (put_spec t m u B k)) ∧
  ∀ tenant, view (put t m s (u, c)) (keyConcurrency tenant) = view s (keyConcurrency tenant).
Proof.
  intros Hm Hn Hd Hex Hc Hl Hk HB Hrel. pose proof (Hrel _ Hk) as Hu. rewrite HB in Hu.
  destruct (store_use s M t m u c Hm Hn Hd Hex) as [Hoth Hown]; [|done|].
  { intros Hpos. destruct (Hc Hpos) as [? ?]. split_and!; auto. }
  fold (put t m s (u, c)) in Hoth, Hown. split.
  - intros k Hkb. unfold put_spec. destruct (decide (k = u_key u)) as [->|Hne]; [by rewrite HB|].
    unfold put. rewrite Hoth by (intros ?%key_string_inj; done). by apply Hrel.
  - intros tenant. unfold put. apply Hoth. change (keyConcurrency tenant) with (key_string (KConcurrency tenant)).
    intros Heq%key_string_inj. by rewrite <-Heq in Hk.
Qed.

Lemma puts_rel M t m s r req tok md :
  model_ok m → near M t → drift_ok (m_p m) → request_clamped r → refusals m t r = [] →
  checked m t (req_use r) req → checked m t (tok_use r) tok → checked m t (mod_use r) md →
  (∀ k, is_bucket k = true → bucket_rel (m_p m) M (view s (key_string k)) (m_buckets m !! key_string k)) →
  let s' := foldl (put t m) s [(req_use r, req); (tok_use r, tok); (mod_use r, md)] in
  (∀ k, is_bucket k = true → bucket_rel (m_p m) M (view s' (key_string k)) (m_buckets (admission m t r) !! key_string k)) ∧
  ∀ tenant, view s' (keyConcurrency tenant) = view s (keyConcurrency tenant).
Proof.
  intros Hm Hnear Hd (Hrb & H1 & H2 & H3 & H4) Hn Hreq Htok Hmod Hrel. pose proof Hrb as [B1 B2 B3 _]. unfold MaxQuota in *.
  assert (Hl : ∀ u, u ∈ all_uses r → 0 < u_quota u → lacks m t u = false).
  { intros u Hu Hpos. apply refusals_nil in Hn as [Hn _]. rewrite Forall_forall in Hn. apply Hn. by apply list_elem_of_filter. }
  cbn [foldl].
  destruct (put_rel M t m s (req_use r) req (λ k, m_buckets m !! key_string k)) as [R1 L1]; try done;
    [simpl; exactness|apply Hl; apply list_elem_of_In; simpl; tauto|].
  destruct (put_rel M t m _ (tok_use r) tok _ Hm Hnear Hd ltac:(simpl; exactness) Htok (Hl (tok_use r) ltac:(apply list_elem_of_In; simpl; tauto)) eq_refl eq_refl R1) as [R2 L2].
  destruct (put_rel M t m _ (mod_use r) md _ Hm Hnear Hd ltac:(simpl; exactness) Hmod (Hl (mod_use r) ltac:(apply list_elem_of_In; simpl; tauto)) eq_refl eq_refl R2) as [R3 L3].
  split; [|intros tenant; by rewrite L3, L2, L1].
  intros k Hk. specialize (R3 k Hk). rewrite (admit_bucket m t r k) by done. rewrite use_of_cases.
  unfold put_spec in R3. destruct k as [x|x|x|x]; simpl in R3; repeat case_decide; simplify_eq; try done;
    repeat match goal with H : context [0 <? ?q] |- _ => destruct (0 <? q) end; done.
Qed.

(** ** The acquire script as a whole. *)

Definition model_key (r : ModelRequest) : string := if 0 <? rq_ModelRequestsPerMinute r then keyModel (rq_Model r) else keyModelUnused.

Definition put_lease (s : store) (t : Z) (p : Params) (r : ModelRequest) : store :=
  if 0 <? MaxConcurrent (rq_Limits r) then
    PEXPIRE (ZADD s t (keyConcurrency (rq_TenantID r)) (fmt0 (f64 (t + LeaseTTLMs p))) (rq_LeaseID r)) t
      (keyConcurrency (rq_TenantID r)) (f64 (LeaseTTLMs p * 2))
  else s.

(** The script in the vocabulary of the lemmas above. *)
Lemma script_allow_shape s time m r :
  params_bounded (m_p m) → clock_ok time → request_clamped r →
  script_allow s time (m_p m) r =
  let t := clock_ms time in
  let chk s u k := script_check s t (f64 t) (f64 (window (m_p m))) k (f64 (u_quota u)) (f64 (u_cost u)) in
  let req := chk s (req_use r) (keyRequests (rq_TenantID r)) in
  let tok := chk s (tok_use r) (keyTokens (rq_TenantID r)) in
  let md := chk (pruned s t r) (mod_use r) (model_key r) in
  let best := script_best s t (m_p m) r req tok md in
  if flt f0 best.1 then (pruned s t r, (0, int_reply best.1, int_reply best.2))
  else (put_lease (foldl (put t m) (pruned s t r) [(req_use r, req); (tok_use r, tok); (mod_use r, md)]) t (m_p m) r, (1, 0, 0)).
Proof.
  intros Hp Hck (Hrb & H1 & H2 & H3 & H4). pose proof (clock_bounded _ Hck) as Ht. pose proof Hrb as [B1 B2 B3 _].
  pose proof (window_bounds _ Hp) as HW. pose proof (proj2 Hp) as Httl. unfold MaxQuota, time_bounded, max_time in *.
  unfold script_allow, acquireScript. cbn [aa_override aa_rq aa_tq aa_mc aa_mq aa_cost aa_burst aa_lease_id aa_lease_ttl].
  rewrite script_now_exact by done. unfold window in *. rewrite (fmul_exact (BurstSeconds (m_p m))) by lia.
  fold (model_key r). rewrite (flt_0 (MaxConcurrent _)) by exactness. cbv zeta. rewrite fadd_exact, (fmul_exact (LeaseTTLMs _)) by exactness.
  fold (pruned s (clock_ms time) r). unfold script_best. cbv zeta. cbn [u_quota u_cost req_use tok_use mod_use foldl].
  rewrite (flt_0 (MaxConcurrent _)) by exactness. fold (window (m_p m)).
  destruct (flt f0 (fst _)); [done|]. f_equal. unfold put_lease. cbn [put u_quota u_key req_use tok_use mod_use key_string].
  unfold model_key. rewrite !(flt_0 (rq_ModelRequestsPerMinute r)) by exactness. destruct (0 <? rq_ModelRequestsPerMinute r); reflexivity.
Qed.

Lemma check_checked s M t m u k :
  model_ok m → time_bounded t → near M t → (0 < u_quota u → use_ok u ∧ k = key_string (u_key u)) →
  (bucket_rel (m_p m) M (view s (key_string (u_key u))) (m_buckets m !! key_string (u_key u))) →
  checked m t u (script_check s t (f64 t) (f64 (window (m_p m))) k (f64 (u_quota u)) (f64 (u_cost u))).
Proof. intros Hm Ht Hn Hk Hrel Hpos. destruct (Hk Hpos) as [Hu ->]. split; [done|]. by apply (script_check_exact s M). Qed.

(** The lease of an admission. *)
Lemma put_lease_sim s M t m r :
  near M t → drift_ok (m_p m) → time_bounded t → params_bounded (m_p m) → model_ok (admission m t r) →
  (∀ k, is_bucket k = true → bucket_rel (m_p m) M (view s (key_string k)) (m_buckets (admission m t r) !! key_string k)) →
  (∀ tenant, lease_rel (m_p m) M (view s (keyConcurrency tenant)) (tenant_leases (refuse m t r) tenant)) →
  (0 < MaxConcurrent (rq_Limits r) →
     zset_rel M (LeaseTTLMs (m_p m)) t (view s (keyConcurrency (rq_TenantID r))) (held_leases m t (rq_TenantID r))) →
  sim M (put_lease s t (m_p m) r) (admission m t r).
Proof.
  intros Hn Hd Ht Hp Hok Hb Hl Hz. unfold put_lease. unfold refuse, tenant_leases in Hl. simpl in Hl.
  destruct (Z.ltb_spec 0 (MaxConcurrent (rq_Limits r))) as [Hpos|Hno].
  - destruct (add_rel s M t _ _ _ (rq_LeaseID r) Hn Ht (proj2 Hp) (proj2 (proj2 Hd)) (Hz Hpos)) as [Hown Hoth]. split; [done| |].
    + intros k Hk. rewrite Hoth; [by apply Hb|]. change (keyConcurrency (rq_TenantID r)) with (key_string (KConcurrency (rq_TenantID r))).
      by intros ->%key_string_inj.
    + intros tenant. unfold tenant_leases, admission. simpl. destruct (Z.ltb_spec 0 (MaxConcurrent (rq_Limits r))); [|lia].
      destruct (decide (tenant = rq_TenantID r)) as [->|Hne].
      * rewrite lookup_insert_eq. simpl. by eexists.
      * assert (keyConcurrency tenant ≠ keyConcurrency (rq_TenantID r)) by (intros ?%keyConcurrency_inj; done).
        rewrite lookup_insert_ne, Hoth by done. specialize (Hl tenant). by rewrite lookup_alter_ne in Hl.
  - split; [done|done|]. intros tenant. unfold tenant_leases, admission. simpl. destruct (Z.ltb_spec 0 (MaxConcurrent (rq_Limits r))); [lia|]. apply Hl.
Qed.

(** One call of the acquire script is one step of the model, with the same answer. *)
Lemma acquire_refines s M time m r :
  clock_ok time → time_bounded M → near M (clock_ms time) → drift_ok (m_p m) → request_clamped r → leases_small m → sim M s m →
  let '(s', (a, c, w)) := script_allow s time (m_p m) r in
  let '(m', o) := Model_Allow m (clock_ms time) r in
  sim M s' m' ∧ a = (if o_Allowed o then 1 else 0) ∧ w = o_RetryMs o ∧ (o_Allowed o = false → limitFromCode c = o_Limit o).
Proof.
  intros Hck HM Hnear Hdrift Hr Hsmall Hs. pose proof (clock_bounded _ Hck) as Ht. set (t := clock_ms time) in *.
  pose proof (sim_ok _ _ _ Hs) as Hm. pose proof Hr as (Hrb & _).
  pose proof (Allow_answer m t r Hm Ht Hrb) as Hans. rewrite (Allow_exact m t r Hm Ht Hrb) in *. cbv zeta in *.
  rewrite script_allow_shape by (done || apply Hm). cbv zeta. fold t.
  destruct (pruned_sim s M t m r HM Ht Hnear Hs) as [Hps Hpz]. destruct (use_ok_pos r Hrb) as (U1 & U2 & U3).
  pose proof (check_checked s M t m (req_use r) (keyRequests (rq_TenantID r)) Hm Ht Hnear (λ H, conj (U1 H) eq_refl) (sim_bucket _ _ _ Hs (KRequests _) eq_refl)) as C1.
  pose proof (check_checked s M t m (tok_use r) (keyTokens (rq_TenantID r)) Hm Ht Hnear (λ H, conj (U2 H) eq_refl) (sim_bucket _ _ _ Hs (KTokens _) eq_refl)) as C2.
  assert (C3 := check_checked (pruned s t r) M t m (mod_use r) (model_key r) Hm Ht Hnear).
  specialize (C3 ltac:(simpl; intros Hpos; split; [by apply U3|unfold model_key; by destruct (Z.ltb_spec 0 (rq_ModelRequestsPerMinute r)); [|lia]])
    (sim_bucket _ _ _ Hps (KModel _) eq_refl)).
  destruct (script_best_rel s M t m r _ _ _ HM Ht Hnear Hs Hr Hsmall C1 C2 C3) as [Hbest Hw]. rewrite Hbest. cbn [fst snd]. clear Hbest.
  set (worst := consider_all Outcome0 (refusals m t r)) in *.
  assert (Hname : named (o_Limit worst)) by (apply consider_all_named; [by left|apply refusals_named]).
  destruct Hname as [Hnone|[Hcode Hrange]].
  - rewrite Hnone in *. simpl in Hans. destruct Hans as [_ (Hn & _ & _)]. simpl. split_and!; [|done..].
    destruct (puts_rel M t m (pruned s t r) r _ _ _ Hm Hnear Hdrift Hr Hn C1 C2 C3 (sim_bucket _ _ _ Hps)) as [HB HL]. cbv zeta in HB, HL.
    apply put_lease_sim; [done|done|done|apply Hm|by apply admit_ok|exact HB| |].
    + intros tenant. rewrite HL. apply Hps.
    + intros Hpos. rewrite HL. by apply Hpz.
  - rewrite flt_0 by exactness. destruct (Z.ltb_spec 0 (code_of (o_Limit worst))); [|lia].
    destruct (String.eqb_spec (o_Limit worst) "") as [He|He]; [rewrite He in Hrange; vm_compute in Hrange; by destruct Hrange|].
    destruct (o_Allowed worst) eqn:Ha; [by destruct Hans as [_ (_ & _ & ?)]|].
    unfold int_reply. rewrite !ftrunc_f64 by lia. by split_and!.
Qed.

(** ** The renew and release scripts. *)

(** The model's renewals of a batch, and how many succeed. *)
Definition renew_step (t : Z) (tenant : string) (mn : RateModel * Z) (id : string) : RateModel * Z :=
  let '(m, ok) := Model_Renew mn.1 t tenant id in (m, if ok then mn.2 + 1 else mn.2).

(** The leases the script's loop sees: their key may not outlive them until the loop is over. *)
Definition zlive (M ttl t : Z) (e : option rentry) (zi : gmap string Z) : Prop :=
  zset_of (live_at t e) = Some (f64 <$> zi) ∧ map_Forall (λ _ x, 0 ≤ x ≤ M + ttl) zi.

(** What stays when only the leases of [tenant] change. *)
Definition frame (tenant : string) (s s' : store) (m m' : RateModel) : Prop :=
  m_p m' = m_p m ∧ m_buckets m' = m_buckets m ∧ (∀ k, k ≠ keyConcurrency tenant → view s' k = view s k) ∧
  ∀ tenant', tenant' ≠ tenant → tenant_leases m' tenant' = tenant_leases m tenant'.

Lemma frame_refl tenant s m : frame tenant s s m m.
Proof. done. Qed.

Lemma frame_trans tenant s1 s2 s3 m1 m2 m3 : frame tenant s1 s2 m1 m2 → frame tenant s2 s3 m2 m3 → frame tenant s1 s3 m1 m3.
Proof.
  intros (P1 & B1 & V1 & L1) (P2 & B2 & V2 & L2). split_and!; [congruence|congruence| |].
  - intros k Hk. by rewrite V2, V1.
  - intros x Hx. by rewrite L2, L1.
Qed.

(** The leases of the tenant decide the rest. *)
Lemma frame_sim M tenant s s' m m' :
  frame tenant s s' m m' → sim M s m → lease_rel (m_p m) M (view s' (keyConcurrency tenant)) (tenant_leases m' tenant) → sim M s' m'.
Proof.
  intros (Hp & Hb & Hv & Hl) [Hok HB HL] Hown. split.
  - unfold model_ok. by rewrite Hp, Hb.
  - intros k Hk. rewrite Hp, Hb, Hv; [by apply HB|]. by intros ->%(key_string_inj k (KConcurrency tenant)).
  - intros tenant'. rewrite Hp. destruct (decide (tenant' = tenant)) as [->|Hne]; [done|].
    rewrite Hl, Hv; [apply HL|by intros ?%keyConcurrency_inj|done].
Qed.

Lemma drop_lookup t (held : gmap string Z) id x : drop_expired t held !! id = Some x ↔ held !! id = Some x ∧ t < x.
Proof. unfold drop_expired. rewrite map_lookup_filter_Some. simpl. naive_solver lia. Qed.

Lemma drop_insert t (held : gmap string Z) id x : t < x → drop_expired t (<[id := x]> held) = <[id := x]> (drop_expired t held).
Proof. intros Hx. unfold drop_expired. apply map_filter_insert_True. simpl. lia. Qed.

Lemma drop_delete t (held : gmap string Z) id : drop_expired t (delete id held) = delete id (drop_expired t held).
Proof. apply map_filter_delete. Qed.

Lemma tenant_alter m tenant f tenant' :
  f ∅ = ∅ ∨ is_Some (m_leases m !! keyConcurrency tenant) →
  tenant_leases (m <| m_leases := alter f (keyConcurrency tenant) (m_leases m) |>) tenant' =
  if decide (tenant' = tenant) then f (tenant_leases m tenant) else tenant_leases m tenant'.
Proof.
  intros Hf. unfold tenant_leases. simpl. destruct (decide (tenant' = tenant)) as [->|Hne].
  - rewrite lookup_alter_eq. destruct (m_leases m !! keyConcurrency tenant) as [h|]; [done|]. simpl. by destruct Hf as [->|[? ?]].
  - rewrite lookup_alter_ne; [done|]. intros ?%keyConcurrency_inj. done.
Qed.

(** One turn of the loop: nothing, or the lease is prolonged on both sides. *)
Lemma renew_one_step M t ttl s m n tenant id zi :
  time_bounded M → near M t → time_bounded t → 0 < ttl ≤ max_time → LeaseTTLMs (m_p m) = ttl → 0 ≤ n → n + 1 < 2 ^ 53 →
  zlive M ttl t (view s (keyConcurrency tenant)) zi → drop_expired t (tenant_leases m tenant) = drop_expired t zi →
  let '(s', x) := renew_one t (f64 t) (f64 ttl) (keyConcurrency tenant) (s, f64 n) id in
  let '(m', n') := renew_step t tenant (m, n) id in
  x = f64 n' ∧
  (s' = s ∧ m' = m ∧ n' = n ∨
   n' = n + 1 ∧ frame tenant s s' m m' ∧ tenant_leases m' tenant = <[id := t + ttl]> (tenant_leases m tenant) ∧
   zlive M ttl t (view s' (keyConcurrency tenant)) (<[id := t + ttl]> zi)).
Proof.
  intros HM [_ Hnear] Ht Httl Hp Hn0 Hn [Hz Hx] Heq. unfold time_bounded, max_time in *. unfold renew_one, renew_step, Model_Renew. cbn [fst snd].
  rewrite (ZSCORE_law _ _ _ _ _ Hz), lookup_fmap. fold (tenant_leases m tenant).
  destruct (drop_expired t zi !! id) as [x|] eqn:Hd.
  - pose proof Hd as Hm. rewrite <-Heq in Hm. apply drop_lookup in Hd as [Hzi Hlt], Hm as [Hm _]. rewrite Hzi, Hm. cbn [fmap option_fmap option_map].
    destruct (Z.leb_spec x t); [lia|]. pose proof (Hx _ _ Hzi) as Hxb. simpl in Hxb.
    rewrite flt_exact by exactness. destruct (Z.ltb_spec t x); [|lia]. rewrite !fadd_exact by exactness. split; [done|]. right.
    assert (Hnum : tonumber (fmt0 (f64 (t + ttl))) = Some (f64 (t + ttl))) by (apply tonumber_fmt0; lia).
    pose proof (λ k', ZADD_XX_law s t (keyConcurrency tenant) _ _ id _ k' Hz Hnum ltac:(rewrite lookup_fmap, Hzi; by eexists)) as Hlaw.
    assert (Hsome : is_Some (m_leases m !! keyConcurrency tenant)).
    { unfold tenant_leases in Hm. by destruct (m_leases m !! keyConcurrency tenant). }
    rewrite Hp, wrap64_small by lia. split_and!; [done| | |].
    + split_and!; [done|done|intros k Hk; rewrite Hlaw; by rewrite decide_False|].
      intros tenant' Hne. rewrite tenant_alter by (by right). by rewrite decide_False.
    + rewrite tenant_alter by (by right). by rewrite decide_True.
    + rewrite Hlaw, decide_True by done. split; [|apply map_Forall_insert_2; [lia|done]]. rewrite fmap_insert.
      destruct (view s (keyConcurrency tenant)) as [[v [d|]]|]; simpl in *; [|done..].
      destruct (Z.leb_spec d t); simpl; [done|]. destruct (Z.leb_spec d t); [lia|done].
  - assert (Hno : ∀ h : gmap string Z, drop_expired t h !! id = None → ∀ x, h !! id = Some x → x ≤ t).
    { intros h Hh x Hhx. destruct (Z.le_gt_cases x t); [done|]. assert (drop_expired t h !! id = Some x) by (by apply drop_lookup). congruence. }
    pose proof (Hno _ Hd) as Hno1. rewrite <-Heq in Hd. pose proof (Hno _ Hd) as Hno2.
    assert ((match tenant_leases m tenant !! id with Some exp => if exp <=? t then (m, false) else
      (m <| m_leases := alter (insert id (wrap64 (t + LeaseTTLMs (m_p m)))) (keyConcurrency tenant) (m_leases m) |>, true) | None => (m, false) end) = (m, false)) as ->.
    { destruct (tenant_leases m tenant !! id) as [e|]; [|done]. specialize (Hno2 e eq_refl). by destruct (Z.leb_spec e t); [|lia]. }
    destruct (zi !! id) as [x|] eqn:Hzi; cbn [fmap option_fmap option_map]; [|split; [done|by left]].
    specialize (Hno1 x eq_refl). pose proof (Hx _ _ Hzi) as Hxb. simpl in Hxb. rewrite flt_exact by exactness.
    destruct (Z.ltb_spec t x); [lia|]. split; [done|by left].
Qed.

Lemma renew_loop M t ttl tenant ids s m n zi :
  time_bounded M → near M t → time_bounded t → 0 < ttl ≤ max_time → LeaseTTLMs (m_p m) = ttl → 0 ≤ n → n + Z.of_nat (length ids) < 2 ^ 53 →
  zlive M ttl t (view s (keyConcurrency tenant)) zi → drop_expired (M - drift) (tenant_leases m tenant) = drop_expired (M - drift) zi →
  let '(s', x) := foldl (renew_one t (f64 t) (f64 ttl) (keyConcurrency tenant)) (s, f64 n) ids in
  let '(m', n') := foldl (renew_step t tenant) (m, n) ids in
  ∃ zi', x = f64 n' ∧ n ≤ n' < 2 ^ 53 ∧ frame tenant s s' m m' ∧ zlive M ttl t (view s' (keyConcurrency tenant)) zi' ∧
    drop_expired (M - drift) (tenant_leases m' tenant) = drop_expired (M - drift) zi' ∧ (n' = n → s' = s ∧ m' = m) ∧ (zi ≠ ∅ ∨ n < n' → zi' ≠ ∅).
Proof.
  intros HM Hnear Ht Httl. revert s m n zi. induction ids as [|id ids IH]; intros s m n zi Hp Hn0 Hn Hz Heq; simpl length in Hn.
  - cbn [foldl]. exists zi. split_and!; try done; [lia|]. intros [?|?]; [done|lia].
  - cbn [foldl]. pose proof (renew_one_step M t ttl s m n tenant id zi HM Hnear Ht Httl Hp Hn0 ltac:(lia) Hz (drop_expired_eq _ t _ _ (proj1 Hnear) Heq)) as Hstep.
    destruct (renew_one _ _ _ _ (s, f64 n) id) as [s1 x]. destruct (renew_step t tenant (m, n) id) as [m1 n1].
    destruct Hstep as [-> [(-> & -> & ->)|(-> & Hfr & Hl & Hz1)]]; [apply IH; (done || lia)|].
    assert (Heq1 : drop_expired (M - drift) (tenant_leases m1 tenant) = drop_expired (M - drift) (<[id := t + ttl]> zi))
      by (rewrite Hl, !drop_insert by (unfold near in Hnear; lia); by rewrite Heq).
    pose proof Hfr as (Hp1 & _). specialize (IH s1 m1 (n + 1) _ ltac:(by rewrite Hp1) ltac:(lia) ltac:(lia) Hz1 Heq1).
    destruct (foldl (renew_one _ _ _ _) (s1, _) ids) as [s' y]. destruct (foldl (renew_step t tenant) (m1, _) ids) as [m' n'].
    destruct IH as (zi' & -> & Hn' & Hfr' & Hz' & Heq' & _ & Hne). exists zi'. split_and!; try done; try lia.
    + by eapply frame_trans.
    + intros _. apply Hne. left. apply insert_non_empty.
Qed.

Lemma renew_refines s M time m tenant ids :
  clock_ok time → time_bounded M → near M (clock_ms time) → drift_ok (m_p m) → Z.of_nat (length ids) < 2 ^ 53 → sim M s m →
  let '(s', n) := renewScript s time (keyConcurrency tenant) 0 (LeaseTTLMs (m_p m)) ids in
  let '(m', n') := foldl (renew_step (clock_ms time) tenant) (m, 0) ids in
  sim M s' m' ∧ n = n'.
Proof.
  intros Hck HM Hnear Hdrift Hlen Hs. pose proof (clock_bounded _ Hck) as Ht. set (t := clock_ms time) in *.
  pose proof (proj2 (proj1 (sim_ok _ _ _ Hs))) as Httl. destruct (lease_seen _ _ _ _ _ Hnear (sim_lease _ _ _ Hs tenant)) as (zi & Hz & Heq).
  unfold renewScript. rewrite script_now_exact by done. fold t. change f0 with (f64 0) at 1.
  pose proof (renew_loop M t _ tenant ids s m 0 zi HM Hnear Ht Httl eq_refl ltac:(lia) Hlen (conj (proj1 Hz) (proj1 (proj2 Hz))) Heq) as Hloop.
  destruct (foldl (renew_one _ _ _ _) _ ids) as [s' x]. destruct (foldl (renew_step t tenant) _ ids) as [m' n'].
  destruct Hloop as (zi' & -> & Hn & Hfr & Hz' & Heq' & Hsame & Hne). rewrite flt_0 by exactness.
  unfold int_reply. rewrite ftrunc_f64 by lia. split; [|done]. destruct (Z.ltb_spec 0 n'); [|by destruct Hsame as [-> ->]; [lia|]].
  unfold time_bounded, max_time in *. rewrite fmul_exact by lia.
  assert (Hlive : live_at t (view s' (keyConcurrency tenant)) = Some (RZset (f64 <$> zi'))).
  { destruct Hz' as [Hz' _]. destruct (live_at t (view s' (keyConcurrency tenant))) as [[h|z]|]; simpl in Hz'; simplify_eq; [done|].
    symmetry in Hz'. apply fmap_empty_inv in Hz'. destruct Hne; [right; lia|done]. }
  pose proof (λ k', PEXPIRE_law s' t (keyConcurrency tenant) (LeaseTTLMs (m_p m) * 2) _ k' ltac:(lia) Hlive) as Hexp.
  apply (frame_sim M tenant s _ m m'); [|done|].
  - destruct Hfr as (F1 & F2 & F3 & F4). split_and!; [done..| |done]. intros k Hk. rewrite Hexp, decide_False by done. by apply F3.
  - exists zi'. split; [|done]. rewrite Hexp, decide_True by done. split; [done|]. apply prolonged; [done|apply Hdrift|apply Hz'].
Qed.

Lemma release_refines s M time m tenant id :
  near M (clock_ms time) → sim M s m →
  sim M (releaseScript s time (keyConcurrency tenant) id).1 (Model_Release m tenant id).1.
Proof.
  intros Hnear Hs. set (t := clock_ms time). destruct (lease_seen _ _ _ _ _ Hnear (sim_lease _ _ _ Hs tenant)) as (zi & (Hz & Hx & Hd) & Heq).
  fold t in Hz, Hd. destruct (ZREM_law s t (keyConcurrency tenant) id _ Hz) as [_ Hv]. unfold releaseScript, Model_Release. fold t. simpl fst.
  apply (frame_sim M tenant s _ m); [|done|].
  - split_and!; [done|done|intros k Hk; rewrite Hv; by rewrite decide_False|].
    intros x Hne. rewrite tenant_alter by (left; apply delete_empty). by rewrite decide_False.
  - rewrite tenant_alter by (left; apply delete_empty). rewrite decide_True by done.
    exists (delete id zi). split; [|by rewrite !drop_delete, Heq]. rewrite Hv, decide_True by done.
    rewrite <-fmap_delete. destruct (decide (f64 <$> delete id zi = ∅)) as [Hemp|Hne]; [by apply fmap_empty_inv in Hemp|].
    assert (zi ≠ ∅) as Hzi by (intros ->; apply Hne; by rewrite delete_empty, fmap_empty).
    destruct (Hd Hzi) as (d & -> & Hlt & Hmax). split; [done|]. apply map_Forall_delete. intros i x Hi.
    specialize (Hx i x Hi). specialize (Hmax i x Hi). simpl in *. lia.
Qed.

(** ** Runs. *)

(** A call of one of the scripts, or a moment at which the server only cleans up. *)
Inductive call := CAllow (r : ModelRequest) | CRenew (tenant : string) (ids : list string) | CRelease (tenant id : string) | CIdle.

(** What the limiter learns from a call; it does not read the reply of a release. *)
Inductive answer := AAllow (allowed : bool) (limit : Limit) (retryMs : Z) | ARenew (renewed : Z) | ARelease | AIdle.

(** The server deletes what has expired whenever it likes: at a call, before it runs, or between
    two calls. *)
Definition script_call (p : Params) (s : store) (time : Z * Z) (c : call) : store * answer :=
  let s := expire s (clock_ms time) in
  match c with
  | CAllow r =>
      let '(s, (a, c, w)) := script_allow s time p r in
      (s, if a =? 1 then AAllow true "" 0 else AAllow false (limitFromCode c) w)
  | CRenew tenant ids => let '(s, n) := renewScript s time (keyConcurrency tenant) 0 (LeaseTTLMs p) ids in (s, ARenew n)
  | CRelease tenant id => ((releaseScript s time (keyConcurrency tenant) id).1, ARelease)
  | CIdle => (s, AIdle)
  end.

Definition model_call (m : RateModel) (t : Z) (c : call) : RateModel * answer :=
  match c with
  | CAllow r => let '(m, o) := Model_Allow m t r in (m, AAllow (o_Allowed o) (o_Limit o) (o_RetryMs o))
  | CRenew tenant ids => let '(m, n) := foldl (renew_step t tenant) (m, 0) ids in (m, ARenew n)
  | CRelease tenant id => ((Model_Release m tenant id).1, ARelease)
  | CIdle => (m, AIdle)
  end.

Fixpoint script_run (p : Params) (s : store) (l : list ((Z * Z) * call)) : list answer :=
  match l with [] => [] | (time, c) :: l => let '(s, a) := script_call p s time c in a :: script_run p s l end.

Fixpoint model_run (m : RateModel) (l : list ((Z * Z) * call)) : list answer :=
  match l with [] => [] | (time, c) :: l => let '(m, a) := model_call m (clock_ms time) c in a :: model_run m l end.

Definition call_ok (c : call) : Prop :=
  match c with CAllow r => request_clamped r | CRenew _ ids => Z.of_nat (length ids) < 2 ^ 53 | CRelease _ _ | CIdle => True end.

(** A clock that steps back by no more than [drift] from the latest time it has shown. *)
Fixpoint steady (M : Z) (l : list Z) : Prop :=
  match l with [] => True | t :: l => M - drift ≤ t ∧ steady (Z.max M t) l end.


Lemma leases_small_mrun m t o :
  model_ok m → time_bounded t → match o with MAllow r => request_clamped r | _ => True end → leases_small m → leases_small (mrun m t o).
Proof.
  intros Hm Ht Ho Hs tenant. apply leases_step; [done|done| | |apply Hs].
  - destruct o; [by destruct Ho|done..].
  - intros r -> _. by destruct Ho as (_ & _ & _ & [_ ?] & _).
Qed.

Lemma renews_ok t tenant ids m n :
  model_ok m → time_bounded t → leases_small m →
  let m' := (foldl (renew_step t tenant) (m, n) ids).1 in model_ok m' ∧ m_p m' = m_p m ∧ leases_small m'.
Proof.
  intros Hm Ht Hs. revert m n Hm Hs. induction ids as [|id ids IH]; intros m n Hm Hs; [done|]. cbn [foldl].
  destruct (mrun_ok m t (MRenew tenant id) Hm Ht I) as [Hm' Hp']. pose proof (leases_small_mrun m t (MRenew tenant id) Hm Ht I Hs) as Hs'.
  destruct (renew_step t tenant (m, n) id) as [m1 n1] eqn:Hst. unfold renew_step in Hst. simpl in *.
  destruct (Model_Renew m t tenant id) as [m1' ok]. simplify_eq/=.
  destruct (IH m1 (if ok then n + 1 else n) Hm' Hs') as (? & ? & ?). by split_and!; [|congruence|].
Qed.

(** One call: the same answer, and the relation is kept. *)
Lemma call_refines s M time m c :
  clock_ok time → time_bounded M → near M (clock_ms time) → drift_ok (m_p m) → call_ok c → leases_small m → sim M s m →
  let '(s', a) := script_call (m_p m) s time c in
  let '(m', a') := model_call m (clock_ms time) c in
  a = a' ∧ sim M s' m' ∧ m_p m' = m_p m ∧ leases_small m'.
Proof.
  intros Hck HM Hnear Hdrift Hc Hsm Hs%(sim_expire _ _ _ _ Hnear). unfold script_call. set (s0 := expire s _) in *. clearbody s0.
  pose proof (clock_bounded _ Hck) as Ht. pose proof (sim_ok _ _ _ Hs) as Hm. destruct c as [r|tenant ids|tenant id|]; simpl in *.
  - pose proof (acquire_refines s0 M time m r Hck HM Hnear Hdrift Hc Hsm Hs) as Ha. pose proof (Allow_answer m _ r Hm Ht (proj1 Hc)) as Hans.
    pose proof (Allow_p m _ r Hm Ht (proj1 Hc)) as Hp. pose proof (leases_small_mrun m _ (MAllow r) Hm Ht Hc Hsm) as Hsm'. simpl in Hsm'.
    destruct (script_allow s0 time (m_p m) r) as [s' [[a c] w]]. destruct (Model_Allow m (clock_ms time) r) as [m' o].
    destruct Ha as (Hs' & -> & -> & Hl). split_and!; [|done..]. destruct Hans as [Hw Hans]. destruct (o_Allowed o); simpl.
    + destruct Hans as (Hn & _ & ->). by rewrite Hw, Hn.
    + by rewrite Hl.
  - pose proof (renew_refines s0 M time m tenant ids Hck HM Hnear Hdrift Hc Hs) as Ha. destruct (renews_ok (clock_ms time) tenant ids m 0 Hm Ht Hsm) as (_ & Hp & Hsm').
    destruct (renewScript _ _ _ _ _ _) as [s' n]. destruct (foldl (renew_step _ _) _ _) as [m' n']. destruct Ha as [Hs' ->]. done.
  - split_and!; [done|by apply release_refines|done|]. apply (leases_small_mrun m (clock_ms time) (MRelease tenant id) Hm Ht I Hsm).
  - done.
Qed.

Lemma near_max M t : 0 ≤ drift → M - drift ≤ t → near (Z.max M t) t.
Proof. unfold near. lia. Qed.

Lemma run_refines l s m M :
  Forall (λ tc, clock_ok tc.1 ∧ call_ok tc.2) l → steady M (clock_ms ∘ fst <$> l) → time_bounded M → drift_ok (m_p m) →
  leases_small m → sim M s m → script_run (m_p m) s l = model_run m l.
Proof.
  revert s m M. induction l as [|[time c] l IH]; intros s m M Hl Hsteady HM Hdrift Hsm Hs; [done|]. cbn [script_run model_run].
  apply Forall_cons in Hl as [[Hck Hc] Hl]. simpl in Hck, Hc. csimpl in Hsteady. destruct Hsteady as [Hback Hsteady].
  pose proof (clock_bounded _ Hck) as Ht. assert (time_bounded (Z.max M (clock_ms time))) as HM' by (unfold time_bounded in *; lia).
  pose proof (call_refines s (Z.max M (clock_ms time)) time m c Hck HM' (near_max _ _ (proj1 Hdrift) Hback) Hdrift Hc Hsm
    (sim_later _ _ _ _ (Z.le_max_l _ _) Hs)) as Hstep.
  destruct (script_call (m_p m) s time c) as [s' a]. destruct (model_call m (clock_ms time) c) as [m' a'].
  destruct Hstep as (-> & Hs' & Hp & Hsm'). f_equal. rewrite <-Hp. apply (IH s' m' (Z.max M (clock_ms time))); (done || by rewrite Hp).
Qed.

(** With no data Redis holds the empty model. *)
Lemma new_linked s p M : params_bounded p → (∀ k, view s k = None) → sim M s (NewModel p) ∧ leases_small (NewModel p).
Proof.
  intros Hp Hempty. split.
  - split; [split; [done|apply map_Forall_empty]| |].
    + intros k _. unfold bucket_rel. simpl. by rewrite Hempty, lookup_empty.
    + intros tenant. exists ∅. rewrite Hempty. split; [done|]. unfold tenant_leases. simpl. by rewrite lookup_empty.
  - intros tenant. unfold tenant_leases. simpl. rewrite lookup_empty. simpl. by rewrite map_size_empty.
Qed.

(** C10: The Lua scripts implement the reference model.  On any Redis that behaves as documented
    and starts with no data, for any sequence of checks, batch renewals and releases within the
    configured bounds, at a server clock that never steps back by more than half a burst window
    or half a lease's life from the latest time it has shown, the doubles the scripts compute
    are exact and every answer (admitted or not, the limit that refused, the wait in
    milliseconds, the number of leases renewed) is the model's, although the server deletes full
    buckets and expired leases, at the calls and between them, that the model keeps. *)
Theorem script_refines_model p s l :
  params_bounded p → drift_ok p → (∀ k, view s k = None) →
  Forall (λ tc, clock_ok tc.1 ∧ call_ok tc.2) l → steady 0 (clock_ms ∘ fst <$> l) →
  script_run p s l = model_run (NewModel p) l.
Proof.
  intros Hp Hdrift Hempty Hl Hsteady. destruct (new_linked s p 0 Hp Hempty) as [Hs Hsm].
  apply (run_refines l s (NewModel p) 0); done.
Qed.
End refine.

(** ** A server. *)

Section server.

Definition upd (s : gmap string rentry) (k : string) (v : rvalue) (t : Z) : gmap string rentry :=
  <[k := mkREntry v (kept_deadline t (s !! k))]> s.

Definition hash_at (s : gmap string rentry) (t : Z) (k : string) : gmap string string := default ∅ (hash_of (live_at t (s !! k))).
Definition zset_at (s : gmap string rentry) (t : Z) (k : string) : gmap string float64 := default ∅ (zset_of (live_at t (s !! k))).

(** A sorted set that is empty is removed. *)
Definition put_zset (s : gmap string rentry) (t : Z) (k : string) (z : gmap string float64) : gmap string rentry :=
  if decide (z = ∅) then delete k s else upd s k (RZset z) t.

Definition text_of (x : float64) : string := of_bytes (itoa (int_reply x)).
Definition number_of (s : string) : option float64 := f64 <$> atoi_go 0 (bytes s).

Lemma itoa_byte fuel n acc : 0 ≤ n → Forall byte acc → Forall byte (itoa_go fuel n acc).
Proof.
  revert n acc. induction fuel as [|fuel IH]; intros n acc Hn Ha; [done|]. simpl. destruct (Z.ltb_spec n 10).
  - constructor; [unfold byte; lia|done].
  - apply IH; [apply Z.div_pos; lia|]. constructor; [|done]. unfold byte. assert (0 ≤ n mod 10 < 10) by (apply Z.mod_pos_bound; lia). lia.
Qed.

Lemma number_text z : 0 ≤ z < 2 ^ 53 → number_of (text_of (f64 z)) = Some (f64 z).
Proof.
  intros Hz. unfold number_of, text_of, int_reply. rewrite ftrunc_f64 by done. simpl default.
  rewrite bytes_of_bytes by (apply itoa_byte; [lia|constructor]). by rewrite atoi_itoa by lia.
Qed.

Lemma lookup_upd s k v t k' : upd s k v t !! k' = if decide (k' = k) then Some (mkREntry v (kept_deadline t (s !! k))) else s !! k'.
Proof. unfold upd. case_decide; [subst; by rewrite lookup_insert_eq|by rewrite lookup_insert_ne]. Qed.

Lemma lookup_put_zset s t k z k' :
  put_zset s t k z !! k' =
  if decide (k' = k) then if decide (z = ∅) then None else Some (mkREntry (RZset z) (kept_deadline t (s !! k))) else s !! k'.
Proof.
  unfold put_zset. destruct (decide (z = ∅)); [|apply lookup_upd].
  case_decide; [subst; by rewrite lookup_delete_eq|by rewrite lookup_delete_ne].
Qed.

Definition pexpire (s : gmap string rentry) (t : Z) (k : string) (ms : float64) : gmap string rentry :=
  match live_at t (s !! k) with Some v => <[k := mkREntry v (Some (t + int_reply ms))]> s | None => s end.

Definition zadd (xx : bool) (s : gmap string rentry) (t : Z) (k score member : string) : gmap string rentry :=
  match number_of score with
  | Some x =>
      if xx && bool_decide (zset_at s t k !! member = None) then s else upd s k (RZset (<[member := x]> (zset_at s t k))) t
  | None => s
  end.

#[local] Program Instance map_server : RedisServer := {|
  store := gmap string rentry;
  view s k := s !! k;
  expire s t := filter (λ ke : string * rentry, is_Some (live_at t (Some ke.2))) s;
  fmt0 := text_of;
  tonumber := number_of;
  HMGET s t k f := hash_at s t k !! f;
  HSET s t k fs := upd s k (RHash (list_to_map fs ∪ hash_at s t k)) t;
  PEXPIRE := pexpire;
  ZREMRANGEBYSCORE s t k max := put_zset s t k (filter (λ ms : string * float64, fle ms.2 max = false) (zset_at s t k));
  ZCARD s t k := Z.of_nat (size (zset_at s t k));
  ZADD := zadd false;
  ZADD_XX := zadd true;
  ZSCORE s t k member := zset_at s t k !! member;
  ZREM s t k member :=
    (put_zset s t k (delete member (zset_at s t k)), if decide (is_Some (zset_at s t k !! member)) then 1 else 0)
|}.
Next Obligation. intros. by apply number_text. Qed.
Next Obligation. intros s t k f h Hh. unfold hash_at. by rewrite Hh. Qed.
Next Obligation. intros s t k fs h k' Hh. unfold hash_at. rewrite Hh. apply lookup_upd. Qed.
Next Obligation.
  intros s t k ms v k' Hms Hv. unfold pexpire. simpl in *. rewrite Hv. unfold int_reply. rewrite ftrunc_f64 by lia. simpl.
  case_decide; [subst; by rewrite lookup_insert_eq|by rewrite lookup_insert_ne].
Qed.
Next Obligation. intros s t k max z k' Hz. unfold zset_at. rewrite Hz. apply lookup_put_zset. Qed.
Next Obligation. intros s t k z Hz. unfold zset_at. by rewrite Hz. Qed.
Next Obligation. intros s t k score x member z k' Hz Hx. unfold zadd, zset_at. simpl in Hx. rewrite Hz, Hx. apply lookup_upd. Qed.
Next Obligation.
  intros s t k score x member z k' Hz Hx [y Hy]. unfold zadd, zset_at. simpl in Hx. rewrite Hz, Hx. simpl. rewrite Hy. apply lookup_upd.
Qed.
Next Obligation. intros s t k member z Hz. unfold zset_at. by rewrite Hz. Qed.
Next Obligation. intros s t k member z Hz. unfold zset_at. simpl in *. rewrite Hz. split; [done|]. intros k'. apply lookup_put_zset. Qed.
Next Obligation.
  intros s t k. simpl. destruct (s !! k) as [e|] eqn:Hk; [|left; apply map_lookup_filter_None_2; by left].
  destruct (live_at t (Some e)) as [v|] eqn:Hl; [left|right; split; [done|]].
  - apply map_lookup_filter_Some_2; [done|]. by exists v.
  - apply map_lookup_filter_None_2. right. intros e' Hk' [v Hv]. simplify_eq. change (live_at t (Some e) = Some v) in Hv. congruence.
Qed.

(** The clock steps back by 29 seconds after the third call. *)
Definition ex_calls : list ((Z * Z) * call) :=
  [((1, 500000), CAllow (ex_lease "a")); ((1, 600000), CAllow (ex_lease "b")); ((31, 0), CAllow (ex_lease "c"));
   ((2, 0), CRenew "acme" ["a"; "z"]); ((62, 0), CAllow (ex_rq 600)); ((40, 0), CAllow (ex_rq 600)); ((63, 0), CAllow (ex_lease "d"));
   ((64, 0), CRelease "acme" "a"); ((150, 0), CIdle); ((151, 0), CAllow (ex_lease "e"))].

Lemma ex_drift_ok : drift_ok 30000 ex_params.
Proof. unfold drift_ok, window. simpl. lia. Qed.

Lemma script_refines_model_witness :
  @script_run map_server ex_params (∅ : gmap string rentry) ex_calls =
  [AAllow true "" 0; AAllow true "" 0; AAllow false "concurrency" 1000; ARenew 1; AAllow true "" 0; AAllow false "tokens" 12000;
   AAllow true "" 0; ARelease; AIdle; AAllow true "" 0].
Proof.
  transitivity (model_run (NewModel ex_params) ex_calls); [|vm_compute; reflexivity].
  apply (@script_refines_model map_server 30000 ex_params (∅ : gmap string rentry) ex_calls).
  - exact ex_params_bounded.
  - exact ex_drift_ok.
  - intros k. apply lookup_empty.
  - unfold ex_calls, clock_ok, call_ok, request_clamped, ex_lease, ex_rq, MaxQuota, max_time, clock_ms.
    repeat (constructor; [cbn [fst snd rq_Limits RequestsPerMinute TokensPerMinute MaxConcurrent rq_ModelRequestsPerMinute length];
      split_and!; try exact I; try (vm_compute; intros; discriminate); try lia; try (split; vm_compute; done)|]). constructor.
  - repeat split; vm_compute; discriminate.
Defined.

(** The bound on the steps is needed.  After a step back of five minutes the key of a bucket
    expires, by the stepped-back clock, while the level it holds is stamped with the later time:
    the scripts admit a second full burst where the model still refuses. *)
Definition ex_step : list ((Z * Z) * call) :=
  [((1000, 0), CAllow (ex_rq 600)); ((700, 0), CAllow (ex_rq 400)); ((900, 0), CAllow (ex_rq 600))].

Example clock_step_diverges :
  @script_run map_server ex_params (∅ : gmap string rentry) ex_step = [AAllow true "" 0; AAllow true "" 0; AAllow true "" 0] ∧
  model_run (NewModel ex_params) ex_step = [AAllow true "" 0; AAllow true "" 0; AAllow false "tokens" 36000].
Proof. split; vm_compute; reflexivity. Qed.
End server.
