(* ===== verification/RedisClient.v ===== *)
(** * The Redis client's health tracking (internal/redis/client.go, metrics.go)

    Calls go to Redis until one fails; then Redis is left alone for a backoff, after which one
    call at a time probes it.  A call is two steps of the client, [admit] before the driver is
    called and the handling of the reply after, each under the client's mutex; any number of
    calls overlap.  The driver (go-redis) is not modelled: its replies are inputs. *)

From Stdlib Require Import Ascii String.
From S2P Require Import Prelude GoString.

Local Open Scope string_scope.
Local Open Scope list_scope.
Local Open Scope Z_scope.

(** ** Errors.

    A Go error is its text, the sentinels [errors.Is] finds in its chain, and what [errors.As]
    finds: a [net.Error] with its [Timeout()], an error reply of Redis. *)

Record GoError := mkGoError { err_text : string; err_is : list string; err_net : option bool; err_reply : bool }.

#[global] Instance GoError_eq_dec : EqDecision GoError.
Proof. solve_decision. Defined.

Definition errors_New (text : string) : GoError := mkGoError text [] None false.
Definition errors_Is (e : GoError) (sentinel : string) : bool := existsb (String.eqb sentinel) (err_is e).

Definition ErrBackoff : GoError := mkGoError "redis: unavailable, backing off after a recent failure" ["redis.ErrBackoff"] None false.
Definition ErrBusy : GoError := mkGoError "redis: no free connection in the pool" ["redis.ErrBusy"] None false.

Inductive ErrorKind := errTimeout | errConnection | errScript | errOther.

#[global] Instance ErrorKind_eq_dec : EqDecision ErrorKind.
Proof. solve_decision. Defined.

Definition classify (e : GoError) : ErrorKind :=
  if errors_Is e "context.DeadlineExceeded" || match err_net e with Some t => t | None => false end then errTimeout
  else if errors_Is e "io.EOF" || errors_Is e "io.ErrUnexpectedEOF" || errors_Is e "net.ErrClosed" || errors_Is e "goredis.ErrClosed"
          || errors_Is e "syscall.ECONNREFUSED" || errors_Is e "syscall.ECONNRESET" || errors_Is e "syscall.EPIPE"
          || bool_decide (is_Some (err_net e)) then errConnection
  else if err_reply e then errScript
  else errOther.

(** ** The client. *)

Inductive LogLine := LogUnavailable (error : string) | LogRecovered (outage : Z).

Record Client := mkClient {
  c_secret : string;
  c_backoff : Z;
  c_errs : ErrorKind → Z;
  c_down : bool;
  c_downUntil : Time;
  c_probing : bool;
  c_since : Time
}.

#[global] Instance eta_Client : Settable Client :=
  {| eta_of := λ c, mkClient (c_secret c) (c_backoff c) (c_errs c) (c_down c) (c_downUntil c) (c_probing c) (c_since c) |}.

(** [New], for the options the driver parsed. *)
Definition New (secret : string) (backoff : Z) : Client :=
  mkClient secret (if backoff <=? 0 then Second else backoff) (λ _, 0) false zeroTime false zeroTime.

Definition noteError (c : Client) (err : option GoError) : Client :=
  match err with
  | None => c
  | Some e =>
      if errors_Is e "redis.ErrBackoff" || errors_Is e "redis.ErrBusy" || errors_Is e "goredis.Nil" then c
      else c <| c_errs := λ k, if decide (k = classify e) then c_errs c k + 1 else c_errs c k |>
  end.

Definition Down (c : Client) (now : Time) : bool * Z :=
  if negb (c_down c) then (false, 0)
  else let d := Sub (c_downUntil c) now in if 0 <? d then (true, d) else (true, 0).

Definition RetryAfter (c : Client) (now : Time) : Z :=
  let d := (Down c now).2 in if 0 <? d then d else c_backoff c.

(** [admit]: the error, or whether the call is a probe. *)
Definition admitCall (c : Client) (now : Time) : Client * (GoError + bool) :=
  if negb (c_down c) then (c, inr false)
  else if Before now (c_downUntil c) || c_probing c then (c, inl ErrBackoff)
  else (c <| c_probing := true |>, inr true).

Definition callDone (c : Client) (now : Time) (probe : bool) (err : option GoError) : Client * list LogLine :=
  let c := if probe then c <| c_probing := false |> else c in
  let c := noteError c err in
  match err with
  | Some e =>
      let '(c, log) :=
        if negb (c_down c) then (c <| c_down := true |> <| c_since := now |>, [LogUnavailable (err_text e)]) else (c, []) in
      (c <| c_downUntil := Add now (c_backoff c) |>, log)
  | None =>
      if c_down c then (c <| c_down := false |>, [LogRecovered (Sub now (c_since c))]) else (c, [])
  end.

Definition settle (c : Client) (probe : bool) : Client := if probe then c <| c_probing := false |> else c.

(** ** Secrets. *)

Fixpoint has_prefix (p l : list Z) : bool :=
  match p, l with
  | [], _ => true
  | x :: p, y :: l => (x =? y) && has_prefix p l
  | _ :: _, [] => false
  end.

Fixpoint contains (p l : list Z) : bool := has_prefix p l || match l with [] => false | _ :: l => contains p l end.

(** [strings.ReplaceAll] for a non-empty pattern: from the left, without overlaps; [skip] bytes
    of a match remain to be dropped. *)
Fixpoint replace_go (p new : list Z) (skip : nat) (l : list Z) : list Z :=
  match l with
  | [] => []
  | c :: l =>
      match skip with
      | S skip => replace_go p new skip l
      | O => if has_prefix p (c :: l) then new ++ replace_go p new (length p - 1) l else c :: replace_go p new 0 l
      end
  end.

Definition ReplaceAll (s old new : string) : string := of_bytes (replace_go (bytes old) (bytes new) 0 (bytes s)).

Definition scrub (c : Client) (err : option GoError) : option GoError :=
  match err with
  | None => None
  | Some e =>
      if String.eqb (c_secret c) "" || negb (contains (bytes (c_secret c)) (bytes (err_text e))) then Some e
      else Some (errors_New (ReplaceAll (err_text e) (c_secret c) "<redacted>"))
  end.

(** ** Replies. *)

(** A value the driver decoded. *)
Inductive any := AInt (n : Z) | AText (s : string) | AArray (l : list any) | ANil.

(** The name Go prints for the dynamic type. *)
Definition type_name (v : any) : string :=
  match v with AInt _ => "int64" | AText _ => "string" | AArray _ => "[]interface {}" | ANil => "<nil>" end.

Definition Itoa (n : Z) : string := of_bytes (itoa n).

Fixpoint ints_go (i : Z) (l : list any) : list Z + GoError :=
  match l with
  | [] => inl []
  | AInt n :: l => match ints_go (i + 1) l with inl ns => inl (n :: ns) | inr e => inr e end
  | v :: _ => inr (errors_New ("redis: script returned " ++ type_name v ++ " at " ++ Itoa i ++ ", want an integer"))
  end.

Definition ints (res : any) (want : Z) : list Z + GoError :=
  match res with
  | AArray l =>
      if Z.of_nat (length l) =? want then ints_go 0 l
      else inr (errors_New ("redis: script returned " ++ Itoa (Z.of_nat (length l)) ++ " values, want " ++ Itoa want))
  | v => inr (errors_New ("redis: script returned " ++ type_name v ++ ", want an array"))
  end.

(** The end of [Run]: what the driver answered to a call that was let through at [probe]. *)
Definition Run_reply (c : Client) (now : Time) (probe : bool) (want : Z) (reply : any + GoError) : Client * list LogLine * (list Z + GoError) :=
  let res := match reply with inl v => ints v want | inr e => inr e end in
  match res with
  | inl out => let '(c, log) := callDone c now probe None in (c, log, inl out)
  | inr e =>
      if errors_Is e "goredis.ErrPoolTimeout" then (settle c probe, [], inr ErrBusy)
      else
        let err := scrub c (Some e) in
        let '(c, log) := callDone c now probe err in
        (c, log, inr (default e err))
  end.

(** [Run] for a driver that answers [reply]; [now'] is the clock at the reply. *)
Definition Run (c : Client) (now : Time) (want : Z) (reply : any + GoError) (now' : Time) : Client * list LogLine * (list Z + GoError) :=
  match admitCall c now with
  | (c, inl e) => (c, [], inr e)
  | (c, inr probe) => Run_reply c now' probe want reply
  end.

(** [Set], best effort: it neither starts nor extends a backoff. *)
Definition Client_Set (c : Client) (now : Time) (result : option GoError) : Client * option GoError :=
  if (Down c now).1 then (c, Some ErrBackoff)
  else let err := scrub c result in (noteError c err, err).

(** ** Overlapping calls.

    The calls in flight (is each a probe), the log so far, and the time of the last failure. *)

Record Calls := mkCalls { cs_c : Client; cs_calls : list bool; cs_log : list LogLine; cs_failed : option Time }.

Inductive cop := CBegin | CReply (i : nat) (want : Z) (reply : any + GoError) | CSet (result : option GoError).

(** A failure of Redis: not a full pool of the gateway's own. *)
Definition is_failure (r : list Z + GoError) (reply : any + GoError) : bool :=
  match r, reply with
  | inl _, _ => false
  | inr _, inr e => negb (errors_Is e "goredis.ErrPoolTimeout")
  | inr _, inl _ => true
  end.

Definition crun (s : Calls) (now : Time) (o : cop) : Calls :=
  match o with
  | CBegin =>
      match admitCall (cs_c s) now with
      | (c, inl _) => mkCalls c (cs_calls s) (cs_log s) (cs_failed s)
      | (c, inr probe) => mkCalls c (cs_calls s ++ [probe]) (cs_log s) (cs_failed s)
      end
  | CReply i want reply =>
      match cs_calls s !! i with
      | None => s
      | Some probe =>
          let '(c, log, r) := Run_reply (cs_c s) now probe want reply in
          mkCalls c (delete i (cs_calls s)) (cs_log s ++ log) (if is_failure r reply then Some now else cs_failed s)
      end
  | CSet result => mkCalls (Client_Set (cs_c s) now result).1 (cs_calls s) (cs_log s) (cs_failed s)
  end.

Inductive creach (c0 : Client) : Time → Calls → Prop :=
| creach_new t : creach c0 t (mkCalls c0 [] [] None)
| creach_step t now s o : creach c0 t s → clock_le t now → creach c0 now (crun s now o).

(** One line when an outage begins and one when it ends; [down] says which comes next. *)
Fixpoint alternates (down : bool) (log : list LogLine) : option bool :=
  match log with
  | [] => Some down
  | LogUnavailable _ :: log => if down then None else alternates true log
  | LogRecovered _ :: log => if down then alternates false log else None
  end.

Lemma alternates_app down log log' : alternates down (log ++ log') = match alternates down log with Some d => alternates d log' | None => None end.
Proof. revert down. induction log as [|[e|d] log IH]; intros [|]; simpl; auto. Qed.

Record calls_ok (s : Calls) : Prop := {
  ck_probe : countb id (cs_calls s) = if c_probing (cs_c s) then 1 else 0;
  ck_log : alternates false (cs_log s) = Some (c_down (cs_c s));
  ck_failed : c_down (cs_c s) = true → ∃ t, cs_failed s = Some t ∧ c_downUntil (cs_c s) = Add t (c_backoff (cs_c s))
}.

Lemma noteError_same c err :
  c_down (noteError c err) = c_down c ∧ c_downUntil (noteError c err) = c_downUntil c ∧ c_probing (noteError c err) = c_probing c ∧
  c_backoff (noteError c err) = c_backoff c ∧ c_since (noteError c err) = c_since c.
Proof. unfold noteError. destruct err as [e|]; [|done]. by destruct (_ || _). Qed.

Lemma countb_delete (l : list bool) (i : nat) (b : bool) : l !! i = Some b → countb id (delete i l) = countb id l - (if b then 1 else 0).
Proof.
  revert i. induction l as [|x l IH]; intros i Hi; [done|]. destruct i as [|i]; simpl in *.
  - simplify_eq. rewrite countb_cons. destruct b; simpl; lia.
  - rewrite !countb_cons, (IH i Hi). lia.
Qed.

(** What the end of a call leaves: no probe of its own, and the state its outcome asks for. *)
Lemma callDone_spec c now probe err :
  let '(c', log) := callDone c now probe err in
  c_probing c' = (if probe then false else c_probing c) ∧ c_backoff c' = c_backoff c ∧
  alternates (c_down c) log = Some (c_down c') ∧ c_down c' = bool_decide (is_Some err) ∧
  (is_Some err → c_downUntil c' = Add now (c_backoff c)).
Proof.
  unfold callDone. set (c1 := if probe then c <| c_probing := false |> else c).
  assert (H1 : c_probing c1 = (if probe then false else c_probing c) ∧ c_backoff c1 = c_backoff c ∧ c_down c1 = c_down c).
  { subst c1. by destruct probe. }
  destruct H1 as (Hp & Hb & Hd). destruct (noteError_same c1 err) as (N1 & N2 & N3 & N4 & N5).
  set (c2 := noteError c1 err) in *. clearbody c2.
  destruct err as [e|]; simpl.
  - rewrite N1, Hd. destruct (c_down c) eqn:Hdown; simpl; rewrite ?N1, ?N3, ?N4, ?Hd; split_and!; try congruence; done.
  - rewrite N1, Hd. destruct (c_down c) eqn:Hdown; simpl; split_and!; try congruence; try done; by intros [? ?].
Qed.

Lemma Run_reply_spec c now probe want reply :
  let '(c', log, r) := Run_reply c now probe want reply in
  c_probing c' = (if probe then false else c_probing c) ∧ c_backoff c' = c_backoff c ∧
  alternates (c_down c) log = Some (c_down c') ∧
  (c_down c' = true → if is_failure r reply then c_downUntil c' = Add now (c_backoff c) else c_down c = true ∧ c_downUntil c' = c_downUntil c).
Proof.
  unfold Run_reply. set (res := match reply with inl v => ints v want | inr e => inr e end).
  destruct res as [out|e] eqn:Hres.
  - pose proof (callDone_spec c now probe None) as Hd. destruct (callDone c now probe None) as [c' log].
    destruct Hd as (? & ? & ? & Hdn & ?). split_and!; try done. rewrite Hdn. done.
  - destruct (errors_Is e "goredis.ErrPoolTimeout") eqn:Hpool.
    + assert (is_failure (inr ErrBusy) reply = false) as ->.
      { subst res. destruct reply as [v|e']; simplify_eq; simpl; [|by rewrite Hpool].
        exfalso. clear - Hres Hpool. assert (errors_Is e "goredis.ErrPoolTimeout" = false); [|congruence].
        assert (Hgo : ∀ l i, ints_go i l = inr e → errors_Is e "goredis.ErrPoolTimeout" = false).
        { induction l as [|[n|x|x|] l IH]; intros i Hi; simpl in Hi; simplify_eq; try done.
          destruct (ints_go (i + 1) l) eqn:Hl; simplify_eq. by eapply IH. }
        destruct v as [n|x|l|]; simpl in Hres; simplify_eq; try done. case_match; [by eapply Hgo|by simplify_eq]. }
      unfold settle. destruct probe; simpl; split_and!; done.
    + assert (is_failure (inr (default e (scrub c (Some e)))) reply = true) as Hf.
      { subst res. destruct reply as [v|e']; simplify_eq; simpl; [done|]. by rewrite Hpool. }
      pose proof (callDone_spec c now probe (scrub c (Some e))) as Hd.
      assert (is_Some (scrub c (Some e))) as Hs by (unfold scrub; destruct (_ || _); eauto).
      destruct (callDone c now probe _) as [c' log]. destruct Hd as (? & ? & ? & Hdn & Hun). rewrite Hf. split_and!; try done. auto.
Qed.

Lemma begin_ok s now : calls_ok s → calls_ok (crun s now CBegin).
Proof.
  intros [Hp Hl Hf]. simpl. unfold admitCall. destruct (c_down (cs_c s)) eqn:Hd; simpl.
  - destruct (Before now _ || c_probing (cs_c s)) eqn:Hb; [split; simpl; rewrite ?Hd; done|].
    apply orb_false_iff in Hb as [_ Hpr]. rewrite Hpr in Hp. split; simpl; [by rewrite countb_app, Hp|by rewrite Hd|by rewrite Hd].
  - split; simpl; [|by rewrite Hd|by rewrite Hd]. rewrite countb_app, Hp. simpl. destruct (c_probing (cs_c s)); done.
Qed.

Lemma reply_ok s now i want reply : calls_ok s → calls_ok (crun s now (CReply i want reply)).
Proof.
  intros Hok. simpl. destruct (cs_calls s !! i) as [probe|] eqn:Hi; [|done]. destruct Hok as [Hp Hl Hf].
  pose proof (Run_reply_spec (cs_c s) now probe want reply) as Hr. destruct (Run_reply (cs_c s) now probe want reply) as [[c' log] r].
  destruct Hr as (R1 & R2 & R3 & R4). split; simpl.
  - rewrite (countb_delete _ _ _ Hi), Hp, R1. destruct probe; [|destruct (c_probing (cs_c s)); lia].
    assert (0 < countb id (cs_calls s)) as Hpos; [|destruct (c_probing (cs_c s)); lia].
    rewrite <-(take_drop_middle _ _ _ Hi), countb_app, countb_cons. pose proof (countb_nonneg id (take i (cs_calls s))).
    pose proof (countb_nonneg id (drop (S i) (cs_calls s))). simpl. lia.
  - rewrite alternates_app, Hl. done.
  - intros Hd. specialize (R4 Hd). rewrite R2. destruct (is_failure r reply); [by eexists|].
    destruct R4 as [Hdown ->]. by apply Hf.
Qed.

Lemma crun_ok s now o : calls_ok s → calls_ok (crun s now o).
Proof.
  destruct o as [|i want reply|result]; [apply begin_ok|apply reply_ok|]. intros [Hp Hl Hf]. simpl. unfold Client_Set.
  destruct (Down (cs_c s) now) as [[] d]; simpl; [by split|].
  destruct (noteError_same (cs_c s) (scrub (cs_c s) result)) as (N1 & N2 & N3 & N4 & _). split; simpl.
  - by rewrite N3.
  - by rewrite N1.
  - by rewrite N1, N2, N4.
Qed.

Lemma creach_ok secret backoff t s : creach (New secret backoff) t s → calls_ok s.
Proof. induction 1 as [t|t now s o _ IH Hle]; [by split|by apply crun_ok]. Qed.

(** Redis is left alone after a failure, and probed by one call at a time.  However calls
    overlap and whatever Redis answers, at most one probe is in flight; a call is let through
    exactly when there is no outage, or when the backoff since the last failure is over and no
    probe is in flight, and then it is the probe; every other call fails at once with
    [ErrBackoff].  The log has one line at the start and one at the end of each outage. *)
Theorem one_probe_per_backoff secret backoff t s now :
  creach (New secret backoff) t s →
  let '(c', r) := admitCall (cs_c s) now in
  countb id (cs_calls s) ≤ 1 ∧
  (match r with
   | inr probe =>
       probe = c_down (cs_c s) ∧
       (probe = true → countb id (cs_calls s) = 0 ∧ ∃ t, cs_failed s = Some t ∧ mono t + c_backoff (cs_c s) ≤ mono now)
   | inl e =>
       e = ErrBackoff ∧ c' = cs_c s ∧ c_down (cs_c s) = true ∧
       (countb id (cs_calls s) = 1 ∨ ∃ t, cs_failed s = Some t ∧ mono now < mono t + c_backoff (cs_c s))
   end) ∧
  alternates false (cs_log s) = Some (c_down (cs_c s)).
Proof.
  intros Hr%creach_ok. destruct Hr as [Hp Hl Hf]. unfold admitCall.
  assert (countb id (cs_calls s) ≤ 1) as Hle by (rewrite Hp; destruct (c_probing (cs_c s)); lia).
  destruct (c_down (cs_c s)) eqn:Hd; simpl; [|by split_and!].
  destruct (Hf eq_refl) as (tf & Htf & Hu). destruct (Before now (c_downUntil (cs_c s))) eqn:Hb; simpl.
  - split_and!; [done..| |done]. right. exists tf. split; [done|]. unfold Before in Hb. rewrite Hu in Hb. simpl in Hb. lia.
  - destruct (c_probing (cs_c s)); [by split_and!; [..|left|]|]. split_and!; [done|done| |done]. intros _. split; [done|].
    exists tf. split; [done|]. unfold Before in Hb. rewrite Hu in Hb. simpl in Hb. lia.
Qed.

(** ** Secrets stay out of errors. *)

(** An occurrence of [p] at the head of the output is one in the input. *)
Lemma replace_prefix p0 new p l : new ≠ [] → Forall (λ c, c ∉ new) p → has_prefix p (replace_go p0 new 0 l) = true → has_prefix p l = true.
Proof.
  intros Hnew Hp. revert l. induction Hp as [|x p Hx _ IH]; intros l Hpre; [by destruct l|]. destruct l as [|c l]; [done|].
  cbn [replace_go] in Hpre. destruct (has_prefix p0 (c :: l)).
  - destruct new as [|n new]; [done|]. simpl in Hpre. apply andb_true_iff in Hpre as [He%Z.eqb_eq _]. set_solver.
  - simpl in *. apply andb_true_iff in Hpre as [-> Hpre]. simpl. by apply IH.
Qed.

Lemma contains_skip p new l : p ≠ [] → Forall (λ c, c ∉ new) p → contains p (new ++ l) = contains p l.
Proof.
  intros Hne Hp. destruct p as [|x p]; [done|]. apply Forall_cons in Hp as [Hx _].
  induction new as [|n new IH]; [done|]. simpl. destruct (Z.eqb_spec x n); [set_solver|]. simpl. apply IH. set_solver.
Qed.

Lemma replace_clean p new k l : p ≠ [] → new ≠ [] → Forall (λ c, c ∉ new) p → contains p (replace_go p new k l) = false.
Proof.
  intros Hne Hnew Hp. revert k. induction l as [|c l IH]; intros k; [by destruct p|]. destruct k as [|k]; cbn [replace_go]; [|apply IH].
  destruct (has_prefix p (c :: l)) eqn:Hpre; [by rewrite contains_skip|].
  cbn [contains]. rewrite IH, orb_false_r. destruct (has_prefix p (c :: replace_go p new 0 l)) eqn:Hout; [|done].
  enough (has_prefix p (c :: l) = true) by congruence. apply (replace_prefix p new); [done|done|]. cbn [replace_go]. by rewrite Hpre.
Qed.

Lemma replace_bytes p new k l : Forall byte new → Forall byte l → Forall byte (replace_go p new k l).
Proof.
  intros Hnew Hl. revert k. induction Hl as [|c l Hc _ IH]; intros k; [constructor|]. destruct k; cbn [replace_go]; [|apply IH].
  destruct (has_prefix p (c :: l)); [apply Forall_app; auto|constructor; auto].
Qed.

(** The password does not leak through errors.  Whatever error the driver reports, the text of
    the error [Run] and [Set] return does not contain the password, provided no byte of the
    password is one of those of "<redacted>" (otherwise the marker itself could spell it). *)
Theorem scrub_hides c err e :
  c_secret c ≠ "" → Forall (λ b, b ∉ bytes "<redacted>") (bytes (c_secret c)) → scrub c err = Some e →
  contains (bytes (c_secret c)) (bytes (err_text e)) = false.
Proof.
  intros Hne Hdis Hs. unfold scrub in Hs. destruct err as [e0|]; [|done]. destruct (String.eqb_spec (c_secret c) "") as [|_]; [done|].
  simpl in Hs. destruct (contains (bytes (c_secret c)) (bytes (err_text e0))) eqn:Hc; simpl in Hs; [|by simplify_eq].
  injection Hs as <-. cbn [err_text errors_New]. unfold ReplaceAll.
  rewrite bytes_of_bytes by (apply replace_bytes; apply bytes_are_bytes). apply replace_clean; [|done|done].
  intros Hb. apply Hne. by rewrite <-(of_bytes_bytes (c_secret c)), Hb.
Qed.

Lemma scrub_hides_witness :
  let c := New "s3k" Second in
  scrub c (Some (errors_New "AUTH s3ks3k failed")) = Some (errors_New "AUTH <redacted><redacted> failed") ∧
  contains (bytes (c_secret c)) (bytes "AUTH <redacted><redacted> failed") = false.
Proof.
  cbv zeta. assert (scrub (New "s3k" Second) (Some (errors_New "AUTH s3ks3k failed")) = Some (errors_New "AUTH <redacted><redacted> failed")) as Hs
    by (vm_compute; reflexivity).
  split; [exact Hs|]. apply (scrub_hides _ _ (errors_New "AUTH <redacted><redacted> failed")) in Hs; [exact Hs|done|].
  apply Forall_forall. intros b Hb. apply list_elem_of_In in Hb. vm_compute in Hb. 
  repeat destruct Hb as [<-|Hb]; [..|done]; intros Hin%list_elem_of_In; vm_compute in Hin; repeat destruct Hin as [Hin|Hin]; done.
Defined.

(** ** An instance: a failure, a refused call, a probe. *)

Definition ex_refused : GoError := mkGoError "dial tcp: connection refused" ["syscall.ECONNREFUSED"] (Some false) false.
Definition at_ms (n : Z) : Time := mkTime (n * Millisecond) (n * Millisecond).

Definition ex_outage : Calls :=
  foldl (λ s no, crun s no.1 no.2) (mkCalls (New "s3cret" Second) [] [] None)
    [(at_ms 0, CBegin); (at_ms 5, CReply 0 3 (inr ex_refused)); (at_ms 100, CBegin); (at_ms 1005, CBegin)].

Lemma one_probe_per_backoff_witness :
  cs_calls ex_outage = [true] ∧ (admitCall (cs_c ex_outage) (at_ms 1010)).2 = inl ErrBackoff ∧ countb id (cs_calls ex_outage) ≤ 1.
Proof.
  split; [vm_compute; reflexivity|]. split; [vm_compute; reflexivity|].
  assert (creach (New "s3cret" Second) (at_ms 1005) ex_outage) as Hr.
  { unfold ex_outage. cbn [foldl fst snd]. 
    apply (creach_step _ (at_ms 100)); [|split; vm_compute; discriminate].
    apply (creach_step _ (at_ms 5)); [|split; vm_compute; discriminate].
    apply (creach_step _ (at_ms 0)); [|split; vm_compute; discriminate].
    apply (creach_step _ (at_ms 0)); [apply creach_new|split; vm_compute; discriminate]. }
  pose proof (one_probe_per_backoff "s3cret" Second (at_ms 1005) ex_outage (at_ms 1010) Hr) as Hw.
  destruct (admitCall (cs_c ex_outage) (at_ms 1010)) as [c' r]. exact (proj1 Hw).
Defined.
