(* ===== verification/Limiter.v ===== *)
(** * The Redis rate limiter (internal/ratelimit/redis.go, limiter.go)

    [RedisLimiter] runs the Lua scripts through the Redis client and adds what they cannot: the
    choice of what to do when Redis cannot answer, the table of leases this gateway holds, their
    renewal, and a bounded queue of releases.  [Allow] is split where it calls Redis, because
    other calls run meanwhile: [Allow_begin] up to the call, [Allow_end] from its reply. *)

From Stdlib Require Import Ascii String.
From S2P Require Import Prelude GoFloat GoString Cost RateLimit RateScript RedisClient.

Local Open Scope string_scope.
Local Open Scope list_scope.
Local Open Scope Z_scope.

(** ** Requests, decisions and errors (limiter.go). *)

Record LimitRequest := mkLimitRequest { lr_TenantID : string; lr_Model : string; lr_Cost : Z; lr_Limits : Limits }.

(** [Decision.Release]: nothing, or the function that gives a lease back. *)
Inductive Releaser := noopRelease | releaser (tenant id : string).

Record Decision := mkDecision { d_Allowed : bool; d_Limit : Limit; d_RetryAfter : Z; d_Bypassed : bool; d_Release : Releaser }.

Definition ErrUnavailable : GoError := mkGoError "ratelimit: unavailable" ["ratelimit.ErrUnavailable"] None false.
Definition ErrLeaseCapacity : GoError :=
  mkGoError "ratelimit: unavailable: too many leases are held by this gateway" ["ratelimit.ErrLeaseCapacity"; "ratelimit.ErrUnavailable"] None false.
Definition errBadName : GoError :=
  mkGoError "ratelimit: unavailable: the tenant or model name is not usable as a key" ["ratelimit.errBadName"; "ratelimit.ErrUnavailable"] None false.

Record UnavailableError := mkUnavailableError { ue_RetryAfter : Z; ue_Cause : GoError }.

(** [errors.Is] sees [ErrUnavailable] and the chain of the cause through [Unwrap]. *)
Definition Unavailable_Is (e : UnavailableError) (sentinel : string) : bool :=
  errors_Is ErrUnavailable sentinel || errors_Is (ue_Cause e) sentinel.

Definition ceilSeconds (d : Z) : Z :=
  let s := Z.quot ((d +! Second)%go -! 1)%go Second in if s <? 1 then 1 else s.

Definition Decision_RetryAfterSeconds (d : Decision) : Z := ceilSeconds (d_RetryAfter d).
Definition Unavailable_RetryAfterSeconds (e : UnavailableError) : Z := ceilSeconds (ue_RetryAfter e).

(** ** Configuration. *)

Definition FailClosed : string := "closed".
Definition FailOpen : string := "open".

Record LimiterConfig := mkLimiterConfig {
  lc_OnFailure : string; lc_BurstSeconds : Z; lc_LeaseTTL : Z; lc_MaxLocalLeases : Z; lc_Models : gmap string Z; lc_Clock : bool
}.

#[global] Instance eta_LimiterConfig : Settable LimiterConfig :=
  {| eta_of := λ c, mkLimiterConfig (lc_OnFailure c) (lc_BurstSeconds c) (lc_LeaseTTL c) (lc_MaxLocalLeases c) (lc_Models c) (lc_Clock c) |}.

Definition DefaultBurstSeconds : Z := 60.
Definition DefaultLeaseTTL : Z := 60 * Second.
Definition DefaultMaxLocalLeases : Z := 100000.
Definition releaseQueueSize : Z := 4096.
Definition renewChunk : nat := 500.

Record releaseJob := mkReleaseJob { j_tenant : string; j_id : string }.

Record RedisLimiter := mkRedisLimiter {
  l_c : Client;
  l_cfg : LimiterConfig;
  l_leases : gmap string string;
  l_releaseQ : list releaseJob;
  l_dropped : Z;
  l_closed : bool
}.

#[global] Instance eta_RedisLimiter : Settable RedisLimiter :=
  {| eta_of := λ l, mkRedisLimiter (l_c l) (l_cfg l) (l_leases l) (l_releaseQ l) (l_dropped l) (l_closed l) |}.

(** The texts of errors are given without the values they quote. *)
Definition NewRedis (c : Client) (cfg : LimiterConfig) : RedisLimiter + GoError :=
  let cfg := if String.eqb (lc_OnFailure cfg) "" then cfg <| lc_OnFailure := FailClosed |> else cfg in
  if negb (String.eqb (lc_OnFailure cfg) FailClosed) && negb (String.eqb (lc_OnFailure cfg) FailOpen)
  then inr (errors_New "ratelimit: unknown failure mode")
  else
  let cfg := if lc_BurstSeconds cfg =? 0 then cfg <| lc_BurstSeconds := DefaultBurstSeconds |> else cfg in
  if (lc_BurstSeconds cfg <? 1) || (MaxBurstSeconds <? lc_BurstSeconds cfg) then inr (errors_New "ratelimit: burst seconds must be in 1-3600")
  else
  let cfg := if lc_LeaseTTL cfg =? 0 then cfg <| lc_LeaseTTL := DefaultLeaseTTL |> else cfg in
  if lc_LeaseTTL cfg <? 3 * Millisecond then inr (errors_New "ratelimit: lease ttl is too short")
  else
  let cfg := if lc_MaxLocalLeases cfg =? 0 then cfg <| lc_MaxLocalLeases := DefaultMaxLocalLeases |> else cfg in
  if lc_MaxLocalLeases cfg <? 1 then inr (errors_New "ratelimit: max local leases must be positive")
  else if existsb (λ mn : string * Z, negb (validKeyPart mn.1)) (map_to_list (lc_Models cfg)) then inr (errors_New "ratelimit: a model name is too long")
  else
  let models := omap (λ n, if 0 <? n then Some (Z.min n MaxQuota) else None) (lc_Models cfg) in
  inl (mkRedisLimiter c (cfg <| lc_Models := models |>) ∅ [] 0 false).

(** ** The check. *)

Definition clampQuota (n : Z) : Z := if n <? 0 then 0 else if MaxQuota <? n then MaxQuota else n.

(** [clock] is what [Config.Clock] reads, for a limiter that has one. *)
Definition nowOverride (l : RedisLimiter) (clock : Z) : Z := if lc_Clock (l_cfg l) then clock else 0.

(** [time.Duration.Milliseconds]. *)
Definition Milliseconds (d : Z) : Z := Z.quot d Millisecond.

Definition forget (l : RedisLimiter) (id : string) : RedisLimiter :=
  if String.eqb id "" then l else l <| l_leases := delete id (l_leases l) |>.

Definition failed (l : RedisLimiter) (now : Time) (err : GoError) : Decision + UnavailableError :=
  if String.eqb (lc_OnFailure (l_cfg l)) FailOpen && negb (errors_Is err "ratelimit.ErrLeaseCapacity")
  then inl (mkDecision true "" 0 true noopRelease)
  else
    let retry := RetryAfter (l_c l) now in
    if errors_Is err "redis.ErrBusy"
    then inr (mkUnavailableError Second (mkGoError ("ratelimit: unavailable: " ++ err_text err) ["ratelimit.ErrUnavailable"] None false))
    else inr (mkUnavailableError retry err).

(** The limits as they are checked: clamped, and none without a tenant. *)
Definition checked_limits (r : LimitRequest) : Limits :=
  if String.eqb (lr_TenantID r) "" then mkLimits 0 0 0
  else mkLimits (clampQuota (RequestsPerMinute (lr_Limits r))) (clampQuota (TokensPerMinute (lr_Limits r))) (clampQuota (MaxConcurrent (lr_Limits r))).

Definition model_quota (l : RedisLimiter) (r : LimitRequest) : Z := default 0 (lc_Models (l_cfg l) !! lr_Model r).

Definition checked_cost (r : LimitRequest) : Z := Z.max 0 (Z.min (lr_Cost r) MaxCost).

(** A script call on the wire: KEYS and ARGV. *)
Inductive RedisCall :=
| CallAcquire (k1 k2 k3 k4 : string) (a : AcquireArgs)
| CallRenew (key : string) (override ttl : Z) (ids : list string)
| CallRelease (key id : string).

(** What [Allow] does before it calls Redis: an answer, or the call with the lease it reserved. *)
Inductive AllowStart := Answered (res : Decision + UnavailableError) | Calling (leaseID : string) (call : RedisCall).

Definition acquire_call (l : RedisLimiter) (r : LimitRequest) (clock : Z) (leaseID : string) : RedisCall :=
  let lim := checked_limits r in
  let modelKey := if 0 <? model_quota l r then keyModel (lr_Model r) else keyModelUnused in
  CallAcquire (keyRequests (lr_TenantID r)) (keyTokens (lr_TenantID r)) (keyConcurrency (lr_TenantID r)) modelKey
    (mkAcquireArgs (nowOverride l clock) (RequestsPerMinute lim) (TokensPerMinute lim) (MaxConcurrent lim) (model_quota l r)
       (checked_cost r) (lc_BurstSeconds (l_cfg l)) leaseID (Milliseconds (lc_LeaseTTL (l_cfg l)))).

Definition Allow_begin (l : RedisLimiter) (now : Time) (r : LimitRequest) (newID : string) (clock : Z) : RedisLimiter * AllowStart :=
  let lim := checked_limits r in
  if Limits_None lim && (model_quota l r =? 0) then (l, Answered (inl (mkDecision true "" 0 false noopRelease)))
  else if negb (validKeyPart (lr_TenantID r)) || ((0 <? model_quota l r) && negb (validKeyPart (lr_Model r)))
  then (l, Answered (failed l now errBadName))
  else if 0 <? MaxConcurrent lim then
    if lc_MaxLocalLeases (l_cfg l) <=? Z.of_nat (size (l_leases l))
    then (l, Answered (inr (mkUnavailableError Second ErrLeaseCapacity)))
    else (l <| l_leases := <[newID := lr_TenantID r]> (l_leases l) |>, Calling newID (acquire_call l r clock newID))
  else (l, Calling "" (acquire_call l r clock "")).

(** What it does with the reply ([Run] returns three integers or an error). *)
Definition Allow_end (l : RedisLimiter) (now : Time) (r : LimitRequest) (leaseID : string) (res : list Z + GoError)
  : RedisLimiter * (Decision + UnavailableError) :=
  match res with
  | inr err => let l := forget l leaseID in (l, failed l now err)
  | inl res =>
      if nth 0 res 0 =? 1 then
        (l, inl (mkDecision true "" 0 false (if String.eqb leaseID "" then noopRelease else releaser (lr_TenantID r) leaseID)))
      else
        (forget l leaseID,
         inl (mkDecision false (limitFromCode (nth 1 res 0)) (nth 2 res 0 *! Millisecond)%go false noopRelease))
  end.

(** ** Releases. *)

Definition enqueue (l : RedisLimiter) (j : releaseJob) : RedisLimiter :=
  if l_closed l then l <| l_dropped := l_dropped l + 1 |>
  else if Z.of_nat (length (l_releaseQ l)) <? releaseQueueSize then l <| l_releaseQ := l_releaseQ l ++ [j] |>
  else l <| l_dropped := l_dropped l + 1 |>.

(** The first call of the function [releaser] returns; later calls do nothing ([sync.Once]). *)
Definition run_releaser (l : RedisLimiter) (tenant id : string) : RedisLimiter := enqueue (forget l id) (mkReleaseJob tenant id).

(** The end of doRelease, from the reply to its call. *)
Definition doRelease_end (l : RedisLimiter) (res : list Z + GoError) : RedisLimiter :=
  match res with inl _ => l | inr _ => l <| l_dropped := l_dropped l + 1 |> end.

Definition release_call (j : releaseJob) : RedisCall := CallRelease (keyConcurrency (j_tenant j)) (j_id j).

(** A worker (or Close) takes the oldest job. *)
Definition next_release (l : RedisLimiter) : RedisLimiter * option releaseJob :=
  match l_releaseQ l with [] => (l, None) | j :: q => (l <| l_releaseQ := q |>, Some j) end.

Definition Limiter_Close (l : RedisLimiter) : RedisLimiter := l <| l_closed := true |>.

(** ** Renewal. *)

Section renewal.
Context `{GoMapOrder}.

Definition group_lease (byTenant : gmap string (list string)) (it : string * string) : gmap string (list string) :=
  <[it.2 := default [] (byTenant !! it.2) ++ [it.1]]> byTenant.

Definition by_tenant (l : RedisLimiter) : gmap string (list string) := foldl group_lease ∅ (range_map (l_leases l)).

(** The inner loop of renewAll: chunks of at most [renewChunk] ids; a chunk has at least one, so
    the length is enough fuel. *)
Fixpoint renew_chunks (fuel : nat) (ids : list string) : list (list string) :=
  match ids, fuel with
  | [], _ => []
  | _, O => []
  | _, S fuel => let n := Nat.min (length ids) renewChunk in take n ids :: renew_chunks fuel (drop n ids)
  end.

Definition tenant_calls (l : RedisLimiter) (clock : Z) (ti : string * list string) : list RedisCall :=
  CallRenew (keyConcurrency ti.1) (nowOverride l clock) (Milliseconds (lc_LeaseTTL (l_cfg l))) <$> renew_chunks (length ti.2) ti.2.

(** The calls renewAll makes, until its context ends. *)
Definition renewAll (l : RedisLimiter) (clock : Z) : list RedisCall := range_map (by_tenant l) ≫= tenant_calls l clock.
End renewal.

(** ** Calls at the server. *)

Section calls.
Context `{RedisServer}.

(** What the server does with a call at the time [time], and the integers it replies. *)
Definition serve (s : store) (time : Z * Z) (c : RedisCall) : store * list Z :=
  match c with
  | CallAcquire k1 k2 k3 k4 a => let '(s, (ok, code, wait)) := acquireScript s time k1 k2 k3 k4 a in (s, [ok; code; wait])
  | CallRenew key override ttl ids => let '(s, n) := renewScript s time key override ttl ids in (s, [n])
  | CallRelease key id => let '(s, n) := releaseScript s time key id in (s, [n])
  end.

(** The reply lengths NewScript declares. *)
Definition reply_len (c : RedisCall) : Z := match c with CallAcquire _ _ _ _ _ => 3 | _ => 1 end.

(** [Client.Run] when the network does its part: the client's guard, the server, the client's
    handling of the reply. *)
Definition Run_served (c : Client) (s : store) (now : Time) (time : Z * Z) (call : RedisCall) (now' : Time)
  : Client * store * (list Z + GoError) :=
  match admitCall c now with
  | (c, inl e) => (c, s, inr e)
  | (c, inr probe) =>
      let '(s, ns) := serve s time call in
      let '(c, _, res) := Run_reply c now' probe (reply_len call) (inl (AArray (AInt <$> ns))) in
      (c, s, res)
  end.
End calls.
