(* ===== verification/LimiterSpec.v ===== *)
(** * What the Redis rate limiter guarantees

    The failure modes, the renewal of every held lease, the table of leases under any
    interleaving of calls, and, composing the limiter with the scripts and the client, that a
    limiter on a healthy Redis decides as the reference model does. *)

From Stdlib Require Import Ascii String.
From S2P Require Import Prelude GoFloat FloatExact GoString Cost RateLimit RateKeys RateSpec RateScript RateRefine RedisClient Limiter.

Local Open Scope string_scope.
Local Open Scope list_scope.
Local Open Scope Z_scope.

(** ** Failure modes. *)

Definition mode_ok (l : RedisLimiter) : Prop := lc_OnFailure (l_cfg l) = FailClosed ∨ lc_OnFailure (l_cfg l) = FailOpen.

(** Nothing limits the request. *)
Definition unlimited (l : RedisLimiter) (r : LimitRequest) : bool := Limits_None (checked_limits r) && (model_quota l r =? 0).

Lemma retry_positive c now : 0 < c_backoff c → 0 < RetryAfter c now.
Proof. intros Hb. unfold RetryAfter. destruct (Z.ltb_spec 0 (Down c now).2); lia. Qed.

(** What [failed] answers in each mode. *)
Lemma failed_spec l now e :
  mode_ok l → 0 < c_backoff (l_c l) →
  match failed l now e with
  | inl d => lc_OnFailure (l_cfg l) = FailOpen ∧ d = mkDecision true "" 0 true noopRelease
  | inr u => (lc_OnFailure (l_cfg l) = FailClosed ∨ errors_Is e "ratelimit.ErrLeaseCapacity" = true) ∧
      Unavailable_Is u "ratelimit.ErrUnavailable" = true ∧ 0 < ue_RetryAfter u
  end.
Proof.
  intros Hm Hb. unfold failed. destruct Hm as [Hm|Hm]; rewrite Hm; simpl.
  - destruct (errors_Is e "redis.ErrBusy"); (split; [by left|]); (split; [done|]); simpl; [unfold Second; lia|by apply retry_positive].
  - destruct (errors_Is e "ratelimit.ErrLeaseCapacity") eqn:Hcap; simpl; [|done].
    destruct (errors_Is e "redis.ErrBusy"); (split; [by right|]); (split; [done|]); simpl; [unfold Second; lia|by apply retry_positive].
Qed.

(** Whether the gateway keeps the lease [id] for the answer. *)
Definition keeps_lease (a : Decision + UnavailableError) : bool :=
  match a with inl d => match d_Release d with releaser _ _ => true | noopRelease => false end | inr _ => false end.

(** The answer to a reply, and what is left of the reservation. *)
Lemma Allow_end_spec l l2 now' r lid res :
  mode_ok l → l_cfg l2 = l_cfg l → 0 < c_backoff (l_c l2) →
  (∀ e, res = inr e → errors_Is e "ratelimit.ErrLeaseCapacity" = false) →
  let '(l3, a) := Allow_end l2 now' r lid res in
  (match a with
   | inl d => d_Allowed d = true → d_Bypassed d = false → ∃ ns, res = inl ns ∧ nth 0 ns 0 = 1
   | inr u => Unavailable_Is u "ratelimit.ErrUnavailable" = true ∧ 0 < ue_RetryAfter u ∧ lc_OnFailure (l_cfg l) ≠ FailOpen
   end) ∧
  (match a with inl d => d_Bypassed d = true → lc_OnFailure (l_cfg l) = FailOpen ∧ d_Allowed d = true | inr _ => True end) ∧
  (keeps_lease a = true → lid ≠ "") ∧ l3 = if keeps_lease a then l2 else forget l2 lid.
Proof.
  intros Hm Hcfg Hb2 Hres. unfold Allow_end. destruct res as [ns|e].
  - destruct (Z.eqb_spec (nth 0 ns 0) 1) as [H1|H1]; [|by split_and!].
    destruct (String.eqb_spec lid ""); simpl; split_and!; try done; [by exists ns|by subst lid|by exists ns].
  - assert (l_cfg (forget l2 lid) = l_cfg l ∧ l_c (forget l2 lid) = l_c l2) as [Hc1 Hc2] by (unfold forget; by destruct (String.eqb lid "")).
    pose proof (failed_spec (forget l2 lid) now' e) as Hf. unfold mode_ok in Hf. rewrite Hc1, Hc2 in Hf. specialize (Hf Hm Hb2).
    destruct (failed _ now' e) as [d|u]; simpl.
    + destruct Hf as [Ho ->]. by split_and!.
    + rewrite (Hres e eq_refl) in Hf. destruct Hf as ([Hc|?] & Hs & Hp); [|done]. rewrite Hc. by split_and!.
Qed.

(** C29: A check that Redis cannot answer follows the failure mode.  Whatever the reply and
    whatever happened to the limiter while the call was out: a closed limiter admits a request
    only if nothing limits it or the script admitted it, and otherwise reports an error that is
    [ErrUnavailable] with a positive wait; an open one refuses only what the script refused,
    marks every unchecked admission as bypassed, and reports an error only when the gateway
    holds its maximum of leases.  A reservation survives exactly when the request was admitted
    with a lease. *)
Theorem failure_modes l now r id clock l2 now' res :
  mode_ok l → id ≠ "" → l_cfg l2 = l_cfg l → 0 < c_backoff (l_c l) → 0 < c_backoff (l_c l2) →
  (∀ e, res = inr e → errors_Is e "ratelimit.ErrLeaseCapacity" = false) →
  let '(l1, st) := Allow_begin l now r id clock in
  let '(l3, a) := match st with Answered a => (l1, a) | Calling lid _ => Allow_end l2 now' r lid res end in
  (match a with
   | inl d =>
       d_Allowed d = true → d_Bypassed d = false →
       unlimited l r = true ∨ ∃ ns, res = inl ns ∧ nth 0 ns 0 = 1
   | inr u =>
       Unavailable_Is u "ratelimit.ErrUnavailable" = true ∧ 0 < ue_RetryAfter u ∧
       (lc_OnFailure (l_cfg l) = FailOpen → ue_Cause u = ErrLeaseCapacity ∧ lc_MaxLocalLeases (l_cfg l) ≤ Z.of_nat (size (l_leases l)))
   end) ∧
  (match a with inl d => d_Bypassed d = true → lc_OnFailure (l_cfg l) = FailOpen ∧ d_Allowed d = true | inr _ => True end) ∧
  (match st with
   | Answered _ => l1 = l ∧ keeps_lease a = false
   | Calling lid _ =>
       (lid = "" ∧ l1 = l ∧ l3 = l2 ∧ keeps_lease a = false) ∨
       (lid = id ∧ l_leases l1 = <[id := lr_TenantID r]> (l_leases l) ∧
        l_leases l3 = (if keeps_lease a then l_leases l2 else delete id (l_leases l2)))
   end).
Proof.
  intros Hm Hid Hcfg Hb Hb2 Hres. unfold Allow_begin. fold (unlimited l r). destruct (unlimited l r) eqn:Hu; [by split_and!; [left|..]|].
  destruct (_ || _).
  { pose proof (failed_spec l now errBadName Hm Hb) as Hf. destruct (failed l now errBadName) as [d|u].
    - destruct Hf as [Ho ->]. by split_and!.
    - destruct Hf as ([Hc|?] & Hs & Hp); [|done]. rewrite Hc. by split_and!. }
  pose proof (Allow_end_spec l l2 now' r) as Hend.
  destruct (0 <? _).
  - destruct (Z.leb_spec (lc_MaxLocalLeases (l_cfg l)) (Z.of_nat (size (l_leases l)))); [by split_and!|].
    specialize (Hend id res Hm Hcfg Hb2 Hres). destruct (Allow_end l2 now' r id res) as [l3 a]. destruct Hend as (H1 & H2 & H3 & ->).
    split_and!; [|done|right; split_and!; [done..|]].
    + destruct a as [d|u]; [by right; apply H1|]. destruct H1 as (? & ? & ?). by split_and!.
    + unfold forget. destruct (String.eqb_spec id ""); [done|]. by destruct (keeps_lease a).
  - specialize (Hend "" res Hm Hcfg Hb2 Hres). destruct (Allow_end l2 now' r "" res) as [l3 a]. destruct Hend as (H1 & H2 & H3 & ->).
    assert (keeps_lease a = false) as Hk by (destruct (keeps_lease a); [by destruct H3|done]).
    split_and!; [|done|left; by rewrite Hk].
    destruct a as [d|u]; [by right; apply H1|]. destruct H1 as (? & ? & ?). by split_and!.
Qed.

(** ** Renewal. *)

Section renewal.
Context `{GoMapOrder}.

Definition call_ids (c : RedisCall) : list string := match c with CallRenew _ _ _ ids => ids | _ => [] end.

Lemma chunks_spec fuel ids : (length ids ≤ fuel)%nat →
  mjoin (renew_chunks fuel ids) = ids ∧ Forall (λ c, 1 ≤ Z.of_nat (length c) ≤ 500) (renew_chunks fuel ids).
Proof.
  revert ids. induction fuel as [|fuel IH]; intros ids Hl; [destruct ids; [by split|simpl in Hl; lia]|].
  destruct ids as [|x ids]; [by split|]. cbn [renew_chunks]. set (n := Nat.min (length (x :: ids)) renewChunk).
  assert (1 ≤ n ≤ 500)%nat as Hn by (unfold n, renewChunk; simpl length; lia).
  destruct (IH (drop n (x :: ids))) as [IH1 IH2]; [rewrite length_drop; simpl length in *; lia|].
  split; [|constructor; [rewrite length_take; unfold n, renewChunk; simpl length; lia|done]].
  change (mjoin (?y :: ?ys)) with (y ++ mjoin ys). rewrite IH1. apply take_drop.
Qed.

(** All ids of the groups. *)
Definition grouped (m : gmap string (list string)) : list string := mjoin (snd <$> map_to_list m).

Lemma grouped_insert m t ids : m !! t = None → grouped (<[t := ids]> m) ≡ₚ ids ++ grouped m.
Proof. intros Ht. unfold grouped. by rewrite map_to_list_insert. Qed.

Lemma group_lease_ids m it : grouped (group_lease m it) ≡ₚ it.1 :: grouped m.
Proof.
  unfold group_lease. destruct (m !! it.2) as [ids|] eqn:Ht; simpl.
  - rewrite <-(insert_delete_id m _ _ Ht) at 2. rewrite <-insert_delete_eq.
    rewrite !grouped_insert by apply lookup_delete_eq. rewrite <-app_assoc. simpl. by rewrite <-Permutation_middle.
  - by rewrite grouped_insert.
Qed.

(** The groups hold the ids under their tenant. *)
Definition groups_ok (leases : gmap string string) (m : gmap string (list string)) : Prop :=
  map_Forall (λ t ids, Forall (λ id, leases !! id = Some t) ids) m.

Lemma group_fold leases L m :
  (∀ it, it ∈ L → leases !! it.1 = Some it.2) → groups_ok leases m →
  grouped (foldl group_lease m L) ≡ₚ grouped m ++ L.*1 ∧ groups_ok leases (foldl group_lease m L).
Proof.
  revert m. induction L as [|it L IH]; intros m HL Hok; csimpl; [by rewrite app_nil_r|].
  destruct (IH (group_lease m it)) as [IH1 IH2].
  - intros it' Hin. apply HL. by apply elem_of_cons; right.
  - unfold group_lease. apply map_Forall_insert_2; [|done]. apply Forall_app. split.
    + destruct (m !! it.2) as [ids|] eqn:Ht; simpl; [exact (Hok _ _ Ht)|done].
    + apply Forall_singleton, HL. by apply elem_of_cons; left.
  - split; [|done]. rewrite IH1, group_lease_ids. simpl. by rewrite <-Permutation_middle.
Qed.

Lemma bind_tenant_ids l clock L : (L ≫= tenant_calls l clock) ≫= call_ids = mjoin (snd <$> L).
Proof.
  induction L as [|[t ids] L IH]; [done|]. csimpl. rewrite bind_app, IH. f_equal. unfold tenant_calls. cbn [fst snd].
  destruct (chunks_spec (length ids) ids (le_n _)) as [Hj _]. rewrite <-Hj at 3. generalize (renew_chunks (length ids) ids).
  intros cs. clear. induction cs as [|c cs IH]; [done|]. csimpl. by rewrite IH.
Qed.

(** Every held lease is renewed once.  Whatever the order of the maps, the calls of one round
    carry each lease of the table exactly once, in the key of its own tenant, at most 500 and
    at least one per call, with the configured life. *)
Theorem renew_covers l clock :
  (renewAll l clock ≫= call_ids) ≡ₚ (map_to_list (l_leases l)).*1 ∧
  Forall (λ c, ∃ tenant ids, c = CallRenew (keyConcurrency tenant) (nowOverride l clock) (Milliseconds (lc_LeaseTTL (l_cfg l))) ids ∧
    1 ≤ Z.of_nat (length ids) ≤ 500 ∧ Forall (λ id, l_leases l !! id = Some tenant) ids) (renewAll l clock).
Proof.
  destruct (group_fold (l_leases l) (range_map (l_leases l)) ∅) as [Hg Hok];
    [intros [id t] Hin; by apply elem_of_range_map in Hin|apply map_Forall_empty|]. fold (by_tenant l) in *. split.
  - unfold renewAll. rewrite bind_tenant_ids. etrans; [|etrans; [exact Hg|]].
    + unfold grouped. by rewrite range_map_perm.
    + unfold grouped. rewrite map_to_list_empty. simpl. by rewrite range_map_perm.
  - apply Forall_forall. intros c Hc. apply list_elem_of_bind in Hc as ([t ids] & Hc & Hin). apply elem_of_range_map in Hin.
    apply list_elem_of_fmap in Hc as (chunk & -> & Hch). exists t, chunk. cbn [fst snd] in *.
    destruct (chunks_spec (length ids) ids (le_n _)) as [Hj Hlen]. rewrite Forall_forall in Hlen. split_and!; [done|apply Hlen..|]; [done..|].
    specialize (Hok t ids Hin). simpl in Hok. rewrite Forall_forall in Hok. apply Forall_forall. intros id Hid. apply Hok.
    rewrite <-Hj. apply list_elem_of_join. by exists chunk.
Qed.
End renewal.

(** ** The table of leases under interleaving.

    The reservations whose reply is outstanding, the admissions whose [Release] has not been
    called, the releases taken from the queue and not yet answered, and counts of the releases
    called and sent. *)

Record LSys := mkLSys {
  y_l : RedisLimiter; y_calls : list (string * LimitRequest); y_held : list (string * string);
  y_sending : Z; y_released : Z; y_sent : Z
}.

#[global] Instance eta_LSys : Settable LSys :=
  {| eta_of := λ y, mkLSys (y_l y) (y_calls y) (y_held y) (y_sending y) (y_released y) (y_sent y) |}.

Inductive lop :=
| LBegin (now : Time) (r : LimitRequest) (id : string) (clock : Z)
| LEnd (i : nat) (now : Time) (res : list Z + GoError)
| LRelease (i : nat)
| LTake
| LSent (res : list Z + GoError)
| LClose
| LClient (c : Client).

Definition lrun (y : LSys) (o : lop) : LSys :=
  match o with
  | LBegin now r id clock =>
      match Allow_begin (y_l y) now r id clock with
      | (l, Answered _) => y <| y_l := l |>
      | (l, Calling lid _) => if String.eqb lid "" then y <| y_l := l |> else y <| y_l := l |> <| y_calls := (lid, r) :: y_calls y |>
      end
  | LEnd i now res =>
      match y_calls y !! i with
      | None => y
      | Some (lid, r) =>
          let '(l, a) := Allow_end (y_l y) now r lid res in
          let y := y <| y_l := l |> <| y_calls := delete i (y_calls y) |> in
          if keeps_lease a then y <| y_held := (lid, lr_TenantID r) :: y_held y |> else y
      end
  | LRelease i =>
      match y_held y !! i with
      | None => y
      | Some (id, tenant) =>
          y <| y_l := run_releaser (y_l y) tenant id |> <| y_held := delete i (y_held y) |> <| y_released := y_released y + 1 |>
      end
  | LTake =>
      match next_release (y_l y) with
      | (l, None) => y
      | (l, Some _) => y <| y_l := l |> <| y_sending := y_sending y + 1 |>
      end
  | LSent res =>
      if 0 <? y_sending y then
        y <| y_l := doRelease_end (y_l y) res |> <| y_sending := y_sending y - 1 |>
          <| y_sent := match res with inl _ => y_sent y + 1 | inr _ => y_sent y end |>
      else y
  | LClose => y <| y_l := Limiter_Close (y_l y) |>
  | LClient c => y <| y_l := (y_l y) <| l_c := c |> |>
  end.

(** The leases the gateway is answerable for. *)
Definition live (y : LSys) : list (string * string) := ((λ ir, (ir.1, lr_TenantID ir.2)) <$> y_calls y) ++ y_held y.

(** Lease ids are 96 random bits: a new one differs from those in use. *)
Definition fresh_op (y : LSys) (o : lop) : Prop :=
  match o with LBegin _ _ id _ => id ≠ "" ∧ id ∉ (live y).*1 | _ => True end.

Inductive lreach (l0 : RedisLimiter) : LSys → Prop :=
| lreach_new : lreach l0 (mkLSys l0 [] [] 0 0 0)
| lreach_step y o : lreach l0 y → fresh_op y o → lreach l0 (lrun y o).

Record table_ok (y : LSys) : Prop := {
  tk_leases : l_leases (y_l y) = list_to_map (live y);
  tk_ids : NoDup (live y).*1 ∧ Forall (λ it, it.1 ≠ "") (live y);
  tk_size : Z.of_nat (length (live y)) ≤ lc_MaxLocalLeases (l_cfg (y_l y));
  tk_queue : Z.of_nat (length (l_releaseQ (y_l y))) ≤ releaseQueueSize;
  tk_count : y_released y = Z.of_nat (length (l_releaseQ (y_l y))) + y_sending y + y_sent y + l_dropped (y_l y) ∧ 0 ≤ y_sending y
}.

Lemma size_table (L : list (string * string)) : NoDup L.*1 → size (list_to_map L : gmap string string) = length L.
Proof. intros HL. rewrite <-(length_map_to_list). by rewrite map_to_list_to_map. Qed.

(** Two systems with the same live leases and the same queue. *)
Lemma table_ok_perm y y' :
  table_ok y → live y' ≡ₚ live y → l_cfg (y_l y') = l_cfg (y_l y) → l_leases (y_l y') = l_leases (y_l y) →
  l_releaseQ (y_l y') = l_releaseQ (y_l y) → l_dropped (y_l y') = l_dropped (y_l y) → y_sending y' = y_sending y →
  y_released y' = y_released y → y_sent y' = y_sent y → table_ok y'.
Proof.
  intros [H1 [H2 H2'] H3 H4 H5] Hp Hcfg Hl Hq Hd Hse Hr Hst.
  assert (NoDup (live y').*1) as Hnd by (by rewrite Hp). split.
  - rewrite Hl, H1. symmetry. by apply list_to_map_proper.
  - split; [done|]. by rewrite Hp.
  - by rewrite Hp, Hcfg.
  - by rewrite Hq.
  - by rewrite Hq, Hd, Hse, Hr, Hst.
Qed.

(** A live lease that goes. *)
Lemma table_ok_drop y y' id t :
  table_ok y → live y ≡ₚ (id, t) :: live y' → l_cfg (y_l y') = l_cfg (y_l y) → l_leases (y_l y') = delete id (l_leases (y_l y)) →
  Z.of_nat (length (l_releaseQ (y_l y'))) ≤ releaseQueueSize →
  (y_released y' = Z.of_nat (length (l_releaseQ (y_l y'))) + y_sending y' + y_sent y' + l_dropped (y_l y') ∧ 0 ≤ y_sending y') → table_ok y'.
Proof.
  intros [H1 [H2 H2'] H3 H4 H5] Hp Hcfg Hl Hq Hcount. rewrite Hp in H2, H2', H3. csimpl in H2. apply NoDup_cons in H2 as [Hni Hnd].
  apply Forall_cons in H2' as [_ H2']. split; [|done| |done|done].
  - rewrite Hl, H1, (list_to_map_proper (live y) ((id, t) :: live y')); [|rewrite Hp; by apply NoDup_cons|done].
    simpl. rewrite delete_insert_id; [done|]. by apply not_elem_of_list_to_map_1.
  - rewrite Hcfg. simpl in H3. lia.
Qed.

Lemma live_call y i lid r : y_calls y !! i = Some (lid, r) →
  live y ≡ₚ (lid, lr_TenantID r) :: ((λ ir, (ir.1, lr_TenantID ir.2)) <$> delete i (y_calls y)) ++ y_held y.
Proof. intros Hi. unfold live. by rewrite (delete_Permutation _ _ _ Hi) at 1. Qed.

Lemma live_held y i it : y_held y !! i = Some it →
  live y ≡ₚ it :: ((λ ir, (ir.1, lr_TenantID ir.2)) <$> y_calls y) ++ delete i (y_held y).
Proof. intros Hi. unfold live. rewrite (delete_Permutation _ _ _ Hi) at 1. by rewrite <-Permutation_middle. Qed.

Lemma begin_table y now r id clock : table_ok y → id ≠ "" → id ∉ (live y).*1 → table_ok (lrun y (LBegin now r id clock)).
Proof.
  intros Hok Hid Hni. simpl. unfold Allow_begin. destruct (_ && _); [by destruct y|]. destruct (_ || _); [by destruct y|].
  destruct (0 <? _); [|by destruct y]. destruct (Z.leb_spec (lc_MaxLocalLeases (l_cfg (y_l y))) (Z.of_nat (size (l_leases (y_l y))))) as [|Hroom]; [by destruct y|].
  destruct (String.eqb_spec id ""); [done|]. destruct Hok as [H1 [H2 H2'] H3 H4 H5]. rewrite H1, size_table in Hroom by done.
  set (y' := y <| y_l := _ |> <| y_calls := _ |>). assert (live y' = (id, lr_TenantID r) :: live y) as Hlive by done.
  split; [|split| |done|done]; rewrite Hlive; simpl.
  - by rewrite H1.
  - by apply NoDup_cons.
  - by constructor.
  - lia.
Qed.

Lemma end_table y i now res : table_ok y → table_ok (lrun y (LEnd i now res)).
Proof.
  intros Hok. simpl. destruct (y_calls y !! i) as [[lid r]|] eqn:Hi; [|done]. pose proof (live_call y i lid r Hi) as Hlive.
  assert (lid ≠ "") as Hne.
  { destruct Hok as [_ [_ Hf] _ _ _]. rewrite Hlive in Hf. by apply Forall_cons in Hf as [? _]. }
  assert (Hcase : ∃ l a, Allow_end (y_l y) now r lid res = (l, a) ∧ (keeps_lease a = true ∧ l = y_l y ∨ keeps_lease a = false ∧ l = forget (y_l y) lid)).
  { unfold Allow_end. destruct res as [ns|e]; [|do 2 eexists; split; [done|]; right; split; [|done]; unfold failed; by destruct (_ && _), (errors_Is e "redis.ErrBusy")].
    destruct (nth 0 ns 0 =? 1); do 2 eexists; (split; [done|]); [left|by right]. by destruct (String.eqb_spec lid ""). }
  destruct Hcase as (l & a & -> & [[-> ->]|[-> ->]]).
  - apply (table_ok_perm y); try done. rewrite Hlive. unfold live. simpl. by rewrite <-Permutation_middle.
  - assert (forget (y_l y) lid = (y_l y) <| l_leases := delete lid (l_leases (y_l y)) |>) as ->
      by (unfold forget; by destruct (String.eqb_spec lid "")).
    apply (table_ok_drop y _ lid (lr_TenantID r)); [done|exact Hlive|done|done|apply Hok|apply Hok].
Qed.

Lemma enqueue_count l j :
  let l' := enqueue l j in l_leases l' = l_leases l ∧ l_cfg l' = l_cfg l ∧
  (Z.of_nat (length (l_releaseQ l)) ≤ releaseQueueSize → Z.of_nat (length (l_releaseQ l')) ≤ releaseQueueSize) ∧
  Z.of_nat (length (l_releaseQ l')) + l_dropped l' = Z.of_nat (length (l_releaseQ l)) + l_dropped l + 1.
Proof.
  unfold enqueue. destruct (l_closed l); simpl; [split_and!; (done || lia)|].
  destruct (Z.ltb_spec (Z.of_nat (length (l_releaseQ l))) releaseQueueSize); simpl; split_and!; try done; rewrite ?length_app; simpl; lia.
Qed.

Lemma release_table y i : table_ok y → table_ok (lrun y (LRelease i)).
Proof.
  intros Hok. simpl. destruct (y_held y !! i) as [[id t]|] eqn:Hi; [|done]. pose proof (live_held y i _ Hi) as Hlive.
  assert (id ≠ "") as Hne.
  { destruct Hok as [_ [_ Hf] _ _ _]. rewrite Hlive in Hf. by apply Forall_cons in Hf as [? _]. }
  unfold run_releaser. assert (forget (y_l y) id = (y_l y) <| l_leases := delete id (l_leases (y_l y)) |>) as ->
    by (unfold forget; by destruct (String.eqb_spec id "")).
  destruct (enqueue_count ((y_l y) <| l_leases := delete id (l_leases (y_l y)) |>) (mkReleaseJob t id)) as (E1 & E2 & E3 & E4).
  simpl in E1, E2, E3, E4. apply (table_ok_drop y _ id t); [done|exact Hlive|done|done|apply E3, Hok|]. simpl.
  destruct Hok as [_ _ _ _ [Hc Hs]]. lia.
Qed.

Lemma lrun_table y o : table_ok y → fresh_op y o → table_ok (lrun y o).
Proof.
  intros Hok Hf. destruct o as [now r id clock|i now res|i| |res| |c]; simpl in Hf.
  - destruct Hf. by apply begin_table.
  - by apply end_table.
  - by apply release_table.
  - simpl. unfold next_release. destruct Hok as [H1 H2 H3 H4 [H5 H6]]. destruct (l_releaseQ (y_l y)) as [|j q] eqn:Hq; [by split; rewrite ?Hq|].
    split; simpl in *; try done; lia.
  - simpl. destruct (Z.ltb_spec 0 (y_sending y)); [|done]. destruct Hok as [H1 H2 H3 H4 [H5 H6]].
    destruct res; (split; simpl in *; [done|done|done|done|lia]).
  - by apply (table_ok_perm y).
  - by apply (table_ok_perm y).
Qed.

(** C28: The gateway's table of leases is exact under any interleaving.  However checks, replies
    (of any kind), releases and the workers that send them interleave, and whatever the client
    does meanwhile, the table holds exactly the reservations whose reply is outstanding and the
    admitted requests not yet released, at most [MaxLocalLeases] of them; the queue of releases
    keeps its bound; and every release that was called is queued, being sent, sent, or counted
    as dropped. *)
Theorem lease_table c cfg l0 y :
  NewRedis c cfg = inl l0 → lreach l0 y →
  l_leases (y_l y) = list_to_map (live y) ∧ NoDup (live y).*1 ∧ Z.of_nat (size (l_leases (y_l y))) ≤ lc_MaxLocalLeases (l_cfg (y_l y)) ∧
  Z.of_nat (length (l_releaseQ (y_l y))) ≤ releaseQueueSize ∧
  y_released y = Z.of_nat (length (l_releaseQ (y_l y))) + y_sending y + y_sent y + l_dropped (y_l y).
Proof.
  intros Hnew Hr. assert (table_ok y) as [H1 [H2 H2'] H3 H4 [H5 H6]].
  { induction Hr as [|y o _ IH Hf]; [|by apply lrun_table]. unfold NewRedis in Hnew.
    repeat (match goal with H : context [if ?b then inr _ else _] |- _ => destruct b eqn:?; [done|] end). simplify_eq.
    split; simpl; [done|split; constructor| |unfold releaseQueueSize; lia|lia]. 
    repeat case_match; simpl in *; bprop; lia. }
  split_and!; [done|done| |done|done]. by rewrite H1, size_table.
Qed.

(** ** A reference limiter.

    What the configuration promises, without Redis: the reference model of model.go decides every
    request, for the quotas and costs clamped to their ranges; the gateway keeps the set of the
    leases it holds, renews each of them in a round, and gives released ones back in order. *)

(** One gateway, its calls one after the other: checks, rounds of renewal, calls of [Release],
    the worker that sends them, the start of the shutdown, and moments at which the gateway does
    nothing. *)
Inductive hop := HAllow (r : LimitRequest) (id : string) | HRenewAll | HRelease (tenant id : string) | HSend | HClose | HIdle.

Definition Answer : Type := Decision + UnavailableError.

Definition ref_params (cfg : LimiterConfig) : Params :=
  mkParams (if lc_BurstSeconds cfg =? 0 then 60 else lc_BurstSeconds cfg) ((if lc_LeaseTTL cfg =? 0 then 60 * Second else lc_LeaseTTL cfg) / Millisecond).

Definition ref_max_leases (cfg : LimiterConfig) : Z := if lc_MaxLocalLeases cfg =? 0 then 100000 else lc_MaxLocalLeases cfg.

Definition clamp (hi n : Z) : Z := Z.max 0 (Z.min n hi).

(** The request the model decides: no tenant, no tenant's limits. *)
Definition ref_request (cfg : LimiterConfig) (r : LimitRequest) (id : string) : ModelRequest :=
  mkModelRequest (lr_TenantID r) (lr_Model r) (clamp MaxCost (lr_Cost r))
    (if decide (lr_TenantID r = "") then mkLimits 0 0 0
     else mkLimits (clamp MaxQuota (RequestsPerMinute (lr_Limits r))) (clamp MaxQuota (TokensPerMinute (lr_Limits r)))
            (clamp MaxQuota (MaxConcurrent (lr_Limits r))))
    (clamp MaxQuota (default 0 (lc_Models cfg !! lr_Model r))) id.

(** Some limit applies to the request. *)
Definition ref_limited (q : ModelRequest) : bool :=
  (0 <? RequestsPerMinute (rq_Limits q)) || (0 <? TokensPerMinute (rq_Limits q)) || (0 <? MaxConcurrent (rq_Limits q)) || (0 <? rq_ModelRequestsPerMinute q).

(** A name that is too long for a key. *)
Definition ref_bad_name (q : ModelRequest) : bool :=
  (256 <? slen (rq_TenantID q)) || ((0 <? rq_ModelRequestsPerMinute q) && (256 <? slen (rq_Model q))).

Record RefLimiter := mkRefLimiter { rf_model : RateModel; rf_leases : gmap string string; rf_jobs : list releaseJob; rf_closed : bool }.

#[global] Instance eta_RefLimiter : Settable RefLimiter :=
  {| eta_of := λ x, mkRefLimiter (rf_model x) (rf_leases x) (rf_jobs x) (rf_closed x) |}.

(** A check: an unusable name follows the failure mode, a lease beyond the maximum is an error,
    and the model decides the rest. *)
Definition ref_allow (cfg : LimiterConfig) (backoff : Z) (x : RefLimiter) (t : Z) (r : LimitRequest) (id : string) : RefLimiter * Answer :=
  let q := ref_request cfg r id in
  let leased := 0 <? MaxConcurrent (rq_Limits q) in
  if ref_limited q && ref_bad_name q then
    (x, if String.eqb (lc_OnFailure cfg) FailOpen then inl (mkDecision true "" 0 true noopRelease) else inr (mkUnavailableError backoff errBadName))
  else if leased && (ref_max_leases cfg <=? Z.of_nat (size (rf_leases x))) then (x, inr (mkUnavailableError Second ErrLeaseCapacity))
  else
    let '(m, o) := Model_Allow (rf_model x) t q in
    if o_Allowed o
    then (x <| rf_model := m |> <| rf_leases := if leased then <[id := lr_TenantID r]> (rf_leases x) else rf_leases x |>,
          inl (mkDecision true "" 0 false (if leased then releaser (lr_TenantID r) id else noopRelease)))
    else (x <| rf_model := m |>, inl (mkDecision false (o_Limit o) (o_RetryMs o * Millisecond) false noopRelease)).

(** Every lease of the table is renewed, each under its tenant. *)
Definition ref_renew (m : RateModel) (t : Z) (leases : gmap string string) : RateModel :=
  foldr (λ it m, (Model_Renew m t it.2 it.1).1) m (map_to_list leases).

Definition ref_step (cfg : LimiterConfig) (backoff : Z) (x : RefLimiter) (t : Z) (o : hop) : RefLimiter * option Answer :=
  match o with
  | HAllow r id => let '(x, a) := ref_allow cfg backoff x t r id in (x, Some a)
  | HRenewAll => (x <| rf_model := ref_renew (rf_model x) t (rf_leases x) |>, None)
  | HRelease tenant id =>
      (x <| rf_leases := delete id (rf_leases x) |>
         <| rf_jobs := if rf_closed x || (4096 <=? Z.of_nat (length (rf_jobs x))) then rf_jobs x else rf_jobs x ++ [mkReleaseJob tenant id] |>, None)
  | HSend =>
      match rf_jobs x with
      | [] => (x, None)
      | j :: q => (x <| rf_model := (Model_Release (rf_model x) (j_tenant j) (j_id j)).1 |> <| rf_jobs := q |>, None)
      end
  | HClose => (x <| rf_closed := true |>, None)
  | HIdle => (x, None)
  end.

Fixpoint ref_run (cfg : LimiterConfig) (backoff : Z) (x : RefLimiter) (ops : list (Time * (Z * Z) * hop)) : list (option Answer) :=
  match ops with
  | [] => []
  | (_, time, o) :: ops => let '(x, a) := ref_step cfg backoff x (clock_ms time) o in a :: ref_run cfg backoff x ops
  end.

Definition ref_new (cfg : LimiterConfig) : RefLimiter := mkRefLimiter (NewModel (ref_params cfg)) ∅ [] false.

(** The ids drawn for the checks of a run. *)
Definition drawn (ops : list (Time * (Z * Z) * hop)) : list string :=
  ops ≫= λ x, match x.2 with HAllow _ id => [id] | _ => [] end.

(** ** On a healthy Redis the limiter decides as the reference. *)

Section healthy.
Context `{RedisServer} `{GoMapOrder} (drift : Z).

Definition with_redis (l : RedisLimiter) (s : store) (now : Time) (time : Z * Z) (call : RedisCall) : RedisLimiter * store * (list Z + GoError) :=
  let '(c, s, res) := Run_served (l_c l) s now time call now in (l <| l_c := c |>, s, res).

Definition real_allow (l : RedisLimiter) (s : store) (now : Time) (time : Z * Z) (r : LimitRequest) (id : string) : RedisLimiter * store * Answer :=
  match Allow_begin l now r id 0 with
  | (l, Answered a) => (l, s, a)
  | (l, Calling lid call) =>
      let '(l, s, res) := with_redis l s now time call in
      let '(l, a) := Allow_end l now r lid res in (l, s, a)
  end.

(** The limiter on Redis, which deletes what has expired whenever it likes. *)
Definition real_step (l : RedisLimiter) (s : store) (now : Time) (time : Z * Z) (o : hop) : RedisLimiter * store * option Answer :=
  let s := expire s (clock_ms time) in
  match o with
  | HAllow r id => let '(l, s, a) := real_allow l s now time r id in (l, s, Some a)
  | HRenewAll =>
      let '(l, s) := foldl (λ ls call, (with_redis ls.1 ls.2 now time call).1) (l, s) (renewAll l 0) in (l, s, None)
  | HRelease tenant id => (run_releaser l tenant id, s, None)
  | HSend =>
      match next_release l with
      | (l, None) => (l, s, None)
      | (l, Some j) => let '(l, s, res) := with_redis l s now time (release_call j) in (doRelease_end l res, s, None)
      end
  | HClose => (Limiter_Close l, s, None)
  | HIdle => (l, s, None)
  end.

(** The request as the scripts see it. *)
Definition model_request (l : RedisLimiter) (r : LimitRequest) (lid : string) : ModelRequest :=
  mkModelRequest (lr_TenantID r) (lr_Model r) (checked_cost r) (checked_limits r) (model_quota l r) lid.

Definition renew_batches (l : RedisLimiter) : list (string * list string) :=
  range_map (by_tenant l) ≫= λ ti, pair ti.1 <$> renew_chunks (length ti.2) ti.2.

Definition limiter_params (l : RedisLimiter) : Params := mkParams (lc_BurstSeconds (l_cfg l)) (Milliseconds (lc_LeaseTTL (l_cfg l))).

(** What [NewRedis] establishes and nothing changes. *)
Record config_ok (l : RedisLimiter) : Prop := {
  co_params : params_bounded (limiter_params l);
  co_models : map_Forall (λ _ n, 0 < n ≤ MaxQuota) (lc_Models (l_cfg l));
  co_clock : lc_Clock (l_cfg l) = false;
  co_up : c_down (l_c l) = false
}.

(** The limiter has the configuration of the reference, completed by its defaults. *)
Record follows (cfg : LimiterConfig) (backoff : Z) (l : RedisLimiter) : Prop := {
  fo_params : limiter_params l = ref_params cfg;
  fo_mode : String.eqb (lc_OnFailure (l_cfg l)) FailOpen = String.eqb (lc_OnFailure cfg) FailOpen;
  fo_max : lc_MaxLocalLeases (l_cfg l) = ref_max_leases cfg;
  fo_models k : default 0 (lc_Models (l_cfg l) !! k) = clamp MaxQuota (default 0 (lc_Models cfg !! k));
  fo_backoff : c_backoff (l_c l) = backoff
}.

Record linked (M : Z) (l : RedisLimiter) (s : store) (x : RefLimiter) : Prop := {
  ln_sim : sim drift M s (rf_model x);
  ln_small : leases_small (rf_model x);
  ln_params : m_p (rf_model x) = limiter_params l;
  ln_leases : l_leases l = rf_leases x;
  ln_jobs : l_releaseQ l = rf_jobs x;
  ln_closed : l_closed l = rf_closed x
}.

Lemma NewRedis_ok c cfg l :
  NewRedis c cfg = inl l → c_down c = false → lc_Clock cfg = false → in64 (lc_LeaseTTL cfg) → config_ok l.
Proof.
  unfold NewRedis, in64, int64_min, int64_max. intros Hn Hd Hc Ht.
  repeat (match goal with H : context [if ?b then inr _ else _] |- _ => destruct b eqn:?; [done|] end). simplify_eq.
  assert (Hmod : ∀ ms : gmap string Z, map_Forall (λ _ n, 0 < n ≤ MaxQuota) (omap (λ n, if 0 <? n then Some (Z.min n MaxQuota) else None) ms)).
  { intros ms k n Hk. apply lookup_omap_Some in Hk as (n' & Hn & _). destruct (Z.ltb_spec 0 n'); [|done]. injection Hn as <-. unfold MaxQuota. lia. }
  split; [|apply Hmod|repeat case_match; done|done].
  unfold params_bounded, limiter_params, Milliseconds, MaxBurstSeconds, max_time in *. simpl in *.
  unfold DefaultBurstSeconds, DefaultLeaseTTL, Millisecond, Second in *.
  repeat case_match; simpl in *; bprop; simpl in *; Z.to_euclidean_division_equations; lia.
Qed.

Lemma models_clamped (ms : gmap string Z) k :
  default 0 (omap (λ n, if 0 <? n then Some (Z.min n MaxQuota) else None) ms !! k) = clamp MaxQuota (default 0 (ms !! k)).
Proof.
  rewrite lookup_omap. destruct (ms !! k) as [n|]; simpl; [|done]. unfold clamp, MaxQuota. destruct (Z.ltb_spec 0 n); simpl; lia.
Qed.

Lemma NewRedis_follows c cfg l : NewRedis c cfg = inl l → follows cfg (c_backoff c) l.
Proof.
  unfold NewRedis. intros Hn.
  repeat (match goal with H : context [if ?b then inr _ else _] |- _ => destruct b eqn:?; [done|] end). simplify_eq.
  split; cbn [l_cfg l_c lc_Models lc_OnFailure lc_MaxLocalLeases]; [..|done].
  - unfold limiter_params, ref_params, Milliseconds. simpl in *. unfold DefaultBurstSeconds, DefaultLeaseTTL, Millisecond, Second in *.
    repeat case_match; simpl in *; bprop; simpl in *; f_equal; rewrite ?Z.quot_div_nonneg by lia; done.
  - simpl. destruct (String.eqb_spec (lc_OnFailure cfg) "") as [He|]; repeat case_match; simpl; by rewrite ?He.
  - unfold ref_max_leases, DefaultMaxLocalLeases in *. repeat case_match; simpl in *; bprop; simpl in *; lia.
  - intros k. etrans; [apply models_clamped|]. repeat match goal with |- context [if ?b then _ else _] => destruct b end; done.
Qed.

(** A call on a healthy client reaches the server and leaves the client as it was. *)
Lemma ints_go_ints i (ns : list Z) : ints_go i (AInt <$> ns) = inl ns.
Proof. revert i. induction ns as [|n ns IH]; intros i; [done|]. csimpl. by rewrite IH. Qed.

Lemma with_redis_healthy l s now time call :
  c_down (l_c l) = false → Z.of_nat (length (serve s time call).2) = reply_len call →
  with_redis l s now time call = (l, (serve s time call).1, inl (serve s time call).2).
Proof.
  intros Hd Hl. unfold with_redis, Run_served, admitCall. rewrite Hd. simpl. destruct (serve s time call) as [s' ns]. simpl in *.
  unfold Run_reply. simpl. rewrite length_fmap, Hl, Z.eqb_refl, ints_go_ints. unfold callDone. simpl. rewrite Hd. by destruct l.
Qed.

Lemma serve_len s time call : Z.of_nat (length (serve s time call).2) = reply_len call.
Proof.
  destruct call as [k1 k2 k3 k4 a|key o ttl ids|key id]; simpl; [|by destruct (renewScript _ _ _ _ _ _)|by destruct (releaseScript _ _ _ _)].
  by destruct (acquireScript _ _ _ _ _ _ _) as [s' [[x y] z]].
Qed.

Lemma clampQuota_range n : 0 ≤ clampQuota n ≤ MaxQuota.
Proof. unfold clampQuota, MaxQuota. repeat case_match; lia. Qed.

(** The limiter only sends requests within the scripts' bounds. *)
Lemma model_request_clamped l r lid : config_ok l → request_clamped (model_request l r lid).
Proof.
  intros Hcfg. unfold request_clamped, model_request. cbn [rq_Limits rq_ModelRequestsPerMinute rq_Cost].
  assert (0 ≤ model_quota l r ≤ MaxQuota) as Hq.
  { unfold model_quota. destruct (lc_Models (l_cfg l) !! lr_Model r) as [n|] eqn:Hn; simpl; [|unfold MaxQuota; lia].
    pose proof (co_models _ Hcfg _ _ Hn) as Hn'. simpl in Hn'. lia. }
  assert (0 ≤ checked_cost r ≤ MaxCost) as Hc by (unfold checked_cost, MaxCost; lia).
  unfold checked_limits. destruct (String.eqb (lr_TenantID r) ""); cbn [RequestsPerMinute TokensPerMinute MaxConcurrent].
  - split_and!; try (unfold MaxQuota in *; lia). split; simpl; try (unfold MaxQuota in *; lia).
  - pose proof (clampQuota_range (RequestsPerMinute (lr_Limits r))). pose proof (clampQuota_range (TokensPerMinute (lr_Limits r))).
    pose proof (clampQuota_range (MaxConcurrent (lr_Limits r))). split_and!; try lia. split; simpl; lia.
Qed.

(** The call of a check is the script call of the model's request. *)
Lemma serve_acquire l s time r lid :
  config_ok l →
  serve s time (acquire_call l r 0 lid) =
  let '(s', (a, c, w)) := script_allow s time (limiter_params l) (model_request l r lid) in (s', [a; c; w]).
Proof. intros Hcfg. unfold acquire_call, nowOverride. rewrite (co_clock _ Hcfg). done. Qed.

(** *** The reference and the limiter's own steps. *)

Lemma quota_agrees n : clampQuota n = clamp MaxQuota n.
Proof. unfold clampQuota, clamp. assert (0 < MaxQuota) by done. repeat case_match; lia. Qed.

Lemma request_agrees cfg backoff l r lid : follows cfg backoff l → model_request l r lid = ref_request cfg r lid.
Proof.
  intros Hf. unfold model_request, ref_request, model_quota, checked_limits. rewrite (fo_models _ _ _ Hf), !quota_agrees.
  destruct (String.eqb_spec (lr_TenantID r) ""); by case_decide.
Qed.

Lemma begin_agrees cfg backoff l now r id :
  config_ok l → follows cfg backoff l →
  let q := ref_request cfg r id in
  Allow_begin l now r id 0 =
  if negb (ref_limited q) then (l, Answered (inl (mkDecision true "" 0 false noopRelease)))
  else if ref_bad_name q then
    (l, Answered (if String.eqb (lc_OnFailure cfg) FailOpen then inl (mkDecision true "" 0 true noopRelease) else inr (mkUnavailableError backoff errBadName)))
  else if 0 <? MaxConcurrent (rq_Limits q) then
    if ref_max_leases cfg <=? Z.of_nat (size (l_leases l)) then (l, Answered (inr (mkUnavailableError Second ErrLeaseCapacity)))
    else (l <| l_leases := <[id := lr_TenantID r]> (l_leases l) |>, Calling id (acquire_call l r 0 id))
  else (l, Calling "" (acquire_call l r 0 "")).
Proof.
  intros Hc Hf q. pose proof (request_agrees cfg backoff l r id Hf) as Hq. fold q in Hq.
  assert (checked_limits r = rq_Limits q ∧ model_quota l r = rq_ModelRequestsPerMinute q ∧ rq_TenantID q = lr_TenantID r ∧ rq_Model q = lr_Model r)
    as (E1 & E2 & E3 & E4) by (by rewrite <-Hq).
  assert (0 ≤ rq_ModelRequestsPerMinute q) as Hpos by (unfold q, ref_request, clamp; simpl; lia). clearbody q. unfold Allow_begin. rewrite E1, E2, (fo_max _ _ _ Hf).
  assert (Limits_None (rq_Limits q) && (rq_ModelRequestsPerMinute q =? 0) = negb (ref_limited q)) as ->.
  { unfold Limits_None, ref_limited. rewrite !negb_orb, <-!Z.leb_antisym. f_equal.
    destruct (Z.eqb_spec (rq_ModelRequestsPerMinute q) 0), (Z.leb_spec (rq_ModelRequestsPerMinute q) 0); (done || lia). }
  assert (negb (validKeyPart (lr_TenantID r)) || ((0 <? rq_ModelRequestsPerMinute q) && negb (validKeyPart (lr_Model r))) = ref_bad_name q) as ->
    by (unfold ref_bad_name, validKeyPart, maxKeyPart; by rewrite E3, E4, <-!Z.ltb_antisym).
  unfold failed, RetryAfter, Down. rewrite (co_up _ Hc), (fo_mode _ _ _ Hf), (fo_backoff _ _ _ Hf), andb_true_r. done.
Qed.

(** A request no limit applies to changes nothing. *)
Lemma unlimited_model m t q : ref_limited q = false → Model_Allow m t q = (m, mkOutcome true "" 0).
Proof.
  unfold ref_limited. rewrite !orb_false_iff. intros [[[H1 H2] H3] H4].
  unfold Model_Allow, model_checks, add_check. rewrite H3.
  apply Z.ltb_ge, Z.leb_le in H1, H2, H4. rewrite H1, H2, H4. simpl. by destruct m.
Qed.

(** Without a limit on concurrency the id of the lease does not matter. *)
Lemma unleased_model m t cfg r id :
  (0 <? MaxConcurrent (rq_Limits (ref_request cfg r id))) = false → Model_Allow m t (ref_request cfg r "") = Model_Allow m t (ref_request cfg r id).
Proof. unfold Model_Allow. intros Hc. cbn [rq_Limits ref_request] in *. rewrite Hc. done. Qed.

Lemma longest_bound B l : 0 ≤ B → Forall (λ lw : Limit * Z, lw.2 ≤ B) l → 0 ≤ longest l ≤ B.
Proof. intros HB Hl. induction Hl; simpl in *; lia. Qed.

(** No wait exceeds the longest burst window. *)
Lemma wait_window m t u : model_ok m → use_ok u → lacks m t u = true → wait_of m t u ≤ window (m_p m).
Proof.
  intros Hm (Hq & Hc & _) Hl. pose proof (level_bounds m (key_string (u_key u)) t (u_quota u) Hm Hq) as Hlev.
  assert (need_of (m_p m) (u_cost u) (u_quota u) ≤ cap (m_p m) (u_quota u)) as Hn by (unfold need_of; lia).
  unfold wait_of, cap, MaxQuota in *. apply Z.lt_succ_r, Z.div_lt_upper_bound; lia.
Qed.

Lemma retry_bound m t q : model_ok m → time_bounded t → request_bounded q → 0 ≤ o_RetryMs (Model_Allow m t q).2 ≤ 3600000.
Proof.
  intros Hm Ht Hq. pose proof (Allow_answer m t q Hm Ht Hq) as Ha. destruct (Model_Allow m t q) as [m' o]. destruct Ha as [Hw _]. simpl. rewrite Hw.
  pose proof (window_bounds _ (proj1 Hm)) as HW. destruct (use_ok_pos q Hq) as (U1 & U2 & U3). apply longest_bound; [lia|].
  assert (Hu : ∀ u, (0 < u_quota u → use_ok u) → Forall (λ lw : Limit * Z, lw.2 ≤ 3600000) (use_refusal m t u)).
  { intros u Hok. unfold use_refusal. destruct (Z.ltb_spec 0 (u_quota u)); [|constructor]. simpl. destruct (lacks m t u) eqn:Hl; [|constructor].
    apply Forall_singleton. simpl. pose proof (wait_window m t u Hm (Hok ltac:(done)) Hl). lia. }
  rewrite refusals_unfold, !Forall_app. split_and!; [by apply Hu..| |by apply Hu].
  destruct (conc_full m t q); [|constructor]. apply Forall_singleton. unfold concurrencyRetryMs. simpl. lia.
Qed.

(** A healthy client, the configuration of the reference, and what the clock does. *)
Record good (cfg : LimiterConfig) (backoff : Z) (M : Z) (time : Z * Z) (l : RedisLimiter) : Prop := {
  gd_config : config_ok l;
  gd_follows : follows cfg backoff l;
  gd_clock : clock_ok time ∧ time_bounded M ∧ near drift M (clock_ms time);
  gd_drift : drift_ok drift (limiter_params l)
}.

Lemma good_same cfg backoff M time l l' : l_cfg l' = l_cfg l → l_c l' = l_c l → good cfg backoff M time l → good cfg backoff M time l'.
Proof.
  intros E1 E2 [[C1 C2 C3 C4] [F1 F2 F3 F4 F5] G3 G4]. unfold limiter_params in *.
  split; [split|split| |]; unfold limiter_params; rewrite ?E1, ?E2; done.
Qed.

(** The script's answer to a check is the model's. *)
Lemma served_check cfg backoff M time l s x now r lid :
  good cfg backoff M time l → linked M l s x →
  let q := ref_request cfg r lid in
  let '(m', o) := Model_Allow (rf_model x) (clock_ms time) q in
  ∃ s' c, with_redis l s now time (acquire_call l r 0 lid) = (l, s', inl [if o_Allowed o then 1 else 0; c; o_RetryMs o]) ∧
    (o_Allowed o = false → limitFromCode c = o_Limit o) ∧ 0 ≤ o_RetryMs o ≤ 3600000 ∧
    sim drift M s' m' ∧ leases_small m' ∧ m_p m' = limiter_params l.
Proof.
  intros [Hc Hf (Hck & HM & Hn) Hd] Hln q. destruct Hln as [Hs Hsm Hp _ _ _]. pose proof (request_agrees cfg backoff l r lid Hf) as Hq. fold q in Hq.
  pose proof (model_request_clamped l r lid Hc) as Hcl. rewrite Hq in Hcl. pose proof (sim_ok _ _ _ _ Hs) as Hm. pose proof (clock_bounded _ Hck) as Ht.
  rewrite with_redis_healthy by (apply Hc || apply serve_len). rewrite serve_acquire, Hq by done.
  pose proof (acquire_refines drift s M time (rf_model x) q Hck HM Hn ltac:(by rewrite Hp) Hcl Hsm Hs) as Ha. rewrite Hp in Ha.
  pose proof (leases_small_mrun (rf_model x) _ (MAllow q) Hm Ht Hcl Hsm) as Hsm'. simpl in Hsm'.
  pose proof (Allow_p (rf_model x) _ q Hm Ht (proj1 Hcl)) as Hp'. pose proof (retry_bound (rf_model x) _ q Hm Ht (proj1 Hcl)) as Hw.
  destruct (script_allow s time (limiter_params l) q) as [s' [[a c] w]]. destruct (Model_Allow (rf_model x) (clock_ms time) q) as [m' o]. simpl in *.
  destruct Ha as (Hs' & -> & -> & Hl). exists s', c. split_and!; (done || lia || congruence).
Qed.

Lemma allow_step cfg backoff M time l s x now r id :
  good cfg backoff M time l → linked M l s x → id ≠ "" → rf_leases x !! id = None →
  let '(l', s', a) := real_allow l s now time r id in
  let '(x', a') := ref_allow cfg backoff x (clock_ms time) r id in
  a = a' ∧ linked M l' s' x' ∧ l_cfg l' = l_cfg l ∧ l_c l' = l_c l.
Proof.
  intros Hg Hln Hid Hnew. pose proof Hln as [Hs Hsm Hp HL Hj Hcl]. unfold real_allow, ref_allow.
  rewrite (begin_agrees cfg backoff) by apply Hg. cbv zeta. destruct (ref_limited (ref_request cfg r id)) eqn:Hlim; simpl negb; cbn [andb].
  2:{ rewrite unlimited_model by done. unfold ref_limited in Hlim. rewrite !orb_false_iff in Hlim. destruct Hlim as [[_ ->] _]. simpl.
      split_and!; [done| |done|done]. by destruct x. }
  destruct (ref_bad_name (ref_request cfg r id)); [done|].
  destruct (0 <? MaxConcurrent (rq_Limits (ref_request cfg r id))) eqn:Hconc; cbn [andb].
  - rewrite HL. destruct (ref_max_leases cfg <=? Z.of_nat (size (rf_leases x))); [done|].
    set (l1 := l <| l_leases := _ |>). assert (acquire_call l r 0 id = acquire_call l1 r 0 id) as -> by done.
    pose proof (served_check cfg backoff M time l1 s (x <| rf_leases := <[id := lr_TenantID r]> (rf_leases x) |>) now r id) as Hsv.
    specialize (Hsv (good_same _ _ _ _ l l1 eq_refl eq_refl Hg) ltac:(split; (done || by rewrite Hp))). cbv zeta in Hsv. cbn [rf_model] in Hsv.
    change (rf_model (x <| rf_leases := _ |>)) with (rf_model x) in Hsv.
    destruct (Model_Allow (rf_model x) (clock_ms time) (ref_request cfg r id)) as [m' o].
    destruct Hsv as (s' & c & -> & Hlim' & Hw & Hs' & Hsm' & Hp'). unfold Allow_end, forget. cbn [nth].
    destruct (String.eqb_spec id ""); [done|]. destruct (o_Allowed o); simpl.
    + split_and!; [done|split; done|done|done].
    + rewrite Hlim' by done. unfold Millisecond in *. rewrite wrap64_small by lia. split_and!; [done| |done|done].
      split; try done. simpl. by rewrite delete_insert_id.
  - pose proof (served_check cfg backoff M time l s x now r "" Hg Hln) as Hsv. cbv zeta in Hsv. rewrite (unleased_model _ _ _ _ id Hconc) in Hsv.
    destruct (Model_Allow (rf_model x) (clock_ms time) (ref_request cfg r id)) as [m' o].
    destruct Hsv as (s' & c & -> & Hlim' & Hw & Hs' & Hsm' & Hp'). unfold Allow_end, forget. cbn [nth String.eqb].
    destruct (o_Allowed o); simpl.
    + split_and!; [done|split; done|done|done].
    + rewrite Hlim' by done. unfold Millisecond in *. rewrite wrap64_small by lia. split_and!; [done|split; done|done|done].
Qed.

Lemma renewAll_batches l :
  config_ok l → renewAll l 0 = (λ ti, CallRenew (keyConcurrency ti.1) 0 (LeaseTTLMs (limiter_params l)) ti.2) <$> renew_batches l.
Proof.
  intros Hcfg. unfold renewAll, renew_batches. generalize (range_map (by_tenant l)). intros L. induction L as [|ti L IH]; [done|].
  csimpl. rewrite fmap_app, IH. f_equal. unfold tenant_calls, nowOverride. rewrite (co_clock _ Hcfg), <-list_fmap_compose. done.
Qed.

Lemma batches_small l : Forall (λ ti, Z.of_nat (length ti.2) < 2 ^ 53) (renew_batches l).
Proof.
  apply Forall_forall. intros [t c] Hin. apply list_elem_of_bind in Hin as ([t' ids] & Hin & _).
  apply list_elem_of_fmap in Hin as (c' & [= -> ->] & Hc). destruct (chunks_spec (length ids) ids (le_n _)) as [_ Hl].
  rewrite Forall_forall in Hl. specialize (Hl c' Hc). simpl in *. lia.
Qed.

(** The batches one after the other. *)
Lemma renew_fold cfg backoff M time l s m now batches :
  good cfg backoff M time l → sim drift M s m → leases_small m → m_p m = limiter_params l → Forall (λ ti, Z.of_nat (length ti.2) < 2 ^ 53) batches →
  let '(l', s') := foldl (λ ls call, (with_redis ls.1 ls.2 now time call).1) (l, s)
    ((λ ti, CallRenew (keyConcurrency ti.1) 0 (LeaseTTLMs (limiter_params l)) ti.2) <$> batches) in
  let m' := foldl (λ m ti, (foldl (renew_step (clock_ms time) ti.1) (m, 0) ti.2).1) m batches in
  l' = l ∧ sim drift M s' m' ∧ leases_small m' ∧ m_p m' = limiter_params l.
Proof.
  intros [Hc Hf (Hck & HM & Hn) Hd] Hs Hsm Hp Hb. revert s m Hs Hsm Hp. induction Hb as [|[tenant ids] batches Hlen _ IH]; intros s m Hs Hsm Hp; [done|]. csimpl.
  rewrite with_redis_healthy by (apply Hc || apply serve_len). simpl.
  pose proof (renew_refines drift s M time m tenant ids Hck HM Hn ltac:(by rewrite Hp) Hlen Hs) as Hr. rewrite Hp in Hr.
  destruct (renews_ok (clock_ms time) tenant ids m 0 (sim_ok _ _ _ _ Hs) (clock_bounded _ Hck) Hsm) as (_ & Hp' & Hsm').
  simpl in Hr. destruct (renewScript s time (keyConcurrency tenant) 0 _ ids) as [s1 n].
  destruct (foldl (renew_step (clock_ms time) tenant) (m, 0) ids) as [m1 n1]. destruct Hr as [Hs1 _]. simpl in *.
  apply (IH s1 m1); [done|done|congruence].
Qed.

(** The leases of a round with their tenants. *)
Definition renew_pairs (l : RedisLimiter) : list (string * string) := renew_batches l ≫= λ ti, (λ id, (id, ti.1)) <$> ti.2.

Definition renew_it (t : Z) (it : string * string) (m : RateModel) : RateModel := (Model_Renew m t it.2 it.1).1.

Lemma batches_pairs t batches m :
  foldl (λ m ti, (foldl (renew_step t ti.1) (m, 0) ti.2).1) m batches =
  foldl (flip (renew_it t)) m (batches ≫= λ ti : string * list string, (λ id, (id, ti.1)) <$> ti.2).
Proof.
  revert m. induction batches as [|[tenant ids] batches IH]; intros m; [done|]. csimpl. rewrite foldl_app, IH. f_equal. clear.
  generalize 0 as n. revert m. induction ids as [|id ids IH]; intros m n; [done|]. csimpl. rewrite <-(IH _ (renew_step t tenant (m, n) id).2).
  f_equal. f_equal. unfold renew_step, renew_it. simpl. by destruct (Model_Renew m t tenant id).
Qed.

Lemma pairs_perm l : renew_pairs l ≡ₚ map_to_list (l_leases l).
Proof.
  destruct (group_fold (l_leases l) (range_map (l_leases l)) ∅) as [Hg Hok];
    [intros [id t] Hin; by apply elem_of_range_map in Hin|apply map_Forall_empty|]. fold (by_tenant l) in *.
  assert (Hpairs : renew_pairs l = range_map (by_tenant l) ≫= λ ti, (λ id, (id, ti.1)) <$> ti.2).
  { unfold renew_pairs, renew_batches. generalize (range_map (by_tenant l)). clear. intros L. induction L as [|[t ids] L IH]; [done|].
    csimpl. rewrite bind_app, IH. f_equal. destruct (chunks_spec (length ids) ids (le_n _)) as [Hj _]. rewrite <-Hj at 3. generalize (renew_chunks (length ids) ids).
    intros cs. clear. induction cs as [|c cs IH]; [done|]. csimpl. rewrite fmap_app. by rewrite <-IH. }
  set (own := λ id, (id, default "" (l_leases l !! id))).
  assert (Hown : renew_pairs l = own <$> mjoin (snd <$> range_map (by_tenant l))).
  { rewrite Hpairs. assert (Hin : ∀ ti, ti ∈ range_map (by_tenant l) → Forall (λ id, l_leases l !! id = Some ti.1) ti.2).
    { intros [t ids] Hin%elem_of_range_map. exact (Hok _ _ Hin). }
    clear Hpairs. induction (range_map (by_tenant l)) as [|[t ids] L IH]; [done|]. csimpl. rewrite fmap_app, IH by (intros ti Hti; apply Hin; by right). f_equal.
    apply list_fmap_ext. intros i id Hid. unfold own. assert (Hi : l_leases l !! id = Some t); [|by rewrite Hi].
    specialize (Hin (t, ids) ltac:(by left)). rewrite Forall_forall in Hin. apply Hin. by apply list_elem_of_lookup_2 in Hid. }
  rewrite Hown. assert (own <$> (map_to_list (l_leases l)).*1 = map_to_list (l_leases l)) as <-.
  { rewrite <-list_fmap_compose. rewrite <-(list_fmap_id (map_to_list (l_leases l))) at 2. apply list_fmap_ext. intros i [id t] Hi.
    apply list_elem_of_lookup_2, elem_of_map_to_list in Hi. unfold own. simpl. by rewrite Hi. }
  apply fmap_Permutation. etrans; [|etrans; [exact Hg|]].
  - unfold grouped. by rewrite range_map_perm.
  - unfold grouped. rewrite map_to_list_empty. simpl. by rewrite range_map_perm.
Qed.

Definition prolong (t exp : Z) (id : string) (held : gmap string Z) : gmap string Z :=
  match held !! id with Some e => if e <=? t then held else <[id := exp]> held | None => held end.

Lemma renew_it_prolong t it m :
  renew_it t it m = m <| m_leases := alter (prolong t (t +! LeaseTTLMs (m_p m))%go it.1) (keyConcurrency it.2) (m_leases m) |>.
Proof.
  unfold renew_it, Model_Renew. assert (∀ h, m_leases m !! keyConcurrency it.2 = Some h → prolong t (t +! LeaseTTLMs (m_p m))%go it.1 h = h →
    m = m <| m_leases := alter (prolong t (t +! LeaseTTLMs (m_p m))%go it.1) (keyConcurrency it.2) (m_leases m) |>) as Hsame.
  { intros h Hh Hp. destruct m as [p bs ls]. simpl in *. unfold rset. simpl. f_equal. symmetry. apply alter_id. intros h' Hh'. by simplify_eq. }
  destruct (m_leases m !! keyConcurrency it.2) as [h|] eqn:Hh; simpl.
  - unfold prolong in *. destruct (h !! it.1) as [e|] eqn:He; simpl; [|apply (Hsame h eq_refl); by rewrite He].
    destruct (e <=? t) eqn:Hle; simpl; [apply (Hsame h eq_refl); by rewrite He, Hle|]. unfold rset. simpl. f_equal.
    apply alter_ext. intros h' Hh'. simplify_eq. by rewrite He, Hle.
  - rewrite lookup_empty. simpl. destruct m as [p bs ls]. simpl in *. unfold rset. simpl. f_equal. symmetry. apply alter_id. intros h' Hh'. by simplify_eq.
Qed.

Lemma lookup_prolong t exp id h k :
  prolong t exp id h !! k = if decide (k = id) then (λ e, if e <=? t then e else exp) <$> h !! k else h !! k.
Proof.
  unfold prolong. case_decide as Hk; [subst k|].
  - destruct (h !! id) as [e|] eqn:He; [|done]. simpl. destruct (e <=? t); [done|]. by rewrite lookup_insert_eq.
  - destruct (h !! id) as [e|]; [|done]. destruct (e <=? t); [done|]. by rewrite lookup_insert_ne.
Qed.

Lemma prolong_comm t exp id1 id2 h : prolong t exp id1 (prolong t exp id2 h) = prolong t exp id2 (prolong t exp id1 h).
Proof. apply map_eq. intros k. rewrite !lookup_prolong. by repeat case_decide. Qed.

(** Renewals commute. *)
Lemma renew_it_comm t it1 it2 m : renew_it t it1 (renew_it t it2 m) = renew_it t it2 (renew_it t it1 m).
Proof.
  rewrite !renew_it_prolong. destruct m as [p bs ls]. unfold rset. simpl. f_equal.
  destruct (decide (keyConcurrency it1.2 = keyConcurrency it2.2)) as [->|Hne].
  - rewrite !alter_alter_eq. apply alter_ext. intros h _. simpl. apply prolong_comm.
  - by apply alter_alter_ne.
Qed.

Lemma renew_perm t L1 L2 m : L1 ≡ₚ L2 → foldl (flip (renew_it t)) m L1 = foldr (renew_it t) m L2.
Proof.
  intros Hp. assert (foldl (flip (renew_it t)) m L1 = foldr (renew_it t) m (reverse L1)) as ->.
  { clear Hp. induction L1 as [|it L IH] using rev_ind; [done|]. by rewrite foldl_app, reverse_snoc, IH. }
  apply (foldr_permutation (=)); [apply _|intros; apply renew_it_comm|]. by rewrite reverse_Permutation.
Qed.

(** A round renews each lease of the table. *)
Lemma renew_step_ref cfg backoff M time l s x now :
  good cfg backoff M time l → linked M l s x →
  let '(l', s') := foldl (λ ls call, (with_redis ls.1 ls.2 now time call).1) (l, s) (renewAll l 0) in
  l' = l ∧ linked M l s' (x <| rf_model := ref_renew (rf_model x) (clock_ms time) (rf_leases x) |>).
Proof.
  intros Hg [Hs Hsm Hp HL Hj Hcl]. rewrite renewAll_batches by apply Hg.
  pose proof (renew_fold cfg backoff M time l s (rf_model x) now (renew_batches l) Hg Hs Hsm Hp (batches_small l)) as Hr.
  rewrite batches_pairs, (renew_perm _ _ _ _ (pairs_perm l)), HL in Hr. unfold ref_renew. fold (renew_it (clock_ms time)).
  destruct (foldl (λ ls call, (with_redis ls.1 ls.2 now time call).1) _ _) as [l' s']. destruct Hr as (-> & Hs' & Hsm' & Hp'). by split; [|split].
Qed.

Lemma releaser_ref l tenant id x :
  id ≠ "" → l_leases l = rf_leases x → l_releaseQ l = rf_jobs x → l_closed l = rf_closed x →
  let l' := run_releaser l tenant id in
  l_cfg l' = l_cfg l ∧ l_c l' = l_c l ∧ l_leases l' = delete id (rf_leases x) ∧ l_closed l' = rf_closed x ∧
  l_releaseQ l' = if rf_closed x || (4096 <=? Z.of_nat (length (rf_jobs x))) then rf_jobs x else rf_jobs x ++ [mkReleaseJob tenant id].
Proof.
  intros Hid HL Hj Hc. unfold run_releaser, enqueue, forget, releaseQueueSize. destruct (String.eqb_spec id ""); [done|]. simpl.
  rewrite Z.leb_antisym, <-HL, <-Hj, <-Hc. destruct (l_closed l) eqn:Hcl; [done|]. simpl.
  destruct (Z.of_nat (length (l_releaseQ l)) <? 4096); done.
Qed.

Lemma linked_expire M time l s x : near drift M (clock_ms time) → linked M l s x → linked M l (expire s (clock_ms time)) x.
Proof. intros Hn [Hs Hsm Hp HL Hj Hcl]. split; try done. by apply sim_expire. Qed.

(** The ids an operation brings. *)
Definition hop_ok (x : RefLimiter) (o : hop) : Prop :=
  match o with HAllow _ id => id ≠ "" ∧ rf_leases x !! id = None | HRelease _ id => id ≠ "" | _ => True end.

(** One operation: the same answer, and the relation is kept. *)
Lemma step_refines cfg backoff M time l s x now o :
  good cfg backoff M time l → linked M l s x → hop_ok x o →
  let '(l', s', a) := real_step l s now time o in
  let '(x', a') := ref_step cfg backoff x (clock_ms time) o in
  a = a' ∧ linked M l' s' x' ∧ l_cfg l' = l_cfg l ∧ l_c l' = l_c l.
Proof.
  intros Hg Hln Ho. apply (linked_expire M time) in Hln; [|apply Hg]. unfold real_step. set (s0 := expire s _) in *. clearbody s0. cbv zeta.
  destruct o as [r id| |tenant id| | |]; cbn [ref_step].
  - destruct Ho as [Hid Hnew]. pose proof (allow_step cfg backoff M time l s0 x now r id Hg Hln Hid Hnew) as Ha.
    destruct (real_allow l s0 now time r id) as [[l' s'] a]. destruct (ref_allow cfg backoff x (clock_ms time) r id) as [x' a'].
    by destruct Ha as (-> & ? & ? & ?).
  - pose proof (renew_step_ref cfg backoff M time l s0 x now Hg Hln) as Hr. destruct (foldl _ (l, s0) _) as [l' s']. by destruct Hr as [-> ?].
  - pose proof Hln as [Hs Hsm Hp HL Hj Hcl]. destruct (releaser_ref l tenant id x Ho HL Hj Hcl) as (E1 & E2 & E3 & E4 & E5). cbv zeta in *.
    split_and!; [done| |done|done]. split; try done. simpl. unfold limiter_params. by rewrite E1.
  - pose proof Hln as [Hs Hsm Hp HL Hj Hcl]. unfold next_release. rewrite Hj. destruct (rf_jobs x) as [|j q]; [done|].
    rewrite with_redis_healthy by (apply Hg || apply serve_len). cbn [doRelease_end].
    pose proof (release_refines drift s0 M time (rf_model x) (j_tenant j) (j_id j) ltac:(apply Hg) Hs) as Hr. unfold serve, release_call.
    destruct (releaseScript s0 time (keyConcurrency (j_tenant j)) (j_id j)) as [s' n]. split_and!; [done| |done|done]. split; try done.
    exact (leases_small_mrun (rf_model x) (clock_ms time) (MRelease (j_tenant j) (j_id j)) (sim_ok _ _ _ _ Hs)
      ltac:(apply clock_bounded, Hg) I Hsm).
  - pose proof Hln as [Hs Hsm Hp HL Hj Hcl]. split_and!; [done| |done|done]. by split.
  - done.
Qed.

Fixpoint real_run (l : RedisLimiter) (s : store) (ops : list (Time * (Z * Z) * hop)) : list (option Answer) :=
  match ops with
  | [] => []
  | (now, time, o) :: ops => let '(l, s, a) := real_step l s now time o in a :: real_run l s ops
  end.

(** The ids still to be drawn stay out of the table. *)
Lemma undrawn cfg backoff x t o (ids : list string) :
  (match o with HAllow _ id => id ∉ ids | _ => True end) → (∀ id, id ∈ ids → rf_leases x !! id = None) →
  ∀ id, id ∈ ids → rf_leases (ref_step cfg backoff x t o).1 !! id = None.
Proof.
  intros Ho Hids id Hin. specialize (Hids id Hin). destruct o as [r id'| |tenant id'| | |]; cbn [ref_step]; try done.
  - assert (id ≠ id') by (intros ->; done). unfold ref_allow. cbv zeta. destruct (_ && _); [done|]. destruct (_ && _); [done|].
    destruct (Model_Allow _ _ _) as [m o]. destruct (o_Allowed o); simpl; [|done]. destruct (0 <? _); [|done]. by rewrite lookup_insert_ne.
  - simpl. rewrite lookup_delete_None. by right.
  - by destruct (rf_jobs x).
Qed.

Definition releases_named (ops : list (Time * (Z * Z) * hop)) : Prop := Forall (λ x, match x.2 with HRelease _ id => id ≠ "" | _ => True end) ops.

Lemma limiter_run cfg backoff l s x M ops :
  config_ok l → follows cfg backoff l → drift_ok drift (limiter_params l) → linked M l s x → time_bounded M →
  Forall (λ x, clock_ok x.1.2) ops → steady drift M ((λ x, clock_ms x.1.2) <$> ops) →
  NoDup (drawn ops) → "" ∉ drawn ops → releases_named ops → (∀ id, id ∈ drawn ops → rf_leases x !! id = None) →
  real_run l s ops = ref_run cfg backoff x ops.
Proof.
  revert l s x M. induction ops as [|[[now time] o] ops IH]; intros l s x M Hcfg Hf Hd Hln HM Hck Hst Hnd Hne Hrel Hids; [done|]. cbn [real_run ref_run].
  apply Forall_cons in Hck as [Hc Hck], Hrel as [Hr Hrel]. csimpl in Hst. destruct Hst as [Hback Hst]. simpl in Hc, Hr.
  assert (time_bounded (Z.max M (clock_ms time))) as HM' by (pose proof (clock_bounded _ Hc); unfold time_bounded in *; lia).
  assert (good cfg backoff (Z.max M (clock_ms time)) time l) as Hg by (split; [done|done|split_and!; [done|done|apply near_max; [apply Hd|done]]|done]).
  assert (linked (Z.max M (clock_ms time)) l s x) as Hln'.
  { destruct Hln as [Hs Hsm Hp HL Hj Hcl]. split; try done. eapply sim_later; [|done]. lia. }
  assert (Hdr : drawn ((now, time, o) :: ops) = (match o with HAllow _ id => [id] | _ => [] end) ++ drawn ops) by done. rewrite Hdr in *. clear Hdr.
  apply NoDup_app in Hnd as (_ & Hdis & Hnd). rewrite not_elem_of_app in Hne. destruct Hne as [Hne1 Hne].
  assert (hop_ok x o) as Ho.
  { destruct o as [r id| |tenant id| | |]; try done. split; [intros ->; apply Hne1; by left|]. apply Hids. by left. }
  pose proof (step_refines cfg backoff _ time l s x now o Hg Hln' Ho) as Hstep.
  pose proof (undrawn cfg backoff x (clock_ms time) o (drawn ops)) as Hun.
  specialize (Hun ltac:(destruct o; try done; apply Hdis; by left) ltac:(intros id Hin; apply Hids; apply elem_of_app; by right)).
  destruct (real_step l s now time o) as [[l1 s1] a]. destruct (ref_step cfg backoff x (clock_ms time) o) as [x1 a1].
  destruct Hstep as (-> & Hln1 & E1 & E2). pose proof (good_same _ _ _ _ l l1 E1 E2 Hg) as [G1 G2 _ G4]. f_equal.
  by apply (IH l1 s1 x1 (Z.max M (clock_ms time))).
Qed.

(** C1: A limiter on a healthy Redis enforces the reference model.  Any limiter [NewRedis] accepts
    (without a test clock), on a Redis that behaves as documented and starts empty, gives for
    any requests, with any quotas, costs and names, interleaved with rounds of renewal and
    releases, exactly the answers of a reference that knows only the configuration: a request
    limited somewhere whose names do not fit a key follows the failure mode, a lease beyond the
    gateway's maximum is an error, and the model of model.go decides every other request on its
    quotas and cost clamped to their ranges, with each lease of the table renewed in a round and
    each released lease given back in order.  Lease ids do not repeat, and the server's clock
    steps back by no more than half a burst window and half a lease's life.  The bounds the
    scripts need are those the limiter enforces. *)
Theorem limiter_implements_model c cfg l s ops :
  NewRedis c cfg = inl l → c_down c = false → lc_Clock cfg = false → in64 (lc_LeaseTTL cfg) → (∀ k, view s k = None) →
  drift_ok drift (ref_params cfg) → Forall (λ x, clock_ok x.1.2) ops → steady drift 0 ((λ x, clock_ms x.1.2) <$> ops) →
  NoDup (drawn ops) → "" ∉ drawn ops → releases_named ops →
  real_run l s ops = ref_run cfg (c_backoff c) (ref_new cfg) ops.
Proof.
  intros Hnew Hd Hclk Httl Hempty Hdrift Hck Hst Hnd Hne Hrel. pose proof (NewRedis_ok c cfg l Hnew Hd Hclk Httl) as Hcfg.
  pose proof (NewRedis_follows c cfg l Hnew) as Hf. pose proof (fo_params _ _ _ Hf) as Hp.
  apply (limiter_run cfg _ l s _ 0); try done; [by rewrite Hp|].
  destruct (new_linked drift s (ref_params cfg) 0) as [Hs Hsm]; [rewrite <-Hp; apply Hcfg|done|].
  unfold NewRedis in Hnew. repeat (match goal with H : context [if ?b then inr _ else _] |- _ => destruct b eqn:?; [done|] end). simplify_eq.
  by split.
Qed.
End healthy.

(** ** Instances. *)

Definition ex_client : Client := New "s3k" Second.
Definition ex_cfg (mode : string) : LimiterConfig := mkLimiterConfig mode 0 0 2 {[ "llama" := 5 ]} false.
Definition ex_limiter (mode : string) : RedisLimiter := match NewRedis ex_client (ex_cfg mode) with inl l => l | inr _ => mkRedisLimiter ex_client (ex_cfg mode) ∅ [] 0 false end.
Definition ex_request (tenant : string) : LimitRequest := mkLimitRequest tenant "llama" 100 (mkLimits 2 0 1).

Lemma failure_modes_witness :
  (Allow_end (ex_limiter "closed") (at_ms 5) (ex_request "acme") "id1" (inr ex_refused)).2 = inr (mkUnavailableError Second ex_refused) ∧
  (Allow_end (ex_limiter "open") (at_ms 5) (ex_request "acme") "id1" (inr ex_refused)).2 = inl (mkDecision true "" 0 true noopRelease) ∧
  Unavailable_Is (mkUnavailableError Second ex_refused) "ratelimit.ErrUnavailable" = true.
Proof.
  split; [vm_compute; reflexivity|]. split; [vm_compute; reflexivity|].
  assert (∀ e, inr ex_refused = inr e :> (list Z + GoError) → errors_Is e "ratelimit.ErrLeaseCapacity" = false) as He
    by (intros e [= <-]; vm_compute; reflexivity).
  pose proof (failure_modes (ex_limiter "closed") (at_ms 0) (ex_request "acme") "id1" 0 (ex_limiter "closed") (at_ms 5) (inr ex_refused)
    ltac:(left; vm_compute; reflexivity) ltac:(discriminate) eq_refl ltac:(vm_compute; reflexivity) ltac:(vm_compute; reflexivity) He) as Hw.
  vm_compute in Hw. vm_compute. exact (proj1 (proj1 Hw)).
Defined.

Definition ex_table : LSys :=
  foldl lrun (mkLSys (ex_limiter "closed") [] [] 0 0 0)
    [LBegin (at_ms 0) (ex_request "acme") "id1" 0; LBegin (at_ms 1) (ex_request "globex") "id2" 0; LEnd 1 (at_ms 2) (inl [1; 0; 0]);
     LEnd 0 (at_ms 3) (inr ex_refused); LRelease 0; LTake; LBegin (at_ms 4) (ex_request "acme") "id3" 0].

Lemma lease_table_witness : live ex_table = [("id3", "acme")] ∧ y_released ex_table = 1 ∧ l_leases (y_l ex_table) = list_to_map (live ex_table).
Proof.
  split; [vm_compute; reflexivity|]. split; [vm_compute; reflexivity|].
  assert (lreach (ex_limiter "closed") ex_table) as Hr.
  { unfold ex_table. cbn [foldl].
    apply lreach_step; [|split; [discriminate|vm_compute; apply not_elem_of_nil]].
    apply lreach_step; [|exact I]. apply lreach_step; [|exact I]. apply lreach_step; [|exact I]. apply lreach_step; [|exact I].
    apply lreach_step; [|split; [discriminate|vm_compute; intros Hin%list_elem_of_In; simpl in Hin; by destruct Hin as [[=]|[]]]].
    apply lreach_step; [|split; [discriminate|vm_compute; apply not_elem_of_nil]]. apply lreach_new. }
  exact (proj1 (lease_table ex_client (ex_cfg "closed") (ex_limiter "closed") ex_table eq_refl Hr)).
Defined.

(** The clock steps back by 19 seconds before the release; "x" is a model without a quota. *)
Definition ex_ops : list (Time * (Z * Z) * hop) :=
  [(at_ms 0, (1, 0), HAllow (ex_request "acme") "id1"); (at_ms 5, (1, 5000), HAllow (ex_request "acme") "id2");
   (at_ms 20000, (21, 0), HRenewAll); (at_ms 21000, (2, 0), HRelease "acme" "id1"); (at_ms 21001, (2, 1000), HSend);
   (at_ms 21002, (2, 2000), HAllow (ex_request "acme") "id3"); (at_ms 21003, (22, 3000), HAllow (mkLimitRequest "" "x" 1 (mkLimits 2 0 1)) "id4");
   (at_ms 90000, (90, 0), HIdle); (at_ms 90001, (90, 1), HAllow (ex_request "acme") "id5")].

Lemma limiter_implements_model_witness :
  @real_run map_server order_id (ex_limiter "closed") (∅ : gmap string rentry) ex_ops =
  [Some (inl (mkDecision true "" 0 false (releaser "acme" "id1"))); Some (inl (mkDecision false "concurrency" Second false noopRelease)); None; None; None;
   Some (inl (mkDecision true "" 0 false (releaser "acme" "id3"))); Some (inl (mkDecision true "" 0 false noopRelease)); None;
   Some (inl (mkDecision true "" 0 false (releaser "acme" "id5")))].
Proof.
  transitivity (ref_run (ex_cfg "closed") Second (ref_new (ex_cfg "closed")) ex_ops); [|vm_compute; reflexivity].
  apply (@limiter_implements_model map_server order_id 30000 ex_client (ex_cfg "closed") (ex_limiter "closed") (∅ : gmap string rentry) ex_ops);
    [reflexivity|reflexivity|reflexivity|split; vm_compute; discriminate|intros k; apply lookup_empty| | | | | |].
  - split_and!; vm_compute; discriminate.
  - unfold ex_ops. repeat (constructor; [split; [vm_compute; discriminate|split; [split; vm_compute; (discriminate || reflexivity)|vm_compute; discriminate]]|]). constructor.
  - repeat split; vm_compute; discriminate.
  - apply (bool_decide_unpack (NoDup (drawn ex_ops))). vm_compute. exact I.
  - apply (bool_decide_unpack ("" ∉ drawn ex_ops)). vm_compute. exact I.
  - repeat constructor. discriminate.
Defined.
