(* ===== verification/Scheduler.v ===== *)
(** * The scheduler (internal/scheduler/scheduler.go, workaware.go)

    The filter of the workers that may serve a request and the six strategies.  A strategy's
    state is the rotor, the worker handed out last per model; a selection is one step of it, with
    the random number an input.  A slice index out of range would panic, so a selection can end
    as [Panicked]; that it does not is a theorem.  [sort.Slice] is not stable, but worker ids are
    distinct in a registry snapshot, where its result is the only sorted permutation. *)

From Stdlib Require Import Ascii String SpecFloat.
From S2P Require Import Prelude GoFloat GoString GoSort Protocol Cost.

Local Open Scope string_scope.
Local Open Scope list_scope.
Local Open Scope Z_scope.

(** ** Requests. *)

Record InferenceRequest := mkInferenceRequest {
  ir_RequestID : string; ir_TenantID : string; ir_Model : string; ir_Messages : list Message; ir_Prompt : string; ir_Stream : bool;
  ir_MaxTokens : Z; ir_Temperature : float64; ir_Priority : Z; ir_EstInputTokens : Z; ir_EstOutputTokens : Z
}.

(** ** The filter. *)

Record NoWorkerError := mkNoWorkerError { nw_Model : string; nw_Serving : Z; nw_Eligible : Z; nw_AtCapacity : Z }.

#[global] Instance eta_NoWorkerError : Settable NoWorkerError :=
  {| eta_of := λ e, mkNoWorkerError (nw_Model e) (nw_Serving e) (nw_Eligible e) (nw_AtCapacity e) |}.

Definition UnknownModel (e : NoWorkerError) : bool := nw_Serving e =? 0.

(** One round of the loop of eligible: the indices kept so far, and why the others were not. *)
Definition eligible_step (req : InferenceRequest) (st : list nat * NoWorkerError) (iw : nat * WorkerSnapshot) : list nat * NoWorkerError :=
  let '(idx, why) := st in
  let '(i, w) := iw in
  if negb (String.eqb (s_Model w) (ir_Model req)) then (idx, why)
  else
  let why := why <| nw_Serving := nw_Serving why + 1 |> in
  if negb (String.eqb (s_State w) StateReady) || negb (s_Eligible w)
     || (negb (String.eqb (s_Health w) HealthHealthy) && negb (String.eqb (s_Health w) HealthSuspect)) then (idx, why)
  else
  let why := why <| nw_Eligible := nw_Eligible why + 1 |> in
  if s_MaxConcurrency w <=? ActiveRequests (s_Metrics w) then (idx, why <| nw_AtCapacity := nw_AtCapacity why + 1 |>)
  else (idx ++ [i], why).

Definition id_at (workers : list WorkerSnapshot) (i : nat) : string := match workers !! i with Some w => s_WorkerID w | None => "" end.

(** [sort.SliceIsSorted] by worker id. *)
Fixpoint is_sorted (ids : list string) : bool :=
  match ids with
  | a :: (b :: _) as rest => negb (String.ltb b a) && is_sorted rest
  | _ => true
  end.

Definition eligible (req : InferenceRequest) (workers : list WorkerSnapshot) : list nat + NoWorkerError :=
  let '(idx, why) := foldl (eligible_step req) ([], mkNoWorkerError (ir_Model req) 0 0 0) (imap pair workers) in
  match idx with
  | [] => inr why
  | _ => inl (if is_sorted (id_at workers <$> idx) then idx else sort_by (id_at workers) idx)
  end.

Definition Candidates (req : InferenceRequest) (workers : list WorkerSnapshot) : list WorkerSnapshot + NoWorkerError :=
  match eligible req workers with
  | inr why => inr why
  | inl idx => inl (omap (λ j, workers !! j) idx)
  end.

(** ** The rotor. *)

Definition Rotor : Type := gmap string string.

(** [rotor.next] for the ids of the workers, in order: the position, and the rotor after. *)
Definition rotor_next (r : Rotor) (model : string) (ids : list string) : Rotor * option nat :=
  let last := default "" (r !! model) in
  let i := sort_Search (length ids) (λ i, match ids !! i with Some id => String.ltb last id | None => false end) in
  let i := if (i =? length ids)%nat then 0%nat else i in
  match ids !! i with
  | Some id => (<[model := id]> r, Some i)
  | None => (r, None)
  end.

(** ** Selections. *)

Inductive SelectErr := ErrContext | ErrNoWorker (why : NoWorkerError).

Inductive Selection := Chosen (w : WorkerSnapshot) | Refused (e : SelectErr) | Panicked.

(** The worker at position [i] of [idx]. *)
Definition pick (workers : list WorkerSnapshot) (idx : list nat) (i : option nat) : Selection :=
  match i with
  | Some i => match idx !! i with Some j => match workers !! j with Some w => Chosen w | None => Panicked end | None => Panicked end
  | None => Panicked
  end.

Definition next_of (r : Rotor) (model : string) (workers : list WorkerSnapshot) (idx : list nat) : Rotor * Selection :=
  let '(r, i) := rotor_next r model (id_at workers <$> idx) in (r, pick workers idx i).

(** [leastLoaded.chooseWith]. *)
Definition load_at (load : WorkerSnapshot → Z) (workers : list WorkerSnapshot) (j : nat) : Z :=
  match workers !! j with Some w => load w | None => 0 end.

Definition min_load (load : WorkerSnapshot → Z) (workers : list WorkerSnapshot) (idx : list nat) : Z :=
  match idx with
  | [] => 0
  | j :: idx => foldl (λ m j, let l := load_at load workers j in if l <? m then l else m) (load_at load workers j) idx
  end.

Definition chooseWith (load : WorkerSnapshot → Z) (r : Rotor) (model : string) (workers : list WorkerSnapshot) (idx : list nat) : Rotor * Selection :=
  let m := min_load load workers idx in
  next_of r model workers (filter (λ j, load_at load workers j = m) idx).

Definition activeLoad (w : WorkerSnapshot) : Z := ActiveRequests (s_Metrics w).
Definition queueLoad (w : WorkerSnapshot) : Z := QueueDepth (s_Metrics w).

(** ** The work-aware strategies (workaware.go). *)

Definition has_flag (o : ObservedLoad) (f : Z) : bool := negb (Z.land (Flags o) f =? 0).

Definition set_flag (w : WorkerSnapshot) (f : Z) : WorkerSnapshot :=
  w <| s_Observed := (s_Observed w) <| Flags := Z.lor (Flags (s_Observed w)) f |> |>.

Definition trusted (w : WorkerSnapshot) : bool := has_flag (s_Observed w) ObservedLedger && negb (has_flag (s_Observed w) ObservedUntracked).

Definition validRate (r : float64) : bool := flt f0 r && negb (isInf r).

(** [medianOf], and [median] of the signals package: of a non-empty slice. *)
Definition medianOf (v : list float64) : float64 :=
  let v := sort_Float64s v in
  let n := length v in
  if (n mod 2 =? 1)%nat then default f0 (v !! (n / 2)%nat)
  else fdiv (fadd (default f0 (v !! (n / 2 - 1)%nat)) (default f0 (v !! (n / 2)%nat))) (f64 2).

Record scorer := mkScorer { sc_work : bool; sc_c : float64; sc_prior : float64; sc_degraded : bool }.

#[global] Instance eta_scorer : Settable scorer :=
  {| eta_of := λ s, mkScorer (sc_work s) (sc_c s) (sc_prior s) (sc_degraded s) |}.

Definition rates (ws : list WorkerSnapshot) : list float64 := filter (λ r, validRate r = true) ((CapacityTPS ∘ s_Observed) <$> ws).

(** [scorer.prepare], for the candidates. *)
Definition prepare (sc : scorer) (ws : list WorkerSnapshot) : scorer :=
  let known := rates ws in
  if (length known =? 0)%nat then sc <| sc_work := false |> <| sc_degraded := true |>
  else if (length known <? length ws)%nat then sc <| sc_prior := medianOf known |>
  else sc.

(** [scorer.score]: [None] when it is not valid. *)
Definition score (sc : scorer) (w : WorkerSnapshot) : option float64 :=
  if negb (trusted w) then None
  else
  let ahead := WorkAheadTokens (s_Observed w) in
  if negb (fle f0 ahead) || isInf ahead then None
  else if negb (sc_work sc) then Some ahead
  else
  let r := CapacityTPS (s_Observed w) in
  let r := if validRate r then r else sc_prior sc in
  let v := fdiv (fadd ahead (sc_c sc)) r in
  if isNaN v || isInf v then None else Some v.

Definition tieEps : float64 := flit 1 9.

(** The scores of the valid candidates, in order. *)
Definition valid_scores (sc : scorer) (ws : list WorkerSnapshot) : list float64 := omap (score sc) ws.

Definition best_score (vs : list float64) : float64 := foldl fmin fInf vs.

(** Whether a candidate is tied for the minimum. *)
Definition is_tied (sc : scorer) (best neutral : float64) (allInvalid : bool) (w : WorkerSnapshot) : bool :=
  let v := default neutral (score sc w) in
  allInvalid || fle v (fadd best (fmul tieEps (fabs best))).

Definition candidate (workers : list WorkerSnapshot) (p : WorkerSnapshot → bool) (j : nat) : bool :=
  match workers !! j with Some w => p w | None => false end.

(** [workAware.SelectWorker] after the filter. *)
Definition workAware_choose `{GoPlatform} (work : bool) (weights : Weights) (r : Rotor) (req : InferenceRequest)
  (workers : list WorkerSnapshot) (idx : list nat) : Rotor * Selection :=
  let ws := omap (λ j, workers !! j) idx in
  if negb (existsb trusted ws) then
    match chooseWith activeLoad r (ir_Model req) workers idx with
    | (r, Chosen w) => (r, Chosen (set_flag w ObservedDegraded))
    | x => x
    end
  else
  let sc := mkScorer work f0 f0 false in
  let sc := if work then prepare (sc <| sc_c := f64 (Work (ir_EstInputTokens req) (ir_EstOutputTokens req) weights) |>) ws else sc in
  let vs := valid_scores sc ws in
  let best := best_score vs in
  let neutral := if (length vs <? length ws)%nat && (0 <? length vs)%nat then medianOf vs else fInf in
  let allInvalid := (length vs =? 0)%nat in
  let tied := filter (λ j, candidate workers (is_tied sc best neutral allInvalid) j = true) idx in
  match next_of r (ir_Model req) workers tied with
  | (r, Chosen w) =>
      let c := if sc_degraded sc then set_flag w ObservedDegraded else w in
      let c :=
        if bool_decide (score sc c = None) && negb (has_flag (s_Observed c) ObservedUntracked) then set_flag c ObservedInvalid else c in
      (r, Chosen c)
  | x => x
  end.

Definition PredictedWait (o : ObservedLoad) (cost : float64) : option float64 :=
  if negb (has_flag o ObservedLedger) || negb (validRate (CapacityTPS o)) || negb (fle f0 (WorkAheadTokens o))
     || isInf (WorkAheadTokens o) || negb (fle f0 cost) then None
  else
  let v := fdiv (fadd (WorkAheadTokens o) cost) (CapacityTPS o) in
  if isNaN v || isInf v then None else Some v.

(** ** The schedulers. *)

Definition Random : string := "random".
Definition RoundRobin : string := "round-robin".
Definition LeastActive : string := "least-active".
Definition LeastQueue : string := "least-queue".
Definition LeastTokens : string := "least-tokens".
Definition LeastWork : string := "least-work".

Definition Strategies : list string := [Random; RoundRobin; LeastActive; LeastQueue; LeastTokens; LeastWork].

Definition WorkAware (strategy : string) : bool := String.eqb strategy LeastTokens || String.eqb strategy LeastWork.

Inductive Strategy := randomScheduler | roundRobin | leastLoaded (load : WorkerSnapshot → Z) | workAware (work : bool) (weights : Weights).

Definition New (strategy : string) (weights : Weights) : option Strategy :=
  if String.eqb strategy Random then Some randomScheduler
  else if String.eqb strategy RoundRobin then Some roundRobin
  else if String.eqb strategy LeastActive then Some (leastLoaded activeLoad)
  else if String.eqb strategy LeastQueue then Some (leastLoaded queueLoad)
  else if String.eqb strategy LeastTokens || String.eqb strategy LeastWork then Some (workAware (String.eqb strategy LeastWork) weights)
  else None.

(** [SelectWorker]: [rnd] is the random number [IntN] draws below the number of candidates. *)
Definition SelectWorker `{GoPlatform} (st : Strategy) (r : Rotor) (rnd : nat → nat) (cancelled : bool) (req : InferenceRequest)
  (workers : list WorkerSnapshot) : Rotor * Selection :=
  if cancelled then (r, Refused ErrContext)
  else
  match eligible req workers with
  | inr why => (r, Refused (ErrNoWorker why))
  | inl idx =>
      match st with
      | randomScheduler => (r, pick workers idx (Some (rnd (length idx))))
      | roundRobin => next_of r (ir_Model req) workers idx
      | leastLoaded load => chooseWith load r (ir_Model req) workers idx
      | workAware work weights => workAware_choose work weights r req workers idx
      end
  end.
