(* ===== verification/SchedulerSpec.v ===== *)
(** * What the scheduler guarantees

    Every strategy chooses only workers that may serve the request, and never panics; the
    round-robin strategy visits the candidates in turn; the least-loaded ones choose a minimum
    and rotate among equals; the work-aware ones stay within their tie tolerance of the best
    valid score. *)

From Stdlib Require Import Ascii String SpecFloat.
From S2P Require Import Prelude GoFloat FloatExact FloatOrder FloatBound GoString GoSort Protocol Cost Scheduler.

Local Open Scope string_scope.
Local Open Scope list_scope.
Local Open Scope Z_scope.

(** ** The filter. *)

Definition serves (req : InferenceRequest) (w : WorkerSnapshot) : bool := String.eqb (s_Model w) (ir_Model req).

(** READY, offered by the registry and not lost. *)
Definition offered (req : InferenceRequest) (w : WorkerSnapshot) : bool :=
  serves req w && String.eqb (s_State w) StateReady && s_Eligible w && (String.eqb (s_Health w) HealthHealthy || String.eqb (s_Health w) HealthSuspect).

Definition full (req : InferenceRequest) (w : WorkerSnapshot) : bool := offered req w && (s_MaxConcurrency w <=? ActiveRequests (s_Metrics w)).

(** The section 15 invariants. *)
Definition may_serve (req : InferenceRequest) (w : WorkerSnapshot) : bool := offered req w && (ActiveRequests (s_Metrics w) <? s_MaxConcurrency w).

Lemma eligible_step_spec req idx why i w :
  eligible_step req (idx, why) (i, w) =
  (idx ++ (if may_serve req w then [i] else []),
   mkNoWorkerError (nw_Model why) (nw_Serving why + Z.b2z (serves req w)) (nw_Eligible why + Z.b2z (offered req w)) (nw_AtCapacity why + Z.b2z (full req w))).
Proof.
  unfold eligible_step, may_serve, full, offered, serves. destruct why as [m s e c].
  destruct (String.eqb (s_Model w) (ir_Model req)), (String.eqb (s_State w) StateReady), (s_Eligible w), (String.eqb (s_Health w) HealthHealthy),
    (String.eqb (s_Health w) HealthSuspect); simpl; rewrite ?app_nil_r, ?Z.add_0_r; try done;
    destruct (Z.leb_spec (s_MaxConcurrency w) (ActiveRequests (s_Metrics w))), (Z.ltb_spec (ActiveRequests (s_Metrics w)) (s_MaxConcurrency w)); try lia; simpl;
    by rewrite ?app_nil_r, ?Z.add_0_r.
Qed.

Lemma eligible_fold req L idx why :
  foldl (eligible_step req) (idx, why) L =
  (idx ++ (filter (λ iw, may_serve req iw.2 = true) L).*1,
   mkNoWorkerError (nw_Model why) (nw_Serving why + countb (serves req) L.*2) (nw_Eligible why + countb (offered req) L.*2)
     (nw_AtCapacity why + countb (full req) L.*2)).
Proof.
  revert idx why. induction L as [|[i w] L IH]; intros idx why.
  { cbn. rewrite app_nil_r, !Z.add_0_r. by destruct why. }
  rewrite !fmap_cons, !countb_cons, filter_cons. cbn [foldl]. rewrite eligible_step_spec, IH, <-app_assoc. cbn [nw_Model nw_Serving nw_Eligible nw_AtCapacity snd].
  f_equal; [|by f_equal; lia]. f_equal. destruct (may_serve req w) eqn:Hm; case_decide; cbn; congruence.
Qed.

Lemma imap_pairs {A} (l : list A) : (imap pair l).*2 = l ∧ (∀ i x, (i, x) ∈ imap pair l ↔ l !! i = Some x) ∧ NoDup (imap pair l).*1.
Proof.
  split_and!.
  - rewrite fmap_imap. apply list_eq. intros i. by rewrite list_lookup_imap, option_fmap_id.
  - intros i x. rewrite list_elem_of_lookup. setoid_rewrite list_lookup_imap. split.
    + intros [j Hj]. by destruct (l !! j) eqn:Hl; simplify_eq/=.
    + intros Hi. exists i. by rewrite Hi.
  - rewrite fmap_imap. apply NoDup_alt. intros i j k Hi Hj. rewrite list_lookup_imap in Hi, Hj.
    destruct (l !! i), (l !! j); by simplify_eq/=.
Qed.

(** What a filtered selection can rely on. *)
Record candidates_ok (req : InferenceRequest) (workers : list WorkerSnapshot) (idx : list nat) : Prop := {
  cd_nonempty : idx ≠ [];
  cd_serves j : j ∈ idx ↔ ∃ w, workers !! j = Some w ∧ may_serve req w = true;
  cd_nodup : NoDup idx;
  cd_sorted : StronglySorted (by_key (id_at workers)) idx
}.

Lemma is_sorted_spec (key : nat → string) l : is_sorted (key <$> l) = true → StronglySorted (by_key key) l.
Proof.
  intros Hs. apply Sorted_StronglySorted; [apply _|]. induction l as [|a l IH]; [constructor|]. destruct l as [|b l]; [by repeat constructor|].
  csimpl in Hs. cbn [is_sorted] in Hs. apply andb_true_iff in Hs as [Hab Hs]. constructor; [by apply IH|]. constructor. unfold by_key.
  apply negb_true_iff in Hab. rewrite string_ltb_leb in Hab. by apply negb_false_iff in Hab.
Qed.

Lemma eligible_spec req workers :
  match eligible req workers with
  | inl idx => candidates_ok req workers idx
  | inr why => Forall (λ w, may_serve req w = false) workers ∧
      why = mkNoWorkerError (ir_Model req) (countb (serves req) workers) (countb (offered req) workers) (countb (full req) workers)
  end.
Proof.
  unfold eligible. rewrite eligible_fold. simpl app. destruct (imap_pairs workers) as (H2 & Hin & Hnd). rewrite H2.
  set (idx := (filter _ _).*1).
  assert (Hidx : ∀ j, j ∈ idx ↔ ∃ w, workers !! j = Some w ∧ may_serve req w = true).
  { intros j. unfold idx. rewrite list_elem_of_fmap. setoid_rewrite list_elem_of_filter. split.
    - intros ([i w] & -> & Hm & Hw). apply Hin in Hw. by exists w.
    - intros (w & Hw & Hm). exists (j, w). split_and!; [done|done|by apply Hin]. }
  assert (Hnd' : NoDup idx) by (by apply filter_fmap_NoDup).
  clearbody idx. destruct (decide (idx = [])) as [->|Hne].
  - split; [|done]. apply Forall_forall. intros w Hw. apply list_elem_of_lookup in Hw as [j Hj]. destruct (may_serve req w) eqn:Hm; [|done].
    assert (j ∈ @nil nat) as Hn by (apply Hidx; eauto). by apply elem_of_nil in Hn.
  - assert (Hcase : ∀ (y : NoWorkerError) (x : list nat), (match idx with [] => inr y | _ => inl x end) = inl x) by (by destruct idx).
    rewrite Hcase. clear Hcase.
    destruct (is_sorted (id_at workers <$> idx)) eqn:Hs.
    + split; [done|done|done|by apply is_sorted_spec].
    + split.
      * intros Hn. apply Hne. apply Permutation_nil. by rewrite <-Hn, sort_by_perm.
      * intros j. by rewrite elem_of_sort_by.
      * by rewrite sort_by_perm.
      * apply StronglySorted_merge_sort; apply _.
Qed.

(** ** Selections never panic. *)

(** Positions into [workers]. *)
Definition in_range (workers : list WorkerSnapshot) (idx : list nat) : Prop := ∀ j, j ∈ idx → is_Some (workers !! j).

Lemma candidates_in_range req workers idx : candidates_ok req workers idx → in_range workers idx.
Proof. intros H j (w & Hw & _)%(cd_serves _ _ _ H). by exists w. Qed.

Lemma next_of_chosen r model workers idx :
  idx ≠ [] → in_range workers idx →
  ∃ j w, j ∈ idx ∧ workers !! j = Some w ∧ next_of r model workers idx = (<[model := s_WorkerID w]> r, Chosen w).
Proof.
  intros Hne Hr. unfold next_of, rotor_next.
  match goal with |- context [sort_Search ?n ?f] => set (k := sort_Search n f); assert (Hk : (k ≤ n)%nat) by apply sort_Search_le end.
  clearbody k. rewrite length_fmap in *. set (i := if (k =? _)%nat then 0%nat else k).
  assert (Hi : (i < length idx)%nat) by (clear Hr; subst i; destruct (Nat.eqb_spec k (length idx)); [destruct idx; [done|simpl; lia]|lia]).
  clearbody i. destruct (lookup_lt_is_Some_2 idx i Hi) as [j Hj]. destruct (Hr j) as [w Hw]; [by eapply list_elem_of_lookup_2|].
  exists j, w. split_and!; [by eapply list_elem_of_lookup_2|done|]. rewrite list_lookup_fmap, Hj. cbn. unfold id_at, pick. by rewrite Hj, Hw.
Qed.

Lemma min_load_spec load workers idx :
  idx ≠ [] → (∃ j, j ∈ idx ∧ load_at load workers j = min_load load workers idx) ∧ ∀ j, j ∈ idx → min_load load workers idx ≤ load_at load workers j.
Proof.
  destruct idx as [|j idx]; [done|intros _]. unfold min_load. induction idx as [|k idx IH] using rev_ind.
  { cbn. split; [exists j; set_solver|]. intros k ->%list_elem_of_singleton. done. }
  rewrite foldl_app. cbn [foldl]. set (m := foldl _ _ idx) in *. clearbody m. destruct IH as [(j0 & Hj0 & Heq) Hmin].
  destruct (Z.ltb_spec (load_at load workers k) m); (split; [|intros i Hi; assert (i = k ∨ i ∈ j :: idx) as [->|Hi'] by set_solver; [lia|specialize (Hmin _ Hi'); lia]]).
  - exists k. set_solver.
  - exists j0. set_solver.
Qed.

Lemma chooseWith_chosen load r model workers idx :
  idx ≠ [] → in_range workers idx →
  ∃ j w, j ∈ idx ∧ workers !! j = Some w ∧ (∀ k w', k ∈ idx → workers !! k = Some w' → load w ≤ load w') ∧
    chooseWith load r model workers idx = (<[model := s_WorkerID w]> r, Chosen w).
Proof.
  intros Hne Hr. destruct (min_load_spec load workers idx Hne) as [(j0 & Hj0 & Heq) Hmin]. unfold chooseWith.
  set (tied := filter _ idx). destruct (next_of_chosen r model workers tied) as (j & w & Hj & Hw & ->).
  - intros Hn. assert (j0 ∈ tied) as Hin by (by apply list_elem_of_filter). rewrite Hn in Hin. by apply elem_of_nil in Hin.
  - intros j [_ Hj]%list_elem_of_filter. by apply Hr.
  - apply list_elem_of_filter in Hj as [Hm Hj]. exists j, w. split_and!; [done|done| |done]. intros k w' Hk Hw'.
    specialize (Hmin k Hk). unfold load_at in *. rewrite Hw in Hm. rewrite Hw' in Hmin. lia.
Qed.

(** ** The scores. *)

Lemma median_positive l : Forall positive_sign l → positive_sign (medianOf l).
Proof.
  intros Hl. assert (Hs : ∀ i : nat, positive_sign (default f0 (sort_Float64s l !! i))).
  { intros i. destruct (sort_Float64s l !! i) as [x|] eqn:Hx; [|done]. simpl. rewrite Forall_forall in Hl. apply Hl.
    rewrite <-(sort_Float64s_perm l). by eapply list_elem_of_lookup_2. }
  unfold medianOf. case_match; [done|]. apply half_positive, fadd_positive; apply Hs.
Qed.

(** A finite double that is not negative. *)
Definition score_ok (v : float64) : Prop := valid v ∧ fle f0 v = true ∧ isInf v = false.

Lemma score_ok_nan v : score_ok v → isNaN v = false.
Proof. intros (_ & H & _). by apply fle_nan in H as [_ ?]. Qed.

Definition scorer_ok (sc : scorer) : Prop := fle f0 (sc_c sc) = true ∧ positive_sign (sc_prior sc).

Lemma score_range sc w v : scorer_ok sc → valid (WorkAheadTokens (s_Observed w)) → score sc w = Some v → score_ok v.
Proof.
  intros [Hc Hp] Hv. unfold score. destruct (trusted w); [|done]. cbn [negb].
  destruct (fle f0 (WorkAheadTokens _)) eqn:Ha; [|done]. destruct (isInf (WorkAheadTokens _)) eqn:Hi; [done|]. cbn [negb orb].
  destruct (sc_work sc); [|by intros [= <-]]. cbn [negb].
  set (q := fdiv _ _). destruct (isNaN q) eqn:Hn; [done|]. destruct (isInf q) eqn:Hqi; [done|]. intros [= <-].
  split_and!; [apply fdiv_valid| |done].
  assert (fle f0 (fadd (WorkAheadTokens (s_Observed w)) (sc_c sc)) = true) as Hadd by (eapply fle_trans; [exact Ha|by apply fadd_ge]).
  destruct (fdiv_positive _ (if validRate (CapacityTPS (s_Observed w)) then CapacityTPS (s_Observed w) else sc_prior sc) Hadd) as [Hnan|Hok];
    [|by fold q in Hnan; congruence|done].
  destruct (validRate _) eqn:Hr; [|done]. apply positive_rate. by apply andb_true_iff in Hr as [? _].
Qed.

Lemma best_score_spec vs :
  Forall score_ok vs → (best_score vs ∈ vs ∨ (vs = [] ∧ best_score vs = fInf)) ∧ ∀ v, v ∈ vs → fle (best_score vs) v = true.
Proof.
  unfold best_score. induction vs as [|x vs IH] using rev_ind; intros Hvs; [split; [by right|]; by intros v ?%elem_of_nil|].
  apply Forall_app in Hvs as [Hvs Hx]. rewrite Forall_singleton in Hx. destruct (IH Hvs) as [Hin Hle]. rewrite foldl_app. cbn [foldl].
  set (b := foldl fmin fInf vs) in *.
  assert (isNaN b = false) as Hb by (destruct Hin as [Hin|[_ ->]]; [|done]; rewrite Forall_forall in Hvs; eauto using score_ok_nan).
  destruct (fmin_spec b x Hb (score_ok_nan _ Hx)) as (Heq & Hmb & Hmx). split.
  - left. apply elem_of_app. destruct Heq as [Heq|Heq]; rewrite Heq; [|by right; apply list_elem_of_singleton].
    destruct Hin as [Hin|[_ Hinf]]; [by left|].
    exfalso. rewrite Heq, Hinf in Hmx. destruct Hx as (_ & _ & Hxi). by destruct x as [[]|[]| |[] ? ?].
  - intros v [Hv| ->%list_elem_of_singleton]%elem_of_app; [|done]. eauto using fle_trans.
Qed.

(** The tie tolerance never excludes the minimum itself. *)
Lemma best_is_tied b : score_ok b → fle b (fadd b (fmul tieEps (fabs b))) = true.
Proof.
  intros (Hv & Hb & Hi). apply fadd_ge; [done..|].
  assert (tieEps = S754_finite false 4835703278458517 (-82)) as -> by (by vm_compute). apply fmul_nonneg; [lia|].
  by destruct b as [[]|[]| |[] ? ?].
Qed.

(** *** The work-aware choice. *)

(** The scorer the strategy builds for the candidates [ws]. *)
Definition scorer_of `{GoPlatform} (work : bool) (weights : Weights) (req : InferenceRequest) (ws : list WorkerSnapshot) : scorer :=
  let sc := mkScorer work f0 f0 false in
  if work then prepare (sc <| sc_c := f64 (Work (ir_EstInputTokens req) (ir_EstOutputTokens req) weights) |>) ws else sc.

(** Estimates and weights in the ranges the cost package produces and accepts. *)
Record request_ok (req : InferenceRequest) (weights : Weights) : Prop := {
  ro_in : ir_EstInputTokens req ≤ MaxCost;
  ro_out : ir_EstOutputTokens req ≤ MaxCost;
  ro_win : valid (InputWeight weights);
  ro_wout : valid (OutputFraction weights)
}.

Lemma scorer_of_ok `{GoPlatform} work weights req ws : request_ok req weights → scorer_ok (scorer_of work weights req ws).
Proof.
  intros [Hi Ho Hw1 Hw2]. unfold scorer_of. destruct work; [|done]. destruct (Work_range _ _ weights Hi Ho Hw1 Hw2) as [[Hpos _] _].
  pose proof (positive_nonneg _ (f64_positive _ Hpos)) as Hc. set (c := f64 _) in *. clearbody c. unfold prepare.
  repeat case_match; (split; [done|try done]). cbn. apply median_positive, Forall_forall. intros x [Hx _]%list_elem_of_filter.
  apply positive_rate. by apply andb_true_iff in Hx as [? _].
Qed.

Definition candidates_of (workers : list WorkerSnapshot) (idx : list nat) : list WorkerSnapshot := omap (λ j, workers !! j) idx.

Lemma elem_of_candidates workers idx w : w ∈ candidates_of workers idx ↔ ∃ j, j ∈ idx ∧ workers !! j = Some w.
Proof. apply list_elem_of_omap. Qed.

(** The copy returned differs from the snapshot only in its flags. *)
Definition same_worker (w c : WorkerSnapshot) : Prop := ∃ f, c = w <| s_Observed := (s_Observed w) <| Flags := f |> |>.

Lemma same_worker_refl w : same_worker w w.
Proof. exists (Flags (s_Observed w)). by destruct w as [????????????? []]. Qed.

Lemma same_worker_flag w c f : same_worker w c → same_worker w (set_flag c f).
Proof. intros [g ->]. by eexists. Qed.

(** [w] has a score within the tolerance of the minimum, an invalid one counting as the median. *)
Definition near_best (sc : scorer) (ws : list WorkerSnapshot) (w : WorkerSnapshot) : Prop :=
  let vs := valid_scores sc ws in
  vs = [] ∨ ∃ b, b ∈ vs ∧ (∀ v, v ∈ vs → fle b v = true) ∧ fle (default (medianOf vs) (score sc w)) (fadd b (fmul tieEps (fabs b))) = true.

Definition work_aware_choice `{GoPlatform} (work : bool) (weights : Weights) (req : InferenceRequest) (ws : list WorkerSnapshot) (w c : WorkerSnapshot) : Prop :=
  if existsb trusted ws then near_best (scorer_of work weights req ws) ws w
  else (∀ w', w' ∈ ws → activeLoad w ≤ activeLoad w') ∧ c = set_flag w ObservedDegraded.

Definition observed_ok (w : WorkerSnapshot) : Prop := valid (WorkAheadTokens (s_Observed w)).

Lemma valid_scores_ok sc ws : scorer_ok sc → Forall observed_ok ws → Forall score_ok (valid_scores sc ws).
Proof.
  intros Hsc Hws. apply Forall_forall. intros v (w & Hw & Hs)%list_elem_of_omap. rewrite Forall_forall in Hws. eapply score_range; [done| |exact Hs]. by apply Hws.
Qed.

Lemma omap_length_lt {A B} (f : A → option B) l x : x ∈ l → f x = None → (length (omap f l) < length l)%nat.
Proof.
  assert (Hle : ∀ k, (length (omap f k) ≤ length k)%nat) by (induction k as [|y k IH]; [done|]; csimpl; destruct (f y); simpl; lia).
  induction l as [|y l IH]; intros Hx Hf; [by apply elem_of_nil in Hx|]. csimpl. specialize (Hle l).
  apply elem_of_cons in Hx as [->|Hx]; [rewrite Hf; lia|]. specialize (IH Hx Hf). destruct (f y); simpl; lia.
Qed.

(** The tied set of the work-aware strategies: not empty, and near the best. *)
Lemma tied_spec sc workers idx :
  scorer_ok sc → Forall observed_ok (candidates_of workers idx) → idx ≠ [] → in_range workers idx →
  let ws := candidates_of workers idx in
  let vs := valid_scores sc ws in
  let neutral := if (length vs <? length ws)%nat && (0 <? length vs)%nat then medianOf vs else fInf in
  let tied := filter (λ j, candidate workers (is_tied sc (best_score vs) neutral (length vs =? 0)%nat) j = true) idx in
  tied ≠ [] ∧ ∀ j w, j ∈ tied → workers !! j = Some w → near_best sc ws w.
Proof.
  intros Hsc Hobs Hne Hr ws vs neutral tied. pose proof (valid_scores_ok sc ws Hsc Hobs) as Hok. fold vs in Hok.
  destruct (best_score_spec vs Hok) as [Hbest Hmin]. split.
  - assert (∃ j, j ∈ tied) as [j Hj]; [|intros Hn; rewrite Hn in Hj; by apply elem_of_nil in Hj].
    destruct Hbest as [Hin|[Hnil _]].
    + pose proof Hin as (w & Hw & Hs)%list_elem_of_omap. apply elem_of_candidates in Hw as (j & Hj & Hw). exists j. apply list_elem_of_filter.
      split; [|done]. unfold candidate, is_tied. rewrite Hw, Hs. cbn [default]. rewrite best_is_tied; [apply orb_true_r|]. rewrite Forall_forall in Hok. auto.
    + destruct idx as [|j idx]; [done|]. exists j. apply list_elem_of_filter. split; [|set_solver]. unfold candidate, is_tied.
      destruct (Hr j) as [w ->]; [set_solver|]. by rewrite Hnil.
  - intros j w [Ht Hj]%list_elem_of_filter Hw. unfold candidate, is_tied in Ht. rewrite Hw in Ht. unfold near_best. fold vs.
    destruct Hbest as [Hin|[Hnil _]]; [right|by left]. assert (Hlen : (0 < length vs)%nat) by (destruct vs; [by apply elem_of_nil in Hin|simpl; lia]).
    exists (best_score vs). split_and!; [done|done|]. destruct (Nat.eqb_spec (length vs) 0); [lia|]. cbn [orb] in Ht.
    destruct (score sc w) as [v|] eqn:Hs; [done|]. cbn [default from_option] in *. unfold neutral in Ht.
    assert (length vs < length ws)%nat as Hlt by (apply (omap_length_lt (score sc) ws w); [apply elem_of_candidates; eauto|done]).
    by rewrite (proj2 (Nat.ltb_lt _ _) Hlen), (proj2 (Nat.ltb_lt _ _) Hlt) in Ht.
Qed.

Lemma workAware_chosen `{GoPlatform} work weights r req workers idx :
  request_ok req weights → Forall observed_ok (candidates_of workers idx) → idx ≠ [] → in_range workers idx →
  ∃ j w c, j ∈ idx ∧ workers !! j = Some w ∧ same_worker w c ∧ work_aware_choice work weights req (candidates_of workers idx) w c ∧
    workAware_choose work weights r req workers idx = (<[ir_Model req := s_WorkerID w]> r, Chosen c).
Proof.
  intros Hreq Hobs Hne Hr. unfold workAware_choose, work_aware_choice. fold (candidates_of workers idx). set (ws := candidates_of workers idx) in *.
  destruct (existsb trusted ws) eqn:Htr; cbn [negb].
  - fold (scorer_of work weights req ws). set (sc := scorer_of work weights req ws).
    destruct (tied_spec sc workers idx) as [Hnt Hnear]; [by apply scorer_of_ok|done..|]. fold ws in Hnt, Hnear.
    match goal with |- context [next_of _ _ _ ?t] => set (tied := t) in * end.
    destruct (next_of_chosen r (ir_Model req) workers tied Hnt) as (j & w & Hj & Hw & ->); [intros j [_ Hj]%list_elem_of_filter; by apply Hr|].
    exists j, w. eexists. split_and!; [by apply list_elem_of_filter in Hj as [_ ?]|done| |by eapply Hnear|reflexivity].
    repeat case_match; eauto using same_worker_refl, same_worker_flag.
  - destruct (chooseWith_chosen activeLoad r (ir_Model req) workers idx Hne Hr) as (j & w & Hj & Hw & Hmin & ->).
    exists j, w, (set_flag w ObservedDegraded). split_and!; [done|done|by eexists| |done|done].
    intros w' (k & Hk & Hw')%elem_of_candidates. eauto.
Qed.

(** ** The strategies. *)

Definition strategy_ok (st : Strategy) (req : InferenceRequest) : Prop := match st with workAware _ weights => request_ok req weights | _ => True end.

(** What a strategy promises of its choice [w] among [cs], returned as the copy [c]. *)
Definition chosen_by `{GoPlatform} (st : Strategy) (req : InferenceRequest) (cs : list WorkerSnapshot) (w c : WorkerSnapshot) : Prop :=
  match st with
  | randomScheduler | roundRobin => c = w
  | leastLoaded load => c = w ∧ ∀ w', w' ∈ cs → load w ≤ load w'
  | workAware work weights => work_aware_choice work weights req cs w c
  end.

Section Select.
Context `{GoPlatform}.
Context (rnd : nat → nat) (Hrnd : ∀ n, (0 < n)%nat → (rnd n < n)%nat).

Lemma select_candidates st r req workers idx :
  strategy_ok st req → Forall observed_ok workers → eligible req workers = inl idx →
  ∃ r' j w c, j ∈ idx ∧ workers !! j = Some w ∧ same_worker w c ∧ chosen_by st req (candidates_of workers idx) w c ∧
    SelectWorker st r rnd false req workers = (r', Chosen c).
Proof.
  intros Hst Hobs He. pose proof (eligible_spec req workers) as Hc. unfold SelectWorker. rewrite He in *.
  pose proof (candidates_in_range _ _ _ Hc) as Hr. pose proof (cd_nonempty _ _ _ Hc) as Hne.
  destruct st as [| |load|work weights]; cbn [chosen_by].
  - destruct (lookup_lt_is_Some_2 idx (rnd (length idx))) as [j Hj]; [apply Hrnd; destruct idx; [done|simpl; lia]|].
    assert (j ∈ idx) as Hin by (by eapply list_elem_of_lookup_2). destruct (Hr j Hin) as [w Hw].
    exists r, j, w, w. split_and!; eauto using same_worker_refl. unfold pick. by rewrite Hj, Hw.
  - destruct (next_of_chosen r (ir_Model req) workers idx Hne Hr) as (j & w & Hj & Hw & ->). eexists _, j, w, w. eauto using same_worker_refl.
  - destruct (chooseWith_chosen load r (ir_Model req) workers idx Hne Hr) as (j & w & Hj & Hw & Hmin & ->). eexists _, j, w, w.
    split_and!; eauto using same_worker_refl. intros w' (k & Hk & Hw')%elem_of_candidates. eauto.
  - destruct (workAware_chosen work weights r req workers idx Hst) as (j & w & c & Hj & Hw & Hs & Hch & ->); [|done|done|eauto 10].
    apply Forall_forall. intros w (j & _ & Hj)%elem_of_candidates. rewrite Forall_forall in Hobs. apply Hobs. by eapply list_elem_of_lookup_2.
Qed.

(** C13: A selection that is not cancelled ends in one of two ways, whatever the strategy and its
    state: a worker of the snapshot that may serve the request (its model, READY, offered by
    the registry, healthy or suspect, below its concurrency) with only its flags changed, or,
    exactly when there is none, a NoWorkerError with the exact counts.  No index is ever out
    of range, so it does not panic: the tie tolerance always keeps the best score. *)
Theorem select_safe st r req workers :
  strategy_ok st req → Forall observed_ok workers →
  match (SelectWorker st r rnd false req workers).2 with
  | Chosen c => ∃ w, w ∈ workers ∧ may_serve req w = true ∧ same_worker w c
  | Refused (ErrNoWorker why) =>
      Forall (λ w, may_serve req w = false) workers ∧
      why = mkNoWorkerError (ir_Model req) (countb (serves req) workers) (countb (offered req) workers) (countb (full req) workers)
  | Refused ErrContext | Panicked => False
  end.
Proof.
  intros Hst Hobs. pose proof (eligible_spec req workers) as Hc. destruct (eligible req workers) as [idx|why] eqn:He.
  - destruct (select_candidates st r req workers idx Hst Hobs He) as (r' & j & w & c & Hj & Hw & Hs & _ & ->). cbn.
    apply (cd_serves _ _ _ Hc) in Hj as (w' & Hw' & Hm). simplify_eq. exists w'. split_and!; [by eapply list_elem_of_lookup_2|done|done].
  - unfold SelectWorker. rewrite He. done.
Qed.


End Select.

(** ** Turns. *)

Lemma ltb_false a b : String.ltb a b = false ↔ String.leb b a = true.
Proof. by rewrite string_ltb_leb, negb_false_iff. Qed.

Lemma ltb_leb a b : String.ltb a b = true → String.leb a b = true.
Proof. intros H%string_ltb_asym. by apply ltb_false. Qed.

Lemma ltb_leb_trans a b c : String.ltb a b = true → String.leb b c = true → String.ltb a c = true.
Proof.
  intros Hab Hbc. destruct (String.ltb a c) eqn:Hac; [done|]. apply ltb_false in Hac. pose proof (string_leb_trans _ _ _ Hbc Hac) as H.
  apply ltb_false in H. congruence.
Qed.

Lemma leb_ltb_trans a b c : String.leb a b = true → String.ltb b c = true → String.ltb a c = true.
Proof.
  intros Hab Hbc. destruct (String.ltb a c) eqn:Hac; [done|]. apply ltb_false in Hac. pose proof (string_leb_trans _ _ _ Hac Hab) as H.
  apply ltb_false in H. congruence.
Qed.

Lemma leb_ne_ltb a b : String.leb a b = true → a ≠ b → String.ltb a b = true.
Proof. intros Hab Hne. destruct (string_ltb_total a b Hne) as [?|H]; [done|]. apply ltb_false in Hab. congruence. Qed.

(** [x] is the first of [ids] after [last], cyclically. *)
Definition first_after (last : string) (ids : list string) (x : string) : Prop :=
  x ∈ ids ∧ ((String.ltb last x = true ∧ ∀ y, y ∈ ids → String.ltb last y = true → String.leb x y = true) ∨
             ((∀ y, y ∈ ids → String.leb y last = true) ∧ ∀ y, y ∈ ids → String.leb x y = true)).

Lemma sorted_ids (key : nat → string) idx (a b : nat) x y :
  StronglySorted (by_key key) idx → (a ≤ b)%nat → (key <$> idx) !! a = Some x → (key <$> idx) !! b = Some y → String.leb x y = true.
Proof.
  intros Hs Hab Ha Hb. rewrite list_lookup_fmap in Ha, Hb. destruct (idx !! a) as [i|] eqn:Hi; [|done]. destruct (idx !! b) as [j|] eqn:Hj; [|done].
  simplify_eq/=. destruct (decide (a = b)) as [->|Hne]; [simplify_eq; apply ltb_false, string_ltb_irrefl|].
  apply (StronglySorted_app_1_elem_of (by_key key) (take b idx) (drop b idx) i j); [by rewrite take_drop|..]; apply list_elem_of_lookup.
  - exists a. rewrite lookup_take_lt by lia. done.
  - exists 0%nat. by rewrite lookup_drop, Nat.add_0_r.
Qed.

(** The rotor hands out the first worker after the one it handed out last. *)
Lemma next_of_first r model workers idx :
  idx ≠ [] → in_range workers idx → StronglySorted (by_key (id_at workers)) idx →
  ∃ w, next_of r model workers idx = (<[model := s_WorkerID w]> r, Chosen w) ∧ first_after (default "" (r !! model)) (id_at workers <$> idx) (s_WorkerID w).
Proof.
  intros Hne Hr Hs. pose proof (next_of_chosen r model workers idx Hne Hr) as (j & w & Hj & Hw & Heq). exists w. split; [done|].
  revert Heq. unfold next_of, rotor_next. set (last := default "" (r !! model)). set (ids := id_at workers <$> idx) in *.
  pose proof (λ a b x y, sorted_ids (id_at workers) idx a b x y Hs) as Hsort. fold ids in Hsort.
  match goal with |- context [sort_Search _ ?f] => set (p := f); pose proof (sort_Search_spec (length ids) p) as Hsp end.
  destruct Hsp as (Hle & Hbefore & Hafter).
  { intros a b Hab. unfold p. destruct (lookup_lt_is_Some_2 ids a ltac:(lia)) as [x Hx], (lookup_lt_is_Some_2 ids b ltac:(lia)) as [y Hy].
    rewrite Hx, Hy. intros Hlt. eapply ltb_leb_trans; [exact Hlt|]. apply (Hsort a b); [lia|done..]. }
  set (k := sort_Search (length ids) p) in *. clearbody k.
  assert (Hlen : (0 < length ids)%nat) by (unfold ids; rewrite length_fmap; destruct idx; [done|simpl; lia]).
  set (i := if (k =? length ids)%nat then 0%nat else k).
  assert (Hi : (i < length ids)%nat) by (unfold i; destruct (Nat.eqb_spec k (length ids)); lia).
  destruct (lookup_lt_is_Some_2 ids i Hi) as [x Hx]. rewrite Hx. intros Heq.
  assert (x = s_WorkerID w) as <-.
  { pose proof (f_equal fst Heq) as Hm. change (<[model := x]> r = <[model := s_WorkerID w]> r) in Hm.
    apply (f_equal (λ m : gmap string string, m !! model)) in Hm. unfold Rotor in *. rewrite !lookup_insert_eq in Hm. congruence. }
  clear Heq. split; [by eapply list_elem_of_lookup_2|]. unfold i in Hx. destruct (Nat.eqb_spec k (length ids)) as [Hk|Hk].
  - right. split; intros y [b Hb]%list_elem_of_lookup; [|by apply (Hsort 0%nat b); [lia|..]].
    pose proof (Hbefore b ltac:(apply lookup_lt_Some in Hb; lia)) as Hpb. unfold p in Hpb. rewrite Hb in Hpb. by apply ltb_false.
  - left. pose proof (Hafter k ltac:(lia)) as Hpk. unfold p in Hpk. rewrite Hx in Hpk. split; [done|]. intros y [b Hb]%list_elem_of_lookup Hy.
    apply (Hsort k b); [|done..]. destruct (decide (k ≤ b)%nat); [done|]. pose proof (Hbefore b ltac:(lia)) as Hpb. unfold p in Hpb.
    rewrite Hb in Hpb. congruence.
Qed.

(** The ids of [U] in the cyclic interval from [last] (exclusive) to [W]. *)
Definition between (last W u : string) : bool :=
  if String.ltb last W then String.ltb last u && String.leb u W else String.ltb last u || String.leb u W.

Definition before (U : gset string) (last W : string) : gset string := filter (λ u, between last W u = true) U.

Lemma before_self U last W : W ∈ U → W ∈ before U last W.
Proof.
  intros HW. apply elem_of_filter. split; [|done]. unfold between.
  assert (String.leb W W = true) as -> by (apply ltb_false, string_ltb_irrefl). destruct (String.ltb last W) eqn:H; [done|apply orb_true_r].
Qed.

(** Handing out another worker than [W] brings [W] closer. *)
Lemma turn_closer U last ids x W :
  first_after last ids x → W ∈ ids → x ≠ W → x ∈ U → (size (before U x W) < size (before U last W))%nat.
Proof.
  intros [Hx Hf] HW Hne HU.
  assert (Hself : between last W x = true ∧ between x W x = false ∧ ∀ u, between x W u = true → between last W u = true).
  { unfold between. rewrite string_ltb_irrefl. cbn [andb orb].
    destruct Hf as [[Hlt Hmin]|[Hall Hmin]].
    - rewrite Hlt. cbn [andb orb]. destruct (String.ltb last W) eqn:HlW.
      + pose proof (leb_ne_ltb _ _ (Hmin W HW HlW) Hne) as HxW. rewrite HxW, (ltb_leb _ _ HxW). split_and!; [done..|].
        intros u [Hxu HuW]%andb_true_iff. by rewrite (string_ltb_trans _ _ _ Hlt Hxu), HuW.
      + apply ltb_false in HlW. pose proof (leb_ltb_trans _ _ _ HlW Hlt) as HWx. rewrite (string_ltb_asym _ _ HWx).
        split_and!; [done|by rewrite <-negb_true_iff, <-string_ltb_leb|]. intros u [Hxu|HuW]%orb_true_iff; [|by rewrite HuW, orb_true_r].
        by rewrite (string_ltb_trans _ _ _ Hlt Hxu).
    - pose proof (leb_ne_ltb _ _ (Hmin W HW) Hne) as HxW. rewrite HxW, (ltb_leb _ _ HxW). pose proof (Hall W HW) as HWl. apply ltb_false in HWl. rewrite HWl.
      split_and!; [apply orb_true_r|done|]. intros u [_ ->]%andb_true_iff. apply orb_true_r. }
  destruct Hself as (H1 & H2 & H3). apply subset_size. unfold before. split.
  - intros u. rewrite !elem_of_filter. intros [Hb Hu]. eauto.
  - intros Hsub. specialize (Hsub x). rewrite !elem_of_filter in Hsub. destruct Hsub as [Hb _]; [done|]. congruence.
Qed.

Lemma filter_sorted (P : nat → Prop) `{∀ j, Decision (P j)} (R : relation nat) l : StronglySorted R l → StronglySorted R (filter P l).
Proof.
  induction 1 as [|x l Hs IH Hx]; [constructor|]. rewrite filter_cons. case_decide; [|done]. constructor; [done|].
  rewrite Forall_forall in *. intros y [_ Hy]%list_elem_of_filter. auto.
Qed.

(** [W] may serve the request and, for the least-loaded strategies, has the minimal load: it is
    one of the workers that take turns. *)
Definition in_turn (st : Strategy) (req : InferenceRequest) (workers : list WorkerSnapshot) (W : string) : Prop :=
  ∃ w, w ∈ workers ∧ s_WorkerID w = W ∧ may_serve req w = true ∧
    match st with
    | roundRobin => True
    | leastLoaded load => ∀ w', w' ∈ workers → may_serve req w' = true → load w ≤ load w'
    | _ => False
    end.

(** A run of selections with one scheduler: the requests with their outcomes. *)
Fixpoint selections `{GoPlatform} (st : Strategy) (rnd : nat → nat) (r : Rotor) (calls : list (InferenceRequest * list WorkerSnapshot)) :
  list (InferenceRequest * Selection) :=
  match calls with
  | [] => []
  | (req, workers) :: calls => let '(r, out) := SelectWorker st r rnd false req workers in (req, out) :: selections st rnd r calls
  end.

Section Turns.
Context `{GoPlatform}.
Variable rnd : nat → nat.

(** One turn: the rotor moves on, to [W] or closer to it. *)
Lemma turn st r req workers W (U : gset string) :
  in_turn st req workers W → (∀ w, w ∈ workers → s_WorkerID w ∈ U) →
  ∃ c, SelectWorker st r rnd false req workers = (<[ir_Model req := s_WorkerID c]> r, Chosen c) ∧
    (s_WorkerID c = W ∨ (size (before U (s_WorkerID c) W) < size (before U (default "" (r !! ir_Model req)) W))%nat).
Proof.
  intros (w & Hw & HW & Hm & Hst) HU. apply list_elem_of_lookup in Hw as [j Hj].
  pose proof (eligible_spec req workers) as Hc. unfold SelectWorker. destruct (eligible req workers) as [idx|why].
  2:{ destruct Hc as [Hnone _]. rewrite (Forall_lookup_1 _ _ _ _ Hnone Hj) in Hm. done. }
  pose proof (proj2 (cd_serves _ _ _ Hc j) (ex_intro _ w (conj Hj Hm))) as Hin. pose proof (candidates_in_range _ _ _ Hc) as Hr.
  assert (Hgo : ∀ tied, j ∈ tied → (∀ k, k ∈ tied → k ∈ idx) → StronglySorted (by_key (id_at workers)) tied →
    ∃ c, next_of r (ir_Model req) workers tied = (<[ir_Model req := s_WorkerID c]> r, Chosen c) ∧
      (s_WorkerID c = W ∨ (size (before U (s_WorkerID c) W) < size (before U (default "" (r !! ir_Model req)) W))%nat)).
  { intros tied Ht Hsub Hs. destruct (next_of_first r (ir_Model req) workers tied) as (c & Hn & Hf); [by intros ->; apply elem_of_nil in Ht| |done|].
    { intros k Hk. apply Hr. auto. }
    exists c. split; [done|]. destruct (decide (s_WorkerID c = W)) as [?|Hne]; [by left|right].
    eapply turn_closer; [exact Hf| |done|].
    - apply list_elem_of_fmap. exists j. split; [|done]. unfold id_at. by rewrite Hj.
    - destruct Hf as [(k & -> & Hk)%list_elem_of_fmap _]. destruct (Hr k (Hsub k Hk)) as [w' Hw']. unfold id_at. rewrite Hw'.
      apply HU. by eapply list_elem_of_lookup_2. }
  destruct st as [| |load|]; [done|by apply Hgo; [|by auto|apply (cd_sorted _ _ _ Hc)]| |done].
  unfold chooseWith. apply Hgo; [|by intros k [_ ?]%list_elem_of_filter|apply filter_sorted, (cd_sorted _ _ _ Hc)].
  apply list_elem_of_filter. split; [|done]. destruct (min_load_spec load workers idx (cd_nonempty _ _ _ Hc)) as [(k & Hk & <-) Hmin].
  pose proof Hk as (w' & Hw' & Hm')%(cd_serves _ _ _ Hc). specialize (Hst w' ltac:(by eapply list_elem_of_lookup_2) Hm'). specialize (Hmin j Hin).
  unfold load_at in *. rewrite Hj, Hw' in *. lia.
Qed.

Lemma next_of_other r model model' workers idx : model' ≠ model → (next_of r model' workers idx).1 !! model = r !! model.
Proof. intros Hne. unfold next_of, rotor_next. destruct ((id_at workers <$> idx) !! _); [|done]. unfold Rotor in *. by apply lookup_insert_ne. Qed.

(** A selection for another model leaves the model's turn alone. *)
Lemma select_other st r req workers model : ir_Model req ≠ model → (SelectWorker st r rnd false req workers).1 !! model = r !! model.
Proof.
  intros Hne. unfold SelectWorker. destruct (eligible req workers) as [idx|why]; [|done].
  destruct st as [| |load|work weights]; [done|by apply next_of_other|by apply next_of_other|]. unfold workAware_choose, chooseWith.
  destruct (negb _); match goal with |- context [next_of ?r ?m ?ws ?t] => pose proof (next_of_other r model m ws t Hne) as Ho; by destruct (next_of r m ws t) as [? []] end.
Qed.

(** C16: No worker starves, even as workers come and go: if a worker is one of those that take
    turns (round-robin: it may serve; least-loaded: it also has the minimal load) in every
    snapshot in which a request for its model is scheduled, then it is chosen within as many such
    requests as there are distinct worker ids in those snapshots, whatever the rotor had
    handed out before and however many requests for other models come between. *)
Theorem no_starvation st r calls model W (U : gset string) :
  W ∈ U →
  (∀ req workers, (req, workers) ∈ calls → ir_Model req = model → in_turn st req workers W ∧ ∀ w, w ∈ workers → s_WorkerID w ∈ U) →
  (size U ≤ length (filter (λ call, ir_Model call.1 = model) calls))%nat →
  ∃ req c, (req, Chosen c) ∈ selections st rnd r calls ∧ ir_Model req = model ∧ s_WorkerID c = W.
Proof.
  intros HW Hturn Hlen.
  assert (Hk : (size (before U (default "" (r !! model)) W) ≤ length (filter (λ call : InferenceRequest * list WorkerSnapshot, ir_Model call.1 = model) calls))%nat).
  { etrans; [apply subseteq_size|exact Hlen]. intros u. unfold before. rewrite elem_of_filter. by intros []. }
  clear Hlen. revert r Hk. induction calls as [|[req workers] calls IH]; intros r Hk.
  { assert (before U (default "" (r !! model)) W ≢ ∅) as Hne by (intros Hn; pose proof (before_self U (default "" (r !! model)) W HW); set_solver).
    apply size_non_empty_iff in Hne. simpl in Hk. lia. }
  assert (Hin : ∀ r', (∃ req c, (req, Chosen c) ∈ selections st rnd r' calls ∧ ir_Model req = model ∧ s_WorkerID c = W) → ∀ out,
    ∃ req0 c, (req0, Chosen c) ∈ (req, out) :: selections st rnd r' calls ∧ ir_Model req0 = model ∧ s_WorkerID c = W) by set_solver.
  cbn [selections]. rewrite filter_cons in Hk. cbn [fst] in Hk. case_decide as Hm.
  - destruct (Hturn req workers) as [Ht HU]; [set_solver|done|]. destruct (turn st r req workers W U Ht HU) as (c & -> & [Heq|Hcl]).
    + exists req, c. set_solver.
    + apply Hin. apply IH; [set_solver|]. subst model. unfold Rotor in *. rewrite lookup_insert_eq. cbn [default from_option length] in *. unfold id. lia.
  - pose proof (select_other st r req workers model Hm) as Ho. destruct (SelectWorker st r rnd false req workers) as [r' out]. simpl in Ho.
    apply Hin. apply IH; [set_solver|]. by rewrite Ho.
Qed.

End Turns.

(** ** Witnesses. *)

Definition w_at (id : string) (active ahead tps : Z) : WorkerSnapshot :=
  mkSnapshot id "m" "h:1" 4 8 StateReady HealthHealthy true (mkMetrics active 0 0 f0 None None) "" zeroTime zeroTime f0
    (mkObserved 0 (f64 ahead) (f64 tps) f0 active ObservedLedger).

Definition a_req : InferenceRequest := mkInferenceRequest "r" "t" "m" [] "hi" false 16 f0 0 8 16.

Definition a_fleet : list WorkerSnapshot := [w_at "b" 4 10 100; w_at "a" 1 500 50; w_at "c" 2 300 50].

Lemma a_req_ok : request_ok a_req DefaultWeights.
Proof. constructor; [vm_compute; discriminate..|apply f64_valid|apply f64_valid]. Qed.

Lemma a_fleet_ok : Forall observed_ok a_fleet.
Proof. unfold a_fleet. rewrite !Forall_cons. split_and!; [apply f64_valid..|constructor]. Qed.

Lemma select_safe_witness :
  ∃ w, w ∈ a_fleet ∧ may_serve a_req w = true ∧
    same_worker w (match (@SelectWorker amd64 (workAware true DefaultWeights) ∅ (λ _, 0%nat) false a_req a_fleet).2 with Chosen c => c | _ => w_at "" 0 0 0 end).
Proof.
  pose proof (select_safe (H := amd64) (λ _, 0%nat) (λ n Hn, Hn) (workAware true DefaultWeights) ∅ a_req a_fleet a_req_ok a_fleet_ok) as Hs.
  assert (Hc : (@SelectWorker amd64 (workAware true DefaultWeights) ∅ (λ _, 0%nat) false a_req a_fleet).2 = Chosen (w_at "c" 2 300 50)) by (vm_compute; reflexivity).
  rewrite Hc in Hs |- *. exact Hs.
Defined.


(** Two requests, the fleet losing a worker in between, and an unrelated request. *)
Definition some_calls : list (InferenceRequest * list WorkerSnapshot) :=
  [(a_req, a_fleet); (mkInferenceRequest "r" "t" "other" [] "hi" false 16 f0 0 8 16, []); (a_req, [w_at "c" 2 300 50]); (a_req, a_fleet)].

Lemma no_starvation_witness :
  ∃ req c, (req, Chosen c) ∈ @selections amd64 roundRobin (λ _, 0%nat) {["m" := "a"]} some_calls ∧ ir_Model req = "m" ∧ s_WorkerID c = "c".
Proof.
  apply (no_starvation (H := amd64) (λ _, 0%nat) roundRobin {["m" := "a"]} some_calls "m" "c" {["a"; "b"; "c"]}).
  - set_solver.
  - intros req workers Hin Hm. assert (Hc : (req, workers) = (a_req, a_fleet) ∨ (req, workers) = (a_req, [w_at "c" 2 300 50])).
    { unfold some_calls in Hin. rewrite !elem_of_cons in Hin. destruct Hin as [?|[[= -> ->]|[?|[?|?%elem_of_nil]]]]; auto; done. }
    destruct Hc as [[= -> ->]|[= -> ->]]; (split; [exists (w_at "c" 2 300 50); split_and!; [set_solver|reflexivity|vm_compute; reflexivity|done]|]).
    + unfold a_fleet. intros w Hw. rewrite !elem_of_cons in Hw. destruct Hw as [->|[->|[->|?%elem_of_nil]]]; [..|done]; cbn; set_solver.
    + intros w ->%list_elem_of_singleton. cbn. set_solver.
  - vm_compute. repeat constructor.
Defined.
