(* ===== verification/History.v ===== *)
(** * The start and finish history of a worker (internal/scheduler/signals/tracker.go)

    A bounded record of cumulative counts by time bucket, trimmed and compacted in place, and the
    theorem that it answers as the full list of events would. *)

From S2P Require Import Prelude GoSort.

Local Open Scope Z_scope.

(** ** The code. *)

Record rec := mkRec { r_idx : Z; r_cumS : Z; r_cumF : Z }.

#[global] Instance eta_rec : Settable rec := {| eta_of := λ r, mkRec (r_idx r) (r_cumS r) (r_cumF r) |}.

Record history := mkHistory {
  h_recs : list rec; h_from : nat;
  h_totS : Z; h_totF : Z; h_baseS : Z; h_baseF : Z; h_droppedIdx : Z; h_hasDropped : bool
}.

#[global] Instance eta_history : Settable history :=
  {| eta_of := λ h, mkHistory (h_recs h) (h_from h) (h_totS h) (h_totF h) (h_baseS h) (h_baseF h) (h_droppedIdx h) (h_hasDropped h) |}.

(** The zero value, and what reset leaves. *)
Definition history_reset : history := mkHistory [] 0 0 0 0 0 0 false.

Definition live_recs (h : history) : list rec := drop (h_from h) (h_recs h).

Definition live (h : history) : nat := length (h_recs h) - h_from h.

(** The trimming loop: it moves [from] past the records older than [limit]. *)
Fixpoint trim (fuel : nat) (limit : Z) (h : history) : history :=
  match fuel with
  | O => h
  | S fuel =>
      match h_recs h !! h_from h with
      | Some r =>
          if r_idx r <? limit then
            trim fuel limit (h <| h_baseS := r_cumS r |> <| h_baseF := r_cumF r |> <| h_droppedIdx := r_idx r |> <| h_hasDropped := true |>
                               <| h_from := S (h_from h) |>)
          else h
      | None => h
      end
  end.

Definition compact (h : history) : history :=
  if (32 <? h_from h)%nat && (length (h_recs h) <? h_from h * 2)%nat
  then h <| h_recs := live_recs h |> <| h_from := 0%nat |>
  else h.

(** The end of record: a new bucket. *)
Definition push (h : history) (idx keep : Z) : history :=
  let h := h <| h_recs := h_recs h ++ [mkRec idx (h_totS h) (h_totF h)] |> in
  compact (trim (length (h_recs h)) (idx -! keep)%go h).

Definition record (h : history) (idx : Z) (start : bool) (keep : Z) : history :=
  let h := if start then h <| h_totS := wrapU64 (h_totS h + 1) |> else h <| h_totF := wrapU64 (h_totF h + 1) |> in
  let n := length (h_recs h) in
  if (h_from h <? n)%nat then
    match h_recs h !! (n - 1)%nat with
    | Some l =>
        if idx <=? r_idx l then h <| h_recs := <[(n - 1)%nat := l <| r_cumS := h_totS h |> <| r_cumF := h_totF h |>]> (h_recs h) |>
        else push h idx keep
    | None => push h idx keep
    end
  else push h idx keep.

(** [None] when the history no longer reaches back to the pivot. *)
Definition since (h : history) (pivot : Z) (start : bool) : option Z :=
  let live := live_recs h in
  let i := sort_Search (length live) (λ i, match live !! i with Some r => pivot <=? r_idx r | None => true end) in
  let cum :=
    match i with
    | S i => match live !! i with Some r => Some (r_cumS r, r_cumF r) | None => None end
    | O => if h_hasDropped h && (pivot <=? h_droppedIdx h) then None else Some (h_baseS h, h_baseF h)
    end in
  match cum with
  | None => None
  | Some (cumS, cumF) => Some (if start then wrapU64 (h_totS h - cumS) else wrapU64 (h_totF h - cumF))
  end.

(** ** The specification: the list of events. *)

(** A start or a finish, with the bucket it counts in. *)
Definition event : Type := Z * bool.

(** A bucket older than the last one counts as the last one. *)
Definition log_add (log : list event) (idx : Z) (start : bool) : list event :=
  log ++ [(match last log with Some e => Z.max idx e.1 | None => idx end, start)].

Definition events_since (log : list event) (pivot : Z) (start : bool) : Z := countb (λ e, (pivot <=? e.1) && Bool.eqb e.2 start) log.

Definition events_upto (log : list event) (x : Z) (start : bool) : Z := countb (λ e, (e.1 <=? x) && Bool.eqb e.2 start) log.

Definition events (log : list event) (start : bool) : Z := countb (λ e, Bool.eqb e.2 start) log.

Definition log_of (l : list event) : list event := foldl (λ log e, log_add log e.1 e.2) [] l.

(** ** The refinement. *)

Definition cum_ok (log : list event) (x cumS cumF : Z) : Prop := cumS = wrapU64 (events_upto log x true) ∧ cumF = wrapU64 (events_upto log x false).

Definition rec_lt (a b : rec) : Prop := r_idx a < r_idx b.

Record hist_ok (keep : Z) (log : list event) (h : history) : Prop := {
  ho_from : (h_from h ≤ length (h_recs h))%nat;
  ho_sorted : StronglySorted rec_lt (live_recs h);
  ho_tot : h_totS h = wrapU64 (events log true) ∧ h_totF h = wrapU64 (events log false);
  ho_cum r : r ∈ live_recs h → cum_ok log (r_idx r) (r_cumS r) (r_cumF r);
  ho_base : if h_hasDropped h then cum_ok log (h_droppedIdx h) (h_baseS h) (h_baseF h) else h_baseS h = 0 ∧ h_baseF h = 0;
  ho_dropped r : h_hasDropped h = true → r ∈ live_recs h → h_droppedIdx h < r_idx r;
  ho_events e : e ∈ log → (h_hasDropped h = true ∧ e.1 ≤ h_droppedIdx h) ∨ ∃ r, r ∈ live_recs h ∧ r_idx r = e.1;
  ho_last : match last log with
            | Some e => (∃ r, last (live_recs h) = Some r ∧ r_idx r = e.1) ∧ (h_hasDropped h = true → h_droppedIdx h < e.1 - keep)
            | None => live_recs h = [] ∧ h_hasDropped h = false
            end
}.

Lemma hist_ok_reset keep : hist_ok keep [] history_reset.
Proof. split; unfold live_recs; cbn; try done; try constructor; set_solver. Qed.

(** Dropping the oldest record. *)
Lemma drop_first h r rest :
  live_recs h = r :: rest → h_recs h !! h_from h = Some r ∧ drop (S (h_from h)) (h_recs h) = rest.
Proof.
  unfold live_recs. intros Hl. split.
  - rewrite <-(Nat.add_0_r (h_from h)), <-lookup_drop, Hl. done.
  - by rewrite <-Nat.add_1_r, <-drop_drop, Hl.
Qed.

Lemma drop_step_ok keep log h r rest :
  hist_ok keep log h → live_recs h = r :: rest → rest ≠ [] → (∀ e, last log = Some e → r_idx r < e.1 - keep) →
  hist_ok keep log (h <| h_baseS := r_cumS r |> <| h_baseF := r_cumF r |> <| h_droppedIdx := r_idx r |> <| h_hasDropped := true |>
                      <| h_from := S (h_from h) |>).
Proof.
  intros [Hf Hs Ht Hc Hb Hd He Hl] Hlive Hne Hold. destruct (drop_first _ _ _ Hlive) as [Hr Hrest].
  rewrite Hlive in *. apply StronglySorted_inv in Hs as [Hs Hlt]. rewrite Forall_forall in Hlt.
  split; cbn; rewrite ?Hrest; try done.
  - apply lookup_lt_Some in Hr. lia.
  - intros x Hx. apply Hc. set_solver.
  - apply Hc. set_solver.
  - intros x _ Hx. by apply Hlt.
  - intros e Hin. destruct (He e Hin) as [[Hdr Hle]|(x & Hx & Heq)].
    + left. split; [done|]. specialize (Hd r Hdr ltac:(set_solver)). lia.
    + apply elem_of_cons in Hx as [->|Hx]; [left; lia|right; eauto].
  - destruct (last log) as [e|]; [|naive_solver]. destruct Hl as [(x & Hx & Heq) _]. split; [|intros _; by apply Hold].
    exists x. split; [|done]. destruct rest; [done|]. by rewrite last_cons_cons in Hx.
Qed.

(** What trimming does not touch. *)
Lemma trim_frame fuel limit h :
  let h' := trim fuel limit h in
  h_recs h' = h_recs h ∧ (h_from h ≤ h_from h')%nat.
Proof.
  revert h. induction fuel as [|fuel IH]; intros h; [done|]. cbn [trim]. destruct (h_recs h !! h_from h); [|done]. case_match; [|done].
  destruct (IH (h <| h_baseS := r_cumS r |> <| h_baseF := r_cumF r |> <| h_droppedIdx := r_idx r |> <| h_hasDropped := true |> <| h_from := S (h_from h) |>))
    as [H1 H2]. cbn in *. split; [done|lia].
Qed.

Lemma trim_ok keep log fuel limit h e :
  hist_ok keep log h → last log = Some e → limit = e.1 - keep → 0 ≤ keep → (length (live_recs h) ≤ fuel)%nat →
  hist_ok keep log (trim fuel limit h) ∧ Forall (λ r, limit ≤ r_idx r) (live_recs (trim fuel limit h)).
Proof.
  intros Hok Hlast Hlim Hk. revert h Hok. induction fuel as [|fuel IH]; intros h Hok Hlen.
  { destruct (live_recs h) eqn:Hl; [|simpl in Hlen; lia]. cbn. rewrite Hl. split; [done|constructor]. }
  cbn [trim]. destruct (live_recs h) as [|r rest] eqn:Hlive.
  { unfold live_recs in Hlive. apply (f_equal length) in Hlive. rewrite length_drop in Hlive. simpl in Hlive.
    rewrite lookup_ge_None_2 by lia. split; [done|]. unfold live_recs. rewrite drop_ge by lia. constructor. }
  destruct (drop_first _ _ _ Hlive) as [Hr Hrest]. rewrite Hr. destruct (Z.ltb_spec (r_idx r) limit) as [Hlt|Hge].
  - pose proof (ho_last _ _ _ Hok) as Hl. rewrite Hlast, Hlive in Hl. destruct Hl as [(x & Hx & Heq) _].
    apply IH; [|unfold live_recs; cbn; rewrite Hrest; simpl in Hlen; lia]. apply (drop_step_ok keep log h r rest); [done|done| |].
    + intros ->. simpl in Hx. simplify_eq. lia.
    + intros e' He'. simplify_eq. lia.
  - split; [done|]. rewrite Hlive. constructor; [done|]. pose proof (ho_sorted _ _ _ Hok) as Hs. rewrite Hlive in Hs.
    apply StronglySorted_inv in Hs as [_ Hs]. eapply Forall_impl; [exact Hs|]. unfold rec_lt. intros x Hx. lia.
Qed.

Lemma compact_ok keep log h : hist_ok keep log h → hist_ok keep log (compact h) ∧ live_recs (compact h) = live_recs h.
Proof.
  intros Hok. unfold compact. case_match; [|done]. split; [|by unfold live_recs; cbn]. destruct Hok. unfold live_recs in *. by split; cbn; rewrite ?drop_0; try lia.
Qed.

Lemma wrapU64_succ z : wrapU64 (wrapU64 z + 1) = wrapU64 (z + 1).
Proof. unfold wrapU64. by rewrite Zplus_mod_idemp_l. Qed.

Lemma wrapU64_sub a b : wrapU64 (wrapU64 a - wrapU64 b) = wrapU64 (a - b).
Proof. unfold wrapU64. by rewrite <-Zminus_mod. Qed.

Lemma events_since_split log pivot s : events log s = events_upto log (pivot - 1) s + events_since log pivot s.
Proof.
  unfold events, events_upto, events_since. induction log as [|e log IH]; [done|]. rewrite !countb_cons, IH.
  destruct (Z.leb_spec e.1 (pivot - 1)), (Z.leb_spec pivot e.1); try lia; destruct (Bool.eqb e.2 s); simpl; lia.
Qed.

Lemma events_upto_ext log x y s : (∀ e, e ∈ log → e.1 ≤ x ↔ e.1 ≤ y) → events_upto log x s = events_upto log y s.
Proof.
  intros H. apply countb_ext. intros e He. specialize (H e He). destruct (Z.leb_spec e.1 x), (Z.leb_spec e.1 y); tauto || lia.
Qed.

Lemma events_upto_all log x s : (∀ e, e ∈ log → e.1 ≤ x) → events_upto log x s = events log s.
Proof. intros H. apply countb_ext. intros e He. specialize (H e He). by rewrite (proj2 (Z.leb_le _ _) H). Qed.

Lemma events_upto_none log x s : (∀ e, e ∈ log → x < e.1) → events_upto log x s = 0.
Proof.
  unfold events_upto. induction log as [|e log IH]; intros H; [done|]. rewrite countb_cons, IH by set_solver.
  specialize (H e ltac:(set_solver)). destruct (Z.leb_spec e.1 x); [lia|done].
Qed.

Lemma events_upto_snoc log x y s start : events_upto (log ++ [(x, start)]) y s = events_upto log y s + Z.b2z ((x <=? y) && Bool.eqb start s).
Proof. unfold events_upto. rewrite countb_app, countb_cons, countb_nil. simpl. lia. Qed.

Lemma events_snoc log x s start : events (log ++ [(x, start)]) s = events log s + Z.b2z (Bool.eqb start s).
Proof. unfold events. rewrite countb_app, countb_cons, countb_nil. simpl. lia. Qed.

Lemma sorted_last r l x : StronglySorted rec_lt l → last l = Some r → x ∈ l → x = r ∨ r_idx x < r_idx r.
Proof.
  intros Hs Hl Hx. apply last_Some in Hl as [l' ->]. apply elem_of_app in Hx as [Hx|Hx]; [right|left; by apply list_elem_of_singleton in Hx].
  apply (StronglySorted_app_1_elem_of rec_lt l' [r]); [done..|]. by apply list_elem_of_singleton.
Qed.

Section Hist.
Variables (keep : Z) (log : list event) (h : history).
Hypothesis Hok : hist_ok keep log h.

Lemma live_le r e : last (live_recs h) = Some r → e ∈ log → e.1 ≤ r_idx r.
Proof.
  intros Hl He. assert (r ∈ live_recs h) by (apply last_Some in Hl as [l ->]; set_solver).
  destruct (ho_events _ _ _ Hok e He) as [[Hd Hle]|(x & Hx & <-)].
  - pose proof (ho_dropped _ _ _ Hok r Hd ltac:(done)). lia.
  - destruct (sorted_last r _ x (ho_sorted _ _ _ Hok) Hl Hx) as [->|]; lia.
Qed.

(** The totals after one more event. *)
Definition counted (start : bool) : history :=
  if start then h <| h_totS := wrapU64 (h_totS h + 1) |> else h <| h_totF := wrapU64 (h_totF h + 1) |>.

Lemma counted_tot start x :
  h_totS (counted start) = wrapU64 (events (log ++ [(x, start)]) true) ∧ h_totF (counted start) = wrapU64 (events (log ++ [(x, start)]) false).
Proof.
  destruct (ho_tot _ _ _ Hok) as [HS HF]. rewrite !events_snoc. unfold counted. destruct start; cbn; rewrite ?HS, ?HF, ?wrapU64_succ, ?Z.add_0_r; done.
Qed.

Lemma counted_frame start :
  let h' := counted start in
  h_recs h' = h_recs h ∧ h_from h' = h_from h ∧ h_hasDropped h' = h_hasDropped h ∧ h_droppedIdx h' = h_droppedIdx h ∧ h_baseS h' = h_baseS h ∧ h_baseF h' = h_baseF h.
Proof. by destruct start. Qed.

(** Counts up to a bucket before the new event's stay. *)
Lemma cum_old x start y cS cF : y < x → cum_ok log y cS cF → cum_ok (log ++ [(x, start)]) y cS cF.
Proof. unfold cum_ok. intros Hy [-> ->]. rewrite !events_upto_snoc. destruct (Z.leb_spec x y); [lia|]. simpl. by rewrite !Z.add_0_r. Qed.

Lemma cum_new x start y : x ≤ y → (∀ e, e ∈ log → e.1 ≤ y) → cum_ok (log ++ [(x, start)]) y (h_totS (counted start)) (h_totF (counted start)).
Proof.
  intros Hxy Hall. destruct (counted_tot start x) as [-> ->]. unfold cum_ok.
  rewrite !(events_upto_all (log ++ [(x, start)])); [done|..]; intros e [He| ->%list_elem_of_singleton]%elem_of_app; auto.
Qed.
End Hist.

Lemma live_cases keep log h : hist_ok keep log h →
  (live_recs h = [] ∧ log = [] ∧ h_hasDropped h = false) ∨
  (∃ l e, last (live_recs h) = Some l ∧ last log = Some e ∧ r_idx l = e.1 ∧ (h_hasDropped h = true → h_droppedIdx h < e.1 - keep)).
Proof.
  intros Hok. pose proof (ho_last _ _ _ Hok) as Hl. destruct (last log) as [e|] eqn:He.
  - right. destruct Hl as [(r & Hr & Heq) Hd]. by exists r, e.
  - left. apply last_None in He. naive_solver.
Qed.

(** A record for a new bucket. *)
Lemma append_ok keep log h idx start :
  hist_ok keep log h → 0 ≤ keep → (∀ l, last (live_recs h) = Some l → r_idx l < idx) →
  let h' := counted h start in
  hist_ok keep (log_add log idx start) (h' <| h_recs := h_recs h' ++ [mkRec idx (h_totS h') (h_totF h')] |>).
Proof.
  intros Hok Hk Hnew h'. assert (Hadd : log_add log idx start = log ++ [(idx, start)]).
  { unfold log_add. destruct (live_cases _ _ _ Hok) as [(_ & -> & _)|(l & e & Hl & -> & Heq & _)]; [done|]. specialize (Hnew l Hl). do 3 f_equal. lia. }
  rewrite Hadd. destruct (counted_frame h start) as (Hrecs & Hfrom & Hhd & Hdi & HbS & HbF).
  assert (Hidx : ∀ e, e ∈ log → e.1 < idx).
  { intros e He. destruct (live_cases _ _ _ Hok) as [(_ & -> & _)|(l & e' & Hl & _)]; [by apply elem_of_nil in He|].
    pose proof (live_le _ _ _ Hok l e Hl He). specialize (Hnew l Hl). lia. }
  assert (Hlive : ∀ r, r ∈ live_recs h → r_idx r < idx).
  { intros r Hr. destruct (live_cases _ _ _ Hok) as [(Hn & _)|(l & e' & Hl & _)]; [rewrite Hn in Hr; by apply elem_of_nil in Hr|].
    destruct (sorted_last l _ r (ho_sorted _ _ _ Hok) Hl Hr) as [->|]; specialize (Hnew l Hl); lia. }
  assert (Hl' : live_recs (h' <| h_recs := h_recs h' ++ [mkRec idx (h_totS h') (h_totF h')] |>) = live_recs h ++ [mkRec idx (h_totS h') (h_totF h')]).
  { unfold live_recs. cbn. unfold h'. rewrite Hrecs, Hfrom. by rewrite drop_app_le by apply (ho_from _ _ _ Hok). }
  assert (Hdrop : h_hasDropped h = true → h_droppedIdx h < idx - keep).
  { intros Hd. destruct (live_cases _ _ _ Hok) as [(_ & _ & ?)|(l & e & Hl & _ & Heq & Hdr)]; [congruence|]. specialize (Hdr Hd). specialize (Hnew l Hl). lia. }
  split; rewrite ?Hl'; cbn; unfold h' in *; rewrite ?Hhd, ?Hdi, ?HbS, ?HbF.
  - rewrite Hrecs, Hfrom, length_app. pose proof (ho_from _ _ _ Hok). lia.
  - apply StronglySorted_app. split_and!; [|apply (ho_sorted _ _ _ Hok)|repeat constructor].
    intros a b Ha ->%list_elem_of_singleton. unfold rec_lt. cbn. by apply Hlive.
  - by apply counted_tot with keep.
  - intros r [Hr| ->%list_elem_of_singleton]%elem_of_app; [apply cum_old; [by apply Hlive|by apply (ho_cum _ _ _ Hok)]|].
    cbn. eapply cum_new; [done|lia|]. intros e He. specialize (Hidx e He). lia.
  - pose proof (ho_base _ _ _ Hok) as Hb. destruct (h_hasDropped h) eqn:Hd; [|done]. apply cum_old; [specialize (Hdrop eq_refl); lia|done].
  - intros r Hd [Hr| ->%list_elem_of_singleton]%elem_of_app; [by apply (ho_dropped _ _ _ Hok)|]. cbn. specialize (Hdrop Hd). lia.
  - intros e [He| ->%list_elem_of_singleton]%elem_of_app.
    + destruct (ho_events _ _ _ Hok e He) as [?|(r & Hr & Heq)]; [by left|right]. exists r. split; [|done]. apply elem_of_app. by left.
    + right. eexists. split; [apply elem_of_app; right; by apply list_elem_of_singleton|done].
  - rewrite last_snoc. split; [|done]. eexists. by rewrite last_snoc.
Qed.

(** Another event in the last bucket. *)
Lemma update_ok keep log h idx start l n :
  hist_ok keep log h → h_recs h !! n = Some l → S n = length (h_recs h) → (h_from h < length (h_recs h))%nat → idx ≤ r_idx l → 0 ≤ keep →
  let h' := counted h start in
  hist_ok keep (log_add log idx start) (h' <| h_recs := <[n := l <| r_cumS := h_totS h' |> <| r_cumF := h_totF h' |>]> (h_recs h') |>).
Proof.
  intros Hok Hn Hlen Hfr Hle Hk h'. destruct (counted_frame h start) as (Hrecs & Hfrom & Hhd & Hdi & HbS & HbF).
  destruct (nil_or_length_pos (h_recs h)) as [Hnil|_]; [rewrite Hnil in Hn; done|].
  assert (∃ init, h_recs h = init ++ [l] ∧ length init = n) as (init & Hi & Hil).
  { exists (take n (h_recs h)). rewrite length_take. split; [|lia]. rewrite <-(take_drop n (h_recs h)) at 1. f_equal.
    rewrite (drop_S _ l n Hn), drop_ge by lia. done. }
  assert (Hlive : live_recs h = drop (h_from h) init ++ [l]).
  { unfold live_recs. rewrite Hi, drop_app_le; [done|]. rewrite Hi, length_app in Hfr. simpl in Hfr. lia. }
  set (l' := l <| r_cumS := h_totS h' |> <| r_cumF := h_totF h' |>).
  assert (Hlive' : live_recs (h' <| h_recs := <[n := l']> (h_recs h') |>) = drop (h_from h) init ++ [l']).
  { unfold live_recs, h'. cbn. rewrite Hrecs, Hfrom, Hi, <-Hil, insert_app_r_alt, Nat.sub_diag by lia. cbn. rewrite drop_app_le; [done|].
    rewrite Hi, length_app in Hfr. simpl in Hfr. lia. }
  pose proof (ho_sorted _ _ _ Hok) as Hs. rewrite Hlive in Hs. apply StronglySorted_app in Hs as (Hlt & Hs & _).
  assert (Hll : last (live_recs h) = Some l) by (by rewrite Hlive, last_snoc).
  destruct (live_cases _ _ _ Hok) as [(Hn' & _)|(l0 & e & Hl0 & He & Heq & Hdr)]; [rewrite Hn' in Hll; done|]. rewrite Hll in Hl0. injection Hl0 as <-.
  assert (Hadd : log_add log idx start = log ++ [(r_idx l, start)]) by (unfold log_add; rewrite He; do 3 f_equal; lia). rewrite Hadd.
  assert (Hin : ∀ r, r ∈ drop (h_from h) init → r ∈ live_recs h) by (intros r Hr; rewrite Hlive; apply elem_of_app; by left).
  assert (Hinl : l ∈ live_recs h) by (rewrite Hlive; apply elem_of_app; right; by apply list_elem_of_singleton).
  split; rewrite ?Hlive'; cbn; unfold h' in *; rewrite ?Hhd, ?Hdi, ?HbS, ?HbF.
  - rewrite length_insert, Hrecs, Hfrom. lia.
  - apply StronglySorted_app. split_and!; [|done|repeat constructor]. intros a b Ha ->%list_elem_of_singleton. apply (Hlt a l Ha). by apply list_elem_of_singleton.
  - by apply counted_tot with keep.
  - intros r [Hr| ->%list_elem_of_singleton]%elem_of_app.
    + apply cum_old; [apply (Hlt r l Hr); by apply list_elem_of_singleton|]. by apply (ho_cum _ _ _ Hok), Hin.
    + cbn. eapply cum_new; [done|lia|]. intros e' He'. by apply (live_le _ _ _ Hok).
  - pose proof (ho_base _ _ _ Hok) as Hb. destruct (h_hasDropped h) eqn:Hd; [|done]. apply cum_old; [specialize (Hdr eq_refl); lia|done].
  - intros r Hd [Hr| ->%list_elem_of_singleton]%elem_of_app; [by apply (ho_dropped _ _ _ Hok _ Hd), Hin|by apply (ho_dropped _ _ _ Hok l)].
  - assert (Hev : ∀ r, r ∈ live_recs h → ∃ r', r' ∈ drop (h_from h) init ++ [l'] ∧ r_idx r' = r_idx r).
    { intros r Hr. rewrite Hlive in Hr. apply elem_of_app in Hr as [Hr| ->%list_elem_of_singleton]; [exists r|exists l']; (split; [|done]);
        apply elem_of_app; [by left|right; by apply list_elem_of_singleton]. }
    intros e' [He'| ->%list_elem_of_singleton]%elem_of_app; [|right; by apply Hev].
    destruct (ho_events _ _ _ Hok e' He') as [?|(r & Hr & <-)]; [by left|right; by apply Hev].
  - rewrite last_snoc. split; [exists l'; by rewrite last_snoc|]. cbn. rewrite Heq. done.
Qed.

Definition keep_ok (keep : Z) : Prop := 0 ≤ keep ≤ 2 ^ 62.
Definition idx_ok (idx : Z) : Prop := - 2 ^ 62 ≤ idx ≤ 2 ^ 62.

(** The live records lie within the kept buckets, and the array holds at most as many dead ones. *)
Definition bounded (keep : Z) (log : list event) (h : history) : Prop :=
  (∀ e, last log = Some e → Forall (λ r, e.1 - keep ≤ r_idx r) (live_recs h)) ∧ (h_from h ≤ 32 ∨ h_from h ≤ length (live_recs h))%nat.

Lemma live_length h : length (live_recs h) = live h.
Proof. unfold live_recs, live. apply length_drop. Qed.

Lemma push_ok keep log h idx start :
  hist_ok keep log h → keep_ok keep → idx_ok idx → (∀ l, last (live_recs h) = Some l → r_idx l < idx) →
  hist_ok keep (log_add log idx start) (push (counted h start) idx keep) ∧ bounded keep (log_add log idx start) (push (counted h start) idx keep).
Proof.
  intros Hok Hk Hi Hnew. unfold keep_ok, idx_ok in *. pose proof (append_ok keep log h idx start Hok ltac:(lia) Hnew) as Ha. cbn zeta in Ha. unfold push.
  set (h1 := (counted h start) <| h_recs := _ |>) in *. set (log1 := log_add log idx start) in *.
  assert (∃ e, last log1 = Some e ∧ e.1 = idx) as (e & He & Heq).
  { unfold log1, log_add. rewrite last_snoc. eexists. split; [done|]. cbn.
    destruct (live_cases _ _ _ Hok) as [(_ & -> & _)|(l & e & Hl & -> & Heq & _)]; [done|]. specialize (Hnew l Hl). lia. }
  rewrite wrap64_id by (unfold in64, int64_min, int64_max; lia).
  destruct (trim_ok keep log1 (length (h_recs h1)) (idx - keep) h1 e Ha He) as [Ht Hwide]; [lia|lia|rewrite live_length; unfold live; lia|].
  set (h2 := trim _ _ h1) in *. clearbody h2. destruct (compact_ok keep log1 h2 Ht) as [Hc Hlive]. split; [done|]. split.
  - intros e' He'. rewrite Hlive. assert (e' = e) as -> by congruence. by rewrite Heq.
  - rewrite Hlive, live_length. unfold live, compact. destruct (Nat.ltb_spec 32 (h_from h2)), (Nat.ltb_spec (length (h_recs h2)) (h_from h2 * 2)); cbn; lia.
Qed.

Lemma record_ok keep log h idx start :
  hist_ok keep log h → bounded keep log h → keep_ok keep → idx_ok idx →
  hist_ok keep (log_add log idx start) (record h idx start keep) ∧ bounded keep (log_add log idx start) (record h idx start keep).
Proof.
  intros Hok [Hw Hb] Hk Hi. pose proof (push_ok keep log h idx start Hok Hk Hi) as Happ. unfold keep_ok in *.
  unfold record. fold (counted h start). destruct (counted_frame h start) as (Hrecs & Hfrom & _).
  rewrite Hrecs, Hfrom. destruct (Nat.ltb_spec (h_from h) (length (h_recs h))) as [Hlt|Hge].
  - destruct (h_recs h !! (length (h_recs h) - 1)%nat) as [l|] eqn:Hl.
    2:{ apply lookup_ge_None in Hl. lia. }
    assert (Hlast : last (live_recs h) = Some l).
    { rewrite last_lookup. unfold live_recs. rewrite lookup_drop, length_drop, <-Hl. f_equal. lia. }
    destruct (Z.leb_spec idx (r_idx l)) as [Hle|Hgt]; [|apply Happ; intros l' Hl'; rewrite Hlast in Hl'; by injection Hl' as <-].
    pose proof (update_ok keep log h idx start l (length (h_recs h) - 1) Hok Hl ltac:(lia) Hlt Hle ltac:(lia)) as Hu. cbn zeta in Hu. rewrite Hrecs in Hu.
    split; [done|]. destruct (live_cases _ _ _ Hok) as [(Hn & _)|(l0 & e & Hl0 & He & Heq & _)]; [rewrite Hn in Hlast; done|]. simplify_eq. split.
    + intros e' He'. unfold log_add in He'. rewrite last_snoc, He in He'. injection He' as <-. cbn. rewrite Z.max_r by lia. specialize (Hw e He).
      apply Forall_forall. intros r Hr. unfold live_recs in *. cbn in Hr. rewrite Hfrom in Hr.
      apply list_elem_of_lookup in Hr as [i Hr]. rewrite lookup_drop, list_lookup_insert_Some in Hr. rewrite Forall_lookup in Hw.
      destruct Hr as [(Hn & <- & _)|[_ Hr]]; [|apply (Hw i); by rewrite lookup_drop]. cbn. apply (Hw i). rewrite lookup_drop, <-Hl. f_equal. lia.
    + rewrite live_length in *. unfold live in *. cbn. rewrite length_insert, Hfrom. exact Hb.
  - apply Happ. intros l Hl. exfalso. apply last_Some in Hl as [x Hx]. apply (f_equal length) in Hx. rewrite live_length, length_app in Hx. unfold live in Hx. simpl in Hx. lia.
Qed.

Lemma sorted_idx l (a b : nat) x y : StronglySorted rec_lt l → (a ≤ b)%nat → l !! a = Some x → l !! b = Some y → r_idx x ≤ r_idx y.
Proof.
  intros Hs Hab Hx Hy. destruct (decide (a = b)) as [->|Hne]; [simplify_eq; lia|].
  assert (rec_lt x y); [|unfold rec_lt in *; lia].
  eapply (StronglySorted_app_1_elem_of rec_lt (take b l) (drop b l)); [by rewrite take_drop|apply list_elem_of_lookup; exists a; rewrite lookup_take_lt by lia; done|].
  apply list_elem_of_lookup. exists 0%nat. by rewrite lookup_drop, Nat.add_0_r.
Qed.

Lemma since_ok keep log h pivot start :
  hist_ok keep log h →
  match since h pivot start with
  | Some n => n = wrapU64 (events_since log pivot start)
  | None => ∃ e, last log = Some e ∧ pivot < e.1 - keep
  end.
Proof.
  intros Hok. unfold since. set (p := λ i : nat, _). pose proof (λ a b x y, sorted_idx (live_recs h) a b x y (ho_sorted _ _ _ Hok)) as Hsort.
  destruct (sort_Search_spec (length (live_recs h)) p) as (Hle & Hbef & Haft).
  { intros a b Hab. unfold p. destruct (lookup_lt_is_Some_2 (live_recs h) a ltac:(lia)) as [x Hx], (lookup_lt_is_Some_2 (live_recs h) b ltac:(lia)) as [y Hy].
    rewrite Hx, Hy, !Z.leb_le. specialize (Hsort a b x y ltac:(lia) Hx Hy). lia. }
  set (k := sort_Search _ p) in *. clearbody k.
  assert (Hgen : ∀ x cS cF, cum_ok log x cS cF → (∀ e, e ∈ log → e.1 ≤ x ↔ e.1 ≤ pivot - 1) →
    (if start then wrapU64 (h_totS h - cS) else wrapU64 (h_totF h - cF)) = wrapU64 (events_since log pivot start)).
  { intros x cS cF [-> ->] Hx. destruct (ho_tot _ _ _ Hok) as [-> ->]. rewrite !(events_upto_ext log x (pivot - 1)) by done.
    destruct start; rewrite wrapU64_sub; f_equal; rewrite (events_since_split log pivot); lia. }
  assert (Hge : ∀ r, r ∈ live_recs h → r_idx r < pivot → ∃ i, (i < k)%nat ∧ live_recs h !! i = Some r).
  { intros r Hr Hlt. apply list_elem_of_lookup in Hr as [i Hi]. exists i. split; [|done]. destruct (decide (i < k)%nat); [done|].
    pose proof (lookup_lt_Some _ _ _ Hi). pose proof (Haft i ltac:(lia)) as Hp. unfold p in Hp. rewrite Hi, Z.leb_le in Hp. lia. }
  destruct k as [|k].
  - assert (Hold : ∀ e, e ∈ log → e.1 < pivot → h_hasDropped h = true ∧ e.1 ≤ h_droppedIdx h).
    { intros e He Hlt. destruct (ho_events _ _ _ Hok e He) as [?|(r & Hr & Heq)]; [done|]. destruct (Hge r Hr ltac:(lia)) as (i & Hi & _). lia. }
    pose proof (ho_base _ _ _ Hok) as Hb. destruct (h_hasDropped h) eqn:Hd; cbn [andb].
    + destruct (Z.leb_spec pivot (h_droppedIdx h)).
      * destruct (live_cases _ _ _ Hok) as [(_ & _ & ?)|(l & e & _ & He & _ & Hdr)]; [congruence|]. exists e. specialize (Hdr Hd). split; [done|lia].
      * apply (Hgen _ _ _ Hb). intros e He. split; [lia|]. intros Hlt. destruct (Hold e He ltac:(lia)). lia.
    + destruct Hb as [-> ->]. apply (Hgen (pivot - 1)); [|done].
      assert (Hz : ∀ e, e ∈ log → pivot - 1 < e.1); [|by split; rewrite events_upto_none].
      intros e He. destruct (decide (e.1 < pivot)) as [Hlt|]; [by destruct (Hold e He Hlt)|lia].
  - destruct (lookup_lt_is_Some_2 (live_recs h) k ltac:(lia)) as [r Hr]. rewrite Hr. pose proof (Hbef k ltac:(lia)) as Hp. unfold p in Hp. rewrite Hr, Z.leb_gt in Hp.
    assert (r ∈ live_recs h) as Hin by (by eapply list_elem_of_lookup_2). apply (Hgen _ _ _ (ho_cum _ _ _ Hok r Hin)). intros e He. split; [lia|]. intros Hlt.
    destruct (ho_events _ _ _ Hok e He) as [[Hd Hx]|(r' & Hr' & Heq)]; [pose proof (ho_dropped _ _ _ Hok r Hd Hin); lia|].
    destruct (Hge r' Hr' ltac:(lia)) as (i & Hi & Hri). specialize (Hsort i k r' r ltac:(lia) Hri Hr). lia.
Qed.

(** ** From the start. *)

Definition history_of (keep : Z) (l : list event) : history := foldl (λ h e, record h e.1 e.2 keep) history_reset l.

Lemma history_of_ok keep l : keep_ok keep → Forall (λ e, idx_ok e.1) l → hist_ok keep (log_of l) (history_of keep l) ∧ bounded keep (log_of l) (history_of keep l).
Proof.
  intros Hk. unfold history_of, log_of. induction l as [|e l IH] using rev_ind; intros Hl.
  { split; [apply hist_ok_reset|]. split; [done|left; cbn; lia]. }
  apply Forall_app in Hl as [Hl He]. rewrite Forall_singleton in He. rewrite !foldl_app. cbn [foldl]. destruct (IH Hl). by apply record_ok.
Qed.

Lemma sorted_span l lo hi : StronglySorted rec_lt l → Forall (λ r, lo ≤ r_idx r ≤ hi) l → Z.of_nat (length l) ≤ Z.max 0 (hi - lo + 1).
Proof.
  revert lo. induction l as [|r l IH]; intros lo Hs Hl; [simpl; lia|]. apply StronglySorted_inv in Hs as [Hs Hr].
  apply Forall_cons in Hl as [Hr0 Hl]. specialize (IH (r_idx r + 1) Hs). simpl length. rewrite Nat2Z.inj_succ.
  assert (Forall (λ x, r_idx r + 1 ≤ r_idx x ≤ hi) l); [|specialize (IH ltac:(done)); lia].
  rewrite Forall_forall in *. intros x Hx. specialize (Hr x Hx). specialize (Hl x Hx). unfold rec_lt in Hr. lia.
Qed.

Lemma live_bound keep log h : hist_ok keep log h → bounded keep log h → 0 ≤ keep → Z.of_nat (live h) ≤ keep + 1.
Proof.
  intros Hok [Hw _] Hk. rewrite <-live_length. destruct (live_cases _ _ _ Hok) as [(-> & _)|(l & e & Hl & He & Heq & _)]; [simpl; lia|].
  pose proof (sorted_span (live_recs h) (e.1 - keep) e.1 (ho_sorted _ _ _ Hok)) as Hs. specialize (Hw e He). rewrite Forall_forall in *.
  etrans; [apply Hs|lia]. intros r Hr. split; [by apply Hw|]. destruct (sorted_last l _ r (ho_sorted _ _ _ Hok) Hl Hr) as [->|]; lia.
Qed.

Lemma log_of_ordered l : StronglySorted (λ a b : event, a.1 ≤ b.1) l → log_of l = l.
Proof.
  unfold log_of. induction l as [|e l IH] using rev_ind; intros Hs; [done|]. apply StronglySorted_app in Hs as (Hle & Hs & _).
  rewrite foldl_app. cbn [foldl]. rewrite (IH Hs). unfold log_add. f_equal. destruct e as [x s]. cbn. do 2 f_equal. destruct (last l) as [e'|] eqn:He; [|done].
  apply last_Some in He as [l' ->]. specialize (Hle e' (x, s) ltac:(set_solver) ltac:(set_solver)). cbn in Hle. lia.
Qed.

(** C31: The trimmed, compacted history answers as the list of all the events would: [since]
    returns the number of starts (finishes) in the buckets at or after the pivot, modulo 2^64,
    or refuses, and it refuses only a pivot more than [keep] buckets before the last event.
    Events recorded in time order count in their own buckets.  It holds at most [keep + 1]
    records, in an array with at most 32 dead places more than twice that. *)
Theorem history_refines keep l pivot start :
  keep_ok keep → Forall (λ e, idx_ok e.1) l →
  let h := history_of keep l in
  let log := log_of l in
  match since h pivot start with
  | Some n => n = wrapU64 (events_since log pivot start)
  | None => ∃ e, last log = Some e ∧ pivot < e.1 - keep
  end ∧ (StronglySorted (λ a b : event, a.1 ≤ b.1) l → log = l) ∧
  Z.of_nat (live h) ≤ keep + 1 ∧ (length (h_recs h) ≤ 2 * live h + 32)%nat.
Proof.
  intros Hk Hl h log. destruct (history_of_ok keep l Hk Hl) as [Hok Hb]. fold h log in Hok, Hb. split_and!.
  - exact (since_ok keep log h pivot start Hok).
  - apply log_of_ordered.
  - unfold keep_ok in Hk. eapply live_bound; [done..|lia].
  - destruct Hb as [_ Hb]. rewrite live_length in Hb. unfold live in *. lia.
Qed.

Lemma history_refines_witness :
  since (history_of 4 [(1, true); (3, true); (2, false); (9, false)]) 9 false = Some (wrapU64 1) ∧
  since (history_of 4 [(1, true); (3, true); (2, false); (9, false)]) 2 true = None.
Proof.
  destruct (history_refines 4 [(1, true); (3, true); (2, false); (9, false)] 9 false) as [Hs _].
  - unfold keep_ok. lia.
  - unfold idx_ok. repeat (constructor; [simpl; lia|]). constructor.
  - split; [|vm_compute; reflexivity]. revert Hs. destruct (since _ 9 false) eqn:E; [|vm_compute in E; discriminate E]. intros ->. vm_compute. reflexivity.
Defined.
