(* ===== verification/Tracker.v ===== *)
(** * The load tracker (internal/scheduler/signals: tracker.go, capacity.go)

    The gateway's own view of the work on each worker: the ledger of the requests it has in
    flight, the history that corrects a worker's report, and the capacity estimate.  Every method
    holds the tracker's lock, so it is one step of the state; the clock's reading is an input.
    A worker's last heartbeat comes out of a decoded snapshot and has no monotonic reading: it
    is its wall time in nanoseconds. *)

From Stdlib Require Import Ascii String SpecFloat.
From S2P Require Import Prelude GoFloat FloatOrder GoString GoSort Protocol Cost Scheduler History.

Local Open Scope string_scope.
Local Open Scope list_scope.
Local Open Scope Z_scope.

(** [math.Exp2], whose last bits depend on the platform (some have their own assembly); all that
    is used of it is that a power of two with an exponent that is not positive is in [0, 1]. *)
Class GoMath := {
  Exp2 : float64 → float64;
  Exp2_unit : ∀ x, valid x → fle x f0 = true → valid (Exp2 x) ∧ fle f0 (Exp2 x) = true ∧ fle (Exp2 x) (f64 1) = true
}.

(** ** Configuration. *)

Definition DefaultBucket : Z := 100 * Millisecond.
Definition DefaultMaxWorkers : Z := 4096.
Definition DefaultMaxModels : Z := 1024.
Definition DefaultCapacityHalflife : Z := 60 * Second.
Definition DefaultCapacityFloor : float64 := flit 25 2.
Definition maxCount : Z := 2147483647.
Definition maxReportAge : float64 := f64 1000000.

Record Config := mkConfig {
  c_Bucket : Z; c_Window : Z; c_MaxWorkers : Z; c_MaxModels : Z; c_CapacityHalflife : Z; c_CapacityFloor : float64
}.

#[global] Instance eta_Config : Settable Config :=
  {| eta_of := λ c, mkConfig (c_Bucket c) (c_Window c) (c_MaxWorkers c) (c_MaxModels c) (c_CapacityHalflife c) (c_CapacityFloor c) |}.

(** The defaults New fills in. *)
Definition with_defaults (cfg : Config) : Config :=
  let cfg := if c_Bucket cfg <=? 0 then cfg <| c_Bucket := DefaultBucket |> else cfg in
  let cfg := if c_MaxWorkers cfg <=? 0 then cfg <| c_MaxWorkers := DefaultMaxWorkers |> else cfg in
  let cfg := if c_Window cfg <? (2 *! c_Bucket cfg)%go then cfg <| c_Window := (2 *! c_Bucket cfg)%go |> else cfg in
  let cfg := if c_MaxModels cfg <=? 0 then cfg <| c_MaxModels := DefaultMaxModels |> else cfg in
  let cfg := if c_CapacityHalflife cfg <=? 0 then cfg <| c_CapacityHalflife := DefaultCapacityHalflife |> else cfg in
  if negb (flt f0 (c_CapacityFloor cfg) && fle (c_CapacityFloor cfg) (f64 1)) then cfg <| c_CapacityFloor := DefaultCapacityFloor |> else cfg.

(** ** Keys, tokens, inputs and results. *)

Record Key := mkKey { k_WorkerID : string; k_Registered : Z }.

#[global] Instance Key_eq_dec : EqDecision Key.
Proof. solve_decision. Defined.

#[global] Instance Key_countable : Countable Key.
Proof. apply (inj_countable' (λ k, (k_WorkerID k, k_Registered k)) (λ p, mkKey p.1 p.2)). by intros []. Defined.

Definition KeyOf (w : WorkerSnapshot) : Key := mkKey (s_WorkerID w) (UnixNano (s_RegisteredAt w)).

Record Token := mkToken { t_key : Key; t_gen : Z }.

#[global] Instance Token_eq_dec : EqDecision Token.
Proof. solve_decision. Defined.

Definition no_token : Token := mkToken (mkKey "" 0) 0.

Definition Token_Valid (t : Token) : bool := negb (t_gen t =? 0).

Inductive Fallback := FallbackNone | FallbackUntracked | FallbackHistory.

#[global] Instance Fallback_eq_dec : EqDecision Fallback.
Proof. solve_decision. Defined.

Record Input := mkInput { i_Key : Key; i_Local : Z; i_Reported : Z; i_At : Time }.

Record Result := mkResult {
  rs_Active : Z; rs_Inflight : Z; rs_Work : Z; rs_Fallback : Fallback; rs_Capacity : float64; rs_CapacityPrior : bool
}.

#[global] Instance eta_Result : Settable Result :=
  {| eta_of := λ r, mkResult (rs_Active r) (rs_Inflight r) (rs_Work r) (rs_Fallback r) (rs_Capacity r) (rs_CapacityPrior r) |}.

Definition Result_Observed (r : Result) : ObservedLoad :=
  let o := mkObserved (rs_Inflight r) (f64 (rs_Work r)) f0 f0 (rs_Active r) 0 in
  if bool_decide (rs_Fallback r ≠ FallbackNone) then o <| Flags := Z.lor (Flags o) ObservedColdStart |> else o.

Record Observation := mkObservation {
  o_Key : Key; o_LastHeartbeat : Z; o_Model : string; o_ReportedActive : Z; o_ReportedTPS : float64; o_Fresh : bool
}.

(** The zero [time.Time] as a wall time. *)
Definition no_heartbeat : Z := wall zeroTime.

Record Stats := mkStats {
  st_Untracked : Z; st_Resets : Z; st_Pruned : Z; st_FallbackUntracked : Z; st_FallbackHistory : Z
}.

#[global] Instance eta_Stats : Settable Stats :=
  {| eta_of := λ s, mkStats (st_Untracked s) (st_Resets s) (st_Pruned s) (st_FallbackUntracked s) (st_FallbackHistory s) |}.

Record entry := mkEntry {
  e_gen : Z; e_inflight : Z; e_work : Z; e_validFrom : Time; e_lastHB : Z; e_hist : history;
  e_model : string; e_hasPeak : bool; e_peak : float64; e_peakAt : Time; e_capHB : Z; e_capR : float64; e_capPrior : bool
}.

#[global] Instance eta_entry : Settable entry :=
  {| eta_of := λ e, mkEntry (e_gen e) (e_inflight e) (e_work e) (e_validFrom e) (e_lastHB e) (e_hist e) (e_model e) (e_hasPeak e)
       (e_peak e) (e_peakAt e) (e_capHB e) (e_capR e) (e_capPrior e) |}.

Record Tracker := mkTracker {
  tr_cfg : Config; tr_epoch : Time; tr_hasEp : bool; tr_entries : gmap Key entry; tr_nextGen : Z; tr_stats : Stats;
  tr_meanCost : gmap string float64
}.

#[global] Instance eta_Tracker : Settable Tracker :=
  {| eta_of := λ t, mkTracker (tr_cfg t) (tr_epoch t) (tr_hasEp t) (tr_entries t) (tr_nextGen t) (tr_stats t) (tr_meanCost t) |}.

Definition New (cfg : Config) : Tracker := mkTracker (with_defaults cfg) zeroTime false ∅ 0 (mkStats 0 0 0 0 0) ∅.

Definition ReportTime `{GoPlatform} (now : Time) (heartbeatAgeSeconds : float64) : Time :=
  let age := heartbeatAgeSeconds in
  if negb (flt f0 age) then now
  else
  let age := if flt maxReportAge age then maxReportAge else age in
  Add now (wrap64 (- float_to_int (fmul age (f64 Second)))).

Definition setEpoch (t : Tracker) (now : Time) : Tracker := if tr_hasEp t then t else t <| tr_epoch := now |> <| tr_hasEp := true |>.

Definition bucket (t : Tracker) (x : Time) : Z :=
  let d := Sub x (tr_epoch t) in
  let b := Z.quot d (c_Bucket (tr_cfg t)) in
  if (d <? 0) && negb (Z.rem d (c_Bucket (tr_cfg t)) =? 0) then (b -! 1)%go else b.

Definition window (t : Tracker) : Z := (Z.quot (c_Window (tr_cfg t)) (c_Bucket (tr_cfg t)) +! 2)%go.

Definition clampCount (n : Z) : Z := Z.min (Z.max n 0) maxCount.

Definition bump (n : Z) : Z := wrapU64 (n + 1).

Definition create (t : Tracker) (k : Key) (now : Time) : Tracker * option entry :=
  if c_MaxWorkers (tr_cfg t) <=? Z.of_nat (size (tr_entries t)) then
    (t <| tr_stats := (tr_stats t) <| st_Untracked := bump (st_Untracked (tr_stats t)) |> |>, None)
  else
  let gen := bump (tr_nextGen t) in
  let e := mkEntry gen 0 0 now no_heartbeat history_reset "" false f0 zeroTime no_heartbeat f0 false in
  (t <| tr_nextGen := gen |> <| tr_entries := <[k := e]> (tr_entries t) |>, Some e).

(** The entry of a worker, created when it has none. *)
Definition find_or_create (t : Tracker) (k : Key) (now : Time) : Tracker * option entry :=
  match tr_entries t !! k with
  | Some e => (t, Some e)
  | None => create t k now
  end.

Definition put (t : Tracker) (k : Key) (e : entry) : Tracker := t <| tr_entries := <[k := e]> (tr_entries t) |>.

(** ** The ledger. *)

Definition Begin (t : Tracker) (now : Time) (k : Key) : Tracker * Token :=
  let t := setEpoch t now in
  match find_or_create t k now with
  | (t, None) => (t, no_token)
  | (t, Some e) =>
      let e := e <| e_inflight := (e_inflight e +! 1)%go |> <| e_hist := record (e_hist e) (bucket t now) true (window t) |> in
      (put t k e, mkToken k (e_gen e))
  end.

Definition AddCost (t : Tracker) (tok : Token) (cost : Z) : Tracker * bool :=
  if negb (Token_Valid tok) || (cost <=? 0) then (t, false)
  else
  match tr_entries t !! t_key tok with
  | Some e =>
      if negb (e_gen e =? t_gen tok) then (t, false)
      else (put t (t_key tok) (e <| e_work := (e_work e +! cost)%go |>), true)
  | None => (t, false)
  end.

(** What End does to the counts. *)
Definition finish_entry (e : entry) (cost : Z) : entry :=
  let e := if 0 <? e_inflight e then e <| e_inflight := e_inflight e - 1 |> else e in
  if 0 <? cost then
    let w := (e_work e -! cost)%go in e <| e_work := if w <? 0 then 0 else w |>
  else e.

Definition End (t : Tracker) (now : Time) (tok : Token) (cost : Z) : Tracker :=
  if negb (Token_Valid tok) then t
  else
  let t := setEpoch t now in
  match tr_entries t !! t_key tok with
  | Some e =>
      if negb (e_gen e =? t_gen tok) then t
      else
      let e := finish_entry e cost in
      put t (t_key tok) (e <| e_hist := record (e_hist e) (bucket t now) false (window t) |>)
  | None => t
  end.

Definition finishLag : Z := 0.

(** [overlayLocked]. *)
Definition count_fallback (t : Tracker) (f : Fallback) : Tracker :=
  match f with
  | FallbackNone => t
  | FallbackUntracked => t <| tr_stats := (tr_stats t) <| st_FallbackUntracked := bump (st_FallbackUntracked (tr_stats t)) |> |>
  | FallbackHistory => t <| tr_stats := (tr_stats t) <| st_FallbackHistory := bump (st_FallbackHistory (tr_stats t)) |> |>
  end.

Definition overlayLocked (t : Tracker) (now : Time) (i : Input) : Tracker * Result :=
  let t := setEpoch t now in
  let loc := clampCount (i_Local i) in
  let reported := clampCount (i_Reported i) in
  let res := mkResult (Z.max loc reported) 0 0 FallbackNone f0 false in
  match tr_entries t !! i_Key i with
  | None => (count_fallback t FallbackUntracked, res <| rs_Fallback := FallbackUntracked |> <| rs_CapacityPrior := true |>)
  | Some e =>
      let res := res <| rs_Inflight := e_inflight e |> <| rs_Work := e_work e |> <| rs_Capacity := e_capR e |>
                     <| rs_CapacityPrior := e_capPrior e || fle (e_capR e) f0 |> in
      let at_ := if After (i_At i) now then now else i_At i in
      let no_history := (count_fallback t FallbackHistory, res <| rs_Fallback := FallbackHistory |>) in
      if Before at_ (e_validFrom e) || (c_Window (tr_cfg t) <? Sub now at_) then no_history
      else
      let b := bucket t at_ in
      match since (e_hist e) b true with
      | None => no_history
      | Some started =>
          let finished := default 0 (since (e_hist e) (b +! finishLag)%go false) in
          let eff := (reported +! wrap64 started -! wrap64 finished)%go in
          (t, res <| rs_Active := Z.min (Z.max eff loc) maxCount |>)
      end
  end.

Definition Overlay (t : Tracker) (now : Time) (i : Input) : Tracker * Result := overlayLocked t now i.

Definition Ledger (t : Tracker) (k : Key) : Z * Z := match tr_entries t !! k with Some e => (e_inflight e, e_work e) | None => (0, 0) end.

Definition Totals `{GoMapOrder} (t : Tracker) : Z * Z :=
  foldl (λ '(n, w) '(_, e), ((n +! e_inflight e)%go, (w +! e_work e)%go)) (0, 0) (range_map (tr_entries t)).

Definition HistoryRecords `{GoMapOrder} (t : Tracker) : Z :=
  foldl (λ n '(_, e), (n +! Z.of_nat (live (e_hist e)))%go) 0 (range_map (tr_entries t)).

(** Its stats, with the entries it tracks now. *)
Definition Tracker_Stats (t : Tracker) : Stats * Z := (tr_stats t, Z.of_nat (size (tr_entries t))).

(** ** Capacity (capacity.go). *)

Definition maxTPS : float64 := f64 10000000.
Definition minTPS : float64 := flit 1 3.
Definition peerClamp : float64 := f64 10.
Definition costAlpha : float64 := flit 1 1.

Definition sample (e : entry) (m : Observation) (now : Time) : entry :=
  if negb (o_Fresh m) || (o_ReportedActive m <? 1) || (o_LastHeartbeat m =? no_heartbeat) || (o_LastHeartbeat m =? e_capHB e) then e
  else
  let e := e <| e_capHB := o_LastHeartbeat m |> in
  let v := o_ReportedTPS m in
  if negb (fle minTPS v) || isInf v then e
  else
  let v := fmin v maxTPS in
  let v := if e_hasPeak e && flt v (e_capR e) then e_capR e else v in
  e <| e_peak := v |> <| e_peakAt := now |> <| e_hasPeak := true |>.

(** The median of the sorted slice with element [i] left out; it has two elements or more. *)
Definition medianWithout (sorted : list float64) (i : nat) : float64 :=
  let at_ := λ k : nat, default f0 (sorted !! (if (i <=? k)%nat then S k else k)) in
  let m := (length sorted - 1)%nat in
  if (m mod 2 =? 1)%nat then at_ (m / 2)%nat
  else fdiv (fadd (at_ (m / 2 - 1)%nat) (at_ (m / 2)%nat)) (f64 2).

Definition sort_SearchFloat64s (a : list float64) (x : float64) : nat :=
  sort_Search (length a) (λ i, match a !! i with Some y => fle x y | None => true end).

Definition peaks_of (es : list (Key * entry)) : list float64 := omap (λ ke, if e_hasPeak ke.2 then Some (e_peak ke.2) else None) es.

Definition clamp_peak (sorted : list float64) (e : entry) : entry :=
  if e_hasPeak e then
    let bound := fmul peerClamp (medianWithout sorted (sort_SearchFloat64s sorted (e_peak e))) in
    if flt bound (e_peak e) then e <| e_peak := bound |> else e
  else e.

Definition clampToPeers (es : list (Key * entry)) (peaks : list float64) : list (Key * entry) :=
  if (length peaks <? 2)%nat then es
  else (λ ke, (ke.1, clamp_peak (sort_Float64s peaks) ke.2)) <$> es.

Definition decay `{GoMath} (cfg : Config) (peak target : float64) (elapsed : Z) : float64 :=
  let elapsed := if elapsed <? 0 then 0 else elapsed in
  let f := Exp2 (fdiv (fopp (Seconds elapsed)) (Seconds (c_CapacityHalflife cfg))) in
  fmax (fadd target (fmul (fsub peak target) f)) (fmul (c_CapacityFloor cfg) target).

(** The body of recomputeCapacity's loop over the models, for the workers of one. *)
Definition recompute_model `{GoMath} (cfg : Config) (now : Time) (es : list (Key * entry)) : list (Key * entry) :=
  let peaks := peaks_of es in
  if (length peaks =? 0)%nat then es
  else
  let es := clampToPeers es peaks in
  let target := medianOf (peaks_of es) in
  let es := (λ ke, (ke.1, if e_hasPeak ke.2
                          then ke.2 <| e_capR := decay cfg (e_peak ke.2) target (Sub now (e_peakAt ke.2)) |> <| e_capPrior := false |>
                          else ke.2)) <$> es in
  let prior := medianOf (omap (λ ke, if e_hasPeak ke.2 then Some (e_capR ke.2) else None) es) in
  (λ ke, (ke.1, if e_hasPeak ke.2 then ke.2 else ke.2 <| e_capR := prior |>)) <$> es.

Definition unknown_capacity (e : entry) : entry := e <| e_capR := f0 |> <| e_capPrior := true |>.

Definition store (m : gmap Key entry) (es : list (Key * entry)) : gmap Key entry := foldl (λ m ke, <[ke.1 := ke.2]> m) m es.

(** The models of the workers, each once, and the workers of one, in the order of the map. *)
Definition models_of (es : list (Key * entry)) : list string := remove_dups (filter (λ m, m ≠ "") ((λ ke, e_model ke.2) <$> es)).
Definition of_model (m : string) (es : list (Key * entry)) : list (Key * entry) := filter (λ ke, e_model ke.2 = m) es.

Definition recomputeCapacity `{GoMath} `{GoMapOrder} (t : Tracker) (now : Time) : Tracker :=
  let es := (λ ke, (ke.1, unknown_capacity ke.2)) <$> range_map (tr_entries t) in
  t <| tr_entries := foldl (λ m model, store m (recompute_model (tr_cfg t) now (of_model model es))) (store (tr_entries t) es) (go_range (models_of es)) |>.

Definition pruneModels (t : Tracker) : Tracker :=
  if (size (tr_meanCost t) =? 0)%nat then t
  else t <| tr_meanCost := filter (λ mc, mc.1 ∈ (λ ke, e_model ke.2) <$> map_to_list (tr_entries t)) (tr_meanCost t) |>.

(** ** Sync. *)

Definition sync_step (now : Time) (t : Tracker) (m : Observation) : Tracker :=
  match find_or_create t (o_Key m) now with
  | (t, None) => t
  | (t, Some e) =>
      let '(t, e) :=
        if negb (o_LastHeartbeat m =? no_heartbeat) && negb (e_lastHB e =? no_heartbeat) && (o_LastHeartbeat m <? e_lastHB e)
        then (t <| tr_stats := (tr_stats t) <| st_Resets := bump (st_Resets (tr_stats t)) |> |>, e <| e_hist := history_reset |> <| e_validFrom := now |>)
        else (t, e) in
      let e := e <| e_lastHB := o_LastHeartbeat m |> <| e_model := o_Model m |> in
      put t (o_Key m) (sample e m now)
  end.

Definition prune (seen : list Key) (t : Tracker) : Tracker :=
  let kept := filter (λ ke, ke.1 ∈ seen) (tr_entries t) in
  let gone := Z.of_nat (size (tr_entries t)) - Z.of_nat (size kept) in
  t <| tr_entries := kept |> <| tr_stats := (tr_stats t) <| st_Pruned := wrapU64 (st_Pruned (tr_stats t) + gone) |> |>.

Definition Sync `{GoMath} `{GoMapOrder} (t : Tracker) (now : Time) (members : list Observation) : Tracker :=
  let t := setEpoch t now in
  let t := foldl (sync_step now) t members in
  let t := prune (o_Key <$> members) t in
  recomputeCapacity (pruneModels t) now.

(** ** Work ahead. *)

Definition ObserveCost (t : Tracker) (model : string) (cost : Z) : Tracker :=
  if cost <=? 0 then t
  else
  match tr_meanCost t !! model with
  | Some m => t <| tr_meanCost := <[model := fadd m (fmul costAlpha (fsub (f64 cost) m))]> (tr_meanCost t) |>
  | None =>
      if Z.of_nat (size (tr_meanCost t)) <? c_MaxModels (tr_cfg t) then t <| tr_meanCost := <[model := f64 cost]> (tr_meanCost t) |> else t
  end.

Record LoadInput := mkLoadInput { li_Input : Input; li_Model : string; li_QueuedTokens : Z; li_Cost : Z; li_InputWeight : float64 }.

Definition Load (t : Tracker) (now : Time) (i : LoadInput) : Tracker * ObservedLoad :=
  let '(t, res) := overlayLocked t now (li_Input i) in
  let mean := match tr_meanCost t !! li_Model i with Some m => m | None => f64 (Z.max (li_Cost i) 0) end in
  let foreign := Z.max (rs_Active res -! clampCount (i_Local (li_Input i)))%go 0 in
  let queued := f64 (Z.min (Z.max (li_QueuedTokens i) 0) maxCount) in
  let iw := li_InputWeight i in
  let iw := if negb (fle f0 iw) || isInf iw then f64 1 else iw in
  let o := Result_Observed res in
  let o := o <| WorkAheadTokens := fadd (WorkAheadTokens o) (fadd (fmul (f64 foreign) mean) (fmul queued (fmin iw (f64 10000)))) |>
             <| CapacityTPS := rs_Capacity res |> <| Flags := Z.lor (Flags o) ObservedLedger |> in
  let o := if bool_decide (rs_Fallback res = FallbackUntracked) then o <| Flags := Z.lor (Flags o) ObservedUntracked |> else o in
  (t, if rs_CapacityPrior res then o <| Flags := Z.lor (Flags o) ObservedPriorCapacity |> else o).

Definition Capacity (t : Tracker) (k : Key) : float64 * bool :=
  match tr_entries t !! k with
  | Some e => (e_capR e, e_capPrior e || fle (e_capR e) f0)
  | None => (f0, true)
  end.

Definition MeanCost (t : Tracker) (model : string) : option float64 := tr_meanCost t !! model.
