(* ===== verification/TrackerSpec.v ===== *)
(** * What the load tracker guarantees

    The ledger counts exactly the requests the gateway has in flight, whatever workers come, go
    and re-register in between; the overlay corrects a worker's report by exactly the starts and
    finishes since it; the peer clamp is the textbook one. *)

From Stdlib Require Import Ascii String SpecFloat.
From S2P Require Import Prelude GoFloat FloatExact FloatOrder GoString GoSort Protocol Cost Scheduler History Tracker.

Local Open Scope string_scope.
Local Open Scope list_scope.
Local Open Scope Z_scope.

(** ** Buckets. *)

Definition cfg_ok (c : Config) : Prop := 2 ≤ c_Bucket c ∧ 2 * c_Bucket c ≤ c_Window c ≤ 2 ^ 62.

Lemma Sub_range a b : in64 (Sub a b).
Proof. unfold in64, Sub, int64_min, int64_max. lia. Qed.

(** The bucket of an instant is the floor of its distance from the epoch. *)
Lemma bucket_floor t x : cfg_ok (tr_cfg t) → bucket t x = Sub x (tr_epoch t) / c_Bucket (tr_cfg t).
Proof.
  intros [Hb _]. unfold bucket. pose proof (Sub_range x (tr_epoch t)) as Hd. set (d := Sub _ _) in *. clearbody d. set (b := c_Bucket _) in *. clearbody b.
  unfold in64, int64_min, int64_max in Hd. destruct (Z.ltb_spec d 0) as [Hneg|Hpos]; cbn [andb]; [|by apply Z.quot_div_nonneg; lia].
  pose proof (Z.quot_rem' d b) as Hq. assert (- b < Z.rem d b ≤ 0) as Hr by (pose proof (Z.rem_bound_pos_neg d b ltac:(lia) ltac:(lia)); lia).
  destruct (Z.eqb_spec (Z.rem d b) 0) as [H0|H0]; cbn [negb].
  - apply Z.div_unique with 0; lia.
  - assert (Z.quot d b - 1 = d / b) as <- by (apply Z.div_unique with (Z.rem d b + b); nia).
    apply wrap64_id. unfold in64, int64_min, int64_max. nia.
Qed.

Lemma bucket_idx_ok t x : cfg_ok (tr_cfg t) → idx_ok (bucket t x).
Proof.
  intros Hc. rewrite bucket_floor by done. destruct Hc as [Hb _]. pose proof (Sub_range x (tr_epoch t)) as Hd. unfold idx_ok, in64, int64_min, int64_max in *.
  split; [apply Z.div_le_lower_bound; nia|apply Z.div_le_upper_bound; nia].
Qed.

Lemma window_keep t : cfg_ok (tr_cfg t) → window t = c_Window (tr_cfg t) / c_Bucket (tr_cfg t) + 2 ∧ keep_ok (window t).
Proof.
  intros [Hb Hw]. unfold window. rewrite Z.quot_div_nonneg by lia. set (q := c_Window _ / _).
  assert (0 ≤ q ≤ 2 ^ 61) as Hq by (unfold q; split; [apply Z.div_pos; lia|apply Z.div_le_upper_bound; nia]).
  rewrite wrap64_id by (unfold in64, int64_min, int64_max; lia). split; [done|]. unfold keep_ok. lia.
Qed.

(** ** The gateway as a client. *)

(** What happened on a worker: when its record began and the starts and finishes since. *)
Record Log := mkLog { lg_from : Time; lg_events : list event }.

(** The tracker, the tokens not ended yet with the cost added for each, and, for each tracked
    worker, what its history stands for. *)
Record View := mkView { v_t : Tracker; v_holds : list (Token * Z); v_logs : gmap Key Log }.

Definition log_event (t : Tracker) (now : Time) (k : Key) (start : bool) (logs : gmap Key Log) : gmap Key Log :=
  let log := default (mkLog now []) (logs !! k) in
  <[k := mkLog (lg_from log) (log_add (lg_events log) (bucket (setEpoch t now) now) start)]> logs.

Definition heartbeat_reset (m : Observation) (e : entry) : bool :=
  negb (o_LastHeartbeat m =? no_heartbeat) && negb (e_lastHB e =? no_heartbeat) && (o_LastHeartbeat m <? e_lastHB e).

(** A new worker starts a log, a reset starts it over. *)
Definition sync_log (now : Time) (tl : Tracker * gmap Key Log) (m : Observation) : Tracker * gmap Key Log :=
  let '(t, logs) := tl in
  (sync_step now t m,
   match tr_entries t !! o_Key m with
   | Some e => if heartbeat_reset m e then <[o_Key m := mkLog now []]> logs else logs
   | None => match (create t (o_Key m) now).2 with Some _ => <[o_Key m := mkLog now []]> logs | None => logs end
   end).

Definition held (tok : Token) (h : Token * Z) : bool := bool_decide (h.1 = tok).

Definition holds_on (tok : Token) (holds : list (Token * Z)) : Z := countb (held tok) holds.
Definition cost_on (tok : Token) (holds : list (Token * Z)) : Z := sumZ ((λ h, if held tok h then h.2 else 0) <$> holds).

Arguments held : simpl never.
Arguments holds_on : simpl never.
Arguments cost_on : simpl never.

Section Client.
Context `{GoMath} `{GoMapOrder}.

(** One call.  The bounds are those of the counters' widths. *)
Inductive view_step : View → View → Prop :=
  | vs_begin t holds logs now k :
      tr_nextGen t + 1 < 2 ^ 64 → Z.of_nat (length holds) + 1 < 2 ^ 63 →
      view_step (mkView t holds logs)
        (let '(t', tok) := Begin t now k in
         mkView t' ((tok, 0) :: holds) (if Token_Valid tok then log_event t now k true logs else logs))
  | vs_cost t h1 h2 logs tok cost :
      0 < cost → sumZ ((h1 ++ (tok, 0) :: h2).*2) + cost < 2 ^ 63 →
      view_step (mkView t (h1 ++ (tok, 0) :: h2) logs)
        (let '(t', ok) := AddCost t tok cost in mkView t' (h1 ++ (tok, if ok : bool then cost else 0) :: h2) logs)
  | vs_end t h1 h2 logs now tok cost :
      view_step (mkView t (h1 ++ (tok, cost) :: h2) logs)
        (mkView (End t now tok cost) (h1 ++ h2)
           (match tr_entries t !! t_key tok with
            | Some e => if Token_Valid tok && (e_gen e =? t_gen tok) then log_event t now (t_key tok) false logs else logs
            | None => logs
            end))
  | vs_sync t holds logs now members :
      tr_nextGen t + Z.of_nat (length members) < 2 ^ 64 →
      view_step (mkView t holds logs)
        (mkView (Sync t now members) holds
           (filter (λ kl, kl.1 ∈ o_Key <$> members) (foldl (sync_log now) (setEpoch t now, logs) members).2))
  | vs_overlay t holds logs now i : view_step (mkView t holds logs) (mkView (Overlay t now i).1 holds logs)
  | vs_load t holds logs now i : view_step (mkView t holds logs) (mkView (Load t now i).1 holds logs)
  | vs_observe t holds logs model cost : view_step (mkView t holds logs) (mkView (ObserveCost t model cost) holds logs).

Inductive view_reach (cfg : Config) : View → Prop :=
  | vr_new : cfg_ok (with_defaults cfg) → view_reach cfg (mkView (New cfg) [] ∅)
  | vr_step v v' : view_reach cfg v → view_step v v' → view_reach cfg v'.
End Client.

(** ** The invariant. *)

(** What the ledger and the history of worker [k] stand for. *)
Record entry_ok (keep nextGen : Z) (holds : list (Token * Z)) (k : Key) (e : entry) (log : Log) : Prop := {
  eo_gen : 1 ≤ e_gen e ≤ nextGen;
  eo_inflight : e_inflight e = holds_on (mkToken k (e_gen e)) holds;
  eo_work : e_work e = cost_on (mkToken k (e_gen e)) holds;
  eo_hist : hist_ok keep (lg_events log) (e_hist e) ∧ bounded keep (lg_events log) (e_hist e);
  eo_from : e_validFrom e = lg_from log
}.

Definition entries_ok (keep nextGen : Z) (holds : list (Token * Z)) (m : gmap Key entry) (logs : gmap Key Log) : Prop :=
  ∀ k, match m !! k, logs !! k with
       | Some e, Some log => entry_ok keep nextGen holds k e log
       | None, None => True
       | _, _ => False
       end.

Definition holds_ok (nextGen : Z) (holds : list (Token * Z)) : Prop :=
  Forall (λ h, 0 ≤ t_gen h.1 ≤ nextGen ∧ 0 ≤ h.2) holds ∧ Z.of_nat (length holds) < 2 ^ 63 ∧ sumZ (holds.*2) < 2 ^ 63.

Record view_ok (v : View) : Prop := {
  vo_cfg : cfg_ok (tr_cfg (v_t v));
  vo_gen : 0 ≤ tr_nextGen (v_t v) < 2 ^ 64;
  vo_holds : holds_ok (tr_nextGen (v_t v)) (v_holds v);
  vo_entries : entries_ok (window (v_t v)) (tr_nextGen (v_t v)) (v_holds v) (tr_entries (v_t v)) (v_logs v)
}.

Lemma entries_ok_lookup keep n holds m logs k e : entries_ok keep n holds m logs → m !! k = Some e → ∃ log, logs !! k = Some log ∧ entry_ok keep n holds k e log.
Proof. intros H Hk. specialize (H k). rewrite Hk in H. destruct (logs !! k); [eauto|done]. Qed.

Lemma entries_ok_none keep n holds m logs k : entries_ok keep n holds m logs → m !! k = None → logs !! k = None.
Proof. intros H Hk. specialize (H k). rewrite Hk in H. by destruct (logs !! k). Qed.

(** Changing one entry, the others seeing the same holds. *)
Lemma entries_ok_insert keep n n' holds holds' m logs k e log :
  entries_ok keep n holds m logs → n ≤ n' →
  (∀ k' g, k' ≠ k → 1 ≤ g → holds_on (mkToken k' g) holds' = holds_on (mkToken k' g) holds ∧ cost_on (mkToken k' g) holds' = cost_on (mkToken k' g) holds) →
  entry_ok keep n' holds' k e log →
  entries_ok keep n' holds' (<[k := e]> m) (<[k := log]> logs).
Proof.
  intros Hm Hn Hsame He k'. destruct (decide (k' = k)) as [->|Hne]; [by rewrite !lookup_insert_eq|].
  rewrite !lookup_insert_ne by done. specialize (Hm k'). destruct (m !! k') as [e'|], (logs !! k') as [log'|]; try done.
  destruct Hm as [Hg Hi Hw Hh Hf]. destruct (Hsame k' (e_gen e') Hne ltac:(lia)) as [H1 H2]. split; [lia|by rewrite H1|by rewrite H2|done|done].
Qed.

(** Holds that no entry sees. *)
Lemma entries_ok_holds keep n n' holds holds' m logs :
  entries_ok keep n holds m logs → n ≤ n' →
  (∀ k g, m !! k ≠ None → 1 ≤ g → holds_on (mkToken k g) holds' = holds_on (mkToken k g) holds ∧ cost_on (mkToken k g) holds' = cost_on (mkToken k g) holds) →
  entries_ok keep n' holds' m logs.
Proof.
  intros Hm Hn Hsame k. specialize (Hm k). specialize (Hsame k). destruct (m !! k) as [e'|], (logs !! k) as [log'|]; try done.
  destruct Hm as [Hg Hi Hw Hh Hf]. destruct (Hsame (e_gen e') ltac:(done) ltac:(lia)) as [H1 H2]. split; [lia|by rewrite H1|by rewrite H2|done|done].
Qed.

(** *** Counting holds. *)

Lemma holds_on_app tok h1 h2 : holds_on tok (h1 ++ h2) = holds_on tok h1 + holds_on tok h2.
Proof. apply countb_app. Qed.

Lemma holds_on_cons tok h hs : holds_on tok (h :: hs) = Z.b2z (held tok h) + holds_on tok hs.
Proof. apply countb_cons. Qed.

Lemma cost_on_app tok h1 h2 : cost_on tok (h1 ++ h2) = cost_on tok h1 + cost_on tok h2.
Proof. unfold cost_on. by rewrite fmap_app, sumZ_app. Qed.

Lemma cost_on_cons tok h hs : cost_on tok (h :: hs) = (if held tok h then h.2 else 0) + cost_on tok hs.
Proof. done. Qed.

Lemma held_true tok h : h.1 = tok → held tok h = true.
Proof. intros. by apply bool_decide_eq_true. Qed.

Lemma held_false tok h : h.1 ≠ tok → held tok h = false.
Proof. intros. by apply bool_decide_eq_false. Qed.

Lemma cost_on_bounds n holds tok : holds_ok n holds → 0 ≤ cost_on tok holds ≤ sumZ (holds.*2).
Proof.
  intros [Hh _]. unfold cost_on. induction Hh as [|h hs [_ Hh] _ IH]; [simpl; lia|]. rewrite !fmap_cons. cbn [sumZ foldr] in *. fold (sumZ (hs.*2)) in *.
  fold (sumZ ((λ h, if held tok h then h.2 else 0) <$> hs)) in *. destruct (held tok h); lia.
Qed.

Lemma holds_on_bound tok holds : 0 ≤ holds_on tok holds ≤ Z.of_nat (length holds).
Proof. split; [apply countb_nonneg|apply countb_length]. Qed.

(** Tokens of generations to come are not held. *)
Lemma holds_on_fresh n holds k g : holds_ok n holds → n < g → holds_on (mkToken k g) holds = 0 ∧ cost_on (mkToken k g) holds = 0.
Proof.
  intros [Hh _] Hg. unfold holds_on, cost_on. induction Hh as [|h hs [Hgen _] _ [IH1 IH2]]; [done|]. rewrite countb_cons, fmap_cons. cbn [sumZ foldr].
  rewrite held_false; [|intros Heq; rewrite Heq in Hgen; simpl in Hgen; lia]. simpl. split; [lia|done].
Qed.

Ltac holds_simpl := rewrite ?holds_on_app, ?cost_on_app, ?holds_on_cons, ?cost_on_cons.

(** *** Begin. *)

Lemma setEpoch_frame t now :
  let t' := setEpoch t now in
  tr_cfg t' = tr_cfg t ∧ tr_entries t' = tr_entries t ∧ tr_nextGen t' = tr_nextGen t ∧ window t' = window t.
Proof. unfold setEpoch, window. by destruct (tr_hasEp t). Qed.

Lemma find_or_create_cases t k now :
  match find_or_create t k now with
  | (t', Some e) =>
      (tr_entries t !! k = Some e ∧ t' = t) ∨
      (tr_entries t !! k = None ∧ (create t k now).2 = Some e ∧ e_gen e = bump (tr_nextGen t) ∧ e_inflight e = 0 ∧ e_work e = 0 ∧ e_hist e = history_reset ∧
       e_lastHB e = no_heartbeat ∧ e_validFrom e = now ∧ t' = t <| tr_nextGen := e_gen e |> <| tr_entries := <[k := e]> (tr_entries t) |>)
  | (t', None) => tr_entries t !! k = None ∧ (create t k now).2 = None ∧ tr_entries t' = tr_entries t ∧ tr_cfg t' = tr_cfg t ∧ tr_nextGen t' = tr_nextGen t ∧ tr_epoch t' = tr_epoch t
  end.
Proof.
  unfold find_or_create. destruct (tr_entries t !! k) as [e|] eqn:Hk; [by left|]. unfold create.
  destruct (c_MaxWorkers (tr_cfg t) <=? _); [done|]. right. done.
Qed.

Lemma fresh_entry_ok keep n holds k e now :
  e_validFrom e = now → e_gen e = n + 1 → e_inflight e = 0 → e_work e = 0 → e_hist e = history_reset → holds_ok n holds → 0 ≤ n →
  entry_ok keep (n + 1) holds k e (mkLog now []).
Proof.
  intros Hf Hg Hi Hw Hh Hho Hn. destruct (holds_on_fresh n holds k (n + 1) Hho ltac:(lia)) as [H1 H2].
  split; [lia|by rewrite Hi, Hg|by rewrite Hw, Hg| |done]. rewrite Hh. split; [apply hist_ok_reset|]. split; [done|left; cbn; lia].
Qed.

(** The entry Begin and Sync work on: it is there, and nothing else has changed. *)
Lemma find_or_create_ok t holds logs k now :
  view_ok (mkView t holds logs) → tr_nextGen t + 1 < 2 ^ 64 →
  match find_or_create t k now with
  | (t', Some e) =>
      view_ok (mkView t' holds (<[k := default (mkLog now []) (logs !! k)]> logs)) ∧ tr_entries t' !! k = Some e ∧ tr_nextGen t ≤ tr_nextGen t' ≤ tr_nextGen t + 1 ∧
      tr_cfg t' = tr_cfg t ∧ tr_epoch t' = tr_epoch t
  | (t', None) => view_ok (mkView t' holds logs) ∧ tr_nextGen t' = tr_nextGen t ∧ tr_cfg t' = tr_cfg t
  end.
Proof.
  intros [Hc Hg Hh He] Hn. cbn in *. pose proof (find_or_create_cases t k now) as Hf. destruct (find_or_create t k now) as [t' [e|]].
  - destruct Hf as [[Hk ->]|(Hk & _ & Hgen & Hi & Hw & Hhist & _ & Hfrom & ->)].
    + destruct (entries_ok_lookup _ _ _ _ _ _ _ He Hk) as (log & Hlog & _). rewrite Hlog. cbn [default from_option id].
      rewrite (insert_id logs k log Hlog). split_and!; [by split|done|lia|lia|done|done].
    + rewrite (entries_ok_none _ _ _ _ _ _ He Hk). cbn [default from_option]. unfold bump in Hgen. rewrite wrapU64_id in Hgen by lia.
      split_and!; cbn; [|apply lookup_insert_eq|lia|lia|done|done]. split; cbn; [done|lia| |].
      * destruct Hh as (Hh & ? & ?). split_and!; [|done|done]. eapply Forall_impl; [exact Hh|]. cbn. intros x ?. lia.
      * rewrite Hgen. apply (entries_ok_insert _ (tr_nextGen t) _ holds); [done|lia|done|]. apply fresh_entry_ok; (done || lia).
  - destruct Hf as (Hk & _ & Hent & Hcfg & Hnext & _). split_and!; [|done|done]. split; cbn; rewrite ?Hcfg, ?Hnext, ?Hent; try done.
    unfold window. by rewrite Hcfg.
Qed.

Lemma held_other k k' g tok c : t_key tok = k → k' ≠ k → held (mkToken k' g) (tok, c) = false.
Proof. intros <- Hne. apply held_false. cbn. intros ->. done. Qed.

Lemma holds_ok_cons n holds tok : holds_ok n holds → 0 ≤ t_gen tok ≤ n → Z.of_nat (length holds) + 1 < 2 ^ 63 → holds_ok n ((tok, 0) :: holds).
Proof.
  intros (Hh & Hl & Hs) Hg Hn. split_and!; [constructor; [cbn; lia|done]|rewrite length_cons; lia|]. rewrite fmap_cons. change (0 + sumZ (holds.*2) < 2 ^ 63). lia.
Qed.

Lemma tracker_begin_ok t holds logs now k :
  view_ok (mkView t holds logs) → tr_nextGen t + 1 < 2 ^ 64 → Z.of_nat (length holds) + 1 < 2 ^ 63 →
  view_ok (let '(t', tok) := Begin t now k in mkView t' ((tok, 0) :: holds) (if Token_Valid tok then log_event t now k true logs else logs)).
Proof.
  intros Hv Hn Hlen. unfold Begin. destruct (setEpoch_frame t now) as (Hcfg & Hent & Hnext & Hwin).
  set (t1 := setEpoch t now) in *. assert (view_ok (mkView t1 holds logs)) as Hv1.
  { destruct Hv. split; cbn in *; rewrite ?Hcfg, ?Hent, ?Hnext, ?Hwin; done. }
  pose proof (find_or_create_ok t1 holds logs k now Hv1 ltac:(lia)) as Hf. unfold log_event. fold t1.
  destruct (find_or_create t1 k now) as [t2 [e|]].
  - destruct Hf as (Hv2 & Hk & Hn2 & Hcfg2 & Hep2). destruct Hv2 as [Hc2 Hg2 Hh2 He2]. cbn in *.
    destruct (entries_ok_lookup _ _ _ _ _ _ _ He2 Hk) as (log & Hlog & [Hgen Hi Hw [Hho Hb] Hfr]). rewrite lookup_insert_eq in Hlog. injection Hlog as Hlog.
    unfold Token_Valid. cbn. destruct (Z.eqb_spec (e_gen e) 0); [lia|]. cbn [negb].
    assert (bucket t2 now = bucket t1 now) as -> by (unfold bucket; by rewrite Hcfg2, Hep2).
    split; cbn; [done|lia|apply holds_ok_cons; cbn; (done || lia)|].
    + rewrite Hlog, <-(insert_insert_eq logs k _ (default (mkLog now []) (logs !! k))).
      change (window (put t2 k _)) with (window t2).
      apply (entries_ok_insert _ (tr_nextGen t2) _ holds); [done|lia| |].
      { intros k' g Hne _. holds_simpl. rewrite (held_other k) by done. cbn. lia. }
      split; cbn; [lia| | | |].
      * holds_simpl. rewrite held_true by done. rewrite Hi. pose proof (holds_on_bound (mkToken k (e_gen e)) holds).
        rewrite wrap64_id by (unfold in64, int64_min, int64_max; lia). cbn. lia.
      * holds_simpl. rewrite held_true by done. cbn. lia.
      * apply record_ok; [done|done|by apply window_keep|]. apply bucket_idx_ok. by rewrite <-Hcfg2.
      * done.
  - destruct Hf as (Hv2 & Hnext2 & Hcfg2). destruct Hv2 as [Hc2 Hg2 Hh2 He2]. cbn in *. split; cbn; [done|done|apply holds_ok_cons; cbn; (done || lia)|].
    + eapply entries_ok_holds; [done|lia|]. intros k' g _ Hgp. holds_simpl. rewrite held_false; [cbn; lia|]. intros Heq. injection Heq. lia.
Qed.

(** *** AddCost and End. *)

Lemma sumZ_insert (h1 h2 : list (Token * Z)) tok c : sumZ ((h1 ++ (tok, c) :: h2).*2) = sumZ ((h1 ++ h2).*2) + c.
Proof. rewrite !fmap_app, fmap_cons, !sumZ_app. change (sumZ ((tok, c).2 :: h2.*2)) with (c + sumZ (h2.*2)). lia. Qed.

Lemma holds_ok_middle n h1 h2 tok c :
  holds_ok n (h1 ++ (tok, c) :: h2) ↔ holds_ok n (h1 ++ h2) ∧ (0 ≤ t_gen tok ≤ n ∧ 0 ≤ c) ∧
    Z.of_nat (length (h1 ++ h2)) + 1 < 2 ^ 63 ∧ sumZ ((h1 ++ h2).*2) + c < 2 ^ 63.
Proof.
  unfold holds_ok. rewrite sumZ_insert, !Forall_app, Forall_cons, !length_app, length_cons. cbn [fst snd]. split.
  - intros ((? & ? & ?) & ? & ?). split_and!; (done || lia).
  - intros (((? & ?) & ? & ?) & (? & ?) & ? & ?). split_and!; (done || lia).
Qed.

Lemma addcost_ok t h1 h2 logs tok cost :
  view_ok (mkView t (h1 ++ (tok, 0) :: h2) logs) → 0 < cost → sumZ ((h1 ++ (tok, 0) :: h2).*2) + cost < 2 ^ 63 →
  view_ok (let '(t', ok) := AddCost t tok cost in mkView t' (h1 ++ (tok, if ok : bool then cost else 0) :: h2) logs).
Proof.
  intros Hv Hc Hsum. unfold AddCost. destruct (Token_Valid tok); [|done]. destruct (Z.leb_spec cost 0); [lia|]. cbn [negb orb].
  destruct (tr_entries t !! t_key tok) as [e|] eqn:Hk; [|done]. destruct (Z.eqb_spec (e_gen e) (t_gen tok)) as [Hg|]; [|done]. cbn [negb].
  destruct Hv as [Hcfg Hgen Hh He]. cbn in *. pose proof (cost_on_bounds _ _ tok Hh) as Hcb. rewrite sumZ_insert in Hsum, Hcb.
  apply holds_ok_middle in Hh as (Hh & ? & ? & ?). destruct (entries_ok_lookup _ _ _ _ _ _ _ He Hk) as (log & Hlog & [Hge Hi Hw Hho Hfr]).
  assert (Htok : mkToken (t_key tok) (e_gen e) = tok) by (destruct tok; cbn in *; by rewrite Hg). rewrite Htok in Hi, Hw.
  split; cbn; [done|done|apply holds_ok_middle; split_and!; (done || lia)|]. rewrite <-(insert_id logs (t_key tok) log Hlog). change (window (put t _ _)) with (window t).
  apply (entries_ok_insert _ (tr_nextGen t) _ (h1 ++ (tok, 0) :: h2)); [done|lia| |].
  - intros k' g Hne _. holds_simpl. rewrite !(held_other (t_key tok)) by done. done.
  - split; cbn; [done| | |done|done]; rewrite Htok.
    + rewrite Hi. holds_simpl. by rewrite !held_true.
    + rewrite wrap64_id, Hw by (unfold in64, int64_min, int64_max; lia). holds_simpl. rewrite !held_true by done. cbn. lia.
Qed.

(** The clamps at zero do not act. *)
Lemma finish_entry_spec e cost :
  1 ≤ e_inflight e → 0 ≤ cost ≤ e_work e → e_work e < 2 ^ 63 →
  let e' := finish_entry e cost in
  e_gen e' = e_gen e ∧ e_inflight e' = e_inflight e - 1 ∧ e_work e' = e_work e - cost ∧ e_hist e' = e_hist e ∧ e_validFrom e' = e_validFrom e.
Proof.
  intros Hi Hc Hw. unfold finish_entry. destruct (Z.ltb_spec 0 (e_inflight e)); [|lia]. destruct (Z.ltb_spec 0 cost); cbn; [|split_and!; (done || lia)].
  rewrite wrap64_id by (unfold in64, int64_min, int64_max; lia). destruct (Z.ltb_spec (e_work e - cost) 0); [lia|]. done.
Qed.

Lemma end_ok t h1 h2 logs now tok cost :
  view_ok (mkView t (h1 ++ (tok, cost) :: h2) logs) →
  view_ok (mkView (End t now tok cost) (h1 ++ h2)
    (match tr_entries t !! t_key tok with
     | Some e => if Token_Valid tok && (e_gen e =? t_gen tok) then log_event t now (t_key tok) false logs else logs
     | None => logs
     end)).
Proof.
  intros [Hcfg Hgen Hh He]. cbn in *. pose proof (cost_on_bounds _ _ tok Hh) as Hcb. rewrite sumZ_insert in Hcb.
  apply holds_ok_middle in Hh as (Hh & [Htg Hc0] & ? & ?). unfold End.
  assert (Hdrop : (∀ e, tr_entries t !! t_key tok = Some e → e_gen e ≠ t_gen tok) →
    entries_ok (window t) (tr_nextGen t) (h1 ++ h2) (tr_entries t) logs).
  { intros Hno k. pose proof (He k) as Hk. destruct (tr_entries t !! k) as [e|] eqn:Hek, (logs !! k) as [log|]; try done.
    destruct Hk as [Hge Hi Hw Hho Hfr]. revert Hi Hw. holds_simpl. rewrite held_false; [intros; split; [done|rewrite Hi|rewrite Hw|done|done]; holds_simpl; cbn; lia|].
    cbn. intros ->. by apply (Hno e). }
  destruct (setEpoch_frame t now) as (Hcfg' & Hent' & Hnext' & Hwin'). unfold log_event. set (t1 := setEpoch t now) in *.
  destruct (Token_Valid tok) eqn:Htv; cbn [negb andb].
  2:{ assert (entries_ok (window t) (tr_nextGen t) (h1 ++ h2) (tr_entries t) logs) as Hd; [|by destruct (tr_entries t !! t_key tok); split; cbn].
      apply Hdrop. intros e Hk. destruct (entries_ok_lookup _ _ _ _ _ _ _ He Hk) as (log & _ & [? _ _ _ _]). apply negb_false_iff, Z.eqb_eq in Htv. lia. }
  rewrite Hent'. destruct (tr_entries t !! t_key tok) as [e|] eqn:Hk.
  2:{ split; cbn; rewrite ?Hcfg', ?Hnext', ?Hwin', ?Hent'; try done. by apply Hdrop. }
  destruct (Z.eqb_spec (e_gen e) (t_gen tok)) as [Hg|Hg]; cbn [negb].
  2:{ split; cbn; rewrite ?Hcfg', ?Hnext', ?Hwin', ?Hent'; try done. apply Hdrop. intros e' [= <-]. done. }
  destruct (entries_ok_lookup _ _ _ _ _ _ _ He Hk) as (log & Hlog & [Hge Hi Hw [Hho Hb] Hfr]).
  assert (Htok : mkToken (t_key tok) (e_gen e) = tok) by (destruct tok; cbn in *; by rewrite Hg). rewrite Htok in Hi, Hw.
  split; [cbn; by rewrite Hcfg'|cbn; by rewrite Hnext'|cbn; by rewrite Hnext'|]. unfold put. cbn [v_t v_holds v_logs].
  pose proof (holds_on_bound tok (h1 ++ h2)) as Hhb. pose proof (cost_on_bounds _ _ tok Hh) as Hcb'. revert Hi Hw Hcb Hhb Hcb'. holds_simpl. rewrite !held_true by done.
  cbn [Z.b2z snd]. intros Hi Hw Hcb Hhb Hcb'. destruct (finish_entry_spec e cost ltac:(lia) ltac:(lia) ltac:(lia)) as (F1 & F2 & F3 & F4 & F5).
  set (e' := finish_entry e cost) in *. clearbody e'. cbn [tr_entries]. rewrite Hlog. cbn [default from_option id].
  change (window (t1 <| tr_entries := _ |>)) with (window t1). rewrite Hwin'. cbn. rewrite Hent', Hnext'.
  apply (entries_ok_insert _ (tr_nextGen t) _ (h1 ++ (tok, cost) :: h2)); [done|lia| |].
  - intros k' g Hne _. holds_simpl. rewrite (held_other (t_key tok)) by done. cbn. lia.
  - split; cbn; rewrite ?F1, ?Htok; [done|holds_simpl; lia|holds_simpl; lia| |by rewrite F5]. rewrite F4. apply record_ok; [done|done|by apply window_keep|].
    apply bucket_idx_ok. by rewrite Hcfg'.
Qed.

(** *** Sync. *)

(** The ledger and the history of an entry stay; only its capacity changes. *)
Definition same_ledger (e e' : entry) : Prop :=
  e_gen e' = e_gen e ∧ e_inflight e' = e_inflight e ∧ e_work e' = e_work e ∧ e_hist e' = e_hist e ∧ e_validFrom e' = e_validFrom e.

#[global] Instance same_ledger_equiv : Equivalence same_ledger.
Proof. unfold same_ledger. split; [by intros e|intros e e'; naive_solver|intros e1 e2 e3 (?&?&?&?&?) (?&?&?&?&?); split_and!; congruence]. Qed.

Definition same_ledgers : relation (gmap Key entry) := λ m m', ∀ k, option_Forall2 same_ledger (m !! k) (m' !! k).

#[global] Instance same_ledgers_equiv : Equivalence same_ledgers.
Proof.
  unfold same_ledgers. split; [intros m k; reflexivity|intros m m' Hm k; by symmetry|]. intros m1 m2 m3 H1 H2 k. by transitivity (m2 !! k).
Qed.

Lemma same_ledger_ok keep n holds k e e' log : same_ledger e e' → entry_ok keep n holds k e log → entry_ok keep n holds k e' log.
Proof. intros (Hg & Hi & Hw & Hh & Hf) [? ? ? ? ?]. split; rewrite ?Hg, ?Hi, ?Hw, ?Hh, ?Hf; done. Qed.

Lemma same_ledgers_ok keep n holds m m' logs : same_ledgers m m' → entries_ok keep n holds m logs → entries_ok keep n holds m' logs.
Proof.
  intros Hs Hm k. specialize (Hs k). specialize (Hm k). destruct (m !! k) as [e|], (m' !! k) as [e'|]; inversion Hs; try done.
  destruct (logs !! k); [|done]. by eapply same_ledger_ok.
Qed.

(** Pairs that agree with the map. *)
Definition agree (m : gmap Key entry) (es : list (Key * entry)) : Prop := Forall (λ ke, ∃ e, m !! ke.1 = Some e ∧ same_ledger e ke.2) es.

Lemma same_ledgers_insert m k e e' : m !! k = Some e → same_ledger e e' → same_ledgers m (<[k := e']> m).
Proof.
  intros Hk He k'. destruct (decide (k' = k)) as [->|Hne]; [rewrite lookup_insert_eq, Hk; by constructor|]. rewrite lookup_insert_ne by done. reflexivity.
Qed.

Lemma agree_same m m' es : same_ledgers m m' → agree m es → agree m' es.
Proof.
  intros Hs Ha. eapply Forall_impl; [exact Ha|]. cbn. intros [k e'] (e & Hk & He). cbn in *. specialize (Hs k). rewrite Hk in Hs. inversion Hs as [? e2 Hee|]; subst.
  exists e2. split; [done|]. transitivity e; [by symmetry|done].
Qed.

Lemma store_same m es : agree m es → same_ledgers m (store m es).
Proof.
  unfold store. revert m. induction es as [|[k e'] es IH]; intros m Ha; [reflexivity|]. apply Forall_cons in Ha as [(e & Hk & He) Ha]. cbn in *.
  pose proof (same_ledgers_insert m k e e' Hk He) as Hs. etransitivity; [exact Hs|]. apply IH. by eapply agree_same.
Qed.

Lemma agree_map m es (f : entry → entry) : (∀ e, same_ledger e (f e)) → agree m es → agree m ((λ ke, (ke.1, f ke.2)) <$> es).
Proof.
  intros Hf Ha. apply Forall_fmap. eapply Forall_impl; [exact Ha|]. cbn. intros [k e'] (e & Hk & He). cbn in *. exists e. split; [done|]. by transitivity e'.
Qed.

Section SyncSection.
Context `{GoMath} `{GoMapOrder}.

Lemma recompute_model_agree m cfg now es : agree m es → agree m (recompute_model cfg now es).
Proof.
  intros Ha. unfold recompute_model. case_match; [done|].
  assert (agree m (clampToPeers es (peaks_of es))) as Hc.
  { unfold clampToPeers. case_match; [done|]. apply agree_map; [|done]. intros e. unfold clamp_peak. by repeat case_match. }
  set (es1 := clampToPeers _ _) in *. clearbody es1. set (target := medianOf (peaks_of es1)).
  apply (agree_map m _ (λ e, if e_hasPeak e then e else e <| e_capR := _ |>)); [by intros e; case_match|].
  apply (agree_map m _ (λ e, if e_hasPeak e then e <| e_capR := decay cfg (e_peak e) target (Sub now (e_peakAt e)) |> <| e_capPrior := false |> else e)); [|done].
  intros e. by case_match.
Qed.

Lemma recompute_same t now : same_ledgers (tr_entries t) (tr_entries (recomputeCapacity t now)).
Proof.
  unfold recomputeCapacity. cbn. set (es := _ <$> range_map (tr_entries t)).
  assert (Ha : agree (tr_entries t) es).
  { unfold es. apply (agree_map _ _ unknown_capacity); [done|]. apply Forall_forall. intros [k e] Hk%elem_of_range_map. exists e. split; [done|]. reflexivity. }
  assert (Hgen : ∀ models m, same_ledgers (tr_entries t) m →
    same_ledgers (tr_entries t) (foldl (λ m model, store m (recompute_model (tr_cfg t) now (of_model model es))) m models)).
  { induction models as [|model models IH]; intros m Hm; [done|]. cbn [foldl]. apply IH. etransitivity; [exact Hm|]. apply store_same.
    apply (agree_same (tr_entries t)); [done|]. apply recompute_model_agree. unfold of_model. apply Forall_forall. intros ke [_ Hin]%list_elem_of_filter.
    unfold agree in Ha. rewrite Forall_forall in Ha. by apply Ha. }
  apply Hgen. by apply store_same.
Qed.

Lemma sample_same e m now : same_ledger e (sample e m now).
Proof. unfold sample. by repeat case_match. Qed.

Lemma sync_log_ok t holds logs now m :
  view_ok (mkView t holds logs) → tr_nextGen t + 1 < 2 ^ 64 →
  let '(t', logs') := sync_log now (t, logs) m in
  view_ok (mkView t' holds logs') ∧ tr_nextGen t' ≤ tr_nextGen t + 1 ∧ tr_cfg t' = tr_cfg t.
Proof.
  intros Hv Hn. unfold sync_log, sync_step. pose proof (find_or_create_ok t holds logs (o_Key m) now Hv Hn) as Hf.
  pose proof (find_or_create_cases t (o_Key m) now) as Hcase. destruct (find_or_create t (o_Key m) now) as [t2 [e|]].
  2:{ destruct Hcase as (-> & -> & _). destruct Hf as (? & -> & ?). split_and!; (done || lia). }
  destruct Hf as (Hv2 & Hk & Hn2 & Hcfg & _). set (logs1 := <[o_Key m := default (mkLog now []) (logs !! o_Key m)]> logs) in *.
  assert (Hlogs : match tr_entries t !! o_Key m with
    | Some e => if heartbeat_reset m e then <[o_Key m := mkLog now []]> logs else logs
    | None => match (create t (o_Key m) now).2 with Some _ => <[o_Key m := mkLog now []]> logs | None => logs end
    end = if heartbeat_reset m e then <[o_Key m := mkLog now []]> logs1 else logs1).
  { destruct Hcase as [[He _]|(He & Hcr & _ & _ & _ & _ & Hlast & _ & _)].
    - rewrite He. unfold logs1. destruct (heartbeat_reset m e); [by rewrite insert_insert_eq|].
      destruct (entries_ok_lookup _ _ _ _ _ _ _ (vo_entries _ Hv) He) as (log & Hlog & _). cbn in Hlog. rewrite Hlog. by rewrite insert_id.
    - rewrite He, Hcr. unfold heartbeat_reset, logs1. rewrite Hlast, Z.eqb_refl, andb_false_r. cbn [negb andb].
      pose proof (entries_ok_none _ _ _ _ _ _ (vo_entries _ Hv) He) as Hnone. cbn in Hnone. by rewrite Hnone. }
  rewrite Hlogs. clear Hlogs Hcase. unfold heartbeat_reset. destruct Hv2 as [Hc2 Hg2 Hh2 He2]. cbn in *.
  destruct (entries_ok_lookup _ _ _ _ _ _ _ He2 Hk) as (log & Hlog & Heo).
  match goal with |- context [if ?b then _ else _] => destruct b end.
  - split_and!; [|cbn; lia|done]. split; cbn; [done|done|done|]. change (window (put _ _ _)) with (window t2).
    apply (entries_ok_insert _ (tr_nextGen t2) _ holds); [done|lia|done|]. eapply same_ledger_ok; [apply sample_same|]. destruct Heo as [? ? ? _ _].
    split; cbn; try done. split; [apply hist_ok_reset|]. split; [done|left; cbn; lia].
  - split_and!; [|cbn; lia|done]. split; cbn; [done|done|done|]. change (window (put _ _ _)) with (window t2). rewrite <-(insert_id logs1 (o_Key m) log Hlog).
    apply (entries_ok_insert _ (tr_nextGen t2) _ holds); [done|lia|done|]. eapply same_ledger_ok; [apply sample_same|]. destruct Heo. by split.
Qed.

Lemma sync_fold_ok members t holds logs now :
  view_ok (mkView t holds logs) → tr_nextGen t + Z.of_nat (length members) < 2 ^ 64 →
  let '(t', logs') := foldl (sync_log now) (t, logs) members in
  view_ok (mkView t' holds logs') ∧ t' = foldl (sync_step now) t members.
Proof.
  revert t logs. induction members as [|m members IH]; intros t logs Hv Hn; [done|]. cbn [foldl]. rewrite length_cons in Hn.
  pose proof (sync_log_ok t holds logs now m Hv ltac:(lia)) as Hs. destruct (sync_log now (t, logs) m) as [t1 logs1] eqn:Hl. destruct Hs as (Hv1 & Hn1 & _).
  specialize (IH t1 logs1 Hv1 ltac:(lia)). assert (t1 = sync_step now t m) as -> by (by injection Hl as <- _). done.
Qed.

Lemma entries_ok_filter keep n holds m logs (seen : list Key) :
  entries_ok keep n holds m logs → entries_ok keep n holds (filter (λ ke, ke.1 ∈ seen) m) (filter (λ kl, kl.1 ∈ seen) logs).
Proof.
  intros Hm k. specialize (Hm k). rewrite !map_lookup_filter. destruct (m !! k) as [e|], (logs !! k) as [log|]; try done. by simplify_option_eq.
Qed.

Lemma sync_ok t holds logs now members :
  view_ok (mkView t holds logs) → tr_nextGen t + Z.of_nat (length members) < 2 ^ 64 →
  view_ok (mkView (Sync t now members) holds (filter (λ kl, kl.1 ∈ o_Key <$> members) (foldl (sync_log now) (setEpoch t now, logs) members).2)).
Proof.
  intros Hv Hn. unfold Sync. destruct (setEpoch_frame t now) as (Hcfg & Hent & Hnext & Hwin). set (t1 := setEpoch t now) in *.
  assert (view_ok (mkView t1 holds logs)) as Hv1 by (destruct Hv; split; cbn in *; rewrite ?Hcfg, ?Hent, ?Hnext, ?Hwin; done).
  pose proof (sync_fold_ok members t1 holds logs now Hv1 ltac:(lia)) as Hf. destruct (foldl (sync_log now) (t1, logs) members) as [t2 logs2].
  destruct Hf as [[Hc2 Hg2 Hh2 He2] <-]. cbn in *. set (t3 := pruneModels _).
  assert (tr_cfg t3 = tr_cfg t2 ∧ tr_nextGen t3 = tr_nextGen t2 ∧ tr_entries t3 = filter (λ ke, ke.1 ∈ o_Key <$> members) (tr_entries t2)) as (H1 & H2 & H3).
  { unfold t3, pruneModels, prune. by case_match. }
  clearbody t3. split; [cbn; by rewrite H1|cbn; by rewrite H2|cbn; by rewrite H2|].
  change (entries_ok (window t3) (tr_nextGen t3) holds (tr_entries (recomputeCapacity t3 now)) (filter (λ kl, kl.1 ∈ o_Key <$> members) logs2)).
  apply (same_ledgers_ok _ _ _ (tr_entries t3)); [apply recompute_same|]. rewrite H2. rewrite H3. unfold window in *. rewrite H1. by apply entries_ok_filter.
Qed.

Lemma overlay_frame t now i :
  let t' := (overlayLocked t now i).1 in
  tr_cfg t' = tr_cfg t ∧ tr_entries t' = tr_entries t ∧ tr_nextGen t' = tr_nextGen t.
Proof.
  destruct (setEpoch_frame t now) as (Hcfg & Hent & Hnext & _). unfold overlayLocked. set (t1 := setEpoch t now) in *. clearbody t1.
  repeat case_match; cbn; done.
Qed.

Lemma frame_ok t t' holds logs :
  view_ok (mkView t holds logs) → tr_cfg t' = tr_cfg t → tr_entries t' = tr_entries t → tr_nextGen t' = tr_nextGen t → view_ok (mkView t' holds logs).
Proof. intros [? ? ? ?] H1 H2 H3. split; cbn in *; rewrite ?H1, ?H2, ?H3; try done. unfold window in *. by rewrite H1. Qed.

Lemma view_step_ok v v' : view_ok v → view_step v v' → view_ok v'.
Proof.
  intros Hv Hs. destruct Hs as [t holds logs now k Hn Hl|t h1 h2 logs tok cost Hc Hsum|t h1 h2 logs now tok cost|t holds logs now members Hn|t holds logs now i|t holds logs now i|t holds logs model cost].
  - by apply tracker_begin_ok.
  - by apply addcost_ok.
  - by apply end_ok.
  - by apply sync_ok.
  - destruct (overlay_frame t now i) as (? & ? & ?). by eapply frame_ok.
  - destruct (overlay_frame t now (li_Input i)) as (? & ? & ?). eapply frame_ok; [done|..]; unfold Load; by destruct (overlayLocked t now (li_Input i)).
  - eapply frame_ok; [done|..]; unfold ObserveCost; by repeat case_match.
Qed.

Lemma view_reach_ok cfg v : view_reach cfg v → view_ok v.
Proof.
  induction 1 as [Hc|v v' _ IH Hs]; [|by eapply view_step_ok]. split; cbn; [done|lia|split_and!; [constructor|cbn; lia|cbn; lia]|]. intros k. by rewrite !lookup_empty.
Qed.

(** C14: The ledger is exact: after any sequence of Begin, AddCost, End, Sync, Overlay, Load and
    ObserveCost calls, with workers leaving, re-registering and resetting in between, the
    requests and the work on a tracked worker are the number and the total added cost of the
    tokens begun on its present incarnation and not ended; a token of an older incarnation or
    of an untracked worker counts nowhere.  With every token ended, all is zero: nothing leaks. *)
Theorem ledger_exact cfg v k :
  view_reach cfg v →
  Ledger (v_t v) k =
    match tr_entries (v_t v) !! k with
    | Some e => (holds_on (mkToken k (e_gen e)) (v_holds v), cost_on (mkToken k (e_gen e)) (v_holds v))
    | None => (0, 0)
    end ∧ (v_holds v = [] → Totals (v_t v) = (0, 0)).
Proof.
  intros Hr. pose proof (vo_entries _ (view_reach_ok cfg v Hr)) as He. split.
  - unfold Ledger. destruct (tr_entries (v_t v) !! k) as [e|] eqn:Hk; [|done]. destruct (entries_ok_lookup _ _ _ _ _ _ _ He Hk) as (log & _ & [_ -> -> _ _]). done.
  - intros Hh. unfold Totals. assert (Hz : Forall (λ ke : Key * entry, e_inflight ke.2 = 0 ∧ e_work ke.2 = 0) (range_map (tr_entries (v_t v)))).
    { apply Forall_forall. intros [k' e] Hk%elem_of_range_map. destruct (entries_ok_lookup _ _ _ _ _ _ _ He Hk) as (log & _ & [_ Hi Hw _ _]). cbn. by rewrite Hi, Hw, Hh. }
    induction Hz as [|[k' e] l [H1 H2] _ IH]; [done|]. cbn [foldl]. cbn in H1, H2. rewrite H1, H2. exact IH.
Qed.

End SyncSection.

(** ** The overlay. *)

Definition report_at (now : Time) (i : Input) : Time := if After (i_At i) now then now else i_At i.

(** Buckets of two instants at most [d] apart. *)
Lemma bucket_distance t a b :
  cfg_ok (tr_cfg t) → mono a ≤ mono b → mono b - mono a ≤ c_Window (tr_cfg t) → bucket t b ≤ bucket t a + c_Window (tr_cfg t) / c_Bucket (tr_cfg t) + 1.
Proof.
  intros Hc Hab Hd. rewrite !bucket_floor by done. destruct Hc as [Hb _]. set (B := c_Bucket _) in *. set (W := c_Window _) in *. set (x := Sub a _).
  assert (Sub b (tr_epoch t) ≤ x + W) as Hx by (unfold x, Sub, int64_min, int64_max; lia).
  etrans; [apply Z.div_le_mono; [lia|exact Hx]|]. pose proof (Z.div_mod x B ltac:(lia)). pose proof (Z.div_mod W B ltac:(lia)).
  pose proof (Z.mod_pos_bound x B ltac:(lia)). pose proof (Z.mod_pos_bound W B ltac:(lia)).
  assert ((x + W) / B < x / B + W / B + 2); [|lia]. apply Z.div_lt_upper_bound; nia.
Qed.

Lemma events_since_bound log p s : 0 ≤ events_since log p s ≤ Z.of_nat (length log).
Proof. split; [apply countb_nonneg|apply countb_length]. Qed.

Lemma wrap_count log p s : Z.of_nat (length log) < 2 ^ 62 → wrap64 (wrapU64 (events_since log p s)) = events_since log p s.
Proof.
  intros Hl. pose proof (events_since_bound log p s). rewrite wrapU64_id by lia. apply wrap64_id. unfold in64, int64_min, int64_max. lia.
Qed.

Lemma clampCount_range n : 0 ≤ clampCount n ≤ maxCount.
Proof. unfold clampCount, maxCount. lia. Qed.

Lemma overlay_bounds t now i : clampCount (i_Local i) ≤ rs_Active (overlayLocked t now i).2 ≤ maxCount.
Proof.
  pose proof (clampCount_range (i_Local i)). pose proof (clampCount_range (i_Reported i)). unfold overlayLocked.
  repeat case_match; cbn; lia.
Qed.

(** The starts less the finishes, by the log. *)
Definition net_since (log : list event) (b : Z) : Z := events_since log b true - events_since log b false.

(** The answer from a worker's history: there is none for a report from before the record or
    outside the window. *)
Lemma overlay_tracked keep t now i e log :
  keep = window t → cfg_ok (tr_cfg t) → tr_entries t !! i_Key i = Some e → hist_ok keep log (e_hist e) →
  let r := (overlayLocked t now i).2 in
  let t1 := setEpoch t now in
  let at_ := report_at now i in
  (rs_Inflight r, rs_Work r) = (e_inflight e, e_work e) ∧
  let fallen := rs_Fallback r = FallbackHistory ∧ rs_Active r = Z.max (clampCount (i_Local i)) (clampCount (i_Reported i)) in
  if Before at_ (e_validFrom e) || (c_Window (tr_cfg t) <? Sub now at_) then fallen
  else
    (rs_Fallback r = FallbackNone ∧
     (Z.of_nat (length log) < 2 ^ 62 →
      rs_Active r = Z.min (Z.max (clampCount (i_Reported i) + net_since log (bucket t1 at_)) (clampCount (i_Local i))) maxCount)) ∨
    fallen ∧ ∃ ev, last log = Some ev ∧ bucket t1 now < ev.1.
Proof.
  intros -> Hc Hk Hh. destruct (setEpoch_frame t now) as (Hcfg & Hent & _ & Hwin). unfold overlayLocked. fold (report_at now i).
  set (t1 := setEpoch t now) in *. set (at_ := report_at now i). rewrite Hent, Hk, Hcfg. cbv zeta.
  destruct (Before at_ (e_validFrom e)); [done|]. destruct (Z.ltb_spec (c_Window (tr_cfg t)) (Sub now at_)) as [Hold|Hnew]; [done|]. cbn [orb].
  assert (mono at_ ≤ mono now) as Hat by (unfold at_, report_at, After; destruct (Z.ltb_spec (mono now) (mono (i_At i))); lia).
  rewrite <-Hcfg in Hc. pose proof (since_ok _ _ _ (bucket t1 at_) true Hh) as HS. pose proof (since_ok _ _ _ (bucket t1 at_) false Hh) as HF.
  pose proof (bucket_idx_ok t1 at_ Hc) as Hidx. unfold idx_ok in Hidx.
  replace (bucket t1 at_ +! finishLag)%go with (bucket t1 at_) by (unfold finishLag; rewrite Z.add_0_r, wrap64_id; [done|unfold in64, int64_min, int64_max; lia]).
  assert (Hlate : (∃ ev, last log = Some ev ∧ bucket t1 at_ < ev.1 - window t) → ∃ ev, last log = Some ev ∧ bucket t1 now < ev.1).
  { intros (ev & Hev & Hlt). exists ev. split; [done|]. rewrite <-Hwin in Hlt. destruct (window_keep t1 Hc) as [Hw _]. rewrite Hw in Hlt.
    assert (mono now - mono at_ ≤ c_Window (tr_cfg t1)) as Hd by (rewrite Hcfg; destruct Hc as [_ Hc]; rewrite Hcfg in Hc; unfold Sub, int64_min, int64_max in Hnew; lia).
    pose proof (bucket_distance t1 at_ now Hc Hat Hd). lia. }
  assert (Hdrop : is_Some (since (e_hist e) (bucket t1 at_) true) → since (e_hist e) (bucket t1 at_) false = None → False).
  { unfold since. intros [n Hn]. repeat case_match; simplify_eq; done. }
  destruct (since (e_hist e) (bucket t1 at_) true) as [s|] eqn:HeS; [|by split; [|right; split; [|apply Hlate]]].
  destruct (since (e_hist e) (bucket t1 at_) false) as [f|]; [|exfalso; by apply Hdrop]. split; [done|left]. split; [done|]. intros Hlen. cbn. subst s f.
  rewrite !wrap_count by done. pose proof (events_since_bound log (bucket t1 at_) true). pose proof (events_since_bound log (bucket t1 at_) false).
  pose proof (clampCount_range (i_Reported i)) as Hr. unfold maxCount, net_since in *.
  rewrite !wrap64_id by (rewrite ?wrap64_id; unfold in64, int64_min, int64_max; lia). lia.
Qed.

(** C30: The overlay is the worker's report corrected by exactly what happened since: for a
    tracked worker it is the reported count plus the starts less the finishes in the buckets at
    or after the report's, never below this gateway's own count and never above 2^31-1.  It
    falls back to the larger of the two counts for an untracked worker, for a report from before
    the worker's record began (its creation or its last reset) or older than the window, always,
    and otherwise only when the clock is behind the last event. *)
Theorem overlay_exact `{GoMath} `{GoMapOrder} cfg v now i :
  view_reach cfg v →
  let t := v_t v in
  let r := (Overlay t now i).2 in
  let loc := clampCount (i_Local i) in
  let reported := clampCount (i_Reported i) in
  let at_ := report_at now i in
  loc ≤ rs_Active r ≤ maxCount ∧ (rs_Inflight r, rs_Work r) = Ledger t (i_Key i) ∧
  match tr_entries t !! i_Key i, v_logs v !! i_Key i with
  | Some _, Some log =>
      let fallen := rs_Fallback r = FallbackHistory ∧ rs_Active r = Z.max loc reported in
      if Before at_ (lg_from log) || (c_Window (tr_cfg t) <? Sub now at_) then fallen
      else
        (rs_Fallback r = FallbackNone ∧
         (Z.of_nat (length (lg_events log)) < 2 ^ 62 →
          rs_Active r =
          Z.min (Z.max (reported + net_since (lg_events log) (Sub at_ (tr_epoch (setEpoch t now)) / c_Bucket (tr_cfg t))) loc) maxCount)) ∨
        fallen ∧ ∃ ev, last (lg_events log) = Some ev ∧ bucket (setEpoch t now) now < ev.1
  | None, None => rs_Fallback r = FallbackUntracked ∧ rs_Active r = Z.max loc reported
  | _, _ => False
  end.
Proof.
  intros Hr t r loc reported at_. destruct (view_reach_ok cfg v Hr) as [Hc _ _ He]. fold t in Hc, He. split; [apply overlay_bounds|].
  destruct (setEpoch_frame t now) as (Hcfg & Hent & _). pose proof (He (i_Key i)) as Hk. unfold Ledger.
  destruct (tr_entries t !! i_Key i) as [e|] eqn:Hek, (v_logs v !! i_Key i) as [log|]; [|done|done|].
  - destruct Hk as [_ _ _ [Hh _] Hfr]. pose proof (overlay_tracked _ t now i e _ eq_refl Hc Hek Hh) as Ho. cbv zeta in Ho.
    rewrite (bucket_floor (setEpoch t now) (report_at now i)) in Ho by (by rewrite Hcfg). rewrite Hcfg, Hfr in Ho. exact Ho.
  - unfold r, Overlay, overlayLocked. by rewrite Hent, Hek.
Qed.

(** ** Witnesses. *)

Definition a_cfg : Config := mkConfig (100 * Millisecond) (3 * Second) 8 8 Second (flit 25 2).
Definition at_ms (ms : Z) : Time := mkTime (1700000000000000000 + ms * Millisecond) (ms * Millisecond).
Definition k1 : Key := mkKey "w1" 7.
Definition half_math : GoMath.
Proof. refine {| Exp2 := λ _, flit 5 1 |}. intros x _ _. split_and!; [apply fdiv_valid|done|done]. Defined.

Definition view0 : View := mkView (New a_cfg) [] ∅.
Definition view1 : View :=
  let '(t', tok) := Begin (v_t view0) (at_ms 5) k1 in
  mkView t' ((tok, 0) :: v_holds view0) (if Token_Valid tok then log_event (v_t view0) (at_ms 5) k1 true (v_logs view0) else v_logs view0).
Definition view2 : View :=
  let '(t', ok) := AddCost (v_t view1) (mkToken k1 1) 40 in mkView t' ([] ++ (mkToken k1 1, if ok : bool then 40 else 0) :: []) (v_logs view1).

Lemma view2_reach : @view_reach half_math order_id a_cfg view2.
Proof.
  apply (@vr_step half_math order_id a_cfg view1).
  - apply (@vr_step half_math order_id a_cfg view0).
    + apply vr_new. vm_compute. intuition discriminate.
    + apply (@vs_begin half_math order_id (New a_cfg) [] ∅ (at_ms 5) k1); vm_compute; reflexivity.
  - apply (@vs_cost half_math order_id (v_t view1) [] [] (v_logs view1) (mkToken k1 1) 40); vm_compute; reflexivity.
Qed.

Lemma ledger_exact_witness :
  Ledger (v_t view2) k1 =
    match tr_entries (v_t view2) !! k1 with
    | Some e => (holds_on (mkToken k1 (e_gen e)) (v_holds view2), cost_on (mkToken k1 (e_gen e)) (v_holds view2))
    | None => (0, 0)
    end ∧ Ledger (v_t view2) k1 = (1, 40).
Proof. split; [apply (@ledger_exact half_math order_id a_cfg view2 k1 view2_reach)|vm_compute; reflexivity]. Defined.

(** A report of three from before the start: four, with this gateway's own. *)
Lemma overlay_exact_witness :
  clampCount 1 ≤ rs_Active (Overlay (v_t view2) (at_ms 450) (mkInput k1 1 3 (at_ms 5))).2 ≤ maxCount ∧
  rs_Active (Overlay (v_t view2) (at_ms 450) (mkInput k1 1 3 (at_ms 5))).2 = 4.
Proof.
  split; [|vm_compute; reflexivity].
  exact (proj1 (@overlay_exact half_math order_id a_cfg view2 (at_ms 450) (mkInput k1 1 3 (at_ms 5)) view2_reach)).
Defined.
