(* ===== verification/Capacity.v ===== *)
(** * The capacity estimate's peer clamp (internal/scheduler/signals/capacity.go)

    clampToPeers leaves one element out of a sorted slice by index arithmetic; it is the median
    of the other workers' peaks. *)

From Stdlib Require Import Ascii String SpecFloat.
From S2P Require Import Prelude GoFloat FloatExact FloatOrder FloatBound GoString GoSort Protocol Cost Scheduler SchedulerSpec History Tracker TrackerSpec.

Local Open Scope list_scope.
Local Open Scope Z_scope.

(** ** The order of the doubles. *)

Lemma fle_total x y : isNaN x = false → isNaN y = false → fle x y = true ∨ fle y x = true.
Proof. intros Hx Hy. destruct (flt x y) eqn:Hlt; [left; by apply flt_true|right; by apply flt_false]. Qed.

#[global] Instance float_le_total : Total float_le.
Proof.
  intros x y. unfold float_le. destruct (isNaN x) eqn:Hx; [by left; left|]. destruct (isNaN y) eqn:Hy; [by right; left|].
  destruct (fle_total x y Hx Hy); [left|right]; by right.
Qed.

#[global] Instance float_le_trans : Transitive float_le.
Proof.
  intros x y z [Hx|[Hy Hxy]] Hyz; [by left|]. destruct Hyz as [?|[Hz Hyz]]; [congruence|]. right. split; [done|]. by eapply fle_trans.
Qed.

(** A rate: a positive finite double. *)
Definition rate_ok (x : float64) : Prop := valid x ∧ flt f0 x = true ∧ isInf x = false.

Lemma rate_shape x : rate_ok x → ∃ m e, x = S754_finite false m e ∧ canonical (Z.pos m) e.
Proof. intros (Hv & Hp & Hi). destruct x as [[]|[]| |[] m e]; try done. by exists m, e. Qed.

Lemma rate_antisym x y : rate_ok x → rate_ok y → fle x y = true → fle y x = true → x = y.
Proof.
  intros (m & e & -> & Hx)%rate_shape (m' & e' & -> & Hy)%rate_shape. rewrite !fle_key by done. unfold key_le. cbn [fkey fst snd]. intros H1 H2.
  assert (e = e') as -> by lia. f_equal. lia.
Qed.

Lemma rate_not_nan x : rate_ok x → isNaN x = false.
Proof. by intros (m & e & -> & _)%rate_shape. Qed.

(** ** Leaving one out. *)

Lemma sort_sorted l : StronglySorted float_le (sort_Float64s l).
Proof. apply StronglySorted_merge_sort; apply _. Qed.

(** Rates have one sorted order. *)
Lemma sort_unique l k : Forall rate_ok l → l ≡ₚ k → StronglySorted float_le k → sort_Float64s l = k.
Proof.
  intros Hl Hp Hk. apply (StronglySorted_unique_strong float_le); [|apply sort_sorted|done|by rewrite sort_Float64s_perm].
  intros x y Hx Hy Hxy Hyx. rewrite sort_Float64s_perm in Hx. rewrite <-Hp in Hy. rewrite Forall_forall in Hl.
  pose proof (Hl x Hx) as Hrx. pose proof (Hl y Hy) as Hry. destruct Hxy as [?|[_ Hxy]], Hyx as [?|[_ Hyx]];
    try (pose proof (rate_not_nan _ Hrx); pose proof (rate_not_nan _ Hry); congruence). by apply rate_antisym.
Qed.

Lemma sorted_delete l i : StronglySorted float_le l → StronglySorted float_le (delete i l).
Proof.
  revert i. induction l as [|x l IH]; intros i Hs; [done|]. apply StronglySorted_inv in Hs as [Hs Hx]. destruct i as [|i]; [done|]. cbn.
  constructor; [by apply IH|]. by apply Forall_delete.
Qed.

(** The search finds a place the value stands at. *)
Lemma search_finds l x : StronglySorted float_le l → Forall rate_ok l → x ∈ l → l !! sort_SearchFloat64s l x = Some x.
Proof.
  intros Hs Hl Hx. unfold sort_SearchFloat64s. set (p := λ i : nat, _).
  assert (Hle : ∀ (a b : nat) y z, (a ≤ b)%nat → l !! a = Some y → l !! b = Some z → fle y z = true).
  { intros a b y z Hab Hy Hz. rewrite Forall_lookup in Hl. pose proof (rate_not_nan y (Hl a y Hy)) as Hn. destruct (decide (a = b)) as [->|Hne]; [simplify_eq; by apply fle_refl|].
    assert (float_le y z) as [?|[_ ?]]; [|congruence|done]. apply (StronglySorted_app_1_elem_of float_le (take b l) (drop b l)); [by rewrite take_drop|..]; apply list_elem_of_lookup.
    - exists a. rewrite lookup_take_lt by lia. done.
    - exists 0%nat. by rewrite lookup_drop, Nat.add_0_r. }
  destruct (sort_Search_spec (length l) p) as (Hn & Hbef & Haft).
  { intros a b Hab. unfold p. destruct (lookup_lt_is_Some_2 l a ltac:(lia)) as [y Hy], (lookup_lt_is_Some_2 l b ltac:(lia)) as [z Hz]. rewrite Hy, Hz.
    intros Hxy. eapply fle_trans; [exact Hxy|]. apply (Hle a b); [lia|done..]. }
  set (k := sort_Search _ p) in *. clearbody k. apply list_elem_of_lookup in Hx as [j Hj]. rewrite Forall_lookup in Hl. pose proof (Hl j x Hj) as Hrx.
  assert (Hpj : p j = true) by (unfold p; rewrite Hj; apply fle_refl; by apply rate_not_nan).
  assert (k ≤ j)%nat as Hkj by (destruct (decide (k ≤ j)%nat); [done|]; rewrite (Hbef j) in Hpj; [done|lia]).
  destruct (lookup_lt_is_Some_2 l k) as [y Hy]; [apply lookup_lt_Some in Hj; lia|]. rewrite Hy. f_equal.
  apply rate_antisym; [by apply (Hl k)|done|by apply (Hle k j)|]. pose proof (Haft k ltac:(apply lookup_lt_Some in Hj; lia)) as Hpk. unfold p in Hpk. by rewrite Hy in Hpk.
Qed.

Lemma lookup_delete_at {A} (l : list A) (i k : nat) : delete i l !! k = l !! (if (i <=? k)%nat then S k else k).
Proof. destruct (Nat.leb_spec i k); [by rewrite list_lookup_delete_ge|by rewrite list_lookup_delete_lt]. Qed.

(** Index arithmetic and the median of the rest agree. *)
Lemma medianWithout_spec sorted i others :
  StronglySorted float_le sorted → (i < length sorted)%nat → Forall rate_ok others → others ≡ₚ delete i sorted →
  medianWithout sorted i = medianOf others.
Proof.
  intros Hs Hi Ho Hp. unfold medianOf. rewrite (sort_unique others (delete i sorted)) by (done || by apply sorted_delete).
  unfold medianWithout. rewrite length_delete by (by apply lookup_lt_is_Some_2). by rewrite !lookup_delete_at.
Qed.

(** The peer clamp is the documented one: with at least two sampled workers of a model, every
    stored peak is cut to ten times the median of the other workers' peaks as they stood
    before the pass, whatever the order of the workers, found by one sort and index
    arithmetic; afterwards no worker's peak exceeds that bound. *)
Theorem peers_clamped es k e others :
  Forall rate_ok (peaks_of es) → (k, e) ∈ es → e_hasPeak e = true → peaks_of es ≡ₚ e_peak e :: others → others ≠ [] →
  let bound := fmul peerClamp (medianOf others) in
  ∃ e', (k, e') ∈ clampToPeers es (peaks_of es) ∧ e_peak e' = (if flt bound (e_peak e) then bound else e_peak e) ∧ fle (e_peak e') bound = true.
Proof.
  intros Hr Hin Hpk Hperm Hne bound. assert (Hro : Forall rate_ok (e_peak e :: others)) by (by rewrite <-Hperm).
  apply Forall_cons in Hro as [Hre Hro].
  assert (Hsr : Forall rate_ok (sort_Float64s (peaks_of es))) by (by rewrite sort_Float64s_perm).
  assert (Hx : e_peak e ∈ sort_Float64s (peaks_of es)) by (rewrite sort_Float64s_perm, Hperm; by apply elem_of_cons; left).
  pose proof (search_finds _ _ (sort_sorted _) Hsr Hx) as Hfind. set (i := sort_SearchFloat64s _ _) in *.
  assert (Hmed : medianWithout (sort_Float64s (peaks_of es)) i = medianOf others).
  { apply medianWithout_spec; [apply sort_sorted|by eapply lookup_lt_Some|done|]. apply (Permutation_cons_inv (a := e_peak e)).
    etrans; [symmetry; exact Hperm|]. etrans; [symmetry; apply sort_Float64s_perm|]. by apply delete_Permutation. }
  assert (Hlen : (length (peaks_of es) <? 2)%nat = false) by (apply Nat.ltb_ge; rewrite Hperm; destruct others; [done|cbn; lia]).
  assert (Hbn : isNaN bound = false).
  { assert (fle f0 bound = true) as Hb; [|by apply fle_nan in Hb as [_ ?]]. unfold bound.
    change peerClamp with (S754_finite false 5629499534213120 (-49)). apply fmul_nonneg; [lia|]. apply positive_nonneg, median_positive.
    eapply Forall_impl; [exact Hro|]. intros x (_ & Hx' & _). by apply positive_rate. }
  exists (clamp_peak (sort_Float64s (peaks_of es)) e). split.
  - unfold clampToPeers. rewrite Hlen. apply list_elem_of_fmap. by exists (k, e).
  - unfold clamp_peak. rewrite Hpk. fold i. rewrite Hmed. fold bound. destruct (flt bound (e_peak e)) eqn:Hlt; cbn; (split; [done|]).
    + by apply fle_refl.
    + apply flt_false; [done|by apply rate_not_nan|done].
Qed.

Definition two_peaks : list (Key * entry) :=
  (λ '(id, p), (mkKey id 0, mkEntry 1 0 0 zeroTime 0 history_reset "m" true (f64 p) zeroTime 0 f0 false)) <$> [("a"%string, 100); ("b"%string, 5000); ("c"%string, 120)].

Lemma peers_clamped_witness :
  ∃ e', (mkKey "b" 0, e') ∈ clampToPeers two_peaks (peaks_of two_peaks) ∧ e_peak e' = f64 1100 ∧ fle (e_peak e') (fmul peerClamp (medianOf [f64 100; f64 120])) = true.
Proof.
  destruct (peers_clamped two_peaks (mkKey "b" 0) (mkEntry 1 0 0 zeroTime 0 history_reset "m" true (f64 5000) zeroTime 0 f0 false) [f64 100; f64 120])
    as (e' & Hin & Hp & Hle).
  - change (Forall rate_ok [f64 100; f64 5000; f64 120]). rewrite !Forall_cons. split_and!; [split_and!; [apply f64_valid|vm_compute; reflexivity|vm_compute; reflexivity]..|constructor].
  - unfold two_peaks. rewrite fmap_cons, fmap_cons. right. left.
  - reflexivity.
  - exact (perm_swap (f64 5000) (f64 100) [f64 120]).
  - discriminate.
  - exists e'. split; [exact Hin|]. split; [|exact Hle]. rewrite Hp. vm_compute. reflexivity.
Defined.

(** ** The estimate. *)

(** A double that is not negative, below [2^n]. *)
Definition level (n : Z) (x : float64) : Prop := valid x ∧ positive_sign x ∧ mag n x.

Lemma level_mono n n' x : n ≤ n' → level n x → level n' x.
Proof. intros Hn (? & ? & ?). split_and!; [done|done|by eapply mag_mono]. Qed.

Lemma level_median n l : Forall (level n) l → -800 ≤ n ≤ 800 → level (n + 3) (medianOf l).
Proof.
  intros Hl Hn. assert (Hs : ∀ i : nat, level n (default f0 (sort_Float64s l !! i))).
  { intros i. destruct (sort_Float64s l !! i) as [x|] eqn:Hx; [|done]. simpl. rewrite Forall_forall in Hl. apply Hl.
    rewrite <-(sort_Float64s_perm l). by eapply list_elem_of_lookup_2. }
  unfold medianOf. case_match; [by apply (level_mono n); [lia|apply Hs]|].
  destruct (Hs (length (sort_Float64s l) / 2 - 1)%nat) as (V1 & P1 & M1), (Hs (length (sort_Float64s l) / 2)%nat) as (V2 & P2 & M2).
  split_and!; [apply fdiv_valid|by apply half_positive, fadd_positive|]. replace (n + 3) with (n + 2 + 1) by lia. apply half_mag; [|lia]. apply fadd_mag; (done || lia).
Qed.

Lemma level_mul a b x y : level a x → level b y → -800 ≤ a + b ≤ 800 → level (a + b + 1) (fmul x y).
Proof.
  intros (V1 & P1 & M1) (V2 & P2 & M2) Hn. pose proof (fmul_mag a b x y V1 V2 M1 M2 ltac:(lia)) as Hm.
  split_and!; [by apply fmul_valid| |done]. apply fmul_positive; [done..|]. by apply mag_finite in Hm as [? _].
Qed.

Section Estimate.
Context `{GoMath}.
Variables (cfg : Config).
(** What New leaves in the configuration, and a half-life that is a number of seconds. *)
Hypothesis Hfloor : valid (c_CapacityFloor cfg) ∧ flt f0 (c_CapacityFloor cfg) = true ∧ fle (c_CapacityFloor cfg) (f64 1) = true.
Hypothesis Hhalf : rate_ok (Seconds (c_CapacityHalflife cfg)).

Lemma floor_level : level 1 (c_CapacityFloor cfg).
Proof. destruct Hfloor as (Hv & Hp & H1). split_and!; [done|by apply positive_rate|]. apply mag_unit; [done|by apply flt_true|done]. Qed.

Lemma exp_mag elapsed : 0 ≤ elapsed → let f := Exp2 (fdiv (fopp (Seconds elapsed)) (Seconds (c_CapacityHalflife cfg))) in valid f ∧ mag 1 f.
Proof.
  intros He. destruct (rate_shape _ Hhalf) as (m & e & -> & _).
  assert (positive_sign (Seconds elapsed)) as Hs.
  { unfold Seconds. apply fadd_positive; [apply f64_positive, Z.quot_pos; unfold Second; lia|]. change (f64 Second) with (S754_finite false 8388608000000000 (-23)).
    apply div_positive, f64_positive, Z.rem_nonneg; unfold Second; lia. }
  destruct (Exp2_unit (fdiv (fopp (Seconds elapsed)) (S754_finite false m e)) (fdiv_valid _ _) (div_negated _ _ _ Hs)) as (Hv & Hlo & Hhi).
  split; [done|]. by apply mag_unit.
Qed.

Lemma decay_sound peak target elapsed n :
  level n peak → level n target → -700 ≤ n ≤ 700 →
  let r := decay cfg peak target elapsed in isNaN r = false ∧ isInf r = false ∧ fle (fmul (c_CapacityFloor cfg) target) r = true.
Proof.
  intros (V1 & P1 & M1) Ht Hn. unfold decay. set (el := if elapsed <? 0 then 0 else elapsed). destruct (exp_mag el ltac:(unfold el; destruct (Z.ltb_spec elapsed 0); lia)) as [Vf Mf].
  set (f := Exp2 _) in *. clearbody f. destruct (level_mul 1 n _ _ floor_level Ht ltac:(lia)) as (V3 & P3 & M3). destruct Ht as (V2 & P2 & M2).
  pose proof (fmul_mag (n + 2) 1 _ _ (fsub_valid _ _ V1 V2) Vf (fsub_mag n _ _ M1 M2 ltac:(lia)) Mf ltac:(lia)) as M4.
  pose proof (fadd_mag (n + 2 + 1 + 1) _ _ (mag_mono n (n + 2 + 1 + 1) _ ltac:(lia) M2) M4 ltac:(lia)) as M5.
  set (x := fadd target _) in *. set (y := fmul (c_CapacityFloor cfg) target) in *. clearbody x y.
  destruct (mag_finite _ _ M5) as [Nx Ix], (mag_finite _ _ M3) as [Ny Iy]. destruct (fmax_spec x y Nx Ny) as (Heq & _ & Hle).
  destruct Heq as [Heq|Heq]; rewrite Heq in *; done.
Qed.

Lemma bound_level n l i : Forall (level n) l → -700 ≤ n ≤ 700 → level (n + 8) (fmul peerClamp (medianWithout (sort_Float64s l) i)).
Proof.
  intros Hl Hn. assert (Hs : ∀ i : nat, level n (default f0 (sort_Float64s l !! i))).
  { intros j. destruct (sort_Float64s l !! j) as [y|] eqn:Hy; [|done]. simpl. rewrite Forall_forall in Hl. apply Hl.
    rewrite <-(sort_Float64s_perm l). by eapply list_elem_of_lookup_2. }
  apply (level_mono (4 + (n + 3) + 1)); [lia|]. apply level_mul; [split_and!; [apply f64_valid|done|done]| |lia].
  unfold medianWithout. case_match; [by apply (level_mono n); [lia|apply Hs]|].
  match goal with |- context [fadd ?a ?b] => assert (level n a) as (Va & Pa & Ma) by apply Hs; assert (level n b) as (Vb & Pb & Mb) by apply Hs end.
  split_and!; [apply fdiv_valid|by apply half_positive, fadd_positive|]. replace (n + 3) with (n + 2 + 1) by lia. apply half_mag; [|lia]. apply fadd_mag; (done || lia).
Qed.

Lemma clamp_level n es : Forall (level n) (peaks_of es) → -700 ≤ n ≤ 700 → Forall (level (n + 8)) (peaks_of (clampToPeers es (peaks_of es))).
Proof.
  intros Hl Hn. unfold clampToPeers. case_match; [eapply Forall_impl; [exact Hl|]; intros x; apply level_mono; lia|].
  apply Forall_forall. intros x (ke & Hin & Hx)%list_elem_of_omap. apply list_elem_of_fmap in Hin as ([k e] & -> & Hin). cbn [fst snd] in Hx. unfold clamp_peak in Hx.
  destruct (e_hasPeak e) eqn:Hp; [|by rewrite Hp in Hx].
  assert (He : level n (e_peak e)) by (rewrite Forall_forall in Hl; apply Hl, list_elem_of_omap; exists (k, e); cbn; by rewrite Hp).
  pose proof (bound_level n (peaks_of es) (sort_SearchFloat64s (sort_Float64s (peaks_of es)) (e_peak e)) Hl Hn) as Hb.
  set (bound := fmul peerClamp _) in *. clearbody bound. destruct (flt bound (e_peak e)); cbn in Hx; rewrite Hp in Hx; injection Hx as <-; [done|].
  by apply (level_mono n); [lia|].
Qed.

(** Every sampled worker of a model gets an estimate that is a finite number, not NaN, its own
    rather than the prior, and at least the configured fraction of the fleet's median clamped
    peak, however long ago it was sampled, for peaks up to 2^600; the others get the median of
    those estimates. *)
Theorem capacity_sound now es k e :
  Forall (level 600) (peaks_of es) → peaks_of es ≠ [] → (k, e) ∈ recompute_model cfg now es → 
  let target := medianOf (peaks_of (clampToPeers es (peaks_of es))) in
  if e_hasPeak e then
    e_capPrior e = false ∧ isNaN (e_capR e) = false ∧ isInf (e_capR e) = false ∧ fle (fmul (c_CapacityFloor cfg) target) (e_capR e) = true
  else e_capR e = medianOf (omap (λ ke, if e_hasPeak ke.2 then Some (e_capR ke.2) else None) (recompute_model cfg now es)).
Proof.
  intros Hl Hne. unfold recompute_model. destruct (Nat.eqb_spec (length (peaks_of es)) 0) as [Hz|_]; [by apply nil_length_inv in Hz|].
  pose proof (clamp_level 600 es Hl ltac:(lia)) as Hc. set (es1 := clampToPeers es (peaks_of es)) in *. clearbody es1.
  pose proof (level_median 608 _ Hc ltac:(lia)) as Ht. set (target := medianOf (peaks_of es1)) in *. cbv zeta.
  set (es2 := _ <$> es1). set (caps := λ ke : Key * entry, if e_hasPeak ke.2 then Some (e_capR ke.2) else None). set (prior := medianOf (omap caps es2)).
  assert (Hcaps : ∀ l : list (Key * entry), omap caps ((λ ke, (ke.1, if e_hasPeak ke.2 then ke.2 else ke.2 <| e_capR := prior |>)) <$> l) = omap caps l).
  { induction l as [|[k' e'] l IH]; [done|]. csimpl. rewrite IH.
    assert (caps (k', if e_hasPeak e' then e' else e' <| e_capR := prior |>) = caps (k', e')) as ->; [|done].
    unfold caps. cbn [snd]. by destruct (e_hasPeak e') eqn:Hp; cbn; rewrite Hp. }
  rewrite Hcaps. fold prior. intros ([k2 e2] & [= -> ->] & Hin)%list_elem_of_fmap. cbn [snd]. destruct (e_hasPeak e2) eqn:Hp2; [rewrite Hp2|by cbn; rewrite Hp2].
  apply list_elem_of_fmap in Hin as ([k1 e1] & [= -> ->] & Hin). cbn [snd] in *. destruct (e_hasPeak e1) eqn:Hp1; [|congruence]. cbn.
  split; [done|]. apply (decay_sound _ _ _ 611); [|done|lia]. apply (level_mono 608); [lia|]. rewrite Forall_forall in Hc. apply Hc, list_elem_of_omap.
  exists (k1, e1). cbn. by rewrite Hp1.
Qed.
End Estimate.

Lemma capacity_sound_witness :
  ∃ e, (mkKey "b" 0, e) ∈ @recompute_model half_math (mkConfig 1 1 1 1 (60 * Second) (flit 25 2)) zeroTime two_peaks ∧
    isNaN (e_capR e) = false ∧ fle (fmul (flit 25 2) (medianOf (peaks_of (clampToPeers two_peaks (peaks_of two_peaks))))) (e_capR e) = true.
Proof.
  set (cfg := mkConfig 1 1 1 1 (60 * Second) (flit 25 2)).
  destruct (@recompute_model half_math cfg zeroTime two_peaks !! 1%nat) as [[k e]|] eqn:He; [|vm_compute in He; discriminate He].
  assert (Hk : k = mkKey "b" 0) by (vm_compute in He; injection He as <- _; reflexivity). subst k. exists e.
  pose proof (list_elem_of_lookup_2 _ _ _ He) as Hin. split; [exact Hin|].
  assert (Hf : valid (c_CapacityFloor cfg) ∧ flt f0 (c_CapacityFloor cfg) = true ∧ fle (c_CapacityFloor cfg) (f64 1) = true)
    by (split_and!; [apply fdiv_valid|vm_compute; reflexivity|vm_compute; reflexivity]).
  assert (Hh : rate_ok (Seconds (c_CapacityHalflife cfg))) by (split_and!; [apply fadd_valid; [apply f64_valid|apply fdiv_valid]|vm_compute; reflexivity|vm_compute; reflexivity]).
  assert (Hl : Forall (level 600) (peaks_of two_peaks)).
  { change (Forall (level 600) [f64 100; f64 5000; f64 120]). rewrite !Forall_cons.
    split_and!; [split_and!; [apply f64_valid|vm_compute; reflexivity|vm_compute; reflexivity]..|constructor]. }
  pose proof (@capacity_sound half_math cfg Hf Hh zeroTime two_peaks (mkKey "b" 0) e Hl ltac:(discriminate) Hin) as Hc.
  assert (Hp : e_hasPeak e = true) by (vm_compute in He; injection He as <-; reflexivity). cbv zeta in Hc. rewrite Hp in Hc.
  destruct Hc as (_ & H1 & _ & H2). split; [exact H1|exact H2].
Defined.
