(* ===== verification/Snapshot.v ===== *)
(** * The gateway's cached view of the registry (internal/gateway/snapshot.go)

    The last good snapshot, its workers aged to the moment it is read; what a refresh reports to
    the load tracker and to the breakers.  The fetch itself is an input: the workers the registry
    returned, or an error.  A refresh's three parts (the tracker's, the new view, the breakers')
    are definitions of their own, because requests run in between. *)

From Stdlib Require Import Ascii String SpecFloat.
From S2P Require Import Prelude GoFloat GoString GoSort Breaker Breakers Protocol.

Local Open Scope string_scope.
Local Open Scope list_scope.
Local Open Scope Z_scope.

(** A snapshot is shared by its pointer; [sn_id] is its allocation number. *)
Record snapshot := mkSnap { sn_id : nat; sn_byModel : gmap string (list WorkerSnapshot); sn_fetched : Time; sn_nextAge : Z }.

#[global] Instance eta_snapshot : Settable snapshot := {| eta_of := λ s, mkSnap (sn_id s) (sn_byModel s) (sn_fetched s) (sn_nextAge s) |}.

Record snapshotCache := mkCache {
  sc_refresh : Z; sc_maxStale : Z; sc_suspectAfter : Z; sc_cur : option snapshot; sc_failed : bool; sc_refreshFailures : Z; sc_next : nat
}.

#[global] Instance eta_snapshotCache : Settable snapshotCache :=
  {| eta_of := λ c, mkCache (sc_refresh c) (sc_maxStale c) (sc_suspectAfter c) (sc_cur c) (sc_failed c) (sc_refreshFailures c) (sc_next c) |}.

Definition newSnapshotCache (refresh maxStale suspectAfter : Z) : snapshotCache := mkCache refresh maxStale suspectAfter None false 0 0.

(** [schedulable] and [keyOf] (resilience.go). *)
Definition schedulable (w : WorkerSnapshot) : bool :=
  String.eqb (s_State w) StateReady && s_Eligible w && (String.eqb (s_Health w) HealthHealthy || String.eqb (s_Health w) HealthSuspect).

Definition keyOf (w : WorkerSnapshot) : Key := Breaker.KeyOf (s_WorkerID w) (s_RegisteredAt w).

(** ** Reading. *)

Definition fresh (c : snapshotCache) (now : Time) : option (snapshot * Z * bool) :=
  match sc_cur c with
  | None => None
  | Some s => let age := Sub now (sn_fetched s) in Some (s, age, age <=? sc_maxStale c)
  end.

Definition Fresh (c : snapshotCache) (now : Time) : Z * bool := match fresh c now with Some (_, age, ok) => (age, ok) | None => (0, false) end.

Definition Degraded (c : snapshotCache) (now : Time) : bool :=
  if negb (sc_failed c) then false
  else let '(age, ok) := Fresh c now in negb ok || ((2 *! sc_refresh c)%go <? age).

(** One worker aged by [age]. *)
Definition age_worker (suspectAfter age : Z) (w : WorkerSnapshot) : WorkerSnapshot :=
  let w := w <| s_HeartbeatAgeSeconds := fadd (s_HeartbeatAgeSeconds w) (Seconds age) |> in
  if s_Eligible w && fle (Seconds suspectAfter) (s_HeartbeatAgeSeconds w) then w <| s_Eligible := false |> <| s_Health := HealthSuspect |> else w.

Definition age_list (c : snapshotCache) (l : list WorkerSnapshot) (age : Z) : list WorkerSnapshot := age_worker (sc_suspectAfter c) age <$> l.

Definition workers_of (s : snapshot) (model : string) : list WorkerSnapshot := default [] (sn_byModel s !! model).

(** [viewAt], less the report that aging may cause ([syncAged] below). *)
Definition viewAt (c : snapshotCache) (now : Time) (model : string) : option (list WorkerSnapshot * Time) :=
  match fresh c now with
  | Some (s, age, true) => Some (age_list c (workers_of s model) age, Add (sn_fetched s) age)
  | _ => None
  end.

Definition Serves (c : snapshotCache) (now : Time) (model : string) : option bool :=
  match fresh c now with
  | Some (s, _, true) => Some (0 <? length (workers_of s model))%nat
  | _ => None
  end.

Definition cache_worker (c : snapshotCache) (now : Time) (model id : string) : option WorkerSnapshot :=
  match fresh c now with
  | Some (s, age, true) =>
      let l := workers_of s model in
      let i := sort_Search (length l) (λ i, match l !! i with Some w => negb (String.ltb (s_WorkerID w) id) | None => true end) in
      match l !! i with
      | Some w => if String.eqb (s_WorkerID w) id then Some (age_worker (sc_suspectAfter c) age w) else None
      | None => None
      end
  | _ => None
  end.

Definition Models `{GoMapOrder} (c : snapshotCache) (now : Time) : option (list string) :=
  match fresh c now with
  | Some (s, age, true) =>
      Some (sort_by (λ m, m) ((filter (λ mw, existsb s_Eligible (age_list c mw.2 age) = true) (range_map (sn_byModel s))).*1))
  | _ => None
  end.

(** [router.Probe]: ready when a model has an eligible worker. *)
Definition Probe `{GoMapOrder} (c : snapshotCache) (now : Time) : bool := match Models c now with Some (_ :: _) => true | _ => false end.

(** ** Refreshing. *)

Definition believable `{UrlParser} (w : WorkerSnapshot) : bool :=
  let age := s_HeartbeatAgeSeconds w in
  if isNaN age || isInf age || flt age f0 then false
  else if (s_MaxConcurrency w <? 1) || (ActiveRequests (s_Metrics w) <? 0) || (QueueDepth (s_Metrics w) <? 0) then false
  else bool_decide (ValidateAddress (s_Address w) = None).

Definition by_model_step `{UrlParser} (by_ : gmap string (list WorkerSnapshot)) (w : WorkerSnapshot) : gmap string (list WorkerSnapshot) :=
  let w := if negb (believable w) then w <| s_Eligible := false |> else w in
  <[s_Model w := default [] (by_ !! s_Model w) ++ [w]]> by_.

(** The new view of a fetch that began at [started]. *)
Definition Refresh_store `{UrlParser} (c : snapshotCache) (started : Time) (ws : list WorkerSnapshot) : snapshotCache :=
  c <| sc_cur := Some (mkSnap (sc_next c) (sort_by s_WorkerID <$> foldl by_model_step ∅ ws) started int64_max) |> <| sc_next := S (sc_next c) |>.

(** The fetch returned: the failure flag. *)
Definition Refresh_reached (c : snapshotCache) : snapshotCache := c <| sc_failed := false |>.

(** The fetch failed; [ended] says the gateway is shutting down. *)
Definition Refresh_failed (c : snapshotCache) (ended : bool) : snapshotCache :=
  if ended then c else c <| sc_refreshFailures := (sc_refreshFailures c +! 1)%go |> <| sc_failed := true |>.

(** [runSync]: the view of a snapshot at an age, for the breakers. *)
Definition sync_worker `{GoPlatform} (suspectAfter age : Z) (model : string) (acc : list Member * gmap string string * Z) (w : WorkerSnapshot) :
  list Member * gmap string string * Z :=
  let '(members, models, next) := acc in
  let suspect := Seconds suspectAfter in
  let eligible := schedulable w && negb (fle suspect (fadd (s_HeartbeatAgeSeconds w) (Seconds age))) in
  let secs := fsub suspect (s_HeartbeatAgeSeconds w) in
  let next :=
    if eligible && flt secs (fdiv (f64 int64_max) (f64 1000000000)) then Z.min next (float_to_int (fceil (fmul secs (f64 1000000000)))) else next in
  (members ++ [mkMember (keyOf w) model eligible], <[s_WorkerID w := model]> models, next).

Definition runSync `{GoPlatform} `{GoMapOrder} (c : snapshotCache) (s : snapshot) (age : Z) : snapshot * (list Member * gmap string string) :=
  let '(members, models, next) :=
    foldl (λ acc mw, foldl (sync_worker (sc_suspectAfter c) age mw.1) acc mw.2) ([], ∅, int64_max) (range_map (sn_byModel s)) in
  (s <| sn_nextAge := next |>, (members, models)).

(** [syncAged] for the snapshot and the age a reader took: the report, when a worker has turned
    suspect since the last one and the snapshot is still the current one. *)
Definition syncAged `{GoPlatform} `{GoMapOrder} (c : snapshotCache) (s : snapshot) (age : Z) : snapshotCache * option (list Member * gmap string string) :=
  match sc_cur c with
  | Some s' =>
      if negb (sn_id s' =? sn_id s)%nat || (age <? sn_nextAge s') then (c, None)
      else let '(s', report) := runSync c s' age in (c <| sc_cur := Some s' |>, Some report)
  | None => (c, None)
  end.

(** ** The report agrees with the view. *)

Lemma aged_schedulable suspectAfter age w :
  schedulable (age_worker suspectAfter age w) = schedulable w && negb (fle (Seconds suspectAfter) (fadd (s_HeartbeatAgeSeconds w) (Seconds age))).
Proof.
  unfold schedulable, age_worker. destruct w as [?????????????]. cbn. case_match eqn:Hc; apply andb_true_iff in Hc || apply andb_false_iff in Hc; cbn.
  - destruct Hc as [_ ->]. by rewrite !andb_false_r.
  - destruct Hc as [->| ->]; [by rewrite !andb_false_r|by rewrite andb_true_r].
Qed.

(** The member a worker is reported as. *)
Definition reported (c : snapshotCache) (age : Z) (model : string) (w : WorkerSnapshot) : Member :=
  mkMember (keyOf w) model (schedulable (age_worker (sc_suspectAfter c) age w)).

Section Report.
Context `{GoPlatform} `{GoMapOrder}.

Lemma sync_fold c age model l members models next :
  (foldl (sync_worker (sc_suspectAfter c) age model) (members, models, next) l).1.1 = members ++ (reported c age model <$> l).
Proof.
  revert members models next. induction l as [|w l IH]; intros members models next; [by rewrite app_nil_r|]. cbn [foldl]. unfold sync_worker at 2.
  rewrite IH, <-app_assoc. csimpl. unfold reported. by rewrite (aged_schedulable _ _ w).
Qed.

Lemma runSync_members c s age :
  (runSync c s age).2.1 = mjoin ((λ mw, reported c age mw.1 <$> mw.2) <$> range_map (sn_byModel s)).
Proof.
  unfold runSync. assert (∀ L acc, (foldl (λ acc mw, foldl (sync_worker (sc_suspectAfter c) age mw.1) acc mw.2) acc L).1.1
    = acc.1.1 ++ mjoin ((λ mw : string * list WorkerSnapshot, reported c age mw.1 <$> mw.2) <$> L)) as Hf.
  { induction L as [|[model l] L IH]; intros [[members models] next]; [by rewrite app_nil_r|]. cbn [foldl]. rewrite IH. cbn [fst snd].
    rewrite sync_fold, <-app_assoc. done. }
  specialize (Hf (range_map (sn_byModel s)) ([], ∅, int64_max)). destruct (foldl _ _ _) as [[members models] next]. exact Hf.
Qed.

(** What the gateway reports to the breakers at an age of the snapshot is the view a
    request gets at that age: the same workers, each once per listing, schedulable exactly when
    the aged view says so.  The ejection cap and the router judge the same eligible set. *)
Theorem sync_agrees c s age m :
  m ∈ (runSync c s age).2.1 ↔
  ∃ model w, w ∈ workers_of s model ∧ m = mkMember (keyOf w) model (schedulable (age_worker (sc_suspectAfter c) age w)).
Proof.
  rewrite runSync_members, list_elem_of_join. split.
  - intros (ms & Hm & ([model l] & -> & Hl%elem_of_range_map)%list_elem_of_fmap). apply list_elem_of_fmap in Hm as (w & -> & Hw).
    exists model, w. split; [|done]. unfold workers_of. by rewrite Hl.
  - intros (model & w & Hw & ->). unfold workers_of in Hw. destruct (sn_byModel s !! model) as [l|] eqn:Hl; [|by apply elem_of_nil in Hw].
    exists (reported c age model <$> l). split; [by apply (list_elem_of_fmap_2 (reported c age model))|]. apply list_elem_of_fmap. exists (model, l).
    split; [done|by apply elem_of_range_map].
Qed.
End Report.
