(* ===== verification/Api.v ===== *)
(** * The gateway's API errors (internal/api/errors.go)

    The error values, with their texts and the headers they are written with; the JSON body is
    encoding/json's. *)

From Stdlib Require Import Ascii String.
From S2P Require Import Prelude GoString.

Local Open Scope string_scope.
Local Open Scope list_scope.
Local Open Scope Z_scope.

Definition CodeInvalidRequest : string := "INVALID_REQUEST".
Definition CodeModelNotFound : string := "MODEL_NOT_FOUND".
Definition CodeNoCapacity : string := "NO_CAPACITY".
Definition CodeUpstreamTimeout : string := "UPSTREAM_TIMEOUT".
Definition CodeWorkerUnavailable : string := "WORKER_UNAVAILABLE".
Definition CodeInferenceFailed : string := "INFERENCE_FAILED".
Definition CodeInternalError : string := "INTERNAL_ERROR".
Definition CodeUnauthorized : string := "UNAUTHORIZED".
Definition CodeForbidden : string := "FORBIDDEN".
Definition CodeAuthUnavailable : string := "AUTH_UNAVAILABLE".
Definition CodeRateLimited : string := "RATE_LIMITED".
Definition CodeRateLimitUnavail : string := "RATE_LIMIT_UNAVAILABLE".

Record ApiError := mkApiError {
  ae_Code : string; ae_HTTPStatus : Z; ae_Message : string; ae_Model : string; ae_EligibleWorkers : option Z; ae_RetryAfter : Z;
  ae_WWWAuthenticate : string
}.

#[global] Instance eta_ApiError : Settable ApiError :=
  {| eta_of := λ e, mkApiError (ae_Code e) (ae_HTTPStatus e) (ae_Message e) (ae_Model e) (ae_EligibleWorkers e) (ae_RetryAfter e) (ae_WWWAuthenticate e) |}.

Definition Error_Error (e : ApiError) : string := (ae_Code e ++ ": " ++ ae_Message e)%string.

(** The bytes of each rune of a string, as [string([]rune(s))] writes them: those of the string,
    and the replacement character's for a byte that starts no rune. *)
Fixpoint rune_bytes (fuel : nat) (l : list Z) : list (list Z) :=
  match fuel, l with
  | S fuel, c :: l0 =>
      match decode_rune l with
      | Some (_, l') => take (length l - length l') l :: rune_bytes fuel l'
      | None => [239; 191; 189] :: rune_bytes fuel l0
      end
  | _, _ => []
  end.

Definition truncate (s : string) (n : nat) : string :=
  let r := rune_bytes (length (bytes s)) (bytes s) in
  if (length r <=? n)%nat then s else (of_bytes (concat (take n r)) ++ "...")%string.

Definition plain_error (code : string) (status : Z) (msg : string) : ApiError := mkApiError code status msg "" None 0 "".

Definition ErrInvalidRequest (msg : string) : ApiError := plain_error CodeInvalidRequest 400 msg.
Definition ErrBodyTooLarge : ApiError := plain_error CodeInvalidRequest 413 "request body exceeds the maximum allowed size".
Definition ErrModelNotFound (model : string) : ApiError :=
  plain_error CodeModelNotFound 404 ("the model `" ++ truncate model 64 ++ "` does not exist")%string.
Definition ErrUpstreamTimeout : ApiError := plain_error CodeUpstreamTimeout 504 "the upstream did not respond in time".
Definition ErrWorkerUnavailable : ApiError := plain_error CodeWorkerUnavailable 503 "no inference upstream is available".
Definition ErrInferenceFailed : ApiError := plain_error CodeInferenceFailed 502 "the upstream failed to complete the request".

Definition ErrNoCapacity (model : string) (eligibleWorkers : Z) : ApiError :=
  mkApiError CodeNoCapacity 503 ("no worker has capacity for the model `" ++ truncate model 64 ++ "` right now")%string
    (truncate model 64) (Some eligibleWorkers) 1 "".

Definition OverloadGlobalLimit : string := "global_limit".
Definition OverloadQueueFull : string := "queue_full".
Definition OverloadQueueTimeout : string := "queue_timeout".
Definition OverloadDraining : string := "draining".

Definition ErrOverloaded (reason model : string) (eligibleWorkers retryAfter : Z) : ApiError :=
  let msg :=
    if String.eqb reason OverloadGlobalLimit then "the gateway is at its limit of concurrent requests; retry shortly"
    else if String.eqb reason OverloadQueueTimeout then ("no worker had capacity for the model `" ++ truncate model 64 ++ "` within the queue wait limit")%string
    else if String.eqb reason OverloadDraining then "the gateway is shutting down; retry on another instance"
    else ("the queue for the model `" ++ truncate model 64 ++ "` is full; retry shortly")%string in
  mkApiError CodeNoCapacity 503 msg (truncate model 64) (if 0 <=? eligibleWorkers then Some eligibleWorkers else None) (Z.max retryAfter 1) "".

Definition ErrUnauthorized : ApiError := (plain_error CodeUnauthorized 401 "invalid or missing API key") <| ae_WWWAuthenticate := "Bearer" |>.
Definition ErrForbidden : ApiError := plain_error CodeForbidden 403 "this API key is not permitted to use the service".
Definition ErrModelForbidden (model : string) : ApiError :=
  plain_error CodeForbidden 403 ("the model `" ++ truncate model 64 ++ "` does not exist or is not available to this API key")%string.
Definition ErrAuthUnavailable : ApiError :=
  (plain_error CodeAuthUnavailable 503 "authentication is temporarily unavailable; retry shortly") <| ae_RetryAfter := 2 |>.

Definition limitText (limit : string) : string :=
  if String.eqb limit "requests" then "too many requests per minute"
  else if String.eqb limit "tokens" then "too many tokens per minute"
  else if String.eqb limit "concurrency" then "too many concurrent requests"
  else if String.eqb limit "model" then "too many requests for this model"
  else "limit reached".

Definition ErrRateLimited (limit : string) (retryAfter : Z) : ApiError :=
  (plain_error CodeRateLimited 429 ("rate limit exceeded: " ++ limitText limit ++ "; retry after the time in the Retry-After header")%string)
    <| ae_RetryAfter := Z.max 1 retryAfter |>.
Definition ErrRateLimitUnavailable (retryAfter : Z) : ApiError :=
  (plain_error CodeRateLimitUnavail 503 "rate limiting is temporarily unavailable; retry shortly") <| ae_RetryAfter := Z.max 1 retryAfter |>.
Definition ErrInternal : ApiError := plain_error CodeInternalError 500 "internal server error".

Definition errorType (status : Z) : string :=
  if 500 <=? status then "api_error" else if status =? 429 then "rate_limit_error" else "invalid_request_error".

(** The headers WriteError sets before the status. *)
Definition error_headers (e : ApiError) : list (string * string) :=
  [("Content-Type", "application/json")]
  ++ (if 0 <? ae_RetryAfter e then [("Retry-After", of_bytes (itoa (ae_RetryAfter e)))] else [])
  ++ (if String.eqb (ae_WWWAuthenticate e) "" then [] else [("WWW-Authenticate", ae_WWWAuthenticate e)]).
