(* ===== verification/Router.v ===== *)
(** * The router (internal/gateway/router.go, resilience.go, resilience_queue.go)

    The router composes the cached registry view, the breakers, the waiting queue, the load
    tracker and the scheduler.  Its own mutex protects the in-flight counts and makes "overlay,
    select, take the ticket, take the slot" one critical section; the components it calls there
    have locks of their own, and other goroutines call them meanwhile.

    A router operation is a computation over the state ([M]).  The state under the router's mutex
    (the counts, the scheduler's rotor) and the routed handles change only by the operation; the
    world of components is changed, before every call into it, by whatever the other goroutines
    did: [env_world] is an arbitrary function, so a theorem that holds for every environment holds
    for every interleaving.  The environment also gives the clock, the random numbers and whether
    the client has gone, and how many rounds a delivery of transitions takes.  A handle is a pointer: [routed] values live in a heap, the queue carries
    their addresses. *)

From Stdlib Require Import Ascii String SpecFloat.
From S2P Require Import Prelude GoFloat GoString GoSort SlidingWindow Breaker Breakers Queue Budget Protocol Cost Scheduler History Tracker Snapshot Api.

Local Open Scope string_scope.
Local Open Scope list_scope.
Local Open Scope Z_scope.

(** ** The resilience state (resilience.go). *)

Definition maxPendingChanges : Z := 4096.

Record Res := mkRes {
  rl_breakers : Breakers; rl_budget : Budget; rl_waitq : Queue nat; rl_models : gmap string string; rl_nonClosed : Z;
  rl_queue : list Change; rl_dropped : Z; rl_flushing : bool
}.

#[global] Instance eta_Res : Settable Res :=
  {| eta_of := λ r, mkRes (rl_breakers r) (rl_budget r) (rl_waitq r) (rl_models r) (rl_nonClosed r) (rl_queue r) (rl_dropped r) (rl_flushing r) |}.

(** [push]: the breakers' change hook. *)
Definition push_change (rs : Res) (c : Change) : Res :=
  let rs :=
    if ch_Suppressed c then rs
    else if bool_decide (ch_From c = Closed) && negb (bool_decide (ch_To c = Closed)) then rs <| rl_nonClosed := (rl_nonClosed rs +! 1)%go |>
    else if negb (bool_decide (ch_From c = Closed)) && bool_decide (ch_To c = Closed) then rs <| rl_nonClosed := (rl_nonClosed rs -! 1)%go |>
    else rs in
  if maxPendingChanges <=? Z.of_nat (length (rl_queue rs)) then rs <| rl_dropped := wrapU64 (rl_dropped rs + 1) |>
  else rs <| rl_queue := rl_queue rs ++ [c] |>.

(** A call of a breakers' method, with the hook. *)
Definition with_breakers {A} (f : Breakers → Breakers * list Change * A) (rs : Res) : Res * A :=
  let '(bs, chs, a) := f (rl_breakers rs) in (foldl push_change (rs <| rl_breakers := bs |>) chs, a).

(** What a round of [flush] takes for delivery. *)
Definition take_batch (rs : Res) : Res * list Change := (rs <| rl_queue := [] |>, rl_queue rs).

Definition modelOf (rs : Res) (workerID : string) : string := default "" (rl_models rs !! workerID).

(** The event an observer gets for a transition ([dispatch]). *)
Record BreakerChange := mkBreakerChange { bc_WorkerID : string; bc_Model : string; bc_To : string; bc_Reason : string; bc_Failures : Z; bc_CoolDown : Z }.

Definition dispatch (rs : Res) (c : Change) : BreakerChange :=
  mkBreakerChange (key_ID (ch_Key c)) (modelOf rs (key_ID (ch_Key c))) (State_String (ch_To c)) (ch_Reason c) (ch_Failures c) (ch_CoolDown c).

(** ** The world and the state. *)

Record World := mkWorld { wd_cache : snapshotCache; wd_res : option Res; wd_sig : option Tracker }.

#[global] Instance eta_World : Settable World := {| eta_of := λ w, mkWorld (wd_cache w) (wd_res w) (wd_sig w) |}.

Record routed := mkRouted { rt_worker : WorkerSnapshot; rt_ticket : Ticket; rt_lease : Token; rt_cost : Z; rt_released : bool; rt_predicted : option float64; rt_baseURL : string }.

#[global] Instance eta_routed : Settable routed :=
  {| eta_of := λ r, mkRouted (rt_worker r) (rt_ticket r) (rt_lease r) (rt_cost r) (rt_released r) (rt_predicted r) (rt_baseURL r) |}.

Record RState := mkRState { r_world : World; r_inflight : gmap string Z; r_rotor : Rotor; r_routeds : gmap nat routed; r_next : nat; r_calls : nat }.

#[global] Instance eta_RState : Settable RState :=
  {| eta_of := λ r, mkRState (r_world r) (r_inflight r) (r_rotor r) (r_routeds r) (r_next r) (r_calls r) |}.

(** What the other goroutines, the clock, the generator and the client do, by call number. *)
Record Env := mkEnv {
  env_world : nat → World → World; env_now : nat → Time; env_rnd : nat → nat → nat; env_cancelled : nat → bool; env_busy : nat → bool; env_rounds : nat → nat
}.

Definition M (A : Type) : Type := Env → RState → RState * A.

Definition ret {A} (a : A) : M A := λ _ s, (s, a).
Definition bind {A B} (m : M A) (f : A → M B) : M B := λ env s, let '(s, a) := m env s in f a env s.

Notation "'let!' x := m 'in' k" := (bind m (λ x, k)) (at level 10, x pattern, m at level 100, k at level 200).
Notation "m ;! k" := (bind m (λ _, k)) (at level 100, k at level 200, right associativity).

Definition gets {A} (f : RState → A) : M A := λ _ s, (s, f s).
Definition modify (f : RState → RState) : M () := λ _ s, (f s, ()).

(** A call into the world: others first, then the call, at the clock's reading. *)
Definition call {A} (f : Time → World → World * A) : M A := λ env s,
  let '(w, a) := f (env_now env (r_calls s)) (env_world env (r_calls s) (r_world s)) in (s <| r_world := w |> <| r_calls := S (r_calls s) |>, a).

(** The generator, the context and the lock attempt, as of the present call number. *)
Definition ask {A} (f : Env → nat → A) : M A := λ env s, (s, f env (r_calls s)).

(** A call of a component that may be absent: [None] then. *)
Definition call_res {A} (f : Time → Res → Res * A) : M (option A) :=
  call (λ now w, match wd_res w with None => (w, None) | Some rs => let '(rs, a) := f now rs in (w <| wd_res := Some rs |>, Some a) end).

Definition call_sig {A} (f : Time → Tracker → Tracker * A) : M (option A) :=
  call (λ now w, match wd_sig w with None => (w, None) | Some t => let '(t, a) := f now t in (w <| wd_sig := Some t |>, Some a) end).

Definition call_breakers {A} (f : Breakers → Time → Breakers * list Change * A) : M (option A) :=
  call_res (λ now rs, with_breakers (λ bs, f bs now) rs).

Definition call_queue {A} (f : Queue nat → Time → Queue nat * A) : M (option A) :=
  call_res (λ now rs, let '(q, a) := f (rl_waitq rs) now in (rs <| rl_waitq := q |>, a)).

Definition read_cache {A} (f : Time → snapshotCache → A) : M A := call (λ now w, (w, f now (wd_cache w))).

(** ** Outcomes. *)

Record routeError := mkRouteError { ro_Error : ApiError; ro_Serving : Z; ro_Eligible : Z; ro_AtCapacity : Z; ro_shed : string }.

#[global] Instance eta_routeError : Settable routeError :=
  {| eta_of := λ e, mkRouteError (ro_Error e) (ro_Serving e) (ro_Eligible e) (ro_AtCapacity e) (ro_shed e) |}.

Definition plain (e : ApiError) : routeError := mkRouteError e 0 0 0 "".

Definition routeError_full (e : routeError) : bool :=
  String.eqb (ro_shed e) "" && String.eqb (ae_Code (ro_Error e)) CodeNoCapacity && (0 <? ro_Eligible e) && (ro_Eligible e =? ro_AtCapacity e).

(** What reserve ends in.  [Stuck] is a loop that outran its bound. *)
Inductive Reserved :=
  | RChosen (w : WorkerSnapshot) (ticket : Ticket) (lease : Token) (cost : Z)
  | RWaiter (i : nat)
  | RRefused (e : routeError)
  | RPanicked
  | RStuck.

Inductive Routing := Routed (h : nat) | Waiting (i : nat) | NotRouted (e : routeError) | RoutePanicked | RouteStuck.

(** The configuration of a router. *)
Record RouterCfg := mkRouterCfg { rc_sched : Strategy; rc_weights : Weights; rc_workAware : bool }.

Section router.
Context `{GoPlatform} `{GoMapOrder} `{GoMath} `{UrlParser} (cfg : RouterCfg).

(** ** The view, with the report that aging may cause. *)

Fixpoint mapM_ {A B} (f : A → M B) (l : list A) : M (list B) :=
  match l with
  | [] => ret []
  | a :: l => let! b := f a in let! bs := mapM_ f l in ret (b :: bs)
  end.

(** The inner loop of [flush]: the batches, with the events the observers get. *)
Fixpoint deliver (fuel : nat) : M (list BreakerChange) :=
  match fuel with
  | O => ret []
  | S fuel =>
      let! batch := call_res (λ _ rs, take_batch rs) in
      match default [] batch with
      | [] => ret []
      | l =>
          let! evs := mapM_ (λ c, call_res (λ _ rs, (rs, dispatch rs c))) l in
          let! more := deliver fuel in
          ret (omap id evs ++ more)
      end
  end.

(** The outer loop: one goroutine delivers at a time.  The count of dropped transitions is reset; the
    warning logged when there were any is not modelled. *)
Fixpoint flush_rounds (fuel : nat) : M (list BreakerChange) :=
  match fuel with
  | O => ret []
  | S fuel' =>
      let! mine := call_res (λ _ rs, (rs <| rl_flushing := true |>, negb (rl_flushing rs))) in
      if negb (default false mine) then ret []
      else
      let! evs := deliver fuel in
      call_res (λ _ rs, (rs <| rl_flushing := false |>, ())) ;!
      call_res (λ _ rs, (rs <| rl_dropped := 0 |>, ())) ;!
      let! more := call_res (λ _ rs, (rs, (0 <? length (rl_queue rs))%nat)) in
      if default false more then let! rest := flush_rounds fuel' in ret (evs ++ rest) else ret evs
  end.

(** [flush]: what it delivers; another round runs only when others have pushed meanwhile. *)
Definition flush : M (list BreakerChange) := let! n := ask env_rounds in flush_rounds n.

(** [resilienceState.sync]. *)
Definition sync (members : list Member) (models : gmap string string) : M () :=
  call_res (λ _ rs, (rs <| rl_models := models |>, ())) ;!
  call_breakers (λ bs now, (Breakers_Sync bs now members, ())) ;!
  let! open := call_breakers Breakers_Snapshot in
  call_res (λ _ rs, (rs <| rl_nonClosed := Z.of_nat (length (default [] open)) |>, ())) ;!
  call_res (λ now rs, (rs <| rl_budget := Budget_Prune (rl_budget rs) now (λ model, bool_decide (model ∈ (map_to_list models).*2)) |>, ())) ;!
  flush ;! ret ().

(** [syncAged], when the lock is free and the router has resilience on. *)
Definition sync_aged (s : snapshot) (age : Z) : M () :=
  let! busy := ask env_busy in
  if busy then ret ()
  else
    let! report := call (λ _ w, match wd_res w with
                          | None => (w, None)
                          | Some _ => let '(c, report) := syncAged (wd_cache w) s age in (w <| wd_cache := c |>, report)
                          end) in
    match report with Some (members, models) => sync members models | None => ret () end.

(** [viewAt]: the workers at the age the snapshot was judged at. *)
Definition view (model : string) : M (option (list WorkerSnapshot * Time)) :=
  let! v := read_cache (λ now c, (fresh c now, viewAt c now model)) in
  match v with
  | (Some (s, age, true), v) => sync_aged s age ;! ret v
  | (_, v) => ret v
  end.

(** ** The overlay. *)

Definition local_load (w : WorkerSnapshot) : M Z := gets (λ s, default 0 (r_inflight s !! s_WorkerID w)).

Definition overlay_input (w : WorkerSnapshot) (now : Time) (local : Z) : Input :=
  mkInput (Tracker.KeyOf w) local (ActiveRequests (s_Metrics w)) (ReportTime now (s_HeartbeatAgeSeconds w)).

Definition overlay (w : WorkerSnapshot) (now : Time) : M (Z * option Result) :=
  let! local := local_load w in
  let! res := call_sig (λ _ t, Overlay t now (overlay_input w now local)) in
  ret (match res with Some r => (rs_Active r, Some r) | None => (Z.max (ActiveRequests (s_Metrics w)) local, None) end).

Definition requestCost (req : InferenceRequest) : Z := Work (ir_EstInputTokens req) (ir_EstOutputTokens req) (rc_weights cfg).

(** A worker as the scheduler sees it. *)
Definition set_active (w : WorkerSnapshot) (n : Z) : WorkerSnapshot :=
  let m := s_Metrics w in
  w <| s_Metrics := mkMetrics n (QueueDepth m) (QueuedInputTokens m) (RecentTokensPerSecond m) (GPUUtilization m) (GPUMemoryUsedMB m) |>.

Definition overlay_plain (viewAt : Time) (w : WorkerSnapshot) : M WorkerSnapshot :=
  let! o := overlay w viewAt in
  ret (match o with
        | (active, Some r) => (set_active w active) <| s_Observed := Result_Observed r |>
        | (active, None) => set_active w active
        end).

Definition overlay_work (viewAt : Time) (req : InferenceRequest) (w : WorkerSnapshot) : M WorkerSnapshot :=
  let! local := local_load w in
  let! o := call_sig (λ _ t, Load t viewAt
        (mkLoadInput (overlay_input w viewAt local) (s_Model w) (QueuedInputTokens (s_Metrics w)) (requestCost req) (InputWeight (rc_weights cfg)))) in
  match o with
  | Some o => ret ((set_active w (EffectiveActive o)) <| s_Observed := o |>)
  | None => overlay_plain viewAt w
  end.

Definition overlay_all (viewAt : Time) (req : InferenceRequest) (workers : list WorkerSnapshot) : M (list WorkerSnapshot) :=
  mapM_ (if rc_workAware cfg then overlay_work viewAt req else overlay_plain viewAt) workers.

(** ** Reserving a slot. *)

Definition anySchedulable (workers : list WorkerSnapshot) : bool := existsb schedulable workers.

(** [enqueueLocked]; the counts are an error whose API error is still to be set. *)
Definition enqueueLocked (req : InferenceRequest) (tenant : string) (counts : routeError) : M Reserved :=
  let! r := call_queue (λ q now, Queue_Enqueue q now (ir_Model req) tenant) in
  match r with
  | None => ret RPanicked
  | Some (inl i) => ret (RWaiter i)
  | Some (inr ErrNoQueue) => ret (RRefused (counts <| ro_Error := ErrNoCapacity (ir_Model req) (ro_Eligible counts) |>))
  | Some (inr err) =>
      let reason := ShedReason (Some err) in
      let eligible := if (ro_Eligible counts =? 0) && (ro_AtCapacity counts =? 0) then -1 else ro_Eligible counts in
      let! retry := call_queue (λ q _, (q, Queue_RetryAfterSeconds q reason)) in
      ret (RRefused (counts <| ro_shed := reason |> <| ro_Error := ErrOverloaded reason (ir_Model req) eligible (default 0 retry) |>))
  end.

(** The answer to a scheduler that found no worker. *)
Definition refuse_route (req : InferenceRequest) (broke : Z) (wait : option string) (none : NoWorkerError) : M Reserved :=
  let counts := mkRouteError ErrInternal (nw_Serving none) (nw_Eligible none) (nw_AtCapacity none) "" in
  if UnknownModel none then ret (RRefused (counts <| ro_Error := ErrModelNotFound (ir_Model req) |>))
  else
  let! degraded := read_cache (λ now c, Degraded c now) in
  if degraded then ret (RRefused (counts <| ro_Error := ErrWorkerUnavailable |>))
  else
  let counts := counts <| ro_Error := ErrNoCapacity (ir_Model req) (nw_Eligible none) |> in
  let! retry := (if (0 <? broke) && (nw_Eligible none =? 0) then call_breakers Breakers_RetryAfter else ret None) in
  let counts := match retry with
                | Some s => counts <| ro_Error := (ro_Error counts) <| ae_RetryAfter := s |> |>
                | None => counts
                end in
  match wait with
  | Some tenant => if routeError_full counts then enqueueLocked req tenant counts else ret (RRefused counts)
  | None => ret (RRefused counts)
  end.

(** The selection with the random numbers and the context of the moment. *)
Definition select (req : InferenceRequest) (workers : list WorkerSnapshot) : M Selection := λ env s,
  let '(r, sel) := SelectWorker (rc_sched cfg) (r_rotor s) (env_rnd env (r_calls s)) (env_cancelled env (r_calls s)) req workers in
  (s <| r_rotor := r |> <| r_calls := S (r_calls s) |>, sel).

(** The first worker with the id is marked. *)
Fixpoint mark_ineligible (id : string) (workers : list WorkerSnapshot) : list WorkerSnapshot :=
  match workers with
  | [] => []
  | w :: ws => if String.eqb (s_WorkerID w) id then (w <| s_Eligible := false |>) :: ws else w :: mark_ineligible id ws
  end.

(** After the loop: the slot is taken, the ledger is told. *)
Definition take_slot (req : InferenceRequest) (chosen : WorkerSnapshot) (ticket : Ticket) : M Reserved :=
  modify (λ s, s <| r_inflight := <[s_WorkerID chosen := (default 0 (r_inflight s !! s_WorkerID chosen) +! 1)%go]> (r_inflight s) |>) ;!
  let! tok := call_sig (λ now t, Begin t now (Tracker.KeyOf chosen)) in
  match tok with
  | None => ret (RChosen chosen ticket no_token 0)
  | Some tok =>
      let! added := call_sig (λ _ t, AddCost t tok (requestCost req)) in
      (if rc_workAware cfg then call_sig (λ _ t, (ObserveCost t (s_Model chosen) (requestCost req), ())) else ret None) ;!
      ret (RChosen chosen ticket tok (if default false added then requestCost req else 0))
  end.

(** The loop of reserve: a round per candidate. *)
Fixpoint reserve_loop (fuel : nat) (req : InferenceRequest) (workers : list WorkerSnapshot) (broke : Z) (wait : option string) : M Reserved :=
  match fuel with
  | O => ret RStuck
  | S fuel =>
      let! sel := select req workers in
      match sel with
      | Panicked => ret RPanicked
      | Refused ErrContext => ret (RRefused (plain ErrInternal))
      | Refused (ErrNoWorker none) => refuse_route req broke wait none
      | Chosen chosen =>
          let! t := call_breakers (λ bs now, Breakers_Acquire bs now (keyOf chosen)) in
          match t with
          | None => take_slot req chosen zeroTicket
          | Some (ticket, true) => take_slot req chosen ticket
          | Some (_, false) => reserve_loop fuel req (mark_ineligible (s_WorkerID chosen) workers) (broke + 1) wait
          end
      end
  end.

Definition reserve (req : InferenceRequest) (workers : list WorkerSnapshot) (viewAt : Time) (broke : Z) (wait : option string) : M Reserved :=
  let go :=
    let! workers := overlay_all viewAt req workers in
    reserve_loop (S (length workers)) req workers broke wait in
  match wait with
  | Some tenant =>
      if anySchedulable workers then
        let! busy := call_queue (λ q _, (q, Queue_Busy q (ir_Model req))) in
        match busy with
        | None => ret RPanicked
        | Some true => enqueueLocked req tenant (plain ErrInternal)
        | Some false => go
        end
      else go
  | None => go
  end.

Definition trimSlash (s : string) : string :=
  of_bytes (rev ((fix go l := match l with c :: l' => if c =? 47 then go l' else l | [] => [] end) (rev (bytes s)))).

(** [newRouted]: the handle's address. *)
Definition newRouted (w : WorkerSnapshot) (ticket : Ticket) (lease : Token) (cost : Z) (predicted : option float64) : M nat := λ _ s,
  let h := r_next s in
  (s <| r_routeds := <[h := mkRouted w ticket lease cost false predicted (trimSlash (s_Address w))]> (r_routeds s) |> <| r_next := S h |>, h).

(** ** Routing. *)

(** The pass over the breakers, worker by worker. *)
Definition admissible_pass (w : WorkerSnapshot) : M (WorkerSnapshot * Z) :=
  if schedulable w then
    let! ok := call_breakers (λ bs now, Breakers_Admissible bs now (keyOf w)) in
    ret (if default true ok then (w, 0) else (w <| s_Eligible := false |>, 1))
  else ret (w, 0).

Definition filter_broken (workers : list WorkerSnapshot) : M (list WorkerSnapshot * Z) :=
  let! n := call_res (λ _ rs, (rs, rl_nonClosed rs)) in
  if 0 <? default 0 n then
    let! l := mapM_ admissible_pass workers in ret (l.*1, sumZ (l.*2))
  else ret (workers, 0).

(** [route]; [Route] passes no tenant, [RouteOrWait] nothing excluded. *)
Definition route (req : InferenceRequest) (wait : option string) (exclude : list string) : M Routing :=
  let! v := view (ir_Model req) in
  match v with
  | None => ret (NotRouted (plain ErrWorkerUnavailable))
  | Some (all, viewAt) =>
      let workers := filter (λ w, s_WorkerID w ∉ exclude) all in
      if (length workers =? 0)%nat && (0 <? length all)%nat then
        ret (NotRouted (mkRouteError (ErrNoCapacity (ir_Model req) 0) (Z.of_nat (length all)) 0 0 ""))
      else
      let! wb := filter_broken workers in
      let! r := reserve req wb.1 viewAt wb.2 wait in
      match r with
      | RChosen chosen ticket lease cost =>
          let! h := newRouted chosen ticket lease cost
                      (if rc_workAware cfg then PredictedWait (s_Observed chosen) (f64 (requestCost req)) else None) in
          ret (Routed h)
      | RWaiter i => ret (Waiting i)
      | RRefused e => ret (NotRouted e)
      | RPanicked => ret RoutePanicked
      | RStuck => ret RouteStuck
      end
  end.

Definition Route (req : InferenceRequest) (exclude : list string) : M Routing := route req None exclude.
Definition RouteOrWait (req : InferenceRequest) (tenant : string) : M Routing := route req (Some tenant) [].

Definition InFlight (workerID : string) : M Z := gets (λ s, default 0 (r_inflight s !! workerID)).

(** ** Releasing. *)

(** A handle the queue refused is unreachable. *)
Definition forget_handle (h : nat) : M () := modify (λ s, s <| r_routeds := delete h (r_routeds s) |>).

(** [handoffLocked]: whether the slot was handed over, and whether a waiter is to be woken. *)
Definition handoffLocked (w : WorkerSnapshot) : M (bool * bool) :=
  let! busy := call_queue (λ q _, (q, Queue_Busy q (s_Model w))) in
  if negb (default false busy) then ret (false, false)
  else
  let! cur := read_cache (λ now c, cache_worker c now (s_Model w) (s_WorkerID w)) in
  match cur with
  | None => ret (false, true)
  | Some cur =>
      if negb (bool_decide (s_RegisteredAt cur = s_RegisteredAt w)) || negb (schedulable cur) then ret (false, true)
      else
      let! t := call_breakers (λ bs now, Breakers_Acquire bs now (keyOf cur)) in
      match t with
      | Some (ticket, true) =>
          let! tok := call_sig (λ now t, Begin t now (Tracker.KeyOf cur)) in
          let lease := default no_token tok in
          let! h := newRouted cur ticket lease 0 None in
          let! handed := call_queue (λ q _, Queue_Handoff q (s_Model w) h) in
          if default false handed then ret (true, false)
          else
            forget_handle h ;!
            call_breakers (λ bs _, (Breakers_Release bs ticket, ())) ;!
            call_sig (λ now t, (End t now lease 0, ())) ;!
            ret (false, false)
      | _ => ret (false, true)
      end
  end.

Definition drop_slot (id : string) : M () := modify (λ s,
  let n := (default 0 (r_inflight s !! id) -! 1)%go in
  s <| r_inflight := if n <=? 0 then delete id (r_inflight s) else <[id := n]> (r_inflight s) |>).

Definition releaseSlot (rt : routed) : M () :=
  let w := rt_worker rt in
  call_sig (λ now t, (End t now (rt_lease rt) (rt_cost rt), ())) ;!
  let! hw := handoffLocked w in
  (if hw.1 then ret () else drop_slot (s_WorkerID w)) ;!
  if hw.2 then call_queue (λ q _, Queue_Wake q (s_Model w) 1) ;! ret () else ret ().

(** [release] through a handle: the first call acts. *)
Definition release (h : nat) : M () := λ env s,
  match r_routeds s !! h with
  | Some rt =>
      if rt_released rt then (s, ())
      else releaseSlot rt env (s <| r_routeds := <[h := rt <| rt_released := true |>]> (r_routeds s) |>)
  | None => (s, ())
  end.

(** [charge], through a handle. *)
Definition charge (h : nat) (req : InferenceRequest) : M () := λ env s,
  match r_routeds s !! h with
  | Some rt =>
      if negb (rt_cost rt =? 0) then (s, ())
      else
        let '(s, added) := call_sig (λ _ t, AddCost t (rt_lease rt) (requestCost req)) env s in
        (if default false added then s <| r_routeds := <[h := rt <| rt_cost := requestCost req |>]> (r_routeds s) |> else s, ())
  | None => (s, ())
  end.

(** ** Waking. *)

Definition free_of (now : Time) (w : WorkerSnapshot) : M Z :=
  if negb (schedulable w) then ret 0
  else
  let! ok := call_breakers (λ bs now, Breakers_Admissible bs now (keyOf w)) in
  if negb (default true ok) then ret 0
  else
  let! o := overlay w now in ret (Z.max 0 (s_MaxConcurrency w -! o.1)%go).

Definition freeSlots (model : string) : M Z :=
  let! v := view model in
  match v with
  | None => ret 0
  | Some (workers, now) => let! l := mapM_ (free_of now) workers in ret (foldl (λ a b, (a +! b)%go) 0 l)
  end.

Definition wake_model (model : string) : M () :=
  let! n := freeSlots model in
  if 0 <? n then call_queue (λ q _, Queue_Wake q model n) ;! ret () else ret ().

Definition wakeWaiters : M () :=
  let! models := call_queue (λ q _, (q, Queue_Models q)) in
  mapM_ wake_model (default [] models) ;! ret ().

(** ** Refreshing. *)

(** What [enableLedger] reports of a worker. *)
Definition observation (w : WorkerSnapshot) : Observation :=
  if rc_workAware cfg then
    mkObservation (Tracker.KeyOf w) (wall (s_LastHeartbeat w)) (s_Model w) (ActiveRequests (s_Metrics w)) (RecentTokensPerSecond (s_Metrics w)) (schedulable w)
  else mkObservation (Tracker.KeyOf w) (wall (s_LastHeartbeat w)) "" 0 f0 false.

(** The report on the snapshot just stored: only Refresh stores one, so it is the current one. *)
Definition sync_stored (started : Time) : M () :=
  let! report := call (λ now w,
    match wd_res w, sc_cur (wd_cache w) with
    | Some _, Some s => let '(s, report) := runSync (wd_cache w) s (Sub now started) in (w <| wd_cache := (wd_cache w) <| sc_cur := Some s |> |>, Some report)
    | _, _ => (w, None)
    end) in
  match report with Some (members, models) => sync members models | None => ret () end.

(** [Refresh], for what the registry answered: the workers, or an error and whether the gateway
    is stopping. *)
Definition Refresh (answer : list WorkerSnapshot + bool) : M () :=
  let! started := call (λ now w, (w, now)) in
  match answer with
  | inr ended => call (λ _ w, (w <| wd_cache := Refresh_failed (wd_cache w) ended |>, ()))
  | inl ws =>
      call (λ _ w, (w <| wd_cache := Refresh_reached (wd_cache w) |>, ())) ;!
      call_sig (λ now t, (Sync t now (observation <$> ws), ())) ;!
      call (λ _ w, (w <| wd_cache := Refresh_store (wd_cache w) started ws |>, ())) ;!
      sync_stored started ;!
      wakeWaiters
  end.

(** ** Waiting (resilience_queue.go). *)

Inductive Awaited := ASlot (h : nat) | AReroute | AWait | AShed (e : routeError) | AGone | APanicked | AStuck | ABlocked.

Definition observe_wait (began : Time) : M () := call_queue (λ q now, (Queue_ObserveWait q (Sub now began), ())) ;! ret ().

Definition shed_wait (req : InferenceRequest) (reason : string) : M Awaited :=
  let! retry := call_queue (λ q _, (q, Queue_RetryAfterSeconds q reason)) in
  ret (AShed (mkRouteError (ErrOverloaded reason (ir_Model req) (-1) (default 0 retry)) 0 0 0 reason)).

(** A round of awaitSlot's loop: what the wait ended in, by the case of the select that fired. *)
Definition await_round (req : InferenceRequest) (i : nat) (began : Time) (c : WaitCase) : M Awaited :=
  let! r := call_queue (λ q _, match Queue_Wait q i c with
                               | Some (q, g, out) => (q, Some (g, out))
                               | None => (q, None)
                               end) in
  match r with
  | Some (Some (_, TimedOut)) => observe_wait began ;! shed_wait req OverloadQueueTimeout
  | Some (Some (_, ClientGone)) => ret AGone
  | Some (Some (Some (Handoff h), Granted)) => observe_wait began ;! charge h req ;! ret (ASlot h)
  | Some (Some (Some Flushed, Granted)) => shed_wait req OverloadDraining
  | Some (Some (Some Reroute, Granted)) => ret AReroute
  | _ => ret ABlocked
  end.

(** A round of the inner loop: route again, or park; [AReroute] is another round.  A panic of the
    routing runs the deferred function, which leaves the queue. *)
Definition reroute_round (req : InferenceRequest) (i : nat) (began : Time) : M Awaited :=
  let! r := Route req [] in
  match r with
  | Routed h => call_queue (λ q _, (Queue_Done q i, ())) ;! observe_wait began ;! ret (ASlot h)
  | RoutePanicked =>
      let! g := call_queue (λ q _, Queue_Leave q i) in
      match g with Some (Some (Handoff h)) => release h ;! ret APanicked | _ => ret APanicked end
  | RouteStuck => ret AStuck
  | NotRouted _ | Waiting _ => let! again := call_queue (λ q _, Queue_Park q i) in ret (if default false again then AReroute else AWait)
  end.

(** [shedBeforeLimiter], as far as its decision: the error it answers with, if any. *)
Definition shedBeforeLimiter (model tenant : string) : M (option (string * ApiError)) :=
  let! serves := read_cache (λ now c, Serves c now model) in
  if negb (default false serves) then ret None
  else
  let! busy := call_queue (λ q _, (q, Queue_Busy q model)) in
  if negb (default false busy) then ret None
  else
  let! refusal := call_queue (λ q _, (q, Queue_Refusal q model tenant)) in
  let reason := ShedReason (default None refusal) in
  if String.eqb reason "" then ret None
  else
  let! retry := call_queue (λ q _, (q, Queue_RetryAfterSeconds q reason)) in
  ret (Some (reason, ErrOverloaded reason model (-1) (default 0 retry))).

(** [beginDrain]: the queue closes now, and is flushed when the timer it starts fires. *)
Definition drainFlushMargin : Z := 250 * Millisecond.

Definition beginDrain (shutdownTimeout : Z) : M Z :=
  call_queue (λ q _, (Queue_Close q, ())) ;! ret (Z.max (shutdownTimeout -! drainFlushMargin)%go 0).

Definition drain_fired : M () := call_queue (λ q _, Queue_Flush q "") ;! ret ().
End router.

(** ** The log limiter (resilience.go). *)

Record shedLimiter := mkShedLimiter { sl_last : gmap string Time; sl_suppressed : gmap string Z }.

(** [allow]: the limiter after, whether the shed is logged, and how many were held back. *)
Definition allow (l : shedLimiter) (reason : string) (now : Time) : shedLimiter * (bool * Z) :=
  let held := default 0 (sl_suppressed l !! reason) in
  if match sl_last l !! reason with Some t => (Sub now t <? Second) && (0 <=? Sub now t) | None => false end
  then (mkShedLimiter (sl_last l) (<[reason := (held +! 1)%go]> (sl_suppressed l)), (false, 0))
  else (mkShedLimiter (<[reason := now]> (sl_last l)) (<[reason := 0]> (sl_suppressed l)), (true, held)).
