(* ===== verification/RouterSpec.v ===== *)
(** * What the router guarantees

    For every environment, that is for every interleaving with the other goroutines, clock and
    random numbers: the in-flight counts are the handles not yet released, no worker is given more
    requests than its concurrency, and a routing ends and names only workers of the view that the
    registry offers. *)

From Stdlib Require Import Ascii String SpecFloat.
From S2P Require Import Prelude GoFloat FloatExact GoString GoSort SlidingWindow Breaker Breakers Queue Budget Protocol Cost Scheduler SchedulerSpec History Tracker TrackerSpec Snapshot Api Router.

Local Open Scope string_scope.
Local Open Scope list_scope.
Local Open Scope Z_scope.

(** ** Workers through a routing. *)

(** [w'] is [w] with its age, load and flags changed; it may have lost its eligibility. *)
Record derived (w w' : WorkerSnapshot) : Prop := {
  dv_id : s_WorkerID w' = s_WorkerID w;
  dv_model : s_Model w' = s_Model w;
  dv_address : s_Address w' = s_Address w;
  dv_max : s_MaxConcurrency w' = s_MaxConcurrency w;
  dv_registered : s_RegisteredAt w' = s_RegisteredAt w;
  dv_state : s_State w' = s_State w;
  dv_health : s_Health w' = s_Health w;
  dv_eligible : s_Eligible w' = true → s_Eligible w = true
}.

#[global] Instance derived_preorder : PreOrder derived.
Proof. split; [by intros w; constructor|]. intros a b c [] []. constructor; try congruence; auto. Qed.

Lemma derived_list_refl l : Forall2 derived l l.
Proof. reflexivity. Qed.

Lemma derived_list_trans l1 l2 l3 : Forall2 derived l1 l2 → Forall2 derived l2 l3 → Forall2 derived l1 l3.
Proof. intros. by etrans. Qed.

Lemma derived_ineligible w : derived w (w <| s_Eligible := false |>).
Proof. by constructor. Qed.

Lemma derived_active w n : derived w (set_active w n).
Proof. by constructor. Qed.

Lemma derived_observed w w' o : derived w w' → derived w (w' <| s_Observed := o |>).
Proof. by intros []; constructor. Qed.

Lemma derived_same w c : same_worker w c → derived w c.
Proof. intros [f ->]. by constructor. Qed.

Lemma derived_schedulable w w' : derived w w' → schedulable w' = true → schedulable w = true.
Proof.
  intros [] Hs. unfold schedulable in *. rewrite dv_state0, dv_health0 in Hs. apply andb_true_iff in Hs as [[Hs He]%andb_true_iff Hh].
  by rewrite Hs, Hh, dv_eligible0.
Qed.

Lemma offered_schedulable req w : offered req w = serves req w && schedulable w.
Proof. unfold offered, schedulable. by rewrite <-!andb_assoc. Qed.

#[export] Hint Resolve derived_ineligible derived_active derived_observed derived_same derived_list_refl derived_list_trans : sflow.

(** What the registry says of a worker that the router relies on. *)
Definition sig_of (w : WorkerSnapshot) : string * Z := (s_WorkerID w, s_MaxConcurrency w).

Lemma derived_sig w w' : derived w w' → sig_of w' = sig_of w.
Proof. intros []. unfold sig_of. congruence. Qed.

Lemma derived_sigs l l' : Forall2 derived l l' → sig_of <$> l' = sig_of <$> l.
Proof. induction 1 as [|???? H]; [done|]. csimpl. by rewrite (derived_sig _ _ H), IHForall2. Qed.

(** A choice, whatever the observations, is a worker that may serve. *)
Lemma pick_elem workers idx i c : pick workers idx i = Chosen c → ∃ j, j ∈ idx ∧ workers !! j = Some c.
Proof. unfold pick. intros. repeat case_match; simplify_eq. eauto using list_elem_of_lookup_2. Qed.

Lemma next_of_elem r model workers idx c : (next_of r model workers idx).2 = Chosen c → ∃ j, j ∈ idx ∧ workers !! j = Some c.
Proof. unfold next_of. destruct rotor_next. apply pick_elem. Qed.

Lemma chooseWith_elem load r model workers idx c : (chooseWith load r model workers idx).2 = Chosen c → ∃ j, j ∈ idx ∧ workers !! j = Some c.
Proof. intros (j & [_ Hj]%list_elem_of_filter & Hw)%next_of_elem. eauto. Qed.

Lemma workAware_elem `{GoPlatform} work weights r req workers idx c :
  (workAware_choose work weights r req workers idx).2 = Chosen c → ∃ j w, j ∈ idx ∧ workers !! j = Some w ∧ same_worker w c.
Proof.
  unfold workAware_choose. destruct (negb _).
  - destruct (chooseWith _ _ _ _ _) as [r' sel] eqn:E. destruct sel; [|done|done]. intros [= <-].
    destruct (chooseWith_elem activeLoad r (ir_Model req) workers idx w) as (j & Hj & Hw); [by rewrite E|].
    exists j, w. split_and!; [done|done|by eexists].
  - match goal with |- context [next_of ?a ?b ?c ?d] => set (tied := d); destruct (next_of a b c tied) as [r' sel] eqn:E end.
    destruct sel; [|done|done]. intros [= <-]. destruct (next_of_elem r (ir_Model req) workers tied w) as (j & Hj & Hw); [by rewrite E|].
    apply list_elem_of_filter in Hj as [_ Hj]. exists j, w. split_and!; [done|done|]. repeat case_match; eauto using same_worker_refl, same_worker_flag.
Qed.

Lemma select_elem `{GoPlatform} st r rnd cancelled req workers c :
  (SelectWorker st r rnd cancelled req workers).2 = Chosen c → ∃ w, w ∈ workers ∧ may_serve req w = true ∧ same_worker w c.
Proof.
  unfold SelectWorker. destruct cancelled; [done|]. pose proof (eligible_spec req workers) as Hc. destruct (eligible req workers) as [idx|]; [|done].
  intros Hsel. assert (∃ j w, j ∈ idx ∧ workers !! j = Some w ∧ same_worker w c) as (j & w & Hj & Hw & Hs).
  { destruct st; [..|by eapply workAware_elem];
      [destruct (pick_elem _ _ _ _ Hsel) as (j & ? & ?)|destruct (next_of_elem _ _ _ _ _ Hsel) as (j & ? & ?)
      |destruct (chooseWith_elem _ _ _ _ _ _ Hsel) as (j & ? & ?)]; eauto using same_worker_refl. }
  apply (cd_serves _ _ _ Hc) in Hj as (w' & ? & ?). simplify_eq. exists w'. eauto using list_elem_of_lookup_2.
Qed.

Lemma pick_refused workers idx i e : pick workers idx i ≠ Refused e.
Proof. unfold pick. by repeat case_match. Qed.

Lemma next_of_refused r model workers idx e : (next_of r model workers idx).2 ≠ Refused e.
Proof. unfold next_of. destruct rotor_next. apply pick_refused. Qed.

Lemma workAware_refused `{GoPlatform} work weights r req workers idx e : (workAware_choose work weights r req workers idx).2 ≠ Refused e.
Proof.
  unfold workAware_choose. destruct (negb _).
  - unfold chooseWith. match goal with |- context [next_of ?a ?b ?c ?d] => pose proof (next_of_refused a b c d e); destruct (next_of a b c d) as [? []] end; done.
  - match goal with |- context [next_of ?a ?b ?c ?d] => pose proof (next_of_refused a b c d e); destruct (next_of a b c d) as [? []] end; done.
Qed.

(** A refusal carries the exact counts. *)
Lemma select_refused `{GoPlatform} st r rnd cancelled req workers why :
  (SelectWorker st r rnd cancelled req workers).2 = Refused (ErrNoWorker why) →
  why = mkNoWorkerError (ir_Model req) (countb (serves req) workers) (countb (offered req) workers) (countb (full req) workers).
Proof.
  unfold SelectWorker. destruct cancelled; [done|]. pose proof (eligible_spec req workers) as Hc. destruct (eligible req workers) as [idx|].
  - intros Hsel. exfalso. destruct st;
      [exact (pick_refused _ _ _ _ Hsel)|exact (next_of_refused _ _ _ _ _ Hsel)|exact (next_of_refused _ _ _ _ _ Hsel)|exact (workAware_refused _ _ _ _ _ _ _ Hsel)].
  - intros [= <-]. apply Hc.
Qed.

Lemma countb_zero {A} (p : A → bool) l : countb p l = 0 → Forall (λ x, p x = false) l.
Proof.
  induction l as [|x l IH]; [constructor|]. rewrite countb_cons. pose proof (countb_nonneg p l). intros Hc. destruct (p x) eqn:Hp; cbn in Hc; [lia|].
  constructor; [done|apply IH; lia].
Qed.

Lemma countb_pos {A} (p : A → bool) l : 0 < countb p l → ∃ x, x ∈ l ∧ p x = true.
Proof.
  induction l as [|x l IH]; [done|]. rewrite countb_cons. destruct (p x) eqn:Hp; cbn; [exists x; split; [by left|done]|].
  intros (y & Hy & Hpy)%IH. exists y. split; [by right|done].
Qed.

Lemma derived_elem l l' w : Forall2 derived l l' → w ∈ l' → ∃ v, v ∈ l ∧ derived v w.
Proof.
  intros Hd [i Hi]%list_elem_of_lookup. destruct (Forall2_lookup_r _ _ _ _ _ Hd Hi) as (v & Hv & Hdv). exists v. split; [by eapply list_elem_of_lookup_2|done].
Qed.

(** ** The cached view. *)

(** [ok] is what is assumed of the registry's workers, kept by any part of them. *)
Class ViewRule := { ok : list (string * Z) → Prop; ok_nil : ok []; ok_sub l l' : l' ⊆+ l → ok l → ok l' }.

Definition list_ok `{ViewRule} (model : string) (l : list WorkerSnapshot) : Prop := Forall (λ w, s_Model w = model) l ∧ ok (sig_of <$> l).

Definition cache_ok `{ViewRule} (c : snapshotCache) : Prop :=
  ∀ s model l, sc_cur c = Some s → sn_byModel s !! model = Some l → list_ok model l.

Section View.
Context `{ViewRule}.

Lemma list_ok_derived model l l' : Forall2 derived l l' → list_ok model l → list_ok model l'.
Proof.
  intros Hd [Hm Ho]. split; [|by rewrite (derived_sigs _ _ Hd)]. clear Ho. induction Hd as [|???? []]; [constructor|].
  inversion_clear Hm. constructor; [congruence|auto].
Qed.

Lemma list_ok_filter model l (P : WorkerSnapshot → Prop) `{∀ w, Decision (P w)} : list_ok model l → list_ok model (filter P l).
Proof.
  intros [Hm Ho]. split; [apply Forall_forall; intros w [_ Hw]%list_elem_of_filter; rewrite Forall_forall in Hm; auto|]. eapply ok_sub; [|exact Ho]. apply fmap_submseteq, sublist_submseteq, sublist_filter.
Qed.

Lemma age_worker_same suspectAfter age w :
  s_Model (age_worker suspectAfter age w) = s_Model w ∧ sig_of (age_worker suspectAfter age w) = sig_of w.
Proof. unfold age_worker. by case_match. Qed.

Lemma age_list_ok c model l age : list_ok model l → list_ok model (age_list c l age).
Proof.
  intros [Hm Ho]. unfold age_list. split.
  - apply Forall_fmap. eapply Forall_impl; [exact Hm|]. intros w Hw. cbn. by rewrite (proj1 (age_worker_same _ _ w)).
  - rewrite <-list_fmap_compose. erewrite list_fmap_ext; [exact Ho|]. intros i w _. apply age_worker_same.
Qed.

Lemma workers_of_ok c s model : cache_ok c → sc_cur c = Some s → list_ok model (workers_of s model).
Proof.
  intros Hc Hs. unfold workers_of. destruct (sn_byModel s !! model) as [l|] eqn:Hl; [by eapply Hc|]. split; [constructor|apply ok_nil].
Qed.

Lemma viewAt_ok c now model l t : cache_ok c → viewAt c now model = Some (l, t) → list_ok model l.
Proof.
  intros Hc. unfold viewAt, fresh. destruct (sc_cur c) as [s|] eqn:Hs; [|done]. case_match; [|done]. intros. simplify_eq.
  apply age_list_ok. by eapply workers_of_ok.
Qed.

Lemma cache_worker_spec c now model id w : cache_worker c now model id = Some w → s_WorkerID w = id.
Proof.
  unfold cache_worker. intros. repeat case_match; simplify_eq.
  match goal with H : String.eqb _ _ = true |- _ => apply String.eqb_eq in H as <- end.
  match goal with |- s_WorkerID (age_worker ?a ?b ?w) = _ => destruct (age_worker_same a b w) as [_ [=]] end. done.
Qed.

(** *** Storing. *)

Lemma by_model_ok `{UrlParser} ws done by_ :
  (∀ model l, by_ !! model = Some l → Forall (λ w, s_Model w = model) l ∧ sig_of <$> l ⊆+ sig_of <$> done) →
  ∀ model l, foldl by_model_step by_ ws !! model = Some l → Forall (λ w, s_Model w = model) l ∧ sig_of <$> l ⊆+ sig_of <$> (done ++ ws).
Proof.
  revert done by_. induction ws as [|w ws IH]; intros dn by_ Hby; [by rewrite app_nil_r|]. cbn [foldl].
  rewrite cons_middle, app_assoc. apply IH. clear IH. intros model l. unfold by_model_step.
  set (w' := if negb _ then _ else w).
  assert (s_Model w' = s_Model w ∧ sig_of w' = sig_of w) as [Hm Hs] by (subst w'; by case_match). clearbody w'. rewrite fmap_app.
  destruct (decide (s_Model w' = model)) as [<-|Hne].
  - rewrite lookup_insert_eq. intros [= <-]. rewrite fmap_app. csimpl. rewrite Hs.
    destruct (by_ !! s_Model w') as [l0|] eqn:Hl; cbn [default from_option].
    + destruct (Hby _ _ Hl) as [Hf Hsub]. split; [by apply Forall_app; split; [|repeat constructor]|]. by apply submseteq_app.
    + split; [by repeat constructor|]. csimpl. apply submseteq_inserts_l. done.
  - rewrite lookup_insert_ne by done. intros [Hf Hsub]%Hby. split; [done|]. by apply submseteq_inserts_r.
Qed.

Lemma Refresh_store_ok `{UrlParser} c started ws : ok (sig_of <$> ws) → cache_ok (Refresh_store c started ws).
Proof.
  intros Hok s model l. cbn. intros [= <-]. cbn. rewrite lookup_fmap. intros (l0 & Hl & ->)%fmap_Some.
  edestruct (by_model_ok ws [] ∅) as [Hm Hs]; [|exact Hl|]; [by intros ??; rewrite lookup_empty|].
  split; [by rewrite sort_by_perm|]. eapply ok_sub; [|exact Hok]. by rewrite sort_by_perm.
Qed.

Lemma runSync_byModel `{GoPlatform} `{GoMapOrder} c s age : sn_byModel (runSync c s age).1 = sn_byModel s.
Proof. unfold runSync. by repeat case_match. Qed.

Lemma syncAged_ok `{GoPlatform} `{GoMapOrder} c s age : cache_ok c → cache_ok (syncAged c s age).1.
Proof.
  intros Hc. unfold syncAged. destruct (sc_cur c) as [s'|] eqn:Hs; [|done]. case_match; [done|].
  destruct (runSync c s' age) as [s1 report] eqn:Hr. cbn. intros s2 model l [= <-] Hl. eapply Hc; [done|].
  by rewrite <-(runSync_byModel c s' age), Hr.
Qed.
End View.

(** ** Reasoning about router computations. *)

(** The state under the router's lock: the counts and the handles. *)
Definition Core : Type := gmap string Z * gmap nat routed * nat.
Definition core (s : RState) : Core := (r_inflight s, r_routeds s, r_next s).

(** Other goroutines keep the view's rule: only a refresh stores a view. *)
Definition env_ok `{ViewRule} (env : Env) : Prop := ∀ i w, cache_ok (wd_cache w) → cache_ok (wd_cache (env_world env i w)).

(** A state with this core and a good view. *)
Definition at_core `{ViewRule} (c : Core) (s : RState) : Prop := core s = c ∧ cache_ok (wd_cache (r_world s)).

Section Triples.
Context `{ViewRule} `{GoPlatform} `{GoMapOrder} `{GoMath} `{UrlParser} (cfg : RouterCfg) (env : Env) (Henv : env_ok env).

Definition triple {A} (P : RState → Prop) (m : M A) (Q : A → RState → Prop) : Prop := ∀ s, P s → Q (m env s).2 (m env s).1.

(** A computation that changes neither the counts nor the handles. *)
Definition quiet {A} (m : M A) (Q : A → Prop) : Prop := ∀ c, triple (at_core c) m (λ a s, at_core c s ∧ Q a).

Lemma triple_bind {A B} P Q R (m : M A) (f : A → M B) : triple P m Q → (∀ a, triple (Q a) (f a) R) → triple P (bind m f) R.
Proof. intros Hm Hf s Hs. unfold bind. specialize (Hm s Hs). destruct (m env s) as [s' a]. by apply Hf. Qed.

Lemma triple_step {A B} P (Q : A → Prop) R (m : M A) (f : A → M B) :
  triple P m (λ a s, P s ∧ Q a) → (∀ a, Q a → triple P (f a) R) → triple P (bind m f) R.
Proof. intros Hm Hf. eapply triple_bind; [apply Hm|]. intros a s [Hs Ha]. by apply Hf. Qed.

Lemma triple_quiet {A B} c Q R (m : M A) (f : A → M B) :
  quiet m Q → (∀ a, Q a → triple (at_core c) (f a) R) → triple (at_core c) (bind m f) R.
Proof. intros Hm. apply triple_step, Hm. Qed.

Lemma triple_pure {A} (P : RState → Prop) (φ : Prop) (m : M A) Q : (φ → triple P m Q) → triple (λ s, P s ∧ φ) m Q.
Proof. intros Hm s [Hs Hp]. by apply Hm. Qed.

Lemma triple_ret {A} (P : RState → Prop) (Q : A → RState → Prop) a : (∀ s, P s → Q a s) → triple P (ret a) Q.
Proof. intros Hq s Hs. by apply Hq. Qed.

Lemma triple_post {A} P (Q R : A → RState → Prop) m : triple P m Q → (∀ a s, Q a s → R a s) → triple P m R.
Proof. intros Hm Hr s Hs. apply Hr, Hm, Hs. Qed.

Lemma quiet_bind {A B} Q (R : B → Prop) (m : M A) (f : A → M B) : quiet m Q → (∀ a, Q a → quiet (f a) R) → quiet (bind m f) R.
Proof. intros Hm Hf c. eapply triple_quiet; [exact Hm|]. intros a Ha. by apply Hf. Qed.

Lemma quiet_ret {A} (Q : A → Prop) a : Q a → quiet (ret a) Q.
Proof. intros Ha c s Hs. done. Qed.

Lemma quiet_post {A} (Q R : A → Prop) m : quiet m Q → (∀ a, Q a → R a) → quiet m R.
Proof. intros Hm Hr c s Hs. destruct (Hm c s Hs). auto. Qed.

Lemma quiet_any {A} (Q : A → Prop) m : quiet m Q → quiet m (λ _, True).
Proof. intros Hm. by eapply quiet_post. Qed.

Lemma quiet_ask {A} (f : Env → nat → A) : quiet (ask f) (λ _, True).
Proof. by intros c s Hs. Qed.

Lemma quiet_call {A} (f : Time → World → World * A) (Q : A → Prop) :
  (∀ now w, cache_ok (wd_cache w) → cache_ok (wd_cache (f now w).1) ∧ Q (f now w).2) → quiet (call f) Q.
Proof.
  intros Hf c s [Hc Hv]. unfold call. destruct (Hf (env_now env (r_calls s)) (env_world env (r_calls s) (r_world s))) as [Hv' Hq]; [by apply Henv|].
  destruct (f _ _) as [w a]. done.
Qed.

Lemma quiet_res {A} (f : Time → Res → Res * A) (Q : A → Prop) : (∀ now rs, Q (f now rs).2) → quiet (call_res f) (λ o, ∀ a, o = Some a → Q a).
Proof.
  intros Hf. apply quiet_call. intros now w Hw. destruct (wd_res w) as [rs|]; [|done]. specialize (Hf now rs). destruct (f now rs) as [rs' a].
  split; [done|]. by intros ? [= <-].
Qed.

Lemma quiet_sig {A} (f : Time → Tracker → Tracker * A) (Q : A → Prop) : (∀ now t, Q (f now t).2) → quiet (call_sig f) (λ o, ∀ a, o = Some a → Q a).
Proof.
  intros Hf. apply quiet_call. intros now w Hw. destruct (wd_sig w) as [t|]; [|done]. specialize (Hf now t). destruct (f now t) as [t' a].
  split; [done|]. by intros ? [= <-].
Qed.

Lemma quiet_breakers {A} (f : Breakers → Time → Breakers * list Change * A) (Q : A → Prop) :
  (∀ bs now, Q (f bs now).2) → quiet (call_breakers f) (λ o, ∀ a, o = Some a → Q a).
Proof.
  intros Hf. apply quiet_res. intros now rs. unfold with_breakers. specialize (Hf (rl_breakers rs) now). by destruct (f _ _) as [[??]?].
Qed.

Lemma quiet_queue {A} (f : Queue nat → Time → Queue nat * A) (Q : A → Prop) : (∀ q now, Q (f q now).2) → quiet (call_queue f) (λ o, ∀ a, o = Some a → Q a).
Proof. intros Hf. apply quiet_res. intros now rs. specialize (Hf (rl_waitq rs) now). by destruct (f _ _). Qed.

Lemma quiet_cache {A} (f : Time → snapshotCache → A) (Q : A → Prop) : (∀ now c, cache_ok c → Q (f now c)) → quiet (read_cache f) Q.
Proof. intros Hf. apply quiet_call. intros now w Hw. split; [done|]. by apply Hf. Qed.

Lemma quiet_mapM {A B} (f : A → M B) (Q : A → B → Prop) l : (∀ a, quiet (f a) (Q a)) → quiet (mapM_ f l) (Forall2 Q l).
Proof.
  intros Hf. induction l as [|a l IH]; [by apply quiet_ret|]. cbn [mapM_]. eapply quiet_bind; [apply Hf|]. intros b Hb. cbn.
  eapply quiet_bind; [apply IH|]. intros bs Hbs. apply quiet_ret. by constructor.
Qed.
End Triples.

(** Calls whose answer does not matter. *)
Ltac quiet_call_any :=
  first [apply quiet_ask
        |eapply quiet_any; apply quiet_breakers with (Q := λ _, True); done
        |eapply quiet_any; apply quiet_queue with (Q := λ _, True); done
        |eapply quiet_any; apply quiet_sig with (Q := λ _, True); done
        |eapply quiet_any; apply quiet_res with (Q := λ _, True); done].

Ltac quiet_go :=
  repeat first [apply quiet_ret; done
               |eapply quiet_bind; [quiet_call_any|intros ? _]
               |eapply quiet_bind; [apply quiet_ret; exact I|intros ? _]
               |quiet_call_any
               |case_match].

(** ** The operations. *)

Section Operations.
Context `{ViewRule} `{GoPlatform} `{GoMapOrder} `{GoMath} `{UrlParser} (cfg : RouterCfg) (env : Env) (Henv : env_ok env).

Lemma quiet_deliver fuel : quiet env (deliver fuel) (λ _, True).
Proof.
  induction fuel as [|fuel IH]; [by apply quiet_ret|]. cbn [deliver]. eapply quiet_bind; [quiet_call_any|]. intros batch _. case_match; [by apply quiet_ret|].
  eapply quiet_bind; [apply quiet_mapM with (Q := λ _ _, True); intros; quiet_call_any|]. intros evs _.
  eapply quiet_bind; [exact IH|]. intros more _. by apply quiet_ret.
Qed.

Lemma quiet_flush_rounds fuel : quiet env (flush_rounds fuel) (λ _, True).
Proof.
  induction fuel as [|fuel IH]; [by apply quiet_ret|]. cbn [flush_rounds]. eapply quiet_bind; [quiet_call_any|]. intros mine _. case_match; [by apply quiet_ret|].
  eapply quiet_bind; [apply quiet_deliver|]. intros evs _. do 2 (eapply quiet_bind; [quiet_call_any|]; intros ? _).
  eapply quiet_bind; [quiet_call_any|]. intros more _. case_match; [|by apply quiet_ret]. eapply quiet_bind; [exact IH|]. intros rest _. by apply quiet_ret.
Qed.

Lemma quiet_flush : quiet env flush (λ _, True).
Proof. eapply quiet_bind; [apply quiet_ask|]. intros n _. apply quiet_flush_rounds. Qed.

Lemma quiet_sync members models : quiet env (sync members models) (λ _, True).
Proof. unfold sync. do 5 (eapply quiet_bind; [quiet_call_any|intros ? _]). eapply quiet_bind; [apply quiet_flush|]. intros _ _. by apply quiet_ret. Qed.

Lemma quiet_sync_aged s age : quiet env (sync_aged s age) (λ _, True).
Proof.
  unfold sync_aged. eapply quiet_bind; [apply quiet_ask|]. intros [] _; [by apply quiet_ret|].
  eapply quiet_bind with (Q := λ _, True).
  - apply quiet_call; [done|]. intros now w Hw. destruct (wd_res w); [|done]. pose proof (syncAged_ok (wd_cache w) s age Hw) as Hs.
    by destruct (syncAged (wd_cache w) s age).
  - intros [[]|] _; [apply quiet_sync|by apply quiet_ret].
Qed.

Lemma quiet_view model : quiet env (view model) (λ v, ∀ l t, v = Some (l, t) → list_ok model l).
Proof.
  unfold view. eapply quiet_bind with (Q := λ x, ∀ l t, x.2 = Some (l, t) → list_ok model l).
  - apply quiet_cache; [done|]. intros now c Hc l t. cbn. by apply viewAt_ok.
  - intros [[[[s age] []]|] v] Hv; cbn in Hv; [|by apply quiet_ret..].
    eapply quiet_bind; [apply quiet_sync_aged|]. intros _ _. by apply quiet_ret.
Qed.

(** The view a routing reads: the cache's at its first call. *)
Definition view_read (s : RState) (model : string) : option (list WorkerSnapshot * Time) :=
  viewAt (wd_cache (env_world env (r_calls s) (r_world s))) (env_now env (r_calls s)) model.

Lemma view_result model s : (view model env s).2 = view_read s model.
Proof.
  unfold view, bind, read_cache, call, view_read. cbv beta iota. destruct (fresh _ _) as [[[sn age] []]|]; [|done..].
  match goal with |- context [sync_aged ?a ?b ?e ?s] => by destruct (sync_aged a b e s) end.
Qed.

(** *** The overlay. *)

Definition local_of (c : Core) (id : string) : Z := default 0 (c.1.1 !! id).

(** The load a worker is shown with covers what this gateway has on it. *)
Definition load_ok (c : Core) (w : WorkerSnapshot) : Prop := Z.min (local_of c (s_WorkerID w)) maxCount ≤ ActiveRequests (s_Metrics w).

Lemma overlay_covers t now i : Z.min (i_Local i) maxCount ≤ rs_Active (overlayLocked t now i).2.
Proof. pose proof (overlay_bounds t now i). unfold clampCount in *. lia. Qed.

Lemma load_active t now i : EffectiveActive (Load t now i).2 = rs_Active (overlayLocked t now (li_Input i)).2.
Proof. unfold Load. destruct (overlayLocked t now (li_Input i)) as [t' r]. unfold Result_Observed. repeat case_match; by cbn. Qed.

Lemma triple_local {B} c w (f : Z → M B) R :
  triple env (at_core c) (f (local_of c (s_WorkerID w))) R → triple env (at_core c) (bind (local_load w) f) R.
Proof. intros Hf s [Hc Hv]. unfold bind, local_load, gets. replace (r_inflight s) with c.1.1 by (by rewrite <-Hc). by apply Hf. Qed.

Lemma triple_overlay c w now :
  triple env (at_core c) (overlay w now) (λ o s, at_core c s ∧ Z.min (local_of c (s_WorkerID w)) maxCount ≤ o.1).
Proof.
  unfold overlay. apply triple_local. set (n := local_of _ _).
  eapply triple_quiet; [apply quiet_sig with (Q := λ r, Z.min n maxCount ≤ rs_Active r); [done|]; intros; apply (overlay_covers _ _ (overlay_input w now n))|].
  intros [r|] Hr; apply triple_ret; intros s Hs; (split; [done|]); cbn; [by apply Hr|lia].
Qed.

Lemma triple_overlay_plain c viewAt w :
  triple env (at_core c) (overlay_plain viewAt w) (λ w' s, at_core c s ∧ derived w w' ∧ load_ok c w').
Proof.
  unfold overlay_plain. eapply triple_step; [apply triple_overlay|]. intros [n [r|]] Hn; apply triple_ret; intros s Hs;
    (split; [done|]); split; auto with sflow.
Qed.

Lemma triple_overlay_work c viewAt req w :
  triple env (at_core c) (overlay_work cfg viewAt req w) (λ w' s, at_core c s ∧ derived w w' ∧ load_ok c w').
Proof.
  unfold overlay_work. apply triple_local. set (n := local_of _ _).
  eapply triple_quiet; [apply quiet_sig with (Q := λ o, Z.min n maxCount ≤ EffectiveActive o); [done|]|].
  - intros _ t. rewrite load_active. apply (overlay_covers _ _ (overlay_input w viewAt n)).
  - intros [o|] Ho; [|apply triple_overlay_plain]. apply triple_ret. intros s Hs. split; [done|]. split; [auto with sflow|by apply Ho].
Qed.

Lemma triple_mapM {A B} c (f : A → M B) (Q : A → B → Prop) l :
  (∀ a, triple env (at_core c) (f a) (λ b s, at_core c s ∧ Q a b)) → triple env (at_core c) (mapM_ f l) (λ bs s, at_core c s ∧ Forall2 Q l bs).
Proof.
  intros Hf. induction l as [|a l IH]; [apply triple_ret; by intros|]. cbn [mapM_]. eapply triple_step; [apply Hf|]. intros b Hb.
  eapply triple_step; [apply IH|]. intros bs Hbs. apply triple_ret. intros s Hs. split; [done|by constructor].
Qed.

Lemma triple_overlay_all c viewAt req l :
  triple env (at_core c) (overlay_all cfg viewAt req l) (λ l' s, at_core c s ∧ Forall2 derived l l' ∧ Forall (load_ok c) l').
Proof.
  eapply triple_post; [apply triple_mapM with (Q := λ w w', derived w w' ∧ load_ok c w')|].
  - intros w. destruct (rc_workAware cfg); [apply triple_overlay_work|apply triple_overlay_plain].
  - intros l' s [Hs Hl]. split; [done|]. induction Hl as [|???? [??] ? IH]; [done|]. destruct IH. by split; constructor.
Qed.

(** *** Reserving. *)

Definition ids (l : list WorkerSnapshot) : list string := s_WorkerID <$> l.

Definition taken (c : Core) (id : string) : Core := (<[id := (local_of c id +! 1)%go]> c.1.1, c.1.2, c.2).

(** A ticket for the worker, or none when the breakers are off. *)
Definition ticket_for (w : WorkerSnapshot) (t : Ticket) : Prop := t = zeroTicket ∨ (t_valid t = true ∧ Breakers.t_key t = keyOf w).

(** What a reservation among [l] may end in. *)
Definition reserved_ok (req : InferenceRequest) (wait : option string) (l : list WorkerSnapshot) (c : Core) (r : Reserved) (s : RState) : Prop :=
  match r with
  | RChosen w ticket _ _ =>
      at_core (taken c (s_WorkerID w)) s ∧ offered req w = true ∧ Z.min (local_of c (s_WorkerID w)) maxCount < s_MaxConcurrency w ∧
      ticket_for w ticket ∧ ∃ v, v ∈ l ∧ derived v w
  | RWaiter _ => at_core c s ∧ wait ≠ None ∧ ∃ v, v ∈ l ∧ schedulable v = true
  | RRefused e => at_core c s ∧ (ae_Code (ro_Error e) = CodeModelNotFound → Forall (λ w, serves req w = false) l)
  | RPanicked => at_core c s
  | RStuck => at_core c s ∧ ¬ NoDup (ids l)
  end.

Lemma acquire_ticket bs now k : (Breakers_Acquire bs now k).2.2 = true → t_valid (Breakers_Acquire bs now k).2.1 = true ∧ Breakers.t_key (Breakers_Acquire bs now k).2.1 = k.
Proof. unfold Breakers_Acquire. repeat case_match; by cbn. Qed.

Lemma enqueue_ok req wait l c tenant counts :
  wait ≠ None → (∃ v, v ∈ l ∧ schedulable v = true) → triple env (at_core c) (enqueueLocked req tenant counts) (reserved_ok req wait l c).
Proof.
  intros Hw Hv. unfold enqueueLocked. eapply triple_quiet; [quiet_call_any|]. intros [[i|[]]|] _; try by apply triple_ret.
  all: eapply triple_quiet; [quiet_call_any|]; intros retry _; apply triple_ret; intros s Hs; by split.
Qed.

Lemma refuse_ok req wait l ws c broke none :
  Forall2 derived l ws → none = mkNoWorkerError (ir_Model req) (countb (serves req) ws) (countb (offered req) ws) (countb (SchedulerSpec.full req) ws) →
  triple env (at_core c) (refuse_route req broke wait none) (reserved_ok req wait l c).
Proof.
  intros Hd ->. unfold refuse_route. case_match eqn:Hu.
  { apply triple_ret. intros s Hs. split; [done|]. intros _. apply Z.eqb_eq in Hu. cbn in Hu. apply countb_zero in Hu.
    clear -Hd Hu. induction Hd as [|???? [] ? IH]; [constructor|]. inversion_clear Hu. constructor; [|auto]. unfold serves in *. congruence. }
  eapply triple_quiet; [by apply quiet_cache with (Q := λ _, True)|]. intros [] _; [by apply triple_ret|].
  eapply triple_quiet with (Q := λ _, True); [case_match; [quiet_call_any|by apply quiet_ret]|]. intros retry _.
  set (counts := match retry with Some _ => _ | None => _ end).
  assert (ae_Code (ro_Error counts) = CodeNoCapacity ∧ ro_Eligible counts = countb (offered req) ws) as [Hcode Hel] by (subst counts; by destruct retry).
  clearbody counts. assert (triple env (at_core c) (ret (RRefused counts)) (reserved_ok req wait l c)) as Hr.
  { apply triple_ret. intros s Hs. split; [done|]. by rewrite Hcode. }
  destruct wait as [tenant|]; [|done]. destruct (routeError_full counts) eqn:Hf; [|done]. apply enqueue_ok; [done|].
  unfold routeError_full in Hf. rewrite Hel in Hf. repeat rewrite andb_true_iff in Hf. destruct Hf as [[_ Hpos%Z.ltb_lt] _].
  apply countb_pos in Hpos as (w & Hw & Ho). destruct (derived_elem _ _ _ Hd Hw) as (v & Hv & Hvw). exists v. split; [done|].
  eapply derived_schedulable; [done|]. rewrite offered_schedulable in Ho. by apply andb_true_iff in Ho as [_ ?].
Qed.

Lemma select_ok c req ws :
  triple env (at_core c) (select cfg req ws) (λ sel s, at_core c s ∧
    match sel with
    | Chosen w => ∃ v, v ∈ ws ∧ may_serve req v = true ∧ same_worker v w
    | Refused (ErrNoWorker why) =>
        why = mkNoWorkerError (ir_Model req) (countb (serves req) ws) (countb (offered req) ws) (countb (SchedulerSpec.full req) ws)
    | _ => True
    end).
Proof.
  intros s Hs. unfold select. set (rnd := env_rnd _ _). set (cn := env_cancelled _ _).
  pose proof (select_elem (rc_sched cfg) (r_rotor s) rnd cn req ws) as He. pose proof (select_refused (rc_sched cfg) (r_rotor s) rnd cn req ws) as Hr.
  destruct (SelectWorker _ _ _ _ _ _) as [r sel]. split; [done|]. cbn in *. destruct sel as [w|[|why]|]; auto.
Qed.

Lemma take_slot_ok req wait l c w ticket :
  offered req w = true → Z.min (local_of c (s_WorkerID w)) maxCount < s_MaxConcurrency w → ticket_for w ticket → (∃ v, v ∈ l ∧ derived v w) →
  triple env (at_core c) (take_slot cfg req w ticket) (reserved_ok req wait l c).
Proof.
  intros Ho Hf Ht Hv. unfold take_slot. eapply triple_bind with (Q := λ _, at_core (taken c (s_WorkerID w))).
  - intros s [<- Hs]. done.
  - intros _. eapply triple_quiet; [quiet_call_any|]. intros [tok|] _; [|by apply triple_ret].
    eapply triple_quiet; [quiet_call_any|]. intros added _. eapply triple_quiet with (Q := λ _, True); [case_match; [quiet_call_any|by apply quiet_ret]|].
    intros _ _. by apply triple_ret.
Qed.

(** Marking a chosen worker leaves one eligible worker less. *)
Definition elig (l : list WorkerSnapshot) : Z := countb s_Eligible l.

Lemma mark_derived id ws : Forall2 derived ws (mark_ineligible id ws).
Proof. induction ws as [|w ws IH]; [constructor|]. cbn. case_match; constructor; auto with sflow. reflexivity. Qed.

Lemma mark_load c id ws : Forall (load_ok c) ws → Forall (load_ok c) (mark_ineligible id ws).
Proof. induction 1 as [|w ws Hw]; [constructor|]. cbn. case_match; by constructor. Qed.

Lemma mark_elig ws w : NoDup (ids ws) → w ∈ ws → s_Eligible w = true → elig (mark_ineligible (s_WorkerID w) ws) = elig ws - 1.
Proof.
  unfold elig, ids. induction ws as [|x ws IH]; intros Hnd Hw He; [by apply elem_of_nil in Hw|]. csimpl in Hnd. apply NoDup_cons in Hnd as [Hx Hnd]. cbn [mark_ineligible].
  apply elem_of_cons in Hw as [->|Hw].
  - rewrite String.eqb_refl, !countb_cons, He. cbn. lia.
  - destruct (String.eqb_spec (s_WorkerID x) (s_WorkerID w)) as [Hid|_]; [|rewrite !countb_cons, IH by done; lia].
    destruct Hx. rewrite Hid. by apply list_elem_of_fmap_2.
Qed.

Lemma derived_ids l l' : Forall2 derived l l' → ids l' = ids l.
Proof. intros Hd. apply derived_sigs in Hd. apply (f_equal (fmap fst)) in Hd. by rewrite <-!list_fmap_compose in Hd. Qed.

Lemma reserve_loop_ok req wait l c fuel ws broke :
  Forall2 derived l ws → Forall (load_ok c) ws → (NoDup (ids l) → elig ws < Z.of_nat fuel) →
  triple env (at_core c) (reserve_loop cfg fuel req ws broke wait) (reserved_ok req wait l c).
Proof.
  revert ws broke. induction fuel as [|fuel IH]; intros ws broke Hd Hl Hn.
  { apply triple_ret. intros s Hs. split; [done|]. intros Hnd. specialize (Hn Hnd). pose proof (countb_nonneg s_Eligible ws). unfold elig in Hn. lia. }
  cbn [reserve_loop]. eapply triple_step; [apply select_ok|]. intros [w|[|why]|] Hsel; [|by apply triple_ret|by eapply refuse_ok|by apply triple_ret].
  destruct Hsel as (v & Hv & Hm & Hs). apply andb_true_iff in Hm as [Ho Hlt%Z.ltb_lt].
  pose proof Hl as Hload. rewrite Forall_forall in Hload. specialize (Hload v Hv). unfold load_ok in Hload.
  assert (offered req w = true) as How by (destruct Hs as [f ->]; done). apply derived_same in Hs.
  assert (Z.min (local_of c (s_WorkerID w)) maxCount < s_MaxConcurrency w) as Hfit by (rewrite (dv_id _ _ Hs), (dv_max _ _ Hs); lia).
  assert (∃ u, u ∈ l ∧ derived u w) as Hu by (destruct (derived_elem _ _ _ Hd Hv) as (u & ? & ?); exists u; split; [done|by etrans]).
  eapply triple_quiet; [apply quiet_breakers with (Q := λ r, r.2 = true → t_valid r.1 = true ∧ Breakers.t_key r.1 = keyOf w); [done|]; intros; by apply acquire_ticket|].
  intros [[ticket []]|] Ht; [apply take_slot_ok; [done..| |done]| |apply take_slot_ok; [done..|by left|done]].
  - right. by apply (Ht (ticket, true)).
  - apply IH; [by eapply derived_list_trans, mark_derived|by apply mark_load|]. intros Hnd. rewrite (dv_id _ _ Hs), mark_elig; [specialize (Hn Hnd); lia| |done|].
    + by rewrite (derived_ids _ _ Hd).
    + unfold offered in Ho. repeat rewrite andb_true_iff in Ho. tauto.
Qed.

Lemma reservation_ok req wait l ws c viewAt broke :
  Forall2 derived l ws → triple env (at_core c) (reserve cfg req ws viewAt broke wait) (reserved_ok req wait l c).
Proof.
  intros Hd. unfold reserve. set (go := bind (overlay_all _ _ _ _) _).
  assert (triple env (at_core c) go (reserved_ok req wait l c)) as Hgo.
  { unfold go. eapply triple_step; [apply triple_overlay_all|]. intros ws' [Hd' Hl']. apply reserve_loop_ok; [by eapply derived_list_trans|done|].
    intros _. pose proof (countb_length s_Eligible ws'). unfold elig. lia. }
  destruct wait as [tenant|]; [|done]. destruct (anySchedulable ws) eqn:Ha; [|done].
  eapply triple_quiet; [quiet_call_any|]. intros [[]|] _; [|done|by apply triple_ret]. apply enqueue_ok; [done|].
  apply existsb_exists in Ha as (w & Hw%list_elem_of_In & Hs). destruct (derived_elem _ _ _ Hd Hw) as (v & ? & ?). exists v. split; [done|by eapply derived_schedulable].
Qed.

(** *** Routing. *)

Lemma quiet_filter_broken ws : quiet env (filter_broken ws) (λ r, Forall2 derived ws r.1).
Proof.
  unfold filter_broken. eapply quiet_bind; [quiet_call_any|]. intros n _. case_match; [|by apply quiet_ret].
  eapply quiet_bind; [apply quiet_mapM with (Q := λ w r, derived w r.1)|].
  - intros w. unfold admissible_pass. case_match; [|by apply quiet_ret]. eapply quiet_bind; [quiet_call_any|]. intros o _. apply quiet_ret.
    case_match; [reflexivity|apply derived_ineligible].
  - intros r Hr. apply quiet_ret. cbn. by apply Forall2_fmap_r.
Qed.

(** The core with a new handle. *)
Definition allocated (c : Core) (rt : routed) : Core := (c.1.1, <[c.2 := rt]> c.1.2, S c.2).

Lemma newRouted_ok c w ticket lease cost pred :
  triple env (at_core c) (newRouted w ticket lease cost pred)
    (λ h s, at_core (allocated c (mkRouted w ticket lease cost false pred (trimSlash (s_Address w)))) s ∧ h = c.2).
Proof. intros s [<- Hs]. done. Qed.

(** What a routing that reads the view [v] may end in. *)
Definition routing_ok (req : InferenceRequest) (wait : option string) (exclude : list string) (v : option (list WorkerSnapshot * Time)) (c : Core)
  (r : Routing) (s : RState) : Prop :=
  match r with
  | Routed h => ∃ l t u rt,
      v = Some (l, t) ∧ u ∈ l ∧ (s_WorkerID u ∉ exclude) ∧ derived u (rt_worker rt) ∧ offered req (rt_worker rt) = true ∧
      Z.min (local_of c (s_WorkerID u)) maxCount < s_MaxConcurrency u ∧ ticket_for u (rt_ticket rt) ∧
      rt_released rt = false ∧ ok [sig_of u] ∧ h = c.2 ∧ at_core (allocated (taken c (s_WorkerID u)) rt) s
  | Waiting _ => at_core c s ∧ wait ≠ None ∧ ∃ l t u, v = Some (l, t) ∧ u ∈ l ∧ schedulable u = true
  | NotRouted e =>
      at_core c s ∧ (v = None → e = plain ErrWorkerUnavailable) ∧ (ae_Code (ro_Error e) = CodeModelNotFound → ∃ t, v = Some ([], t))
  | RoutePanicked => at_core c s
  | RouteStuck => at_core c s ∧ ∃ l t, v = Some (l, t) ∧ ¬ NoDup (ids l)
  end.

Lemma view_read_ok c model v :
  triple env (λ s, at_core c s ∧ view_read s model = v) (view model)
    (λ a s, at_core c s ∧ a = v ∧ (∀ l t, v = Some (l, t) → list_ok model l)).
Proof. intros s [Hs <-]. destruct (quiet_view model c s Hs) as [Hs' Hv]. rewrite view_result in *. done. Qed.

Lemma none_served req model l : ir_Model req = model → Forall (λ w, s_Model w = model) l → Forall (λ w, serves req w = false) l → l = [].
Proof.
  intros <- Hm Hs. destruct l as [|w l]; [done|]. inversion_clear Hm as [|?? Hw]. inversion_clear Hs as [|?? Hn]. unfold serves in Hn.
  by rewrite Hw, String.eqb_refl in Hn.
Qed.

Lemma route_ok req wait exclude v c :
  triple env (λ s, at_core c s ∧ view_read s (ir_Model req) = v) (route cfg req wait exclude) (routing_ok req wait exclude v c).
Proof.
  unfold route. eapply triple_bind; [apply view_read_ok|]. intros a. apply triple_pure. intros [-> Hv].
  destruct v as [[all t]|]; [|by apply triple_ret]. destruct (Hv all t eq_refl) as [Hmodel Hok]. clear Hv.
  set (l := filter _ all). destruct (andb _ _) eqn:Hex; [by apply triple_ret|].
  eapply triple_quiet; [apply quiet_filter_broken|]. intros [ws broke] Hd. cbn [fst snd] in *. eapply triple_bind; [by apply (reservation_ok req wait l ws c)|].
  assert (∀ u, u ∈ l → u ∈ all ∧ s_WorkerID u ∉ exclude) as Hl by (intros u [??]%list_elem_of_filter; done).
  intros [w ticket lease cost|i|e| |].
  - apply triple_pure. intros (Ho & Hf & Ht & u & Hu & Hdu). destruct (Hl u Hu). eapply triple_bind; [apply newRouted_ok|]. intros h. apply triple_ret.
    intros s [Hs ->]. match type of Hs with at_core (allocated _ ?rt) _ => exists all, t, u, rt end. rewrite <-(dv_id _ _ Hdu), <-(dv_max _ _ Hdu).
    split_and!; try done; [by rewrite (dv_id _ _ Hdu)| |].
    + destruct Ht as [?|[? Hk]]; [by left|right; split; [done|]]. cbn. rewrite Hk. unfold keyOf. by rewrite (dv_id _ _ Hdu), (dv_registered _ _ Hdu).
    + eapply ok_sub; [|exact Hok]. by apply singleton_submseteq_l, list_elem_of_fmap_2.
  - apply triple_ret. intros s (Hs & Hw & u & Hu & Hsch). split_and!; [done|done|]. exists all, t, u. by destruct (Hl u Hu).
  - apply triple_ret. intros s [Hs He]. split_and!; [done|done|]. intros Hc. specialize (He Hc). exists t. f_equal. f_equal.
    apply none_served with (model := ir_Model req) in He; [|done|].
    + rewrite He in Hex. by destruct all.
    + apply Forall_forall. intros u [Hu _]%Hl. rewrite Forall_forall in Hmodel. auto.
  - by apply triple_ret.
  - apply triple_ret. intros s [Hs Hnd]. split; [done|]. exists all, t. split; [done|]. intros Hall. apply Hnd.
    eapply sublist_NoDup; [exact Hall|]. apply fmap_sublist, sublist_filter.
Qed.

(** *** Releasing. *)

(** The core after [h] gave its slot on [id] back: a waiter has it, or nobody. *)
Definition dropped (c : Core) (id : string) : Core :=
  let n := (local_of c id -! 1)%go in (if n <=? 0 then delete id c.1.1 else <[id := n]> c.1.1, c.1.2, c.2).

Definition slot_passed (c : Core) (id : string) (handed : bool) (s : RState) : Prop :=
  if handed then ∃ rt, s_WorkerID (rt_worker rt) = id ∧ rt_released rt = false ∧ at_core (allocated c rt) s
  else ∃ n, at_core (c.1, n) s ∧ (c.2 ≤ n)%nat.

Lemma handoff_ok c w : c.1.2 !! c.2 = None → triple env (at_core c) (handoffLocked w) (λ hw s, slot_passed c (s_WorkerID w) hw.1 s).
Proof.
  intros Hfresh. assert (∀ (hw : bool * bool) s, hw.1 = false → at_core c s → slot_passed c (s_WorkerID w) hw.1 s) as Hno.
  { intros hw s -> Hs. exists c.2. split; [by rewrite <-surjective_pairing|done]. }
  unfold handoffLocked. eapply triple_quiet; [quiet_call_any|]. intros busy _. case_match; [by apply triple_ret; auto|].
  eapply triple_quiet; [apply quiet_cache with (Q := λ o, ∀ cur, o = Some cur → s_WorkerID cur = s_WorkerID w); [done|]|].
  { intros now sc _ cur. apply cache_worker_spec. }
  intros [cur|] Hcur; [|by apply triple_ret; auto]. specialize (Hcur cur eq_refl). case_match; [by apply triple_ret; auto|].
  eapply triple_quiet; [quiet_call_any|]. intros [[ticket []]|] _; [|by apply triple_ret; auto..].
  eapply triple_quiet; [quiet_call_any|]. intros tok _. eapply triple_bind; [apply newRouted_ok|]. intros h.
  apply triple_pure. intros ->. set (rt := mkRouted _ _ _ _ _ _ _). eapply triple_quiet; [quiet_call_any|]. intros handed _. case_match.
  { apply triple_ret. intros s Hs. by exists rt. }
  eapply triple_bind with (Q := λ _, at_core (c.1, S c.2)).
  { intros s [Hc Hs]. unfold forget_handle, modify. split; [|done]. cbn. unfold allocated in Hc. injection Hc as Hi Hr Hn. unfold core. cbn.
    rewrite Hi, Hr, Hn, delete_insert_id by done. by destruct c as [[]]. }
  intros _. do 2 (eapply triple_quiet; [quiet_call_any|]; intros ? _). apply triple_ret. intros s Hs. exists (S c.2). split; [done|lia].
Qed.

(** How the core moves: a routing, a slot passed on or dropped by a release, a cost charged. *)
Definition marked (c : Core) (h : nat) (rt : routed) : Core := (c.1.1, <[h := rt <| rt_released := true |>]> c.1.2, c.2).

Inductive cstep (c : Core) : Core → Prop :=
  | cs_route rt :
      rt_released rt = false → ok [sig_of (rt_worker rt)] →
      Z.min (local_of c (s_WorkerID (rt_worker rt))) maxCount < s_MaxConcurrency (rt_worker rt) →
      cstep c (allocated (taken c (s_WorkerID (rt_worker rt))) rt)
  | cs_pass h rt rt' :
      c.1.2 !! h = Some rt → rt_released rt = false → rt_released rt' = false → s_WorkerID (rt_worker rt') = s_WorkerID (rt_worker rt) →
      cstep c (allocated (marked c h rt) rt')
  | cs_drop h rt n :
      c.1.2 !! h = Some rt → rt_released rt = false → (c.2 ≤ n)%nat → cstep c ((dropped (marked c h rt) (s_WorkerID (rt_worker rt))).1, n)
  | cs_charge h rt cost :
      c.1.2 !! h = Some rt → cstep c (c.1.1, <[h := rt <| rt_cost := cost |>]> c.1.2, c.2).

(** No handle beyond the next address. *)
Definition bounded (c : Core) : Prop := ∀ h, (c.2 ≤ h)%nat → c.1.2 !! h = None.

(** Where an operation may take the core. *)
Definition moves {A} (m : M A) : Prop := ∀ c, bounded c → triple env (at_core c) m (λ _ s, ∃ c', at_core c' s ∧ rtc cstep c c').

Lemma bounded_step c c' : bounded c → cstep c c' → bounded c' ∧ (c.2 ≤ c'.2)%nat.
Proof.
  intros Hb Hs. destruct Hs as [rt|h rt rt' Hh|h rt n Hh|h rt cost Hh]; cbn.
  1: split; [|lia]; intros k Hk; cbn in *; rewrite lookup_insert_ne by lia; apply Hb; lia.
  all: assert (h < c.2)%nat by (destruct (decide (c.2 ≤ h)%nat) as [Hle|]; [by rewrite Hb in Hh|lia]).
  all: split; [|lia]; intros k Hk; cbn in *; rewrite !lookup_insert_ne by lia; apply Hb; lia.
Qed.

Lemma bounded_steps c c' : bounded c → rtc cstep c c' → bounded c' ∧ (c.2 ≤ c'.2)%nat.
Proof. intros Hb. induction 1 as [|c c1 c2 Hs _ IH]; [done|]. destruct (bounded_step _ _ Hb Hs) as [Hb1 ?]. destruct (IH Hb1). split; [done|lia]. Qed.

Lemma moves_quiet {A} (m : M A) Q : quiet env m Q → moves m.
Proof. intros Hm c _ s Hs. destruct (Hm c s Hs) as [? _]. by exists c. Qed.

Lemma moves_bind {A B} (m : M A) (f : A → M B) : moves m → (∀ a, moves (f a)) → moves (bind m f).
Proof.
  intros Hm Hf c Hc s Hs. unfold bind. destruct (Hm c Hc s Hs) as (c1 & Hs1 & Hm1). destruct (m env s) as [s1 a]. cbn in *.
  destruct (Hf a c1 (proj1 (bounded_steps _ _ Hc Hm1)) s1 Hs1) as (c2 & Hs2 & Hm2). exists c2. split; [done|by etrans].
Qed.

Lemma moves_route req wait exclude : moves (route cfg req wait exclude).
Proof.
  intros c _ s Hs. pose proof (route_ok req wait exclude _ c s (conj Hs eq_refl)) as Hr. destruct (route _ _ _ _ _ _) as [s' [h|i|e| |]]; cbn in *.
  2-5: by exists c; split; [apply Hr|].
  destruct Hr as (l & t & u & rt & _ & _ & _ & Hd & _ & Hf & _ & Hrel & Hok & _ & Hs'). eexists. split; [exact Hs'|]. apply rtc_once.
  rewrite <-(dv_id _ _ Hd) in *. apply cs_route; [done|by rewrite (derived_sig _ _ Hd)|by rewrite (dv_max _ _ Hd)].
Qed.

Lemma releaseSlot_ok c rt : c.1.2 !! c.2 = None →
  triple env (at_core c) (releaseSlot rt) (λ _ s,
    (∃ rt', s_WorkerID (rt_worker rt') = s_WorkerID (rt_worker rt) ∧ rt_released rt' = false ∧ at_core (allocated c rt') s) ∨
    (∃ n, at_core ((dropped c (s_WorkerID (rt_worker rt))).1, n) s ∧ (c.2 ≤ n)%nat)).
Proof.
  intros Hf. unfold releaseSlot. eapply triple_quiet; [quiet_call_any|]. intros _ _. eapply triple_bind; [by apply handoff_ok|]. intros [handed wake]. cbn [fst snd].
  assert (∀ c', triple env (at_core c') (if wake then call_queue (λ q _, Queue_Wake q (s_Model (rt_worker rt)) 1) ;! ret () else ret ()) (λ _, at_core c')) as Hwake.
  { intros c' s Hs. destruct wake; [|done]. assert (quiet env (call_queue (λ q _, Queue_Wake q (s_Model (rt_worker rt)) 1) ;! ret ()) (λ _, True)) as Hq by quiet_go.
    by apply Hq. }
  destruct handed; intros s Hs.
  - destruct Hs as (rt' & Hid & Hrel & Hs). left. exists rt'. split_and!; [done|done|]. by apply Hwake.
  - destruct Hs as (n & [Hc Hv] & Hn). right. exists n. split; [|done]. apply (Hwake _ (drop_slot (s_WorkerID (rt_worker rt)) env s).1). split; [|done].
    destruct c as [[ci cr] cn]. injection Hc as Hi Hr Hx. unfold core, dropped, local_of. cbn. by rewrite Hi, Hr, Hx.
Qed.

Lemma moves_release h : moves (release h).
Proof.
  intros c Hb s Hs. unfold release. destruct (r_routeds s !! h) as [rt|] eqn:Hh; [|by exists c]. destruct (rt_released rt) eqn:Hrel; [by exists c|].
  assert (c.1.2 !! h = Some rt) as Hh' by (by destruct Hs as [<- _]).
  assert (h < c.2)%nat by (destruct (decide (c.2 ≤ h)%nat) as [Hle|]; [by rewrite Hb in Hh'|lia]).
  set (s1 := s <| r_routeds := _ |>). assert (at_core (marked c h rt) s1) as Hs1 by (split; [by destruct Hs as [<- _]|apply Hs]).
  assert ((marked c h rt).1.2 !! (marked c h rt).2 = None) as Hf by (cbn; rewrite lookup_insert_ne by lia; by apply Hb).
  destruct (releaseSlot_ok (marked c h rt) rt Hf s1 Hs1) as [(rt' & Hid & Hrel' & Hs')|(n & Hs' & Hn)].
  - eexists. split; [exact Hs'|]. apply rtc_once. by apply cs_pass.
  - eexists. split; [exact Hs'|]. apply rtc_once. by apply cs_drop.
Qed.

Lemma moves_charge h req : moves (charge cfg h req).
Proof.
  intros c Hb s Hs. unfold charge. destruct (r_routeds s !! h) as [rt|] eqn:Hh; [|by exists c]. case_match; [by exists c|].
  assert (quiet env (call_sig (λ _ t, AddCost t (rt_lease rt) (requestCost cfg req))) (λ _, True)) as Hq by quiet_call_any.
  destruct (Hq c s Hs) as [Hs' _]. destruct (call_sig _ _ _) as [s' added]. cbn in *. destruct (default false added); [|by exists c].
  eexists. split; [split; [reflexivity|apply Hs']|]. apply rtc_once. destruct Hs as [<- _], Hs' as [[= Hi Hr Hn] _].
  unfold core at 2. cbn. rewrite Hi, Hr, Hn. by apply (cs_charge (core s)).
Qed.

Lemma quiet_freeSlots model : quiet env (freeSlots model) (λ _, True).
Proof.
  unfold freeSlots. eapply quiet_bind; [apply quiet_view|]. intros [[ws now]|] _; [|by apply quiet_ret].
  eapply quiet_bind; [apply quiet_mapM with (Q := λ _ _, True)|intros; by apply quiet_ret]. intros w. unfold free_of. case_match; [by apply quiet_ret|].
  eapply quiet_bind; [quiet_call_any|]. intros o _. case_match; [by apply quiet_ret|]. intros c. eapply triple_step; [apply triple_overlay|].
  intros r _. by apply triple_ret.
Qed.

Lemma quiet_wakeWaiters : quiet env wakeWaiters (λ _, True).
Proof.
  unfold wakeWaiters. eapply quiet_bind; [quiet_call_any|]. intros ms _. eapply quiet_bind; [apply quiet_mapM with (Q := λ _ _, True)|intros; by apply quiet_ret].
  intros m. unfold wake_model. eapply quiet_bind; [apply quiet_freeSlots|]. intros n _. quiet_go.
Qed.

Lemma quiet_sync_stored started : quiet env (sync_stored started) (λ _, True).
Proof.
  unfold sync_stored. eapply quiet_bind with (Q := λ _, True).
  - apply quiet_call; [done|]. intros now w Hw. destruct (wd_res w), (sc_cur (wd_cache w)) as [sn|] eqn:Hc; try done.
    pose proof (runSync_byModel (wd_cache w) sn (Sub now started)) as Hr. destruct (runSync _ _ _) as [s' report]. split; [|done].
    intros s1 model l. cbn. intros [= <-]. cbn in Hr. rewrite Hr. by apply Hw.
  - intros [[]|] _; [apply quiet_sync|by apply quiet_ret].
Qed.

Lemma quiet_Refresh answer : (∀ ws, answer = inl ws → ok (sig_of <$> ws)) → quiet env (Refresh cfg answer) (λ _, True).
Proof.
  intros Ha. unfold Refresh. eapply quiet_bind with (Q := λ _, True); [by apply quiet_call|]. intros started _. destruct answer as [ws|ended].
  - eapply quiet_bind with (Q := λ _, True); [by apply quiet_call|]. intros _ _. eapply quiet_bind; [quiet_call_any|]. intros _ _.
    eapply quiet_bind with (Q := λ _, True).
    + apply quiet_call; [done|]. intros now w _. split; [|done]. by apply Refresh_store_ok, Ha.
    + intros _ _. eapply quiet_bind; [apply quiet_sync_stored|]. intros _ _. apply quiet_wakeWaiters.
  - apply quiet_call; [done|]. intros now w Hw. split; [|done]. cbn. unfold Refresh_failed. by destruct ended.
Qed.

Lemma quiet_shed model tenant : quiet env (shedBeforeLimiter model tenant) (λ _, True).
Proof. unfold shedBeforeLimiter. eapply quiet_bind; [by apply quiet_cache with (Q := λ _, True)|]. intros o _. quiet_go. Qed.

Lemma moves_ret {A} (a : A) : moves (ret a).
Proof. by eapply moves_quiet, (quiet_ret _ (λ _, True)). Qed.

Lemma moves_queue {A} (f : Queue nat → Time → Queue nat * A) : moves (call_queue f).
Proof. eapply moves_quiet. quiet_call_any. Qed.

Lemma moves_await req i began k : moves (await_round cfg req i began k).
Proof.
  unfold await_round. apply moves_bind; [apply moves_queue|]. intros r.
  repeat case_match; repeat (apply moves_bind; [|intros]);
    first [apply moves_ret|apply moves_queue|apply moves_charge].
Qed.

Lemma moves_reroute req i began : moves (reroute_round cfg req i began).
Proof.
  unfold reroute_round. apply moves_bind; [apply moves_route|]. intros r.
  repeat case_match; repeat (apply moves_bind; [|intros]);
    first [apply moves_ret|apply moves_queue|apply moves_release|idtac].
  repeat case_match; repeat (apply moves_bind; [|intros]); first [apply moves_ret|apply moves_release].
Qed.
End Operations.

(** ** Reachable routers. *)

Inductive rop :=
  | OpRoute (req : InferenceRequest) (wait : option string) (exclude : list string)
  | OpRelease (h : nat)
  | OpCharge (h : nat) (req : InferenceRequest)
  | OpAwait (req : InferenceRequest) (i : nat) (began : Time) (k : WaitCase)
  | OpReroute (req : InferenceRequest) (i : nat) (began : Time)
  | OpFreeSlots (model : string)
  | OpShed (model tenant : string)
  | OpRefresh (answer : list WorkerSnapshot + bool)
  | OpDrain (timeout : Z)
  | OpDrainFired.

Section Reach.
Context `{ViewRule} `{GoPlatform} `{GoMapOrder} `{GoMath} `{UrlParser} (cfg : RouterCfg).

Definition run_rop (o : rop) (env : Env) (s : RState) : RState :=
  match o with
  | OpRoute req wait exclude => (route cfg req wait exclude env s).1
  | OpRelease h => (release h env s).1
  | OpCharge h req => (charge cfg h req env s).1
  | OpAwait req i began k => (await_round cfg req i began k env s).1
  | OpReroute req i began => (reroute_round cfg req i began env s).1
  | OpFreeSlots model => (freeSlots model env s).1
  | OpShed model tenant => (shedBeforeLimiter model tenant env s).1
  | OpRefresh answer => (Refresh cfg answer env s).1
  | OpDrain timeout => (beginDrain timeout env s).1
  | OpDrainFired => (drain_fired env s).1
  end.

(** The registry's answers keep the rule. *)
Definition rop_ok (o : rop) : Prop := match o with OpRefresh (inl ws) => ok (sig_of <$> ws) | _ => True end.

(** A router from its start, through any operations, each under any interference. *)
Inductive router_reach : RState → Prop :=
  | reach_new w rotor calls : cache_ok (wd_cache w) → router_reach (mkRState w ∅ rotor ∅ 0 calls)
  | reach_step s o env : router_reach s → env_ok env → rop_ok o → router_reach (run_rop o env s).

Lemma moves_rop env o : env_ok env → rop_ok o → moves env (λ env s, (run_rop o env s, ())).
Proof.
  intros He Ho c Hb s Hs. destruct o; cbn [fst snd run_rop].
  - by apply moves_route.
  - by apply moves_release.
  - by apply moves_charge.
  - by apply moves_await.
  - by apply moves_reroute.
  - exists c. split; [|done]. by apply quiet_freeSlots.
  - exists c. split; [|done]. by apply quiet_shed.
  - exists c. split; [|done]. apply quiet_Refresh; [done| |done]. by intros ws ->.
  - exists c. split; [|done]. assert (quiet env (beginDrain timeout) (λ _, True)) as Hq by (unfold beginDrain; quiet_go). by apply Hq.
  - exists c. split; [|done]. assert (quiet env drain_fired (λ _, True)) as Hq by (unfold drain_fired; quiet_go). by apply Hq.
Qed.

Lemma router_steps s : router_reach s → at_core (core s) s ∧ bounded (core s) ∧ rtc cstep (∅, ∅, 0%nat) (core s).
Proof.
  induction 1 as [w rotor calls Hw|s o env _ (Hs & Hb & Hr) He Ho]; [done|].
  destruct (moves_rop env o He Ho (core s) Hb s Hs) as (c' & [<- Hv] & Hc). cbn in *. split_and!; [done| |by etrans].
  by apply (bounded_steps _ _ Hb Hc).
Qed.

(** *** The counts. *)

(** A handle that holds a slot of the worker. *)
Definition holds (id : string) (rt : routed) : bool := negb (rt_released rt) && String.eqb (s_WorkerID (rt_worker rt)) id.

Definition slots (id : string) (c : Core) : Z := mcount (holds id) c.1.2.

Record counted (c : Core) : Prop := {
  ct_local id : local_of c id = slots id c;
  ct_bound id : slots id c ≤ Z.of_nat c.2;
  ct_fresh : bounded c
}.

Lemma holds_self rt : rt_released rt = false → holds (s_WorkerID (rt_worker rt)) rt = true.
Proof. intros Hr. unfold holds. by rewrite Hr, String.eqb_refl. Qed.

Lemma holds_other id rt : s_WorkerID (rt_worker rt) ≠ id → holds id rt = false.
Proof. intros Hne. unfold holds. apply String.eqb_neq in Hne. by rewrite Hne, andb_false_r. Qed.

Lemma holds_eq id rt : rt_released rt = false → holds id rt = String.eqb (s_WorkerID (rt_worker rt)) id.
Proof. intros Hr. unfold holds. by rewrite Hr. Qed.

Lemma slots_allocated id c rt : bounded c → slots id (allocated c rt) = Z.b2z (holds id rt) + slots id c.
Proof. intros Hb. unfold slots, allocated. cbn. apply mcount_insert_None. by apply Hb. Qed.

Lemma slots_marked id c h rt : c.1.2 !! h = Some rt → slots id (marked c h rt) = slots id c - Z.b2z (holds id rt).
Proof. intros Hh. unfold slots, marked. cbn. rewrite (mcount_insert_Some _ _ _ rt) by done. change (holds id (rt <| rt_released := true |>)) with false. cbn. lia. Qed.

Lemma local_insert id id' n c : local_of (<[id := n]> c.1.1, c.1.2, c.2) id' = if String.eqb id id' then n else local_of c id'.
Proof. unfold local_of. cbn. destruct (String.eqb_spec id id') as [->|Hne]; [by rewrite lookup_insert_eq|by rewrite lookup_insert_ne]. Qed.

Lemma local_dropped c id id' n : 1 ≤ local_of c id ≤ int64_max →
  local_of ((dropped c id).1, n) id' = if String.eqb id id' then local_of c id - 1 else local_of c id'.
Proof.
  intros Hr. unfold dropped. rewrite wrap64_id by (unfold in64, int64_min, int64_max in *; lia).
  destruct (Z.leb_spec (local_of c id - 1) 0) as [Hz|Hz]; [|apply (local_insert id id' (local_of c id - 1) (c.1, n))].
  unfold local_of at 1. cbn. destruct (String.eqb_spec id id') as [<-|Hne]; [rewrite lookup_delete_eq; cbn; lia|by rewrite lookup_delete_ne].
Qed.

Lemma bounded_marked c h rt : bounded c → c.1.2 !! h = Some rt → bounded (marked c h rt).
Proof. intros Hb Hh k Hk. cbn in *. rewrite lookup_insert_ne; [by apply Hb|]. intros ->. by rewrite Hb in Hh. Qed.

Lemma slots_nonneg id c : 0 ≤ slots id c.
Proof. apply mcount_nonneg. Qed.

Lemma slots_charged id c h rt cost : c.1.2 !! h = Some rt → slots id (c.1.1, <[h := rt <| rt_cost := cost |>]> c.1.2, c.2) = slots id c.
Proof. intros Hh. unfold slots. cbn. rewrite (mcount_insert_Some _ _ _ rt) by done. change (holds id (rt <| rt_cost := cost |>)) with (holds id rt). lia. Qed.

Lemma slots_taken id c id' : slots id (taken c id') = slots id c.
Proof. done. Qed.

(** The counts and the handles move together. *)
Lemma counted_move c c' id : counted c → cstep c c' → Z.of_nat c'.2 < 2 ^ 63 →
  local_of c' id = slots id c' ∧ slots id c' ≤ slots id c + Z.of_nat (c'.2 - c.2).
Proof.
  intros [Hl Hn Hb] Hs Hc. pose proof (Hn id) as Hni. pose proof (slots_nonneg id c) as Hz0.
  destruct Hs as [rt Hrel _ _|h rt rt' Hh Hrel Hrel' Hid|h rt n Hh Hrel Hnn|h rt cost Hh]; cbn [allocated marked taken fst snd] in *.
  - rewrite (slots_allocated id (taken c (s_WorkerID (rt_worker rt)))), slots_taken, holds_eq by done.
    change (local_of (allocated ?c ?r) id) with (local_of c id). unfold taken. rewrite local_insert, Hl.
    destruct (String.eqb_spec (s_WorkerID (rt_worker rt)) id) as [->|_]; cbn [Z.b2z]; [|rewrite Hl; split; lia].
    rewrite wrap64_id by (unfold in64, int64_min, int64_max; lia). split; lia.
  - rewrite (slots_allocated id (marked c h rt)) by (by apply bounded_marked). rewrite slots_marked, !holds_eq, Hid by done.
    change (local_of (allocated ?c ?r) id) with (local_of c id). change (local_of (marked c h rt) id) with (local_of c id). rewrite Hl. split; lia.
  - change (slots id ((dropped ?d ?i).1, n)) with (slots id d). pose proof (slots_marked id c h rt Hh) as Hm. rewrite holds_eq in Hm by done.
    assert (1 ≤ local_of (marked c h rt) (s_WorkerID (rt_worker rt)) ≤ int64_max) as Hr.
    { change (local_of (marked c h rt)) with (local_of c). rewrite Hl. specialize (Hn (s_WorkerID (rt_worker rt))).
      pose proof (mcount_pos _ _ _ _ Hh (holds_self rt Hrel)). unfold slots, int64_max in *. lia. }
    rewrite local_dropped by done. change (local_of (marked c h rt)) with (local_of c). rewrite !Hl, Hm.
    destruct (String.eqb_spec (s_WorkerID (rt_worker rt)) id) as [->|_]; cbn [Z.b2z]; split; lia.
  - rewrite slots_charged by done. change (local_of (c.1.1, ?m, c.2)) with (local_of c). rewrite Hl. split; lia.
Qed.

Lemma counted_step c c' : counted c → cstep c c' → Z.of_nat c'.2 < 2 ^ 63 → counted c'.
Proof.
  intros Hc Hs Hn. destruct (bounded_step _ _ (ct_fresh _ Hc) Hs) as [Hb Hle]. split; [| |done]; intros id; destruct (counted_move c c' id Hc Hs Hn) as [? Hm]; [done|].
  pose proof (ct_bound _ Hc id). lia.
Qed.

Lemma counted_steps c c' : rtc cstep c c' → counted c → Z.of_nat c'.2 < 2 ^ 63 → counted c'.
Proof.
  induction 1 as [|c c1 c2 Hs Hr IH]; [done|]. intros Hc Hn. destruct (bounded_step _ _ (ct_fresh _ Hc) Hs) as [Hb _].
  destruct (bounded_steps _ _ Hb Hr) as [_ Hle]. apply IH; [|done]. eapply counted_step; [done..|]. lia.
Qed.

Lemma counted_new : counted (∅, ∅, 0%nat).
Proof. split; [done|done|]. intros h _. apply lookup_empty. Qed.

Lemma router_counted s : router_reach s → Z.of_nat (r_next s) < 2 ^ 63 → counted (core s).
Proof. intros (_ & _ & Hr)%router_steps Hn. by eapply counted_steps; [|apply counted_new|]. Qed.
End Reach.

(** ** The theorems. *)

(** Nothing assumed of the registry's workers. *)
Definition any_workers : ViewRule.
Proof. refine {| ok := λ _, True |}; done. Defined.

(** Workers within a limit of concurrency each. *)
Definition within (cap : string → Z) : ViewRule.
Proof.
  refine {| ok := Forall (λ iw, iw.2 ≤ cap iw.1) |}; [constructor|]. intros l l' Hs Hl. rewrite Forall_forall in *. intros x Hx. apply Hl. by eapply elem_of_submseteq.
Defined.

Section Guarantees.
Context `{GoPlatform} `{GoMapOrder} `{GoMath} `{UrlParser} (cfg : RouterCfg).

(** C3: Through any operations and any interference, the count the router keeps for a worker is
    the number of handles on it that were routed or handed over and not yet released: no slot
    is lost or counted twice, on no path, a refused hand-off and a repeated release included. *)
Theorem slot_accounting s id :
  router_reach (H := any_workers) cfg s → Z.of_nat (r_next s) < 2 ^ 63 →
  default 0 (r_inflight s !! id) = mcount (holds id) (r_routeds s).
Proof. intros Hr Hn. apply (ct_local _ (router_counted (H := any_workers) cfg s Hr Hn) id). Qed.

Lemma within_steps cap c c' :
  (∀ id, cap id ≤ maxCount) → rtc (cstep (H := within cap)) c c' → counted c → Z.of_nat c'.2 < 2 ^ 63 → (∀ id, slots id c ≤ cap id) → ∀ id, slots id c' ≤ cap id.
Proof.
  intros Hcap. induction 1 as [|c c1 c2 Hs Hr IH]; [done|]. intros Hc Hn Hw. destruct (bounded_step (H := within cap) _ _ (ct_fresh _ Hc) Hs) as [Hb _].
  destruct (bounded_steps (H := within cap) _ _ Hb Hr) as [_ Hle]. apply IH; [eapply (counted_step (H := within cap)); [done..|lia]|done|].
  intros id. specialize (Hw id). destruct Hs as [rt Hrel Hok Hf|h rt rt' Hh Hrel Hrel' Hid|h rt n Hh Hrel Hnn|h rt cost Hh].
  - rewrite (slots_allocated id (taken c _)), slots_taken, holds_eq by (done || apply Hc). pose proof (proj1 (Forall_singleton _ _) Hok) as Hmax. cbn in Hmax.
    destruct (String.eqb_spec (s_WorkerID (rt_worker rt)) id) as [<-|_]; cbn; [|lia]. rewrite (ct_local _ Hc) in Hf.
    specialize (Hcap (s_WorkerID (rt_worker rt))). lia.
  - rewrite (slots_allocated id (marked c h rt)) by (apply bounded_marked; [apply Hc|done]). rewrite slots_marked, !holds_eq, Hid by done. lia.
  - change (slots id ((dropped ?d ?i).1, n)) with (slots id d). rewrite slots_marked by done. destruct (holds id rt); cbn; lia.
  - by rewrite slots_charged.
Qed.

(** C2: No worker is given more requests than it takes: if the registry never lists a worker with
    a concurrency above its limit, then at any moment, whatever the interleaving, the handles
    this gateway holds on it are within the limit; a hand-off never exceeds it either. *)
Theorem no_overcommit cap s id :
  (∀ id, 0 ≤ cap id ≤ maxCount) → router_reach (H := within cap) cfg s → Z.of_nat (r_next s) < 2 ^ 63 →
  mcount (holds id) (r_routeds s) ≤ cap id.
Proof.
  intros Hcap (_ & _ & Hr)%router_steps Hn. apply (within_steps cap (∅, ∅, 0%nat) (core s)); [intros; apply Hcap|exact Hr|apply counted_new|done|intros; apply Hcap].
Qed.
End Guarantees.

(** ** Witnesses. *)

Definition no_urls : UrlParser := {| url_Parse := λ _, None |}.

Definition t_0 : Time := mkTime 0 0.

Definition r_view : list WorkerSnapshot := [w_at "a" 1 0 0; w_at "b" 3 0 0].

Definition r_cache : snapshotCache :=
  mkCache Second (10 * Second) (5 * Second) (Some (mkSnap 0 {["m" := r_view]} t_0 int64_max)) false 0 1.

Definition r_new : RState := mkRState (mkWorld r_cache None (Some (Tracker.New a_cfg))) ∅ ∅ ∅ 0 0.

Definition r_env : Env := mkEnv (λ _ w, w) (λ _, mkTime Second Second) (λ _ _, 0%nat) (λ _, false) (λ _, false) (λ _, 2%nat).

Definition r_cfg : RouterCfg := mkRouterCfg (leastLoaded activeLoad) DefaultWeights false.

Definition r_run (ops : list rop) : RState := foldl (λ s o, @run_rop amd64 order_id half_math no_urls r_cfg o r_env s) r_new ops.

Lemma r_cache_ok `{ViewRule} : ok [("a", 4); ("b", 4)] → cache_ok r_cache.
Proof.
  intros Hok s model l [= <-]. cbn. intros [<- <-]%lookup_singleton_Some. split; [by repeat constructor|exact Hok].
Qed.

Lemma r_reach `{ViewRule} ops : ok [("a", 4); ("b", 4)] → Forall rop_ok ops → @router_reach _ amd64 order_id half_math no_urls r_cfg (r_run ops).
Proof.
  intros Hok. unfold r_run. induction ops as [|o ops IH] using rev_ind; intros Hops; [by apply reach_new, r_cache_ok|].
  apply Forall_app in Hops as [Hops Ho]. rewrite foldl_app. cbn. apply reach_step; [by apply IH|by intros ?|by inversion Ho].
Qed.

Definition r_ops : list rop := [OpRoute a_req None []; OpRoute a_req None ["b"]; OpRelease 0; OpRelease 0].

Lemma slot_accounting_witness :
  default 0 (r_inflight (r_run r_ops) !! "a") = 1 ∧
  default 0 (r_inflight (r_run r_ops) !! "a") = mcount (holds "a") (r_routeds (r_run r_ops)).
Proof.
  split; [vm_compute; reflexivity|]. apply (@slot_accounting amd64 order_id half_math no_urls r_cfg); [|vm_compute; reflexivity].
  apply r_reach; [exact I|]. repeat constructor.
Defined.

Definition four (_ : string) : Z := 4.

Lemma no_overcommit_witness : mcount (holds "a") (r_routeds (r_run r_ops)) ≤ four "a".
Proof.
  apply (@no_overcommit amd64 order_id half_math no_urls r_cfg four).
  - intros id. vm_compute. split; discriminate.
  - apply (@r_reach (within four)); [|repeat constructor]. repeat constructor; vm_compute; discriminate.
  - vm_compute; reflexivity.
Defined.

(** ** A view that lists an id twice. *)

Definition d_key : Breaker.Key := Breaker.KeyOf "a" zeroTime.

(** The breaker of "a", open for the longest cool-down. *)
Definition d_params : BreakerParams := mkParams 5 f1 10 (10 * Second) Second (60 * Second) 1 1 f1 Second.

Definition d_res : Res :=
  let b := (newBreaker d_key d_params) <| b_state := Open |> <| b_openUntil := mkTime (60 * Second) (60 * Second) |> in
  mkRes ((NewBreakers d_params) <| bs_byID := {["a" := b]} |>) (NewBudget (mkBudgetParams f0 0 Second 1)) (NewQueue (mkQueueParams 0 0 f0 0)) ∅ 1 [] 0 false.

Definition d_view : list WorkerSnapshot := [(w_at "a" 0 0 0) <| s_Eligible := false |>; w_at "a" 0 0 0].

Definition d_cfg : RouterCfg := mkRouterCfg randomScheduler DefaultWeights false.

Definition d_state (calls : nat) : RState := mkRState (mkWorld r_cache (Some d_res) None) ∅ ∅ ∅ 0 calls.

(** With a worker id listed twice, the first entry not offered, and the worker's breaker open, the
    loop makes no progress: at a clock that has not reached the end of the cool-down, any number
    of rounds leaves it where it was, because the entry chosen is never the one marked. *)
Lemma duplicate_spins fuel broke calls :
  (@reserve_loop amd64 order_id d_cfg fuel a_req d_view broke None r_env (d_state calls)).2 = RStuck.
Proof.
  revert broke calls. induction fuel as [|fuel IH]; intros broke calls; [done|]. cbn [reserve_loop]. unfold bind.
  assert (@select amd64 d_cfg a_req d_view r_env (d_state calls) = (d_state (S calls), Chosen (w_at "a" 0 0 0))) as -> by (vm_compute; reflexivity).
  assert (call_breakers (λ bs now, Breakers_Acquire bs now (keyOf (w_at "a" 0 0 0))) r_env (d_state (S calls))
          = (d_state (S (S calls)), Some (zeroTicket, false))) as -> by (vm_compute; reflexivity).
  apply IH.
Qed.
