(* ===== verification/RouterAnswers.v ===== *)
(** * What a routing ends in

    Every routing ends in an answer that fits the view it read, and in no panic: [RouterSpec]
    shows what each answer means, and this file that the router's own code cannot index out of
    range or call a queue that is not there, and, for a router without breakers and load
    tracking, that it refuses only what no worker could take. *)

From Stdlib Require Import Ascii String SpecFloat.
From S2P Require Import Prelude GoFloat FloatOrder FloatBound GoString GoSort SlidingWindow Breaker Breakers Queue Protocol Cost Scheduler SchedulerSpec History Tracker TrackerSpec Snapshot Api Router RouterSpec.

Local Open Scope string_scope.
Local Open Scope list_scope.
Local Open Scope Z_scope.

(** ** No panic. *)

(** Every double in the view and in the tracker is one; the queue is there if it is used. *)
Record fit (queued : bool) (w : World) : Prop := {
  ft_view sn model l : sc_cur (wd_cache w) = Some sn → sn_byModel sn !! model = Some l → Forall observed_ok l;
  ft_means t : wd_sig w = Some t → map_Forall (λ _ m, valid m) (tr_meanCost t);
  ft_queue : queued = true → is_Some (wd_res w)
}.

Definition queued (wait : option string) : bool := match wait with Some _ => true | None => false end.

(** Other goroutines keep that; the generator's numbers are in range. *)
Record env_fit (q : bool) (env : Env) : Prop := {
  ef_world i w : fit q w → fit q (env_world env i w);
  ef_rnd i n : (0 < n)%nat → (env_rnd env i n < n)%nat
}.

Section Calm.
Context `{GoPlatform} `{GoMapOrder} `{GoMath} `{UrlParser} (cfg : RouterCfg) (q : bool) (env : Env) (Henv : env_fit q env).

Definition calm {A} (m : M A) (Q : A → Prop) : Prop := triple env (λ s, fit q (r_world s)) m (λ a s, fit q (r_world s) ∧ Q a).

Lemma calm_bind {A B} Q (R : B → Prop) (m : M A) (f : A → M B) : calm m Q → (∀ a, Q a → calm (f a) R) → calm (bind m f) R.
Proof. intros Hm Hf. eapply triple_step; [exact Hm|done]. Qed.

Lemma calm_ret {A} (Q : A → Prop) a : Q a → calm (ret a) Q.
Proof. intros Ha s Hs. done. Qed.

Lemma calm_post {A} (Q R : A → Prop) m : calm m Q → (∀ a, Q a → R a) → calm m R.
Proof. intros Hm Hr s Hs. destruct (Hm s Hs). auto. Qed.

Lemma calm_ask {A} (f : Env → nat → A) : calm (ask f) (λ _, True).
Proof. by intros s Hs. Qed.

Lemma calm_gets {A} (f : RState → A) : calm (gets f) (λ _, True).
Proof. by intros s Hs. Qed.

Lemma calm_call {A} (f : Time → World → World * A) (Q : A → Prop) : (∀ now w, fit q w → fit q (f now w).1 ∧ Q (f now w).2) → calm (call f) Q.
Proof.
  intros Hf s Hs. unfold call. destruct (Hf (env_now env (r_calls s)) (env_world env (r_calls s) (r_world s))) as [Hw Hq]; [by apply (ef_world _ _ Henv)|].
  destruct (f _ _) as [w a]. done.
Qed.

Lemma calm_cache {A} (f : Time → snapshotCache → A) (Q : A → Prop) : (∀ now w, fit q w → Q (f now (wd_cache w))) → calm (read_cache f) Q.
Proof. intros Hf. apply calm_call. intros now w Hw. split; [done|]. by apply Hf. Qed.

Lemma calm_res {A} (f : Time → Res → Res * A) : calm (call_res f) (λ o, q = true → o ≠ None).
Proof.
  apply calm_call. intros now w Hw. destruct (wd_res w) as [rs|] eqn:Hr.
  - destruct (f now rs) as [rs' a]. split; [|done]. destruct Hw as [F1 F2 F3]. split; cbn; [done|done|by eexists].
  - split; [done|]. intros Hq. destruct (ft_queue _ _ Hw Hq) as [rs Hrs]. congruence.
Qed.

Lemma calm_queue {A} (f : Queue nat → Time → Queue nat * A) : calm (call_queue f) (λ o, q = true → o ≠ None).
Proof. apply calm_res. Qed.

Lemma calm_breakers {A} (f : Breakers → Time → Breakers * list Change * A) : calm (call_breakers f) (λ o, q = true → o ≠ None).
Proof. apply calm_res. Qed.

Definition means (t : Tracker) : Prop := map_Forall (λ _ m, valid m) (tr_meanCost t).

Lemma calm_sig {A} (f : Time → Tracker → Tracker * A) (Q : A → Prop) :
  (∀ now t, means t → means (f now t).1 ∧ Q (f now t).2) → calm (call_sig f) (λ o, ∀ a, o = Some a → Q a).
Proof.
  intros Hf. apply calm_call. intros now w Hw. destruct (wd_sig w) as [t|] eqn:Ht; [|done].
  destruct (Hf now t (ft_means _ _ Hw t Ht)) as [Hm Hq]. destruct (f now t) as [t' a]. split; [|by intros ? [= <-]].
  destruct Hw as [F1 F2 F3]. split; cbn; [done|by intros ? [= <-]|done].
Qed.

Lemma calm_mapM {A B} (f : A → M B) (Q : A → B → Prop) l : (∀ a, a ∈ l → calm (f a) (Q a)) → calm (mapM_ f l) (Forall2 Q l).
Proof.
  induction l as [|a l IH]; intros Hf; [by apply calm_ret|]. cbn [mapM_]. eapply calm_bind; [apply Hf; by left|]. intros b Hb. cbn.
  eapply calm_bind; [apply IH; intros; apply Hf; by right|]. intros bs Hbs. apply calm_ret. by constructor.
Qed.

(** *** The view. *)

Lemma calm_deliver fuel : calm (deliver fuel) (λ _, True).
Proof.
  induction fuel as [|fuel IH]; [by apply calm_ret|]. cbn [deliver]. eapply calm_bind; [apply calm_res|]. intros batch _. case_match; [by apply calm_ret|].
  eapply calm_bind; [apply calm_mapM with (Q := λ _ _, True); intros; by eapply calm_post; [apply calm_res|]|]. intros evs _.
  eapply calm_bind; [exact IH|]. intros more _. by apply calm_ret.
Qed.

Lemma calm_flush_rounds fuel : calm (flush_rounds fuel) (λ _, True).
Proof.
  induction fuel as [|fuel IH]; [by apply calm_ret|]. cbn [flush_rounds]. eapply calm_bind; [apply calm_res|]. intros mine _. case_match; [by apply calm_ret|].
  eapply calm_bind; [apply calm_deliver|]. intros evs _. do 2 (eapply calm_bind; [apply calm_res|]; intros ? _).
  eapply calm_bind; [apply calm_res|]. intros more _. case_match; [|by apply calm_ret]. eapply calm_bind; [exact IH|]. intros rest _. by apply calm_ret.
Qed.

Lemma calm_sync members models : calm (sync members models) (λ _, True).
Proof.
  unfold sync. do 5 (eapply calm_bind; [apply calm_res|intros ? _]). eapply calm_bind; [|intros _ _; by apply calm_ret].
  eapply calm_bind; [apply calm_ask|]. intros n _. apply calm_flush_rounds.
Qed.

Lemma calm_sync_aged s age : calm (sync_aged s age) (λ _, True).
Proof.
  unfold sync_aged. eapply calm_bind; [apply calm_ask|]. intros [] _; [by apply calm_ret|].
  eapply calm_bind with (Q := λ _, True); [|intros [[]|] _; [apply calm_sync|by apply calm_ret]].
  apply calm_call. intros now w Hw. destruct (wd_res w) eqn:Hr; [|done]. destruct (syncAged (wd_cache w) s age) as [c report] eqn:Hs.
  split; [|done]. destruct Hw as [F1 F2 F3]. split; cbn; [|done|by rewrite Hr]. intros sn model l Hsn Hl. unfold syncAged in Hs.
  destruct (sc_cur (wd_cache w)) as [s'|] eqn:Hcur; [|simplify_eq]. case_match; [simplify_eq; by eapply F1|].
  destruct (runSync (wd_cache w) s' age) as [s1 report1] eqn:Hrun. simplify_eq. cbn in Hsn. injection Hsn as <-. eapply F1; [done|].
  by rewrite <-(runSync_byModel (wd_cache w) s' age), Hrun.
Qed.

Lemma calm_view model : calm (view model) (λ v, ∀ l t, v = Some (l, t) → Forall observed_ok l).
Proof.
  unfold view. eapply calm_bind with (Q := λ x, ∀ l t, x.2 = Some (l, t) → Forall observed_ok l).
  - apply calm_cache. intros now w Hw l t. cbn. unfold viewAt, fresh. destruct (sc_cur (wd_cache w)) as [s|] eqn:Hs; [|done]. case_match; [|done].
    intros. simplify_eq. unfold age_list, workers_of. apply Forall_fmap. destruct (sn_byModel s !! model) as [l|] eqn:Hl; [|constructor].
    eapply Forall_impl; [by eapply (ft_view _ _ Hw)|]. intros x Hx. cbn. unfold age_worker. by case_match.
  - intros [[[[s age] []]|] v] Hv; cbn in Hv; [|by apply calm_ret..].
    eapply calm_bind; [apply calm_sync_aged|]. intros _ _. by apply calm_ret.
Qed.
(** *** The overlay. *)

Lemma setEpoch_means t now : tr_meanCost (setEpoch t now) = tr_meanCost t.
Proof. unfold setEpoch. by case_match. Qed.

Lemma overlay_means t now i : tr_meanCost (overlayLocked t now i).1 = tr_meanCost t.
Proof. unfold overlayLocked. rewrite <-(setEpoch_means t now). set (t1 := setEpoch t now). clearbody t1. by repeat case_match. Qed.

Lemma Load_means t now i : tr_meanCost (Load t now i).1 = tr_meanCost t.
Proof. unfold Load. rewrite <-(overlay_means t now (li_Input i)). by destruct (overlayLocked t now (li_Input i)). Qed.

Lemma Begin_means t now k : tr_meanCost (Begin t now k).1 = tr_meanCost t.
Proof.
  unfold Begin. rewrite <-(setEpoch_means t now). set (t1 := setEpoch t now). clearbody t1. unfold find_or_create, create. by repeat case_match; simplify_eq.
Qed.

Lemma AddCost_means t tok cost : tr_meanCost (AddCost t tok cost).1 = tr_meanCost t.
Proof. unfold AddCost. by repeat case_match. Qed.

Lemma ObserveCost_means t model cost : means t → means (ObserveCost t model cost).
Proof.
  intros Ht. unfold ObserveCost. case_match; [done|]. destruct (tr_meanCost t !! model) as [m|] eqn:Hm.
  - apply map_Forall_insert_2; [|done]. specialize (Ht _ _ Hm). cbn in Ht.
    apply fadd_valid; [done|]. apply fmul_valid; [apply fdiv_valid|]. apply fsub_valid; [apply f64_valid|done].
  - case_match; [|done]. apply map_Forall_insert_2; [apply f64_valid|done].
Qed.

Lemma fmin_valid x y : valid x → valid y → valid (fmin x y).
Proof. intros Hx Hy. unfold fmin. by repeat case_match. Qed.

Lemma Load_valid t now i : means t → valid (li_InputWeight i) → valid (WorkAheadTokens (Load t now i).2).
Proof.
  intros Ht Hw. unfold Load. pose proof (overlay_means t now (li_Input i)) as Hm. destruct (overlayLocked t now (li_Input i)) as [t' r]. cbn in Hm.
  set (mean := match tr_meanCost t' !! li_Model i with Some m => m | None => _ end).
  assert (valid mean) as Hmean.
  { subst mean. destruct (tr_meanCost t' !! li_Model i) as [m|] eqn:Hl; [|apply f64_valid]. rewrite Hm in Hl. exact (Ht _ _ Hl). }
  set (iw := if negb _ || _ then f64 1 else li_InputWeight i). assert (valid iw) as Hiw by (subst iw; case_match; [apply f64_valid|done]).
  clearbody mean iw.
  assert (valid (fadd (f64 (rs_Work r)) (fadd (fmul (f64 (Z.max (rs_Active r -! clampCount (i_Local (li_Input i)))%go 0)) mean)
    (fmul (f64 (Z.min (Z.max (li_QueuedTokens i) 0) maxCount)) (fmin iw (f64 10000)))))) as Hv
    by (repeat first [apply fadd_valid|apply fmul_valid|apply f64_valid|apply fmin_valid|done]).
  unfold Result_Observed. repeat case_match; exact Hv.
Qed.

Context (req : InferenceRequest) (Hst : strategy_ok (rc_sched cfg) req) (Hweight : valid (InputWeight (rc_weights cfg))).

Lemma calm_overlay_plain viewAt w : observed_ok w → calm (overlay_plain viewAt w) observed_ok.
Proof.
  intros Hw. unfold overlay_plain, overlay. eapply calm_bind with (Q := λ _, True).
  - eapply calm_bind; [apply calm_gets|]. intros n _. eapply calm_bind; [apply calm_sig with (Q := λ _, True)|intros o _; by apply calm_ret].
    intros now t Ht. split; [|done]. unfold means, Overlay. by rewrite overlay_means.
  - intros [n [r|]] _; apply calm_ret; [|done]. unfold observed_ok, Result_Observed. cbn. case_match; apply f64_valid.
Qed.

Lemma calm_overlay_all viewAt l : Forall observed_ok l → calm (overlay_all cfg viewAt req l) (Forall observed_ok).
Proof.
  intros Hl. unfold overlay_all. eapply calm_post; [apply calm_mapM with (Q := λ _ w, observed_ok w)|].
  - intros w Hw. rewrite Forall_forall in Hl. specialize (Hl w Hw). destruct (rc_workAware cfg); [|by apply calm_overlay_plain].
    unfold overlay_work. eapply calm_bind; [apply calm_gets|]. intros n _.
    eapply calm_bind; [apply calm_sig with (Q := λ o, valid (WorkAheadTokens o))|].
    + intros now t Ht. split; [unfold means; by rewrite Load_means|]. by apply Load_valid.
    + intros [o|] Ho; [apply calm_ret; by apply Ho|by apply calm_overlay_plain].
  - intros l' Hl'. clear -Hl'. by induction Hl'; constructor.
Qed.

(** *** Reserving. *)

Lemma calm_select ws : Forall observed_ok ws → calm (select cfg req ws) (λ sel, sel ≠ Panicked).
Proof.
  intros Hws s Hs. unfold select. destruct (env_cancelled env (r_calls s)); [done|].
  pose proof (select_safe (env_rnd env (r_calls s)) (ef_rnd _ _ Henv (r_calls s)) (rc_sched cfg) (r_rotor s) req ws Hst Hws) as Hsel.
  destruct (SelectWorker _ _ _ _ _ _) as [r sel]. split; [done|]. cbn in *. intros ->. done.
Qed.

Lemma calm_enqueue tenant counts : q = true → calm (enqueueLocked req tenant counts) (λ r, r ≠ RPanicked).
Proof.
  intros Hq. unfold enqueueLocked. eapply calm_bind; [apply calm_queue|]. intros [[i|[]]|] Ho; try by apply calm_ret.
  all: try (eapply calm_bind; [apply calm_queue|]; intros; by apply calm_ret). by destruct (Ho Hq).
Qed.

Lemma calm_take w ticket : calm (take_slot cfg req w ticket) (λ r, r ≠ RPanicked).
Proof.
  unfold take_slot. eapply calm_bind with (Q := λ _, True); [by intros s Hs|]. intros _ _. eapply calm_bind; [apply calm_sig with (Q := λ _, True)|].
  { intros now t Ht. split; [|done]. unfold means. by rewrite Begin_means. }
  intros [tok|] _; [|by apply calm_ret]. eapply calm_bind; [apply calm_sig with (Q := λ _, True)|].
  { intros now t Ht. split; [|done]. unfold means. by rewrite AddCost_means. }
  intros added _. eapply calm_bind with (Q := λ _, True); [|intros; by apply calm_ret]. case_match; [|by apply calm_ret].
  eapply calm_post; [apply calm_sig with (Q := λ _, True)|done]. intros now t Ht. split; [by apply ObserveCost_means|done].
Qed.

Lemma mark_observed id ws : Forall observed_ok ws → Forall observed_ok (mark_ineligible id ws).
Proof. induction 1 as [|w ws Hw]; [constructor|]. cbn. case_match; by constructor. Qed.

Lemma calm_loop wait fuel ws broke : (queued wait = true → q = true) → Forall observed_ok ws → calm (reserve_loop cfg fuel req ws broke wait) (λ r, r ≠ RPanicked).
Proof.
  intros Hq. revert ws broke. induction fuel as [|fuel IH]; intros ws broke Hws; [by apply calm_ret|]. cbn [reserve_loop].
  eapply calm_bind; [by apply calm_select|]. intros [w|[|why]|] Hsel; [|by apply calm_ret| |done].
  - eapply calm_bind; [apply calm_breakers|]. intros [[ticket []]|] _; [apply calm_take|apply IH, mark_observed, Hws|apply calm_take].
  - unfold refuse_route. case_match; [by apply calm_ret|]. eapply calm_bind; [by apply calm_cache with (Q := λ _, True)|].
    intros [] _; [by apply calm_ret|]. eapply calm_bind with (Q := λ _, True); [case_match; [by eapply calm_post; [apply calm_breakers|]|by apply calm_ret]|].
    intros retry _. destruct wait as [tenant|]; [|by apply calm_ret]. case_match; [by apply calm_enqueue, Hq|by apply calm_ret].
Qed.

Lemma calm_route wait exclude : (queued wait = true → q = true) → calm (route cfg req wait exclude) (λ r, r ≠ RoutePanicked).
Proof.
  intros Hq. unfold route. eapply calm_bind; [apply calm_view|]. intros [[all t]|] Hv; [|by apply calm_ret]. specialize (Hv all t eq_refl).
  assert (Forall observed_ok (filter (λ w, s_WorkerID w ∉ exclude) all)) as Hl
    by (apply Forall_forall; intros w [_ Hw]%list_elem_of_filter; rewrite Forall_forall in Hv; auto).
  set (l := filter _ all) in *. clearbody l. case_match; [by apply calm_ret|].
  eapply calm_bind with (Q := λ wb, Forall observed_ok wb.1).
  { unfold filter_broken. eapply calm_bind; [apply calm_res|]. intros n _. case_match; [|by apply calm_ret].
    eapply calm_bind; [apply calm_mapM with (Q := λ _ r, observed_ok r.1)|].
    - intros w Hw. rewrite Forall_forall in Hl. specialize (Hl w Hw). unfold admissible_pass. case_match; [|by apply calm_ret].
      eapply calm_bind; [apply calm_breakers|]. intros o _. apply calm_ret. by case_match.
    - intros r Hr. apply calm_ret. cbn. apply Forall_fmap. clear -Hr. by induction Hr; constructor. }
  intros [ws broke] Hws. cbn [fst snd] in *. eapply calm_bind with (Q := λ r, r ≠ RPanicked).
  { assert (calm (bind (overlay_all cfg t req ws) (λ workers, reserve_loop cfg (S (length workers)) req workers broke wait)) (λ r, r ≠ RPanicked)) as Hgo
      by (eapply calm_bind; [by apply calm_overlay_all|]; intros; by apply calm_loop).
    unfold reserve. destruct wait as [tenant|]; [|done]. case_match; [|done]. eapply calm_bind; [apply calm_queue|].
    intros [[]|] Ho; [by apply calm_enqueue, Hq|done|by destruct (Ho (Hq eq_refl))]. }
  intros [w ticket lease cost|i|e| |] Hr; try by apply calm_ret. by eapply calm_bind with (Q := λ _, True); [intros s Hs|intros; apply calm_ret].
Qed.
End Calm.

(** ** Refusals of a bare router. *)

(** Neither breakers nor load tracking, now and later. *)
Definition bare (w : World) : Prop := wd_res w = None ∧ wd_sig w = None.
Definition env_bare (env : Env) : Prop := ∀ i w, bare w → bare (env_world env i w).

(** Why a refusal may come: the context has ended or no worker may serve. *)
Lemma select_why `{GoPlatform} st r rnd cancelled req workers e :
  (SelectWorker st r rnd cancelled req workers).2 = Refused e → cancelled = true ∨ Forall (λ w, may_serve req w = false) workers.
Proof.
  unfold SelectWorker. destruct cancelled; [by left|]. pose proof (eligible_spec req workers) as Hc. destruct (eligible req workers) as [idx|].
  - intros Hsel. exfalso. destruct st;
      [exact (pick_refused _ _ _ _ Hsel)|exact (next_of_refused _ _ _ _ _ Hsel)|exact (next_of_refused _ _ _ _ _ Hsel)|exact (workAware_refused _ _ _ _ _ _ _ Hsel)].
  - intros _. right. apply Hc.
Qed.

Section Bare.
Context `{GoPlatform} `{GoMapOrder} `{GoMath} `{UrlParser} (cfg : RouterCfg) (env : Env) (Henv : env_bare env) (c : Core).

(** A bare state with these counts. *)
Definition bare_at (s : RState) : Prop := bare (r_world s) ∧ r_inflight s = c.1.1.

Definition plainly {A} (m : M A) (Q : A → Prop) : Prop := triple env bare_at m (λ a s, bare_at s ∧ Q a).

Lemma plainly_bind {A B} Q (R : B → Prop) (m : M A) (f : A → M B) : plainly m Q → (∀ a, Q a → plainly (f a) R) → plainly (bind m f) R.
Proof. intros Hm Hf. eapply triple_step; [exact Hm|done]. Qed.

Lemma plainly_ret {A} (Q : A → Prop) a : Q a → plainly (ret a) Q.
Proof. intros Ha s Hs. done. Qed.

Lemma plainly_res {A} (f : Time → Res → Res * A) : plainly (call_res f) (λ o, o = None).
Proof. intros s [Hb Hi]. unfold call_res, call. pose proof (Henv (r_calls s) _ Hb) as [Hr Hg]. rewrite Hr. done. Qed.

Lemma plainly_sig {A} (f : Time → Tracker → Tracker * A) : plainly (call_sig f) (λ o, o = None).
Proof. intros s [Hb Hi]. unfold call_sig, call. pose proof (Henv (r_calls s) _ Hb) as [Hr Hg]. rewrite Hg. done. Qed.

Lemma plainly_cache {A} (f : Time → snapshotCache → A) : plainly (read_cache f) (λ _, True).
Proof. intros s [Hb Hi]. split; [|done]. split; [by apply (Henv (r_calls s))|done]. Qed.

Lemma plainly_mapM {A B} (f : A → M B) (Q : A → B → Prop) l : (∀ a, plainly (f a) (Q a)) → plainly (mapM_ f l) (Forall2 Q l).
Proof.
  intros Hf. induction l as [|a l IH]; [by apply plainly_ret|]. cbn [mapM_]. eapply plainly_bind; [apply Hf|]. intros b Hb. cbn.
  eapply plainly_bind; [apply IH|]. intros bs Hbs. apply plainly_ret. by constructor.
Qed.

Lemma plainly_view model : plainly (view model) (λ _, True).
Proof.
  unfold view. eapply plainly_bind; [apply plainly_cache|]. intros [[[[s age] []]|] v] _; [|by apply plainly_ret..].
  eapply plainly_bind with (Q := λ _, True); [|intros; by apply plainly_ret]. unfold sync_aged.
  eapply plainly_bind with (Q := λ _, True); [by intros ?|]. intros [] _; [by apply plainly_ret|].
  eapply plainly_bind with (Q := λ o, o = None); [|intros ? ->; by apply plainly_ret].
  intros st [Hb Hi]. unfold call. pose proof (Henv (r_calls st) _ Hb) as [Hr Hg]. rewrite Hr. done.
Qed.

(** The load a bare router shows a worker with. *)
Definition shown (w w' : WorkerSnapshot) : Prop := w' = set_active w (Z.max (ActiveRequests (s_Metrics w)) (local_of c (s_WorkerID w))).

Lemma plainly_overlay_plain viewAt w : plainly (overlay_plain viewAt w) (shown w).
Proof.
  unfold overlay_plain, overlay. eapply plainly_bind with (Q := λ o, o = (Z.max (ActiveRequests (s_Metrics w)) (local_of c (s_WorkerID w)), None)).
  - eapply plainly_bind with (Q := λ n, n = local_of c (s_WorkerID w)); [intros s [Hb Hi]; split; [done|]; unfold local_of; by rewrite <-Hi|]. intros n ->.
    eapply plainly_bind; [apply plainly_sig|]. intros o ->. by apply plainly_ret.
  - intros o ->. by apply plainly_ret.
Qed.

Lemma plainly_overlay_all viewAt req l : plainly (overlay_all cfg viewAt req l) (Forall2 shown l).
Proof.
  apply plainly_mapM. intros w. destruct (rc_workAware cfg); [|apply plainly_overlay_plain]. unfold overlay_work.
  eapply plainly_bind with (Q := λ _, True); [by intros s|]. intros n _. eapply plainly_bind; [apply plainly_sig|]. intros o ->. apply plainly_overlay_plain.
Qed.

(** What comes after the choice of a worker is no refusal. *)
Lemma take_granted req w ticket s e : (take_slot cfg req w ticket env s).2 ≠ RRefused e.
Proof.
  unfold take_slot, bind, modify. destruct (call_sig _ env _) as [s1 [tok|]]; [|done]. destruct (call_sig _ env s1) as [s2 added].
  destruct (rc_workAware cfg); [|done]. by destruct (call_sig _ env s2).
Qed.

(** No worker of [ws] may serve, or the context has ended. *)
Definition unserved (req : InferenceRequest) (ws : list WorkerSnapshot) : Prop :=
  (∃ i, env_cancelled env i = true) ∨ Forall (λ w, may_serve req w = false) ws.

(** A selection is refused, in one round, or the slot is taken. *)
Lemma bare_loop req ws fuel broke :
  triple env bare_at (reserve_loop cfg (S fuel) req ws broke None) (λ r _, ∀ e, r = RRefused e → unserved req ws).
Proof.
  cbn [reserve_loop]. eapply triple_step with (Q := λ sel, ∀ e, sel = Refused e → unserved req ws).
  { intros s Hs. unfold select. pose proof (select_why (rc_sched cfg) (r_rotor s) (env_rnd env (r_calls s)) (env_cancelled env (r_calls s)) req ws) as Hw.
    destruct (SelectWorker _ _ _ _ _ _) as [r sel]. split; [done|]. cbn in *. intros e He. destruct (Hw e He); [left; by eexists|by right]. }
  intros [w|e|] Hsel; [|intros s Hs e' _; destruct e; by eapply Hsel|by intros s Hs].
  eapply triple_step; [apply plainly_res|]. intros o ->. intros s _ e He. by destruct (take_granted req w zeroTicket s e).
Qed.

Lemma bare_route req exclude v :
  triple env (λ s, bare_at s ∧ view_read env s (ir_Model req) = v) (route cfg req None exclude)
    (λ r _, ∀ e, r = NotRouted e → v = None ∨ ∃ l t ws, v = Some (l, t) ∧ Forall2 shown (filter (λ w, s_WorkerID w ∉ exclude) l) ws ∧ unserved req ws).
Proof.
  unfold route. eapply triple_bind with (Q := λ a s, bare_at s ∧ a = v).
  { intros s [Hs <-]. split; [by apply (plainly_view (ir_Model req))|apply view_result]. }
  intros a. apply triple_pure. intros ->. destruct v as [[all t]|]; [|intros s _ e _; by left]. set (l := filter _ all).
  destruct (andb _ _) eqn:Hex.
  { intros s _ e _. right. exists all, t, []. split_and!; [done| |by right]. apply andb_true_iff in Hex as [Hn%Nat.eqb_eq _].
    apply nil_length_inv in Hn. fold l. rewrite Hn. constructor. }
  eapply triple_step with (Q := λ wb, wb = (l, 0)).
  { eapply plainly_bind; [apply plainly_res|]. intros o ->. by apply plainly_ret. }
  intros wb ->. cbn [fst snd]. unfold reserve.
  eapply triple_bind with (Q := λ r _, ∀ e, r = RRefused e → ∃ ws, Forall2 shown l ws ∧ unserved req ws).
  { eapply triple_step; [apply plainly_overlay_all|]. intros ws Hws. eapply triple_post; [apply bare_loop|]. intros r s Hr e He. exists ws. split; [done|by eapply Hr]. }
  intros [w ticket lease cost|i|e| |] s Hr e' He'; try done. right. destruct (Hr e eq_refl) as (ws & Hws & Hu). by exists all, t, ws.
Qed.
End Bare.

(** The theorem's two parts on a refusal: what it says, and why it came. *)
Definition turned_away (req : InferenceRequest) (exclude : list string) (c : Core) (l : list WorkerSnapshot) : Prop :=
  Forall (λ w, s_WorkerID w ∉ exclude →
    offered req w = false ∨ s_MaxConcurrency w ≤ Z.max (ActiveRequests (s_Metrics w)) (local_of c (s_WorkerID w))) l.

Lemma turned_away_shown c req exclude l ws :
  Forall2 (shown c) (filter (λ w, s_WorkerID w ∉ exclude) l) ws → Forall (λ w, may_serve req w = false) ws → turned_away req exclude c l.
Proof.
  intros Hs Hm. apply Forall_forall. intros w Hw Hx. assert (w ∈ filter (λ w, s_WorkerID w ∉ exclude) l) as [i Hi]%list_elem_of_lookup by by apply list_elem_of_filter.
  destruct (Forall2_lookup_l _ _ _ _ _ Hs Hi) as (w' & Hw' & ->). rewrite Forall_forall in Hm. apply list_elem_of_lookup_2, Hm in Hw'.
  unfold may_serve in Hw'. apply andb_false_iff in Hw' as [Ho|Hf]; [by left|]. right. by apply Z.ltb_ge in Hf.
Qed.

(** C12: A routing, for every environment, ends in one of these ways and never in a panic: with a
    handle on a worker of the view it read, not excluded, READY, offered and not lost, below its
    concurrency with what this gateway has on it, with a breaker's ticket for it when breakers
    are on; as a waiter, only if it may wait and a worker could serve it; or with an error,
    WORKER_UNAVAILABLE if there was no usable view, and MODEL_NOT_FOUND only if the view listed
    no worker of the model at all.  A view that lists a worker id twice is the one exception:
    only then may the loop not end.  Without breakers and load tracking a request that may not
    wait and whose context lives is refused only if there is no view or every worker that is not
    excluded is not offered or full, by its report or by this gateway's own count. *)
Theorem route_answers `{ViewRule} `{GoPlatform} `{GoMapOrder} `{GoMath} `{UrlParser} cfg env s req wait exclude :
  env_ok env → cache_ok (wd_cache (r_world s)) → env_fit (queued wait) env → fit (queued wait) (r_world s) →
  strategy_ok (rc_sched cfg) req → valid (InputWeight (rc_weights cfg)) →
  let v := view_read env s (ir_Model req) in
  let '(s', r) := route cfg req wait exclude env s in
  routing_ok req wait exclude v (core s) r s' ∧ r ≠ RoutePanicked ∧
  (∀ e, r = NotRouted e → wait = None → bare (r_world s) → env_bare env → (∀ i, env_cancelled env i = false) →
   match v with None => True | Some (l, _) => turned_away req exclude (core s) l end).
Proof.
  intros He Hv Hf Hs Hst Hw v. pose proof (route_ok cfg env He req wait exclude v (core s) s (conj (conj eq_refl Hv) eq_refl)) as Hr.
  destruct (calm_route cfg (queued wait) env Hf req Hst Hw wait exclude id s Hs) as [_ Hp].
  pose proof (λ (Hb : bare (r_world s)) (Hbe : env_bare env), bare_route cfg env Hbe (core s) req exclude v s (conj (conj Hb eq_refl) eq_refl)) as Hbare.
  destruct wait as [tenant|]; destruct (route cfg req _ exclude env s) as [s' r]; (split_and!; [done|done|]); intros e -> Hwait Hb Hbe Hc; [done|].
  cbn in Hbare. destruct (Hbare Hb Hbe e eq_refl) as [->|(l & t & ws & -> & Hws & [[i Hi]|Hu])]; [done| |by eapply turned_away_shown].
  by rewrite Hc in Hi.
Qed.

(** ** Witness. *)

Lemma r_observed : Forall observed_ok r_view.
Proof. repeat constructor; apply f64_valid. Qed.

Lemma r_fit : fit false (r_world r_new).
Proof.
  split; [|intros t [= <-]; apply map_Forall_empty|done].
  intros sn model l [= <-]. cbn. intros [<- <-]%lookup_singleton_Some. exact r_observed.
Qed.

Lemma route_answers_witness :
  @routing_ok any_workers a_req None [] (view_read r_env r_new "m") (core r_new) (Routed 0) (r_run [OpRoute a_req None []]).
Proof.
  assert ((@route amd64 order_id r_cfg a_req None [] r_env r_new) = (r_run [OpRoute a_req None []], Routed 0)) as Hrun by (vm_compute; reflexivity).
  pose proof (@route_answers any_workers amd64 order_id half_math no_urls r_cfg r_env r_new a_req None [] ltac:(by intros ?) ltac:(by apply r_cache_ok)
    ltac:(by split) r_fit I ltac:(apply f64_valid)) as Hw. cbv zeta in Hw. rewrite Hrun in Hw. exact (proj1 Hw).
Defined.
