(* ===== verification/SimParams.v ===== *)
(** * The physics of a simulated worker: internal/sim/engine/params.go

    A parameter set is a plain value: step and prefill costs, their noise, the KV-cache budget
    and the output-length rule.  [Params_Validate] is the switch of the source, [normalized]
    folds negative zeros, [profiles] are the built-in sets and [ms] turns milliseconds into a
    Duration.  The file format (encoding/json, SHA-256) is not modelled. *)

From S2P Require Import Prelude GoFloat GoString.

Local Open Scope string_scope.
Local Open Scope list_scope.
Local Open Scope Z_scope.

Record EngineParams := mkEngineParams {
  p_Name : string;
  p_Provenance : string;
  StepBaseMs : float64;
  StepPerSeqMs : float64;
  StepNoiseCV : float64;
  PrefillFixedMs : float64;
  PrefillPerTokenMs : float64;
  PrefillNoiseCV : float64;
  PrefillChunkTokens : Z;
  KVBudgetTokens : Z;
  KVBytesPerToken : Z;
  WeightsMB : Z;
  OutputCV : float64;
  OutputFraction : float64;
}.

Definition maxStepMs : float64 := f64 60000.
Definition maxKVBudget : Z := 2 ^ 26.
Definition maxKVBytesToken : Z := 2 ^ 30.
Definition maxWeightsMB : Z := 2 ^ 30.
Definition maxCV : float64 := f64 2.
Definition maxChunk : Z := 2 ^ 20.
Definition maxTextLen : Z := 256.

Definition okMs (v : float64) : bool := negb (isNaN v) && fle f0 v && fle v maxStepMs.

Definition okCV (v : float64) : bool := negb (isNaN v) && fle f0 v && fle v maxCV.

(** [range] over a string yields [utf8.RuneError] for each invalid byte, which [okText] refuses
    like the rune itself; [runes] has no value then. *)
Definition RuneError : Z := 65533.

Definition okText (s : string) (allowEmpty : bool) : bool :=
  if ((s =? "")%string && negb allowEmpty) || (maxTextLen <? slen s) then false else
  match runes s with
  | None => false
  | Some rs => forallb (λ r, negb ((r <? 32) || (r =? 127) || (r =? RuneError))) rs
  end.

(** The cases of the switch, in its order; the messages' arguments are left out. *)
Inductive ParamsError :=
  | ErrName | ErrProvenance | ErrStepMs | ErrStepTakesTime | ErrPrefillMs | ErrNoiseCV
  | ErrPrefillChunk | ErrKVBudget | ErrKVBytes | ErrWeights | ErrOutputFraction.

Definition Params_Validate (p : EngineParams) : option ParamsError :=
  if negb (okText (p_Name p) false) then Some ErrName
  else if negb (okText (p_Provenance p) false) then Some ErrProvenance
  else if negb (okMs (StepBaseMs p)) || negb (okMs (StepPerSeqMs p)) then Some ErrStepMs
  else if fle (fadd (StepBaseMs p) (StepPerSeqMs p)) f0 then Some ErrStepTakesTime
  else if negb (okMs (PrefillFixedMs p)) || negb (okMs (PrefillPerTokenMs p)) then Some ErrPrefillMs
  else if negb (okCV (StepNoiseCV p)) || negb (okCV (PrefillNoiseCV p)) || negb (okCV (OutputCV p)) then Some ErrNoiseCV
  else if (PrefillChunkTokens p <? 0) || (maxChunk <? PrefillChunkTokens p) then Some ErrPrefillChunk
  else if (KVBudgetTokens p <? 2) || (maxKVBudget <? KVBudgetTokens p) then Some ErrKVBudget
  else if (KVBytesPerToken p <? 0) || (maxKVBytesToken <? KVBytesPerToken p) then Some ErrKVBytes
  else if (WeightsMB p <? 0) || (maxWeightsMB <? WeightsMB p) then Some ErrWeights
  else if isNaN (OutputFraction p) || flt (OutputFraction p) f0 || flt (f64 1) (OutputFraction p)
  then Some ErrOutputFraction
  else None.

(** [*f += 0]: -0 + +0 is +0. *)
Definition normalized (p : EngineParams) : EngineParams :=
  let z v := fadd v f0 in
  mkEngineParams (p_Name p) (p_Provenance p) (z (StepBaseMs p)) (z (StepPerSeqMs p)) (z (StepNoiseCV p))
    (z (PrefillFixedMs p)) (z (PrefillPerTokenMs p)) (z (PrefillNoiseCV p)) (PrefillChunkTokens p)
    (KVBudgetTokens p) (KVBytesPerToken p) (WeightsMB p) (z (OutputCV p)) (z (OutputFraction p)).

Definition assumed : string :=
  "assumed: order-of-magnitude shape of a 7-8B model on one datacenter GPU; not fitted to any measurement".

(** A built-in profile: what its literal sets, the other fields zero. *)
Definition profile (name : string) (base perSeq noise fixed perToken pnoise : float64) (budget : Z) : EngineParams :=
  mkEngineParams name assumed base perSeq noise fixed perToken pnoise 0 budget 524288 14000 f0 f0.

Definition profiles : list (string * EngineParams) := [
  ("default", profile "default" (f64 20) (f64 1) f0 (f64 5) (flit 1 1) f0 32768);
  ("fast", profile "fast" (f64 10) (flit 5 1) f0 (f64 3) (flit 5 2) f0 65536);
  ("medium", profile "medium" (f64 20) (f64 1) f0 (f64 5) (flit 1 1) f0 32768);
  ("slow", profile "slow" (f64 40) (f64 2) f0 (f64 10) (flit 2 1) f0 16384);
  ("kv-tight", profile "kv-tight" (f64 20) (f64 1) f0 (f64 5) (flit 1 1) f0 6144);
  ("noisy", profile "noisy" (f64 20) (f64 1) (flit 3 1) (f64 5) (flit 1 1) (flit 3 1) 32768)].

Definition Profile (name : string) : option EngineParams :=
  snd <$> List.find (λ e, (e.1 =? name)%string) profiles.

(** Iterations are bounded by a day. *)
Definition maxIteration : Z := 24 * 3600 * Second.

Definition ms `{GoPlatform} (v : float64) : Z :=
  let ns := fround (fmul v (f64 Millisecond)) in
  if fle (f64 maxIteration) ns then maxIteration else float_to_int ns.

(** Every built-in profile is one a parameter file could have. *)
Lemma profiles_valid : Forall (λ e, Params_Validate e.2 = None ∧ normalized e.2 = e.2) profiles.
Proof. repeat constructor; vm_compute; reflexivity. Qed.

Lemma Params_Validate_bounds p : Params_Validate p = None →
  0 ≤ PrefillChunkTokens p ≤ 2 ^ 20 ∧ 2 ≤ KVBudgetTokens p ≤ 2 ^ 26 ∧
  0 ≤ KVBytesPerToken p ≤ 2 ^ 30 ∧ 0 ≤ WeightsMB p ≤ 2 ^ 30.
Proof.
  unfold Params_Validate, maxChunk, maxKVBudget, maxKVBytesToken, maxWeightsMB. intros Hv.
  repeat match type of Hv with context [if ?b then _ else _] =>
    match b with
    | context [(_ <? _)] => destruct b eqn:?; [discriminate Hv|]
    | _ => destruct b; [discriminate Hv|]
    end end.
  bprop. lia.
Qed.
