(* ===== verification/SimEngine.v ===== *)
(** * The simulated inference engine: internal/sim/engine/engine.go and rate.go

    A continuous-batching engine as a state machine over virtual time.  A [*seq] of the source is
    a pointer: the engine keeps the records in [heap], under the request's id, and its lists and
    its current iteration hold ids, so that a record changed through one list is changed for all.
    A record stays in the heap after its request is gone, as the iteration under way may still
    point to it.  The slice behind the [evs *[]Event] argument, which every function below an
    entry point appends to, is the field [evs]; an entry point starts it empty.

    The random streams and the two transcendental functions of package math are parameters
    ([GoRand]); nothing about their values is assumed. *)

From S2P Require Import Prelude GoFloat GoString SimParams.

Local Open Scope string_scope.
Local Open Scope list_scope.
Local Open Scope Z_scope.
Local Open Scope go_scope.

(** math/rand/v2's generator and math's Log1p and Exp. *)
Class GoRand := {
  Rand : Type;
  NewPCG : Z → Z → Rand;
  NormFloat64 : Rand → Rand * float64;
  Log1p : float64 → float64;
  Exp : float64 → float64;
}.

(** ** The recent-throughput window (rate.go). *)

Definition rateBucketWidth : Z := 100 * Millisecond.
Definition windowBuckets : Z := 50.
Definition ringSize : Z := windowBuckets + 1.

Record slot := mkSlot { sl_idx : Z; sl_n : Z }.

Record rateWindow := mkRate {
  slots : list slot;
  epoch : Z;
  first : Z;
  last : Z;
  r_started : bool;
}.

#[export] Instance eta_rate : Settable rateWindow :=
  {| eta_of := λ r, mkRate (slots r) (epoch r) (first r) (last r) (r_started r) |}.

Definition emptySlots : list slot := replicate (Z.to_nat ringSize) (mkSlot 0 0).

Definition rate_bucketOf (t : rateWindow) (now : Z) : Z :=
  let d := now -! epoch t in
  if 0 <? d then Z.quot d rateBucketWidth else 0.

Definition rate_record (t : rateWindow) (now n : Z) : rateWindow :=
  let t := if negb (r_started t) then t <| epoch := now |> else t in
  let idx := rate_bucketOf t now in
  let t :=
    if negb (r_started t) || (windowBuckets <? idx -! last t)
    then t <| slots := emptySlots |> <| first := idx |> <| r_started := true |> else t in
  let i := Z.to_nat (Z.rem idx ringSize) in
  let s := default (mkSlot 0 0) (slots t !! i) in
  let s := if sl_idx s =? idx then s else mkSlot idx 0 in
  t <| slots := <[i := mkSlot (sl_idx s) (sl_n s +! n)]> (slots t) |> <| last := idx |>.

Definition rate_total (lo hi : Z) (l : list slot) : Z :=
  foldl (λ total s, if (sl_idx s <? hi) && (lo <=? sl_idx s) then total +! sl_n s else total) 0 l.

Definition rate_rate (t : rateWindow) (now : Z) : float64 :=
  if negb (r_started t) then f0 else
  let cur := rate_bucketOf t now in
  let covered := cur -! (first t +! 1) in
  let covered := if windowBuckets <? covered then windowBuckets else covered in
  if covered <=? 0 then f0 else
  let total := rate_total (cur -! covered) cur (slots t) in
  fdiv (f64 total) (fmul (f64 covered) (Seconds rateBucketWidth)).

(** ** Configuration, requests, events. *)

Record Config := mkConfig {
  c_Params : EngineParams;
  c_Seed : Z;
  MaxSeqs : Z;
  MaxQueue : Z;
  OutputMeanTokens : Z;
}.

Definition maxSeqsCap : Z := 2 ^ 14.
Definition maxQueueCap : Z := 2 ^ 20.
Definition maxOutputCap : Z := 2 ^ 20.
Definition minIteration : Z := Microsecond.
Definition maxOutput : Z := 2 ^ 30.
Definition noiseClamp : float64 := f64 20.

Inductive ConfigError :=
  | ErrParams (e : ParamsError) | ErrMaxSeqs | ErrMaxQueue | ErrOutputMean.

Definition EngineConfig_Validate (c : Config) : option ConfigError :=
  match Params_Validate (c_Params c) with
  | Some err => Some (ErrParams err)
  | None =>
      if (MaxSeqs c <? 1) || (maxSeqsCap <? MaxSeqs c) then Some ErrMaxSeqs
      else if (MaxQueue c <? 0) || (maxQueueCap <? MaxQueue c) then Some ErrMaxQueue
      else if (OutputMeanTokens c <? 1) || (maxOutputCap <? OutputMeanTokens c) then Some ErrOutputMean
      else None
  end.

Inductive SubmitError := ErrQueueFull | ErrTooLarge | ErrInvalidRequest | ErrTimeRegression.

Record Request := mkRequest { InputTokens : Z; MaxTokens : Z }.

Record SubmitInfo := mkSubmitInfo { i_ID : Z; OutputTokens : Z; i_Finish : string }.

Inductive EventKind := EvStart | EvToken | EvPreempt | EvDone.

#[export] Instance EventKind_eq_dec : EqDecision EventKind.
Proof. solve_decision. Defined.

Record Event := mkEvent { At : Z; ev_ID : Z; ev_Kind : EventKind; Index : Z; ev_Finish : string }.

Inductive seqState := stWaiting | stPrefilling | stRunning | stGone.

#[export] Instance seqState_eq_dec : EqDecision seqState.
Proof. solve_decision. Defined.

Record Seq := mkSeq {
  s_id : Z;
  s_input : Z;
  s_target : Z;
  s_finish : string;
  generated : Z;
  kvHeld : Z;
  prefillTarget : Z;
  prefilled : Z;
  prefillBegun : bool;
  s_started : bool;
  s_state : seqState;
}.

#[export] Instance eta_Seq : Settable Seq :=
  {| eta_of := λ s, mkSeq (s_id s) (s_input s) (s_target s) (s_finish s) (generated s) (kvHeld s)
       (prefillTarget s) (prefilled s) (prefillBegun s) (s_started s) (s_state s) |}.

Record iteration := mkIteration { it_prefill : option Z; it_chunk : Z; it_decode : list Z }.

Definition noIteration : iteration := mkIteration None 0 [].

Definition zeroSeq : Seq := mkSeq 0 0 0 "" 0 0 0 0 false false stWaiting.

Definition deref (h : gmap Z Seq) (p : Z) : Seq := default zeroSeq (h !! p).

Fixpoint removeSeq (l : list Z) (p : Z) : list Z :=
  match l with
  | [] => []
  | x :: l => if x =? p then l else x :: removeSeq l p
  end.

(** [addDuration]: saturating at the largest Duration. *)
Definition addDuration (t d : Z) : Z := if int64_max -! d <? t then int64_max else t +! d.

Definition splitmix (x : Z) : Z :=
  let x := wrapU64 (x + 0x9e3779b97f4a7c15) in
  let x := wrapU64 (Z.lxor x (Z.shiftr x 30) * 0xbf58476d1ce4e5b9) in
  let x := wrapU64 (Z.lxor x (Z.shiftr x 27) * 0x94d049bb133111eb) in
  Z.lxor x (Z.shiftr x 31).

(** ** The engine. *)

Section engine.
Context `{GoPlatform} `{GoRand}.

Record Engine := mkEngine {
  cfg : Config;
  e_p : EngineParams;
  e_now : Z;
  next : Z;
  rng : Rand;
  heap : gmap Z Seq;
  waiting : list Z;
  prefilling : list Z;
  running : list Z;
  byID : gmap Z Z;
  kvUsed : Z;
  busy : bool;
  iterEnd : Z;
  iter : iteration;
  rate : rateWindow;
  submitted : Z;
  completed : Z;
  rejected : Z;
  cancelled : Z;
  preemptions : Z;
  kvEnded : Z;
  tokens : Z;
  evs : list Event;
}.

#[export] Instance eta_Engine : Settable Engine :=
  {| eta_of := λ e, mkEngine (cfg e) (e_p e) (e_now e) (next e) (rng e) (heap e) (waiting e) (prefilling e)
       (running e) (byID e) (kvUsed e) (busy e) (iterEnd e) (iter e) (rate e) (submitted e) (completed e)
       (rejected e) (cancelled e) (preemptions e) (kvEnded e) (tokens e) (evs e) |}.

Definition New (c : Config) : ConfigError + Engine :=
  match EngineConfig_Validate c with
  | Some err => inl err
  | None =>
      inr (mkEngine c (c_Params c) 0 0 (NewPCG (wrapU64 (c_Seed c)) 0x9e3779b97f4a7c15) ∅ [] [] [] ∅ 0 false 0
             noIteration (mkRate emptySlots 0 0 0 false) 0 0 0 0 0 0 0 [])
  end.

(** The record a pointer points to, and an assignment through it. *)
Definition at_ (e : Engine) (p : Z) : Seq := deref (heap e) p.

Definition set_ (e : Engine) (p : Z) (s : Seq) : Engine := e <| heap := <[p := s]> (heap e) |>.

Definition emit (e : Engine) (ev : Event) : Engine := e <| evs := evs e ++ [ev] |>.

Definition remove (e : Engine) (p : Z) : Engine :=
  let s := at_ e p in
  let e :=
    match s_state s with
    | stWaiting => e <| waiting := removeSeq (waiting e) p |>
    | stPrefilling => e <| prefilling := removeSeq (prefilling e) p |>
    | stRunning => e <| running := removeSeq (running e) p |>
    | stGone => e
    end in
  let e := e <| kvUsed := kvUsed e -! kvHeld s |> in
  let e := set_ e p (s <| kvHeld := 0 |> <| s_state := stGone |>) in
  e <| byID := delete (s_id s) (byID e) |>.

Definition finish (e : Engine) (p : Z) (t : Z) (reason : string) : Engine :=
  let e := remove e p in
  emit e (mkEvent t (s_id (at_ e p)) EvDone (generated (at_ e p)) reason).

Definition emitToken (e : Engine) (p : Z) (t : Z) : Engine :=
  let e := emit e (mkEvent t (s_id (at_ e p)) EvToken (generated (at_ e p)) "") in
  let s := at_ e p in
  let s := s <| generated := generated s +! 1 |> in
  let e := set_ e p s in
  let e := e <| tokens := tokens e +! 1 |> in
  let e := e <| rate := rate_record (rate e) t 1 |> in
  if s_target s <=? generated s
  then finish (e <| completed := completed e +! 1 |>) p t (s_finish s)
  else e.

(** The effects of the iteration that ends at [t]. *)
Definition finishIteration (e : Engine) (t : Z) : Engine :=
  let it := iter e in
  let e := e <| iter := noIteration |> <| busy := false |> in
  let e := foldl (λ e p, if decide (s_state (at_ e p) ≠ stRunning) then e else emitToken e p t) e (it_decode it) in
  match it_prefill it with
  | None => e
  | Some p =>
      if decide (s_state (at_ e p) = stPrefilling) then
        let s := at_ e p in
        let s := s <| prefilled := prefilled s +! it_chunk it |> in
        let e := set_ e p s in
        if prefillTarget s <=? prefilled s then
          let e := e <| prefilling := removeSeq (prefilling e) p |> in
          let e := set_ e p (s <| s_state := stRunning |>) in
          let e := e <| running := running e ++ [p] |> in
          emitToken e p t
        else e
      else e
  end.

Definition len {A} (l : list A) : Z := Z.of_nat (length l).

(** [admit], the loop over the head of the wait queue; each round takes one off. *)
Fixpoint admitLoop (fuel : nat) (e : Engine) (t : Z) : Engine :=
  match fuel, waiting e with
  | S fuel, p :: rest =>
      if len (prefilling e) +! len (running e) <? MaxSeqs (cfg e) then
        let s := at_ e p in
        let need := prefillTarget s +! 1 in
        if KVBudgetTokens (e_p e) <? kvUsed e +! need then e else
        let e := e <| waiting := rest |> in
        let s := s <| kvHeld := need |> <| s_state := stPrefilling |> <| prefilled := 0 |> <| prefillBegun := false |> in
        let e := set_ e p s in
        let e := e <| kvUsed := kvUsed e +! need |> in
        let e := e <| prefilling := prefilling e ++ [p] |> in
        let e :=
          if negb (s_started s)
          then emit (set_ e p (s <| s_started := true |>)) (mkEvent t (s_id s) EvStart 0 "")
          else e in
        admitLoop fuel e t
      else e
  | _, _ => e
  end.

Definition admitWaiting (e : Engine) (t : Z) : Engine := admitLoop (length (waiting e)) e t.

(** [reserveDecodeKV]: each round takes the last sequence out of the batch. *)
Fixpoint reserveLoop (fuel : nat) (changed : bool) (e : Engine) (t : Z) : bool * Engine :=
  match fuel, list.last (running e) with
  | S fuel, Some victim =>
      if KVBudgetTokens (e_p e) <? kvUsed e +! len (running e) then
        if (len (running e) =? 1) && (len (prefilling e) =? 0) then
          let e := e <| kvEnded := kvEnded e +! 1 |> in
          reserveLoop fuel true (finish e victim t "length") t
        else
          let s := at_ e victim in
          let e := e <| running := take (length (running e) - 1) (running e) |> in
          let e := e <| kvUsed := kvUsed e -! kvHeld s |> in
          let s := s <| kvHeld := 0 |> <| s_state := stWaiting |> in
          let s := s <| prefillTarget := s_input s +! generated s |> <| prefilled := 0 |> <| prefillBegun := false |> in
          let e := set_ e victim s in
          let e := e <| waiting := victim :: waiting e |> in
          let e := e <| preemptions := preemptions e +! 1 |> in
          reserveLoop fuel true (emit e (mkEvent t (s_id s) EvPreempt (generated s) "")) t
      else (changed, e)
  | _, _ => (changed, e)
  end.

Definition reserveDecodeKV (e : Engine) (t : Z) : bool * Engine := reserveLoop (length (running e)) false e t.

(** ** Random draws and durations. *)

Definition lognormal (r : Rand) (cv : float64) : Rand * float64 :=
  if fle cv f0 then (r, f64 1) else
  let s2 := Log1p (fmul cv cv) in
  let '(r, z) := NormFloat64 r in
  let f := Exp (fadd (fdiv (fopp s2) (f64 2)) (fmul (fsqrt s2) z)) in
  (r, fmin (fmax f (fdiv (f64 1) noiseClamp)) noiseClamp).

Definition drawOutput (e : Engine) (id maxTokens : Z) : Z * string :=
  let r := NewPCG (wrapU64 (c_Seed (cfg e))) (splitmix (wrapU64 id)) in
  let '(_, f) := lognormal r (OutputCV (e_p e)) in
  let natural :=
    if flt f0 (OutputFraction (e_p e)) && (0 <? maxTokens)
    then fmul (fmin (fmul (OutputFraction (e_p e)) f) (f64 1)) (f64 maxTokens)
    else fmul (f64 (OutputMeanTokens (cfg e))) f in
  let n := float_to_int (fround (fmin natural (f64 maxOutput))) in
  let n := Z.max n 1 in
  if (0 <? maxTokens) && (maxTokens <=? n) then (maxTokens, "length") else (n, "stop").

Definition clampIteration (d : Z) : Z := Z.min (Z.max d minIteration) maxIteration.

Definition decodeDuration (e : Engine) (b : Z) : Engine * Z :=
  let '(r, f) := lognormal (rng e) (StepNoiseCV (e_p e)) in
  let d := ms (fmul (fadd (StepBaseMs (e_p e)) (fmul (StepPerSeqMs (e_p e)) (f64 b))) f) in
  (e <| rng := r |>, clampIteration d).

Definition prefillDuration (e : Engine) (chunk : Z) (isFirst : bool) : Engine * Z :=
  let v := fmul (PrefillPerTokenMs (e_p e)) (f64 chunk) in
  let v := if isFirst then fadd v (PrefillFixedMs (e_p e)) else v in
  let '(r, f) := lognormal (rng e) (PrefillNoiseCV (e_p e)) in
  (e <| rng := r |>, clampIteration (ms (fmul v f))).

(** ** Iterations. *)

Definition inactive (e : Engine) : bool := (len (prefilling e) =? 0) && (len (running e) =? 0).

Definition decoding (e : Engine) : bool :=
  (0 <? len (running e)) && ((len (prefilling e) =? 0) || (0 <? PrefillChunkTokens (e_p e))).

(** The guarded loop of [startIteration]; the [return] inside it is the test that follows it. *)
Fixpoint startLoop (guard : nat) (e : Engine) (t : Z) : Engine :=
  match guard with
  | O => e
  | S guard =>
      let e := admitWaiting e t in
      if inactive e then e else
      if decoding e then
        let '(changed, e) := reserveDecodeKV e t in
        if changed then startLoop guard e t else e
      else e
  end.

Definition launchPrefill (e : Engine) : Engine * option Z * Z * Z :=
  match prefilling e with
  | [] => (e, None, 0, 0)
  | p :: _ =>
      let s := at_ e p in
      let chunk := prefillTarget s -! prefilled s in
      let c := PrefillChunkTokens (e_p e) in
      let chunk := if (0 <? c) && (c <? chunk) then c else chunk in
      let '(e, d) := prefillDuration e chunk (negb (prefillBegun s)) in
      (set_ e p (s <| prefillBegun := true |>), Some p, chunk, d)
  end.

Definition holdToken (e : Engine) (p : Z) : Engine :=
  let s := at_ e p in
  let e := set_ e p (s <| kvHeld := kvHeld s +! 1 |>) in
  e <| kvUsed := kvUsed e +! 1 |>.

Definition launch (e : Engine) (t : Z) : Engine :=
  let dec := decoding e in
  let '(e, pre, chunk, dur) := launchPrefill e in
  let '(e, batch, dur) :=
    if dec then
      let batch := running e in
      let '(e, d) := decodeDuration e (len batch) in
      (foldl holdToken e batch, batch, dur +! d)
    else (e, [], dur) in
  e <| iter := mkIteration pre chunk batch |> <| busy := true |> <| iterEnd := addDuration t dur |>.

Definition startIteration (e : Engine) (t : Z) : Engine :=
  let e := e <| busy := false |> in
  let e := startLoop (Z.to_nat (4 * MaxSeqs (cfg e) + 8)) e t in
  if inactive e then e else launch e t.

Fixpoint advanceLoop (fuel : nat) (now : Z) (e : Engine) : option Engine :=
  if busy e && (iterEnd e <=? now) then
    match fuel with
    | O => None
    | S fuel =>
        let t := iterEnd e in
        advanceLoop fuel now (startIteration (finishIteration e t) t)
    end
  else Some e.

(** ** Fuel for [advanceLoop]: every iteration after the first either emits a token or processes
    prompt tokens without any sequence losing its place.  [tokensLeft] bounds the former,
    [promptSpan] what is processed between two tokens. *)

Definition live (e : Engine) : list Z := waiting e ++ prefilling e ++ running e.

Definition tokensLeft (e : Engine) : Z := sumZ ((λ p, s_target (at_ e p) - generated (at_ e p)) <$> live e).

Definition promptSpan (e : Engine) : Z := sumZ ((λ p, s_input (at_ e p) + s_target (at_ e p)) <$> live e).

Definition advanceFuel (e : Engine) : nat := Z.to_nat (tokensLeft e * (promptSpan e + 1) + promptSpan e + 1).

(** [None] only if the fuel does not suffice. *)
Definition advanceTo (now : Z) (e : Engine) : option (Engine * option SubmitError) :=
  if now <? e_now e then Some (e, Some ErrTimeRegression) else
  match advanceLoop (advanceFuel e) now e with
  | None => None
  | Some e => Some (e <| e_now := now |>, None)
  end.

(** ** Entry points. *)

Definition NextEvent (e : Engine) : option Z := if busy e then Some (iterEnd e) else None.

Definition Advance (now : Z) (e : Engine) : option (Engine * list Event * option SubmitError) :=
  match advanceTo now (e <| evs := [] |>) with
  | None => None
  | Some (e, Some err) => Some (e, [], Some err)
  | Some (e, None) => Some (e, evs e, None)
  end.

(** [Submit] after the clock has been advanced. *)
Definition enqueueRequest (now : Z) (r : Request) (e : Engine) : Engine * list Event * (SubmitError + SubmitInfo) :=
  if (InputTokens r <? 1) || (MaxTokens r <? 0) then (e, evs e, inl ErrInvalidRequest) else
  if KVBudgetTokens (e_p e) -! 1 <? InputTokens r
  then (e <| rejected := rejected e +! 1 |>, evs e, inl ErrTooLarge) else
  let free := Z.max (MaxSeqs (cfg e) -! len (prefilling e) -! len (running e)) 0 in
  if MaxQueue (cfg e) +! free <=? len (waiting e)
  then (e <| rejected := rejected e +! 1 |>, evs e, inl ErrQueueFull) else
  let e := e <| next := next e +! 1 |> in
  let p := next e in
  let '(target, fin) := drawOutput e p (MaxTokens r) in
  let s := mkSeq p (InputTokens r) target fin 0 0 (InputTokens r) 0 false false stWaiting in
  let e := set_ e p s in
  let e := e <| byID := <[p := p]> (byID e) |> in
  let e := e <| waiting := waiting e ++ [p] |> in
  let e := e <| submitted := submitted e +! 1 |> in
  let e := if negb (busy e) then startIteration e now else e in
  (e, evs e, inr (mkSubmitInfo p target fin)).

Definition Submit (now : Z) (r : Request) (e : Engine) : option (Engine * list Event * (SubmitError + SubmitInfo)) :=
  match advanceTo now (e <| evs := [] |>) with
  | None => None
  | Some (e, Some err) => Some (e, [], inl err)
  | Some (e, None) => Some (enqueueRequest now r e)
  end.

Definition Cancel (now : Z) (id : Z) (e : Engine) : option (Engine * list Event * (SubmitError + bool)) :=
  match advanceTo now (e <| evs := [] |>) with
  | None => None
  | Some (e, Some err) => Some (e, [], inl err)
  | Some (e, None) =>
      match byID e !! id with
      | None => Some (e, evs e, inr false)
      | Some p =>
          let e := remove e p in
          Some (e <| cancelled := cancelled e +! 1 |>, evs e, inr true)
      end
  end.

(** ** Statistics. *)

Record EngineStats := mkEngineStats {
  Active : Z;
  st_Prefilling : Z;
  st_Running : Z;
  QueueDepth : Z;
  QueuedInputTokens : Z;
  RecentTokensPerSecond : float64;
  KVUsedTokens : Z;
  st_KVBudgetTokens : Z;
  GPUUtilization : float64;
  GPUMemoryUsedMB : Z;
  Submitted : Z;
  Completed : Z;
  Rejected : Z;
  Cancelled : Z;
  Preemptions : Z;
  KVExhausted : Z;
  Tokens : Z;
}.

Definition stats (e : Engine) : EngineStats :=
  let queued := foldl (λ q p, q +! s_input (at_ e p)) 0 (waiting e) in
  let active := len (prefilling e) +! len (running e) in
  let mem := WeightsMB (e_p e) +! Z.quot (kvUsed e *! KVBytesPerToken (e_p e)) (2 ^ 20) in
  mkEngineStats active (len (prefilling e)) (len (running e)) (len (waiting e)) queued (rate_rate (rate e) (e_now e))
    (kvUsed e) (KVBudgetTokens (e_p e)) (fdiv (fmul (f64 100) (f64 active)) (f64 (MaxSeqs (cfg e)))) mem
    (submitted e) (completed e) (rejected e) (cancelled e) (preemptions e) (kvEnded e) (tokens e).

(** ** [CheckInvariants], with the reasons it can give. *)

Inductive Violation :=
  | TwoLists | NotIndexed | WaitingHolds | LiveCount | KVSum | KVRange | TooManySeqs | RunningHolds.

(** The first loop: what one list adds to (seen, live, kv), or the violation found in it. *)
Fixpoint checkList (e : Engine) (name : string) (l : list Z) (acc : gset Z * Z * Z) : Violation + gset Z * Z * Z :=
  match l with
  | [] => inr acc
  | p :: l =>
      let '(seen, lv, kv) := acc in
      let s := at_ e p in
      if decide (s_id s ∈ seen) then inl TwoLists else
      if decide (byID e !! s_id s ≠ Some p) then inl NotIndexed else
      if (name =? "waiting")%string && negb (kvHeld s =? 0) then inl WaitingHolds else
      checkList e name l ({[s_id s]} ∪ seen, lv +! 1, kv +! kvHeld s)
  end.

Fixpoint checkLists (e : Engine) (ls : list (string * list Z)) (acc : gset Z * Z * Z) : Violation + gset Z * Z * Z :=
  match ls with
  | [] => inr acc
  | (name, l) :: ls =>
      match checkList e name l acc with
      | inl v => inl v
      | inr acc => checkLists e ls acc
      end
  end.

(** The last loop: a sequence in the decode step under way holds one extra token. *)
Fixpoint checkRunning (e : Engine) (l : list Z) : option Violation :=
  match l with
  | [] => None
  | p :: l =>
      let s := at_ e p in
      let want := s_input s +! generated s in
      let want := if decide (p ∈ it_decode (iter e)) then want +! 1 else want in
      if negb (kvHeld s =? want) then Some RunningHolds else checkRunning e l
  end.

Definition CheckInvariants `{GoMapOrder} (e : Engine) : option Violation :=
  let lists : gmap string (list Z) :=
    list_to_map [("waiting", waiting e); ("prefilling", prefilling e); ("running", running e)] in
  match checkLists e (range_map lists) (∅, 0, 0) with
  | inl v => Some v
  | inr (_, lv, kv) =>
      if negb (lv =? Z.of_nat (size (byID e))) then Some LiveCount
      else if negb (kv =? kvUsed e) then Some KVSum
      else if (kvUsed e <? 0) || (KVBudgetTokens (e_p e) <? kvUsed e) then Some KVRange
      else if MaxSeqs (cfg e) <? len (prefilling e) +! len (running e) then Some TooManySeqs
      else checkRunning e (running e)
  end.

End engine.
