(* ===== verification/SimEngineSpec.v ===== *)
(** * The simulated engine keeps its accounts and always answers

    [wf D e] is the invariant of the engine: every live request is in exactly one list, indexed
    under its id, and its record is the one its list calls for; the KV tokens in use are the sum
    of what the requests hold and fit the budget.  [D] are the sequences that hold the extra
    token of a decode step under way: the batch of the current iteration at rest, none while the
    next iteration is being put together.

    The operations preserve it, so [CheckInvariants] never finds a violation; the guard of the
    loop of [startIteration] is never used up; and [advanceTo] always terminates, within a number
    of iterations given by the tokens still to be produced. *)

From S2P Require Import Prelude GoFloat GoString SimParams SimEngine.

Local Open Scope string_scope.
Local Open Scope list_scope.
Local Open Scope Z_scope.
Local Open Scope go_scope.

(** ** Lists of pointers and sums over them. *)

Lemma removeSeq_perm l p : p ∈ l → l ≡ₚ p :: removeSeq l p.
Proof.
  induction l as [|x l IH]; intros Hin; [set_solver|]. cbn.
  destruct (Z.eqb_spec x p) as [->|Hx]; [done|].
  rewrite IH at 1 by set_solver. apply Permutation_swap.
Qed.

Lemma removeSeq_elem l p q : NoDup l → p ∈ l → q ∈ removeSeq l p ↔ q ∈ l ∧ q ≠ p.
Proof.
  intros Hnd Hin. pose proof (removeSeq_perm l p Hin) as Hp.
  rewrite Hp in Hnd. apply NoDup_cons in Hnd as [Hn _].
  rewrite Hp at 2. rewrite elem_of_cons. naive_solver.
Qed.

Lemma deref_insert h p s q : deref (<[p := s]> h) q = if decide (q = p) then s else deref h q.
Proof.
  unfold deref. destruct (decide (q = p)) as [->|Hq]; [by rewrite lookup_insert_eq|].
  by rewrite lookup_insert_ne by done.
Qed.

Lemma deref_insert_eq h p s : deref (<[p := s]> h) p = s.
Proof. by rewrite deref_insert, decide_True. Qed.

Lemma deref_insert_ne h p s q : q ≠ p → deref (<[p := s]> h) q = deref h q.
Proof. intros. by rewrite deref_insert, decide_False. Qed.

Definition hsum (f : Seq → Z) (h : gmap Z Seq) (l : list Z) : Z := sumZ ((λ p, f (deref h p)) <$> l).

#[global] Arguments hsum : simpl never.
#[global] Arguments remove : simpl never.
#[global] Arguments finish : simpl never.
#[global] Arguments emitToken : simpl never.
#[global] Arguments deref : simpl never.
#[global] Arguments len : simpl never.

Lemma hsum_cons f h p l : hsum f h (p :: l) = f (deref h p) + hsum f h l.
Proof. done. Qed.

Lemma hsum_app f h l k : hsum f h (l ++ k) = hsum f h l + hsum f h k.
Proof. unfold hsum. by rewrite fmap_app, sumZ_app. Qed.

Lemma hsum_perm f h l k : l ≡ₚ k → hsum f h l = hsum f h k.
Proof. intros Hp. apply sumZ_perm. by rewrite Hp. Qed.

Lemma hsum_ext f h g h' l : (∀ p, p ∈ l → f (deref h p) = g (deref h' p)) → hsum f h l = hsum g h' l.
Proof.
  intros He. unfold hsum. f_equal. apply list_fmap_ext. intros i p Hp. apply He.
  by eapply list_elem_of_lookup_2.
Qed.

Lemma hsum_insert_notin f h p s l : p ∉ l → hsum f (<[p := s]> h) l = hsum f h l.
Proof. intros Hp. apply hsum_ext. intros q Hq. rewrite deref_insert_ne; [done|]. by intros ->. Qed.

Lemma hsum_insert f h p s l : NoDup l → p ∈ l → hsum f (<[p := s]> h) l = hsum f h l - f (deref h p) + f s.
Proof.
  intros Hnd Hin. pose proof (removeSeq_perm l p Hin) as Hp.
  rewrite !(hsum_perm _ _ _ _ Hp), !hsum_cons, deref_insert_eq.
  rewrite Hp in Hnd. apply NoDup_cons in Hnd as [Hn _].
  rewrite hsum_insert_notin by done. lia.
Qed.

Lemma hsum_nonneg f h l : (∀ p, p ∈ l → 0 ≤ f (deref h p)) → 0 ≤ hsum f h l.
Proof.
  intros Hf. apply sumZ_nonneg, Forall_forall. intros x Hx.
  apply list_elem_of_fmap in Hx as (p & -> & Hp). by apply Hf.
Qed.

Lemma hsum_le f g h l : (∀ p, p ∈ l → f (deref h p) ≤ g (deref h p)) → hsum f h l ≤ hsum g h l.
Proof.
  induction l as [|p l IH]; intros Hl; [done|]. rewrite !hsum_cons.
  pose proof (Hl p ltac:(set_solver)). pose proof (IH ltac:(set_solver)). lia.
Qed.

Lemma hsum_elem f h l p : (∀ q, q ∈ l → 0 ≤ f (deref h q)) → p ∈ l → f (deref h p) ≤ hsum f h l.
Proof.
  intros Hf Hin. pose proof (removeSeq_perm l p Hin) as Hp. rewrite (hsum_perm _ _ _ _ Hp), hsum_cons.
  assert (0 ≤ hsum f h (removeSeq l p)); [|lia].
  apply hsum_nonneg. intros q Hq. apply Hf. rewrite Hp. set_solver.
Qed.

(** ** The invariant. *)

Section spec.
Context `{GoPlatform} `{GoRand}.

Implicit Types e : Engine.

Definition queue e (st : seqState) : list Z :=
  match st with
  | stWaiting => waiting e
  | stPrefilling => prefilling e
  | stRunning => running e
  | stGone => []
  end.

Definition budget e : Z := KVBudgetTokens (e_p e).

(** What the record of a request in the list of [st] looks like. *)
Record seq_in (D : list Z) (bud : Z) (st : seqState) (p : Z) (s : Seq) : Prop := {
  si_id : s_id s = p;
  si_state : s_state s = st;
  si_input : 1 ≤ s_input s;
  si_gen : 0 ≤ generated s < s_target s;
  si_fit : s_input s + generated s ≤ bud;
  si_list : match st with
    | stWaiting => kvHeld s = 0 ∧ prefilled s = 0 ∧ prefillTarget s = s_input s + generated s ∧ prefillTarget s + 1 ≤ bud
    | stPrefilling => kvHeld s = prefillTarget s + 1 ∧ prefillTarget s = s_input s + generated s ∧
        0 ≤ prefilled s < prefillTarget s
    | stRunning => kvHeld s = s_input s + generated s + Z.b2z (bool_decide (p ∈ D))
    | stGone => False
    end;
}.

Record wf (D : list Z) e : Prop := {
  wf_cfg : EngineConfig_Validate (cfg e) = None;
  wf_p : e_p e = c_Params (cfg e);
  wf_next : 0 ≤ next e ≤ int64_max;
  wf_nodup : NoDup (live e);
  wf_ids : ∀ p, p ∈ live e → 1 ≤ p ≤ next e;
  wf_byID : ∀ i p, byID e !! i = Some p ↔ i = p ∧ p ∈ live e;
  wf_seq : ∀ st p, p ∈ queue e st → seq_in D (budget e) st p (at_ e p);
  wf_gone : ∀ p, 1 ≤ p ≤ next e → p ∉ live e → s_state (at_ e p) = stGone;
  wf_kv : kvUsed e = hsum kvHeld (heap e) (live e);
  wf_budget : kvUsed e ≤ budget e;
  wf_slots : len (prefilling e) + len (running e) ≤ MaxSeqs (cfg e);
  wf_room : len (live e) ≤ MaxQueue (cfg e) + MaxSeqs (cfg e);
}.

Lemma elem_of_live e p : p ∈ live e ↔ ∃ st, p ∈ queue e st.
Proof.
  unfold live. rewrite !elem_of_app. split.
  - intros [?|[?|?]]; [exists stWaiting|exists stPrefilling|exists stRunning]; done.
  - intros [[] Hin]; cbn in Hin; [tauto..|]. by apply elem_of_nil in Hin.
Qed.

Lemma live_ext e e' : (∀ st, queue e' st = queue e st) → live e' = live e.
Proof.
  intros Eq. unfold live. pose proof (Eq stWaiting) as E1. pose proof (Eq stPrefilling) as E2.
  pose proof (Eq stRunning) as E3. cbn in E1, E2, E3. congruence.
Qed.

Lemma Config_bounds c : EngineConfig_Validate c = None →
  2 ≤ KVBudgetTokens (c_Params c) ≤ 2 ^ 26 ∧ 0 ≤ PrefillChunkTokens (c_Params c) ≤ 2 ^ 20 ∧
  0 ≤ KVBytesPerToken (c_Params c) ≤ 2 ^ 30 ∧ 0 ≤ WeightsMB (c_Params c) ≤ 2 ^ 30 ∧
  1 ≤ MaxSeqs c ≤ 2 ^ 14 ∧ 0 ≤ MaxQueue c ≤ 2 ^ 20.
Proof.
  unfold EngineConfig_Validate, maxSeqsCap, maxQueueCap.
  destruct (Params_Validate (c_Params c)) eqn:Hp; [done|]. apply Params_Validate_bounds in Hp.
  intros Hv. repeat (case_match; [done|]). bprop. lia.
Qed.

Lemma len_nonneg {A} (l : list A) : 0 ≤ len l.
Proof. unfold len. lia. Qed.

Lemma len_app {A} (l k : list A) : len (l ++ k) = len l + len k.
Proof. unfold len. rewrite length_app. lia. Qed.

Lemma len_cons {A} (x : A) l : len (x :: l) = 1 + len l.
Proof. unfold len. cbn [length]. lia. Qed.

Lemma len_perm {A} (l k : list A) : l ≡ₚ k → len l = len k.
Proof. intros Hp. unfold len. by rewrite Hp. Qed.

Section facts.
Context (D : list Z) e (W : wf D e).

Lemma wf_bounds :
  2 ≤ budget e ≤ 2 ^ 26 ∧ 0 ≤ PrefillChunkTokens (e_p e) ≤ 2 ^ 20 ∧
  0 ≤ KVBytesPerToken (e_p e) ≤ 2 ^ 30 ∧ 0 ≤ WeightsMB (e_p e) ≤ 2 ^ 30 ∧
  1 ≤ MaxSeqs (cfg e) ≤ 2 ^ 14 ∧ 0 ≤ MaxQueue (cfg e) ≤ 2 ^ 20.
Proof. unfold budget. rewrite (wf_p _ _ W). apply Config_bounds, (wf_cfg _ _ W). Qed.

Lemma seq_live p : p ∈ live e → ∃ st, p ∈ queue e st ∧ seq_in D (budget e) st p (at_ e p).
Proof. intros [st Hst]%elem_of_live. exists st. split; [done|]. by apply (wf_seq _ _ W). Qed.

Lemma held_nonneg p : p ∈ live e → 0 ≤ kvHeld (at_ e p).
Proof.
  intros (st & _ & Hs)%seq_live. destruct Hs as [_ _ ? ? _ Hl].
  destruct st; [lia..| |done]. rewrite Hl. destruct (bool_decide _); cbn; lia.
Qed.

Lemma held_le p : p ∈ live e → kvHeld (at_ e p) ≤ kvUsed e.
Proof.
  intros Hp. rewrite (wf_kv _ _ W). apply (hsum_elem kvHeld (heap e)); [|done]. apply held_nonneg.
Qed.

Lemma used_nonneg : 0 ≤ kvUsed e.
Proof. rewrite (wf_kv _ _ W). apply hsum_nonneg, held_nonneg. Qed.

Lemma state_queue p : p ∈ live e → p ∈ queue e (s_state (at_ e p)).
Proof. intros (st & Hq & Hs)%seq_live. by rewrite (si_state _ _ _ _ _ Hs). Qed.

Lemma queue_disjoint st st' p : p ∈ queue e st → p ∈ queue e st' → st = st'.
Proof.
  intros Hq Hq'. apply (wf_seq _ _ W) in Hq, Hq'. rewrite <- (si_state _ _ _ _ _ Hq). by apply si_state in Hq'.
Qed.

Lemma queue_live st p : p ∈ queue e st → p ∈ live e.
Proof. intros Hq. apply elem_of_live. by exists st. Qed.

Lemma queue_nodup st : NoDup (queue e st).
Proof.
  pose proof (wf_nodup _ _ W) as Hn. unfold live in Hn. rewrite !NoDup_app in Hn.
  destruct st; cbn; try tauto. constructor.
Qed.

Lemma gen_small p : p ∈ live e → 1 ≤ s_input (at_ e p) ∧ 0 ≤ generated (at_ e p) < s_target (at_ e p) ∧
  s_input (at_ e p) + generated (at_ e p) ≤ budget e.
Proof. intros (st & _ & Hs)%seq_live. destruct Hs. lia. Qed.

Lemma not_gone p : p ∈ live e → s_state (at_ e p) ≠ stGone.
Proof. intros Hp Hs. apply state_queue in Hp. rewrite Hs in Hp. by apply elem_of_nil in Hp. Qed.

Lemma live_of_state p : 1 ≤ p ≤ next e → s_state (at_ e p) ≠ stGone → p ∈ queue e (s_state (at_ e p)).
Proof.
  intros Hp Hs. apply state_queue. destruct (decide (p ∈ live e)) as [|Hn]; [done|].
  by destruct (Hs (wf_gone _ _ W p Hp Hn)).
Qed.

End facts.

(** ** One record changes and its request moves between lists. *)

(** The parts of the engine that only [Submit] and [remove] change. *)
Record same_frame e e' : Prop := {
  sf_cfg : cfg e' = cfg e;
  sf_p : e_p e' = e_p e;
  sf_next : next e' = next e;
  sf_byID : byID e' = byID e;
}.

Lemma seq_in_mono D D' bud st p s : (p ∈ D ↔ p ∈ D') → seq_in D bud st p s → seq_in D' bud st p s.
Proof.
  intros HD [? ? ? ? ? Hl]. split; [done..|]. destruct st; [done..| |done].
  by rewrite <- (bool_decide_ext _ _ HD).
Qed.

Lemma wf_update D D' e e' p s :
  wf D e → same_frame e e' → p ∈ live e → heap e' = <[p := s]> (heap e) → live e' ≡ₚ live e →
  (∀ st q, q ≠ p → q ∈ queue e' st → q ∈ queue e st) →
  (∀ st, p ∈ queue e' st → seq_in D' (budget e) st p s) →
  (∀ q, q ≠ p → q ∈ D ↔ q ∈ D') →
  kvUsed e' = kvUsed e - kvHeld (at_ e p) + kvHeld s → kvUsed e' ≤ budget e →
  len (prefilling e') + len (running e') ≤ MaxSeqs (cfg e) →
  wf D' e'.
Proof.
  intros W [Hc Hp Hn Hb] Hin Hh Hl Hq Hs HD Hk Hbud Hsl.
  assert (Hbd : budget e' = budget e) by (unfold budget; by rewrite Hp).
  assert (Hat : ∀ q, at_ e' q = if decide (q = p) then s else at_ e q) by (intros q; unfold at_; by rewrite Hh, deref_insert).
  split; rewrite ?Hc, ?Hp, ?Hn, ?Hbd; try done.
  - apply (wf_cfg _ _ W).
  - apply (wf_p _ _ W).
  - apply (wf_next _ _ W).
  - rewrite Hl. apply (wf_nodup _ _ W).
  - intros q Hqin. apply (wf_ids _ _ W). by rewrite <- Hl.
  - intros i q. rewrite Hb, Hl. apply (wf_byID _ _ W).
  - intros st q Hqin. rewrite Hat. case_decide as Hqp; [subst; by apply Hs|].
    apply seq_in_mono with D; [by apply HD|]. apply (wf_seq _ _ W). by apply Hq.
  - intros q Hq1 Hq2. rewrite Hl in Hq2. rewrite Hat. case_decide as Hqp; [by subst|]. by apply (wf_gone _ _ W).
  - rewrite (hsum_perm _ _ _ _ Hl), Hh, hsum_insert by (done || apply (wf_nodup _ _ W)).
    rewrite Hk, (wf_kv _ _ W). unfold at_. lia.
  - rewrite (len_perm _ _ Hl). apply (wf_room _ _ W).
Qed.

(** ** [remove] and [finish]. *)

Lemma remove_heap e p :
  heap (remove e p) = <[p := (at_ e p) <| kvHeld := 0 |> <| s_state := stGone |>]> (heap e).
Proof. unfold remove. by destruct (s_state (at_ e p)). Qed.

Lemma remove_fields e p :
  cfg (remove e p) = cfg e ∧ e_p (remove e p) = e_p e ∧ next (remove e p) = next e ∧
  byID (remove e p) = delete (s_id (at_ e p)) (byID e) ∧ kvUsed (remove e p) = kvUsed e -! kvHeld (at_ e p) ∧
  evs (remove e p) = evs e ∧ iter (remove e p) = iter e ∧ busy (remove e p) = busy e ∧ iterEnd (remove e p) = iterEnd e.
Proof. unfold remove. by destruct (s_state (at_ e p)). Qed.

Lemma remove_queue e p st :
  queue (remove e p) st = if decide (s_state (at_ e p) = st) then removeSeq (queue e st) p else queue e st.
Proof. unfold remove. destruct st, (s_state (at_ e p)); done. Qed.

Lemma remove_live D e p : wf D e → p ∈ live e → live e ≡ₚ p :: live (remove e p).
Proof.
  intros W Hp. pose proof (state_queue _ _ W p Hp) as Hq.
  assert (Hl : ∀ x, live x = queue x stWaiting ++ queue x stPrefilling ++ queue x stRunning) by done.
  rewrite !Hl, !remove_queue. apply removeSeq_perm in Hq.
  destruct (s_state (at_ e p)); repeat (rewrite decide_False by done || rewrite decide_True by done); cbn in Hq |- *.
  - by rewrite Hq at 1.
  - rewrite Hq at 1. solve_Permutation.
  - rewrite Hq at 1. solve_Permutation.
  - by apply Permutation_nil_cons in Hq.
Qed.

Lemma remove_elem D e p q : wf D e → p ∈ live e → q ∈ live (remove e p) ↔ q ∈ live e ∧ q ≠ p.
Proof.
  intros W Hp. pose proof (remove_live D e p W Hp) as Hl. pose proof (wf_nodup _ _ W) as Hn.
  rewrite Hl in Hn. apply NoDup_cons in Hn as [Hn _]. rewrite Hl, elem_of_cons. naive_solver.
Qed.

Lemma remove_queue_sub D e p q st : wf D e → p ∈ live e → q ∈ queue (remove e p) st → q ∈ queue e st ∧ q ≠ p.
Proof.
  intros W Hp Hq. assert (Hqp : q ≠ p).
  { apply queue_live, (remove_elem D) in Hq; [tauto|done..]. }
  split; [|done]. rewrite remove_queue in Hq. case_decide as Hs; [|done].
  apply removeSeq_elem in Hq as [? _]; [done|by eapply queue_nodup|].
  rewrite <- Hs. by eapply state_queue.
Qed.

Lemma remove_hsum f D e p : wf D e → p ∈ live e →
  hsum f (heap (remove e p)) (live (remove e p)) = hsum f (heap e) (live e) - f (at_ e p).
Proof.
  intros W Hp. rewrite (hsum_perm _ _ _ _ (remove_live D e p W Hp)), hsum_cons, remove_heap.
  rewrite hsum_insert_notin; [unfold at_; lia|]. intros Hin. apply (remove_elem D) in Hin; [tauto|done..].
Qed.

Lemma at_remove e p q : q ≠ p → at_ (remove e p) q = at_ e q.
Proof. intros Hq. unfold at_. by rewrite remove_heap, deref_insert_ne. Qed.

Lemma at_remove_eq e p : at_ (remove e p) p = (at_ e p) <| kvHeld := 0 |> <| s_state := stGone |>.
Proof. unfold at_ at 1. by rewrite remove_heap, deref_insert_eq. Qed.

Lemma queue_len_le D e p st : wf D e → p ∈ live e → len (queue (remove e p) st) ≤ len (queue e st).
Proof.
  intros W Hp. rewrite remove_queue. case_decide as Hs; [|lia].
  rewrite (len_perm (queue e st) (p :: removeSeq (queue e st) p)), len_cons; [lia|].
  apply removeSeq_perm. rewrite <- Hs. by eapply state_queue.
Qed.

Lemma in64_small z : - 2 ^ 62 ≤ z ≤ 2 ^ 62 → in64 z.
Proof. unfold in64, int64_min, int64_max. lia. Qed.

Lemma remove_wf D e p : wf D e → p ∈ live e → wf D (remove e p).
Proof.
  intros W Hp. destruct (remove_fields e p) as (Hc & Hpp & Hn & Hb & Hk & _).
  pose proof (wf_bounds _ _ W). pose proof (held_nonneg _ _ W p Hp). pose proof (held_le _ _ W p Hp).
  pose proof (wf_budget _ _ W). pose proof (remove_live _ _ _ W Hp) as Hl.
  assert (Hbd : budget (remove e p) = budget e) by (unfold budget; by rewrite Hpp).
  rewrite wrap64_id in Hk by (apply in64_small; lia).
  split; rewrite ?Hc, ?Hpp, ?Hn, ?Hbd.
  - apply (wf_cfg _ _ W).
  - apply (wf_p _ _ W).
  - apply (wf_next _ _ W).
  - pose proof (wf_nodup _ _ W) as Hnd. rewrite Hl in Hnd. by apply NoDup_cons in Hnd as [_ ?].
  - intros q Hq. apply (wf_ids _ _ W). rewrite Hl. set_solver.
  - intros i q. rewrite Hb. destruct (seq_live _ _ W p Hp) as (st & _ & Hs). rewrite (si_id _ _ _ _ _ Hs).
    rewrite lookup_delete_Some, (wf_byID _ _ W), (remove_elem D) by done. naive_solver.
  - intros st q Hq. eapply remove_queue_sub in Hq as [Hq Hne]; [|done..].
    rewrite at_remove by done. by apply (wf_seq _ _ W).
  - intros q Hq1 Hq2. destruct (decide (q = p)) as [->|Hne]; [by rewrite at_remove_eq|].
    rewrite at_remove by done. apply (wf_gone _ _ W); [done|]. intros Hin. by apply Hq2, (remove_elem D).
  - rewrite (remove_hsum _ D) by done. rewrite Hk, (wf_kv _ _ W). done.
  - lia.
  - pose proof (queue_len_le _ _ p stPrefilling W Hp). pose proof (queue_len_le _ _ p stRunning W Hp).
    pose proof (wf_slots _ _ W). cbn in *. lia.
  - pose proof (wf_room _ _ W) as Hr. rewrite (len_perm _ _ Hl), len_cons in Hr. lia.
Qed.

(** Only these parts of the engine matter to [wf]. *)
Lemma wf_ext D e e' :
  cfg e' = cfg e → e_p e' = e_p e → next e' = next e → byID e' = byID e → heap e' = heap e →
  waiting e' = waiting e → prefilling e' = prefilling e → running e' = running e → kvUsed e' = kvUsed e →
  wf D e → wf D e'.
Proof.
  intros E1 E2 E3 E4 E5 E6 E7 E8 E9 W.
  assert (El : live e' = live e) by (unfold live; congruence).
  assert (Eb : budget e' = budget e) by (unfold budget; congruence).
  assert (Ea : ∀ p, at_ e' p = at_ e p) by (intros; unfold at_; congruence).
  assert (Eq : ∀ st, queue e' st = queue e st) by (intros []; cbn; congruence).
  destruct W. split; rewrite ?E1, ?E2, ?E3, ?E4, ?E5, ?E7, ?E8, ?E9, ?El, ?Eb; try done.
  - intros st p. rewrite Eq, Ea. auto.
  - intros p. rewrite Ea. auto.
Qed.

Lemma finish_wf D e p t reason : wf D e → p ∈ live e → wf D (finish e p t reason).
Proof. intros W Hp. apply (wf_ext D (remove e p)); try done. by apply remove_wf. Qed.

Lemma wf_set_gone D e p s : wf D e → p ∉ live e → s_state s = stGone → wf D (set_ e p s).
Proof.
  intros W Hp Hs. assert (Ha : ∀ q, q ≠ p → at_ (set_ e p s) q = at_ e q) by (intros q Hq; by apply deref_insert_ne).
  destruct W as [? ? ? ? ? ? Hseq Hgone Hkv ? ? ?]. split; try done.
  - intros st q Hq. rewrite Ha; [by apply Hseq|]. intros ->. apply Hp. by eapply queue_live.
  - intros q Hq1 Hq2. destruct (decide (q = p)) as [->|Hne]; [|rewrite Ha by done; by apply Hgone].
    unfold at_. cbn. by rewrite deref_insert_eq.
  - cbn. rewrite hsum_insert_notin by done. done.
Qed.

(** The extra tokens matter for the running sequences only. *)
Lemma wf_restrict D D' e : wf D e → (∀ q, q ∈ running e → q ∈ D ↔ q ∈ D') → wf D' e.
Proof.
  intros W HD. destruct W as [? ? ? ? ? ? Hseq ? ? ? ? ?]. split; try done.
  intros st q Hq. pose proof (Hseq st q Hq) as Hs. destruct st; [by destruct Hs..| |by destruct Hs].
  apply seq_in_mono with D; [by apply HD|done].
Qed.

(** ** Measures: output tokens still to come, and prompt tokens still to process. *)

Definition left_of (s : Seq) : Z := s_target s - generated s.
Definition span_of (s : Seq) : Z := s_input s + s_target s.
Definition unread_of (s : Seq) : Z := prefillTarget s - prefilled s.

Definition promptLeft e : Z := hsum unread_of (heap e) (waiting e ++ prefilling e).

Lemma tokensLeft_hsum e : tokensLeft e = hsum left_of (heap e) (live e).
Proof. done. Qed.

Lemma promptSpan_hsum e : promptSpan e = hsum span_of (heap e) (live e).
Proof. done. Qed.

(** ** [emitToken] *)

(** The record after one more token, and after the request has ended with it. *)
Definition bumped (s : Seq) : Seq := s <| generated := generated s + 1 |>.
Definition ended (s : Seq) : Seq := s <| kvHeld := 0 |> <| s_state := stGone |>.

(** [emitToken] up to the test of the target. *)
Definition tokened e (p t : Z) : Engine :=
  let e := emit e (mkEvent t (s_id (at_ e p)) EvToken (generated (at_ e p)) "") in
  let e := set_ e p ((at_ e p) <| generated := generated (at_ e p) +! 1 |>) in
  let e := e <| tokens := tokens e +! 1 |> in
  e <| rate := rate_record (rate e) t 1 |>.

(** The fields [emitToken] leaves alone. *)
Record quiet_frame e e' : Prop := {
  qf_cfg : cfg e' = cfg e;
  qf_p : e_p e' = e_p e;
  qf_next : next e' = next e;
  qf_iter : iter e' = iter e;
  qf_busy : busy e' = busy e;
  qf_iterEnd : iterEnd e' = iterEnd e;
  qf_now : e_now e' = e_now e;
}.

Section emitToken.
Context (D D' : list Z) e (p t : Z) (W : wf D e).
Context (Hr : p ∈ running e) (HD : p ∈ D) (HD' : p ∉ D') (Hrest : ∀ q, q ≠ p → q ∈ D ↔ q ∈ D').

Lemma run_live : p ∈ live e.
Proof. apply (queue_live e stRunning p Hr). Qed.

Lemma bump_exact : generated (at_ e p) +! 1 = generated (at_ e p) + 1.
Proof.
  pose proof (gen_small _ _ W p run_live). pose proof (wf_bounds _ _ W). apply wrap64_id, in64_small. lia.
Qed.

Lemma emitToken_eq : emitToken e p t =
  if s_target (at_ e p) <=? generated (at_ e p) + 1
  then finish ((tokened e p t) <| completed := completed e +! 1 |>) p t (s_finish (at_ e p)) else tokened e p t.
Proof. rewrite <- bump_exact. reflexivity. Qed.

Lemma tokened_heap : heap (tokened e p t) = <[p := bumped (at_ e p)]> (heap e).
Proof. unfold bumped. rewrite <- bump_exact. reflexivity. Qed.

Lemma at_tokened : at_ (tokened e p t) p = bumped (at_ e p).
Proof. unfold at_ at 1. by rewrite tokened_heap, deref_insert_eq. Qed.

Lemma emitToken_frame : quiet_frame e (emitToken e p t).
Proof. rewrite emitToken_eq. unfold finish, remove. cbn zeta. case_match; [|done]. by destruct (s_state _). Qed.

Lemma emitToken_more : generated (at_ e p) + 1 < s_target (at_ e p) →
  heap (emitToken e p t) = <[p := bumped (at_ e p)]> (heap e) ∧
  (∀ st, queue (emitToken e p t) st = queue e st) ∧ byID (emitToken e p t) = byID e ∧
  kvUsed (emitToken e p t) = kvUsed e.
Proof.
  intros Hlt. rewrite emitToken_eq. case_match; bprop; [lia|].
  split; [apply tokened_heap|split; [by intros []|done]].
Qed.

Lemma emitToken_last : s_target (at_ e p) ≤ generated (at_ e p) + 1 →
  heap (emitToken e p t) = <[p := ended (bumped (at_ e p))]> (heap e) ∧
  (∀ st, queue (emitToken e p t) st = queue (remove e p) st) ∧ byID (emitToken e p t) = byID (remove e p) ∧
  kvUsed (emitToken e p t) = kvUsed (remove e p).
Proof.
  intros Hge. rewrite emitToken_eq. case_match; bprop; [|lia].
  set (e1 := (tokened e p t) <| completed := completed e +! 1 |>).
  assert (Ha : at_ e1 p = bumped (at_ e p)) by apply at_tokened.
  destruct (remove_fields e1 p) as (_ & _ & _ & Hb & Hk & _). destruct (remove_fields e p) as (_ & _ & _ & -> & -> & _).
  rewrite Ha in Hb, Hk. split; [|split; [|split; [exact Hb|exact Hk]]].
  - change (heap (remove e1 p) = <[p := ended (bumped (at_ e p))]> (heap e)). rewrite remove_heap, Ha.
    change (heap e1) with (heap (tokened e p t)). rewrite tokened_heap. apply insert_insert_eq.
  - intros st. change (queue (remove e1 p) st = queue (remove e p) st). rewrite !remove_queue, Ha. by destruct st.
Qed.

Lemma emitToken_wf : wf D' (emitToken e p t).
Proof.
  pose proof (wf_seq _ _ W stRunning p Hr) as Hs. destruct emitToken_frame as [Fc Fp Fn _ _ _ _].
  destruct Hs as [Hi Hst Hin Hg Hf Hk]. rewrite bool_decide_eq_true_2 in Hk by done. cbn in Hk.
  pose proof (held_le _ _ W p run_live). pose proof (wf_budget _ _ W).
  destruct (Z_lt_le_dec (generated (at_ e p) + 1) (s_target (at_ e p))) as [Hlt|Hge].
  - destruct (emitToken_more Hlt) as (Eh & Eq & Eb & Ek).
    pose proof (live_ext _ _ Eq) as El.
    apply (wf_update D _ e _ p (bumped (at_ e p)) W); rewrite ?El, ?Ek; try done.
    + apply run_live.
    + intros st q _. by rewrite Eq.
    + intros st Hq. rewrite Eq in Hq. rewrite (queue_disjoint _ _ W st stRunning p Hq Hr).
      split; cbn; try done; try lia. rewrite bool_decide_eq_false_2 by done. cbn. lia.
    + cbn. lia.
    + pose proof (wf_slots _ _ W). pose proof (Eq stPrefilling) as E1. pose proof (Eq stRunning) as E2. cbn in E1, E2.
      by rewrite E1, E2.
  - destruct (emitToken_last Hge) as (Eh & Eq & Eb & Ek).
    apply (wf_ext D' (set_ (remove e p) p (ended (bumped (at_ e p))))).
    1-3: rewrite ?Fc, ?Fp, ?Fn; symmetry; apply (remove_fields e p).
    + apply Eb.
    + rewrite Eh. change (heap (set_ ?x ?y ?z)) with (<[y := z]> (heap x)). by rewrite remove_heap, insert_insert_eq.
    + apply (Eq stWaiting).
    + apply (Eq stPrefilling).
    + apply (Eq stRunning).
    + apply Ek.
    + assert (Hn : p ∉ live (remove e p)) by (intros [_ []]%(remove_elem D); auto using run_live).
      apply wf_set_gone; [|done..].
      apply (wf_restrict D); [by apply remove_wf, run_live|].
      intros q Hq. apply Hrest. intros ->. by apply Hn, (queue_live _ stRunning).
Qed.

(** A token is one less to produce; nothing else moves. *)
Lemma emitToken_effect :
  tokensLeft (emitToken e p t) < tokensLeft e ∧ promptSpan (emitToken e p t) ≤ promptSpan e ∧
  waiting (emitToken e p t) = waiting e ∧ prefilling (emitToken e p t) = prefilling e ∧
  (∀ q, q ∈ running (emitToken e p t) → q ∈ running e) ∧
  (∀ q, q ∈ running e → q ≠ p → q ∈ running (emitToken e p t)) ∧
  (∀ q, q ≠ p → at_ (emitToken e p t) q = at_ e q).
Proof.
  pose proof (gen_small _ _ W p run_live). pose proof run_live as Hl.
  destruct (Z_lt_le_dec (generated (at_ e p) + 1) (s_target (at_ e p))) as [Hlt|Hge].
  - destruct (emitToken_more Hlt) as (Eh & Eq & Eb & Ek).
    pose proof (Eq stWaiting) as E1. pose proof (Eq stPrefilling) as E2. pose proof (Eq stRunning) as E3. cbn in E1, E2, E3.
    pose proof (live_ext _ _ Eq) as El.
    rewrite !tokensLeft_hsum, !promptSpan_hsum, El, Eh, E1, E2, E3, !hsum_insert by (done || apply (wf_nodup _ _ W)).
    change (deref (heap e) p) with (at_ e p). unfold left_of, span_of. cbn.
    split_and!; [lia|lia|done..|]. intros q Hq. unfold at_. by rewrite Eh, deref_insert_ne.
  - destruct (emitToken_last Hge) as (Eh & Eq & Eb & Ek).
    pose proof (Eq stWaiting) as E1. pose proof (Eq stPrefilling) as E2. pose proof (Eq stRunning) as E3. cbn in E1, E2, E3.
    pose proof (live_ext _ _ Eq) as El.
    assert (Hn : p ∉ live (remove e p)) by (intros [_ []]%(remove_elem D); auto).
    pose proof (λ f, remove_hsum f D e p W Hl) as Hsum. rewrite remove_heap in Hsum.
    setoid_rewrite hsum_insert_notin in Hsum; [|done].
    rewrite !tokensLeft_hsum, !promptSpan_hsum, El, Eh, !hsum_insert_notin, !Hsum, E1, E2, E3 by done.
    unfold left_of, span_of. pose proof (λ st, remove_queue e p st) as Rq.
    rewrite (si_state _ _ _ _ _ (wf_seq _ _ W stRunning p Hr)) in Rq.
    pose proof (Rq stWaiting) as R1. pose proof (Rq stPrefilling) as R2. pose proof (Rq stRunning) as R3. cbn in R1, R2, R3.
    rewrite decide_False in R1 by done. rewrite decide_False in R2 by done. rewrite decide_True in R3 by done.
    rewrite R1, R2, R3. pose proof (queue_nodup _ _ W stRunning) as Hnd. cbn in Hnd.
    split_and!; [lia|lia|done|done|..].
    + intros q. rewrite removeSeq_elem by done. tauto.
    + intros q. rewrite removeSeq_elem by done. tauto.
    + intros q Hq. unfold at_. by rewrite Eh, deref_insert_ne.
Qed.

End emitToken.

(** ** [finishIteration] *)

Lemma running_state D e p : wf D e → 1 ≤ p ≤ next e → s_state (at_ e p) = stRunning → p ∈ running e.
Proof. intros W Hp Hs. apply (live_of_state _ _ W) in Hp; [|by rewrite Hs]. by rewrite Hs in Hp. Qed.

Lemma prefilling_state D e p : wf D e → 1 ≤ p ≤ next e → s_state (at_ e p) = stPrefilling → p ∈ prefilling e.
Proof. intros W Hp Hs. apply (live_of_state _ _ W) in Hp; [|by rewrite Hs]. by rewrite Hs in Hp. Qed.

Lemma quiet_refl e : quiet_frame e e.
Proof. done. Qed.

Lemma quiet_trans e1 e2 e3 : quiet_frame e1 e2 → quiet_frame e2 e3 → quiet_frame e1 e3.
Proof. intros [] []. split; congruence. Qed.

(** The loop over the batch: a cancelled sequence is skipped, every other gets its token. *)
Definition decodeStep (t : Z) e (p : Z) : Engine :=
  if decide (s_state (at_ e p) ≠ stRunning) then e else emitToken e p t.

Lemma decodeStep_cases t e p :
  (s_state (at_ e p) ≠ stRunning ∧ decodeStep t e p = e) ∨ (s_state (at_ e p) = stRunning ∧ decodeStep t e p = emitToken e p t).
Proof.
  unfold decodeStep. destruct (decide (s_state (at_ e p) = stRunning)) as [Hs|Hs]; [right|left]; (split; [done|]).
  - by rewrite decide_False by auto.
  - by rewrite decide_True by auto.
Qed.

Lemma decode_loop t L : ∀ e, wf L e → NoDup L → (∀ p, p ∈ L → 1 ≤ p ≤ next e) →
  let e' := foldl (decodeStep t) e L in
  wf [] e' ∧ quiet_frame e e' ∧ promptSpan e' ≤ promptSpan e ∧ waiting e' = waiting e ∧ prefilling e' = prefilling e ∧
  (∀ q, q ∈ running e' → q ∈ running e) ∧ (∀ q, q ∉ running e → at_ e' q = at_ e q) ∧
  ((e' = e ∧ ∀ p, p ∈ L → p ∉ running e) ∨ tokensLeft e' < tokensLeft e).
Proof.
  induction L as [|p L IH]; intros e W Hnd Hids; cbn [foldl].
  { split_and!; auto using quiet_refl; try lia. left. split; [done|]. set_solver. }
  apply NoDup_cons in Hnd as [Hp Hnd]. 
  destruct (decodeStep_cases t e p) as [[Hs ->]|[Hs ->]].
  - assert (Hn : p ∉ running e) by (intros Hin; apply Hs, (wf_seq _ _ W stRunning p Hin)).
    destruct (IH e) as (? & ? & ? & ? & ? & ? & ? & Hpr); [|done|set_solver|].
    { apply (wf_restrict (p :: L)); [done|]. intros q Hq. rewrite elem_of_cons. naive_solver. }
    split_and!; try done. destruct Hpr as [[? Hr]|?]; [left|by right]. split; [done|]. set_solver.
  - pose proof (running_state _ _ p W (Hids p ltac:(set_solver)) Hs) as Hr.
    assert (Hrest : ∀ q, q ≠ p → q ∈ p :: L ↔ q ∈ L) by set_solver.
    pose proof (emitToken_wf (p :: L) L e p t W Hr ltac:(set_solver) Hp Hrest) as W1.
    pose proof (emitToken_frame (p :: L) e p t W Hr) as F1.
    destruct (emitToken_effect (p :: L) e p t W Hr) as (T1 & B1 & E1 & E2 & E3 & _ & E4).
    destruct (IH (emitToken e p t)) as (W2 & F2 & B2 & G1 & G2 & G3 & G4 & Hpr); [done|done| |].
    { intros q Hq. rewrite (qf_next _ _ F1). apply Hids. set_solver. }
    split_and!; try done; [by eapply quiet_trans|lia|congruence|congruence|naive_solver| |].
    + intros q Hq. rewrite G4 by (intros Hin; by apply Hq, E3). apply E4. by intros ->.
    + right. destruct Hpr as [[-> _]|?]; lia.
Qed.

(** The prefill of the iteration, if its request is still there. *)
Definition finishPrefill (t chunk p : Z) e : Engine :=
  if decide (s_state (at_ e p) = stPrefilling) then
    let s := (at_ e p) <| prefilled := prefilled (at_ e p) +! chunk |> in
    let e := set_ e p s in
    if prefillTarget s <=? prefilled s then
      let e := e <| prefilling := removeSeq (prefilling e) p |> in
      let e := set_ e p (s <| s_state := stRunning |>) in
      emitToken (e <| running := running e ++ [p] |>) p t
    else e
  else e.

Lemma finishIteration_eq e t :
  finishIteration e t =
    let e1 := foldl (decodeStep t) (e <| iter := noIteration |> <| busy := false |>) (it_decode (iter e)) in
    match it_prefill (iter e) with None => e1 | Some p => finishPrefill t (it_chunk (iter e)) p e1 end.
Proof. reflexivity. Qed.

Section finishPrefill.
Context e (W : wf [] e) (t chunk p : Z) (Hp : p ∈ prefilling e).
Context (Hc : 1 ≤ chunk ≤ unread_of (at_ e p)).

(** The record while its prompt is processed, and once the whole prompt is. *)
Definition progressed : Seq := (at_ e p) <| prefilled := prefilled (at_ e p) + chunk |>.
Definition promoted : Engine :=
  (set_ (e <| prefilling := removeSeq (prefilling e) p |>) p (progressed <| s_state := stRunning |>))
    <| running := running e ++ [p] |>.

Lemma prefill_seq : seq_in [] (budget e) stPrefilling p (at_ e p).
Proof. apply (wf_seq _ _ W stPrefilling p Hp). Qed.

Lemma prefill_live : p ∈ live e.
Proof. apply (queue_live e stPrefilling p Hp). Qed.

Lemma progress_exact : prefilled (at_ e p) +! chunk = prefilled (at_ e p) + chunk.
Proof.
  destruct prefill_seq as [_ _ ? ? ? (? & ? & ?)]. pose proof (wf_bounds _ _ W). unfold unread_of in Hc.
  apply wrap64_id, in64_small. lia.
Qed.

Lemma finishPrefill_part : chunk < unread_of (at_ e p) → finishPrefill t chunk p e = set_ e p progressed.
Proof.
  unfold unread_of. intros Hlt. unfold finishPrefill, progressed.
  rewrite decide_True, progress_exact by apply (si_state _ _ _ _ _ prefill_seq). cbn zeta.
  match goal with |- (if ?a <=? ?b then _ else _) = _ =>
    change a with (prefillTarget (at_ e p)); change b with (prefilled (at_ e p) + chunk) end.
  case_match; bprop; [lia|done].
Qed.

Lemma finishPrefill_full : chunk = unread_of (at_ e p) → finishPrefill t chunk p e = emitToken promoted p t.
Proof.
  unfold unread_of. intros Heq. unfold finishPrefill.
  rewrite decide_True, progress_exact by apply (si_state _ _ _ _ _ prefill_seq). cbn zeta.
  match goal with |- (if ?a <=? ?b then _ else _) = _ =>
    change a with (prefillTarget (at_ e p)); change b with (prefilled (at_ e p) + chunk) end.
  case_match; bprop; [|lia]. f_equal. unfold promoted, progressed, set_. cbn. by rewrite insert_insert_eq.
Qed.

Lemma promoted_wf : chunk = unread_of (at_ e p) → wf [p] promoted.
Proof.
  intros Hall. pose proof prefill_seq as Hs. destruct Hs as [Hi Hst Hin Hg Hf (Hk & Hpt & Hpf)].
  unfold unread_of in Hall. pose proof (removeSeq_perm _ _ Hp) as Hperm.
  apply (wf_update [] _ e _ p (progressed <| s_state := stRunning |>) W); try done.
  - apply prefill_live.
  - unfold live. cbn. rewrite Hperm at 2. solve_Permutation.
  - intros st q Hq. pose proof (queue_nodup _ _ W stPrefilling) as Hnd. cbn in Hnd.
    destruct st; cbn; [done| |rewrite elem_of_app; set_solver|done].
    rewrite removeSeq_elem by done. tauto.
  - intros st Hq. assert (st = stRunning) as ->.
    { pose proof (queue_nodup _ _ W stPrefilling) as Hnd. cbn in Hnd. destruct st; cbn in Hq; [| |done|].
      - pose proof (queue_disjoint _ _ W stWaiting stPrefilling p Hq Hp). done.
      - apply removeSeq_elem in Hq as [_ []]; done.
      - by apply elem_of_nil in Hq. }
    split; try done.
    change (kvHeld (at_ e p) = s_input (at_ e p) + generated (at_ e p) + Z.b2z (bool_decide (p ∈ [p]))).
    rewrite bool_decide_eq_true_2 by set_solver. cbn. lia.
  - set_solver.
  - cbn. lia.
  - apply (wf_budget _ _ W).
  - pose proof (wf_slots _ _ W) as Hsl. cbn. rewrite (len_perm _ _ Hperm), len_cons in Hsl. rewrite len_app, len_cons.
    unfold len in *. cbn. lia.
Qed.

Lemma progressed_wf : chunk < unread_of (at_ e p) → wf [] (set_ e p progressed).
Proof.
  unfold unread_of. intros Hlt. pose proof prefill_seq as Hs. destruct Hs as [Hi Hst Hin Hg Hf (Hk & Hpt & Hpf)].
  apply (wf_update [] _ e _ p progressed W); try done.
  - apply prefill_live.
  - intros st Hq. assert (st = stPrefilling) as -> by (by apply (queue_disjoint _ _ W _ _ p Hq)).
    split; try done. cbn. lia.
  - cbn. lia.
  - apply (wf_budget _ _ W).
  - apply (wf_slots _ _ W).
Qed.

Lemma finishPrefill_live :
  wf [] (finishPrefill t chunk p e) ∧ quiet_frame e (finishPrefill t chunk p e) ∧
  waiting (finishPrefill t chunk p e) = waiting e ∧ promptSpan (finishPrefill t chunk p e) ≤ promptSpan e ∧
  (tokensLeft (finishPrefill t chunk p e) < tokensLeft e ∨
   chunk < unread_of (at_ e p) ∧ running (finishPrefill t chunk p e) = running e ∧
   tokensLeft (finishPrefill t chunk p e) = tokensLeft e ∧ promptSpan (finishPrefill t chunk p e) = promptSpan e ∧
   promptLeft (finishPrefill t chunk p e) < promptLeft e).
Proof.
  pose proof (wf_nodup _ _ W) as Hnd.
  destruct (Z_lt_le_dec chunk (unread_of (at_ e p))) as [Hlt|Hge].
  - rewrite (finishPrefill_part Hlt). rewrite !tokensLeft_hsum, !promptSpan_hsum. unfold promptLeft.
    change (live (set_ e p progressed)) with (live e). change (heap (set_ e p progressed)) with (<[p := progressed]> (heap e)).
    assert (Hnd' : NoDup (waiting e ++ prefilling e)) by (unfold live in Hnd; rewrite (assoc app) in Hnd; apply NoDup_app in Hnd; tauto).
    assert (Hin : p ∈ waiting e ++ prefilling e) by (apply elem_of_app; by right).
    change (waiting (set_ e p progressed)) with (waiting e). change (prefilling (set_ e p progressed)) with (prefilling e).
    rewrite !hsum_insert by (done || apply prefill_live).
    change (deref (heap e) p) with (at_ e p). unfold progressed, left_of, span_of, unread_of in *. cbn.
    split; [by apply progressed_wf|]. split; [done|]. split; [done|]. split; [lia|]. right. split_and!; lia || done.
  - assert (Hall : chunk = unread_of (at_ e p)) by lia. rewrite (finishPrefill_full Hall).
    pose proof (promoted_wf Hall) as W1. assert (Hr : p ∈ running promoted) by (cbn; set_solver).
    assert (Hperm : live promoted ≡ₚ live e).
    { unfold live. cbn. rewrite (removeSeq_perm _ _ Hp) at 2. solve_Permutation. }
    assert (Hm : ∀ f, f (progressed <| s_state := stRunning |>) = f (at_ e p) →
      hsum f (heap promoted) (live promoted) = hsum f (heap e) (live e)).
    { intros f Hf. rewrite (hsum_perm _ _ _ _ Hperm). cbn. rewrite hsum_insert by (done || apply prefill_live).
      rewrite Hf. unfold at_. lia. }
    destruct (emitToken_effect [p] promoted p t W1 Hr) as (T1 & B1 & E1 & _).
    rewrite !tokensLeft_hsum, !promptSpan_hsum in *. rewrite !Hm in T1, B1 by done.
    split_and!; [|by apply (quiet_trans e promoted); [done|eapply emitToken_frame]|done|done|by left].
    apply (emitToken_wf [p]); [done|done|set_solver..].
Qed.

End finishPrefill.

(** What the iteration under way may contain. *)
Record iter_ok e : Prop := {
  it_nodup : NoDup (it_decode (iter e));
  it_ids : ∀ p, p ∈ it_decode (iter e) → 1 ≤ p ≤ next e;
  it_pre : ∀ p, it_prefill (iter e) = Some p → 1 ≤ p ≤ next e ∧
    (p ∈ prefilling e → 1 ≤ it_chunk (iter e) ≤ unread_of (at_ e p) ∧
      (it_chunk (iter e) = unread_of (at_ e p) ∨ 0 < PrefillChunkTokens (e_p e)));
  it_cover : (∀ p, p ∈ running e → p ∈ it_decode (iter e)) ∨ PrefillChunkTokens (e_p e) = 0;
}.

(** Some participant of the iteration has not been cancelled. *)
Definition productive e : Prop :=
  (∃ p, p ∈ it_decode (iter e) ∧ p ∈ running e) ∨ (∃ p, it_prefill (iter e) = Some p ∧ p ∈ prefilling e).

Lemma finishIteration_spec e t : wf (it_decode (iter e)) e → iter_ok e →
  let e' := finishIteration e t in
  wf [] e' ∧ cfg e' = cfg e ∧ e_p e' = e_p e ∧ next e' = next e ∧ e_now e' = e_now e ∧ iterEnd e' = iterEnd e ∧
  busy e' = false ∧ iter e' = noIteration ∧ waiting e' = waiting e ∧
  promptSpan e' ≤ promptSpan e ∧ tokensLeft e' ≤ tokensLeft e ∧
  (productive e → tokensLeft e' < tokensLeft e ∨
    running e' = [] ∧ tokensLeft e' = tokensLeft e ∧ promptSpan e' = promptSpan e ∧ promptLeft e' < promptLeft e).
Proof.
  intros W [Hnd Hids Hpre Hcov]. rewrite finishIteration_eq. cbn zeta.
  set (e0 := e <| iter := noIteration |> <| busy := false |>).
  assert (W0 : wf (it_decode (iter e)) e0) by (by apply (wf_ext _ e)).
  destruct (decode_loop t (it_decode (iter e)) e0 W0 Hnd Hids) as (W1 & [F1 F2 F3 F4 F5 F6 F7] & B1 & E1 & E2 & E3 & E4 & Hpr).
  set (e1 := foldl (decodeStep t) e0 (it_decode (iter e))) in *. clearbody e1.
  change (cfg e0) with (cfg e) in F1. change (e_p e0) with (e_p e) in F2. change (next e0) with (next e) in F3.
  change (iter e0) with noIteration in F4. change (busy e0) with false in F5. change (iterEnd e0) with (iterEnd e) in F6.
  change (e_now e0) with (e_now e) in F7. change (waiting e0) with (waiting e) in E1.
  change (promptSpan e0) with (promptSpan e) in *. change (tokensLeft e0) with (tokensLeft e) in *.
  assert (T1 : tokensLeft e1 ≤ tokensLeft e) by (destruct Hpr as [[-> _]|?]; [done|lia]).
  destruct (it_prefill (iter e)) as [p|] eqn:Hip; cycle 1.
  { split_and!; try done. intros [(p & Hp & Hr)|(p & ? & _)]; [|congruence]. left.
    destruct Hpr as [[_ Hno]|?]; [|done]. by destruct (Hno p Hp). }
  destruct (Hpre p eq_refl) as [Hpid Hp]. destruct (decide (p ∈ prefilling e)) as [Hin|Hout]; cycle 1.
  - assert (finishPrefill t (it_chunk (iter e)) p e1 = e1) as ->.
    { unfold finishPrefill. rewrite decide_False; [done|]. intros Hs. apply Hout.
      change (prefilling e) with (prefilling e0). rewrite <- E2. apply (prefilling_state _ _ _ W1); [by rewrite F3|done]. }
    split_and!; try done. intros [(q & Hq & Hr)|(q & Hq & Hr)]; [|rewrite Hip in Hq; by simplify_eq].
    left. destruct Hpr as [[_ Hno]|?]; [|done]. by destruct (Hno q Hq).
  - assert (Hin1 : p ∈ prefilling e1) by (by rewrite E2).
    assert (Hnr : p ∉ running e0) by (intros Hr; by pose proof (queue_disjoint _ _ W0 stRunning stPrefilling p Hr Hin)).
    destruct (Hp Hin) as [Hc Hch]. change (at_ e p) with (at_ e0 p) in *. rewrite <- (E4 p Hnr) in Hc, Hch.
    destruct (finishPrefill_live e1 W1 t _ p Hin1 Hc) as (W2 & [] & G1 & B2 & Hpr2).
    split_and!; try congruence; try lia. intros _.
    destruct Hpr2 as [?|(Hlt & Hr & ? & ? & ?)]; [left; lia|]. destruct Hpr as [[-> Hno]|?]; [|left; lia].
    right. split_and!; [|done..]. rewrite Hr. destruct Hch as [?|Hch]; [lia|]. destruct Hcov as [Hcov|?]; [|lia].
    change (running e0) with (running e) in *. destruct (running e) as [|q l]; [done|].
    destruct (Hno q); [apply Hcov|]; set_solver.
Qed.

(** ** [admit] *)

Lemma slots_exact D e : wf D e → len (prefilling e) +! len (running e) = len (prefilling e) + len (running e).
Proof.
  intros W. pose proof (wf_slots _ _ W). pose proof (wf_bounds _ _ W).
  pose proof (len_nonneg (prefilling e)). pose proof (len_nonneg (running e)). apply wrap64_id, in64_small. lia.
Qed.

(** The effect of one round on the record of the head of the queue, and the round itself. *)
Definition admittedSeq (s : Seq) : Seq :=
  s <| kvHeld := prefillTarget s +! 1 |> <| s_state := stPrefilling |> <| prefilled := 0 |> <| prefillBegun := false |>
    <| s_started := true |>.

Definition startEvent (t p : Z) (s : Seq) : list Event := if s_started s then [] else [mkEvent t (s_id s) EvStart 0 ""].

Definition admitOne e (p : Z) (rest : list Z) (t : Z) : Engine :=
  (set_ e p (admittedSeq (at_ e p))) <| waiting := rest |> <| kvUsed := kvUsed e +! (prefillTarget (at_ e p) +! 1) |>
    <| prefilling := prefilling e ++ [p] |> <| evs := evs e ++ startEvent t p (at_ e p) |>.

Lemma admitLoop_step fuel e t p rest : waiting e = p :: rest →
  admitLoop (S fuel) e t =
    if len (prefilling e) +! len (running e) <? MaxSeqs (cfg e) then
      if budget e <? kvUsed e +! (prefillTarget (at_ e p) +! 1) then e else admitLoop fuel (admitOne e p rest t) t
    else e.
Proof.
  intros Hw. cbn [admitLoop]. rewrite Hw. cbn zeta. case_match; [|done].
  unfold budget. case_match; [done|]. f_equal. unfold admitOne, admittedSeq, startEvent.
  change (s_started _) with (s_started (at_ e p)) at 1.
  destruct (s_started (at_ e p)) eqn:Hs; cbn [negb].
  - unfold set_. cbn. rewrite app_nil_r. f_equal. f_equal. by destruct (at_ e p); cbn in *; subst.
  - unfold set_, emit. cbn. by rewrite insert_insert_eq.
Qed.

Section admitOne.
Context e (W : wf [] e) (p : Z) (rest : list Z) (t : Z) (Hw : waiting e = p :: rest).

Lemma head_waiting : p ∈ queue e stWaiting.
Proof. cbn. rewrite Hw. set_solver. Qed.

Lemma admit_need_exact :
  prefillTarget (at_ e p) +! 1 = prefillTarget (at_ e p) + 1 ∧
  kvUsed e +! (prefillTarget (at_ e p) +! 1) = kvUsed e + (prefillTarget (at_ e p) + 1).
Proof.
  pose proof (wf_seq _ _ W stWaiting p head_waiting) as [_ _ ? ? ? (? & ? & ? & ?)].
  pose proof (wf_bounds _ _ W). pose proof (used_nonneg _ _ W). pose proof (wf_budget _ _ W).
  rewrite (wrap64_id (prefillTarget (at_ e p) + 1)) by (apply in64_small; lia).
  split; [done|]. apply wrap64_id, in64_small. lia.
Qed.

Lemma admitOne_live : live (admitOne e p rest t) ≡ₚ live e.
Proof. unfold live. cbn. rewrite Hw. solve_Permutation. Qed.

Lemma admitOne_wf : len (prefilling e) + len (running e) < MaxSeqs (cfg e) →
  kvUsed e + (prefillTarget (at_ e p) + 1) ≤ budget e → wf [] (admitOne e p rest t).
Proof.
  intros Hsl Hfit. pose proof head_waiting as Hp. destruct admit_need_exact as [Hx1 Hx2].
  pose proof (wf_seq _ _ W stWaiting p Hp) as [Hi Hst Hin Hg Hf (Hk & Hpf & Hpt & Hb)].
  pose proof (queue_nodup _ _ W stWaiting) as Hnd. cbn in Hnd. rewrite Hw in Hnd. apply NoDup_cons in Hnd as [Hnp _].
  apply (wf_update [] _ e _ p (admittedSeq (at_ e p)) W); try done.
  - by eapply queue_live.
  - apply admitOne_live.
  - intros st q Hq. destruct st; cbn; [rewrite Hw; set_solver|rewrite elem_of_app; set_solver|done..].
  - intros st Hq. assert (st = stPrefilling) as ->.
    { destruct st; cbn in Hq; [done..| |by apply elem_of_nil in Hq].
      by pose proof (queue_disjoint _ _ W stRunning stWaiting p Hq Hp). }
    split; try done. cbn. lia.
  - cbn. rewrite Hx2, Hx1, Hk. lia.
  - cbn. by rewrite Hx2.
  - cbn. rewrite len_app. unfold len in *. cbn. lia.
Qed.

Lemma admitOne_sum f l : p ∈ l → NoDup l → f (admittedSeq (at_ e p)) = f (at_ e p) →
  hsum f (heap (admitOne e p rest t)) l = hsum f (heap e) l.
Proof.
  intros Hl Hnd Hf. change (heap (admitOne e p rest t)) with (<[p := admittedSeq (at_ e p)]> (heap e)).
  rewrite hsum_insert, Hf by done. unfold at_. lia.
Qed.

Lemma admitOne_measures :
  tokensLeft (admitOne e p rest t) = tokensLeft e ∧ promptSpan (admitOne e p rest t) = promptSpan e ∧
  promptLeft (admitOne e p rest t) = promptLeft e.
Proof.
  pose proof (queue_live _ _ _ head_waiting) as Hl. pose proof (wf_nodup _ _ W) as Hnd.
  rewrite !tokensLeft_hsum, !promptSpan_hsum, !(hsum_perm _ _ _ _ admitOne_live), !admitOne_sum by done.
  split; [done|]. split; [done|]. unfold promptLeft.
  assert (Hperm : waiting (admitOne e p rest t) ++ prefilling (admitOne e p rest t) ≡ₚ waiting e ++ prefilling e)
    by (cbn; rewrite Hw; solve_Permutation).
  rewrite (hsum_perm _ _ _ _ Hperm). apply admitOne_sum.
  - rewrite Hw. set_solver.
  - unfold live in Hnd. rewrite (assoc app) in Hnd. by apply NoDup_app in Hnd as [? _].
  - destruct (wf_seq _ _ W stWaiting p head_waiting) as [_ _ _ _ _ (_ & Hpf & _)].
    unfold unread_of, admittedSeq. cbn. lia.
Qed.

End admitOne.

(** The head of the queue has no slot or does not fit. *)
Definition head_blocked e : Prop := ∀ p rest, waiting e = p :: rest →
  MaxSeqs (cfg e) ≤ len (prefilling e) + len (running e) ∨ budget e < kvUsed e + (prefillTarget (at_ e p) + 1).

Lemma admitLoop_spec t fuel : ∀ e, wf [] e → (length (waiting e) ≤ fuel)%nat →
  let e' := admitLoop fuel e t in
  wf [] e' ∧ quiet_frame e e' ∧ running e' = running e ∧
  tokensLeft e' = tokensLeft e ∧ promptSpan e' = promptSpan e ∧ promptLeft e' = promptLeft e ∧ head_blocked e'.
Proof.
  induction fuel as [|fuel IH]; intros e W Hfuel; cbn zeta.
  { destruct (waiting e) eqn:Hw; [|cbn in Hfuel; lia]. cbn [admitLoop]. split_and!; auto using quiet_refl.
    intros ? ? ?; congruence. }
  destruct (waiting e) as [|p rest] eqn:Hw.
  { cbn [admitLoop]. rewrite Hw. split_and!; auto using quiet_refl. intros ? ? ?; congruence. }
  rewrite (admitLoop_step _ _ _ _ _ Hw), (slots_exact _ _ W). destruct (admit_need_exact e W p rest Hw) as [_ ->].
  destruct (Z.ltb_spec (len (prefilling e) + len (running e)) (MaxSeqs (cfg e))) as [Hs|Hs]; cycle 1.
  { split_and!; auto using quiet_refl. intros ? ? _. by left. }
  destruct (Z.ltb_spec (budget e) (kvUsed e + (prefillTarget (at_ e p) + 1))) as [Hbig|Hfit].
  { split_and!; auto using quiet_refl. intros ? ? Hw'. rewrite Hw in Hw'. simplify_eq. by right. }
  destruct (IH (admitOne e p rest t)) as (W2 & F & Er & ET & EB & EP & Hstop); [by apply admitOne_wf|cbn in *; lia|].
  destruct (admitOne_measures e W p rest t Hw) as (M1 & M2 & M3).
  split_and!; try done; try congruence. by apply (quiet_trans e (admitOne e p rest t)).
Qed.

Lemma admitWaiting_spec e t : wf [] e →
  let e' := admitWaiting e t in
  wf [] e' ∧ quiet_frame e e' ∧ running e' = running e ∧
  tokensLeft e' = tokensLeft e ∧ promptSpan e' = promptSpan e ∧ promptLeft e' = promptLeft e ∧ head_blocked e'.
Proof. intros W. by apply admitLoop_spec. Qed.

(** An engine with nothing admitted has nothing waiting: any request fits an empty cache. *)
Lemma inactive_idle e : wf [] e → head_blocked e → inactive e = true → waiting e = [].
Proof.
  intros W Hb Hi. unfold inactive in Hi. bprop. unfold len in *.
  destruct (prefilling e) eqn:Hp; [|done]. destruct (running e) eqn:Hr; [|done].
  destruct (waiting e) as [|p rest] eqn:Hw; [done|]. exfalso.
  assert (Hin : p ∈ queue e stWaiting) by (cbn; rewrite Hw; set_solver).
  assert (Hu : kvUsed e = 0).
  { rewrite (wf_kv _ _ W). unfold live. rewrite Hp, Hr, app_nil_r. apply sumZ_fmap_0. intros q Hq.
    apply (wf_seq _ _ W stWaiting q Hq). }
  pose proof (wf_bounds _ _ W). destruct (wf_seq _ _ W stWaiting p Hin) as [_ _ _ _ _ (_ & _ & _ & ?)].
  destruct (Hb p rest Hw) as [Hs|Hs]; rewrite ?Hp, ?Hr in Hs; unfold len in Hs; cbn in Hs; lia.
Qed.

(** ** [reserveDecodeKV] *)

Definition preemptedSeq (s : Seq) : Seq :=
  s <| kvHeld := 0 |> <| s_state := stWaiting |> <| prefillTarget := s_input s +! generated s |> <| prefilled := 0 |>
    <| prefillBegun := false |>.

Definition preemptOne e (v : Z) (l : list Z) (t : Z) : Engine :=
  (set_ e v (preemptedSeq (at_ e v))) <| running := l |> <| kvUsed := kvUsed e -! kvHeld (at_ e v) |>
    <| waiting := v :: waiting e |> <| preemptions := preemptions e +! 1 |>
    <| evs := evs e ++ [mkEvent t (s_id (at_ e v)) EvPreempt (generated (at_ e v)) ""] |>.

Definition endAlone e (v t : Z) : Engine := finish (e <| kvEnded := kvEnded e +! 1 |>) v t "length".

Lemma reserveLoop_step fuel ch e t v l : running e = l ++ [v] →
  reserveLoop (S fuel) ch e t =
    if budget e <? kvUsed e +! len (running e) then
      if (len (running e) =? 1) && (len (prefilling e) =? 0) then reserveLoop fuel true (endAlone e v t) t
      else reserveLoop fuel true (preemptOne e v l t) t
    else (ch, e).
Proof.
  intros Hr. cbn [reserveLoop]. unfold budget. rewrite Hr, last_snoc. case_match; [|done]. case_match; [done|].
  do 3 f_equal. unfold preemptOne, preemptedSeq. cbn. rewrite length_app, take_app_le, firstn_all2 by (cbn; lia). done.
Qed.

Lemma running_held e p : wf [] e → p ∈ running e → kvHeld (at_ e p) = s_input (at_ e p) + generated (at_ e p).
Proof.
  intros W Hp. rewrite (si_list _ _ _ _ _ (wf_seq _ _ W stRunning p Hp)), bool_decide_eq_false_2; [cbn; lia|].
  apply not_elem_of_nil.
Qed.

Section victim.
Context e (W : wf [] e) (v : Z) (l : list Z) (t : Z) (Hr : running e = l ++ [v]).

Lemma victim_running : v ∈ queue e stRunning.
Proof. cbn. rewrite Hr. set_solver. Qed.

Lemma victim_live : v ∈ live e.
Proof. by eapply queue_live, victim_running. Qed.

(** A preempted sequence fits the cache again, as something else was in it. *)
Lemma victim_fits : len (running e) ≠ 1 ∨ len (prefilling e) ≠ 0 → s_input (at_ e v) + generated (at_ e v) + 1 ≤ budget e.
Proof.
  intros Hmore. pose proof (running_held e v W victim_running) as Hk.
  assert (∃ q, q ∈ live e ∧ q ≠ v ∧ 1 ≤ kvHeld (at_ e q)) as (q & Hq & Hqv & Hh).
  { destruct (prefilling e) as [|q ?] eqn:Hp.
    - destruct l as [|q l']; [rewrite Hr in Hmore; unfold len in Hmore; cbn in Hmore; lia|].
      assert (Hq : q ∈ queue e stRunning) by (cbn; rewrite Hr; set_solver). exists q.
      split; [by eapply queue_live|]. pose proof (running_held e q W Hq). pose proof (gen_small _ _ W q ltac:(by eapply queue_live)).
      split; [|lia]. pose proof (queue_nodup _ _ W stRunning) as Hnd. cbn in Hnd. rewrite Hr in Hnd.
      apply NoDup_app in Hnd as (_ & Hd & _). intros ->. apply (Hd v); set_solver.
    - assert (Hq : q ∈ queue e stPrefilling) by (cbn; rewrite Hp; set_solver). exists q.
      split; [by eapply queue_live|]. destruct (wf_seq _ _ W stPrefilling q Hq) as [_ _ ? ? _ (? & ? & ?)].
      split; [|lia]. intros ->. by pose proof (queue_disjoint _ _ W _ _ _ Hq victim_running). }
  pose proof (wf_budget _ _ W). pose proof (removeSeq_perm _ _ victim_live) as Hp.
  rewrite (wf_kv _ _ W), (hsum_perm _ _ _ _ Hp), hsum_cons in *. change (deref (heap e) v) with (at_ e v) in *.
  assert (kvHeld (at_ e q) ≤ hsum kvHeld (heap e) (removeSeq (live e) v)); [|lia].
  apply (hsum_elem kvHeld (heap e)).
  - intros x Hx. apply (held_nonneg _ _ W). rewrite Hp. set_solver.
  - rewrite Hp in Hq. set_solver.
Qed.

Lemma preemptOne_live : live (preemptOne e v l t) ≡ₚ live e.
Proof. unfold live. cbn. rewrite Hr. solve_Permutation. Qed.

Lemma preemptOne_wf : len (running e) ≠ 1 ∨ len (prefilling e) ≠ 0 → wf [] (preemptOne e v l t).
Proof.
  intros Hmore. pose proof (victim_fits Hmore) as Hfit. pose proof victim_running as Hv.
  pose proof (wf_seq _ _ W stRunning v Hv) as [Hi Hst Hin Hg Hf _].
  pose proof (running_held e v W Hv) as Hk. pose proof (wf_bounds _ _ W). pose proof (used_nonneg _ _ W). pose proof (wf_budget _ _ W).
  pose proof (held_le _ _ W v victim_live).
  assert (Hx : kvUsed e -! kvHeld (at_ e v) = kvUsed e - kvHeld (at_ e v)) by (apply wrap64_id, in64_small; lia).
  assert (Hy : s_input (at_ e v) +! generated (at_ e v) = s_input (at_ e v) + generated (at_ e v)) by (apply wrap64_id, in64_small; lia).
  apply (wf_update [] _ e _ v (preemptedSeq (at_ e v)) W); try done.
  - apply victim_live.
  - apply preemptOne_live.
  - intros st q Hq. destruct st; cbn; [set_solver|done|rewrite Hr; set_solver|done].
  - intros st Hq. assert (st = stWaiting) as ->.
    { destruct st; cbn in Hq; [done|..|by apply elem_of_nil in Hq].
      - by pose proof (queue_disjoint _ _ W stPrefilling stRunning v Hq Hv).
      - pose proof (queue_nodup _ _ W stRunning) as Hnd. cbn in Hnd. rewrite Hr in Hnd.
        apply NoDup_app in Hnd as (_ & Hd & _). destruct (Hd v Hq). set_solver. }
    split; try done. cbn. rewrite Hy. lia.
  - cbn. lia.
  - cbn. rewrite Hx. lia.
  - pose proof (wf_slots _ _ W) as Hs. rewrite Hr, len_app in Hs. cbn. unfold len in *. cbn in Hs. lia.
Qed.

Lemma preemptOne_measures :
  tokensLeft (preemptOne e v l t) = tokensLeft e ∧ promptSpan (preemptOne e v l t) = promptSpan e.
Proof.
  rewrite !tokensLeft_hsum, !promptSpan_hsum, !(hsum_perm _ _ _ _ preemptOne_live).
  change (heap (preemptOne e v l t)) with (<[v := preemptedSeq (at_ e v)]> (heap e)).
  rewrite !hsum_insert by (apply (wf_nodup _ _ W) || apply victim_live).
  unfold left_of, span_of, preemptedSeq, at_. cbn. lia.
Qed.

Lemma endAlone_spec :
  wf [] (endAlone e v t) ∧ quiet_frame e (endAlone e v t) ∧ tokensLeft (endAlone e v t) ≤ tokensLeft e ∧
  promptSpan (endAlone e v t) ≤ promptSpan e ∧ running (endAlone e v t) = removeSeq (running e) v.
Proof.
  unfold endAlone. set (e1 := e <| kvEnded := kvEnded e +! 1 |>).
  assert (W1 : wf [] e1) by (by apply (wf_ext [] e)). pose proof victim_live as Hl.
  destruct (remove_fields e1 v) as (? & ? & ? & ? & ? & ? & ? & ? & ?).
  change (tokensLeft (finish e1 v t "length")) with (hsum left_of (heap (remove e1 v)) (live (remove e1 v))).
  change (promptSpan (finish e1 v t "length")) with (hsum span_of (heap (remove e1 v)) (live (remove e1 v))).
  rewrite !(remove_hsum _ [] e1) by done. pose proof (gen_small _ _ W v Hl).
  change (at_ e1 v) with (at_ e v). change (heap e1) with (heap e). change (live e1) with (live e).
  assert (0 ≤ left_of (at_ e v) ∧ 0 ≤ span_of (at_ e v)) by (unfold left_of, span_of; lia).
  split_and!; [by apply finish_wf| |rewrite tokensLeft_hsum|rewrite promptSpan_hsum|].
  - split; try done. unfold finish, remove. by destruct (s_state _).
  - lia.
  - lia.
  - change (queue (remove e1 v) stRunning = removeSeq (running e) v). rewrite remove_queue, decide_True; [done|].
    apply (wf_seq _ _ W stRunning v victim_running).
Qed.

End victim.

Lemma reserveLoop_spec t fuel : ∀ ch e, wf [] e → (length (running e) ≤ fuel)%nat →
  let r := reserveLoop fuel ch e t in
  wf [] r.2 ∧ quiet_frame e r.2 ∧ tokensLeft r.2 ≤ tokensLeft e ∧ promptSpan r.2 ≤ promptSpan e ∧
  kvUsed r.2 + len (running r.2) ≤ budget r.2 ∧
  ((r = (ch, e)) ∨ (r.1 = true ∧ (length (running r.2) < length (running e))%nat)).
Proof.
  induction fuel as [|fuel IH]; intros ch e W Hfuel; cbn zeta.
  all: destruct (running e) as [|v l _] eqn:Hr using rev_ind;
    [|try (rewrite length_app in Hfuel; cbn in Hfuel; lia)].
  1,2: cbn [reserveLoop]; rewrite ?Hr; cbn [list.last]; split_and!; auto using quiet_refl; try (cbn; lia);
    cbn; rewrite Hr; pose proof (wf_budget _ _ W); unfold len; cbn; lia.
  rewrite (reserveLoop_step _ _ _ _ _ _ Hr).
  pose proof (wf_bounds _ _ W). pose proof (used_nonneg _ _ W). pose proof (wf_budget _ _ W). pose proof (wf_slots _ _ W).
  pose proof (len_nonneg (running e)). pose proof (len_nonneg (prefilling e)).
  rewrite (wrap64_id (kvUsed e + len (running e))) by (apply in64_small; lia).
  destruct (Z.ltb_spec (budget e) (kvUsed e + len (running e))) as [Hover|Hok]; cycle 1.
  { split_and!; auto using quiet_refl; cbn; lia. }
  destruct ((len (running e) =? 1) && (len (prefilling e) =? 0)) eqn:Halone.
  - destruct (endAlone_spec e W v l t Hr) as (W1 & F1 & T1 & B1 & R1).
    assert (Hlen : (length (running (endAlone e v t)) < length (running e))%nat).
    { rewrite R1. rewrite (removeSeq_perm (running e) v) at 2 by (rewrite Hr; set_solver). cbn. lia. }
    destruct (IH true (endAlone e v t) W1) as (W2 & F2 & T2 & B2 & K2 & Hr2); [rewrite <- Hr in Hfuel; lia|].
    rewrite <- Hr. split_and!; try done; [by eapply quiet_trans|lia|lia|]. right.
    destruct Hr2 as [->|[-> ?]]; cbn; split; done || lia.
  - assert (Hmore : len (running e) ≠ 1 ∨ len (prefilling e) ≠ 0).
    { apply andb_false_iff in Halone as [?|?]; bprop; tauto. }
    pose proof (preemptOne_wf e W v l t Hr Hmore) as W1. destruct (preemptOne_measures e W v l t Hr) as [T1 B1].
    rewrite length_app in Hfuel |- *. cbn in Hfuel |- *.
    destruct (IH true (preemptOne e v l t) W1) as (W2 & F2 & T2 & B2 & K2 & Hr2); [cbn; lia|].
    split_and!; try done; [by apply (quiet_trans e (preemptOne e v l t))|lia|lia|]. right.
    destruct Hr2 as [->|[-> Hl]]; cbn; split; try done; [lia|]. cbn in Hl. lia.
Qed.

(** ** [startIteration] *)

Lemma reserve_spec e t : wf [] e →
  let r := reserveDecodeKV e t in
  wf [] r.2 ∧ quiet_frame e r.2 ∧ tokensLeft r.2 ≤ tokensLeft e ∧ promptSpan r.2 ≤ promptSpan e ∧
  kvUsed r.2 + len (running r.2) ≤ budget r.2 ∧
  ((r = (false, e)) ∨ (r.1 = true ∧ (length (running r.2) < length (running e))%nat)).
Proof. intros W. by apply reserveLoop_spec. Qed.

(** The guard of the loop is never what ends it: a round that goes on has shrunk the batch. *)
Lemma startLoop_guard t : ∀ n e g g', wf [] e → length (running e) = n → (n < g)%nat → (n < g')%nat →
  startLoop g e t = startLoop g' e t.
Proof.
  induction n as [n IH] using lt_wf_ind. intros e g g' W Hn Hg Hg'. destruct g as [|g], g' as [|g']; [lia..|].
  cbn [startLoop]. destruct (admitWaiting_spec e t W) as (W1 & _ & Er & _). set (e1 := admitWaiting e t) in *. clearbody e1.
  destruct (inactive e1); [done|]. destruct (decoding e1); [|done].
  destruct (reserve_spec e1 t W1) as (W2 & _ & _ & _ & _ & Hr). destruct (reserveDecodeKV e1 t) as [ch e2].
  destruct Hr as [[= -> ->]|[Hch Hlen]]; [done|]. cbn in *. subst ch. rewrite Er in Hlen.
  apply (IH (length (running e2))); [lia|done|done|lia..].
Qed.

Lemma startLoop_spec t : ∀ guard e, wf [] e → (length (running e) < guard)%nat →
  let e' := startLoop guard e t in
  wf [] e' ∧ quiet_frame e e' ∧ tokensLeft e' ≤ tokensLeft e ∧ promptSpan e' ≤ promptSpan e ∧
  (inactive e' = true → waiting e' = []) ∧
  (decoding e' = true → kvUsed e' + len (running e') ≤ budget e') ∧
  (running e = [] → tokensLeft e' = tokensLeft e ∧ promptSpan e' = promptSpan e ∧ promptLeft e' = promptLeft e).
Proof.
  induction guard as [|guard IH]; intros e W Hg; [lia|]. cbn [startLoop]. cbn zeta.
  destruct (admitWaiting_spec e t W) as (W1 & F1 & Er & T1 & B1 & P1 & Hb). set (e1 := admitWaiting e t) in *. clearbody e1.
  pose proof (inactive_idle e1 W1 Hb) as Hidle.
  destruct (inactive e1) eqn:Hin.
  { split_and!; [done|done|lia|lia|auto| |done]. intros Hd. unfold inactive, decoding in *. bprop. lia. }
  destruct (decoding e1) eqn:Hd; [|split_and!; try done; try lia; congruence].
  destruct (reserve_spec e1 t W1) as (W2 & F2 & T2 & B2 & K2 & Hr). destruct (reserveDecodeKV e1 t) as [ch e2].
  destruct Hr as [[= -> ->]|[Hch Hlen]]; cbn in *.
  { split_and!; try done; try lia. congruence. }
  subst ch. rewrite Er in Hlen. destruct (IH e2 W2) as (W3 & F3 & T3 & B3 & I3 & K3 & _); [lia|].
  split_and!; try done; try lia; [|intros Hnil; rewrite Hnil in Hlen; cbn in Hlen; lia].
  apply (quiet_trans _ e1); [done|]. by apply (quiet_trans _ e2).
Qed.

(** Two engines that differ in records only, and there only in [kvHeld] and [prefillBegun]. *)
Definition same_work (s s' : Seq) : Prop :=
  s_id s' = s_id s ∧ s_input s' = s_input s ∧ s_target s' = s_target s ∧ s_finish s' = s_finish s ∧
  generated s' = generated s ∧ prefillTarget s' = prefillTarget s ∧ prefilled s' = prefilled s ∧
  s_started s' = s_started s ∧ s_state s' = s_state s.

Record same_lists e e' : Prop := {
  sl_frame : same_frame e e';
  sl_w : waiting e' = waiting e;
  sl_p : prefilling e' = prefilling e;
  sl_r : running e' = running e;
  sl_evs : evs e' = evs e;
  sl_now : e_now e' = e_now e;
  sl_work : ∀ q, same_work (at_ e q) (at_ e' q);
}.

#[export] Instance same_work_po : PreOrder same_work.
Proof. split; [intros s; repeat split|]. intros s1 s2 s3. unfold same_work. intuition congruence. Qed.

#[export] Instance same_lists_po : PreOrder same_lists.
Proof.
  split; [intros e; split; try done; intros q; reflexivity|]. intros e1 e2 e3 [[] ? ? ? ? ? Hq] [[] ? ? ? ? ? Hq'].
  split; try congruence; [split; congruence|]. intros q. by transitivity (at_ e2 q).
Qed.

Lemma same_lists_live e e' : same_lists e e' → live e' = live e.
Proof. intros [_ Ew Ep Er _ _ _]. unfold live. congruence. Qed.

Lemma same_lists_measures e e' : same_lists e e' →
  tokensLeft e' = tokensLeft e ∧ promptSpan e' = promptSpan e ∧ promptLeft e' = promptLeft e.
Proof.
  intros Hs. pose proof (same_lists_live _ _ Hs) as El. destruct Hs as [_ Ew Ep _ _ _ Hq].
  rewrite !tokensLeft_hsum, !promptSpan_hsum. unfold promptLeft. rewrite El, Ew, Ep.
  split_and!; apply hsum_ext; intros q _; destruct (Hq q) as (? & ? & ? & ? & ? & ? & ? & ? & ?);
    unfold left_of, span_of, unread_of; unfold at_ in *; congruence.
Qed.

Lemma holdToken_lists e p : same_lists e (holdToken e p).
Proof.
  split; try done. intros q. unfold holdToken, at_. cbn. rewrite deref_insert. case_decide; [subst|reflexivity].
  by repeat split.
Qed.

Lemma holdToken_wf D e p : wf D e → p ∈ running e → p ∉ D → kvUsed e + 1 ≤ budget e → wf (p :: D) (holdToken e p).
Proof.
  intros W Hp HD Hroom. pose proof (wf_bounds _ _ W). pose proof (used_nonneg _ _ W).
  pose proof (wf_seq _ _ W stRunning p Hp) as [Hi Hst Hin Hg Hf Hk].
  pose proof (queue_live e stRunning p Hp) as Hl. pose proof (held_le _ _ W p Hl). pose proof (held_nonneg _ _ W p Hl).
  rewrite bool_decide_eq_false_2 in Hk by done. cbn in Hk.
  assert (Hx : kvHeld (at_ e p) +! 1 = kvHeld (at_ e p) + 1) by (apply wrap64_id, in64_small; lia).
  assert (Hy : kvUsed e +! 1 = kvUsed e + 1) by (apply wrap64_id, in64_small; lia).
  apply (wf_update D _ e _ p ((at_ e p) <| kvHeld := kvHeld (at_ e p) +! 1 |>) W); try done.
  - intros st Hq. change (p ∈ queue e st) in Hq. rewrite (queue_disjoint _ _ W st stRunning p Hq Hp).
    split; try done. rewrite bool_decide_eq_true_2 by set_solver. cbn. lia.
  - set_solver.
  - cbn. lia.
  - cbn. lia.
  - apply (wf_slots _ _ W).
Qed.

Lemma hold_loop L : ∀ D e, wf D e → NoDup L → (∀ p, p ∈ L → p ∈ running e ∧ p ∉ D) → kvUsed e + len L ≤ budget e →
  wf (D ++ L) (foldl holdToken e L) ∧ same_lists e (foldl holdToken e L).
Proof.
  induction L as [|p L IH]; intros D e W Hnd HL Hroom; cbn [foldl]; [by rewrite app_nil_r|].
  apply NoDup_cons in Hnd as [Hp Hnd]. rewrite len_cons in Hroom. pose proof (len_nonneg L).
  destruct (HL p ltac:(set_solver)) as [Hr HD].
  pose proof (holdToken_wf D e p W Hr HD ltac:(lia)) as W1. pose proof (holdToken_lists e p) as S1.
  destruct (IH (p :: D) (holdToken e p) W1 Hnd) as [W2 S2].
  - intros q Hq. destruct (HL q ltac:(set_solver)). rewrite (sl_r _ _ S1). set_solver.
  - change (budget (holdToken e p)) with (budget e). change (kvUsed (holdToken e p)) with (kvUsed e +! 1).
    pose proof (wf_bounds _ _ W). pose proof (used_nonneg _ _ W). rewrite wrap64_id by (apply in64_small; lia). lia.
  - split; [|by etrans]. apply (wf_restrict _ _ _ W2). intros q _. set_solver.
Qed.

Lemma clamp_bounds d : Microsecond ≤ clampIteration d ≤ maxIteration.
Proof. unfold clampIteration, minIteration, maxIteration, Microsecond, Second. lia. Qed.

Lemma addDuration_exact t d : 0 ≤ t ≤ int64_max → 0 ≤ d ≤ 2 * maxIteration → addDuration t d = Z.min (t + d) int64_max.
Proof.
  unfold maxIteration, Second. intros Ht Hd. unfold addDuration.
  assert (Hx : int64_max -! d = int64_max - d) by (apply wrap64_id; unfold in64, int64_min, int64_max; lia). rewrite Hx.
  destruct (Z.ltb_spec (int64_max - d) t); [lia|].
  rewrite wrap64_id; [lia|]. unfold in64, int64_min, int64_max in *. lia.
Qed.

Lemma prefillDuration_eq e chunk b : ∃ r d, prefillDuration e chunk b = (e <| rng := r |>, clampIteration d).
Proof. unfold prefillDuration. destruct (lognormal _ _) as [r f]. eauto. Qed.

Lemma decodeDuration_eq e b : ∃ r d, decodeDuration e b = (e <| rng := r |>, clampIteration d).
Proof. unfold decodeDuration. destruct (lognormal _ _) as [r f]. eauto. Qed.

(** The chunk of the prompt the next iteration processes. *)
Definition chunk_ok e (p chunk : Z) : Prop :=
  1 ≤ chunk ≤ unread_of (at_ e p) ∧ (chunk = unread_of (at_ e p) ∨ 0 < PrefillChunkTokens (e_p e)).

Lemma launchPrefill_spec e : wf [] e →
  let '(e', pre, chunk, dur) := launchPrefill e in
  wf [] e' ∧ same_lists e e' ∧ kvUsed e' = kvUsed e ∧ 0 ≤ dur ≤ maxIteration ∧
  match prefilling e with
  | [] => pre = None
  | p :: _ => pre = Some p ∧ chunk_ok e p chunk ∧ Microsecond ≤ dur
  end.
Proof.
  intros W. unfold launchPrefill. destruct (prefilling e) as [|p l] eqn:Hp.
  { split_and!; [done|reflexivity|done|unfold maxIteration, Second; lia..|done]. }
  assert (Hin : p ∈ queue e stPrefilling) by (cbn; rewrite Hp; set_solver).
  pose proof (wf_seq _ _ W stPrefilling p Hin) as Hs. pose proof Hs as [Hi Hst ? ? ? (Hk & Hpt & Hpf)].
  pose proof (wf_bounds _ _ W).
  rewrite (wrap64_id (prefillTarget (at_ e p) - prefilled (at_ e p))) by (apply in64_small; lia).
  match goal with |- context [prefillDuration e ?c ?b] => destruct (prefillDuration_eq e c b) as (r & d & Hd); set (chunk := c) in * end.
  rewrite Hd. pose proof (clamp_bounds d). split_and!; [| |done| |lia|done| |lia].
  - apply (wf_update [] _ e _ p ((at_ e p) <| prefillBegun := true |>) W); try done.
    + by eapply queue_live.
    + intros st Hq. rewrite (queue_disjoint _ _ W st stPrefilling p Hq Hin). by split.
    + cbn. lia.
    + apply (wf_budget _ _ W).
    + apply (wf_slots _ _ W).
  - split; try done. intros q. unfold at_. cbn. rewrite deref_insert. case_decide; [subst; by repeat split|reflexivity].
  - unfold Microsecond in *. lia.
  - unfold chunk_ok, unread_of, chunk.
    destruct (Z.ltb_spec 0 (PrefillChunkTokens (e_p e))), (Z.ltb_spec (PrefillChunkTokens (e_p e)) (prefillTarget (at_ e p) - prefilled (at_ e p)));
      cbn; lia.
Qed.

(** The batch of the next iteration, if it decodes. *)
Lemma launchDecode_spec e dur : wf [] e → kvUsed e + len (running e) ≤ budget e → 0 ≤ dur ≤ maxIteration →
  ∃ r d, let e' := foldl holdToken (e <| rng := r |>) (running e) in
  decodeDuration e (len (running e)) = (e <| rng := r |>, clampIteration d) ∧
  wf (running e) e' ∧ same_lists e e' ∧ Microsecond ≤ dur +! clampIteration d ≤ 2 * maxIteration.
Proof.
  intros W Hroom Hdur. destruct (decodeDuration_eq e (len (running e))) as (r & d & Hd). exists r, d. cbn zeta.
  split; [done|]. set (e0 := e <| rng := r |>). assert (W0 : wf [] e0) by (by apply (wf_ext [] e)).
  destruct (hold_loop (running e) [] e0 W0) as [W1 S1]; [apply (queue_nodup _ _ W stRunning)|set_solver|done|].
  split; [done|]. split; [transitivity e0; [split; try done; reflexivity|done]|].
  pose proof (clamp_bounds d). unfold maxIteration, Second, Microsecond in *.
  rewrite wrap64_id by (apply in64_small; lia). lia.
Qed.

Lemma decoding_false e : decoding e = false →
  running e = [] ∨ (prefilling e ≠ [] ∧ PrefillChunkTokens (e_p e) ≤ 0).
Proof.
  unfold decoding. destruct (running e) as [|q l]; [by left|]. rewrite len_cons. pose proof (len_nonneg l).
  rewrite (proj2 (Z.ltb_lt 0 _)) by lia. cbn [andb]. intros [Ha Hb]%orb_false_iff. bprop. right. split; [|done].
  intros Hn. by rewrite Hn in Ha.
Qed.

Lemma active_some e : inactive e = false → prefilling e ≠ [] ∨ running e ≠ [].
Proof. unfold inactive. destruct (prefilling e), (running e); auto. Qed.

Lemma launched_ok e e' t pre chunk batch dur :
  wf batch e' → wf [] e → same_lists e e' → inactive e = false → 0 ≤ t ≤ int64_max → Microsecond ≤ dur ≤ 2 * maxIteration →
  batch = (if decoding e then running e else []) →
  match prefilling e with [] => pre = None | p :: _ => pre = Some p ∧ chunk_ok e p chunk end →
  let e3 := e' <| iter := mkIteration pre chunk batch |> <| busy := true |> <| iterEnd := addDuration t dur |> in
  wf (it_decode (iter e3)) e3 ∧ iter_ok e3 ∧ productive e3 ∧ busy e3 = true ∧ same_lists e e3 ∧
  Z.min (t + Microsecond) int64_max ≤ iterEnd e3 ≤ int64_max.
Proof.
  intros W' W S Hact Ht Hdur Hbatch Hpre. cbn zeta. pose proof (wf_bounds _ _ W).
  destruct S as [[Fc Fp Fn Fb] Ew Ep Er Ev En Eq]. pose proof (queue_nodup _ _ W stRunning) as Hnd. cbn in Hnd.
  assert (Hsub : NoDup batch ∧ ∀ p, p ∈ batch → p ∈ running e) by (subst batch; destruct (decoding e); set_solver by constructor).
  assert (Hcov : (∀ p, p ∈ running e → p ∈ batch) ∨ PrefillChunkTokens (e_p e) = 0).
  { destruct (decoding e) eqn:Hd; subst batch; [by left|]. destruct (decoding_false e Hd) as [->|[_ ?]]; [left; set_solver|right; lia]. }
  assert (Hprod : (∃ p, p ∈ batch ∧ p ∈ running e) ∨ prefilling e ≠ []).
  { destruct (prefilling e) as [|? ?] eqn:Hp; [|by right]. left. destruct (active_some e Hact) as [Ha|Ha]; [done|].
    destruct (decoding e) eqn:Hd; [|destruct (decoding_false e Hd); tauto]. subst batch.
    destruct (running e) as [|q l]; [done|]. exists q. set_solver. }
  clear Hbatch. split_and!; [by apply (wf_ext _ e')|split|..|done| | |]; cbn.
  - apply Hsub.
  - intros p Hp. rewrite Fn. apply (wf_ids _ _ W), (queue_live e stRunning). by apply Hsub.
  - intros p ->. rewrite Fn, Fp, Ep. destruct (prefilling e) as [|q l] eqn:Hp; [done|]. destruct Hpre as [[= ->] Hc].
    destruct (Eq q) as (_ & _ & _ & _ & _ & E1 & E2 & _). unfold chunk_ok, unread_of in *.
    split; [|intros _; change (at_ (rset _ _ _) q) with (at_ e' q); by rewrite E1, E2]. apply (wf_ids _ _ W), (queue_live e stPrefilling). cbn. rewrite Hp. set_solver.
  - by rewrite Fp, Er.
  - unfold productive. cbn. rewrite Er, Ep. destruct Hprod as [?|Hp]; [by left|right].
    destruct (prefilling e) as [|p l]; [done|]. exists p. split; [tauto|set_solver].
  - split; done.
  - rewrite addDuration_exact by (unfold Microsecond in *; lia). lia.
  - rewrite addDuration_exact by (unfold Microsecond in *; lia). lia.
Qed.

Lemma launch_spec e t : wf [] e → inactive e = false → (decoding e = true → kvUsed e + len (running e) ≤ budget e) →
  0 ≤ t ≤ int64_max →
  wf (it_decode (iter (launch e t))) (launch e t) ∧ iter_ok (launch e t) ∧ productive (launch e t) ∧
  busy (launch e t) = true ∧ same_lists e (launch e t) ∧
  Z.min (t + Microsecond) int64_max ≤ iterEnd (launch e t) ≤ int64_max.
Proof.
  intros W Hact Hroom Ht. unfold launch.
  pose proof (launchPrefill_spec e W) as Hpre. destruct (launchPrefill e) as [[[e1 pre] chunk] dur].
  destruct Hpre as (W1 & S1 & K1 & Hdur & Hpre).
  assert (Hbud : budget e1 = budget e) by (unfold budget; by rewrite (sf_p _ _ (sl_frame _ _ S1))).
  assert (Hp : match prefilling e with [] => pre = None | p :: _ => pre = Some p ∧ chunk_ok e p chunk end)
    by (destruct (prefilling e); tauto).
  destruct (decoding e) eqn:Hd.
  - destruct (launchDecode_spec e1 dur W1) as (r & d & Hdd & W2 & S2 & Hdur2);
      [rewrite K1, (sl_r _ _ S1), Hbud; auto|done|]. cbn zeta. rewrite Hdd.
    apply (launched_ok e); try done; [by transitivity e1|]. by rewrite Hd, (sl_r _ _ S1).
  - apply (launched_ok e); try done; [|by rewrite Hd]. unfold maxIteration, Second in *.
    destruct (prefilling e) as [|p l] eqn:Hpl; [|lia]. exfalso. unfold inactive, decoding in *. rewrite Hpl in *.
    destruct (running e); [done|]. cbn in Hd. rewrite len_cons in Hd.
    destruct (Z.ltb_spec 0 (1 + len l)); [done|]. pose proof (len_nonneg l). lia.
Qed.

End spec.
