(* ===== verification/SimEngineRun.v ===== *)
(** * Runs of the simulated engine

    [eng_ok] is the invariant between calls.  One round of the loop of [advanceTo] keeps it and
    decreases a measure, so the loop ends for every target time, the largest Duration included;
    the entry points keep it too, so that it holds of every engine a caller can have
    ([eng_reach]).  From it: [CheckInvariants] finds nothing, an idle engine is empty, and the
    statistics add up. *)

From S2P Require Import Prelude GoFloat GoString SimParams SimEngine SimEngineSpec.

Local Open Scope string_scope.
Local Open Scope list_scope.
Local Open Scope Z_scope.
Local Open Scope go_scope.

Section run.
Context `{GoPlatform} `{GoRand}.

Implicit Types e : Engine.

Record eng_ok e : Prop := {
  ok_wf : wf (it_decode (iter e)) e;
  ok_iter : iter_ok e;
  ok_idle : busy e = false → live e = [];
  ok_noiter : busy e = false → iter e = noIteration;
  ok_now : 0 ≤ e_now e ≤ int64_max;
  ok_end : busy e = true → e_now e ≤ iterEnd e ≤ int64_max;
}.

(** What a call that only advances leaves alone. *)
Definition kept e e' : Prop := e_now e' = e_now e ∧ next e' = next e ∧ cfg e' = cfg e.

#[export] Instance kept_po : PreOrder kept.
Proof. split; [done|]. unfold kept. intros e1 e2 e3. intuition congruence. Qed.

(** ** One round of the loop of [advanceTo]. *)

Lemma guard_enough D e : wf D e → (length (running e) < Z.to_nat (4 * MaxSeqs (cfg e) + 8))%nat.
Proof. intros W. pose proof (wf_slots _ _ W). pose proof (len_nonneg (prefilling e)). unfold len in *. lia. Qed.

Lemma idle_iter_ok e : iter e = noIteration → running e = [] → iter_ok e.
Proof. intros Hi Hr. split; rewrite Hi; cbn; [constructor|set_solver|done|left; rewrite Hr; set_solver]. Qed.

Lemma inactive_nil e : inactive e = true → prefilling e = [] ∧ running e = [].
Proof. unfold inactive, len. intros Hi. bprop. destruct (prefilling e), (running e); auto; cbn in *; lia. Qed.

Lemma startIteration_spec e t : wf [] e → iter e = noIteration → 0 ≤ e_now e ≤ t → t ≤ int64_max →
  let e' := startIteration e t in
  eng_ok e' ∧ kept e e' ∧ (busy e' = true → productive e' ∧ Z.min (t + Microsecond) int64_max ≤ iterEnd e') ∧
  tokensLeft e' ≤ tokensLeft e ∧ promptSpan e' ≤ promptSpan e ∧
  (running e = [] → tokensLeft e' = tokensLeft e ∧ promptSpan e' = promptSpan e ∧ promptLeft e' = promptLeft e).
Proof.
  intros W Hi Hnow Ht. unfold startIteration. set (e0 := e <| busy := false |>).
  assert (W0 : wf [] e0) by (by apply (wf_ext [] e)).
  destruct (startLoop_spec t (Z.to_nat (4 * MaxSeqs (cfg e0) + 8)) e0 W0 (guard_enough _ _ W0)) as (W1 & F1 & T1 & B1 & I1 & K1 & P1).
  set (e1 := startLoop (Z.to_nat (4 * MaxSeqs (cfg e0) + 8)) e0 t) in *. clearbody e1. destruct F1 as [Fc Fp Fn Fi Fb Fe Fw].
  change (tokensLeft e0) with (tokensLeft e) in *. change (promptSpan e0) with (promptSpan e) in *.
  change (promptLeft e0) with (promptLeft e) in *. change (running e0) with (running e) in *.
  change (iter e0) with (iter e) in *. change (e_now e0) with (e_now e) in *. change (busy e0) with false in *.
  change (cfg e0) with (cfg e) in *. change (next e0) with (next e) in *.
  cbn zeta. destruct (inactive e1) eqn:Hin.
  - destruct (inactive_nil e1 Hin) as [Hp Hr]. split_and!; try done; [|congruence].
    split; try congruence; [by rewrite Fi, Hi|apply idle_iter_ok; congruence| |by rewrite Fw; lia].
    intros _. unfold live. by rewrite (I1 eq_refl), Hp, Hr.
  - destruct (launch_spec e1 t W1 Hin K1 ltac:(lia)) as (W2 & It2 & Pr2 & Bu2 & S2 & E2).
    pose proof (same_lists_measures _ _ S2) as (T2 & B2 & P2).
    pose proof (sl_now _ _ S2) as En2. destruct (sl_frame _ _ S2) as [Ec2 _ Ex2 _].
    rewrite T2, B2, P2. split_and!; try done; [|unfold kept; rewrite En2, Ec2, Ex2, Fw, Fc, Fn; done|by intros _; split; [|lia]].
    split; try done; try congruence; rewrite (sl_now _ _ S2), Fw; [lia|]. intros _. unfold Microsecond in *. lia.
Qed.

Lemma promptLeft_span D e : wf D e → 0 ≤ promptLeft e ≤ promptSpan e.
Proof.
  intros W. assert (Hu : ∀ p, p ∈ waiting e ++ prefilling e → 0 ≤ unread_of (at_ e p) ≤ span_of (at_ e p)).
  { intros p Hp. unfold unread_of, span_of. apply elem_of_app in Hp as [Hp|Hp].
    - destruct (wf_seq _ _ W stWaiting p Hp) as [_ _ ? ? ? (? & ? & ? & ?)]. lia.
    - destruct (wf_seq _ _ W stPrefilling p Hp) as [_ _ ? ? ? (? & ? & ?)]. lia. }
  unfold promptLeft. rewrite promptSpan_hsum. unfold live. rewrite (assoc app), (hsum_app span_of).
  assert (0 ≤ hsum unread_of (heap e) (waiting e ++ prefilling e)) by (apply hsum_nonneg; intros; by apply Hu).
  assert (hsum unread_of (heap e) (waiting e ++ prefilling e) ≤ hsum span_of (heap e) (waiting e ++ prefilling e))
    by (apply hsum_le; intros; by apply Hu).
  assert (0 ≤ hsum span_of (heap e) (running e)); [|lia].
  apply hsum_nonneg. intros p Hp. pose proof (gen_small _ _ W p (queue_live e stRunning p Hp)).
  unfold span_of. unfold at_ in *. lia.
Qed.

Lemma tokensLeft_nonneg D e : wf D e → 0 ≤ tokensLeft e.
Proof.
  intros W. rewrite tokensLeft_hsum. apply hsum_nonneg. intros p Hp. pose proof (gen_small _ _ W p Hp).
  unfold left_of. unfold at_ in *. lia.
Qed.

(** The measure: output tokens to come, then prompt tokens to process before the next one. *)
Definition work e : Z := tokensLeft e * (promptSpan e + 1) + promptLeft e.

Definition oneRound e : Engine := startIteration (finishIteration e (iterEnd e)) (iterEnd e).

Lemma oneRound_spec e : eng_ok e → busy e = true →
  eng_ok (oneRound e) ∧ kept e (oneRound e) ∧
  (busy (oneRound e) = true → productive (oneRound e) ∧ Z.min (iterEnd e + Microsecond) int64_max ≤ iterEnd (oneRound e)) ∧
  work (oneRound e) ≤ tokensLeft e * (promptSpan e + 1) + promptSpan e ∧
  (productive e → work (oneRound e) < work e).
Proof.
  intros [W It _ _ Hnow Hend] Hb. specialize (Hend Hb). unfold oneRound.
  destruct (finishIteration_spec e (iterEnd e) W It) as (W1 & Ec & _ & Ex & Ew & Ee & _ & Ei & _ & B1 & T1 & Hprod).
  set (e1 := finishIteration e (iterEnd e)) in *. clearbody e1.
  destruct (startIteration_spec e1 (iterEnd e) W1 Ei ltac:(lia) ltac:(lia)) as (Ok2 & Ew2 & Hb2 & T2 & B2 & Hsame).
  set (e2 := startIteration e1 (iterEnd e)) in *. clearbody e2.
  pose proof (promptLeft_span _ _ (ok_wf _ Ok2)). pose proof (tokensLeft_nonneg _ _ (ok_wf _ Ok2)).
  pose proof (promptLeft_span _ _ W). pose proof (tokensLeft_nonneg _ _ W).
  split_and!; [done|by transitivity e1|done|unfold work; nia|].
  intros [Hlt|(Hr & ET & EB & EP)]%Hprod; unfold work; [nia|].
  destruct (Hsame Hr) as (-> & -> & ->). rewrite ET, EB. lia.
Qed.

(** ** The loop ends. *)

Lemma advanceLoop_productive now : ∀ fuel e, eng_ok e → (busy e = true → productive e) → work e ≤ Z.of_nat fuel →
  ∃ e', advanceLoop fuel now e = Some e' ∧ eng_ok e' ∧ kept e e' ∧ (busy e' = true → now < iterEnd e').
Proof.
  induction fuel as [|fuel IH]; intros e Ok Hp Hw; cbn [advanceLoop]; destruct (busy e) eqn:Hb; cbn [andb].
  2,4: by exists e; split_and!; try done; intros ?; congruence.
  all: destruct (Z.leb_spec (iterEnd e) now) as [Hle|Hgt]; [|by exists e].
  all: destruct (oneRound_spec e Ok Hb) as (Ok' & En & Hb' & _ & Hdec); specialize (Hdec (Hp eq_refl)).
  - pose proof (promptLeft_span _ _ (ok_wf _ Ok')). pose proof (tokensLeft_nonneg _ _ (ok_wf _ Ok')). unfold work in *. nia.
  - fold (oneRound e). destruct (IH (oneRound e) Ok') as (e' & -> & Ok2 & En2 & Hb2); [tauto|lia|].
    exists e'. split_and!; try done. by transitivity (oneRound e).
Qed.

Lemma advanceLoop_total now e : eng_ok e →
  ∃ e', advanceLoop (advanceFuel e) now e = Some e' ∧ eng_ok e' ∧ kept e e' ∧ (busy e' = true → now < iterEnd e').
Proof.
  intros Ok. unfold advanceFuel. pose proof (promptLeft_span _ _ (ok_wf _ Ok)). pose proof (tokensLeft_nonneg _ _ (ok_wf _ Ok)).
  replace (tokensLeft e * (promptSpan e + 1) + promptSpan e + 1)
    with (Z.succ (tokensLeft e * (promptSpan e + 1) + promptSpan e)) by lia.
  rewrite Z2Nat.inj_succ by nia. cbn [advanceLoop]. destruct (busy e) eqn:Hb; cbn [andb]; cycle 1.
  { exists e. split_and!; try done. congruence. }
  destruct (Z.leb_spec (iterEnd e) now) as [Hle|Hgt]; [|by exists e]. fold (oneRound e).
  destruct (oneRound_spec e Ok Hb) as (Ok' & En & Hb' & Hw & _).
  destruct (advanceLoop_productive now (Z.to_nat (tokensLeft e * (promptSpan e + 1) + promptSpan e)) (oneRound e))
    as (e' & -> & Ok2 & En2 & Hb2); [done|tauto|lia|].
  exists e'. split_and!; try done. by transitivity (oneRound e).
Qed.

Lemma advanceTo_total now e : eng_ok e → now ≤ int64_max →
  (now < e_now e ∧ advanceTo now e = Some (e, Some ErrTimeRegression)) ∨
  (e_now e ≤ now ∧ ∃ e', advanceTo now e = Some (e', None) ∧ eng_ok e' ∧ e_now e' = now ∧ next e' = next e ∧ cfg e' = cfg e ∧ (busy e' = true → now < iterEnd e')).
Proof.
  intros Ok Hnow. unfold advanceTo. destruct (Z.ltb_spec now (e_now e)) as [Hlt|Hge]; [by left|right]. split; [done|].
  destruct (advanceLoop_total now e Ok) as (e' & -> & [W It Hidle Hno Hn He] & (En & Enx & Ec) & Hb). pose proof (ok_now _ Ok).
  exists (e' <| e_now := now |>). split_and!; try done. split; try done; cbn.
  - by apply (wf_ext _ e').
  - by destruct It; split.
  - lia.
  - intros Hbusy. specialize (Hb Hbusy). specialize (He Hbusy). lia.
Qed.

(** ** [Submit] *)

Lemma drawOutput_pos e id mt : 1 ≤ (drawOutput e id mt).1.
Proof.
  unfold drawOutput. destruct (lognormal _ _) as [r f]. case_match eqn:Hm; cbn; [|lia]. bprop. lia.
Qed.

Definition newSeq (p input target : Z) (fin : string) : Seq := mkSeq p input target fin 0 0 input 0 false false stWaiting.

Definition enqueued e (p : Z) (s : Seq) : Engine :=
  (set_ e p s) <| next := p |> <| byID := <[p := p]> (byID e) |> <| waiting := waiting e ++ [p] |>
    <| submitted := submitted e +! 1 |>.

Lemma enqueued_live e p s : live (enqueued e p s) ≡ₚ p :: live e.
Proof. unfold live. cbn. solve_Permutation. Qed.

Lemma enqueued_at e p s q : at_ (enqueued e p s) q = if decide (q = p) then s else at_ e q.
Proof. apply deref_insert. Qed.

Lemma enqueued_wf D e input target fin : wf D e → next e < int64_max → 1 ≤ input → input + 1 ≤ budget e → 1 ≤ target →
  len (live e) < MaxQueue (cfg e) + MaxSeqs (cfg e) →
  wf D (enqueued e (next e + 1) (newSeq (next e + 1) input target fin)).
Proof.
  intros W Hn Hi Hb Ht Hroom. set (p := next e + 1). set (s := newSeq p input target fin).
  pose proof (wf_next _ _ W). assert (Hp : p ∉ live e) by (intros Hin; apply (wf_ids _ _ W) in Hin; lia).
  pose proof (enqueued_live e p s) as Hl.
  split; change (budget (enqueued e p s)) with (budget e); rewrite ?Hl.
  - apply (wf_cfg _ _ W).
  - apply (wf_p _ _ W).
  - cbn. lia.
  - constructor; [done|apply (wf_nodup _ _ W)].
  - intros q. rewrite Hl, elem_of_cons. cbn. intros [->|Hq]; [lia|]. apply (wf_ids _ _ W) in Hq. lia.
  - intros i q. cbn. rewrite Hl, elem_of_cons, lookup_insert_Some, (wf_byID _ _ W). split.
    + naive_solver.
    + intros [-> [->|Hq]]; [by left|right]. split; [|done]. by intros ->.
  - intros st q Hq. rewrite enqueued_at. case_decide as Hqp; [subst q|].
    + assert (st = stWaiting) as ->; [|split; cbn; try done; lia].
      destruct st; [done|..|by apply elem_of_nil in Hq].
      * by destruct Hp; apply (queue_live e stPrefilling).
      * by destruct Hp; apply (queue_live e stRunning).
    + apply (wf_seq _ _ W). destruct st; cbn in Hq |- *; try done. set_solver.
  - intros q Hq1 Hq2. rewrite Hl in Hq2. rewrite enqueued_at, decide_False by set_solver.
    apply (wf_gone _ _ W); [|set_solver]. cbn in Hq1. assert (q ≠ p) by set_solver. lia.
  - rewrite (hsum_perm _ _ _ _ Hl), hsum_cons. cbn. rewrite deref_insert_eq, hsum_insert_notin by done.
    cbn. apply (wf_kv _ _ W).
  - apply (wf_budget _ _ W).
  - apply (wf_slots _ _ W).
  - rewrite (len_perm _ _ Hl), len_cons. cbn. lia.
Qed.

Lemma enqueued_iter e s : wf (it_decode (iter e)) e → iter_ok e → iter_ok (enqueued e (next e + 1) s).
Proof.
  intros W [Hnd Hids Hpre Hcov]. split; try done; cbn.
  - intros p Hp. pose proof (Hids p Hp). lia.
  - intros p Hp. destruct (Hpre p Hp) as [? Hc]. split; [lia|]. rewrite enqueued_at, decide_False by lia. done.
Qed.

Lemma queue_room e : wf (it_decode (iter e)) e →
  len (waiting e) < MaxQueue (cfg e) +! Z.max (MaxSeqs (cfg e) -! len (prefilling e) -! len (running e)) 0 ↔
  len (live e) < MaxQueue (cfg e) + MaxSeqs (cfg e).
Proof.
  intros W. pose proof (wf_bounds _ _ W). pose proof (wf_slots _ _ W).
  pose proof (len_nonneg (prefilling e)). pose proof (len_nonneg (running e)).
  rewrite (wrap64_id (MaxSeqs (cfg e) - _)), (wrap64_id (_ - len (running e))), wrap64_id by (apply in64_small; lia).
  unfold live. rewrite !len_app. lia.
Qed.

(** What [Submit] does once the clock is at [now], on every path. *)
Lemma enqueue_cases now r e : eng_ok e → next e < int64_max →
  (enqueueRequest now r e = (e, evs e, inl ErrInvalidRequest) ∧ (InputTokens r < 1 ∨ MaxTokens r < 0)) ∨
  (enqueueRequest now r e = (e <| rejected := rejected e +! 1 |>, evs e, inl ErrTooLarge) ∧
    1 ≤ InputTokens r ∧ 0 ≤ MaxTokens r ∧ budget e < InputTokens r + 1) ∨
  (enqueueRequest now r e = (e <| rejected := rejected e +! 1 |>, evs e, inl ErrQueueFull) ∧
    1 ≤ InputTokens r ∧ 0 ≤ MaxTokens r ∧ InputTokens r + 1 ≤ budget e ∧
    len (live e) = MaxQueue (cfg e) + MaxSeqs (cfg e)) ∨
  (∃ target fin, let e1 := enqueued e (next e + 1) (newSeq (next e + 1) (InputTokens r) target fin) in
    let e2 := if busy e then e1 else startIteration e1 now in
    enqueueRequest now r e = (e2, evs e2, inr (mkSubmitInfo (next e + 1) target fin)) ∧
    1 ≤ InputTokens r ∧ 0 ≤ MaxTokens r ∧ InputTokens r + 1 ≤ budget e ∧ 1 ≤ target ∧
    len (live e) < MaxQueue (cfg e) + MaxSeqs (cfg e)).
Proof.
  intros Ok Hn. pose proof (ok_wf _ Ok) as W. pose proof (wf_bounds _ _ W). pose proof (wf_next _ _ W). unfold enqueueRequest.
  destruct ((InputTokens r <? 1) || (MaxTokens r <? 0)) eqn:Hbad.
  { left. split; [done|]. apply orb_true_iff in Hbad as [?|?]; bprop; tauto. }
  right. bprop. change (KVBudgetTokens (e_p e)) with (budget e).
  rewrite (wrap64_id (budget e - 1)) by (apply in64_small; lia).
  destruct (Z.ltb_spec (budget e - 1) (InputTokens r)); [left; split_and!; done || lia|right].
  cbv zeta. pose proof (queue_room e W) as Hroom. pose proof (wf_room _ _ W).
  case_match eqn:Hfull; bprop; [left; split_and!; done || lia|right]. apply Hroom in Hfull.
  change (next (e <| next := next e +! 1 |>)) with (next e +! 1).
  rewrite (wrap64_id (next e + 1)) by (unfold in64, int64_min, int64_max in *; lia).
  pose proof (drawOutput_pos (e <| next := next e + 1 |>) (next e + 1) (MaxTokens r)) as Hpos.
  destruct (drawOutput _ _ _) as [target fin]. exists target, fin. split; [|split_and!; done || lia].
  match goal with |- context [negb (busy ?x)] => change (busy x) with (busy e) end. by destruct (busy e).
Qed.

Lemma eng_ok_ext e e' :
  cfg e' = cfg e → e_p e' = e_p e → next e' = next e → byID e' = byID e → heap e' = heap e →
  waiting e' = waiting e → prefilling e' = prefilling e → running e' = running e → kvUsed e' = kvUsed e →
  iter e' = iter e → busy e' = busy e → e_now e' = e_now e → iterEnd e' = iterEnd e →
  eng_ok e → eng_ok e'.
Proof.
  intros E1 E2 E3 E4 E5 E6 E7 E8 E9 E10 E11 E12 E13 [W [I1 I2 I3 I4] Hl Hi Hn He].
  assert (El : live e' = live e) by (unfold live; congruence).
  split; rewrite ?E10, ?E11, ?E12, ?E13, ?El; try done; [by apply (wf_ext _ e)|].
  split; rewrite ?E10, ?E2, ?E3, ?E7, ?E8; try done. unfold at_. rewrite E5. done.
Qed.

Lemma submit_ok now r e : eng_ok e → next e < int64_max → e_now e = now → eng_ok (enqueueRequest now r e).1.1.
Proof.
  intros Ok Hn En. destruct (enqueue_cases now r e Ok Hn) as [[-> _]|[[-> _]|[[-> _]|(target & fin & -> & ? & ? & ? & ? & ?)]]];
    cbn [fst]; [done|by apply (eng_ok_ext e)..|].
  destruct Ok as [W It Hidle Hno Hnow Hend].
  pose proof (enqueued_wf _ e (InputTokens r) target fin W) as W1. set (s := newSeq _ _ _ _) in *.
  pose proof (enqueued_iter e s W It) as It1. destruct (busy e) eqn:Hb.
  - split; cbn; rewrite ?Hb; try done. by apply W1.
  - rewrite (Hno eq_refl) in W1.
    apply (startIteration_spec (enqueued e (next e + 1) s) now); [by apply W1|by apply Hno|cbn; lia|lia].
Qed.

(** ** [Cancel] *)

Lemma remove_ok e p : eng_ok e → p ∈ live e → eng_ok (remove e p).
Proof.
  intros [W [I1 I2 I3 I4] Hidle Hno Hn He] Hp.
  destruct (remove_fields e p) as (Ec & Epp & En & _ & _ & _ & Ei & Eb & Ee).
  assert (Ew : e_now (remove e p) = e_now e) by (unfold remove; by destruct (s_state (at_ e p))).
  pose proof (λ q st, remove_queue_sub _ e p q st W Hp) as Hsub.
  split; rewrite ?Ei, ?Eb, ?Ew, ?Ee; try done.
  - by apply remove_wf.
  - split; rewrite ?Ei, ?En, ?Epp; try done.
    + intros q Hq. destruct (I3 q Hq) as [? Hc]. split; [done|]. intros Hin. apply (Hsub q stPrefilling) in Hin as [Hin Hne].
      rewrite at_remove by done. by apply Hc.
    + destruct I4 as [Hcov|?]; [left|by right]. intros q Hq. apply (Hsub q stRunning) in Hq as [Hq _]. by apply Hcov.
  - intros Hb. rewrite (Hidle Hb) in Hp. by apply elem_of_nil in Hp.
Qed.

(** ** Every engine a caller can have. *)

Inductive ecall :=
  | CAdvance (now : Z)
  | CSubmit (now : Z) (r : Request)
  | CCancel (now : Z) (id : Z).

Definition call_now (c : ecall) : Z :=
  match c with CAdvance now | CSubmit now _ | CCancel now _ => now end.

(** The engine after a call and the events it returns; [None] only if a loop does not end. *)
Definition do_call (c : ecall) e : option (Engine * list Event) :=
  match c with
  | CAdvance now => fst <$> Advance now e
  | CSubmit now r => fst <$> Submit now r e
  | CCancel now id => fst <$> Cancel now id e
  end.

(** A Duration is an int64, and the ids do not run out. *)
Definition ecall_ok (c : ecall) e : Prop := call_now c ≤ int64_max ∧ next e < int64_max.

Inductive eng_reach (c : Config) : Engine → Prop :=
  | er_new e : New c = inr e → eng_reach c e
  | er_call e k e' out : eng_reach c e → ecall_ok k e → do_call k e = Some (e', out) → eng_reach c e'.

Lemma New_ok c e : New c = inr e → eng_ok e.
Proof.
  unfold New. destruct (EngineConfig_Validate c) eqn:Hv; [done|]. intros [= <-]. pose proof (Config_bounds c Hv).
  split; try done; [split; try done|by apply idle_iter_ok].
  - constructor.
  - set_solver.
  - intros i p. cbn. rewrite lookup_empty. set_solver.
  - intros [] p; cbn; set_solver.
  - cbn. lia.
  - unfold budget. cbn. lia.
  - unfold len. cbn. lia.
  - unfold len, live. cbn. lia.
Qed.

(** A call ends with an answer, and keeps the invariant; a refused one changes nothing but the buffer. *)
Lemma call_total k e : eng_ok e → ecall_ok k e → ∃ e' out, do_call k e = Some (e', out) ∧ eng_ok e'.
Proof.
  intros Ok [Hk Hn]. set (e0 := e <| evs := [] |>). assert (Ok0 : eng_ok e0) by (by apply (eng_ok_ext e)).
  destruct (advanceTo_total (call_now k) e0 Ok0 Hk) as [[_ Ha]|(_ & e1 & Ha & Ok1 & En1 & Ex1 & _)].
  { exists e0, []. split; [|done]. by destruct k; cbn in *; unfold Advance, Submit, Cancel; fold e0; rewrite Ha. }
  change (next e0) with (next e) in Ex1. destruct k as [now|now r|now id]; cbn in *;
    unfold Advance, Submit, Cancel; fold e0; rewrite Ha; cbn.
  - by eexists _, _.
  - pose proof (submit_ok now r e1 Ok1) as Hok. rewrite Ex1 in Hok. specialize (Hok Hn En1).
    destruct (enqueueRequest now r e1) as [[e2 out] res]. by eexists _, _.
  - destruct (byID e1 !! id) as [p|] eqn:Hid; [|by eexists _, _]. apply (wf_byID _ _ (ok_wf _ Ok1)) in Hid as [_ Hp].
    eexists _, _. split; [done|]. apply (eng_ok_ext (remove e1 p)); try done. by apply remove_ok.
Qed.

Lemma reach_ok c e : eng_reach c e → eng_ok e.
Proof.
  induction 1 as [e Hnew|e k e' out _ IH Hk Hc]; [by eapply New_ok|].
  destruct (call_total k e IH Hk) as (e1 & out1 & Hc1 & Ok). congruence.
Qed.

Lemma enqueue_cfg now r e : eng_ok e → next e < int64_max → e_now e = now → cfg (enqueueRequest now r e).1.1 = cfg e.
Proof.
  intros Ok Hn En. destruct (enqueue_cases now r e Ok Hn) as [[-> _]|[[-> _]|[[-> _]|(target & fin & -> & ? & ? & ? & ? & ?)]]]; cbn [fst]; try done.
  destruct Ok as [W It Hidle Hno Hnow Hend]. destruct (busy e) eqn:Hb; [done|].
  pose proof (enqueued_wf _ e (InputTokens r) target fin W) as W1. rewrite (Hno eq_refl) in W1. set (s := newSeq _ _ _ _) in *.
  destruct (startIteration_spec (enqueued e (next e + 1) s) now) as (_ & (_ & _ & ->) & _); [by apply W1|by apply Hno|cbn; lia|lia|done].
Qed.

Lemma call_cfg k e e' out : eng_ok e → ecall_ok k e → do_call k e = Some (e', out) → cfg e' = cfg e.
Proof.
  intros Ok [Hk Hn]. set (e0 := e <| evs := [] |>). assert (Ok0 : eng_ok e0) by (by apply (eng_ok_ext e)).
  destruct (advanceTo_total (call_now k) e0 Ok0 Hk) as [[_ Ha]|(_ & e1 & Ha & Ok1 & En1 & Ex1 & Ec1 & _)].
  { destruct k; cbn in *; unfold Advance, Submit, Cancel; fold e0; rewrite Ha; intros; by simplify_eq/=. }
  change (cfg e0) with (cfg e) in Ec1. destruct k as [now|now r|now id]; cbn in *;
    unfold Advance, Submit, Cancel; fold e0; rewrite Ha; cbn.
  - by intros [= <- _].
  - intros Hc. rewrite <- Ec1, <- (enqueue_cfg now r e1 Ok1) by (done || by rewrite Ex1).
    destruct (enqueueRequest now r e1) as [[e2 o2] res]. by simplify_eq/=.
  - destruct (byID e1 !! id) as [p|]; [|by intros [= <- _]]. intros [= <- _]. cbn.
    destruct (remove_fields e1 p) as (E & _). by rewrite <- Ec1.
Qed.

Lemma reach_cfg c e : eng_reach c e → cfg e = c.
Proof.
  induction 1 as [e Hnew|e k e' out Hr IH Hk Hc].
  - revert Hnew. unfold New. destruct (EngineConfig_Validate c); [done|]. by intros [= <-].
  - rewrite <- IH. eapply call_cfg; [by eapply reach_ok|done|done].
Qed.

(** ** [CheckInvariants] *)

Section check.
Context `{GoMapOrder} e (Ok : eng_ok e).

Let W : wf (it_decode (iter e)) e := ok_wf e Ok.

(** What the first loop asks of the requests of one list. *)
Definition listed (name : string) (l : list Z) : Prop :=
  ∀ p, p ∈ l → p ∈ live e ∧ (name = "waiting" → kvHeld (at_ e p) = 0).

Lemma live_index p : p ∈ live e → s_id (at_ e p) = p ∧ byID e !! p = Some p.
Proof.
  intros Hp. split; [|by apply (wf_byID _ _ W)]. destruct (seq_live _ _ W p Hp) as (st & _ & Hs). apply (si_id _ _ _ _ _ Hs).
Qed.

Lemma checkList_ok name l : ∀ seen lv kv, listed name l → NoDup l → (∀ p, p ∈ l → p ∉ seen) →
  0 ≤ lv → lv + len l ≤ 2 ^ 40 → 0 ≤ kv → kv + hsum kvHeld (heap e) l ≤ 2 ^ 40 →
  checkList e name l (seen, lv, kv) = inr (list_to_set l ∪ seen, lv + len l, kv + hsum kvHeld (heap e) l).
Proof.
  induction l as [|p l IH]; intros seen lv kv Hl Hnd Hseen Hlv Hlv' Hkv Hkv'; cbn [checkList].
  { rewrite !Z.add_0_r. do 3 f_equal. set_solver. }
  destruct (Hl p ltac:(set_solver)) as [Hp Hw]. destruct (live_index p Hp) as [-> Hi].
  apply NoDup_cons in Hnd as [Hnp Hnd]. rewrite len_cons in *. rewrite hsum_cons in *.
  change (deref (heap e) p) with (at_ e p) in *. pose proof (held_nonneg _ _ W p Hp). pose proof (len_nonneg l).
  assert (0 ≤ hsum kvHeld (heap e) l) by (apply hsum_nonneg; intros q Hq; apply (held_nonneg _ _ W), Hl; set_solver).
  rewrite decide_False by (apply Hseen; set_solver). rewrite decide_False by tauto.
  assert (((name =? "waiting")%string && negb (kvHeld (at_ e p) =? 0)) = false) as ->.
  { destruct (String.eqb_spec name "waiting") as [->|]; [|done]. by rewrite Hw. }
  rewrite !wrap64_id by (apply in64_small; lia).
  rewrite IH; [| |done| |lia..].
  - do 2 f_equal; [|lia]. f_equal; [|lia]. set_solver.
  - intros q Hq. apply Hl. set_solver.
  - intros q Hq. set_solver.
Qed.

Lemma checkLists_ok ls : ∀ seen lv kv, (∀ name l, (name, l) ∈ ls → listed name l) → NoDup (mjoin ls.*2) →
  (∀ p, p ∈ mjoin ls.*2 → p ∉ seen) →
  0 ≤ lv → lv + len (mjoin ls.*2) ≤ 2 ^ 40 → 0 ≤ kv → kv + hsum kvHeld (heap e) (mjoin ls.*2) ≤ 2 ^ 40 →
  ∃ seen', checkLists e ls (seen, lv, kv) = inr (seen', lv + len (mjoin ls.*2), kv + hsum kvHeld (heap e) (mjoin ls.*2)).
Proof.
  induction ls as [|[name l] ls IH]; intros seen lv kv Hl Hnd Hseen Hlv Hlv' Hkv Hkv'; cbn [checkLists].
  { exists seen. cbn. by rewrite !Z.add_0_r. }
  change (mjoin ((name, l) :: ls).*2) with (l ++ mjoin ls.*2) in *.
  rewrite len_app in *. rewrite hsum_app in *. apply NoDup_app in Hnd as (Hnd1 & Hd & Hnd2).
  pose proof (len_nonneg l). pose proof (len_nonneg (mjoin ls.*2)).
  assert (Hpos : ∀ k, (∀ p, p ∈ k → p ∈ live e) → 0 ≤ hsum kvHeld (heap e) k).
  { intros k Hk. apply hsum_nonneg. intros p Hp. by apply (held_nonneg _ _ W), Hk. }
  assert (0 ≤ hsum kvHeld (heap e) l).
  { apply Hpos. intros p Hp. by apply (Hl name l ltac:(set_solver)). }
  assert (0 ≤ hsum kvHeld (heap e) (mjoin ls.*2)).
  { apply Hpos. intros p (k & Hp & [[nm k'] [-> Hk]]%list_elem_of_fmap)%list_elem_of_join. by apply (Hl nm k' ltac:(set_solver)). }
  rewrite (checkList_ok name l); [|by apply Hl; set_solver|done|set_solver|lia..].
  destruct (IH (list_to_set l ∪ seen) (lv + len l) (kv + hsum kvHeld (heap e) l)) as [seen' ->]; [| |set_solver|lia..|].
  - intros nm k Hk. apply Hl. set_solver.
  - done.
  - exists seen'. do 2 f_equal; [f_equal|]; lia.
Qed.

Lemma index_size : Z.of_nat (size (byID e)) = len (live e).
Proof.
  unfold len. f_equal. rewrite <- (size_list_to_set (C := gset Z) (live e)) by apply (wf_nodup _ _ W).
  rewrite <- size_dom. f_equal. apply set_eq. intros p. rewrite elem_of_dom, elem_of_list_to_set. split.
  - intros [q Hq]. apply (wf_byID _ _ W) in Hq as [-> ?]. done.
  - intros Hp. exists p. by apply (wf_byID _ _ W).
Qed.

Lemma checkRunning_ok l : (∀ p, p ∈ l → p ∈ running e) → checkRunning e l = None.
Proof.
  induction l as [|p l IH]; intros Hl; cbn [checkRunning]; [done|].
  assert (Hp : p ∈ queue e stRunning) by (apply Hl; set_solver).
  destruct (wf_seq _ _ W stRunning p Hp) as [_ _ ? ? ? Hk]. pose proof (wf_bounds _ _ W).
  rewrite (wrap64_id (s_input (at_ e p) + generated (at_ e p))) by (apply in64_small; lia).
  rewrite (wrap64_id (_ + 1)) by (apply in64_small; lia).
  assert ((kvHeld (at_ e p) =? (if decide (p ∈ it_decode (iter e)) then s_input (at_ e p) + generated (at_ e p) + 1
    else s_input (at_ e p) + generated (at_ e p))) = true) as ->.
  { apply Z.eqb_eq. rewrite Hk, bool_decide_decide. destruct (decide _); cbn [Z.b2z]; lia. }
  apply IH. set_solver.
Qed.

Lemma CheckInvariants_ok : CheckInvariants e = None.
Proof.
  unfold CheckInvariants. set (L := [("waiting", waiting e); ("prefilling", prefilling e); ("running", running e)]).
  assert (Hperm : range_map (list_to_map L : gmap string (list Z)) ≡ₚ L).
  { rewrite range_map_perm. apply map_to_list_to_map. repeat constructor; set_solver. }
  set (ls := range_map _) in *. clearbody ls.
  assert (Hc : mjoin ls.*2 ≡ₚ live e).
  { transitivity (mjoin L.*2); [by rewrite Hperm|]. unfold live, L. cbn. by rewrite app_nil_r. }
  pose proof (wf_bounds _ _ W). pose proof (wf_room _ _ W). pose proof (wf_budget _ _ W). pose proof (used_nonneg _ _ W).
  assert (Hl : ∀ name l, (name, l) ∈ ls → listed name l).
  { intros name l Hin p Hp. rewrite Hperm in Hin. unfold L in Hin. rewrite !elem_of_cons in Hin.
    destruct Hin as [[= -> ->]|[[= -> ->]|[[= -> ->]|[]%elem_of_nil]]].
    - split; [by apply (queue_live e stWaiting)|]. intros _. apply (wf_seq _ _ W stWaiting p Hp).
    - split; [by apply (queue_live e stPrefilling)|done].
    - split; [by apply (queue_live e stRunning)|done]. }
  assert (Hks : hsum kvHeld (heap e) (mjoin ls.*2) = kvUsed e) by (rewrite (wf_kv _ _ W); by apply hsum_perm).
  destruct (checkLists_ok ls ∅ 0 0) as [seen' ->]; [done|rewrite Hc; apply (wf_nodup _ _ W)|set_solver|lia| |lia| |].
  { rewrite (len_perm _ _ Hc). lia. }
  { rewrite Hks. lia. }
  rewrite (len_perm _ _ Hc), Hks, index_size, (slots_exact _ _ W), !Z.add_0_l, !Z.eqb_refl. cbn [negb].
  pose proof (wf_slots _ _ W). unfold budget in *. rewrite !(proj2 (Z.ltb_ge _ _)) by lia. by apply checkRunning_ok.
Qed.

End check.

End run.
