(* ===== verification/SimEngineTrace.v ===== *)
(** * What the callers of the simulated engine see

    The events of one request follow a protocol ([proto]): it starts once, its tokens come
    numbered from 0 without a gap, a preemption reports how many there were, and nothing follows
    its end.  [tr] relates the events returned so far to the records of the engine; every
    operation keeps it, and appends events of its own time only. *)

From S2P Require Import Prelude GoFloat GoString SimParams SimEngine SimEngineSpec SimEngineRun.

Local Open Scope string_scope.
Local Open Scope list_scope.
Local Open Scope Z_scope.
Local Open Scope go_scope.

(** ** The protocol of one request. *)

Inductive phase :=
  | Queued
  | Streaming (n : Z)
  | Ended (n : Z) (reason : string).

Definition proto (ph : phase) (ev : Event) : option phase :=
  match ph, ev_Kind ev with
  | Queued, EvStart => Some (Streaming 0)
  | Streaming n, EvToken => if Index ev =? n then Some (Streaming (n + 1)) else None
  | Streaming n, EvPreempt => if Index ev =? n then Some (Streaming n) else None
  | Streaming n, EvDone => if Index ev =? n then Some (Ended n (ev_Finish ev)) else None
  | _, _ => None
  end.

Definition proto_run (l : list Event) : option phase := foldl (λ o ev, o ≫= λ ph, proto ph ev) (Some Queued) l.

Definition events_of (p : Z) (l : list Event) : list Event := filter (λ ev, ev_ID ev = p) l.

Lemma proto_run_app l k : proto_run (l ++ k) = foldl (λ o ev, o ≫= λ ph, proto ph ev) (proto_run l) k.
Proof. apply foldl_app. Qed.

Lemma view_app p l k : events_of p (l ++ k) = events_of p l ++ events_of p k.
Proof. apply filter_app. Qed.

Lemma view_own p l : Forall (λ ev, ev_ID ev = p) l → events_of p l = l.
Proof. intros Hl. unfold events_of. induction Hl as [|ev l Hev _ IH]; [done|]. rewrite filter_cons_True by done. by rewrite IH. Qed.

Lemma view_other p q l : Forall (λ ev, ev_ID ev = q) l → p ≠ q → events_of p l = [].
Proof. intros Hl Hpq. unfold events_of. induction Hl as [|ev l Hev _ IH]; [done|]. rewrite filter_cons_False; [done|congruence]. Qed.

(** How a request that is gone without having been cancelled ended. *)
Definition ended_ok (s : Seq) (reason : string) : Prop :=
  (generated s = s_target s ∧ reason = s_finish s) ∨ (generated s < s_target s ∧ reason = "length").

(** The record of a request, what [Submit] announced of it, and the phase its events have reached. *)
Definition req_ok (cancelled : Prop) (info : option (Z * string)) (ph : option phase) (s : Seq) : Prop :=
  info = Some (s_target s, s_finish s) ∧
  match s_state s with
  | stWaiting => ph = Some (if s_started s then Streaming (generated s) else Queued) ∧ (s_started s = false → generated s = 0)
  | stPrefilling | stRunning => s_started s = true ∧ ph = Some (Streaming (generated s))
  | stGone => (∃ reason, ph = Some (Ended (generated s) reason) ∧ ended_ok s reason) ∨ (cancelled ∧ ∃ x, ph = Some x)
  end.

Section trace.
Context `{GoPlatform} `{GoRand}.

Implicit Types e : Engine.

(** [hist] are the events of the earlier calls, [C] the requests cancelled so far, [A] the output
    lengths and finish reasons announced. *)
Section fixed.
Context (hist : list Event) (C : gset Z) (A : gmap Z (Z * string)).

Definition tr e : Prop :=
  (∀ p, 1 ≤ p ≤ next e → req_ok (p ∈ C) (A !! p) (proto_run (events_of p (hist ++ evs e))) (at_ e p)) ∧
  (∀ p, next e < p → events_of p (hist ++ evs e) = []).

(** An operation at time [t]: it appends events of that time, and keeps [tr]. *)
Definition traced (t : Z) e e' : Prop :=
  (tr e → tr e') ∧ ∃ new, evs e' = evs e ++ new ∧ Forall (λ ev, At ev = t) new.

Lemma traced_refl t e : traced t e e.
Proof. split; [done|]. exists []. by rewrite app_nil_r. Qed.

Lemma traced_trans t e1 e2 e3 : traced t e1 e2 → traced t e2 e3 → traced t e1 e3.
Proof.
  intros [Ha (n1 & E1 & F1)] [Hb (n2 & E2 & F2)]. split; [auto|]. exists (n1 ++ n2).
  rewrite E2, E1, (assoc app). split; [done|]. by apply Forall_app.
Qed.

(** Nothing but records changes, and there nothing a caller sees. *)
Lemma traced_same t e e' : next e' = next e → evs e' = evs e → (∀ q, same_work (at_ e q) (at_ e' q)) → traced t e e'.
Proof.
  intros En Ee Hw. split; [|exists []; by rewrite app_nil_r]. intros [H1 H2]. split; rewrite En, Ee; [|done].
  intros p Hp. specialize (H1 p Hp). destruct (Hw p) as (_ & _ & E3 & E4 & E5 & _ & _ & E8 & E9).
  unfold req_ok, ended_ok in *. rewrite E9, E8, E5, E3, E4. done.
Qed.

(** One request changes and reports it. *)
Lemma traced_one t e e' p s new : 1 ≤ p ≤ next e → next e' = next e → heap e' = <[p := s]> (heap e) →
  evs e' = evs e ++ new → Forall (λ ev, ev_ID ev = p ∧ At ev = t) new →
  (req_ok (p ∈ C) (A !! p) (proto_run (events_of p (hist ++ evs e))) (at_ e p) →
   req_ok (p ∈ C) (A !! p) (foldl (λ o ev, o ≫= λ ph, proto ph ev) (proto_run (events_of p (hist ++ evs e))) new) s) →
  traced t e e'.
Proof.
  intros Hp En Eh Ee Hnew Hreq. assert (Hid : Forall (λ ev, ev_ID ev = p) new) by (eapply Forall_impl; [exact Hnew|]; naive_solver).
  split; [|exists new; split; [done|eapply Forall_impl; [exact Hnew|]; naive_solver]].
  intros [H1 H2]. split; rewrite En, Ee; intros q Hq; rewrite (assoc app), view_app.
  - unfold at_. rewrite Eh, deref_insert. case_decide as Hqp.
    + subst q. rewrite (view_own p new), proto_run_app by done. apply Hreq, H1, Hp.
    + rewrite (view_other q p new), app_nil_r by done. by apply H1.
  - rewrite (view_other q p new), app_nil_r by (done || lia). by apply H2.
Qed.

(** ** The operations. *)

Lemma emitToken_evs D e p t : wf D e → p ∈ running e →
  evs (emitToken e p t) = evs e ++ mkEvent t p EvToken (generated (at_ e p)) "" ::
    (if s_target (at_ e p) <=? generated (at_ e p) + 1
     then [mkEvent t p EvDone (generated (at_ e p) + 1) (s_finish (at_ e p))] else []).
Proof.
  intros W Hr. pose proof (si_id _ _ _ _ _ (wf_seq _ _ W stRunning p Hr)) as Hid. rewrite (emitToken_eq D) by done.
  case_match; [|by rewrite <- Hid at 2].
  set (e1 := (tokened e p t) <| completed := completed e +! 1 |>).
  change (evs (finish e1 p t (s_finish (at_ e p)))) with (evs (remove e1 p) ++
    [mkEvent t (s_id (at_ (remove e1 p) p)) EvDone (generated (at_ (remove e1 p) p)) (s_finish (at_ e p))]).
  destruct (remove_fields e1 p) as (_ & _ & _ & _ & _ & -> & _). rewrite at_remove_eq.
  change (at_ e1 p) with (at_ (tokened e p t) p). rewrite (at_tokened D) by done. cbn. by rewrite Hid, <- (assoc app).
Qed.

Lemma emitToken_traced D e p t : wf D e → p ∈ running e → traced t e (emitToken e p t).
Proof.
  intros W Hr. pose proof (queue_live e stRunning p Hr) as Hl. pose proof (wf_ids _ _ W p Hl) as Hp.
  pose proof (emitToken_evs D e p t W Hr) as Ee. destruct (emitToken_frame D e p t W Hr) as [_ _ En _ _ _ _].
  pose proof (gen_small _ _ W p Hl). pose proof (si_state _ _ _ _ _ (wf_seq _ _ W stRunning p Hr)) as Hst.
  destruct (Z.leb_spec (s_target (at_ e p)) (generated (at_ e p) + 1)) as [Hge|Hlt].
  - destruct (emitToken_last D e p t W Hr Hge) as (Eh & _).
    eapply (traced_one t e _ p); [done|done|exact Eh|exact Ee|repeat constructor|].
    unfold req_ok. rewrite Hst. intros (-> & _ & ->). split; [done|]. cbn. rewrite !Z.eqb_refl. cbn. rewrite Z.eqb_refl. left.
    eexists. split; [done|]. left. cbn. split; [lia|done].
  - destruct (emitToken_more D e p t W Hr Hlt) as (Eh & _).
    eapply (traced_one t e _ p); [done|done|exact Eh|exact Ee|repeat constructor|].
    unfold req_ok. cbn. rewrite Hst. intros (-> & -> & ->). cbn. by rewrite Z.eqb_refl.
Qed.

Lemma decode_loop_traced t L : ∀ e, wf L e → NoDup L → (∀ p, p ∈ L → 1 ≤ p ≤ next e) →
  traced t e (foldl (decodeStep t) e L).
Proof.
  induction L as [|p L IH]; intros e W Hnd Hids; cbn [foldl]; [apply traced_refl|].
  apply NoDup_cons in Hnd as [Hp Hnd]. destruct (decodeStep_cases t e p) as [[Hs ->]|[Hs ->]].
  - apply IH; [|done|set_solver]. apply (wf_restrict (p :: L)); [done|]. intros q Hq.
    assert (q ≠ p) by (intros ->; apply Hs, (wf_seq _ _ W stRunning p Hq)). set_solver.
  - pose proof (running_state _ _ p W (Hids p ltac:(set_solver)) Hs) as Hr.
    apply (traced_trans t e (emitToken e p t)); [by eapply emitToken_traced|]. apply IH; [|done|].
    + apply (emitToken_wf (p :: L)); [done|done|set_solver|done|set_solver].
    + intros q Hq. destruct (emitToken_frame (p :: L) e p t W Hr) as [_ _ -> _ _ _ _]. apply Hids. set_solver.
Qed.

Lemma finishPrefill_traced e t chunk p : wf [] e → 1 ≤ p ≤ next e →
  (p ∈ prefilling e → 1 ≤ chunk ≤ unread_of (at_ e p)) → traced t e (finishPrefill t chunk p e).
Proof.
  intros W Hid Hc. destruct (decide (s_state (at_ e p) = stPrefilling)) as [Hs|Hs]; cycle 1.
  { unfold finishPrefill. rewrite decide_False by done. apply traced_refl. }
  pose proof (prefilling_state _ _ p W Hid Hs) as Hp. specialize (Hc Hp).
  destruct (Z_lt_le_dec chunk (unread_of (at_ e p))) as [Hlt|Hge].
  - rewrite (finishPrefill_part e W t chunk p Hp Hc Hlt). eapply (traced_one t e _ p _ []); [done|done|done|by rewrite app_nil_r|done|].
    unfold req_ok, progressed. cbn. by rewrite Hs.
  - assert (Hall : chunk = unread_of (at_ e p)) by lia. rewrite (finishPrefill_full e W t chunk p Hp Hc Hall).
    apply (traced_trans t e (promoted e chunk p)).
    + eapply (traced_one t e _ p _ []); [done|done|done|by rewrite app_nil_r|done|].
      unfold req_ok, progressed. cbn. by rewrite Hs.
    + eapply emitToken_traced; [by apply promoted_wf|]. cbn. set_solver.
Qed.

Lemma finishIteration_traced e t : wf (it_decode (iter e)) e → iter_ok e → traced t e (finishIteration e t).
Proof.
  intros W [Hnd Hids Hpre Hcov]. rewrite finishIteration_eq. cbn zeta.
  set (e0 := e <| iter := noIteration |> <| busy := false |>).
  assert (W0 : wf (it_decode (iter e)) e0) by (by apply (wf_ext _ e)).
  assert (T0 : traced t e e0) by (apply traced_same; [done|done|reflexivity]).
  pose proof (decode_loop_traced t _ e0 W0 Hnd Hids) as T1. pose proof (traced_trans _ _ _ _ T0 T1) as T2.
  destruct (decode_loop t (it_decode (iter e)) e0 W0 Hnd Hids) as (W1 & [_ _ F3 _ _ _ _] & _ & _ & E2 & _ & E4 & _).
  set (e1 := foldl (decodeStep t) e0 (it_decode (iter e))) in *. clearbody e1.
  destruct (it_prefill (iter e)) as [p|] eqn:Hip; [|done]. apply (traced_trans _ _ _ _ T2).
  destruct (Hpre p eq_refl) as [Hid Hp]. apply finishPrefill_traced; [done|by rewrite F3|].
  rewrite E2. intros Hin. rewrite E4; [by apply Hp|].
  intros Hr. by pose proof (queue_disjoint _ _ W0 stRunning stPrefilling p Hr Hin).
Qed.

Lemma admitOne_traced e p rest t : wf [] e → waiting e = p :: rest → traced t e (admitOne e p rest t).
Proof.
  intros W Hw. pose proof (head_waiting e W p rest Hw) as Hp. pose proof (wf_ids _ _ W p (queue_live e stWaiting p Hp)) as Hid.
  destruct (wf_seq _ _ W stWaiting p Hp) as [Hi Hst _ _ _ _].
  eapply (traced_one t e _ p (admittedSeq (at_ e p)) (startEvent t p (at_ e p))); try done.
  - unfold startEvent. rewrite Hi. destruct (s_started _); repeat constructor.
  - unfold req_ok, startEvent. cbn. rewrite Hst. destruct (s_started (at_ e p)); cbn; [by intros (-> & -> & _)|].
    intros (-> & -> & Hg). cbn. by rewrite Hg.
Qed.

Lemma admitLoop_traced t fuel : ∀ e, wf [] e → traced t e (admitLoop fuel e t).
Proof.
  induction fuel as [|fuel IH]; intros e W; [apply traced_refl|].
  destruct (waiting e) as [|p rest] eqn:Hw; [cbn [admitLoop]; rewrite Hw; apply traced_refl|].
  rewrite (admitLoop_step _ _ _ _ _ Hw), (slots_exact _ _ W). destruct (admit_need_exact e W p rest Hw) as [_ ->].
  case_match eqn:Hs; [|apply traced_refl]. case_match eqn:Hf; [apply traced_refl|]. bprop.
  apply (traced_trans t e (admitOne e p rest t)); [by apply admitOne_traced|]. by apply IH, admitOne_wf.
Qed.

Lemma preemptOne_traced e v l t : wf [] e → running e = l ++ [v] → traced t e (preemptOne e v l t).
Proof.
  intros W Hr. pose proof (victim_running e W v l Hr) as Hv. pose proof (wf_ids _ _ W v (queue_live e stRunning v Hv)) as Hid.
  destruct (wf_seq _ _ W stRunning v Hv) as [Hi Hst _ _ _ _].
  eapply (traced_one t e _ v (preemptedSeq (at_ e v))); try done.
  - rewrite Hi. repeat constructor.
  - unfold req_ok. cbn. rewrite Hst. intros (-> & -> & ->). cbn. by rewrite Z.eqb_refl.
Qed.

Lemma endAlone_traced e v l t : wf [] e → running e = l ++ [v] → traced t e (endAlone e v t).
Proof.
  intros W Hr. pose proof (victim_running e W v l Hr) as Hv. pose proof (queue_live e stRunning v Hv) as Hl.
  pose proof (wf_ids _ _ W v Hl) as Hid. pose proof (gen_small _ _ W v Hl).
  destruct (wf_seq _ _ W stRunning v Hv) as [Hi Hst _ _ _ _].
  unfold endAlone. set (e1 := e <| kvEnded := kvEnded e +! 1 |>). destruct (remove_fields e1 v) as (_ & _ & En & _ & _ & Ee & _).
  eapply (traced_one t e _ v (ended (at_ e v)) [mkEvent t v EvDone (generated (at_ e v)) "length"]); try done.
  - apply (remove_heap e1 v).
  - change (evs (finish e1 v t "length")) with
      (evs (remove e1 v) ++ [mkEvent t (s_id (at_ (remove e1 v) v)) EvDone (generated (at_ (remove e1 v) v)) "length"]).
    rewrite Ee, at_remove_eq. change (at_ e1 v) with (at_ e v). cbn. by rewrite Hi.
  - repeat constructor.
  - unfold req_ok. cbn. rewrite Hst. intros (-> & _ & ->). split; [done|]. cbn. rewrite Z.eqb_refl. left. eexists. split; [done|]. right. cbn. split; [lia|done].
Qed.

Lemma reserveLoop_traced t fuel : ∀ ch e, wf [] e → traced t e (reserveLoop fuel ch e t).2.
Proof.
  induction fuel as [|fuel IH]; intros ch e W; [apply traced_refl|].
  destruct (running e) as [|v l _] eqn:Hr using rev_ind; [cbn [reserveLoop]; rewrite Hr; apply traced_refl|].
  rewrite (reserveLoop_step _ _ _ _ _ _ Hr). case_match; [|apply traced_refl]. case_match eqn:Ha.
  - apply (traced_trans t e (endAlone e v t)); [by eapply endAlone_traced|]. apply IH. by eapply endAlone_spec.
  - apply (traced_trans t e (preemptOne e v l t)); [by apply preemptOne_traced|]. apply IH, preemptOne_wf; [done..|].
    apply andb_false_iff in Ha as [?|?]; bprop; tauto.
Qed.

Lemma startLoop_traced t guard : ∀ e, wf [] e → traced t e (startLoop guard e t).
Proof.
  induction guard as [|guard IH]; intros e W; cbn [startLoop]; [apply traced_refl|].
  destruct (admitWaiting_spec e t W) as (W1 & _). pose proof (admitLoop_traced t (length (waiting e)) e W) as T1.
  fold (admitWaiting e t) in T1. set (e1 := admitWaiting e t) in *. clearbody e1.
  destruct (inactive e1); [done|]. destruct (decoding e1); [|done].
  destruct (reserve_spec e1 t W1) as (W2 & _). pose proof (reserveLoop_traced t (length (running e1)) false e1 W1) as T2.
  fold (reserveDecodeKV e1 t) in T2. destruct (reserveDecodeKV e1 t) as [ch e2]. cbn in *.
  pose proof (traced_trans _ _ _ _ T1 T2) as T3. destruct ch; [|done]. apply (traced_trans _ _ _ _ T3). by apply IH.
Qed.

Lemma startIteration_traced e t : wf [] e → 0 ≤ t ≤ int64_max → traced t e (startIteration e t).
Proof.
  intros W Ht. unfold startIteration. set (e0 := e <| busy := false |>). cbn zeta.
  assert (W0 : wf [] e0) by (by apply (wf_ext [] e)).
  assert (T0 : traced t e e0) by (apply traced_same; [done|done|reflexivity]).
  pose proof (startLoop_traced t (Z.to_nat (4 * MaxSeqs (cfg e0) + 8)) e0 W0) as T1.
  destruct (startLoop_spec t _ e0 W0 (guard_enough _ _ W0)) as (W1 & _ & _ & _ & _ & K1 & _).
  set (e1 := startLoop (Z.to_nat (4 * MaxSeqs (cfg e0) + 8)) e0 t) in *. clearbody e1.
  pose proof (traced_trans _ _ _ _ T0 T1) as T2. destruct (inactive e1) eqn:Hin; [done|]. apply (traced_trans _ _ _ _ T2).
  destruct (launch_spec e1 t W1 Hin K1 Ht) as (_ & _ & _ & _ & [[_ _ En _] _ _ _ Ee _ Ew] & _). by apply traced_same.
Qed.

Lemma oneRound_traced e : eng_ok e → busy e = true → traced (iterEnd e) e (oneRound e).
Proof.
  intros [W It _ _ Hnow Hend] Hb. specialize (Hend Hb). apply (traced_trans _ e (finishIteration e (iterEnd e))).
  - by apply finishIteration_traced.
  - apply startIteration_traced; [|lia]. by apply finishIteration_spec.
Qed.

(** Operations over an interval of time: the events they append are in order. *)
Definition spread (lo hi : Z) e e' : Prop :=
  (tr e → tr e') ∧
  ∃ new, evs e' = evs e ++ new ∧ StronglySorted Z.le (At <$> new) ∧ Forall (λ ev, lo ≤ At ev ≤ hi) new.

Lemma spread_refl lo hi e : spread lo hi e e.
Proof. split; [done|]. exists []. rewrite app_nil_r. split_and!; [done|constructor..]. Qed.

Lemma spread_traced lo t hi e e' : lo ≤ t ≤ hi → traced t e e' → spread lo hi e e'.
Proof.
  intros Ht [Htr (new & Ee & Hat)]. split; [done|]. exists new. split; [done|]. split.
  - clear Ee. induction Hat as [|ev new Hev Hat IH]; cbn; [constructor|]. constructor; [done|].
    apply Forall_fmap. eapply Forall_impl; [exact Hat|]. cbn. lia.
  - eapply Forall_impl; [exact Hat|]. cbn. lia.
Qed.

Lemma sorted_app (l k : list Z) m : StronglySorted Z.le l → StronglySorted Z.le k →
  Forall (λ x, x ≤ m) l → Forall (λ x, m ≤ x) k → StronglySorted Z.le (l ++ k).
Proof.
  intros Hl Hk Hlm Hkm. induction Hl as [|x l Hl IH Hx]; [done|]. apply Forall_cons in Hlm as [Hxm Hlm].
  cbn. constructor; [by apply IH|]. apply Forall_app. split; [done|]. eapply Forall_impl; [exact Hkm|]. cbn. lia.
Qed.

Lemma spread_trans lo mid hi e1 e2 e3 : lo ≤ mid ≤ hi → spread lo mid e1 e2 → spread mid hi e2 e3 → spread lo hi e1 e3.
Proof.
  intros Hm [Ha (n1 & E1 & S1 & F1)] [Hb (n2 & E2 & S2 & F2)]. split; [auto|]. exists (n1 ++ n2).
  rewrite E2, E1, (assoc app). split; [done|]. split.
  - rewrite fmap_app. apply (sorted_app _ _ mid); [done..| |]; apply Forall_fmap;
      [eapply Forall_impl; [exact F1|]|eapply Forall_impl; [exact F2|]]; cbn; lia.
  - apply Forall_app. split; [eapply Forall_impl; [exact F1|]|eapply Forall_impl; [exact F2|]]; cbn; lia.
Qed.

Lemma advanceLoop_spread now : ∀ fuel e e' lo, eng_ok e → lo ≤ now → (busy e = true → lo ≤ iterEnd e) →
  advanceLoop fuel now e = Some e' → spread lo now e e'.
Proof.
  induction fuel as [|fuel IH]; intros e e' lo Ok Hlo Hend; cbn [advanceLoop]; destruct (busy e) eqn:Hb; cbn [andb].
  2,4: intros [= <-]; apply spread_refl.
  all: destruct (Z.leb_spec (iterEnd e) now) as [Hle|Hgt]; [|intros [= <-]; apply spread_refl].
  { done. }
  fold (oneRound e). intros Hrun. specialize (Hend eq_refl). destruct (oneRound_spec e Ok Hb) as (Ok' & _ & Hb' & _).
  pose proof (ok_end _ Ok Hb).
  apply (spread_trans lo (iterEnd e) now e (oneRound e)); [lia| |].
  - apply (spread_traced lo (iterEnd e)); [lia|]. by apply oneRound_traced.
  - eapply IH; [done|done| |done]. intros Hb2. destruct (Hb' Hb2) as [_ ?]. unfold Microsecond in *. lia.
Qed.

Lemma advanceTo_spread now e e' : eng_ok e → advanceTo now e = Some (e', None) → e_now e ≤ now ∧ spread (e_now e) now e e'.
Proof.
  intros Ok. unfold advanceTo. destruct (Z.ltb_spec now (e_now e)) as [|Hge]; [done|].
  destruct (advanceLoop _ _ _) as [e1|] eqn:Hl; [|done]. intros [= <-]. split; [done|].
  apply (spread_trans _ now _ e e1); [lia| |].
  - eapply advanceLoop_spread; [done|done| |done]. intros Hb. by apply (ok_end _ Ok).
  - apply (spread_traced _ now); [lia|]. by apply traced_same.
Qed.

End fixed.

(** ** Histories of calls. *)

Definition cancelled_by (k : ecall) e : gset Z :=
  match k with
  | CCancel now id => match Cancel now id e with Some (_, _, inr true) => {[id]} | _ => ∅ end
  | _ => ∅
  end.

Definition announced_by (k : ecall) e : gmap Z (Z * string) :=
  match k with
  | CSubmit now r =>
      match Submit now r e with
      | Some (_, _, inr i) => {[ i_ID i := (OutputTokens i, i_Finish i) ]}
      | _ => ∅
      end
  | _ => ∅
  end.

(** An engine, every event its calls have returned, in order, the requests they have cancelled
    and what they have announced. *)
Inductive history (c : Config) : Engine → list Event → gset Z → gmap Z (Z * string) → Prop :=
  | hi_new e : New c = inr e → history c e [] ∅ ∅
  | hi_call e l C A k e' out : history c e l C A → ecall_ok k e → do_call k e = Some (e', out) →
      history c e' (l ++ out) (cancelled_by k e ∪ C) (announced_by k e ∪ A).

Lemma history_reach c e l C A : history c e l C A → eng_reach c e.
Proof. induction 1; [by apply er_new|by eapply er_call]. Qed.

(** [tr] between calls: the buffer of the last one is part of the history. *)
Definition told (l : list Event) (C : gset Z) (A : gmap Z (Z * string)) e : Prop := tr l C A (e <| evs := [] |>).

Lemma told_intro l C A e : tr l C A e → told (l ++ evs e) C A e.
Proof. intros [H1 H2]. unfold told, tr. cbn. by rewrite app_nil_r. Qed.

Lemma tr_cancel l C A e p : tr l C A e → tr l ({[p]} ∪ C) A e.
Proof.
  intros [H1 H2]. split; [|done]. intros q Hq. destruct (H1 q Hq) as [Hi Hs]. split; [done|].
  destruct (s_state (at_ e q)); try done. destruct Hs as [?|[? ?]]; [by left|right; set_solver].
Qed.

Lemma remove_told l C A e p : wf (it_decode (iter e)) e → p ∈ live e → p ∈ C → tr l C A e → tr l C A (remove e p).
Proof.
  intros W Hp HC. pose proof (wf_ids _ _ W p Hp) as Hid. destruct (remove_fields e p) as (_ & _ & En & _ & _ & Ee & _).
  eapply (traced_one l C A 0 e _ p _ []); [done|done|apply remove_heap|by rewrite app_nil_r|done|].
  unfold req_ok. cbn. intros [-> Hs]. split; [done|]. right. split; [done|].
  pose proof (not_gone _ _ W p Hp). destruct (s_state (at_ e p)); [destruct Hs as [-> _]; eauto|destruct Hs as [_ ->]; eauto..|done].
Qed.

Lemma enqueued_told l C A e input target fin : wf (it_decode (iter e)) e → tr l C A e → A !! (next e + 1) = None →
  tr l C ({[next e + 1 := (target, fin)]} ∪ A) (enqueued e (next e + 1) (newSeq (next e + 1) input target fin)).
Proof.
  intros W [H1 H2] HA. pose proof (wf_next _ _ W). split; cbn.
  - intros p Hp. rewrite enqueued_at. case_decide as Hpn.
    + subst p. split; [by rewrite lookup_union, lookup_singleton_eq, union_Some_l|].
      cbn. rewrite H2 by lia. done.
    + rewrite lookup_union_r by (by apply lookup_singleton_ne). apply H1. lia.
  - intros p Hp. apply H2. lia.
Qed.

(** The state of a call under way: its events so far are in order and between [lo] and [hi]. *)
Record calling (lo hi : Z) (l : list Event) (C : gset Z) (A : gmap Z (Z * string)) e : Prop := {
  ca_tr : tr l C A e;
  ca_sorted : StronglySorted Z.le (At <$> evs e);
  ca_within : Forall (λ ev, lo ≤ At ev ≤ hi) (evs e);
}.

Lemma calling_traced lo hi l C A e e' : lo ≤ hi → calling lo hi l C A e → traced l C A hi e e' → calling lo hi l C A e'.
Proof.
  intros Hle [Htr Hs Hw] [Hk (new & Ee & Hn)]. split; [auto|rewrite Ee, fmap_app|rewrite Ee].
  - apply (sorted_app _ _ hi); [done| | |]; [|apply Forall_fmap; eapply Forall_impl; [exact Hw|]; cbn; lia|].
    + destruct (spread_traced l C A hi hi hi e e' ltac:(lia)) as [_ (new' & Ee' & Hs' & _)]; [by split; eauto|].
      rewrite Ee in Ee'. by apply (inj (app _)) in Ee' as <-.
    + apply Forall_fmap. eapply Forall_impl; [exact Hn|]. cbn. lia.
  - apply Forall_app. split; [done|]. eapply Forall_impl; [exact Hn|]. cbn. lia.
Qed.

Lemma calling_evs lo hi l C A e e' C' A' : calling lo hi l C A e → evs e' = evs e → tr l C' A' e' → calling lo hi l C' A' e'.
Proof. intros [_ Hs Hw] Ee Htr. by split; rewrite ?Ee. Qed.

Lemma advance_calling now l C A e e1 : eng_ok e → evs e = [] → tr l C A e → advanceTo now e = Some (e1, None) →
  e_now e ≤ now ∧ calling (e_now e) now l C A e1.
Proof.
  intros Ok He Htr Ha. destruct (advanceTo_spread l C A now e e1 Ok Ha) as [Hle [Hk (new & Ee & Hs & Hw)]].
  rewrite He in Ee. cbn in Ee. split; [done|]. split; [auto|by rewrite Ee..].
Qed.

Lemma enqueue_calling lo now r l C A e : eng_ok e → next e < int64_max → e_now e = now → lo ≤ now →
  calling lo now l C A e → (∀ p, next e < p → A !! p = None) →
  let res := enqueueRequest now r e in
  let A' := match res.2 with inr i => {[ i_ID i := (OutputTokens i, i_Finish i) ]} ∪ A | inl _ => A end in
  calling lo now l C A' res.1.1 ∧ res.1.2 = evs res.1.1 ∧ (∀ p, next res.1.1 < p → A' !! p = None) ∧ e_now res.1.1 = now.
Proof.
  intros Ok Hn En Hlo Hc HA.
  destruct (enqueue_cases now r e Ok Hn) as [[-> _]|[[-> _]|[[-> _]|(target & fin & -> & ? & ? & ? & ? & ?)]]]; cbn.
  1-3: split_and!; try done; apply (calling_evs lo now l C A e); try done; apply (ca_tr _ _ _ _ _ _ Hc).
  destruct Ok as [W It Hidle Hno Hnow Hend]. pose proof (wf_next _ _ W).
  assert (W1 : wf (it_decode (iter e)) (enqueued e (next e + 1) (newSeq (next e + 1) (InputTokens r) target fin)))
    by (by apply enqueued_wf).
  pose proof (enqueued_told l C A e (InputTokens r) target fin W (ca_tr _ _ _ _ _ _ Hc) (HA (next e + 1) ltac:(lia))) as T1.
  set (e1 := enqueued e _ _) in *. set (A' := {[next e + 1 := (target, fin)]} ∪ A) in *.
  assert (Hc1 : calling lo now l C A' e1) by (by apply (calling_evs lo now l C A e)).
  assert (HA' : ∀ p, next e1 < p → A' !! p = None).
  { intros p Hp. cbn in Hp. apply lookup_union_None. split; [apply lookup_singleton_ne; lia|apply HA; lia]. }
  destruct (busy e) eqn:Hb; [by split_and!|]. rewrite (Hno eq_refl) in W1. cbn in W1.
  destruct (startIteration_spec e1 now W1) as (_ & (K1 & K2 & _) & _); [by apply Hno|cbn; lia|lia|].
  split_and!; [|done|by rewrite K2|by rewrite K1]. apply (calling_traced lo now l C A' e1); [done|done|].
  apply startIteration_traced; [done|lia].
Qed.

(** One call, from one history to the next. *)
Lemma call_told k e e' out l C A : eng_ok e → ecall_ok k e → do_call k e = Some (e', out) → told l C A e →
  (∀ p, next e < p → A !! p = None) →
  let C' := cancelled_by k e ∪ C in let A' := announced_by k e ∪ A in
  told (l ++ out) C' A' e' ∧ (∀ p, next e' < p → A' !! p = None) ∧ e_now e ≤ e_now e' ∧
  StronglySorted Z.le (At <$> out) ∧ Forall (λ ev, e_now e ≤ At ev ≤ e_now e') out.
Proof.
  intros Ok [Hk Hn] Hc Ht HA. set (e0 := e <| evs := [] |>). assert (Ok0 : eng_ok e0) by (by apply (eng_ok_ext e)).
  destruct (advanceTo_total (call_now k) e0 Ok0 Hk) as [[_ Ha]|(_ & e1 & Ha & Ok1 & En1 & Ex1 & _)].
  { assert (e' = e0 ∧ out = []) as [-> ->].
    { destruct k; cbn in *; unfold Advance, Submit, Cancel in Hc; fold e0 in Hc; rewrite Ha in Hc; by simplify_eq/=. }
    assert (cancelled_by k e = ∅ ∧ announced_by k e = ∅) as [-> ->].
    { destruct k; cbn in *; unfold Submit, Cancel; fold e0; by rewrite ?Ha. }
    cbn zeta. rewrite !(left_id_L ∅ _), app_nil_r. split_and!; [done|done|cbn; lia|constructor..]. }
  destruct (advance_calling (call_now k) l C A e0 e1 Ok0 eq_refl Ht Ha) as [Hle Hca].
  change (e_now e0) with (e_now e) in *. change (next e0) with (next e) in *.
  assert (Hfin : ∀ C' A' e2, calling (e_now e) (call_now k) l C' A' e2 → e_now e2 = call_now k →
    told (l ++ evs e2) C' A' e2 ∧ e_now e ≤ e_now e2 ∧ StronglySorted Z.le (At <$> evs e2) ∧
    Forall (λ ev, e_now e ≤ At ev ≤ e_now e2) (evs e2)).
  { intros C' A' e2 [T2 S2 F2] E2. rewrite E2. split_and!; try done. by apply told_intro. }
  cbn zeta. destruct k as [now|now r|now id]; cbn in *; unfold Advance, Submit, Cancel in *; fold e0 in Hc |- *; rewrite Ha in Hc; rewrite ?Ha.
  - cbn in Hc. injection Hc as <- <-. rewrite !(left_id_L ∅ _). destruct (Hfin C A _ Hca En1) as (? & ? & ? & ?). rewrite Ex1. by split_and!.
  - destruct (enqueue_calling (e_now e) now r l C A e1 Ok1) as (Hc2 & Ho & HA2 & En2); [by rewrite Ex1|done|lia|done|by rewrite Ex1|].
    destruct (enqueueRequest now r e1) as [[e2 o2] res]. cbn in *. injection Hc as <- <-. subst o2. rewrite (left_id_L ∅ (∪) C).
    assert ((match res with inl _ => ∅ | inr i => {[i_ID i := (OutputTokens i, i_Finish i)]} end ∪ A) =
      (match res with inl _ => A | inr i => {[i_ID i := (OutputTokens i, i_Finish i)]} ∪ A end)) as -> by (destruct res; [apply (left_id_L ∅ _)|done]).
    destruct (Hfin C _ e2 Hc2 En2) as (? & ? & ? & ?). by split_and!.
  - rewrite (left_id_L ∅ (∪) A). destruct (byID e1 !! id) as [p|] eqn:Hid; cbn in Hc; injection Hc as <- <-; cycle 1.
    { rewrite (left_id_L ∅ (∪) C). destruct (Hfin C A _ Hca En1) as (? & ? & ? & ?). rewrite Ex1. by split_and!. }
    apply (wf_byID _ _ (ok_wf _ Ok1)) in Hid as [-> Hp]. destruct (remove_fields e1 p) as (_ & _ & Enx & _ & _ & Ee & _).
    assert (Enow : e_now (remove e1 p) = e_now e1) by (unfold remove; by destruct (s_state (at_ e1 p))).
    destruct (Hfin ({[p]} ∪ C) A ((remove e1 p) <| cancelled := cancelled (remove e1 p) +! 1 |>)) as (? & ? & ? & ?);
      [|cbn; congruence|cbn in *; rewrite Enx, Ex1; by split_and!].
    apply (calling_evs (e_now e) now l C A e1); [done|done|].
    apply (remove_told l _ A e1 p (ok_wf _ Ok1) Hp); [set_solver|]. apply tr_cancel, Hca.
Qed.

Lemma history_told c e l C A : history c e l C A →
  eng_ok e ∧ told l C A e ∧ (∀ p, next e < p → A !! p = None) ∧
  StronglySorted Z.le (At <$> l) ∧ Forall (λ ev, At ev ≤ e_now e) l.
Proof.
  induction 1 as [e Hnew|e l C A k e' out Hh (Ok & Ht & HA & Hs & Hw) Hk Hc].
  - split; [by eapply New_ok|]. revert Hnew. unfold New. destruct (EngineConfig_Validate c); [done|]. intros [= <-].
    split_and!; try done; [|constructor..]. split; cbn; [intros p; lia|done].
  - pose proof (reach_ok c e (history_reach _ _ _ _ _ Hh)). destruct (call_total k e Ok Hk) as (e1 & o1 & Hc1 & Ok1).
    destruct (call_told k e e' out l C A Ok Hk Hc Ht HA) as (T2 & HA2 & En & S2 & W2).
    split_and!; [congruence|done|done| |].
    + rewrite fmap_app. apply (sorted_app _ _ (e_now e)); [done|done|by apply Forall_fmap|].
      apply Forall_fmap. eapply Forall_impl; [exact W2|]. cbn. lia.
    + apply Forall_app. split; (eapply Forall_impl; [eassumption|]); cbn; lia.
Qed.

(** ** Theorems. *)

(** C5: The event stream implements the per-request protocol: over any history of calls the
    events come in the order of their times and never after the engine's clock, and the events of
    each accepted request, taken alone, are a start, tokens numbered 0, 1, 2, ... with
    preemptions that report the count so far, and an end; what phase they have reached is exactly
    what the request's record says, an ended request produced either the announced number of
    tokens with the announced finish reason or fewer with "length" (or it was cancelled), and no
    event names a request that was not accepted. *)
Theorem stream_protocol c e l C A : history c e l C A →
  StronglySorted Z.le (At <$> l) ∧ Forall (λ ev, At ev ≤ e_now e) l ∧
  (∀ p, 1 ≤ p ≤ next e → req_ok (p ∈ C) (A !! p) (proto_run (events_of p l)) (at_ e p)) ∧
  (∀ p, next e < p → events_of p l = [] ∧ A !! p = None).
Proof.
  intros Hh. destruct (history_told c e l C A Hh) as (_ & [H1 H2] & HA & Hs & Hw). cbn in H1, H2. rewrite app_nil_r in H1, H2.
  split_and!; [done|done|done|]. intros p Hp. split; auto.
Qed.

(** C6: Every accepted request ends: from any engine a caller can have, advancing to the largest
    Duration returns, leaves the engine idle and empty, and by then every request ever accepted
    that was not cancelled has ended, with the number of tokens and the finish reason [Submit]
    announced, or with fewer and "length" when the KV cache ran out. *)
Theorem engine_drains c e l C A : history c e l C A →
  ∃ e' out, Advance int64_max e = Some (e', out, None) ∧ busy e' = false ∧ live e' = [] ∧ kvUsed e' = 0 ∧
  ∀ p, 1 ≤ p ≤ next e → p ∉ C → ∃ n reason target fin,
    A !! p = Some (target, fin) ∧ proto_run (events_of p (l ++ out)) = Some (Ended n reason) ∧
    ((n = target ∧ reason = fin) ∨ (n < target ∧ reason = "length")).
Proof.
  intros Hh. destruct (history_told c e l C A Hh) as (Ok & Ht & HA & _).
  set (e0 := e <| evs := [] |>). assert (Ok0 : eng_ok e0) by (by apply (eng_ok_ext e)).
  destruct (advanceTo_total int64_max e0 Ok0 ltac:(done)) as [[Hlt _]|(_ & e1 & Ha & Ok1 & En1 & Ex1 & _ & Hb1)].
  { pose proof (ok_now _ Ok0). lia. }
  assert (Hb : busy e1 = false).
  { destruct (busy e1) eqn:Hb; [|done]. pose proof (ok_end _ Ok1 Hb). specialize (Hb1 eq_refl). lia. }
  pose proof (ok_idle _ Ok1 Hb) as Hl. exists e1, (evs e1). unfold Advance. fold e0. rewrite Ha.
  split_and!; [done|done|done|rewrite (wf_kv _ _ (ok_wf _ Ok1)); by rewrite Hl|].
  destruct (advance_calling int64_max l C A e0 e1 Ok0 eq_refl Ht Ha) as [_ [[H1 _] _ _]].
  intros p Hp HC. change (next e0) with (next e) in Ex1. destruct (H1 p ltac:(lia)) as [Hi Hs].
  rewrite (wf_gone _ _ (ok_wf _ Ok1) p) in Hs by (lia || rewrite Hl; apply not_elem_of_nil).
  destruct Hs as [(reason & Hph & He)|[? _]]; [|done]. by eexists _, _, _, _.
Qed.

(** C21: Every call on a reachable engine ends with an answer, whatever time it carries, the largest
    Duration included: [advanceTo] runs at most [advanceFuel] iterations, and the guard of the
    loop in [startIteration] is never what ends it, since no more than MaxSeqs rounds can
    go on. *)
Theorem engine_terminates c e : eng_reach c e →
  (∀ k, ecall_ok k e → ∃ e' out, do_call k e = Some (e', out)) ∧
  (∀ t g, busy e = true → MaxSeqs c < Z.of_nat g → iterEnd e ≤ t ≤ int64_max →
    startLoop g (finishIteration e t) t = startLoop (S (Z.to_nat (MaxSeqs c))) (finishIteration e t) t).
Proof.
  intros Hr. pose proof (reach_ok c e Hr) as Ok. split.
  - intros k Hk. destruct (call_total k e Ok Hk) as (e' & out & Hc & _). eauto.
  - intros t g Hb Hg Ht. destruct Ok as [W It _ _ _ _]. destruct (finishIteration_spec e t W It) as (W1 & Ec & _).
    pose proof (wf_slots _ _ W1) as Hs. rewrite Ec, (reach_cfg c e Hr) in Hs. pose proof (len_nonneg (prefilling (finishIteration e t))).
    unfold len in *. apply (startLoop_guard t (length (running (finishIteration e t)))); [done|done|lia..].
Qed.

(** C22: The engine's own consistency check never finds anything: on every reachable engine
    [CheckInvariants] returns nil, in whatever order it visits the lists (no request in two lists,
    every one indexed, the KV tokens in use the sum of those held and within the budget, the
    slots within MaxSeqs, a running sequence holding exactly its prompt and output), and an
    engine that reports no next event has nothing queued or running. *)
Theorem engine_invariants `{GoMapOrder} c e : eng_reach c e →
  CheckInvariants e = None ∧ (NextEvent e = None → waiting e = [] ∧ prefilling e = [] ∧ running e = []).
Proof.
  intros Hr. pose proof (reach_ok c e Hr) as Ok. split; [by apply CheckInvariants_ok|].
  unfold NextEvent. destruct (busy e) eqn:Hb; [done|]. intros _. pose proof (ok_idle _ Ok Hb) as Hl. unfold live in Hl.
  by apply app_eq_nil in Hl as [-> [-> ->]%app_eq_nil].
Qed.

Lemma queued_exact D e : wf D e → ∀ l q, 0 ≤ q → (∀ p, p ∈ l → p ∈ live e) → q + len l * 2 ^ 26 ≤ 2 ^ 60 →
  foldl (λ q p, q +! s_input (at_ e p)) q l = q + hsum s_input (heap e) l.
Proof.
  intros W. induction l as [|p l IH]; intros q Hq Hl Hle; cbn [foldl]; [unfold hsum; cbn; lia|].
  pose proof (gen_small _ _ W p (Hl p ltac:(set_solver))). pose proof (wf_bounds _ _ W). rewrite len_cons in Hle.
  pose proof (len_nonneg l). rewrite (wrap64_id (q + s_input (at_ e p))) by (apply in64_small; lia).
  rewrite hsum_cons. change (deref (heap e) p) with (at_ e p).
  rewrite IH; [lia|lia|set_solver|lia].
Qed.

(** Machine integers never wrap where the engine counts resources: on every reachable engine
    the clock, the end of the iteration, the ids and every count held in a live record fit their
    type with the ranges the parameters give, and the statistics are the exact sums: the prompt
    tokens queued, the slots in use and the memory in use. *)
Theorem engine_typed c e : eng_reach c e →
  0 ≤ e_now e ≤ int64_max ∧ (busy e = true → e_now e ≤ iterEnd e ≤ int64_max) ∧ 0 ≤ next e ≤ int64_max ∧
  (∀ p, p ∈ live e → let s := at_ e p in
    s_id s = p ∧ 1 ≤ s_input s ≤ 2 ^ 26 ∧ 0 ≤ generated s < s_target s ∧ generated s ≤ 2 ^ 26 ∧
    0 ≤ kvHeld s ≤ KVBudgetTokens (c_Params c)) ∧
  let st := stats e in
  0 ≤ Active st ≤ MaxSeqs c ∧ Active st + QueueDepth st ≤ MaxQueue c + MaxSeqs c ∧
  QueuedInputTokens st = hsum s_input (heap e) (waiting e) ∧
  0 ≤ KVUsedTokens st ≤ KVBudgetTokens (c_Params c) ∧
  GPUMemoryUsedMB st = WeightsMB (c_Params c) + KVUsedTokens st * KVBytesPerToken (c_Params c) / 2 ^ 20.
Proof.
  intros Hr. pose proof (reach_ok c e Hr) as Ok. pose proof (reach_cfg c e Hr) as Ec. pose proof (ok_wf _ Ok) as W.
  pose proof (wf_p _ _ W) as Ep. rewrite Ec in Ep. pose proof (wf_bounds _ _ W) as Hb. pose proof (used_nonneg _ _ W) as Hu.
  pose proof (wf_budget _ _ W) as Hbud. pose proof (wf_slots _ _ W) as Hsl. pose proof (wf_room _ _ W) as Hroom.
  unfold budget in *. rewrite ?Ep, ?Ec in *. pose proof (len_nonneg (waiting e)). pose proof (len_nonneg (prefilling e)).
  pose proof (len_nonneg (running e)). unfold live in Hroom. rewrite !len_app in Hroom.
  split; [apply (ok_now _ Ok)|]. split; [apply (ok_end _ Ok)|]. split; [apply (wf_next _ _ W)|]. split.
  - intros p Hp. pose proof (gen_small _ _ W p Hp). pose proof (held_nonneg _ _ W p Hp). pose proof (held_le _ _ W p Hp).
    destruct (seq_live _ _ W p Hp) as (st & _ & Hs). unfold budget in *. rewrite Ep in *.
    split; [apply (si_id _ _ _ _ _ Hs)|lia].
  - cbn. rewrite Ep, (slots_exact _ _ W). split; [lia|]. split; [lia|]. split; [|split; [lia|]].
    + rewrite (queued_exact _ _ W); [lia|lia| |lia]. intros p Hp. by apply (queue_live e stWaiting).
    + assert (0 ≤ kvUsed e * KVBytesPerToken (c_Params c) ≤ 2 ^ 56) by nia.
      rewrite (wrap64_id (kvUsed e * _)) by (apply in64_small; lia). rewrite Z.quot_div_nonneg by lia.
      apply wrap64_id, in64_small. pose proof (Z.div_pos (kvUsed e * KVBytesPerToken (c_Params c)) (2 ^ 20)).
      pose proof (Z.div_le_upper_bound (kvUsed e * KVBytesPerToken (c_Params c)) (2 ^ 20) (2 ^ 56)). lia.
Qed.

(** ** Histories as a function, for concrete ones. *)

Definition call_okb (k : ecall) e : bool := (call_now k <=? int64_max) && (next e <? int64_max).

Definition hist_step (acc : option (Engine * list Event * gset Z * gmap Z (Z * string))) (k : ecall) :=
  match acc with
  | Some (e, l, C, A) =>
      if call_okb k e then
        match do_call k e with
        | Some (e', out) => Some (e', l ++ out, cancelled_by k e ∪ C, announced_by k e ∪ A)
        | None => None
        end
      else None
  | None => None
  end.

Definition hist_run (c : Config) (ks : list ecall) : option (Engine * list Event * gset Z * gmap Z (Z * string)) :=
  match New c with
  | inl _ => None
  | inr e => foldl hist_step (Some (e, [], ∅, ∅)) ks
  end.

Lemma hist_run_history c ks e l C A : hist_run c ks = Some (e, l, C, A) → history c e l C A.
Proof.
  unfold hist_run. destruct (New c) as [|e0] eqn:Hn; [done|]. revert e l C A.
  induction ks as [|k ks IH] using rev_ind; intros e l C A; [intros [= <- <- <- <-]; by constructor|].
  rewrite foldl_app. cbn. unfold hist_step at 1. destruct (foldl hist_step _ ks) as [[[[e1 l1] C1] A1]|]; [|done].
  destruct (call_okb k e1) eqn:Hk; [|done]. destruct (do_call k e1) as [[e2 out]|] eqn:Hc; [|done]. intros [= <- <- <- <-].
  eapply hi_call; [by apply IH| |done]. unfold call_okb in Hk. bprop. by split.
Qed.

End trace.

(** ** A run with a small cache: two requests, a preemption, and a cancelled third one. *)

Definition no_noise : GoRand :=
  {| Rand := unit; NewPCG := λ _ _, tt; NormFloat64 := λ r, (r, f0); Log1p := λ x, x; Exp := λ _, f64 1 |}.

Definition tiny_params : EngineParams :=
  mkEngineParams "tiny" "assumed" (f64 20) (f64 1) f0 (f64 5) (flit 1 1) f0 2 12 1048576 100 f0 f0.

Definition tiny : Config := mkConfig tiny_params 7 2 4 6.

Definition tiny_calls : list ecall :=
  [CSubmit 0 (mkRequest 4 0); CSubmit 1000000 (mkRequest 3 5); CSubmit 2000000 (mkRequest 2 0); CCancel 60000000 3].

Local Notation tiny_run := (@hist_run amd64 no_noise tiny tiny_calls).

(** In it the newest request is preempted, admitted again at once, and the step that now shares
    the cache with its chunked prefill preempts the oldest one. *)
Example tiny_preempts_oldest :
  match tiny_run with
  | Some (_, l, _, _) => map (λ ev, (At ev, ev_ID ev, Index ev)) (filter (λ ev, ev_Kind ev = EvPreempt) l)
  | None => []
  end = [(52700000, 2, 1); (52700000, 1, 3)].
Proof. vm_compute. reflexivity. Qed.

Lemma tiny_history : ∃ e l C A, tiny_run = Some (e, l, C, A) ∧ @history amd64 no_noise tiny e l C A.
Proof.
  destruct tiny_run as [[[[e l] C] A]|] eqn:Hr; [|vm_compute in Hr; discriminate Hr].
  exists e, l, C, A. split; [reflexivity|].
  exact (@hist_run_history amd64 no_noise tiny tiny_calls e l C A Hr).
Qed.

Lemma stream_protocol_witness : ∃ e l C A, tiny_run = Some (e, l, C, A) ∧ StronglySorted Z.le (At <$> l).
Proof.
  destruct tiny_history as (e & l & C & A & Hr & Hh). exists e, l, C, A. split; [exact Hr|].
  apply (@stream_protocol amd64 no_noise tiny e l C A Hh).
Defined.

Lemma engine_drains_witness : ∃ e l C A e' out, tiny_run = Some (e, l, C, A) ∧
  @Advance amd64 no_noise int64_max e = Some (e', out, None) ∧ live e' = [].
Proof.
  destruct tiny_history as (e & l & C & A & Hr & Hh).
  destruct (@engine_drains amd64 no_noise tiny e l C A Hh) as (e' & out & Ha & _ & Hl & _).
  exists e, l, C, A, e', out. split; [exact Hr|]. split; [exact Ha|exact Hl].
Defined.

Lemma engine_terminates_witness : ∃ e l C A, tiny_run = Some (e, l, C, A) ∧
  ∃ e' out, @do_call amd64 no_noise (CAdvance int64_max) e = Some (e', out).
Proof.
  destruct tiny_history as (e & l & C & A & Hr & Hh). exists e, l, C, A. split; [exact Hr|].
  apply (proj1 (@engine_terminates amd64 no_noise tiny e (history_reach _ _ _ _ _ Hh))).
  split; [reflexivity|]. assert (Hn : match tiny_run with Some (e, _, _, _) => next e | None => 0 end = 3) by (vm_compute; reflexivity).
  rewrite Hr in Hn. rewrite Hn. reflexivity.
Defined.

Lemma engine_invariants_witness : ∃ e l C A, tiny_run = Some (e, l, C, A) ∧ @CheckInvariants no_noise order_id e = None.
Proof.
  destruct tiny_history as (e & l & C & A & Hr & Hh). exists e, l, C, A. split; [exact Hr|].
  apply (@engine_invariants amd64 no_noise order_id tiny e (history_reach _ _ _ _ _ Hh)).
Defined.

Lemma engine_typed_witness : ∃ e l C A, tiny_run = Some (e, l, C, A) ∧ 0 ≤ e_now e ≤ int64_max.
Proof.
  destruct tiny_history as (e & l & C & A & Hr & Hh). exists e, l, C, A. split; [exact Hr|].
  apply (@engine_typed amd64 no_noise tiny e (history_reach _ _ _ _ _ Hh)).
Defined.
