(* ===== verification/Tokens.v ===== *)
(** * Token counts read off a response: internal/gateway/tokens.go

    [tokenScanner] watches a response body go by in pieces and keeps a window of its last bytes
    and a count of content chunks.  A byte slice is a list of bytes; [b[i:]] is [drop], [copy]
    into a fixed array is [take] of what fits.  The carry array is the list of the bytes of it
    that are in use. *)

From S2P Require Import Prelude GoString.

Local Open Scope string_scope.
Local Open Scope list_scope.
Local Open Scope Z_scope.
Local Open Scope go_scope.

(** ** bytes.Index, bytes.Contains, and the spaces skipped. *)

Fixpoint starts_with (key b : list Z) : bool :=
  match key, b with
  | [], _ => true
  | _, [] => false
  | k :: key, c :: b => (k =? c) && starts_with key b
  end.

Fixpoint bytes_Index (b key : list Z) : option nat :=
  if starts_with key b then Some 0%nat else
  match b with
  | [] => None
  | _ :: b => S <$> bytes_Index b key
  end.

Definition bytes_Contains (b key : list Z) : bool := match bytes_Index b key with Some _ => true | None => false end.

(** [for len(b) > 0 && p(b[0]) { b = b[1:] }] *)
Fixpoint skip (p : Z → bool) (b : list Z) : list Z :=
  match b with
  | [] => []
  | c :: b' => if p c then skip p b' else b
  end.

Definition is_space (c : Z) : bool := (c =? 32) || (c =? 9) || (c =? 10) || (c =? 13).

(** ** The scanner. *)

Definition MaxEventTokens : Z := 10000000000.
Definition TokensUsage : string := "usage".
Definition TokensChunks : string := "chunks".

Definition tokenWindow : nat := 2048.

(** The key is a double quote, content, a double quote, a colon and a double quote. *)
Definition contentKey : list Z := 34 :: bytes "content" ++ [34; 58; 34].
Definition contentKeyLen : nat := 11.
Definition usageKey : list Z := 34 :: bytes "usage" ++ [34].
Definition promptKey : list Z := 34 :: bytes "prompt_tokens" ++ [34].
Definition completionKey : list Z := 34 :: bytes "completion_tokens" ++ [34].

Record tokenScanner := mkScanner {
  tail : list Z;
  carry : list Z;
  chunks : Z;
}.

Definition newScanner : tokenScanner := mkScanner [] [] 0.

(** The loop of [countKeys]; each round moves past a key. *)
Fixpoint countFrom (fuel : nat) (b : list Z) (limit pos : nat) (n : Z) : Z :=
  match fuel with
  | O => n
  | S fuel =>
      match bytes_Index (drop pos b) contentKey with
      | None => n
      | Some i =>
          let start := (pos + i)%nat in
          if (limit <=? start)%nat then n else
          let after := (start + contentKeyLen)%nat in
          let n :=
            match b !! after with
            | Some c => if negb (c =? 34) then n +! 1 else n
            | None => n
            end in
          countFrom fuel b limit after n
      end
  end.

Definition countKeys (b : list Z) (limit : nat) : Z := countFrom (length b) b limit 0 0.

Definition feed_tail (tl b : list Z) : list Z :=
  if (tokenWindow <=? length b)%nat then drop (length b - tokenWindow) b
  else drop (length tl + length b - tokenWindow) tl ++ b.

Definition feed (t : tokenScanner) (b : list Z) : tokenScanner :=
  if (length b =? 0)%nat then t else
  let ncarry := length (carry t) in
  let n :=
    if (0 <? ncarry)%nat then
      let head := carry t ++ take (2 * contentKeyLen - ncarry) (take (contentKeyLen + 1) b) in
      chunks t +! countKeys head ncarry
    else chunks t in
  let n := n +! countKeys b (length b) in
  let cr :=
    if (contentKeyLen <=? length b)%nat then drop (length b - contentKeyLen) b
    else
      let all := carry t ++ b in
      drop (length all - contentKeyLen) all in
  mkScanner (feed_tail (tail t) b) cr n.

(** ** The usage object. *)

(** The first loop of [parseUsage]: the object's offset, [None] for the early return. *)
Fixpoint findUsage (fuel : nat) (b : list Z) (off : nat) (objStart : option nat) : option (option nat) :=
  match fuel with
  | O => Some objStart
  | S fuel =>
      match bytes_Index (drop off b) usageKey with
      | None => Some objStart
      | Some i =>
          let pos := (off + i + length usageKey)%nat in
          let rest := skip (λ c, is_space c || (c =? 58)) (drop pos b) in
          match rest with
          | c :: _ =>
              if c =? 123 then
                match objStart with
                | Some _ => None
                | None => findUsage fuel b pos (Some (length b - length rest)%nat)
                end
              else findUsage fuel b pos objStart
          | [] => findUsage fuel b pos objStart
          end
      end
  end.

(** The scan of [balanced] at offset [i], and what it returns: the length of the object. *)
Fixpoint balancedFrom (b : list Z) (i : nat) (depth : Z) (inStr esc : bool) : option nat :=
  match b with
  | [] => None
  | c :: b =>
      if esc then balancedFrom b (S i) depth inStr false
      else if inStr then
        if c =? 92 then balancedFrom b (S i) depth true true
        else balancedFrom b (S i) depth (negb (c =? 34)) false
      else if c =? 34 then balancedFrom b (S i) depth true false
      else if c =? 123 then balancedFrom b (S i) (depth +! 1) false false
      else if c =? 125 then
        if depth -! 1 =? 0 then Some (S i) else balancedFrom b (S i) (depth -! 1) false false
      else balancedFrom b (S i) depth false false
  end.

Definition balanced (b : list Z) : option (list Z) :=
  match balancedFrom b 0 0 false false with
  | Some n => Some (take n b)
  | None => None
  end.

(** The digits: value and count, [None] when there are more than the largest value has. *)
Fixpoint readDigits (b : list Z) (n : Z) (digits : nat) : option (Z * nat * list Z) :=
  match b with
  | c :: b' =>
      if is_digit c then
        if (11 <=? digits)%nat then None else readDigits b' (n *! 10 +! (c - 48)) (S digits)
      else Some (n, digits, b)
  | [] => Some (n, digits, [])
  end.

Definition endsNumber (c : Z) : bool := (c =? 44) || (c =? 125) || is_space c.

(** The number at the start of [b], which must end there. *)
Definition readCount (b : list Z) : option Z :=
  match readDigits b 0 0 with
  | None => None
  | Some (n, digits, rest) =>
      if (digits =? 0)%nat || ((1 <? digits)%nat && (default 0 (b !! 0%nat) =? 48)) || (MaxEventTokens <? n) then None else
      match rest with
      | [] => None
      | c :: _ => if endsNumber c then Some n else None
      end
  end.

Definition uniqueCount (obj key : list Z) : option Z :=
  match bytes_Index obj key with
  | None => None
  | Some i =>
      let b := drop (i + length key) obj in
      if bytes_Contains b key then None else
      match skip is_space b with
      | [] => None
      | c :: b => if negb (c =? 58) then None else readCount (skip is_space b)
      end
  end.

Definition parseUsage (b : list Z) : option (Z * Z) :=
  match findUsage (length b) b 0 None with
  | None => None
  | Some None => None
  | Some (Some objStart) =>
      match balanced (drop objStart b) with
      | None => None
      | Some obj =>
          match uniqueCount obj promptKey, uniqueCount obj completionKey with
          | Some p, Some c => Some (p, c)
          | _, _ => None
          end
      end
  end.

Definition result (t : tokenScanner) (stream : bool) : string * Z * Z :=
  match parseUsage (tail t) with
  | Some (p, c) => (TokensUsage, p, c)
  | None => if stream && (0 <? chunks t) then (TokensChunks, 0, chunks t) else ("", 0, 0)
  end.
