(* ===== verification/TokensSpec.v ===== *)
(** * The scanner does not depend on how the body is cut, and reads what a worker reports

    The reference counts, over the whole body, the places where the content key is followed by a
    byte that is not the closing quote ([hits]).  The scanner agrees with it for every way to cut
    the body into pieces, provided no two keys overlap (they cannot in JSON: the first key would
    be followed by a string that is followed by a colon); when they do overlap the count depends on
    the cut, but never exceeds the reference and is zero only with it.  The window is always the end
    of the body.

    A usage object as a worker writes it is read back exactly. *)

From S2P Require Import Prelude GoString Tokens.

Local Open Scope string_scope.
Local Open Scope list_scope.
Local Open Scope Z_scope.
Local Open Scope go_scope.

(** ** Keys in a list. *)

Definition key_at (S : list Z) (i : nat) : Prop := take contentKeyLen (drop i S) = contentKey.

Lemma starts_with_take key b : starts_with key b = true ↔ take (length key) b = key.
Proof.
  revert b. induction key as [|k key IH]; intros [|c b]; cbn; try done.
  rewrite andb_true_iff, Z.eqb_eq, IH. split; [intros [-> ->]; done|]. by intros [= -> ->].
Qed.

Lemma bytes_Index_Some b key i : bytes_Index b key = Some i →
  take (length key) (drop i b) = key ∧ ∀ j, (j < i)%nat → take (length key) (drop j b) ≠ key.
Proof.
  revert i. induction b as [|c b IH]; intros i; cbn [bytes_Index]; destruct (starts_with key _) eqn:Hs.
  1,3: intros [= <-]; split; [by apply starts_with_take|lia].
  - done.
  - destruct (bytes_Index b key) as [i'|]; [|done]. intros [= <-]. destruct (IH i' eq_refl) as [Ha Hb].
    split; [done|]. intros [|j] Hj; [|by apply Hb; lia]. intros Hk%starts_with_take. cbn in Hk. congruence.
Qed.

Lemma bytes_Index_None b key i : bytes_Index b key = None → take (length key) (drop i b) ≠ key.
Proof.
  revert i. induction b as [|c b IH]; intros i; cbn [bytes_Index]; destruct (starts_with key _) eqn:Hs; try done.
  - intros _ Hk. rewrite drop_nil in Hk. apply starts_with_take in Hk. congruence.
  - destruct (bytes_Index b key) as [i'|]; [done|]. intros _. destruct i as [|i]; [|by apply IH].
    intros Hk%starts_with_take. cbn in Hk. congruence.
Qed.

Lemma bytes_Index_first b key i : take (length key) (drop i b) = key →
  (∀ j, (j < i)%nat → take (length key) (drop j b) ≠ key) → bytes_Index b key = Some i.
Proof.
  intros Hi Hj. destruct (bytes_Index b key) as [k|] eqn:Hk.
  - apply bytes_Index_Some in Hk as [Ha Hb]. f_equal. destruct (Nat.lt_trichotomy k i) as [?|[?|?]]; [|done|].
    + by destruct (Hj k).
    + by destruct (Hb i).
  - by apply (bytes_Index_None b key i) in Hk.
Qed.

Lemma key_byte S i k : key_at S i → (k < contentKeyLen)%nat → S !! (i + k)%nat = contentKey !! k.
Proof. unfold key_at. intros <- Hk. by rewrite lookup_take_lt, lookup_drop by done. Qed.

(** The key begins with the byte it ends with, and overlaps itself in no other way. *)
Lemma key_overlap S i d : key_at S i → key_at S (i + d) → (0 < d < contentKeyLen)%nat → d = 10%nat.
Proof.
  unfold contentKeyLen. intros Hi Hd Hlt.
  assert (E0 : contentKey !! d = Some 34).
  { rewrite <- (key_byte S i d Hi) by (unfold contentKeyLen; lia).
    rewrite <- (Nat.add_0_r (i + d)), (key_byte S (i + d) 0 Hd) by (unfold contentKeyLen; lia). done. }
  assert (E1 : d = 8%nat → False).
  { intros ->. pose proof (key_byte S i 9 Hi ltac:(unfold contentKeyLen; lia)) as E9.
    pose proof (key_byte S (i + 8) 1 Hd ltac:(unfold contentKeyLen; lia)) as E1.
    replace (i + 8 + 1)%nat with (i + 9)%nat in E1 by lia. rewrite E9 in E1. discriminate E1. }
  do 11 (destruct d as [|d]; [cbn in E0; lia || discriminate E0 || (exfalso; by apply E1) || done|]). lia.
Qed.

Definition no_overlap (S : list Z) : Prop := ∀ i, key_at S i → ¬ key_at S (i + 10).

(** ** The reference count: the keys that start before [limit] and are followed by content. *)

Definition hit (l : list Z) : bool :=
  starts_with contentKey l && match l !! contentKeyLen with Some c => negb (c =? 34) | None => false end.

Fixpoint hits (limit : nat) (l : list Z) : Z :=
  match limit, l with
  | S limit, _ :: l' => Z.b2z (hit l) + hits limit l'
  | _, _ => 0
  end.

Lemma hits_bounds limit l : 0 ≤ hits limit l ≤ Z.of_nat limit.
Proof.
  revert l. induction limit as [|limit IH]; intros [|c l]; cbn [hits]; try lia.
  specialize (IH l). destruct (hit (c :: l)); cbn [Z.b2z]; lia.
Qed.

Lemma hits_add a b l : hits (a + b) l = hits a l + hits b (drop a l).
Proof.
  revert l. induction a as [|a IH]; intros [|c l]; cbn [hits Nat.add drop]; try lia.
  - by destruct b.
  - rewrite IH. lia.
Qed.

Lemma hits_all l a : hits (length l + a) l = hits (length l) l.
Proof. rewrite hits_add, drop_all. destruct a; cbn; lia. Qed.

(** No key in a stretch, no hit. *)
Lemma hits_none limit l : (∀ j, (j < limit)%nat → take contentKeyLen (drop j l) ≠ contentKey) → hits limit l = 0.
Proof.
  revert l. induction limit as [|limit IH]; intros [|c l] Hn; cbn [hits]; try done.
  rewrite IH by (intros j Hj; apply (Hn (S j)); lia). unfold hit.
  destruct (starts_with contentKey (c :: l)) eqn:Hs; [|done]. apply starts_with_take in Hs.
  by destruct (Hn 0%nat ltac:(lia)).
Qed.

(** ** [countKeys] counts the hits. *)

(** A count against the reference: never above it, zero only with it, and equal to it when [exact]. *)
Definition tally (exact : Prop) (y h : Z) : Prop := 0 ≤ y ≤ h ∧ (0 < h → 0 < y) ∧ (exact → y = h).

Lemma tally_add exact y h y' h' : tally exact y h → tally exact y' h' → tally exact (y + y') (h + h').
Proof. intros (? & ? & E) (? & ? & E'). split_and!; [lia..|]. intros He. by rewrite E, E'. Qed.

Lemma tally_weaken (P Q : Prop) y h : (Q → P) → tally P y h → tally Q y h.
Proof. intros HP (Hb & Hp & E). split; [done|]. split; [done|auto]. Qed.

(** A key that overlaps the one before starts at that one's last byte, so that one is followed by content. *)
Lemma after_key b start j : key_at b start → (j < 10)%nat → take contentKeyLen (drop j (drop (start + 1) b)) = contentKey →
  key_at b (start + 10) ∧ b !! (start + contentKeyLen)%nat = Some 99.
Proof.
  intros Hs Hj. rewrite drop_drop. replace (start + 1 + j)%nat with (start + (j + 1))%nat by lia. intros Hk.
  pose proof (key_overlap b start (j + 1) Hs Hk ltac:(unfold contentKeyLen; lia)) as Hd. rewrite Hd in Hk. split; [done|].
  pose proof (key_byte b (start + 10) 1 Hk ltac:(unfold contentKeyLen; lia)) as E. by replace (start + 10 + 1)%nat with (start + contentKeyLen)%nat in E by (unfold contentKeyLen; lia).
Qed.

Lemma hits_key b start r : key_at b start →
  let x := Z.b2z (match b !! (start + contentKeyLen)%nat with Some c => negb (c =? 34) | None => false end) in
  let rest := hits (r - 10) (drop (start + contentKeyLen) b) in
  x + rest ≤ hits (S r) (drop start b) ∧ (x = 0 ∨ no_overlap b → hits (S r) (drop start b) = x + rest).
Proof.
  intros Hk x rest. destruct (drop start b) as [|c l] eqn:Hd; [by unfold key_at in Hk; rewrite Hd in Hk|].
  assert (El : drop (start + 1) b = l) by (rewrite <- drop_drop, Hd; done). cbn [hits].
  assert (hit (c :: l) = match b !! (start + contentKeyLen)%nat with Some c => negb (c =? 34) | None => false end) as ->.
  { unfold hit. rewrite <- Hd, lookup_drop. replace (starts_with contentKey (drop start b)) with true; [done|].
    symmetry. by apply starts_with_take. }
  fold x. assert (hits r l = hits (r `min` 10) l + rest) as ->.
  { replace (hits r l) with (hits (r `min` 10 + (r - 10)) l) by (f_equal; lia). rewrite hits_add. f_equal. subst rest. rewrite <- El, drop_drop.
    destruct (Nat.le_gt_cases r 10); [replace (r - 10)%nat with 0%nat by lia; done|]. unfold contentKeyLen. f_equal. f_equal. lia. }
  pose proof (hits_bounds (r `min` 10) l). split; [lia|]. intros Hx. rewrite (hits_none (r `min` 10) l); [lia|]. intros j Hj. rewrite <- El. intros Hj'.
  destruct (after_key b start j Hk ltac:(lia) Hj') as [Hk' Hc]. destruct Hx as [Hx|Hno]; [|by apply (Hno start)]. subst x. by rewrite Hc in Hx.
Qed.

Lemma b2z_range y : 0 ≤ Z.b2z y ≤ 1.
Proof. destruct y; cbn; lia. Qed.

Lemma countFrom_hits b limit : Z.of_nat limit ≤ 2 ^ 61 → ∀ fuel pos n, (length b ≤ fuel + pos)%nat →
  0 ≤ n ≤ 2 ^ 61 → n + Z.of_nat (limit - pos) ≤ 2 ^ 61 →
  tally (no_overlap b) (countFrom fuel b limit pos n - n) (hits (limit - pos) (drop pos b)).
Proof.
  intros Hlim. induction fuel as [|fuel IH]; intros pos n Hf Hn Hb; cbn [countFrom].
  { rewrite drop_ge by lia. unfold tally. destruct (limit - pos)%nat; cbn; lia. }
  destruct (bytes_Index (drop pos b) contentKey) as [i|] eqn:Hi; cycle 1.
  { rewrite hits_none; [unfold tally; lia|]. intros j _. by apply (bytes_Index_None _ contentKey). }
  apply bytes_Index_Some in Hi as [Hk Hbefore]. rewrite drop_drop in Hk. fold contentKeyLen in Hk. change (key_at b (pos + i)) in Hk.
  assert (Hnone : ∀ m, (m ≤ i)%nat → hits m (drop pos b) = 0) by (intros m Hm; apply hits_none; intros j Hj; apply Hbefore; lia).
  destruct (Nat.leb_spec limit (pos + i)) as [Hl|Hl]; [rewrite Hnone by lia; unfold tally; lia|].
  replace (limit - pos)%nat with (i + S (limit - (pos + i) - 1))%nat by lia.
  rewrite hits_add, Hnone, drop_drop by done. destruct (hits_key b (pos + i) (limit - (pos + i) - 1) Hk) as [Hle Heq].
  set (x := Z.b2z _) in *.
  assert (Ex : match b !! (pos + i + contentKeyLen)%nat with Some c => if negb (c =? 34) then n +! 1 else n | None => n end = n + x).
  { subst x. destruct (b !! _) as [c|]; [|cbn; lia]. destruct (negb (c =? 34)); cbn [Z.b2z]; [|lia].
    apply wrap64_id. unfold in64, int64_min, int64_max. lia. }
  rewrite Ex. assert (Hx : 0 ≤ x ≤ 1) by (subst x; apply b2z_range).
  specialize (IH (pos + i + contentKeyLen)%nat (n + x)). unfold contentKeyLen in *.
  replace (limit - (pos + i) - 1 - 10)%nat with (limit - (pos + i + 11))%nat in * by lia.
  destruct IH as (Hb' & Hp & He); [lia..|]. split_and!; [lia|lia| |].
  - intros Hh. destruct (decide (x = 0)) as [E|E]; [|lia]. rewrite Heq in Hh by auto. lia.
  - intros Hno. rewrite Heq by auto. specialize (He Hno). lia.
Qed.

Lemma countKeys_hits b limit : Z.of_nat limit ≤ 2 ^ 61 → tally (no_overlap b) (countKeys b limit) (hits limit b).
Proof.
  intros Hl. pose proof (countFrom_hits b limit Hl (length b) 0 0 ltac:(lia) ltac:(lia) ltac:(lia)) as Hc.
  by rewrite Nat.sub_0_r, Z.sub_0_r in Hc.
Qed.

(** ** A body in pieces. *)

Lemma no_overlap_sub l S k : no_overlap (l ++ S ++ k) → no_overlap S.
Proof.
  intros Hno i Hi Hj.
  assert (Hsub : ∀ m, key_at S m → key_at (l ++ S ++ k) (length l + m)).
  { intros m Hm. unfold key_at in *. rewrite drop_app_add, <- Hm.
    assert (contentKeyLen ≤ length (drop m S))%nat.
    { assert (El : length (take contentKeyLen (drop m S)) = 11%nat) by (by rewrite Hm).
      rewrite length_take in El. unfold contentKeyLen in *. lia. }
    rewrite length_drop in *. assert (m < length S)%nat by (unfold contentKeyLen in *; lia).
    rewrite drop_app_le by lia. rewrite take_app_le by (rewrite length_drop; lia). done. }
  apply (Hno (length l + i)%nat); [by apply Hsub|]. rewrite <- Nat.add_assoc. by apply Hsub.
Qed.

(** A place's verdict needs the next twelve bytes only. *)
Lemma hit_local l k : (contentKeyLen < length l)%nat → hit (l ++ k) = hit l.
Proof.
  intros Hl. unfold hit. rewrite lookup_app_l by done. f_equal.
  destruct (starts_with contentKey (l ++ k)) eqn:E1, (starts_with contentKey l) eqn:E2; try done; exfalso.
  - apply starts_with_take in E1. rewrite take_app_le in E1 by (cbn in *; unfold contentKeyLen in *; lia).
    apply starts_with_take in E1. congruence.
  - apply starts_with_take in E2. rewrite <- (take_app_le l k) in E2 by (cbn in *; unfold contentKeyLen in *; lia).
    apply starts_with_take in E2. congruence.
Qed.

Lemma hit_short l : (length l ≤ contentKeyLen)%nat → hit l = false.
Proof. intros Hl. unfold hit. rewrite lookup_ge_None_2 by done. apply andb_false_r. Qed.

Lemma hits_local limit l k : (limit + contentKeyLen ≤ length l)%nat → hits limit (l ++ k) = hits limit l.
Proof.
  revert l. induction limit as [|limit IH]; intros [|c l] Hl; cbn [hits app length] in *; try done.
  { unfold contentKeyLen in Hl. cbn in Hl. lia. }
  rewrite IH by lia. f_equal. f_equal. apply (hit_local (c :: l)). cbn [length]. lia.
Qed.

Lemma hits_short limit l : (length l ≤ contentKeyLen)%nat → hits limit l = 0.
Proof.
  revert l. induction limit as [|limit IH]; intros [|c l] Hl; cbn [hits]; try done.
  rewrite hit_short, IH by (cbn [length] in *; lia). done.
Qed.

(** The bytes the carry holds. *)
Definition last_bytes (n : nat) (l : list Z) : list Z := drop (length l - n) l.

(** The count over a body that grows by a piece: what was counted, the keys that began in the last
    bytes, the keys of the piece. *)
Lemma hits_extend X b :
  hits (length (X ++ b)) (X ++ b) =
    hits (length X) X + hits (length (last_bytes contentKeyLen X)) (last_bytes contentKeyLen X ++ b) + hits (length b) b.
Proof.
  set (m := (length X - contentKeyLen)%nat). unfold last_bytes. fold m.
  rewrite length_app, hits_add, drop_app_length. f_equal.
  assert (EX : length X = (m + length (drop m X))%nat) by (rewrite length_drop; lia).
  rewrite EX at 1 2. rewrite !hits_add.
  assert (Hm : (m ≤ length X)%nat) by lia.
  rewrite (drop_app_le X b) by done. f_equal.
  rewrite (hits_short _ (drop m X)) by (rewrite length_drop; unfold m; lia). rewrite Z.add_0_r.
  destruct (Nat.le_gt_cases (length X) contentKeyLen) as [Hs|Hs].
  - replace m with 0%nat by lia. done.
  - apply hits_local. unfold m. lia.
Qed.

Lemma last_bytes_split n X : X = take (length X - n) X ++ last_bytes n X.
Proof. symmetry. apply take_drop. Qed.

Lemma last_bytes_length n X : length (last_bytes n X) = (n `min` length X)%nat.
Proof. unfold last_bytes. rewrite length_drop. lia. Qed.

Lemma last_bytes_long n X b : (n ≤ length b)%nat → last_bytes n (X ++ b) = last_bytes n b.
Proof.
  intros Hn. unfold last_bytes. rewrite length_app, drop_app_ge by lia. f_equal. lia.
Qed.

Lemma last_bytes_short n X b : (length b ≤ n)%nat → last_bytes n (last_bytes n X ++ b) = last_bytes n (X ++ b).
Proof.
  intros Hn. unfold last_bytes. rewrite !length_app, length_drop.
  rewrite !drop_app_le by (rewrite ?length_drop; lia). rewrite drop_drop. f_equal. f_equal. lia.
Qed.

(** What the scanner knows after the bytes of [X]. *)
Record scans (t : tokenScanner) (X : list Z) : Prop := {
  sc_tail : tail t = last_bytes tokenWindow X;
  sc_carry : carry t = last_bytes contentKeyLen X;
  sc_chunks : tally (no_overlap X) (chunks t) (hits (length X) X);
}.

Lemma feed_tail_last X b : feed_tail (last_bytes tokenWindow X) b = last_bytes tokenWindow (X ++ b).
Proof.
  unfold feed_tail. destruct (Nat.leb_spec tokenWindow (length b)) as [Hl|Hl]; [by rewrite last_bytes_long|].
  rewrite <- last_bytes_short by lia. unfold last_bytes at 3. rewrite length_app, drop_app_le; [done|].
  rewrite last_bytes_length. lia.
Qed.

(** The bytes of the piece the head array has room for decide every key that began before it. *)
Lemma head_hits (cr b : list Z) : (length cr ≤ contentKeyLen)%nat →
  hits (length cr) (cr ++ take (2 * contentKeyLen - length cr) (take (contentKeyLen + 1) b)) = hits (length cr) (cr ++ b).
Proof.
  intros Hc. rewrite take_take. set (q := ((2 * contentKeyLen - length cr) `min` (contentKeyLen + 1))%nat).
  assert (Hq : (contentKeyLen ≤ q)%nat) by (unfold q, contentKeyLen in *; lia).
  destruct (Nat.le_gt_cases (length b) q) as [Hb|Hb]; [by rewrite (take_ge b q)|].
  rewrite <- (take_drop q b) at 2. rewrite (assoc app). symmetry. apply hits_local. rewrite length_app, length_take. lia.
Qed.

Lemma head_counts (cr b : list Z) : (length cr ≤ contentKeyLen)%nat →
  tally (no_overlap (cr ++ b)) (countKeys (cr ++ take (2 * contentKeyLen - length cr) (take (contentKeyLen + 1) b)) (length cr)) (hits (length cr) (cr ++ b)).
Proof.
  intros Hc. rewrite <- (head_hits cr b Hc). eapply tally_weaken; [|apply countKeys_hits; unfold contentKeyLen in Hc; lia]. intros Hno.
  rewrite take_take. set (q := Nat.min _ _). apply (no_overlap_sub [] _ (drop q b)). cbn. by rewrite <- (assoc app), take_drop.
Qed.

Lemma feed_scans t X b : scans t X → Z.of_nat (length (X ++ b)) ≤ 2 ^ 60 → scans (feed t b) (X ++ b).
Proof.
  intros [Ht Hc Hn] Hlen. unfold feed. destruct (Nat.eqb_spec (length b) 0) as [Hz|Hz].
  { apply nil_length_inv in Hz as ->. rewrite app_nil_r. by split. }
  rewrite length_app in Hlen. cbn zeta. split; cbn [tail carry chunks].
  - rewrite Ht. apply feed_tail_last.
  - rewrite Hc. destruct (Nat.leb_spec contentKeyLen (length b)) as [Hl|Hl]; [by rewrite last_bytes_long|].
    by apply last_bytes_short; lia.
  - pose proof (last_bytes_length contentKeyLen X) as Hcl. rewrite <- Hc in Hcl. unfold contentKeyLen in Hcl.
    assert (Hsub : no_overlap (X ++ b) → no_overlap (carry t ++ b)).
    { intros Hno. apply (no_overlap_sub (take (length X - contentKeyLen) X) _ []). rewrite app_nil_r, (assoc app), Hc, <- last_bytes_split. done. }
    pose proof (tally_weaken _ (no_overlap (X ++ b)) _ _ ltac:(intros; by apply (no_overlap_sub [] X b)) Hn) as HX.
    pose proof (tally_weaken _ _ _ _ Hsub (head_counts (carry t) b ltac:(unfold contentKeyLen; lia))) as Hhead.
    assert (tally (no_overlap (X ++ b)) (countKeys b (length b)) (hits (length b) b)) as Hpiece.
    { eapply tally_weaken; [|apply countKeys_hits; lia]. intros Hno. apply (no_overlap_sub X b []). by rewrite app_nil_r. }
    rewrite hits_extend, <- Hc. pose proof (hits_bounds (length X) X). pose proof (hits_bounds (length b) b).
    pose proof (hits_bounds (length (carry t)) (carry t ++ b)). set (head := countKeys (carry t ++ _) _) in *.
    assert (E : tally (no_overlap (X ++ b)) (if (0 <? length (carry t))%nat then chunks t +! head else chunks t) (hits (length X) X + hits (length (carry t)) (carry t ++ b))).
    { destruct (Nat.ltb_spec 0 (length (carry t))) as [Hp|Hp].
      - rewrite wrap64_id; [by apply tally_add|]. destruct HX, Hhead. unfold in64, int64_min, int64_max. lia.
      - replace (length (carry t)) with 0%nat by lia. cbn [hits]. by rewrite Z.add_0_r. }
    rewrite wrap64_id; [by apply tally_add|]. destruct E, Hpiece. unfold in64, int64_min, int64_max. lia.
Qed.

Lemma feeds_scan ps : ∀ t X, scans t X → Z.of_nat (length (X ++ concat ps)) ≤ 2 ^ 60 → scans (foldl feed t ps) (X ++ concat ps).
Proof.
  induction ps as [|b ps IH]; intros t X Ht Hlen; cbn [foldl concat] in *; [by rewrite app_nil_r in *|].
  rewrite (assoc app) in *. apply IH; [|done]. apply feed_scans; [done|]. rewrite length_app in Hlen. lia.
Qed.

(** ** Theorems. *)

Lemma result_counts t t' stream : tail t = tail t' → (0 < chunks t ↔ 0 < chunks t') → (result t stream).1 = (result t' stream).1.
Proof.
  intros Ht Hc. unfold result. rewrite Ht. destruct (parseUsage _) as [[p c]|]; [done|]. destruct stream; [|done]. cbn [andb].
  destruct (Z.ltb_spec 0 (chunks t)), (Z.ltb_spec 0 (chunks t')); done || lia.
Qed.

Lemma result_same t t' stream : tail t = tail t' → stream = false ∨ is_Some (parseUsage (tail t)) ∨ chunks t = chunks t' → result t stream = result t' stream.
Proof. intros Ht Hc. unfold result. rewrite <- Ht. destruct Hc as [->|[[[p c] ->]|Hc]]; [done..|]. by rewrite Hc. Qed.

(** C34: What the scanner reports of a response of at most 2^60 bytes, however the network cuts it.
    Its window is the last 2048 bytes of the body.  Its chunk count is at most the number of
    places in the whole body where the content key is followed by a byte other than the closing
    quote, is zero only with it, and is equal to it if no two keys of the body overlap.  So the source
    and the prompt tokens are always those of the body read in one piece; the whole answer is, if
    the response is no stream, or a usage object is found, or no two keys overlap.  Overlapping keys,
    which no JSON text has, may be counted differently ([overlap_cut]). *)
Theorem scanner_piecewise ps stream : Z.of_nat (length (concat ps)) ≤ 2 ^ 60 →
  let body := concat ps in
  let t := foldl feed newScanner ps in
  let whole := feed newScanner body in
  tail t = last_bytes tokenWindow body ∧
  0 ≤ chunks t ≤ hits (length body) body ∧ (0 < hits (length body) body → 0 < chunks t) ∧ (no_overlap body → chunks t = hits (length body) body) ∧
  (result t stream).1 = (result whole stream).1 ∧
  (stream = false ∨ is_Some (parseUsage (tail t)) ∨ no_overlap body → result t stream = result whole stream).
Proof.
  intros Hlen body t whole. assert (H0 : scans newScanner []) by (by repeat split).
  destruct (feeds_scan ps newScanner [] H0 Hlen) as [Ht _ (Hb & Hp & He)].
  destruct (feed_scans newScanner [] (concat ps) H0 Hlen) as [Ht' _ (Hb' & Hp' & He')]. cbn [app] in *. fold body t whole in Ht, Ht', Hb, Hb', Hp, Hp', He, He'.
  split; [done|]. split; [done|]. split; [done|]. split; [done|]. split; [apply result_counts; [congruence|lia]|].
  intros Hc. apply result_same; [congruence|]. destruct Hc as [?|[?|Hno]]; [by left|right; by left|right; right]. by rewrite (He Hno), (He' Hno).
Qed.

Definition two_chunks : list (list Z) :=
  [34 :: bytes "content" ++ [34; 58]; 34 :: bytes "hi" ++ [34; 125]; 34 :: bytes "content" ++ [34; 58; 34]; [34]; [125]].

Definition key_atb (S : list Z) (i : nat) : bool := starts_with contentKey (drop i S).

Lemma no_overlap_check S : forallb (λ i, negb (key_atb S i && key_atb S (i + 10))) (seq 0 (length S)) = true → no_overlap S.
Proof.
  intros Hf i Hi Hj. rewrite forallb_forall in Hf. unfold key_at in *.
  assert (Hl : (i < length S)%nat).
  { destruct (Nat.lt_ge_cases i (length S)); [done|]. rewrite drop_ge in Hi by done. done. }
  specialize (Hf i ltac:(apply in_seq; lia)). unfold key_atb in Hf.
  rewrite (proj2 (starts_with_take contentKey (drop i S)) Hi), (proj2 (starts_with_take contentKey (drop (i + 10) S)) Hj) in Hf. done.
Qed.

Lemma scanner_piecewise_witness : no_overlap (concat two_chunks) ∧ chunks (foldl feed newScanner two_chunks) = 1.
Proof.
  assert (Hno : no_overlap (concat two_chunks)) by (apply no_overlap_check; vm_compute; reflexivity).
  split; [exact Hno|]. destruct (scanner_piecewise two_chunks true ltac:(vm_compute; discriminate)) as (_ & _ & _ & He & _).
  rewrite (He Hno). vm_compute. reflexivity.
Defined.

(** With overlapping keys the count does depend on the cut: one key then has two starts. *)
Definition overlapping : list Z := 34 :: bytes "content" ++ [34; 58; 34] ++ bytes "content" ++ [34; 58; 34; 120].

Example overlap_cut :
  (chunks (feed newScanner overlapping), chunks (foldl feed newScanner [take 5 overlapping; drop 5 overlapping])) = (1, 2).
Proof. vm_compute. reflexivity. Qed.

(** ** The usage object as a worker writes it. *)

Definition field (name : string) (n : Z) : list Z := 34 :: bytes name ++ [34; 58] ++ itoa n.

Definition usage_object (p c total : Z) : list Z :=
  [123] ++ field "prompt_tokens" p ++ [44] ++ field "completion_tokens" c ++ [44] ++ field "total_tokens" total ++ [125].

Definition usage_json (p c total : Z) : list Z := usageKey ++ [58] ++ usage_object p c total.

Lemma itoa_go_digits fuel n acc : 0 ≤ n → Forall (λ c, is_digit c = true) acc → Forall (λ c, is_digit c = true) (itoa_go fuel n acc).
Proof.
  revert n acc. induction fuel as [|fuel IH]; intros n acc Hn Ha; cbn [itoa_go]; [done|].
  assert (Hd : ∀ d, 0 ≤ d < 10 → is_digit (48 + d) = true) by (intros d Hd; unfold is_digit; apply andb_true_iff; split; lia).
  destruct (Z.ltb_spec n 10); [constructor; [apply Hd; lia|done]|].
  apply IH; [apply Z.div_pos; lia|]. constructor; [|done]. apply Hd, Z.mod_pos_bound. lia.
Qed.

Lemma itoa_digits n : 0 ≤ n → Forall (λ c, is_digit c = true) (itoa n).
Proof. intros Hn. by apply itoa_go_digits. Qed.

Lemma log2_fuel n : 0 ≤ n → n < 2 ^ Z.of_nat (S (Z.to_nat (Z.log2 n))).
Proof.
  intros Hn. rewrite Nat2Z.inj_succ, Z2Nat.id by apply Z.log2_nonneg.
  destruct (decide (n = 0)) as [->|]; [done|]. apply Z.log2_spec. lia.
Qed.

Lemma itoa_go_length fuel : ∀ n acc k, 0 ≤ n < 10 ^ Z.of_nat (S k) → (length (itoa_go fuel n acc) ≤ S k + length acc)%nat.
Proof.
  induction fuel as [|fuel IH]; intros n acc k Hn; cbn [itoa_go]; [lia|].
  destruct (Z.ltb_spec n 10); [cbn [length]; lia|]. destruct k as [|k]; [cbn in Hn; lia|].
  etrans; [apply (IH _ _ k)|cbn [length]; lia]. rewrite (Nat2Z.inj_succ (S k)), Z.pow_succ_r in Hn by lia.
  split; [apply Z.div_pos; lia|]. apply Z.div_lt_upper_bound; lia.
Qed.

Lemma itoa_go_head fuel : ∀ n acc, 0 < n < 2 ^ Z.of_nat fuel → ∃ d l, itoa_go fuel n acc = d :: l ∧ 49 ≤ d.
Proof.
  induction fuel as [|fuel IH]; intros n acc Hn; cbn [itoa_go]; [cbn in Hn; lia|].
  destruct (Z.ltb_spec n 10); [eexists _, _; split; [done|lia]|]. apply IH.
  rewrite Nat2Z.inj_succ, Z.pow_succ_r in Hn by lia. Z.to_euclidean_division_equations; lia.
Qed.

(** No leading zero. *)
Lemma itoa_head n : 0 ≤ n → itoa n = [48] ∨ ∃ d l, itoa n = d :: l ∧ 49 ≤ d.
Proof.
  intros Hn. destruct (decide (n = 0)) as [->|]; [by left|right]. apply itoa_go_head. pose proof (log2_fuel n Hn). lia.
Qed.

Lemma readDigits_atoi rest : match rest with c :: _ => is_digit c = false | [] => True end →
  ∀ l n d v, Forall (λ c, is_digit c = true) l → (d + length l ≤ 11)%nat → 0 ≤ n < 10 ^ Z.of_nat d → atoi_go n l = Some v →
  readDigits (l ++ rest) n d = Some (v, (d + length l)%nat, rest).
Proof.
  intros Hr. induction l as [|c l IH]; intros n d v Hl Hd Hn Hv; cbn [app length] in *.
  { injection Hv as <-. rewrite Nat.add_0_r. destruct rest as [|c rest]; cbn [readDigits]; [done|]. by rewrite Hr. }
  apply Forall_cons in Hl as [Hc Hl]. cbn [readDigits atoi_go] in *. rewrite Hc in *.
  destruct (Nat.leb_spec 11 d); [lia|].
  assert (Hcd : 0 ≤ c - 48 < 10) by (unfold is_digit in Hc; bprop; lia).
  assert (Hp : 10 ^ Z.of_nat d ≤ 10 ^ 11) by (apply Z.pow_le_mono_r; lia).
  change (10 ^ 11) with 100000000000 in Hp.
  rewrite (wrap64_id (n * 10)) by (unfold in64, int64_min, int64_max; lia).
  rewrite wrap64_id by (unfold in64, int64_min, int64_max; lia).
  rewrite (IH _ _ v); [by rewrite Nat.add_succ_comm|done|lia| |done].
  rewrite Nat2Z.inj_succ, Z.pow_succ_r by lia. lia.
Qed.

Lemma skip_head p c l : p c = false → skip p (c :: l) = c :: l.
Proof. intros Hc. cbn. by rewrite Hc. Qed.

(** A count of the event's range is read back, whatever ends it. *)
Lemma readCount_itoa n c rest : 0 ≤ n ≤ MaxEventTokens → endsNumber c = true → readCount (itoa n ++ c :: rest) = Some n.
Proof.
  unfold MaxEventTokens. intros Hn Hc. unfold readCount.
  assert (Hnd : is_digit c = false).
  { unfold endsNumber, is_space, is_digit in *. rewrite !orb_true_iff, !Z.eqb_eq in Hc. apply andb_false_iff. rewrite !Z.leb_gt. lia. }
  assert (Hlen : (length (itoa n) ≤ 11)%nat) by (pose proof (itoa_go_length (S (Z.to_nat (Z.log2 n))) n [] 10); cbn in *; unfold itoa; lia).
  rewrite (readDigits_atoi (c :: rest) Hnd (itoa n) 0 0 n); [|apply itoa_digits; lia|done|cbn; lia|apply atoi_itoa; lia].
  rewrite Hc, (proj2 (Z.ltb_ge MaxEventTokens n)) by (unfold MaxEventTokens; lia). rewrite orb_false_r.
  destruct (itoa_head n ltac:(lia)) as [->|(d & l & -> & Hd)]; [done|]. cbn [length Nat.add app].
  assert ((default 0 ((d :: l ++ c :: rest) !! 0%nat) =? 48) = false) as -> by (cbn; apply Z.eqb_neq; lia).
  rewrite andb_false_r. by destruct l.
Qed.

(** *** Where the keys can be: a quote followed by the key's first letter. *)

Fixpoint pairfree (x : Z) (l : list Z) : bool :=
  match l with
  | a :: ((b :: _) as l') => negb ((a =? 34) && (b =? x)) && pairfree x l'
  | _ => true
  end.

(** A stretch without the pair, which does not end in a quote. *)
Definition seg (x : Z) (l : list Z) : Prop := pairfree x l = true ∧ list.last l ≠ Some 34.

Definition keyfree (key l : list Z) : Prop := ∀ j, take (length key) (drop j l) ≠ key.

Lemma pairfree_pair x l j : pairfree x l = true → l !! j = Some 34 → l !! S j ≠ Some x.
Proof.
  revert j. induction l as [|a [|b l'] IH]; intros j Hp Hj; [done|by destruct j|].
  cbn [pairfree] in Hp. apply andb_true_iff in Hp as [Hab Hp]. destruct j as [|j]; [|by apply (IH j)].
  cbn in *. injection Hj as ->. intros [= ->]. by rewrite !Z.eqb_refl in Hab.
Qed.

Lemma pairfree_app x l k : seg x l → pairfree x k = true → pairfree x (l ++ k) = true.
Proof.
  intros [Hl Hlast] Hk. induction l as [|a [|b l'] IH]; [done| |].
  - cbn in *. destruct k as [|b k]; [done|]. rewrite Hk, andb_true_r. destruct (Z.eqb_spec a 34); [congruence|done].
  - cbn [pairfree app] in *. apply andb_true_iff in Hl as [Ha Hl]. rewrite Ha. by apply IH.
Qed.

Lemma seg_app x l k : seg x l → seg x k → seg x (l ++ k).
Proof.
  intros Hl Hk. split; [apply pairfree_app; [done|apply Hk]|]. rewrite last_app. destruct Hk as [_ Hk].
  destruct (list.last k); [done|apply Hl].
Qed.

Lemma seg_digits x l : Forall (λ c, is_digit c = true) l → seg x l.
Proof.
  intros Hl. assert (Hq : ∀ c, c ∈ l → c ≠ 34).
  { intros c Hc ->. rewrite Forall_forall in Hl. by apply Hl in Hc. }
  split.
  - clear Hl. induction l as [|a [|b l'] IH]; [done..|]. cbn [pairfree]. apply andb_true_iff. split.
    + rewrite (proj2 (Z.eqb_neq a 34)); [done|]. apply Hq. set_solver.
    + apply IH. set_solver.
  - intros Hlast. apply last_Some in Hlast as [l' ->]. by destruct (Hq 34 ltac:(set_solver)).
Qed.

Section key.
Context (x : Z) (kk : list Z).
Let key := 34 :: x :: kk.

Lemma key_pair l j : take (length key) (drop j l) = key → l !! j = Some 34 ∧ l !! S j = Some x.
Proof.
  intros Hk. assert (H0 : ∀ i, (i < 2)%nat → l !! (j + i)%nat = key !! i).
  { intros i Hi. rewrite <- lookup_drop, <- Hk, lookup_take_lt; [done|cbn; lia]. }
  pose proof (H0 0%nat ltac:(lia)) as Ha. pose proof (H0 1%nat ltac:(lia)) as Hb.
  rewrite Nat.add_0_r in Ha. rewrite Nat.add_1_r in Hb. done.
Qed.

Lemma keyfree_app l k : seg x l → keyfree key k → keyfree key (l ++ k).
Proof.
  intros [Hl Hlast] Hk j Hj. destruct (Nat.lt_ge_cases j (length l)) as [Hlt|Hge].
  - apply key_pair in Hj as [Ha Hb]. rewrite lookup_app_l in Ha by done.
    destruct (Nat.lt_ge_cases (S j) (length l)) as [Hlt'|Hge'].
    + rewrite lookup_app_l in Hb by done. by apply (pairfree_pair x l j).
    + apply Hlast. rewrite last_lookup. replace (pred (length l)) with j by lia. done.
  - rewrite drop_app_ge in Hj by done. by apply (Hk (j - length l)%nat).
Qed.

Lemma keyfree_nil : keyfree key [].
Proof. intros j. by rewrite drop_nil. Qed.

Lemma keyfree_Index l : keyfree key l → bytes_Index l key = None.
Proof.
  intros Hk. destruct (bytes_Index l key) as [i|] eqn:Hi; [|done]. apply bytes_Index_Some in Hi as [Hi _]. by destruct (Hk i).
Qed.

(** The key is found where it is, if nothing before it looks like it. *)
Lemma Index_after pre rest : x ≠ 34 → seg x pre → bytes_Index (pre ++ key ++ rest) key = Some (length pre).
Proof.
  intros Hx Hpre. apply bytes_Index_first.
  - rewrite drop_app_length. apply take_app_length.
  - intros j Hj Hk. apply key_pair in Hk as [Ha Hb]. rewrite lookup_app_l in Ha by done.
    destruct (Nat.lt_ge_cases (S j) (length pre)) as [Hlt|Hge].
    + rewrite lookup_app_l in Hb by done. by apply (pairfree_pair x pre j); [apply Hpre|..].
    + destruct Hpre as [_ Hlast]. apply Hlast. rewrite last_lookup. replace (pred (length pre)) with j by lia. done.
Qed.

(** A field of an object is read back. *)
Lemma unique_field pre n c rest : x ≠ 34 → seg x pre → keyfree key ([58] ++ itoa n ++ c :: rest) →
  0 ≤ n ≤ MaxEventTokens → endsNumber c = true →
  uniqueCount (pre ++ key ++ [58] ++ itoa n ++ c :: rest) key = Some n.
Proof.
  intros Hx Hpre Hfree Hn Hc. unfold uniqueCount. rewrite (Index_after pre) by done.
  set (R := [58] ++ itoa n ++ c :: rest) in *.
  assert (E : drop (length pre + length key) (pre ++ key ++ R) = R) by (rewrite (assoc app); by apply drop_app_length'; rewrite length_app).
  rewrite E. unfold bytes_Contains. rewrite (keyfree_Index _ Hfree). unfold R. cbn [app]. rewrite skip_head by done.
  rewrite (proj2 (Z.eqb_eq 58 58)) by done. cbn [negb].
  transitivity (readCount (itoa n ++ c :: rest)); [|by apply readCount_itoa]. f_equal.
  pose proof (itoa_digits n ltac:(lia)) as Hd. destruct (itoa n) as [|d l] eqn:Hi; [by destruct (itoa_head n ltac:(lia)) as [?|(? & ? & ? & _)]; congruence|].
  cbn [app]. apply skip_head. apply Forall_cons in Hd as [Hd _]. unfold is_digit, is_space in *. bprop.
  rewrite !orb_false_iff, !Z.eqb_neq. lia.
Qed.

End key.

(** *** The object as a whole. *)

Definition part1 : list Z := 123 :: 34 :: bytes "prompt_tokens" ++ [34; 58].
Definition part2 : list Z := 44 :: 34 :: bytes "completion_tokens" ++ [34; 58].
Definition part3 : list Z := 44 :: 34 :: bytes "total_tokens" ++ [34; 58].

Lemma usage_object_parts p c total :
  usage_object p c total = part1 ++ itoa p ++ part2 ++ itoa c ++ part3 ++ itoa total ++ [125].
Proof. unfold usage_object, field, part1, part2, part3. cbn [app]. by rewrite <- !(assoc app). Qed.

Lemma balanced_digits l k i d : Forall (λ c, is_digit c = true) l →
  balancedFrom (l ++ k) i d false false = balancedFrom k (i + length l) d false false.
Proof.
  intros Hl. revert i. induction Hl as [|c l Hc Hl IH]; intros i; [by rewrite Nat.add_0_r|]. cbn [app length balancedFrom].
  unfold is_digit in Hc. bprop. rewrite !(proj2 (Z.eqb_neq c _)) by lia. rewrite IH. f_equal. lia.
Qed.

Lemma balanced_object p c total post : 0 ≤ p → 0 ≤ c → 0 ≤ total →
  balanced (usage_object p c total ++ post) = Some (usage_object p c total).
Proof.
  intros Hp Hc Ht. unfold balanced. rewrite usage_object_parts, <- !(assoc app).
  assert (H1 : ∀ k, balancedFrom (part1 ++ k) 0 0 false false = balancedFrom k (length part1) 1 false false) by done.
  assert (H2 : ∀ k i, balancedFrom (part2 ++ k) i 1 false false = balancedFrom k (21 + i) 1 false false) by done.
  assert (H3 : ∀ k i, balancedFrom (part3 ++ k) i 1 false false = balancedFrom k (16 + i) 1 false false) by done.
  rewrite H1, balanced_digits, H2, balanced_digits, H3, balanced_digits by (by apply itoa_digits).
  cbn [app balancedFrom]. replace (125 =? 34) with false by done. replace (125 =? 123) with false by done.
  replace (125 =? 125) with true by done. replace (1 -! 1 =? 0) with true by done.
  f_equal. rewrite !(assoc app). apply take_app_length'. rewrite !length_app.
  change (length part1) with 17%nat. change (length part2) with 21%nat. change (length part3) with 16%nat. cbn [length]. lia.
Qed.

Lemma seg_fixed x l : pairfree x l = true → list.last l ≠ Some 34 → seg x l.
Proof. by split. Qed.

Lemma counts_of_object p c total : 0 ≤ p ≤ MaxEventTokens → 0 ≤ c ≤ MaxEventTokens → 0 ≤ total →
  uniqueCount (usage_object p c total) promptKey = Some p ∧ uniqueCount (usage_object p c total) completionKey = Some c.
Proof.
  intros Hp Hc Ht. assert (Hd : ∀ x n, 0 ≤ n → seg x (itoa n)) by (intros; by apply seg_digits, itoa_digits).
  assert (Hfree : ∀ x kk l, seg x l → keyfree (34 :: x :: kk) l).
  { intros x kk l Hl. rewrite <- (app_nil_r l). apply keyfree_app; [done|apply keyfree_nil]. }
  rewrite usage_object_parts. split.
  - change (uniqueCount ([123] ++ promptKey ++ [58] ++ itoa p ++ 44 :: drop 1 part2 ++ itoa c ++ part3 ++ itoa total ++ [125]) promptKey = Some p).
    apply (unique_field 112 (drop 2 promptKey)); [done|by apply seg_fixed| |done|done].
    apply Hfree, seg_app; [by apply seg_fixed|]. apply seg_app; [apply Hd; lia|].
    change (seg 112 (part2 ++ itoa c ++ part3 ++ itoa total ++ [125])).
    repeat (apply seg_app; [(apply Hd; lia) || by apply seg_fixed|]). by apply seg_fixed.
  - replace (part1 ++ itoa p ++ part2 ++ itoa c ++ part3 ++ itoa total ++ [125])
      with ((part1 ++ itoa p ++ [44]) ++ completionKey ++ [58] ++ itoa c ++ 44 :: drop 1 part3 ++ itoa total ++ [125])
      by (by rewrite <- !(assoc app)).
    apply (unique_field 99 (drop 2 completionKey)); [done| | |done|done].
    + repeat (apply seg_app; [(apply Hd; lia) || by apply seg_fixed|]). by apply seg_fixed.
    + apply Hfree, seg_app; [by apply seg_fixed|]. apply seg_app; [apply Hd; lia|].
      change (seg 99 (part3 ++ itoa total ++ [125])).
      repeat (apply seg_app; [(apply Hd; lia) || by apply seg_fixed|]). by apply seg_fixed.
Qed.

(** *** Finding it. *)

(** The only place the key occurs in [pre ++ usageKey] is its end. *)
Definition first_usage (pre : list Z) : Prop := bytes_Index (pre ++ usageKey) usageKey = Some (length pre).

Lemma first_usage_Index pre R k : first_usage pre →
  bytes_Index (drop k pre ++ usageKey ++ R) usageKey = Some (length (drop k pre)).
Proof.
  intros [_ Hb]%bytes_Index_Some. apply bytes_Index_first.
  - rewrite drop_app_length. apply take_app_length.
  - intros j Hj Hk. rewrite length_drop in Hj. apply (Hb (k + j)%nat); [lia|].
    etrans; [|exact Hk]. rewrite <- (drop_app_le pre) by lia. rewrite drop_drop, (assoc app).
    rewrite (drop_app_le (pre ++ usageKey)) by (rewrite length_app; lia).
    symmetry. apply take_app_le. rewrite length_drop, length_app. lia.
Qed.

Lemma parse_usage_json pre p c total post k : first_usage pre → keyfree usageKey post →
  0 ≤ p ≤ MaxEventTokens → 0 ≤ c ≤ MaxEventTokens → 0 ≤ total →
  parseUsage (drop k pre ++ usage_json p c total ++ post) = Some (p, c).
Proof.
  intros Hpre Hpost Hp Hc Ht. set (pre' := drop k pre). unfold usage_json. rewrite <- !(assoc app).
  set (obj := usage_object p c total). set (b := pre' ++ usageKey ++ [58] ++ obj ++ post).
  assert (Hpos : drop (length pre' + length usageKey) b = [58] ++ obj ++ post).
  { unfold b. rewrite (assoc app). apply drop_app_length'. by rewrite length_app. }
  assert (Hnone : bytes_Index ([58] ++ obj ++ post) usageKey = None).
  { apply (keyfree_Index 117 (drop 2 usageKey)). rewrite (assoc app). apply keyfree_app; [|done].
    unfold obj. rewrite usage_object_parts.
    repeat (apply seg_app; [(apply seg_digits, itoa_digits; lia) || by apply seg_fixed|]). by apply seg_fixed. }
  assert (Hlen : length b = (length pre' + 8 + length (obj ++ post))%nat) by (unfold b; rewrite !length_app; cbn; lia).
  assert (Hobj : obj ++ post = 123 :: tl (obj ++ post)) by done.
  assert (Hskip : skip (λ c, is_space c || (c =? 58)) ([58] ++ obj ++ post) = obj ++ post) by (rewrite Hobj; reflexivity).
  assert (Hfind : ∀ fuel, findUsage (S (S fuel)) b 0 None = Some (Some (length pre' + 8)%nat)).
  { intros fuel. cbn [findUsage]. rewrite drop_0. unfold b at 1. rewrite (first_usage_Index pre _ k) by done. fold pre'.
    cbn [Nat.add]. rewrite Hpos, Hskip. destruct (obj ++ post) as [|q r] eqn:Ho; [done|]. injection Hobj as ->.
    replace (123 =? 123) with true by done. rewrite <- Ho in *. rewrite Hnone. do 2 f_equal. lia. }
  unfold parseUsage. replace (length b) with (S (S (length b - 2))) by lia. rewrite Hfind.
  assert (drop (length pre' + 8) b = obj ++ post) as ->.
  { replace (length pre' + 8)%nat with (length pre' + length usageKey + 1)%nat by (cbn; lia). rewrite <- drop_drop, Hpos. done. }
  unfold obj. rewrite balanced_object by lia. by destruct (counts_of_object p c total) as [-> ->].
Qed.

Lemma feeds_tail ps : ∀ t X, tail t = last_bytes tokenWindow X → tail (foldl feed t ps) = last_bytes tokenWindow (X ++ concat ps).
Proof.
  induction ps as [|b ps IH]; intros t X Ht; cbn [foldl concat]; [by rewrite app_nil_r|].
  rewrite (assoc app). apply IH. unfold feed. destruct (Nat.eqb_spec (length b) 0) as [Hz|Hz].
  - apply nil_length_inv in Hz as ->. by rewrite app_nil_r.
  - cbn [tail]. rewrite Ht. apply feed_tail_last.
Qed.

(** A usage report is read back exactly: whatever the pieces a response arrives in, if its
    only usage key is followed by the object a worker writes, with counts of at most ten billion,
    and the object lies within the last 2048 bytes, the scanner reports source usage with those
    two counts, for a stream or not. *)
Theorem usage_roundtrip ps pre p c total post stream :
  concat ps = pre ++ usage_json p c total ++ post → first_usage pre → bytes_Contains post usageKey = false →
  0 ≤ p ≤ MaxEventTokens → 0 ≤ c ≤ MaxEventTokens → 0 ≤ total →
  (length (usage_json p c total ++ post) ≤ tokenWindow)%nat →
  result (foldl feed newScanner ps) stream = (TokensUsage, p, c).
Proof.
  intros Hps Hpre Hpost Hp Hc Ht Hlen. unfold result. rewrite (feeds_tail ps newScanner []) by done. cbn [app]. rewrite Hps.
  unfold last_bytes. rewrite length_app, drop_app_le by lia.
  rewrite parse_usage_json; [done|done| |done..]. intros j Hj. unfold bytes_Contains in Hpost.
  destruct (bytes_Index post usageKey) eqn:Hi; [done|]. by apply (bytes_Index_None post usageKey j).
Qed.

Definition usage_pieces : list (list Z) :=
  [bytes "data: {"; take 9 (usage_json 12 345 357); drop 9 (usage_json 12 345 357); bytes "}"].

Lemma usage_roundtrip_witness : result (foldl feed newScanner usage_pieces) true = ("usage", 12, 345).
Proof.
  apply (usage_roundtrip usage_pieces (bytes "data: {") 12 345 357 (bytes "}")); unfold first_usage; vm_compute; done || discriminate || auto with lia.
Defined.
