(* ===== verification/Sha256.v ===== *)
(** * SHA-256 (crypto/sha256), as FIPS 180-4 has it

    The standard library's hash, on bytes; words are integers below 2^32.  The development uses
    nothing of it but that it is a function with 32 bytes of result; having it executable lets
    the examples be checked against published digests. *)

From S2P Require Import Prelude GoString.

Local Open Scope string_scope.
Local Open Scope list_scope.
Local Open Scope Z_scope.

Definition w32 (x : Z) : Z := x mod 2 ^ 32.
Definition rotr (x n : Z) : Z := Z.lor (Z.shiftr x n) (w32 (Z.shiftl x (32 - n))).

(** The constants, as the standard defines them: the first 32 bits of the fractional parts of the
    cube roots of the first 64 primes, and of the square roots of the first eight. *)
Definition is_prime (n : Z) : bool := forallb (λ d, negb (n mod Z.of_nat d =? 0)) (seq 2 (Z.to_nat n - 2)).

Definition primes (below : nat) : list Z := List.filter is_prime (Z.of_nat <$> seq 2 (below - 2)).

(** The largest r below 2^[bits] with r^3 at most [x], bit by bit. *)
Fixpoint cube_root (bits : nat) (r x : Z) : Z :=
  match bits with
  | O => r
  | S bits => let r' := r + 2 ^ Z.of_nat bits in cube_root bits (if r' ^ 3 <=? x then r' else r) x
  end.

Definition sha_k : list Z := Eval vm_compute in (λ p, w32 (cube_root 36 0 (p * 2 ^ 96))) <$> primes 312.

Definition sha_iv : list Z := Eval vm_compute in (λ p, w32 (Z.sqrt (p * 2 ^ 64))) <$> primes 20.

(** Big-endian bytes. *)
Definition be (n : nat) (x : Z) : list Z := (λ i, Z.shiftr x (8 * Z.of_nat (n - 1 - i)) mod 256) <$> seq 0 n.

Definition word (l : list Z) : Z := foldl (λ a b, a * 256 + b) 0 l.

Fixpoint chunks_of (fuel n : nat) (l : list Z) : list (list Z) :=
  match fuel, l with
  | S fuel, _ :: _ => take n l :: chunks_of fuel n (drop n l)
  | _, _ => []
  end.

Definition sha_pad (m : list Z) : list Z :=
  let n := length m in
  let z := ((119 - n mod 64) mod 64)%nat in
  m ++ [128] ++ replicate z 0 ++ be 8 (8 * Z.of_nat n).

Definition xor3 (a b c : Z) : Z := Z.lxor (Z.lxor a b) c.

(** The schedule, newest word first. *)
Fixpoint sha_schedule (k : nat) (w : list Z) : list Z :=
  match k with
  | O => w
  | S k =>
      let g i := default 0 (w !! i) in
      let s0 := let x := g 14%nat in xor3 (rotr x 7) (rotr x 18) (Z.shiftr x 3) in
      let s1 := let x := g 1%nat in xor3 (rotr x 17) (rotr x 19) (Z.shiftr x 10) in
      sha_schedule k (w32 (g 15%nat + s0 + g 6%nat + s1) :: w)
  end.

Definition sha_round (st : list Z) (kw : Z * Z) : list Z :=
  match st with
  | [a; b; c; d; e; f; g; h] =>
      let s1 := xor3 (rotr e 6) (rotr e 11) (rotr e 25) in
      let ch := Z.lxor (Z.land e f) (Z.land (Z.lxor e (2 ^ 32 - 1)) g) in
      let t1 := w32 (h + s1 + ch + kw.1 + kw.2) in
      let s0 := xor3 (rotr a 2) (rotr a 13) (rotr a 22) in
      let maj := xor3 (Z.land a b) (Z.land a c) (Z.land b c) in
      [w32 (t1 + w32 (s0 + maj)); a; b; c; w32 (d + t1); e; f; g]
  | _ => st
  end.

Definition sha_block (st : list Z) (block : list Z) : list Z :=
  let w := reverse (sha_schedule 48 (reverse (word <$> chunks_of 16 4 block))) in
  zip_with (λ a b, w32 (a + b)) st (foldl sha_round st (zip sha_k w)).

Definition Sum256 (m : list Z) : list Z :=
  let p := sha_pad m in
  foldl sha_block sha_iv (chunks_of (length p) 64 p) ≫= be 4.

(** The digest of abc in FIPS 180-4, and of the empty string. *)
Example sum256_abc : word (Sum256 (bytes "abc")) = 0xba7816bf8f01cfea414140de5dae2223b00361a396177a9cb410ff61f20015ad.
Proof. vm_compute. reflexivity. Qed.

Example sum256_empty : word (Sum256 []) = 0xe3b0c44298fc1c149afbf4c8996fb92427ae41e4649b934ca495991b7852b855.
Proof. vm_compute. reflexivity. Qed.

Example sum256_two_blocks : word (Sum256 (bytes "abcdbcdecdefdefgefghfghighijhijkijkljklmklmnlmnomnopnopq")) =
  0x248d6a61d20638b8e5c026930c3e6039a33ce45964ff2167f6ecedd419db06c1.
Proof. vm_compute. reflexivity. Qed.

Lemma be_length n x : length (be n x) = n.
Proof. unfold be. by rewrite length_fmap, length_seq. Qed.

Lemma sha_round_length st kw : length (sha_round st kw) = length st.
Proof. unfold sha_round. by do 9 (destruct st as [|? st]; [done|]). Qed.

Lemma sha_schedule_length k w : length (sha_schedule k w) = (k + length w)%nat.
Proof. revert w. induction k as [|k IH]; intros w; cbn [sha_schedule]; [done|]. rewrite IH. cbn [length]. lia. Qed.

Lemma sha_rounds_length l st : length (foldl sha_round st l) = length st.
Proof. revert st. induction l as [|kw l IH]; intros st; cbn [foldl]; [done|]. by rewrite IH, sha_round_length. Qed.

Lemma sha_blocks_length l st : length (foldl sha_block st l) = length st.
Proof.
  revert st. induction l as [|b l IH]; intros st; cbn [foldl]; [done|]. rewrite IH. unfold sha_block.
  rewrite length_zip_with, sha_rounds_length. lia.
Qed.

(** A digest has 32 bytes. *)
Lemma Sum256_length m : length (Sum256 m) = 32%nat.
Proof.
  unfold Sum256. set (st := foldl sha_block sha_iv _).
  assert (Hl : length st = 8%nat) by (by unfold st; rewrite sha_blocks_length).
  clearbody st. do 8 (destruct st as [|? st]; [done|]). by destruct st.
Qed.
