(* ===== verification/AuthKey.v ===== *)
(** * API keys: internal/auth/key.go

    A key is sf_, eight lowercase hex digits, an underscore and 43 characters of unpadded
    base64url: 32 secret bytes.  [GenerateKey] takes the random bytes as arguments.  encoding/hex
    and encoding/base64 are the standard library's: the strict decoder refuses set trailing bits,
    and like every Go base64 decoder it skips carriage returns and line feeds, so that it is the
    fixed length of the key that makes a spelling unique. *)

From S2P Require Import Prelude GoString Sha256.

Local Open Scope string_scope.
Local Open Scope list_scope.
Local Open Scope Z_scope.

(** ** encoding/hex, encoding/base64. *)

Definition hexdigit (v : Z) : Z := if v <? 10 then 48 + v else 87 + v.

Definition hex_EncodeToString (l : list Z) : list Z := l ≫= λ b, [hexdigit (b / 16); hexdigit (b mod 16)].

Definition b64char (v : Z) : Z :=
  if v <? 26 then 65 + v else if v <? 52 then 71 + v else if v <? 62 then v - 4 else if v =? 62 then 45 else 95.

Definition b64val (c : Z) : option Z :=
  if (65 <=? c) && (c <=? 90) then Some (c - 65)
  else if (97 <=? c) && (c <=? 122) then Some (c - 71)
  else if (48 <=? c) && (c <=? 57) then Some (c + 4)
  else if c =? 45 then Some 62
  else if c =? 95 then Some 63
  else None.

(** The sextets of a byte string, three bytes at a time. *)
Fixpoint sextets (l : list Z) : list Z :=
  match l with
  | a :: b :: c :: l => a / 4 :: a mod 4 * 16 + b / 16 :: b mod 16 * 4 + c / 64 :: c mod 64 :: sextets l
  | [a; b] => [a / 4; a mod 4 * 16 + b / 16; b mod 16 * 4]
  | [a] => [a / 4; a mod 4 * 16]
  | [] => []
  end.

(** Back, with the strict decoder's test of the bits that are left over. *)
Fixpoint unsextets (l : list Z) : option (list Z) :=
  match l with
  | u :: v :: w :: x :: l =>
      match unsextets l with
      | Some r => Some (u * 4 + v / 16 :: v mod 16 * 16 + w / 4 :: w mod 4 * 64 + x :: r)
      | None => None
      end
  | [u; v; w] => if w mod 4 =? 0 then Some [u * 4 + v / 16; v mod 16 * 16 + w / 4] else None
  | [u; v] => if v mod 16 =? 0 then Some [u * 4 + v / 16] else None
  | [_] => None
  | [] => Some []
  end.

Definition base64_Encode (l : list Z) : list Z := b64char <$> sextets l.

Definition is_newline (c : Z) : bool := (c =? 10) || (c =? 13).

Definition base64_DecodeStrict (l : list Z) : option (list Z) :=
  match mapM b64val (List.filter (λ c, negb (is_newline c)) l) with
  | Some vs => unsextets vs
  | None => None
  end.

(** ** Keys. *)

Definition keyScheme : list Z := bytes "sf_".
Definition prefixHexLen : nat := 8.
Definition secretBytes : nat := 32.
Definition secretEncLen : nat := 43.
Definition keyLen : nat := (length keyScheme + prefixHexLen + 1 + secretEncLen)%nat.
Definition hashLen : nat := 32.
Definition prefixSepByte : Z := 95.

(** [GenerateKey] for the bytes the system's random source gave. *)
Definition GenerateKey (p s : list Z) : list Z * list Z * list Z :=
  let prefix := hex_EncodeToString p in
  let secret := base64_Encode s in
  let h := Sum256 s in
  (keyScheme ++ prefix ++ [prefixSepByte] ++ secret, prefix, h).

Definition validPrefix (s : list Z) : bool :=
  if negb (length s =? prefixHexLen)%nat then false else
  forallb (λ c, negb (((c <? 48) || (57 <? c)) && ((c <? 97) || (102 <? c)))) s.

(** The prefix and the hash, or ErrMalformedKey. *)
Definition ParseKey (key : list Z) : option (list Z * list Z) :=
  if negb (length key =? keyLen)%nat ||
     negb (bool_decide (take (length keyScheme) key = keyScheme)) ||
     negb (bool_decide (key !! (length keyScheme + prefixHexLen)%nat = Some prefixSepByte)) then None else
  let prefix := take prefixHexLen (drop (length keyScheme) key) in
  if negb (validPrefix prefix) then None else
  let enc := drop (length keyScheme + prefixHexLen + 1) key in
  match base64_DecodeStrict enc with
  | None => None
  | Some raw => if negb (length raw =? secretBytes)%nat then None else Some (prefix, Sum256 raw)
  end.

Definition HashesEqual (a b : list Z) : bool :=
  (length a =? hashLen)%nat && (length b =? hashLen)%nat && bool_decide (a = b).

(** ** The codecs. *)

Definition is_byte (b : Z) : Prop := 0 ≤ b < 256.
Definition is_sextet (v : Z) : Prop := 0 ≤ v < 64.

Lemma sextets_ind3 (P : list Z → Prop) : P [] → (∀ a, P [a]) → (∀ a b, P [a; b]) →
  (∀ a b c l, P l → P (a :: b :: c :: l)) → ∀ l, P l.
Proof.
  intros H0 H1 H2 H3. enough (H : ∀ n l, (length l ≤ n)%nat → P l) by eauto.
  induction n as [|n IH]; intros [|a [|b [|c l]]] Hl; cbn in Hl; try lia; auto. apply H3, IH. lia.
Qed.

Lemma sextets_range l : Forall is_byte l → Forall is_sextet (sextets l).
Proof.
  unfold is_byte, is_sextet. induction l as [|a|a b|a b c l IH] using sextets_ind3; intros Hl; cbn [sextets]; rewrite ?Forall_cons in Hl.
  all: repeat (apply Forall_cons; split); try apply Forall_nil; try (Z.to_euclidean_division_equations; lia). apply IH. tauto.
Qed.

Lemma unsextets_sextets l : Forall is_byte l → unsextets (sextets l) = Some l.
Proof.
  unfold is_byte. induction l as [|a|a b|a b c l IH] using sextets_ind3; intros Hl; cbn [sextets unsextets]; rewrite ?Forall_cons in Hl.
  - done.
  - rewrite (proj2 (Z.eqb_eq _ 0)) by (Z.to_euclidean_division_equations; lia). do 2 f_equal. Z.to_euclidean_division_equations; lia.
  - rewrite (proj2 (Z.eqb_eq _ 0)) by (Z.to_euclidean_division_equations; lia). do 2 f_equal; [|f_equal]; Z.to_euclidean_division_equations; lia.
  - destruct Hl as (? & ? & ? & Hl). rewrite IH by done. do 2 f_equal; [|f_equal; [|f_equal]]; Z.to_euclidean_division_equations; lia.
Qed.

Lemma unsextets_ind4 (P : list Z → Prop) : P [] → (∀ a, P [a]) → (∀ a b, P [a; b]) → (∀ a b c, P [a; b; c]) →
  (∀ a b c d l, P l → P (a :: b :: c :: d :: l)) → ∀ l, P l.
Proof.
  intros H0 H1 H2 H3 H4. enough (H : ∀ n l, (length l ≤ n)%nat → P l) by eauto.
  induction n as [|n IH]; intros [|a [|b [|c [|d l]]]] Hl; cbn in Hl; try lia; auto. apply H4, IH. lia.
Qed.

(** Only the sextets of its result decode to it. *)
Lemma sextets_unsextets v : ∀ l, Forall is_sextet v → unsextets v = Some l → sextets l = v ∧ Forall is_byte l.
Proof.
  unfold is_byte, is_sextet. induction v as [|a|a b|a b c|a b c d v IH] using unsextets_ind4; intros l Hv Hl; cbn [unsextets] in Hl; rewrite ?Forall_cons in Hv.
  - injection Hl as <-. done.
  - done.
  - destruct (Z.eqb_spec (b mod 16) 0); [|done]. injection Hl as <-. cbn [sextets].
    split; [f_equal; [|f_equal]|repeat constructor]; Z.to_euclidean_division_equations; lia.
  - destruct (Z.eqb_spec (c mod 4) 0); [|done]. injection Hl as <-. cbn [sextets].
    split; [f_equal; [|f_equal; [|f_equal]]|repeat constructor]; Z.to_euclidean_division_equations; lia.
  - destruct (unsextets v) as [r|]; [|done]. injection Hl as <-. destruct Hv as (? & ? & ? & ? & Hv).
    destruct (IH r Hv eq_refl) as [<- Hr]. cbn [sextets].
    split; [f_equal; [|f_equal; [|f_equal; [|f_equal]]]|repeat constructor; [..|done]]; Z.to_euclidean_division_equations; lia.
Qed.

Lemma sextets_length l : (length (sextets l) = (4 * length l + 2) / 3)%nat.
Proof.
  induction l as [|a|a b|a b c l IH] using sextets_ind3; cbn [sextets length]; try done. rewrite IH.
  replace (4 * S (S (S (length l))) + 2)%nat with (4 * length l + 2 + 4 * 3)%nat by lia. rewrite Nat.div_add by lia. lia.
Qed.

Lemma b64_char_val v : is_sextet v → b64val (b64char v) = Some v ∧ is_newline (b64char v) = false.
Proof.
  unfold is_sextet. intros Hv. unfold b64char.
  destruct (Z.ltb_spec v 26); [|destruct (Z.ltb_spec v 52); [|destruct (Z.ltb_spec v 62); [|destruct (Z.eqb_spec v 62)]]].
  all: unfold b64val, is_newline; split; [repeat match goal with |- context [?a <=? ?b] => destruct (Z.leb_spec a b); try lia
    | |- context [?a =? ?b] => destruct (Z.eqb_spec a b); try lia end; cbn [andb]; f_equal; lia|].
  all: apply orb_false_iff; split; apply Z.eqb_neq; lia.
Qed.

Lemma b64_val_char c v : b64val c = Some v → b64char v = c ∧ is_sextet v.
Proof.
  unfold b64val, is_sextet, b64char. intros Hc.
  repeat (match type of Hc with context [if ?b then _ else _] => destruct b eqn:? end; [injection Hc as <-; bprop|]); [..|done].
  all: repeat match goal with |- context [?a <? ?b] => destruct (Z.ltb_spec a b); try lia
    | |- context [?a =? ?b] => destruct (Z.eqb_spec a b); try lia end.
Qed.

Lemma filter_le_length (p : Z → bool) l : (length (List.filter p l) ≤ length l)%nat.
Proof. induction l as [|c l IH]; cbn; [done|]. destruct (p c); cbn; lia. Qed.

Lemma filter_same (p : Z → bool) l : length (List.filter p l) = length l → List.filter p l = l.
Proof.
  induction l as [|c l IH]; cbn; [done|]. pose proof (filter_le_length p l). destruct (p c); cbn; intros Hl; [|lia].
  f_equal. apply IH. lia.
Qed.

Lemma mapM_b64_chars v : Forall is_sextet v → mapM b64val (b64char <$> v) = Some v ∧ List.filter (λ c, negb (is_newline c)) (b64char <$> v) = b64char <$> v.
Proof.
  induction 1 as [|x v Hx Hv [IH1 IH2]]; [done|]. destruct (b64_char_val x Hx) as [Hc Hn]. cbn. rewrite Hc, Hn, IH2. cbn.
  by rewrite IH1.
Qed.

Lemma base64_roundtrip l : Forall is_byte l → base64_DecodeStrict (base64_Encode l) = Some l.
Proof.
  intros Hl. unfold base64_DecodeStrict, base64_Encode. destruct (mapM_b64_chars (sextets l)) as [E1 E2]; [by apply sextets_range|].
  rewrite E2, E1. by apply unsextets_sextets.
Qed.

(** A text of exactly 43 characters that decodes to 32 bytes is their encoding. *)
Lemma base64_canonical enc raw : length enc = secretEncLen → base64_DecodeStrict enc = Some raw → length raw = secretBytes →
  enc = base64_Encode raw ∧ Forall is_byte raw.
Proof.
  intros Hlen Hd Hr. unfold base64_DecodeStrict in Hd. set (f := List.filter _ enc) in *.
  destruct (mapM b64val f) as [vs|] eqn:Hm; [|done].
  assert (Hvs : b64char <$> vs = f ∧ Forall is_sextet vs).
  { clear Hd. clearbody f. revert f Hm. induction vs as [|v vs IH]; intros [|c f] Hm; cbn in Hm; try done.
    - destruct (b64val c); [|done]. cbn in Hm. by destruct (mapM b64val f).
    - destruct (b64val c) as [v'|] eqn:Hc; [|done]. cbn in Hm. destruct (mapM b64val f) as [vs'|] eqn:Hf; [|done].
      cbn in Hm. injection Hm as -> ->. destruct (b64_val_char c v Hc) as [<- Hv]. destruct (IH f Hf) as [<- Hs]. split; [done|by constructor]. }
  destruct Hvs as [Ef Hs]. destruct (sextets_unsextets vs raw Hs Hd) as [Ev Hraw]. split; [|done].
  unfold base64_Encode. rewrite Ev, Ef. symmetry. apply filter_same. rewrite Hlen. fold f. rewrite <- Ef, length_fmap, <- Ev, sextets_length, Hr. done.
Qed.

Lemma hex_digit_range v : 0 ≤ v < 16 → 48 ≤ hexdigit v ≤ 57 ∨ 97 ≤ hexdigit v ≤ 102.
Proof. unfold hexdigit. intros Hv. destruct (Z.ltb_spec v 10); lia. Qed.

Lemma hex_length p : length (hex_EncodeToString p) = (2 * length p)%nat.
Proof. unfold hex_EncodeToString. induction p as [|b p IH]; [done|]. cbn in *. rewrite IH. lia. Qed.

Lemma hex_valid p : length p = 4%nat → Forall is_byte p → validPrefix (hex_EncodeToString p) = true.
Proof.
  intros Hl Hp. unfold validPrefix. rewrite hex_length, Hl. cbn [Nat.mul Nat.add]. unfold prefixHexLen. cbn [Nat.eqb negb].
  apply forallb_forall. intros c Hc. unfold hex_EncodeToString in Hc. apply list_elem_of_In, list_elem_of_bind in Hc as (b & Hc & Hb).
  rewrite Forall_forall in Hp. specialize (Hp b Hb). unfold is_byte in Hp.
  assert (Hr : 48 ≤ c ≤ 57 ∨ 97 ≤ c ≤ 102).
  { rewrite !elem_of_cons in Hc. destruct Hc as [->|[->|[]%elem_of_nil]]; apply hex_digit_range; Z.to_euclidean_division_equations; lia. }
  apply negb_true_iff, andb_false_iff. rewrite !orb_false_iff, !Z.ltb_ge. lia.
Qed.

Definition unhex (c : Z) : Z := if c <=? 57 then c - 48 else c - 87.

Lemma valid_hex s : validPrefix s = true → ∃ p, length p = 4%nat ∧ Forall is_byte p ∧ s = hex_EncodeToString p.
Proof.
  unfold validPrefix, prefixHexLen. destruct (Nat.eqb_spec (length s) 8) as [Hl|]; [|done]. cbn [negb].
  rewrite forallb_forall. intros Hs.
  assert (Hc : ∀ c, c ∈ s → 0 ≤ unhex c < 16 ∧ hexdigit (unhex c) = c).
  { intros c Hc. apply list_elem_of_In, Hs, negb_true_iff, andb_false_iff in Hc. rewrite !orb_false_iff, !Z.ltb_ge in Hc.
    unfold unhex, hexdigit. destruct (Z.leb_spec c 57), (Z.ltb_spec (if c <=? 57 then c - 48 else c - 87) 10);
      repeat match goal with |- context [if ?b then _ else _] => destruct b eqn:?; bprop end; lia. }
  do 9 (destruct s as [|? s]; [try done|]); [|done].
  assert (Hb : ∀ x y, x ∈ [z; z0; z1; z2; z3; z4; z5; z6] → y ∈ [z; z0; z1; z2; z3; z4; z5; z6] →
    is_byte (unhex x * 16 + unhex y) ∧ [hexdigit ((unhex x * 16 + unhex y) / 16); hexdigit ((unhex x * 16 + unhex y) mod 16)] = [x; y]).
  { intros x y [Hx Ex]%Hc [Hy Ey]%Hc. split; [unfold is_byte; lia|].
    replace ((unhex x * 16 + unhex y) / 16) with (unhex x) by (Z.to_euclidean_division_equations; lia).
    replace ((unhex x * 16 + unhex y) mod 16) with (unhex y) by (Z.to_euclidean_division_equations; lia). by rewrite Ex, Ey. }
  exists [unhex z * 16 + unhex z0; unhex z1 * 16 + unhex z2; unhex z3 * 16 + unhex z4; unhex z5 * 16 + unhex z6].
  destruct (Hb z z0) as [? E1]; [set_solver..|]. destruct (Hb z1 z2) as [? E2]; [set_solver..|].
  destruct (Hb z3 z4) as [? E3]; [set_solver..|]. destruct (Hb z5 z6) as [? E4]; [set_solver..|].
  split; [done|]. split; [by rewrite !Forall_cons, Forall_nil|]. unfold hex_EncodeToString. cbn. cbn in E1, E2, E3, E4. congruence.
Qed.

(** ** Theorems. *)

Lemma ParseKey_parts prefix enc : length prefix = 8%nat → length enc = 43%nat →
  ParseKey (keyScheme ++ prefix ++ [prefixSepByte] ++ enc) =
    if validPrefix prefix then
      match base64_DecodeStrict enc with
      | Some raw => if (length raw =? secretBytes)%nat then Some (prefix, Sum256 raw) else None
      | None => None
      end
    else None.
Proof.
  intros Hp He. unfold ParseKey, keyLen, prefixHexLen, secretEncLen. change (length keyScheme) with 3%nat.
  rewrite !length_app, Hp, He. change (length keyScheme) with 3%nat. cbn [length Nat.add]. rewrite Nat.eqb_refl.
  rewrite (bool_decide_eq_true_2 (take 3 _ = keyScheme)) by (by apply take_app_length').
  rewrite (bool_decide_eq_true_2 (_ !! 11%nat = _)); cycle 1.
  { rewrite lookup_app_r by (cbn; lia). change (11 - length keyScheme)%nat with 8%nat. rewrite lookup_app_r by lia. by rewrite Hp. }
  cbn [negb orb].
  rewrite (drop_app_length' keyScheme _ 3) by done. rewrite (take_app_length' prefix _ 8) by done.
  replace 12%nat with (3 + (8 + 1))%nat by done. rewrite <- drop_drop, (drop_app_length' keyScheme _ 3) by done.
  rewrite <- drop_drop, (drop_app_length' prefix _ 8) by done. change (drop 1 ([prefixSepByte] ++ enc)) with enc.
  destruct (validPrefix prefix); [|done]. cbn [negb]. destruct (base64_DecodeStrict enc) as [raw|]; [|done].
  by destruct (length raw =? secretBytes)%nat.
Qed.

(** C32: A key that is issued is accepted, and only keys that could have been issued are: parsing
    a generated key gives back its prefix and its secret's hash, and whatever parses is, byte for
    byte, the key generated from some four prefix bytes and some 32 secret bytes, so that each
    prefix and secret has exactly one accepted spelling. *)
Theorem key_roundtrip key prefix h :
  ParseKey key = Some (prefix, h) ↔
  ∃ p s, length p = 4%nat ∧ Forall is_byte p ∧ length s = secretBytes ∧ Forall is_byte s ∧ GenerateKey p s = (key, prefix, h).
Proof.
  split.
  - intros Hk. unfold ParseKey in Hk. destruct (Nat.eqb_spec (length key) keyLen) as [Hl|]; [|done]. cbn [negb orb] in Hk.
    case_bool_decide as Hsch; [|done]. case_bool_decide as Hsep; [|done]. cbn [negb orb] in Hk.
    change (length keyScheme) with 3%nat in *. unfold keyLen in Hl. change (length keyScheme) with 3%nat in Hl.
    unfold prefixHexLen, secretEncLen in *. cbn [Nat.add] in *.
    assert (Ekey : key = keyScheme ++ take 8 (drop 3 key) ++ [prefixSepByte] ++ drop 12 key).
    { rewrite <- (take_drop 3 key) at 1. rewrite Hsch. f_equal. rewrite <- (take_drop 8 (drop 3 key)) at 1. f_equal.
      rewrite drop_drop. cbn [Nat.add]. by rewrite (drop_S key _ 11 Hsep). }
    destruct (validPrefix (take 8 (drop 3 key))) eqn:Hv; [|done]. cbn [negb] in Hk.
    destruct (base64_DecodeStrict (drop 12 key)) as [raw|] eqn:Hd; [|done].
    destruct (Nat.eqb_spec (length raw) secretBytes) as [Hr|]; [|done]. cbn [negb] in Hk. injection Hk as <- <-.
    destruct (base64_canonical (drop 12 key) raw) as [Ee Hb]; [rewrite length_drop, Hl; done|done|done|].
    destruct (valid_hex _ Hv) as (p & Hp & Hpb & Ep). exists p, raw. split_and!; [done..|].
    unfold GenerateKey. rewrite <- Ee, <- Ep. by rewrite <- Ekey.
  - intros (p & s & Hp & Hpb & Hs & Hsb & [[<- <-]%pair_eq <-]%pair_eq). rewrite ParseKey_parts.
    + rewrite hex_valid, base64_roundtrip by done. by rewrite Hs.
    + by rewrite hex_length, Hp.
    + unfold base64_Encode. by rewrite length_fmap, sextets_length, Hs.
Qed.

Example key_example :
  ParseKey ((GenerateKey [222; 173; 190; 239] (Z.of_nat <$> seq 0 32)).1.1) = Some (bytes "deadbeef", Sum256 (Z.of_nat <$> seq 0 32)).
Proof. vm_compute. reflexivity. Qed.
