(* ===== verification/Lru.v ===== *)
(** * The bounded map of the authenticator: internal/auth/lru.go

    The source links list elements and an index from keys to elements.  An element is an address
    into [elems]; [order] is the list from front to back; [items] is the index.  [contents] reads
    off the association list the structure stands for, and the operations refine the textbook
    ones on it. *)

From S2P Require Import Prelude.

Local Open Scope list_scope.
Local Open Scope Z_scope.

Record lruItem (V : Type) := mkItem { li_key : list Z; li_val : V }.

Arguments mkItem {V} _ _.
Arguments li_key {V} _.
Arguments li_val {V} _.

Record lru (V : Type) := mkLru {
  lru_max : Z;
  order : list Z;
  elems : gmap Z (lruItem V);
  nextElem : Z;
  items : gmap (list Z) Z;
}.

Arguments mkLru {V} _ _ _ _ _.
Arguments lru_max {V} _.
Arguments order {V} _.
Arguments elems {V} _.
Arguments nextElem {V} _.
Arguments items {V} _.

#[global] Instance lru_settable V : Settable (lru V) :=
  {| eta_of := λ c, mkLru (lru_max c) (order c) (elems c) (nextElem c) (items c) |}.

Section lru.
Context {V : Type}.
Implicit Types (c : lru V) (k : list Z) (v : V) (el : Z).

Definition newLRU (max : Z) : lru V := mkLru max [] ∅ 0 ∅.

(** container/list: taking an element out, putting it in front. *)
Definition list_Remove (l : list Z) el : list Z := List.filter (λ x, negb (x =? el)) l.

Definition list_MoveToFront (l : list Z) el : list Z := el :: list_Remove l el.

Definition lru_get c k : lru V * option V :=
  match items c !! k with
  | Some el => (c <| order := list_MoveToFront (order c) el |>, li_val <$> elems c !! el)
  | None => (c, None)
  end.

(** The loop that takes elements off the back. *)
Fixpoint lru_evict (fuel : nat) c : lru V :=
  match fuel with
  | O => c
  | S fuel =>
      if lru_max c <? Z.of_nat (length (order c)) then
        match list.last (order c) with
        | None => c
        | Some el =>
            let c :=
              match elems c !! el with
              | Some it => c <| items := delete (li_key it) (items c) |>
              | None => c
              end in
            lru_evict fuel (c <| order := list_Remove (order c) el |>)
        end
      else c
  end.

Definition lru_put c k v : lru V :=
  match items c !! k with
  | Some el =>
      let c := c <| elems := alter (λ it, mkItem (li_key it) v) el (elems c) |> in
      c <| order := list_MoveToFront (order c) el |>
  | None =>
      let el := nextElem c in
      let c := c <| elems := <[el := mkItem k v]> (elems c) |> <| nextElem := el + 1 |> in
      let c := c <| items := <[k := el]> (items c) |> <| order := el :: order c |> in
      lru_evict (length (order c)) c
  end.

Definition lru_remove c k : lru V :=
  match items c !! k with
  | Some el => c <| items := delete k (items c) |> <| order := list_Remove (order c) el |>
  | None => c
  end.

Definition lru_len c : Z := Z.of_nat (length (order c)).

(** ** What it stands for. *)

Definition item_at c el : list (list Z * V) :=
  match elems c !! el with Some it => [(li_key it, li_val it)] | None => [] end.

(** Keys and values, most recently used first. *)
Definition contents c : list (list Z * V) := order c ≫= item_at c.

(** The value kept for a key. *)
Definition lru_lookup c k : option V :=
  match items c !! k with Some el => li_val <$> elems c !! el | None => None end.

Record lru_wf c : Prop := {
  wf_nodup : NoDup (order c);
  wf_elem : ∀ el, el ∈ order c → el < nextElem c ∧ ∃ it, elems c !! el = Some it ∧ items c !! li_key it = Some el;
  wf_item : ∀ k el, items c !! k = Some el → el ∈ order c ∧ ∃ it, elems c !! el = Some it ∧ li_key it = k
}.

Record lru_ok c : Prop := {
  ok_wf : lru_wf c;
  ok_max : 1 ≤ lru_max c;
  ok_len : lru_len c ≤ lru_max c
}.

(** The textbook operations on the association list. *)
Definition without k (l : list (list Z * V)) : list (list Z * V) := List.filter (λ kv, negb (bool_decide (kv.1 = k))) l.

Definition assoc k (l : list (list Z * V)) : option V := snd <$> List.find (λ kv, bool_decide (kv.1 = k)) l.

Definition touched k (l : list (list Z * V)) : list (list Z * V) :=
  match assoc k l with Some v => (k, v) :: without k l | None => l end.

Definition stored (max : Z) k v (l : list (list Z * V)) : list (list Z * V) := take (Z.to_nat max) ((k, v) :: without k l).

(** ** Lists. *)

Lemma elem_of_list_Remove l el x : x ∈ list_Remove l el ↔ x ∈ l ∧ x ≠ el.
Proof. unfold list_Remove. rewrite !list_elem_of_In, filter_In, negb_true_iff, Z.eqb_neq. done. Qed.

Lemma list_Remove_NoDup l el : NoDup l → NoDup (list_Remove l el).
Proof. unfold list_Remove. rewrite !NoDup_ListNoDup. apply List.NoDup_filter. Qed.

Lemma list_Remove_cons x l el : list_Remove (x :: l) el = if x =? el then list_Remove l el else x :: list_Remove l el.
Proof. unfold list_Remove. cbn. by destruct (x =? el). Qed.

Lemma list_Remove_out l el : el ∉ l → list_Remove l el = l.
Proof.
  induction l as [|x l IH]; [done|]. rewrite not_elem_of_cons, list_Remove_cons. intros [Hx Hl].
  rewrite (proj2 (Z.eqb_neq _ _)) by done. by rewrite IH.
Qed.

Lemma list_Remove_length l el : NoDup l → el ∈ l → S (length (list_Remove l el)) = length l.
Proof.
  induction l as [|x l IH]; [by rewrite elem_of_nil|]. rewrite NoDup_cons, elem_of_cons, list_Remove_cons. intros [Hx Hl] Hel.
  destruct (Z.eqb_spec x el) as [->|Hne]; [by rewrite list_Remove_out|]. destruct Hel as [->|Hel]; [done|]. cbn. by rewrite IH.
Qed.

Lemma list_Remove_last l el : NoDup (l ++ [el]) → list_Remove (l ++ [el]) el = l.
Proof.
  intros Hl. unfold list_Remove. rewrite List.filter_app. cbn. rewrite Z.eqb_refl. cbn. rewrite app_nil_r.
  apply (list_Remove_out l el). apply NoDup_app in Hl as (_ & Hd & _). intros Hin. apply (Hd _ Hin). by apply list_elem_of_singleton.
Qed.

Lemma elem_of_without k l (kv : list Z * V) : kv ∈ without k l ↔ kv ∈ l ∧ kv.1 ≠ k.
Proof. unfold without. rewrite !list_elem_of_In, filter_In, negb_true_iff, bool_decide_eq_false. done. Qed.

Lemma without_cons k kv l : without k (kv :: l) = if bool_decide (kv.1 = k) then without k l else kv :: without k l.
Proof. unfold without. cbn. by destruct (bool_decide (kv.1 = k)). Qed.

Lemma without_out k l : k ∉ l.*1 → without k l = l.
Proof.
  induction l as [|[k' v] l IH]; [done|]. rewrite fmap_cons, not_elem_of_cons, without_cons. intros [Hx Hl].
  rewrite bool_decide_eq_false_2 by (cbn in *; congruence). by rewrite IH.
Qed.

Lemma assoc_Some k v l : NoDup l.*1 → assoc k l = Some v ↔ (k, v) ∈ l.
Proof.
  unfold assoc. induction l as [|[k' v'] l IH]; cbn; [intros _; split; [done|by intros ?%elem_of_nil]|].
  rewrite NoDup_cons, elem_of_cons. intros [Hk' Hl]. case_bool_decide as Hk; cbn.
  - subst k'. split; [intros [= ->]; by left|]. intros [[= ->]|Hin]; [done|]. destruct Hk'. by apply (list_elem_of_fmap_2' fst _ (k, v)).
  - rewrite IH by done. split; [by right|]. intros [[= -> ->]|]; done.
Qed.

Lemma assoc_None k l : assoc k l = None ↔ k ∉ l.*1.
Proof.
  unfold assoc. induction l as [|[k' v'] l IH]; cbn; [split; [intros _; apply not_elem_of_nil|done]|].
  rewrite not_elem_of_cons. case_bool_decide as Hk; cbn; [split; [done|intros []; congruence]|]. rewrite IH. split; [|intros []]; done || (split; congruence || done).
Qed.

(** ** The structure and its contents. *)

Lemma contents_elem c k v : lru_wf c → (k, v) ∈ contents c ↔ lru_lookup c k = Some v.
Proof.
  intros [_ We Wi]. unfold contents, lru_lookup. rewrite list_elem_of_bind. unfold item_at. split.
  - intros (el & Hin & Hel). destruct (We _ Hel) as (_ & it & Hit & Hk). rewrite Hit in Hin.
    apply list_elem_of_singleton in Hin as [= -> ->]. by rewrite Hk, Hit.
  - destruct (items c !! k) as [el|] eqn:Hk; [|done]. destruct (Wi _ _ Hk) as (Hel & it & Hit & <-). rewrite Hit. cbn. intros [= <-].
    exists el. split; [|done]. rewrite Hit. by apply list_elem_of_singleton.
Qed.

(** Taking an element out of the order takes its key out of the contents. *)
Lemma contents_remove c k el l : (∀ x, x ∈ l → ∃ it, elems c !! x = Some it ∧ (li_key it = k ↔ x = el)) →
  list_Remove l el ≫= item_at c = without k (l ≫= item_at c).
Proof.
  induction l as [|x l IH]; intros Hl; [done|]. destruct (Hl x) as (it & Hit & Hk); [by left|].
  assert (Hx : item_at c x = [(li_key it, li_val it)]) by (unfold item_at; by rewrite Hit).
  rewrite bind_cons, Hx, list_Remove_cons. cbn [app]. rewrite without_cons. cbn [fst].
  assert (IH' := IH (λ x Hx, Hl x (list_elem_of_further _ _ _ Hx))).
  destruct (Z.eqb_spec x el) as [->|Hne].
  - by rewrite bool_decide_eq_true_2 by tauto.
  - rewrite bool_decide_eq_false_2 by tauto. rewrite bind_cons, Hx. cbn [app]. by rewrite IH'.
Qed.

Lemma wf_keys c k el : lru_wf c → items c !! k = Some el →
  ∀ x, x ∈ order c → ∃ it, elems c !! x = Some it ∧ (li_key it = k ↔ x = el).
Proof.
  intros [_ We Wi] Hk x Hx. destruct (We x Hx) as (_ & it & Hit & Hi). exists it. split; [done|]. split; [congruence|].
  intros ->. destruct (Wi _ _ Hk) as (_ & it' & Hit' & <-). congruence.
Qed.

Lemma contents_keys c : lru_wf c → NoDup (contents c).*1.
Proof.
  intros [Wn We Wi]. unfold contents. assert (Hsub : ∀ x, x ∈ order c → x ∈ order c) by done. revert Wn Hsub.
  generalize (order c) at 1 2 4. intros l. induction l as [|x l IH]; intros Hn Hsub; [constructor|]. apply NoDup_cons in Hn as [Hx Hn].
  destruct (We x) as (_ & it & Hit & Hi); [apply Hsub; by left|]. rewrite bind_cons. unfold item_at at 1. rewrite Hit. cbn.
  apply NoDup_cons. split; [|apply IH; [done|intros y Hy; apply Hsub; by right]].
  intros ([k v] & Hk & Hin)%list_elem_of_fmap. cbn in Hk. subst k. apply list_elem_of_bind in Hin as (y & Hin & Hy). unfold item_at in Hin.
  destruct (We y) as (_ & it' & Hit' & Hi'); [apply Hsub; by right|]. rewrite Hit' in Hin. apply list_elem_of_singleton in Hin as [= Hk _].
  rewrite <- Hk, Hi in Hi'. injection Hi' as ->. done.
Qed.

Lemma contents_length c : lru_wf c → length (contents c) = length (order c).
Proof.
  intros [_ We _]. unfold contents. assert (Hsub : ∀ x, x ∈ order c → x ∈ order c) by done. revert Hsub.
  generalize (order c) at 1 3 4. intros l. induction l as [|x l IH]; intros Hsub; [done|].
  destruct (We x) as (_ & it & Hit & _); [apply Hsub; by left|]. rewrite bind_cons. unfold item_at at 1. rewrite Hit. cbn. f_equal.
  apply IH. intros y Hy. apply Hsub. by right.
Qed.

Lemma lookup_assoc c k : lru_wf c → lru_lookup c k = assoc k (contents c).
Proof.
  intros W. destruct (assoc k (contents c)) as [v|] eqn:Ha.
  - apply assoc_Some in Ha; [|by apply contents_keys]. by apply contents_elem.
  - apply assoc_None in Ha. destruct (lru_lookup c k) as [v|] eqn:Hl; [|done]. apply (contents_elem c k v) in Hl; [|done].
    destruct Ha. by apply (list_elem_of_fmap_2' fst _ (k, v)).
Qed.

(** ** The operations. *)

Lemma elem_of_front l el x : el ∈ l → x ∈ list_MoveToFront l el ↔ x ∈ l.
Proof.
  intros Hel. unfold list_MoveToFront. rewrite elem_of_cons, elem_of_list_Remove. split; [intros [->|[]]; done|].
  intros Hx. destruct (decide (x = el)); [by left|by right].
Qed.

Lemma front_wf c el : lru_wf c → el ∈ order c → lru_wf (c <| order := list_MoveToFront (order c) el |>).
Proof.
  intros [Wn We Wi] Hel. split; cbn.
  - unfold list_MoveToFront. apply NoDup_cons. rewrite elem_of_list_Remove. split; [tauto|by apply list_Remove_NoDup].
  - intros x. rewrite elem_of_front by done. apply We.
  - intros k x Hx. rewrite elem_of_front by done. by apply Wi.
Qed.

Lemma front_length l el : NoDup l → el ∈ l → length (list_MoveToFront l el) = length l.
Proof. intros. unfold list_MoveToFront. cbn. by apply list_Remove_length. Qed.

Lemma front_contents c k el v : lru_wf c → items c !! k = Some el → elems c !! el = Some (mkItem k v) →
  contents (c <| order := list_MoveToFront (order c) el |>) = (k, v) :: without k (contents c).
Proof.
  intros W Hk Hel. unfold contents, list_MoveToFront. cbn. unfold item_at at 1. cbn. rewrite Hel. cbn. f_equal.
  rewrite <- (contents_remove c k el (order c)); [done|]. by apply wf_keys.
Qed.

Lemma wf_found c k el : lru_wf c → items c !! k = Some el → el ∈ order c ∧ ∃ v, elems c !! el = Some (mkItem k v).
Proof. intros W Hk. destruct (wf_item _ W _ _ Hk) as (Hel & [k' v] & Hit & Hk'). cbn in Hk'. subst k'. split; [done|by exists v]. Qed.

Lemma get_refines c k : lru_ok c →
  lru_ok (lru_get c k).1 ∧ lru_max (lru_get c k).1 = lru_max c ∧ contents (lru_get c k).1 = touched k (contents c) ∧
  (lru_get c k).2 = assoc k (contents c).
Proof.
  intros [W Hm Hl]. pose proof (lookup_assoc c k W) as Ha. unfold lru_get, touched. rewrite <- Ha. unfold lru_lookup.
  destruct (items c !! k) as [el|] eqn:Hk; cbn; [|by split_and!].
  destruct (wf_found _ _ _ W Hk) as (Hel & v & Hv). rewrite Hv. cbn. split_and!; [|done|by apply front_contents|done].
  split; [by apply front_wf|done|]. unfold lru_len in *. rewrite <- (front_length (order c) el) in Hl; [exact Hl|apply W|done].
Qed.

Lemma drop_wf c k el : lru_wf c → items c !! k = Some el →
  lru_wf (c <| items := delete k (items c) |> <| order := list_Remove (order c) el |>).
Proof.
  intros W Hk. destruct W as [Wn We Wi] eqn:HW. split; cbn.
  - by apply list_Remove_NoDup.
  - intros x [Hx Hne]%elem_of_list_Remove. destruct (We x Hx) as (Hlt & it & Hit & Hi). split; [done|]. exists it. split; [done|].
    apply lookup_delete_Some. split; [congruence|done].
  - intros k' x [Hne Hx]%lookup_delete_Some. destruct (Wi _ _ Hx) as (Hin & it & Hit & Hki). split; [|by exists it].
    apply elem_of_list_Remove. split; [done|]. intros ->. destruct (Wi _ _ Hk) as (_ & it' & Hit' & Hki'). congruence.
Qed.

Lemma remove_refines c k : lru_ok c →
  lru_ok (lru_remove c k) ∧ lru_max (lru_remove c k) = lru_max c ∧ contents (lru_remove c k) = without k (contents c).
Proof.
  intros [W Hm Hl]. unfold lru_remove. destruct (items c !! k) as [el|] eqn:Hk.
  - destruct (wf_found _ _ _ W Hk) as (Hel & v & Hv). split_and!; [|done|]; cbn.
    + split; [by apply drop_wf|done|]. unfold lru_len in *. cbn. pose proof (list_Remove_length _ _ (wf_nodup _ W) Hel). lia.
    + unfold contents. cbn. rewrite <- (contents_remove c k el (order c)); [done|]. by apply wf_keys.
  - split_and!; [done|done|]. rewrite without_out; [done|]. apply assoc_None. rewrite <- lookup_assoc by done. unfold lru_lookup. by rewrite Hk.
Qed.

(** Evicting keeps the first [lru_max] entries. *)
Lemma evict_refines fuel : ∀ c, lru_wf c → 0 ≤ lru_max c → (length (order c) ≤ fuel)%nat →
  lru_wf (lru_evict fuel c) ∧ lru_max (lru_evict fuel c) = lru_max c ∧ lru_len (lru_evict fuel c) ≤ lru_max c ∧
  contents (lru_evict fuel c) = take (Z.to_nat (lru_max c)) (contents c).
Proof.
  induction fuel as [|fuel IH]; intros c W Hm Hf; cbn [lru_evict].
  { rewrite take_ge by (rewrite contents_length by done; lia). unfold lru_len. split_and!; [done|done|lia|done]. }
  destruct (Z.ltb_spec (lru_max c) (Z.of_nat (length (order c)))) as [Hlt|Hge]; cycle 1.
  { rewrite take_ge by (rewrite contents_length by done; lia). by split_and!. }
  destruct (list.last (order c)) as [el|] eqn:Hlast; [|apply last_None in Hlast; rewrite Hlast in Hlt; cbn in Hlt; lia].
  apply last_Some in Hlast as [l Hl]. assert (Hel : el ∈ order c) by (rewrite Hl; apply elem_of_app; right; by apply list_elem_of_singleton).
  destruct (wf_elem _ W _ Hel) as (_ & it & Hit & Hi). rewrite Hit.
  set (c' := c <| items := delete (li_key it) (items c) |> <| order := list_Remove (order c) el |>).
  assert (Ho : order c' = l) by (cbn; pose proof (wf_nodup _ W) as Hn; rewrite Hl in *; by apply list_Remove_last).
  assert (Hc : contents c = contents c' ++ item_at c el).
  { unfold contents. rewrite Ho, Hl, bind_app. cbn. by rewrite app_nil_r. }
  assert (W' : lru_wf c') by (by apply drop_wf). assert (Hlen : length (contents c') = length l) by (rewrite contents_length, Ho; done).
  destruct (IH c') as (I1 & I2 & I3 & I4); [done|done|rewrite Ho; rewrite Hl, length_app in Hf; cbn in Hf; lia|].
  change (c <| items := delete (li_key it) (items c) |> <| order := list_Remove (order _) el |>) with c'.
  split_and!; [done|done|done|]. rewrite I4, Hc, take_app_le; [done|]. rewrite Hlen. rewrite Hl, length_app in Hlt. cbn in *. lia.
Qed.

Lemma push_wf c k v : lru_wf c → items c !! k = None →
  lru_wf (mkLru (lru_max c) (nextElem c :: order c) (<[nextElem c := mkItem k v]> (elems c)) (nextElem c + 1) (<[k := nextElem c]> (items c))).
Proof.
  intros [Wn We Wi] Hk. assert (Hnew : nextElem c ∉ order c) by (intros Hin; destruct (We _ Hin); lia). split; cbn.
  - apply NoDup_cons. by split.
  - intros x [->|Hx]%elem_of_cons; [split; [lia|]; exists (mkItem k v); by rewrite !lookup_insert_eq|].
    destruct (We x Hx) as (Hlt & it & Hit & Hi). split; [lia|]. exists it. rewrite !lookup_insert_ne by (lia || congruence). done.
  - intros k' x [[<- <-]|[Hne Hx]]%lookup_insert_Some.
    + split; [by left|]. exists (mkItem k v). by rewrite lookup_insert_eq.
    + destruct (Wi _ _ Hx) as (Hin & it & Hit & Hki). split; [by right|]. exists it. rewrite lookup_insert_ne by congruence. done.
Qed.

Lemma push_contents c k v : lru_wf c →
  contents (mkLru (lru_max c) (nextElem c :: order c) (<[nextElem c := mkItem k v]> (elems c)) (nextElem c + 1) (<[k := nextElem c]> (items c))) =
  (k, v) :: contents c.
Proof.
  intros [_ We _]. unfold contents, item_at. cbn. rewrite lookup_insert_eq. cbn. f_equal.
  apply Forall_bind_ext, Forall_forall. intros x Hx. destruct (We x Hx). by rewrite lookup_insert_ne by lia.
Qed.

Lemma alter_wf c el v : lru_wf c → lru_wf (c <| elems := alter (λ it, mkItem (li_key it) v) el (elems c) |>).
Proof.
  intros [Wn We Wi].
  assert (Ha : ∀ x it, elems c !! x = Some it → ∃ it', alter (λ it, mkItem (li_key it) v) el (elems c) !! x = Some it' ∧ li_key it' = li_key it).
  { intros x it Hit. destruct (decide (x = el)) as [->|Hne]; [rewrite lookup_alter_eq, Hit|rewrite lookup_alter_ne, Hit by done]; eauto. }
  split; [done| |]; cbn.
  - intros x Hx. destruct (We x Hx) as (Hlt & it & Hit & Hi). destruct (Ha _ _ Hit) as (it' & Hit' & Hk). split; [done|].
    exists it'. by rewrite Hk.
  - intros k' x Hx. destruct (Wi _ _ Hx) as (Hin & it & Hit & <-). split; [done|]. by apply Ha.
Qed.

Lemma put_refines c k v : lru_ok c →
  lru_ok (lru_put c k v) ∧ lru_max (lru_put c k v) = lru_max c ∧ contents (lru_put c k v) = stored (lru_max c) k v (contents c).
Proof.
  intros [W Hm Hl]. unfold lru_put, stored. destruct (items c !! k) as [el|] eqn:Hk.
  - destruct (wf_found _ _ _ W Hk) as (Hel & v' & Hv'). set (c1 := c <| elems := alter (λ it, mkItem (li_key it) v) el (elems c) |>).
    assert (Hv : elems c1 !! el = Some (mkItem k v)) by (cbn; by rewrite lookup_alter_eq, Hv').
    assert (W1 : lru_wf c1) by (by apply alter_wf).
    assert (Hw : without k (contents c1) = without k (contents c)).
    { unfold contents. rewrite <- (contents_remove c1 k el), <- (contents_remove c k el) by (by apply wf_keys).
      apply Forall_bind_ext, Forall_forall. intros x [_ Hx]%elem_of_list_Remove. unfold item_at. cbn. by rewrite lookup_alter_ne. }
    pose proof (front_contents c1 k el v W1 Hk Hv) as Hc. rewrite Hw in Hc.
    assert (Hlen : length (list_MoveToFront (order c) el) = length (order c)) by (apply front_length; [apply W|done]).
    split_and!; [|done|].
    + split; [by apply front_wf|done|]. unfold lru_len in *. rewrite <- Hlen in Hl. exact Hl.
    + rewrite <- Hc. symmetry. apply take_ge. rewrite contents_length by (by apply front_wf). unfold lru_len in Hl. cbn -[list_MoveToFront] in *. lia.
  - pose proof (push_wf c k v W Hk) as W1. pose proof (push_contents c k v W) as Hc.
    destruct (evict_refines (S (length (order c))) _ W1) as (I1 & I2 & I3 & I4); [cbn; lia|done|]. rewrite Hc in I4.
    assert (Hout : without k (contents c) = contents c).
    { apply without_out, assoc_None. rewrite <- lookup_assoc by done. unfold lru_lookup. by rewrite Hk. }
    rewrite Hout. refine (conj (Build_lru_ok _ I1 _ _) (conj I2 I4)); [|etrans; [exact I3|]]; by rewrite I2.
Qed.

(** ** What a client may rely on. *)

Lemma new_ok max : 1 ≤ max → lru_ok (newLRU max).
Proof.
  intros Hm. split; [|done|unfold lru_len; cbn; lia]. split; cbn; [constructor| |].
  - by intros el ?%elem_of_nil.
  - intros k el. by rewrite lookup_empty.
Qed.

Lemma get_value c k : (lru_get c k).2 = lru_lookup c k.
Proof. unfold lru_get, lru_lookup. by destruct (items c !! k). Qed.

Lemma get_lookup c k k' : lru_lookup (lru_get c k).1 k' = lru_lookup c k'.
Proof. unfold lru_get. by destruct (items c !! k). Qed.

Lemma remove_lookup c k k' : lru_lookup (lru_remove c k) k' = if decide (k' = k) then None else lru_lookup c k'.
Proof.
  unfold lru_remove. destruct (items c !! k) as [el|] eqn:Hk; unfold lru_lookup; cbn.
  - destruct (decide (k' = k)) as [->|Hne]; [by rewrite lookup_delete_eq|by rewrite lookup_delete_ne].
  - destruct (decide (k' = k)) as [->|]; [by rewrite Hk|done].
Qed.

Lemma put_lookup_Some c k v k' w : lru_ok c → lru_lookup (lru_put c k v) k' = Some w →
  k' = k ∧ w = v ∨ k' ≠ k ∧ lru_lookup c k' = Some w.
Proof.
  intros W Hl. destruct (put_refines c k v W) as ([W' _ _] & _ & Hc). apply contents_elem in Hl; [|done]. rewrite Hc in Hl.
  unfold stored in Hl. apply elem_of_take in Hl as (i & Hi & _). apply list_elem_of_lookup_2 in Hi.
  apply elem_of_cons in Hi as [[= -> ->]|[Hin Hne]%elem_of_without]; [by left|right]. split; [done|]. apply contents_elem; [apply W|done].
Qed.

Lemma put_lookup c k v : lru_ok c → lru_lookup (lru_put c k v) k = Some v.
Proof.
  intros W. destruct (put_refines c k v W) as ([W' _ _] & _ & Hc). apply contents_elem; [done|]. rewrite Hc. unfold stored.
  destruct (Z.to_nat (lru_max c)) as [|n] eqn:Hn; [destruct W; lia|]. cbn. by left.
Qed.

(** ** Any history. *)

Inductive lru_op := OpGet (k : list Z) | OpPut (k : list Z) (v : V) | OpRemove (k : list Z).

Definition lru_do c (o : lru_op) : lru V * option V :=
  match o with
  | OpGet k => lru_get c k
  | OpPut k v => (lru_put c k v, None)
  | OpRemove k => (lru_remove c k, None)
  end.

Definition spec_do (max : Z) (l : list (list Z * V)) (o : lru_op) : list (list Z * V) * option V :=
  match o with
  | OpGet k => (touched k l, assoc k l)
  | OpPut k v => (stored max k v l, None)
  | OpRemove k => (without k l, None)
  end.

Fixpoint run {S} (f : S → lru_op → S * option V) (s : S) (os : list lru_op) : S * list (option V) :=
  match os with
  | [] => (s, [])
  | o :: os => let '(s, r) := f s o in let '(s, rs) := run f s os in (s, r :: rs)
  end.

Lemma do_refines c o : lru_ok c →
  lru_ok (lru_do c o).1 ∧ lru_max (lru_do c o).1 = lru_max c ∧
  spec_do (lru_max c) (contents c) o = (contents (lru_do c o).1, (lru_do c o).2).
Proof.
  intros W. destruct o as [k|k v|k]; cbn.
  - destruct (get_refines c k W) as (H1 & H2 & H3 & H4). by rewrite H3, H4.
  - destruct (put_refines c k v W) as (H1 & H2 & H3). by rewrite H3.
  - destruct (remove_refines c k W) as (H1 & H2 & H3). by rewrite H3.
Qed.

Lemma lru_run_refines os : ∀ c, lru_ok c →
  lru_ok (run lru_do c os).1 ∧ lru_max (run lru_do c os).1 = lru_max c ∧
  run (spec_do (lru_max c)) (contents c) os = (contents (run lru_do c os).1, (run lru_do c os).2).
Proof.
  induction os as [|o os IH]; intros c W; cbn; [done|]. destruct (do_refines c o W) as (H1 & H2 & H3).
  destruct (lru_do c o) as [c' r]. cbn [fst snd] in *. destruct (IH c' H1) as (I1 & I2 & I3). rewrite H3, <- H2, I3.
  destruct (run lru_do c' os). done.
Qed.

End lru.

(** C33: The linked list with its index is a bounded least-recently-used map: over any history of
    gets, puts and removals on a cache of at least one entry, every answer is that of the textbook
    operations on a list of keys and values kept in order of use and cut to the size, the index
    and the list stay consistent, no key is kept twice and the size is never exceeded. *)
Theorem lru_refines {V} max (os : list (@lru_op V)) : 1 ≤ max →
  let '(c, rs) := run lru_do (newLRU max) os in
  run (spec_do max) [] os = (contents c, rs) ∧ NoDup (contents c).*1 ∧ lru_len c ≤ max ∧
  (∀ k, lru_lookup c k = assoc k (contents c)).
Proof.
  intros Hm. destruct (lru_run_refines os (newLRU max) (new_ok max Hm)) as (H1 & H2 & H3).
  destruct (run lru_do (newLRU max) os) as [c rs]. cbn [fst snd] in *. split_and!; [exact H3| | |].
  - apply contents_keys, H1.
  - etrans; [apply (ok_len _ H1)|]. by rewrite H2.
  - intros k. apply lookup_assoc, H1.
Qed.

Lemma lru_refines_witness :
  run (spec_do 2) [] [OpPut [1] 10; OpPut [2] 20; OpGet [1]; OpPut [3] 30; OpGet [2]] =
  ([([3], 30); ([1], 10)], [None; None; Some 10; None; None]).
Proof.
  pose proof (lru_refines 2 [OpPut [1] 10; OpPut [2] 20; OpGet [1]; OpPut [3] 30; OpGet [2]] ltac:(lia)) as Hr.
  destruct (run lru_do _ _) as [c rs] eqn:He. destruct Hr as [Hr _]. rewrite Hr. vm_compute in He. injection He as <- <-. reflexivity.
Defined.
