(* ===== verification/Auth.v ===== *)
(** * The authenticator: internal/auth/types.go and internal/auth/authenticator.go

    [Authenticate] answers from two bounded caches in front of a key store, shares one lookup
    among the callers for a prefix, bounds the lookups in flight, and serves a recently verified
    key while the store is down.  A piece of code under [a.mu] is one function here; the request
    and lookup goroutines are program counters between those pieces ([pc], [lpc]), so that every
    interleaving of them is a sequence of [sys_step]s.  The store's answers are inputs.

    A [*posEntry] or [*flight] is an address: a caller keeps its stale entry after the lock is
    dropped, and waiters share their flight.  A time that may be unset is an [option Time]: the
    zero time is before every reading of the clock, by more than a Duration can hold.  An expiry
    comes from the database without a monotonic reading, so it is compared by wall clock. *)

From S2P Require Import Prelude GoString AuthKey Lru.

Local Open Scope string_scope.
Local Open Scope list_scope.
Local Open Scope Z_scope.
Local Open Scope go_scope.

(** ** types.go *)

Definition TenantActive : string := "active".
Definition TenantSuspended : string := "suspended".
Definition KeyActive : string := "active".
Definition KeyRevoked : string := "revoked".

(** The sentinel errors; [ErrUnavailable] with the text wrapped around it, [ErrOther] any error
    that is none of them. *)
Inductive AuthErr :=
| ErrInvalid | ErrExpired | ErrRevoked | ErrSuspended | ErrUnavailable (why : string)
| ErrBadRecord | ErrBusy | ErrNotFound | ErrOther (why : string).

#[global] Instance AuthErr_eq_dec : EqDecision AuthErr.
Proof. solve_decision. Defined.

Record TenantPolicy := mkPolicy {
  tp_Status : string;
  AllowedModels : option (list string);
  RequestsPerMinute : Z;
  TokensPerMinute : Z;
  MaxConcurrent : Z;
  tp_Priority : Z;
}.

Definition AllowsModel (p : TenantPolicy) (model : string) : bool :=
  match AllowedModels p with
  | None => true
  | Some ms => existsb (λ m, String.eqb m model) ms
  end.

Record Principal := mkPrincipal { TenantID : string; KeyID : string; Policy : TenantPolicy }.

Record KeyRecord := mkRecord {
  kr_KeyID : string;
  kr_TenantID : string;
  kr_Prefix : string;
  SecretHash : list Z;
  KeyStatus : string;
  ExpiresAt : option Z;
  kr_Policy : TenantPolicy;
}.

(** [KeyRecord{}] *)
Definition noRecord : KeyRecord := mkRecord "" "" "" [] "" None (mkPolicy "" None 0 0 0 0).

(** ** Configuration. *)

Record Config := mkConfig {
  CacheTTL : Z;
  NegativeTTL : Z;
  CacheSize : Z;
  StaleGrace : Z;
  LookupTimeout : Z;
  RefreshWait : Z;
  MaxLookups : Z;
}.

Definition DefaultConfig : Config :=
  mkConfig (30 * Second) (5 * Second) 10000 (300 * Second) (3 * Second) (250 * Millisecond) 8.

Definition touchEvery : Z := 60 * Second.
Definition outageBackoff : Z := Second.

(** ** The state. *)

Record posEntry := mkPos { rec : KeyRecord; fetched : Time; lastTouch : option Time }.

Record flight := mkFlight { f_done : bool; f_res : KeyRecord + AuthErr }.

Record touchReq := mkTouch { keyID : string; touch_at : Time }.

Record Authenticator := mkAuth {
  a_cfg : Config;
  toucher : bool;
  pos : lru Z;
  neg : lru Time;
  entries : gmap Z posEntry;
  nextEntry : Z;
  flights : gmap (list Z) Z;
  flightHeap : gmap Z flight;
  nextFlight : Z;
  outage : bool;
  downUntil : option Time;
  touches : list touchReq;
  cacheHits : Z;
  cacheMisses : Z;
  reserve : Z;
  inflightRefresh : Z;
  inflightNew : Z;
  lastWarn : option Time;
  a_log : list string;
}.

#[global] Instance Authenticator_settable : Settable Authenticator :=
  {| eta_of := λ a, mkAuth (a_cfg a) (toucher a) (pos a) (neg a) (entries a) (nextEntry a) (flights a) (flightHeap a)
       (nextFlight a) (outage a) (downUntil a) (touches a) (cacheHits a) (cacheMisses a) (reserve a)
       (inflightRefresh a) (inflightNew a) (lastWarn a) (a_log a) |}.

Definition auth_defaults (cfg : Config) : Config :=
  let d := DefaultConfig in
  mkConfig
    (if CacheTTL cfg <=? 0 then CacheTTL d else CacheTTL cfg)
    (if NegativeTTL cfg <=? 0 then NegativeTTL d else NegativeTTL cfg)
    (if CacheSize cfg <=? 0 then CacheSize d else CacheSize cfg)
    (if StaleGrace cfg <? 0 then 0 else StaleGrace cfg)
    (if LookupTimeout cfg <=? 0 then LookupTimeout d else LookupTimeout cfg)
    (if RefreshWait cfg <=? 0 then RefreshWait d else RefreshWait cfg)
    (if MaxLookups cfg <? 2 then MaxLookups d else MaxLookups cfg).

Definition New (touching : bool) (cfg : Config) : Authenticator :=
  let cfg := auth_defaults cfg in
  mkAuth cfg touching (newLRU (CacheSize cfg)) (newLRU (CacheSize cfg)) ∅ 0 ∅ ∅ 0 false None [] 0 0
    (Z.max 1 (MaxLookups cfg ÷ 4)) 0 0 None [].

Definition CacheSizes (a : Authenticator) : Z * Z := (lru_len (pos a), lru_len (neg a)).

Definition CacheStats (a : Authenticator) : Z * Z := (cacheHits a, cacheMisses a).

Definition dummyHash : list Z := replicate hashLen 0.

(** [now.Sub(t)] and [now.Before(t)] for a time that may be unset. *)
Definition sinceOpt (now : Time) (t : option Time) : Z := match t with Some t => Sub now t | None => int64_max end.

Definition beforeOpt (now : Time) (t : option Time) : bool := match t with Some t => Before now t | None => false end.

(** ** The caches. *)

(** A fresh answer, an entry past its time but within the grace, or nothing. *)
Inductive Cached :=
| Hit (r : KeyRecord + AuthErr)
| Stale (e : Z)
| Miss.

Definition negLocked (a : Authenticator) (prefix : list Z) (now : Time) : Authenticator * Cached :=
  let '(ng, at_) := lru_get (neg a) prefix in
  let a := a <| neg := ng |> in
  match at_ with
  | Some t =>
      let age := Sub now t in
      if (age <? NegativeTTL (a_cfg a)) && (0 <=? age) then (a, Hit (inr ErrNotFound))
      else (a <| neg := lru_remove (neg a) prefix |>, Miss)
  | None => (a, Miss)
  end.

Definition cachedLocked (a : Authenticator) (prefix : list Z) (now : Time) : Authenticator * Cached :=
  let '(ps, e) := lru_get (pos a) prefix in
  let a := a <| pos := ps |> in
  match e with
  | Some p =>
      match entries a !! p with
      | Some e =>
          let age := Sub now (fetched e) in
          if (age <? CacheTTL (a_cfg a)) && (0 <=? age) then (a, Hit (inl (rec e)))
          else if (age <? CacheTTL (a_cfg a) +! StaleGrace (a_cfg a)) && (0 <=? age) then (a, Stale p)
          else negLocked (a <| pos := lru_remove (pos a) prefix |>) prefix now
      | None => negLocked a prefix now
      end
  | None => negLocked a prefix now
  end.

Definition stale_of (c : Cached) : option Z := match c with Stale p => Some p | _ => None end.

(** [record] up to [fetch]: the answer of the caches and whether the store is being left alone. *)
Definition record_locked (a : Authenticator) (prefix : list Z) (now : Time) : Authenticator * Cached * bool :=
  let '(a, c) := cachedLocked a prefix now in
  let down := beforeOpt now (downUntil a) in
  match c with
  | Hit _ => (a <| cacheHits := cacheHits a +! 1 |>, c, down)
  | _ => (a <| cacheMisses := cacheMisses a +! 1 |>, c, down)
  end.

Definition errDown : AuthErr := ErrUnavailable "the key store failed moments ago".
Definition errShed : AuthErr := ErrUnavailable "lookup capacity exhausted".
Definition errSlowRefresh : AuthErr := ErrUnavailable "the refresh is slow".

(** [record] after [fetch]. *)
Definition record_end (a : Authenticator) (stale : option Z) (r : KeyRecord + AuthErr) : KeyRecord + AuthErr :=
  match r with
  | inl _ | inr ErrNotFound | inr ErrBadRecord => r
  | inr err =>
      match stale with
      | Some p => match entries a !! p with Some e => inl (rec e) | None => inr err end
      | None => inr err
      end
  end.

(** ** Lookups. *)

(** What [fetch] does once it has the lock: answer, wait for a flight, or start one and wait. *)
Inductive Fetched :=
| Answer (r : KeyRecord + AuthErr)
| Wait (f : Z)
| Started (f : Z).

Definition fetch_locked (a : Authenticator) (prefix : list Z) (refresh : bool) (now : Time) : Authenticator * Fetched :=
  let '(a, c) := cachedLocked a prefix now in
  match c with
  | Hit r => (a, Answer r)
  | _ =>
      match flights a !! prefix with
      | Some f => if refresh then (a, Answer (inr errSlowRefresh)) else (a, Wait f)
      | None =>
          if (MaxLookups (a_cfg a) <=? inflightRefresh a +! inflightNew a) ||
             (negb refresh && (MaxLookups (a_cfg a) -! reserve a <=? inflightNew a))
          then (a, Answer (inr errShed))
          else
            let a := if refresh then a <| inflightRefresh := inflightRefresh a +! 1 |>
                     else a <| inflightNew := inflightNew a +! 1 |> in
            let f := nextFlight a in
            let a := a <| flightHeap := <[f := mkFlight false (inl noRecord)]> (flightHeap a) |> <| nextFlight := f + 1 |> in
            (a <| flights := <[prefix := f]> (flights a) |>, Started f)
      end
  end.

Definition warnLimited (a : Authenticator) (msg : string) (now : Time) : Authenticator :=
  if (sinceOpt now (lastWarn a) <? 10 * Second) && bool_decide (is_Some (lastWarn a)) then a
  else a <| lastWarn := Some now |> <| a_log := a_log a ++ [msg] |>.

Definition Authenticator_failed (a : Authenticator) : Authenticator :=
  if negb (outage a)
  then a <| outage := true |> <| a_log := a_log a ++ ["auth key store unavailable: serving cached keys within the grace period and refusing others"] |>
  else a.

Definition Authenticator_recovered (a : Authenticator) : Authenticator :=
  if outage a then a <| outage := false |> <| a_log := a_log a ++ ["auth key store recovered"] |> else a.

Definition err_text (e : AuthErr) : string := match e with ErrUnavailable s | ErrOther s => s | _ => "" end.

(** What the store's answer does to the caches and the outage state, and what the waiters get.
    [now] was read before the lock was taken, [noww] is the reading [warnLimited] takes. *)
Definition lookup_outcome (a : Authenticator) (prefix : list Z) (ans : KeyRecord + AuthErr) (now noww : Time) :
    Authenticator * (KeyRecord + AuthErr) :=
  match ans with
  | inl r =>
      let '(ps, old) := lru_get (pos a) prefix in
      let a := a <| pos := ps |> in
      let last := match old with Some p => match entries a !! p with Some e => lastTouch e | None => None end | None => None end in
      let p := nextEntry a in
      let a := a <| entries := <[p := mkPos r now last]> (entries a) |> <| nextEntry := p + 1 |> in
      let a := a <| pos := lru_put (pos a) prefix p |> in
      let a := a <| neg := lru_remove (neg a) prefix |> in
      ((Authenticator_recovered a) <| downUntil := None |>, inl r)
  | inr ErrNotFound =>
      let a := a <| pos := lru_remove (pos a) prefix |> in
      let a := a <| neg := lru_put (neg a) prefix now |> in
      ((Authenticator_recovered a) <| downUntil := None |>, inr ErrNotFound)
  | inr ErrBadRecord =>
      let a := warnLimited a "auth key store returned a record it could not read; that key is refused" noww in
      ((Authenticator_recovered a) <| downUntil := None |>, inr ErrBadRecord)
  | inr ErrBusy =>
      let a := warnLimited a "auth key store is busy; some keys cannot be verified right now" noww in
      (a, inr (ErrUnavailable "the key store is busy"))
  | inr err =>
      let a := Authenticator_failed a in
      (a <| downUntil := Some (Add now outageBackoff) |>, inr (ErrUnavailable (err_text err)))
  end.

(** The part of [lookup] under the lock. *)
Definition lookup_locked (a : Authenticator) (prefix : list Z) (f : Z) (refresh : bool) (ans : KeyRecord + AuthErr) (now noww : Time) : Authenticator :=
  let a := a <| flights := delete prefix (flights a) |> in
  let a := if refresh then a <| inflightRefresh := inflightRefresh a -! 1 |>
           else a <| inflightNew := inflightNew a -! 1 |> in
  let '(a, r) := lookup_outcome a prefix ans now noww in
  a <| flightHeap := alter (λ x, mkFlight (f_done x) r) f (flightHeap a) |>.

(** [close(f.done)] *)
Definition close_flight (a : Authenticator) (f : Z) : Authenticator :=
  a <| flightHeap := alter (λ x, mkFlight true (f_res x)) f (flightHeap a) |>.

(** Which case of [await]'s select fires. *)
Inductive Wake := WDone | WCtx (why : string) | WBudget.

Definition await (a : Authenticator) (f : Z) (refresh : bool) (w : Wake) : option (KeyRecord + AuthErr) :=
  match w with
  | WDone => match flightHeap a !! f with Some x => if f_done x then Some (f_res x) else None | None => None end
  | WCtx why => Some (inr (ErrUnavailable why))
  | WBudget => if refresh then Some (inr errSlowRefresh) else None
  end.

(** ** Use of a key. *)

(** The part of [noteUse] under the lock: whether a request is to be queued. *)
Definition noteUse_locked (a : Authenticator) (prefix : list Z) (now : Time) : Authenticator * bool :=
  if negb (toucher a) then (a, false) else
  let '(ps, e) := lru_get (pos a) prefix in
  let a := a <| pos := ps |> in
  match e with
  | None => (a, false)
  | Some p =>
      match entries a !! p with
      | None => (a, false)
      | Some e =>
          if sinceOpt now (lastTouch e) <? touchEvery then (a, false)
          else (a <| entries := <[p := mkPos (rec e) (fetched e) (Some now)]> (entries a) |>, true)
      end
  end.

(** The channel holds 256 requests; a full one drops this one. *)
Definition queue_touch (a : Authenticator) (id : string) (now : Time) : Authenticator :=
  if (length (touches a) <? 256)%nat then a <| touches := touches a ++ [mkTouch id now] |> else a.

(** [Run]'s receive. *)
Definition next_touch (a : Authenticator) : option (touchReq * Authenticator) :=
  match touches a with
  | [] => None
  | t :: ts => if toucher a then Some (t, a <| touches := ts |>) else None
  end.

(** [Authenticate] once it has the record's answer: the caller, or the error. *)
Definition judge (hash : list Z) (r : KeyRecord + AuthErr) (now : Time) : KeyRecord + AuthErr :=
  match r with
  | inr ErrNotFound => let _ := HashesEqual hash dummyHash in inr ErrInvalid
  | inr err => inr err
  | inl r =>
      if negb (HashesEqual hash (SecretHash r)) then inr ErrInvalid
      else if negb (String.eqb (KeyStatus r) KeyActive) then inr ErrRevoked
      else if match ExpiresAt r with Some t => negb (wall now <? t) | None => false end then inr ErrExpired
      else if negb (String.eqb (tp_Status (kr_Policy r)) TenantActive) then inr ErrSuspended
      else inl r
  end.

(** ** Goroutines. *)

(** A request goroutine, at the points between the pieces above. *)
Inductive pc :=
| AtRecord (prefix hash : list Z) (now : Time)
| AtFetch (prefix hash : list Z) (stale : option Z)
| AtAwait (prefix hash : list Z) (stale : option Z) (f : Z) (refresh : bool)
| AtJudge (prefix hash : list Z) (r : KeyRecord + AuthErr)
| AtNote (prefix : list Z) (r : KeyRecord) (now : Time)
| AtTouch (r : KeyRecord) (now : Time)
| Done (r : Principal + AuthErr).

Definition principal (r : KeyRecord) : Principal := mkPrincipal (kr_TenantID r) (kr_KeyID r) (kr_Policy r).

(** [Authenticate] up to [record]'s reading of the clock. *)
Definition Authenticate_begin (bearer : list Z) (now : Time) : pc :=
  match ParseKey bearer with
  | None => Done (inr ErrInvalid)
  | Some (prefix, hash) => AtRecord prefix hash now
  end.

(** The next piece of a request goroutine: the new state, the new point, and the flight for
    which it starts a lookup goroutine.  [w] is the case of [await]'s select, where it waits. *)
Definition request_step (a : Authenticator) (clock : Time) (w : Wake) (p : pc) : option (Authenticator * pc * option (Z * list Z * bool)) :=
  match p with
  | AtRecord prefix hash now =>
      let '(a, c, down) := record_locked a prefix now in
      match c with
      | Hit r => Some (a, AtJudge prefix hash r, None)
      | _ =>
          if down then Some (a, AtJudge prefix hash (record_end a (stale_of c) (inr errDown)), None)
          else Some (a, AtFetch prefix hash (stale_of c), None)
      end
  | AtFetch prefix hash stale =>
      let refresh := bool_decide (is_Some stale) in
      match fetch_locked a prefix refresh clock with
      | (a, Answer r) => Some (a, AtJudge prefix hash (record_end a stale r), None)
      | (a, Wait f) => Some (a, AtAwait prefix hash stale f false, None)
      | (a, Started f) => Some (a, AtAwait prefix hash stale f refresh, Some (f, prefix, refresh))
      end
  | AtAwait prefix hash stale f refresh =>
      match await a f refresh w with
      | Some r => Some (a, AtJudge prefix hash (record_end a stale r), None)
      | None => None
      end
  | AtJudge prefix hash r =>
      match judge hash r clock with
      | inr err => Some (a, Done (inr err), None)
      | inl r => Some (a, AtNote prefix r clock, None)
      end
  | AtNote prefix r now =>
      let '(a, q) := noteUse_locked a prefix now in
      Some (a, if q then AtTouch r now else Done (inl (principal r)), None)
  | AtTouch r now => Some (queue_touch a (kr_KeyID r) now, Done (inl (principal r)), None)
  | Done _ => None
  end.

(** A lookup goroutine: it has asked the store, has its answer, has read the clock, or is about
    to close its flight's channel. *)
Inductive lpc :=
| Asking (prefix : list Z) (refresh : bool)
| Answered (prefix : list Z) (refresh : bool) (ans : KeyRecord + AuthErr)
| Recording (prefix : list Z) (refresh : bool) (ans : KeyRecord + AuthErr) (now : Time)
| Closing.

(** An answer of the store: when it came, for which prefix, and what it was. *)
Record StoreAnswer := mkAnswer { sa_at : Time; sa_prefix : list Z; sa_ans : KeyRecord + AuthErr }.

(** The same when a lookup goroutine takes note of it, holding the lock. *)
Record Noted := mkNoted { no_at : Time; no_prefix : list Z; no_ans : KeyRecord + AuthErr }.

(** The whole: the authenticator, the clock and the goroutines; and what happened: which key each
    request presented and when, the store's answers and their noting, the last first. *)
Record Sys := mkSys {
  sy_a : Authenticator;
  sy_clock : Time;
  sy_reqs : gmap Z pc;
  sy_looks : gmap Z lpc;
  sy_born : gmap Z (list Z * Time);
  sy_answers : list StoreAnswer;
  sy_noted : list Noted;
}.

#[global] Instance Sys_settable : Settable Sys :=
  {| eta_of := λ s, mkSys (sy_a s) (sy_clock s) (sy_reqs s) (sy_looks s) (sy_born s) (sy_answers s) (sy_noted s) |}.

Definition sys_init (touching : bool) (cfg : Config) (clock : Time) : Sys := mkSys (New touching cfg) clock ∅ ∅ ∅ [] [].

(** The next piece of the lookup goroutine of flight [f], where the store has answered. *)
Definition lookup_step (s : Sys) (f : Z) : option Sys :=
  match sy_looks s !! f with
  | Some (Answered prefix refresh ans) => Some (s <| sy_looks := <[f := Recording prefix refresh ans (sy_clock s)]> (sy_looks s) |>)
  | Some (Recording prefix refresh ans now) =>
      Some (s <| sy_a := lookup_locked (sy_a s) prefix f refresh ans now (sy_clock s) |> <| sy_looks := <[f := Closing]> (sy_looks s) |>
              <| sy_noted := mkNoted (sy_clock s) prefix ans :: sy_noted s |>)
  | Some Closing => Some (s <| sy_a := close_flight (sy_a s) f |> <| sy_looks := delete f (sy_looks s) |>)
  | _ => None
  end.

(** What may happen next: time passes, a key is presented, a goroutine moves, the store answers,
    [Run] takes a request. *)
Inductive event :=
| Tick (now : Time)
| Present (id : Z) (bearer : list Z)
| Request (id : Z) (w : Wake)
| Store (f : Z) (ans : KeyRecord + AuthErr)
| Look (f : Z)
| Touch.

Definition sys_step (s : Sys) (e : event) : option Sys :=
  match e with
  | Tick now =>
      if (wall (sy_clock s) <=? wall now) && (mono (sy_clock s) <=? mono now) then Some (s <| sy_clock := now |>) else None
  | Present id bearer =>
      match sy_reqs s !! id with
      | Some _ => None
      | None =>
          Some (s <| sy_reqs := <[id := Authenticate_begin bearer (sy_clock s)]> (sy_reqs s) |>
                  <| sy_born := <[id := (bearer, sy_clock s)]> (sy_born s) |>)
      end
  | Request id w =>
      match sy_reqs s !! id with
      | None => None
      | Some p =>
          match request_step (sy_a s) (sy_clock s) w p with
          | None => None
          | Some (a, p, started) =>
              let s := s <| sy_a := a |> <| sy_reqs := <[id := p]> (sy_reqs s) |> in
              match started with
              | None => Some s
              | Some (f, prefix, refresh) => Some (s <| sy_looks := <[f := Asking prefix refresh]> (sy_looks s) |>)
              end
          end
      end
  | Store f ans =>
      match sy_looks s !! f with
      | Some (Asking prefix refresh) =>
          Some (s <| sy_looks := <[f := Answered prefix refresh ans]> (sy_looks s) |>
                  <| sy_answers := mkAnswer (sy_clock s) prefix ans :: sy_answers s |>)
      | _ => None
      end
  | Look f => lookup_step s f
  | Touch => match next_touch (sy_a s) with Some (_, a) => Some (s <| sy_a := a |>) | None => None end
  end.

Fixpoint sys_run (s : Sys) (es : list event) : option Sys :=
  match es with
  | [] => Some s
  | e :: es => match sys_step s e with Some s => sys_run s es | None => None end
  end.
