(* ===== verification/AuthSpec.v ===== *)
(** * What the authenticator guarantees

    The theorems are about every interleaving of requests, lookups, store answers and the clock
    ([sys_run] from [sys_init]).  [core] is the invariant of the shared state and the lookup
    goroutines, [req_ok] what holds of a request at each point; [told] says that an answer about
    a prefix was noted recently enough and is not superseded by one noted before the request. *)

From S2P Require Import Prelude GoString Sha256 AuthKey Lru Auth.

Local Open Scope string_scope.
Local Open Scope list_scope.
Local Open Scope Z_scope.
Local Open Scope go_scope.

(** ** What was noted. *)

(** The answers that say what a key is. *)
Definition definite (r : KeyRecord + AuthErr) : bool := match r with inl _ | inr ErrNotFound => true | _ => false end.

(** [ans] is the last definite answer noted about [k], and was noted after [t] was read. *)
Definition latest (rs : list Noted) (k : list Z) (ans : KeyRecord + AuthErr) (t : Time) : Prop :=
  ∃ newer x older, rs = newer ++ x :: older ∧ no_prefix x = k ∧ no_ans x = ans ∧ mono t ≤ mono (no_at x) ∧
    ∀ y, y ∈ newer → no_prefix y = k → definite (no_ans y) = false.

(** [ans] was noted about [k] less than [lim] before [b], or later, and no definite answer about
    [k] came between it and [b]. *)
Definition told (rs : list Noted) (k : list Z) (b : Time) (lim : Z) (ans : KeyRecord + AuthErr) : Prop :=
  ∃ newer x older, rs = newer ++ x :: older ∧ no_prefix x = k ∧ no_ans x = ans ∧ mono b - mono (no_at x) < lim ∧
    ∀ y, y ∈ newer → no_prefix y = k → definite (no_ans y) = true → mono b ≤ mono (no_at y).

Lemma latest_told rs k ans t b now lim : latest rs k ans t → mono b ≤ mono now → 0 ≤ Sub now t < lim → lim ≤ int64_max →
  told rs k b lim ans.
Proof.
  intros (newer & x & older & -> & Hk & Ha & Ht & Hn) Hb Hs Hl. exists newer, x, older. split_and!; [done..| |].
  - unfold Sub in Hs. lia.
  - intros y Hy Hyk Hd. by rewrite (Hn y Hy Hyk) in Hd.
Qed.

Lemma told_weaken rs k b lim lim' ans : told rs k b lim ans → lim ≤ lim' → told rs k b lim' ans.
Proof. intros (newer & x & older & H1 & H2 & H3 & H4 & H5) Hl. exists newer, x, older. split_and!; [done..|lia|done]. Qed.

Lemma told_cons rs k b lim ans z : told rs k b lim ans → mono b ≤ mono (no_at z) → told (z :: rs) k b lim ans.
Proof.
  intros (newer & x & older & -> & H2 & H3 & H4 & H5) Hz. exists (z :: newer), x, older. split_and!; [done..|].
  intros y [->|Hy]%elem_of_cons; auto.
Qed.

Lemma told_now rs k b lim ans z : no_prefix z = k → no_ans z = ans → mono b ≤ mono (no_at z) → 0 < lim → told (z :: rs) k b lim ans.
Proof. intros. exists [], z, rs. split_and!; [done..|lia|]. by intros y ?%elem_of_nil. Qed.

Lemma latest_cons rs k ans t z : latest rs k ans t → (no_prefix z = k → definite (no_ans z) = false) → latest (z :: rs) k ans t.
Proof.
  intros (newer & x & older & -> & H2 & H3 & H4 & H5) Hz. exists (z :: newer), x, older. split_and!; [done..|].
  intros y [->|Hy]%elem_of_cons; auto.
Qed.

Lemma latest_now rs k ans t z : no_prefix z = k → no_ans z = ans → mono t ≤ mono (no_at z) → latest (z :: rs) k ans t.
Proof. intros. exists [], z, rs. split_and!; [done..|]. by intros y ?%elem_of_nil. Qed.

(** ** Lookups in flight. *)

(** The prefix and kind of a lookup that holds a slot. *)
Definition is_open (l : lpc) : option (list Z * bool) :=
  match l with
  | Asking k r | Answered k r _ | Recording k r _ _ => Some (k, r)
  | Closing => None
  end.

Definition of_kind (r : bool) (l : lpc) : Z := if decide (snd <$> is_open l = Some r) then 1 else 0.

(** How many lookups of a kind hold a slot. *)
Definition n_open (r : bool) (m : gmap Z lpc) : Z := Z.of_nat (size (filter (λ kv : Z * lpc, snd <$> is_open kv.2 = Some r) m)).

Lemma of_kind_eq q l : of_kind q l = match is_open l with Some (_, r) => if Bool.eqb r q then 1 else 0 | None => 0 end.
Proof. unfold of_kind. destruct l as [? []|? [] ?|? [] ? ?|], q; reflexivity. Qed.

Lemma n_open_insert r m f l : n_open r (<[f := l]> m) = n_open r (delete f m) + of_kind r l.
Proof.
  unfold n_open, of_kind. rewrite <- insert_delete_eq, map_filter_insert. cbn [snd]. case_decide as Hk.
  - rewrite map_size_insert_None by (rewrite map_lookup_filter_None; left; apply lookup_delete_eq). lia.
  - rewrite delete_delete_eq. lia.
Qed.

Lemma n_open_lookup r m f l : m !! f = Some l → n_open r m = n_open r (delete f m) + of_kind r l.
Proof. intros Hf. rewrite <- n_open_insert. by rewrite insert_id. Qed.

Lemma n_open_fresh r m f l : m !! f = None → n_open r (<[f := l]> m) = n_open r m + of_kind r l.
Proof. intros Hf. rewrite n_open_insert. by rewrite delete_id. Qed.

Lemma n_open_move r m f l l' : m !! f = Some l → is_open l' = is_open l → n_open r (<[f := l']> m) = n_open r m.
Proof. intros Hf Hl. rewrite n_open_insert, (n_open_lookup r m f l Hf). unfold of_kind. by rewrite Hl. Qed.

Lemma n_open_nonneg r m : 0 ≤ n_open r m.
Proof. unfold n_open. lia. Qed.

(** ** The caches. *)

Record caches (a : Authenticator) (rs : list Noted) : Prop := {
  c_pos_ok : lru_ok (pos a);
  c_neg_ok : lru_ok (neg a);
  c_pos_max : lru_max (pos a) = CacheSize (a_cfg a);
  c_neg_max : lru_max (neg a) = CacheSize (a_cfg a);
  c_pos : ∀ k p, lru_lookup (pos a) k = Some p → ∃ e, entries a !! p = Some e ∧ latest rs k (inl (rec e)) (fetched e);
  c_neg : ∀ k t, lru_lookup (neg a) k = Some t → latest rs k (inr ErrNotFound) t;
  c_entries : ∀ p e, entries a !! p = Some e → p < nextEntry a
}.

(** [a'] has the caches [ps] and [ng], which hold nothing that those of [a] did not. *)
Definition shrunk (a : Authenticator) (ps : lru Z) (ng : lru Time) : Prop :=
  lru_ok ps ∧ lru_ok ng ∧ lru_max ps = lru_max (pos a) ∧ lru_max ng = lru_max (neg a) ∧
  (∀ k v, lru_lookup ps k = Some v → lru_lookup (pos a) k = Some v) ∧
  (∀ k v, lru_lookup ng k = Some v → lru_lookup (neg a) k = Some v).

Lemma shrunk_caches a ps ng rs : caches a rs → shrunk a ps ng → caches (a <| pos := ps |> <| neg := ng |>) rs.
Proof.
  intros C (S1 & S2 & S3 & S4 & S5 & S6). split; cbn; [done|done|rewrite S3; apply C|rewrite S4; apply C| | |apply C].
  - intros k p Hp. by apply (c_pos _ _ C), S5.
  - intros k t Ht. by apply (c_neg _ _ C), S6.
Qed.

(** What an answer of the caches rests on. *)
Definition cached_by (a : Authenticator) (k : list Z) (now : Time) (c : Cached) : Prop :=
  match c with
  | Hit (inl r) => ∃ p e, lru_lookup (pos a) k = Some p ∧ entries a !! p = Some e ∧ r = rec e ∧ 0 ≤ Sub now (fetched e) < CacheTTL (a_cfg a)
  | Hit (inr er) => er = ErrNotFound ∧ ∃ t, lru_lookup (neg a) k = Some t ∧ 0 ≤ Sub now t < NegativeTTL (a_cfg a)
  | Stale p => ∃ e, lru_lookup (pos a) k = Some p ∧ entries a !! p = Some e ∧
      0 ≤ Sub now (fetched e) < CacheTTL (a_cfg a) +! StaleGrace (a_cfg a)
  | Miss => True
  end.

Lemma get_shrinks {V} (c : lru V) k : lru_ok c →
  lru_ok (lru_get c k).1 ∧ lru_max (lru_get c k).1 = lru_max c ∧ ∀ k' v, lru_lookup (lru_get c k).1 k' = Some v → lru_lookup c k' = Some v.
Proof. intros W. destruct (get_refines c k W) as (H1 & H2 & _). split_and!; [done|done|]. intros k' v. by rewrite get_lookup. Qed.

Lemma remove_shrinks {V} (c : lru V) k : lru_ok c →
  lru_ok (lru_remove c k) ∧ lru_max (lru_remove c k) = lru_max c ∧ ∀ k' v, lru_lookup (lru_remove c k) k' = Some v → lru_lookup c k' = Some v.
Proof.
  intros W. destruct (remove_refines c k W) as (H1 & H2 & _). split_and!; [done|done|]. intros k' v. rewrite remove_lookup. by case_decide.
Qed.

Lemma negLocked_spec a k now a' c : lru_ok (pos a) → lru_ok (neg a) → negLocked a k now = (a', c) →
  ∃ ng, a' = a <| neg := ng |> ∧ shrunk a (pos a) ng ∧ cached_by a k now c.
Proof.
  intros Wp Wn. unfold negLocked. pose proof (get_value (neg a) k) as Hv. destruct (get_shrinks (neg a) k Wn) as (G1 & G2 & G3).
  destruct (lru_get (neg a) k) as [ng at_]. cbn [fst snd] in *. subst at_.
  assert (Hs : shrunk a (pos a) ng) by (by split_and!).
  destruct (lru_lookup (neg a) k) as [t|] eqn:Ht; [|by intros [= <- <-]; exists ng]. cbn.
  destruct (_ && _) eqn:Ha; intros [= <- <-].
  - exists ng. split_and!; [done|done|]. cbn. split; [done|]. exists t. split; [done|]. lia.
  - destruct (remove_shrinks ng k G1) as (R1 & R2 & R3). exists (lru_remove ng k). split_and!; [done| |done].
    split_and!; [done|done|done|by rewrite R2|done|]. intros k' v Hk. by apply G3, R3.
Qed.

Lemma cachedLocked_spec a k now a' c rs : caches a rs → cachedLocked a k now = (a', c) →
  ∃ ps ng, a' = a <| pos := ps |> <| neg := ng |> ∧ shrunk a ps ng ∧ cached_by a k now c.
Proof.
  intros C. unfold cachedLocked. pose proof (get_value (pos a) k) as Hv.
  destruct (get_shrinks (pos a) k (c_pos_ok _ _ C)) as (G1 & G2 & G3). pose proof (c_neg_ok _ _ C) as Wn.
  destruct (lru_get (pos a) k) as [ps pe]. cbn [fst snd] in *. subst pe.
  assert (Hs : shrunk a ps (neg a)) by (by split_and!).
  assert (Hneg : ∀ ps', lru_ok ps' → lru_max ps' = lru_max (pos a) → (∀ k' v, lru_lookup ps' k' = Some v → lru_lookup (pos a) k' = Some v) →
     negLocked (a <| pos := ps' |>) k now = (a', c) → ∃ ps ng, a' = a <| pos := ps |> <| neg := ng |> ∧ shrunk a ps ng ∧ cached_by a k now c).
  { intros ps' Wp Hm Hl Hn. apply negLocked_spec in Hn as (ng & -> & (N1 & N2 & N3 & N4 & N5 & N6) & Hc); [|exact Wp|exact Wn].
    exists ps', ng. split_and!; [done| |]; [by split_and!|]. destruct c as [[r|er]|p|]; cbn in Hc |- *; [|done| |done].
    - destruct Hc as (p & e & Hp & He). exists p, e. split; [by apply Hl|done].
    - destruct Hc as (e & Hp & He). exists e. split; [by apply Hl|done]. }
  destruct (lru_lookup (pos a) k) as [p|] eqn:Hp; [|by apply Hneg]. destruct (c_pos _ _ C _ _ Hp) as (e & He & _). cbn. rewrite He.
  destruct (_ && _) eqn:Ha; [intros [= <- <-]; exists ps, (neg a); split_and!; [done|done|]; cbn; exists p, e; split_and!; [done..|lia|lia]|].
  destruct (_ <? _ +! _) eqn:Hb; cbn [andb]; [destruct (0 <=? _) eqn:Hz|].
  - intros [= <- <-]. exists ps, (neg a). split_and!; [done|done|]. cbn. exists e. split_and!; [done|done|lia|lia].
  - destruct (remove_shrinks ps k G1) as (R1 & R2 & R3). apply Hneg; [done|by rewrite R2|]. intros k' v Hk. by apply G3, R3.
  - destruct (remove_shrinks ps k G1) as (R1 & R2 & R3). apply Hneg; [done|by rewrite R2|]. intros k' v Hk. by apply G3, R3.
Qed.

(** ** The invariant. *)

(** The durations and counts of a configuration are 64-bit integers. *)
Record config_int (cfg : Config) : Prop := {
  ci_ttl : CacheTTL cfg ≤ int64_max;
  ci_neg : NegativeTTL cfg ≤ int64_max;
  ci_grace : StaleGrace cfg ≤ int64_max;
  ci_max : MaxLookups cfg ≤ int64_max
}.

(** Lookup slots kept for refreshes. *)
Definition reserved (c : Config) : Z := Z.max 1 (MaxLookups c ÷ 4).

(** How long a noted record may be relied on. *)
Definition trust (c : Config) : Z := CacheTTL c + StaleGrace c.

Lemma defaults_range cfg : config_int cfg → let c := auth_defaults cfg in
  0 < CacheTTL c ≤ int64_max ∧ 0 < NegativeTTL c ≤ int64_max ∧ 0 ≤ StaleGrace c ≤ int64_max ∧ 1 ≤ CacheSize c ∧
  2 ≤ MaxLookups c ≤ int64_max ∧ 1 ≤ reserved c < MaxLookups c.
Proof.
  intros [H1 H2 H3 H4]. unfold reserved. cbn. change int64_max with 9223372036854775807 in *.
  assert (Hm : 2 ≤ (if MaxLookups cfg <? 2 then 8 else MaxLookups cfg) ≤ 9223372036854775807) by (bdestr; lia).
  set (m := if MaxLookups cfg <? 2 then 8 else MaxLookups cfg) in *. clearbody m.
  unfold Second, Millisecond. split_and!; try (bdestr; lia); try lia. Z.to_euclidean_division_equations; lia.
Qed.

Section spec.
Context (touching : bool) (cfg : Config) (cfg_int : config_int cfg).

Notation conf := (auth_defaults cfg).
Notation max_new := (MaxLookups conf - reserved conf).

Definition answered (s : Sys) (l : lpc) : Prop :=
  match l with
  | Answered k _ ans => ∃ y, y ∈ sy_answers s ∧ sa_prefix y = k ∧ sa_ans y = ans
  | Recording k _ ans now =>
      mono now ≤ mono (sy_clock s) ∧ ∃ y, y ∈ sy_answers s ∧ sa_prefix y = k ∧ sa_ans y = ans ∧ mono (sa_at y) ≤ mono now
  | _ => True
  end.

Record core (s : Sys) : Prop := {
  k_cfg : a_cfg (sy_a s) = conf;
  k_res : reserve (sy_a s) = reserved conf;
  k_caches : caches (sy_a s) (sy_noted s);
  k_flights : ∀ k f, flights (sy_a s) !! k = Some f ↔ ∃ l, sy_looks s !! f = Some l ∧ fst <$> is_open l = Some k;
  k_looks : ∀ f l, sy_looks s !! f = Some l → (∃ x, flightHeap (sy_a s) !! f = Some x ∧ f_done x = false) ∧ answered s l;
  k_heap : ∀ f x, flightHeap (sy_a s) !! f = Some x → f < nextFlight (sy_a s) ∧ (sy_looks s !! f = None → f_done x = true);
  k_refresh : inflightRefresh (sy_a s) = n_open true (sy_looks s);
  k_new : inflightNew (sy_a s) = n_open false (sy_looks s);
  k_total : n_open true (sy_looks s) + n_open false (sy_looks s) ≤ MaxLookups conf;
  k_new_max : n_open false (sy_looks s) ≤ max_new;
  k_noted : ∀ x, x ∈ sy_noted s → mono (no_at x) ≤ mono (sy_clock s) ∧
    ∃ y, y ∈ sy_answers s ∧ sa_prefix y = no_prefix x ∧ sa_ans y = no_ans x ∧ mono (sa_at y) ≤ mono (no_at x);
  k_answers : ∀ y, y ∈ sy_answers s → mono (sa_at y) ≤ mono (sy_clock s)
}.

(** What a request may have been given for its prefix. *)
Definition res_ok (rs : list Noted) (k : list Z) (b : Time) (r : KeyRecord + AuthErr) : Prop :=
  match r with
  | inl r => told rs k b (trust conf) (inl r)
  | inr ErrNotFound => told rs k b (NegativeTTL conf) (inr ErrNotFound)
  | inr ErrBadRecord => told rs k b 1 (inr ErrBadRecord)
  | inr (ErrUnavailable _) => True
  | inr _ => False
  end.

Definition stale_ok (s : Sys) (k : list Z) (b : Time) (stale : option Z) : Prop :=
  ∀ p, stale = Some p → ∃ e, entries (sy_a s) !! p = Some e ∧ told (sy_noted s) k b (trust conf) (inl (rec e)).

(** A flight that a request for [k] waits for is that of [k], or has a result for it. *)
Definition await_ok (s : Sys) (k : list Z) (b : Time) (f : Z) : Prop :=
  ∃ x, flightHeap (sy_a s) !! f = Some x ∧
    match sy_looks s !! f ≫= is_open with
    | Some (k', _) => k' = k
    | None => res_ok (sy_noted s) k b (f_res x)
    end.

Definition expired (r : KeyRecord) (now : Time) : bool :=
  match ExpiresAt r with Some t => negb (wall now <? t) | None => false end.

(** Why a request that presented [bearer] at [b] may end with [r]. *)
Definition justified (s : Sys) (bearer : list Z) (b : Time) (r : Principal + AuthErr) : Prop :=
  let parsed k h := ParseKey bearer = Some (k, h) in
  let known k kr := told (sy_noted s) k b (trust conf) (inl kr) in
  let during now := clock_le b now ∧ clock_le now (sy_clock s) in
  match r with
  | inl p => ∃ k h kr now, parsed k h ∧ known k kr ∧ during now ∧ h = SecretHash kr ∧ KeyStatus kr = KeyActive ∧
      expired kr now = false ∧ tp_Status (kr_Policy kr) = TenantActive ∧ p = principal kr
  | inr ErrInvalid => ParseKey bearer = None ∨ ∃ k h, parsed k h ∧
      (told (sy_noted s) k b (NegativeTTL conf) (inr ErrNotFound) ∨ ∃ kr, known k kr ∧ h ≠ SecretHash kr)
  | inr ErrRevoked => ∃ k h kr, parsed k h ∧ known k kr ∧ h = SecretHash kr ∧ KeyStatus kr ≠ KeyActive
  | inr ErrExpired => ∃ k h kr now, parsed k h ∧ known k kr ∧ during now ∧ h = SecretHash kr ∧ KeyStatus kr = KeyActive ∧ expired kr now = true
  | inr ErrSuspended => ∃ k h kr, parsed k h ∧ known k kr ∧ h = SecretHash kr ∧ KeyStatus kr = KeyActive ∧ tp_Status (kr_Policy kr) ≠ TenantActive
  | inr ErrBadRecord => ∃ k h, parsed k h ∧ told (sy_noted s) k b 1 (inr ErrBadRecord)
  | inr (ErrUnavailable _) => ∃ k h, parsed k h
  | inr _ => False
  end.

Definition req_ok (s : Sys) (bearer : list Z) (b : Time) (p : pc) : Prop :=
  match p with
  | AtRecord k h now => ParseKey bearer = Some (k, h) ∧ now = b
  | AtFetch k h st => ParseKey bearer = Some (k, h) ∧ stale_ok s k b st
  | AtAwait k h st f _ => ParseKey bearer = Some (k, h) ∧ stale_ok s k b st ∧ await_ok s k b f
  | AtJudge k h r => ParseKey bearer = Some (k, h) ∧ res_ok (sy_noted s) k b r
  | AtNote _ r _ | AtTouch r _ => justified s bearer b (inl (principal r))
  | Done r => justified s bearer b r
  end.

Definition inv (s : Sys) : Prop :=
  core s ∧ ∀ id p, sy_reqs s !! id = Some p →
    ∃ bearer b, sy_born s !! id = Some (bearer, b) ∧ clock_le b (sy_clock s) ∧ req_ok s bearer b p.

(** ** How a step may change what a request rests on. *)

Record evolves (s s' : Sys) : Prop := {
  e_clock : clock_le (sy_clock s) (sy_clock s');
  e_entries : ∀ p e, entries (sy_a s) !! p = Some e → ∃ e', entries (sy_a s') !! p = Some e' ∧ rec e' = rec e;
  e_noted : sy_noted s' = sy_noted s ∨ ∃ z, sy_noted s' = z :: sy_noted s ∧ mono (sy_clock s) ≤ mono (no_at z);
  e_await : ∀ k b f, clock_le b (sy_clock s) → await_ok s k b f → await_ok s' k b f
}.

Lemma told_evolves s s' k b lim ans : evolves s s' → clock_le b (sy_clock s) → told (sy_noted s) k b lim ans → told (sy_noted s') k b lim ans.
Proof. intros E [_ Hb] Ht. destruct (e_noted _ _ E) as [->|(z & -> & Hz)]; [done|]. apply told_cons; [done|lia]. Qed.

Lemma res_evolves s s' k b r : evolves s s' → clock_le b (sy_clock s) → res_ok (sy_noted s) k b r → res_ok (sy_noted s') k b r.
Proof. intros E Hb. destruct r as [r|[]]; cbn; try done; by apply told_evolves. Qed.

Lemma justified_evolves s s' bearer b r : evolves s s' → clock_le b (sy_clock s) → justified s bearer b r → justified s' bearer b r.
Proof.
  intros E Hb. pose proof (e_clock _ _ E) as Hc. assert (Ht := λ k lim ans, told_evolves s s' k b lim ans E Hb).
  assert (Hd : ∀ now, clock_le now (sy_clock s) → clock_le now (sy_clock s')) by (intros; by eapply clock_le_trans).
  destruct r as [p|[]]; cbn; try naive_solver. 
Qed.

Lemma req_evolves s s' bearer b p : evolves s s' → clock_le b (sy_clock s) → req_ok s bearer b p → req_ok s' bearer b p.
Proof.
  intros E Hb.
  assert (Hst : ∀ k st, stale_ok s k b st → stale_ok s' k b st).
  { intros k st Hs p' Hp. destruct (Hs p' Hp) as (e & He & Ht). destruct (e_entries _ _ E _ _ He) as (e' & He' & Hr).
    exists e'. split; [done|]. rewrite Hr. by apply (told_evolves s s'). }
  destruct p; cbn [req_ok].
  - done.
  - intros [? ?]; auto.
  - intros (? & ? & ?). split_and!; auto. by apply (e_await _ _ E).
  - intros [? ?]. split; [done|]. by apply (res_evolves s s').
  - by apply (justified_evolves s s').
  - by apply (justified_evolves s s').
  - by apply (justified_evolves s s').
Qed.

(** ** Steps that leave the lookups alone. *)

Record local_step (rs : list Noted) (a a' : Authenticator) : Prop := {
  l_cfg : a_cfg a' = a_cfg a;
  l_res : reserve a' = reserve a;
  l_flights : flights a' = flights a;
  l_heap : flightHeap a' = flightHeap a;
  l_next : nextFlight a' = nextFlight a;
  l_refresh : inflightRefresh a' = inflightRefresh a;
  l_new : inflightNew a' = inflightNew a;
  l_caches : caches a' rs;
  l_entries : ∀ p e, entries a !! p = Some e → ∃ e', entries a' !! p = Some e' ∧ rec e' = rec e
}.

Lemma core_reqs s rq bn : core s → core (s <| sy_reqs := rq |> <| sy_born := bn |>).
Proof. intros []. by split. Qed.

Lemma core_local s a' : core s → local_step (sy_noted s) (sy_a s) a' → core (s <| sy_a := a' |>).
Proof.
  intros [] []. split; cbn; [congruence|congruence|done| | | |congruence|congruence|done..].
  - intros k f. rewrite l_flights0. apply k_flights0.
  - intros f l Hl. rewrite l_heap0. by apply k_looks0.
  - intros f x. rewrite l_heap0, l_next0. apply k_heap0.
Qed.

Lemma evolves_local s a' : local_step (sy_noted s) (sy_a s) a' → evolves s (s <| sy_a := a' |>).
Proof.
  intros L. split; cbn; [apply clock_le_refl|apply L|by left|]. intros k b f _ (x & Hx & Hr). exists x. split; [|done].
  cbn. by rewrite (l_heap _ _ _ L).
Qed.

Lemma local_shrunk rs a ps ng : caches a rs → shrunk a ps ng → local_step rs a (a <| pos := ps |> <| neg := ng |>).
Proof. intros C Hs. split; cbn; [done..|by apply shrunk_caches|eauto]. Qed.

Lemma local_trans rs a a' a'' : local_step rs a a' → local_step rs a' a'' → local_step rs a a''.
Proof.
  intros [] []. split; try congruence. intros p e He. destruct (l_entries0 p e He) as (e' & He' & Hr).
  destruct (l_entries1 p e' He') as (e'' & He'' & Hr'). exists e''. split; [done|congruence].
Qed.

(** The fields a step other than counters, log lines and the like would change. *)
Definition footprint (a : Authenticator) :=
  (a_cfg a, reserve a, flights a, flightHeap a, nextFlight a, inflightRefresh a, inflightNew a, (pos a, neg a, entries a, nextEntry a)).

Lemma local_misc rs a a' : caches a rs → footprint a' = footprint a → local_step rs a a'.
Proof.
  destruct a, a'. unfold footprint. cbn. intros [] [=]. cbn in *. subst. split; cbn; try done; try (by split); eauto.
Qed.

(** What the caches answer is what was noted. *)
Lemma cached_told s k b now c : core s → mono b ≤ mono now → cached_by (sy_a s) k now c →
  (∀ r, c = Hit r → res_ok (sy_noted s) k b r) ∧
  (∀ p, c = Stale p → ∃ e, entries (sy_a s) !! p = Some e ∧ told (sy_noted s) k b (trust conf) (inl (rec e))).
Proof.
  intros K Hb Hc. pose proof (k_caches _ K) as C. pose proof (defaults_range cfg cfg_int) as R. cbn zeta in R.
  unfold cached_by in Hc. rewrite (k_cfg _ K) in Hc. unfold res_ok, trust. revert R Hc. generalize conf. intros cf R Hc. split; intros r ->.
  - destruct r as [r|er].
    + destruct Hc as (p & e & Hp & He & -> & Ha). destruct (c_pos _ _ C _ _ Hp) as (e' & He' & Hl). simplify_eq.
      eapply told_weaken; [eapply latest_told; [done|done|done|lia]|lia].
    + destruct Hc as (-> & t & Ht & Ha). eapply latest_told; [by apply (c_neg _ _ C)|done|done|lia].
  - destruct Hc as (e & Hp & He & Ha). destruct (c_pos _ _ C _ _ Hp) as (e' & He' & Hl). simplify_eq. exists e. split; [done|].
    assert (Hw : CacheTTL cf +! StaleGrace cf ≤ CacheTTL cf + StaleGrace cf ∧ CacheTTL cf +! StaleGrace cf ≤ int64_max).
    { destruct (wrap64_range (CacheTTL cf + StaleGrace cf)) as [_ Hr]. split; [|done].
      unfold wrap64, int64_min. change int64_max with 9223372036854775807 in *. Z.to_euclidean_division_equations; lia. }
    eapply told_weaken; [eapply latest_told; [done|done|done|lia]|lia].
Qed.

Lemma record_end_ok s k b st r : stale_ok s k b st → res_ok (sy_noted s) k b r → res_ok (sy_noted s) k b (record_end (sy_a s) st r).
Proof.
  intros Hs Hr. unfold record_end. destruct r as [r|er]; [done|]. destruct er; cbn in Hr |- *; try done.
  all: destruct st as [p|]; [|done]; destruct (Hs p eq_refl) as (e & He & Ht); rewrite He; exact Ht.
Qed.

Lemma record_step s k b a' c down : core s → record_locked (sy_a s) k b = (a', c, down) →
  local_step (sy_noted s) (sy_a s) a' ∧ (∀ r, c = Hit r → res_ok (sy_noted s) k b r) ∧
  (∀ r, c ≠ Hit r → stale_ok (s <| sy_a := a' |>) k b (stale_of c)).
Proof.
  intros K. unfold record_locked. destruct (cachedLocked (sy_a s) k b) as [a1 c1] eqn:Hc.
  destruct (cachedLocked_spec _ _ _ _ _ _ (k_caches _ K) Hc) as (ps & ng & -> & Hs & Hby).
  destruct (cached_told s k b b c1 K ltac:(done) Hby) as [Hh Hst].
  pose proof (local_shrunk _ _ _ _ (k_caches _ K) Hs) as L1. intros Heq.
  assert (c1 = c) by (destruct c1; by injection Heq). subst c1.
  assert (L2 : local_step (sy_noted s) ((sy_a s) <| pos := ps |> <| neg := ng |>) a').
  { apply local_misc; [apply L1|]. destruct c; by injection Heq as <- _. }
  split_and!; [by eapply local_trans|done|]. intros _ _ p Hp. destruct c as [r|p'|]; try done. injection Hp as <-.
  destruct (Hst p' eq_refl) as (e & He & Ht). destruct (l_entries _ _ _ L2 p' e He) as (e' & He' & Hr). exists e'. split; [done|]. by rewrite Hr.
Qed.

(** ** A request's own steps. *)

Lemma parsed_hash bearer k h : ParseKey bearer = Some (k, h) → length h = hashLen.
Proof.
  unfold ParseKey. intros Hp. repeat case_match; simplify_eq. apply Sum256_length.
Qed.

Lemma HashesEqual_spec h h' : length h = hashLen → HashesEqual h h' = true ↔ h = h'.
Proof.
  intros Hl. unfold HashesEqual. rewrite Hl, Nat.eqb_refl. cbn [andb]. rewrite andb_true_iff, Nat.eqb_eq, bool_decide_eq_true.
  split; [tauto|]. intros <-. by split.
Qed.

Lemma judge_justified s bearer b k h r : ParseKey bearer = Some (k, h) → clock_le b (sy_clock s) → res_ok (sy_noted s) k b r →
  match judge h r (sy_clock s) with
  | inl kr => justified s bearer b (inl (principal kr))
  | inr er => justified s bearer b (inr er)
  end.
Proof.
  intros Hp Hb Hr. destruct r as [kr|er]; [|destruct er; cbn in *; try done; eauto 10]. cbn [judge res_ok] in *.
  pose proof (HashesEqual_spec h (SecretHash kr) (parsed_hash _ _ _ Hp)) as Hh. destruct (HashesEqual h (SecretHash kr)); cbn [negb].
  - destruct Hh as [Hh _]. specialize (Hh eq_refl). destruct (String.eqb_spec (KeyStatus kr) KeyActive) as [Hk|Hk]; cbn [negb].
    2: { exists k, h, kr. by split_and!. }
    assert (Hd : clock_le b (sy_clock s) ∧ clock_le (sy_clock s) (sy_clock s)) by (split; [done|apply clock_le_refl]).
    fold (expired kr (sy_clock s)). destruct (expired kr (sy_clock s)) eqn:He.
    { exists k, h, kr, (sy_clock s). split_and!; try done; apply Hd. }
    destruct (String.eqb_spec (tp_Status (kr_Policy kr)) TenantActive) as [Ht|Ht]; cbn [negb].
    + exists k, h, kr, (sy_clock s). split_and!; try done; apply Hd.
    + exists k, h, kr. by split_and!.
  - right. exists k, h. split; [done|]. right. exists kr. split; [done|]. intros E. apply Hh in E. done.
Qed.

Lemma noteUse_local rs a k now a' q : caches a rs → noteUse_locked a k now = (a', q) → local_step rs a a'.
Proof.
  intros C. unfold noteUse_locked. destruct (toucher a); cbn [negb]; [|intros [= <- _]; by apply local_misc].
  pose proof (get_value (pos a) k) as Hv. destruct (get_shrinks (pos a) k (c_pos_ok _ _ C)) as (G1 & G2 & G3).
  destruct (lru_get (pos a) k) as [ps pe]. cbn [fst snd] in *. subst pe.
  assert (L : local_step rs a (a <| pos := ps |>)).
  { apply (local_shrunk rs a ps (neg a) C). split_and!; [done|apply C|done|done|done|done]. }
  destruct (lru_lookup (pos a) k) as [p|] eqn:Hp; [|by intros [= <- _]]. cbn. destruct (entries a !! p) as [e|] eqn:He; [|by intros [= <- _]].
  destruct (_ <? touchEvery); [by intros [= <- _]|]. intros [= <- _].
  destruct L as [_ _ _ _ _ _ _ [] _]. split; cbn in *; try done.
  - split; cbn; try done.
    + intros k' p' Hk. destruct (c_pos0 _ _ Hk) as (e' & He' & Hl). destruct (decide (p' = p)) as [->|Hne].
      * rewrite lookup_insert_eq. eexists. split; [done|]. cbn. congruence.
      * rewrite lookup_insert_ne by done. eauto.
    + intros p' e'. destruct (decide (p' = p)) as [->|Hne]; [intros _; by eapply c_entries0|rewrite lookup_insert_ne by done; apply c_entries0].
  - intros p' e' He'. destruct (decide (p' = p)) as [->|Hne]; [|rewrite lookup_insert_ne by done; eauto].
    rewrite lookup_insert_eq. eexists. split; [done|]. cbn. congruence.
Qed.

(** The state in which [fetch] starts a lookup. *)
Definition fetch_start (a : Authenticator) (k : list Z) (refresh : bool) : Authenticator :=
  let a := if refresh then a <| inflightRefresh := inflightRefresh a +! 1 |> else a <| inflightNew := inflightNew a +! 1 |> in
  let f := nextFlight a in
  let a := a <| flightHeap := <[f := mkFlight false (inl noRecord)]> (flightHeap a) |> <| nextFlight := f + 1 |> in
  a <| flights := <[k := f]> (flights a) |>.

Lemma fetch_spec s k rf a' r : core s → fetch_locked (sy_a s) k rf (sy_clock s) = (a', r) →
  ∃ a1, local_step (sy_noted s) (sy_a s) a1 ∧
    match r with
    | Answer r => a' = a1 ∧ ∀ b, clock_le b (sy_clock s) → res_ok (sy_noted s) k b r
    | Wait f => a' = a1 ∧ rf = false ∧ flights (sy_a s) !! k = Some f
    | Started f => a' = fetch_start a1 k rf ∧ f = nextFlight a1 ∧ flights a1 !! k = None ∧
        inflightRefresh a1 +! inflightNew a1 < MaxLookups conf ∧ (rf = false → inflightNew a1 < MaxLookups conf -! reserved conf)
    end.
Proof.
  intros K. unfold fetch_locked. destruct (cachedLocked (sy_a s) k (sy_clock s)) as [a1 c] eqn:Hc.
  destruct (cachedLocked_spec _ _ _ _ _ _ (k_caches _ K) Hc) as (ps & ng & E1 & Hs & Hby).
  assert (L : local_step (sy_noted s) (sy_a s) a1) by (subst a1; by apply local_shrunk, Hs; apply K).
  intros Hf. exists a1. split; [done|]. pose proof (l_cfg _ _ _ L) as Ec. rewrite (k_cfg _ K) in Ec. pose proof (l_res _ _ _ L) as Er. rewrite (k_res _ K) in Er.
  destruct c as [r1|q|].
  { injection Hf as <- <-. split; [done|]. intros b [_ Hb]. by apply (cached_told s k b (sy_clock s) (Hit r1)). }
  all: rewrite Ec, Er in Hf; destruct (flights a1 !! k) as [f|] eqn:Hfl;
    [destruct rf; injection Hf as <- <-; [by split|]; split_and!; [done|done|by rewrite <- (l_flights _ _ _ L)]|].
  all: destruct (_ <=? inflightRefresh a1 +! inflightNew a1) eqn:Ht; cbn [orb] in Hf; [by injection Hf as <- <-|].
  all: destruct (negb rf && _) eqn:Hn in Hf; [by injection Hf as <- <-|]; injection Hf as <- <-.
  all: split_and!; [by destruct rf|by destruct rf|done|lia|]; intros ->; cbn [negb andb] in Hn; lia.
Qed.

(** What the piece of a request that starts no lookup leaves. *)
Lemma request_local s w p a' p' bearer b : core s → clock_le b (sy_clock s) → req_ok s bearer b p →
  request_step (sy_a s) (sy_clock s) w p = Some (a', p', None) →
  local_step (sy_noted s) (sy_a s) a' ∧ req_ok (s <| sy_a := a' |>) bearer b p'.
Proof.
  intros K Hb Hp Hs. pose proof (local_misc _ (sy_a s) (sy_a s) (k_caches _ K) eq_refl) as Lid.
  assert (Hto : ∀ a1 p1, local_step (sy_noted s) (sy_a s) a1 → req_ok s bearer b p1 → req_ok (s <| sy_a := a1 |>) bearer b p1).
  { intros a1 p1 L1. apply req_evolves; [by apply evolves_local|done]. }
  destruct p as [k h now|k h st|k h st f rf|k h r|k r now|r now|r]; cbn [request_step] in Hs.
  - destruct Hp as [Hp ->]. destruct (record_locked (sy_a s) k b) as [[a1 c] down] eqn:Hr.
    destruct (record_step _ _ _ _ _ _ K Hr) as (L & Hh & Hst).
    destruct c as [r|q|]; [injection Hs as <- <-; split; [done|]; split; [done|]; by apply Hh| |]; (assert (Hst' := Hst (inl noRecord) ltac:(done)));
      (destruct down; injection Hs as <- <-; split; [done|split; [done|]| |split; [done|]];
       [exact (record_end_ok _ k b _ (inr errDown) Hst' I)|done|exact Hst']).
  - destruct (fetch_locked (sy_a s) k _ (sy_clock s)) as [a1 r] eqn:Hf. destruct (fetch_spec _ _ _ _ _ K Hf) as (a2 & L & Hr).
    destruct Hp as [Hp Hst]. assert (Hst' := Hto a2 (AtFetch k h st) L (conj Hp Hst)). destruct r as [r|f|f]; [| |done].
    + destruct Hr as [-> Hr]. injection Hs as <- <-. split; [done|]. split; [done|]. exact (record_end_ok _ k b st r (proj2 Hst') (Hr b Hb)).
    + destruct Hr as (-> & _ & Hfl). injection Hs as <- <-. split; [done|]. apply (Hto a2 (AtAwait k h st f false) L). split_and!; [done|done|].
      apply (k_flights _ K) in Hfl as (l & Hl & Hk). destruct (k_looks _ K _ _ Hl) as [(x & Hx & _) _]. exists x. split; [done|].
      rewrite Hl. cbn. destruct (is_open l) as [[k' ?]|]; [|done]. by injection Hk.
  - destruct Hp as (Hp & Hst & x & Hx & Haw). destruct (await (sy_a s) f rf w) as [r|] eqn:Ha; [|done]. injection Hs as <- <-. split; [done|].
    apply (Hto (sy_a s) (AtJudge k h (record_end (sy_a s) st r)) Lid). split; [done|]. apply record_end_ok; [done|].
    destruct w as [|why|]; cbn in Ha; [|by injection Ha as <-|by destruct rf; [injection Ha as <-|]].
    rewrite Hx in Ha. destruct (f_done x) eqn:Hd; [|done]. injection Ha as <-.
    destruct (sy_looks s !! f) as [l|] eqn:Hl; [|done]. destruct (k_looks _ K _ _ Hl) as [(x' & Hx' & Hd') _]. congruence.
  - destruct Hp as [Hp Hr]. pose proof (judge_justified s bearer b k h r Hp Hb Hr) as Hj.
    destruct (judge h r (sy_clock s)) as [kr|er]; injection Hs as <- <-; (split; [done|]).
    + exact (Hto (sy_a s) (AtNote k kr (sy_clock s)) Lid Hj).
    + exact (Hto (sy_a s) (Done (inr er)) Lid Hj).
  - destruct (noteUse_locked (sy_a s) k now) as [a1 q] eqn:Hn. injection Hs as <- <-. pose proof (noteUse_local _ _ _ _ _ _ (k_caches _ K) Hn) as L.
    split; [done|]. destruct q; [exact (Hto a1 (AtTouch r now) L Hp)|exact (Hto a1 (Done (inl (principal r))) L Hp)].
  - injection Hs as <- <-. assert (L : local_step (sy_noted s) (sy_a s) (queue_touch (sy_a s) (kr_KeyID r) now)).
    { apply local_misc; [apply K|]. unfold queue_touch. by destruct (_ <? _)%nat. }
    split; [done|]. exact (Hto _ (Done (inl (principal r))) L Hp).
  - done.
Qed.

(** ** Starting a lookup. *)

Lemma looks_fresh s : core s → sy_looks s !! nextFlight (sy_a s) = None.
Proof.
  intros K. destruct (sy_looks s !! nextFlight (sy_a s)) as [l|] eqn:Hl; [|done].
  destruct (k_looks _ K _ _ Hl) as [(x & Hx & _) _]. destruct (k_heap _ K _ _ Hx). lia.
Qed.

Lemma slots_small s : core s → ∀ r, 0 ≤ n_open r (sy_looks s) ≤ MaxLookups conf ∧ MaxLookups conf ≤ int64_max.
Proof.
  intros K r. pose proof (defaults_range cfg cfg_int) as R. cbn zeta in R. pose proof (k_total _ K). pose proof (n_open_nonneg true (sy_looks s)).
  pose proof (n_open_nonneg false (sy_looks s)). destruct r; lia.
Qed.

Definition with_start (s : Sys) (k : list Z) (rf : bool) : Sys :=
  mkSys (fetch_start (sy_a s) k rf) (sy_clock s) (sy_reqs s) (<[nextFlight (sy_a s) := Asking k rf]> (sy_looks s)) (sy_born s) (sy_answers s) (sy_noted s).

Lemma fetch_start_fields a k rf : let a' := fetch_start a k rf in
  a_cfg a' = a_cfg a ∧ reserve a' = reserve a ∧ flights a' = <[k := nextFlight a]> (flights a) ∧
  flightHeap a' = <[nextFlight a := mkFlight false (inl noRecord)]> (flightHeap a) ∧ nextFlight a' = nextFlight a + 1 ∧
  inflightRefresh a' = (if rf then inflightRefresh a +! 1 else inflightRefresh a) ∧
  inflightNew a' = (if rf then inflightNew a else inflightNew a +! 1) ∧
  (∀ rs, caches a rs → caches a' rs) ∧ entries a' = entries a.
Proof. destruct rf; cbn; split_and!; try done; intros rs []; by split. Qed.

Lemma start_core s k rf : core s → flights (sy_a s) !! k = None →
  inflightRefresh (sy_a s) +! inflightNew (sy_a s) < MaxLookups conf → (rf = false → inflightNew (sy_a s) < MaxLookups conf -! reserved conf) →
  core (with_start s k rf).
Proof.
  intros K Hk Ht Hn. pose proof (looks_fresh s K) as Hfr. pose proof (slots_small s K true) as S1. pose proof (slots_small s K false) as S2.
  pose proof (defaults_range cfg cfg_int) as R. cbn zeta in R. rewrite (k_refresh _ K), (k_new _ K) in *. pose proof (k_total _ K). pose proof (k_new_max _ K).
  assert (Hm : int64_min ≤ 0) by done.
  rewrite !wrap64_id in Ht, Hn by (unfold in64; lia). pose proof (n_open_nonneg true (sy_looks s)) as P1. pose proof (n_open_nonneg false (sy_looks s)) as P2.
  destruct (fetch_start_fields (sy_a s) k rf) as (F1 & F2 & F3 & F4 & F5 & F6 & F7 & F8 & F9). destruct K.
  assert (Ek : ∀ r, of_kind r (Asking k rf) = if Bool.eqb rf r then 1 else 0) by (intros r; by rewrite of_kind_eq).
  unfold with_start. split; cbn [sy_a sy_looks sy_noted sy_clock sy_answers]; rewrite ?n_open_fresh, ?Ek by done.
  - by rewrite F1.
  - by rewrite F2.
  - by apply F8.
  - intros k' f. rewrite F3. destruct (decide (f = nextFlight (sy_a s))) as [->|Hf].
    + rewrite lookup_insert_eq. split.
      * intros [[-> _]|[_ Hfl]]%lookup_insert_Some; [by exists (Asking k' rf)|]. apply k_flights0 in Hfl as (l & Hl & _). congruence.
      * intros (l & [= <-] & [= ->]). apply lookup_insert_eq.
    + rewrite (lookup_insert_ne (sy_looks s)) by done. rewrite <- k_flights0. destruct (decide (k' = k)) as [->|Hne].
      * rewrite lookup_insert_eq. split; [congruence|]. by rewrite Hk.
      * by rewrite lookup_insert_ne.
  - intros f l. rewrite F4. destruct (decide (f = nextFlight (sy_a s))) as [->|Hf].
    + rewrite !lookup_insert_eq. intros [= <-]. split; [by eexists|done].
    + rewrite !lookup_insert_ne by done. apply k_looks0.
  - intros f x. rewrite F4, F5. destruct (decide (f = nextFlight (sy_a s))) as [->|Hf].
    + rewrite !lookup_insert_eq. intros _. split; [lia|done].
    + rewrite !lookup_insert_ne by done. intros Hx. destruct (k_heap0 _ _ Hx). split; [lia|done].
  - rewrite F6. destruct rf; cbn [Bool.eqb]; [rewrite k_refresh0, wrap64_id by (unfold in64; lia); lia|lia].
  - rewrite F7. destruct rf; cbn [Bool.eqb]; [lia|rewrite k_new0, wrap64_id by (unfold in64; lia); lia].
  - destruct rf; cbn [Bool.eqb]; lia.
  - destruct rf; cbn [Bool.eqb]; [lia|]. specialize (Hn eq_refl). lia.
  - done.
  - done.
Qed.

Lemma start_evolves s k rf : core s → evolves s (with_start s k rf).
Proof.
  intros K. destruct (fetch_start_fields (sy_a s) k rf) as (F1 & F2 & F3 & F4 & F5 & F6 & F7 & F8 & F9). unfold with_start.
  split; cbn [sy_a sy_looks sy_noted sy_clock sy_answers]; [apply clock_le_refl|rewrite F9; eauto|by left|].
  intros k' b f _ (x & Hx & Hr). destruct (k_heap _ K _ _ Hx) as [Hlt _]. exists x. cbn [sy_a sy_looks sy_noted]. rewrite F4.
  by rewrite !lookup_insert_ne by lia.
Qed.

Lemma start_await s k rf b : core s → await_ok (with_start s k rf) k b (nextFlight (sy_a s)).
Proof.
  intros K. destruct (fetch_start_fields (sy_a s) k rf) as (F1 & F2 & F3 & F4 & F5 & F6 & F7 & F8 & F9).
  exists (mkFlight false (inl noRecord)). unfold with_start. cbn [sy_a sy_looks sy_noted]. rewrite F4, !lookup_insert_eq. done.
Qed.

Lemma evolves_trans s s1 s2 : evolves s s1 → evolves s1 s2 → sy_noted s1 = sy_noted s → evolves s s2.
Proof.
  intros [] [] Hn. split; [by eapply clock_le_trans| | |].
  - intros p e He. destruct (e_entries0 _ _ He) as (e1 & He1 & Hr1). destruct (e_entries1 _ _ He1) as (e2 & He2 & Hr2). exists e2. split; [done|congruence].
  - rewrite Hn in e_noted1. destruct e_noted1 as [?|(z & Hz & Hle)]; [by left|right]. exists z. split; [done|]. destruct e_clock0. lia.
  - intros k b f Hb Ha. apply e_await1; [by eapply clock_le_trans|]. by apply e_await0.
Qed.

(** ** Noting an answer. *)

Lemma caches_indefinite a rs z : caches a rs → definite (no_ans z) = false → caches a (z :: rs).
Proof.
  intros [] Hz. split; try done.
  - intros k p Hp. destruct (c_pos0 _ _ Hp) as (e & He & Hl). exists e. split; [done|]. by apply latest_cons.
  - intros k t Ht. by apply latest_cons; [apply c_neg0|].
Qed.

Lemma caches_known a rs z r now last : caches a rs → no_ans z = inl r → mono now ≤ mono (no_at z) →
  caches (a <| entries := <[nextEntry a := mkPos r now last]> (entries a) |> <| nextEntry := nextEntry a + 1 |>
            <| pos := lru_put (pos a) (no_prefix z) (nextEntry a) |> <| neg := lru_remove (neg a) (no_prefix z) |>) (z :: rs).
Proof.
  intros [] Hz Hnow. destruct (put_refines (pos a) (no_prefix z) (nextEntry a) c_pos_ok0) as (P1 & P2 & _).
  destruct (remove_shrinks (neg a) (no_prefix z) c_neg_ok0) as (R1 & R2 & _). split; cbn; [done|done|congruence|congruence| | |].
  - intros k p Hp. apply put_lookup_Some in Hp as [[-> ->]|[Hne Hp]]; [|  |done].
    + eexists. rewrite lookup_insert_eq. split; [done|]. by apply latest_now.
    + destruct (c_pos0 _ _ Hp) as (e & He & Hl). exists e. rewrite lookup_insert_ne by (apply c_entries0 in He; lia). split; [done|].
      apply latest_cons; [done|congruence].
  - intros k t. rewrite remove_lookup. case_decide as Hk; [done|]. intros Ht. apply latest_cons; [by apply c_neg0|congruence].
  - intros p e [[<- _]|[_ He]]%lookup_insert_Some; [lia|]. apply c_entries0 in He. lia.
Qed.

Lemma caches_unknown a rs z now : caches a rs → no_ans z = inr ErrNotFound → mono now ≤ mono (no_at z) →
  caches (a <| pos := lru_remove (pos a) (no_prefix z) |> <| neg := lru_put (neg a) (no_prefix z) now |>) (z :: rs).
Proof.
  intros [] Hz Hnow. destruct (put_refines (neg a) (no_prefix z) now c_neg_ok0) as (P1 & P2 & _).
  destruct (remove_shrinks (pos a) (no_prefix z) c_pos_ok0) as (R1 & R2 & _). split; cbn; [done|done|congruence|congruence| | |done].
  - intros k p. rewrite remove_lookup. case_decide as Hk; [done|]. intros Hp. destruct (c_pos0 _ _ Hp) as (e & He & Hl). exists e. split; [done|].
    apply latest_cons; [done|congruence].
  - intros k t Ht. apply put_lookup_Some in Ht as [[-> ->]|[Hne Ht]]; [by apply latest_now|  |done].
    apply latest_cons; [by apply c_neg0|congruence].
Qed.

Lemma recovered_footprint a : footprint (Authenticator_recovered a) = footprint a.
Proof. unfold Authenticator_recovered. by destruct (outage a). Qed.

Lemma failed_footprint a : footprint (Authenticator_failed a) = footprint a.
Proof. unfold Authenticator_failed. by destruct (outage a). Qed.

Lemma warn_footprint a m t : footprint (warnLimited a m t) = footprint a.
Proof. unfold warnLimited. by destruct (_ && _). Qed.

Lemma down_footprint a d : footprint (a <| downUntil := d |>) = footprint a.
Proof. done. Qed.

Lemma outcome_known a rs z kr now noww a' r : caches a rs → no_ans z = inl kr → mono now ≤ mono (no_at z) →
  lookup_outcome a (no_prefix z) (inl kr) now noww = (a', r) → local_step (z :: rs) a a' ∧ r = inl kr.
Proof.
  intros C Hz Hnow. cbn [lookup_outcome]. destruct (get_shrinks (pos a) (no_prefix z) (c_pos_ok _ _ C)) as (G1 & G2 & G3).
  destruct (lru_get (pos a) (no_prefix z)) as [ps old]. cbn [fst] in *.
  assert (C0 : caches (a <| pos := ps |>) rs).
  { apply (shrunk_caches a ps (neg a) rs C). split_and!; [done|apply C|done|done|done|done]. }
  set (last := match old with Some _ => _ | None => _ end). clearbody last. pose proof (caches_known _ rs z kr now last C0 Hz Hnow) as C1.
  intros [= <- <-]. split; [|done]. eapply local_trans; cycle 1.
  { apply local_misc; [exact C1|]. rewrite down_footprint, recovered_footprint. reflexivity. }
  split; cbn; try done. intros p e He. exists e. rewrite lookup_insert_ne by (apply (c_entries _ _ C) in He; lia). done.
Qed.

Lemma outcome_spec a rs z now noww a' r : caches a rs → mono now ≤ mono (no_at z) →
  lookup_outcome a (no_prefix z) (no_ans z) now noww = (a', r) →
  local_step (z :: rs) a a' ∧ ∀ b, mono b ≤ mono (no_at z) → res_ok (z :: rs) (no_prefix z) b r.
Proof.
  intros C Hnow Ho. pose proof (defaults_range cfg cfg_int) as R. cbn zeta in R.
  assert (Hindef : definite (no_ans z) = false → footprint a' = footprint a → local_step (z :: rs) a a').
  { intros Hd Hf. apply local_misc; [|done]. by apply caches_indefinite. }
  assert (Hnew : ∀ b lim, mono b ≤ mono (no_at z) → 0 < lim → told (z :: rs) (no_prefix z) b lim (no_ans z)) by (intros; by apply told_now).
  destruct (no_ans z) as [kr|er] eqn:Hz.
  { destruct (outcome_known _ _ _ _ _ _ _ _ C Hz Hnow Ho) as [L ->]. split; [done|]. intros b Hb. apply Hnew; [done|]. unfold trust. lia. }
  destruct er; cbn [lookup_outcome] in Ho; injection Ho as <- <-.
  all: try (split; [apply Hindef; [done|]; rewrite ?down_footprint, ?recovered_footprint, ?failed_footprint, ?warn_footprint; reflexivity|]; intros b Hb; cbn; done || (apply Hnew; lia)).
  split; [|intros b Hb; apply Hnew; [done|lia]]. pose proof (caches_unknown a rs z now C Hz Hnow) as C1. eapply local_trans; cycle 1.
  { apply local_misc; [exact C1|]. rewrite down_footprint, recovered_footprint. reflexivity. }
  split; cbn; try done. eauto.
Qed.

(** ** The steps of a lookup. *)

Lemma answered_mono s s' l : (∀ y, y ∈ sy_answers s → y ∈ sy_answers s') → clock_le (sy_clock s) (sy_clock s') → answered s l → answered s' l.
Proof.
  intros Hy [_ Hc]. destruct l as [| | |]; cbn; [done| | |done].
  - intros (y & ? & ?). eauto.
  - intros (? & y & ? & ?). split; [lia|eauto].
Qed.

(** A lookup moves on without giving up its slot, and the store may have answered. *)
Definition relabel (s : Sys) (f : Z) (l : lpc) (ys : list StoreAnswer) : Sys :=
  mkSys (sy_a s) (sy_clock s) (sy_reqs s) (<[f := l]> (sy_looks s)) (sy_born s) (ys ++ sy_answers s) (sy_noted s).

Lemma relabel_core s f l l' ys : core s → sy_looks s !! f = Some l → is_open l' = is_open l →
  (∀ y, y ∈ ys → mono (sa_at y) ≤ mono (sy_clock s)) → answered (relabel s f l' ys) l' → core (relabel s f l' ys).
Proof.
  intros K Hl Hop Hys Ha. pose proof K as K'. destruct K'. unfold relabel in *.
  split; cbn [sy_a sy_looks sy_noted sy_clock sy_answers]; rewrite ?(n_open_move _ _ _ _ _ Hl Hop); try done.
  - intros k f'. rewrite k_flights0. destruct (decide (f' = f)) as [->|Hne]; [|by rewrite lookup_insert_ne].
    rewrite lookup_insert_eq, Hl. split; intros (x & [= <-] & Hx); eexists; (split; [done|]); by rewrite Hop in * || rewrite <- Hop.
  - intros f' x Hx. destruct (decide (f' = f)) as [->|Hne].
    + rewrite lookup_insert_eq in Hx. injection Hx as <-. split; [|done]. by destruct (k_looks0 _ _ Hl).
    + rewrite lookup_insert_ne in Hx by done. destruct (k_looks0 _ _ Hx) as [H1 H2]. split; [done|]. eapply answered_mono, H2; [|apply clock_le_refl].
      intros y Hy. apply elem_of_app. by right.
  - intros f' x Hx. destruct (k_heap0 _ _ Hx) as [Hlt Hd]. split; [done|]. intros [Hn _]%lookup_insert_None. by apply Hd.
  - intros x Hx. destruct (k_noted0 _ Hx) as (Hc & y & Hy & Hr). split; [done|]. exists y. split; [|done]. apply elem_of_app. by right.
  - intros y [Hy|Hy]%elem_of_app; auto.
Qed.

Lemma relabel_evolves s f l l' ys : sy_looks s !! f = Some l → is_open l' = is_open l → evolves s (relabel s f l' ys).
Proof.
  intros Hl Hop. split; cbn; [apply clock_le_refl|eauto|by left|]. intros k b f' _ (x & Hx & Hr). exists x. split; [done|]. cbn.
  destruct (decide (f' = f)) as [->|Hne]; [|by rewrite lookup_insert_ne]. rewrite lookup_insert_eq. rewrite Hl in Hr. cbn in *. by rewrite Hop.
Qed.

(** The lookup of [f] notes its answer and gives up its slot. *)
Definition noting (s : Sys) (f : Z) (k : list Z) (rf : bool) (ans : KeyRecord + AuthErr) (now : Time) : Sys :=
  mkSys (lookup_locked (sy_a s) k f rf ans now (sy_clock s)) (sy_clock s) (sy_reqs s) (<[f := Closing]> (sy_looks s)) (sy_born s) (sy_answers s)
    (mkNoted (sy_clock s) k ans :: sy_noted s).

Lemma lookup_fields s f k rf ans now : core s → mono now ≤ mono (sy_clock s) →
  let a' := lookup_locked (sy_a s) k f rf ans now (sy_clock s) in
  ∃ r, a_cfg a' = a_cfg (sy_a s) ∧ reserve a' = reserve (sy_a s) ∧ flights a' = delete k (flights (sy_a s)) ∧
    flightHeap a' = alter (λ x, mkFlight (f_done x) r) f (flightHeap (sy_a s)) ∧ nextFlight a' = nextFlight (sy_a s) ∧
    inflightRefresh a' = (if rf then inflightRefresh (sy_a s) -! 1 else inflightRefresh (sy_a s)) ∧
    inflightNew a' = (if rf then inflightNew (sy_a s) else inflightNew (sy_a s) -! 1) ∧
    caches a' (mkNoted (sy_clock s) k ans :: sy_noted s) ∧
    (∀ p e, entries (sy_a s) !! p = Some e → ∃ e', entries a' !! p = Some e' ∧ rec e' = rec e) ∧
    ∀ b, clock_le b (sy_clock s) → res_ok (mkNoted (sy_clock s) k ans :: sy_noted s) k b r.
Proof.
  intros K Hnow. cbn zeta. unfold lookup_locked.
  set (a0 := if rf then _ else _). assert (C0 : caches a0 (sy_noted s)) by (destruct (k_caches _ K); by destruct rf; split).
  destruct (lookup_outcome a0 k ans now (sy_clock s)) as [a1 r] eqn:Ho.
  destruct (outcome_spec a0 _ (mkNoted (sy_clock s) k ans) _ _ _ _ C0 Hnow Ho) as [[] Hr]. exists r. cbn.
  rewrite l_cfg0, l_res0, l_flights0, l_heap0, l_next0, l_refresh0, l_new0.
  split_and!; try (by destruct rf).
  - by destruct l_caches0; split.
  - intros b [_ Hb]. by apply Hr.
Qed.

Lemma noting_core s f k rf ans now : core s → sy_looks s !! f = Some (Recording k rf ans now) → core (noting s f k rf ans now).
Proof.
  intros K Hl. destruct (k_looks _ K _ _ Hl) as [(x0 & Hx0 & Hd0) (Hnow & y0 & Hy0)].
  destruct (lookup_fields s f k rf ans now K Hnow) as (r & F1 & F2 & F3 & F4 & F5 & F6 & F7 & F8 & F9 & F10).
  assert (Hfk : flights (sy_a s) !! k = Some f) by (apply (k_flights _ K); by eexists).
  assert (Hn : ∀ q, n_open q (<[f := Closing]> (sy_looks s)) = n_open q (sy_looks s) - if Bool.eqb rf q then 1 else 0).
  { intros q. rewrite n_open_insert, (n_open_lookup q _ _ _ Hl). rewrite !of_kind_eq. cbn [is_open]. lia. }
  pose proof (slots_small s K true) as S1. pose proof (slots_small s K false) as S2. pose proof K as K'. destruct K'.
  pose proof (n_open_nonneg rf (<[f := Closing]> (sy_looks s))) as P. rewrite Hn, Bool.eqb_reflx in P. assert (Hm : int64_min ≤ 0) by done.
  unfold noting. split; cbn [sy_a sy_looks sy_noted sy_clock sy_answers]; rewrite ?Hn.
  - by rewrite F1.
  - by rewrite F2.
  - done.
  - intros k' f'. rewrite F3. rewrite lookup_delete_Some, k_flights0. destruct (decide (f' = f)) as [->|Hne].
    + rewrite lookup_insert_eq, Hl. split; [|by intros (? & [= <-] & ?)]. intros (Hne & l & [= <-] & [= ->]). done.
    + rewrite lookup_insert_ne by done. split; [by intros [_ ?]|]. intros Hex. split; [|done]. intros <-. apply k_flights0 in Hex. congruence.
  - intros f' l. rewrite F4. destruct (decide (f' = f)) as [->|Hne].
    + rewrite lookup_insert_eq. intros [= <-]. split; [|done]. rewrite lookup_alter_eq, Hx0. by eexists.
    + rewrite lookup_insert_ne, lookup_alter_ne by done. intros Hl'. destruct (k_looks0 _ _ Hl') as [H1 H2]. split; [done|]. by destruct l.
  - intros f' x. rewrite F4, F5. destruct (decide (f' = f)) as [->|Hne].
    + rewrite lookup_alter_eq, lookup_insert_eq. intros _. split; [by apply k_heap0 in Hx0 as []|done].
    + rewrite lookup_insert_ne, lookup_alter_ne by done. apply k_heap0.
  - rewrite F6, k_refresh0. destruct rf; cbn [Bool.eqb] in *; [rewrite wrap64_id by (unfold in64; lia)|]; lia.
  - rewrite F7, k_new0. destruct rf; cbn [Bool.eqb] in *; [|rewrite wrap64_id by (unfold in64; lia)]; lia.
  - destruct rf; cbn [Bool.eqb] in *; lia.
  - destruct rf; cbn [Bool.eqb] in *; lia.
  - intros x [->|Hx]%elem_of_cons; [|by apply k_noted0]. cbn. split; [done|]. destruct Hy0 as (? & ? & ? & ?). exists y0. split_and!; [done..|cbn; lia].
  - done.
Qed.

Lemma noting_evolves s f k rf ans now : core s → sy_looks s !! f = Some (Recording k rf ans now) → evolves s (noting s f k rf ans now).
Proof.
  intros K Hl. destruct (k_looks _ K _ _ Hl) as [(x0 & Hx0 & Hd0) (Hnow & y0 & Hy0)].
  destruct (lookup_fields s f k rf ans now K Hnow) as (r & F1 & F2 & F3 & F4 & F5 & F6 & F7 & F8 & F9 & F10).
  assert (Hz : ∀ k' b q, clock_le b (sy_clock s) → res_ok (sy_noted s) k' b q → res_ok (mkNoted (sy_clock s) k ans :: sy_noted s) k' b q).
  { intros k' b q [_ Hb]. destruct q as [q|[]]; cbn; try done; intros Ht; by apply told_cons. }
  unfold noting. split; cbn [sy_a sy_looks sy_noted sy_clock sy_answers].
  - apply clock_le_refl.
  - done.
  - right. by eexists.
  - intros k' b f' Hb (x & Hx & Hr). unfold await_ok. cbn [sy_a sy_looks sy_noted]. rewrite F4. destruct (decide (f' = f)) as [->|Hne].
    + rewrite lookup_alter_eq, Hx, lookup_insert_eq. eexists. split; [done|]. cbn. rewrite Hl in Hr. cbn in Hr. subst k'. by apply F10.
    + rewrite lookup_alter_ne, lookup_insert_ne by done. exists x. split; [done|]. destruct (sy_looks s !! f' ≫= is_open) as [[k0 ?]|]; [done|]. by apply Hz.
Qed.

(** The lookup of [f] closes its channel and ends. *)
Definition closing (s : Sys) (f : Z) : Sys :=
  mkSys (close_flight (sy_a s) f) (sy_clock s) (sy_reqs s) (delete f (sy_looks s)) (sy_born s) (sy_answers s) (sy_noted s).

Lemma closing_core s f : core s → sy_looks s !! f = Some Closing → core (closing s f).
Proof.
  intros K Hl. destruct (k_looks _ K _ _ Hl) as [(x0 & Hx0 & Hd0) _].
  assert (Hn : ∀ q, n_open q (delete f (sy_looks s)) = n_open q (sy_looks s)).
  { intros q. rewrite (n_open_lookup q _ _ _ Hl), of_kind_eq. cbn [is_open]. lia. }
  destruct K. unfold closing. split; cbn [sy_a sy_looks sy_noted sy_clock sy_answers]; rewrite ?Hn; try done.
  - by destruct k_caches0; split.
  - intros k f'. change (flights (close_flight (sy_a s) f)) with (flights (sy_a s)). rewrite k_flights0. destruct (decide (f' = f)) as [->|Hne].
    + rewrite lookup_delete_eq, Hl. split; intros (? & [= <-] & ?); done.
    + by rewrite lookup_delete_ne.
  - intros f' l [Hne Hl']%lookup_delete_Some. cbn. rewrite lookup_alter_ne by done. destruct (k_looks0 _ _ Hl') as [H1 H2]. split; [done|]. by destruct l.
  - intros f' x. cbn. destruct (decide (f' = f)) as [->|Hne].
    + rewrite lookup_alter_eq, Hx0. intros [= <-]. split; [by apply k_heap0 in Hx0 as []|done].
    + rewrite lookup_alter_ne, lookup_delete_ne by done. apply k_heap0.
Qed.

Lemma closing_evolves s f : core s → sy_looks s !! f = Some Closing → evolves s (closing s f).
Proof.
  intros K Hl. unfold closing. split; cbn [sy_a sy_looks sy_noted sy_clock sy_answers]; [apply clock_le_refl|eauto|by left|].
  intros k b f' _ (x & Hx & Hr). unfold await_ok. cbn. destruct (decide (f' = f)) as [->|Hne].
  - rewrite lookup_alter_eq, Hx, lookup_delete_eq. eexists. split; [done|]. cbn. by rewrite Hl in Hr.
  - rewrite lookup_alter_ne, lookup_delete_ne by done. by exists x.
Qed.

(** ** Every step. *)

Lemma inv_move s s' : inv s → core s' → evolves s s' → sy_reqs s' = sy_reqs s → sy_born s' = sy_born s → inv s'.
Proof.
  intros [_ Hq] K' E Hr Hb. split; [done|]. intros id p. rewrite Hr, Hb. intros Hp. destruct (Hq id p Hp) as (bearer & b & Hbn & Hc & Ho).
  exists bearer, b. split_and!; [done|eapply clock_le_trans; [done|apply E]|by eapply req_evolves].
Qed.

(** A request moves on. *)
Lemma inv_set s id p bearer b : inv s → sy_born s !! id = Some (bearer, b) → clock_le b (sy_clock s) → req_ok s bearer b p →
  inv (s <| sy_reqs := <[id := p]> (sy_reqs s) |>).
Proof.
  intros [K Hq] Hbn Hc Ho. split; [apply (core_reqs s _ (sy_born s) K)|]. intros id' p'. cbn. destruct (decide (id' = id)) as [->|Hne].
  - rewrite lookup_insert_eq. intros [= <-]. by exists bearer, b.
  - rewrite lookup_insert_ne by done. apply Hq.
Qed.

Lemma inv_request s id w s' : inv s → sys_step s (Request id w) = Some s' → inv s'.
Proof.
  intros [K Hq]. cbn [sys_step]. destruct (sy_reqs s !! id) as [p|] eqn:Hp; [|done]. destruct (Hq id p Hp) as (bearer & b & Hbn & Hc & Ho).
  destruct (request_step (sy_a s) (sy_clock s) w p) as [[[a' p'] st]|] eqn:Hs; [|done]. destruct st as [[[f k] rf]|]; intros [= <-].
  - destruct p as [k0 h now|k0 h st0|k0 h st0 f0 rf0|k0 h r|k0 r now|r now|r]; cbn [request_step] in Hs; repeat case_match; try discriminate Hs.
    injection Hs as <- <- <- <- <-. match goal with Hf : fetch_locked _ _ _ _ = _ |- _ => destruct (fetch_spec _ _ _ _ _ K Hf) as (a1 & L & -> & -> & Hk & Ht & Hn) end.
    destruct Ho as [Hparse Hst]. pose proof (core_local s a1 K L) as K1. pose proof (start_core _ k0 _ K1 Hk Ht Hn) as K2.
    assert (E : evolves s (with_start (s <| sy_a := a1 |>) k0 (bool_decide (is_Some st0)))).
    { eapply evolves_trans; [by apply evolves_local|by apply start_evolves|done]. }
    refine (inv_set (with_start (s <| sy_a := a1 |>) k0 (bool_decide (is_Some st0))) id _ bearer b (inv_move s _ (conj K Hq) K2 E eq_refl eq_refl) Hbn Hc _).
    destruct (req_evolves s _ bearer b (AtFetch k0 h st0) E Hc (conj Hparse Hst)) as [_ Hst']. split_and!; [done|done|]. exact (start_await _ k0 _ b K1).
  - destruct (request_local s w p a' p' bearer b K Hc Ho Hs) as [L Ho'].
    assert (I' : inv (s <| sy_a := a' |>)) by exact (inv_move s _ (conj K Hq) (core_local s a' K L) (evolves_local s a' L) eq_refl eq_refl).
    exact (inv_set _ id p' bearer b I' Hbn Hc Ho').
Qed.

Lemma inv_step s e s' : inv s → sys_step s e = Some s' → inv s'.
Proof.
  intros I Hs. pose proof I as [K Hq]. destruct e as [now|id bearer|id w|f ans|f|].
  - cbn in Hs. destruct (_ && _) eqn:Hc; [|done]. injection Hs as <-.
    assert (Hle : clock_le (sy_clock s) now) by (unfold clock_le; lia). pose proof Hle as [_ Hm].
    apply (inv_move s); [done| |split; cbn; [done|eauto|by left|done]|done|done].
    destruct K. split; cbn; try done.
    + intros f l Hl. destruct (k_looks0 _ _ Hl). split; [done|]. by apply (answered_mono s).
    + intros x Hx. destruct (k_noted0 _ Hx) as [H1 H2]. split; [lia|done].
    + intros y Hy. apply k_answers0 in Hy. lia.
  - cbn in Hs. destruct (sy_reqs s !! id) as [p|] eqn:Hp; [done|]. injection Hs as <-. split; [by apply core_reqs|].
    intros id' p'. cbn. destruct (decide (id' = id)) as [->|Hne].
    + rewrite !lookup_insert_eq. intros [= <-]. exists bearer, (sy_clock s). split_and!; [done|apply clock_le_refl|].
      unfold Authenticate_begin. destruct (ParseKey bearer) as [[k h]|] eqn:Hk; [by split|]. by left.
    + rewrite !lookup_insert_ne by done. apply Hq.
  - by eapply inv_request.
  - cbn in Hs. destruct (sy_looks s !! f) as [[k rf| | |]|] eqn:Hl; try done. injection Hs as <-.
    apply (inv_move s _ I); [|exact (relabel_evolves s f _ (Answered k rf ans) [mkAnswer (sy_clock s) k ans] Hl eq_refl)|done|done].
    apply (relabel_core s f _ (Answered k rf ans) [mkAnswer (sy_clock s) k ans] K Hl eq_refl).
    + by intros y ->%list_elem_of_singleton.
    + exists (mkAnswer (sy_clock s) k ans). split_and!; [by left|done|done].
  - cbn [sys_step] in Hs. unfold lookup_step in Hs. destruct (sy_looks s !! f) as [[k rf|k rf ans|k rf ans now|]|] eqn:Hl; try done; injection Hs as <-.
    + apply (inv_move s _ I); [|exact (relabel_evolves s f _ (Recording k rf ans (sy_clock s)) [] Hl eq_refl)|done|done].
      apply (relabel_core s f _ (Recording k rf ans (sy_clock s)) [] K Hl eq_refl).
      * by intros y ?%elem_of_nil.
      * destruct (k_looks _ K _ _ Hl) as [_ (y & Hy & Hk & Ha)]. split; [done|]. exists y. split_and!; try done. by apply (k_answers _ K).
    + apply (inv_move s _ I); [exact (noting_core s f k rf ans now K Hl)|exact (noting_evolves s f k rf ans now K Hl)|done|done].
    + apply (inv_move s _ I); [exact (closing_core s f K Hl)|exact (closing_evolves s f K Hl)|done|done].
  - cbn in Hs. unfold next_touch in Hs. destruct (touches (sy_a s)) as [|t ts]; [done|]. destruct (toucher (sy_a s)); [|done]. injection Hs as <-.
    assert (L : local_step (sy_noted s) (sy_a s) ((sy_a s) <| touches := ts |>)) by (apply local_misc; [apply K|done]).
    exact (inv_move s _ I (core_local s _ K L) (evolves_local s _ L) eq_refl eq_refl).
Qed.

Lemma inv_init clock : inv (sys_init touching cfg clock).
Proof.
  pose proof (defaults_range cfg cfg_int) as R. cbn zeta in R. split; [|intros id p; cbn; by rewrite lookup_empty].
  unfold sys_init, New. split; cbn -[auth_defaults]; try done.
  - split; cbn -[auth_defaults]; try done; try (apply new_ok; lia).
    all: intros k p; unfold lru_lookup; cbn; by rewrite ?lookup_empty.
  - intros k f. rewrite lookup_empty. split; [done|]. intros (l & Hl & _). by rewrite lookup_empty in Hl.
  - change (n_open true ∅) with 0. change (n_open false ∅) with 0. lia.
  - change (n_open false ∅) with 0. lia.
  - by intros x ?%elem_of_nil.
  - by intros x ?%elem_of_nil.
Qed.

Lemma inv_run es : ∀ s s', inv s → sys_run s es = Some s' → inv s'.
Proof.
  induction es as [|e es IH]; intros s s' I; cbn [sys_run]; [by intros [= <-]|].
  destruct (sys_step s e) as [s1|] eqn:Hs; [|done]. apply IH. by eapply inv_step.
Qed.

Lemma inv_reach clock es s : sys_run (sys_init touching cfg clock) es = Some s → inv s.
Proof. apply inv_run, inv_init. Qed.

(** ** Every request can be brought to its end. *)

(** The pieces of the request itself, the store's answer and the pieces of a lookup. *)
Definition own_event (id : Z) (ans : KeyRecord + AuthErr) (e : event) : Prop :=
  match e with
  | Request i WDone => i = id
  | Store _ a => a = ans
  | Look _ => True
  | _ => False
  end.

Definition can_finish (n : nat) (id : Z) (ans : KeyRecord + AuthErr) (s : Sys) : Prop :=
  ∃ es s' r, Forall (own_event id ans) es ∧ (length es ≤ n)%nat ∧ sys_run s es = Some s' ∧ sy_reqs s' !! id = Some (Done r).

Lemma can_step n id ans s e s' : sys_step s e = Some s' → own_event id ans e → can_finish n id ans s' → can_finish (S n) id ans s.
Proof.
  intros Hs He (es & s2 & r & Hf & Hl & Hrun & Hr). exists (e :: es), s2, r. split_and!; [by constructor|cbn; lia| |done].
  cbn. by rewrite Hs.
Qed.

Lemma can_more n m id ans s : can_finish n id ans s → (n ≤ m)%nat → can_finish m id ans s.
Proof. intros (es & s2 & r & Hf & Hl & Hrun & Hr) Hm. exists es, s2, r. split_and!; [done|lia|done|done]. Qed.

Lemma can_done id ans s r : sy_reqs s !! id = Some (Done r) → can_finish 0 id ans s.
Proof. intros Hr. by exists [], s, r. Qed.

(** One piece of a request. *)
Lemma can_request n id ans s p a' p' st : sy_reqs s !! id = Some p → request_step (sy_a s) (sy_clock s) WDone p = Some (a', p', st) →
  (∀ s', sys_step s (Request id WDone) = Some s' → sy_reqs s' !! id = Some p' → can_finish n id ans s') → can_finish (S n) id ans s.
Proof.
  intros Hp Hs Hn. assert (He : ∃ s', sys_step s (Request id WDone) = Some s' ∧ sy_reqs s' !! id = Some p').
  { cbn [sys_step]. rewrite Hp, Hs. destruct st as [[[f k] rf]|]; eexists; (split; [reflexivity|]); cbn; apply lookup_insert_eq. }
  destruct He as (s' & He & Hr). by eapply can_step; [exact He|done|apply Hn].
Qed.

Lemma finish_touch id ans s r now : sy_reqs s !! id = Some (AtTouch r now) → can_finish 1 id ans s.
Proof. intros Hp. eapply can_request; [done|reflexivity|]. intros s' _ Hr. by eapply can_done. Qed.

Lemma finish_note id ans s k r now : sy_reqs s !! id = Some (AtNote k r now) → can_finish 2 id ans s.
Proof.
  intros Hp. destruct (noteUse_locked (sy_a s) k now) as [a' q] eqn:Hn. eapply can_request; [done|cbn [request_step]; rewrite Hn; reflexivity|].
  intros s' _ Hr. destruct q; [by eapply finish_touch|]. eapply can_more; [by eapply can_done|lia].
Qed.

Lemma finish_judge id ans s k h r : sy_reqs s !! id = Some (AtJudge k h r) → can_finish 3 id ans s.
Proof.
  intros Hp. destruct (judge h r (sy_clock s)) as [kr|er] eqn:Hj; (eapply can_request; [done|cbn [request_step]; rewrite Hj; reflexivity|]); intros s' _ Hr.
  - by eapply finish_note.
  - eapply can_more; [by eapply can_done|lia].
Qed.

(** Steps left to the lookup of a flight before its waiters are woken. *)
Definition look_steps (l : option lpc) : nat :=
  match l with
  | Some (Asking _ _) => 4
  | Some (Answered _ _ _) => 3
  | Some (Recording _ _ _ _) => 2
  | Some Closing => 1
  | None => 0
  end.

(** The lookup's next piece, the store answering [ans] where it was asked. *)
Lemma look_next s f l id ans : inv s → sy_looks s !! f = Some l →
  ∃ e s', own_event id ans e ∧ sys_step s e = Some s' ∧ sy_reqs s' = sy_reqs s ∧ inv s' ∧ S (look_steps (sy_looks s' !! f)) = look_steps (Some l).
Proof.
  intros I Hl.
  assert (Hex : ∃ e s', own_event id ans e ∧ sys_step s e = Some s' ∧ sy_reqs s' = sy_reqs s ∧ S (look_steps (sy_looks s' !! f)) = look_steps (Some l)).
  { destruct l as [k rf|k rf an|k rf an now|]; [exists (Store f ans)|exists (Look f)..]; eexists; (split; [done|]);
      cbn [sys_step]; unfold lookup_step; rewrite Hl; (split; [reflexivity|]); (split; [done|]); cbn; by rewrite ?lookup_insert_eq, ?lookup_delete_eq. }
  destruct Hex as (e & s' & H1 & H2 & H3 & H4). exists e, s'. split_and!; try done. by eapply inv_step.
Qed.

Lemma finish_await id ans k h st f rf n : ∀ s, inv s → sy_reqs s !! id = Some (AtAwait k h st f rf) → look_steps (sy_looks s !! f) = n →
  can_finish (4 + n) id ans s.
Proof.
  induction n as [|n IH]; intros s I Hp Hn.
  - destruct (sy_looks s !! f) as [[]|] eqn:Hl; try done. destruct I as [K Hq].
    destruct (Hq _ _ Hp) as (bearer & b & _ & _ & _ & _ & x & Hx & _). destruct (k_heap _ K _ _ Hx) as [_ Hd].
    eapply can_request; [done| |intros s' _ Hr; by eapply finish_judge]. cbn [request_step await]. rewrite Hx, (Hd Hl). reflexivity.
  - destruct (sy_looks s !! f) as [l|] eqn:Hl; [|done]. destruct (look_next s f l id ans I Hl) as (e & s' & He & Hs & Hr & I' & Hls).
    replace (4 + S n)%nat with (S (4 + n)) by lia. eapply can_step; [done|done|]. apply IH; [done|by rewrite Hr|lia].
Qed.

Lemma finish_fetch id ans s k h st : inv s → sy_reqs s !! id = Some (AtFetch k h st) → can_finish 9 id ans s.
Proof.
  intros I Hp. destruct (fetch_locked (sy_a s) k (bool_decide (is_Some st)) (sy_clock s)) as [a' r] eqn:Hf.
  assert (Hw : ∀ s' st' f rf, sys_step s (Request id WDone) = Some s' → sy_reqs s' !! id = Some (AtAwait k h st' f rf) → can_finish 8 id ans s').
  { intros s' st' f rf Hs Hr. eapply can_more; [eapply finish_await; [by eapply inv_step|done|done]|].
    destruct (sy_looks s' !! f) as [[]|]; cbn; lia. }
  destruct r as [r|f|f]; (eapply can_request; [done|cbn [request_step]; rewrite Hf; reflexivity|]); intros s' Hs Hr; [|by eapply Hw..].
  eapply can_more; [by eapply finish_judge|lia].
Qed.

Lemma finish_request id ans s p : inv s → sy_reqs s !! id = Some p → can_finish 10 id ans s.
Proof.
  intros I Hp. destruct p as [k h now|k h st|k h st f rf|k h r|k r now|r now|r].
  - destruct (record_locked (sy_a s) k now) as [[a' c] down] eqn:Hr.
    destruct c as [r|q|]; [|destruct down..]; (eapply can_request; [done|cbn [request_step]; rewrite Hr; reflexivity|]); intros s' Hs Hr'.
    all: first [eapply finish_fetch; [by eapply inv_step|done]|eapply can_more; [by eapply finish_judge|lia]].
  - eapply can_more; [by eapply finish_fetch|lia].
  - eapply can_more; [by eapply finish_await|]. destruct (sy_looks s !! f) as [[]|]; cbn; lia.
  - eapply can_more; [by eapply finish_judge|lia].
  - eapply can_more; [by eapply finish_note|lia].
  - eapply can_more; [by eapply finish_touch|lia].
  - eapply can_more; [by eapply can_done|lia].
Qed.

End spec.

(** ** Theorems. *)

(** C7: Every answer is justified, in every interleaving.  A caller is accepted only with the
    principal of a record that the store returned for the presented prefix, whose secret hash is
    the presented one, which is active, of an active tenant and unexpired at some moment of the
    request, and which was noted less than CacheTTL + StaleGrace before the key was presented; no
    newer record or deletion of the key was noted between then and the presentation.  Revoked,
    expired and suspended are answered only to a caller who holds the secret; invalid only for a
    malformed, unknown or wrong key; a bad record only when the store said so during the request. *)
Theorem authenticate_justified touching cfg clock es s id r : config_int cfg →
  sys_run (sys_init touching cfg clock) es = Some s → sy_reqs s !! id = Some (Done r) →
  (∃ bearer b, sy_born s !! id = Some (bearer, b) ∧ justified cfg s bearer b r) ∧
  ∀ x, x ∈ sy_noted s → ∃ y, y ∈ sy_answers s ∧ sa_prefix y = no_prefix x ∧ sa_ans y = no_ans x ∧ mono (sa_at y) ≤ mono (no_at x).
Proof.
  intros Hc Hrun Hr. destruct (inv_reach touching cfg Hc clock es s Hrun) as [K Hq]. split.
  - destruct (Hq id _ Hr) as (bearer & b & Hb & _ & Hj). by exists bearer, b.
  - intros x Hx. apply (k_noted _ _ K _ Hx).
Qed.

(** C23: The store is never overrun: in every reachable state the lookups that have asked it and
    not yet given up their slot are at most MaxLookups, those for keys not in the cache leave at
    least the reserve for refreshes, there is at most one for a prefix, the two counters are
    exact, and neither cache exceeds its size. *)
Theorem lookups_bounded touching cfg clock es s : config_int cfg → sys_run (sys_init touching cfg clock) es = Some s →
  let c := auth_defaults cfg in
  inflightRefresh (sy_a s) = n_open true (sy_looks s) ∧ inflightNew (sy_a s) = n_open false (sy_looks s) ∧
  n_open true (sy_looks s) + n_open false (sy_looks s) ≤ MaxLookups c ∧ n_open false (sy_looks s) ≤ MaxLookups c - reserved c ∧
  1 ≤ reserved c < MaxLookups c ∧
  (∀ f f' l l' k, sy_looks s !! f = Some l → sy_looks s !! f' = Some l' → fst <$> is_open l = Some k → fst <$> is_open l' = Some k → f = f') ∧
  (CacheSizes (sy_a s)).1 ≤ CacheSize c ∧ (CacheSizes (sy_a s)).2 ≤ CacheSize c.
Proof.
  intros Hc Hrun c. destruct (inv_reach touching cfg Hc clock es s Hrun) as [K _]. pose proof (defaults_range cfg Hc) as R. cbn zeta in R.
  pose proof (k_caches _ _ K) as C. split_and!; [apply K|apply K|apply K|apply K|apply R|apply R| | |].
  - intros f f' l l' k Hl Hl' Hk Hk'. assert (H1 : flights (sy_a s) !! k = Some f) by (apply (k_flights _ _ K); by eexists).
    assert (H2 : flights (sy_a s) !! k = Some f') by (apply (k_flights _ _ K); by eexists). congruence.
  - unfold c. rewrite <- (k_cfg _ _ K), <- (c_pos_max _ _ C). apply (c_pos_ok _ _ C).
  - unfold c. rewrite <- (k_cfg _ _ K), <- (c_neg_max _ _ C). apply (c_neg_ok _ _ C).
Qed.

(** C24: No caller is left waiting: in every reachable state, whatever the store answers, each
    request reaches its end within ten steps that are its own pieces, the pieces of the lookup it
    waits for and that one answer, without any timeout firing, any context ending or any other
    request moving. *)
Theorem request_finishes touching cfg clock es s id p ans : config_int cfg →
  sys_run (sys_init touching cfg clock) es = Some s → sy_reqs s !! id = Some p →
  ∃ es' s' r, Forall (own_event id ans) es' ∧ (length es' ≤ 10)%nat ∧ sys_run s es' = Some s' ∧ sy_reqs s' !! id = Some (Done r).
Proof. intros Hc Hrun Hp. eapply finish_request; [done|by eapply inv_reach|done]. Qed.

(** ** Runs. *)

Definition demo_secret : list Z := Z.of_nat <$> seq 0 32.
Definition demo_key : list Z := (GenerateKey [1; 2; 3; 4] demo_secret).1.1.
Definition demo_prefix : list Z := (GenerateKey [1; 2; 3; 4] demo_secret).1.2.
Definition demo_policy : TenantPolicy := mkPolicy TenantActive None 60 1000 4 0.
Definition demo_record : KeyRecord := mkRecord "k1" "t1" "01020304" (GenerateKey [1; 2; 3; 4] demo_secret).2 KeyActive None demo_policy.
Definition demo_init : Sys := sys_init true DefaultConfig (mkTime 1000 1000).

(** One request asks the store and is accepted. *)
Definition demo_events : list event :=
  [Present 1 demo_key; Request 1 WDone; Request 1 WDone; Tick (mkTime 2000 2000); Store 0 (inl demo_record); Look 0; Look 0; Look 0;
   Request 1 WDone; Request 1 WDone; Request 1 WDone; Request 1 WDone].

(** The same, with a second request that read the clock before the lookup did and takes the lock
    after it. *)
Definition late_events : list event :=
  [Present 1 demo_key; Request 1 WDone; Request 1 WDone; Present 2 demo_key; Tick (mkTime 2000 2000); Store 0 (inl demo_record); Look 0; Look 0;
   Look 0; Request 2 WDone; Request 2 WDone].

Lemma default_int : config_int DefaultConfig.
Proof. by split. Qed.

Lemma authenticate_justified_witness :
  ∃ s, sys_run demo_init demo_events = Some s ∧ ∃ bearer b, sy_born s !! 1 = Some (bearer, b) ∧ justified DefaultConfig s bearer b (inl (principal demo_record)).
Proof.
  assert (Hr : (sys_run demo_init demo_events ≫= λ s, sy_reqs s !! 1) = Some (Done (inl (principal demo_record)))) by (vm_compute; reflexivity).
  destruct (sys_run demo_init demo_events) as [s|] eqn:Hs; [|discriminate Hr]. exists s. split; [reflexivity|].
  exact (proj1 (authenticate_justified true DefaultConfig (mkTime 1000 1000) demo_events s 1 (inl (principal demo_record)) default_int Hs Hr)).
Defined.

Lemma lookups_bounded_witness : ∃ s, sys_run demo_init late_events = Some s ∧ n_open true (sy_looks s) + n_open false (sy_looks s) ≤ 8.
Proof.
  assert (Hr : is_Some (sys_run demo_init late_events)) by (vm_compute; by eexists).
  destruct (sys_run demo_init late_events) as [s|] eqn:Hs; [|by destruct Hr]. exists s. split; [reflexivity|].
  destruct (lookups_bounded true DefaultConfig (mkTime 1000 1000) late_events s default_int Hs) as (_ & _ & Hb & _). exact Hb.
Defined.

Lemma request_finishes_witness : ∃ s, sys_run demo_init [Present 1 demo_key; Request 1 WDone; Request 1 WDone] = Some s ∧
  ∃ es' s' r, Forall (own_event 1 (inr ErrBusy)) es' ∧ (length es' ≤ 10)%nat ∧ sys_run s es' = Some s' ∧ sy_reqs s' !! 1 = Some (Done r).
Proof.
  set (es := [Present 1 demo_key; Request 1 WDone; Request 1 WDone]).
  assert (Hr : is_Some (sys_run demo_init es ≫= λ s, sy_reqs s !! 1)) by (vm_compute; by eexists).
  destruct (sys_run demo_init es) as [s|] eqn:Hs; [|by destruct Hr]. exists s. split; [reflexivity|]. cbn in Hr. destruct Hr as [p Hp].
  exact (request_finishes true DefaultConfig (mkTime 1000 1000) es s 1 p (inr ErrBusy) default_int Hs Hp).
Defined.

(** A caller that read the clock just before a lookup did, and takes the lock after it, sees an
    entry from the future, drops it, and asks the store again for a key verified a moment ago. *)
Example late_reader_evicts :
  match sys_run demo_init late_events with
  | Some s => sy_noted s = [mkNoted (mkTime 2000 2000) demo_prefix (inl demo_record)] ∧ sy_clock s = mkTime 2000 2000 ∧
      lru_lookup (pos (sy_a s)) demo_prefix = None ∧ sy_looks s !! 1 = Some (Asking demo_prefix false)
  | None => False
  end.
Proof. vm_compute. split_and!; reflexivity. Qed.
