(* ===== verification/Events.v ===== *)
(** * Lifecycle events: pkg/protocol/events.go

    The envelope, its payloads, and the checks a consumer makes before it trusts an event.  An
    error is the sentinel it wraps, with the message for an invalid event.  A timestamp is its
    UnixNano.  The bound on token counts is in [Tokens].  [json.Unmarshal] into the envelope and the payloads is a parameter ([EventJson]):
    the theorems hold whatever it makes of the bytes. *)

From S2P Require Import Prelude GoString Sha256 AuthKey Tokens.

Local Open Scope string_scope.
Local Open Scope list_scope.
Local Open Scope Z_scope.

Definition EventsTopicV1 : string := "inference.lifecycle.v1".
Definition EventSchemaVersion : Z := 1.
Definition MaxEventBytes : Z := 16384.
Definition MaxEventMillis : Z := 1000000000000.
Definition MaxEventAttempts : Z := 16.

Definition EventReceived : string := "inference.request.received".
Definition EventRouted : string := "inference.request.routed".
Definition EventFirstToken : string := "inference.request.first_token".
Definition EventCompleted : string := "inference.request.completed".
Definition EventFailed : string := "inference.request.failed".

Definition FailureNoCapacity : string := "no_capacity".
Definition FailureWorkerUnavailable : string := "worker_unavailable".
Definition FailureWorkerError : string := "worker_error".
Definition FailureTimeout : string := "timeout".
Definition FailureClientClosed : string := "client_closed".
Definition FailureInternal : string := "internal".

Definition TokensFromUsage : string := "usage".
Definition TokensFromChunks : string := "chunks".
Definition TokensFromEstimate : string := "estimate".

Inductive EventErr :=
| ErrEventInvalid (what : string)
| ErrEventTooLarge
| ErrEventVersionUnsupported.

Definition maxEventID : Z := 80.
Definition maxEventShort : Z := 64.
Definition maxEventModel : Z := 128.

Record ReceivedData := mkReceived { rd_Stream : bool; rd_EstimatedCostTokens : Z }.
Record RoutedData := mkRouted { AttemptNumber : Z; Strategy : string }.
Record FirstTokenData := mkFirst { ft_TTFTMS : Z }.

Record AttemptData := mkAttempt {
  ad_AttemptID : string;
  Number : Z;
  ad_WorkerID : string;
  ad_Outcome : string;
  ad_FailureClass : string;
  ad_DurationMS : Z;
}.

Record TerminalData := mkTerminal {
  td_Stream : bool;
  HTTPStatus : Z;
  DurationMS : Z;
  TTFTMS : Z;
  InputTokens : option Z;
  OutputTokens : option Z;
  TokensSource : string;
  EstimatedCostTokens : Z;
  FailureClass : string;
  Attempts : list AttemptData;
}.

Record LifecycleEvent := mkLifecycle {
  EventID : string;
  EventType : string;
  SchemaVersion : Z;
  ev_Timestamp : Z;
  ev_Source : string;
  ev_RequestID : string;
  ev_AttemptID : string;
  ev_TenantID : string;
  ev_APIKeyID : string;
  ev_Model : string;
  ev_WorkerID : string;
  Received : option ReceivedData;
  Routed : option RoutedData;
  FirstToken : option FirstTokenData;
  Terminal : option TerminalData;
}.

Definition IsTerminalEventType (t : string) : bool := String.eqb t EventCompleted || String.eqb t EventFailed.

Definition NewEventID (requestID eventType attemptID : string) : string :=
  of_bytes (bytes "evt_" ++ take 32 (hex_EncodeToString (Sum256 (bytes requestID ++ [0] ++ bytes eventType ++ [0] ++ bytes attemptID)))).

(** ** Validation.  The first check that fails decides. *)

Definition orElse (a b : option EventErr) : option EventErr := match a with Some e => Some e | None => b end.

Local Infix "&>" := orElse (at level 60, right associativity).

Definition invalid_if (c : bool) (what : string) : option EventErr := if c then Some (ErrEventInvalid what) else None.

Definition has_control (v : string) : bool := existsb (λ c, (c <? 0x20) || (c =? 0x7f)) (bytes v).

Definition checkString (name v : string) (max : Z) (required : bool) : option EventErr :=
  invalid_if (required && String.eqb v "") (name +:+ " is empty") &>
  invalid_if (max <? slen v) (name +:+ " is too long") &>
  invalid_if (has_control v) (name +:+ " has a control character").

Definition checkPrefixed (name v prefix : string) (required : bool) : option EventErr :=
  checkString name v maxEventID required &>
  invalid_if (negb (String.eqb v "") && negb (String.prefix prefix v)) (name +:+ " does not start with its prefix").

Definition outside (lo hi n : Z) : bool := (n <? lo) || (hi <? n).

Definition count_outside (n : option Z) : bool := match n with Some n => outside 0 MaxEventTokens n | None => false end.

Definition checkAttempt (a : AttemptData) : option EventErr :=
  checkPrefixed "attempts.attempt_id" (ad_AttemptID a) "att_" true &>
  checkString "attempts.worker_id" (ad_WorkerID a) maxEventShort false &>
  checkString "attempts.outcome" (ad_Outcome a) maxEventShort true &>
  checkString "attempts.failure_class" (ad_FailureClass a) maxEventShort false &>
  invalid_if ((Number a <? 1) || outside 0 MaxEventMillis (ad_DurationMS a)) "attempts has a bad number or duration".

Definition known_failure (c : string) : bool :=
  existsb (String.eqb c) [FailureNoCapacity; FailureWorkerUnavailable; FailureWorkerError; FailureTimeout; FailureClientClosed; FailureInternal].

Definition known_source (s : string) : bool := existsb (String.eqb s) [TokensFromUsage; TokensFromChunks; TokensFromEstimate].

Definition validateTerminal (e : LifecycleEvent) (t : TerminalData) : option EventErr :=
  invalid_if (outside 100 599 (HTTPStatus t)) "http_status out of range" &>
  invalid_if (outside 0 MaxEventMillis (DurationMS t) || outside 0 MaxEventMillis (TTFTMS t) || outside 0 MaxEventTokens (EstimatedCostTokens t))
    "a duration or count is out of range" &>
  invalid_if (count_outside (InputTokens t) || count_outside (OutputTokens t)) "a token count is out of range" &>
  invalid_if (negb (known_source (TokensSource t))) "tokens_source is not one of usage, chunks, estimate" &>
  invalid_if (String.eqb (TokensSource t) TokensFromEstimate && (bool_decide (is_Some (InputTokens t)) || bool_decide (is_Some (OutputTokens t))))
    "token counts present with tokens_source estimate" &>
  (if String.eqb (EventType e) EventFailed
   then invalid_if (negb (known_failure (FailureClass t))) "failed event has an unknown failure_class"
   else invalid_if (negb (String.eqb (FailureClass t) "")) "completed event has a failure_class") &>
  invalid_if (MaxEventAttempts <? Z.of_nat (length (Attempts t))) "more than 16 attempts" &>
  foldr (λ a r, checkAttempt a &> r) None (Attempts t).

Definition set {A} (o : option A) : Z := match o with Some _ => 1 | None => 0 end.

Definition mismatch : option EventErr := Some (ErrEventInvalid "payload does not match event_type").

Definition validatePayload (e : LifecycleEvent) : option EventErr :=
  invalid_if (negb (set (Received e) + set (Routed e) + set (FirstToken e) + set (Terminal e) =? 1)) "exactly one payload is required" &>
  (if String.eqb (EventType e) EventReceived then
     match Received e with
     | None => mismatch
     | Some d => invalid_if (outside 0 MaxEventTokens (rd_EstimatedCostTokens d)) "estimated_cost_tokens is out of range"
     end
   else if String.eqb (EventType e) EventRouted then
     match Routed e with
     | None => mismatch
     | Some d =>
         invalid_if (String.eqb (ev_AttemptID e) "" || (AttemptNumber d <? 1)) "routed needs attempt_id and attempt_number" &>
         checkString "strategy" (Strategy d) maxEventShort false
     end
   else if String.eqb (EventType e) EventFirstToken then
     match FirstToken e with
     | None => mismatch
     | Some d => invalid_if (outside 0 MaxEventMillis (ft_TTFTMS d)) "ttft_ms is out of range"
     end
   else if IsTerminalEventType (EventType e) then
     match Terminal e with
     | None => mismatch
     | Some t => validateTerminal e t
     end
   else Some (ErrEventInvalid "unknown event_type")).

(** [Event.Validate] *)
Definition Event_Validate (e : LifecycleEvent) : option EventErr :=
  (if negb (SchemaVersion e =? EventSchemaVersion) then
     if EventSchemaVersion <? SchemaVersion e then Some ErrEventVersionUnsupported else Some (ErrEventInvalid "schema_version")
   else None) &>
  checkPrefixed "event_id" (EventID e) "evt_" true &>
  checkPrefixed "request_id" (ev_RequestID e) "req_" true &>
  checkPrefixed "attempt_id" (ev_AttemptID e) "att_" false &>
  checkPrefixed "api_key_id" (ev_APIKeyID e) "key_" false &>
  checkPrefixed "tenant_id" (ev_TenantID e) "ten_" false &>
  checkString "source" (ev_Source e) maxEventShort true &>
  checkString "model" (ev_Model e) maxEventModel false &>
  checkString "worker_id" (ev_WorkerID e) maxEventShort false &>
  invalid_if (ev_Timestamp e =? wall zeroTime) "timestamp is zero" &>
  invalid_if (negb (String.eqb (EventID e) (NewEventID (ev_RequestID e) (EventType e) (ev_AttemptID e))))
    "event_id does not match request_id, event_type and attempt_id" &>
  validatePayload e.

(** ** Decoding. *)

(** The JSON shape: the envelope with the payload's bytes. *)
Record wire := mkWire {
  w_EventID : string;
  w_EventType : string;
  w_SchemaVersion : Z;
  w_Timestamp : Z;
  w_Source : string;
  w_RequestID : string;
  w_AttemptID : string;
  w_TenantID : string;
  w_APIKeyID : string;
  w_Model : string;
  w_WorkerID : string;
  w_Payload : list Z;
}.

(** [json.Unmarshal] into each of the types, [None] for an error, and [json.Valid]. *)
Class EventJson := {
  unmarshal_version : list Z → option Z;
  unmarshal_wire : list Z → option wire;
  unmarshal_received : list Z → option ReceivedData;
  unmarshal_routed : list Z → option RoutedData;
  unmarshal_first : list Z → option FirstTokenData;
  unmarshal_terminal : list Z → option TerminalData;
  json_Valid : list Z → bool;
}.

Section decode.
Context `{EventJson}.

(** [dec]: the payload, or why not.  What encoding/json keeps of a payload is JSON text, whose
    spaces are ASCII. *)
Definition decodePayload {A} (f : list Z → option A) (payload : list Z) : A + EventErr :=
  if forallb (λ c, (c =? 32) || ((9 <=? c) && (c <=? 13))) payload then inr (ErrEventInvalid "payload is missing") else
  match f payload with
  | None => inr (ErrEventInvalid "payload is malformed")
  | Some d => inl d
  end.

Definition validated (e : LifecycleEvent) : LifecycleEvent + EventErr :=
  match Event_Validate e with Some err => inr err | None => inl e end.

Definition Decode (b : list Z) : LifecycleEvent + EventErr :=
  if MaxEventBytes <? Z.of_nat (length b) then inr ErrEventTooLarge else
  match unmarshal_version b with
  | None => inr (ErrEventInvalid "not a JSON object")
  | Some v =>
      if EventSchemaVersion <? v then inr ErrEventVersionUnsupported else
      match unmarshal_wire b with
      | None => inr (ErrEventInvalid "malformed event")
      | Some w =>
          let e := mkLifecycle (w_EventID w) (w_EventType w) (w_SchemaVersion w) (w_Timestamp w) (w_Source w) (w_RequestID w)
                     (w_AttemptID w) (w_TenantID w) (w_APIKeyID w) (w_Model w) (w_WorkerID w) in
          if String.eqb (w_EventType w) EventReceived then
            match decodePayload unmarshal_received (w_Payload w) with inr err => inr err | inl d => validated (e (Some d) None None None) end
          else if String.eqb (w_EventType w) EventRouted then
            match decodePayload unmarshal_routed (w_Payload w) with inr err => inr err | inl d => validated (e None (Some d) None None) end
          else if String.eqb (w_EventType w) EventFirstToken then
            match decodePayload unmarshal_first (w_Payload w) with inr err => inr err | inl d => validated (e None None (Some d) None) end
          else if IsTerminalEventType (w_EventType w) then
            match decodePayload unmarshal_terminal (w_Payload w) with inr err => inr err | inl d => validated (e None None None (Some d)) end
          else inr (ErrEventInvalid "unknown event_type")
      end
  end.

End decode.
