(* ===== verification/Usage.v ===== *)
(** * The usage consumer: internal/usage, and the tables it writes

    [Run] polls batches of records from Kafka, turns terminal events into rows, writes rows and
    rejects to PostgreSQL, and commits offsets afterwards.  The consumer is a state monad over
    the tables and the counters.  What the database does with each call is an input ([DbAns]), as
    are the broker's answers; when the inputs run out, the process has died at that call.

    The tables are lists with the unique keys and CHECK constraints of
    migrations/0003_usage_records.sql; INSERT ... ON CONFLICT DO NOTHING leaves a row out when
    one with its event or request exists.  BeforeCommit, a hook for tests, is not modelled: a
    process that dies before the commit is. *)

From S2P Require Import Prelude GoString AuthKey Events.

Local Open Scope string_scope.
Local Open Scope list_scope.
Local Open Scope Z_scope.
Local Open Scope go_scope.

(** ** types.go *)

Record TopicMessage := mkMessage { m_Topic : string; m_Partition : Z; m_Offset : Z; m_Key : list Z; m_Value : list Z; m_Timestamp : Z }.

Record TopicOffset := mkOffset { o_Topic : string; o_Partition : Z; o_Offset : Z }.

Record Row := mkRow {
  r_EventID : string;
  r_RequestID : string;
  r_TenantID : string;
  r_APIKeyID : string;
  r_Model : string;
  r_WorkerID : string;
  r_Outcome : string;
  r_FailureClass : string;
  r_HTTPStatus : Z;
  r_InputTokens : option Z;
  r_OutputTokens : option Z;
  r_TokensSource : string;
  r_EstimatedCostTokens : Z;
  r_Attempts : Z;
  r_TTFTMS : Z;
  r_DurationMS : Z;
  r_OccurredAt : Z;
  r_Partition : Z;
  r_Offset : Z;
}.

Record Reject := mkReject { j_Topic : string; j_Partition : Z; j_Offset : Z; j_Reason : string }.

Definition RejectDecode : string := "decode".
Definition RejectInvalid : string := "invalid".
Definition RejectVersion : string := "version".
Definition RejectOversize : string := "oversize".

(** ** The tables. *)

Record DB := mkDB { usage_records : list Row; usage_rejected_events : list Reject }.

(** char_length counts characters: the bytes that do not continue one. *)
Definition char_length (s : string) : Z := Z.of_nat (length (List.filter (λ c, negb (cont c)) (bytes s))).

Definition is_hex (c : Z) : bool := is_digit c || ((97 <=? c) && (c <=? 102)).

(** event_id ~ '^evt_[0-9a-f]{32}$' *)
Definition event_id_format (s : string) : bool :=
  bool_decide (take 4 (bytes s) = bytes "evt_") && (length (drop 4 (bytes s)) =? 32)%nat && forallb is_hex (drop 4 (bytes s)).

Definition nonneg (n : option Z) : bool := match n with Some n => 0 <=? n | None => true end.

(** The CHECK constraints of usage_records. *)
Definition row_checks (r : Row) : bool :=
  event_id_format (r_EventID r) && String.prefix "req_" (r_RequestID r) &&
  (char_length (r_Model r) <=? 128) && (char_length (r_WorkerID r) <=? 64) &&
  existsb (String.eqb (r_Outcome r)) ["completed"; "failed"] &&
  ((100 <=? r_HTTPStatus r) && (r_HTTPStatus r <=? 599)) &&
  nonneg (r_InputTokens r) && nonneg (r_OutputTokens r) &&
  existsb (String.eqb (r_TokensSource r)) ["usage"; "chunks"; "estimate"] &&
  (0 <=? r_EstimatedCostTokens r) && (0 <=? r_Attempts r) && (0 <=? r_TTFTMS r) && (0 <=? r_DurationMS r) &&
  Bool.eqb (String.eqb (r_Outcome r) "failed") (negb (String.eqb (r_FailureClass r) "")).

Definition same_row (r x : Row) : bool := String.eqb (r_EventID x) (r_EventID r) || String.eqb (r_RequestID x) (r_RequestID r).

(** One INSERT: the table and the rows affected. *)
Definition insert_row (rows : list Row) (r : Row) : list Row * Z :=
  if existsb (same_row r) rows then (rows, 0) else (rows ++ [r], 1).

Fixpoint insert_rows (rows new : list Row) : list Row * Z :=
  match new with
  | [] => (rows, 0)
  | r :: new => let '(rows, n) := insert_row rows r in let '(rows, m) := insert_rows rows new in (rows, n + m)
  end.

Definition same_reject (j x : Reject) : bool :=
  String.eqb (j_Topic x) (j_Topic j) && (j_Partition x =? j_Partition j) && (j_Offset x =? j_Offset j).

Definition insert_reject (js : list Reject) (j : Reject) : list Reject := if existsb (same_reject j) js then js else js ++ [j].

(** How the process stands when a call has failed: going on, ended when [retry] looks at the
    context, or ended while it waits. *)
Inductive Ended := Alive | EndedNow | EndedWaiting.

(** What happens to one call: it is carried out; the content is refused; or it fails, with so
    much of it carried out all the same (all or nothing of a transaction). *)
Inductive DbAns := DbUp | DbRefused | DbDown (applied : nat) (e : Ended).

Inductive StoreErr := ErrBadData | ErrDatabase.

Definition InsertUsage (db : DB) (rows : list Row) (a : DbAns) : DB * (Z + StoreErr) :=
  if (length rows =? 0)%nat then (db, inl 0) else
  let '(all, n) := insert_rows (usage_records db) rows in
  let done := mkDB all (usage_rejected_events db) in
  match a with
  | DbUp => if forallb row_checks rows then (done, inl n) else (db, inr ErrBadData)
  | DbRefused => (db, inr ErrBadData)
  | DbDown applied _ => (if (0 <? applied)%nat && forallb row_checks rows then done else db, inr ErrDatabase)
  end.

Definition RecordRejects (db : DB) (js : list Reject) (a : DbAns) : DB * (unit + StoreErr) :=
  if (length js =? 0)%nat then (db, inl tt) else
  let after k := mkDB (usage_records db) (foldl insert_reject (usage_rejected_events db) (take k js)) in
  match a with
  | DbUp => (after (length js), inl tt)
  | DbRefused => (db, inr ErrDatabase)
  | DbDown applied _ => (after applied, inr ErrDatabase)
  end.

(** ** The consumer. *)

Record Config := mkConfig { BatchSize : Z; BatchTimeout : Z; GroupID : string; uc_Topic : string; BackoffMin : Z; BackoffMax : Z; CommitTimeout : Z; ShutdownGrace : Z }.

(** [New]'s defaults. *)
Definition usage_defaults (c : Config) : Config :=
  let bmin := if BackoffMin c <=? 0 then 100 * Millisecond else BackoffMin c in
  mkConfig (if BatchSize c <? 1 then 500 else BatchSize c) (if BatchTimeout c <=? 0 then Second else BatchTimeout c) (GroupID c) (uc_Topic c)
    bmin (if BackoffMax c <? bmin then 10 * Second else BackoffMax c)
    (if CommitTimeout c <=? 0 then 10 * Second else CommitTimeout c) (if ShutdownGrace c <=? 0 then 5 * Second else ShutdownGrace c).

Record Consumer := mkConsumer {
  u_db : DB;
  u_answers : list DbAns;
  inserted : Z;
  duplicate : Z;
  skipped : Z;
  rejected : Z;
  dbErrors : Z;
  dbDown : bool;
  waits : list Z;
}.

#[global] Instance Consumer_settable : Settable Consumer :=
  {| eta_of := λ c, mkConsumer (u_db c) (u_answers c) (inserted c) (duplicate c) (skipped c) (rejected c) (dbErrors c) (dbDown c) (waits c) |}.

(** How a call of the consumer ends: with a value, an error, or with the process dead. *)
Inductive RunErr := BadData | ContextEnded.

Inductive Out (A : Type) := Ok (a : A) | Err (e : RunErr) | Dead.

Arguments Ok {A} _.
Arguments Err {A} _.
Arguments Dead {A}.

Definition M (A : Type) : Type := Consumer → Out A * Consumer.

Definition ret {A} (a : A) : M A := λ c, (Ok a, c).

Definition bind {A B} (m : M A) (f : A → M B) : M B := λ c,
  match m c with
  | (Ok a, c) => f a c
  | (Err e, c) => (Err e, c)
  | (Dead, c) => (Dead, c)
  end.

Local Notation "'let*' x := m 'in' k" := (bind m (λ x, k)) (at level 10, x name, m at level 100, k at level 200).

Definition modify (f : Consumer → Consumer) : M unit := λ c, (Ok tt, f c).

Section consumer.
Context `{EventJson} (cfg : Config).

(** [retry]: the call again until it succeeds, is refused, or the context ends. *)
Fixpoint retry_go {A} (op : DB → DbAns → DB * (A + StoreErr)) (answers : list DbAns) (wait : Z) (c : Consumer) : Out A * Consumer :=
  match answers with
  | [] => (Dead, c)
  | a :: answers =>
      let '(db, r) := op (u_db c) a in
      let c := c <| u_db := db |> <| u_answers := answers |> in
      match r with
      | inl v => (Ok v, c <| dbDown := false |>)
      | inr ErrBadData => (Err BadData, c)
      | inr ErrDatabase =>
          match a with
          | DbDown _ EndedNow => (Err ContextEnded, c)
          | _ =>
              let c := c <| dbErrors := dbErrors c + 1 |> <| dbDown := true |> <| waits := waits c ++ [wait] |> in
              match a with
              | DbDown _ EndedWaiting => (Err ContextEnded, c)
              | _ => retry_go op answers (Z.min (wait *! 2) (BackoffMax cfg)) c
              end
          end
      end
  end.

Definition retry {A} (op : DB → DbAns → DB * (A + StoreErr)) : M A := λ c, retry_go op (u_answers c) (BackoffMin cfg) c.

(** A row, a reject, or a record that is not terminal. *)
Inductive Classified := IsRow (r : Row) | IsReject (j : Reject) | IsSkip.

Definition classifyMessage (m : TopicMessage) : Classified :=
  let rej reason := IsReject (mkReject (m_Topic m) (m_Partition m) (m_Offset m) reason) in
  if MaxEventBytes <? Z.of_nat (length (m_Value m)) then rej RejectOversize else
  match Decode (m_Value m) with
  | inr ErrEventVersionUnsupported => rej RejectVersion
  | inr ErrEventTooLarge => rej RejectOversize
  | inr (ErrEventInvalid _) => if negb (json_Valid (m_Value m)) then rej RejectDecode else rej RejectInvalid
  | inl e =>
      if negb (IsTerminalEventType (EventType e)) then IsSkip else
      match Terminal e with
      | None => IsSkip (* a nil dereference: Decode gives a terminal event its payload *)
      | Some t =>
          let outcome := if String.eqb (EventType e) EventFailed then "failed" else "completed" in
          IsRow (mkRow (EventID e) (ev_RequestID e) (ev_TenantID e) (ev_APIKeyID e) (ev_Model e) (ev_WorkerID e) outcome (FailureClass t)
                   (HTTPStatus t) (InputTokens t) (OutputTokens t) (TokensSource t) (EstimatedCostTokens t) (Z.of_nat (length (Attempts t)))
                   (TTFTMS t) (DurationMS t) (ev_Timestamp e) (m_Partition m) (m_Offset m))
      end
  end.

Definition rows_of (ms : list TopicMessage) : list Row := ms ≫= λ m, match classifyMessage m with IsRow r => [r] | _ => [] end.
Definition rejects_of (ms : list TopicMessage) : list Reject := ms ≫= λ m, match classifyMessage m with IsReject j => [j] | _ => [] end.
Definition skips_of (ms : list TopicMessage) : Z := Z.of_nat (length (List.filter (λ m, match classifyMessage m with IsSkip => true | _ => false end) ms)).

(** The rows one by one: how many were new, and the ones the database refused. *)
Fixpoint insertEach (rows : list Row) (n : Z) (bad : list Reject) : M (Z * list Reject) :=
  match rows with
  | [] => ret (n, bad)
  | r :: rows => λ c,
      match retry (λ db, InsertUsage db [r]) c with
      | (Ok one, c) => insertEach rows (n + one) bad c
      | (Err BadData, c) => insertEach rows n (bad ++ [mkReject (uc_Topic cfg) (r_Partition r) (r_Offset r) RejectInvalid]) c
      | (Err e, c) => (Err e, c)
      | (Dead, c) => (Dead, c)
      end
  end.

Definition insert (rows : list Row) : M (Z * list Reject) :=
  if (length rows =? 0)%nat then ret (0, []) else λ c,
  match retry (λ db, InsertUsage db rows) c with
  | (Ok n, c) => (Ok (n, []), c)
  | (Err BadData, c) =>
      (let* nb := insertEach rows 0 [] in
       let* _ := if (length nb.2 =? 0)%nat then ret tt else retry (λ db, RecordRejects db nb.2) in
       ret nb) c
  | (Err e, c) => (Err e, c)
  | (Dead, c) => (Dead, c)
  end.

(** The offsets to commit: one past the highest of each partition. *)
Definition next_offset (next : gmap Z TopicOffset) (m : TopicMessage) : gmap Z TopicOffset :=
  let o := mkOffset (m_Topic m) (m_Partition m) (m_Offset m +! 1) in
  match next !! m_Partition m with
  | Some p => if o_Offset p <? m_Offset m +! 1 then <[m_Partition m := o]> next else next
  | None => <[m_Partition m := o]> next
  end.

(** [process] up to the commit: the offsets, once the batch is durable. *)
Definition process (batch : list TopicMessage) : M (gmap Z TopicOffset) :=
  let rows := rows_of batch in
  let rejects := rejects_of batch in
  let* _ := if (length rejects =? 0)%nat then ret tt else retry (λ db, RecordRejects db rejects) in
  let* nb := insert rows in
  let* _ := modify (λ c, c <| inserted := inserted c + nb.1 |>
                          <| duplicate := duplicate c + (Z.of_nat (length rows) - Z.of_nat (length nb.2) - nb.1) |>
                          <| skipped := skipped c + skips_of batch |>
                          <| rejected := rejected c + Z.of_nat (length rejects + length nb.2) |>) in
  ret (foldl next_offset ∅ batch).

(** [commit]: three attempts, each carried out or not whatever its answer is. *)
Fixpoint commit (attempts : nat) (offs : gmap Z TopicOffset) (answers : list (bool * bool)) (committed : gmap Z Z) : gmap Z Z :=
  match attempts, answers with
  | S attempts, (ok, applied) :: answers =>
      let committed := if ok || applied then (o_Offset <$> offs) ∪ committed else committed in
      if ok then committed else commit attempts offs answers committed
  | _, _ => committed
  end.

End consumer.

(** ** Kafka and the consumer together. *)

(** The topic's partitions as lists of values, an offset being a place in the list; the offsets
    committed; where the live consumer reads next; and the consumer. *)
Record Topic := mkTopic {
  t_log : gmap Z (list (list Z));
  t_committed : gmap Z Z;
  t_position : gmap Z Z;
  t_alive : bool;
  t_consumer : Consumer;
}.

#[global] Instance Topic_settable : Settable Topic :=
  {| eta_of := λ t, mkTopic (t_log t) (t_committed t) (t_position t) (t_alive t) (t_consumer t) |}.

Definition newConsumer (db : DB) : Consumer := mkConsumer db [] 0 0 0 0 0 false [].

Definition newTopic : Topic := mkTopic ∅ ∅ ∅ true (newConsumer (mkDB [] [])).

Section topic.
Context `{EventJson} (cfg : Config).

Definition values (t : Topic) (p : Z) : list (list Z) := default [] (t_log t !! p).

Definition position (t : Topic) (p : Z) : Z := default 0 (t_position t !! p).

(** The record at an offset. *)
Definition message (p o : Z) (v : list Z) : TopicMessage := mkMessage (uc_Topic cfg) p o [] v 0.

(** The next [n] records of a partition, and the position after them. *)
Definition fetch (t : Topic) (p : Z) (n : nat) : list TopicMessage :=
  imap (λ i v, message p (position t p + Z.of_nat i) v) (take n (drop (Z.to_nat (position t p)) (values t p))).

Definition advance (t : Topic) (p : Z) (n : nat) : Topic :=
  t <| t_position := <[p := position t p + Z.of_nat (length (fetch t p n))]> (t_position t) |>.

(** One [Poll]: some records of some partitions, in the order of the log, at most [max]. *)
Fixpoint poll (t : Topic) (max : nat) (ps : list (Z * nat)) : Topic * list TopicMessage :=
  match ps with
  | [] => (t, [])
  | (p, n) :: ps =>
      let ms := fetch t p (min n max) in
      let '(t, rest) := poll (advance t p (min n max)) (max - length ms) ps in
      (t, ms ++ rest)
  end.

(** [collectBatch]: each element of [polls] is what one [Poll] finds, [None] a failing one; when
    they end, the batch's timer has fired, the context has ended or the source is closed. *)
Fixpoint collectBatch (t : Topic) (polls : list (option (list (Z * nat)))) (batch : list TopicMessage) : Topic * list TopicMessage :=
  match polls with
  | [] => (t, batch)
  | q :: polls =>
      if Z.of_nat (length batch) <? BatchSize cfg then
        match q with
        | None => collectBatch t polls batch
        | Some ps =>
            let '(t, ms) := poll t (Z.to_nat (BatchSize cfg) - length batch) ps in
            collectBatch t polls (batch ++ ms)
        end
      else (t, batch)
  end.

(** One round of [Run]'s loop: collect, process with the database's answers, commit. *)
Definition round (t : Topic) (polls : list (option (list (Z * nat)))) (answers : list DbAns) (commits : list (bool * bool)) : Topic :=
  let '(t, batch) := collectBatch t polls [] in
  if (length batch =? 0)%nat then t else
  match process cfg batch ((t_consumer t) <| u_answers := answers |>) with
  | (Ok offs, c) => t <| t_consumer := c |> <| t_committed := commit 3 offs commits (t_committed t) |>
  | (_, c) => t <| t_consumer := c |> <| t_alive := false |>
  end.

Inductive topic_event :=
| Produce (p : Z) (v : list Z)
| Round (polls : list (option (list (Z * nat)))) (answers : list DbAns) (commits : list (bool * bool))
| Restart.

(** A record is produced; the consumer makes a round; or it dies, or loses its partitions, and
    starts again from the committed offsets with fresh counters. *)
Definition topic_step (t : Topic) (e : topic_event) : Topic :=
  match e with
  | Produce p v => t <| t_log := <[p := values t p ++ [v]]> (t_log t) |>
  | Round polls answers commits => if t_alive t then round t polls answers commits else t
  | Restart => t <| t_position := t_committed t |> <| t_alive := true |> <| t_consumer := newConsumer (u_db (t_consumer t)) |>
  end.

Definition topic_run (es : list topic_event) : Topic := foldl topic_step newTopic es.

End topic.
