(* ===== verification/UsageSpec.v ===== *)
(** * What the usage consumer guarantees

    Over any history of produced records, rounds, failures and restarts: nothing below a
    committed offset is lost, and nothing is recorded twice; a round ends once the database
    answers; and what validation lets through the tables accept. *)

From S2P Require Import Prelude GoString Sha256 AuthKey Tokens Events Usage.

Local Open Scope string_scope.
Local Open Scope list_scope.
Local Open Scope Z_scope.
Local Open Scope go_scope.

(** ** The tables. *)

Lemma same_row_refl r : same_row r r = true.
Proof. unfold same_row. by rewrite String.eqb_refl. Qed.

(** No two rows share an event or a request. *)
Definition unique_rows (rows : list Row) : Prop := NoDup (r_EventID <$> rows) ∧ NoDup (r_RequestID <$> rows).

Lemma insert_row_spec rows r : let '(rows', n) := insert_row rows r in
  (∀ x, x ∈ rows → x ∈ rows') ∧ (∀ x, x ∈ rows' → x ∈ rows ∨ x = r) ∧ existsb (same_row r) rows' = true ∧
  (unique_rows rows → unique_rows rows') ∧ Z.of_nat (length rows') = Z.of_nat (length rows) + n.
Proof.
  unfold insert_row. destruct (existsb (same_row r) rows) eqn:He; [by split_and!; auto; lia|]. split_and!.
  - intros x Hx. apply elem_of_app. by left.
  - intros x [Hx|Hx%list_elem_of_singleton]%elem_of_app; auto.
  - rewrite existsb_app. cbn. by rewrite same_row_refl, orb_true_r.
  - assert (Hn : ∀ x, x ∈ rows → r_EventID x ≠ r_EventID r ∧ r_RequestID x ≠ r_RequestID r).
    { intros x Hx. assert (Hs : same_row r x = false).
      { destruct (same_row r x) eqn:Hs; [|done]. rewrite <- He. symmetry. apply existsb_exists. exists x. split; [by apply list_elem_of_In|done]. }
      unfold same_row in Hs. apply orb_false_iff in Hs as [H1 H2]. split; by apply String.eqb_neq. }
    intros [H1 H2]. unfold unique_rows. rewrite !fmap_app, !NoDup_app. split_and!; try done; try apply NoDup_singleton.
    + intros y (x & -> & Hx)%list_elem_of_fmap Hy%list_elem_of_singleton. by apply Hn in Hx as [].
    + intros y (x & -> & Hx)%list_elem_of_fmap Hy%list_elem_of_singleton. by apply Hn in Hx as [].
  - rewrite length_app. cbn. lia.
Qed.

Lemma existsb_incl {A} (f : A → bool) l l' : (∀ x, x ∈ l → x ∈ l') → existsb f l = true → existsb f l' = true.
Proof. intros Hl (x & Hx & Hf)%existsb_exists. apply existsb_exists. exists x. split; [|done]. by apply list_elem_of_In, Hl, list_elem_of_In. Qed.

Lemma insert_rows_spec new : ∀ rows, let '(rows', n) := insert_rows rows new in
  (∀ x, x ∈ rows → x ∈ rows') ∧ (∀ x, x ∈ rows' → x ∈ rows ∨ x ∈ new) ∧ (∀ r, r ∈ new → existsb (same_row r) rows' = true) ∧
  (unique_rows rows → unique_rows rows') ∧ Z.of_nat (length rows') = Z.of_nat (length rows) + n.
Proof.
  induction new as [|r new IH]; intros rows; cbn [insert_rows].
  { split_and!; auto; [by intros r ?%elem_of_nil|lia]. }
  pose proof (insert_row_spec rows r) as H1. destruct (insert_row rows r) as [rows1 n1]. specialize (IH rows1).
  destruct (insert_rows rows1 new) as [rows2 n2]. destruct H1 as (A1 & A2 & A3 & A4 & A5). destruct IH as (B1 & B2 & B3 & B4 & B5). split_and!.
  - auto.
  - intros x Hx. destruct (B2 x Hx) as [Hx'|Hx']; [destruct (A2 x Hx') as [Ho| ->]; [by left|right; by left]|right; by right].
  - intros x [->|Hx]%elem_of_cons; [by eapply existsb_incl|auto].
  - auto.
  - lia.
Qed.

Lemma same_reject_refl j : same_reject j j = true.
Proof. unfold same_reject. by rewrite String.eqb_refl, !Z.eqb_refl. Qed.

Lemma insert_rejects_spec new : ∀ js, let js' := foldl insert_reject js new in
  (∀ x, x ∈ js → x ∈ js') ∧ (∀ x, x ∈ js' → x ∈ js ∨ x ∈ new) ∧ (∀ j, j ∈ new → existsb (same_reject j) js' = true).
Proof.
  induction new as [|j new IH]; intros js; cbn zeta; cbn [foldl].
  { split_and!; auto. by intros j ?%elem_of_nil. }
  assert (Hj : (∀ x, x ∈ js → x ∈ insert_reject js j) ∧ (∀ x, x ∈ insert_reject js j → x ∈ js ∨ x = j) ∧ existsb (same_reject j) (insert_reject js j) = true).
  { unfold insert_reject. destruct (existsb (same_reject j) js) eqn:He; [by split_and!; auto|]. split_and!.
    - intros x Hx. apply elem_of_app. by left.
    - intros x [Hx|Hx%list_elem_of_singleton]%elem_of_app; auto.
    - rewrite existsb_app. cbn. by rewrite same_reject_refl, orb_true_r. }
  destruct Hj as (A1 & A2 & A3). destruct (IH (insert_reject js j)) as (B1 & B2 & B3). split_and!.
  - auto.
  - intros x Hx. destruct (B2 x Hx) as [Hx'|Hx']; [destruct (A2 x Hx') as [Ho| ->]; [by left|right; by left]|right; by right].
  - intros x [->|Hx]%elem_of_cons; [by eapply existsb_incl|auto].
Qed.

(** [db'] is [db] with some of [rows] and [js] added. *)
Record grown (rows : list Row) (js : list Reject) (db db' : DB) : Prop := {
  g_rows : ∀ x, x ∈ usage_records db → x ∈ usage_records db';
  g_rejects : ∀ x, x ∈ usage_rejected_events db → x ∈ usage_rejected_events db';
  g_new : ∀ x, x ∈ usage_records db' → x ∈ usage_records db ∨ x ∈ rows ∧ row_checks x = true;
  g_new_rejects : ∀ x, x ∈ usage_rejected_events db' → x ∈ usage_rejected_events db ∨ x ∈ js;
  g_unique : unique_rows (usage_records db) → unique_rows (usage_records db')
}.

Lemma grown_refl rows js db : grown rows js db db.
Proof. split; auto. Qed.

Lemma grown_trans rows js db db1 db2 : grown rows js db db1 → grown rows js db1 db2 → grown rows js db db2.
Proof.
  intros [A1 A2 A3 A4 A5] [B1 B2 B3 B4 B5]. split; auto.
  - intros x Hx. destruct (B3 x Hx) as [Hx'|]; auto.
  - intros x Hx. destruct (B4 x Hx) as [Hx'|]; auto.
Qed.

Lemma grown_more rows rows' js js' db db' : (∀ x, x ∈ rows → x ∈ rows') → (∀ x, x ∈ js → x ∈ js') → grown rows js db db' → grown rows' js' db db'.
Proof. intros Hr Hj []. split; auto; intros x Hx; [destruct (g_new0 x Hx) as [|[]]|destruct (g_new_rejects0 x Hx)]; auto. Qed.

Lemma InsertUsage_grown db rows a db' r : InsertUsage db rows a = (db', r) →
  grown rows [] db db' ∧ (∀ n, r = inl n → ∀ x, x ∈ rows → existsb (same_row x) (usage_records db') = true).
Proof.
  unfold InsertUsage. destruct (Nat.eqb_spec (length rows) 0) as [Hl|_].
  { destruct rows; [|done]. intros [= <- <-]. split; [apply grown_refl|]. intros n _ x ?%elem_of_nil. done. }
  pose proof (insert_rows_spec rows (usage_records db)) as Hi. destruct (insert_rows (usage_records db) rows) as [all n]. destruct Hi as (I1 & I2 & I3 & I4 & _).
  assert (Hg : forallb row_checks rows = true → grown rows [] db (mkDB all (usage_rejected_events db))).
  { intros Hc. split; cbn; auto. intros x Hx. destruct (I2 x Hx) as [|Hr]; [by left|right]. split; [done|].
    by apply (proj1 (forallb_forall row_checks rows)), list_elem_of_In. }
  destruct a as [| |k e]; [destruct (forallb row_checks rows) eqn:Hc| |destruct (0 <? k)%nat, (forallb row_checks rows) eqn:Hc]; cbn [andb]; intros [= <- <-].
  all: split; [first [by apply Hg|apply grown_refl]|]; intros m; done.
Qed.

Lemma RecordRejects_grown db js a db' r : RecordRejects db js a = (db', r) →
  grown [] js db db' ∧ (r = inl tt → ∀ x, x ∈ js → existsb (same_reject x) (usage_rejected_events db') = true).
Proof.
  unfold RecordRejects. destruct (Nat.eqb_spec (length js) 0) as [Hl|_].
  { destruct js; [|done]. intros [= <- <-]. split; [apply grown_refl|]. intros _ x ?%elem_of_nil. done. }
  assert (Hg : ∀ k, grown [] js db (mkDB (usage_records db) (foldl insert_reject (usage_rejected_events db) (take k js)))).
  { intros k. destruct (insert_rejects_spec (take k js) (usage_rejected_events db)) as (I1 & I2 & _). split; cbn; auto.
    intros x Hx. destruct (I2 x Hx) as [|(i & Hi & _)%elem_of_take]; [by left|right]. by eapply list_elem_of_lookup_2. }
  destruct a as [| |k e]; intros [= <- <-]; (split; [first [apply Hg|apply grown_refl]|]); try done.
  intros _ x Hx. destruct (insert_rejects_spec (take (length js) js) (usage_rejected_events db)) as (_ & _ & I3). apply I3. by rewrite take_ge.
Qed.

(** ** Processing a batch. *)

Section spec.
Context `{EventJson} (cfg : Config).

Lemma retry_go_spec {A} (op : DB → DbAns → DB * (A + StoreErr)) rows js :
  (∀ db a db' r, op db a = (db', r) → grown rows js db db') →
  ∀ answers wait c out c', retry_go cfg op answers wait c = (out, c') →
  grown rows js (u_db c) (u_db c') ∧ ∀ v, out = Ok v → ∃ db a, op db a = (u_db c', inl v).
Proof.
  intros Hop. induction answers as [|a answers IH]; intros wait c out c'; cbn [retry_go].
  { intros [= <- <-]. split; [apply grown_refl|done]. }
  destruct (op (u_db c) a) as [db r] eqn:Ho. pose proof (Hop _ _ _ _ Ho) as Hg.
  destruct r as [v|[]]; [intros [= <- <-]; split; [done|]; intros ? [= <-]; exists (u_db c), a; exact Ho|by intros [= <- <-]|].
  assert (Hgo : ∀ wait c1, u_db c1 = db → retry_go cfg op answers wait c1 = (out, c') →
    grown rows js (u_db c) (u_db c') ∧ ∀ v, out = Ok v → ∃ db a, op db a = (u_db c', inl v)).
  { intros w1 c1 Hc1 Hr. destruct (IH w1 c1 out c' Hr) as [G1 G2]. split; [|done]. eapply grown_trans; [done|]. by rewrite Hc1 in G1. }
  destruct a as [| |k []]; try (by apply Hgo); by intros [= <- <-].
Qed.

Lemma retry_insert rows c out c' : retry cfg (λ db, InsertUsage db rows) c = (out, c') →
  grown rows [] (u_db c) (u_db c') ∧ ∀ n, out = Ok n → ∀ x, x ∈ rows → existsb (same_row x) (usage_records (u_db c')) = true.
Proof.
  intros Hr. apply (retry_go_spec _ rows []) in Hr as [G1 G2]; [|intros db a db' r Ho; by apply InsertUsage_grown in Ho as [Ho _]].
  split; [done|]. intros n Hn. destruct (G2 n Hn) as (db & a & Ho). apply InsertUsage_grown in Ho as [_ Ho]. by eapply Ho.
Qed.

Lemma retry_rejects js c out c' : retry cfg (λ db, RecordRejects db js) c = (out, c') →
  grown [] js (u_db c) (u_db c') ∧ (out = Ok tt → ∀ x, x ∈ js → existsb (same_reject x) (usage_rejected_events (u_db c')) = true).
Proof.
  intros Hr. apply (retry_go_spec _ [] js) in Hr as [G1 G2]; [|intros db a db' r Ho; by apply RecordRejects_grown in Ho as [Ho _]].
  split; [done|]. intros Hn. destruct (G2 tt Hn) as (db & a & Ho). apply RecordRejects_grown in Ho as [_ Ho]. by apply Ho.
Qed.

Definition refusal (r : Row) : Reject := mkReject (uc_Topic cfg) (r_Partition r) (r_Offset r) RejectInvalid.

Lemma insertEach_spec rows : ∀ n bad c out c', insertEach cfg rows n bad c = (out, c') →
  grown rows [] (u_db c) (u_db c') ∧
  ∀ n' bad', out = Ok (n', bad') → (∀ x, x ∈ bad → x ∈ bad') ∧ (∀ x, x ∈ bad' → x ∈ bad ∨ x ∈ refusal <$> rows) ∧
    ∀ r, r ∈ rows → existsb (same_row r) (usage_records (u_db c')) = true ∨ refusal r ∈ bad'.
Proof.
  induction rows as [|r rows IH]; intros n bad c out c'; cbn [insertEach].
  { intros [= <- <-]. split; [apply grown_refl|]. intros n' bad' [= <- <-]. split_and!; auto. by intros r ?%elem_of_nil. }
  destruct (retry cfg (λ db, InsertUsage db [r]) c) as [o1 c1] eqn:Hr. destruct (retry_insert _ _ _ _ Hr) as [G1 G2].
  assert (G1' : grown (r :: rows) [] (u_db c) (u_db c1)).
  { eapply grown_more, G1; [intros x ->%list_elem_of_singleton; by left|auto]. }
  assert (Hgo : ∀ n1 bad1, insertEach cfg rows n1 bad1 c1 = (out, c') → (∀ x, x ∈ bad → x ∈ bad1) → (∀ x, x ∈ bad1 → x ∈ bad ∨ x = refusal r) →
    (existsb (same_row r) (usage_records (u_db c1)) = true ∨ refusal r ∈ bad1) →
    grown (r :: rows) [] (u_db c) (u_db c') ∧
    ∀ n' bad', out = Ok (n', bad') → (∀ x, x ∈ bad → x ∈ bad') ∧ (∀ x, x ∈ bad' → x ∈ bad ∨ x ∈ refusal <$> r :: rows) ∧
      ∀ x, x ∈ r :: rows → existsb (same_row x) (usage_records (u_db c')) = true ∨ refusal x ∈ bad').
  { intros n1 bad1 Hi Hb Hb' Hd. destruct (IH _ _ _ _ _ Hi) as [B1 B2]. split.
    { eapply grown_trans; [done|]. eapply grown_more, B1; [by right|auto]. }
    intros n' bad' Ho. destruct (B2 _ _ Ho) as (C1 & C2 & C3). split_and!; [auto| |].
    - intros x Hx. rewrite fmap_cons, elem_of_cons. destruct (C2 x Hx) as [Hx'|Hx']; [destruct (Hb' x Hx')|]; auto.
    - intros x [->|Hx]%elem_of_cons; [|auto]. destruct Hd as [Hd|Hd]; [left|right; auto]. eapply existsb_incl, Hd. apply (g_rows _ _ _ _ B1). }
  destruct o1 as [one|[]|]; try (intros [= <- <-]; by split).
  - intros Hi. apply (Hgo _ _ Hi); auto. left. eapply (G2 one); [done|by left].
  - intros Hi. apply (Hgo _ _ Hi); [intros x Hx; apply elem_of_app; by left| |right; apply elem_of_app; right; by left].
    intros x [Hx|Hx%list_elem_of_singleton]%elem_of_app; auto.
Qed.

(** The row is there, or the database's refusal of it is. *)
Definition durable (db : DB) (r : Row) : Prop :=
  existsb (same_row r) (usage_records db) = true ∨ existsb (same_reject (refusal r)) (usage_rejected_events db) = true.

Lemma insert_spec rows c out c' : insert cfg rows c = (out, c') →
  grown rows (refusal <$> rows) (u_db c) (u_db c') ∧ ∀ nb, out = Ok nb → ∀ r, r ∈ rows → durable (u_db c') r.
Proof.
  unfold insert. destruct (Nat.eqb_spec (length rows) 0) as [Hl|_].
  { intros [= <- <-]. split; [apply grown_refl|]. intros nb _ r Hr. destruct rows; [by apply elem_of_nil in Hr|done]. }
  destruct (retry cfg (λ db, InsertUsage db rows) c) as [o1 c1] eqn:Hr. destruct (retry_insert _ _ _ _ Hr) as [G1 G2].
  assert (G1' : grown rows (refusal <$> rows) (u_db c) (u_db c1)).
  { eapply grown_more, G1; [auto|by intros x ?%elem_of_nil]. }
  destruct o1 as [n|[]|]; try (intros [= <- <-]; by split).
  { intros [= <- <-]. split; [done|]. intros nb _ r Hx. left. by eapply G2. }
  unfold bind. destruct (insertEach cfg rows 0 [] c1) as [o2 c2] eqn:He. destruct (insertEach_spec _ _ _ _ _ _ He) as [E1 E2].
  assert (G2' : grown rows (refusal <$> rows) (u_db c) (u_db c2)).
  { eapply grown_trans; [done|]. eapply grown_more, E1; [auto|by intros x ?%elem_of_nil]. }
  destruct o2 as [[n bad]|e|]; try (intros [= <- <-]; by split). destruct (E2 n bad eq_refl) as (_ & F2 & F3). cbn [snd].
  destruct (Nat.eqb_spec (length bad) 0) as [Hb|_].
  { unfold ret. intros [= <- <-]. split; [done|]. intros nb _ r Hx. destruct (F3 r Hx) as [?|Hbad]; [by left|]. destruct bad; [by apply elem_of_nil in Hbad|done]. }
  destruct (retry cfg (λ db, RecordRejects db bad) c2) as [o3 c3] eqn:Hj. destruct (retry_rejects _ _ _ _ Hj) as [J1 J2].
  assert (G3 : grown rows (refusal <$> rows) (u_db c) (u_db c3)).
  { eapply grown_trans; [done|]. eapply grown_more, J1; [by intros x ?%elem_of_nil|]. intros x Hx. destruct (F2 x Hx) as [?%elem_of_nil|]; done. }
  destruct o3 as [[]|e|]; unfold ret; intros [= <- <-]; (split; [done|]); try done. intros nb _ r Hx. destruct (F3 r Hx) as [Hs|Hbad].
  - left. eapply existsb_incl, Hs. apply (g_rows _ _ _ _ J1).
  - right. by apply J2.
Qed.

(** The record is accounted for. *)
Definition settled (db : DB) (m : TopicMessage) : Prop :=
  match classifyMessage m with
  | IsRow r => durable db r
  | IsReject j => existsb (same_reject j) (usage_rejected_events db) = true
  | IsSkip => True
  end.

Lemma settled_grown rows js db db' m : grown rows js db db' → settled db m → settled db' m.
Proof.
  intros G. unfold settled, durable. destruct (classifyMessage m); [|by apply existsb_incl, G|done].
  intros [Hs|Hs]; [left; eapply existsb_incl, Hs; apply G|right; eapply existsb_incl, Hs; apply G].
Qed.

Lemma elem_of_rows m batch r : m ∈ batch → classifyMessage m = IsRow r → r ∈ rows_of batch.
Proof. intros Hm Hc. apply list_elem_of_bind. exists m. rewrite Hc. split; [by left|done]. Qed.

Lemma elem_of_rejects m batch j : m ∈ batch → classifyMessage m = IsReject j → j ∈ rejects_of batch.
Proof. intros Hm Hc. apply list_elem_of_bind. exists m. rewrite Hc. split; [by left|done]. Qed.

Lemma rows_of_inv batch r : r ∈ rows_of batch → ∃ m, m ∈ batch ∧ classifyMessage m = IsRow r.
Proof.
  intros (m & Hr & Hm)%list_elem_of_bind. exists m. split; [done|]. destruct (classifyMessage m); [|by apply elem_of_nil in Hr..].
  by apply list_elem_of_singleton in Hr as ->.
Qed.

Lemma process_spec batch c out c' : process cfg batch c = (out, c') →
  ∃ js, grown (rows_of batch) js (u_db c) (u_db c') ∧
  ∀ offs, out = Ok offs → offs = foldl next_offset ∅ batch ∧ ∀ m, m ∈ batch → settled (u_db c') m.
Proof.
  intros Hp. exists (rejects_of batch ++ (refusal <$> rows_of batch)). revert Hp. unfold process, bind.
  assert (Hrej : ∃ o1 c1, (if (length (rejects_of batch) =? 0)%nat then ret tt else retry cfg (λ db, RecordRejects db (rejects_of batch))) c = (o1, c1) ∧
    grown [] (rejects_of batch) (u_db c) (u_db c1) ∧ (o1 = Ok tt → ∀ x, x ∈ rejects_of batch → existsb (same_reject x) (usage_rejected_events (u_db c1)) = true)).
  { destruct (Nat.eqb_spec (length (rejects_of batch)) 0) as [Hl|_].
    - exists (Ok tt), c. split_and!; [done|apply grown_refl|]. intros _ x Hx. destruct (rejects_of batch); [by apply elem_of_nil in Hx|done].
    - destruct (retry cfg (λ db, RecordRejects db (rejects_of batch)) c) as [o1 c1] eqn:Hr. exists o1, c1. split; [done|]. by apply retry_rejects. }
  destruct Hrej as (o1 & c1 & -> & G1 & R1).
  assert (G1' : grown (rows_of batch) (rejects_of batch ++ (refusal <$> rows_of batch)) (u_db c) (u_db c1)).
  { eapply grown_more, G1; [by intros x ?%elem_of_nil|]. intros x Hx. apply elem_of_app. by left. }
  destruct o1 as [[]|e|]; try (intros [= <- <-]; by split).
  destruct (insert cfg (rows_of batch) c1) as [o2 c2] eqn:Hi. destruct (insert_spec _ _ _ _ Hi) as [G2 I2].
  assert (G2' : grown (rows_of batch) (rejects_of batch ++ (refusal <$> rows_of batch)) (u_db c) (u_db c2)).
  { eapply grown_trans; [done|]. eapply grown_more, G2; [auto|]. intros x Hx. apply elem_of_app. by right. }
  destruct o2 as [nb|e|]; try (intros [= <- <-]; by split). unfold modify, ret. intros [= <- <-]. split; [exact G2'|].
  intros offs [= <-]. split; [done|]. intros m Hm. unfold settled. destruct (classifyMessage m) as [r|j|] eqn:Hc; [| |done].
  - eapply I2; [done|]. by eapply elem_of_rows.
  - eapply existsb_incl; [apply (g_rejects _ _ _ _ G2)|]. apply R1; [done|]. by eapply elem_of_rejects.
Qed.

(** ** Offsets. *)

Lemma next_offset_spec batch : ∀ next p o, foldl next_offset next batch !! p = Some o →
  next !! p = Some o ∨ ∃ m, m ∈ batch ∧ m_Partition m = p ∧ o_Offset o = m_Offset m +! 1.
Proof.
  induction batch as [|m batch IH]; intros next p o; cbn [foldl]; [by left|]. intros Ho. destruct (IH _ _ _ Ho) as [Hn|(m' & Hm' & Hp)].
  - unfold next_offset in Hn.
    assert (Hins : <[m_Partition m := mkOffset (m_Topic m) (m_Partition m) (m_Offset m +! 1)]> next !! p = Some o →
      next !! p = Some o ∨ ∃ m0, m0 ∈ m :: batch ∧ m_Partition m0 = p ∧ o_Offset o = m_Offset m0 +! 1).
    { intros [[<- <-]|[_ Hx]]%lookup_insert_Some; [right; exists m; split_and!; [by left|done|done]|by left]. }
    destruct (next !! m_Partition m); [destruct (_ <? _)|]; auto.
  - right. exists m'. split; [by right|done].
Qed.

(** Everything from [t]'s positions to those of [t'] is in [batch], and nothing else. *)
Record delivered (t t' : Topic) (batch : list TopicMessage) : Prop := {
  d_same : t_log t' = t_log t ∧ t_committed t' = t_committed t ∧ t_alive t' = t_alive t ∧ t_consumer t' = t_consumer t;
  d_mono : ∀ p, position t p ≤ position t' p ≤ Z.max (position t p) (Z.of_nat (length (values t p)));
  d_all : ∀ p o v, position t p ≤ Z.of_nat o < position t' p → values t p !! o = Some v → message cfg p (Z.of_nat o) v ∈ batch;
  d_only : ∀ m, m ∈ batch → ∃ p o v, m = message cfg p (Z.of_nat o) v ∧ values t p !! o = Some v ∧ position t p ≤ Z.of_nat o < position t' p
}.

Lemma delivered_nil t : delivered t t [].
Proof. split; [done|lia|lia|]. by intros m ?%elem_of_nil. Qed.

Lemma delivered_app t t1 t2 b1 b2 : delivered t t1 b1 → delivered t1 t2 b2 → delivered t t2 (b1 ++ b2).
Proof.
  intros [(A1 & A2 & A3 & A4) A5 A6 A7] [(B1 & B2 & B3 & B4) B5 B6 B7].
  assert (Hv : ∀ p, values t1 p = values t p) by (intros p; unfold values; by rewrite A1). split.
  - split_and!; congruence.
  - intros p. specialize (A5 p). specialize (B5 p). rewrite Hv in B5. lia.
  - intros p o v Ho Hl. apply elem_of_app. destruct (decide (Z.of_nat o < position t1 p)); [left|right]; [apply A6; [lia|done]|apply B6; [lia|by rewrite Hv]].
  - intros m [Hm|Hm]%elem_of_app.
    + destruct (A7 m Hm) as (p & o & v & ? & ? & ?). exists p, o, v. specialize (B5 p). split_and!; [done|done|lia|lia].
    + destruct (B7 m Hm) as (p & o & v & ? & Hl & ?). rewrite Hv in Hl. exists p, o, v. specialize (A5 p). split_and!; [done|done|lia|lia].
Qed.

Lemma delivered_fetch t p n : (∀ q, 0 ≤ position t q) → delivered t (advance cfg t p n) (fetch cfg t p n).
Proof.
  intros Hpos. specialize (Hpos p). assert (Hlen : length (fetch cfg t p n) = length (take n (drop (Z.to_nat (position t p)) (values t p)))) by (unfold fetch; by rewrite length_imap).
  assert (Hp : ∀ q, position (advance cfg t p n) q = if decide (q = p) then position t p + Z.of_nat (length (fetch cfg t p n)) else position t q).
  { intros q. unfold position, advance. cbn. case_decide as Hq; [subst q; by rewrite lookup_insert_eq|by rewrite lookup_insert_ne]. }
  rewrite length_take, length_drop in Hlen. split.
  - done.
  - intros q. rewrite Hp. case_decide; [subst q|]; lia.
  - intros q o v Ho Hv. rewrite Hp in Ho. case_decide as Hq; [subst q|lia]. unfold fetch. apply list_elem_of_lookup.
    exists (o - Z.to_nat (position t p))%nat. rewrite list_lookup_imap, lookup_take, decide_True by lia. rewrite lookup_drop.
    replace (Z.to_nat (position t p) + (o - Z.to_nat (position t p)))%nat with o by lia. rewrite Hv. cbn. do 2 f_equal. lia.
  - intros m (i & Hi)%list_elem_of_lookup. unfold fetch in Hi. rewrite list_lookup_imap in Hi.
    destruct (take n _ !! i) as [v|] eqn:Hv; [|done]. cbn in Hi. injection Hi as <-.
    assert (Hil := lookup_lt_Some _ _ _ Hv). rewrite length_take, length_drop in Hil. apply lookup_take_Some in Hv as [Hv Hn]. rewrite lookup_drop in Hv.
    exists p, (Z.to_nat (position t p) + i)%nat, v. rewrite Hp, decide_True by done. split_and!; [f_equal; lia|done|lia|lia].
Qed.

Lemma delivered_pos t t' b : delivered t t' b → (∀ q, 0 ≤ position t q) → ∀ q, 0 ≤ position t' q.
Proof. intros D Hq q. specialize (Hq q). pose proof (d_mono _ _ _ D q). lia. Qed.

Lemma delivered_poll ps : ∀ t max, (∀ q, 0 ≤ position t q) → delivered t (poll cfg t max ps).1 (poll cfg t max ps).2.
Proof.
  induction ps as [|[p n] ps IH]; intros t max Hq; cbn [poll]; [apply delivered_nil|].
  pose proof (delivered_fetch t p (min n max) Hq) as D. specialize (IH (advance cfg t p (min n max)) (max - length (fetch cfg t p (min n max)))%nat (delivered_pos _ _ _ D Hq)).
  destruct (poll cfg (advance cfg t p (min n max)) _ ps) as [t' rest]. cbn [fst snd] in *. by eapply delivered_app.
Qed.

Lemma delivered_batch polls : ∀ t0 t batch, delivered t0 t batch → (∀ q, 0 ≤ position t q) →
  delivered t0 (collectBatch cfg t polls batch).1 (collectBatch cfg t polls batch).2.
Proof.
  induction polls as [|q polls IH]; intros t0 t batch D Hq; cbn [collectBatch]; [done|]. destruct (_ <? _); [|done].
  destruct q as [ps|]; [|by apply IH]. pose proof (delivered_poll ps t (Z.to_nat (BatchSize cfg) - length batch) Hq) as D'.
  destruct (poll cfg t _ ps) as [t1 ms]. cbn [fst snd] in *. apply IH; [by eapply delivered_app|by eapply delivered_pos].
Qed.

Lemma commit_spec n offs : ∀ answers committed p o, commit n offs answers committed !! p = Some o →
  committed !! p = Some o ∨ ∃ x, offs !! p = Some x ∧ o_Offset x = o.
Proof.
  induction n as [|n IH]; intros answers committed p o; cbn [commit]; [by left|]. destruct answers as [|[ok applied] answers]; [by left|].
  assert (Hc : ∀ c, c = committed ∨ c = (o_Offset <$> offs) ∪ committed → c !! p = Some o → committed !! p = Some o ∨ ∃ x, offs !! p = Some x ∧ o_Offset x = o).
  { intros c [->| ->]; [by left|]. intros [Hl|[_ Hr]]%lookup_union_Some_raw; [right|by left]. by apply lookup_fmap_Some in Hl as (x & <- & Hx); exists x. }
  destruct ok; cbn [orb]; [by apply Hc; right|]. intros Hx. destruct (IH _ _ _ _ Hx) as [Hx'|]; [|by right].
  revert Hx'. apply Hc. destruct applied; auto.
Qed.

(** ** The invariant. *)

Record inv (t : Topic) : Prop := {
  v_pos : ∀ p, 0 ≤ position t p ≤ Z.of_nat (length (values t p));
  v_committed : ∀ p c, t_committed t !! p = Some c → 0 ≤ c ≤ Z.of_nat (length (values t p));
  v_read : t_alive t = true → ∀ p o v, Z.of_nat o < position t p → values t p !! o = Some v →
    settled (u_db (t_consumer t)) (message cfg p (Z.of_nat o) v);
  v_done : ∀ p c o v, t_committed t !! p = Some c → Z.of_nat o < c → values t p !! o = Some v →
    settled (u_db (t_consumer t)) (message cfg p (Z.of_nat o) v);
  v_unique : unique_rows (usage_records (u_db (t_consumer t)));
  v_rows : ∀ r, r ∈ usage_records (u_db (t_consumer t)) → row_checks r = true ∧
    ∃ p o v, values t p !! o = Some v ∧ classifyMessage (message cfg p (Z.of_nat o) v) = IsRow r
}.

(** Kafka's offsets are 64-bit integers. *)
Definition small (t : Topic) : Prop := ∀ p, Z.of_nat (length (values t p)) ≤ int64_max.

Lemma round_inv t polls answers commits : inv t → small t → t_alive t = true → inv (round cfg t polls answers commits).
Proof.
  intros I Hs Ha. unfold round. pose proof (delivered_batch polls t t [] (delivered_nil t) (λ q, proj1 (v_pos _ I q))) as D.
  destruct (collectBatch cfg t polls []) as [t1 batch]. cbn [fst snd] in D. pose proof D as [(S1 & S2 & S3 & S4) _ _ _].
  assert (Hv : ∀ p, values t1 p = values t p) by (intros p; unfold values; by rewrite S1).
  assert (Hp1 : ∀ p, 0 ≤ position t1 p ≤ Z.of_nat (length (values t p))) by (intros p; pose proof (d_mono _ _ _ D p); pose proof (v_pos _ I p); lia).
  destruct (Nat.eqb_spec (length batch) 0) as [Hb|_].
  { destruct batch; [|done]. destruct I. split; rewrite ?S2, ?S4; try setoid_rewrite Hv; try done.
    intros _ p o v Ho Hl. apply v_read0; [done| |done]. destruct (decide (Z.of_nat o < position t p)); [done|].
    exfalso. assert (Hin := d_all _ _ _ D p o v ltac:(lia) Hl). by apply elem_of_nil in Hin. }
  destruct (process cfg batch _) as [out c'] eqn:Hp. destruct (process_spec _ _ _ _ Hp) as (js & G & Hok). cbn [u_db rset] in G. rewrite S4 in G.
  change (u_db ((t_consumer t) <| u_answers := answers |>)) with (u_db (t_consumer t)) in G.
  assert (Hrows : ∀ r, r ∈ usage_records (u_db c') → row_checks r = true ∧
    ∃ p o v, values t p !! o = Some v ∧ classifyMessage (message cfg p (Z.of_nat o) v) = IsRow r).
  { intros r Hr. destruct (g_new _ _ _ _ G r Hr) as [Hold|[Hnew Hc]]; [by apply I|]. split; [done|].
    apply rows_of_inv in Hnew as (m & Hm & Hcl). destruct (d_only _ _ _ D m Hm) as (p & o & v & -> & Hl & _). by exists p, o, v. }
  assert (Hun := g_unique _ _ _ _ G (v_unique _ I)).
  assert (Hdone : ∀ p c o v, t_committed t !! p = Some c → Z.of_nat o < c → values t p !! o = Some v → settled (u_db c') (message cfg p (Z.of_nat o) v)).
  { intros p c o v H1 H2 H3. eapply settled_grown, (v_done _ I); done. }
  destruct out as [offs|e|].
  - destruct (Hok offs eq_refl) as [-> Hset].
    assert (Hread : ∀ p o v, Z.of_nat o < position t1 p → values t p !! o = Some v → settled (u_db c') (message cfg p (Z.of_nat o) v)).
    { intros p o v Ho Hl. destruct (decide (Z.of_nat o < position t p)); [eapply settled_grown, (v_read _ I); done|].
      apply Hset, (d_all _ _ _ D); [lia|done]. }
    assert (Hcm : ∀ p c, commit 3 (foldl next_offset ∅ batch) commits (t_committed t1) !! p = Some c → t_committed t !! p = Some c ∨ 0 ≤ c ≤ position t1 p).
    { intros p c Hc. apply commit_spec in Hc as [Hc|(x & Hx & <-)]; [left; by rewrite <- S2|right].
      apply next_offset_spec in Hx as [Hx|(m & Hm & <- & ->)]; [by rewrite lookup_empty in Hx|].
      destruct (d_only _ _ _ D m Hm) as (p & o & v & -> & Hl & Ho). cbn in *. specialize (Hp1 p). specialize (Hs p). 
      rewrite wrap64_id by (split; [unfold int64_min|]; lia). lia. }
    split; cbn; try setoid_rewrite Hv; try done.
    + intros p c Hc. destruct (Hcm p c Hc) as [Ho|Ho]; [by apply (v_committed _ I)|specialize (Hp1 p); lia].
    + intros p c o v Hc Ho Hl. destruct (Hcm p c Hc) as [Hc'|Hc']; [by eapply Hdone|]. apply Hread; [lia|done].
  - split; cbn; rewrite ?S2; try setoid_rewrite Hv; try done. apply I.
  - split; cbn; rewrite ?S2; try setoid_rewrite Hv; try done. apply I.
Qed.

Lemma values_produce t p v q : values (t <| t_log := <[p := values t p ++ [v]]> (t_log t) |>) q = if decide (q = p) then values t p ++ [v] else values t q.
Proof. unfold values. cbn. case_decide as Hq; [subst q; by rewrite lookup_insert_eq|by rewrite lookup_insert_ne]. Qed.

Lemma round_log t polls answers commits : t_log (round cfg t polls answers commits) = t_log t.
Proof.
  assert (Hp : ∀ ps t max, t_log (poll cfg t max ps).1 = t_log t).
  { induction ps as [|[p n] ps IH]; intros t0 max; cbn [poll]; [done|]. specialize (IH (advance cfg t0 p (min n max)) (max - length (fetch cfg t0 p (min n max)))%nat).
    destruct (poll cfg (advance cfg t0 p _) _ ps). exact IH. }
  assert (Hc : ∀ polls t batch, t_log (collectBatch cfg t polls batch).1 = t_log t).
  { induction polls0 as [|q polls0 IH]; intros t0 batch; cbn [collectBatch]; [done|]. destruct (_ <? _); [|done]. destruct q as [ps|]; [|apply IH].
    specialize (Hp ps t0 (Z.to_nat (BatchSize cfg) - length batch)%nat). destruct (poll cfg t0 _ ps) as [t1 ms]. cbn in Hp. rewrite <- Hp. apply IH. }
  unfold round. specialize (Hc polls t []). destruct (collectBatch cfg t polls []) as [t1 batch]. cbn in Hc. rewrite <- Hc.
  destruct (_ =? _)%nat; [done|]. by destruct (process cfg batch _) as [[] c].
Qed.

Lemma small_step t e : small (topic_step cfg t e) → small t.
Proof.
  intros Hs p. specialize (Hs p). destruct e as [q v|polls answers commits|]; cbn [topic_step] in Hs; [|destruct (t_alive t)|]; try exact Hs.
  - rewrite values_produce in Hs. case_decide as Hq; [subst q|exact Hs]. rewrite length_app in Hs. lia.
  - unfold values in *. by rewrite round_log in Hs.
Qed.

Lemma step_inv t e : inv t → small t → inv (topic_step cfg t e).
Proof.
  intros I Hs. destruct e as [q v|polls answers commits|]; cbn [topic_step].
  - assert (Hl : ∀ p o w, values t p !! o = Some w → values (t <| t_log := <[q := values t q ++ [v]]> (t_log t) |>) p !! o = Some w).
    { intros p o w Hw. rewrite values_produce. case_decide as Hq; [subst p|done]. by apply lookup_app_l_Some. }
    assert (Hlen : ∀ p, Z.of_nat (length (values t p)) ≤ Z.of_nat (length (values (t <| t_log := <[q := values t q ++ [v]]> (t_log t) |>) p))).
    { intros p. rewrite values_produce. case_decide as Hq; [subst p; rewrite length_app|]; lia. }
    assert (Hold : ∀ p o w, Z.of_nat o < Z.of_nat (length (values t p)) → values (t <| t_log := <[q := values t q ++ [v]]> (t_log t) |>) p !! o = Some w → values t p !! o = Some w).
    { intros p o w Ho. rewrite values_produce. case_decide as Hq; [subst p|done]. by rewrite lookup_app_l by lia. }
    destruct I. split; try done.
    + intros p. specialize (v_pos0 p). specialize (Hlen p). unfold position in *. cbn. lia.
    + intros p c Hc. specialize (v_committed0 p c Hc). specialize (Hlen p). lia.
    + intros Ha p o w Ho Hw. apply v_read0; [done|done|]. apply Hold; [|done]. specialize (v_pos0 p). unfold position in *. cbn in Ho. lia.
    + intros p c o w Hc Ho Hw. eapply v_done0; [done|done|]. apply Hold; [|done]. specialize (v_committed0 p c Hc). lia.
    + intros r Hr. destruct (v_rows0 r Hr) as (Hc & p & o & w & Hw & Hcl). split; [done|]. exists p, o, w. split; [by apply Hl|done].
  - destruct (t_alive t) eqn:Ha; [by apply round_inv|done].
  - destruct I. split; try done.
    + intros p. unfold position. cbn. change (values _ p) with (values t p). destruct (t_committed t !! p) as [c|] eqn:Hc; cbn; [by apply v_committed0|lia].
    + intros _ p o v Ho Hl. unfold position in Ho. cbn in Ho. destruct (t_committed t !! p) as [c|] eqn:Hc; cbn in Ho; [|lia]. by eapply v_done0.
Qed.

Lemma topic_init : inv newTopic.
Proof. split; try done; cbn; [split; constructor|]. by intros r ?%elem_of_nil. Qed.

Lemma topic_run_inv es : small (topic_run cfg es) → inv (topic_run cfg es).
Proof.
  unfold topic_run. induction es as [|e es IH] using rev_ind; [intros _; apply topic_init|]. rewrite foldl_app. cbn [foldl].
  intros Hs. assert (Hs' := small_step _ _ Hs). apply step_inv; auto.
Qed.

(** ** A batch gets done. *)

Definition alive (a : DbAns) : bool := match a with DbDown _ EndedNow | DbDown _ EndedWaiting => false | _ => true end.

Definition ups (l : list DbAns) : nat := length (List.filter (λ a, match a with DbUp => true | _ => false end) l).

(** Answers of a process that is not told to stop, [n] of them the database's at work. *)
Definition enough (n : nat) (c : Consumer) : Prop := forallb alive (u_answers c) = true ∧ (n ≤ ups (u_answers c))%nat.

Definition paced (c : Consumer) : Prop := Forall (λ w, BackoffMin cfg ≤ w ≤ BackoffMax cfg) (waits c).

Context (pace : 0 < BackoffMin cfg ≤ BackoffMax cfg) (pace_max : BackoffMax cfg < 2 ^ 62).

Lemma retry_go_ends {A} (op : DB → DbAns → DB * (A + StoreErr)) n : (∀ db, (op db DbUp).2 ≠ inr ErrDatabase) →
  ∀ answers wait c, forallb alive answers = true → (S n ≤ ups answers)%nat → BackoffMin cfg ≤ wait ≤ BackoffMax cfg → paced c →
  ∃ out c', retry_go cfg op answers wait c = (out, c') ∧ enough n c' ∧ paced c' ∧
    ((∃ v, out = Ok v) ∨ out = Err BadData ∧ ∃ db a, (op db a).2 = inr ErrBadData).
Proof.
  intros Hop. induction answers as [|a answers IH]; intros wait c Ha Hu Hw Hp; [cbn in Hu; lia|]. cbn in Ha. apply andb_true_iff in Ha as [Ha1 Ha2].
  cbn [retry_go]. specialize (Hop (u_db c)).
  assert (Hu' : (n ≤ ups answers)%nat ∧ (a ≠ DbUp → (S n ≤ ups answers)%nat)) by (destruct a; cbn in Hu; fold (ups answers) in Hu; split; try done; lia).
  destruct (op (u_db c) a) as [db r] eqn:Ho. destruct r as [v|[]].
  - eexists _, _. split; [reflexivity|]. split; [exact (conj Ha2 (proj1 Hu'))|]. split; [exact Hp|left; by eexists].
  - eexists _, _. split; [reflexivity|]. split; [exact (conj Ha2 (proj1 Hu'))|]. split; [exact Hp|right]. split; [done|]. exists (u_db c), a. by rewrite Ho.
  - assert (Hne : a ≠ DbUp) by (intros ->; by rewrite Ho in Hop).
    assert (Hgo : ∀ c1, waits c1 = waits c ++ [wait] → ∃ out c', retry_go cfg op answers (Z.min (wait *! 2) (BackoffMax cfg)) c1 = (out, c') ∧ enough n c' ∧ paced c' ∧
      ((∃ v, out = Ok v) ∨ out = Err BadData ∧ ∃ db a, (op db a).2 = inr ErrBadData)).
    { intros c1 Hc1. apply IH; [done|by apply Hu'| |]; [|unfold paced; rewrite Hc1; apply Forall_app; split; [done|by constructor]].
      rewrite wrap64_id; [lia|]. unfold in64, int64_min, int64_max. lia. }
    destruct a as [| |k []]; try done; by apply Hgo.
Qed.

Lemma retry_insert_ends rows n c : enough (S n) c → paced c → ∃ out c', retry cfg (λ db, InsertUsage db rows) c = (out, c') ∧ enough n c' ∧ paced c' ∧
  ((∃ v, out = Ok v) ∨ out = Err BadData).
Proof.
  intros [E1 E2] Hp. destruct (retry_go_ends (λ db, InsertUsage db rows) n) with (answers := u_answers c) (wait := BackoffMin cfg) (c := c) as (out & c' & H1 & H2 & H3 & H4); try done; [|lia|].
  - intros db. unfold InsertUsage. destruct (length rows =? 0)%nat; [done|]. destruct (insert_rows _ _). by destruct (forallb row_checks rows).
  - exists out, c'. split_and!; try done; try apply H2. destruct H4 as [|[]]; auto.
Qed.

Lemma retry_rejects_ends js n c : enough (S n) c → paced c → ∃ c', retry cfg (λ db, RecordRejects db js) c = (Ok tt, c') ∧ enough n c' ∧ paced c'.
Proof.
  intros [E1 E2] Hp. destruct (retry_go_ends (λ db, RecordRejects db js) n) with (answers := u_answers c) (wait := BackoffMin cfg) (c := c) as (out & c' & H1 & H2 & H3 & H4); try done; [|lia|].
  - intros db. unfold RecordRejects. by destruct (length js =? 0)%nat.
  - exists c'. split_and!; try done; try apply H2. unfold retry. rewrite H1. destruct H4 as [[[] ->]|(_ & db & a & Hb)]; [done|].
    unfold RecordRejects in Hb. destruct (length js =? 0)%nat; [done|]. by destruct a.
Qed.

Lemma insertEach_ends rows : ∀ k n bad c, enough (length rows + n) c → paced c →
  ∃ nb c', insertEach cfg rows k bad c = (Ok nb, c') ∧ enough n c' ∧ paced c'.
Proof.
  induction rows as [|r rows IH]; intros k n bad c He Hp; cbn [insertEach]; [by eexists _, _|].
  destruct (retry_insert_ends [r] (length rows + n) c He Hp) as (out & c' & -> & He' & Hp' & [[v ->]| ->]); by apply IH.
Qed.

Lemma insert_ends rows n c : enough (length rows + 2 + n) c → paced c → ∃ nb c', insert cfg rows c = (Ok nb, c') ∧ enough n c' ∧ paced c'.
Proof.
  intros He Hp. unfold insert. assert (Hless : ∀ m c0, enough m c0 → (n ≤ m)%nat → enough n c0) by (intros m c0 [? ?] ?; split; [done|lia]).
  destruct (_ =? _)%nat; [eexists _, _; split; [reflexivity|]; split; [|done]; eapply Hless; [done|lia]|].
  destruct (retry_insert_ends rows (length rows + 1 + n) c) as (out & c1 & -> & He1 & Hp1 & Hout); [by replace (S (length rows + 1 + n)) with (length rows + 2 + n)%nat by lia|done|].
  destruct Hout as [[v ->]| ->]; [eexists _, _; split; [reflexivity|]; split; [|done]; eapply Hless; [done|lia]|].
  destruct (insertEach_ends rows 0 (1 + n) [] c1) as ([k bad] & c2 & He2 & Hn2 & Hp2); [by replace (length rows + (1 + n))%nat with (length rows + 1 + n)%nat by lia|done|].
  unfold bind. rewrite He2. cbn [snd]. destruct (_ =? _)%nat; [unfold ret; eexists _, _; split; [reflexivity|]; split; [|done]; eapply Hless; [done|lia]|].
  destruct (retry_rejects_ends bad n c2 Hn2 Hp2) as (c3 & -> & Hn3 & Hp3). unfold ret. by eexists _, _.
Qed.

Lemma process_ends batch c : enough (length (rows_of batch) + 3) c → paced c → ∃ offs c', process cfg batch c = (Ok offs, c') ∧ paced c'.
Proof.
  intros He Hp. unfold process, bind.
  assert (Hrej : ∃ c1, (if (length (rejects_of batch) =? 0)%nat then ret tt else retry cfg (λ db, RecordRejects db (rejects_of batch))) c = (Ok tt, c1) ∧
    enough (length (rows_of batch) + 2 + 0) c1 ∧ paced c1).
  { destruct (_ =? _)%nat.
    - exists c. split; [done|]. split; [|done]. destruct He as [? ?]. split; [done|lia].
    - apply retry_rejects_ends; [|done]. by replace (S (length (rows_of batch) + 2 + 0)) with (length (rows_of batch) + 3)%nat by lia. }
  destruct Hrej as (c1 & -> & He1 & Hp1). destruct (insert_ends (rows_of batch) 0 c1 He1 Hp1) as (nb & c2 & -> & _ & Hp2).
  unfold modify, ret. eexists _, _. split; [reflexivity|]. exact Hp2.
Qed.

End spec.

(** ** Theorems. *)

(** C8: Usage is recorded exactly once.  Over any history of produced records, rounds with any
    failures of the database and of commits, crashes and restarts: every record below a committed
    offset is accounted for, a terminal event by a row for its event or request (or by the
    database's refusal of it, recorded), an unusable record by its coordinates; no two rows share
    an event or a request; and every row is that of a record of the topic and satisfies the
    table's constraints. *)
Theorem usage_exactly_once `{EventJson} cfg es : small (topic_run cfg es) →
  let t := topic_run cfg es in
  let db := u_db (t_consumer t) in
  (∀ p c o v, t_committed t !! p = Some c → Z.of_nat o < c → values t p !! o = Some v → settled cfg db (message cfg p (Z.of_nat o) v)) ∧
  unique_rows (usage_records db) ∧
  ∀ r, r ∈ usage_records db → row_checks r = true ∧ ∃ p o v, values t p !! o = Some v ∧ classifyMessage (message cfg p (Z.of_nat o) v) = IsRow r.
Proof. intros Hs. cbn zeta. destruct (topic_run_inv cfg es Hs). by split_and!. Qed.

(** C25: One bad record never blocks a partition, and an outage only delays: for any batch, if the
    process is not told to stop and the database carries out as many calls as the batch has rows
    and three more, whatever it refuses and however often it fails in between, the batch is
    processed to the end with every record accounted for, and the waits between failures keep
    within the configured back-off. *)
Theorem batch_completes `{EventJson} cfg batch c : 0 < BackoffMin cfg ≤ BackoffMax cfg → BackoffMax cfg < 2 ^ 62 → waits c = [] →
  forallb alive (u_answers c) = true → (length (rows_of batch) + 3 ≤ ups (u_answers c))%nat →
  ∃ c', process cfg batch c = (Ok (foldl next_offset ∅ batch), c') ∧ (∀ m, m ∈ batch → settled cfg (u_db c') m) ∧
    Forall (λ w, BackoffMin cfg ≤ w ≤ BackoffMax cfg) (waits c').
Proof.
  intros H1 H2 Hw Ha Hu. destruct (process_ends cfg H1 H2 batch c) as (offs & c' & Hp & Hpc); [by split|unfold paced; by rewrite Hw|].
  destruct (process_spec cfg _ _ _ _ Hp) as (js & _ & Hok). destruct (Hok offs eq_refl) as [-> Hs]. by exists c'.
Qed.

(** ** Validation and the table agree. *)

Lemma orElse_None a b : orElse a b = None ↔ a = None ∧ b = None.
Proof. destruct a; cbn; [split; [done|intros []; done]|]. split; [done|by intros []]. Qed.

Lemma invalid_if_None c w : invalid_if c w = None ↔ c = false.
Proof. by destruct c. Qed.

Lemma checkString_None name v max req : checkString name v max req = None → (req = true → v ≠ "") ∧ slen v ≤ max.
Proof.
  unfold checkString. rewrite !orElse_None, !invalid_if_None. intros (H1 & H2 & _). split; [|lia]. intros -> ->. done.
Qed.

Lemma checkPrefixed_None name v prefix : checkPrefixed name v prefix true = None → String.prefix prefix v = true.
Proof.
  unfold checkPrefixed. rewrite orElse_None, invalid_if_None. intros [H1 H2]. apply checkString_None in H1 as [H1 _].
  apply (String.eqb_neq v "") in H1; [|done]. rewrite H1 in H2. cbn in H2. by apply negb_false_iff in H2.
Qed.

Lemma char_length_le s : char_length s ≤ slen s.
Proof. unfold char_length. rewrite <- bytes_length. pose proof (List.filter_length_le (λ c, negb (cont c)) (bytes s)). lia. Qed.

Lemma hex_is_hex l : Forall is_byte l → forallb is_hex (hex_EncodeToString l) = true.
Proof.
  intros Hl. apply forallb_forall. intros c (b & Hc & Hb)%list_elem_of_In%list_elem_of_bind. rewrite Forall_forall in Hl. specialize (Hl b Hb).
  unfold is_byte in Hl. assert (Hr : 48 ≤ c ≤ 57 ∨ 97 ≤ c ≤ 102).
  { rewrite !elem_of_cons in Hc. destruct Hc as [->|[->|[]%elem_of_nil]]; apply hex_digit_range; Z.to_euclidean_division_equations; lia. }
  unfold is_hex, is_digit. lia.
Qed.

Lemma Sum256_bytes m : Forall is_byte (Sum256 m).
Proof.
  unfold Sum256. apply Forall_forall. intros b (x & Hb & _)%list_elem_of_bind. unfold be in Hb.
  apply list_elem_of_fmap in Hb as (i & -> & _). unfold is_byte. apply Z.mod_pos_bound. lia.
Qed.

Lemma NewEventID_format a b c : event_id_format (NewEventID a b c) = true.
Proof.
  unfold NewEventID. set (h := Sum256 _). assert (Hh : length h = 32%nat) by apply Sum256_length. assert (Hb : Forall is_byte h) by apply Sum256_bytes.
  clearbody h. assert (Hx : forallb is_hex (take 32 (hex_EncodeToString h)) = true).
  { apply forallb_forall. intros x Hx%list_elem_of_In. apply elem_of_take in Hx as (i & Hi & _). apply list_elem_of_lookup_2, list_elem_of_In in Hi.
    by apply (proj1 (forallb_forall is_hex _) (hex_is_hex h Hb)). }
  assert (Hl : length (take 32 (hex_EncodeToString h)) = 32%nat) by (rewrite length_take, hex_length, Hh; done).
  assert (Hby : Forall byte (bytes "evt_" ++ take 32 (hex_EncodeToString h))).
  { apply Forall_app. split; [apply bytes_are_bytes|]. apply Forall_forall. intros x Hin%list_elem_of_In.
    apply (proj1 (forallb_forall is_hex _) Hx) in Hin. unfold is_hex, is_digit in Hin. unfold byte. lia. }
  unfold event_id_format. rewrite (bytes_of_bytes _ Hby). rewrite take_app_length', drop_app_length' by done.
  rewrite bool_decide_eq_true_2 by done. by rewrite Hl, Hx.
Qed.

Section schema.
Context `{EventJson}.

Lemma decode_validated b e : Decode b = inl e → Event_Validate e = None.
Proof.
  assert (Hv : ∀ e', validated e' = inl e → Event_Validate e = None).
  { intros e'. unfold validated. destruct (Event_Validate e') eqn:He; [done|]. by intros [= <-]. }
  unfold Decode. intros Hd. repeat (case_match; try discriminate Hd); by eapply Hv.
Qed.

Lemma known_in (l : list string) x : existsb (String.eqb x) l = true → x ∈ l.
Proof. intros (y & Hy & E)%existsb_exists. apply String.eqb_eq in E as ->. by apply list_elem_of_In. Qed.

Lemma terminal_checks e t : validateTerminal e t = None →
  100 ≤ HTTPStatus t ≤ 599 ∧ (0 ≤ DurationMS t ∧ 0 ≤ TTFTMS t ∧ 0 ≤ EstimatedCostTokens t) ∧ nonneg (InputTokens t) = true ∧ nonneg (OutputTokens t) = true ∧
  existsb (String.eqb (TokensSource t)) ["usage"; "chunks"; "estimate"] = true ∧
  String.eqb (FailureClass t) "" = negb (String.eqb (EventType e) EventFailed).
Proof.
  unfold validateTerminal, outside, count_outside. rewrite !orElse_None, !invalid_if_None. intros (H1 & H2 & H3 & H4 & _ & H6 & _). split_and!; try done; try lia.
  - destruct (InputTokens t); [|done]. cbn. unfold outside in H3. lia.
  - destruct (OutputTokens t); [|done]. cbn. unfold outside in H3. destruct (InputTokens t); lia.
  - by apply negb_false_iff in H4.
  - destruct (String.eqb (EventType e) EventFailed); apply invalid_if_None, negb_false_iff in H6; [|done].
    apply known_in in H6. cbn [negb]. apply String.eqb_neq. intros E. rewrite E in H6. rewrite !elem_of_cons in H6.
    destruct H6 as [H6|[H6|[H6|[H6|[H6|[H6|H6]]]]]]; try discriminate H6. by apply elem_of_nil in H6.
Qed.

End schema.

(** C26: Whatever validation lets through, the table accepts: for any JSON, a record that the
    consumer turns into a row satisfies every CHECK constraint of usage_records, its event id
    being the SHA-256 id of its request, type and attempt, so that the database never refuses a
    row for its content and a batch is never split for that reason. *)
Theorem rows_satisfy_schema `{EventJson} m r : classifyMessage m = IsRow r → row_checks r = true.
Proof.
  unfold classifyMessage. destruct (_ <? _); [done|]. destruct (Decode (m_Value m)) as [e|er] eqn:Hd; [|destruct er; try done; by destruct (negb _)].
  destruct (IsTerminalEventType (EventType e)) eqn:Ht; cbn [negb]; [|done]. destruct (Terminal e) as [t|] eqn:Hterm; [|done].
  intros [= <-]. apply decode_validated in Hd. unfold Event_Validate in Hd. rewrite !orElse_None, !invalid_if_None in Hd.
  destruct Hd as (_ & _ & Hreq & _ & _ & _ & _ & Hmodel & Hworker & _ & Hid & Hpay). apply negb_false_iff, String.eqb_eq in Hid.
  apply checkPrefixed_None in Hreq. apply checkString_None in Hmodel as [_ Hmodel]. apply checkString_None in Hworker as [_ Hworker].
  unfold validatePayload in Hpay. apply orElse_None in Hpay as [_ Hpay]. rewrite Hterm, Ht in Hpay.
  assert (Hne : String.eqb (EventType e) EventReceived = false ∧ String.eqb (EventType e) EventRouted = false ∧ String.eqb (EventType e) EventFirstToken = false).
  { unfold IsTerminalEventType in Ht. apply orb_true_iff in Ht as [->%String.eqb_eq| ->%String.eqb_eq]; done. }
  destruct Hne as (N1 & N2 & N3). rewrite N1, N2, N3 in Hpay. apply terminal_checks in Hpay as (T1 & T2 & T3 & T4 & T5 & T8).
  unfold row_checks. cbn [r_EventID r_RequestID r_Model r_WorkerID r_Outcome r_HTTPStatus r_InputTokens r_OutputTokens r_TokensSource
    r_EstimatedCostTokens r_Attempts r_TTFTMS r_DurationMS r_FailureClass].
  pose proof (char_length_le (ev_Model e)) as Cm. pose proof (char_length_le (ev_WorkerID e)) as Cw. unfold maxEventModel, maxEventShort in *.
  rewrite Hid, NewEventID_format, Hreq, T3, T4, T5. cbn [andb].
  rewrite !(proj2 (Z.leb_le _ _)) by lia. cbn [andb].
  destruct (String.eqb (EventType e) EventFailed); cbn; rewrite T8; reflexivity.
Qed.

(** ** Runs. *)

(** A decoder that knows one completed request, the value [1]. *)
Definition demo_terminal : TerminalData := mkTerminal true 200 1200 80 (Some 12) (Some 34) TokensFromUsage 64 "" [].

Definition demo_wire : wire :=
  mkWire (NewEventID "req_1" EventCompleted "") EventCompleted 1 1000 "gw" "req_1" "" "ten_1" "key_1" "m" "w" [123; 125].

Definition demo_json : EventJson := {|
  unmarshal_version := λ b, if bool_decide (b = [1]) then Some 1 else None;
  unmarshal_wire := λ b, if bool_decide (b = [1]) then Some demo_wire else None;
  unmarshal_received := λ _, None;
  unmarshal_routed := λ _, None;
  unmarshal_first := λ _, None;
  unmarshal_terminal := λ _, Some demo_terminal;
  json_Valid := λ b, bool_decide (b = [1])
|}.

Definition demo_cfg : Config := usage_defaults (mkConfig 0 0 "usage" EventsTopicV1 0 0 0 0).

(** The event twice and a record that is not JSON; the insert's answer is lost, the process dies
    before it commits, and starts again. *)
Definition demo_run : list topic_event :=
  [Produce 0 [1]; Produce 0 [7]; Produce 0 [1];
   Round [Some [(0, 3%nat)]] [DbUp; DbDown 1 Alive] [];
   Restart;
   Round [None; Some [(0, 2%nat)]; Some [(0, 2%nat)]] [DbUp; DbUp] [(false, false); (true, true)]].

Lemma usage_exactly_once_witness :
  let t := @topic_run demo_json demo_cfg demo_run in
  t_committed t !! 0 = Some 3 ∧ length (usage_records (u_db (t_consumer t))) = 1%nat ∧ unique_rows (usage_records (u_db (t_consumer t))).
Proof.
  cbn zeta. split; [vm_compute; reflexivity|]. split; [vm_compute; reflexivity|].
  apply (@usage_exactly_once demo_json demo_cfg demo_run). intros p.
  assert (Hl : t_log (@topic_run demo_json demo_cfg demo_run) = {[0 := [[1]; [7]; [1]]]}) by (vm_compute; reflexivity).
  unfold values. rewrite Hl. destruct (decide (p = 0)) as [->|Hp]; [rewrite lookup_singleton_eq; cbn; done|].
  rewrite lookup_singleton_ne by done. done.
Defined.

Lemma batch_completes_witness : ∃ c',
  @process demo_json demo_cfg [message demo_cfg 0 5 [1]; message demo_cfg 0 6 [7]]
    ((newConsumer (mkDB [] [])) <| u_answers := [DbDown 0 Alive; DbUp; DbRefused; DbDown 1 Alive; DbUp; DbUp; DbUp] |>) =
  (Ok (foldl next_offset ∅ [message demo_cfg 0 5 [1]; message demo_cfg 0 6 [7]]), c').
Proof.
  destruct (@batch_completes demo_json demo_cfg [message demo_cfg 0 5 [1]; message demo_cfg 0 6 [7]]
    ((newConsumer (mkDB [] [])) <| u_answers := [DbDown 0 Alive; DbUp; DbRefused; DbDown 1 Alive; DbUp; DbUp; DbUp] |>)) as (c' & Hp & _).
  - vm_compute. done.
  - vm_compute. done.
  - done.
  - done.
  - vm_compute. lia.
  - by exists c'.
Defined.

Lemma rows_satisfy_schema_witness : ∃ r, @classifyMessage demo_json (message demo_cfg 0 5 [1]) = IsRow r ∧ row_checks r = true.
Proof.
  destruct (@classifyMessage demo_json (message demo_cfg 0 5 [1])) as [r|j|] eqn:Hc; [|vm_compute in Hc; discriminate Hc..].
  exists r. split; [reflexivity|]. exact (@rows_satisfy_schema demo_json (message demo_cfg 0 5 [1]) r Hc).
Defined.
