(* ===== verification/Attempt.v ===== *)
(** * The attempts of a request (internal/gateway/attempt.go, retry.go, resilience_attempt.go,
    handlers.go)

    A request in registry mode is tried on a worker and, while nothing has been written to the
    client, may move to another one.  The model is a computation with panics ([Pm]) over the
    state of the router and of the request: [forwardRegistry] and everything it calls, the router's
    own operations included (Router.v).

    Before every call the environment may do what other goroutines do: run any router operations of
    other requests, let the timers of an attempt fire, let the client go.  What the workers
    answer, whether the client's connection takes a write, and where a recorder, a log handler, a
    transport or a body panics are its choice too.  Observers do not panic: the multi-observer
    contains them.  One log call is left out, with the panic its handler might raise: the warning of
    [flush] that transitions were dropped.

    A pointer to an attempt is its position among the attempts the guard tracks.  The trace of the
    request lists what it did to the outside: the observers' events, breaker verdicts, budget
    reservations, slots given back, and what the client was sent. *)

From Stdlib Require Import Ascii String.
From S2P Require Import Prelude GoFloat GoString Breaker Breakers Queue Budget Protocol Scheduler Tracker Api Tokens Router RouterSpec.

Local Open Scope string_scope.
Local Open Scope list_scope.
Local Open Scope Z_scope.

(** ** Errors, as errors.Is, errors.As and Unwrap see them. *)

Record GoErr := mkErr {
  ge_Canceled : bool; ge_ECONNREFUSED : bool; ge_DNSError : bool; ge_dial : bool; ge_ECONNRESET : bool; ge_EPIPE : bool;
  ge_EOF : bool; ge_UnexpectedEOF : bool; ge_Timeout : bool; ge_texts : list string
}.

Definition timeout_error (text : string) : GoErr := mkErr false false false false false false false false true [text].

Definition headerTimeoutError : GoErr := timeout_error "the worker did not send response headers in time".
Definition deadlineError : GoErr := timeout_error "the first-byte deadline elapsed before the worker produced output".
Definition idleTimeoutError : GoErr := timeout_error "the worker stopped sending".
Definition errUnexpectedStatus : GoErr := mkErr false false false false false false false false false ["the worker answered with an unexpected status"].

(** The end of a body, when it is an error of the first read. *)
Definition errEOF : GoErr := mkErr false false false false false false true false false ["EOF"].

(** [mapUpstreamError] *)
Definition mapUpstreamError (e : GoErr) : ApiError :=
  if ge_ECONNREFUSED e || ge_DNSError e || ge_dial e then ErrWorkerUnavailable
  else if ge_Timeout e then ErrUpstreamTimeout
  else ErrInferenceFailed.

(** ** The retry policy (retry.go). *)

Definition classConnect : string := "connect".
Definition classReset : string := "reset".
Definition classEmptyStream : string := "empty_stream".
Definition classPanic : string := "panic".
Definition classDeadline : string := "deadline".

Definition statusClass (code : Z) : string := ("status_" ++ of_bytes (itoa code))%string.

Record retryPolicy := mkRetryPolicy { rp_max : Z; rp_statuses : gset Z }.

Definition newRetryPolicy (max : Z) (statuses : list Z) : retryPolicy := mkRetryPolicy max (list_to_set statuses).

Definition policy_status (p : retryPolicy) (code : Z) : option string :=
  if bool_decide (code ∈ rp_statuses p) then Some (statusClass code) else None.

Definition errServerClosedIdleText : string := "http: server closed idle connection".

Definition isServerClosedIdle (e : GoErr) : bool := existsb (String.eqb errServerClosedIdleText) (ge_texts e).

(** The class and whether the attempt may be retried. *)
Definition transportError (e : GoErr) : string * bool :=
  if ge_Canceled e then ("", false)
  else if ge_ECONNREFUSED e || ge_DNSError e || ge_dial e then (classConnect, true)
  else if ge_ECONNRESET e || ge_EPIPE e || ge_EOF e || ge_UnexpectedEOF e then (classReset, true)
  else if isServerClosedIdle e then (classReset, true)
  else ("", false).

Definition firstChunkError (e : GoErr) : string * bool :=
  if ge_Canceled e then ("", false)
  else if ge_Timeout e then ("", false)
  else (classEmptyStream, true).

(** ** The guard of the retryable phase. *)

(** Each method is one critical section of its mutex; the timers call [onDeadline] and [onHeader]
    whenever they fire, also as they are stopped.  [pg_ht]: there is a header timer. *)
Record phaseGuard := mkGuard { pg_done : bool; pg_headers : bool; pg_deadlineHit : bool; pg_headerHit : bool; pg_ht : bool }.

#[global] Instance eta_phaseGuard : Settable phaseGuard :=
  {| eta_of := λ g, mkGuard (pg_done g) (pg_headers g) (pg_deadlineHit g) (pg_headerHit g) (pg_ht g) |}.

Definition newPhaseGuard (header : Z) : phaseGuard := mkGuard false false false false (0 <? header).

(** The guard after, and whether it cancels the attempt. *)
Definition onDeadline (g : phaseGuard) : phaseGuard * bool :=
  if pg_done g then (g, false) else (g <| pg_deadlineHit := true |>, true).

Definition onHeader (g : phaseGuard) : phaseGuard * bool :=
  if negb (pg_ht g) || pg_done g || pg_headers g then (g, false) else (g <| pg_headerHit := true |>, true).

Definition headersDone (g : phaseGuard) : phaseGuard := g <| pg_headers := true |>.

(** [end]: the guard is disarmed; whether the deadline had fired. *)
Definition guard_end (g : phaseGuard) : phaseGuard * bool := (g <| pg_done := true |>, pg_deadlineHit g).

(** ** An attempt. *)

Definition outcomeOK : string := "ok".
Definition outcomeFailed : string := "failed".
Definition outcomeRetried : string := "retried".
Definition outcomeClientClosed : string := "client_closed".

Definition VerdictOK : string := "ok".
Definition VerdictFault : string := "fault".
Definition VerdictNeutral : string := "neutral".

Definition NextRouteNoCapacity : string := "no_capacity".
Definition NextRouteWorkerUnavailable : string := "worker_unavailable".
Definition NextRouteError : string := "error".

Definition RetryDeniedBudget : string := "budget".
Definition RetryDeniedDeadline : string := "deadline".

Definition nextRouteResult (e : ApiError) : string :=
  if String.eqb (ae_Code e) CodeNoCapacity then NextRouteNoCapacity
  else if String.eqb (ae_Code e) CodeWorkerUnavailable then NextRouteWorkerUnavailable
  else NextRouteError.

(** A response: what its body still has to read, a chunk per read, and how the body ends. *)
Record Response := mkResponse { re_StatusCode : Z; re_sse : bool; re_body : list (list Z); re_end : option GoErr }.

#[global] Instance eta_Response : Settable Response :=
  {| eta_of := λ r, mkResponse (re_StatusCode r) (re_sse r) (re_body r) (re_end r) |}.

(** [ar_src] is what was put back in front of the body; [ar_armed]: the idle timer was set at
    least once, so that it may cancel the attempt; [ar_canceled] is the attempt's context. *)
Record attemptRun := mkRun {
  ar_rec : nat; ar_target : nat; ar_worker : string; ar_ticket : Ticket; ar_canceled : bool; ar_armed : bool; ar_started : bool; ar_ended : bool;
  ar_resp : option Response; ar_src : list (list Z); ar_err : option GoErr; ar_retryable : bool; ar_class : string;
  ar_nextUnavailable : bool; ar_nextRoute : string; ar_guard : option phaseGuard; ar_verdict : string; ar_ticketDone : bool;
  ar_retryDenied : string; ar_peek : bool; ar_okAt : Time
}.

#[global] Instance eta_attemptRun : Settable attemptRun := {| eta_of := λ r,
  mkRun (ar_rec r) (ar_target r) (ar_worker r) (ar_ticket r) (ar_canceled r) (ar_armed r) (ar_started r) (ar_ended r)
    (ar_resp r) (ar_src r) (ar_err r) (ar_retryable r) (ar_class r)
    (ar_nextUnavailable r) (ar_nextRoute r) (ar_guard r) (ar_verdict r) (ar_ticketDone r)
    (ar_retryDenied r) (ar_peek r) (ar_okAt r) |}.

Definition newRun (h : nat) (rt : routed) : attemptRun :=
  mkRun 0 h (s_WorkerID (rt_worker rt)) (rt_ticket rt) false false false false None [] None false "" false "" None "" false "" false zeroTime.

Definition ar_probe (r : attemptRun) : bool := t_probe (ar_ticket r).

Definition finalVerdict (r : attemptRun) : string :=
  if String.eqb (ar_verdict r) "" && ar_probe r then VerdictNeutral else ar_verdict r.

(** ** The state and the environment. *)

Record attemptRecord := mkRecord { rec_Worker : string; rec_Outcome : string; rec_Class : string }.

#[global] Instance eta_attemptRecord : Settable attemptRecord := {| eta_of := λ r, mkRecord (rec_Worker r) (rec_Outcome r) (rec_Class r) |}.

Record reqInfo := mkReqInfo {
  in_model : string; in_attempts : list attemptRecord; in_attempted : nat; in_clientClosed : bool; in_errCode : string; in_deadlineAt : Time;
  in_tokens : string * Z * Z
}.

#[global] Instance eta_reqInfo : Settable reqInfo := {| eta_of := λ i,
  mkReqInfo (in_model i) (in_attempts i) (in_attempted i) (in_clientClosed i) (in_errCode i) (in_deadlineAt i) (in_tokens i) |}.

Definition newInfo : reqInfo := mkReqInfo "" [] 0 false "" zeroTime ("", 0, 0).

(** The observers' AttemptEnd. *)
Record AttemptEnd := mkAttemptEnd {
  an_WorkerID : string; an_Outcome : string; an_Class : string; an_WillRetry : bool; an_NextWorkerUnavailable : bool; an_NextRouteResult : string;
  an_RetryDenied : string; an_Probe : bool; an_Verdict : string
}.

(** What the request does to the outside; attempts by number, from 0. *)
Inductive Ev :=
  | EvQueueWaited (result : string)
  | EvRejected (kind reason : string) (status : Z)
  | EvStarted (i : nat) (worker : string) (probe : bool)
  | EvRecordWorker (worker : string) (n : nat)
  | EvSent (i : nat)
  | EvReserved
  | EvRefunded
  | EvRecorded (i : nat) (v : Verdict)
  | EvAborted (i : nat)
  | EvReturned (i : nat)
  | EvReleased (i : nat)
  | EvEnded (i : nat) (e : AttemptEnd)
  | EvFailed (e : ApiError) (attempts : nat)
  | EvHead (status : Z) (attempts : nat)
  | EvFirstToken
  | EvWrote (b : list Z).

(** [a_runs] and [a_cur] are the guard of forwardRegistry. *)
Record AState := mkAState { a_r : RState; a_info : reqInfo; a_runs : list attemptRun; a_cur : option nat; a_gone : bool; a_trace : list Ev }.

#[global] Instance eta_AState : Settable AState :=
  {| eta_of := λ s, mkAState (a_r s) (a_info s) (a_runs s) (a_cur s) (a_gone s) (a_trace s) |}.

(** The configuration of the server; [sv_res] is absent when the feature is off. *)
Record resCfg := mkResCfg { rs_firstByte : Z; rs_minRemaining : Z; rs_probeHeader : Z; rs_peekWait : Z }.
Record Server := mkServer { sv_router : RouterCfg; sv_retry : retryPolicy; sv_res : option resCfg }.

(** What happens around the request, by the number of the call: other requests' operations, the
    timers of each attempt, what a worker answers, the code found in a peeked body in time, the
    wait of a queued request, the breakers' jitter, the writes that fail and after how many bytes
    (all of them, when the flush that follows fails), and panics; and how often the request looks
    at its place in the queue. *)
Record AEnv := mkAEnv {
  px_env : Env; px_others : nat → list (rop * Env); px_deadline : nat → nat → bool; px_header : nat → nat → bool; px_idle : nat → nat → bool;
  px_do : nat → GoErr + Response; px_peek : nat → option string; px_wait : nat → WaitCase; px_rand : nat → float64; px_write : nat → option nat;
  px_panic : nat → bool; px_closePanic : nat → bool; px_waits : nat
}.

(** ** Computations that may panic. *)

(** [Panic true] is http.ErrAbortHandler.  [Hang]: the call has not returned, because the routing
    spins on a duplicate worker id (RouterSpec.v) or the request still waits in the queue. *)
Inductive Ret (A : Type) := Ok (a : A) | Panic (abort : bool) | Hang.
Arguments Ok {A}. Arguments Panic {A}. Arguments Hang {A}.

Definition Pm (A : Type) : Type := AEnv → AState → AState * Ret A.

Definition pret {A} (a : A) : Pm A := λ _ s, (s, Ok a).
Definition panic {A} (abort : bool) : Pm A := λ _ s, (s, Panic abort).
Definition hang {A} : Pm A := λ _ s, (s, Hang).
Definition pbind {A B} (m : Pm A) (f : A → Pm B) : Pm B := λ x s,
  match m x s with (s, Ok a) => f a x s | (s, Panic b) => (s, Panic b) | (s, Hang) => (s, Hang) end.

Notation "'let?' x := m 'in' k" := (pbind m (λ x, k)) (at level 10, x pattern, m at level 100, k at level 200).
Notation "m ;? k" := (pbind m (λ _, k)) (at level 100, k at level 200, right associativity).

(** [defer d] followed by [m]: a panic of [d] replaces that of [m]. *)
Definition finally {A} (m : Pm A) (d : Pm ()) : Pm A := λ x s,
  match m x s with
  | (s, Hang) => (s, Hang)
  | (s, r) => match d x s with (s, Ok _) => (s, r) | (s, Panic b) => (s, Panic b) | (s, Hang) => (s, Hang) end
  end.

Definition pgets {A} (f : AState → A) : Pm A := λ _ s, (s, Ok (f s)).
Definition pmodify (f : AState → AState) : Pm () := λ _ s, (f s, Ok ()).
Definition emit (e : Ev) : Pm () := pmodify (λ s, s <| a_trace := a_trace s ++ [e] |>).
Definition set_info (f : reqInfo → reqInfo) : Pm () := pmodify (λ s, s <| a_info := f (a_info s) |>).

(** Through a pointer to an attempt. *)
Definition run_at (i : nat) : Pm attemptRun := λ _ s, (s, match a_runs s !! i with Some r => Ok r | None => Panic false end).
Definition set_run (i : nat) (f : attemptRun → attemptRun) : Pm () := pmodify (λ s, s <| a_runs := alter f i (a_runs s) |>).

(** The timers of an attempt at a moment.  The context of the attempt is a child of the client's. *)
Definition fire (deadline header idle gone : bool) (r : attemptRun) : attemptRun :=
  let r := match ar_guard r with
           | Some g =>
               let '(g, c1) := if deadline then onDeadline g else (g, false) in
               let '(g, c2) := if header then onHeader g else (g, false) in
               r <| ar_guard := Some g |> <| ar_canceled := ar_canceled r || c1 || c2 |>
           | None => r
           end in
  r <| ar_canceled := ar_canceled r || (idle && ar_armed r) || gone |>.

Section attempts.
Context `{GoPlatform} `{GoMapOrder} `{GoMath} `{UrlParser} (sv : Server).

(** A moment: others run, timers fire, the client may leave. *)
Definition step : Pm nat := λ x s,
  let n := r_calls (a_r s) in
  let r := foldl (λ r oe, run_rop (sv_router sv) oe.1 oe.2 r) (a_r s) (px_others x n) in
  let gone := a_gone s || env_cancelled (px_env x) n in
  (s <| a_r := r <| r_calls := S (r_calls r) |> |>
     <| a_runs := imap (λ i, fire (px_deadline x n i) (px_header x n i) (px_idle x n i) gone) (a_runs s) |>
     <| a_gone := gone |>, Ok n).

(** A router operation. *)
Definition lift {A} (m : M A) : Pm A := step ;? λ x s, let '(r, a) := m (px_env x) (a_r s) in (s <| a_r := r |>, Ok a).

Definition asks {A} (f : AEnv → nat → A) : Pm A := let? n := step in λ x s, (s, Ok (f x n)).

(** [r.Context().Err() != nil] *)
Definition gone : Pm bool := step ;? pgets a_gone.

(** Code that may panic: the recorder, the log handler, the transport; closing a body in a cleanup. *)
Definition foreign : Pm () := let? p := asks px_panic in if p then panic false else pret ().
Definition closing : Pm () := let? p := asks px_closePanic in if p then panic false else pret ().

Definition now : Pm Time := lift (call (λ now w, (w, now))).

(** A critical section of an attempt's guard, if it has one. *)
Definition guard_do {A} (i : nat) (f : phaseGuard → phaseGuard * A) : Pm (option A) :=
  step ;?
  let? run := run_at i in
  match ar_guard run with
  | None => pret None
  | Some g => let '(g, a) := f g in set_run i (λ r, r <| ar_guard := Some g |>) ;? pret (Some a)
  end.

(** ** Choosing and starting. *)

Definition flush_changes : Pm () := match sv_res sv with Some _ => lift flush ;? pret () | None => pret () end.

(** What a routing of the request ended in: a target, a waiter in the queue, or an error. *)
Definition routing (m : M Routing) : Pm ((nat * routed) + nat + routeError) :=
  let? r := lift (let! r := m in gets (λ s, match r with Routed h => (r, r_routeds s !! h) | _ => (r, None) end)) in
  match r with
  | (Routed h, Some rt) => pret (inl (inl (h, rt)))
  | (Waiting i, _) => pret (inl (inr i))
  | (NotRouted e, _) => pret (inr e)
  | (RouteStuck, _) => hang
  | (RoutePanicked, _) | (Routed _, None) => panic false
  end.

(** [reserveAttempt] *)
Definition reserveAttempt (req : InferenceRequest) (exclude : list string) : Pm ((nat * routed) + routeError) :=
  let? r := routing (Route (sv_router sv) req exclude) in
  flush_changes ;?
  pret (match r with inl (inl t) => inl t | inl (inr _) => inr (plain ErrInternal) | inr e => inr e end).

Definition QueueServed : string := "served".
Definition QueueTimeout : string := "timeout".
Definition QueueClientGone : string := "client_gone".
Definition QueueDrained : string := "drained".

(** The handle a wait ended with. *)
Definition granted (h : nat) : Pm ((nat * routed) + routeError) :=
  emit (EvQueueWaited QueueServed) ;?
  let? o := pgets (λ s, r_routeds (a_r s) !! h) in
  match o with Some rt => pret (inl (h, rt)) | None => panic false end.

(** [awaitSlot]: the rounds of its loops, the inner one when [rerouting].  A request that still
    waits after all of them has not returned. *)
Fixpoint awaitSlot (fuel : nat) (rerouting : bool) (req : InferenceRequest) (i : nat) (began : Time) : Pm ((nat * routed) + routeError) :=
  match fuel with
  | O => hang
  | S fuel =>
      let? k := asks px_wait in
      let? r := lift (if rerouting then reroute_round (sv_router sv) req i began else await_round (sv_router sv) req i began k) in
      match r with
      | ASlot h => granted h
      | AReroute => awaitSlot fuel true req i began
      | AWait => awaitSlot fuel false req i began
      | ABlocked => awaitSlot fuel rerouting req i began
      | AShed e =>
          emit (EvQueueWaited (if String.eqb (ro_shed e) OverloadQueueTimeout then QueueTimeout else QueueDrained)) ;? pret (inr e)
      | AGone => emit (EvQueueWaited QueueClientGone) ;? pret (inr (plain ErrInternal))
      | APanicked => panic false
      | AStuck => hang
      end
  end.

(** [reserveFirstAttempt] *)
Definition reserveFirstAttempt (req : InferenceRequest) (tenant : string) : Pm ((nat * routed) + routeError) :=
  match sv_res sv with
  | None => reserveAttempt req []
  | Some _ =>
      let? r := routing (RouteOrWait (sv_router sv) req tenant) in
      let? t := match r with
                | inl (inl t) => pret (inl t)
                | inr e => pret (inr e)
                | inl (inr i) =>
                    set_info (λ n, n <| in_model := ir_Model req |>) ;?
                    let? began := now in
                    λ x s, awaitSlot (px_waits x) false req i began x s
                end in
      flush_changes ;? pret t
  end.

(** [track]: the attempt's pointer. *)
Definition track (t : nat * routed) : Pm nat := λ _ s,
  let i := length (a_runs s) in
  (s <| a_runs := a_runs s ++ [newRun t.1 t.2] |> <| a_cur := Some (default i (a_cur s)) |>, Ok i).

Definition set_cur (i : nat) : Pm () := pmodify (λ s, s <| a_cur := Some i |>).

(** [startAttempt] *)
Definition startAttempt (i : nat) : Pm () :=
  let? run := run_at i in
  let? idx := pgets (λ s, length (in_attempts (a_info s))) in
  set_info (λ n, n <| in_attempts := in_attempts n ++ [mkRecord (ar_worker run) "" ""] |>) ;?
  set_run i (λ r, r <| ar_rec := idx |> <| ar_started := true |>) ;?
  set_info (λ n, n <| in_attempted := length (in_attempts n) |>) ;?
  emit (EvStarted i (ar_worker run) (ar_probe run)) ;?
  match sv_res sv with
  | None => pret ()
  | Some rs => now ;? set_run i (λ r, r <| ar_guard := Some (newPhaseGuard (if ar_probe run then rs_probeHeader rs else 0)) |>)
  end ;?
  foreign.

(** [recordWorker] *)
Definition recordWorker (i : nat) : Pm () :=
  let? run := run_at i in
  let? n := pgets (λ s, length (in_attempts (a_info s))) in
  emit (EvRecordWorker (ar_worker run) n) ;? foreign.

(** ** Sending. *)

(** The read of the first byte: empty reads are repeated. *)
Fixpoint read_first (b : list (list Z)) : option (list Z * list (list Z)) :=
  match b with
  | [] => None
  | [] :: b => read_first b
  | c :: b => Some (c, b)
  end.

Definition arrived (i : nat) : Pm () := guard_do i guard_end ;? pret ().

Definition set_err (i : nat) (e : GoErr) : Pm () := set_run i (λ r, r <| ar_err := Some e |>).
Definition set_class (i : nat) (c : string * bool) : Pm () := set_run i (λ r, r <| ar_class := c.1 |> <| ar_retryable := c.2 |>).

(** The header timeout of a probe replaces what the call returned. *)
Definition header_checked (i : nat) (answer : GoErr + Response) : Pm (GoErr + Response) :=
  guard_do i (λ g, (headersDone g, ())) ;?
  let? expired := guard_do i (λ g, (g, pg_headerHit g)) in
  if default false expired then
    let? g := gone in
    if g then pret answer
    else match answer with inr _ => foreign | inl _ => pret () end ;? pret (inl headerTimeoutError)
  else pret answer.

(** The wait for the first byte of a 200. *)
Definition first_byte (i : nat) (resp : Response) : Pm () :=
  set_run i (λ r, r <| ar_armed := true |>) ;?
  foreign ;?
  match read_first (re_body resp) with
  | Some (c, rest) => set_run i (λ r, r <| ar_src := [c] |> <| ar_resp := Some (resp <| re_body := rest |>) |>) ;? arrived i
  | None =>
      let rerr := default errEOF (re_end resp) in
      set_err i rerr ;?
      let? g := gone in
      (if g then pret ()
       else
         step ;?
         let? run := run_at i in
         let e := if ar_canceled run then idleTimeoutError else rerr in
         set_err i e ;? set_class i (firstChunkError e) ;? foreign) ;?
      foreign ;?
      set_run i (λ r, r <| ar_resp := None |>)
  end.

(** The call and what came back. *)
Definition send_wire (i : nat) : Pm () :=
  foreign ;?
  let? answer := asks px_do in
  let? answer := header_checked i answer in
  match answer with
  | inl e =>
      set_err i e ;?
      let? g := gone in
      if g then pret () else foreign ;? set_class i (transportError e)
  | inr resp =>
      if (re_StatusCode resp <? 200) || (599 <? re_StatusCode resp) then foreign ;? set_err i errUnexpectedStatus
      else
      set_run i (λ r, r <| ar_resp := Some resp |> <| ar_src := [] |>) ;?
      match policy_status (sv_retry sv) (re_StatusCode resp) with
      | Some class => set_class i (class, true) ;? arrived i
      | None => if negb (re_StatusCode resp =? 200) then arrived i else first_byte i resp
      end
  end.

(** [sendOnce] *)
Definition sendOnce (i : nat) : Pm () := emit (EvSent i) ;? send_wire i.

(** [markDeadline] *)
Definition markDeadline (i : nat) : Pm () :=
  let? run := run_at i in
  match ar_resp run with Some _ => foreign | None => pret () end ;?
  set_run i (λ r, r <| ar_resp := None |> <| ar_src := [] |> <| ar_err := Some deadlineError |> <| ar_class := classDeadline |> <| ar_retryable := false |>) ;?
  foreign.

(** [endPhase] *)
Definition endPhase (i : nat) : Pm () :=
  let? hit := guard_do i guard_end in
  if default false hit then let? g := gone in if g then pret () else markDeadline i
  else pret ().

(** [sendAttempt] *)
Definition sendAttempt (i : nat) : Pm () := sendOnce i ;? endPhase i.

(** ** The verdict. *)

Definition peekLimit : nat := 1024.

(** io.ReadFull into [n] bytes: what was read, and the rest of the body. *)
Fixpoint read_full (n : nat) (b : list (list Z)) : list Z * list (list Z) :=
  match b with
  | [] => ([], [])
  | c :: b' =>
      if (n =? 0)%nat then ([], b)
      else if (length c <=? n)%nat then let '(p, rest) := read_full (n - length c) b' in (c ++ p, rest)
      else (take n c, drop n c :: b')
  end.

(** [putBack] *)
Definition putBack (i : nat) : Pm () := set_run i (λ r,
  match ar_peek r, ar_resp r with
  | true, Some resp =>
      let '(p, rest) := read_full peekLimit (re_body resp) in
      r <| ar_peek := false |> <| ar_src := [p] |> <| ar_resp := Some (resp <| re_body := rest |>) |>
  | _, _ => r
  end).

(** [joinPeek] *)
Definition joinPeek (i : nat) : Pm () :=
  let? run := run_at i in
  if ar_peek run then step ;? putBack i else pret ().

Definition neutral503Codes : list string := ["queue_full"; "draining"; "not_ready"].

(** [peekIsNeutral]; the environment says which code the bytes read in time hold, if they were. *)
Definition peekIsNeutral (rs : resCfg) (i : nat) : Pm bool :=
  let? t := now in
  let? deadlineAt := pgets (λ s, in_deadlineAt (a_info s)) in
  if Z.min (rs_peekWait rs) (Sub deadlineAt t) <=? 0 then pret false
  else
    set_run i (λ r, r <| ar_peek := true |> <| ar_armed := true |>) ;?
    let? code := asks px_peek in
    match code with
    | Some code => putBack i ;? pret (existsb (String.eqb code) neutral503Codes)
    | None => pret false
    end.

(** The part of [verdictOf] that depends on the status alone; a held 503 is peeked. *)
Definition status_verdict (code : Z) : Verdict * string :=
  if (200 <=? code) && (code <? 300) then (OK, VerdictOK)
  else if (code =? 503) || (code =? 502) || (code =? 504) then (Fault, VerdictFault)
  else if (400 <=? code) && (code <? 500) then (Neutral, VerdictNeutral)
  else if ((300 <=? code) && (code <? 400)) || (500 <=? code) then (RatioFault, VerdictFault)
  else (Neutral, VerdictNeutral).

(** [verdictOf] *)
Definition verdictOf (rs : resCfg) (i : nat) (retryPossible : bool) : Pm (Verdict * string) :=
  let? g := gone in
  let? run := run_at i in
  if g || String.eqb (ar_class run) classDeadline then pret (Neutral, VerdictNeutral)
  else
    match ar_err run, ar_resp run with
    | Some _, _ => pret (Fault, VerdictFault)
    | None, None => pret (Neutral, VerdictNeutral)
    | None, Some resp =>
        if (re_StatusCode resp =? 503) && retryPossible && ar_retryable run then
          let? neutral := peekIsNeutral rs i in
          pret (if neutral then (Neutral, VerdictNeutral) else (Fault, VerdictFault))
        else pret (status_verdict (re_StatusCode resp))
    end.

(** [settleVerdict] *)
Definition settleVerdict (i : nat) (retryPossible : bool) : Pm () :=
  match sv_res sv with
  | None => pret ()
  | Some rs =>
      let? v := verdictOf rs i retryPossible in
      set_run i (λ r, r <| ar_verdict := v.2 |>) ;?
      let? run := run_at i in
      (if ar_ticketDone run then pret ()
       else
         set_run i (λ r, r <| ar_ticketDone := true |>) ;?
         (if bool_decide (v.1 = OK) then let? t := now in set_run i (λ r, r <| ar_okAt := t |>) else pret ()) ;?
         let? rnd := asks px_rand in
         lift (call_breakers (λ bs now, (Breakers_Record bs now (ar_ticket run) v.1 rnd, ()))) ;?
         emit (EvRecorded i v.1)) ;?
      flush_changes
  end.

(** [recordAfterRelay] *)
Definition recordAfterRelay (i : nat) : Pm () :=
  let? run := run_at i in
  let? n := pgets a_info in
  match sv_res sv with
  | None => pret ()
  | Some _ =>
      if negb (String.eqb (ar_verdict run) VerdictOK) || bool_decide (ar_resp run = None) || in_clientClosed n
         || negb (String.eqb (in_errCode n) CodeInferenceFailed)
      then pret ()
      else
        set_run i (λ r, r <| ar_verdict := VerdictFault |>) ;?
        let? rnd := asks px_rand in
        lift (call_breakers (λ bs now, (Breakers_RecordAbort bs now (ar_ticket run) (ar_okAt run) rnd, ()))) ;?
        emit (EvAborted i) ;?
        flush_changes
  end.

(** [returnTicket] *)
Definition returnTicket (i : nat) : Pm () :=
  let? run := run_at i in
  match sv_res sv with
  | None => pret ()
  | Some _ =>
      if ar_ticketDone run then pret ()
      else
        set_run i (λ r, r <| ar_ticketDone := true |>) ;?
        lift (call_breakers (λ bs _, (Breakers_Release bs (ar_ticket run), ()))) ;?
        emit (EvReturned i) ;?
        flush_changes
  end.

(** ** The budget. *)

(** [permitRetry]: the reservation, and whether the retry may go ahead. *)
Definition permitRetry (rs : resCfg) (i : nat) (model : string) : Pm (option Reservation * bool) :=
  let? t := now in
  let? deadlineAt := pgets (λ s, in_deadlineAt (a_info s)) in
  let rem := Sub deadlineAt t in
  if (rem <=? 0) || (rem <? rs_minRemaining rs) then
    set_run i (λ r, r <| ar_retryDenied := RetryDeniedDeadline |>) ;? foreign ;? pret (None, false)
  else
    let? resv := lift (call_res (λ now rs, let '(b, o) := Budget_Reserve (rl_budget rs) now model in (rs <| rl_budget := b |>, o))) in
    match default None resv with
    | Some r => emit EvReserved ;? pret (Some r, true)
    | None => set_run i (λ r, r <| ar_retryDenied := RetryDeniedBudget |>) ;? foreign ;? pret (None, false)
    end.

(** [refund] *)
Definition refund (r : option Reservation) : Pm () :=
  match sv_res sv, r with
  | Some _, Some r =>
      lift (call_res (λ now rs, (rs <| rl_budget := (Budget_Refund (rl_budget rs) now (Some r)).1 |>, ()))) ;? emit EvRefunded
  | _, _ => pret ()
  end.

Definition note_first (model : string) : Pm () :=
  match sv_res sv with
  | Some _ => lift (call_res (λ now rs, (rs <| rl_budget := Budget_NoteFirst (rl_budget rs) now model |>, ()))) ;? pret ()
  | None => pret ()
  end.

(** ** Closing. *)

(** [endAttempt] *)
Definition endAttempt (i : nat) (outcome : string) : Pm () :=
  let? run := run_at i in
  set_info (λ n, n <| in_attempts := alter (λ r, r <| rec_Outcome := outcome |> <| rec_Class := ar_class run |>) (ar_rec run) (in_attempts n) |>) ;?
  emit (EvEnded i (mkAttemptEnd (ar_worker run) outcome (ar_class run) (String.eqb outcome outcomeRetried) (ar_nextUnavailable run)
                     (ar_nextRoute run) (ar_retryDenied run) (ar_probe run) (finalVerdict run))) ;?
  closing.

Definition close_body (i : nat) : Pm () :=
  let? run := run_at i in match ar_resp run with Some _ => closing | None => pret () end.

Definition release_slot (i : nat) : Pm () := let? run := run_at i in lift (release (ar_target run)) ;? emit (EvReleased i).

(** [abandonAttempt] *)
Definition abandonAttempt (i : nat) (outcome : string) : Pm () :=
  let? run := run_at i in
  if ar_ended run then pret ()
  else
    set_run i (λ r, r <| ar_ended := true |>) ;?
    finally
      (finally
         (finally
            (finally
               (guard_do i guard_end ;? set_run i (λ r, r <| ar_canceled := true |>))
               (close_body i))
            (returnTicket i))
         (release_slot i))
      (let? run := run_at i in if ar_started run then endAttempt i outcome else pret ()).

(** [finishAttempt] *)
Definition finishAttempt (i : nat) : Pm () :=
  let? run := run_at i in
  let? n := pgets a_info in
  let outcome :=
    if in_clientClosed n then outcomeClientClosed
    else if negb (String.eqb (in_errCode n) "") || bool_decide (ar_err run ≠ None)
            || match ar_resp run with Some resp => 500 <=? re_StatusCode resp | None => false end
    then outcomeFailed else outcomeOK in
  recordAfterRelay i ;? abandonAttempt i outcome.

Definition close_one (panicked : bool) (i : nat) : Pm () :=
  let? run := run_at i in
  let? cur := pgets a_cur in
  if ar_ended run then pret ()
  else if panicked then set_run i (λ r, r <| ar_class := classPanic |>) ;? abandonAttempt i outcomeFailed
  else if bool_decide (cur = Some i) then finishAttempt i
  else abandonAttempt i outcomeFailed.

Fixpoint close_all (panicked : bool) (l : list nat) : Pm () :=
  match l with [] => pret () | i :: l => close_one panicked i ;? close_all panicked l end.

(** [closeAttempts] *)
Definition closeAttempts (panicked : bool) : Pm () := let? n := pgets (λ s, length (a_runs s)) in close_all panicked (seq 0 n).

(** The deferred function of forwardRegistry around its body. *)
Definition guarded {A} (m : Pm A) : Pm A := λ x s,
  match m x s with
  | (s, Hang) => (s, Hang)
  | (s, r) => match closeAttempts (match r with Panic abort => negb abort | _ => false end) x s with
              | (s, Ok _) => (s, r) | (s, Panic b) => (s, Panic b) | (s, Hang) => (s, Hang)
              end
  end.

(** ** Answering the client. *)

(** [fail]: the error response, with the attempts header. *)
Definition fail (e : ApiError) : Pm () :=
  set_info (λ n, n <| in_errCode := ae_Code e |>) ;?
  let? n := pgets (λ s, length (in_attempts (a_info s))) in
  emit (EvFailed e n).

Inductive PumpEnd := PumpDone | PumpClientErr | PumpErr (e : GoErr).

(** What is written of [b] when the write ends so. *)
Definition delivered (fault : option nat) (b : list Z) : list Z := match fault with Some k => take k b | None => b end.

(** [pump]: what is put back and what the body has, then its end.  The state is that of [onData]. *)
Fixpoint pump {S : Type} (onData : S → list Z → Pm S) (st : S) (src : list (list Z)) (end_ : option GoErr) : Pm (S * PumpEnd) :=
  match src with
  | [] => pret (st, match end_ with Some e => PumpErr e | None => PumpDone end)
  | [] :: src => pump onData st src end_
  | c :: src =>
      let? st := onData st c in
      let? fault := asks px_write in
      emit (EvWrote (delivered fault c)) ;?
      match fault with Some _ => pret (st, PumpClientErr) | None => pump onData st src end_ end
  end.

(** [tail = append(tail, b...)], of which the last 4 bytes stay. *)
Definition keep_tail (tail b : list Z) : list Z := let t := tail ++ b in drop (length t - 4) t.

(** bytes.HasSuffix *)
Definition has_suffix (b suffix : list Z) : bool :=
  (length suffix <=? length b)%nat && bool_decide (drop (length b - length suffix) b = suffix).

Definition lf2 : list Z := [10; 10].
Definition crlf2 : list Z := [13; 10; 13; 10].

(** The body of an error whose texts need no escaping (encoding/json), as [Body] writes it. *)
Definition plain_body (e : ApiError) : list Z :=
  let q s := 34 :: bytes s ++ [34] in
  bytes "{" ++ q "error" ++ bytes ":{" ++ q "message" ++ bytes ":" ++ q (ae_Message e) ++ bytes "," ++ q "type" ++ bytes ":"
  ++ q (errorType (ae_HTTPStatus e)) ++ bytes "," ++ q "code" ++ bytes ":" ++ q (ae_Code e) ++ bytes "}}".

(** What ends a stream that broke, after the last bytes forwarded. *)
Definition error_event (tail : list Z) : list Z :=
  (if (0 <? length tail)%nat && negb (has_suffix tail lf2) && negb (has_suffix tail crlf2) then lf2 else [])
  ++ bytes "data: " ++ plain_body ErrInferenceFailed ++ lf2.

Definition scan_feed (scan : option tokenScanner) (b : list Z) : option tokenScanner := (λ t, feed t b) <$> scan.

(** The stream's [onData]: whether a chunk was seen, the tail, the scanner. *)
Definition stream_data (st : bool * list Z * option tokenScanner) (b : list Z) : Pm (bool * list Z * option tokenScanner) :=
  let '(first, tail, scan) := st in
  (if first then emit EvFirstToken else pret ()) ;? pret (false, keep_tail tail b, scan_feed scan b).

Definition body_data (scan : option tokenScanner) (b : list Z) : Pm (option tokenScanner) := pret (scan_feed scan b).

Definition set_tokens (scan : option tokenScanner) (sse : bool) : Pm () :=
  match scan with Some t => set_info (λ n, n <| in_tokens := result t sse |>) | None => pret () end.

(** [relayStream] *)
Definition relayStream (scan : option tokenScanner) (src : list (list Z)) (end_ : option GoErr) : Pm () :=
  let? r := pump stream_data (true, [], scan) src end_ in
  let '(_, tail, scan, out) := r in
  set_tokens scan true ;?
  match out with
  | PumpDone => pret ()
  | PumpClientErr => set_info (λ n, n <| in_clientClosed := true |>)
  | PumpErr e =>
      let? g := gone in
      if g then set_info (λ n, n <| in_clientClosed := true |>)
      else
        set_info (λ n, n <| in_errCode := CodeInferenceFailed |>) ;?
        foreign ;?
        let? fault := asks px_write in
        emit (EvWrote (delivered fault (error_event tail)))
  end.

(** [relay] *)
Definition relay (resp : Response) (src : list (list Z)) : Pm () :=
  let code := re_StatusCode resp in
  finally
    (if (300 <=? code) && (code <? 400) then foreign ;? fail ErrInferenceFailed
     else
       let? n := pgets (λ s, length (in_attempts (a_info s))) in
       emit (EvHead code n) ;?
       let scan := if (200 <=? code) && (code <? 300) then Some newScanner else None in
       if re_sse resp then relayStream scan (src ++ re_body resp) (re_end resp)
       else
         let? r := pump body_data scan (src ++ re_body resp) (re_end resp) in
         set_tokens r.1 false ;?
         match r.2 with
         | PumpDone => pret ()
         | PumpClientErr => set_info (λ n, n <| in_clientClosed := true |>)
         | PumpErr e =>
             let? g := gone in
             if g then set_info (λ n, n <| in_clientClosed := true |>)
             else set_info (λ n, n <| in_errCode := CodeInferenceFailed |>) ;? foreign ;? panic true
         end)
    foreign.

(** ** The request. *)

Definition rejection (e : ApiError) : string * string :=
  if String.eqb (ae_Code e) CodeInvalidRequest then ("validation", if ae_HTTPStatus e =? 413 then "body_too_large" else "invalid_request")
  else if String.eqb (ae_Code e) CodeModelNotFound then ("model", "model_not_found")
  else if String.eqb (ae_Code e) CodeForbidden then ("model", "model_forbidden")
  else if String.eqb (ae_Code e) CodeNoCapacity then ("capacity", "no_capacity")
  else if String.eqb (ae_Code e) CodeWorkerUnavailable then ("capacity", "worker_unavailable")
  else ("internal", "internal").

(** [refuseNoWorker] *)
Definition refuseNoWorker (req : InferenceRequest) (e : ApiError) : Pm () :=
  (if String.eqb (ae_Code e) CodeNoCapacity then set_info (λ n, n <| in_model := ir_Model req |>) else pret ()) ;?
  let? g := gone in
  if g then set_info (λ n, n <| in_clientClosed := true |>)
  else emit (EvRejected (rejection e).1 (rejection e).2 (ae_HTTPStatus e)) ;? foreign ;? fail e.

(** [shed] *)
Definition shed (reason : string) (e : ApiError) : Pm () :=
  let? g := gone in
  if g then set_info (λ n, n <| in_clientClosed := true |>)
  else emit (EvRejected "overload" reason (ae_HTTPStatus e)) ;? foreign ;? fail e.

(** The loop: the attempt whose result is the client's.  A round per attempt; [None] is a loop that
    outran its bound. *)
Fixpoint attempt_loop (fuel : nat) (req : InferenceRequest) (tried : list string) (i : nat) : Pm (option nat) :=
  match fuel with
  | O => pret None
  | S fuel =>
      sendAttempt i ;?
      let? g := gone in
      let? run := run_at i in
      let? n := pgets (λ s, length (in_attempts (a_info s))) in
      let wantRetry := negb g && ar_retryable run && (Z.of_nat n <? rp_max (sv_retry sv)) in
      let? rw := match sv_res sv with
                 | Some rs => if wantRetry then permitRetry rs i (ir_Model req) else pret (None, wantRetry)
                 | None => pret (None, wantRetry)
                 end in
      let '(reserved, wantRetry) := rw in
      settleVerdict i wantRetry ;?
      if negb wantRetry then pret (Some i)
      else
        let? next := reserveAttempt req (tried ++ [ar_worker run]) in
        match next with
        | inr e =>
            refund reserved ;?
            set_run i (λ r, r <| ar_nextUnavailable := true |>) ;?
            let? g := gone in
            (if g then pret () else set_run i (λ r, r <| ar_nextRoute := nextRouteResult (ro_Error e) |>)) ;?
            pret (Some i)
        | inl t =>
            let? j := track t in
            startAttempt j ;?
            set_cur j ;?
            abandonAttempt i outcomeRetried ;?
            recordWorker j ;?
            attempt_loop fuel req (tried ++ [ar_worker run]) j
        end
  end.

(** What the client gets of the last attempt. *)
Definition answer (i : nat) : Pm () :=
  let? g := gone in
  let? run := run_at i in
  if g then
    set_info (λ n, n <| in_clientClosed := true |>) ;?
    match ar_resp run with Some _ => foreign | None => pret () end
  else
    match ar_err run with
    | Some e => fail (mapUpstreamError e)
    | None =>
        joinPeek i ;?
        let? run := run_at i in
        match ar_resp run with Some resp => relay resp (ar_src run) | None => panic false end
    end.

(** The rounds the loop may need: one per attempt. *)
Definition loop_bound : nat := S (Z.to_nat (rp_max (sv_retry sv))).

(** From the first slot on; [false] is the loop outrunning its bound. *)
Definition serve (req : InferenceRequest) (t : nat * routed) : Pm bool :=
  guarded (
    let? i := track t in
    startAttempt i ;?
    recordWorker i ;?
    let? last := attempt_loop loop_bound req [] i in
    match last with Some i => answer i ;? pret true | None => pret false end).

(** [forwardRegistry] *)
Definition forwardRegistry (req : InferenceRequest) (tenant : string) : Pm bool :=
  match sv_res sv with
  | Some rs => let? t := now in set_info (λ n, n <| in_deadlineAt := Add t (rs_firstByte rs) |>)
  | None => pret ()
  end ;?
  let? first := reserveFirstAttempt req tenant in
  match first with
  | inr e => (if String.eqb (ro_shed e) "" then refuseNoWorker req (ro_Error e) else shed (ro_shed e) (ro_Error e)) ;? pret true
  | inl t =>
      set_info (λ n, n <| in_model := ir_Model req |>) ;?
      note_first (ir_Model req) ;?
      serve req t
  end.
End attempts.

(** A request arriving at a router. *)
Definition arriving (r : RState) : AState := mkAState r newInfo [] None false [].
