(* ===== verification/AttemptSpec.v ===== *)
(** * The attempts of a request: proofs

    What a request does, for every environment: each attempt goes through its life exactly once
    (started, sent, judged or its ticket returned, its slot given back, ended), retries keep to the
    policy, the budget is charged for the retries that are sent, the first-byte deadline and the
    response decide who came first once, and a relayed body reaches the client whole.

    The proofs run the operations symbolically ([wp]).  What happens between two operations is a
    [wobble]: the router moves as RouterSpec.v allows, timers fire, the client may leave; nothing
    else of the request changes. *)

From Stdlib Require Import Ascii String SpecFloat.
From S2P Require Import Prelude GoFloat FloatExact GoString GoSort SlidingWindow Breaker Breakers Queue Budget Protocol Cost Scheduler SchedulerSpec History Tracker TrackerSpec Snapshot Api Tokens Router RouterSpec Attempt.

Local Open Scope string_scope.
Local Open Scope list_scope.
Local Open Scope Z_scope.

#[local] Existing Instance any_workers.

(** ** The life of an attempt, as the trace tells it. *)

(** [Settled b]: the breaker has its verdict, [b] if it counts as a success. *)
Inductive phase := Fresh | Started | Settled (success : bool) | Freed | Closed | Bad.

Definition life_event (res : bool) (ph : phase) (e : Ev) : phase :=
  match e, ph with
  | EvStarted _ _ _, Fresh => Started
  | EvSent _, Started => Started
  | EvRecorded _ v, Started => if res then Settled (bool_decide (v = OK)) else Bad
  | EvReturned _, Started => if res then Settled false else Bad
  | EvAborted _, Settled true => Settled false
  | EvReleased _, Settled _ => Freed
  | EvReleased _, Started => if res then Bad else Freed
  | EvEnded _ _, Freed => Closed
  | _, _ => Bad
  end.

(** The attempt an event is about. *)
Definition about (e : Ev) : option nat :=
  match e with
  | EvStarted i _ _ | EvSent i | EvRecorded i _ | EvAborted i | EvReturned i | EvReleased i | EvEnded i _ => Some i
  | _ => None
  end.

Definition life_step (res : bool) (i : nat) (ph : phase) (e : Ev) : phase :=
  if bool_decide (about e = Some i) then life_event res ph e else ph.

Definition life (res : bool) (i : nat) (tr : list Ev) : phase := foldl (life_step res i) Fresh tr.
#[global] Arguments life : simpl never.

(** ** What else the trace tells. *)

Definition starts (tr : list Ev) : list string := omap (λ e, match e with EvStarted _ w _ => Some w | _ => None end) tr.

Definition is_answer (e : Ev) : bool := match e with EvFailed _ _ | EvHead _ _ => true | _ => false end.

Definition answers (tr : list Ev) : Z := countb is_answer tr.

Definition reserved (tr : list Ev) : Z := countb (λ e, match e with EvReserved => true | _ => false end) tr.
Definition refunded (tr : list Ev) : Z := countb (λ e, match e with EvRefunded => true | _ => false end) tr.

(** The classes of failures that may be retried. *)
Definition retry_class (p : retryPolicy) (c : string) : Prop :=
  c = classConnect ∨ c = classReset ∨ c = classEmptyStream ∨ ∃ code, code ∈ rp_statuses p ∧ c = statusClass code.

(** An attempt that gave way to another one had failed in such a way. *)
Definition retries_ok (p : retryPolicy) (tr : list Ev) : Prop :=
  ∀ i e, EvEnded i e ∈ tr → an_Outcome e = outcomeRetried → retry_class p (an_Class e).

(** ** Running an operation. *)

Definition aenv_ok (x : AEnv) : Prop := env_ok (px_env x) ∧ ∀ n, Forall (λ oe, env_ok oe.2) (px_others x n).

Definition wp {A} (x : AEnv) (m : Pm A) (Q : Ret A → AState → Prop) (s : AState) : Prop := Q (m x s).2 (m x s).1.

Lemma wp_ret {A} x (a : A) Q s : Q (Ok a) s → wp x (pret a) Q s.
Proof. done. Qed.

Lemma wp_bind {A B} x (m : Pm A) (f : A → Pm B) Q s :
  wp x m (λ r s', match r with Ok a => wp x (f a) Q s' | Panic b => Q (Panic b) s' | Hang => Q Hang s' end) s → wp x (pbind m f) Q s.
Proof. unfold wp, pbind. destruct (m x s) as [s' [a|b|]]; done. Qed.

Lemma wp_mono {A} x (m : Pm A) (Q R : Ret A → AState → Prop) s : wp x m Q s → (∀ r s', Q r s' → R r s') → wp x m R s.
Proof. unfold wp. auto. Qed.

Lemma wp_finally {A} x (m : Pm A) (d : Pm ()) Q s :
  wp x m (λ r s', match r with Hang => Q Hang s' | r => wp x d (λ r' s'', Q (match r' with Ok _ => r | Panic b => Panic b | Hang => Hang end) s'') s' end) s →
  wp x (finally m d) Q s.
Proof. unfold wp, finally. destruct (m x s) as [s' [a|b|]]; cbn; try destruct (d x s') as [s'' [[]|b'|]]; done. Qed.

(** The fields an environment cannot reach. *)
Definition erase (r : attemptRun) : attemptRun := r <| ar_guard := None |> <| ar_canceled := false |>.

Lemma erase_fire a b c d r : erase (fire a b c d r) = erase r.
Proof. unfold fire. destruct (ar_guard r) as [g|]; [|done]. repeat case_match; done. Qed.

Record fine (s : AState) : Prop := { fn_cache : cache_ok (wd_cache (r_world (a_r s))); fn_bounded : bounded (core (a_r s)) }.

Record wobble (s s' : AState) : Prop := {
  wb_info : a_info s' = a_info s; wb_cur : a_cur s' = a_cur s; wb_trace : a_trace s' = a_trace s; wb_runs : erase <$> a_runs s' = erase <$> a_runs s;
  wb_gone : a_gone s = true → a_gone s' = true; wb_steps : rtc cstep (core (a_r s)) (core (a_r s')); wb_fine : fine s'
}.

Lemma wobble_refl s : fine s → wobble s s.
Proof. by split. Qed.

Lemma wobble_trans s1 s2 s3 : wobble s1 s2 → wobble s2 s3 → wobble s1 s3.
Proof. intros [????? H1 _] [????? H2 ?]. split; try congruence; [auto|by etrans]. Qed.

Section Wp.
Context `{GoPlatform} `{GoMapOrder} `{GoMath} `{UrlParser} (sv : Server) (x : AEnv) (Hx : aenv_ok x).

Lemma others_move l r : Forall (λ oe : rop * Env, env_ok oe.2) l → cache_ok (wd_cache (r_world r)) → bounded (core r) →
  let r' := foldl (λ r oe, run_rop (sv_router sv) oe.1 oe.2 r) r l in
  cache_ok (wd_cache (r_world r')) ∧ bounded (core r') ∧ rtc cstep (core r) (core r').
Proof.
  revert r. induction l as [|[o env] l IH]; intros r Hl Hc Hb; [done|]. inversion_clear Hl as [|?? He Hl']. cbn [foldl fst snd].
  assert (rop_ok o) as Ho by (unfold rop_ok; by repeat case_match).
  destruct (moves_rop (sv_router sv) env o He Ho (core r) Hb r (conj eq_refl Hc)) as (c & [<- Hc'] & Hs). cbn [fst] in *.
  destruct (bounded_steps _ _ Hb Hs) as [Hb' _]. destruct (IH _ Hl' Hc' Hb') as (? & ? & ?). split_and!; [done..|]. by etrans.
Qed.

Lemma wp_step (Q : Ret nat → AState → Prop) s : fine s → (∀ n s', wobble s s' → Q (Ok n) s') → wp x (step sv) Q s.
Proof.
  intros [Hc Hb] HQ. unfold wp, step. cbn [fst snd]. apply HQ.
  destruct (others_move (px_others x (r_calls (a_r s))) (a_r s) (proj2 Hx _) Hc Hb) as (Hc' & Hb' & Hs). split; cbn.
  - done.
  - done.
  - done.
  - apply list_eq. intros i. rewrite !list_lookup_fmap, list_lookup_imap. destruct (a_runs s !! i); cbn; [by rewrite erase_fire|done].
  - by intros ->.
  - exact Hs.
  - split; [exact Hc'|exact Hb'].
Qed.

(** A router operation that keeps what routers keep. *)
Lemma wp_lift_with {A} (m : M A) (Q : Ret A → AState → Prop) s :
  fine s → (∀ s' r a, wobble s s' → m (px_env x) (a_r s') = (r, a) → Q (Ok a) (s' <| a_r := r |>)) → wp x (lift sv m) Q s.
Proof.
  intros Hf HQ. apply wp_bind, wp_step; [done|]. intros n s' Hs. unfold wp. destruct (m (px_env x) (a_r s')) as [r a] eqn:Hm. by eapply HQ.
Qed.

Lemma wobble_router s s' r :
  wobble s s' → cache_ok (wd_cache (r_world r)) → rtc cstep (core (a_r s')) (core r) → wobble s (s' <| a_r := r |>).
Proof.
  intros [????? Hs [_ Hb]] Hc Hr. split; cbn; try done; [by etrans|]. split; [done|]. by apply (bounded_steps _ _ Hb Hr).
Qed.

Lemma wp_lift {A} (m : M A) (Q : Ret A → AState → Prop) s :
  moves (px_env x) m → fine s → (∀ a s', wobble s s' → Q (Ok a) s') → wp x (lift sv m) Q s.
Proof.
  intros Hm Hf HQ. apply wp_lift_with; [done|]. intros s' r a Hs E. apply HQ.
  destruct (wb_fine _ _ Hs) as [Hc Hb]. destruct (Hm (core (a_r s')) Hb (a_r s') (conj eq_refl Hc)) as (c & [<- Hc'] & Hr).
  rewrite E in *. by apply wobble_router.
Qed.
End Wp.

(** ** Operations that leave no trace. *)

(** What the accounts of an attempt depend on. *)
Definition flags (r : attemptRun) : string * nat * Ticket * (bool * bool * bool * string) :=
  (ar_worker r, ar_target r, ar_ticket r, (ar_started r, ar_ended r, ar_ticketDone r, ar_verdict r)).

(** A retryable attempt has one of the classes. *)
Definition classed (p : retryPolicy) (l : list attemptRun) : Prop := Forall (λ r, ar_retryable r = true → retry_class p (ar_class r)) l.

Record still (p : retryPolicy) (s s' : AState) : Prop := {
  st_info : in_attempts (a_info s') = in_attempts (a_info s); st_cur : a_cur s' = a_cur s; st_trace : a_trace s' = a_trace s;
  st_runs : flags <$> a_runs s' = flags <$> a_runs s; st_classed : classed p (a_runs s) → classed p (a_runs s');
  st_gone : a_gone s = true → a_gone s' = true; st_steps : rtc cstep (core (a_r s)) (core (a_r s')); st_fine : fine s'
}.

Lemma still_refl p s : fine s → still p s s.
Proof. by split. Qed.

Lemma still_trans p s1 s2 s3 : still p s1 s2 → still p s2 s3 → still p s1 s3.
Proof. intros [???????] [???????]. split; try congruence; auto. by etrans. Qed.

Lemma erase_fmap {A} (f : attemptRun → A) (l l' : list attemptRun) : (∀ r, f (erase r) = f r) → erase <$> l' = erase <$> l → f <$> l' = f <$> l.
Proof.
  intros Hf Hl. apply (f_equal (fmap f)) in Hl. rewrite <-!list_fmap_compose in Hl.
  rewrite (list_fmap_ext (f ∘ erase) f l'), (list_fmap_ext (f ∘ erase) f l) in Hl; [done|intros; apply Hf..].
Qed.

Lemma classed_fmap p (l l' : list attemptRun) : (λ r, (ar_retryable r, ar_class r)) <$> l' = (λ r, (ar_retryable r, ar_class r)) <$> l → classed p l → classed p l'.
Proof.
  unfold classed. intros Hl Hc. set (f := λ r, (ar_retryable r, ar_class r)) in Hl.
  assert (Forall (λ rc : bool * string, rc.1 = true → retry_class p rc.2) (f <$> l)) as Hf by (by apply Forall_fmap).
  rewrite <-Hl in Hf. by apply Forall_fmap in Hf.
Qed.

Lemma wobble_still p s s' : wobble s s' → still p s s'.
Proof.
  intros [Hi Hc Ht Hr Hg Hs Hf]. split; try done; [by rewrite Hi|by apply erase_fmap|]. intros Hcl. eapply classed_fmap; [|done]. by apply erase_fmap.
Qed.

(** A write through the pointer of an attempt. *)
Lemma flags_alter f i (l : list attemptRun) : (∀ r, flags (f r) = flags r) → flags <$> alter f i l = flags <$> l.
Proof.
  intros Hf. apply list_eq. intros j. rewrite !list_lookup_fmap. destruct (decide (i = j)) as [->|Hne].
  - rewrite list_lookup_alter_eq. destruct (l !! j); cbn; [by rewrite Hf|done].
  - by rewrite list_lookup_alter_ne.
Qed.

Lemma classed_alter p f i l :
  (∀ r, (ar_retryable r = true → retry_class p (ar_class r)) → ar_retryable (f r) = true → retry_class p (ar_class (f r))) → classed p l → classed p (alter f i l).
Proof.
  intros Hf Hl. apply Forall_lookup_2. intros j r. destruct (decide (i = j)) as [->|Hne].
  - rewrite list_lookup_alter_eq. intros (r0 & Hr & ->)%fmap_Some. apply Hf. by apply (Forall_lookup_1 _ _ _ _ Hl Hr).
  - rewrite list_lookup_alter_ne by done. apply (Forall_lookup_1 _ _ _ _ Hl).
Qed.

Definition classes (l : list attemptRun) : list (bool * string) := (λ r, (ar_retryable r, ar_class r)) <$> l.

(** With [c], the classes stay as they are. *)
Definition stillc (c : bool) (p : retryPolicy) (s s' : AState) : Prop := still p s s' ∧ (c = true → classes (a_runs s') = classes (a_runs s)).

Lemma stillc_refl c p s : fine s → stillc c p s s.
Proof. intros Hs. split; [by apply still_refl|done]. Qed.

Lemma stillc_trans c p s1 s2 s3 : stillc c p s1 s2 → stillc c p s2 s3 → stillc c p s1 s3.
Proof. intros [? H1] [? H2]. split; [by eapply still_trans|]. intros Hc. by rewrite H2, H1. Qed.

Lemma wobble_stillc c p s s' : wobble s s' → stillc c p s s'.
Proof. intros Hw. split; [by apply wobble_still|]. intros _. apply erase_fmap; [done|apply Hw]. Qed.

Section Quiet.
Context `{GoPlatform} `{GoMapOrder} `{GoMath} `{UrlParser} (sv : Server) (x : AEnv) (Hx : aenv_ok x) (c : bool).

(** The operation is still and does not hang, and [P] holds of what it returns. *)
Definition Still {A} (m : Pm A) (P : A → Prop) : Prop := ∀ s, fine s → wp x m (λ r s', stillc c (sv_retry sv) s s' ∧ match r with Ok a => P a | Panic _ => True | Hang => False end) s.

Lemma Still_bind {A B} (m : Pm A) (f : A → Pm B) P R : Still m P → (∀ a, P a → Still (f a) R) → Still (pbind m f) R.
Proof.
  intros Hm Hf s Hs. apply wp_bind. eapply wp_mono; [by apply Hm|]. intros [a|b|] s' [Hs' Ha]; [|done|done].
  eapply wp_mono; [apply Hf; [done|apply Hs']|]. intros r s'' [Hs'' Hr]. split; [by eapply stillc_trans|done].
Qed.

Lemma Still_ret {A} (a : A) (P : A → Prop) : P a → Still (pret a) P.
Proof. intros Ha s Hs. split; [by apply stillc_refl|done]. Qed.

Lemma Still_panic {A} b (P : A → Prop) : Still (panic b) P.
Proof. intros s Hs. split; [by apply stillc_refl|done]. Qed.

Lemma Still_any {A} (m : Pm A) P : Still m P → Still m (λ _, True).
Proof. intros Hm s Hs. eapply wp_mono; [by apply Hm|]. intros [] s' []; done. Qed.

Lemma Still_step : Still (step sv) (λ _, True).
Proof. intros s Hs. apply wp_step; [done..|]. intros n s' Hw. split; [by apply wobble_stillc|done]. Qed.

Lemma Still_lift {A} (m : M A) : moves (px_env x) m → Still (lift sv m) (λ _, True).
Proof. intros Hm s Hs. apply wp_lift; [done..|]. intros a s' Hw. split; [by apply wobble_stillc|done]. Qed.

Lemma Still_call {A} (f : Time → Res → Res * A) : Still (lift sv (call_res f)) (λ _, True).
Proof. apply Still_lift. eapply moves_quiet. eapply quiet_any, quiet_res with (Q := λ _, True); [apply Hx|done]. Qed.

Lemma Still_asks {A} (f : AEnv → nat → A) : Still (asks sv f) (λ _, True).
Proof. eapply Still_bind; [apply Still_step|]. intros n _ s Hs. split; [by apply stillc_refl|done]. Qed.

Lemma Still_gets {A} (f : AState → A) : Still (pgets f) (λ _, True).
Proof. intros s Hs. split; [by apply stillc_refl|done]. Qed.

Lemma Still_run i : Still (run_at i) (λ _, True).
Proof. intros s Hs. unfold wp, run_at. cbn. destruct (a_runs s !! i); (split; [by apply stillc_refl|done]). Qed.

Lemma Still_set i f :
  (∀ r, flags (f r) = flags r) →
  (∀ r, (ar_retryable r = true → retry_class (sv_retry sv) (ar_class r)) → ar_retryable (f r) = true → retry_class (sv_retry sv) (ar_class (f r))) →
  (c = true → ∀ r, ar_retryable (f r) = ar_retryable r ∧ ar_class (f r) = ar_class r) →
  Still (set_run i f) (λ _, True).
Proof.
  intros Hf Hc Hk s Hs. split; [|done]. cbn. split; [split; cbn; try done; [by apply flags_alter|by apply classed_alter|]; destruct Hs; by split|].
  intros ->. unfold classes. cbn. apply list_eq. intros j. rewrite !list_lookup_fmap. destruct (decide (i = j)) as [->|Hne]; [|by rewrite list_lookup_alter_ne].
  rewrite list_lookup_alter_eq. destruct (a_runs s !! j) as [r|]; [|done]. cbn. by destruct (Hk eq_refl r) as [-> ->].
Qed.

Lemma Still_info f : (∀ n, in_attempts (f n) = in_attempts n) → Still (set_info f) (λ _, True).
Proof. intros Hf s Hs. split; [|done]. cbn. split; [|done]. split; cbn; try done. destruct Hs. by split. Qed.

(** A step of a chain of still operations. *)
Ltac still1 :=
  first [apply Still_ret; exact I|apply Still_panic|apply Still_step|apply Still_asks|apply Still_gets|apply Still_run|apply Still_call
        |apply Still_set; [done|by auto|by intros _]|apply Still_info; done|eapply Still_bind; [|intros ? _]|progress case_match].

Lemma Still_gone : Still (gone sv) (λ _, True).
Proof. unfold gone. repeat still1. Qed.

Lemma Still_foreign : Still (foreign sv) (λ _, True).
Proof. unfold foreign. repeat still1. Qed.

Lemma Still_closing : Still (closing sv) (λ _, True).
Proof. unfold closing. repeat still1. Qed.

Lemma Still_now : Still (now sv) (λ _, True).
Proof. apply Still_lift. eapply moves_quiet. apply quiet_call with (Q := λ _, True); [apply Hx|done]. Qed.

Lemma Still_flush : Still (flush_changes sv) (λ _, True).
Proof.
  unfold flush_changes. case_match; [|repeat still1]. eapply Still_bind; [|intros ? _; repeat still1]. apply Still_lift. eapply moves_quiet. apply quiet_flush, Hx.
Qed.

Lemma Still_guard {A} i (f : phaseGuard → phaseGuard * A) : Still (guard_do sv i f) (λ _, True).
Proof.
  unfold guard_do. eapply Still_bind; [apply Still_step|intros _ _]. eapply Still_bind; [apply Still_run|intros run _].
  destruct (ar_guard run) as [g|]; [|repeat still1]. destruct (f g) as [g' a]. repeat still1.
Qed.
End Quiet.

Ltac still1 :=
  first [apply Still_ret; exact I|apply Still_panic|apply Still_step|apply Still_asks|apply Still_gets|apply Still_run|apply Still_call
        |apply Still_gone|apply Still_foreign|apply Still_closing|apply Still_now|apply Still_flush|apply Still_guard
        |apply Still_set; [done|by auto|first [by intros _|done]]|apply Still_info; done|eapply Still_bind; [|intros ? _]|progress case_match]; try assumption.

(** ** Sending and judging. *)

Definition verdict_label (v : Verdict) : string :=
  match v with OK => VerdictOK | Fault | RatioFault => VerdictFault | Neutral => VerdictNeutral end.

Lemma status_verdict_label code : (status_verdict code).2 = verdict_label (status_verdict code).1.
Proof. unfold status_verdict. by repeat case_match. Qed.

Lemma transport_class p e : (transportError e).2 = true → retry_class p (transportError e).1.
Proof. unfold transportError, retry_class. repeat case_match; cbn; try done; auto. Qed.

Lemma chunk_class p e : (firstChunkError e).2 = true → retry_class p (firstChunkError e).1.
Proof. unfold firstChunkError, retry_class. repeat case_match; cbn; try done; auto. Qed.

Lemma status_class p code c : policy_status p code = Some c → retry_class p c.
Proof. unfold policy_status, retry_class. case_bool_decide; [|done]. intros [= <-]. eauto 6. Qed.

Section Send.
Context `{GoPlatform} `{GoMapOrder} `{GoMath} `{UrlParser} (sv : Server) (x : AEnv) (Hx : aenv_ok x).

Lemma Still_class i c : (c.2 = true → retry_class (sv_retry sv) c.1) → Still sv x false (set_class i c) (λ _, True).
Proof. intros Hc. by apply Still_set. Qed.

Lemma Still_err i e : Still sv x false (set_err i e) (λ _, True).
Proof. by apply Still_set. Qed.

Lemma Still_arrived i : Still sv x false (arrived sv i) (λ _, True).
Proof. unfold arrived. repeat still1. Qed.

Lemma Still_header_checked i a : Still sv x false (header_checked sv i a) (λ _, True).
Proof. unfold header_checked. repeat still1. Qed.

Lemma Still_first_byte i resp : Still sv x false (first_byte sv i resp) (λ _, True).
Proof.
  unfold first_byte. repeat first [apply Still_arrived; done|apply Still_err|apply Still_class, chunk_class|still1].
Qed.

Lemma Still_wire i : Still sv x false (send_wire sv i) (λ _, True).
Proof.
  unfold send_wire. do 3 (eapply Still_bind; [first [apply Still_header_checked; done|still1]|intros ? _]). destruct a1 as [e|resp].
  - repeat first [apply Still_err|apply Still_class, transport_class|still1].
  - case_match; [repeat first [apply Still_err|still1]|]. eapply Still_bind; [still1|intros ? _]. destruct (policy_status _ _) as [c|] eqn:Hc.
    + eapply Still_bind; [apply Still_class; intros _; by eapply status_class|intros ? _]. by apply Still_arrived.
    + case_match; [by apply Still_arrived|apply Still_first_byte].
Qed.

Lemma Still_endPhase i : Still sv x false (endPhase sv i) (λ _, True).
Proof. unfold endPhase, markDeadline. repeat still1. Qed.

Lemma Still_verdict rs i b : Still sv x true (verdictOf sv rs i b) (λ v, v.2 = verdict_label v.1).
Proof.
  unfold verdictOf. do 2 (eapply Still_bind; [still1|intros ? _]). case_match; [by apply Still_ret|].
  destruct (ar_err _); [by apply Still_ret|]. destruct (ar_resp _) as [resp|]; [|by apply Still_ret].
  case_match; [|apply Still_ret, status_verdict_label]. eapply Still_bind with (P := λ _, True); [unfold peekIsNeutral|intros [] _; by apply Still_ret].
  repeat first [apply Still_set; [intros r; unfold flags; by repeat case_match|intros r; by repeat case_match|intros _ r; by repeat case_match]|still1].
Qed.
End Send.

(** ** The accounts. *)

(** The phase an attempt is in by its own flags. *)
Definition phase_of (r : attemptRun) : phase :=
  if ar_ended r then Closed
  else if ar_ticketDone r then Settled (bool_decide (ar_verdict r = VerdictOK))
  else Started.

Definition freed (ph : phase) : bool := match ph with Freed | Closed => true | _ => false end.

(** The phase the trace should show: an operation at work on an attempt, [Some (j, ph)], is between two. *)
Definition expected (o : option (nat * phase)) (i : nat) (r : attemptRun) : phase :=
  match o with Some (j, ph) => if decide (i = j) then ph else phase_of r | None => phase_of r end.

Record Inv (res : bool) (o : option (nat * phase)) (s : AState) : Prop := {
  iv_fine : fine s;
  iv_life i r : a_runs s !! i = Some r → life res i (a_trace s) = expected o i r;
  iv_fresh i : (length (a_runs s) ≤ i)%nat → life res i (a_trace s) = Fresh;
  iv_handle i r : a_runs s !! i = Some r → ∃ rt, r_routeds (a_r s) !! ar_target r = Some rt ∧ (freed (life res i (a_trace s)) = true → rt_released rt = true);
  iv_started i r : a_runs s !! i = Some r → ar_started r = true;
  iv_judged i r : a_runs s !! i = Some r → option_map fst o ≠ Some i → ar_verdict r = VerdictOK → ar_ticketDone r = true
}.

Lemma life_app res i tr e : life res i (tr ++ [e]) = life_step res i (life res i tr) e.
Proof. unfold life. by rewrite foldl_app. Qed.

(** A handle stays, and once released stays released. *)
Lemma cstep_handle c c' h rt : bounded c → cstep c c' → c.1.2 !! h = Some rt → ∃ rt', c'.1.2 !! h = Some rt' ∧ (rt_released rt = true → rt_released rt' = true).
Proof.
  intros Hb Hs Hh. assert (h ≠ c.2) as Hne by (intros ->; by rewrite Hb in Hh).
  destruct Hs as [rt1|k rt1 rt2 Hk Hrel|k rt1 n Hk Hrel|k rt1 cost Hk]; cbn.
  - exists rt. by rewrite lookup_insert_ne.
  - rewrite lookup_insert_ne by done. destruct (decide (k = h)) as [->|]; [|rewrite lookup_insert_ne by done; eauto]. rewrite lookup_insert_eq. eauto.
  - destruct (decide (k = h)) as [->|]; [|rewrite lookup_insert_ne by done; eauto]. rewrite lookup_insert_eq. eauto.
  - destruct (decide (k = h)) as [->|]; [|rewrite lookup_insert_ne by done; eauto]. rewrite lookup_insert_eq. simplify_eq. eauto.
Qed.

Lemma csteps_handle c c' h rt : bounded c → rtc cstep c c' → c.1.2 !! h = Some rt → ∃ rt', c'.1.2 !! h = Some rt' ∧ (rt_released rt = true → rt_released rt' = true).
Proof.
  intros Hb Hr. revert rt. induction Hr as [|c c1 c2 Hs _ IH]; intros rt Hh; [eauto|]. destruct (cstep_handle _ _ _ _ Hb Hs Hh) as (rt1 & Hh1 & Hm1).
  destruct (IH (proj1 (bounded_step _ _ Hb Hs)) _ Hh1) as (rt2 & Hh2 & Hm2). eauto.
Qed.

Lemma flags_lookup (l l' : list attemptRun) (i : nat) (r' : attemptRun) : flags <$> l' = flags <$> l → l' !! i = Some r' → ∃ r, l !! i = Some r ∧ flags r' = flags r.
Proof.
  intros Hl Hi. apply (f_equal (lookup i)) in Hl. rewrite !list_lookup_fmap, Hi in Hl. destruct (l !! i) as [r|]; [|done]. exists r. split; [done|]. cbn in Hl. congruence.
Qed.

Lemma Inv_frame res o s s' :
  a_trace s' = a_trace s → flags <$> a_runs s' = flags <$> a_runs s → rtc cstep (core (a_r s)) (core (a_r s')) → fine s' → Inv res o s → Inv res o s'.
Proof.
  intros Ht Hf Hs Hfi [Hfn Hl Hfr Hh Hst Hv]. assert (length (a_runs s') = length (a_runs s)) as Hlen by (apply (f_equal length) in Hf; by rewrite !length_fmap in Hf).
  split; [done|..]; rewrite ?Ht.
  - intros i r' (r & Hr & [= ? ? ? ? He Hd Hve])%(flags_lookup _ _ _ _ Hf). rewrite (Hl i r Hr). unfold expected, phase_of. by rewrite He, Hd, Hve.
  - intros i. rewrite Hlen. apply Hfr.
  - intros i r' (r & Hr & [= ? Ht' ? ? ? ? ?])%(flags_lookup _ _ _ _ Hf). destruct (Hh i r Hr) as (rt & Hrt & Hrel). rewrite Ht'.
    destruct (csteps_handle _ _ _ _ (fn_bounded _ Hfn) Hs Hrt) as (rt' & ? & ?). eauto.
  - intros i r' (r & Hr & [= ? ? ? -> ? ? ?])%(flags_lookup _ _ _ _ Hf). eauto.
  - intros i r' (r & Hr & [= ? ? ? ? ? -> ->])%(flags_lookup _ _ _ _ Hf). eauto.
Qed.

Lemma Inv_still p res o s s' : still p s s' → Inv res o s → Inv res o s'.
Proof. intros []. by apply Inv_frame. Qed.

(** The operation goes to work on attempt [i]: its flags may change. *)
Lemma Inv_open res s i r f :
  Inv res None s → a_runs s !! i = Some r → ar_target (f r) = ar_target r → ar_started (f r) = ar_started r →
  Inv res (Some (i, phase_of r)) (s <| a_runs := alter f i (a_runs s) |>).
Proof.
  intros [[] Hl Hfr Hh Hst Hv] Hi Hft Hfs. split; cbn.
  - by split.
  - intros j r'. destruct (decide (j = i)) as [->|Hne]; [intros _; by apply Hl|]. rewrite list_lookup_alter_ne by done. intros Hj. by apply Hl.
  - intros j. rewrite length_alter. apply Hfr.
  - intros j r'. destruct (decide (j = i)) as [->|Hne]; [|rewrite list_lookup_alter_ne by done; apply Hh].
    rewrite list_lookup_alter_eq, Hi. intros [= <-]. rewrite Hft. by apply Hh.
  - intros j r'. destruct (decide (j = i)) as [->|Hne]; [|rewrite list_lookup_alter_ne by done; apply Hst].
    rewrite list_lookup_alter_eq, Hi. intros [= <-]. rewrite Hfs. by eapply Hst.
  - intros j r' Hj Ho. rewrite list_lookup_alter_ne in Hj by congruence. by apply (Hv j).
Qed.

Lemma Inv_set res s i ph f :
  Inv res (Some (i, ph)) s → (∀ r, ar_target (f r) = ar_target r ∧ ar_started (f r) = ar_started r) →
  Inv res (Some (i, ph)) (s <| a_runs := alter f i (a_runs s) |>).
Proof.
  intros [[] Hl Hfr Hh Hst Hv] Hf. assert (∀ j r', alter f i (a_runs s) !! j = Some r' → ∃ r, a_runs s !! j = Some r ∧ (j ≠ i → r' = r) ∧ ar_target r' = ar_target r ∧ ar_started r' = ar_started r) as Ha.
  { intros j r'. destruct (decide (j = i)) as [->|Hne]; [|rewrite list_lookup_alter_ne by done; eauto]. rewrite list_lookup_alter_eq.
    intros (r & Hr & ->)%fmap_Some. exists r. by destruct (Hf r). }
  split; cbn; [by split|..].
  - intros j r' (r & Hr & He & _)%Ha. rewrite (Hl j r Hr). unfold expected. case_decide; [done|]. by rewrite He.
  - intros j. rewrite length_alter. apply Hfr.
  - intros j r' (r & Hr & _ & -> & _)%Ha. by apply Hh.
  - intros j r' (r & Hr & _ & _ & ->)%Ha. by eapply Hst.
  - intros j r' Hj Ho. rewrite list_lookup_alter_ne in Hj by congruence. by apply (Hv j).
Qed.

(** An event of the attempt at work. *)
Lemma Inv_emit res s i ph e :
  Inv res (Some (i, ph)) s → about e = Some i → (i < length (a_runs s))%nat →
  (freed (life_event res ph e) = true → freed ph = true ∨ ∃ r rt, a_runs s !! i = Some r ∧ r_routeds (a_r s) !! ar_target r = Some rt ∧ rt_released rt = true) →
  Inv res (Some (i, life_event res ph e)) (s <| a_trace := a_trace s ++ [e] |>).
Proof.
  intros [[] Hl Hfr Hh Hst Hv] He Hi Hrel.
  assert (∀ j, j ≠ i → life res j (a_trace s ++ [e]) = life res j (a_trace s)) as Hoth.
  { intros j Hne. rewrite life_app. unfold life_step. rewrite bool_decide_eq_false_2; [done|]. rewrite He. congruence. }
  assert (life res i (a_trace s ++ [e]) = life_event res ph e) as Hown.
  { destruct (lookup_lt_is_Some_2 _ _ Hi) as [r Hr]. rewrite life_app, (Hl i r Hr). unfold life_step, expected.
    rewrite bool_decide_eq_true_2, decide_True by done. done. }
  split; cbn; [by split|..].
  - intros j r Hj. unfold expected. case_decide as Hji; [by subst|]. rewrite Hoth, (Hl j r Hj) by done. unfold expected. by rewrite decide_False.
  - intros j Hj. rewrite Hoth by lia. by apply Hfr.
  - intros j r Hj. destruct (decide (j = i)) as [->|Hne]; [|rewrite Hoth by done; by apply Hh]. rewrite Hown.
    destruct (Hh i r Hj) as (rt & Hrt & Hr). exists rt. split; [done|]. intros [Hf|(r1 & rt1 & ? & ? & ?)]%Hrel; [|by simplify_eq].
    apply Hr. rewrite (Hl i r Hj). unfold expected. by rewrite decide_True.
  - done.
  - done.
Qed.

(** The operation is done with the attempt: its flags tell its phase. *)
Lemma Inv_shut res s i r ph :
  Inv res (Some (i, ph)) s → a_runs s !! i = Some r → phase_of r = ph → (ar_verdict r = VerdictOK → ar_ticketDone r = true) → Inv res None s.
Proof.
  intros [Hfn Hl Hfr Hh Hst Hv] Hi Hp Hj. split; try done.
  - intros j r' Hr'. rewrite (Hl j r' Hr'). unfold expected. case_decide; [|done]. by simplify_eq.
  - intros j r' Hr' _. destruct (decide (j = i)) as [->|Hne]; [by simplify_eq|]. apply (Hv j r' Hr'). cbn. congruence.
Qed.

(** ** Closing an attempt. *)

(** Events that say nothing of attempts begun, answers or the budget. *)
Record calm (p : retryPolicy) (t : list Ev) : Prop := {
  cm_starts : starts t = []; cm_answers : answers t = 0; cm_reserved : reserved t = 0; cm_refunded : refunded t = 0; cm_retries : retries_ok p t
}.

Lemma starts_app t t' : starts (t ++ t') = starts t ++ starts t'.
Proof. apply omap_app. Qed.

Lemma retries_app p t t' : retries_ok p t → retries_ok p t' → retries_ok p (t ++ t').
Proof. intros H1 H2 i e [?|?]%elem_of_app; eauto. Qed.

Lemma calm_nil p : calm p [].
Proof. split; try done. intros i e Hin. by apply elem_of_nil in Hin. Qed.

Lemma calm_app p t t' : calm p t → calm p t' → calm p (t ++ t').
Proof.
  intros [H1 H2 H3 H4 H5] [K1 K2 K3 K4 K5]. split; [by rewrite starts_app, H1, K1| | | |by apply retries_app];
    unfold answers, reserved, refunded in *; rewrite countb_app; lia.
Qed.

Definition quiet_event (p : retryPolicy) (e : Ev) : Prop :=
  match e with
  | EvStarted _ _ _ | EvFailed _ _ | EvHead _ _ | EvReserved | EvRefunded => False
  | EvEnded _ e => an_Outcome e = outcomeRetried → retry_class p (an_Class e)
  | _ => True
  end.

Lemma calm_one p e : quiet_event p e → calm p [e].
Proof.
  intros He. split; try by destruct e. intros i e' Hin%list_elem_of_singleton Ho. subst. by apply He.
Qed.

(** An attempt moves on: it stays on its worker, and once ended stays so. *)
Record grows (r r' : attemptRun) : Prop := { gr_worker : ar_worker r' = ar_worker r; gr_ended : ar_ended r = true → ar_ended r' = true }.

#[global] Instance grows_preorder : PreOrder grows.
Proof. split; [by split|]. intros r1 r2 r3 [? ?] [? ?]. split; [congruence|auto]. Qed.

(** What an operation on attempts keeps. *)
Record keeps (p : retryPolicy) (s s' : AState) : Prop := {
  kp_trace : ∃ t, a_trace s' = a_trace s ++ t ∧ calm p t;
  kp_runs : Forall2 grows (a_runs s) (a_runs s');
  kp_attempts : length (in_attempts (a_info s')) = length (in_attempts (a_info s));
  kp_cur : a_cur s' = a_cur s;
  kp_gone : a_gone s = true → a_gone s' = true;
  kp_steps : rtc cstep (core (a_r s)) (core (a_r s'))
}.

Lemma keeps_trans p s1 s2 s3 : keeps p s1 s2 → keeps p s2 s3 → keeps p s1 s3.
Proof.
  intros [(t & Ht & Hc) Hr ?? ? ?] [(t' & Ht' & Hc') Hr' ?? ? ?]. split; try congruence; auto; [| |by etrans].
  - exists (t ++ t'). split; [by rewrite Ht', Ht, (assoc app)|by apply calm_app].
  - by etrans.
Qed.

Lemma still_keeps p s s' : still p s s' → keeps p s s'.
Proof.
  intros [Hi Hc Ht Hr _ Hg Hs _]. split; try done; [exists []; split; [by rewrite app_nil_r|apply calm_nil]| |by rewrite Hi].
  apply Forall2_same_length_lookup_2; [apply (f_equal length) in Hr; by rewrite !length_fmap in Hr|].
  intros i r r' Hi1 Hi2. destruct (flags_lookup _ _ _ _ Hr Hi2) as (r0 & Hr0 & Hf). assert (r0 = r) as -> by congruence.
  injection Hf as Hf1 _ _ _ Hf2 _ _. split; congruence.
Qed.

Lemma keeps_set p s i f :
  (∀ r, grows r (f r)) → keeps p s (s <| a_runs := alter f i (a_runs s) |>).
Proof.
  intros Hf. split; try done; cbn; [exists []; split; [by rewrite app_nil_r|apply calm_nil]|]. apply Forall2_same_length_lookup_2; [by rewrite length_alter|].
  intros j r r' Hj. destruct (decide (i = j)) as [->|Hne]; [rewrite list_lookup_alter_eq, Hj; intros [= <-]; apply Hf|].
  rewrite list_lookup_alter_ne by done. intros. by simplify_eq.
Qed.

Lemma keeps_emit p s e : quiet_event p e → keeps p s (s <| a_trace := a_trace s ++ [e] |>).
Proof.
  intros He. split; try done. exists [e]. split; [done|by apply calm_one].
Qed.

Lemma keeps_info p s n : length (in_attempts n) = length (in_attempts (a_info s)) → keeps p s (s <| a_info := n |>).
Proof.
  intros Hn. split; try done. exists []. split; [cbn; by rewrite app_nil_r|apply calm_nil].
Qed.

Lemma keeps_length p s s' : keeps p s s' → length (a_runs s') = length (a_runs s).
Proof. intros [_ Hr _ _ _ _]. symmetry. by eapply Forall2_length. Qed.

Lemma Inv_info res o s n : Inv res o s → Inv res o (s <| a_info := n |>).
Proof. intros [[] ?????]. by split. Qed.

(** The only panic of a cleanup is that of a body or of the log handler. *)
Definition clean (x : AEnv) (r : Ret ()) : Prop := r = Ok () ∨ (∃ n, px_closePanic x n = true) ∧ r = Panic false.

Section Rules.
Context `{GoPlatform} `{GoMapOrder} `{GoMath} `{UrlParser} (sv : Server) (x : AEnv) (Hx : aenv_ok x).

Lemma wp_run i r (Q : Ret attemptRun → AState → Prop) s : a_runs s !! i = Some r → Q (Ok r) s → wp x (run_at i) Q s.
Proof. unfold wp, run_at. by intros ->. Qed.

Lemma wp_set i f (Q : Ret () → AState → Prop) s : Q (Ok ()) (s <| a_runs := alter f i (a_runs s) |>) → wp x (set_run i f) Q s.
Proof. done. Qed.

Lemma wp_info f (Q : Ret () → AState → Prop) s : Q (Ok ()) (s <| a_info := f (a_info s) |>) → wp x (set_info f) Q s.
Proof. done. Qed.

Lemma wp_emit e (Q : Ret () → AState → Prop) s : Q (Ok ()) (s <| a_trace := a_trace s ++ [e] |>) → wp x (emit e) Q s.
Proof. done. Qed.

Lemma wp_gets {A} (f : AState → A) (Q : Ret A → AState → Prop) s : Q (Ok (f s)) s → wp x (pgets f) Q s.
Proof. done. Qed.

Lemma wp_asks {A} (f : AEnv → nat → A) (Q : Ret A → AState → Prop) s : fine s → (∀ n s', wobble s s' → Q (Ok (f x n)) s') → wp x (asks sv f) Q s.
Proof. intros Hs HQ. apply wp_bind, wp_step; [done..|]. intros n s' Hw. by apply HQ. Qed.

Lemma wp_now (Q : Ret Time → AState → Prop) s : fine s → (∀ t s', wobble s s' → Q (Ok t) s') → wp x (now sv) Q s.
Proof. intros. apply wp_lift; [done| |done..]. eapply moves_quiet. apply quiet_call with (Q := λ _, True); [apply Hx|done]. Qed.

Lemma wp_call {A} (f : Time → Res → Res * A) (Q : Ret (option A) → AState → Prop) s :
  fine s → (∀ o s', wobble s s' → Q (Ok o) s') → wp x (lift sv (call_res f)) Q s.
Proof. intros. apply wp_lift; [done| |done..]. eapply moves_quiet. eapply quiet_any, quiet_res with (Q := λ _, True); [apply Hx|done]. Qed.

Lemma wp_flush (Q : Ret () → AState → Prop) s : fine s → (∀ s', wobble s s' → Q (Ok ()) s') → wp x (flush_changes sv) Q s.
Proof.
  intros Hs HQ. unfold flush_changes. case_match; [|by apply HQ, wobble_refl]. apply wp_bind, wp_lift; [done| |done|].
  - eapply moves_quiet. apply quiet_flush, Hx.
  - intros _ s' Hw. by apply HQ.
Qed.

Lemma wp_gone (Q : Ret bool → AState → Prop) s : fine s → (∀ s', wobble s s' → Q (Ok (a_gone s')) s') → wp x (gone sv) Q s.
Proof. intros Hs HQ. apply wp_bind, wp_step; [done..|]. intros n s' Hw. by apply HQ. Qed.

Lemma wp_closing (Q : Ret () → AState → Prop) s : fine s → (∀ r s', wobble s s' → clean x r → Q r s') → wp x (closing sv) Q s.
Proof.
  intros Hs HQ. apply wp_bind, wp_asks; [done|]. intros n s' Hw. destruct (px_closePanic x n) eqn:Hn; apply HQ; try done; [right; split; [by exists n|done]|by left].
Qed.

Lemma wobble_set s i f : fine s → (∀ r, erase (f r) = erase r) → wobble s (s <| a_runs := alter f i (a_runs s) |>).
Proof.
  intros [] Hf. split; cbn; try done. apply list_eq. intros j. rewrite !list_lookup_fmap. destruct (decide (i = j)) as [->|Hne].
  - rewrite list_lookup_alter_eq. destruct (a_runs s !! j); cbn; [by rewrite Hf|done].
  - by rewrite list_lookup_alter_ne.
Qed.

Lemma wp_guard {A} i r f (Q : Ret (option A) → AState → Prop) s :
  fine s → a_runs s !! i = Some r → (∀ o s', wobble s s' → Q (Ok o) s') → wp x (guard_do sv i f) Q s.
Proof.
  intros Hs Hi HQ. apply wp_bind, wp_step; [done..|]. intros n s' Hw. pose proof (wb_runs _ _ Hw) as Hr. apply (f_equal (lookup i)) in Hr.
  rewrite !list_lookup_fmap, Hi in Hr. destruct (a_runs s' !! i) as [r'|] eqn:Hi'; [|done]. apply wp_bind. eapply wp_run; [done|].
  destruct (ar_guard r') as [g|]; [|by apply HQ]. destruct (f g) as [g' a].
  apply wp_bind, wp_set, wp_ret, HQ. eapply wobble_trans; [exact Hw|]. by apply wobble_set; [apply Hw|].
Qed.
End Rules.

(** Neither does it touch the classes. *)
Definition kept (p : retryPolicy) (s s' : AState) : Prop := keeps p s s' ∧ (classed p (a_runs s) → classed p (a_runs s')).

Lemma kept_trans p s1 s2 s3 : kept p s1 s2 → kept p s2 s3 → kept p s1 s3.
Proof. intros [? ?] [? ?]. split; [by eapply keeps_trans|auto]. Qed.

Lemma still_kept p s s' : still p s s' → kept p s s'.
Proof. intros Hs. split; [by apply still_keeps|apply Hs]. Qed.

Lemma wobble_kept p s s' : wobble s s' → kept p s s'.
Proof. intros Hs. by apply still_kept, wobble_still. Qed.

Lemma kept_set p s i f : (∀ r, grows r (f r)) → (∀ r, ar_retryable (f r) = ar_retryable r ∧ ar_class (f r) = ar_class r) → kept p s (s <| a_runs := alter f i (a_runs s) |>).
Proof. intros Hf Hc. split; [by apply keeps_set|]. apply classed_alter. intros r. by destruct (Hc r) as [-> ->]. Qed.

Lemma kept_emit p s e : quiet_event p e → kept p s (s <| a_trace := a_trace s ++ [e] |>).
Proof. intros He. split; [by apply keeps_emit|done]. Qed.

Lemma kept_info p s n : length (in_attempts n) = length (in_attempts (a_info s)) → kept p s (s <| a_info := n |>).
Proof. intros Hf. split; [by apply keeps_info|done]. Qed.

Definition res_on (sv : Server) : bool := match sv_res sv with Some _ => true | None => false end.

(** The attempt whose closing is under way, with its class. *)
Record ending (c : string) (r : attemptRun) : Prop := {
  eg_ended : ar_ended r = true; eg_judged : ar_verdict r = VerdictOK → ar_ticketDone r = true; eg_class : ar_class r = c
}.

Definition closing_run (c : string) (i : nat) (s : AState) : Prop := ∃ r, a_runs s !! i = Some r ∧ ending c r.

Lemma erase_lookup (l l' : list attemptRun) (i : nat) r : erase <$> l' = erase <$> l → l !! i = Some r → ∃ r', l' !! i = Some r' ∧ erase r' = erase r.
Proof.
  intros Hl Hi. apply (f_equal (lookup i)) in Hl. rewrite !list_lookup_fmap, Hi in Hl. destruct (l' !! i) as [r'|]; [|done]. exists r'. split; [done|]. cbn in Hl. congruence.
Qed.

Lemma closing_wobble c i s s' : wobble s s' → closing_run c i s → closing_run c i s'.
Proof.
  intros Hw (r & Hi & [He Hj Hc]). destruct (erase_lookup _ _ _ _ (wb_runs _ _ Hw) Hi) as (r' & Hi' & Hr). exists r'. split; [done|].
  assert (ar_ended r' = ar_ended r ∧ ar_verdict r' = ar_verdict r ∧ ar_ticketDone r' = ar_ticketDone r ∧ ar_class r' = ar_class r) as (? & ? & Htd & ?)
    by (by injection Hr).
  split; [congruence| |congruence]. intros. rewrite Htd. apply Hj. congruence.
Qed.

Lemma closing_lt c i s : closing_run c i s → (i < length (a_runs s))%nat.
Proof. intros (r & Hr & _). by apply lookup_lt_Some in Hr. Qed.

(** What may give its slot back. *)
Definition releasable (res : bool) (ph : phase) : Prop := match ph with Settled _ => True | Started => res = false | _ => False end.

Lemma release_frees env c s h rt :
  env_ok env → at_core c s → bounded c → c.1.2 !! h = Some rt → ∃ rt', r_routeds (release h env s).1 !! h = Some rt' ∧ rt_released rt' = true.
Proof.
  intros He Hs Hb Hh. assert (r_routeds s !! h = Some rt) as Hh' by (by destruct Hs as [<- _]). unfold release. rewrite Hh'.
  destruct (rt_released rt) eqn:Hrel; [by eauto|]. assert (h < c.2)%nat by (destruct (decide (c.2 ≤ h)%nat) as [Hle|]; [by rewrite Hb in Hh|lia]).
  set (s1 := s <| r_routeds := _ |>). assert (at_core (marked c h rt) s1) as Hs1 by (split; [by destruct Hs as [<- _]|apply Hs]).
  assert ((marked c h rt).1.2 !! (marked c h rt).2 = None) as Hf by (cbn; rewrite lookup_insert_ne by lia; by apply Hb).
  exists (rt <| rt_released := true |>). split; [|done].
  destruct (releaseSlot_ok env He (marked c h rt) rt Hf s1 Hs1) as [(rt' & _ & _ & [Hc _])|(n & [Hc _] & _)]; injection Hc as _ Hc _; rewrite Hc; cbn.
  - rewrite lookup_insert_ne by lia. by rewrite lookup_insert_eq.
  - by rewrite lookup_insert_eq.
Qed.

Section Closing.
Context `{GoPlatform} `{GoMapOrder} `{GoMath} `{UrlParser} (sv : Server) (x : AEnv) (Hx : aenv_ok x).

Lemma wp_returnTicket c i r ph (Q : Ret () → AState → Prop) s :
  Inv (res_on sv) (Some (i, ph)) s → a_runs s !! i = Some r → ending c r → (if ar_ticketDone r then ∃ b, ph = Settled b else ph = Started) →
  (∀ s' ph', Inv (res_on sv) (Some (i, ph')) s' → kept (sv_retry sv) s s' → closing_run c i s' → releasable (res_on sv) ph' → Q (Ok ()) s') → wp x (returnTicket sv i) Q s.
Proof.
  intros Hinv Hi He Hph HQ. apply wp_bind. eapply wp_run; [done|]. assert (kept (sv_retry sv) s s) as Hss by (apply still_kept, still_refl, Hinv).
  destruct (sv_res sv) as [rs|] eqn:Hres.
  2: { eapply HQ; [done|done|by exists r|]. destruct (ar_ticketDone r); [by destruct Hph as [b ->]|subst; cbn; unfold res_on; by rewrite Hres]. }
  assert (res_on sv = true) as Hon by (unfold res_on; by rewrite Hres). destruct (ar_ticketDone r) eqn:Htd.
  { destruct Hph as [b ->]. eapply HQ; [done|done|by exists r|done]. }
  subst ph. apply wp_bind, wp_set, wp_bind. set (s1 := s <| a_runs := _ |>).
  assert (Inv (res_on sv) (Some (i, Started)) s1) as Hinv1 by (by apply Inv_set).
  assert (closing_run c i s1) as Hc1 by (eexists; split; [cbn; rewrite list_lookup_alter_eq, Hi; done|]; destruct He; by split).
  apply wp_call; [done|apply Hinv1|]. intros _ s2 Hw. pose proof (wobble_still (sv_retry sv) _ _ Hw) as Hst.
  apply (Inv_still _ _ _ _ _ Hst) in Hinv1. apply (closing_wobble _ _ _ _ Hw) in Hc1.
  apply wp_bind, wp_emit. eapply (Inv_emit _ _ _ _ (EvReturned i)) in Hinv1; [|done|by eapply closing_lt|by rewrite Hon]. rewrite Hon in Hinv1 at 2. cbn in Hinv1.
  apply wp_flush; [done|apply Hinv1|]. intros s3 Hw3. pose proof (wobble_still (sv_retry sv) _ _ Hw3) as Hst3.
  eapply HQ with (ph' := Settled false); [by eapply Inv_still| |by eapply closing_wobble|done].
  apply (kept_trans _ _ s1); [by apply kept_set|]. apply (kept_trans _ _ s2); [by apply still_kept|]. eapply kept_trans; [|by apply still_kept]. by apply kept_emit.
Qed.
Lemma wp_release_slot c i ph (Q : Ret () → AState → Prop) s :
  Inv (res_on sv) (Some (i, ph)) s → closing_run c i s → releasable (res_on sv) ph →
  (∀ s', Inv (res_on sv) (Some (i, Freed)) s' → kept (sv_retry sv) s s' → closing_run c i s' → Q (Ok ()) s') → wp x (release_slot sv i) Q s.
Proof.
  intros Hinv (r & Hi & He) Hrel HQ. apply wp_bind. eapply wp_run; [done|]. apply wp_bind, wp_lift_with; [done|apply Hinv|].
  intros s1 rs [] Hw E. pose proof (wobble_still (sv_retry sv) _ _ Hw) as Hst. apply (Inv_still _ _ _ _ _ Hst) in Hinv.
  destruct (wb_fine _ _ Hw) as [Hcache Hb]. destruct (moves_release _ (proj1 Hx) (ar_target r) (core (a_r s1)) Hb (a_r s1) (conj eq_refl Hcache)) as (c' & [<- Hcache'] & Hsteps).
  destruct (erase_lookup _ _ _ _ (wb_runs _ _ Hw) Hi) as (r1 & Hi1 & Her). assert (ar_target r1 = ar_target r) as Htr by (by injection Her).
  destruct (iv_handle _ _ _ Hinv i r1 Hi1) as (rt & Hrt & _). rewrite Htr in Hrt.
  destruct (release_frees (px_env x) (core (a_r s1)) (a_r s1) (ar_target r) rt (proj1 Hx) (conj eq_refl Hcache) Hb Hrt) as (rt' & Hrt' & Hfree).
  rewrite E in *. cbn [fst] in *. set (s2 := s1 <| a_r := rs |>). assert (wobble s1 s2) as Hw2 by (apply wobble_router; [apply wobble_refl, Hw|done..]).
  apply (Inv_still _ _ _ _ _ (wobble_still (sv_retry sv) _ _ Hw2)) in Hinv.
  apply wp_emit, HQ.
  - replace Freed with (life_event (res_on sv) ph (EvReleased i)) by (destruct ph; try done; cbn in *; by rewrite Hrel).
    apply Inv_emit; [done|done|by apply lookup_lt_Some in Hi1|]. intros _. right. exists r1, rt'. split_and!; [done|by rewrite Htr|done].
  - eapply kept_trans; [apply wobble_kept, Hw|]. eapply kept_trans; [apply wobble_kept, Hw2|]. by apply kept_emit.
  - apply (closing_wobble c i s s1 Hw). by exists r.
Qed.

Lemma wp_endAttempt c i outcome (Q : Ret () → AState → Prop) s :
  Inv (res_on sv) (Some (i, Freed)) s → closing_run c i s → (outcome = outcomeRetried → retry_class (sv_retry sv) c) →
  (∀ o s', clean x o → Inv (res_on sv) None s' → kept (sv_retry sv) s s' → closing_run c i s' → Q o s') → wp x (endAttempt sv i outcome) Q s.
Proof.
  intros Hinv (r & Hi & He) Ho HQ. apply wp_bind. eapply wp_run; [done|]. apply wp_bind, wp_info. set (s0 := s <| a_info := _ |>). apply wp_bind, wp_emit. set (e := EvEnded i _).
  set (s1 := s0 <| a_trace := _ |>). assert (Inv (res_on sv) None s1) as Hinv1.
  { apply (Inv_shut _ s1 i r Closed); [|exact Hi|unfold phase_of; by rewrite (eg_ended _ _ He)|apply He].
    apply (Inv_emit (res_on sv) s0 i Freed e); [by apply Inv_info|done|by apply lookup_lt_Some in Hi|by left]. }
  apply wp_closing; [done|apply Hinv1|]. intros o s2 Hw Hcl. pose proof (wobble_still (sv_retry sv) _ _ Hw) as Hst. apply HQ; [done|by eapply Inv_still| |].
  - eapply kept_trans; [|by apply still_kept]. apply (kept_trans _ _ s0); [|apply kept_emit; cbn; intros ->; rewrite (eg_class _ _ He); by apply Ho].
    apply kept_info. cbn. apply length_alter.
  - apply (closing_wobble c i s1 s2 Hw). by exists r.
Qed.
Lemma clean_seq o o' : clean x o → clean x o' → clean x (match o' with Ok _ => o | Panic b => Panic b | Hang => Hang end).
Proof. intros Ho [->|[Hn ->]]; [done|by right]. Qed.

(** One deferred step after another. *)
Lemma wp_deferred m d (P Q : AState → Prop) s :
  wp x m (λ o s', clean x o ∧ P s') s → (∀ s', P s' → wp x d (λ o s', clean x o ∧ Q s') s') → wp x (finally m d) (λ o s', clean x o ∧ Q s') s.
Proof.
  intros Hm Hd. apply wp_finally. eapply wp_mono; [exact Hm|]. intros o s1 [Ho Hp].
  assert (wp x d (λ o' s'', clean x (match o' with Ok _ => o | Panic b => Panic b | Hang => Hang end) ∧ Q s'') s1) as Hw.
  { eapply wp_mono; [by apply Hd|]. intros o' s2 [Ho' ?]. split; [by apply clean_seq|done]. }
  by destruct Ho as [->|[_ ->]].
Qed.

(** [abandonAttempt], whatever panics meanwhile: the ticket is back, the slot is back, the observers know. *)
Lemma wp_abandon i r outcome s :
  Inv (res_on sv) None s → a_runs s !! i = Some r → (outcome = outcomeRetried → retry_class (sv_retry sv) (ar_class r)) →
  wp x (abandonAttempt sv i outcome) (λ o s', clean x o ∧ Inv (res_on sv) None s' ∧ kept (sv_retry sv) s s' ∧ ∃ r', a_runs s' !! i = Some r' ∧ ar_ended r' = true) s.
Proof.
  intros Hinv Hi Ho. apply wp_bind. eapply wp_run; [done|]. destruct (ar_ended r) eqn:Hended.
  { split_and!; [by left|done|apply still_kept, still_refl, Hinv|by exists r]. }
  apply wp_bind, wp_set. set (s1 := s <| a_runs := _ |>). set (r1 := r <| ar_ended := true |>).
  assert (a_runs s1 !! i = Some r1) as Hi1 by (cbn; by rewrite list_lookup_alter_eq, Hi).
  assert (Inv (res_on sv) (Some (i, phase_of r)) s1) as Hinv1 by (by apply Inv_open).
  assert (kept (sv_retry sv) s s1) as Hk1 by (by apply kept_set).
  assert (ending (ar_class r) r1) as He1 by (split; [done| |done]; apply (iv_judged _ _ _ Hinv i r Hi); done).
  set (P ph s' := Inv (res_on sv) (Some (i, ph)) s' ∧ kept (sv_retry sv) s s' ∧ closing_run (ar_class r) i s').
  apply wp_mono with (Q := λ o s', clean x o ∧ Inv (res_on sv) None s' ∧ kept (sv_retry sv) s s' ∧ closing_run (ar_class r) i s').
  2: { intros o s' (? & ? & ? & r' & ? & []). eauto 8. }
  eapply wp_deferred with (P := P Freed); [eapply wp_deferred with (P := λ s', ∃ ph, P ph s' ∧ releasable (res_on sv) ph)|].
  - eapply wp_deferred with (P := wobble s1); [eapply wp_deferred with (P := wobble s1)|].
    + apply wp_bind. eapply wp_guard; [done|apply Hinv1|done|]. intros _ s2 Hw. apply wp_set. split; [by left|].
      eapply wobble_trans; [done|]. by apply wobble_set; [apply Hw|].
    + intros s2 Hw. apply wp_bind. destruct (erase_lookup _ _ _ _ (wb_runs _ _ Hw) Hi1) as (r2 & Hi2 & _). eapply wp_run; [done|].
      destruct (ar_resp r2); [|by split; [left|]]. apply wp_closing; [done|apply Hw|]. intros o s3 Hw3 Hcl. split; [done|by eapply wobble_trans].
    + intros s2 Hw. destruct (erase_lookup _ _ _ _ (wb_runs _ _ Hw) Hi1) as (r2 & Hi2 & Her). pose proof (wobble_still (sv_retry sv) _ _ Hw) as Hst.
      eapply wp_returnTicket with (c := ar_class r); [by eapply Inv_still|done| | |].
      * destruct (closing_wobble (ar_class r) i s1 s2 Hw) as (r3 & ? & ?); [by exists r1|]. by simplify_eq.
      * assert (ar_ticketDone r2 = ar_ticketDone r) as -> by (by injection Her). unfold phase_of. rewrite Hended. destruct (ar_ticketDone r); eauto.
      * intros s3 ph Hinv3 Hk3 Hc3 Hrel. split; [by left|]. exists ph. split; [|done]. split_and!; [done| |done].
        eapply kept_trans; [done|]. eapply kept_trans; [by apply still_kept|done].
  - intros s2 (ph & (Hinv2 & Hk2 & Hc2) & Hrel). eapply wp_release_slot; [done..|]. intros s3 ???. split; [by left|]. split_and!; [done|by eapply kept_trans|done].
  - intros s2 (Hinv2 & Hk2 & Hc2). destruct Hc2 as (r2 & Hi2 & He2). apply wp_bind. eapply wp_run; [done|]. rewrite (iv_started _ _ _ Hinv2 i r2 Hi2).
    eapply wp_endAttempt with (c := ar_class r); [done|by exists r2|done|]. intros o s3 ????. split_and!; [done|done|by eapply kept_trans|done].
Qed.
Lemma wp_recordAfterRelay i r s :
  Inv (res_on sv) None s → a_runs s !! i = Some r → ar_ended r = false →
  wp x (recordAfterRelay sv i) (λ o s', o = Ok () ∧ Inv (res_on sv) None s' ∧ kept (sv_retry sv) s s') s.
Proof.
  intros Hinv Hi Hend. apply wp_bind. eapply wp_run; [done|]. apply wp_bind, wp_gets.
  assert (kept (sv_retry sv) s s) as Hss by (apply still_kept, still_refl, Hinv). destruct (sv_res sv) as [rs|] eqn:Hres; [|done].
  assert (res_on sv = true) as Hon by (unfold res_on; by rewrite Hres). case_match eqn:Hcond; [done|].
  apply orb_false_iff in Hcond as [[[Hv _]%orb_false_iff _]%orb_false_iff _]. apply negb_false_iff, String.eqb_eq in Hv.
  pose proof (iv_judged _ _ _ Hinv i r Hi ltac:(done) Hv) as Htd. assert (phase_of r = Settled true) as Hph by (unfold phase_of; by rewrite Hend, Htd, bool_decide_eq_true_2).
  apply wp_bind, wp_set. set (s1 := s <| a_runs := _ |>). set (r1 := r <| ar_verdict := VerdictFault |>).
  assert (a_runs s1 !! i = Some r1) as Hi1 by (cbn; by rewrite list_lookup_alter_eq, Hi).
  assert (Inv (res_on sv) (Some (i, Settled true)) s1) as Hinv1 by (rewrite <-Hph; by apply Inv_open).
  apply wp_bind, wp_asks; [done|apply Hinv1|]. intros n s2 Hw2. apply wp_bind, wp_call; [done|apply Hw2|]. intros _ s3 Hw3. pose proof (wobble_trans _ _ _ Hw2 Hw3) as Hw.
  pose proof (wobble_still (sv_retry sv) _ _ Hw) as Hst. apply (Inv_still _ _ _ _ _ Hst) in Hinv1.
  destruct (erase_lookup _ _ _ _ (wb_runs _ _ Hw) Hi1) as (r3 & Hi3 & Her).
  apply wp_bind, wp_emit. eapply (Inv_emit _ _ _ _ (EvAborted i)) in Hinv1; [|done|by apply lookup_lt_Some in Hi3|done]. cbn [life_event] in Hinv1.
  apply wp_flush; [done|apply Hinv1|]. intros s4 Hw4. split; [done|]. split.
  - eapply Inv_still; [apply (wobble_still (sv_retry sv) _ _ Hw4)|]. eapply Inv_shut; [exact Hinv1|exact Hi3| |].
    + unfold phase_of. assert (ar_ended r3 = ar_ended r ∧ ar_ticketDone r3 = ar_ticketDone r ∧ ar_verdict r3 = VerdictFault) as (-> & -> & ->) by (by injection Her).
      by rewrite Hend, Htd.
    + by assert (ar_verdict r3 = VerdictFault) as -> by (by injection Her).
  - apply (kept_trans _ _ s1); [by apply kept_set|]. apply (kept_trans _ _ s3); [by apply still_kept|].
    eapply kept_trans; [|apply wobble_kept, Hw4]. by apply kept_emit.
Qed.

Lemma wp_close_one panicked i r s :
  Inv (res_on sv) None s → a_runs s !! i = Some r →
  wp x (close_one sv panicked i) (λ o s', clean x o ∧ Inv (res_on sv) None s' ∧ keeps (sv_retry sv) s s' ∧ ∃ r', a_runs s' !! i = Some r' ∧ ar_ended r' = true) s.
Proof.
  intros Hinv Hi. assert (keeps (sv_retry sv) s s) as Hss by (apply still_keeps, still_refl, Hinv).
  apply wp_bind. eapply wp_run; [done|]. apply wp_bind, wp_gets. destruct (ar_ended r) eqn:He; [by split; [left|eauto]|].
  assert (∀ s1 r1 outcome, Inv (res_on sv) None s1 → keeps (sv_retry sv) s s1 → a_runs s1 !! i = Some r1 → outcome ≠ outcomeRetried →
    wp x (abandonAttempt sv i outcome) (λ o s', clean x o ∧ Inv (res_on sv) None s' ∧ keeps (sv_retry sv) s s' ∧ ∃ r', a_runs s' !! i = Some r' ∧ ar_ended r' = true) s1) as Hab.
  { intros s1 r1 outcome Hinv1 Hk1 Hi1 Ho. eapply wp_mono; [by apply (wp_abandon i r1)|]. intros o s2 (? & ? & [? _] & ?). split_and!; [done|done|by eapply keeps_trans|done]. }
  destruct panicked.
  - apply wp_bind, wp_set. eapply Hab; [|by apply keeps_set|cbn; by rewrite list_lookup_alter_eq, Hi|done].
    eapply Inv_frame; [..|exact Hinv]; cbn; try done; [by apply flags_alter|]. destruct Hinv as [[] _ _ _ _ _]. by split.
  - case_match; [|by eapply Hab]. apply wp_bind. eapply wp_run; [done|]. apply wp_bind, wp_gets, wp_bind. eapply wp_mono; [by apply (wp_recordAfterRelay i r)|].
    intros o s1 (-> & Hinv1 & [Hk1 _]). destruct (Forall2_lookup_l _ _ _ _ _ (kp_runs _ _ _ Hk1) Hi) as (r1 & Hi1 & _). eapply Hab; [done..|]. by repeat case_match.
Qed.

Lemma wp_close_all panicked l s :
  Inv (res_on sv) None s → Forall (λ i, (i < length (a_runs s))%nat) l →
  wp x (close_all sv panicked l) (λ o s', clean x o ∧ Inv (res_on sv) None s' ∧ keeps (sv_retry sv) s s' ∧
    (o = Ok () → Forall (λ i, ∃ r, a_runs s' !! i = Some r ∧ ar_ended r = true) l)) s.
Proof.
  revert s. induction l as [|i l IH]; intros s Hinv Hl.
  { split_and!; [by left|done|apply still_keeps, still_refl, Hinv|done]. }
  inversion_clear Hl as [|?? Hi Hl']. destruct (lookup_lt_is_Some_2 _ _ Hi) as [r Hr]. apply wp_bind. eapply wp_mono; [by apply (wp_close_one panicked i r)|].
  intros o s1 (Hcl & Hinv1 & Hk1 & r1 & Hr1 & He1). destruct Hcl as [->|[Hn ->]]; [|by split_and!; [right|..]].
  eapply wp_mono; [apply IH; [done|by rewrite (keeps_length _ _ _ Hk1)]|]. intros o s2 (Hcl & Hinv2 & Hk2 & Hall). split_and!; [done|done|by eapply keeps_trans|].
  intros Ho. constructor; [|by apply Hall]. destruct (Forall2_lookup_l _ _ _ _ _ (kp_runs _ _ _ Hk2) Hr1) as (r2 & ? & [_ He]). eauto.
Qed.

Lemma wp_closeAttempts panicked s :
  Inv (res_on sv) None s →
  wp x (closeAttempts sv panicked) (λ o s', clean x o ∧ Inv (res_on sv) None s' ∧ keeps (sv_retry sv) s s' ∧ (o = Ok () → Forall (λ r, ar_ended r = true) (a_runs s'))) s.
Proof.
  intros Hinv. apply wp_bind, wp_gets. eapply wp_mono; [apply wp_close_all; [done|]|].
  - apply Forall_forall. intros i Hi%elem_of_seq. lia.
  - intros o s' (? & ? & Hk & Hall). split_and!; [done..|]. intros Ho. specialize (Hall Ho). apply Forall_lookup_2. intros i r Hi.
    rewrite Forall_forall in Hall. destruct (Hall i) as (r' & ? & ?); [|by simplify_eq].
    apply elem_of_seq. apply lookup_lt_Some in Hi. rewrite (keeps_length _ _ _ Hk) in Hi. lia.
Qed.
End Closing.

(** ** The loop. *)

Lemma Inv_at res s i r : Inv res None s → a_runs s !! i = Some r → Inv res (Some (i, phase_of r)) s.
Proof.
  intros [Hfn Hl Hfr Hh Hst Hv] Hi. split; try done.
  - intros j r' Hj. rewrite (Hl j r' Hj). cbn. case_decide; [|done]. by simplify_eq.
  - intros j r' Hj _. by apply (Hv j).
Qed.

(** An event about no attempt. *)
Lemma Inv_other res o s e : about e = None → Inv res o s → Inv res o (s <| a_trace := a_trace s ++ [e] |>).
Proof.
  intros He [[] Hl Hfr Hh Hst Hv]. assert (∀ i, life res i (a_trace s ++ [e]) = life res i (a_trace s)) as Hlife.
  { intros i. rewrite life_app. unfold life_step. by rewrite bool_decide_eq_false_2; rewrite ?He. }
  split; cbn; [by split|..]; intros i; rewrite ?Hlife; eauto.
Qed.

(** A new attempt. *)
Lemma Inv_begin res s s' r rt w pr :
  Inv res None s → a_r s' = a_r s → a_runs s' = a_runs s ++ [r] → a_trace s' = a_trace s ++ [EvStarted (length (a_runs s)) w pr] →
  r_routeds (a_r s) !! ar_target r = Some rt → ar_started r = true → ar_ended r = false → ar_ticketDone r = false → ar_verdict r ≠ VerdictOK → Inv res None s'.
Proof.
  intros [[] Hl Hfr Hh Hst Hv] Hr Hruns Htr Hrt Hs He Ht Hve. set (n := length (a_runs s)) in *.
  assert (life res n (a_trace s') = Started) as Hnew.
  { rewrite Htr, life_app. unfold life_step. rewrite bool_decide_eq_true_2 by done. by rewrite Hfr. }
  assert (∀ j, j ≠ n → life res j (a_trace s') = life res j (a_trace s)) as Hold.
  { intros j Hj. rewrite Htr, life_app. unfold life_step. rewrite bool_decide_eq_false_2; [done|]. cbn. congruence. }
  assert (∀ j r', a_runs s' !! j = Some r' → (j ≠ n ∧ a_runs s !! j = Some r') ∨ (j = n ∧ r' = r)) as Hcase.
  { intros j r'. rewrite Hruns. intros [Hj|[? [Hj <-]%list_lookup_singleton_Some]]%lookup_app_Some; [left; split; [apply lookup_lt_Some in Hj; lia|done]|].
    right. split; [lia|done]. }
  split; [rewrite <-Hr in *; by split|..].
  - intros j r' [[Hj Hr']|[-> ->]]%Hcase; [by rewrite Hold by done; apply Hl|]. rewrite Hnew. cbn. unfold phase_of. by rewrite He, Ht.
  - intros j. rewrite Hruns, length_app. cbn. intros Hj. rewrite Hold by lia. apply Hfr. lia.
  - intros j r' [[Hj Hr']|[-> ->]]%Hcase; rewrite Hr; [rewrite Hold by done; by apply Hh|]. exists rt. rewrite Hnew. done.
  - intros j r' [[Hj Hr']|[-> ->]]%Hcase; [by eapply Hst|done].
  - intros j r' [[Hj Hr']|[-> ->]]%Hcase; [by apply (Hv j)|done].
Qed.

(** What the trace sums up to, [k] reservations being in hand and [a] answers given. *)
Record Sums (sv : Server) (k a : Z) (s : AState) : Prop := {
  su_starts : starts (a_trace s) = ar_worker <$> a_runs s;
  su_nodup : NoDup (ar_worker <$> a_runs s);
  su_answers : answers (a_trace s) = a;
  su_budget : reserved (a_trace s) - refunded (a_trace s) = if res_on sv then Z.of_nat (length (a_runs s)) - 1 + k else 0;
  su_retries : retries_ok (sv_retry sv) (a_trace s);
  su_attempts : length (in_attempts (a_info s)) = length (a_runs s);
  su_bound : Z.of_nat (length (a_runs s)) ≤ Z.max 1 (rp_max (sv_retry sv))
}.

Lemma keeps_workers p s s' : keeps p s s' → ar_worker <$> a_runs s' = ar_worker <$> a_runs s.
Proof. intros [_ Hr _ _ _ _]. induction Hr as [|r r' l l' [Hw _] _ IH]; [done|]. csimpl. congruence. Qed.

Lemma Sums_keeps sv k a s s' : keeps (sv_retry sv) s s' → Sums sv k a s → Sums sv k a s'.
Proof.
  intros Hk [Hst Hnd Han Hbu Hre Hat Hbo]. pose proof (keeps_workers _ _ _ Hk) as Hw. pose proof (keeps_length _ _ _ Hk) as Hl.
  destruct (kp_trace _ _ _ Hk) as (t & Ht & [C1 C2 C3 C4 C5]). split; rewrite ?Hw, ?Hl, ?Ht; try done.
  - by rewrite starts_app, C1, app_nil_r.
  - unfold answers in *. rewrite countb_app. lia.
  - rewrite <-Hbu. unfold reserved, refunded in *. rewrite !countb_app. lia.
  - by apply retries_app.
  - rewrite (kp_attempts _ _ _ Hk). done.
Qed.

Record Loop (sv : Server) (k : Z) (s : AState) : Prop := { lp_inv : Inv (res_on sv) None s; lp_classed : classed (sv_retry sv) (a_runs s); lp_sums : Sums sv k 0 s }.

Lemma Loop_kept sv k s s' : kept (sv_retry sv) s s' → Inv (res_on sv) None s' → Loop sv k s → Loop sv k s'.
Proof. intros [Hk Hc] Hi [_ Hcl Hs]. split; [done|auto|by eapply Sums_keeps]. Qed.

Lemma Loop_still sv k s s' : still (sv_retry sv) s s' → Loop sv k s → Loop sv k s'.
Proof. intros Hs Hl. eapply Loop_kept; [by apply still_kept|eapply Inv_still; [done|apply Hl]|done]. Qed.

(** The current attempt, which has no verdict yet. *)
Definition at_work (i : nat) (w : string) (s : AState) : Prop :=
  ∃ r, a_runs s !! i = Some r ∧ ar_worker r = w ∧ ar_ended r = false ∧ ar_ticketDone r = false.

Lemma at_work_still p i w s s' : still p s s' → at_work i w s → at_work i w s'.
Proof.
  intros Hs (r & Hi & Hw & He & Ht). pose proof (st_runs _ _ _ Hs) as Hr. symmetry in Hr. destruct (flags_lookup _ _ _ _ Hr Hi) as (r' & Hi' & Hf).
  exists r'. injection Hf as ? _ _ _ ? ? _. split_and!; congruence.
Qed.

(** *** Operations on one attempt leave the others alone. *)

Definition only (i : nat) (s s' : AState) : Prop := ∀ j, j ≠ i → erase <$> a_runs s' !! j = erase <$> a_runs s !! j.

Section Only.
Context `{GoPlatform} `{GoMapOrder} `{GoMath} `{UrlParser} (sv : Server) (x : AEnv) (Hx : aenv_ok x) (i : nat).

Definition Only {A} (m : Pm A) : Prop := ∀ s, fine s → wp x m (λ _ s', fine s' ∧ only i s s') s.

Lemma Only_bind {A B} (m : Pm A) (f : A → Pm B) : Only m → (∀ a, Only (f a)) → Only (pbind m f).
Proof.
  intros Hm Hf s Hs. apply wp_bind. eapply wp_mono; [by apply Hm|]. intros [a|b|] s' [Hs' Ho]; [|done..].
  eapply wp_mono; [by apply Hf|]. intros o s'' [? Ho']. split; [done|]. intros j Hj. by rewrite Ho', Ho.
Qed.

Lemma Only_finally {A} (m : Pm A) d : Only m → Only d → Only (finally m d).
Proof.
  intros Hm Hd s Hs. apply wp_finally. eapply wp_mono; [by apply Hm|]. intros [a|b|] s' [Hs' Ho]; [..|done];
    (eapply wp_mono; [by apply Hd|]; intros o s'' [? Ho']; split; [done|]; intros j Hj; by rewrite Ho', Ho).
Qed.

Lemma Only_wobble {A} (m : Pm A) : (∀ s, fine s → wp x m (λ _ s', wobble s s') s) → Only m.
Proof.
  intros Hm s Hs. eapply wp_mono; [by apply Hm|]. intros o s' Hw. split; [apply Hw|]. intros j _. rewrite <-!list_lookup_fmap. by rewrite (wb_runs _ _ Hw).
Qed.

Lemma Only_id {A} (m : Pm A) : (∀ s, a_r (m x s).1 = a_r s ∧ a_runs (m x s).1 = a_runs s) → Only m.
Proof. intros Hm s []. destruct (Hm s) as [Hr Hl]. split; [split; by rewrite Hr|]. intros j _. by rewrite Hl. Qed.

Lemma Only_set f : Only (set_run i f).
Proof. intros s []. split; [by split|]. intros j Hj. cbn. by rewrite list_lookup_alter_ne. Qed.

Ltac only1 :=
  match goal with
  | |- Only (pbind _ _) => apply Only_bind; [|intros ?]
  | |- Only (finally _ _) => apply Only_finally
  | |- Only (set_run _ _) => apply Only_set
  | |- Only (guard_do _ _ _) => fail
  | |- Only (lift _ (release _)) => apply Only_wobble; intros; apply wp_lift; [done|apply moves_release, Hx|done|by auto]
  | |- Only (match _ with _ => _ end) => case_match
  | |- _ => first [apply Only_id; intros; split; done
                  |apply Only_wobble; intros; first [apply wp_step|apply wp_asks|apply wp_call|apply wp_flush|apply wp_closing]; by auto]
  end.

Lemma Only_guard {A} (f : phaseGuard → phaseGuard * A) : Only (guard_do sv i f).
Proof.
  unfold guard_do. only1; [only1|]. only1; [only1|]. destruct (ar_guard _) as [g|]; [|only1]. destruct (f g). repeat only1.
Qed.

Lemma Only_abandon outcome : Only (abandonAttempt sv i outcome).
Proof.
  unfold abandonAttempt, close_body, returnTicket, release_slot, endAttempt. repeat first [only1|apply Only_guard].
Qed.
End Only.

Section Looping.
Context `{GoPlatform} `{GoMapOrder} `{GoMath} `{UrlParser} (sv : Server) (x : AEnv) (Hx : aenv_ok x).

Lemma wp_Still {A} c (m : Pm A) P k i w s :
  Still sv x c m P → Loop sv k s → at_work i w s →
  wp x m (λ o s', o ≠ Hang ∧ Loop sv k s' ∧ at_work i w s' ∧ stillc c (sv_retry sv) s s' ∧ ∀ a, o = Ok a → P a) s.
Proof.
  intros Hm Hl Hw. eapply wp_mono; [apply Hm, Hl|]. intros o s' [[Hs Hc] Ho]. split_and!; [by destruct o|by eapply Loop_still|by eapply at_work_still|by split|].
  intros a ->. done.
Qed.

Lemma wp_send k i w s : Loop sv k s → at_work i w s → wp x (sendAttempt sv i) (λ o s', o ≠ Hang ∧ Loop sv k s' ∧ at_work i w s' ∧ ar_worker <$> a_runs s' = ar_worker <$> a_runs s) s.
Proof.
  intros Hl (r & Hi & Hw & He & Ht). apply wp_bind, wp_bind, wp_emit. set (s1 := s <| a_trace := _ |>).
  assert (Inv (res_on sv) None s1) as Hinv1.
  { apply (Inv_shut _ s1 i r Started); [|done|unfold phase_of; by rewrite He, Ht|apply (iv_judged _ _ _ (lp_inv _ _ _ Hl) i r Hi); done].
    pose proof (Inv_at _ _ _ _ (lp_inv _ _ _ Hl) Hi) as Hat. unfold phase_of in Hat. rewrite He, Ht in Hat.
    apply (Inv_emit _ s i Started (EvSent i)); [done|done|by apply lookup_lt_Some in Hi|done]. }
  assert (Loop sv k s1) as Hl1 by (eapply Loop_kept; [by apply kept_emit|done|done]).
  assert (at_work i w s1) as Hw1 by (by exists r).
  eapply wp_mono; [by eapply wp_Still; [apply Still_wire; done|..]|]. intros o s2 (? & Hl2 & Hw2 & [Hst2 _] & _).
  pose proof (keeps_workers _ _ _ (still_keeps _ _ _ Hst2)) as Hwk. destruct o as [a|b|]; [|done..].
  eapply wp_mono; [by eapply wp_Still; [apply (Still_endPhase sv x Hx i)|..]|]. intros o s3 (? & ? & ? & [Hst3 _] & _). split_and!; [done..|].
  by rewrite (keeps_workers _ _ _ (still_keeps _ _ _ Hst3)).
Qed.
Lemma wobble_classes s s' : wobble s s' → classes (a_runs s') = classes (a_runs s).
Proof. intros Hw. apply erase_fmap; [done|apply Hw]. Qed.

Lemma classes_alter f i l : (∀ r, ar_retryable (f r) = ar_retryable r ∧ ar_class (f r) = ar_class r) → classes (alter f i l) = classes l.
Proof.
  intros Hf. unfold classes. apply list_eq. intros j. rewrite !list_lookup_fmap. destruct (decide (i = j)) as [->|Hne]; [|by rewrite list_lookup_alter_ne].
  rewrite list_lookup_alter_eq. destruct (l !! j) as [r|]; [|done]. cbn. by destruct (Hf r) as [-> ->].
Qed.

(** What follows the decision leaves the classes alone. *)
Definition judged (k : Z) (s : AState) {A} (o : Ret A) (s' : AState) : Prop :=
  o ≠ Hang ∧ Loop sv k s' ∧ ar_worker <$> a_runs s' = ar_worker <$> a_runs s ∧ classes (a_runs s') = classes (a_runs s).

(** The verdict is written to the attempt and not yet given to the breaker. *)
Record judging (i : nat) (v : Verdict) (s s' : AState) : Prop := {
  jg_inv : Inv (res_on sv) (Some (i, Started)) s'; jg_kept : kept (sv_retry sv) s s'; jg_classes : classes (a_runs s') = classes (a_runs s);
  jg_run : ∃ r, a_runs s' !! i = Some r ∧ ar_ended r = false ∧ ar_ticketDone r = true ∧ ar_verdict r = verdict_label v
}.

Lemma judging_wobble i v s s' s'' : wobble s' s'' → judging i v s s' → judging i v s s''.
Proof.
  intros Hw [Hi Hk Hc (r & Hr & He & Ht & Hv)]. pose proof (wobble_still (sv_retry sv) _ _ Hw) as Hst. split.
  - by eapply Inv_still.
  - eapply kept_trans; [done|by apply still_kept].
  - by rewrite (wobble_classes _ _ Hw).
  - destruct (erase_lookup _ _ _ _ (wb_runs _ _ Hw) Hr) as (r' & Hr' & Her). exists r'. injection Her. intros. split_and!; congruence.
Qed.

Lemma judging_set i v s s' f :
  (∀ r, flags (f r) = flags r) → (∀ r, ar_retryable (f r) = ar_retryable r ∧ ar_class (f r) = ar_class r) → judging i v s s' → judging i v s (s' <| a_runs := alter f i (a_runs s') |>).
Proof.
  intros Hf Hcf [Hi Hk Hc (r & Hr & He & Ht & Hv)]. assert (∀ r, ar_worker (f r) = ar_worker r ∧ ar_target (f r) = ar_target r ∧ ar_started (f r) = ar_started r ∧
    ar_ended (f r) = ar_ended r ∧ ar_ticketDone (f r) = ar_ticketDone r ∧ ar_verdict (f r) = ar_verdict r) as Hff by (intros r0; by injection (Hf r0)). split.
  - apply Inv_set; [done|]. intros r0. destruct (Hff r0) as (? & ? & ? & ? & ? & ?). done.
  - eapply kept_trans; [done|]. apply kept_set; [|done]. intros r0. destruct (Hff r0) as (? & ? & ? & ? & ? & ?). split; congruence.
  - by rewrite <-Hc, <-(classes_alter f i (a_runs s')).
  - exists (f r). cbn. rewrite list_lookup_alter_eq, Hr. destruct (Hff r) as (? & ? & ? & ? & ? & ?). split_and!; [done|congruence..].
Qed.

Lemma judging_done k i v s s' :
  res_on sv = true → Loop sv k s → judging i v s s' → judged k s (Ok ()) (s' <| a_trace := a_trace s' ++ [EvRecorded i v] |>).
Proof.
  intros Hon Hl [Hi [Hk Hkc] Hc (r & Hr & He & Ht & Hv)]. set (s2 := s' <| a_trace := _ |>).
  assert (kept (sv_retry sv) s s2) as Hk2 by (eapply kept_trans; [by split|by apply kept_emit]).
  split_and!; [done| |by apply (keeps_workers _ _ _ (proj1 Hk2))|done]. eapply Loop_kept; [done| |done].
  apply (Inv_shut _ s2 i r (Settled (bool_decide (v = OK)))); [|done| |done].
  - replace (Settled (bool_decide (v = OK))) with (life_event (res_on sv) Started (EvRecorded i v)) by (cbn; by rewrite Hon).
    apply Inv_emit; [done|done|by apply lookup_lt_Some in Hr|by rewrite Hon].
  - unfold phase_of. rewrite He, Ht, Hv. by destruct v.
Qed.

Lemma judged_trans {A B} k s (o : Ret A) s1 (o' : Ret B) s2 : judged k s o s1 → judged k s1 o' s2 → judged k s o' s2.
Proof. intros (_ & _ & Hw & Hc) (? & ? & Hw' & Hc'). split_and!; [done|done|congruence..]. Qed.

Lemma judged_wobble {A} k s (o : Ret A) s' : wobble s s' → Loop sv k s → o ≠ Hang → judged k s o s'.
Proof.
  intros Hw Hl Ho. pose proof (wobble_still (sv_retry sv) _ _ Hw) as Hst. split_and!; [done|by eapply Loop_still|by apply (keeps_workers (sv_retry sv)), still_keeps|by apply wobble_classes].
Qed.

Lemma wp_settle k i w b s : Loop sv k s → at_work i w s → wp x (settleVerdict sv i b) (judged k s) s.
Proof.
  intros Hl Hw. unfold settleVerdict. destruct (sv_res sv) as [rs|] eqn:Hres; [|by split_and!]. assert (res_on sv = true) as Hon by (unfold res_on; by rewrite Hres).
  apply wp_bind. eapply wp_mono; [by eapply wp_Still; [apply (Still_verdict sv x Hx rs i b)|..]|].
  intros o s1 (Hh & Hl1 & (r & Hi & Hwr & He & Ht) & [Hst Hcl] & Hv).
  assert (judged k s o s1) as Hj1 by (split_and!; [done|done|by apply (keeps_workers (sv_retry sv)), still_keeps|by apply Hcl]).
  destruct o as [[v lab]|e|]; [|by destruct Hj1 as (_ & ? & ? & ?); split_and!|done]. specialize (Hv _ eq_refl). cbn in Hv. subst lab.
  apply wp_bind, wp_set. cbn [fst snd]. set (s2 := s1 <| a_runs := _ |>). set (r2 := r <| ar_verdict := verdict_label v |>).
  assert (a_runs s2 !! i = Some r2) as Hi2 by (cbn; by rewrite list_lookup_alter_eq, Hi).
  assert (Inv (res_on sv) (Some (i, Started)) s2) as Hinv2.
  { replace Started with (phase_of r) by (unfold phase_of; by rewrite He, Ht). apply Inv_open; [apply Hl1|done..]. }
  apply wp_bind. eapply wp_run; [done|]. change (ar_ticketDone r2) with (ar_ticketDone r). rewrite Ht. apply wp_bind, wp_bind, wp_set.
  match goal with |- wp _ _ _ ?t => set (s3 := t) end. assert (judging i v s1 s3) as Hj3.
  { split; [by apply Inv_set| | |].
    - apply (kept_trans _ _ s2); by apply kept_set.
    - unfold s3, s2. cbn. by rewrite !classes_alter.
    - eexists. split; [unfold s3; cbn -[s2]; rewrite list_lookup_alter_eq, Hi2; done|done]. }
  clearbody s3. apply wp_bind. apply wp_mono with (Q := λ o s', o = Ok () ∧ judging i v s1 s').
  { case_bool_decide; [|by split]. apply wp_bind, wp_now; [done|apply Hj3|]. intros t s4 Hw4. apply wp_set. split; [done|].
    apply judging_set; [done..|by eapply judging_wobble]. }
  intros o s4 [-> Hj4]. apply wp_bind, wp_asks; [done|apply Hj4|]. intros n s5 Hw5. apply (judging_wobble _ _ _ _ _ Hw5) in Hj4.
  apply wp_bind, wp_call; [done|apply Hj4|]. intros _ s6 Hw6. apply (judging_wobble _ _ _ _ _ Hw6) in Hj4.
  apply wp_emit. pose proof (judging_done k i v s1 s6 Hon Hl1 Hj4) as Hj6. apply wp_flush; [done|apply Hj6|]. intros s7 Hw7.
  eapply judged_trans; [exact Hj1|]. eapply judged_trans; [exact Hj6|]. by apply judged_wobble; [|apply Hj6|].
Qed.
Lemma Loop_budget k d e s :
  res_on sv = true → (e = EvReserved ∧ d = 1) ∨ (e = EvRefunded ∧ d = -1) → Loop sv k s → Loop sv (k + d) (s <| a_trace := a_trace s ++ [e] |>).
Proof.
  intros Hon He [Hi Hc [Hst Hnd Han Hbu Hre Hat Hbo]]. rewrite Hon in Hbu. split; [apply Inv_other; [by destruct He as [[-> _]|[-> _]]|done]|done|].
  split; cbn -[answers reserved refunded starts]; try done.
  - rewrite starts_app, Hst. by destruct He as [[-> _]|[-> _]]; cbn; rewrite app_nil_r.
  - unfold answers in *. rewrite countb_app. by destruct He as [[-> _]|[-> _]]; cbn; rewrite Han.
  - unfold reserved, refunded in *. rewrite Hon, !countb_app. destruct He as [[-> ->]|[-> ->]]; cbn; lia.
  - apply retries_app; [done|]. intros j e' Hin%list_elem_of_singleton. subst. by destruct He as [[? _]|[? _]].
Qed.

Lemma wp_permit rs k i w model s :
  sv_res sv = Some rs → Loop sv k s → at_work i w s →
  wp x (permitRetry sv rs i model) (λ o s', judged (match o with Ok (_, true) => k + 1 | _ => k end) s o s' ∧ at_work i w s' ∧
    match o with Ok (r, b) => bool_decide (r ≠ None) = b | _ => True end) s.
Proof.
  intros Hres Hl Hw. assert (res_on sv = true) as Hon by (unfold res_on; by rewrite Hres).
  assert (∀ s1 why, wobble s s1 → wp x (set_run i (λ r, r <| ar_retryDenied := why |>) ;? foreign sv ;? pret (@None Reservation, false))
    (λ o s', judged (match o with Ok (_, true) => k + 1 | _ => k end) s o s' ∧ at_work i w s' ∧ match o with Ok (r, b) => bool_decide (r ≠ None) = b | _ => True end) s1) as Hdeny.
  { intros s1 why Hw1. assert (Still sv x true (set_run i (λ r, r <| ar_retryDenied := why |>) ;? foreign sv ;? pret (@None Reservation, false)) (λ a, a = (None, false))) as Hstill.
    { do 2 (eapply Still_bind; [still1|intros ? _]). by apply Still_ret. }
    pose proof (judged_wobble (A := ()) k s (Ok ()) s1 Hw1 Hl ltac:(done)) as Hj. pose proof (at_work_still _ _ _ _ _ (wobble_still (sv_retry sv) _ _ Hw1) Hw) as Hw2.
    eapply wp_mono; [eapply wp_Still; [exact Hstill|apply Hj|exact Hw2]|]. intros o s2 (Ho & Hl2 & Hw3 & [Hst Hcl] & Hv).
    assert (judged k s1 o s2) as Hj2 by (split_and!; [done|done|by apply (keeps_workers (sv_retry sv)), still_keeps|by apply Hcl]).
    destruct o as [[o b]|e|]; [|split; [by eapply judged_trans|done]|done]. injection (Hv _ eq_refl) as -> ->. split; [by eapply judged_trans|done]. }
  apply wp_bind, wp_now; [done|apply Hl|]. intros t s1 Hw1. apply wp_bind, wp_gets. cbv beta zeta. destruct (orb _ _); [by apply Hdeny|].
  apply wp_bind, wp_call; [done|apply Hw1|]. intros resv s2 Hw2. pose proof (wobble_trans _ _ _ Hw1 Hw2) as Hw3. destruct (default None resv) as [r|]; [|by apply Hdeny].
  apply wp_bind, wp_emit, wp_ret. pose proof (judged_wobble (A := ()) k s (Ok ()) s2 Hw3 Hl ltac:(done)) as (_ & Hl2 & Hwk & Hcl).
  unfold judged. split_and!; [done| |done|done| |by apply bool_decide_eq_true_2].
  - apply Loop_budget; [done|by left|done].
  - destruct (at_work_still _ _ _ _ _ (wobble_still (sv_retry sv) _ _ Hw3) Hw) as (r' & ?). by exists r'.
Qed.

(** A routing that does not wait. *)
Lemma wp_reserve req exclude s :
  fine s → wp x (reserveAttempt sv req exclude) (λ o s', wobble s s' ∧
    match o with Ok (inl (h, rt)) => (s_WorkerID (rt_worker rt) ∉ exclude) ∧ ∃ rt', r_routeds (a_r s') !! h = Some rt' | _ => True end) s.
Proof.
  intros Hs. apply wp_bind, wp_bind, wp_lift_with; [done..|]. intros s1 rs a Hw1 E. destruct (wb_fine _ _ Hw1) as [Hc1 Hb1].
  unfold bind in E. pose proof (route_ok (sv_router sv) (px_env x) (proj1 Hx) req None exclude _ (core (a_r s1)) (a_r s1) (conj (conj eq_refl Hc1) eq_refl)) as Hr.
  destruct (moves_route (sv_router sv) (px_env x) (proj1 Hx) req None exclude (core (a_r s1)) Hb1 (a_r s1) (conj eq_refl Hc1)) as (c' & [<- Hc'] & Hsteps).
  unfold Route in E. destruct (route (sv_router sv) req None exclude (px_env x) (a_r s1)) as [rs' rr]. cbn in E, Hr, Hsteps, Hc'. injection E as -> <-.
  set (s2 := s1 <| a_r := rs |>). assert (wobble s s2) as Hw2 by (by apply wobble_router).
  destruct rr as [h|j|e| |]; cbn; try done.
  - destruct Hr as (l & t & u & rt & _ & _ & Hex & Hd & _ & _ & _ & _ & _ & -> & [Hcore _]).
    assert (r_routeds rs !! (core (a_r s1)).2 = Some rt) as Hrt by (unfold core in Hcore; injection Hcore as _ -> _; apply lookup_insert_eq).
    rewrite Hrt. apply wp_ret, wp_bind, wp_flush; [done|apply Hw2|]. intros s3 Hw3. apply wp_ret. split; [by eapply wobble_trans|].
    split; [by rewrite (dv_id _ _ Hd)|]. destruct (csteps_handle _ _ _ _ (fn_bounded _ (wb_fine _ _ Hw2)) (wb_steps _ _ Hw3) Hrt) as (rt' & ? & _). by exists rt'.
  - by destruct Hr as (_ & ? & _).
  - apply wp_bind, wp_flush; [done|apply Hw2|]. intros s3 Hw3. apply wp_ret. split; [by eapply wobble_trans|done].
Qed.
(** A new attempt on a worker not tried yet: a reservation in hand is spent on it. *)
Lemma Loop_begin k s s' r rt pr :
  Loop sv k s → a_r s' = a_r s → a_runs s' = a_runs s ++ [r] → a_trace s' = a_trace s ++ [EvStarted (length (a_runs s)) (ar_worker r) pr] →
  length (in_attempts (a_info s')) = S (length (in_attempts (a_info s))) →
  r_routeds (a_r s) !! ar_target r = Some rt → ar_started r = true → ar_ended r = false → ar_ticketDone r = false → ar_verdict r ≠ VerdictOK → ar_retryable r = false →
  ar_worker r ∉ ar_worker <$> a_runs s → Z.of_nat (S (length (a_runs s))) ≤ Z.max 1 (rp_max (sv_retry sv)) → Loop sv (k - 1) s'.
Proof.
  intros [Hi Hc [Hst Hnd Han Hbu Hre Hat Hbo]] Hr Hruns Htr Hin Hrt Hs He Ht Hve Hrb Hnew Hbound. split.
  - by eapply Inv_begin.
  - unfold classed. rewrite Hruns. apply Forall_app. split; [done|]. constructor; [|done]. by rewrite Hrb.
  - split; rewrite ?Hruns, ?Htr, ?fmap_app.
    + by rewrite starts_app, Hst.
    + apply NoDup_app. split_and!; [done| |apply NoDup_singleton]. intros w Hw ->%list_elem_of_singleton. done.
    + unfold answers in *. rewrite countb_app, Han. done.
    + unfold reserved, refunded in *. rewrite !countb_app, length_app. cbn [length]. destruct (res_on sv); cbn; lia.
    + apply retries_app; [done|]. intros j e Hin'%list_elem_of_singleton. done.
    + rewrite Hin, length_app, Hat. cbn. lia.
    + rewrite length_app. cbn [length]. lia.
Qed.

Definition begun (k : Z) (w : string) (s s' : AState) : Prop :=
  Loop sv (k - 1) s' ∧ at_work (length (a_runs s)) w s' ∧ ar_worker <$> a_runs s' = (ar_worker <$> a_runs s) ++ [w] ∧ classes (a_runs s') = classes (a_runs s) ++ [(false, "")].

Lemma begun_still k w s s' s'' : stillc true (sv_retry sv) s' s'' → begun k w s s' → begun k w s s''.
Proof.
  intros [Hst Hc] (Hl & Hw & Hr & Hcl). split_and!; [by eapply Loop_still|by eapply at_work_still| |by rewrite Hc].
  by rewrite (keeps_workers (sv_retry sv) _ _ (still_keeps _ _ _ Hst)).
Qed.

Lemma wp_start k h rt rt' s :
  Loop sv k s → s_WorkerID (rt_worker rt) ∉ ar_worker <$> a_runs s → r_routeds (a_r s) !! h = Some rt' → Z.of_nat (S (length (a_runs s))) ≤ Z.max 1 (rp_max (sv_retry sv)) →
  wp x (let? i := track (h, rt) in startAttempt sv i ;? pret i)
    (λ o s', o ≠ Hang ∧ begun k (s_WorkerID (rt_worker rt)) s s' ∧ ∀ i, o = Ok i → i = length (a_runs s)) s.
Proof.
  intros Hl Hnew Hrt Hb. apply wp_bind. unfold wp at 1. cbn [track fst snd]. set (i := length (a_runs s)). set (s1 := s <| a_runs := _ |> <| a_cur := _ |>).
  assert (a_runs s1 !! i = Some (newRun h rt)) as Hi by (cbn; by apply list_lookup_middle).
  apply wp_bind, wp_bind. eapply wp_run; [done|]. apply wp_bind, wp_gets, wp_bind, wp_info, wp_bind, wp_set, wp_bind, wp_info, wp_bind, wp_emit.
  match goal with |- wp _ _ _ ?t => set (s2 := t) end. set (w := s_WorkerID (rt_worker rt)).
  assert (begun k w s s2) as Hb2.
  { assert (a_runs s2 = a_runs s ++ [(newRun h rt) <| ar_rec := length (in_attempts (a_info s)) |> <| ar_started := true |>]) as Hr2.
    { unfold s2. cbn. unfold i. rewrite alter_app_r_alt, Nat.sub_diag by lia. done. }
    split_and!; [|eexists; rewrite Hr2; split; [by apply list_lookup_middle|done]|by rewrite Hr2, fmap_app|unfold classes; by rewrite Hr2, fmap_app].
    eapply Loop_begin; try done. cbn. rewrite length_app. cbn. lia. }
  clearbody s2. apply wp_bind. apply wp_mono with (Q := λ o s', o = Ok () ∧ begun k w s s').
  { destruct (sv_res sv) as [rs|]; [|done]. apply wp_bind, wp_now; [done|apply Hb2|]. intros t s3 Hw3. apply wp_set. split; [done|].
    eapply begun_still; [|exact Hb2]. apply wobble_stillc. eapply wobble_trans; [done|]. apply wobble_set; [apply Hw3|done]. }
  intros o s3 [-> Hb3]. eapply wp_mono; [eapply (Still_foreign sv x Hx true), Hb3|].
  intros [a|b|] s4 [Hst Ho]; [apply wp_ret|..]; (split_and!; [done|by eapply begun_still|by intros ? [=]]) || done.
Qed.
Lemma wp_then {A} (t : nat * routed) (f : nat → Pm ()) (g : nat → Pm A) Q s :
  wp x (let? i := track t in f i ;? pret i) (λ o s', match o with Ok i => wp x (g i) Q s' | Panic b => Q (Panic b) s' | Hang => Q Hang s' end) s →
  wp x (let? i := track t in f i ;? g i) Q s.
Proof. unfold wp, pbind. cbn. match goal with |- context [f ?i x ?s1] => destruct (f i x s1) as [s' [[]|b|]] end; done. Qed.

Definition looped (o : Ret (option nat)) (s' : AState) : Prop :=
  a_runs s' ≠ [] ∧ match o with
  | Ok (Some j) => Loop sv 0 s' ∧ is_Some (a_runs s' !! j)
  | Ok None => False
  | _ => ∃ k, 0 ≤ k ≤ 1 ∧ Loop sv k s'
  end.

Lemma wp_no_other k i e r s :
  Loop sv k s → (res_on sv = true → k = 1 ∧ r ≠ None) → is_Some (a_runs s !! i) →
  wp x (refund sv r ;? set_run i (λ r, r <| ar_nextUnavailable := true |>) ;? let? g := gone sv in
        (if g then pret () else set_run i (λ r, r <| ar_nextRoute := nextRouteResult (ro_Error e) |>)) ;? pret (Some i)) looped s.
Proof.
  intros Hl Hk Hi. apply wp_bind. apply wp_mono with (Q := λ o s', o = Ok () ∧ Loop sv 0 s' ∧ is_Some (a_runs s' !! i)).
  - unfold refund. destruct (sv_res sv) as [rs|] eqn:Hres.
    + assert (res_on sv = true) as Hon by (unfold res_on; by rewrite Hres). destruct (Hk Hon) as [-> Hr]. destruct r as [r|]; [|done].
      apply wp_bind, wp_call; [done|apply Hl|]. intros _ s1 Hw. apply wp_emit. pose proof (wobble_still (sv_retry sv) _ _ Hw) as Hst. split_and!; [done| |].
      * apply (Loop_budget 1 (-1)); [done|by right|by eapply Loop_still].
      * destruct Hi as [r0 Hi]. destruct (erase_lookup _ _ _ _ (wb_runs _ _ Hw) Hi) as (r1 & ? & _). by exists r1.
    + split_and!; [done| |done]. assert (res_on sv = false) as Hoff by (unfold res_on; by rewrite Hres). destruct Hl as [? ? []]. split; [done..|]. split; try done. by rewrite Hoff in *.
  - intros o s1 (-> & Hl1 & [r1 Hi1]).
    assert (Still sv x true (set_run i (λ r, r <| ar_nextUnavailable := true |>) ;? let? g := gone sv in
      (if g then pret () else set_run i (λ r, r <| ar_nextRoute := nextRouteResult (ro_Error e) |>)) ;? pret (Some i)) (λ o, o = Some i)) as Hst.
    { do 3 (eapply Still_bind; [repeat still1|intros ? _]). by apply Still_ret. }
    eapply wp_mono; [apply Hst, Hl1|]. intros o s2 [[Hs2 _] Ho]. pose proof (Loop_still _ _ _ _ Hs2 Hl1) as Hl2. pose proof (st_runs _ _ _ Hs2) as Hf. symmetry in Hf. destruct (flags_lookup _ _ _ _ Hf Hi1) as (r2 & Hi2 & _).
    split; [intros E; by rewrite E in Hi2|]. destruct o as [a|b|]; [|by exists 0|done]. subst a. split; [done|by exists r2].
Qed.

Lemma wp_recordWorker k w j s :
  Loop sv k s → at_work j w s → wp x (recordWorker sv j) (λ o s', o ≠ Hang ∧ Loop sv k s' ∧ at_work j w s' ∧ ar_worker <$> a_runs s' = ar_worker <$> a_runs s) s.
Proof.
  intros Hl Hw. destruct Hw as (r & Hj & Hr). apply wp_bind. eapply wp_run; [done|]. apply wp_bind, wp_gets, wp_bind, wp_emit. set (s1 := s <| a_trace := _ |>).
  assert (Loop sv k s1) as Hl1 by (eapply Loop_kept; [by apply kept_emit|apply Inv_other; [done|apply Hl]|done]).
  eapply wp_mono; [eapply wp_Still with (c := true) (i := j) (w := w); [by apply Still_foreign|done|by exists r]|].
  intros o s2 (? & ? & ? & [Hst _] & _). split_and!; [done..|]. by rewrite (keeps_workers (sv_retry sv) _ _ (still_keeps _ _ _ Hst)).
Qed.

(** The next attempt takes over. *)
Lemma wp_swap w c i j s :
  Loop sv 0 s → at_work j w s → classes (a_runs s) !! i = Some (true, c) → retry_class (sv_retry sv) c → i ≠ j →
  wp x (set_cur j ;? abandonAttempt sv i outcomeRetried ;? recordWorker sv j)
    (λ o s', o ≠ Hang ∧ Loop sv 0 s' ∧ at_work j w s' ∧ ar_worker <$> a_runs s' = ar_worker <$> a_runs s) s.
Proof.
  intros Hl Hw Hcl Hc Hij. apply wp_bind. unfold wp at 1. cbn [set_cur pmodify fst snd]. set (s1 := s <| a_cur := _ |>).
  assert (Loop sv 0 s1) as Hl1.
  { destruct Hl as [Hiv ? []]. split; [|done|by split]. apply (Inv_frame _ _ s); [done..|by destruct Hiv as [[] ? ? ? ? ?]; split|done]. }
  unfold classes in Hcl. rewrite list_lookup_fmap in Hcl. apply fmap_Some in Hcl as (r & Hi & [= Hrb Hcr]).
  apply wp_bind. pose proof (wp_abandon sv x Hx i r outcomeRetried s1 (lp_inv _ _ _ Hl1) Hi) as Hab. pose proof (Only_abandon sv x Hx i outcomeRetried s1 (iv_fine _ _ _ (lp_inv _ _ _ Hl1))) as Hon.
  unfold wp in *. destruct (abandonAttempt sv i outcomeRetried x s1) as [s2 o]. cbn [fst snd] in *. destruct Hon as [_ Hon].
  destruct Hab as (Hcl' & Hinv2 & Hk2 & _); [intros _; by rewrite <-Hcr|].
  assert (Loop sv 0 s2) as Hl2 by (by eapply Loop_kept). pose proof (keeps_workers _ _ _ (proj1 Hk2)) as Hwk.
  assert (at_work j w s2) as Hw2.
  { destruct Hw as (rj & Hj & ? & ? & ?). specialize (Hon j ltac:(done)). change (a_runs s1 !! j) with (a_runs s !! j) in Hon. rewrite Hj in Hon.
    destruct (a_runs s2 !! j) as [rj'|] eqn:Hj'; [|done]. injection Hon. intros. exists rj'. split_and!; congruence. }
  destruct o as [[]|b|]; [|done|by destruct Hcl' as [?|[_ ?]]].
  eapply wp_mono; [by apply (wp_recordWorker 0 w j)|]. intros o s3 (? & ? & ? & ->). done.
Qed.
Lemma wp_regroup {A} (a b c : Pm ()) (d : Pm A) Q s :
  wp x (a ;? b ;? c) (λ o s', match o with Ok _ => wp x d Q s' | Panic e => Q (Panic e) s' | Hang => Q Hang s' end) s → wp x (a ;? b ;? c ;? d) Q s.
Proof.
  unfold wp, pbind. destruct (a x s) as [s1 [[]|e|]]; [|done..]. destruct (b x s1) as [s2 [[]|e|]]; [|done..]. by destruct (c x s2) as [s3 [[]|e|]].
Qed.

Lemma classes_lookup (l : list attemptRun) i r : l !! i = Some r → classes l !! i = Some (ar_retryable r, ar_class r).
Proof. intros Hi. unfold classes. by rewrite list_lookup_fmap, Hi. Qed.

Lemma some_runs i (s : AState) : is_Some (a_runs s !! i) → a_runs s ≠ [].
Proof. intros [r Hr] E. by rewrite E in Hr. Qed.

Lemma looped_fail k (o : Ret (option nat)) s' : 0 ≤ k ≤ 1 → Loop sv k s' → a_runs s' ≠ [] → (∀ a, o ≠ Ok a) → looped o s'.
Proof. intros Hk Hl Hne Ho. split; [done|]. destruct o as [a|b|]; [by destruct (Ho a)|by exists k..]. Qed.

(** After the decision to retry, with a reservation in hand if there is a budget. *)
Lemma wp_retry k c fuel req tried i w r s :
  (∀ j s, Loop sv 0 s → length (a_runs s) = S j → at_work j (default "" (last (ar_worker <$> a_runs s))) s →
     ar_worker <$> a_runs s = (tried ++ [w]) ++ [default "" (last (ar_worker <$> a_runs s))] → Z.of_nat (length (a_runs s)) ≤ rp_max (sv_retry sv) →
     wp x (attempt_loop sv fuel req (tried ++ [w]) j) looped s) →
  Loop sv k s → k = (if res_on sv then 1 else 0) → (res_on sv = true → r ≠ None) → length (a_runs s) = S i → ar_worker <$> a_runs s = tried ++ [w] →
  classes (a_runs s) !! i = Some (true, c) → retry_class (sv_retry sv) c → Z.of_nat (length (a_runs s)) < rp_max (sv_retry sv) →
  wp x (let? next := reserveAttempt sv req (tried ++ [w]) in
        match next with
        | inr e =>
            refund sv r ;? set_run i (λ r, r <| ar_nextUnavailable := true |>) ;? let? g := gone sv in
            (if g then pret () else set_run i (λ r, r <| ar_nextRoute := nextRouteResult (ro_Error e) |>)) ;? pret (Some i)
        | inl t => let? j := track t in startAttempt sv j ;? set_cur j ;? abandonAttempt sv i outcomeRetried ;? recordWorker sv j ;? attempt_loop sv fuel req (tried ++ [w]) j
        end) looped s.
Proof.
  intros IH Hl Hk Hr Hlen Hws Hcl Hc Hmax. assert (0 ≤ k ≤ 1) as Hk01 by (subst k; by destruct (res_on sv)).
  apply wp_bind. eapply wp_mono; [apply wp_reserve, Hl|]. intros o s1 [Hw1 Ho]. pose proof (wobble_still (sv_retry sv) _ _ Hw1) as Hst1.
  pose proof (Loop_still _ _ _ _ Hst1 Hl) as Hl1. pose proof (still_keeps _ _ _ Hst1) as Hk1. pose proof (keeps_workers _ _ _ Hk1) as Hws1. pose proof (keeps_length _ _ _ Hk1) as Hlen1.
  rewrite <-(wobble_classes _ _ Hw1) in Hcl. destruct o as [[[h rt]|e]|b|]; [|eapply wp_no_other; [done|..]|by apply (looped_fail k); [| |intros E; rewrite E in *|]..].
  2: { intros Hon. rewrite Hon in Hk. split; [done|by apply Hr]. }
  2: { apply lookup_lt_is_Some_2. lia. }
  destruct Ho as (Hnew & rt' & Hrt). rewrite <-Hws, <-Hws1 in Hnew. apply wp_then. eapply wp_mono; [eapply wp_start; [done..|lia]|].
  intros o s2 (Hh & (Hl2 & Hw2 & Hws2 & Hcl2) & Hi2). assert (Loop sv 0 s2) as Hl2'.
  { destruct Hl2 as [? ? [? ? ? Hb ? ? ?]]. split; [done..|]. split; try done. rewrite Hb. destruct (res_on sv); [|done]. subst k. lia. }
  assert (classes (a_runs s2) !! i = Some (true, c)) as Hcl3 by (rewrite Hcl2; by apply lookup_app_l_Some).
  assert (∀ s', ar_worker <$> a_runs s' = ar_worker <$> a_runs s2 → a_runs s' ≠ []) as Hne by (intros s' E E'; rewrite Hws2, E' in E; by destruct (a_runs s1)).
  destruct o as [j|b|]; [|by apply (looped_fail 0); auto|done]. specialize (Hi2 j eq_refl). apply wp_regroup.
  eapply wp_mono; [eapply wp_swap; [exact Hl2'|by rewrite Hi2|exact Hcl3|done|lia]|]. intros o s3 (Ho3 & Hl3 & Hw3 & Hws3).
  destruct o as [[]|b|]; [|by apply (looped_fail 0); auto|done]. rewrite Hws2, Hws1, Hws in Hws3.
  assert (length (a_runs s3) = S (S i)) as Hlen3.
  { apply (f_equal length) in Hws3. rewrite length_fmap, length_app in Hws3. cbn in Hws3. apply (f_equal length) in Hws. rewrite length_fmap in Hws. lia. }
  apply IH; [done|lia|by rewrite Hws3, last_snoc|by rewrite Hws3, last_snoc|lia].
Qed.

(** The check before a retry: what is in hand after it. *)
Lemma wp_permission k i w (want : bool) req s :
  Loop sv 0 s → at_work i w s → k = (if res_on sv then 1 else 0) →
  wp x (match sv_res sv with
        | Some rs => if want then permitRetry sv rs i (ir_Model req) else pret (@None Reservation, want)
        | None => pret (@None Reservation, want)
        end)
    (λ o s', at_work i w s' ∧ match o with
      | Ok (r, b) => (b = true → want = true) ∧ judged (if b then k else 0) s o s' ∧ (b = true → res_on sv = true → r ≠ None)
      | o => judged 0 s o s'
      end) s.
Proof.
  intros Hl Hw ->. assert (∀ (o : Ret (option Reservation * bool)), o ≠ Hang → judged 0 s o s) as Hid by (intros; by split_and!).
  destruct (sv_res sv) as [rs|] eqn:Hres.
  - assert (res_on sv = true) as Hon by (unfold res_on; by rewrite Hres). rewrite Hon. destruct want; [|split; [done|]; split; [done|]; split; [by apply Hid|done]].
    eapply wp_mono; [by apply (wp_permit rs 0 i w)|]. intros o s' (Hj & Hw' & Ho). split; [done|]. destruct o as [[r b]|e|]; [|done..].
    split_and!; [done|by destruct b|]. intros -> _. by apply bool_decide_eq_true in Ho.
  - assert (res_on sv = false) as Hoff by (unfold res_on; by rewrite Hres). rewrite Hoff. split; [done|]. split; [done|]. split; [by destruct want; apply Hid|done].
Qed.

(** The loop ends within its bound, with everything accounted for. *)
Lemma wp_loop fuel req tried i w s :
  Loop sv 0 s → length (a_runs s) = S i → at_work i w s → ar_worker <$> a_runs s = tried ++ [w] →
  rp_max (sv_retry sv) - Z.of_nat (length (a_runs s)) < Z.of_nat fuel → (0 < fuel)%nat → wp x (attempt_loop sv fuel req tried i) looped s.
Proof.
  revert tried i w s. induction fuel as [|fuel IH]; intros tried i w s Hl Hlen Hw Hws Hf Hf0; [lia|]. cbn [attempt_loop].
  apply wp_bind. eapply wp_mono; [by apply (wp_send 0 i w)|]. intros o s1 (Ho & Hl1 & Hw1 & Hws1). assert (∀ s', length (a_runs s') = S i → a_runs s' ≠ []) as Hne by (intros s' E E'; by rewrite E' in E).
  assert (∀ s', ar_worker <$> a_runs s' = ar_worker <$> a_runs s → length (a_runs s') = S i) as Hln by (intros s' E; apply (f_equal length) in E; rewrite !length_fmap in E; lia).
  destruct o as [[]|b|]; [|by apply (looped_fail 0); auto|done].
  apply wp_bind, wp_gone; [done|apply Hl1|]. intros s2 Hwb. pose proof (wobble_still (sv_retry sv) _ _ Hwb) as Hst. apply (Loop_still _ _ _ _ Hst) in Hl1.
  apply (at_work_still _ _ _ _ _ Hst) in Hw1. rewrite <-(keeps_workers _ _ _ (still_keeps _ _ _ Hst)) in Hws1. clear Hst Hwb s1.
  pose proof Hw1 as (r & Hi & Hrw & _). apply wp_bind. eapply wp_run; [done|]. apply wp_bind, wp_gets. rewrite Hrw.
  assert (length (a_runs s2) = length (a_runs s)) as Hlen2 by (apply (f_equal length) in Hws1; by rewrite !length_fmap in Hws1).
  rewrite (su_attempts _ _ _ _ (lp_sums _ _ _ Hl1)), Hlen2. set (want := negb _ && _ && _). apply wp_bind.
  eapply wp_mono; [by apply (wp_permission (if res_on sv then 1 else 0) i w)|]. intros o s3 [Hw3 Ho3].
  destruct o as [[rs b]|e|]; [|by destruct Ho3 as (_ & ? & ? & _); apply (looped_fail 0); [..|apply Hne, Hln; congruence|]|by destruct Ho3]. destruct Ho3 as (Hb & Hj3 & Hrs).
  apply wp_bind. eapply wp_mono; [by apply (wp_settle (if b then if res_on sv then 1 else 0 else 0) i w); [apply Hj3|]|]. intros o s4 Hj4.
  set (k := if b then if res_on sv then 1 else 0 else 0) in *. assert (0 ≤ k ≤ 1) as Hk by (unfold k; by destruct b, (res_on sv)).
  destruct Hj3 as (_ & _ & Hws3 & Hcl3), Hj4 as (Ho4 & Hl4 & Hws4 & Hcl4). assert (length (a_runs s4) = S i) as Hlen4 by (apply Hln; congruence).
  destruct o as [[]|e|]; [|by apply (looped_fail k); auto|done].
  destruct b; cbn [negb]; [|split; [by apply Hne|]; split; [done|apply lookup_lt_is_Some_2; cbn [pret fst]; lia]].
  specialize (Hb eq_refl). unfold want in Hb. apply andb_true_iff in Hb as [[_ Hrb]%andb_true_iff Hmax%Z.ltb_lt].
  assert (retry_class (sv_retry sv) (ar_class r)) as Hc by (by apply (Forall_lookup_1 _ _ _ _ (lp_classed _ _ _ Hl1) Hi)).
  apply (wp_retry k (ar_class r)); [|done|done|by apply Hrs|done|congruence| |done|lia].
  - intros j s5 Hl5 Hlen5 Hw5 Hws5 Hm5. eapply IH; [done|done|exact Hw5|exact Hws5|..].
    + rewrite Hlen5. apply (f_equal length) in Hws5. apply (f_equal length) in Hws. rewrite !length_fmap, !length_app in Hws5. rewrite length_fmap, length_app in Hws. cbn in *. lia.
    + lia.
  - rewrite Hcl4, Hcl3, (classes_lookup _ _ _ Hi), Hrb. done.
Qed.
End Looping.

(** ** Answering. *)

(** The client is told, with [a] answers. *)
Record said (a : Z) (s s' : AState) : Prop := {
  sd_trace : ∃ t, a_trace s' = a_trace s ++ t ∧ Forall (λ e, about e = None) t ∧ answers t = a ∧ reserved t = 0 ∧ refunded t = 0;
  sd_runs : flags <$> a_runs s' = flags <$> a_runs s;
  sd_attempts : length (in_attempts (a_info s')) = length (in_attempts (a_info s));
  sd_gone : a_gone s = true → a_gone s' = true;
  sd_steps : rtc cstep (core (a_r s)) (core (a_r s'));
  sd_fine : fine s'
}.

Lemma said_trans a b s1 s2 s3 : said a s1 s2 → said b s2 s3 → said (a + b) s1 s3.
Proof.
  intros [(t & Ht & Hf & Ha & Hr & Hn) ?????] [(t' & Ht' & Hf' & Ha' & Hr' & Hn') ?????]. split; try congruence; auto; [|by etrans].
  exists (t ++ t'). unfold answers, reserved, refunded in *. rewrite !countb_app. split_and!; [by rewrite Ht', Ht, (assoc app)|by apply Forall_app|lia..].
Qed.

Lemma still_said p s s' : still p s s' → said 0 s s'.
Proof. intros [Hi ? Ht ? _ ? ? ?]. split; try done; [exists []; split; [by rewrite app_nil_r|done]|by rewrite Hi]. Qed.

Lemma said_emit a s e : fine s → about e = None → answers [e] = a → reserved [e] = 0 → refunded [e] = 0 → said a s (s <| a_trace := a_trace s ++ [e] |>).
Proof. intros [] ????. split; try done. exists [e]. split_and!; [done|by constructor|done..]. Qed.

Lemma Inv_said res a s s' : said a s s' → Inv res None s → Inv res None s'.
Proof.
  intros [(t & Ht & Hf & _) Hr _ _ Hs Hfn] Hinv.
  assert (Inv res None (s <| a_trace := a_trace s ++ t |>)) as Hinv1.
  { clear Ht. revert s Hr Hs Hinv. induction t as [|e t IH]; intros s Hr Hs Hinv; [rewrite app_nil_r; by destruct s|]. inversion_clear Hf as [|?? He Hf'].
    pose proof (Inv_other _ _ _ _ He Hinv) as Hi. apply (IH Hf') in Hi; [|done..].
    by replace (a_trace s ++ e :: t) with ((a_trace s ++ [e]) ++ t) by (by rewrite <-(assoc app)). }
  eapply Inv_frame; [..|exact Hinv1]; done.
Qed.

Lemma Sums_said sv k a b s s' : said b s s' → Sums sv k a s → Sums sv k (a + b) s'.
Proof.
  intros [(t & Ht & Hf & Ha & Hr & Hn) Hfl Hat' _ _ _] [Hst Hnd Han Hbu Hre Hat Hbo].
  assert (ar_worker <$> a_runs s' = ar_worker <$> a_runs s) as Hw.
  { apply (f_equal (fmap (λ f, f.1.1.1))) in Hfl. by rewrite <-!list_fmap_compose in Hfl. }
  assert (length (a_runs s') = length (a_runs s)) as Hl by (apply (f_equal length) in Hfl; by rewrite !length_fmap in Hfl).
  assert (starts t = []) as Hst'. { clear -Hf. induction Hf as [|e t He _ IH]; [done|]. by destruct e. }
  split; rewrite ?Hw, ?Hl, ?Ht; try done.
  - by rewrite starts_app, Hst', app_nil_r.
  - unfold answers in *. rewrite countb_app. lia.
  - rewrite <-Hbu. unfold reserved, refunded in *. rewrite !countb_app. lia.
  - apply retries_app; [done|]. intros i e Hin. rewrite Forall_forall in Hf. by apply Hf in Hin.
  - congruence.
Qed.

Section Answering.
Context `{GoPlatform} `{GoMapOrder} `{GoMath} `{UrlParser} (sv : Server) (x : AEnv) (Hx : aenv_ok x).

(** No answer is begun. *)
Definition Mute {A} (m : Pm A) : Prop := ∀ s, fine s → wp x m (λ o s', o ≠ Hang ∧ said 0 s s') s.

Lemma Mute_bind {A B} (m : Pm A) (f : A → Pm B) : Mute m → (∀ a, Mute (f a)) → Mute (pbind m f).
Proof.
  intros Hm Hf s Hs. apply wp_bind. eapply wp_mono; [by apply Hm|]. intros [a|b|] s' [Ho Hs']; [|done..].
  eapply wp_mono; [apply Hf, Hs'|]. intros o s'' [? ?]. split; [done|]. by apply (said_trans 0 0 s s').
Qed.

Lemma Mute_still {A} (m : Pm A) P : Still sv x false m P → Mute m.
Proof. intros Hm s Hs. eapply wp_mono; [by apply Hm|]. intros o s' [[Hst _] Ho]. split; [by destruct o|by eapply still_said]. Qed.

Lemma Mute_emit e : about e = None → is_answer e = false → e ≠ EvReserved → e ≠ EvRefunded → Mute (emit e).
Proof. intros ?? ?? s Hs. split; [done|]. apply said_emit; try done; by destruct e. Qed.

Ltac mute1 :=
  match goal with
  | |- Mute (pbind _ _) => apply Mute_bind; [|intros ?]
  | |- Mute (emit _) => by apply Mute_emit
  | |- Mute (match _ with _ => _ end) => case_match
  | |- _ => apply (Mute_still _ (λ _, True)); solve [repeat still1]
  end.

Lemma Mute_pump {St} (onData : St → list Z → Pm St) st src end_ : (∀ st b, Mute (onData st b)) → Mute (pump sv onData st src end_).
Proof.
  intros Hd. revert st. induction src as [|c src IH]; intros st; cbn [pump]; [mute1|]. destruct c as [|b c]; [apply IH|]. apply Mute_bind; [apply Hd|intros st'].
  mute1; [mute1|]. mute1; [mute1|]. case_match; [mute1|apply IH].
Qed.

Lemma Mute_stream scan src end_ : Mute (relayStream sv scan src end_).
Proof.
  unfold relayStream. apply Mute_bind; [apply Mute_pump; intros [[first tl] sc] b; unfold stream_data; repeat mute1|].
  intros [[[fi tl] sc] out]. unfold set_tokens. repeat mute1.
Qed.

Lemma wp_fail e s : fine s → wp x (fail e) (λ o s', o = Ok () ∧ said 1 s s') s.
Proof.
  intros [Hc Hb]. apply wp_bind, wp_info. set (s0 := s <| a_info := _ |>). apply wp_bind, wp_gets, wp_emit. split; [done|]. apply (said_trans 0 1 s s0).
  - split; try done. exists []. by rewrite app_nil_r.
  - by apply said_emit.
Qed.
(** A step that may panic comes last. *)
Lemma wp_last m s (Q : Ret () → AState → Prop) :
  (∀ a o s', o ≠ Hang → said a s s' → Q o s' → ∀ s'', said 0 s' s'' → Q o s'' ∧ Q (Panic false) s'') →
  wp x m (λ o s', o ≠ Hang ∧ (∃ a, said a s s') ∧ Q o s') s → wp x (finally m (foreign sv)) (λ o s', o ≠ Hang ∧ Q o s') s.
Proof.
  intros HQ Hm. apply wp_finally. eapply wp_mono; [exact Hm|]. intros o s1 (Ho & [a Ha] & Hq).
  assert (∀ (f : Ret () → Ret ()), (f (Ok ()) = o) → (∀ b, f (Panic b) = Panic b) → wp x (foreign sv) (λ r s', f r ≠ Hang ∧ Q (f r) s') s1) as Hf.
  { intros f Hf1 Hf2. apply wp_bind, wp_asks; [done|apply Ha|]. intros n s2 Hw. destruct (HQ a o s1 Ho Ha Hq s2 (still_said _ _ _ (wobble_still (sv_retry sv) _ _ Hw))).
    destruct (px_panic x n); unfold wp; cbn; [by rewrite Hf2|by rewrite Hf1]. }
  destruct o as [[]|b|]; [| |done]; by apply Hf.
Qed.

(** How an answer ends: at most one is given, and one for certain if all goes well and the client stays. *)
Definition answered (s : AState) (o : Ret ()) (s' : AState) : Prop :=
  ∃ a, said a s s' ∧ 0 ≤ a ≤ 1 ∧ (o = Ok () → a = 1 ∨ a_gone s' = true).

Lemma wp_relay resp src s : fine s → wp x (relay sv resp src) (λ o s', o ≠ Hang ∧ answered s o s') s.
Proof.
  intros Hs. apply wp_last.
  { intros a o s1 Ho Ha (b & Hb & Hb01 & Hok) s2 Hs2. pose proof (said_trans _ _ _ _ _ Hb Hs2) as Hb2. rewrite Z.add_0_r in Hb2.
    split; exists b; (split_and!; [done|lia|lia|]); [intros ->; destruct (Hok eq_refl); [by left|right; by apply Hs2]|done]. }
  case_match.
  - apply wp_bind. eapply wp_mono; [by apply (Mute_still (foreign sv) (λ _, True)); [apply Still_foreign|]|]. intros o s1 [Ho Hd1].
    destruct o as [[]|b|]; [|split_and!; [done|by exists 0|by exists 0]|done]. eapply wp_mono; [apply wp_fail, Hd1|]. intros o s2 [-> Hd2].
    pose proof (said_trans _ _ _ _ _ Hd1 Hd2). split_and!; [done|by exists 1|exists 1; split_and!; [done..|by left]].
  - apply wp_bind, wp_gets, wp_bind, wp_emit. set (s1 := s <| a_trace := _ |>). assert (said 1 s s1) as Hd1 by (by apply said_emit).
    assert (∀ m : Pm (), Mute m → wp x m (λ o s', o ≠ Hang ∧ (∃ a, said a s s') ∧ answered s o s') s1) as Hrest.
    { intros m Hm. eapply wp_mono; [apply Hm, Hd1|]. intros o s2 [Ho Hd2]. pose proof (said_trans _ _ _ _ _ Hd1 Hd2). split_and!; [done|by exists 1|].
      exists 1. split_and!; [done..|by left]. }
    cbv zeta. destruct (re_sse resp); apply Hrest; [apply Mute_stream|]. apply Mute_bind; [apply Mute_pump; intros; unfold body_data; mute1|]. intros [sc out].
    unfold set_tokens. cbn [fst snd]. repeat mute1.
Qed.

Lemma wp_answer i r s : fine s → a_runs s !! i = Some r → wp x (answer sv i) (λ o s', o ≠ Hang ∧ answered s o s') s.
Proof.
  intros Hs Hi. apply wp_bind, wp_gone; [done..|]. intros s1 Hw. destruct (erase_lookup _ _ _ _ (wb_runs _ _ Hw) Hi) as (r1 & Hi1 & _).
  pose proof (still_said _ _ _ (wobble_still (sv_retry sv) _ _ Hw)) as Hd1. apply wp_bind. eapply wp_run; [done|]. destruct (a_gone s1) eqn:Hg.
  - assert (Mute (set_info (λ n, n <| in_clientClosed := true |>) ;? match ar_resp r1 with Some _ => foreign sv | None => pret () end)) as Hm by (repeat mute1).
    eapply wp_mono; [apply Hm, Hw|]. intros o s2 [Ho Hd2]. split; [done|]. exists 0. split_and!; [by apply (said_trans 0 0 s s1)|done..|]. intros _. right. by apply Hd2.
  - destruct (ar_err r1) as [e|].
    + eapply wp_mono; [apply wp_fail, Hw|]. intros o s2 [-> Hd2]. split; [done|]. exists 1. split_and!; [by apply (said_trans 0 1 s s1)|done..|by left].
    + assert (Mute (joinPeek sv i)) as Hm.
      { unfold joinPeek, putBack. apply (Mute_still _ (λ _, True)). repeat first [apply Still_set; [intros r'; unfold flags; by repeat case_match|intros r'; by repeat case_match|done]|still1]. }
      apply wp_bind. eapply wp_mono; [apply Hm, Hw|]. intros o s2 [Ho Hd2]. pose proof (said_trans _ _ _ _ _ Hd1 Hd2) as Hd12.
      destruct o as [[]|b|]; [|split; [done|]; by exists 0|done]. apply wp_bind. pose proof (sd_runs _ _ _ Hd2) as Hr. symmetry in Hr.
      destruct (flags_lookup _ _ _ _ Hr Hi1) as (r2 & Hi2 & _). eapply wp_run; [done|]. destruct (ar_resp r2) as [resp|]; [|split; [done|]; by exists 0].
      eapply wp_mono; [apply wp_relay, Hd2|]. intros o s3 (Ho3 & a & Ha & Ha01 & Hok). split; [done|]. exists a. split_and!; [|lia..|done].
      by apply (said_trans 0 a s s2).
Qed.
End Answering.

(** ** The whole request. *)

(** What holds when the request is over, or for as long as it goes on. *)
Record Final (sv : Server) (o : Ret bool) (s : AState) : Prop := {
  fi_workers : NoDup (starts (a_trace s));
  fi_bound : Z.of_nat (length (starts (a_trace s))) ≤ Z.max 1 (rp_max (sv_retry sv));
  fi_retries : retries_ok (sv_retry sv) (a_trace s);
  fi_order : ∃ tr1 tr2, a_trace s = tr1 ++ tr2 ∧ answers tr1 = 0 ∧ 0 ≤ answers tr2 ≤ 1 ∧ starts tr2 = [];
  fi_ok b : o = Ok b → b = true ∧ (answers (a_trace s) = 1 ∨ a_gone s = true);
  fi_budget : ∃ k, 0 ≤ k ≤ 1 ∧ ((∃ b, o = Ok b) ∨ answers (a_trace s) = 1 → k = 0) ∧
    reserved (a_trace s) - refunded (a_trace s) = if res_on sv then Z.max 0 (Z.of_nat (length (starts (a_trace s))) - 1) + k else 0
}.

(** The parts of the trace: the attempts, then the answer, then the closing. *)
Lemma Final_sums sv k a (o : Ret bool) s1 s2 s3 :
  Sums sv k 0 s1 → (a_runs s1 ≠ []) → said a s1 s2 → keeps (sv_retry sv) s2 s3 → 0 ≤ a ≤ 1 → 0 ≤ k ≤ 1 → ((∃ b, o = Ok b) ∨ a = 1 → k = 0) →
  (∀ b, o = Ok b → b = true ∧ (a = 1 ∨ a_gone s2 = true)) → Final sv o s3.
Proof.
  intros Hs1 Hne Ha Hk Ha01 Hk01 Hbal Hok. pose proof (Sums_said _ _ _ _ _ _ Ha Hs1) as Hs2. pose proof (Sums_keeps _ _ _ _ _ Hk Hs2) as [Hst Hnd Han Hbu Hre Hat Hbo].
  rewrite Z.add_0_l in Han. assert (length (starts (a_trace s3)) = length (a_runs s3)) as Hlen by (by rewrite Hst, length_fmap).
  assert (0 < length (a_runs s3))%nat as Hpos.
  { rewrite (keeps_length _ _ _ Hk). pose proof (sd_runs _ _ _ Ha) as Hr. apply (f_equal length) in Hr. rewrite !length_fmap in Hr. rewrite Hr. destruct (a_runs s1); [done|cbn; lia]. }
  split; [by rewrite Hst|by rewrite Hlen|done| | |].
  - destruct (sd_trace _ _ _ Ha) as (t & Ht & Hf & Hat' & _). destruct (kp_trace _ _ _ Hk) as (t' & Ht' & [C1 C2 _ _ _]).
    exists (a_trace s1), (t ++ t'). split_and!; [by rewrite Ht', Ht, (assoc app)|apply Hs1|..]; [unfold answers in *; rewrite countb_app; lia..|].
    rewrite starts_app, C1, app_nil_r. clear -Hf. induction Hf as [|e t He _ IH]; [done|]. by destruct e.
  - intros b Hb. destruct (Hok b Hb) as [? [?|?]]; [split; [done|left; congruence]|split; [done|right; by apply Hk]].
  - exists k. split_and!; [lia|lia|rewrite Han; exact Hbal|]. rewrite Hbu, Hlen. destruct (res_on sv); [lia|done].
Qed.

(** The end of a request: every account is closed, unless a cleanup panicked. *)
Definition over (sv : Server) (x : AEnv) (o : Ret bool) (s : AState) : Prop :=
  Final sv o s ∧ (o ≠ Hang → Inv (res_on sv) None s ∧ ((∀ n, px_closePanic x n = false) → Forall (λ r, ar_ended r = true) (a_runs s))).

Section Request.
Context `{GoPlatform} `{GoMapOrder} `{GoMath} `{UrlParser} (sv : Server) (x : AEnv) (Hx : aenv_ok x).

(** The body of a served request up to its deferred cleanup. *)
Definition before_close (o : Ret bool) (s' : AState) : Prop :=
  ∃ k a s1, Sums sv k 0 s1 ∧ a_runs s1 ≠ [] ∧ said a s1 s' ∧ 0 ≤ a ≤ 1 ∧ 0 ≤ k ≤ 1 ∧ ((∃ b, o = Ok b) ∨ a = 1 → k = 0) ∧
    (∀ b, o = Ok b → b = true ∧ (a = 1 ∨ a_gone s' = true)) ∧ Inv (res_on sv) None s'.

Lemma before_loop k (o : Ret bool) s : Loop sv k s → a_runs s ≠ [] → 0 ≤ k ≤ 1 → (∀ b, o ≠ Ok b) → before_close o s.
Proof.
  intros Hl Hne Hk Ho. exists k, 0, s. split_and!; [apply Hl|done| |done..|lia|lia| |by intros b ->; destruct (Ho b)|apply Hl].
  - eapply (still_said (sv_retry sv)), still_refl, Hl.
  - intros [[b ->]|?]; [by destruct (Ho b)|done].
Qed.

Lemma wp_body req t rt' s :
  Loop sv 1 s → a_runs s = [] → r_routeds (a_r s) !! t.1 = Some rt' →
  wp x (let? i := track t in startAttempt sv i ;? recordWorker sv i ;? let? last := attempt_loop sv (loop_bound sv) req [] i in
        match last with Some i => answer sv i ;? pret true | None => pret false end) before_close s.
Proof.
  intros Hl Hruns Hrt. destruct t as [h rt]. apply wp_then. eapply wp_mono; [eapply wp_start; [done|exact Hl|rewrite Hruns; apply not_elem_of_nil|exact Hrt|rewrite Hruns; cbn; lia]|].
  intros o s1 (Ho & (Hl1 & Hw1 & Hws1 & _) & Hi). rewrite Hruns in *. cbn [length] in *. change (1 - 1) with 0 in Hl1.
  assert (∀ s', ar_worker <$> a_runs s' = ar_worker <$> a_runs s1 → a_runs s' ≠ []) as Hne by (intros s' E E'; by rewrite Hws1, E' in E).
  destruct o as [i|b|]; [|by apply (before_loop 0); auto|done]. specialize (Hi i eq_refl). subst i.
  apply wp_bind. eapply wp_mono; [by apply (wp_recordWorker sv x Hx 0 (s_WorkerID (rt_worker rt)) 0)|]. intros o s2 (Ho2 & Hl2 & Hw2 & Hws2).
  destruct o as [[]|b|]; [|by apply (before_loop 0); auto|done]. assert (length (a_runs s2) = 1%nat) as Hlen.
  { apply (f_equal length) in Hws2. rewrite Hws1, length_fmap in Hws2. done. }
  apply wp_bind. eapply wp_mono; [eapply wp_loop; [done|exact Hl2|exact Hlen|exact Hw2|by rewrite Hws2|rewrite Hlen; unfold loop_bound; lia|unfold loop_bound; lia]|].
  intros o s3 [Hne3 Ho3]. destruct o as [[j|]|b|]; [|done|destruct Ho3 as (k & ? & ?); by apply (before_loop k)..]. destruct Ho3 as [Hl3 [rj Hj]].
  apply wp_bind. eapply wp_mono; [eapply wp_answer; [done|apply Hl3|exact Hj]|]. intros o s4 (Ho4 & a & Ha & Ha01 & Hok).
  pose proof (Inv_said _ _ _ _ Ha (lp_inv _ _ _ Hl3)) as Hinv4. destruct o as [[]|b|]; [apply wp_ret|..|done]; exists 0, a, s3.
  - split_and!; [apply Hl3|done|done|lia..|done| |done]. intros b [= <-]. split; [done|by apply Hok].
  - split_and!; [apply Hl3|done|done|lia..|done|done|done].
Qed.

Lemma wp_guarded {A} (m : Pm A) (Q : Ret A → AState → Prop) s :
  wp x m (λ o s', match o with
    | Hang => Q Hang s'
    | o => ∀ b, wp x (closeAttempts sv b) (λ r s'', Q (match r with Ok _ => o | Panic b => Panic b | Hang => Hang end) s'') s'
    end) s → wp x (guarded sv m) Q s.
Proof.
  unfold wp, guarded. destruct (m x s) as [s' [a|b|]]; cbn [fst snd]; [..|done]; intros Hc.
  - specialize (Hc false). by destruct (closeAttempts sv false x s') as [s'' [[]|b'|]].
  - specialize (Hc (negb b)). by destruct (closeAttempts sv (negb b) x s') as [s'' [[]|b'|]].
Qed.

Lemma wp_serve req t rt' s : Loop sv 1 s → a_runs s = [] → r_routeds (a_r s) !! t.1 = Some rt' → wp x (serve sv req t) (over sv x) s.
Proof.
  intros Hl Hruns Hrt. apply wp_guarded. eapply wp_mono; [by eapply wp_body|]. intros o s2 (k & a & s1 & Hs1 & Hne & Ha & Ha01 & Hk01 & Hbal & Hok & Hinv).
  assert (∀ p : bool, o ≠ Hang → wp x (closeAttempts sv p) (λ r s'', over sv x (match r with Ok _ => o | Panic b => Panic b | Hang => Hang end) s'') s2) as Hclose.
  { intros p Ho. eapply wp_mono; [by apply wp_closeAttempts|]. intros r s3 (Hcl & Hinv3 & Hk & Hall). split.
    - eapply Final_sums; [exact Hs1|done|exact Ha|exact Hk|done|done|..].
      + destruct Hcl as [->|[_ ->]]; [done|]. intros [[b ?]|?]; [done|auto].
      + destruct Hcl as [->|[_ ->]]; [done|]. done.
    - intros _. split; [done|]. intros Hno. apply Hall. destruct Hcl as [->|[[n Hn] _]]; [done|]. by rewrite Hno in Hn. }
  destruct o as [b|b|]; [intros p; by apply Hclose..|]. split; [|done].
  eapply Final_sums; [exact Hs1|done|exact Ha|apply still_keeps, (still_refl (sv_retry sv)), Ha|done|done|done|done].
Qed.
End Request.
