(* ===== verification/AttemptMain.v ===== *)
(** * The attempts of a request: the theorems

    What AttemptSpec.v shows of the parts of [forwardRegistry], put together for the whole request,
    and the relaying of a response taken by itself.  The retryable phase of an attempt is in
    AttemptPhase.v. *)

From Stdlib Require Import Ascii String SpecFloat.
From S2P Require Import Prelude GoFloat FloatExact GoString GoSort SlidingWindow Breaker Breakers Queue Budget Protocol Cost Scheduler SchedulerSpec History Tracker TrackerSpec Snapshot Api Tokens Router RouterSpec Attempt AttemptSpec.

Local Open Scope string_scope.
Local Open Scope list_scope.
Local Open Scope Z_scope.

#[local] Existing Instance any_workers.

(** ** The first slot. *)

Section First.
Context `{GoPlatform} `{GoMapOrder} `{GoMath} `{UrlParser} (sv : Server) (x : AEnv) (Hx : aenv_ok x).

(** A target that was found exists. *)
Definition targeted {A} (f : A → option nat) (s : AState) (o : Ret A) (s' : AState) : Prop :=
  said 0 s s' ∧ match o with Ok a => match f a with Some h => is_Some (r_routeds (a_r s') !! h) | None => True end | _ => True end.

Definition handle_of {B C} (r : (nat * B) + C) : option nat := match r with inl t => Some t.1 | inr _ => None end.
Definition routed_handle (r : (nat * routed) + nat + routeError) : option nat := match r with inl (inl t) => Some t.1 | _ => None end.

Lemma targeted_trans {A B} (f : A → option nat) (g : B → option nat) s (o : Ret A) s1 o' s2 : targeted f s o s1 → targeted g s1 o' s2 → targeted g s o' s2.
Proof. intros [Hs _] [Hs' Ho]. split; [by apply (said_trans 0 0 s s1)|done]. Qed.

Lemma targeted_wobble {A} (f : A → option nat) s o s1 s2 : targeted f s o s1 → wobble s1 s2 → targeted f s o s2.
Proof.
  intros [Hs Ho] Hw. split; [apply (said_trans 0 0 s s1); [done|]; by eapply (still_said (sv_retry sv)), wobble_still|]. destruct o as [a|b|]; [|done..].
  destruct (f a) as [h|]; [|done]. destruct Ho as [rt Hrt]. destruct (csteps_handle _ _ _ _ (fn_bounded _ (sd_fine _ _ _ Hs)) (wb_steps _ _ Hw) Hrt) as (rt' & ? & _). by exists rt'.
Qed.

Lemma said_wobble s s' : wobble s s' → said 0 s s'.
Proof. intros Hw. by eapply (still_said (sv_retry sv)), wobble_still. Qed.

Lemma wp_routing m s : moves (px_env x) m → fine s → wp x (routing sv m) (targeted routed_handle s) s.
Proof.
  intros Hm Hs. apply wp_bind, wp_lift_with; [done..|]. intros s1 rs a Hw E. destruct (wb_fine _ _ Hw) as [Hc Hb]. unfold bind in E.
  destruct (Hm (core (a_r s1)) Hb (a_r s1) (conj eq_refl Hc)) as (c & [<- Hc'] & Hr). destruct (m (px_env x) (a_r s1)) as [rs' r]. cbn in E, Hc', Hr. injection E as -> <-.
  pose proof (said_wobble _ _ (wobble_router _ _ _ Hw Hc' Hr)) as Hsd.
  destruct r as [h|i|e| |]; cbn; try (by split). destruct (r_routeds rs !! h) as [rt|] eqn:Hh; [|by split]. split; [done|]. by exists rt.
Qed.

Lemma wp_flushed {A B} (f : A → option nat) (g : B → option nat) s (o : Ret A) s1 (b : B) :
  targeted f s o s1 → (∀ a, o = Ok a → g b = f a) → (∃ a, o = Ok a) → wp x (flush_changes sv ;? pret b) (targeted g s) s1.
Proof.
  intros Ht Hg [a ->]. apply wp_bind, wp_flush; [done|apply Ht|]. intros s2 Hw. apply wp_ret. pose proof (targeted_wobble _ _ _ _ _ Ht Hw) as [Hs Ho]. split; [done|].
  by rewrite (Hg a eq_refl).
Qed.

Lemma wp_await fuel b req i began s : fine s → wp x (awaitSlot sv fuel b req i began) (targeted handle_of s) s.
Proof.
  revert b s. induction fuel as [|fuel IH]; intros b s Hs; cbn [awaitSlot]; [split; [by apply said_wobble, wobble_refl|done]|].
  apply wp_bind, wp_asks; [done..|]. intros n s1 Hw1. apply wp_bind, wp_lift; [done| |apply Hw1|].
  { destruct b; [apply moves_reroute, Hx|apply moves_await, Hx]. }
  intros r s2 Hw2. pose proof (wobble_trans _ _ _ Hw1 Hw2) as Hw. pose proof (said_wobble _ _ Hw) as Hsd.
  assert (∀ q, said 0 s (s2 <| a_trace := a_trace s2 ++ [EvQueueWaited q] |>)) as Hq.
  { intros q. apply (said_trans 0 0 s s2); [done|]. apply said_emit; [apply Hw|done..]. }
  destruct r as [h| | |e| | | |].
  2, 3, 8: eapply wp_mono; [apply IH, Hw|]; intros o s3 Ho; apply (targeted_trans (A := ()) (λ _, None) _ s (Ok ()) s2); [by split|done].
  4, 5: by split.
  - apply wp_bind, wp_emit, wp_bind, wp_gets. cbn. destruct (r_routeds (a_r s2) !! h) as [rt|] eqn:Hh; [|by split; [apply Hq|]]. split; [apply Hq|]. by exists rt.
  - apply wp_bind, wp_emit, wp_ret. split; [apply Hq|done].
  - apply wp_bind, wp_emit, wp_ret. split; [apply Hq|done].
Qed.

Lemma wp_first req tenant s : fine s → wp x (reserveFirstAttempt sv req tenant) (targeted handle_of s) s.
Proof.
  intros Hs. unfold reserveFirstAttempt, reserveAttempt. destruct (sv_res sv) as [rs|].
  - apply wp_bind. eapply wp_mono; [apply wp_routing; [apply moves_route, Hx|done]|]. intros o s1 Ht. destruct o as [r|b|]; [|by destruct Ht; split..].
    apply wp_bind. apply wp_mono with (Q := targeted handle_of s).
    + destruct r as [[t|i]|e]; [exact Ht|..|exact Ht]. destruct Ht as [Hsd _].
      apply wp_bind, wp_info. set (s2 := s1 <| a_info := _ |>). assert (said 0 s s2) as Hsd2.
      { apply (said_trans 0 0 s s1); [done|]. destruct (sd_fine _ _ _ Hsd). split; try done. exists []. by rewrite app_nil_r. }
      apply wp_bind, wp_now; [done|apply Hsd2|]. intros t s3 Hw3. eapply wp_mono; [apply (wp_await (px_waits x) false req i t s3), Hw3|]. intros o s4 [Hsd4 Ho].
      split; [|done]. apply (said_trans 0 0 s s2); [done|]. apply (said_trans 0 0 s2 s3); [by apply said_wobble|done].
    + intros o s2 Ht2. destruct o as [t|b|]; [|by destruct Ht2; split..]. eapply wp_flushed; [exact Ht2|by intros ? [= <-]|by eexists].
  - apply wp_bind. eapply wp_mono; [apply wp_routing; [apply moves_route, Hx|done]|]. intros o s1 Ht. destruct o as [r|b|]; [|by destruct Ht; split..].
    eapply wp_flushed; [exact Ht| |by eexists]. intros a [= <-]. by destruct r as [[]|].
Qed.

(** ** The whole. *)

Lemma Loop_arriving r : fine (arriving r) → Loop sv 1 (arriving r).
Proof.
  intros Hf. split; [by split|by apply Forall_nil|]. split; cbn; try done; [apply NoDup_nil_2|by case_match| |lia]. intros i e Hin. by apply elem_of_nil in Hin.
Qed.

Lemma Loop_said k s s' : said 0 s s' → a_runs s = [] → Loop sv k s → Loop sv k s' ∧ a_runs s' = [].
Proof.
  intros Hsd Hr [Hi _ Hs]. assert (a_runs s' = []) as Hr'.
  { pose proof (sd_runs _ _ _ Hsd) as E. rewrite Hr in E. by apply fmap_nil_inv in E. }
  split; [|done]. split; [by eapply Inv_said|rewrite Hr'; by apply Forall_nil|]. by apply (Sums_said sv k 0 0 s s').
Qed.

(** A request that never had a worker. *)
Lemma over_refused a (o : Ret bool) s s' :
  Loop sv 1 s → a_runs s = [] → said a s s' → 0 ≤ a ≤ 1 → (∀ b, o = Ok b → b = true ∧ (a = 1 ∨ a_gone s' = true)) → over sv x o s'.
Proof.
  intros Hl Hr Hsd Ha Hok. assert (a_runs s' = []) as Hr'.
  { pose proof (sd_runs _ _ _ Hsd) as E. rewrite Hr in E. by apply fmap_nil_inv in E. }
  pose proof (Sums_said _ _ _ _ _ _ Hsd (lp_sums _ _ _ Hl)) as [Hst Hnd Han Hbu Hre Hat Hbo]. rewrite Z.add_0_l in Han. rewrite Hr' in *. split.
  - split; [by rewrite Hst|rewrite Hst; cbn; lia|done|exists [], (a_trace s'); by rewrite Han, Hst|by rewrite Han|].
    exists 0. split_and!; [done..|]. rewrite Hbu, Hst. by case_match.
  - intros _. split; [by eapply Inv_said; [|apply Hl]|]. rewrite Hr'. intros _. by apply Forall_nil.
Qed.

Lemma wp_refused k r e q s :
  fine s → wp x (let? g := gone sv in if g then set_info (λ n, n <| in_clientClosed := true |>) else emit (EvRejected k r q) ;? foreign sv ;? fail e) (answered s) s.
Proof.
  intros Hs. apply wp_bind, wp_gone; [done..|]. intros s1 Hw. pose proof (said_wobble _ _ Hw) as Hd1. destruct (a_gone s1) eqn:Hg.
  - apply wp_info. exists 0. split_and!; [|done..|by right]. apply (said_trans 0 0 s s1); [done|]. destruct (wb_fine _ _ Hw). split; try done. exists []. by rewrite app_nil_r.
  - apply wp_bind. eapply wp_mono; [by apply (Mute_emit x (EvRejected k r q)); [..|apply Hw]|]. intros o s2 [_ Hd2]. pose proof (said_trans 0 0 _ _ _ Hd1 Hd2) as Hd.
    destruct o as [[]|b|]; [|by exists 0..]. apply wp_bind. eapply wp_mono; [apply (Mute_still sv x (foreign sv) (λ _, True)); [by apply Still_foreign|apply Hd2]|].
    intros o s3 [_ Hd3]. apply (said_trans 0 0 s s2 s3 Hd) in Hd3. destruct o as [[]|b|]; [|by exists 0..].
    eapply wp_mono; [apply wp_fail, Hd3|]. intros o s4 [-> Hd4]. exists 1. split_and!; [by apply (said_trans 0 1 s s3)|done..|by left].
Qed.
Lemma wp_forward req tenant r : fine (arriving r) → wp x (forwardRegistry sv req tenant) (over sv x) (arriving r).
Proof.
  intros Hf. set (s := arriving r) in *. pose proof (Loop_arriving r Hf) as Hl. apply wp_bind. apply wp_mono with (Q := λ o s', o = Ok () ∧ said 0 s s').
  { destruct (sv_res sv) as [rs|]; [|split; [done|by apply said_wobble, wobble_refl]]. apply wp_bind, wp_now; [done..|]. intros t s1 Hw. apply wp_info. split; [done|].
    apply (said_trans 0 0 s s1); [by apply said_wobble|]. destruct (wb_fine _ _ Hw). split; try done. exists []. by rewrite app_nil_r. }
  intros o s1 [-> Hd1]. destruct (Loop_said _ _ _ Hd1 eq_refl Hl) as [Hl1 Hr1]. apply wp_bind. eapply wp_mono; [apply wp_first, Hl1|]. intros o s2 [Hd2 Ht].
  destruct (Loop_said _ _ _ Hd2 Hr1 Hl1) as [Hl2 Hr2]. pose proof (said_wobble _ _ (wobble_refl s2 (sd_fine _ _ _ Hd2))) as Hd22.
  destruct o as [[t|e]|b|]; [| |by apply (over_refused 0 _ s2 s2)..].
  - destruct Ht as [rt Hrt]. apply wp_bind, wp_info. set (s3 := s2 <| a_info := _ |>). assert (said 0 s2 s3) as Hd3.
    { destruct (sd_fine _ _ _ Hd2). split; try done. exists []. by rewrite app_nil_r. }
    destruct (Loop_said _ _ _ Hd3 Hr2 Hl2) as [Hl3 Hr3]. apply wp_bind. apply wp_mono with (Q := λ o s', o = Ok () ∧ wobble s3 s').
    { unfold note_first. destruct (sv_res sv); [|split; [done|apply wobble_refl, Hd3]]. apply wp_bind, wp_call; [done|apply Hd3|]. intros ? s4 Hw. by apply wp_ret. }
    intros o s4 [-> Hw4]. destruct (Loop_said _ _ _ (said_wobble _ _ Hw4) Hr3 Hl3) as [Hl4 Hr4].
    destruct (csteps_handle _ _ _ _ (fn_bounded _ (sd_fine _ _ _ Hd3)) (wb_steps _ _ Hw4) Hrt) as (rt' & Hrt' & _). by eapply wp_serve.
  - assert (∀ m, wp x m (answered s2) s2 → wp x (m ;? pret true) (over sv x) s2) as Hfin.
    { intros m Hm. apply wp_bind. eapply wp_mono; [exact Hm|]. intros o s3 (a & Hd & Ha & Hok).
      destruct o as [[]|b|]; [apply wp_ret|..]; apply (over_refused a _ s2 s3); try done. intros b [= <-]. split; [done|by apply Hok]. }
    apply Hfin. destruct (String.eqb (ro_shed e) ""); [|apply wp_refused, Hd2]. unfold refuseNoWorker. apply wp_bind.
    apply wp_mono with (Q := λ o s', o = Ok () ∧ said 0 s2 s').
    { destruct (String.eqb _ _); [|done]. apply wp_info. split; [done|]. destruct (sd_fine _ _ _ Hd2). split; try done. exists []. by rewrite app_nil_r. }
    intros o s3 [-> Hd3]. eapply wp_mono; [apply wp_refused, Hd3|]. intros o s4 (a & Hd & Ha & Hok). exists a. split_and!; [|lia..|done]. by apply (said_trans 0 a s2 s3).
Qed.
End First.

Lemma forward_over `{GoPlatform} `{GoMapOrder} `{GoMath} `{UrlParser} sv x req tenant r :
  aenv_ok x → router_reach (sv_router sv) r → over sv x (forwardRegistry sv req tenant x (arriving r)).2 (forwardRegistry sv req tenant x (arriving r)).1.
Proof.
  intros Hx Hr. destruct (router_steps _ _ Hr) as (Hc & Hb & _). apply (wp_forward sv x Hx req tenant r). split; [apply Hc|done].
Qed.

(** ** The relayed bytes. *)

Definition written (tr : list Ev) : list Z := concat (omap (λ e, match e with EvWrote b => Some b | _ => None end) tr).

Lemma written_app t t' : written (t ++ t') = written t ++ written t'.
Proof. unfold written. by rewrite omap_app, concat_app. Qed.

Definition last4 (l : list Z) : list Z := drop (length l - 4) l.

Lemma keep_last4 l b : keep_tail (last4 l) b = last4 (l ++ b).
Proof.
  unfold keep_tail, last4. rewrite !length_app, length_drop. destruct (decide (length l ≤ 4)%nat).
  - by replace (length l - 4)%nat with 0%nat by lia; rewrite drop_0; replace (length l - 0)%nat with (length l) by lia.
  - rewrite !drop_app, !length_drop. rewrite drop_drop. f_equal; f_equal; lia.
Qed.

Lemma suffix_last4 l suffix : (length suffix ≤ 4)%nat → has_suffix (last4 l) suffix = has_suffix l suffix.
Proof.
  intros Hs. unfold has_suffix, last4. rewrite length_drop, drop_drop. destruct (Nat.leb_spec (length suffix) (length l)) as [Hl|Hl].
  - rewrite (proj2 (Nat.leb_le _ _)) by lia. by replace (length l - 4 + (length l - (length l - 4) - length suffix))%nat with (length l - length suffix)%nat by lia.
  - by rewrite (proj2 (Nat.leb_gt _ _)) by lia.
Qed.

Lemma error_event_last4 l : error_event (last4 l) = error_event l.
Proof.
  unfold error_event. rewrite !suffix_last4 by (cbn; lia). replace (0 <? length (last4 l))%nat with (0 <? length l)%nat; [done|].
  unfold last4. rewrite length_drop. destruct (Nat.ltb_spec 0 (length l)), (Nat.ltb_spec 0 (length l - (length l - 4))); lia || done.
Qed.

Lemma has_suffix_app l suffix : has_suffix (l ++ suffix) suffix = true.
Proof.
  unfold has_suffix. rewrite length_app, (proj2 (Nat.leb_le _ _)) by lia. replace (length l + length suffix - length suffix)%nat with (length l) by lia.
  by rewrite drop_app_length, bool_decide_eq_true_2.
Qed.

(** The error event starts an event of its own. *)
Lemma error_event_framed l : ∃ sep, error_event l = sep ++ bytes "data: " ++ plain_body ErrInferenceFailed ++ lf2 ∧
  (l ++ sep = [] ∨ has_suffix (l ++ sep) lf2 = true ∨ has_suffix (l ++ sep) crlf2 = true).
Proof.
  unfold error_event. eexists. split; [done|]. destruct (Nat.ltb_spec 0 (length l)) as [Hl|Hl].
  - cbn [andb]. destruct (has_suffix l lf2) eqn:H1; [cbn; rewrite app_nil_r; auto|]. destruct (has_suffix l crlf2) eqn:H2; [cbn; rewrite app_nil_r; auto|].
    right. left. apply has_suffix_app.
  - left. destruct l; [done|cbn in Hl; lia].
Qed.

Section Relay.
Context `{GoPlatform} `{GoMapOrder} `{GoMath} `{UrlParser} (sv : Server) (x : AEnv).

(** Whether the client left, and the error code. *)
Definition outcome_of (s : AState) : bool * string := (in_clientClosed (a_info s), in_errCode (a_info s)).

(** The client got [w], and the outcome of the request did not change; who has left stays away. *)
Definition pumped (w : list Z) (s s' : AState) : Prop :=
  (∃ t, a_trace s' = a_trace s ++ t ∧ written t = w) ∧ outcome_of s' = outcome_of s ∧ (a_gone s = true → a_gone s' = true).

Lemma outcome_split s s' : outcome_of s' = outcome_of s → in_clientClosed (a_info s') = in_clientClosed (a_info s) ∧ in_errCode (a_info s') = in_errCode (a_info s).
Proof. by intros [= ? ?]. Qed.

Lemma pumped_refl s : pumped [] s s.
Proof. split; [exists []; by rewrite app_nil_r|done]. Qed.

Lemma step_gone s n r : a_gone s = true → a_gone s || env_cancelled (px_env x) n = r → r = true.
Proof. by intros -> <-. Qed.

Lemma pumped_trans w w' s1 s2 s3 : pumped w s1 s2 → pumped w' s2 s3 → pumped (w ++ w') s1 s3.
Proof. intros [(t & Ht & <-) [Hi Hg]] [(t' & Ht' & <-) [Hi' Hg']]. split; [|split; [congruence|auto]]. exists (t ++ t'). by rewrite Ht', Ht, (assoc app), written_app. Qed.

Lemma asks_pumped {A} (f : AEnv → nat → A) s : ∃ s' n, asks sv f x s = (s', Ok (f x n)) ∧ pumped [] s s'.
Proof. unfold asks, pbind, step. do 2 eexists. split; [done|]. split; [exists []; by rewrite app_nil_r|]. split; [done|]. intros Hg. by eapply step_gone. Qed.

Lemma foreign_pumped s : ∃ s' o, foreign sv x s = (s', o) ∧ pumped [] s s' ∧ (o = Ok () ∨ o = Panic false).
Proof.
  unfold foreign, pbind. destruct (asks_pumped px_panic s) as (s' & n & -> & Hp). destruct (px_panic x n); do 2 eexists; (split; [done|]); eauto.
Qed.

(** A pump whose [onData] writes nothing itself. *)
Lemma pump_writes {St} (onData : St → list Z → Pm St) (g : St → list Z → St) src end_ st s :
  (∀ st b s, ∃ s', onData st b x s = (s', Ok (g st b)) ∧ pumped [] s s') →
  ∃ s' st' out, pump sv onData st src end_ x s = (s', Ok (st', out)) ∧
    match out with
    | PumpDone => end_ = None ∧ pumped (concat src) s s' ∧ st' = foldl g st (filter (λ c, c ≠ []) src)
    | PumpErr e => end_ = Some e ∧ pumped (concat src) s s' ∧ st' = foldl g st (filter (λ c, c ≠ []) src)
    | PumpClientErr => ∃ w n, w `prefix_of` concat src ∧ pumped w s s' ∧ is_Some (px_write x n)
    end.
Proof.
  intros Hd. revert st s. induction src as [|[|b c] src IH]; intros st s; cbn [pump].
  - do 3 eexists. split; [done|]. destruct end_; (split_and!; [done|apply pumped_refl|done]).
  - apply IH.
  - unfold pbind. destruct (Hd st (b :: c) s) as (s1 & -> & Hp1). destruct (asks_pumped px_write s1) as (s2 & n & -> & Hp2).
    pose proof (pumped_trans _ _ _ _ _ Hp1 Hp2) as Hp12. cbn [emit pmodify]. set (s3 := s2 <| a_trace := _ |>).
    assert (pumped (delivered (px_write x n) (b :: c)) s2 s3) as Hp3.
    { split; [exists [EvWrote (delivered (px_write x n) (b :: c))]; split; [done|]|done]. unfold written. cbn. by rewrite app_nil_r. }
    pose proof (pumped_trans _ _ _ _ _ Hp12 Hp3) as Hp. cbn [app] in Hp. destruct (px_write x n) as [k|] eqn:Hf.
    + do 3 eexists. split; [done|]. eexists _, n. split_and!; [|exact Hp|by rewrite Hf]. cbn [delivered concat]. apply prefix_app_r, prefix_take.
    + cbn [delivered] in Hp. destruct (IH (g st (b :: c)) s3) as (s' & st' & out & -> & Ho). do 3 eexists. split; [done|].
      rewrite filter_cons_True by done. destruct out.
      * destruct Ho as (? & Hp' & ?). split_and!; [done| |done]. by apply (pumped_trans _ _ _ _ _ Hp Hp').
      * destruct Ho as (w & m & Hw & Hp' & Hm). exists ((b :: c) ++ w), m. split_and!; [by apply prefix_app| |done]. by apply (pumped_trans _ _ _ _ _ Hp Hp').
      * destruct Ho as (? & Hp' & ?). split_and!; [done| |done]. by apply (pumped_trans _ _ _ _ _ Hp Hp').
Qed.

Lemma concat_nonempty (src : list (list Z)) : concat (filter (λ c, c ≠ []) src) = concat src.
Proof. induction src as [|[|b c] src IH]; [done| |]; [by rewrite filter_cons_False by auto|rewrite filter_cons_True by done; cbn; by rewrite IH]. Qed.

Lemma stream_data_pumped st b s : ∃ s', stream_data st b x s = (s', Ok (false, keep_tail st.1.2 b, scan_feed st.2 b)) ∧ pumped [] s s'.
Proof.
  destruct st as [[first tl] sc]. destruct first; cbn; eexists; (split; [done|]); [|apply pumped_refl]. split; [by exists [EvFirstToken]|done].
Qed.

Lemma stream_tail st l : (foldl (λ (st : bool * list Z * option tokenScanner) b, (false, keep_tail st.1.2 b, scan_feed st.2 b)) st l).1.2 = foldl keep_tail st.1.2 l.
Proof. revert st. induction l as [|b l IH]; intros st; [done|]. cbn [foldl]. by rewrite IH. Qed.

Lemma fold_tail l0 l : foldl keep_tail (last4 l0) l = last4 (l0 ++ concat l).
Proof. revert l0. induction l as [|b l IH]; intros l0; cbn; [by rewrite app_nil_r|]. by rewrite keep_last4, IH, (assoc app). Qed.

(** How a response that is not a redirect is relayed, from [full] bytes. *)
Definition relayed (resp : Response) (full : list Z) (s : AState) (o : Ret ()) (s' : AState) : Prop :=
  ∃ t, a_trace s' = a_trace s ++ t ∧
    (o = Ok () → in_clientClosed (a_info s') = false →
      match re_end resp with
      | None => written t = full
      | Some _ => re_sse resp = true ∧ in_errCode (a_info s') = CodeInferenceFailed ∧ ∃ n, written t = full ++ delivered (px_write x n) (error_event full)
      end) ∧
    (o = Panic true → re_sse resp = false ∧ is_Some (re_end resp) ∧ in_errCode (a_info s') = CodeInferenceFailed ∧ written t = full) ∧
    (in_clientClosed (a_info s') = true → written t `prefix_of` full ∧ (a_gone s' = true ∨ ∃ n, is_Some (px_write x n))).

Lemma relayed_last resp full s o s1 s2 : relayed resp full s o s1 → pumped [] s1 s2 → relayed resp full s o s2 ∧ relayed resp full s (Panic false) s2.
Proof.
  intros (t & Ht & Hok & Hpa & Hcl) [(t' & Ht' & Hw) [[= Hc He] Hg]].
  assert (a_trace s2 = a_trace s ++ t ++ t') as Ht2 by (by rewrite Ht', Ht, (assoc app)). assert (written (t ++ t') = written t) as Hwr by (by rewrite written_app, Hw, app_nil_r).
  split; exists (t ++ t'); rewrite Hwr, Hc, He; (split_and!; [done..|]); intros Hcc; destruct (Hcl Hcc) as [? [?|?]]; auto.
Qed.

(** Nothing was lost before a failure that ends the relay in a panic. *)
Lemma relayed_panic resp full s w s' : in_clientClosed (a_info s) = false → pumped w s s' → relayed resp full s (Panic false) s'.
Proof. intros Hc [(t & Ht & _) [[= Hc' _] _]]. exists t. split; [done|]. split_and!; [done..|]. by rewrite Hc', Hc. Qed.

Lemma relayed_closed resp full s w s' : pumped w s s' → w `prefix_of` full → a_gone s' = true ∨ (∃ n, is_Some (px_write x n)) →
  relayed resp full s (Ok ()) (s' <| a_info := (a_info s') <| in_clientClosed := true |> |>).
Proof. intros [(t & Ht & <-) _] Hw Hg. exists t. split; [done|]. by split_and!. Qed.

Lemma set_tokens_pumped scan b s : ∃ s', set_tokens scan b x s = (s', Ok ()) ∧ pumped [] s s'.
Proof. unfold set_tokens. destruct scan; cbn; eexists; (split; [done|]); (split; [exists []; by rewrite app_nil_r|done]). Qed.

Lemma gone_pumped s : ∃ s', gone sv x s = (s', Ok (a_gone s')) ∧ pumped [] s s'.
Proof. unfold gone, pbind, step. cbn. eexists. split; [done|]. split; [exists []; by rewrite app_nil_r|]. split; [done|]. intros Hg. by eapply step_gone. Qed.

Lemma pumped_nil w s1 s2 s3 : pumped w s1 s2 → pumped [] s2 s3 → pumped w s1 s3.
Proof. intros Hp1 Hp2. rewrite <-(app_nil_r w). by eapply pumped_trans. Qed.

Lemma stream_relayed resp scan src s : re_sse resp = true → in_clientClosed (a_info s) = false →
  ∃ s' o, relayStream sv scan src (re_end resp) x s = (s', o) ∧ relayed resp (concat src) s o s'.
Proof.
  intros Hsse Hc. unfold relayStream, pbind.
  destruct (pump_writes stream_data (λ st b, (false, keep_tail st.1.2 b, scan_feed st.2 b)) src (re_end resp) (true, [], scan) s stream_data_pumped)
    as (s1 & [[fi tl] sc] & out & -> & Ho). destruct (set_tokens_pumped sc true s1) as (s2 & -> & Hp2). destruct out as [| |e].
  - destruct Ho as (He & Hp & _). do 2 eexists. split; [done|]. destruct (pumped_nil _ _ _ _ Hp Hp2) as [(t & Ht & Hw) [[= Hc' _] _]]. exists t. rewrite He, Hc', Hc. by split_and!.
  - destruct Ho as (w & n & Hw & Hp & Hn). do 2 eexists. split; [done|]. eapply relayed_closed; [by eapply pumped_nil|done|right; by exists n].
  - destruct Ho as (He & Hp & Hst). pose proof (pumped_nil _ _ _ _ Hp Hp2) as Hp12. destruct (gone_pumped s2) as (s3 & -> & Hp3). pose proof (pumped_nil _ _ _ _ Hp12 Hp3) as Hp13.
    destruct (a_gone s3) eqn:Hgone; [do 2 eexists; split; [done|]; eapply relayed_closed; [done|done|by left]|]. cbn [set_info pmodify]. set (s4 := s3 <| a_info := _ |>).
    assert (∃ t, a_trace s4 = a_trace s ++ t ∧ written t = concat src) as (t & Ht & Hw) by apply Hp13. assert (in_clientClosed (a_info s4) = false) as Hc4 by (destruct Hp13 as [_ [[= Hc' _] _]]; by rewrite <-Hc).
    destruct (foreign_pumped s4) as (s5 & o5 & -> & [(t5 & Ht5 & Hw5) [Ho5 _]] & [->| ->]).
    2: { do 2 eexists. split; [done|]. exists (t ++ t5). split; [by rewrite Ht5, Ht, (assoc app)|]. split_and!; [done..|]. apply outcome_split in Ho5 as [-> _]. by rewrite Hc4. }
    destruct (asks_pumped px_write s5) as (s6 & n & -> & [(t6 & Ht6 & Hw6) [Ho6 _]]). do 2 eexists. split; [done|].
    assert (error_event tl = error_event (concat src)) as ->.
    { pose proof (f_equal (λ st, st.1.2) Hst) as Htl. cbn in Htl. rewrite stream_tail in Htl. cbn in Htl.
      rewrite Htl. change [] with (last4 []) at 1. by rewrite fold_tail, error_event_last4, concat_nonempty. }
    exists (t ++ (t5 ++ t6) ++ [EvWrote (delivered (px_write x n) (error_event (concat src)))]).
    apply outcome_split in Ho5 as [Hc5 He5], Ho6 as [Hc6 He6]. cbn. rewrite Ht6, Ht5, Ht, !(assoc app). split; [done|].
    rewrite He, Hc6, He6, Hc5, He5, Hc4. split_and!; [|done|done]. intros _ _. split_and!; [done|done|]. exists n.
    rewrite !written_app, Hw, Hw5, Hw6. unfold written. cbn. by rewrite !app_nil_r.
Qed.

Lemma body_data_pumped sc b s : ∃ s', body_data sc b x s = (s', Ok (scan_feed sc b)) ∧ pumped [] s s'.
Proof. eexists. split; [done|apply pumped_refl]. Qed.

(** A body that is not a stream of events. *)
Lemma body_relayed resp scan src s : re_sse resp = false → in_clientClosed (a_info s) = false →
  ∃ s' o, (let? r := pump sv body_data scan src (re_end resp) in
           set_tokens r.1 false ;?
           match r.2 with
           | PumpDone => pret ()
           | PumpClientErr => set_info (λ n, n <| in_clientClosed := true |>)
           | PumpErr e =>
               let? g := gone sv in
               if g then set_info (λ n, n <| in_clientClosed := true |>)
               else set_info (λ n, n <| in_errCode := CodeInferenceFailed |>) ;? foreign sv ;? panic true
           end) x s = (s', o) ∧ relayed resp (concat src) s o s'.
Proof.
  intros Hsse Hc. unfold pbind. destruct (pump_writes body_data scan_feed src (re_end resp) scan s body_data_pumped) as (s1 & sc & out & -> & Ho).
  cbn [fst snd]. destruct (set_tokens_pumped sc false s1) as (s2 & -> & Hp2). destruct out as [| |e].
  - destruct Ho as (He & Hp & _). do 2 eexists. split; [done|]. destruct (pumped_nil _ _ _ _ Hp Hp2) as [(t & Ht & Hw) [[= Hc' _] _]]. exists t. rewrite He, Hc', Hc. by split_and!.
  - destruct Ho as (w & n & Hw & Hp & Hn). do 2 eexists. split; [done|]. eapply relayed_closed; [by eapply pumped_nil|done|right; by exists n].
  - destruct Ho as (He & Hp & _). pose proof (pumped_nil _ _ _ _ Hp Hp2) as Hp12. destruct (gone_pumped s2) as (s3 & -> & Hp3). pose proof (pumped_nil _ _ _ _ Hp12 Hp3) as Hp13.
    destruct (a_gone s3) eqn:Hgone; [do 2 eexists; split; [done|]; eapply relayed_closed; [done|done|by left]|]. cbn [set_info pmodify]. set (s4 := s3 <| a_info := _ |>).
    assert (∃ t, a_trace s4 = a_trace s ++ t ∧ written t = concat src) as (t & Ht & Hw) by apply Hp13. assert (in_clientClosed (a_info s4) = false) as Hc4 by (destruct Hp13 as [_ [[= Hc' _] _]]; by rewrite <-Hc).
    destruct (foreign_pumped s4) as (s5 & o5 & -> & [(t5 & Ht5 & Hw5) [[Hc5 He5]%outcome_split _]] & Ho5).
    assert (a_trace s5 = a_trace s ++ t ++ t5) as Ht' by (by rewrite Ht5, Ht, (assoc app)).
    destruct Ho5 as [->| ->]; do 2 eexists; (split; [done|]); exists (t ++ t5); rewrite Hc5, He5, Hc4, He, written_app, Hw, Hw5, app_nil_r; by split_and!.
Qed.

Lemma relay_relayed resp src s : in_clientClosed (a_info s) = false → ¬ (300 ≤ re_StatusCode resp < 400) →
  ∃ s' o, relay sv resp src x s = (s', o) ∧ relayed resp (concat (src ++ re_body resp)) s o s'.
Proof.
  intros Hc Hcode. unfold relay, finally. replace (_ && _) with false by (symmetry; apply andb_false_iff; lia). unfold pbind at 1 2. cbn [pgets emit pmodify].
  set (s1 := s <| a_trace := _ |>). assert (pumped [] s s1) as Hp by (split; [by eexists|done]).
  assert (∀ o s', relayed resp (concat (src ++ re_body resp)) s1 o s' → relayed resp (concat (src ++ re_body resp)) s o s') as Hs1.
  { intros o s' (t & Ht & Hr). exists (EvHead (re_StatusCode resp) (length (in_attempts (a_info s))) :: t). split; [by rewrite Ht; cbn; rewrite <-(assoc app)|done]. }
  set (scan := if _ : bool then Some newScanner else None).
  assert (∃ s2 o, (if re_sse resp then _ else _) x s1 = (s2, o) ∧ relayed resp (concat (src ++ re_body resp)) s o s2) as (s2 & o & -> & Hr2).
  { destruct (re_sse resp) eqn:Hsse; [destruct (stream_relayed resp scan (src ++ re_body resp) s1 Hsse Hc) as (s2 & o & ? & Hr)
      |destruct (body_relayed resp scan (src ++ re_body resp) s1 Hsse Hc) as (s2 & o & ? & Hr)]; eauto. }
  destruct (foreign_pumped s2) as (s3 & o3 & Hf & Hp3 & Ho3). destruct (relayed_last _ _ _ _ _ _ Hr2 Hp3) as [Hr3 Hr3'].
  destruct o as [[]|b|]; [| |do 2 eexists; split; [done|done]]; rewrite Hf; destruct Ho3 as [->| ->]; eauto.
Qed.

(** A computation that returns, or aborts the connection. *)
Definition returns {A} (m : Pm A) : Prop := ∀ s, (m x s).2 ≠ Hang ∧ (m x s).2 ≠ Panic false.

Lemma returns_ok {A} (m : Pm A) : (∀ s, ∃ a, (m x s).2 = Ok a) → returns m.
Proof. intros Hm s. destruct (Hm s) as [a ->]. done. Qed.

Lemma returns_bind {A B} (m : Pm A) (f : A → Pm B) : returns m → (∀ a, returns (f a)) → returns (pbind m f).
Proof. intros Hm Hf s. specialize (Hm s). unfold pbind. destruct (m x s) as [s' [a|b|]]; [apply Hf|..]; cbn in *; (split; [naive_solver|]); [intros [= ->]; naive_solver|done]. Qed.

Lemma returns_finally {A} (m : Pm A) d : returns m → (∀ s, ∃ a, (d x s).2 = Ok a) → returns (finally m d).
Proof. intros Hm Hd s. specialize (Hm s). unfold finally. cbn in Hm. destruct (m x s) as [s' [a|[]|]]; cbn in Hm; [| |naive_solver..]; destruct (Hd s') as [u Hu]; destruct (d x s') as [s'' o]; cbn in Hu; by subst. Qed.

Lemma returns_asks {A} (f : AEnv → nat → A) : returns (asks sv f).
Proof. apply returns_ok. intros s. destruct (asks_pumped f s) as (s' & n & -> & _). by eexists. Qed.

Lemma foreign_calm s : (∀ n, px_panic x n = false) → ∃ a, (foreign sv x s).2 = Ok a.
Proof. intros Hp. unfold foreign, pbind. destruct (asks_pumped px_panic s) as (s' & n & -> & _). rewrite Hp. by eexists. Qed.

Lemma returns_pump {St} (onData : St → list Z → Pm St) src end_ st : (∀ st b, returns (onData st b)) → returns (pump sv onData st src end_).
Proof.
  intros Hd. revert st. induction src as [|[|b c] src IH]; intros st; cbn [pump]; [apply returns_ok; by eexists|apply IH|].
  apply returns_bind; [apply Hd|intros st']. apply returns_bind; [apply returns_asks|intros fault]. apply returns_bind; [apply returns_ok; by eexists|intros _].
  destruct fault; [apply returns_ok; by eexists|apply IH].
Qed.

Lemma relay_returns resp src : (∀ n, px_panic x n = false) → returns (relay sv resp src).
Proof.
  intros Hp. assert (returns (foreign sv)) as Hf by (apply returns_ok; intros s; by apply foreign_calm).
  assert (∀ f, returns (set_info f)) as Hi by (intros f; apply returns_ok; by eexists). assert (∀ e, returns (emit e)) as He by (intros e; apply returns_ok; by eexists).
  assert (∀ A (a : A), returns (pret a)) as Hr by (intros A a; apply returns_ok; by eexists). assert (∀ A (f : AState → A), returns (pgets f)) as Hg by (intros A f; apply returns_ok; by eexists).
  assert (returns (gone sv)) as Hgo by (apply returns_ok; intros s; destruct (gone_pumped s) as (s' & -> & _); by eexists).
  assert (∀ sc b, returns (set_tokens sc b)) as Ht by (intros [] b; [apply Hi|apply Hr]). assert (returns (panic (A := ()) true)) as Hab by done.
  apply returns_finally; [|intros s; by apply foreign_calm].
  destruct (_ && _); [apply returns_bind; [done|intros _]; unfold fail; repeat (apply returns_bind; [done|intros ?]); done|].
  do 2 (apply returns_bind; [done|intros ?]). destruct (re_sse resp); (apply returns_bind; [apply returns_pump|]).
  - intros [[[] tl] sc] b; cbn [stream_data]; (apply returns_bind; [done|intros _; apply Hr]).
  - intros [[[fi tl] sc] out]. apply returns_bind; [done|intros _]. destruct out; [done..|]. apply returns_bind; [done|intros []]; [done|].
    repeat (apply returns_bind; [done || apply returns_asks|intros ?]). done.
  - intros sc b. apply Hr.
  - intros [sc out]. apply returns_bind; [done|intros _]. destruct out; [done..|]. apply returns_bind; [done|intros []]; [done|].
    by repeat (apply returns_bind; [done|intros _]).
Qed.
End Relay.

(** ** The theorems. *)

(** C4: every attempt of a request is closed exactly once, however the request ends.  For every
    environment, an attempt goes through its life in order (started, sent, its verdict given to the
    breaker or its ticket returned, its slot given back, its end reported), no step happens
    twice or out of turn, and when the request returns or panics each attempt that was started has
    gone through all of it and its slot is released, unless a panic comes out of the cleanup itself. *)
Theorem attempts_closed `{GoPlatform} `{GoMapOrder} `{GoMath} `{UrlParser} sv x req tenant r :
  aenv_ok x → router_reach (sv_router sv) r →
  let '(s, o) := forwardRegistry sv req tenant x (arriving r) in
  o ≠ Hang →
  (∀ i, life (res_on sv) i (a_trace s) ≠ Bad) ∧
  ((∀ n, px_closePanic x n = false) →
    (∀ i, life (res_on sv) i (a_trace s) = if (i <? length (a_runs s))%nat then Closed else Fresh) ∧
    (∀ i run, a_runs s !! i = Some run → ∃ rt, r_routeds (a_r s) !! ar_target run = Some rt ∧ rt_released rt = true)).
Proof.
  intros Hx Hr. pose proof (forward_over sv x req tenant r Hx Hr) as [_ Ho]. destruct (forwardRegistry _ _ _ _ _) as [s o]. cbn [fst snd] in *.
  intros Hh. destruct (Ho Hh) as [Hinv Hend]. assert (∀ i, life (res_on sv) i (a_trace s) = from_option phase_of Fresh (a_runs s !! i)) as Hlife.
  { intros i. destruct (a_runs s !! i) as [run|] eqn:Hi; [by apply (iv_life _ _ _ Hinv)|]. apply (iv_fresh _ _ _ Hinv). by apply lookup_ge_None. }
  split; [intros i; rewrite Hlife; destruct (a_runs s !! i) as [run|]; [|done]; cbn; unfold phase_of; by repeat case_match|].
  intros Hcp. pose proof (Hend Hcp) as Hall. rewrite Forall_lookup in Hall. split.
  - intros i. rewrite Hlife. destruct (Nat.ltb_spec i (length (a_runs s))) as [Hi|Hi]; [|by rewrite (proj2 (lookup_ge_None _ _))].
    apply lookup_lt_is_Some in Hi as [run Hi]. rewrite Hi. cbn. unfold phase_of. by rewrite (Hall _ _ Hi).
  - intros i run Hi. destruct (iv_handle _ _ _ Hinv _ _ Hi) as (rt & Hrt & Hf). exists rt. split; [done|]. apply Hf. rewrite Hlife, Hi. cbn. unfold phase_of. by rewrite (Hall _ _ Hi).
Qed.

(** C9: the rules of retrying.  For every environment and however the request ends: no worker is
    tried twice, at most [max] attempts are started (one when the policy says less), an attempt
    gives way to another one only for a failure the policy allows, and no attempt is started once
    the client has been answered, which happens at most once.  A request that returns has
    answered its client or lost it, and its loop ended within the bound. *)
Theorem retry_rules `{GoPlatform} `{GoMapOrder} `{GoMath} `{UrlParser} sv x req tenant r :
  aenv_ok x → router_reach (sv_router sv) r →
  let '(s, o) := forwardRegistry sv req tenant x (arriving r) in
  NoDup (starts (a_trace s)) ∧
  Z.of_nat (length (starts (a_trace s))) ≤ Z.max 1 (rp_max (sv_retry sv)) ∧
  retries_ok (sv_retry sv) (a_trace s) ∧
  (∃ before after, a_trace s = before ++ after ∧ answers before = 0 ∧ 0 ≤ answers after ≤ 1 ∧ starts after = []) ∧
  (∀ b, o = Ok b → b = true ∧ (answers (a_trace s) = 1 ∨ a_gone s = true)).
Proof.
  intros Hx Hr. pose proof (forward_over sv x req tenant r Hx Hr) as [[] _]. destruct (forwardRegistry _ _ _ _ _) as [s o]. by split_and!.
Qed.

(** C27: the budget is charged for exactly the retries that are sent.  When the request returns, or
    has answered, the reservations it made and did not refund are as many as the attempts after
    the first; a panic between the two leaves at most one more. *)
Theorem budget_balanced `{GoPlatform} `{GoMapOrder} `{GoMath} `{UrlParser} sv x req tenant r :
  aenv_ok x → router_reach (sv_router sv) r →
  let '(s, o) := forwardRegistry sv req tenant x (arriving r) in
  let charged := reserved (a_trace s) - refunded (a_trace s) in
  let retries := if res_on sv then Z.max 0 (Z.of_nat (length (starts (a_trace s))) - 1) else 0 in
  retries ≤ charged ≤ retries + 1 ∧ ((∃ b, o = Ok b) ∨ answers (a_trace s) = 1 → charged = retries).
Proof.
  intros Hx Hr. pose proof (forward_over sv x req tenant r Hx Hr) as [HF _]. destruct (forwardRegistry _ _ _ _ _) as [s o]. cbn [fst snd] in HF.
  destruct (fi_budget _ _ _ HF) as (k & Hk & Hz & ->). destruct (res_on sv); [|split; lia]. split; [lia|]. intros Hd. specialize (Hz Hd). lia.
Qed.

(** C19: a relayed body reaches the client as it is.  Of a response that is no redirect, what was put
    back and what the body has are written in order: all of it when the body ends well and the client
    stays; all of it when a body that is not a stream of events breaks, and the handler then
    aborts the connection; all of it when an event stream breaks, followed by one event that says
    so and starts after a blank line, of which less is written only when that very write fails; a
    prefix when the client leaves, which it is taken to have done only if its context has ended or
    a write to it failed.  When no recorder and no body panics, it ends in one of these ways. *)
Theorem relay_intact `{GoPlatform} `{GoMapOrder} `{GoMath} `{UrlParser} sv x resp src s :
  in_clientClosed (a_info s) = false → ¬ (300 ≤ re_StatusCode resp < 400) →
  let full := concat (src ++ re_body resp) in
  let '(s', o) := relay sv resp src x s in
  ((∀ n, px_panic x n = false) → o = Ok () ∨ o = Panic true) ∧
  ∃ t, a_trace s' = a_trace s ++ t ∧
    (o = Ok () → in_clientClosed (a_info s') = false → re_end resp = None → written t = full) ∧
    (o = Ok () → in_clientClosed (a_info s') = false → is_Some (re_end resp) →
      re_sse resp = true ∧ in_errCode (a_info s') = CodeInferenceFailed ∧
      ∃ sep, let event := sep ++ bytes "data: " ++ plain_body ErrInferenceFailed ++ lf2 in
        (full ++ sep = [] ∨ has_suffix (full ++ sep) lf2 = true ∨ has_suffix (full ++ sep) crlf2 = true) ∧
        (written t = full ++ event ∨ ∃ n k, px_write x n = Some k ∧ written t = full ++ take k event)) ∧
    (o = Panic true → re_sse resp = false ∧ is_Some (re_end resp) ∧ in_errCode (a_info s') = CodeInferenceFailed ∧ written t = full) ∧
    (in_clientClosed (a_info s') = true → written t `prefix_of` full ∧ (a_gone s' = true ∨ ∃ n, is_Some (px_write x n))).
Proof.
  intros Hc Hcode full. destruct (relay_relayed sv x resp src s Hc Hcode) as (s' & o & Hrel & t & Ht & Hok & Hpa & Hcl). rewrite Hrel.
  split; [intros Hp; destruct (relay_returns sv x resp src Hp s) as [Hh Hf]; rewrite Hrel in Hh, Hf; destruct o as [[]|[]|]; cbn in *; by auto|]. exists t.
  split_and!; [done| | |done|done]; intros Ho Hc'; specialize (Hok Ho Hc').
  - intros He. by rewrite He in Hok.
  - intros [e He]. rewrite He in Hok. destruct Hok as (? & ? & n & Hw). split_and!; [done..|]. destruct (error_event_framed full) as (sep & Hsep & Hf). exists sep.
    split; [done|]. rewrite <-Hsep. destruct (px_write x n) as [k|] eqn:Hk; [right; by exists n, k|by left].
Qed.

(** ** Witnesses. *)

(** A world with resilience on: no breaker open, a budget of ten retries. *)
Definition b_res : Res := mkRes (NewBreakers d_params) (NewBudget (mkBudgetParams f1 10 Second 1)) (NewQueue (mkQueueParams 0 0 f0 0)) ∅ 0 [] 0 false.

Definition b_new : RState := mkRState (mkWorld r_cache (Some b_res) (Some (Tracker.New a_cfg))) ∅ ∅ ∅ 0 0.

Definition busy : Response := mkResponse 503 false [bytes "busy"] None.
Definition broken : Response := mkResponse 200 true [[]; bytes "data: 1"] (Some errEOF).

(** The first call is answered with a 503, the next with a stream that breaks. *)
Definition b_env (deadline : bool) (p c : nat → bool) : AEnv :=
  mkAEnv r_env (λ _, []) (λ _ _, deadline) (λ _ _, false) (λ _ _, false) (λ n, inr (if (n <? 30)%nat then busy else broken)) (λ _, None) (λ _, CaseTimeout)
    (λ _, f0) (λ _, None) p c 4.

Definition never (_ : nat) : bool := false.

Definition b_sv : Server := mkServer r_cfg (newRetryPolicy 2 [502; 503]) (Some (mkResCfg (30 * Second) Second (5 * Second) Second)).

Definition b_run (p c : nat → bool) : AState * Ret bool := @forwardRegistry amd64 order_id half_math no_urls b_sv a_req "t" (b_env false p c) (arriving b_new).

Lemma b_env_ok d p c : aenv_ok (b_env d p c).
Proof. split; [by intros ?|]. intros n. constructor. Qed.

Lemma b_reach : @router_reach _ amd64 order_id half_math no_urls r_cfg b_new.
Proof. by apply reach_new, r_cache_ok. Qed.

(** The whole request: a 503 of "a", a retry on "b", and the stream of "b" up to where it breaks. *)
Example retried_request :
  let '(s, o) := b_run never never in
  o = Ok true ∧ starts (a_trace s) = ["a"; "b"] ∧ reserved (a_trace s) = 1 ∧ refunded (a_trace s) = 0 ∧
  written (a_trace s) = bytes "data: 1" ++ error_event (bytes "ta: 1") ∧
  rec_Outcome <$> in_attempts (a_info s) = [outcomeRetried; outcomeFailed].
Proof. vm_compute. by split_and!. Qed.

(** Two panics: the log handler's as the second attempt starts, and one in the cleanup of the first
    attempt.  The second attempt is never closed and its slot stays taken. *)
Example second_panic_leaks :
  let '(s, o) := b_run (Nat.eqb 66) (λ _, true) in
  o = Panic false ∧ life true 0 (a_trace s) = Closed ∧ life true 1 (a_trace s) = Started ∧ default 0 (r_inflight (a_r s) !! "b") = 1.
Proof. vm_compute. by split_and!. Qed.

Lemma attempts_closed_witness :
  (b_run never never).2 = Ok true ∧ ∀ i, life true i (a_trace (b_run never never).1) = if (i <? length (a_runs (b_run never never).1))%nat then Closed else Fresh.
Proof.
  assert ((b_run never never).2 = Ok true) as Ho by (vm_compute; reflexivity). split; [done|].
  pose proof (@attempts_closed amd64 order_id half_math no_urls b_sv (b_env false never never) a_req "t" b_new (b_env_ok _ _ _) b_reach) as Hc.
  unfold b_run in *. destruct (forwardRegistry _ _ _ _ _) as [s o]. cbn [fst snd] in *. subst. destruct Hc as [_ Hc]; [done|]. by apply Hc.
Defined.

Lemma retry_rules_witness : NoDup ["a"; "b"] ∧ retries_ok (newRetryPolicy 2 [502; 503]) (a_trace (b_run never never).1).
Proof.
  assert (starts (a_trace (b_run never never).1) = ["a"; "b"]) as Hs by (vm_compute; reflexivity).
  pose proof (@retry_rules amd64 order_id half_math no_urls b_sv (b_env false never never) a_req "t" b_new (b_env_ok _ _ _) b_reach) as Hc.
  unfold b_run in *. destruct (forwardRegistry _ _ _ _ _) as [s o]. cbn [fst snd] in *. rewrite Hs in Hc. split; apply Hc.
Defined.

Lemma budget_balanced_witness : reserved (a_trace (b_run never never).1) - refunded (a_trace (b_run never never).1) = 1.
Proof.
  assert ((b_run never never).2 = Ok true) as Ho by (vm_compute; reflexivity). assert (length (starts (a_trace (b_run never never).1)) = 2%nat) as Hs by (vm_compute; reflexivity).
  pose proof (@budget_balanced amd64 order_id half_math no_urls b_sv (b_env false never never) a_req "t" b_new (b_env_ok _ _ _) b_reach) as Hc.
  unfold b_run in *. destruct (forwardRegistry _ _ _ _ _) as [s o]. cbn [fst snd] in *. rewrite Hs in Hc. apply Hc. left. by exists true.
Defined.

Lemma relay_intact_witness :
  let '(s, o) := @relay amd64 order_id half_math no_urls b_sv broken [] (b_env false never never) (arriving b_new) in
  o = Ok () ∨ o = Panic true.
Proof.
  pose proof (@relay_intact amd64 order_id half_math no_urls b_sv (b_env false never never) broken [] (arriving b_new) eq_refl) as Hr.
  cbn beta zeta in Hr. destruct (relay _ _ _ _ _) as [s o]. apply Hr; [cbn; lia|done].
Defined.
