(* ===== verification/AttemptPhase.v ===== *)
(** * The retryable phase of an attempt

    Who was first: the response or the first-byte deadline.  The moments of a request are the
    numbers of its calls; they only grow, whatever the other goroutines do, and the timers
    of an attempt fire at some of them.  From the start of an attempt to the end of its phase, the
    guard is disarmed exactly by a response that is kept, and what it says of the deadline is what
    fired before. *)

From Stdlib Require Import Ascii String SpecFloat.
From S2P Require Import Prelude GoFloat FloatExact GoString GoSort SlidingWindow Breaker Breakers Queue Budget Protocol Cost Scheduler SchedulerSpec History Tracker TrackerSpec Snapshot Api Tokens Router RouterSpec Attempt AttemptSpec AttemptMain.

Local Open Scope string_scope.
Local Open Scope list_scope.
Local Open Scope Z_scope.

#[local] Existing Instance any_workers.

(** ** Call numbers grow. *)

Section Rising.
Context `{GoPlatform} `{GoMapOrder} `{GoMath} `{UrlParser} (cfg : RouterCfg).

Definition rising {A} (m : M A) : Prop := ∀ env s, (r_calls s ≤ r_calls (m env s).1)%nat.

Lemma rising_bind {A B} (m : M A) (f : A → M B) : rising m → (∀ a, rising (f a)) → rising (bind m f).
Proof. intros Hm Hf env s. unfold bind. pose proof (Hm env s) as Hs. destruct (m env s) as [s1 a]. etrans; [exact Hs|apply Hf]. Qed.

Lemma rising_same {A} (m : M A) : (∀ env s, r_calls (m env s).1 = r_calls s) → rising m.
Proof. intros Hm env s. by rewrite Hm. Qed.

Lemma rising_call {A} (f : Time → World → World * A) : rising (call f).
Proof. intros env s. unfold call. destruct (f _ _). cbn. lia. Qed.

Lemma rising_select req ws : rising (select cfg req ws).
Proof. intros env s. unfold select. destruct (SelectWorker _ _ _ _ _ _). cbn. lia. Qed.

Lemma rising_mapM {A B} (f : A → M B) l : (∀ a, rising (f a)) → rising (mapM_ f l).
Proof. intros Hf. induction l as [|a l IH]; cbn [mapM_]; [by apply rising_same|]. apply rising_bind; [done|intros b]. apply rising_bind; [done|intros bs]. by apply rising_same. Qed.

Ltac rise1 :=
  match goal with
  | |- rising (bind _ _) => apply rising_bind; [|intros ?]
  | |- rising (call _) => apply rising_call
  | |- rising (call_res _) => apply rising_call
  | |- rising (call_sig _) => apply rising_call
  | |- rising (call_breakers _) => apply rising_call
  | |- rising (call_queue _) => apply rising_call
  | |- rising (read_cache _) => apply rising_call
  | |- rising (select _ _ _) => apply rising_select
  | |- rising (mapM_ _ _) => apply rising_mapM; intros ?
  | |- rising (match _ with _ => _ end) => case_match
  | |- rising _ => assumption || by apply rising_same
  end.

Lemma rising_deliver fuel : rising (deliver fuel).
Proof. induction fuel as [|fuel IH]; cbn [deliver]; repeat rise1. Qed.

Lemma rising_flush_rounds fuel : rising (flush_rounds fuel).
Proof. induction fuel as [|fuel IH]; cbn [flush_rounds]; [by apply rising_same|]. pose proof (rising_deliver (S fuel)). repeat rise1. Qed.

Lemma rising_flush : rising flush.
Proof. unfold flush. apply rising_bind; [by apply rising_same|]. apply rising_flush_rounds. Qed.

Lemma rising_sync members models : rising (sync members models).
Proof. pose proof rising_flush. unfold sync. repeat rise1. Qed.

Lemma rising_view model : rising (view model).
Proof. pose proof rising_sync. unfold view, sync_aged. repeat (rise1 || auto). Qed.

Lemma rising_overlay w now : rising (overlay w now).
Proof. unfold overlay. repeat rise1. Qed.

Lemma rising_enqueue req tenant counts : rising (enqueueLocked req tenant counts).
Proof. unfold enqueueLocked. repeat rise1. Qed.

Lemma rising_reserve_loop fuel req ws broke wait : rising (reserve_loop cfg fuel req ws broke wait).
Proof.
  pose proof rising_enqueue. revert ws broke. induction fuel as [|fuel IH]; intros ws broke; cbn [reserve_loop]; [by apply rising_same|].
  unfold take_slot, refuse_route. repeat (rise1 || auto).
Qed.

Lemma rising_reserve req ws viewAt broke wait : rising (reserve cfg req ws viewAt broke wait).
Proof.
  pose proof rising_enqueue. pose proof rising_overlay. pose proof rising_reserve_loop.
  unfold reserve, overlay_all, overlay_work, overlay_plain. destruct (rc_workAware cfg); repeat (rise1 || auto).
Qed.

Lemma rising_route req wait exclude : rising (route cfg req wait exclude).
Proof.
  pose proof rising_view. pose proof rising_reserve. unfold route, filter_broken, admissible_pass. repeat (rise1 || auto).
Qed.

Lemma rising_release h : rising (release h).
Proof.
  intros env s. unfold release. destruct (r_routeds s !! h) as [rt|]; [|done]. destruct (rt_released rt); [done|].
  assert (rising (releaseSlot rt)) as Hr by (unfold releaseSlot, handoffLocked; repeat rise1). match goal with |- context [releaseSlot rt env ?t] => exact (Hr env t) end.
Qed.

Lemma rising_charge h req : rising (charge cfg h req).
Proof.
  intros env s. unfold charge. destruct (r_routeds s !! h) as [rt|]; [|done]. case_match; [done|]. pose proof (rising_call (λ now w, match wd_sig w with None => (w, None) | Some t => let '(t, a) := AddCost t (rt_lease rt) (requestCost cfg req) in (w <| wd_sig := Some t |>, Some a) end) env s) as Hc.
  unfold call_sig. destruct (call _ env s) as [s1 a]. cbn [fst snd] in *. by case_match.
Qed.

Lemma rising_rop o env s : (r_calls s ≤ r_calls (run_rop cfg o env s))%nat.
Proof.
  pose proof rising_route. pose proof rising_release. pose proof rising_charge. pose proof rising_sync. pose proof rising_view. pose proof rising_overlay.
  destruct o; cbn [run_rop]; match goal with |- (_ ≤ r_calls (fst (?m _ _)))%nat => enough (rising m) as Hm by apply Hm end; auto.
  - unfold await_round, observe_wait, shed_wait. repeat (rise1 || auto).
  - unfold reroute_round, Route, observe_wait. repeat (rise1 || auto).
  - unfold freeSlots, free_of. repeat (rise1 || auto).
  - unfold shedBeforeLimiter. repeat (rise1 || auto).
  - unfold Refresh, sync_stored, wakeWaiters, wake_model, freeSlots, free_of. repeat (rise1 || auto).
  - unfold beginDrain. repeat (rise1 || auto).
  - unfold drain_fired. repeat (rise1 || auto).
Qed.
End Rising.

(** ** What holds of an attempt from moment to moment. *)

Section Phase.
Context `{GoPlatform} `{GoMapOrder} `{GoMath} `{UrlParser} (sv : Server) (x : AEnv) (i : nat).

(** The number of the next call, and the attempt. *)
Definition run_is (I : nat → attemptRun → Prop) (s : AState) : Prop := ∃ r, a_runs s !! i = Some r ∧ I (r_calls (a_r s)) r.

(** What a moment keeps, whichever timers fire. *)
Definition lasting (I : nat → attemptRun → Prop) : Prop := ∀ n m h c d r, (n < m)%nat → I n r → I m (fire (px_deadline x n i) h c d r).

Definition Holds {A} (I : nat → attemptRun → Prop) (m : Pm A) : Prop := ∀ s, run_is I s → wp x m (λ _ s', run_is I s') s.

Lemma Holds_bind {A B} I (m : Pm A) (f : A → Pm B) : Holds I m → (∀ a, Holds I (f a)) → Holds I (pbind m f).
Proof. intros Hm Hf s Hs. apply wp_bind. eapply wp_mono; [by apply Hm|]. intros [a|b|] s' Hs'; [|done..]. by apply Hf. Qed.

Lemma Holds_id {A} I (m : Pm A) : (∀ s, a_runs (m x s).1 = a_runs s ∧ a_r (m x s).1 = a_r s) → Holds I m.
Proof. intros Hm s (r & Hr & HI). exists r. by destruct (Hm s) as [-> ->]. Qed.

Lemma others_rise l r : (r_calls r ≤ r_calls (foldl (λ r oe, run_rop (sv_router sv) oe.1 oe.2 r) r l))%nat.
Proof. revert r. induction l as [|[o e] l IH]; intros r; [done|]. cbn [foldl fst snd]. etrans; [apply (rising_rop (sv_router sv) o e)|apply IH]. Qed.

Lemma step_run s r : a_runs s !! i = Some r → ∃ s' h c, step sv x s = (s', Ok (r_calls (a_r s))) ∧
  a_runs s' !! i = Some (fire (px_deadline x (r_calls (a_r s)) i) h c (a_gone s') r) ∧ (r_calls (a_r s) < r_calls (a_r s'))%nat.
Proof.
  intros Hr. unfold step. do 3 eexists. split; [done|]. cbn. rewrite list_lookup_imap, Hr. split; [done|].
  pose proof (others_rise (px_others x (r_calls (a_r s))) (a_r s)). lia.
Qed.

Lemma Holds_step I : lasting I → Holds I (step sv).
Proof. intros Hl s (r & Hr & HI). destruct (step_run s r Hr) as (s' & h & c & E & Hr' & Hn). unfold wp. rewrite E. eexists. split; [done|]. by apply Hl. Qed.

Lemma Holds_set (I : nat → attemptRun → Prop) f : (∀ n r, I n r → I n (f r)) → Holds I (set_run i f).
Proof. intros Hf s (r & Hr & HI). exists (f r). cbn. rewrite list_lookup_alter_eq, Hr. auto. Qed.

Lemma Holds_guard {A} (I : nat → attemptRun → Prop) (f : phaseGuard → phaseGuard * A) :
  lasting I → (∀ n r g, ar_guard r = Some g → I n r → I n (r <| ar_guard := Some (f g).1 |>)) → Holds I (guard_do sv i f).
Proof.
  intros Hl Hg s Hs. apply wp_bind. eapply wp_mono; [by apply (Holds_step _ Hl)|]. intros [n|b|] s1 Hs1; [|done..]. destruct Hs1 as (r & Hr & HI).
  apply wp_bind. eapply wp_run; [done|]. destruct (ar_guard r) as [g|] eqn:Eg; [|by exists r]. destruct (f g) as [g' a] eqn:Ef. apply wp_bind, wp_set, wp_ret.
  eexists. cbn. rewrite list_lookup_alter_eq, Hr. split; [done|]. specialize (Hg _ r g Eg HI). by rewrite Ef in Hg.
Qed.

Ltac holds1 :=
  match goal with
  | |- Holds _ (pbind _ _) => apply Holds_bind; [|intros ?]
  | |- Holds _ (step _) => by apply Holds_step
  | |- Holds _ (set_run _ _) => apply Holds_set
  | |- Holds _ (guard_do _ _ _) => apply Holds_guard
  | |- Holds _ (match _ with _ => _ end) => case_match
  | |- Holds _ (foreign _) => unfold foreign, asks
  | |- Holds _ (gone _) => unfold gone
  | |- Holds _ (asks _ _) => unfold asks
  | |- Holds _ _ => by apply Holds_id
  end.

Lemma fire_class a b c d r : ar_class (fire a b c d r) = ar_class r.
Proof. unfold fire. by repeat case_match. Qed.

(** What the attempt ended in. *)
Definition run_result (r : attemptRun) : option Response * list (list Z) * option GoErr * string * bool := (ar_resp r, ar_src r, ar_err r, ar_class r, ar_retryable r).

Lemma fire_result a b c d r : run_result (fire a b c d r) = run_result r.
Proof. unfold fire. by repeat case_match. Qed.

(** The guard after a moment, as far as the deadline is concerned. *)
Lemma fire_guard a b c d r g : ar_guard r = Some g → ∃ g', ar_guard (fire a b c d r) = Some g' ∧ pg_done g' = pg_done g ∧
  pg_deadlineHit g' = pg_deadlineHit g || (negb (pg_done g) && a) ∧ (pg_done g = true → g' = g).
Proof.
  intros Hg. unfold fire. rewrite Hg. unfold onDeadline, onHeader. destruct g as [dn hd dl hh ht]. destruct dn, a, b, hd, ht; cbn; eexists; (split; [done|]); by destruct dl.
Qed.

(** The moments from [lo] to [n] at which the deadline fired. *)
Definition fired (b : bool) (lo n : nat) : Prop := ∃ k, (lo ≤ k < n)%nat ∧ px_deadline x k i = b.

Lemma fired_le b lo n m : (n ≤ m)%nat → fired b lo n → fired b lo m.
Proof. intros Hm (k & Hk & Hd). exists k. split; [lia|done]. Qed.

(** An attempt in its phase, started at [lo]: the guard is ended or not, and says what fired. *)
Definition in_phase (done : bool) (lo n : nat) (r : attemptRun) : Prop :=
  (lo ≤ n)%nat ∧ ar_class r ≠ classDeadline ∧
  ∃ g, ar_guard r = Some g ∧ pg_done g = done ∧ if pg_deadlineHit g then fired true lo n else fired false lo n.

Lemma phase_lasting done lo : lasting (in_phase done lo).
Proof.
  intros n m h c d r Hm (Hlo & Hc & g & Hg & Hd & Hh). split; [lia|]. split; [by rewrite fire_class|].
  destruct (fire_guard (px_deadline x n i) h c d r g Hg) as (g' & Hg' & Hd' & Hh' & _). exists g'. split_and!; [done|congruence|]. rewrite Hh'.
  destruct (pg_deadlineHit g); cbn; [apply (fired_le _ _ n); [lia|done]|]. destruct (negb (pg_done g) && px_deadline x n i) eqn:E; [|apply (fired_le _ _ n); [lia|done]].
  apply andb_prop in E as [_ E]. exists n. split; [lia|done].
Qed.

(** Without a response. *)
Definition waiting (lo n : nat) (r : attemptRun) : Prop := in_phase false lo n r ∧ ar_resp r = None.

Lemma waiting_lasting lo : lasting (waiting lo).
Proof. intros n m h c d r Hm [Hp Hr]. split; [by apply (phase_lasting _ _ n)|]. pose proof (fire_result (px_deadline x n i) h c d r) as E. unfold run_result in E. congruence. Qed.

(** The wire was read: a response is in hand exactly if the guard was ended. *)
Definition read (lo n : nat) (r : attemptRun) : Prop := in_phase (bool_decide (is_Some (ar_resp r))) lo n r.

Lemma phase_set done lo f : (∀ r, ar_class r ≠ classDeadline → ar_class (f r) ≠ classDeadline) → (∀ r, ar_guard (f r) = ar_guard r) → ∀ n r, in_phase done lo n r → in_phase done lo n (f r).
Proof. intros Hc Hg n r (Hlo & Hcl & Hgd). split_and!; [done|auto|]. by rewrite Hg. Qed.

Lemma waiting_set lo f :
  (∀ r, ar_class r ≠ classDeadline → ar_class (f r) ≠ classDeadline) → (∀ r, ar_guard (f r) = ar_guard r) → (∀ r, ar_resp (f r) = ar_resp r) → ∀ n r, waiting lo n r → waiting lo n (f r).
Proof. intros Hc Hg Hr n r [Hp Hn]. split; [by apply phase_set|]. by rewrite Hr. Qed.

Lemma waiting_read lo n r : waiting lo n r → read lo n r.
Proof. intros [Hp Hr]. unfold read. rewrite bool_decide_eq_false_2; [done|]. rewrite Hr. by intros [? ?]. Qed.

(** The response is kept: the guard is ended. *)
Lemma wp_arrived lo s : run_is (λ n r, in_phase false lo n r ∧ is_Some (ar_resp r)) s → wp x (arrived sv i) (λ _ s', run_is (read lo) s') s.
Proof.
  intros (r & Hr & Hp & Hresp). destruct (step_run s r Hr) as (s1 & h & c & E & Hr1 & Hn). apply wp_bind, wp_bind. unfold wp at 1. rewrite E.
  pose proof (phase_lasting false lo _ _ h c (a_gone s1) r Hn Hp) as (Hlo & Hcl & g & Hg & Hd & Hh).
  pose proof (fire_result (px_deadline x (r_calls (a_r s)) i) h c (a_gone s1) r) as Hres. set (r1 := fire _ _ _ _ _) in *.
  apply wp_bind. eapply wp_run; [done|]. rewrite Hg. cbn [guard_end]. apply wp_bind, wp_set, wp_ret, wp_ret.
  eexists. cbn. rewrite list_lookup_alter_eq, Hr1. split; [done|]. unfold read, in_phase. cbn. unfold run_result in Hres. rewrite bool_decide_eq_true_2 by (injection Hres as -> _; done).
  split_and!; [done..|]. by eexists.
Qed.

Lemma phase_guard done lo n r g g' : ar_guard r = Some g → pg_done g' = pg_done g → pg_deadlineHit g' = pg_deadlineHit g → in_phase done lo n r → in_phase done lo n (r <| ar_guard := Some g' |>).
Proof.
  intros Hg Hfd Hfh (Hlo & Hc & g1 & Hg1 & Hd & Hh). rewrite Hg in Hg1. injection Hg1 as <-. split_and!; [done..|]. exists g'. cbn. rewrite Hfd, Hfh. done.
Qed.

Lemma policy_class p code class : policy_status p code = Some class → class ≠ classDeadline.
Proof. unfold policy_status. case_match; [|done]. by intros [= <-]. Qed.

Lemma wire_class e : (transportError e).1 ≠ classDeadline.
Proof. unfold transportError. by repeat case_match. Qed.

Lemma first_chunk_class e : (firstChunkError e).1 ≠ classDeadline.
Proof. unfold firstChunkError. by repeat case_match. Qed.

Lemma header_waiting lo answer : Holds (waiting lo) (header_checked sv i answer).
Proof.
  pose proof (waiting_lasting lo) as Hl. unfold header_checked. repeat holds1; try done.
  all: intros n r g Hg [Hp Hr]; split; [|done]; by apply (phase_guard _ _ _ _ g).
Qed.

Lemma phase_foreign done lo : Holds (in_phase done lo) (foreign sv).
Proof. pose proof (phase_lasting done lo). repeat holds1. Qed.

Lemma waiting_foreign lo : Holds (waiting lo) (foreign sv).
Proof. pose proof (waiting_lasting lo). repeat holds1. Qed.

Lemma wp_holding {A} I (m : Pm A) (k : A → Pm ()) R s : Holds I m → run_is I s → (∀ a s', run_is I s' → wp x (k a) (λ o s'', o = Ok () → R s'') s') → wp x (pbind m k) (λ o s'', o = Ok () → R s'') s.
Proof. intros Hm Hs Hk. apply wp_bind. eapply wp_mono; [by apply Hm|]. intros [a|b|] s' Hs'; [auto|done..]. Qed.

Lemma wp_first_byte lo resp s : run_is (λ n r, in_phase false lo n r ∧ is_Some (ar_resp r)) s → wp x (first_byte sv i resp) (λ o s', o = Ok () → run_is (read lo) s') s.
Proof.
  intros Hs. apply wp_bind, wp_set. apply wp_bind.
  match goal with |- wp _ _ _ ?t => assert (run_is (in_phase false lo) t) as Hs1 end.
  { destruct Hs as (r & Hr & Hp & _). eexists. cbn. rewrite list_lookup_alter_eq, Hr. split; [done|]. by apply phase_set. }
  eapply wp_mono; [by apply phase_foreign|]. intros [[]|b|] s2 Hs2; [|done..]. destruct (read_first (re_body resp)) as [[c rest]|].
  - apply wp_bind, wp_set. eapply wp_mono; [apply (wp_arrived lo)|by intros].
    destruct Hs2 as (r & Hr & Hp). eexists. cbn. rewrite list_lookup_alter_eq, Hr. split; [done|]. split; [by apply phase_set|by eexists].
  - pose proof (phase_lasting false lo) as Hl. unfold set_err, set_class. eapply wp_holding; [|exact Hs2|].
    { apply Holds_set. by apply phase_set. }
    intros _ s3 Hs3. eapply (wp_holding (in_phase false lo)); [repeat holds1|done|]. intros g s4 Hs4. eapply (wp_holding (in_phase false lo)); [|done|].
    { repeat holds1; apply phase_set; try done. intros; apply first_chunk_class. }
    intros _ s5 Hs5. eapply wp_holding; [apply phase_foreign|done|]. intros _ s6 (r & Hr & Hp). apply wp_set. intros _. eexists. cbn. rewrite list_lookup_alter_eq, Hr.
    split; [done|]. apply waiting_read. split; [by apply phase_set|done].
Qed.

Lemma wp_send_wire lo s : run_is (waiting lo) s → wp x (send_wire sv i) (λ o s', o = Ok () → run_is (read lo) s') s.
Proof.
  intros Hs. pose proof (waiting_lasting lo) as Hl. apply wp_bind. eapply wp_mono; [by apply waiting_foreign|]. intros [[]|b|] s1 Hs1; [|done..].
  apply wp_bind. assert (Holds (waiting lo) (asks sv px_do)) as Ha by (repeat holds1). eapply wp_mono; [by apply Ha|]. intros [answer|b|] s2 Hs2; [|done..].
  apply wp_bind. eapply wp_mono; [by apply header_waiting|]. intros [[e|resp]|b|] s3 Hs3; [| |done..].
  - eapply wp_mono with (Q := λ _ s', run_is (waiting lo) s'); [|intros o s' (r & Hr & Hw) _; exists r; split; [done|by apply waiting_read]].
    assert (Holds (waiting lo) (set_err i e ;? let? g := gone sv in if g then pret () else foreign sv ;? set_class i (transportError e))) as Hh; [|by apply Hh].
    unfold set_err, set_class. repeat holds1; try done; apply waiting_set; try done. intros r _. apply wire_class.
  - case_match.
    { eapply wp_mono with (Q := λ _ s', run_is (waiting lo) s'); [|intros o s' (r & Hr & Hw) _; exists r; split; [done|by apply waiting_read]].
      assert (Holds (waiting lo) (foreign sv ;? set_err i errUnexpectedStatus)) as Hh; [|by apply Hh]. unfold set_err. repeat holds1; try done. }
    apply wp_bind, wp_set. match goal with |- wp _ _ _ ?t => assert (run_is (λ n r, in_phase false lo n r ∧ is_Some (ar_resp r)) t) as Hs4 end.
    { destruct Hs3 as (r & Hr & Hp & _). eexists. cbn. rewrite list_lookup_alter_eq, Hr. split; [done|]. split; [by apply phase_set|by eexists]. }
    destruct (policy_status _ _) as [class|] eqn:Hp; [|case_match; [eapply wp_mono; [by apply wp_arrived|by intros]|by apply wp_first_byte]].
    apply wp_bind, wp_set. eapply wp_mono; [apply (wp_arrived lo)|by intros]. destruct Hs4 as (r & Hr & Hph & Hre). eexists. cbn. rewrite list_lookup_alter_eq. cbn in Hr. rewrite Hr.
    split; [done|]. split; [|done]. destruct Hph as (Hlo & _ & Hgd). split_and!; [done|by eapply policy_class|done].
Qed.

(** *** The start. *)

(** Before the guard is there. *)
Definition starting (lo n : nat) (r : attemptRun) : Prop := (lo ≤ n)%nat ∧ ar_class r ≠ classDeadline ∧ ar_resp r = None.

Lemma starting_lasting lo : lasting (starting lo).
Proof.
  intros n m h c d r Hm (Hlo & Hc & Hr). pose proof (fire_result (px_deadline x n i) h c d r) as E. unfold run_result in E.
  split_and!; [lia|by rewrite fire_class|congruence].
Qed.

Lemma starting_now lo : Holds (starting lo) (now sv).
Proof.
  apply Holds_bind; [apply Holds_step, starting_lasting|]. intros _ s (r & Hr & Hlo & Hc). unfold wp, call. cbn. exists r. split; [done|]. split; [cbn; lia|done].
Qed.

(** The first moment of the guard. *)
Lemma wp_first_moment lo h s : run_is (λ n r, starting lo n r ∧ ar_guard r = Some (newPhaseGuard h)) s → wp x (foreign sv) (λ _ s', run_is (waiting lo) s') s.
Proof.
  intros (r & Hr & (Hlo & Hc & Hn) & Hg). destruct (step_run s r Hr) as (s1 & a & b & E & Hr1 & Hlt). unfold foreign, asks.
  apply wp_bind, wp_bind. unfold wp at 1. rewrite E. unfold wp. cbn [fst snd].
  pose proof (starting_lasting lo _ _ a b (a_gone s1) r Hlt (conj Hlo (conj Hc Hn))) as (Hlo1 & Hc1 & Hn1).
  destruct (fire_guard (px_deadline x (r_calls (a_r s)) i) a b (a_gone s1) r _ Hg) as (g & Hg1 & Hd & Hh & _). cbn in Hd, Hh. set (r1 := fire _ _ _ _ _) in *.
  assert (waiting lo (r_calls (a_r s1)) r1) as Hw.
  { split; [|done]. split_and!; [done..|]. exists g. split_and!; [done..|]. rewrite Hh. destruct (px_deadline x (r_calls (a_r s)) i) eqn:Ed; exists (r_calls (a_r s)); (split; [lia|done]). }
  destruct (px_panic x (r_calls (a_r s))); by exists r1.
Qed.

Lemma wp_startAttempt rs run s : sv_res sv = Some rs → a_runs s !! i = Some run → ar_class run ≠ classDeadline → ar_resp run = None →
  wp x (startAttempt sv i) (λ o s', o = Ok () → run_is (waiting (r_calls (a_r s))) s') s.
Proof.
  intros Hrs Hrun Hc Hn. apply wp_bind. eapply wp_run; [done|]. apply wp_bind, wp_gets. apply wp_bind, wp_info. apply wp_bind, wp_set. apply wp_bind, wp_info. apply wp_bind, wp_emit.
  match goal with |- wp _ _ _ ?t => assert (run_is (starting (r_calls (a_r s))) t) as Hs1 by (eexists; cbn; by rewrite list_lookup_alter_eq, Hrun) end.
  rewrite Hrs. apply wp_bind. apply wp_bind. eapply wp_mono; [by apply starting_now|]. intros [t|b|] s2 Hs2; [|done..]. destruct Hs2 as (r2 & Hr2 & Hst).
  apply wp_set. eapply wp_mono; [eapply (wp_first_moment (r_calls (a_r s)))|by intros]. eexists. cbn. rewrite list_lookup_alter_eq, Hr2. split; [done|]. by split.
Qed.

Lemma wp_phase rs run s : sv_res sv = Some rs → a_runs s !! i = Some run → ar_class run ≠ classDeadline → ar_resp run = None →
  wp x (startAttempt sv i ;? sendOnce sv i) (λ o s', o = Ok () → run_is (read (r_calls (a_r s))) s') s.
Proof.
  intros Hrs Hrun Hc Hn. apply wp_bind. eapply wp_mono; [by eapply wp_startAttempt|]. intros [[]|b|] s1 Hs1; [|done..]. apply wp_bind, wp_emit. apply wp_send_wire.
  by apply Hs1.
Qed.

(** *** The end. *)

(** A guard that is done stays as it is. *)
Definition guarded_by (g : phaseGuard) (r : attemptRun) : Prop := pg_done g = true ∧ ar_guard r = Some g.

Definition deadlined (r : attemptRun) : Prop := ar_class r = classDeadline ∧ ar_err r = Some deadlineError ∧ ar_resp r = None ∧ ar_retryable r = false.

Lemma guarded_lasting g (J : attemptRun → Prop) : (∀ a b c d r, J r → J (fire a b c d r)) → lasting (λ _ r, guarded_by g r ∧ J r).
Proof.
  intros HJ n m h c d r _ [[Hd Hg] Hr]. split; [|auto]. split; [done|]. destruct (fire_guard (px_deadline x n i) h c d r g Hg) as (g' & Hg' & _ & _ & He). by rewrite <-(He Hd).
Qed.

Lemma deadlined_fire a b c d r : deadlined r → deadlined (fire a b c d r).
Proof. intros (? & ? & ? & ?). unfold deadlined, fire. by repeat case_match. Qed.

Lemma fire_inert d h g r : guarded_by g r → fire d h false false r = r.
Proof.
  intros [Hd Hg]. destruct r. cbn in *. subst. unfold fire, onDeadline, onHeader. cbn. rewrite Hd. destruct d, h; cbn; rewrite ?Hd, ?orb_true_r; cbn; by rewrite ?orb_false_r.
Qed.

Lemma wp_mark g J s : (∀ a b c d r, J r → J (fire a b c d r)) → run_is (λ _ r, guarded_by g r ∧ J r) s →
  wp x (markDeadline sv i) (λ o s', o = Ok () → run_is (λ _ r, guarded_by g r ∧ deadlined r) s') s.
Proof.
  intros HJ Hs. pose proof (guarded_lasting g J HJ) as Hl. pose proof (guarded_lasting g deadlined deadlined_fire) as Hl2.
  apply wp_bind. pose proof Hs as (r & Hr & _). eapply wp_run; [done|]. eapply wp_holding; [|exact Hs|]; [repeat holds1|]. intros _ s1 (r1 & Hr1 & Hg1 & _).
  apply wp_bind, wp_set. assert (Holds (λ _ r, guarded_by g r ∧ deadlined r) (foreign sv)) as Hf by (repeat holds1). eapply wp_mono; [apply Hf|by intros].
  eexists. cbn. rewrite list_lookup_alter_eq, Hr1. done.
Qed.

(** The guard as the end of the phase at call [n] leaves it. *)
Definition ended (n : nat) (g : phaseGuard) (g' : phaseGuard) : Prop :=
  pg_done g' = true ∧ pg_deadlineHit g' = pg_deadlineHit g || (negb (pg_done g) && px_deadline x n i).

Lemma wp_guard_end s r g : a_runs s !! i = Some r → ar_guard r = Some g →
  wp x (guard_do sv i guard_end) (λ o s', ∃ g', ended (r_calls (a_r s)) g g' ∧ run_is (λ _ r', guarded_by g' r' ∧ run_result r' = run_result r) s' ∧ o = Ok (Some (pg_deadlineHit g'))) s.
Proof.
  intros Hr Hg. destruct (step_run s r Hr) as (s1 & h & c & E & Hr1 & _). apply wp_bind. unfold wp at 1. rewrite E.
  destruct (fire_guard (px_deadline x (r_calls (a_r s)) i) h c (a_gone s1) r g Hg) as (g1 & Hg1 & Hd1 & Hh1 & _).
  pose proof (fire_result (px_deadline x (r_calls (a_r s)) i) h c (a_gone s1) r) as Hres. set (r1 := fire _ _ _ _ _) in *.
  apply wp_bind. eapply wp_run; [done|]. rewrite Hg1. cbn [guard_end]. apply wp_bind, wp_set, wp_ret. exists (g1 <| pg_done := true |>). split; [done|]. split; [|done].
  eexists. cbn. rewrite list_lookup_alter_eq, Hr1. done.
Qed.

(** What the end of the phase makes of an attempt: [r] before, [r'] after. *)
Definition decided (n : nat) (r : attemptRun) (g : phaseGuard) (s' : AState) : Prop := ∃ r' g', a_runs s' !! i = Some r' ∧ guarded_by g' r' ∧ ended n g g' ∧
  if pg_deadlineHit g' then deadlined r' ∨ (a_gone s' = true ∧ run_result r' = run_result r) else run_result r' = run_result r.

Lemma wp_endPhase s r g : a_runs s !! i = Some r → ar_guard r = Some g → wp x (endPhase sv i) (λ o s', o = Ok () → decided (r_calls (a_r s)) r g s') s.
Proof.
  intros Hr Hg. apply wp_bind. eapply wp_mono; [by eapply wp_guard_end|]. intros o s1 (g' & He & Hs1 & ->). cbn [default]. destruct (pg_deadlineHit g') eqn:Hhit.
  - assert (∀ a b c d r', run_result r' = run_result r → run_result (fire a b c d r') = run_result r) as HJ by (intros; by rewrite fire_result).
    pose proof (guarded_lasting g' _ HJ) as Hl. apply wp_bind. unfold wp at 1. assert (Holds (λ _ r', guarded_by g' r' ∧ run_result r' = run_result r) (gone sv)) as Hh by (repeat holds1).
    specialize (Hh s1 Hs1). unfold wp in Hh. destruct (gone sv x s1) as [s2 o2] eqn:E. cbn [fst snd] in *.
    assert (o2 = Ok (a_gone s2)) as -> by (unfold gone, pbind, step in E; by injection E as <- <-). destruct (a_gone s2) eqn:Hgo.
    + intros _. destruct Hh as (r2 & Hr2 & Hg2 & Hres). exists r2, g'. rewrite Hhit. split_and!; [done..|]. by right.
    + eapply wp_mono; [by apply (wp_mark g' (λ r', run_result r' = run_result r))|]. intros o s3 Ho Hok. destruct (Ho Hok) as (r3 & ? & ? & ?). exists r3, g'. rewrite Hhit. split_and!; [done..|]. by left.
  - intros _. destruct Hs1 as (r1 & ? & ? & ?). exists r1, g'. by rewrite Hhit.
Qed.
End Phase.

(** C20: the first byte and the first-byte deadline are decided once.  However the deadline, the
    header timer, the idle timer and the response of an attempt fall, when the wire was read the guard
    is disarmed exactly if a response is in hand, and what it says of the deadline is what happened since
    the attempt started: it was hit only if the deadline fired at one of these moments, and not
    hit only if there was one at which it did not fire.  The end of the phase then adds the deadline
    only if no response had come: with a response in hand a deadline that fires now is too late.
    When the deadline was first the attempt is a deadline failure without a response that is not
    retried, or the client has left and the attempt is as it was; when it was not, the attempt
    is as it was and no deadline failure.  Timers that fire later change nothing. *)
Theorem deadline_decides `{GoPlatform} `{GoMapOrder} `{GoMath} `{UrlParser} sv rs x i run s s1 :
  sv_res sv = Some rs → a_runs s !! i = Some run → ar_class run = "" → ar_resp run = None →
  (startAttempt sv i ;? sendOnce sv i) x s = (s1, Ok ()) →
  ∃ run1 g1, a_runs s1 !! i = Some run1 ∧ ar_guard run1 = Some g1 ∧ pg_done g1 = bool_decide (is_Some (ar_resp run1)) ∧
    (∃ n, (r_calls (a_r s) ≤ n < r_calls (a_r s1))%nat ∧ px_deadline x n i = pg_deadlineHit g1) ∧
    let '(s', o) := (startAttempt sv i ;? sendAttempt sv i) x s in
    o = Ok () →
    ∃ run' g', a_runs s' !! i = Some run' ∧ ar_guard run' = Some g' ∧ pg_done g' = true ∧
      pg_deadlineHit g' = pg_deadlineHit g1 || (negb (pg_done g1) && px_deadline x (r_calls (a_r s1)) i) ∧
      (if pg_deadlineHit g' then
         (ar_class run' = classDeadline ∧ ar_err run' = Some deadlineError ∧ ar_resp run' = None ∧ ar_retryable run' = false) ∨
         (a_gone s' = true ∧ run_result run' = run_result run1)
       else run_result run' = run_result run1 ∧ ar_class run' ≠ classDeadline) ∧
      (∀ deadline header, fire deadline header false false run' = run').
Proof.
  intros Hrs Hrun Hc Hn E. pose proof (wp_phase sv x i rs run s Hrs Hrun ltac:(by rewrite Hc) Hn) as Hw. unfold wp in Hw. rewrite E in Hw.
  destruct (Hw eq_refl) as (r1 & Hr1 & Hlo & Hcl & g1 & Hg1 & Hd & Hh). exists r1, g1. split_and!; [done..| |].
  { destruct (pg_deadlineHit g1); destruct Hh as (n & ? & ?); by exists n. }
  assert ((startAttempt sv i ;? sendAttempt sv i) x s = endPhase sv i x s1) as ->.
  { revert E. unfold sendAttempt, pbind. destruct (startAttempt sv i x s) as [s0 [[]|b|]]; [|done..]. by intros ->. }
  pose proof (wp_endPhase sv x i s1 r1 g1 Hr1 Hg1) as He. unfold wp in He. destruct (endPhase sv i x s1) as [s' o]. intros Ho.
  destruct (He Ho) as (r' & g' & Hr' & [Hd' Hg'] & [_ Hh'] & Hres). exists r', g'. split_and!; [done..| |].
  - destruct (pg_deadlineHit g'); [done|]. split; [done|]. unfold run_result in Hres. congruence.
  - intros d h. by eapply fire_inert.
Qed.

(** ** An attempt whose deadline fires from a call on. *)

Definition late_env (m : nat) : AEnv :=
  let x := b_env false never never in
  mkAEnv (px_env x) (px_others x) (λ n _, (m <=? n)%nat) (px_header x) (px_idle x) (px_do x) (px_peek x) (px_wait x) (px_rand x) (px_write x) (px_panic x) (px_closePanic x) (px_waits x).

(** The first attempt of the request, about to start. *)
Definition b_first : AState :=
  ((let? t := @reserveFirstAttempt amd64 order_id half_math no_urls b_sv a_req "t" in match t with inl t => track t | inr _ => panic false end)
     (b_env false never never) (arriving b_new)).1.

Definition b_wire (m : nat) : AState * Ret () := (@startAttempt amd64 order_id half_math no_urls b_sv 0 ;? @sendOnce amd64 order_id half_math no_urls b_sv 0) (late_env m) b_first.
Definition b_sent (m : nat) : AState * Ret () := (@startAttempt amd64 order_id half_math no_urls b_sv 0 ;? @sendAttempt amd64 order_id half_math no_urls b_sv 0) (late_env m) b_first.

(** The response, a 503 to be retried, ends the guard at call 24: a deadline that fires then is in
    time, one that fires at call 25, when the phase ends, is not. *)
Example b_just_in_time : (ar_class <$> a_runs (b_sent 24).1 !! 0%nat) = Some classDeadline ∧ (ar_class <$> a_runs (b_sent 25).1 !! 0%nat) = policy_status (sv_retry b_sv) 503.
Proof. split; vm_compute; reflexivity. Qed.

Lemma deadline_decides_witness : ∃ run1, a_runs (b_wire 25).1 !! 0%nat = Some run1 ∧ is_Some (ar_resp run1) ∧
  ∃ run' g', a_runs (b_sent 25).1 !! 0%nat = Some run' ∧ ar_guard run' = Some g' ∧ pg_deadlineHit g' = false ∧ run_result run' = run_result run1.
Proof.
  assert (b_wire 25 = ((b_wire 25).1, Ok ())) as Ew by (vm_compute; reflexivity). assert ((b_sent 25).2 = Ok ()) as Eo by (vm_compute; reflexivity).
  assert (∃ run, a_runs b_first !! 0%nat = Some run ∧ ar_class run = "" ∧ ar_resp run = None) as (run & Hr & Hc & Hn) by (eexists; split_and!; vm_compute; reflexivity).
  assert ((λ r, (bool_decide (is_Some (ar_resp r)), pg_deadlineHit <$> ar_guard r)) <$> a_runs (b_wire 25).1 !! 0%nat = Some (true, Some false)) as Hf by (vm_compute; reflexivity).
  pose proof (@deadline_decides amd64 order_id half_math no_urls b_sv _ (late_env 25) 0%nat run b_first _ eq_refl Hr Hc Hn Ew) as (run1 & g1 & Hr1 & Hg1 & Hd & _ & He).
  rewrite Hr1 in Hf. cbn in Hf. rewrite Hg1 in Hf. cbn in Hf. injection Hf as Hf Hh. exists run1. split; [done|]. split; [by apply bool_decide_eq_true_1 in Hf|].
  unfold b_sent in *. destruct (pbind _ _ _ _) as [s' o]. cbn in Eo |- *. destruct (He Eo) as (run' & g' & Hr' & Hg' & _ & Hh' & Hres & _). exists run', g'.
  rewrite Hd, Hf, Hh in Hh'. cbn in Hh'. rewrite Hh' in Hres. split_and!; [done..|apply Hres].
Defined.
